(* ===== verification/_CoqProject ===== *)
-Q . S2P
Prelude.v
LruList.v
EvictionPolicy.v
PolicyTable.v
EvictionOptimized.v
SessionLists.v
FreeList.v
MemoryTier.v
Slab.v
Buddy.v
Region.v
Bytes.v
Checkpoint.v
Recovery.v
ExtentManager.v
ExtentRuns.v
ExtentStore.v
Coalesce.v
DispatchMap.v
Pins.v
Dispatcher.v
StorePath.v
StoreInvariant.v
StoreCalls.v
StoreBatch.v
BatchCalls.v
CacheSpec.v
WriteThrough.v
CacheSystem.v
CacheBatch.v
CacheService.v
CacheHazards.v
ShmQueue.v
Mailbox.v
Wire.v
RingClient.v
WireAgreement.v
Translator.v
ServerLogic.v
ServerSystem.v
ServerRuns.v
Fetch.v
MetaFormat.v
MetaStore.v
MetaFlush.v
Gpt.v
