(* ===== verification/Prelude.v ===== *)
(** * Certus: a verification library for the storage components

    Certus is a two-level cache for the key/value blocks of language models:
    clients store blocks in a pool of DMA-capable memory, which are written
    through to SSD extents, demoted when memory runs short and promoted again
    when they are asked for. This library models its storage components, each
    definition a translation of the Rust code named with it (paths under
    [src/]), and proves what the components promise and what their
    compositions promise.

    ** Parts of the program and the files that model them

    - [Prelude]: the vocabulary. A panic is the [Panic] of the [outcome] monad
      and a Rust [Result] the type [result]; machine integers are [Z] with
      checked operations at their width ([add_w], [sub_w], [mul_w]), as in a
      build with overflow checks; a [Vec] is a list whose indexing can panic
      ([vec_get], [vec_set]); a [HashMap] is a [gmap]; a [BTreeMap] is the
      sorted list of [Module BTree].
    - Eviction policies. [LruList]: the index-linked arena list of
      [eviction-policy-lru/src/lru_list.rs]. [EvictionPolicy]: the interface
      [IEvictionPolicy] as a class, its promises as the class
      [EvictionPolicyLaws], and the LRU component. [PolicyTable]: the table of
      pools the other two policies share. [EvictionOptimized]: the count-min
      sketch and the TinyLFU policy of [eviction-policy-optimized].
      [SessionLists]: the chains of blocks per session of
      [eviction-policy-session-lists]. All three policies discharge the laws;
      the memory tier, the dispatch map and the dispatcher are proved against
      the laws alone.
    - Memory. [FreeList]: the first-fit allocator of [memory-tier]. [MemoryTier]:
      the cache pool with its bounce area ([memory-tier/src/lib.rs]).
    - Extents. [Slab]: bitmaps, slabs and size classes; [Buddy]: the buddy
      allocator; [Region]: reservation, publication, removal and deferred frees;
      [Bytes] and [Checkpoint]: the superblock, the checkpoint codec and sector
      I/O; [Recovery]: the two-copy checkpoint protocol; [ExtentManager]: the
      component over all of them; [ExtentRuns]: its callers, with the handles
      and extents they have, over any sequence of calls; [ExtentStore]: the interface
      [IExtentManager] as a class with its laws, which the component keeps;
      [Coalesce]: the condition-variable protocol of [checkpoint()]. Sources
      under [extent-manager/src] and [interfaces/src].
    - Dispatch. [DispatchMap]: the entry table with its reference counts
      ([dispatch-map/src]); [Dispatcher]: SSD locations, I/O segmentation and the
      foreground eviction path ([dispatcher/src]).
    - The cache as a whole ([dispatcher/src/lib.rs], [background.rs]). [Pins]:
      the ledger through which remove and write-through jobs settle who frees a
      slot. [StorePath]: the calls of the dispatcher on a [World] of dispatch
      map, memory tier, drives with their extent managers, pin ledger, writer
      threads and memory; a call is one step, a write-through job is four, so
      that calls run between them. [StoreBatch]: the batch lookup, pass by pass,
      and the batch store. [StoreInvariant]: the invariant, a state per
      key ([key_state]) and per job, with the frame lemmas of each part.
      [StoreCalls], [BatchCalls] and [WriteThrough]: every call, job step and
      evictor pass keeps it. [CacheSpec]: the abstract cache, and the dispatcher
      as its clients see it, the class [IDispatcher] with the laws
      [DispatcherLaws]. [CacheSystem]: the refinement; [CacheBatch]: what the
      batch calls deliver; [CacheService]: the dispatcher keeps the laws.
      [CacheHazards]: interleavings and inputs outside its contract, evaluated.
    - Shared-memory mailbox ([lib/shm-queue]). [ShmQueue]: the layout of the
      segment; [Mailbox]: one channel's protocol as a step system with store
      buffers, crashes, takeover and timeouts.
    - Control protocol. [Wire]: the reader, the writer and the request decoders
      of the server ([lib/shmq-dispatcher/src/wire.rs], [translate.rs]).
      [RingClient]: the encoders, decoders and request splitting of the Python
      client ([certus-shmq-connector]: [ring.py], [handler.py], [gpu.py]).
      [WireAgreement]: the two sides agree.
    - Server ([lib/shmq-dispatcher/src/translate.rs], [serve.rs]). [Translator]:
      every operation as a resumption program, which stops at each call of the
      dispatcher and each access to the tables that the threads share (opened
      GPU mappings, pins of each channel, reservations), and the server as a
      step system of workers, sweeper, write-through jobs and evictions, so that
      other threads run between any two such stops. [ServerLogic]: a program
      logic for them, in which a thread owns claims, loose references and opened
      mappings; every operation is proved in it. [ServerSystem]: the abstract
      server, and that the server over any dispatcher with [DispatcherLaws]
      refines it. [ServerRuns]: the refinement over the dispatcher of
      [CacheService], and runs outside the contract, evaluated.
    - Fetches from peers ([lib/shmq-dispatcher/src/fetch.rs]). [Fetch]: runs of
      keys landing in a window of bytes, as a step system of the threads that
      start and complete them; dispatcher and transfer endpoint are its
      environment.
    - Extended metadata store. [MetaFormat]: the byte format with its CRC-32;
      [MetaStore]: the store, flush and recovery; [MetaFlush]: the flush worker
      and its tickets as a step system.
    - Partition table ([disk-partition-manager/src]). [Gpt]: layout, the two copies
      of the table, reading, formatting and the choice between them.

    ** What the theorems show

    - Crash safety: a checkpoint, a metadata flush, or the formatting of a
      partition table, stopped after any number
      of sector writes leaves a disk from which recovery returns the complete
      old or the complete new state.
    - Refinement and partition: each allocator and each index refines an
      abstract table, never panics on well-formed states, and hands out every
      byte at most once; what callers of the extent manager hold never overlaps,
      on any run from a formatted disk.
    - Protection: whatever a client holds a reference to is neither evicted nor
      removed, through all operations of the map and the eviction path.
    - The cache: under any interleaving of calls, job steps and evictions a
      lookup delivers the bytes of the last completed store of the key, a remove
      never waits for a write-through, a failed store leaves nothing behind, a
      quiet cache leaks neither slot nor extent, and a successful flush means
      that everything in memory is on a drive. The clients' side of the contract
      is [allowed]: they use only reservations and references they were given,
      a key always has the same size and is below [u64::MAX], the keys of a batch
      lookup are distinct, and a channel of every drive can be checked out.
      [clear_memory_tier] and [clear_all] are not among the events: [CacheHazards]
      shows what the former breaks.
    - Protocols: answers belong to the request they answer (when a client that
      gave up on a request releases the channel before the next), a successful
      [checkpoint] or [trigger_flush] is backed by a run that began after the
      call, and waiting calls are answered.
    - The wire: no payload breaks a decoder; what the client encodes the server
      decodes to the same entries; the compact forms of a request mean the same
      as the long form; requests and responses fit their slots.
    - The server: on every run of workers, sweeps, jobs and evictions that keeps
      the contract [legal], responses agree with the abstract cache, references
      are released only by the channel that took them, and a mapping is closed
      only when no request uses it. [legal] asks that requests keep
      each key's size and work on reservations no other request works on, that
      only free keys are reserved, that no reservation is reaped in the middle
      of its store, that copies to the store do not fail on the device, that
      channels of the drives can be checked out, that no worker exits, and that
      counters stay within their widths.
    - Fetches: a slot is handed out, written and then published or released once,
      bytes in flight stay within their limits or are a single slot's, and every
      fetch ends.
    - Round trips of every byte format, and bounds on layouts and sketches.
    - Error behaviour, among it interleavings and inputs in which the code does
      not do what it documents; these are stated as theorems on the same
      definitions.

    ** Bounds and fuel

    Loops that are not structural carry a bound that the code's own loop has:
    the number of attempts of an eviction, the length of a list that is scanned,
    the number of orders of the buddy allocator, [total / limit + 1] for the
    segmenter, four steps per job in flight for a flush of the writers, a slot
    or a poll per round of [clear_memory_tier]. For each the theorems show that
    the loop ends within it, [clear_memory_tier] apart, which is only evaluated.
    A loop that polls until a deadline takes the number of polls that the
    deadline allows as an argument. The
    number of sector writes a device completes is the parameter [budget]: the
    crash point.

    ** Not modelled

    Logging, telemetry and statistics. Memory orderings weaker than sequential
    consistency, except for the store buffers of [Mailbox]. The wrap-around of
    the 64-bit counters that only grow by one per operation (the clock of the
    session lists, access and dirty counts, tickets). What other threads can do
    inside a step: a call of [StorePath] is one step; the middle part of
    [run_checkpoint] takes all regions at once, where the code locks one after the
    other; a slot of a finished fetch is published, or refused and released, in one
    step. The text of errors. Foreign code: SPDK, CUDA,
    io_uring, RDMA and Zyre; DMA buffers and channels of the block devices, whose
    contract is the sector device of [Checkpoint]. In the cache as a whole:
    start-up and shutdown ([clear_all] has no theorem); GPU copies, device
    accesses, channel checkouts and the answers of peers are arguments.
    Of the front end: the order of its shutdown, and a server and a fetcher in one
    system (the server of [Translator] answers FETCH as one without an endpoint,
    and [Fetch] stands on its own). Applications, benchmarks and the component framework. *)

From stdpp Require Export base tactics numbers list list_numbers gmap option decidable relations sorting.
#[global] Set Default Goal Selector "!".

(** * Outcomes of Rust code *)

(** A Rust call either returns a value or panics (an index out of range, an
    [unwrap] of [None], an overflow of checked arithmetic, a failed [assert]). *)
Inductive outcome (A : Type) : Type :=
| Ret (a : A)
| Panic.
Arguments Ret {A} a.
Arguments Panic {A}.

(** [Result<A, E>]. *)
Inductive result (A E : Type) : Type :=
| Ok (a : A)
| Err (e : E).
Arguments Ok {A E} a.
Arguments Err {A E} e.

#[global] Instance outcome_ret : MRet outcome := @Ret.
#[global] Instance outcome_bind : MBind outcome := λ A B f c,
  match c with Ret a => f a | Panic => Panic end.
#[global] Instance result_ret E : MRet (λ A, result A E) := λ A, @Ok A E.

(** [o.unwrap()] and [v[i]]: a missing value panics. *)
Definition unwrap {A} (o : option A) : outcome A :=
  match o with Some a => Ret a | None => Panic end.

(** * Vectors *)

Definition vec_get {A} (v : list A) (i : nat) : outcome A := unwrap (v !! i).

(** [v[i] = x]: panics out of range, where stdpp's insert does nothing. *)
Definition vec_set {A} (v : list A) (i : nat) (x : A) : outcome (list A) :=
  match v !! i with Some _ => Ret (<[i := x]> v) | None => Panic end.

(** [v.pop()]: the last element and the rest. *)
Definition vec_pop {A} (v : list A) : option (A * list A) :=
  match last v with Some x => Some (x, take (length v - 1) v) | None => None end.

(** [v.iter().position(|&o| o == x)]. *)
Fixpoint vec_position (x : Z) (v : list Z) : option nat :=
  match v with
  | [] => None
  | y :: v' => if Z.eqb y x then Some O else S <$> vec_position x v'
  end.

(** [v.swap_remove(i)]: the last element takes the place of element [i]. *)
Definition vec_swap_remove {A} (v : list A) (i : nat) : outcome (list A) :=
  match v !! i, vec_pop v with
  | Some _, Some (x, v') => Ret (<[i := x]> v')
  | _, _ => Panic
  end.

(** * Fixed-width unsigned integers

    A [uN] is a [Z] in [0, 2^N). Overflow panics, as it does in a build with
    overflow checks; a build without them wraps, so every theorem that shows
    a [Ret] shows that the two builds agree. *)

Definition u32_max : Z := 2 ^ 32 - 1.
Definition u64_max : Z := 2 ^ 64 - 1.

Definition is_u (w x : Z) : Prop := (0 ≤ x < 2 ^ w)%Z.

#[global] Instance is_u_dec w x : Decision (is_u w x).
Proof. unfold is_u. apply _. Defined.

Definition add_w (w a b : Z) : outcome Z :=
  if (a + b <? 2 ^ w)%Z then Ret (a + b)%Z else Panic.
Definition mul_w (w a b : Z) : outcome Z :=
  if (a * b <? 2 ^ w)%Z then Ret (a * b)%Z else Panic.
Definition sub_w (a b : Z) : outcome Z :=
  if (b <=? a)%Z then Ret (a - b)%Z else Panic.
Definition div_w (a b : Z) : outcome Z :=
  if (b =? 0)%Z then Panic else Ret (a / b)%Z.
Definition rem_w (a b : Z) : outcome Z :=
  if (b =? 0)%Z then Panic else Ret (a mod b)%Z.

(** [a.saturating_sub(b)]. *)
Definition saturating_sub (a b : Z) : Z := Z.max 0 (a - b).

(** [x.leading_zeros()] of a [u64]. *)
Definition leading_zeros64 (x : Z) : Z :=
  if (x =? 0)%Z then 64 else (63 - Z.log2 x)%Z.

(** [n as u32] of a [usize] index. *)
Definition as_u32 (n : nat) : nat := Z.to_nat (Z.of_nat n mod 2 ^ 32).

(** [x.to_le_bytes()] of an [8*n]-bit integer and [uN::from_le_bytes]. *)
Definition to_le_bytes (n : Z) (x : Z) : list Z := Z_to_little_endian n 8 x.
Definition from_le_bytes (bs : list Z) : Z := little_endian_to_Z 8 bs.
#[global] Arguments to_le_bytes : simpl never.
#[global] Arguments from_le_bytes : simpl never.

(** * [BTreeMap<u64, V>]

    A list of bindings in increasing key order. *)
Module BTree.
Section btree.
Context {V : Type}.
Implicit Types (m : list (Z * V)) (k : Z) (v : V).

Fixpoint get m k : option V :=
  match m with
  | [] => None
  | (k', v) :: m' => if Z.eqb k k' then Some v else get m' k
  end.

Fixpoint insert m k v : list (Z * V) :=
  match m with
  | [] => [(k, v)]
  | (k', v') :: m' =>
      if (k <? k')%Z then (k, v) :: m
      else if (k =? k')%Z then (k, v) :: m'
      else (k', v') :: insert m' k v
  end.

Fixpoint remove m k : list (Z * V) :=
  match m with
  | [] => []
  | (k', v') :: m' => if (k =? k')%Z then m' else (k', v') :: remove m' k
  end.

(** [range(..k).next_back()]: the greatest binding below [k]. *)
Fixpoint last_lt m k : option (Z * V) :=
  match m with
  | [] => None
  | (k', v') :: m' =>
      if (k' <? k)%Z
      then match last_lt m' k with Some b => Some b | None => Some (k', v') end
      else None
  end.

(** [range(..=k).next_back()]. *)
Definition last_le m k : option (Z * V) := last_lt m (k + 1).

(** The keys are strictly increasing. *)
Definition sorted m : Prop := StronglySorted Z.lt (m.*1).
End btree.
End BTree.

(** * Generic lemmas *)

Lemma bind_Ret {A B} (c : outcome A) (f : A → outcome B) b :
  (c ≫= f) = Ret b ↔ ∃ a, c = Ret a ∧ f a = Ret b.
Proof. destruct c; simpl; naive_solver. Qed.

(** * Automation *)

Create HintDb certus.

(** Evaluate a bind whose first computation is known, or split a hypothesis
    that a bind returned. *)
Ltac outcome_inv :=
  repeat match goal with
  | H : Ret _ = Ret _ |- _ => injection H as H; subst
  | H : Panic = Ret _ |- _ => discriminate H
  | H : Ret _ = Panic |- _ => discriminate H
  | H : Ok _ = Ok _ |- _ => injection H as H; subst
  | H : Ok _ = Err _ |- _ => discriminate H
  | H : Err _ = Ok _ |- _ => discriminate H
  | H : (_ ≫= _) = Ret _ |- _ => apply bind_Ret in H as (? & ? & ?)
  end.

Lemma bind_Ret_l {A B} (a : A) (f : A → outcome B) : (Ret a ≫= f) = f a.
Proof. done. Qed.

(** [mapM] of calls that all return. *)
Lemma mapM_exists {A B} (f : A → outcome B) l (P : nat → B → Prop) :
  (∀ i x, l !! i = Some x → ∃ y, f x = Ret y ∧ P i y) →
  ∃ ys, mapM (M:=outcome) f l = Ret ys ∧ length ys = length l ∧ ∀ i y, ys !! i = Some y → P i y.
Proof.
  revert P. induction l as [|x l IH]; intros P H; simpl.
  { exists []. split_and!; [done..|]. intros i y. by rewrite lookup_nil. }
  destruct (H 0 x eq_refl) as (y & -> & Hy).
  destruct (IH (λ i, P (S i))) as (ys & -> & Hl & Hys); [intros i z Hz; by apply H|].
  exists (y :: ys). split_and!; [done|simpl; lia|]. intros [|i] z; simpl; [by intros [= <-]|by apply Hys].
Qed.

Lemma vec_get_Ret {A} (v : list A) i x : vec_get v i = Ret x ↔ v !! i = Some x.
Proof. unfold vec_get, unwrap. destruct (v !! i); naive_solver. Qed.

Lemma vec_set_Ret {A} (v : list A) i x :
  i < length v → vec_set v i x = Ret (<[i := x]> v).
Proof.
  intros Hi. unfold vec_set.
  destruct (lookup_lt_is_Some_2 v i Hi) as [y ->]. done.
Qed.

Lemma vec_pop_snoc {A} (v : list A) x : vec_pop (v ++ [x]) = Some (x, v).
Proof.
  unfold vec_pop. rewrite last_snoc, length_app. simpl.
  replace (length v + 1 - 1) with (length v) by lia.
  by rewrite take_app_length.
Qed.

Lemma vec_pop_nil {A} : vec_pop (@nil A) = None.
Proof. done. Qed.

Lemma vec_pop_Some {A} (v v' : list A) x : vec_pop v = Some (x, v') ↔ v = v' ++ [x].
Proof.
  split.
  - destruct v as [|y v _] using rev_ind; [done|].
    rewrite vec_pop_snoc. naive_solver.
  - intros ->. apply vec_pop_snoc.
Qed.

Lemma vec_pop_None {A} (v : list A) : vec_pop v = None ↔ v = [].
Proof.
  split; [|by intros ->].
  destruct v as [|y v _] using rev_ind; [done|]. by rewrite vec_pop_snoc.
Qed.

Lemma vec_position_Some x v i : vec_position x v = Some i → v !! i = Some x.
Proof.
  revert i. induction v as [|y v IH]; intros i; simpl; [done|].
  destruct (Z.eqb_spec y x) as [->|]; [naive_solver|].
  destruct (vec_position x v) eqn:E; simpl; naive_solver.
Qed.

Lemma vec_position_None x v : vec_position x v = None ↔ x ∉ v.
Proof.
  induction v as [|y v IH]; simpl; [set_solver|].
  destruct (Z.eqb_spec y x) as [->|]; [set_solver|].
  rewrite elem_of_cons. destruct (vec_position x v); simpl; naive_solver.
Qed.

(** [swap_remove] keeps the other elements, in another order. *)
Lemma vec_swap_remove_perm {A} (v : list A) i x :
  v !! i = Some x → ∃ v', vec_swap_remove v i = Ret v' ∧ v ≡ₚ x :: v'.
Proof.
  intros Hi. unfold vec_swap_remove. rewrite Hi.
  destruct v as [|y v _] using rev_ind; [done|].
  rewrite vec_pop_snoc. eexists; split; [done|].
  destruct (decide (i < length v)) as [Hlt|Hge].
  - rewrite lookup_app_l in Hi by done.
    pose proof (take_drop_middle _ _ _ Hi) as Hv.
    rewrite <- Hv at 1. rewrite insert_take_drop by done.
    rewrite (Permutation_middle (take i v)). simpl.
    rewrite <- (Permutation_middle (take i v ++ _) []), app_nil_r.
    rewrite <- !(Permutation_middle (take i v)).
    apply Permutation_swap.
  - apply lookup_lt_Some in Hi as Hlen. rewrite length_app in Hlen. simpl in Hlen.
    rewrite list_insert_ge by lia.
    rewrite lookup_app_r in Hi by lia.
    replace (i - length v) with 0 in Hi by lia. injection Hi as ->.
    by rewrite <- Permutation_cons_append.
Qed.

Lemma vec_swap_remove_last {A} (v : list A) x :
  vec_swap_remove (v ++ [x]) (length v) = Ret v.
Proof.
  unfold vec_swap_remove. rewrite list_lookup_middle by done.
  rewrite vec_pop_snoc. by rewrite list_insert_ge by lia.
Qed.

Lemma NoDup_fmap_elem {A B} (f : A → B) (l : list A) x y : NoDup (f <$> l) → x ∈ l → y ∈ l → f x = f y → x = y.
Proof.
  induction l as [|z l IH]; simpl; [set_solver|]. intros [Hz Nd]%NoDup_cons Hx Hy E.
  apply elem_of_cons in Hx as [->|Hx], Hy as [->|Hy]; [done| | |by apply IH].
  - destruct Hz. rewrite E. by apply list_elem_of_fmap_2.
  - destruct Hz. rewrite <- E. by apply list_elem_of_fmap_2.
Qed.

Lemma as_u32_small n : (Z.of_nat n < 2 ^ 32)%Z → as_u32 n = n.
Proof. intros H. unfold as_u32. rewrite Z.mod_small by lia. lia. Qed.

Section machine_ints.
Local Open Scope Z_scope.

Lemma add_w_Ret w a b : a + b < 2 ^ w → add_w w a b = Ret (a + b).
Proof. intros H. unfold add_w. by rewrite (proj2 (Z.ltb_lt _ _) H). Qed.

Lemma sub_w_Ret a b : b ≤ a → sub_w a b = Ret (a - b).
Proof. intros H. unfold sub_w. by rewrite (proj2 (Z.leb_le _ _) H). Qed.

Lemma mul_w_Ret w a b : a * b < 2 ^ w → mul_w w a b = Ret (a * b).
Proof. intros H. unfold mul_w. by rewrite (proj2 (Z.ltb_lt _ _) H). Qed.

Lemma div_w_Ret a b : b ≠ 0 → div_w a b = Ret (a / b).
Proof. intros H. unfold div_w. by rewrite (proj2 (Z.eqb_neq _ _) H). Qed.

Lemma rem_w_Ret a b : b ≠ 0 → rem_w a b = Ret (a mod b).
Proof. intros H. unfold rem_w. by rewrite (proj2 (Z.eqb_neq _ _) H). Qed.
End machine_ints.

Section le_bytes.
Local Open Scope Z_scope.

Lemma land_le_r a b : 0 ≤ a → 0 ≤ b → Z.land a b ≤ b.
Proof.
  intros Ha Hb.
  assert (Z.ldiff (Z.land a b) b = 0) as E.
  { apply Z.bits_inj'. intros n Hn. rewrite Z.ldiff_spec, Z.land_spec, Z.bits_0.
    by destruct (Z.testbit a n), (Z.testbit b n). }
  apply Z.ldiff_le; [done|done].
Qed.

Lemma length_to_le_bytes n x : 0 ≤ n → length (to_le_bytes n x) = Z.to_nat n.
Proof.
  intros Hn. pose proof (length_Z_to_little_endian n 8 x Hn).
  unfold to_le_bytes. lia.
Qed.

Lemma from_to_le_bytes n x :
  0 ≤ n → is_u (n * 8) x → from_le_bytes (to_le_bytes n x) = x.
Proof.
  intros Hn Hx. unfold from_le_bytes, to_le_bytes.
  rewrite little_endian_to_Z_to_little_endian by lia.
  apply Z.mod_small. apply Hx.
Qed.
End le_bytes.

(** * Ordered maps *)

Module BTreeFacts.
Import BTree.
Section facts.
Context {V : Type}.
Implicit Types (m : list (Z * V)) (k : Z) (v : V).

Lemma sorted_cons k v m : sorted ((k, v) :: m) ↔ (∀ k' v', (k', v') ∈ m → (k < k')%Z) ∧ sorted m.
Proof.
  unfold sorted. simpl. split.
  - intros [Hs Hf]%StronglySorted_inv. split; [|done]. intros k' v' Hin.
    eapply Forall_forall in Hf; [done|]. apply list_elem_of_fmap. by exists (k', v').
  - intros [Hf Hs]. constructor; [done|]. apply Forall_forall.
    intros k' ([k'' v''] & -> & Hin)%list_elem_of_fmap. eauto.
Qed.

Lemma sorted_nil : sorted (@nil (Z * V)).
Proof. constructor. Qed.

Lemma sorted_unique m k v v' : sorted m → (k, v) ∈ m → (k, v') ∈ m → v = v'.
Proof.
  induction m as [|[k0 v0] m IH]; [set_solver|].
  intros [Hlt Hs]%sorted_cons. rewrite !elem_of_cons.
  intros [E1|H1] [E2|H2]; [congruence|..].
  - injection E1 as -> ->. apply Hlt in H2. lia.
  - injection E2 as -> ->. apply Hlt in H1. lia.
  - eauto.
Qed.

Lemma get_Some m k v : sorted m → get m k = Some v ↔ (k, v) ∈ m.
Proof.
  induction m as [|[k0 v0] m IH]; simpl; [set_solver|].
  intros [Hlt Hs]%sorted_cons. rewrite elem_of_cons.
  destruct (Z.eqb_spec k k0) as [->|Hne].
  - split; [naive_solver|]. intros [[= ->]|Hin]; [done|]. apply Hlt in Hin. lia.
  - rewrite IH by done. naive_solver.
Qed.

Lemma get_None m k : get m k = None ↔ ∀ v, (k, v) ∉ m.
Proof.
  induction m as [|[k0 v0] m IH]; simpl; [set_solver|].
  destruct (Z.eqb_spec k k0) as [->|Hne].
  - split; [done|]. intros H. destruct (H v0). by left.
  - rewrite IH. setoid_rewrite elem_of_cons. naive_solver.
Qed.

Lemma insert_perm m k v : get m k = None → insert m k v ≡ₚ (k, v) :: m.
Proof.
  induction m as [|[k0 v0] m IH]; simpl; [done|].
  destruct (Z.eqb_spec k k0) as [->|Hne]; [done|]. intros Hg.
  destruct (Z.ltb_spec k k0); [done|]. rewrite IH by done. apply Permutation_swap.
Qed.

Lemma elem_of_insert m k v k' v' :
  sorted m → (k', v') ∈ insert m k v ↔ (k' = k ∧ v' = v) ∨ (k' ≠ k ∧ (k', v') ∈ m).
Proof.
  induction m as [|[k0 v0] m IH]; simpl.
  { rewrite list_elem_of_singleton. set_solver. }
  intros [Hlt Hs]%sorted_cons. rewrite !elem_of_cons.
  destruct (Z.ltb_spec k k0) as [Hk|Hk].
  { rewrite !elem_of_cons. split; [|naive_solver].
    intros [[= -> ->]|[[= -> ->]|Hin]]; [naive_solver|right; split; [lia|naive_solver]|].
    right. split; [apply Hlt in Hin; lia|naive_solver]. }
  destruct (Z.eqb_spec k k0) as [->|Hne].
  - rewrite elem_of_cons. split; [|naive_solver].
    intros [[= -> ->]|Hin]; [naive_solver|]. right. split; [apply Hlt in Hin; lia|naive_solver].
  - rewrite elem_of_cons, IH by done. split; [|naive_solver].
    intros [[= -> ->]|Hin]; [right; split; [lia|naive_solver]|naive_solver].
Qed.

Lemma insert_sorted m k v : sorted m → sorted (insert m k v).
Proof.
  induction m as [|[k0 v0] m IH]; simpl.
  { intros _. apply sorted_cons. split; [set_solver|apply sorted_nil]. }
  intros Hs. pose proof Hs as [Hlt Hs']%sorted_cons.
  destruct (Z.ltb_spec k k0) as [Hk|Hk].
  { apply sorted_cons. split; [|done]. intros k' v' [[= -> ->]|Hin]%elem_of_cons; [done|].
    apply Hlt in Hin. lia. }
  destruct (Z.eqb_spec k k0) as [->|Hne]; [by apply sorted_cons|].
  apply sorted_cons. split; [|auto]. intros k' v'. rewrite elem_of_insert by done.
  intros [[-> ->]|[_ Hin]]; [lia|eauto].
Qed.

Lemma remove_perm m k v : sorted m → (k, v) ∈ m → m ≡ₚ (k, v) :: remove m k.
Proof.
  induction m as [|[k0 v0] m IH]; simpl; [set_solver|].
  intros [Hlt Hs]%sorted_cons. rewrite elem_of_cons.
  destruct (Z.eqb_spec k k0) as [->|Hne].
  - intros [[= ->]|Hin]; [done|]. apply Hlt in Hin. lia.
  - intros [[= -> ->]|Hin]; [done|]. rewrite (IH Hs Hin) at 1. apply Permutation_swap.
Qed.

Lemma elem_of_remove m k k' v' :
  sorted m → (k', v') ∈ remove m k ↔ k' ≠ k ∧ (k', v') ∈ m.
Proof.
  induction m as [|[k0 v0] m IH]; simpl; [set_solver|].
  intros [Hlt Hs]%sorted_cons. rewrite elem_of_cons.
  destruct (Z.eqb_spec k k0) as [->|Hne].
  - split; [|naive_solver]. intros Hin. split; [apply Hlt in Hin; lia|auto].
  - rewrite elem_of_cons, IH by done. naive_solver.
Qed.

Lemma remove_sorted m k : sorted m → sorted (remove m k).
Proof.
  induction m as [|[k0 v0] m IH]; simpl; [done|].
  intros [Hlt Hs]%sorted_cons. destruct (Z.eqb_spec k k0); [done|].
  apply sorted_cons. split; [|auto]. intros k' v' Hin.
  apply elem_of_remove in Hin as [_ Hin]; [eauto|done].
Qed.

Lemma get_insert m k v k' :
  sorted m → get (insert m k v) k' = if decide (k' = k) then Some v else get m k'.
Proof.
  intros Hs. pose proof (insert_sorted m k v Hs) as Hs'. case_decide as Hk.
  - subst. apply get_Some; [done|]. apply elem_of_insert; [done|]. by left.
  - apply option_eq. intros v'. rewrite !get_Some, elem_of_insert by done. naive_solver.
Qed.

Lemma get_remove m k k' :
  sorted m → get (remove m k) k' = if decide (k' = k) then None else get m k'.
Proof.
  intros Hs. pose proof (remove_sorted m k Hs) as Hs'. case_decide as Hk.
  - subst. apply get_None. intros v. rewrite elem_of_remove by done. naive_solver.
  - apply option_eq. intros v'. rewrite !get_Some, elem_of_remove by done. naive_solver.
Qed.

(** Replacing the value of a binding keeps whatever is computed from the rest. *)
Lemma fmap_insert_same {B} (f : Z * V → B) m k v v' :
  sorted m → (k, v) ∈ m → f (k, v') = f (k, v) → f <$> insert m k v' = f <$> m.
Proof.
  intros Hs Hin Hf. revert Hs Hin. induction m as [|[k0 v0] m IH]; simpl; [set_solver|].
  intros [Hlt Hs]%sorted_cons Hin. apply elem_of_cons in Hin as [[= <- <-]|Hin].
  - rewrite Z.ltb_irrefl, Z.eqb_refl. simpl. by rewrite Hf.
  - apply Hlt in Hin as Hk. destruct (Z.ltb_spec k k0); [lia|].
    destruct (Z.eqb_spec k k0); [lia|]. simpl. f_equal. auto.
Qed.

Lemma remove_notin m k : get m k = None → remove m k = m.
Proof.
  induction m as [|[k0 v0] m IH]; simpl; [done|].
  destruct (Z.eqb_spec k k0); [done|]. intros. by rewrite IH.
Qed.

Lemma remove_insert m k v : sorted m → remove (insert m k v) k = remove m k.
Proof.
  induction m as [|[k0 v0] m IH]; simpl; [by rewrite Z.eqb_refl|].
  intros [Hlt Hs]%sorted_cons. destruct (Z.ltb_spec k k0) as [Hk|Hk]; simpl.
  - rewrite Z.eqb_refl. destruct (Z.eqb_spec k k0); [lia|]. rewrite remove_notin; [done|].
    apply get_None. intros v' Hin. apply Hlt in Hin. lia.
  - destruct (Z.eqb_spec k k0) as [->|]; simpl; [by rewrite Z.eqb_refl|].
    destruct (Z.eqb_spec k k0); [done|]. by rewrite IH.
Qed.

Lemma insert_id m k v : sorted m → (k, v) ∈ m → insert m k v = m.
Proof.
  intros Hs Hin. pose proof (fmap_insert_same id m k v v Hs Hin eq_refl) as E.
  by rewrite !list_fmap_id in E.
Qed.

Lemma last_lt_Some m k k' v' :
  sorted m → last_lt m k = Some (k', v') →
  (k', v') ∈ m ∧ (k' < k)%Z ∧ ∀ k'' v'', (k'', v'') ∈ m → (k'' < k)%Z → (k'' ≤ k')%Z.
Proof.
  induction m as [|[k0 v0] m IH]; simpl; [done|].
  intros [Hlt Hs]%sorted_cons. destruct (Z.ltb_spec k0 k) as [Hk|Hk]; [|done].
  destruct (last_lt m k) as [[k1 v1]|] eqn:E.
  - intros [= -> ->]. destruct (IH Hs eq_refl) as (H1 & H2 & H3). split_and!.
    + by right.
    + done.
    + intros k'' v'' [[= -> ->]|Hin]%elem_of_cons; [|eauto]. intros _. apply Hlt in H1. lia.
  - intros [= -> ->]. split_and!; [by left|done|].
    intros k'' v'' [[= -> ->]|Hin]%elem_of_cons; [lia|]. intros Hk''.
    clear -E Hin Hk'' Hs. exfalso. revert E. destruct m as [|[k1 v1] m]; [set_solver|].
    simpl. apply sorted_cons in Hs as [Hlt Hs].
    assert (k1 < k)%Z as Hk1.
    { apply elem_of_cons in Hin as [[= -> ->]|Hin]; [done|]. apply Hlt in Hin. lia. }
    apply Z.ltb_lt in Hk1. rewrite Hk1. by destruct (last_lt m k).
Qed.

Lemma last_lt_None m k : sorted m → last_lt m k = None → ∀ k' v', (k', v') ∈ m → (k ≤ k')%Z.
Proof.
  destruct m as [|[k0 v0] m]; simpl; [set_solver|].
  intros [Hlt Hs]%sorted_cons. destruct (Z.ltb_spec k0 k) as [Hk|Hk].
  { by destruct (last_lt m k). }
  intros _ k' v' [[= -> ->]|Hin]%elem_of_cons; [done|]. apply Hlt in Hin. lia.
Qed.

(** An ordered map is determined by its bindings. *)
(** Appending in order. *)
Lemma sorted_app_cons m1 m2 k v :
  sorted (m1 ++ (k, v) :: m2) → ∀ k' v', (k', v') ∈ m1 → (k' < k)%Z.
Proof.
  induction m1 as [|[k1 v1] m1 IH]; simpl; [set_solver|].
  intros [Hlt Hs]%sorted_cons k' v' [[= -> ->]|Hin]%elem_of_cons; [|by eapply IH].
  apply (Hlt k v). set_solver.
Qed.

Lemma insert_last m k v : (∀ k' v', (k', v') ∈ m → (k' < k)%Z) → insert m k v = m ++ [(k, v)].
Proof.
  induction m as [|[k1 v1] m IH]; simpl; intros Hlt; [done|].
  assert (k1 < k)%Z by (apply (Hlt k1 v1); by left).
  destruct (Z.ltb_spec k k1); [lia|]. destruct (Z.eqb_spec k k1); [lia|].
  f_equal. apply IH. intros k' v' Hin. apply (Hlt k' v'). by right.
Qed.

Lemma sorted_replace m1 m2 k v v' : sorted (m1 ++ (k, v) :: m2) → sorted (m1 ++ (k, v') :: m2).
Proof. unfold sorted. by rewrite !fmap_app. Qed.

Lemma sorted_perm_eq m1 m2 : sorted m1 → sorted m2 → m1 ≡ₚ m2 → m1 = m2.
Proof.
  revert m2. induction m1 as [|[k v] m1 IH]; intros m2 H1 H2 P.
  { by apply Permutation_nil_l in P. }
  destruct m2 as [|[k' v'] m2]; [by apply Permutation_nil_r in P|].
  pose proof H1 as [L1 S1]%sorted_cons. pose proof H2 as [L2 S2]%sorted_cons.
  assert (k = k') as <-.
  { assert ((k, v) ∈ (k', v') :: m2) as A by (rewrite <- P; by left).
    assert ((k', v') ∈ (k, v) :: m1) as B by (rewrite P; by left).
    apply elem_of_cons in A as [[= -> ->]|A]; [done|].
    apply elem_of_cons in B as [[= -> ->]|B]; [done|].
    apply L2 in A. apply L1 in B. lia. }
  assert ((k, v) ∈ (k, v') :: m2) as A by (rewrite <- P; by left).
  assert (v = v') as <- by (eapply (sorted_unique ((k, v') :: m2)); [done..|by left]).
  f_equal. apply IH; [done..|]. by apply Permutation_cons_inv in P.
Qed.
End facts.
End BTreeFacts.

(** * Byte ranges

    A list of [(offset, size)] pairs as the bytes it holds: the allocators are
    specified by the effect of each call on [cover]. *)

Section ranges.
Local Open Scope Z_scope.

Definition total (m : list (Z * Z)) : Z := foldr (λ r n, r.2 + n) 0 m.

(** How many of the regions of [m] hold byte [x]. *)
Definition holds (o s x : Z) : Z := if bool_decide (o ≤ x < o + s) then 1 else 0.
Definition cover (m : list (Z * Z)) (x : Z) : Z := foldr (λ r n, holds r.1 r.2 x + n) 0 m.

Lemma holds_split o a b x : 0 ≤ a → 0 ≤ b → holds o (a + b) x = holds o a x + holds (o + a) b x.
Proof. intros ??. unfold holds. repeat case_bool_decide; lia. Qed.

Lemma holds_zero o s x : holds o s x = 0 ↔ ¬ (o ≤ x < o + s).
Proof. unfold holds. case_bool_decide; lia. Qed.

Lemma holds_nonneg o s x : 0 ≤ holds o s x.
Proof. unfold holds. case_bool_decide; lia. Qed.

Lemma cover_perm m m' x : m ≡ₚ m' → cover m x = cover m' x.
Proof. induction 1; simpl; lia. Qed.

Lemma total_perm m m' : m ≡ₚ m' → total m = total m'.
Proof. induction 1; simpl; lia. Qed.

Lemma cover_nonneg m x : 0 ≤ cover m x.
Proof.
  induction m as [|[o s] m IH]; simpl; [lia|]. pose proof (holds_nonneg o s x). lia.
Qed.

Lemma cover_zero m x : cover m x = 0 ↔ ∀ o s, (o, s) ∈ m → ¬ (o ≤ x < o + s).
Proof.
  induction m as [|[o s] m IH]; simpl; [set_solver|].
  pose proof (holds_nonneg o s x). pose proof (cover_nonneg m x).
  setoid_rewrite elem_of_cons. split.
  - intros Hz o' s' [[= -> ->]|Hin]; [apply holds_zero; lia|]. apply IH; [lia|done].
  - intros Hf. assert (holds o s x = 0) as -> by (apply holds_zero; eauto).
    simpl. apply IH. eauto.
Qed.

Lemma cover_ge m x o s : (o, s) ∈ m → o ≤ x < o + s → 0 < cover m x.
Proof.
  intros Hin Hx. pose proof (cover_nonneg m x).
  destruct (decide (cover m x = 0)) as [E|]; [|lia].
  by destruct (proj1 (cover_zero m x) E o s Hin).
Qed.

Lemma holds_le_1 o s x : holds o s x ≤ 1.
Proof. unfold holds. case_bool_decide; lia. Qed.

Lemma holds_one o s x : o ≤ x < o + s → holds o s x = 1.
Proof. intros. unfold holds. by rewrite bool_decide_true. Qed.

Lemma cover_app m m' x : cover (m ++ m') x = cover m x + cover m' x.
Proof. induction m as [|r m IH]; simpl; lia. Qed.

Lemma cover_cons o s m x : cover ((o, s) :: m) x = holds o s x + cover m x.
Proof. done. Qed.

Lemma cover_pos m x : 0 < cover m x → ∃ o s, (o, s) ∈ m ∧ o ≤ x < o + s.
Proof.
  induction m as [|[o s] m IH]; simpl; [lia|]. intros Hc.
  destruct (decide (o ≤ x < o + s)) as [Hx|Hx].
  - exists o, s. split; [by left|done].
  - rewrite (proj2 (holds_zero o s x) Hx) in Hc. destruct (IH Hc) as (o' & s' & Hin & ?).
    exists o', s'. split; [by right|done].
Qed.
End ranges.
