(* ===== verification/LruList.v ===== *)
(** The index-based doubly linked list behind the LRU eviction policy
    ([components/eviction-policy-lru/src/lru_list.rs]): the arena of nodes with
    its free list as the code keeps it, the sequence of (handle, key) pairs it
    stands for, and the proof that every operation of the arena is the
    corresponding operation on that sequence. *)

From S2P Require Import Prelude.

Module Lru.

(** * The arena *)

Record Node := mkNode {
  key : Z;
  prev : option nat;
  next : option nat;
  active : bool
}.

Record LruList := mkLru {
  nodes : list Node;
  head : option nat;
  tail : option nat;
  free : list nat;
  len : nat
}.

Definition new : LruList := mkLru [] None None [] 0.

(** [self.nodes[i].prev = p] and the like. *)
Definition node_set_prev (ns : list Node) (i : nat) (p : option nat) : outcome (list Node) :=
  nd ← vec_get ns i; vec_set ns i (mkNode (key nd) p (next nd) (active nd)).
Definition node_set_next (ns : list Node) (i : nat) (n : option nat) : outcome (list Node) :=
  nd ← vec_get ns i; vec_set ns i (mkNode (key nd) (prev nd) n (active nd)).
Definition node_set_inactive (ns : list Node) (i : nat) : outcome (list Node) :=
  nd ← vec_get ns i; vec_set ns i (mkNode (key nd) (prev nd) (next nd) false).

Definition push_back (self : LruList) (k : Z) : outcome (nat * LruList) :=
  '(idx, ns, fr) ←
    match vec_pop (free self) with
    | Some (free_idx, fr) =>
        ns ← vec_set (nodes self) free_idx (mkNode k (tail self) None true);
        Ret (free_idx, ns, fr)
    | None =>
        let idx := as_u32 (length (nodes self)) in
        Ret (idx, nodes self ++ [mkNode k (tail self) None true], free self)
    end;
  ns ← match tail self with
       | Some old_tail => node_set_next ns old_tail (Some idx)
       | None => Ret ns
       end;
  let hd := match head self with None => Some idx | Some h => Some h end in
  Ret (idx, mkLru ns hd (Some idx) fr (S (len self))).

Definition move_to_back (self : LruList) (idx : nat) : outcome LruList :=
  nd ← vec_get (nodes self) idx;
  if negb (active nd) then Ret self
  else if decide (tail self = Some idx) then Ret self
  else
    let p := prev nd in
    let n := next nd in
    '(ns, hd) ← match p with
                | Some p => ns ← node_set_next (nodes self) p n; Ret (ns, head self)
                | None => Ret (nodes self, n)
                end;
    ns ← match n with
         | Some n => node_set_prev ns n p
         | None => Ret ns
         end;
    ns ← node_set_prev ns idx (tail self);
    ns ← node_set_next ns idx None;
    ns ← match tail self with
         | Some old_tail => node_set_next ns old_tail (Some idx)
         | None => Ret ns
         end;
    Ret (mkLru ns hd (Some idx) (free self) (len self)).

Definition remove (self : LruList) (idx : nat) : outcome LruList :=
  nd ← vec_get (nodes self) idx;
  if negb (active nd) then Ret self
  else
    let p := prev nd in
    let n := next nd in
    '(ns, hd) ← match p with
                | Some p => ns ← node_set_next (nodes self) p n; Ret (ns, head self)
                | None => Ret (nodes self, n)
                end;
    '(ns, tl) ← match n with
                | Some n => ns ← node_set_prev ns n p; Ret (ns, tail self)
                | None => Ret (ns, p)
                end;
    ns ← node_set_inactive ns idx;
    ns ← node_set_prev ns idx None;
    ns ← node_set_next ns idx None;
    l ← match len self with O => Panic | S l => Ret l end;
    Ret (mkLru ns hd tl (free self ++ [idx]) l).

Definition pop_front (self : LruList) : outcome (option Z * LruList) :=
  match head self with
  | None => Ret (None, self)
  | Some head_idx =>
      nd ← vec_get (nodes self) head_idx;
      self ← remove self head_idx;
      Ret (Some (key nd), self)
  end.

(** The walk of [peek_front_n]. Its bound [fuel] is the arena size: the walk
    visits each node at most once ([peek_front_n_spec]). *)
Fixpoint peek_loop (fuel : nat) (ns : list Node) (cur : option nat) (n : nat)
    (acc : list Z) : outcome (list Z) :=
  match cur with
  | None => Ret acc
  | Some idx =>
      if decide (n ≤ length acc) then Ret acc
      else match fuel with
           | O => Panic
           | S fuel =>
               nd ← vec_get ns idx;
               peek_loop fuel ns (next nd) n (acc ++ [key nd])
           end
  end.

Definition peek_front_n (self : LruList) (n : nat) : outcome (list Z) :=
  peek_loop (length (nodes self)) (nodes self) (head self) n [].

Definition clear (self : LruList) : LruList := mkLru [] None None [] 0.

(** * The sequence the arena stands for

    The abstract list is a sequence of (handle, key) pairs, the least recently
    used first. *)

Abbreviation seqn := (list (nat * Z)).

Definition seq_key (s : seqn) (i : nat) : option Z :=
  snd <$> List.find (λ e, Nat.eqb (fst e) i) s.

Definition seq_remove (s : seqn) (i : nat) : seqn :=
  List.filter (λ e, negb (Nat.eqb (fst e) i)) s.

Definition seq_touch (s : seqn) (i : nat) : seqn :=
  match seq_key s i with
  | Some k => seq_remove s i ++ [(i, k)]
  | None => s
  end.

(** First handle of a segment, or the handle after it. *)
Definition first_of (s : seqn) (n : option nat) : option nat :=
  match s with [] => n | (i, _) :: _ => Some i end.

(** Last handle of a segment, or the handle before it. *)
Definition last_of (p : option nat) (s : seqn) : option nat :=
  match last s with None => p | Some e => Some (fst e) end.

(** The nodes of a segment are linked both ways between [p] and [n]. *)
Fixpoint dll (ns : list Node) (p : option nat) (s : seqn) (n : option nat) : Prop :=
  match s with
  | [] => True
  | (i, k) :: s' =>
      ns !! i = Some (mkNode k p (first_of s' n) true) ∧ dll ns (Some i) s' n
  end.

Record rep (l : LruList) (s : seqn) : Prop := {
  rep_dll : dll (nodes l) None s None;
  rep_nodup : NoDup (s.*1);
  rep_head : head l = first_of s None;
  rep_tail : tail l = last_of None s;
  rep_len : len l = length s;
  rep_active : ∀ i nd, nodes l !! i = Some nd → active nd = true → i ∈ (s.*1);
  rep_free : ∀ i, i ∈ free l ↔ ∃ nd, nodes l !! i = Some nd ∧ active nd = false;
  rep_free_nodup : NoDup (free l)
}.

(** * Segments *)

Lemma dll_app ns p s1 s2 n :
  dll ns p (s1 ++ s2) n ↔ dll ns p s1 (first_of s2 n) ∧ dll ns (last_of p s1) s2 n.
Proof.
  revert p. induction s1 as [|[i k] s1 IH]; intros p; simpl; [tauto|].
  rewrite IH. replace (first_of (s1 ++ s2) n) with (first_of s1 (first_of s2 n))
    by (by destruct s1 as [|[]]).
  replace (last_of p ((i, k) :: s1)) with (last_of (Some i) s1); [tauto|].
  unfold last_of. destruct s1 as [|e s1]; [done|].
  change (last ((i, k) :: e :: s1)) with (last (e :: s1)).
  by destruct (last_is_Some (e :: s1)) as [_ [? ->]].
Qed.

Lemma dll_lookup ns p s n i : dll ns p s n → i ∈ (s.*1) → ∃ nd, ns !! i = Some nd ∧ active nd = true.
Proof.
  revert p. induction s as [|[j k] s IH]; intros p; simpl; [set_solver|].
  intros [Hj Hs] [->|Hi]%elem_of_cons; [eauto|]. eauto.
Qed.

(** Writing a node outside a segment keeps the segment. *)
Lemma dll_frame ns ns' p s n :
  dll ns p s n → (∀ i, i ∈ (s.*1) → ns' !! i = ns !! i) → dll ns' p s n.
Proof.
  revert p. induction s as [|[j k] s IH]; intros p; simpl; [done|].
  intros [Hj Hs] Heq. split; [rewrite Heq; set_solver|].
  apply IH; [done|]. set_solver.
Qed.

Lemma seq_remove_notin s i : i ∉ (s.*1) → seq_remove s i = s.
Proof.
  induction s as [|[j k] s IH]; simpl; [done|]. intros Hi.
  destruct (Nat.eqb_spec j i); simpl; [set_solver|]. f_equal. apply IH. set_solver.
Qed.

Lemma seq_remove_mid s1 s2 i k :
  i ∉ (s1.*1) → i ∉ (s2.*1) → seq_remove (s1 ++ (i, k) :: s2) i = s1 ++ s2.
Proof.
  intros H1 H2. unfold seq_remove. rewrite List.filter_app. simpl.
  rewrite Nat.eqb_refl. simpl.
  by rewrite !(seq_remove_notin _ _ : _ → List.filter _ _ = _).
Qed.

Lemma seq_key_mid s1 s2 i k : i ∉ (s1.*1) → seq_key (s1 ++ (i, k) :: s2) i = Some k.
Proof.
  unfold seq_key. induction s1 as [|[j k'] s1 IH]; simpl.
  - by rewrite Nat.eqb_refl.
  - intros Hi. destruct (Nat.eqb_spec j i); [set_solver|]. apply IH. set_solver.
Qed.

Lemma seq_key_notin s i : i ∉ (s.*1) → seq_key s i = None.
Proof.
  unfold seq_key. induction s as [|[j k'] s IH]; simpl; [done|].
  intros Hi. destruct (Nat.eqb_spec j i); [set_solver|]. apply IH. set_solver.
Qed.

Lemma seq_split (s : seqn) i : i ∈ (s.*1) → NoDup (s.*1) →
  ∃ s1 k s2, s = s1 ++ (i, k) :: s2 ∧ i ∉ (s1.*1) ∧ i ∉ (s2.*1) ∧ NoDup ((s1 ++ s2).*1).
Proof.
  intros Hi Hnd. apply list_elem_of_fmap in Hi as ([j k] & -> & Hin).
  apply list_elem_of_split in Hin as (s1 & s2 & ->).
  exists s1, k, s2. rewrite fmap_app in Hnd |- *. simpl in Hnd.
  apply NoDup_app in Hnd as (H1 & H2 & [H3 H4]%NoDup_cons).
  rewrite NoDup_app. set_solver.
Qed.

(** * Relinking *)

(** [ns'] differs from [ns] only in the links of the nodes in [d]. *)
Record upd_only (ns ns' : list Node) (d : list nat) : Prop := {
  upd_len : length ns' = length ns;
  upd_out : ∀ i, i ∉ d → ns' !! i = ns !! i;
  upd_active : ∀ i nd', ns' !! i = Some nd' → ∃ nd, ns !! i = Some nd ∧ active nd = active nd'
}.

Lemma node_set_next_Ret ns i nd n : ns !! i = Some nd →
  node_set_next ns i n = Ret (<[i := mkNode (key nd) (prev nd) n (active nd)]> ns).
Proof.
  intros Hi. unfold node_set_next, vec_get. rewrite Hi. simpl.
  apply vec_set_Ret. by eapply lookup_lt_Some.
Qed.

Lemma node_set_prev_Ret ns i nd p : ns !! i = Some nd →
  node_set_prev ns i p = Ret (<[i := mkNode (key nd) p (next nd) (active nd)]> ns).
Proof.
  intros Hi. unfold node_set_prev, vec_get. rewrite Hi. simpl.
  apply vec_set_Ret. by eapply lookup_lt_Some.
Qed.

Lemma node_set_inactive_Ret ns i nd : ns !! i = Some nd →
  node_set_inactive ns i = Ret (<[i := mkNode (key nd) (prev nd) (next nd) false]> ns).
Proof.
  intros Hi. unfold node_set_inactive, vec_get. rewrite Hi. simpl.
  apply vec_set_Ret. by eapply lookup_lt_Some.
Qed.

Lemma upd_only_refl ns d : upd_only ns ns d.
Proof. split; eauto. Qed.

Lemma upd_only_insert ns i nd nd' d :
  ns !! i = Some nd → active nd' = active nd → i ∈ d → upd_only ns (<[i := nd']> ns) d.
Proof.
  intros Hi Ha Hd. apply lookup_lt_Some in Hi as Hlt. split.
  - apply length_insert.
  - intros j Hj. apply list_lookup_insert_ne. by intros ->.
  - intros j nd''. destruct (decide (i = j)) as [->|].
    + rewrite list_lookup_insert_eq by done. intros [= <-]. eauto.
    + rewrite list_lookup_insert_ne by done. eauto.
Qed.

Lemma upd_only_trans ns1 ns2 ns3 d1 d2 :
  upd_only ns1 ns2 d1 → upd_only ns2 ns3 d2 → upd_only ns1 ns3 (d1 ++ d2).
Proof.
  intros [L1 O1 A1] [L2 O2 A2]. split.
  - congruence.
  - intros i Hi. rewrite O2, O1; set_solver.
  - intros i nd Hi. destruct (A2 _ _ Hi) as (nd2 & H2 & <-). eauto.
Qed.

Lemma upd_only_lookup ns ns' d i nd :
  upd_only ns ns' d → ns !! i = Some nd → ∃ nd', ns' !! i = Some nd' ∧ active nd' = active nd.
Proof.
  intros [L O A] Hi. apply lookup_lt_Some in Hi as Hlt. rewrite <- L in Hlt.
  destruct (lookup_lt_is_Some_2 _ _ Hlt) as [nd' Hnd'].
  destruct (A _ _ Hnd') as (nd0 & ? & ?). exists nd'. split; [done|]. congruence.
Qed.

(** Redirect the last [next] link of a segment. *)
Lemma set_next_last ns s n n' : dll ns None s n → NoDup (s.*1) →
  ∃ ns', match last_of None s with Some j => node_set_next ns j n' | None => Ret ns end = Ret ns'
         ∧ dll ns' None s n' ∧ upd_only ns ns' (s.*1).
Proof.
  intros Hd Hnd. destruct s as [|[j k] s _] using rev_ind.
  { exists ns. simpl. eauto using upd_only_refl. }
  rewrite fmap_app, NoDup_app in Hnd. destruct Hnd as (_ & Hj & _).
  apply dll_app in Hd as [Hs [Hjn _]]. simpl in *.
  unfold last_of at 1. rewrite last_snoc. simpl.
  erewrite node_set_next_Ret by done. eexists; split; [done|]. simpl. split.
  - apply dll_app. simpl. split.
    + eapply dll_frame; [done|]. intros i Hi. apply list_lookup_insert_ne.
      intros ->. apply (Hj _ Hi). set_solver.
    + rewrite list_lookup_insert_eq by (by eapply lookup_lt_Some). done.
  - eapply upd_only_insert; [done..|]. rewrite fmap_app. set_solver.
Qed.

(** Redirect the first [prev] link of a segment. *)
Lemma set_prev_first ns s p p' : dll ns p s None → NoDup (s.*1) →
  ∃ ns', match first_of s None with Some j => node_set_prev ns j p' | None => Ret ns end = Ret ns'
         ∧ dll ns' p' s None ∧ upd_only ns ns' (s.*1).
Proof.
  destruct s as [|[j k] s]; simpl; intros Hd Hnd.
  { exists ns. eauto using upd_only_refl. }
  apply NoDup_cons in Hnd as [Hj _]. destruct Hd as [Hjn Hs].
  erewrite node_set_prev_Ret by done. eexists; split; [done|]. simpl. split; [split|].
  - rewrite list_lookup_insert_eq by (by eapply lookup_lt_Some). done.
  - eapply dll_frame; [done|]. intros i Hi. apply list_lookup_insert_ne. by intros ->.
  - eapply upd_only_insert; [done..|]. set_solver.
Qed.

(** The two links around a node are redirected past it, as [remove] and
    [move_to_back] do. *)
Lemma unlink_spec ns s1 s2 i k :
  dll ns None (s1 ++ (i, k) :: s2) None → NoDup ((s1 ++ (i, k) :: s2).*1) →
  ∃ ns1 ns2,
    match last_of None s1 with
    | Some j => node_set_next ns j (first_of s2 None) | None => Ret ns end = Ret ns1 ∧
    match first_of s2 None with
    | Some j => node_set_prev ns1 j (last_of None s1) | None => Ret ns1 end = Ret ns2 ∧
    dll ns2 None (s1 ++ s2) None ∧ upd_only ns ns2 ((s1 ++ s2).*1).
Proof.
  intros Hd Hnd. apply dll_app in Hd as [H1 [Hi H2]].
  rewrite fmap_app, NoDup_app in Hnd. simpl in Hnd.
  destruct Hnd as (N1 & N12 & [Ni N2]%NoDup_cons).
  destruct (set_next_last _ _ _ (first_of s2 None) H1 N1) as (ns1 & E1 & D1 & U1).
  assert (dll ns1 (Some i) s2 None) as H2'.
  { eapply dll_frame; [done|]. intros j Hj. apply U1. set_solver. }
  destruct (set_prev_first _ _ _ (last_of None s1) H2' N2) as (ns2 & E2 & D2 & U2).
  exists ns1, ns2. split_and!; [done|done| |].
  - apply dll_app. split; [|done].
    eapply dll_frame; [done|]. intros j Hj. apply U2. set_solver.
  - rewrite fmap_app. eauto using upd_only_trans.
Qed.

(** * The operations on the sequence *)

Lemma rep_new : rep new [].
Proof. split; simpl; try done; try constructor; set_solver. Qed.

Lemma rep_clear l : rep (clear l) [].
Proof. exact rep_new. Qed.

Lemma rep_node l s i : rep l s → i ∈ (s.*1) → ∃ s1 k s2,
  s = s1 ++ (i, k) :: s2 ∧ i ∉ (s1.*1) ∧ i ∉ (s2.*1) ∧
  nodes l !! i = Some (mkNode k (last_of None s1) (first_of s2 None) true).
Proof.
  intros R Hi. destruct (seq_split s i Hi (rep_nodup _ _ R)) as (s1 & k & s2 & -> & H1 & H2 & _).
  exists s1, k, s2. pose proof (rep_dll _ _ R) as D. apply dll_app in D as [_ [D _]]. done.
Qed.

Lemma rep_inactive l s i nd :
  rep l s → nodes l !! i = Some nd → i ∉ (s.*1) → active nd = false.
Proof.
  intros R Hi Hn. destruct (active nd) eqn:E; [|done].
  by destruct Hn; eapply rep_active.
Qed.

(** The head and tail that result from the unlinking branches of the code. *)
Lemma unlink_head ns ns1 s1 s2 i k (h : option nat) :
  match last_of None s1 with
  | Some j => node_set_next ns j (first_of s2 None) | None => Ret ns end = Ret ns1 →
  match last_of None s1 with
  | Some p => ns' ← node_set_next ns p (first_of s2 None);
              Ret (ns', first_of (s1 ++ (i, k) :: s2) h)
  | None => Ret (ns, first_of s2 None)
  end = Ret (ns1, first_of (s1 ++ s2) None).
Proof.
  unfold last_of. destruct s1 as [|[j k'] s1]; simpl; [by intros [= ->]|].
  destruct (last ((j, k') :: s1)) as [e|] eqn:E; [by intros ->|].
  by apply last_None in E.
Qed.

Lemma unlink_tail ns1 ns2 s1 s2 i k (h : option nat) :
  match first_of s2 None with
  | Some j => node_set_prev ns1 j (last_of None s1) | None => Ret ns1 end = Ret ns2 →
  match first_of s2 None with
  | Some n => ns' ← node_set_prev ns1 n (last_of None s1);
              Ret (ns', last_of h (s1 ++ (i, k) :: s2))
  | None => Ret (ns1, last_of None s1)
  end = Ret (ns2, last_of None (s1 ++ s2)).
Proof.
  destruct s2 as [|[j k'] s2]; simpl; [intros [= ->]; by rewrite app_nil_r|].
  intros ->. simpl. do 2 f_equal. unfold last_of. rewrite !last_app, last_cons_cons.
  by destruct (last_is_Some ((j, k') :: s2)) as [_ [? ->]].
Qed.

Lemma in_mid (s1 s2 : seqn) i k : i ∈ ((s1 ++ (i, k) :: s2).*1).
Proof. rewrite fmap_app. set_solver. Qed.

(** A node that is unlinked and deactivated leaves a well-formed arena. *)
Lemma rep_unlinked l s1 i k s2 ns2 :
  rep l (s1 ++ (i, k) :: s2) → i ∉ ((s1 ++ s2).*1) →
  dll ns2 None (s1 ++ s2) None → upd_only (nodes l) ns2 ((s1 ++ s2).*1) →
  rep (mkLru (<[i := mkNode k None None false]> ns2) (first_of (s1 ++ s2) None)
         (last_of None (s1 ++ s2)) (free l ++ [i]) (length (s1 ++ s2))) (s1 ++ s2).
Proof.
  intros R Hni D2 U. pose proof (rep_nodup _ _ R) as N.
  destruct (dll_lookup _ _ _ _ i (rep_dll _ _ R) (in_mid _ _ _ _)) as (nd & Hi & Ha).
  destruct (upd_only_lookup _ _ _ _ _ U Hi) as (nd' & Hi' & _).
  apply lookup_lt_Some in Hi' as Hlt. split; simpl; try done.
  - eapply dll_frame; [done|]. intros j Hj. apply list_lookup_insert_ne. by intros ->.
  - rewrite fmap_app in *. apply NoDup_app in N as (? & ? & [? ?]%NoDup_cons).
    apply NoDup_app. set_solver.
  - intros j ndj. destruct (decide (i = j)) as [->|Hne].
    { rewrite list_lookup_insert_eq by done. by intros [= <-]. }
    rewrite list_lookup_insert_ne by done. intros Hj Haj.
    destruct (upd_active _ _ _ U _ _ Hj) as (nd0 & Hj0 & Hact).
    assert (j ∈ ((s1 ++ (i, k) :: s2).*1)) by (eapply rep_active; eauto; congruence).
    rewrite fmap_app in *. set_solver.
  - intros j. rewrite elem_of_app, list_elem_of_singleton, (rep_free _ _ R).
    destruct (decide (i = j)) as [->|Hne].
    { rewrite list_lookup_insert_eq by done. naive_solver. }
    rewrite list_lookup_insert_ne by done. split.
    + intros [(ndj & Hj & Haj)|]; [|congruence].
      destruct (upd_only_lookup _ _ _ _ _ U Hj) as (nd2 & ? & ?). exists nd2. split; congruence.
    + intros (ndj & Hj & Haj). left.
      destruct (upd_active _ _ _ U _ _ Hj) as (nd0 & ? & ?). exists nd0. split; congruence.
  - apply NoDup_app. split_and!; [apply R| |apply NoDup_singleton].
    intros j Hj ->%list_elem_of_singleton.
    apply (rep_free _ _ R) in Hj as (nd0 & ? & ?). congruence.
Qed.

Lemma remove_active l s1 i k s2 :
  rep l (s1 ++ (i, k) :: s2) →
  ∃ l', remove l i = Ret l' ∧ rep l' (s1 ++ s2) ∧
        length (nodes l') = length (nodes l).
Proof.
  intros R. pose proof (rep_dll _ _ R) as D. pose proof (rep_nodup _ _ R) as N.
  destruct (unlink_spec _ _ _ _ _ D N) as (ns1 & ns2 & E1 & E2 & D2 & U).
  apply dll_app in D as [D1 [Hi _]]. unfold remove, vec_get. rewrite Hi. simpl.
  assert (i ∉ ((s1 ++ s2).*1)) as Hni.
  { rewrite fmap_app in *. apply NoDup_app in N as (_ & N & [N' _]%NoDup_cons). set_solver. }
  rewrite <- (upd_out _ _ _ U i Hni) in Hi.
  set (nd' := mkNode k None None false).
  assert ((ns3 ← node_set_inactive ns2 i; ns3 ← node_set_prev ns3 i None; node_set_next ns3 i None)
            = Ret (<[i := nd']> ns2)) as E3.
  { apply lookup_lt_Some in Hi as Hlt. erewrite node_set_inactive_Ret by done. simpl.
    erewrite node_set_prev_Ret by (by apply list_lookup_insert_eq). simpl.
    erewrite node_set_next_Ret by (by apply list_lookup_insert_eq; rewrite length_insert).
    by rewrite !list_insert_insert_eq. }
  exists (mkLru (<[i := nd']> ns2) (first_of (s1 ++ s2) None) (last_of None (s1 ++ s2))
            (free l ++ [i]) (length (s1 ++ s2))).
  split; [|split].
  - assert (len l = S (length (s1 ++ s2))) as Hlen.
    { rewrite (rep_len _ _ R), !length_app. simpl. lia. }
    rewrite Hlen, (rep_head _ _ R), (rep_tail _ _ R).
    rewrite (unlink_head _ _ _ _ _ _ _ E1). simpl.
    rewrite (unlink_tail _ _ _ _ _ _ _ E2). simpl.
    apply bind_Ret in E3 as (a & -> & (b & Eb & E3)%bind_Ret). simpl.
    rewrite Eb. simpl. by rewrite E3.
  - by apply rep_unlinked with (k := k) (ns2 := ns2).
  - simpl. rewrite length_insert. apply U.
Qed.

Lemma remove_spec l s i :
  rep l s → i < length (nodes l) →
  ∃ l', remove l i = Ret l' ∧ rep l' (seq_remove s i) ∧ length (nodes l') = length (nodes l).
Proof.
  intros R Hlt. destruct (decide (i ∈ (s.*1))) as [Hi|Hi].
  - destruct (seq_split s i Hi (rep_nodup _ _ R)) as (s1 & k & s2 & -> & H1 & H2 & _).
    rewrite seq_remove_mid by done. by eapply remove_active.
  - destruct (lookup_lt_is_Some_2 _ _ Hlt) as [nd Hnd].
    exists l. unfold remove, vec_get. rewrite Hnd. simpl.
    rewrite (rep_inactive _ _ _ _ R Hnd Hi), seq_remove_notin by done. done.
Qed.

(** Link a node after the last one of the list, as [push_back] and
    [move_to_back] end. *)
Lemma append_spec ns s i k :
  dll ns None s None → NoDup (s.*1) → i ∉ (s.*1) →
  ns !! i = Some (mkNode k (last_of None s) None true) →
  ∃ ns', match last_of None s with Some t => node_set_next ns t (Some i) | None => Ret ns end
           = Ret ns' ∧
         dll ns' None (s ++ [(i, k)]) None ∧ upd_only ns ns' (s.*1).
Proof.
  intros D N Hi Hnd.
  destruct (set_next_last _ _ _ (Some i) D N) as (ns' & E & D' & U).
  exists ns'. split_and!; [done| |done]. apply dll_app. simpl.
  split_and!; [done| |done]. by rewrite (upd_out _ _ _ U).
Qed.

Lemma first_of_snoc s i k : first_of (s ++ [(i, k)]) None = first_of s (Some i).
Proof. by destruct s as [|[]]. Qed.

Lemma last_of_snoc p s i k : last_of p (s ++ [(i, k)]) = Some i.
Proof. unfold last_of. by rewrite last_snoc. Qed.

Lemma nodup_snoc (s : seqn) i k : NoDup (s.*1) → i ∉ (s.*1) → NoDup ((s ++ [(i, k)]).*1).
Proof.
  intros N Hi. rewrite fmap_app. apply NoDup_app.
  split_and!; [done|set_solver|apply NoDup_singleton].
Qed.

Lemma first_of_nonnil s t : s ≠ [] → first_of (s ++ t) None = first_of s None.
Proof. by destruct s as [|[]]. Qed.

(** Relinking the active nodes in another order. *)
Lemma rep_reordered l s s' ns' :
  rep l s → upd_only (nodes l) ns' (s.*1) → dll ns' None s' None →
  NoDup (s'.*1) → s ≡ₚ s' →
  rep (mkLru ns' (first_of s' None) (last_of None s') (free l) (len l)) s'.
Proof.
  intros R U D N P. split; simpl; try done.
  - by rewrite (rep_len _ _ R), P.
  - intros j nd Hj Ha. rewrite <- P.
    destruct (upd_active _ _ _ U _ _ Hj) as (nd0 & ? & ?).
    eapply rep_active; eauto; congruence.
  - intros j. rewrite (rep_free _ _ R). split.
    + intros (nd & Hj & Ha). destruct (upd_only_lookup _ _ _ _ _ U Hj) as (nd' & ? & ?).
      exists nd'. split; congruence.
    + intros (nd & Hj & Ha). destruct (upd_active _ _ _ U _ _ Hj) as (nd' & ? & ?).
      exists nd'. split; congruence.
  - apply R.
Qed.

Lemma move_to_back_active l s1 i k s2 :
  rep l (s1 ++ (i, k) :: s2) → s2 ≠ [] →
  ∃ l', move_to_back l i = Ret l' ∧ rep l' ((s1 ++ s2) ++ [(i, k)]) ∧
        length (nodes l') = length (nodes l).
Proof.
  intros R Hs2. pose proof (rep_dll _ _ R) as D. pose proof (rep_nodup _ _ R) as N.
  destruct (unlink_spec _ _ _ _ _ D N) as (ns1 & ns2 & E1 & E2 & D2 & U).
  apply dll_app in D as [D1 [Hi _]].
  assert (NoDup ((s1 ++ s2).*1) ∧ i ∉ ((s1 ++ s2).*1)) as [N' Hni].
  { rewrite fmap_app in *. apply NoDup_app in N as (? & ? & [? ?]%NoDup_cons).
    rewrite NoDup_app. set_solver. }
  assert (tail l = last_of None (s1 ++ s2)) as Ht.
  { rewrite (rep_tail _ _ R). unfold last_of. rewrite !last_app.
    destruct s2 as [|e s2]; [done|]. rewrite last_cons_cons.
    by destruct (last_is_Some (e :: s2)) as [_ [? ->]]. }
  assert (tail l ≠ Some i) as Hti.
  { rewrite Ht. unfold last_of. destruct (last (s1 ++ s2)) as [e|] eqn:E; [|done].
    apply last_Some in E as [s' E]. rewrite E, fmap_app in Hni. set_solver. }
  pose proof Hi as Hi2. rewrite <- (upd_out _ _ _ U i Hni) in Hi2.
  apply lookup_lt_Some in Hi2 as Hlt.
  set (ns3 := <[i := mkNode k (last_of None (s1 ++ s2)) None true]> ns2).
  assert (dll ns3 None (s1 ++ s2) None) as D3.
  { eapply dll_frame; [done|]. intros j Hj. apply list_lookup_insert_ne. by intros ->. }
  destruct (append_spec ns3 (s1 ++ s2) i k D3 N' Hni) as (ns4 & E4 & D4 & U4).
  { by apply list_lookup_insert_eq. }
  exists (mkLru ns4 (first_of ((s1 ++ s2) ++ [(i, k)]) None)
            (last_of None ((s1 ++ s2) ++ [(i, k)])) (free l) (len l)). split_and!.
  - rewrite last_of_snoc, first_of_nonnil by (destruct s1, s2; done).
    unfold move_to_back, vec_get. rewrite Hi. simpl.
    rewrite decide_False by done. rewrite (rep_head _ _ R).
    rewrite (unlink_head _ _ _ _ _ _ _ E1). simpl. rewrite E2. simpl.
    erewrite node_set_prev_Ret by done. simpl.
    erewrite node_set_next_Ret by (by apply list_lookup_insert_eq). simpl.
    rewrite list_insert_insert_eq, Ht. fold ns3. by rewrite E4.
  - apply (rep_reordered l (s1 ++ (i, k) :: s2)); try done.
    + pose proof (upd_only_trans _ _ _ _ _ U (upd_only_insert ns2 i _
        (mkNode k (last_of None (s1 ++ s2)) None true) [i] Hi2 eq_refl
        ltac:(set_solver))) as U3.
      pose proof (upd_only_trans _ _ _ _ _ U3 U4) as [? O ?]. split; [done| |done].
      intros j Hj. apply O. rewrite !fmap_app in *. set_solver.
    + by apply nodup_snoc.
    + rewrite <- (Permutation_middle s1 s2), <- Permutation_cons_append. done.
  - simpl. rewrite (upd_len _ _ _ U4). unfold ns3. rewrite length_insert. apply U.
Qed.

Lemma move_to_back_spec l s i :
  rep l s → i < length (nodes l) →
  ∃ l', move_to_back l i = Ret l' ∧ rep l' (seq_touch s i) ∧
        length (nodes l') = length (nodes l).
Proof.
  intros R Hlt. unfold seq_touch. destruct (decide (i ∈ (s.*1))) as [Hi|Hi].
  - destruct (rep_node _ _ _ R Hi) as (s1 & k & s2 & -> & H1 & H2 & Hnd).
    rewrite seq_key_mid, seq_remove_mid by done.
    destruct s2 as [|e s2]; [|by apply move_to_back_active].
    exists l. rewrite app_nil_r. unfold move_to_back, vec_get. rewrite Hnd. simpl.
    by rewrite decide_True by (by rewrite (rep_tail _ _ R), last_of_snoc).
  - rewrite seq_key_notin by done.
    destruct (lookup_lt_is_Some_2 _ _ Hlt) as [nd Hnd].
    exists l. unfold move_to_back, vec_get. rewrite Hnd. simpl.
    by rewrite (rep_inactive _ _ _ _ R Hnd Hi).
Qed.

(** Every slot of the arena is either on the list or on the free list. *)
Lemma rep_arena l s : rep l s → s.*1 ++ free l ≡ₚ seq 0 (length (nodes l)).
Proof.
  intros R. apply NoDup_Permutation.
  - apply NoDup_app. split_and!; [apply R| |apply R]. intros i Hi Hf.
    destruct (dll_lookup _ _ _ _ _ (rep_dll _ _ R) Hi) as (nd & ? & ?).
    apply (rep_free _ _ R) in Hf as (nd' & ? & ?). congruence.
  - apply NoDup_seq.
  - intros i. rewrite elem_of_app, elem_of_seq. split.
    + intros [Hi|Hi].
      * destruct (dll_lookup _ _ _ _ _ (rep_dll _ _ R) Hi) as (nd & H & _).
        apply lookup_lt_Some in H. lia.
      * apply (rep_free _ _ R) in Hi as (nd & H & _). apply lookup_lt_Some in H. lia.
    + intros Hi. destruct (lookup_lt_is_Some_2 (nodes l) i) as [nd Hnd]; [lia|].
      destruct (active nd) eqn:E; [left; by eapply rep_active|].
      right. apply (rep_free _ _ R). eauto.
Qed.

Lemma rep_arena_length l s : rep l s → length (nodes l) = length s + length (free l).
Proof.
  intros R. pose proof (Permutation_length (rep_arena _ _ R)) as H.
  rewrite length_app, length_fmap, length_seq in H. lia.
Qed.

(** The slot [push_back] takes, recycled or appended. *)
Record fresh_slot (l : LruList) (s : seqn) (nd : Node) (i : nat) (ns : list Node)
    (fr : list nat) : Prop := {
  slot_fresh : i ∉ (s.*1);
  slot_node : ns !! i = Some nd;
  slot_out : ∀ j, j ≠ i → ns !! j = nodes l !! j;
  slot_nodup : NoDup fr;
  slot_notfree : i ∉ fr;
  slot_free : ∀ j, j ≠ i → j ∈ fr ↔ j ∈ free l;
  slot_len : length (nodes l) ≤ length ns
}.

Lemma recycled_slot l s nd i fr :
  rep l s → free l = fr ++ [i] → i < length (nodes l) ∧ fresh_slot l s nd i (<[i := nd]> (nodes l)) fr.
Proof.
  intros R Ep. pose proof (rep_free_nodup _ _ R) as Nf. rewrite Ep in Nf.
  apply NoDup_app in Nf as (Nf & Nfi & _).
  destruct (proj1 (rep_free _ _ R i)) as (nd0 & Hnd & Ha).
  { rewrite Ep, elem_of_app, list_elem_of_singleton. auto. }
  apply lookup_lt_Some in Hnd as Hlt. split; [done|]. split; try done.
  - intros Hin. destruct (dll_lookup _ _ _ _ _ (rep_dll _ _ R) Hin) as (nd' & ? & ?). congruence.
  - by apply list_lookup_insert_eq.
  - intros j Hj. by apply list_lookup_insert_ne.
  - intros Hin. apply (Nfi _ Hin), list_elem_of_singleton. done.
  - intros j Hj. rewrite Ep, elem_of_app, list_elem_of_singleton. naive_solver.
  - by rewrite length_insert.
Qed.

Lemma appended_slot l s nd :
  rep l s → free l = [] → fresh_slot l s nd (length (nodes l)) (nodes l ++ [nd]) [].
Proof.
  intros R Ep. split.
  - intros Hin. destruct (dll_lookup _ _ _ _ _ (rep_dll _ _ R) Hin) as (nd' & Hl & _).
    apply lookup_lt_Some in Hl. lia.
  - by rewrite list_lookup_middle.
  - intros j Hj. destruct (decide (j < length (nodes l))); [by apply lookup_app_l|].
    rewrite (lookup_ge_None_2 (nodes l)) by lia. apply lookup_ge_None_2.
    rewrite length_app. simpl. lia.
  - constructor.
  - apply not_elem_of_nil.
  - by rewrite Ep.
  - rewrite length_app. lia.
Qed.

(** The choice of the slot: recycled from the free list, or appended. *)
Lemma slot_spec l s nd :
  rep l s → (Z.of_nat (length s) < 2 ^ 32)%Z →
  ∃ i ns fr,
    match vec_pop (free l) with
    | Some (free_idx, fr) => ns ← vec_set (nodes l) free_idx nd; Ret (free_idx, ns, fr)
    | None => Ret (as_u32 (length (nodes l)), nodes l ++ [nd], free l)
    end = Ret (i, ns, fr) ∧ fresh_slot l s nd i ns fr.
Proof.
  intros R Hs. destruct (vec_pop (free l)) as [[i fr]|] eqn:Ep.
  - apply vec_pop_Some in Ep. destruct (recycled_slot l s nd _ _ R Ep) as [Hlt F].
    rewrite vec_set_Ret by done. eauto.
  - apply vec_pop_None in Ep. pose proof (rep_arena_length _ _ R) as HL.
    rewrite Ep in HL |- *. simpl in HL. rewrite as_u32_small by lia.
    do 3 eexists; split; [done|]. by apply appended_slot.
Qed.

(** Filling the slot leaves the list as it was. *)
Lemma slot_dll l s nd i ns fr : rep l s → fresh_slot l s nd i ns fr → dll ns None s None.
Proof.
  intros R F. eapply dll_frame; [apply R|]. intros j Hj. apply F. intros ->.
  by apply (slot_fresh _ _ _ _ _ _ F).
Qed.

(** Linking a filled slot somewhere into the list. *)
Lemma rep_push l s s' nd i k ns fr ns' :
  rep l s → fresh_slot l s nd i ns fr → active nd = true →
  upd_only ns ns' (s.*1) → dll ns' None s' None → s' ≡ₚ (i, k) :: s →
  rep (mkLru ns' (first_of s' None) (last_of None s') fr (S (len l))) s'.
Proof.
  intros R F An U D P.
  assert (s'.*1 ≡ₚ i :: s.*1) as P1 by (by rewrite P).
  assert (∀ j nd, j ≠ i → ns' !! j = Some nd →
            ∃ nd', nodes l !! j = Some nd' ∧ active nd' = active nd) as Hb.
  { intros j nd' Hj Hl. destruct (upd_active _ _ _ U _ _ Hl) as (nd'' & Hl' & ?).
    rewrite (slot_out _ _ _ _ _ _ F) in Hl' by done. eauto. }
  split; simpl; try done.
  - rewrite P1. apply NoDup_cons. split; [apply F|apply R].
  - by rewrite (rep_len _ _ R), P.
  - intros j nd' Hj Ha. rewrite P1, elem_of_cons.
    destruct (decide (j = i)) as [->|Hne]; [by left|]. right.
    destruct (Hb _ _ Hne Hj) as (nd'' & ? & ?). eapply rep_active; eauto; congruence.
  - intros j. destruct (decide (j = i)) as [->|Hne].
    + split; [by intros ?%(slot_notfree _ _ _ _ _ _ F)|]. intros (nd' & Hl & Ha).
      destruct (upd_active _ _ _ U _ _ Hl) as (nd'' & Hl' & ?).
      rewrite (slot_node _ _ _ _ _ _ F) in Hl'. injection Hl' as <-. congruence.
    + rewrite (slot_free _ _ _ _ _ _ F), (rep_free _ _ R) by done. split.
      * intros (nd' & Hl & Ha). rewrite <- (slot_out _ _ _ _ _ _ F) in Hl by done.
        destruct (upd_only_lookup _ _ _ _ _ U Hl) as (nd'' & ? & ?). exists nd''. split; congruence.
      * intros (nd' & Hl & Ha). destruct (Hb _ _ Hne Hl) as (nd'' & ? & ?).
        exists nd''. split; congruence.
  - apply F.
Qed.

Lemma push_back_spec l s k :
  rep l s → (Z.of_nat (length s) < 2 ^ 32)%Z →
  ∃ i l', push_back l k = Ret (i, l') ∧ i ∉ (s.*1) ∧ rep l' (s ++ [(i, k)]) ∧
          length (nodes l) ≤ length (nodes l').
Proof.
  intros R Hs. set (nd := mkNode k (last_of None s) None true).
  destruct (slot_spec l s nd R Hs) as (i & ns & fr & E & F).
  destruct (append_spec _ _ _ _ (slot_dll _ _ _ _ _ _ R F) (rep_nodup _ _ R)
    (slot_fresh _ _ _ _ _ _ F) (slot_node _ _ _ _ _ _ F)) as (ns' & E2 & D2 & U).
  exists i, (mkLru ns' (first_of (s ++ [(i, k)]) None) (last_of None (s ++ [(i, k)])) fr (S (len l))).
  split_and!; [|apply F| |simpl; rewrite (upd_len _ _ _ U); apply F].
  2:{ eapply (rep_push l s _ nd i k ns); [done..|]. by rewrite Permutation_app_comm. }
  unfold push_back. rewrite (rep_tail _ _ R). fold nd. rewrite E. simpl.
  rewrite E2, (rep_head _ _ R), first_of_snoc, last_of_snoc. simpl.
  by destruct s as [|[]].
Qed.

Lemma peek_loop_spec fuel ns p s n acc :
  dll ns p s None → length s ≤ fuel →
  peek_loop fuel ns (first_of s None) n acc = Ret (acc ++ take (n - length acc) (s.*2)).
Proof.
  revert p s acc. induction fuel as [|fuel IH]; intros p [|[i k] s] acc; simpl; intros D Hf;
    rewrite ?take_nil, ?app_nil_r; try done; [lia|].
  destruct D as [Hi D]. case_decide as Hn.
  - replace (n - length acc) with 0 by lia. by rewrite app_nil_r.
  - unfold vec_get. rewrite Hi. simpl. rewrite (IH _ _ _ D) by lia.
    rewrite <- app_assoc. do 2 f_equal. rewrite length_app. simpl.
    replace (n - length acc) with (S (n - (length acc + 1))) by lia. done.
Qed.

Lemma peek_front_n_spec l s n : rep l s → peek_front_n l n = Ret (take n (s.*2)).
Proof.
  intros R. unfold peek_front_n. rewrite (rep_head _ _ R).
  rewrite (peek_loop_spec _ _ None s n []).
  - simpl. by rewrite Nat.sub_0_r.
  - apply R.
  - rewrite (rep_arena_length _ _ R). lia.
Qed.

Lemma pop_front_nil l : rep l [] → pop_front l = Ret (None, l).
Proof. intros R. unfold pop_front. by rewrite (rep_head _ _ R). Qed.

Lemma pop_front_cons l i k s : rep l ((i, k) :: s) →
  ∃ l', pop_front l = Ret (Some k, l') ∧ rep l' s ∧ length (nodes l') = length (nodes l).
Proof.
  intros R. destruct (remove_active l [] i k s R) as (l' & E & R' & Hl).
  exists l'. split_and!; [|done..]. unfold pop_front. rewrite (rep_head _ _ R). simpl.
  destruct (rep_dll _ _ R) as [Hi _]. unfold vec_get. rewrite Hi. simpl. by rewrite E.
Qed.

(** * The abstraction function *)

Fixpoint walk (fuel : nat) (ns : list Node) (cur : option nat) : seqn :=
  match fuel, cur with
  | S fuel, Some i =>
      match ns !! i with
      | Some nd => (i, key nd) :: walk fuel ns (next nd)
      | None => []
      end
  | _, _ => []
  end.

(** The sequence of an arena, read from the head. *)
Definition contents (l : LruList) : seqn := walk (length (nodes l)) (nodes l) (head l).

Definition ok (l : LruList) : Prop := rep l (contents l).

Lemma walk_dll fuel ns p s : dll ns p s None → length s ≤ fuel → walk fuel ns (first_of s None) = s.
Proof.
  revert p s. induction fuel as [|fuel IH]; intros p [|[i k] s]; simpl; intros D Hf; try done; [lia|].
  destruct D as [-> D]. simpl. f_equal. apply (IH _ _ D). lia.
Qed.

Lemma rep_contents l s : rep l s → contents l = s.
Proof.
  intros R. unfold contents. rewrite (rep_head _ _ R). apply (walk_dll _ _ None).
  - apply R.
  - rewrite (rep_arena_length _ _ R). lia.
Qed.

Lemma rep_ok l s : rep l s → ok l.
Proof. intros R. unfold ok. by rewrite (rep_contents _ _ R). Qed.

(** * Simulation *)

Inductive op := OpPush (k : Z) | OpTouch (i : nat) | OpRemove (i : nat) | OpPop
              | OpPeek (n : nat) | OpClear.

Inductive out := OutUnit | OutHandle (i : nat) | OutKey (k : option Z) | OutKeys (ks : list Z).

(** A method call on the arena. *)
Definition exec (l : LruList) (o : op) : outcome (out * LruList) :=
  match o with
  | OpPush k => '(i, l) ← push_back l k; Ret (OutHandle i, l)
  | OpTouch i => l ← move_to_back l i; Ret (OutUnit, l)
  | OpRemove i => l ← remove l i; Ret (OutUnit, l)
  | OpPop => '(k, l) ← pop_front l; Ret (OutKey k, l)
  | OpPeek n => ks ← peek_front_n l n; Ret (OutKeys ks, l)
  | OpClear => Ret (OutUnit, clear l)
  end.

(** What the call does to the sequence. *)
Inductive seq_step (s : seqn) : op → out → seqn → Prop :=
| step_push k i : i ∉ (s.*1) → seq_step s (OpPush k) (OutHandle i) (s ++ [(i, k)])
| step_touch i : seq_step s (OpTouch i) OutUnit (seq_touch s i)
| step_remove i : seq_step s (OpRemove i) OutUnit (seq_remove s i)
| step_pop : seq_step s OpPop (OutKey (snd <$> List.hd_error s)) (List.tl s)
| step_peek n : seq_step s (OpPeek n) (OutKeys (take n (s.*2))) s
| step_clear : seq_step s OpClear OutUnit [].

(** The calls a caller may make: fewer than [2^32] entries, and handles issued
    since the arena was last cleared. *)
Definition op_ok (l : LruList) (o : op) : Prop :=
  match o with
  | OpPush _ => (Z.of_nat (length (contents l)) < 2 ^ 32)%Z
  | OpTouch i | OpRemove i => i < length (nodes l)
  | _ => True
  end.

Lemma lru_list_step l o :
  ok l → op_ok l o →
  ∃ r l', exec l o = Ret (r, l') ∧ ok l' ∧ seq_step (contents l) o r (contents l').
Proof.
  intros R Hok. unfold ok in R.
  assert (∀ l' s', rep l' s' → ok l' ∧ contents l' = s') as Hrep
    by (split; [by eapply rep_ok|by apply rep_contents]).
  destruct o as [k|i|i| |n|]; simpl in *.
  - destruct (push_back_spec _ _ k R Hok) as (i & l' & -> & Hi & [? Hc]%Hrep & _).
    simpl. do 2 eexists. split_and!; [done..|]. rewrite Hc. by constructor.
  - destruct (move_to_back_spec _ _ _ R Hok) as (l' & -> & [? Hc]%Hrep & _).
    simpl. do 2 eexists. split_and!; [done..|]. rewrite Hc. by constructor.
  - destruct (remove_spec _ _ _ R Hok) as (l' & -> & [? Hc]%Hrep & _).
    simpl. do 2 eexists. split_and!; [done..|]. rewrite Hc. by constructor.
  - destruct (contents l) as [|[i k] s] eqn:E.
    + rewrite pop_front_nil by done. simpl. do 2 eexists. split_and!; [done| |].
      * unfold ok. by rewrite E.
      * rewrite E. apply (step_pop []).
    + destruct (pop_front_cons _ _ _ _ R) as (l' & -> & [? Hc]%Hrep & _).
      simpl. do 2 eexists. split_and!; [done..|]. rewrite Hc. apply (step_pop ((i, k) :: s)).
  - rewrite (peek_front_n_spec _ _ _ R). simpl. do 2 eexists. split_and!; [done..|]. constructor.
  - do 2 eexists. split_and!; [done| |].
    + apply (rep_ok _ [] (rep_clear l)).
    + rewrite (rep_contents _ _ (rep_clear l)). constructor.
Qed.

(** The arena implements a recency-ordered sequence. Every permitted call
    returns, its output and its effect are those of the sequence operation
    ([push_back] appends under a fresh handle, [move_to_back] moves an entry
    to the most recently used end and ignores a removed one, [remove] deletes,
    [pop_front] takes the least recently used entry, [peek_front_n] lists the
    [n] least recently used), and the arena is well formed again. *)
Theorem lru_list_refines l o :
  ok l → op_ok l o →
  ∃ r l', exec l o = Ret (r, l') ∧ ok l' ∧ seq_step (contents l) o r (contents l').
Proof. apply lru_list_step. Qed.

(** A list with three entries, its first touched and its second removed. *)
Definition sample : LruList :=
  match ('(_, l) ← push_back new 100; '(_, l) ← push_back l 200; '(_, l) ← push_back l 300;
         l ← move_to_back l 0; remove l 1) with
  | Ret l => l
  | Panic => new
  end.

Lemma sample_ok : rep sample [(2, 300%Z); (0, 100%Z)].
Proof.
  split; [vm_compute; by repeat split| |done|done|done| | |].
  - by apply NoDup_cons; split; [set_solver|apply NoDup_singleton].
  - intros [|[|[|i]]] nd [= <-]; simpl; intros ?; try done; set_solver.
  - intros i. change (free sample) with [1]. rewrite list_elem_of_singleton. split.
    + intros ->. eexists. done.
    + destruct i as [|[|[|i]]]; intros (nd & Hi & Ha); try done; injection Hi as <-; done.
  - apply NoDup_singleton.
Qed.

Lemma lru_list_refines_witness : ∃ r l',
  exec sample OpPop = Ret (r, l') ∧ ok l' ∧ seq_step (contents sample) OpPop r (contents l').
Proof. apply (lru_list_refines sample OpPop); [exact (rep_ok _ _ sample_ok)|exact I]. Defined.

(** * Recency *)

(** Calls are numbered from 0; [stamp] records the number of the last call that
    tracked or touched each handle. *)
Definition stamp (s : seqn) (st : gmap nat nat) (c : nat) (o : op) (r : out) : gmap nat nat :=
  match o, r with
  | OpPush _, OutHandle i => <[i := c]> st
  | OpTouch i, _ => match seq_key s i with Some _ => <[i := c]> st | None => st end
  | _, _ => st
  end.

(** The states a caller can reach, with the stamps and the number of calls. *)
Inductive trace : LruList → gmap nat nat → nat → Prop :=
| trace_new : trace new ∅ 0
| trace_step l st c o r l' :
    trace l st c → op_ok l o → exec l o = Ret (r, l') →
    trace l' (stamp (contents l) st c o r) (S c).

Definition used_before (st : gmap nat nat) (i j : nat) : Prop :=
  ∃ a b, st !! i = Some a ∧ st !! j = Some b ∧ a < b.

(** The handles are in the order of their last use, before call [c]. *)
Definition by_recency (st : gmap nat nat) (c : nat) (s : seqn) : Prop :=
  StronglySorted (used_before st) (s.*1) ∧
  ∀ i, i ∈ (s.*1) → ∃ a, st !! i = Some a ∧ a < c.

Lemma used_before_insert st i j x c :
  x ≠ i → x ≠ j → used_before st i j → used_before (<[x := c]> st) i j.
Proof. intros ?? (a & b & ? & ? & ?). exists a, b. by rewrite !lookup_insert_ne by done. Qed.

Lemma StronglySorted_impl_in {A} (R R' : relation A) l :
  (∀ x y, x ∈ l → y ∈ l → R x y → R' x y) → StronglySorted R l → StronglySorted R' l.
Proof.
  intros H. induction 1 as [|x l Hl IH Hx]; constructor.
  - apply IH. intros. apply H; [by right..|done].
  - apply Forall_forall. intros y Hy. apply H; [by left|by right|].
    by eapply Forall_forall in Hx.
Qed.

Lemma sublist_elem_of {A} (l1 l2 : list A) x : x ∈ l1 → l1 `sublist_of` l2 → x ∈ l2.
Proof. intros Hx Hs. eapply elem_of_submseteq; [done|]. by apply sublist_submseteq. Qed.

Lemma StronglySorted_sublist {A} (R : relation A) l1 l2 :
  l1 `sublist_of` l2 → StronglySorted R l2 → StronglySorted R l1.
Proof.
  induction 1 as [|x l1 l2 Hs IH|x l1 l2 Hs IH]; [done|..]; intros [H1 H2]%StronglySorted_inv.
  - constructor; [by apply IH|]. apply Forall_forall. intros y Hy.
    eapply Forall_forall in H2; [done|]. by eapply sublist_elem_of.
  - by apply IH.
Qed.

Lemma seq_remove_sublist (s : seqn) i : (seq_remove s i).*1 `sublist_of` s.*1.
Proof.
  induction s as [|[j k] s IH]; simpl; [done|].
  destruct (Nat.eqb_spec j i); simpl; by constructor.
Qed.

Lemma by_recency_sublist st c s s' :
  s'.*1 `sublist_of` s.*1 → by_recency st c s → by_recency st (S c) s'.
Proof.
  intros Hs [H1 H2]. split; [by eapply StronglySorted_sublist|].
  intros i Hi. destruct (H2 i) as (a & ? & ?); [by eapply sublist_elem_of|].
  exists a. split; [done|lia].
Qed.

(** Appending a handle that was used by the current call. *)
Lemma by_recency_snoc st c s i k :
  by_recency st (S c) s → (∀ j, j ∈ (s.*1) → ∃ a, st !! j = Some a ∧ a < c) → i ∉ (s.*1) →
  by_recency (<[i := c]> st) (S c) (s ++ [(i, k)]).
Proof.
  intros [H1 H2] H3 Hi. unfold by_recency. rewrite fmap_app. simpl. split.
  - assert (StronglySorted (used_before (<[i := c]> st)) (s.*1)) as Hs.
    { eapply StronglySorted_impl_in; [|done]. intros x y Hx Hy.
      apply used_before_insert; by intros ->. }
    assert (∀ j, j ∈ (s.*1) → used_before (<[i := c]> st) j i) as Hlast.
    { intros j Hj. destruct (H3 j Hj) as (a & ? & ?). exists a, c.
      rewrite lookup_insert_ne, lookup_insert_eq by (by intros ->). done. }
    clear H1 H2 H3 Hi. induction (s.*1) as [|x l IH]; simpl; [by repeat constructor|].
    apply StronglySorted_inv in Hs as [Hs Hx]. constructor.
    + apply IH; [done|]. intros j Hj. apply Hlast. by right.
    + apply Forall_app; split; [done|]. apply Forall_singleton, Hlast. by left.
  - intros j [Hj|Hj]%elem_of_app.
    + destruct (H2 j Hj) as (a & ? & ?). exists a. by rewrite lookup_insert_ne by (by intros ->).
    + apply list_elem_of_singleton in Hj as ->. exists c. rewrite lookup_insert_eq. split; [done|lia].
Qed.

Lemma by_recency_step s st c o r s' :
  NoDup (s.*1) → by_recency st c s → seq_step s o r s' → by_recency (stamp s st c o r) (S c) s'.
Proof.
  intros N B Hst. destruct Hst; simpl; try by eapply by_recency_sublist.
  - apply by_recency_snoc; [by eapply by_recency_sublist|apply B|done].
  - unfold seq_touch. destruct (decide (i ∈ (s.*1))) as [Hi|Hi].
    + destruct (seq_split _ _ Hi N) as (s1 & k & s2 & -> & H1 & H2 & _).
      rewrite seq_key_mid, seq_remove_mid by done.
      assert ((s1 ++ s2).*1 `sublist_of` (s1 ++ (i, k) :: s2).*1) as Hsub.
      { rewrite !fmap_app. simpl. apply sublist_app; [done|]. by constructor. }
      apply by_recency_snoc; [by eapply by_recency_sublist| |].
      * intros j Hj. apply B. by eapply sublist_elem_of.
      * rewrite fmap_app, elem_of_app. tauto.
    + rewrite seq_key_notin by done. by eapply by_recency_sublist.
  - eapply by_recency_sublist; [|done]. apply seq_remove_sublist.
  - eapply by_recency_sublist; [|done]. destruct s; simpl; [done|]. by constructor.
  - eapply by_recency_sublist; [|done]. apply sublist_nil_l.
Qed.

Lemma trace_inv l st c : trace l st c → ok l ∧ by_recency st c (contents l).
Proof.
  induction 1 as [|l st c o r l' _ [O B] Hok E].
  { split; [apply (rep_ok _ [] rep_new)|]. split; [constructor|set_solver]. }
  destruct (lru_list_step _ _ O Hok) as (r' & l2 & E' & O' & Hs).
  rewrite E in E'. injection E' as <- <-. split; [done|].
  apply (by_recency_step (contents l)); [apply O|done..].
Qed.

(** In every state reachable from an empty list, the entry that
    [pop_front] evicts is the one whose last [push_back] or [move_to_back] is
    older than that of every other entry. *)
Theorem lru_evicts_least_recent l st c k l' :
  trace l st c → pop_front l = Ret (Some k, l') →
  ∃ i, (i, k) ∈ contents l ∧
       ∀ j k', (j, k') ∈ contents l → j ≠ i → used_before st i j.
Proof.
  intros [R [Hs _]]%trace_inv E.
  destruct (contents l) as [|[i k0] s] eqn:Ec; unfold ok in R; rewrite Ec in R.
  { by rewrite (pop_front_nil l R) in E. }
  destruct (pop_front_cons _ _ _ _ R) as (l2 & E2 & _). rewrite E2 in E. injection E as -> <-.
  exists i. split; [by left|]. intros j k' Hj Hne.
  apply StronglySorted_inv in Hs as [_ Hs]. eapply Forall_forall in Hs; [done|].
  apply elem_of_cons in Hj as [[= ->]|Hj]; [done|].
  apply list_elem_of_fmap. by exists (j, k').
Qed.

(** Two entries, the first touched after the second was tracked. *)
Definition touched : LruList :=
  match ('(_, l) ← push_back new 100; '(_, l) ← push_back l 200; move_to_back l 0) with
  | Ret l => l
  | Panic => new
  end.

Lemma touched_trace : trace touched {[0 := 2; 1 := 1]} 3.
Proof.
  pose proof (trace_step new ∅ 0 (OpPush 100) _ _ trace_new eq_refl eq_refl) as T1.
  pose proof (trace_step _ _ _ (OpPush 200) _ _ T1 eq_refl eq_refl) as T2.
  assert (op_ok (mkLru [mkNode 100 None (Some 1) true; mkNode 200 (Some 0) None true]
                   (Some 0) (Some 1) [] 2) (OpTouch 0)) as H0 by (simpl; lia).
  exact (trace_step _ _ _ (OpTouch 0) _ _ T2 H0 eq_refl).
Qed.

Lemma lru_evicts_least_recent_witness :
  ∃ i, (i, 200%Z) ∈ contents touched ∧
       ∀ j k', (j, k') ∈ contents touched → j ≠ i → used_before {[0 := 2; 1 := 1]} i j.
Proof.
  eapply (lru_evicts_least_recent touched _ 3 200); [exact touched_trace|reflexivity].
Defined.

End Lru.
