(* ===== verification/EvictionPolicy.v ===== *)
(** The [IEvictionPolicy] interface
    ([components/interfaces/src/ieviction_policy.rs]) as a class of operations
    with the laws its clients, the memory tier and the dispatch map, rely on,
    and its LRU implementation ([components/eviction-policy-lru/src/lib.rs])
    with the instance that discharges the laws. *)

From S2P Require Import Prelude LruList.

(** * The interface *)

Module Policy.

Record EvictionHandle := mkHandle { pool_id : nat; index : nat }.

Record BlockSemantics := mkSemantics { session_id : Z }.
Definition default_semantics : BlockSemantics := mkSemantics 0.

Inductive EvictionPolicyError :=
| InvalidPool (p : nat)
| InvalidHandle.

#[global] Instance EvictionHandle_eq_dec : EqDecision EvictionHandle.
Proof. solve_decision. Defined.
#[global] Instance EvictionPolicyError_eq_dec : EqDecision EvictionPolicyError.
Proof. solve_decision. Defined.

Abbreviation res A := (result A EvictionPolicyError).

Class IEvictionPolicy (S : Type) := {
  create_pool : S → nat * S;
  track : S → nat → Z → BlockSemantics → outcome (res EvictionHandle * S);
  touch : S → EvictionHandle → outcome (res unit * S);
  batch_touch : S → list EvictionHandle → outcome (res unit * S);
  remove : S → EvictionHandle → outcome (res unit * S);
  identify_next_to_evict : S → nat → outcome (option Z * S);
  get_eviction_candidates : S → nat → nat → outcome (list Z);
  pool_len : S → nat → nat;
  clear_pool : S → nat → S
}.

(** What a policy promises. [live s p] is the set of entries pool [p] tracks,
    from handle index to key ([None] for a pool that was never created). No
    law says in which order entries are evicted: that is the policy's choice. *)
Class EvictionPolicyLaws (S : Type) `{IEvictionPolicy S} := {
  pol_ok : S → Prop;
  live : S → nat → option (gmap nat Z);
  pool_count : S → nat;
  live_pools s p : pol_ok s → is_Some (live s p) ↔ p < pool_count s;
  create_pool_law s :
    pol_ok s → (Z.of_nat (pool_count s) < 2 ^ 32)%Z →
    ∃ s', create_pool s = (pool_count s, s') ∧ pol_ok s' ∧
          pool_count s' = pool_count s + 1 ∧
          live s' (pool_count s) = Some ∅ ∧
          ∀ q, q ≠ pool_count s → live s' q = live s q;
  track_law s p k sem m :
    pol_ok s → live s p = Some m → (∀ i, m !! i ≠ Some k) →
    (Z.of_nat (size m) < 2 ^ 32)%Z →
    ∃ i s', track s p k sem = Ret (Ok (mkHandle p i), s') ∧ pol_ok s' ∧
            m !! i = None ∧ live s' p = Some (<[i := k]> m) ∧
            ∀ q, q ≠ p → live s' q = live s q;
  track_invalid s p k sem :
    pol_ok s → live s p = None → track s p k sem = Ret (Err (InvalidPool p), s);
  touch_law s p i k m :
    pol_ok s → live s p = Some m → m !! i = Some k →
    ∃ s', touch s (mkHandle p i) = Ret (Ok (), s') ∧ pol_ok s' ∧
          ∀ q, live s' q = live s q;
  batch_touch_law s hs :
    pol_ok s →
    Forall (λ h, ∃ m, live s (pool_id h) = Some m ∧ is_Some (m !! index h)) hs →
    ∃ s', batch_touch s hs = Ret (Ok (), s') ∧ pol_ok s' ∧
          ∀ q, live s' q = live s q;
  remove_law s p i k m :
    pol_ok s → live s p = Some m → m !! i = Some k →
    ∃ s', remove s (mkHandle p i) = Ret (Ok (), s') ∧ pol_ok s' ∧
          live s' p = Some (delete i m) ∧ ∀ q, q ≠ p → live s' q = live s q;
  evict_empty_law s p :
    pol_ok s → live s p = Some ∅ → identify_next_to_evict s p = Ret (None, s);
  evict_law s p m :
    pol_ok s → live s p = Some m → m ≠ ∅ →
    ∃ i k s', identify_next_to_evict s p = Ret (Some k, s') ∧ pol_ok s' ∧
              m !! i = Some k ∧ live s' p = Some (delete i m) ∧
              ∀ q, q ≠ p → live s' q = live s q;
  candidates_law s p m n :
    pol_ok s → live s p = Some m →
    ∃ ks, get_eviction_candidates s p n = Ret ks ∧ length ks ≤ n ∧
          ∀ k, k ∈ ks → ∃ i, m !! i = Some k;
  clear_law s p m :
    pol_ok s → live s p = Some m →
    pol_ok (clear_pool s p) ∧ live (clear_pool s p) p = Some ∅ ∧
    ∀ q, q ≠ p → live (clear_pool s p) q = live s q
}.

End Policy.

(** * The LRU policy

    The pool table sits behind a reader-writer lock and each pool behind a
    mutex. An operation on one pool runs under that pool's mutex, so it is one
    step here; [batch_touch] is one step per pool it visits. *)

Module EvictionLru.
Import Policy.

Record EvictionState := mkState { pools : list Lru.LruList }.

Definition create_pool (st : EvictionState) : nat * EvictionState :=
  let id := as_u32 (length (pools st)) in
  (id, mkState (pools st ++ [Lru.new])).

Definition track (st : EvictionState) (pool : nat) (k : Z) (_ : BlockSemantics) :
    outcome (res EvictionHandle * EvictionState) :=
  match pools st !! pool with
  | None => Ret (Err (InvalidPool pool), st)
  | Some l =>
      '(i, l) ← Lru.push_back l k;
      Ret (Ok (mkHandle pool i), mkState (<[pool := l]> (pools st)))
  end.

Definition touch (st : EvictionState) (h : EvictionHandle) :
    outcome (res unit * EvictionState) :=
  match pools st !! pool_id h with
  | None => Ret (Err (InvalidPool (pool_id h)), st)
  | Some l =>
      l ← Lru.move_to_back l (index h);
      Ret (Ok (), mkState (<[pool_id h := l]> (pools st)))
  end.

(** The loop over [handles[1..]], holding the guard of pool [cur]. *)
Fixpoint batch_touch_loop (ps : list Lru.LruList) (cur : nat) (hs : list EvictionHandle) :
    outcome (res unit * EvictionState) :=
  match hs with
  | [] => Ret (Ok (), mkState ps)
  | h :: hs =>
      if decide (pool_id h ≠ cur) then
        match ps !! pool_id h with
        | None => Ret (Err (InvalidPool (pool_id h)), mkState ps)
        | Some l =>
            l ← Lru.move_to_back l (index h);
            batch_touch_loop (<[pool_id h := l]> ps) (pool_id h) hs
        end
      else
        l ← vec_get ps cur;
        l ← Lru.move_to_back l (index h);
        batch_touch_loop (<[cur := l]> ps) cur hs
  end.

Definition batch_touch (st : EvictionState) (hs : list EvictionHandle) :
    outcome (res unit * EvictionState) :=
  match hs with
  | [] => Ret (Ok (), st)
  | h :: hs =>
      match pools st !! pool_id h with
      | None => Ret (Err (InvalidPool (pool_id h)), st)
      | Some l =>
          l ← Lru.move_to_back l (index h);
          batch_touch_loop (<[pool_id h := l]> (pools st)) (pool_id h) hs
      end
  end.

Definition remove (st : EvictionState) (h : EvictionHandle) :
    outcome (res unit * EvictionState) :=
  match pools st !! pool_id h with
  | None => Ret (Err (InvalidPool (pool_id h)), st)
  | Some l =>
      l ← Lru.remove l (index h);
      Ret (Ok (), mkState (<[pool_id h := l]> (pools st)))
  end.

Definition identify_next_to_evict (st : EvictionState) (pool : nat) :
    outcome (option Z * EvictionState) :=
  match pools st !! pool with
  | None => Ret (None, st)
  | Some l =>
      '(k, l) ← Lru.pop_front l;
      Ret (k, mkState (<[pool := l]> (pools st)))
  end.

Definition get_eviction_candidates (st : EvictionState) (pool n : nat) : outcome (list Z) :=
  match pools st !! pool with
  | Some l => Lru.peek_front_n l n
  | None => Ret []
  end.

Definition len (st : EvictionState) (pool : nat) : nat :=
  match pools st !! pool with Some l => Lru.len l | None => 0 end.

Definition clear_pool (st : EvictionState) (pool : nat) : EvictionState :=
  match pools st !! pool with
  | Some l => mkState (<[pool := Lru.clear l]> (pools st))
  | None => st
  end.

#[global] Instance lru_policy : IEvictionPolicy EvictionState := {
  Policy.create_pool := create_pool;
  Policy.track := track;
  Policy.touch := touch;
  Policy.batch_touch := batch_touch;
  Policy.remove := remove;
  Policy.identify_next_to_evict := identify_next_to_evict;
  Policy.get_eviction_candidates := get_eviction_candidates;
  Policy.pool_len := len;
  Policy.clear_pool := clear_pool
}.

(** * The laws *)

Definition ok (st : EvictionState) : Prop := Forall Lru.ok (pools st).

Definition entries (st : EvictionState) (p : nat) : option (gmap nat Z) :=
  (λ l, list_to_map (Lru.contents l)) <$> pools st !! p.

(** Replacing one pool by a list that stands for the sequence [s']. *)
Lemma ok_update st p l s' :
  ok st → Lru.rep l s' → ok (mkState (<[p := l]> (pools st))).
Proof. intros O R. apply Forall_insert; [done|]. by eapply Lru.rep_ok. Qed.

Lemma entries_update st p l0 l s' :
  pools st !! p = Some l0 → Lru.rep l s' →
  entries (mkState (<[p := l]> (pools st))) p = Some (list_to_map s') ∧
  ∀ q, q ≠ p → entries (mkState (<[p := l]> (pools st))) q = entries st q.
Proof.
  intros Hp R. unfold entries. simpl. split.
  - rewrite list_lookup_insert_eq by (by eapply lookup_lt_Some). simpl.
    by rewrite (Lru.rep_contents _ _ R).
  - intros q Hq. by rewrite list_lookup_insert_ne by done.
Qed.

Lemma ok_rep st p l : ok st → pools st !! p = Some l → Lru.rep l (Lru.contents l).
Proof. intros O Hp. by apply (Forall_lookup_1 _ _ _ _ O Hp). Qed.

Lemma entries_Some st p m : entries st p = Some m →
  ∃ l, pools st !! p = Some l ∧ m = list_to_map (Lru.contents l).
Proof. unfold entries. intros (l & -> & ->)%fmap_Some. eauto. Qed.

Lemma live_handle l i k : Lru.ok l →
  (list_to_map (Lru.contents l) : gmap nat Z) !! i = Some k → i < length (Lru.nodes l).
Proof.
  intros R Hi. apply elem_of_list_to_map_2 in Hi.
  assert (i ∈ ((Lru.contents l).*1)) as Hin by (apply list_elem_of_fmap; by exists (i, k)).
  destruct (Lru.dll_lookup _ _ _ _ _ (Lru.rep_dll _ _ R) Hin) as (nd & H & _).
  by apply lookup_lt_Some in H.
Qed.

Lemma touch_map (s : list (nat * Z)) i : NoDup (s.*1) →
  (list_to_map (Lru.seq_touch s i) : gmap nat Z) = list_to_map s.
Proof.
  intros N. symmetry. apply list_to_map_proper; [done|]. unfold Lru.seq_touch.
  destruct (decide (i ∈ (s.*1))) as [Hi|Hi].
  - destruct (Lru.seq_split _ _ Hi N) as (s1 & k & s2 & -> & H1 & H2 & _).
    rewrite Lru.seq_key_mid, Lru.seq_remove_mid by done.
    by rewrite <- Permutation_cons_append, <- Permutation_middle.
  - by rewrite Lru.seq_key_notin.
Qed.

Lemma remove_map (s : list (nat * Z)) i : NoDup (s.*1) →
  (list_to_map (Lru.seq_remove s i) : gmap nat Z) = delete i (list_to_map s).
Proof.
  intros N. destruct (decide (i ∈ (s.*1))) as [Hi|Hi].
  - destruct (Lru.seq_split _ _ Hi N) as (s1 & k & s2 & -> & H1 & H2 & H12).
    rewrite Lru.seq_remove_mid by done.
    rewrite (list_to_map_proper (s1 ++ (i, k) :: s2) ((i, k) :: s1 ++ s2)); [|done|].
    + simpl. rewrite delete_insert_id; [done|]. apply not_elem_of_list_to_map_1.
      rewrite fmap_app. set_solver.
    + by rewrite <- Permutation_middle.
  - rewrite Lru.seq_remove_notin by done. symmetry. apply delete_id.
    by apply not_elem_of_list_to_map_1.
Qed.

(** Any operation that leaves pool [p] with the entries of [s']. *)
Lemma step_law st p l0 l s' :
  ok st → pools st !! p = Some l0 → Lru.rep l s' →
  ok (mkState (<[p := l]> (pools st))) ∧
  entries (mkState (<[p := l]> (pools st))) p = Some (list_to_map s') ∧
  ∀ q, q ≠ p → entries (mkState (<[p := l]> (pools st))) q = entries st q.
Proof.
  intros O Hp R. split; [by eapply ok_update|]. by eapply entries_update.
Qed.

Lemma entries_size l : Lru.ok l →
  size (list_to_map (Lru.contents l) : gmap nat Z) = length (Lru.contents l).
Proof.
  intros R. rewrite <- (length_map_to_list (list_to_map _)).
  by rewrite map_to_list_to_map by (apply R).
Qed.

Lemma touch_step st p i k m :
  ok st → entries st p = Some m → m !! i = Some k →
  ∃ l l', pools st !! p = Some l ∧ Lru.move_to_back l i = Ret l' ∧
    ok (mkState (<[p := l']> (pools st))) ∧
    ∀ q, entries (mkState (<[p := l']> (pools st))) q = entries st q.
Proof.
  intros O (l & Hp & ->)%entries_Some Hi. pose proof (ok_rep _ _ _ O Hp) as R.
  destruct (Lru.move_to_back_spec _ _ i R (live_handle _ _ _ R Hi)) as (l' & E & R' & _).
  destruct (step_law _ _ _ _ _ O Hp R') as (O' & Ep & Eq).
  exists l, l'. split_and!; [done..|]. intros q.
  destruct (decide (q = p)) as [->|]; [|auto]. rewrite Ep. unfold entries. rewrite Hp. simpl.
  f_equal. apply touch_map, R.
Qed.

Definition handle_live (st : EvictionState) (h : EvictionHandle) : Prop :=
  ∃ m, entries st (pool_id h) = Some m ∧ is_Some (m !! index h).

Lemma handle_live_mono st st' h :
  (∀ q, entries st' q = entries st q) → handle_live st h → handle_live st' h.
Proof. intros E (m & H & ?). exists m. by rewrite E. Qed.

Lemma batch_touch_loop_law st cur hs :
  ok st → is_Some (pools st !! cur) → Forall (handle_live st) hs →
  ∃ st', batch_touch_loop (pools st) cur hs = Ret (Ok (), st') ∧ ok st' ∧
         ∀ q, entries st' q = entries st q.
Proof.
  revert st cur. induction hs as [|h hs IH]; intros st cur O Hcur Hl; simpl.
  { exists st. by destruct st. }
  apply Forall_cons in Hl as [(m & Hm & k & Hi) Hl].
  destruct (touch_step _ _ _ _ _ O Hm Hi) as (l & l' & Hp & Et & O' & E').
  assert (∃ st', batch_touch_loop (<[pool_id h:=l']> (pools st)) (pool_id h) hs = Ret (Ok (), st')
                 ∧ ok st' ∧ ∀ q, entries st' q = entries st q) as IH'.
  { destruct (IH (mkState (<[pool_id h:=l']> (pools st))) (pool_id h) O') as (st' & E & ? & Eq).
    - simpl. rewrite list_lookup_insert_eq by (by eapply lookup_lt_Some). done.
    - eapply Forall_impl; [done|]. intros h'. by apply handle_live_mono.
    - exists st'. split_and!; [done..|]. intros q. by rewrite Eq, E'. }
  case_decide as Hc.
  - rewrite Hp, Et. done.
  - assert (cur = pool_id h) as -> by (destruct (decide (pool_id h = cur)); naive_solver).
    unfold vec_get. rewrite Hp. simpl. rewrite Et. done.
Qed.

Lemma lru_create_pool st :
  ok st → (Z.of_nat (length (pools st)) < 2 ^ 32)%Z →
  ∃ st', create_pool st = (length (pools st), st') ∧ ok st' ∧
         length (pools st') = length (pools st) + 1 ∧
         entries st' (length (pools st)) = Some ∅ ∧
         ∀ q, q ≠ length (pools st) → entries st' q = entries st q.
Proof.
  intros O Hc. unfold create_pool. rewrite as_u32_small by done.
  eexists; split; [done|]. split_and!.
  - apply Forall_app; split; [done|]. apply Forall_singleton.
    apply (Lru.rep_ok _ [] Lru.rep_new).
  - simpl. by rewrite length_app.
  - unfold entries. simpl. by rewrite list_lookup_middle.
  - intros q Hq. unfold entries. simpl. f_equal.
    destruct (decide (q < length (pools st))); [by apply lookup_app_l|].
    rewrite (lookup_ge_None_2 (pools st)) by lia. apply lookup_ge_None_2.
    rewrite length_app. simpl. lia.
Qed.

Lemma lru_track st p k sem m :
  ok st → entries st p = Some m → (Z.of_nat (size m) < 2 ^ 32)%Z →
  ∃ i st', track st p k sem = Ret (Ok (mkHandle p i), st') ∧ ok st' ∧
           m !! i = None ∧ entries st' p = Some (<[i := k]> m) ∧
           ∀ q, q ≠ p → entries st' q = entries st q.
Proof.
  intros O (l & Hp & ->)%entries_Some Hs.
  pose proof (ok_rep _ _ _ O Hp) as R. rewrite entries_size in Hs by done.
  destruct (Lru.push_back_spec _ _ k R Hs) as (i & l' & E & Hi & R' & _).
  destruct (step_law _ _ _ _ _ O Hp R') as (O' & Ep & Eq).
  exists i, (mkState (<[p:=l']> (pools st))). unfold track. rewrite Hp, E. simpl.
  split_and!; [done..| | |done].
  - by apply not_elem_of_list_to_map_1.
  - by rewrite Ep, list_to_map_snoc.
Qed.

Lemma lru_batch_touch st hs :
  ok st → Forall (handle_live st) hs →
  ∃ st', batch_touch st hs = Ret (Ok (), st') ∧ ok st' ∧ ∀ q, entries st' q = entries st q.
Proof.
  destruct hs as [|h hs]; intros O Hl; simpl; [by exists st|].
  apply Forall_cons in Hl as [(m & Hm & k & Hi) Hl].
  destruct (touch_step _ _ _ _ _ O Hm Hi) as (l & l' & Hp & Et & O' & E').
  rewrite Hp, Et. simpl.
  destruct (batch_touch_loop_law (mkState (<[pool_id h:=l']> (pools st))) (pool_id h) hs O')
    as (st' & E & ? & Eq).
  - simpl. rewrite list_lookup_insert_eq by (by eapply lookup_lt_Some). done.
  - eapply Forall_impl; [done|]. intros h'. by apply handle_live_mono.
  - exists st'. split_and!; [done..|]. intros q. by rewrite Eq, E'.
Qed.

Lemma lru_remove st p i k m :
  ok st → entries st p = Some m → m !! i = Some k →
  ∃ st', remove st (mkHandle p i) = Ret (Ok (), st') ∧ ok st' ∧
         entries st' p = Some (delete i m) ∧ ∀ q, q ≠ p → entries st' q = entries st q.
Proof.
  intros O (l & Hp & ->)%entries_Some Hi. pose proof (ok_rep _ _ _ O Hp) as R.
  destruct (Lru.remove_spec _ _ i R (live_handle _ _ _ R Hi)) as (l' & E & R' & _).
  destruct (step_law _ _ _ _ _ O Hp R') as (O' & Ep & Eq).
  eexists. unfold remove. simpl. rewrite Hp, E. simpl.
  split_and!; [done..| |done]. by rewrite Ep, remove_map by (apply R).
Qed.

Lemma lru_evict_empty st p :
  ok st → entries st p = Some ∅ → identify_next_to_evict st p = Ret (None, st).
Proof.
  intros O (l & Hp & Hm)%entries_Some. pose proof (ok_rep _ _ _ O Hp) as R.
  unfold identify_next_to_evict. rewrite Hp.
  destruct (Lru.contents l) as [|[i k] s]; [|by destruct (insert_non_empty (list_to_map s : gmap nat Z) i k)].
  rewrite Lru.pop_front_nil by done. simpl. rewrite list_insert_id by done. by destruct st.
Qed.

Lemma lru_evict st p m :
  ok st → entries st p = Some m → m ≠ ∅ →
  ∃ i k st', identify_next_to_evict st p = Ret (Some k, st') ∧ ok st' ∧
             m !! i = Some k ∧ entries st' p = Some (delete i m) ∧
             ∀ q, q ≠ p → entries st' q = entries st q.
Proof.
  intros O (l & Hp & ->)%entries_Some Hne. pose proof (ok_rep _ _ _ O Hp) as R.
  destruct (Lru.contents l) as [|[i k] s] eqn:Ec; [done|].
  destruct (Lru.pop_front_cons _ _ _ _ R) as (l' & E & R' & _).
  destruct (step_law _ _ _ _ _ O Hp R') as (O' & Ep & Eq).
  exists i, k. eexists. unfold identify_next_to_evict. rewrite Hp, E. simpl.
  split_and!; [done..| | |done].
  - by rewrite lookup_insert_eq.
  - rewrite Ep, delete_insert_id; [done|]. apply not_elem_of_list_to_map_1.
    pose proof (Lru.rep_nodup _ _ R) as N. simpl in N. by apply NoDup_cons in N as [? _].
Qed.

Lemma lru_candidates st p m n :
  ok st → entries st p = Some m →
  ∃ ks, get_eviction_candidates st p n = Ret ks ∧ length ks ≤ n ∧
        ∀ k, k ∈ ks → ∃ i, m !! i = Some k.
Proof.
  intros O (l & Hp & ->)%entries_Some. pose proof (ok_rep _ _ _ O Hp) as R.
  eexists. unfold get_eviction_candidates. rewrite Hp, (Lru.peek_front_n_spec _ _ _ R).
  split_and!; [done|rewrite length_take; lia|]. intros k Hk.
  apply list_elem_of_lookup_1 in Hk as [j Hj]. apply lookup_take_Some in Hj as [Hj _].
  rewrite list_lookup_fmap in Hj.
  apply fmap_Some in Hj as ([i k'] & Hj & ->). exists i.
  apply elem_of_list_to_map_1; [apply R|]. by eapply list_elem_of_lookup_2.
Qed.

(** The LRU component discharges the laws of the interface. *)
#[global, refine] Instance lru_policy_laws : EvictionPolicyLaws EvictionState := {
  pol_ok := ok;
  live := entries;
  pool_count st := length (pools st);
  create_pool_law := lru_create_pool;
  batch_touch_law := lru_batch_touch;
  remove_law := lru_remove;
  evict_empty_law := lru_evict_empty;
  evict_law := lru_evict;
  candidates_law := lru_candidates
}.
Proof.
  - intros st p _. unfold entries. rewrite fmap_is_Some. apply lookup_lt_is_Some.
  - intros st p k sem m O Hm _ Hs. by apply lru_track.
  - intros st p k sem _. unfold entries. rewrite fmap_None. intros H. simpl.
    unfold track. by rewrite H.
  - intros st p i k m O Hm Hi.
    destruct (touch_step _ _ _ _ _ O Hm Hi) as (l & l' & Hp & Et & O' & E').
    eexists. simpl. unfold touch. simpl. rewrite Hp, Et. simpl. done.
  - intros st p m O (l & Hp & _)%entries_Some. simpl. unfold clear_pool. rewrite Hp.
    by apply (step_law _ _ _ _ _ O Hp (Lru.rep_clear l)).
Defined.

(** * Where the component departs from its interface *)

(** The interface documents [track] of a key already tracked as
    idempotent, returning the existing handle. The LRU component creates a
    second node: the key is tracked twice, under two handles. *)
Theorem lru_track_duplicates st p k sem m i :
  ok st → entries st p = Some m → m !! i = Some k → (Z.of_nat (size m) < 2 ^ 32)%Z →
  ∃ i' st', track st p k sem = Ret (Ok (mkHandle p i'), st') ∧ i' ≠ i ∧
            ∃ m', entries st' p = Some m' ∧ m' !! i = Some k ∧ m' !! i' = Some k.
Proof.
  intros O Hm Hi Hs. destruct (lru_track st p k sem m O Hm Hs) as (i' & st' & E & _ & Hi' & Hm' & _).
  assert (i' ≠ i) as Hne by congruence.
  exists i', st'. split_and!; [done..|]. eexists. split; [done|].
  by rewrite lookup_insert_ne, lookup_insert_eq.
Qed.

Definition one_pool : EvictionState := mkState [Lru.mkLru [Lru.mkNode 7 None None true] (Some 0) (Some 0) [] 1].

Lemma one_pool_track : track (snd (create_pool (mkState []))) 0 7 default_semantics = Ret (Ok (mkHandle 0 0), one_pool).
Proof. reflexivity. Qed.

Lemma one_pool_ok : ok one_pool ∧ entries one_pool 0 = Some {[ 0 := 7%Z ]}.
Proof.
  destruct (lru_create_pool (mkState [])) as (st & E & O & _ & Hm & _); [constructor|done|].
  injection E as <-. destruct (lru_track _ 0 7 default_semantics _ O Hm) as (i & st' & E & O' & _ & Hm' & _).
  { done. }
  simpl in E. pose proof one_pool_track as E'. simpl in E'. rewrite E' in E. injection E as <- <-. done.
Qed.


(** Clearing a pool drops its arena, so a handle handed out before the
    clear is out of range: touching or removing through it panics while the
    pool's mutex is held, instead of returning [InvalidHandle]. *)
Theorem lru_stale_handle_panics st h :
  is_Some (pools st !! pool_id h) →
  touch (clear_pool st (pool_id h)) h = Panic ∧ remove (clear_pool st (pool_id h)) h = Panic.
Proof.
  intros [l Hl]. unfold clear_pool. rewrite Hl. unfold touch, remove. simpl.
  rewrite list_lookup_insert_eq by (by eapply lookup_lt_Some). done.
Qed.

Lemma lru_stale_handle_panics_witness : touch (clear_pool one_pool 0) (mkHandle 0 0) = Panic.
Proof. apply (lru_stale_handle_panics one_pool (mkHandle 0 0)). by eexists. Defined.

End EvictionLru.
