(* ===== verification/PolicyTable.v ===== *)
(** The pool table the eviction-policy components share
    ([components/eviction-policy-session-lists/src/lib.rs],
    [components/eviction-policy-optimized/src/lib.rs]). Both components keep a
    vector of independent pools and dispatch every call of [IEvictionPolicy] to
    one of them by its pool number; they differ in what a pool is. [PoolOps] is
    that difference as a class of operations, [PoolLaws] what the table needs of
    a pool, and the instance at the end lifts the laws of one pool to the laws
    of the interface. *)

From S2P Require Import Prelude EvictionPolicy.

Module PolicyTable.
Import Policy.

(** * One pool

    [pool_touch] and [pool_remove] answer whether the handle was valid; a
    component whose pools ignore stale handles always answers [true]. *)
Class PoolOps (P : Type) := {
  pool_new : P;
  pool_track : P → Z → BlockSemantics → outcome (nat * P);
  pool_touch : P → nat → outcome (bool * P);
  pool_remove : P → nat → outcome (bool * P);
  pool_evict : P → outcome (option Z * P);
  pool_candidates : P → nat → outcome (list Z);
  pool_size : P → nat;
  pool_clear : P → P
}.

(** [entries_of] is what a pool tracks, from handle index to key. *)
Class PoolLaws (P : Type) `{PoolOps P} := {
  pool_ok : P → Prop;
  entries_of : P → gmap nat Z;
  pool_new_ok : pool_ok pool_new ∧ entries_of pool_new = ∅;
  pool_track_ok l k sem :
    pool_ok l → (∀ i, entries_of l !! i ≠ Some k) →
    (Z.of_nat (size (entries_of l)) < 2 ^ 32)%Z →
    ∃ i l', pool_track l k sem = Ret (i, l') ∧ pool_ok l' ∧
            entries_of l !! i = None ∧ entries_of l' = <[i := k]> (entries_of l);
  pool_touch_ok l i k :
    pool_ok l → entries_of l !! i = Some k →
    ∃ l', pool_touch l i = Ret (true, l') ∧ pool_ok l' ∧ entries_of l' = entries_of l;
  pool_remove_ok l i k :
    pool_ok l → entries_of l !! i = Some k →
    ∃ l', pool_remove l i = Ret (true, l') ∧ pool_ok l' ∧
          entries_of l' = delete i (entries_of l);
  pool_evict_empty l : pool_ok l → entries_of l = ∅ → pool_evict l = Ret (None, l);
  pool_evict_ok l :
    pool_ok l → entries_of l ≠ ∅ →
    ∃ i k l', pool_evict l = Ret (Some k, l') ∧ pool_ok l' ∧
              entries_of l !! i = Some k ∧ entries_of l' = delete i (entries_of l);
  pool_candidates_ok l n :
    pool_ok l →
    ∃ ks, pool_candidates l n = Ret ks ∧ length ks ≤ n ∧
          ∀ k, k ∈ ks → ∃ i, entries_of l !! i = Some k;
  pool_clear_ok l : pool_ok l → pool_ok (pool_clear l) ∧ entries_of (pool_clear l) = ∅
}.

(** * The table *)

Section table.
Context {P : Type} `{PoolLaws P}.

Record EvictionState := mkState { pools : list P }.

Definition create_pool (st : EvictionState) : nat * EvictionState :=
  let id := as_u32 (length (pools st)) in
  (id, mkState (pools st ++ [pool_new])).

Definition track (st : EvictionState) (pool : nat) (k : Z) (sem : BlockSemantics) :
    outcome (res EvictionHandle * EvictionState) :=
  match pools st !! pool with
  | None => Ret (Err (InvalidPool pool), st)
  | Some l =>
      '(i, l) ← pool_track l k sem;
      Ret (Ok (mkHandle pool i), mkState (<[pool := l]> (pools st)))
  end.

Definition touch (st : EvictionState) (h : EvictionHandle) :
    outcome (res unit * EvictionState) :=
  match pools st !! pool_id h with
  | None => Ret (Err (InvalidPool (pool_id h)), st)
  | Some l =>
      '(valid, l) ← pool_touch l (index h);
      Ret (if (valid : bool) then Ok () else Err InvalidHandle,
           mkState (<[pool_id h := l]> (pools st)))
  end.

(** One iteration per handle: look the pool up (again, when it changed), touch. *)
Fixpoint batch_touch_loop (ps : list P) (hs : list EvictionHandle) :
    outcome (res unit * EvictionState) :=
  match hs with
  | [] => Ret (Ok (), mkState ps)
  | h :: hs =>
      match ps !! pool_id h with
      | None => Ret (Err (InvalidPool (pool_id h)), mkState ps)
      | Some l =>
          '(valid, l) ← pool_touch l (index h);
          if (valid : bool) then batch_touch_loop (<[pool_id h := l]> ps) hs
          else Ret (Err InvalidHandle, mkState (<[pool_id h := l]> ps))
      end
  end.

Definition batch_touch (st : EvictionState) (hs : list EvictionHandle) :
    outcome (res unit * EvictionState) :=
  batch_touch_loop (pools st) hs.

Definition remove (st : EvictionState) (h : EvictionHandle) :
    outcome (res unit * EvictionState) :=
  match pools st !! pool_id h with
  | None => Ret (Err (InvalidPool (pool_id h)), st)
  | Some l =>
      '(valid, l) ← pool_remove l (index h);
      Ret (if (valid : bool) then Ok () else Err InvalidHandle,
           mkState (<[pool_id h := l]> (pools st)))
  end.

Definition identify_next_to_evict (st : EvictionState) (pool : nat) :
    outcome (option Z * EvictionState) :=
  match pools st !! pool with
  | None => Ret (None, st)
  | Some l =>
      '(k, l) ← pool_evict l;
      Ret (k, mkState (<[pool := l]> (pools st)))
  end.

Definition get_eviction_candidates (st : EvictionState) (pool n : nat) : outcome (list Z) :=
  match pools st !! pool with
  | Some l => pool_candidates l n
  | None => Ret []
  end.

Definition len (st : EvictionState) (pool : nat) : nat :=
  match pools st !! pool with Some l => pool_size l | None => 0 end.

Definition clear_pool (st : EvictionState) (pool : nat) : EvictionState :=
  match pools st !! pool with
  | Some l => mkState (<[pool := pool_clear l]> (pools st))
  | None => st
  end.

#[global] Instance table_policy : IEvictionPolicy EvictionState := {
  Policy.create_pool := create_pool;
  Policy.track := track;
  Policy.touch := touch;
  Policy.batch_touch := batch_touch;
  Policy.remove := remove;
  Policy.identify_next_to_evict := identify_next_to_evict;
  Policy.get_eviction_candidates := get_eviction_candidates;
  Policy.pool_len := len;
  Policy.clear_pool := clear_pool
}.

(** * The laws of the table *)

Definition table_ok (st : EvictionState) : Prop := Forall pool_ok (pools st).
Definition entries (st : EvictionState) (p : nat) : option (gmap nat Z) :=
  entries_of <$> pools st !! p.

Lemma table_entries_Some st p m :
  entries st p = Some m ↔ ∃ l, pools st !! p = Some l ∧ m = entries_of l.
Proof. unfold entries. rewrite fmap_Some. done. Qed.

Lemma table_pool_ok st p l : table_ok st → pools st !! p = Some l → pool_ok l.
Proof. intros O. by apply Forall_lookup_1. Qed.

(** A step of one pool is a step of the table that leaves the other pools alone. *)
Lemma pool_step st p l l' :
  table_ok st → pools st !! p = Some l → pool_ok l' →
  table_ok (mkState (<[p := l']> (pools st))) ∧
  entries (mkState (<[p := l']> (pools st))) p = Some (entries_of l') ∧
  ∀ q, q ≠ p → entries (mkState (<[p := l']> (pools st))) q = entries st q.
Proof.
  intros O Hp O'. split_and!.
  - by apply Forall_insert.
  - unfold entries. simpl. by rewrite list_lookup_insert_eq by (by eapply lookup_lt_Some).
  - intros q Hq. unfold entries. simpl. by rewrite list_lookup_insert_ne.
Qed.

Lemma pool_step_same st p l l' :
  table_ok st → pools st !! p = Some l → pool_ok l' → entries_of l' = entries_of l →
  table_ok (mkState (<[p := l']> (pools st))) ∧
  ∀ q, entries (mkState (<[p := l']> (pools st))) q = entries st q.
Proof.
  intros O Hp O' E. destruct (pool_step _ _ _ _ O Hp O') as (? & Ep & Eq).
  split; [done|]. intros q. destruct (decide (q = p)) as [->|]; [|by apply Eq].
  rewrite Ep, E. unfold entries. by rewrite Hp.
Qed.

Lemma table_create_pool st :
  table_ok st → (Z.of_nat (length (pools st)) < 2 ^ 32)%Z →
  ∃ st', create_pool st = (length (pools st), st') ∧ table_ok st' ∧
         length (pools st') = length (pools st) + 1 ∧
         entries st' (length (pools st)) = Some ∅ ∧
         ∀ q, q ≠ length (pools st) → entries st' q = entries st q.
Proof.
  intros O Hc. destruct pool_new_ok as [On En]. unfold create_pool.
  rewrite as_u32_small by done. eexists; split; [done|]. split_and!.
  - apply Forall_app; split; [done|]. by apply Forall_singleton.
  - simpl. by rewrite length_app.
  - unfold entries. simpl. rewrite list_lookup_middle by done. simpl. by rewrite En.
  - intros q Hq. unfold entries. simpl. f_equal.
    destruct (decide (q < length (pools st))); [by apply lookup_app_l|].
    rewrite (lookup_ge_None_2 (pools st)) by lia. apply lookup_ge_None_2.
    rewrite length_app. simpl. lia.
Qed.

Lemma table_batch_touch hs st :
  table_ok st →
  Forall (λ h, ∃ m, entries st (pool_id h) = Some m ∧ is_Some (m !! index h)) hs →
  ∃ st', batch_touch st hs = Ret (Ok (), st') ∧ table_ok st' ∧
         ∀ q, entries st' q = entries st q.
Proof.
  unfold batch_touch. revert st. induction hs as [|h hs IH]; intros st O Hl; simpl.
  { exists st. by destruct st. }
  apply Forall_cons in Hl as [(m & (l & Hp & ->)%table_entries_Some & k & Hi) Hl].
  destruct (pool_touch_ok l (index h) k) as (l' & E & O' & E'); [by eapply table_pool_ok|done|].
  rewrite Hp, E. simpl.
  destruct (pool_step_same _ _ _ _ O Hp O' E') as [O1 E1].
  destruct (IH _ O1) as (st' & Er & O2 & E2).
  { eapply Forall_impl; [done|]. intros h' (m & Hm & Hs). exists m. by rewrite E1. }
  exists st'. split_and!; [done..|]. intros q. by rewrite E2, E1.
Qed.

#[global, refine] Instance table_policy_laws : EvictionPolicyLaws EvictionState := {
  pol_ok := table_ok;
  live := entries;
  pool_count st := length (pools st);
  create_pool_law := table_create_pool;
  batch_touch_law st hs := table_batch_touch hs st
}.
Proof.
  - intros st p _. unfold entries. rewrite fmap_is_Some. apply lookup_lt_is_Some.
  - intros st p k sem m O (l & Hp & ->)%table_entries_Some Hk Hs.
    destruct (pool_track_ok l k sem) as (i & l' & E & O' & Hi & E'); [by eapply table_pool_ok|done..|].
    destruct (pool_step _ _ _ _ O Hp O') as (? & Ep & Eq). exists i. eexists.
    simpl. unfold track. rewrite Hp, E. simpl. rewrite E' in Ep. done.
  - intros st p k sem _ E. unfold entries in E. apply fmap_None in E.
    simpl. unfold track. by rewrite E.
  - intros st p i k m O (l & Hp & ->)%table_entries_Some Hi.
    destruct (pool_touch_ok l i k) as (l' & E & O' & E'); [by eapply table_pool_ok|done|].
    destruct (pool_step_same _ _ _ _ O Hp O' E') as [O1 E1]. eexists.
    simpl. unfold touch. simpl. rewrite Hp, E. simpl. done.
  - intros st p i k m O (l & Hp & ->)%table_entries_Some Hi.
    destruct (pool_remove_ok l i k) as (l' & E & O' & E'); [by eapply table_pool_ok|done|].
    destruct (pool_step _ _ _ _ O Hp O') as (? & Ep & Eq). eexists.
    simpl. unfold remove. simpl. rewrite Hp, E. simpl. rewrite E' in Ep. done.
  - intros st p O (l & Hp & Hm)%table_entries_Some.
    simpl. unfold identify_next_to_evict. rewrite Hp.
    rewrite pool_evict_empty by (done || by eapply table_pool_ok).
    simpl. rewrite list_insert_id by done. by destruct st.
  - intros st p m O (l & Hp & ->)%table_entries_Some Hne.
    destruct (pool_evict_ok l) as (i & k & l' & E & O' & Hi & E'); [by eapply table_pool_ok|done|].
    destruct (pool_step _ _ _ _ O Hp O') as (? & Ep & Eq). exists i, k. eexists.
    simpl. unfold identify_next_to_evict. rewrite Hp, E. simpl. rewrite E' in Ep. done.
  - intros st p m n O (l & Hp & ->)%table_entries_Some.
    simpl. unfold get_eviction_candidates. rewrite Hp.
    apply pool_candidates_ok. by eapply table_pool_ok.
  - intros st p m O (l & Hp & ->)%table_entries_Some.
    destruct (pool_clear_ok l) as [O' E']; [by eapply table_pool_ok|].
    destruct (pool_step _ _ _ _ O Hp O') as (? & Ep & Eq).
    simpl. unfold clear_pool. rewrite Hp. rewrite E' in Ep. done.
Defined.

End table.

Arguments EvictionState P : clear implicits.

End PolicyTable.
