(* ===== verification/EvictionOptimized.v ===== *)
(** The optimized eviction policy ([components/eviction-policy-optimized/src]):
    a count-min sketch of how often each key was tracked, and LRU lists in which
    a key that is not tracked more often than the current victim enters at the
    victim's end. The arena of [lru_list.rs] is the one of the LRU policy with
    an insertion at the front and handles checked against the arena first. *)

From S2P Require Import Prelude LruList EvictionPolicy PolicyTable.
Local Open Scope Z_scope.

(** * The count-min sketch *)

Module CountMin.

Definition CMS_ROWS : nat := 4.
Definition CMS_COLS : nat := 1024.
Definition CMS_PRIMES : list Z :=
  [0x9E3779B97F4A7C15; 0x517CC1B727220A95; 0x6C62272E07BB0143; 0xD45D0D6AB7E0F981].

(** [counters: [[u8; CMS_COLS]; CMS_ROWS]]. *)
Record CountMinSketch := mkSketch { counters : list (list Z) }.

Definition new : CountMinSketch := mkSketch (replicate CMS_ROWS (replicate CMS_COLS 0)).

(** [(key.wrapping_mul(prime) >> 54) as usize]. *)
Definition column (key prime : Z) : nat := Z.to_nat (Z.shiftr ((key * prime) mod 2 ^ 64) 54).

(** [u8::saturating_add(1)]. *)
Definition saturating_succ (c : Z) : Z := Z.min 255 (c + 1).

Fixpoint increment_loop (row : nat) (primes : list Z) (key : Z) (cs : list (list Z)) :
    outcome (list (list Z)) :=
  match primes with
  | [] => Ret cs
  | prime :: primes =>
      r ← vec_get cs row;
      c ← vec_get r (column key prime);
      r ← vec_set r (column key prime) (saturating_succ c);
      cs ← vec_set cs row r;
      increment_loop (S row) primes key cs
  end.

Definition increment (self : CountMinSketch) (key : Z) : outcome CountMinSketch :=
  cs ← increment_loop 0 CMS_PRIMES key (counters self); Ret (mkSketch cs).

Fixpoint estimate_loop (row : nat) (primes : list Z) (key : Z) (cs : list (list Z)) (m : Z) :
    outcome Z :=
  match primes with
  | [] => Ret m
  | prime :: primes =>
      r ← vec_get cs row;
      c ← vec_get r (column key prime);
      estimate_loop (S row) primes key cs (Z.min m c)
  end.

Definition estimate (self : CountMinSketch) (key : Z) : outcome Z :=
  estimate_loop 0 CMS_PRIMES key (counters self) 255.

Definition halve (self : CountMinSketch) : CountMinSketch :=
  mkSketch (List.map (List.map (λ c, Z.shiftr c 1)) (counters self)).

(** ** What the counters hold

    Counting with the same saturation and the same decay, but one class of keys
    at a time: [tally p] counts the keys of [p]. *)

Inductive op := Increment (key : Z) | Halve.

Definition exec (sk : CountMinSketch) (o : op) : outcome CountMinSketch :=
  match o with Increment key => increment sk key | Halve => Ret (halve sk) end.

Fixpoint exec_all (sk : CountMinSketch) (os : list op) : outcome CountMinSketch :=
  match os with [] => Ret sk | o :: os => sk ← exec sk o; exec_all sk os end.

Definition tally_step (p : Z → bool) (n : Z) (o : op) : Z :=
  match o with
  | Increment key => if p key then saturating_succ n else n
  | Halve => Z.shiftr n 1
  end.

Definition tally (p : Z → bool) (os : list op) : Z := foldl (tally_step p) 0 os.

(** How often [key] itself was seen, and the keys that share its counter in
    the row of [prime]. *)
Definition seen (key : Z) : Z → bool := λ k, Z.eqb k key.
Definition shares (key prime : Z) : Z → bool := λ k, Nat.eqb (column k prime) (column key prime).

Definition row_is (os : list op) (prime : Z) (row : list Z) : Prop :=
  length row = CMS_COLS ∧
  ∀ col, (col < CMS_COLS)%nat → row !! col = Some (tally (λ k, Nat.eqb (column k prime) col) os).

Definition holds (os : list op) (sk : CountMinSketch) : Prop :=
  Forall2 (row_is os) CMS_PRIMES (counters sk).

Lemma column_lt key prime : (column key prime < CMS_COLS)%nat.
Proof.
  unfold column, CMS_COLS. rewrite Z.shiftr_div_pow2 by lia.
  pose proof (Z.mod_pos_bound (key * prime) (2 ^ 64)).
  pose proof (Z.div_lt_upper_bound ((key * prime) mod 2 ^ 64) (2 ^ 54) 1024).
  pose proof (Z.div_pos ((key * prime) mod 2 ^ 64) (2 ^ 54)). lia.
Qed.

#[local] Opaque column CMS_COLS.

Lemma tally_snoc p os o : tally p (os ++ [o]) = tally_step p (tally p os) o.
Proof. unfold tally. by rewrite foldl_snoc. Qed.

Lemma shiftr_1_mono a b : a ≤ b → Z.shiftr a 1 ≤ Z.shiftr b 1.
Proof. intros H. rewrite !Z.shiftr_div_pow2 by lia. by apply Z.div_le_mono. Qed.

Lemma shiftr_1_bounds a : 0 ≤ a ≤ 255 → 0 ≤ Z.shiftr a 1 ≤ 255.
Proof.
  intros H. rewrite Z.shiftr_div_pow2 by lia. split; [apply Z.div_pos; lia|].
  apply Z.div_le_upper_bound; lia.
Qed.

Lemma tally_bounds p os : 0 ≤ tally p os ≤ 255.
Proof.
  induction os as [|o os IH] using rev_ind; [unfold tally; simpl; lia|].
  rewrite tally_snoc. destruct o as [k|]; simpl; [|by apply shiftr_1_bounds].
  unfold saturating_succ. destruct (p k); lia.
Qed.

(** A larger class has a larger tally. *)
Lemma tally_mono p q os : (∀ k, p k = true → q k = true) → tally p os ≤ tally q os.
Proof.
  intros Hpq. induction os as [|o os IH] using rev_ind; [done|].
  rewrite !tally_snoc. pose proof (tally_bounds q os).
  destruct o as [k|]; simpl; [|by apply shiftr_1_mono].
  unfold saturating_succ. pose proof (Hpq k). destruct (p k), (q k); try lia; naive_solver.
Qed.

Lemma tally_ext p q os :
  (∀ k, Increment k ∈ os → p k = q k) → tally p os = tally q os.
Proof.
  induction os as [|o os IH] using rev_ind; intros Hpq; [done|].
  rewrite !tally_snoc, IH by (intros; apply Hpq; set_solver).
  destruct o as [k|]; simpl; [|done]. by rewrite Hpq by set_solver.
Qed.

(** ** The operations on the rows *)

Lemma increment_loop_spec key primes rows before :
  length primes = length rows → Forall (λ r, length r = CMS_COLS) rows →
  increment_loop (length before) primes key (before ++ rows) =
  Ret (before ++ zip_with (λ prime r, alter saturating_succ (column key prime) r) primes rows).
Proof.
  revert rows before.
  induction primes as [|prime primes IH]; intros [|r rows] before HL HF; [done..|].
  injection HL as HL. simpl.
  apply Forall_cons in HF as [Hr HF]. pose proof (column_lt key prime) as Hc.
  unfold vec_get. rewrite list_lookup_middle by done. simpl.
  destruct (lookup_lt_is_Some_2 r (column key prime)) as [c Ec]; [by rewrite Hr|].
  rewrite Ec. simpl. rewrite vec_set_Ret by (by rewrite Hr). simpl.
  rewrite vec_set_Ret by (rewrite length_app; simpl; lia). simpl.
  rewrite insert_app_r_alt, Nat.sub_diag by done. simpl.
  replace (<[column key prime:=saturating_succ c]> r)
    with (alter saturating_succ (column key prime) r)
    by (rewrite list_insert_alter; apply list_alter_ext; naive_solver).
  specialize (IH rows (before ++ [alter saturating_succ (column key prime) r])).
  rewrite length_app, Nat.add_1_r, <- !app_assoc in IH. simpl in IH.
  rewrite IH; [done|lia|done].
Qed.

Lemma estimate_loop_spec key os primes rows before m :
  Forall2 (row_is os) primes rows →
  estimate_loop (length before) primes key (before ++ rows) m =
  Ret (foldl (λ m prime, Z.min m (tally (shares key prime) os)) m primes).
Proof.
  intros HF. revert before m. induction HF as [|prime r primes rows [Hr Hc] HF IH]; [done|].
  intros before m. simpl. unfold vec_get. rewrite list_lookup_middle by done. simpl.
  rewrite Hc by apply column_lt. simpl.
  specialize (IH (before ++ [r])). rewrite length_app, Nat.add_1_r, <- app_assoc in IH.
  apply IH.
Qed.

Lemma holds_new : holds [] new.
Proof.
  unfold holds, new, CMS_ROWS, CMS_PRIMES. simpl.
  repeat apply Forall2_cons_2; [..|done]; (split; [apply length_replicate|]);
    intros col Hcol; by rewrite lookup_replicate_2.
Qed.

Lemma rows_increment os key primes rows :
  Forall2 (row_is os) primes rows →
  Forall2 (row_is (os ++ [Increment key])) primes
    (zip_with (λ prime r, alter saturating_succ (column key prime) r) primes rows).
Proof.
  induction 1 as [|prime r primes rows [Hr Hc] HF IH]; [done|].
  apply Forall2_cons_2; [|done]. split; [by rewrite length_alter|].
  intros col Hcol. rewrite list_lookup_alter, tally_snoc. simpl.
  destruct (decide (column key prime = col)) as [<-|Hne].
  - rewrite Nat.eqb_refl. by rewrite Hc by apply column_lt.
  - rewrite (proj2 (Nat.eqb_neq _ _) Hne). by apply Hc.
Qed.

Lemma holds_increment os sk key :
  holds os sk → ∃ sk', increment sk key = Ret sk' ∧ holds (os ++ [Increment key]) sk'.
Proof.
  intros HF. unfold increment.
  pose proof (increment_loop_spec key CMS_PRIMES (counters sk) [] (Forall2_length _ _ _ HF)) as E.
  simpl length in E. rewrite !app_nil_l in E. rewrite E.
  - eexists; split; [done|]. by apply rows_increment.
  - eapply Forall2_Forall_r; [done|]. apply Forall_forall. by intros prime _ r [? _].
Qed.

Lemma holds_halve os sk : holds os sk → holds (os ++ [Halve]) (halve sk).
Proof.
  unfold holds, halve. simpl. induction 1 as [|prime r primes rows [Hr Hc] HF IH]; [done|].
  apply Forall2_cons_2; [|done]. split; [by rewrite length_map|].
  intros col Hcol. rewrite tally_snoc. simpl.
  change (List.map (λ c, Z.shiftr c 1) r) with ((λ c, Z.shiftr c 1) <$> r).
  by rewrite list_lookup_fmap, Hc.
Qed.

Lemma holds_exec_all os os' sk :
  holds os sk → ∃ sk', exec_all sk os' = Ret sk' ∧ holds (os ++ os') sk'.
Proof.
  revert os sk. induction os' as [|o os' IH]; intros os sk Hh; simpl.
  { exists sk. by rewrite app_nil_r. }
  assert (∃ sk', exec sk o = Ret sk' ∧ holds (os ++ [o]) sk') as (sk1 & -> & H1).
  { destruct o; [by apply holds_increment|]. eexists; split; [done|]. by apply holds_halve. }
  destruct (IH _ _ H1) as (sk' & E & H'). exists sk'. by rewrite <- app_assoc in H'.
Qed.

Lemma holds_estimate os sk key :
  holds os sk →
  estimate sk key = Ret (foldl (λ m prime, Z.min m (tally (shares key prime) os)) 255 CMS_PRIMES).
Proof. apply (estimate_loop_spec key os CMS_PRIMES (counters sk) []). Qed.

Lemma foldl_min_spec (g : Z → Z) ps m :
  foldl (λ m p, Z.min m (g p)) m ps ≤ m ∧
  (∀ p, p ∈ ps → foldl (λ m p, Z.min m (g p)) m ps ≤ g p) ∧
  ∀ b, b ≤ m → (∀ p, p ∈ ps → b ≤ g p) → b ≤ foldl (λ m p, Z.min m (g p)) m ps.
Proof.
  revert m. induction ps as [|p ps IH]; intros m; simpl; [split_and!; [lia|set_solver|lia]|].
  destruct (IH (Z.min m (g p))) as (H1 & H2 & H3). split_and!; [lia| |].
  - intros q [->|Hq]%elem_of_cons; [lia|by apply H2].
  - intros b Hb Hg. apply H3; [|intros; apply Hg; set_solver].
    pose proof (Hg p). set_solver by lia.
Qed.

(** The sketch never forgets a key faster than its own decay: after any
    sequence of increments and halvings every operation has succeeded and the
    estimate of a key lies between the saturating, equally halved count of that
    key alone and 255; it is that count exactly as soon as one of the four rows
    gives the key a counter no other incremented key shares. *)
Theorem sketch_estimate os key :
  ∃ sk e, exec_all new os = Ret sk ∧ estimate sk key = Ret e ∧
    tally (seen key) os ≤ e ≤ 255 ∧
    ((∃ prime, prime ∈ CMS_PRIMES ∧
        ∀ k, Increment k ∈ os → column k prime = column key prime → k = key) →
     e = tally (seen key) os).
Proof.
  destruct (holds_exec_all [] os new holds_new) as (sk & E & Hh).
  exists sk. eexists. split; [done|]. split; [by apply holds_estimate|]. simpl app.
  destruct (foldl_min_spec (λ prime, tally (shares key prime) os) CMS_PRIMES 255) as (H1 & H2 & H3).
  assert (∀ p, p ∈ CMS_PRIMES → tally (seen key) os ≤ tally (shares key p) os) as Hle.
  { intros p _. apply tally_mono. unfold seen, shares. intros k ->%Z.eqb_eq. apply Nat.eqb_refl. }
  pose proof (tally_bounds (seen key) os) as Hb. split; [split; [apply H3; [lia|done]|done]|].
  intros (prime & Hp & Hx). apply Z.le_antisymm; [|apply H3; [lia|done]].
  rewrite <- (tally_ext (shares key prime) (seen key) os); [by apply (H2 prime)|].
  intros k Hk. unfold shares, seen. apply eq_true_iff_eq. rewrite Nat.eqb_eq, Z.eqb_eq.
  split; [by apply Hx|by intros ->].
Qed.

End CountMin.

(** * The list

    Where [lru_list.rs] of this component is, line for line, the list of the LRU
    policy, its model is used; the operations that differ are the insertion at
    the front, the look at the front key and the range check before a handle is
    used. *)

Module OptLru.
Import Lru.

Definition push_front (self : LruList) (k : Z) : outcome (nat * LruList) :=
  '(idx, ns, fr) ←
    match vec_pop (free self) with
    | Some (free_idx, fr) =>
        ns ← vec_set (nodes self) free_idx (mkNode k None (head self) true);
        Ret (free_idx, ns, fr)
    | None =>
        let idx := as_u32 (length (nodes self)) in
        Ret (idx, nodes self ++ [mkNode k None (head self) true], free self)
    end;
  ns ← match head self with
       | Some old_head => node_set_prev ns old_head (Some idx)
       | None => Ret ns
       end;
  let tl := match tail self with None => Some idx | Some t => Some t end in
  Ret (idx, mkLru ns (Some idx) tl fr (S (len self))).

Definition peek_front_key (self : LruList) : outcome (option Z) :=
  match head self with
  | Some idx => nd ← vec_get (nodes self) idx; Ret (Some (key nd))
  | None => Ret None
  end.

Definition move_to_back (self : LruList) (idx : nat) : outcome LruList :=
  if decide (length (nodes self) ≤ idx)%nat then Ret self else Lru.move_to_back self idx.

Definition remove (self : LruList) (idx : nat) : outcome LruList :=
  if decide (length (nodes self) ≤ idx)%nat then Ret self else Lru.remove self idx.

(** [pop_front] calls this component's [remove]. *)
Definition pop_front (self : LruList) : outcome (option Z * LruList) :=
  match head self with
  | None => Ret (None, self)
  | Some head_idx =>
      nd ← vec_get (nodes self) head_idx;
      self ← remove self head_idx;
      Ret (Some (key nd), self)
  end.

Lemma last_of_cons i k s : last_of None ((i, k) :: s) =
  match last_of None s with Some t => Some t | None => Some i end.
Proof. unfold last_of. rewrite last_cons. by destruct (last s). Qed.

Lemma push_front_spec l s k :
  rep l s → Z.of_nat (length s) < 2 ^ 32 →
  ∃ i l', push_front l k = Ret (i, l') ∧ i ∉ (s.*1) ∧ rep l' ((i, k) :: s).
Proof.
  intros R Hs. set (nd := mkNode k None (first_of s None) true).
  destruct (slot_spec l s nd R Hs) as (i & ns & fr & E & F).
  destruct (set_prev_first ns s None (Some i) (slot_dll _ _ _ _ _ _ R F) (rep_nodup _ _ R))
    as (ns' & E2 & D2 & U).
  exists i, (mkLru ns' (first_of ((i, k) :: s) None) (last_of None ((i, k) :: s)) fr (S (len l))).
  split_and!; [|apply F|].
  - unfold push_front. rewrite (rep_head _ _ R). fold nd. rewrite E. simpl.
    rewrite E2. simpl. rewrite (rep_tail _ _ R), last_of_cons. by destruct (last_of None s).
  - eapply (rep_push l s _ nd i k ns); [done..| |done]. split; [|done].
    rewrite (upd_out _ _ _ U) by apply F. apply F.
Qed.

Lemma peek_front_key_spec l s : rep l s → peek_front_key l = Ret (snd <$> hd_error s).
Proof.
  intros R. unfold peek_front_key. rewrite (rep_head _ _ R).
  destruct s as [|[i k] s]; [done|]. simpl. destruct (rep_dll _ _ R) as [Hi _].
  unfold vec_get. by rewrite Hi.
Qed.

(** Whatever the handle, live, stale or out of the arena. *)
Lemma opt_move_to_back_spec l s i :
  rep l s → ∃ l', move_to_back l i = Ret l' ∧ rep l' (seq_touch s i).
Proof.
  intros R. unfold move_to_back. case_decide as Hi.
  - exists l. split; [done|]. unfold seq_touch. rewrite seq_key_notin; [done|].
    intros Hin. destruct (dll_lookup _ _ _ _ _ (rep_dll _ _ R) Hin) as (nd & Hl & _).
    apply lookup_lt_Some in Hl. lia.
  - destruct (move_to_back_spec l s i R) as (l' & E & R' & _); [lia|]. eauto.
Qed.

Lemma opt_remove_spec l s i :
  rep l s → ∃ l', remove l i = Ret l' ∧ rep l' (seq_remove s i).
Proof.
  intros R. unfold remove. case_decide as Hi.
  - exists l. split; [done|]. rewrite seq_remove_notin; [done|].
    intros Hin. destruct (dll_lookup _ _ _ _ _ (rep_dll _ _ R) Hin) as (nd & Hl & _).
    apply lookup_lt_Some in Hl. lia.
  - destruct (remove_spec l s i R) as (l' & E & R' & _); [lia|]. eauto.
Qed.

Lemma pop_front_eq l s : rep l s → pop_front l = Lru.pop_front l.
Proof.
  intros R. unfold pop_front, Lru.pop_front, remove. rewrite (rep_head _ _ R).
  destruct s as [|[i k] s]; [done|]. simpl. destruct (rep_dll _ _ R) as [Hi _].
  apply lookup_lt_Some in Hi. rewrite decide_False by lia. done.
Qed.

End OptLru.

(** * The policy *)

Module EvictionOptimized.
Import Policy PolicyTable CountMin.

Record Pool := mkPool {
  lru : Lru.LruList;
  sketch : CountMinSketch;
  access_count : Z;
  max_len : nat
}.

Definition new_pool : Pool := mkPool Lru.new CountMin.new 0 0.

(** The body of [track] under the pool's lock. [access_count] is a [u64] that
    grows by one per call; it is not bounded here. *)
Definition count_access (self : Pool) (k : Z) : outcome Pool :=
  sk ← increment (sketch self) k;
  let ml := Nat.max (max_len self) (Lru.len (lru self)) in
  let ac := access_count self + 1 in
  let sk := if Nat.ltb 0 ml && Z.eqb (ac mod (Z.of_nat ml * 10)) 0 then halve sk else sk in
  Ret (mkPool (lru self) sk ac ml).

Definition place_key (self : Pool) (k : Z) : outcome (nat * Pool) :=
  hk ← OptLru.peek_front_key (lru self);
  '(i, l) ← match hk with
            | Some head_key =>
                e ← estimate (sketch self) k;
                eh ← estimate (sketch self) head_key;
                if e <=? eh then OptLru.push_front (lru self) k
                else Lru.push_back (lru self) k
            | None => Lru.push_back (lru self) k
            end;
  Ret (i, mkPool l (sketch self) (access_count self) (max_len self)).

Definition track (self : Pool) (k : Z) (_ : BlockSemantics) : outcome (nat * Pool) :=
  self ← count_access self k; place_key self k.

Definition with_lru (self : Pool) (l : Lru.LruList) : Pool :=
  mkPool l (sketch self) (access_count self) (max_len self).

Definition touch (self : Pool) (i : nat) : outcome (bool * Pool) :=
  l ← OptLru.move_to_back (lru self) i; Ret (true, with_lru self l).

Definition remove (self : Pool) (i : nat) : outcome (bool * Pool) :=
  l ← OptLru.remove (lru self) i; Ret (true, with_lru self l).

Definition evict (self : Pool) : outcome (option Z * Pool) :=
  '(k, l) ← OptLru.pop_front (lru self); Ret (k, with_lru self l).

Definition candidates (self : Pool) (n : nat) : outcome (list Z) :=
  Lru.peek_front_n (lru self) n.

Definition pool_len (self : Pool) : nat := Lru.len (lru self).

Definition clear (self : Pool) : Pool := with_lru self (Lru.clear (lru self)).

#[global] Instance optimized_pool : PoolOps Pool := {
  pool_new := new_pool;
  pool_track := track;
  pool_touch := touch;
  pool_remove := remove;
  pool_evict := evict;
  pool_candidates := candidates;
  pool_size := pool_len;
  pool_clear := clear
}.

(** A pool holds a list of entries and a sketch of some history of accesses. *)
Record pool_rep (p : Pool) (s : Lru.seqn) (os : list op) : Prop := {
  pool_list : Lru.rep (lru p) s;
  pool_sketch : holds os (sketch p)
}.

Definition opt_ok (p : Pool) : Prop := ∃ s os, pool_rep p s os.

Definition queue (p : Pool) : Lru.seqn := Lru.contents (lru p).

Lemma queue_rep p s os : pool_rep p s os → queue p = s.
Proof. intros [R _]. by apply Lru.rep_contents. Qed.

Lemma rep_with_lru p s os l s' :
  pool_rep p s os → Lru.rep l s' → pool_rep (with_lru p l) s' os.
Proof. by intros [_ Hh] R'. Qed.

Lemma count_access_spec p s os k :
  pool_rep p s os →
  ∃ p' os', count_access p k = Ret p' ∧ pool_rep p' s os' ∧
    lru p' = lru p ∧ (os' = os ++ [Increment k] ∨ os' = os ++ [Increment k; Halve]).
Proof.
  intros [R Hh]. unfold count_access.
  destruct (holds_increment _ _ k Hh) as (sk & -> & Hh'). simpl.
  destruct (Nat.ltb _ _ && _).
  - exists (mkPool (lru p) (halve sk) (access_count p + 1) (max_len p `max` Lru.len (lru p))),
      (os ++ [Increment k; Halve]).
    split_and!; [done| |done|by right]. split; [done|].
    change [Increment k; Halve] with ([Increment k] ++ [Halve]). rewrite app_assoc.
    by apply holds_halve.
  - exists (mkPool (lru p) sk (access_count p + 1) (max_len p `max` Lru.len (lru p))),
      (os ++ [Increment k]). split_and!; [done| |done|by left]. done.
Qed.

(** The estimate a sketch of history [os] gives. *)
Definition estimated (os : list op) (k : Z) : Z :=
  foldl (λ m prime, Z.min m (tally (shares k prime) os)) 255 CMS_PRIMES.

Lemma place_key_spec p s os k :
  pool_rep p s os → Z.of_nat (length s) < 2 ^ 32 →
  ∃ i p', place_key p k = Ret (i, p') ∧ i ∉ s.*1 ∧ sketch p' = sketch p ∧
    pool_rep p'
      (match s with
       | [] => [(i, k)]
       | (_, k0) :: _ =>
           if estimated os k <=? estimated os k0 then (i, k) :: s else s ++ [(i, k)]
       end) os.
Proof.
  intros [R Hh] Hs. unfold place_key. rewrite (OptLru.peek_front_key_spec _ _ R).
  simpl mbind. destruct s as [|[i0 k0] s']; simpl.
  - destruct (Lru.push_back_spec _ _ k R Hs) as (i & l' & -> & Hi & R' & _). simpl.
    exists i. eexists. split_and!; [done..|]. done.
  - rewrite !(holds_estimate os) by done. simpl. fold (estimated os k) (estimated os k0).
    destruct (_ <=? _).
    + destruct (OptLru.push_front_spec _ _ k R Hs) as (i & l' & -> & Hi & R'). simpl.
      exists i. eexists. split_and!; [done..|]. done.
    + destruct (Lru.push_back_spec _ _ k R Hs) as (i & l' & -> & Hi & R' & _). simpl.
      exists i. eexists. split_and!; [done..|]. done.
Qed.

Lemma track_spec p s os k sem :
  pool_rep p s os → Z.of_nat (length s) < 2 ^ 32 →
  ∃ i p' os', track p k sem = Ret (i, p') ∧ i ∉ s.*1 ∧
    pool_rep p'
      (match s with
       | [] => [(i, k)]
       | (_, k0) :: _ =>
           if estimated os' k <=? estimated os' k0 then (i, k) :: s else s ++ [(i, k)]
       end) os'.
Proof.
  intros R Hs. unfold track.
  destruct (count_access_spec _ _ _ k R) as (p1 & os' & -> & R1 & _ & _). simpl.
  destruct (place_key_spec _ _ _ k R1 Hs) as (i & p' & -> & Hi & _ & R'). eauto 10.
Qed.

Lemma evict_spec p s os :
  pool_rep p s os →
  match s with
  | [] => evict p = Ret (None, p)
  | (i, k) :: s' => ∃ p', evict p = Ret (Some k, p') ∧ pool_rep p' s' os
  end.
Proof.
  intros R. pose proof (pool_list _ _ _ R) as Rl. unfold evict.
  rewrite (OptLru.pop_front_eq _ _ Rl). destruct s as [|[i k] s'].
  - rewrite (Lru.pop_front_nil _ Rl). simpl. by destruct p.
  - destruct (Lru.pop_front_cons _ _ _ _ Rl) as (l' & -> & R' & _). simpl.
    eexists. split; [done|]. by eapply rep_with_lru.
Qed.

(** Touching or removing with any handle, live or not, is the operation on the
    queue: a handle that is not in it changes nothing. *)
Lemma handle_spec p s os i :
  pool_rep p s os →
  (∃ p', touch p i = Ret (true, p') ∧ pool_rep p' (Lru.seq_touch s i) os) ∧
  (∃ p', remove p i = Ret (true, p') ∧ pool_rep p' (Lru.seq_remove s i) os).
Proof.
  intros R. pose proof (pool_list _ _ _ R) as Rl. split.
  - unfold touch. destruct (OptLru.opt_move_to_back_spec _ _ i Rl) as (l' & -> & R'). simpl.
    eexists. split; [done|]. by eapply rep_with_lru.
  - unfold remove. destruct (OptLru.opt_remove_spec _ _ i Rl) as (l' & -> & R'). simpl.
    eexists. split; [done|]. by eapply rep_with_lru.
Qed.

(** ** The laws of a pool *)

Definition pool_map (p : Pool) : gmap nat Z := list_to_map (queue p).

Lemma pool_map_rep p s os : pool_rep p s os → pool_map p = list_to_map s.
Proof. intros R. unfold pool_map. by rewrite (queue_rep _ _ _ R). Qed.

Lemma pool_nodup p s os : pool_rep p s os → NoDup (s.*1).
Proof. intros R. apply (pool_list _ _ _ R). Qed.

Lemma opt_track p k sem :
  opt_ok p → Z.of_nat (size (pool_map p)) < 2 ^ 32 →
  ∃ i p', track p k sem = Ret (i, p') ∧ opt_ok p' ∧
          pool_map p !! i = None ∧ pool_map p' = <[i := k]> (pool_map p).
Proof.
  intros (s & os & R) Hs. rewrite (pool_map_rep _ _ _ R) in *.
  assert (size (list_to_map s : gmap nat Z) = length s) as Hsz.
  { rewrite <- (length_map_to_list (list_to_map s)).
    by rewrite map_to_list_to_map by (by eapply pool_nodup). }
  rewrite Hsz in Hs.
  destruct (track_spec _ _ _ k sem R Hs) as (i & p' & os' & E & Hi & R').
  exists i, p'. split_and!; [done|by do 2 eexists|by apply not_elem_of_list_to_map_1|].
  rewrite (pool_map_rep _ _ _ R'). destruct s as [|[i0 k0] s0]; [done|].
  destruct (_ <=? _); [done|]. by apply list_to_map_snoc.
Qed.

Lemma opt_evict p :
  opt_ok p → pool_map p ≠ ∅ →
  ∃ i k p', evict p = Ret (Some k, p') ∧ opt_ok p' ∧
            pool_map p !! i = Some k ∧ pool_map p' = delete i (pool_map p).
Proof.
  intros (s & os & R) Hne. rewrite (pool_map_rep _ _ _ R) in *.
  pose proof (pool_nodup _ _ _ R) as N. apply evict_spec in R.
  destruct s as [|[i k] s]; [done|]. destruct R as (p' & E & R').
  exists i, k, p'. split_and!; [done|by do 2 eexists|simpl; by rewrite lookup_insert_eq|].
  rewrite (pool_map_rep _ _ _ R'). simpl. rewrite delete_insert_id; [done|].
  apply not_elem_of_list_to_map_1. simpl in N. by apply NoDup_cons in N as [? _].
Qed.

#[global, refine] Instance optimized_pool_laws : PoolLaws Pool := {
  pool_ok := opt_ok;
  entries_of := pool_map
}.
Proof.
  - split; [|done]. exists [], []. split; [apply Lru.rep_new|apply holds_new].
  - intros p k sem O _. by apply opt_track.
  - intros p i k (s & os & R) _. destruct (handle_spec _ _ _ i R) as [(p' & E & R') _].
    exists p'. split_and!; [done|by do 2 eexists|].
    rewrite (pool_map_rep _ _ _ R), (pool_map_rep _ _ _ R').
    apply EvictionLru.touch_map. by eapply pool_nodup.
  - intros p i k (s & os & R) _. destruct (handle_spec _ _ _ i R) as [_ (p' & E & R')].
    exists p'. split_and!; [done|by do 2 eexists|].
    rewrite (pool_map_rep _ _ _ R), (pool_map_rep _ _ _ R').
    apply EvictionLru.remove_map. by eapply pool_nodup.
  - intros p (s & os & R). rewrite (pool_map_rep _ _ _ R). intros Hs.
    apply evict_spec in R. destruct s as [|[i k] s]; [done|].
    by destruct (insert_non_empty (list_to_map s : gmap nat Z) i k).
  - apply opt_evict.
  - intros p n (s & os & R). pose proof (pool_list _ _ _ R) as Rl. eexists.
    simpl. unfold candidates. rewrite (Lru.peek_front_n_spec _ _ _ Rl).
    split_and!; [done|rewrite length_take; lia|]. intros k Hk.
    rewrite (pool_map_rep _ _ _ R). apply elem_of_take in Hk as (j & Hj & _).
    rewrite list_lookup_fmap in Hj. apply fmap_Some in Hj as ([i k'] & Hj & ->). exists i.
    apply elem_of_list_to_map_1; [by eapply pool_nodup|]. by eapply list_elem_of_lookup_2.
  - intros p (s & os & R). split.
    + exists [], os. eapply rep_with_lru; [done|]. apply Lru.rep_clear.
    + done.
Defined.

(** * Properties *)

(** Admission by frequency: tracking a key in a sound pool always succeeds
    with a handle no live entry has. In an empty pool the key is the only entry;
    otherwise it becomes the next victim exactly when its estimate, after this
    access was counted, is not above the estimate of the current victim, and
    goes behind every other entry when it is above. *)
Theorem tinylfu_admission p k sem :
  opt_ok p → Z.of_nat (length (queue p)) < 2 ^ 32 →
  ∃ i p', track p k sem = Ret (i, p') ∧ opt_ok p' ∧ i ∉ (queue p).*1 ∧
    match queue p with
    | [] => queue p' = [(i, k)]
    | (i0, k0) :: _ =>
        ∃ e e0, estimate (sketch p') k = Ret e ∧ estimate (sketch p') k0 = Ret e0 ∧
          queue p' = (if e <=? e0 then (i, k) :: queue p else queue p ++ [(i, k)]) ∧
          ∃ p'', evict p' = Ret (Some (if e <=? e0 then k else k0), p'')
    end.
Proof.
  intros (s & os & R). rewrite (queue_rep _ _ _ R). intros Hs.
  destruct (track_spec _ _ _ k sem R Hs) as (i & p' & os' & E & Hi & R').
  exists i, p'. split_and!; [done|by do 2 eexists|done|].
  destruct s as [|[i0 k0] s]; [by apply (queue_rep _ _ _ R')|].
  exists (estimated os' k), (estimated os' k0).
  split_and!; [apply holds_estimate, R'|apply holds_estimate, R'|by apply (queue_rep _ _ _ R')|].
  apply evict_spec in R'. destruct (_ <=? _); destruct R' as (p'' & E'' & _); eauto.
Qed.

(** A pool with one key, tracked once. *)
Definition sample : Pool :=
  match track new_pool 7 default_semantics with Ret (_, p) => p | Panic => new_pool end.

Lemma sample_pool_ok : opt_ok sample ∧ queue sample = [(0%nat, 7)].
Proof.
  assert (pool_rep new_pool [] []) as R by (split; [apply Lru.rep_new|apply holds_new]).
  destruct (track_spec _ _ _ 7 default_semantics R) as (i & p' & os' & E & _ & R'); [simpl; lia|].
  assert (i = 0%nat) as ->.
  { assert ((λ o, match o with Ret (i, _) => i | Panic => 1%nat end)
              (track new_pool 7 default_semantics) = 0%nat) as E0 by (by vm_compute).
    by rewrite E in E0. }
  unfold sample. rewrite E. split; [by do 2 eexists|]. by apply (queue_rep _ _ _ R').
Qed.

Lemma tinylfu_admission_witness :
  opt_ok sample ∧ Z.of_nat (length (queue sample)) < 2 ^ 32 ∧
  ∃ i p' e e0, track sample 9 default_semantics = Ret (i, p') ∧
    estimate (sketch p') 9 = Ret e ∧ estimate (sketch p') 7 = Ret e0 ∧
    queue p' = (if e <=? e0 then [(i, 9); (0%nat, 7)] else [(0%nat, 7); (i, 9)]).
Proof.
  destruct sample_pool_ok as [O Q]. split; [exact O|]. split; [rewrite Q; simpl; lia|].
  pose proof (tinylfu_admission sample 9 default_semantics O) as T. rewrite Q in T.
  destruct T as (i & p' & E & _ & _ & e & e0 & E1 & E2 & E3 & _); [simpl; lia|].
  exists i, p', e, e0. split; [exact E|]. split; [exact E1|]. split; [exact E2|exact E3].
Defined.

End EvictionOptimized.
