(* ===== verification/SessionLists.v ===== *)
(** The session-lineage eviction policy
    ([components/eviction-policy-session-lists/src/session_list.rs]): blocks of
    one session form a chain in the order they were registered, and the victim
    is the block that was accessed longest ago among the last blocks of the
    chains. The file holds the arena of nodes with its indices as the code keeps
    them, the chains the arena stands for, the proof that every operation is the
    corresponding operation on the chains, and the instance that makes a pool of
    chains a pool of the policy table. *)

From S2P Require Import Prelude EvictionPolicy PolicyTable.

Module SessionLists.
Import Policy PolicyTable.

(** * The arena *)

Record Node := mkNode {
  key : Z;
  session : Z;
  parent : option nat;
  child : option nat;
  stamp : Z;
  active : bool
}.

(** [leaves] is a [BTreeSet<(u64, u32)>]: the list of its elements in order. *)
Record Pool := mkPool {
  nodes : list Node;
  free : list nat;
  by_key : gmap Z nat;
  sessions : gmap Z nat;
  leaves : list (Z * nat);
  clock : Z;
  len : nat
}.

Definition new : Pool := mkPool [] [] ∅ ∅ [] 0 0.

(** The lexicographic order of [(u64, u32)], and [BTreeSet] on it. *)
Definition leaf_ltb (a b : Z * nat) : bool :=
  (a.1 <? b.1)%Z || ((a.1 =? b.1)%Z && (a.2 <? b.2)).

Fixpoint leaf_insert (e : Z * nat) (l : list (Z * nat)) : list (Z * nat) :=
  match l with
  | [] => [e]
  | x :: l' =>
      if leaf_ltb e x then e :: x :: l'
      else if decide (e = x) then x :: l'
      else x :: leaf_insert e l'
  end.

Definition leaf_remove (e : Z * nat) (l : list (Z * nat)) : list (Z * nat) :=
  filter (λ x, x ≠ e) l.

(** [self.nodes[i].child = x] and the like. *)
Definition set_child (ns : list Node) (i : nat) (x : option nat) : outcome (list Node) :=
  nd ← vec_get ns i;
  vec_set ns i (mkNode (key nd) (session nd) (parent nd) x (stamp nd) (active nd)).
Definition set_parent (ns : list Node) (i : nat) (x : option nat) : outcome (list Node) :=
  nd ← vec_get ns i;
  vec_set ns i (mkNode (key nd) (session nd) x (child nd) (stamp nd) (active nd)).
Definition set_stamp (ns : list Node) (i : nat) (t : Z) : outcome (list Node) :=
  nd ← vec_get ns i;
  vec_set ns i (mkNode (key nd) (session nd) (parent nd) (child nd) t (active nd)).
(** The three writes that end [unlink]. *)
Definition retire (ns : list Node) (i : nat) : outcome (list Node) :=
  nd ← vec_get ns i;
  vec_set ns i (mkNode (key nd) (session nd) None None (stamp nd) false).

(** The clock is a [u64] that advances by one per access; it is not bounded here. *)
Definition tick (self : Pool) : Z := (clock self + 1)%Z.

Definition alloc (ns : list Node) (fr : list nat) (nd : Node) :
    outcome (nat * list Node * list nat) :=
  match vec_pop fr with
  | Some (idx, fr) => ns ← vec_set ns idx nd; Ret (idx, ns, fr)
  | None => Ret (as_u32 (length ns), ns ++ [nd], fr)
  end.

Definition is_active (self : Pool) (i : nat) : bool :=
  match nodes self !! i with Some nd => active nd | None => false end.

Definition touch (self : Pool) (i : nat) : outcome (bool * Pool) :=
  if negb (is_active self i) then Ret (false, self)
  else
    nd ← vec_get (nodes self) i;
    let new_stamp := tick self in
    ns ← set_stamp (nodes self) i new_stamp;
    let lv := match child nd with
              | None => leaf_insert (new_stamp, i) (leaf_remove (stamp nd, i) (leaves self))
              | Some _ => leaves self
              end in
    Ret (true, mkPool ns (free self) (by_key self) (sessions self) lv new_stamp (len self)).

Definition register (self : Pool) (k s : Z) : outcome (nat * Pool) :=
  match by_key self !! k with
  | Some idx => '(_, self) ← touch self idx; Ret (idx, self)
  | None =>
      let t := tick self in
      let p := sessions self !! s in
      '(idx, ns, fr) ← alloc (nodes self) (free self) (mkNode k s p None t true);
      '(ns, lv) ← match p with
                  | Some p =>
                      ndp ← vec_get ns p;
                      ns ← set_child ns p (Some idx);
                      Ret (ns, leaf_remove (stamp ndp, p) (leaves self))
                  | None => Ret (ns, leaves self)
                  end;
      Ret (idx, mkPool ns fr (<[k := idx]> (by_key self)) (<[s := idx]> (sessions self))
                  (leaf_insert (t, idx) lv) t (S (len self)))
  end.

Definition unlink (self : Pool) (idx : nat) : outcome (Z * Pool) :=
  nd ← vec_get (nodes self) idx;
  ns ← match child nd with
       | Some c => set_parent (nodes self) c (parent nd)
       | None => Ret (nodes self)
       end;
  ns ← match parent nd with
       | Some p => set_child ns p (child nd)
       | None => Ret ns
       end;
  '(lv, ss) ← match child nd with
              | Some _ => Ret (leaves self, sessions self)
              | None =>
                  let lv := leaf_remove (stamp nd, idx) (leaves self) in
                  match parent nd with
                  | Some p =>
                      ndp ← vec_get ns p;
                      Ret (leaf_insert (stamp ndp, p) lv, <[session nd := p]> (sessions self))
                  | None => Ret (lv, delete (session nd) (sessions self))
                  end
              end;
  ns ← retire ns idx;
  l ← match len self with O => Panic | S l => Ret l end;
  Ret (key nd, mkPool ns (free self ++ [idx]) (delete (key nd) (by_key self)) ss lv
                 (clock self) l).

Definition evict_oldest (self : Pool) : outcome (option Z * Pool) :=
  match leaves self with
  | [] => Ret (None, self)
  | (_, idx) :: _ => '(k, self) ← unlink self idx; Ret (Some k, self)
  end.

Definition candidates (self : Pool) (n : nat) : outcome (list Z) :=
  mapM (M:=outcome) (λ e, nd ← vec_get (nodes self) e.2; Ret (key nd)) (take n (leaves self)).

Definition remove (self : Pool) (i : nat) : outcome (bool * Pool) :=
  if negb (is_active self i) then Ret (false, self)
  else '(_, self) ← unlink self i; Ret (true, self).

Definition clear (self : Pool) : Pool := mkPool [] [] ∅ ∅ [] 0 0.

(** * The chains

    The abstract pool: for every session the handles of its blocks, oldest
    registration first, and for every handle its key and the time of its last
    access. *)

Record lists := mkLists { chains : gmap Z (list nat); info : gmap nat (Z * Z) }.

Record wf (a : lists) : Prop := {
  wf_nonempty : ∀ s c, chains a !! s = Some c → c ≠ [];
  wf_nodup : ∀ s c, chains a !! s = Some c → NoDup c;
  wf_disjoint : ∀ s s' c c' i, chains a !! s = Some c → chains a !! s' = Some c' →
                i ∈ c → i ∈ c' → s = s';
  wf_dom : ∀ i, is_Some (info a !! i) ↔ ∃ s c, chains a !! s = Some c ∧ i ∈ c;
  wf_keys : ∀ i j k t t', info a !! i = Some (k, t) → info a !! j = Some (k, t') → i = j
}.

(** The handle ends the chain of its session: it has no descendant. *)
Definition is_leaf (a : lists) (i : nat) : Prop :=
  ∃ s c, chains a !! s = Some c ∧ last c = Some i.

(** First handle of a segment of a chain, or the handle after it; last handle,
    or the handle before it. *)
Definition first_of (c : list nat) (n : option nat) : option nat :=
  match c with [] => n | i :: _ => Some i end.
Definition last_of (p : option nat) (c : list nat) : option nat :=
  match last c with None => p | Some i => Some i end.

(** What a node says of its place in a chain, and of the block it tracks. *)
Definition links (nd : Node) : Z * option nat * option nat := (session nd, parent nd, child nd).
Definition entry (nd : Node) : option (Z * Z) :=
  if active nd then Some (key nd, stamp nd) else None.

Fixpoint linked (ns : list Node) (s : Z) (p : option nat) (c : list nat) (n : option nat) : Prop :=
  match c with
  | [] => True
  | i :: c' =>
      links <$> ns !! i = Some (s, p, first_of c' n) ∧ linked ns s (Some i) c' n
  end.

(** The pool [p] represents the chains [a]. *)
Record rep (p : Pool) (a : lists) : Prop := {
  rep_wf : wf a;
  rep_info : ∀ i, nodes p !! i ≫= entry = info a !! i;
  rep_links : ∀ s c, chains a !! s = Some c → linked (nodes p) s None c None;
  rep_sessions : ∀ s, sessions p !! s = chains a !! s ≫= last;
  rep_leaves : ∀ t i, (t, i) ∈ leaves p ↔ is_leaf a i ∧ ∃ k, info a !! i = Some (k, t);
  rep_sorted : StronglySorted (λ x y, leaf_ltb x y = true) (leaves p);
  rep_by_key : ∀ k i, by_key p !! k = Some i ↔ ∃ t, info a !! i = Some (k, t);
  rep_free : ∀ i, i ∈ free p ↔ i < length (nodes p) ∧ info a !! i = None;
  rep_free_nodup : NoDup (free p);
  rep_clock : ∀ i k t, info a !! i = Some (k, t) → (t ≤ clock p)%Z;
  rep_len : len p = size (info a)
}.

(** The operations on the chains. *)

Definition abs_touch (a : lists) (i : nat) (k t : Z) : lists :=
  mkLists (chains a) (<[i := (k, t)]> (info a)).

Definition abs_push (a : lists) (s : Z) (i : nat) (k t : Z) : lists :=
  mkLists (<[s := default [] (chains a !! s) ++ [i]]> (chains a)) (<[i := (k, t)]> (info a)).

(** Take a handle out of a chain; a chain that becomes empty is dropped. *)
Definition drop_handle (i : nat) (c : list nat) : option (list nat) :=
  match filter (λ j, j ≠ i) c with [] => None | c' => Some c' end.

Definition abs_remove (a : lists) (i : nat) : lists :=
  mkLists (omap (drop_handle i) (chains a)) (delete i (info a)).

Lemma filter_ne_notin (i : nat) (c : list nat) : i ∉ c → filter (λ j, j ≠ i) c = c.
Proof.
  induction c as [|j c IH]; [done|]. rewrite not_elem_of_cons. intros [? ?].
  rewrite filter_cons_True by done. by rewrite IH.
Qed.

Lemma drop_handle_notin i c : c ≠ [] → i ∉ c → drop_handle i c = Some c.
Proof.
  intros Hc Hi. unfold drop_handle.
  rewrite filter_ne_notin by done. by destruct c.
Qed.

Lemma drop_handle_mid i c1 c2 : NoDup (c1 ++ i :: c2) →
  drop_handle i (c1 ++ i :: c2) = match c1 ++ c2 with [] => None | c => Some c end.
Proof.
  intros N. unfold drop_handle. rewrite filter_app, filter_cons_False by naive_solver.
  rewrite <- Permutation_middle in N. apply NoDup_cons in N as [N _].
  by rewrite <- filter_app, filter_ne_notin.
Qed.

Lemma drop_handle_Some i c c' : drop_handle i c = Some c' → c' ≠ [] ∧ c' = filter (λ j, j ≠ i) c.
Proof. unfold drop_handle. destruct (filter _ _); naive_solver. Qed.

Lemma abs_remove_chain a i s c' : chains (abs_remove a i) !! s = Some c' →
  ∃ c, chains a !! s = Some c ∧ c' ≠ [] ∧ c' = filter (λ j, j ≠ i) c.
Proof.
  simpl. rewrite lookup_omap. intros (c & Hc & Hd)%bind_Some.
  apply drop_handle_Some in Hd as []. eauto.
Qed.

Lemma wf_touch a i k t t' :
  wf a → info a !! i = Some (k, t') → wf (abs_touch a i k t).
Proof.
  intros W Hi. split; simpl; try apply W.
  - intros j. destruct (decide (j = i)) as [->|].
    + rewrite lookup_insert_eq. rewrite <- (wf_dom _ W), Hi. naive_solver.
    + rewrite lookup_insert_ne by done. apply W.
  - intros j j' k0 t1 t2. rewrite !lookup_insert_Some.
    intros [[? ?]|[? H1]] [[? ?]|[? H2]]; simplify_eq; try done; eapply (wf_keys _ W); eauto.
Qed.

Lemma wf_push a s i k t :
  wf a → info a !! i = None → (∀ j t', info a !! j ≠ Some (k, t')) → wf (abs_push a s i k t).
Proof.
  intros W Hi Hk.
  assert (∀ s' c, chains a !! s' = Some c → i ∉ c) as Hnot.
  { intros s' c Hc Hin. destruct (proj2 (wf_dom _ W i)) as [? ?]; [eauto|]. congruence. }
  assert (∀ s' c j, chains (abs_push a s i k t) !! s' = Some c → j ∈ c →
          (s' = s ∧ j = i) ∨ ∃ c0, chains a !! s' = Some c0 ∧ j ∈ c0 ∧ j ≠ i) as Hin.
  { intros s' c j. simpl. rewrite lookup_insert_Some.
    intros [[-> <-]|[? Hc]] Hj.
    - apply elem_of_app in Hj as [Hj|Hj]; [right|left; by apply list_elem_of_singleton in Hj].
      destruct (chains a !! s') as [c0|] eqn:E; [|set_solver].
      exists c0. split_and!; [done..|]. intros ->. by apply (Hnot _ _ E).
    - right. exists c. split_and!; [done..|]. intros ->. by apply (Hnot _ _ Hc). }
  split.
  - intros s' c. simpl. rewrite lookup_insert_Some. intros [[-> <-]|[_ Hc]]; [by destruct (default _ _)|].
    by eapply wf_nonempty.
  - intros s' c. simpl. rewrite lookup_insert_Some. intros [[-> <-]|[_ Hc]]; [|by eapply wf_nodup].
    destruct (chains a !! s') as [c0|] eqn:E; simpl; [|apply NoDup_singleton].
    apply NoDup_app. split_and!; [by eapply wf_nodup| |apply NoDup_singleton].
    intros j Hj Hji. apply list_elem_of_singleton in Hji as ->. by apply (Hnot _ _ E).
  - intros s1 s2 c1 c2 j H1 H2 Hj1 Hj2.
    destruct (Hin _ _ _ H1 Hj1) as [[-> ->]|(? & ? & ? & ?)],
      (Hin _ _ _ H2 Hj2) as [[-> ?]|(? & ? & ? & ?)]; try done.
    by eapply (wf_disjoint _ W).
  - intros j. simpl. destruct (decide (j = i)) as [->|Hne].
    + rewrite lookup_insert_eq. split; [|done]. intros _. eexists s, _.
      rewrite lookup_insert_eq. split; [done|set_solver].
    + rewrite lookup_insert_ne, (wf_dom _ W) by done. split.
      * intros (s' & c & Hc & Hj). destruct (decide (s' = s)) as [->|].
        -- eexists s, _. rewrite lookup_insert_eq, Hc. split; [done|set_solver].
        -- exists s', c. by rewrite lookup_insert_ne.
      * intros (s' & c & Hc & Hj). destruct (Hin _ _ _ Hc Hj) as [[_ ?]|(c0 & ? & ? & _)]; eauto. done.
  - intros j j' k0 t1 t2. simpl. rewrite !lookup_insert_Some.
    intros [[? ?]|[? H1]] [[? ?]|[? H2]]; simplify_eq; try done; [naive_solver..|].
    eapply (wf_keys _ W); eauto.
Qed.

Lemma wf_remove a i : wf a → wf (abs_remove a i).
Proof.
  intros W. split.
  - by intros s c' (c & _ & ? & _)%abs_remove_chain.
  - intros s c' (c & Hc & _ & ->)%abs_remove_chain. apply NoDup_filter. by eapply wf_nodup.
  - intros s1 s2 c1' c2' j (c1 & H1 & _ & ->)%abs_remove_chain (c2 & H2 & _ & ->)%abs_remove_chain.
    rewrite !list_elem_of_filter. intros [_ ?] [_ ?]. by eapply (wf_disjoint _ W).
  - intros j. simpl. destruct (decide (j = i)) as [->|Hne].
    + rewrite lookup_delete_eq. split; [by intros []|].
      intros (s & c' & (c & _ & _ & ->)%abs_remove_chain & [? _]%list_elem_of_filter). done.
    + rewrite lookup_delete_ne, (wf_dom _ W) by done. split.
      * intros (s & c & Hc & Hj). destruct (drop_handle i c) as [c'|] eqn:E.
        -- exists s, c'. rewrite lookup_omap, Hc. simpl. split; [done|].
           apply drop_handle_Some in E as [_ ->]. by apply list_elem_of_filter.
        -- exfalso. unfold drop_handle in E.
           assert (j ∈ filter (λ j, j ≠ i) c) as Hf by (by apply list_elem_of_filter).
           destruct (filter _ c); [set_solver|done].
      * intros (s & c' & (c & Hc & _ & ->)%abs_remove_chain & [_ ?]%list_elem_of_filter). eauto.
  - intros j j' k t t'. simpl. rewrite !lookup_delete_Some. intros [_ ?] [_ ?].
    by eapply (wf_keys _ W).
Qed.

(** * The ordered set of leaves *)

Abbreviation sorted l := (StronglySorted (λ x y, leaf_ltb x y = true) l).

Lemma leaf_ltb_spec a b : leaf_ltb a b = true ↔ (a.1 < b.1)%Z ∨ a.1 = b.1 ∧ a.2 < b.2.
Proof.
  unfold leaf_ltb. rewrite orb_true_iff, andb_true_iff, Z.ltb_lt, Z.eqb_eq, Nat.ltb_lt. done.
Qed.

Lemma leaf_insert_elem e l x : x ∈ leaf_insert e l ↔ x = e ∨ x ∈ l.
Proof.
  induction l as [|y l IH]; simpl; [set_solver|].
  destruct (leaf_ltb e y); [set_solver|]. case_decide; [set_solver|].
  rewrite !elem_of_cons, IH. tauto.
Qed.

Lemma leaf_insert_sorted e l : sorted l → sorted (leaf_insert e l).
Proof.
  induction 1 as [|y l Hs IH Hf]; simpl; [repeat constructor|].
  rewrite Forall_forall in Hf. destruct (leaf_ltb e y) eqn:Ee.
  - constructor; [by constructor; [|rewrite Forall_forall]|].
    apply Forall_cons. split; [done|]. apply Forall_forall. intros z Hz.
    specialize (Hf z Hz). rewrite leaf_ltb_spec in *. lia.
  - case_decide as Hne; [by constructor; [|rewrite Forall_forall]|].
    constructor; [done|]. apply Forall_forall. intros z [->|Hz]%leaf_insert_elem; [|by apply Hf].
    destruct e as [t i], y as [t' i']. apply not_true_iff_false in Ee.
    rewrite leaf_ltb_spec in *. simpl in *.
    destruct (Z.lt_trichotomy t' t) as [?|[->|?]]; [lia| |lia].
    destruct (decide (i = i')) as [->|]; [done|]. lia.
Qed.

Lemma leaf_remove_elem e l x : x ∈ leaf_remove e l ↔ x ≠ e ∧ x ∈ l.
Proof. unfold leaf_remove. by rewrite list_elem_of_filter. Qed.

Lemma leaf_remove_sorted e l : sorted l → sorted (leaf_remove e l).
Proof.
  unfold leaf_remove. induction 1 as [|y l Hs IH Hf]; [constructor|].
  destruct (decide (y = e)); [by rewrite filter_cons_False by naive_solver|].
  rewrite filter_cons_True by done. constructor; [done|].
  rewrite Forall_forall in *. intros z [_ ?]%list_elem_of_filter. by apply Hf.
Qed.

(** * Chains of nodes *)

Lemma linked_app ns s p c1 c2 n :
  linked ns s p (c1 ++ c2) n ↔
  linked ns s p c1 (first_of c2 n) ∧ linked ns s (last_of p c1) c2 n.
Proof.
  revert p. induction c1 as [|i c1 IH]; intros p; simpl; [unfold last_of; simpl; tauto|].
  rewrite IH. unfold last_of. rewrite last_cons.
  assert (first_of (c1 ++ c2) n = first_of c1 (first_of c2 n)) as -> by (by destruct c1).
  destruct (last c1); tauto.
Qed.

Lemma linked_frame ns ns' s p c n :
  linked ns s p c n → (∀ i, i ∈ c → links <$> ns' !! i = links <$> ns !! i) → linked ns' s p c n.
Proof.
  revert p. induction c as [|i c IH]; intros p; simpl; [done|]. intros [Hi Hl] Hf.
  rewrite Hf by set_solver. split; [done|]. apply IH; [done|]. intros; apply Hf; set_solver.
Qed.

(** A change of links only: at most those of the nodes in [d]. *)
Record relinked (ns ns' : list Node) (d : list nat) : Prop := {
  relinked_len : length ns' = length ns;
  relinked_entry : ∀ i, ns' !! i ≫= entry = ns !! i ≫= entry;
  relinked_out : ∀ i, i ∉ d → links <$> ns' !! i = links <$> ns !! i
}.

Lemma relinked_refl ns d : relinked ns ns d.
Proof. done. Qed.

Lemma relinked_trans ns1 ns2 ns3 d1 d2 :
  relinked ns1 ns2 d1 → relinked ns2 ns3 d2 → relinked ns1 ns3 (d1 ++ d2).
Proof.
  intros [L1 E1 O1] [L2 E2 O2]. split.
  - congruence.
  - intros i. by rewrite E2, E1.
  - intros i Hi. rewrite O2, O1; set_solver.
Qed.

Lemma relinked_insert ns i nd nd' :
  ns !! i = Some nd → entry nd' = entry nd → relinked ns (<[i := nd']> ns) [i].
Proof.
  intros Hi He. apply lookup_lt_Some in Hi as Hlt. split.
  - apply length_insert.
  - intros j. destruct (decide (i = j)) as [<-|].
    + rewrite list_lookup_insert_eq by done. by rewrite Hi.
    + by rewrite list_lookup_insert_ne.
  - intros j Hj. rewrite list_lookup_insert_ne by set_solver. done.
Qed.

Lemma relinked_frame ns ns' d s p c n :
  relinked ns ns' d → linked ns s p c n → (∀ i, i ∈ c → i ∉ d) → linked ns' s p c n.
Proof. intros R Hl Hd. eapply linked_frame; [done|]. intros i Hi. apply R. by apply Hd. Qed.

Lemma set_child_spec ns i s p n x :
  links <$> ns !! i = Some (s, p, n) →
  ∃ ns', set_child ns i x = Ret ns' ∧ relinked ns ns' [i] ∧ links <$> ns' !! i = Some (s, p, x).
Proof.
  intros (nd & Hi & [= -> -> ->])%fmap_Some. unfold set_child, vec_get. rewrite Hi. simpl.
  apply lookup_lt_Some in Hi as Hlt. rewrite vec_set_Ret by done. eexists. split_and!; [done| |].
  - by eapply relinked_insert.
  - by rewrite list_lookup_insert_eq.
Qed.

Lemma set_parent_spec ns i s p n x :
  links <$> ns !! i = Some (s, p, n) →
  ∃ ns', set_parent ns i x = Ret ns' ∧ relinked ns ns' [i] ∧ links <$> ns' !! i = Some (s, x, n).
Proof.
  intros (nd & Hi & [= -> -> ->])%fmap_Some. unfold set_parent, vec_get. rewrite Hi. simpl.
  apply lookup_lt_Some in Hi as Hlt. rewrite vec_set_Ret by done. eexists. split_and!; [done| |].
  - by eapply relinked_insert.
  - by rewrite list_lookup_insert_eq.
Qed.

(** Redirect the [child] of the last node of a segment. *)
Lemma set_child_last ns s c n n' :
  linked ns s None c n → NoDup c →
  ∃ ns', match last_of None c with Some j => set_child ns j n' | None => Ret ns end = Ret ns' ∧
         linked ns' s None c n' ∧ relinked ns ns' (match last c with Some j => [j] | None => [] end).
Proof.
  intros Hl N. destruct c as [|j c _] using rev_ind; [by exists ns|].
  apply linked_app in Hl as [Hc [Hj _]]. unfold last_of at 1. rewrite last_snoc.
  destruct (set_child_spec _ _ _ _ _ n' Hj) as (ns' & E & R & Hj'). exists ns'. split_and!; [done| |done].
  apply linked_app. simpl. split_and!; [|done..]. eapply relinked_frame; [done..|].
  apply NoDup_app in N as (_ & N & _). intros i Hi ->%list_elem_of_singleton. set_solver.
Qed.

(** Redirect the [parent] of the first node of a segment. *)
Lemma set_parent_first ns s c p p' :
  linked ns s p c None → NoDup c →
  ∃ ns', match first_of c None with Some j => set_parent ns j p' | None => Ret ns end = Ret ns' ∧
         linked ns' s p' c None ∧ relinked ns ns' (match c with j :: _ => [j] | [] => [] end).
Proof.
  intros Hl N. destruct c as [|j c]; [by exists ns|]. destruct Hl as [Hj Hc]. simpl.
  destruct (set_parent_spec _ _ _ _ _ p' Hj) as (ns' & E & R & Hj'). exists ns'. split_and!; [done..| |done].
  eapply relinked_frame; [done..|]. apply NoDup_cons in N as [N _].
  intros i Hi ->%list_elem_of_singleton. done.
Qed.

(** * The operations *)

Lemma rep_at p a i k t :
  rep p a → info a !! i = Some (k, t) →
  ∃ s c1 c2, chains a !! s = Some (c1 ++ i :: c2) ∧ NoDup (c1 ++ i :: c2) ∧
    nodes p !! i = Some (mkNode k s (last_of None c1) (first_of c2 None) t true).
Proof.
  intros R Hi. pose proof (rep_wf _ _ R) as W.
  destruct (proj1 (wf_dom _ W i)) as (s & c & Hc & Hin); [eauto|].
  apply list_elem_of_split in Hin as (c1 & c2 & ->). exists s, c1, c2.
  split_and!; [done|by eapply wf_nodup|].
  pose proof (rep_links _ _ R _ _ Hc) as (_ & Hl & _)%linked_app.
  rewrite <- (rep_info _ _ R i) in Hi. destruct (nodes p !! i) as [nd|]; [|done]. simpl in *.
  unfold entry in Hi. destruct nd as [k' s' p' n' t' []]; simpl in *; [|done].
  injection Hi as -> ->. unfold links in Hl. simpl in Hl. by injection Hl as -> -> ->.
Qed.

Lemma rep_is_active p a i : rep p a → is_active p i = bool_decide (is_Some (info a !! i)).
Proof.
  intros R. unfold is_active. rewrite <- (rep_info _ _ R i). destruct (nodes p !! i) as [nd|]; simpl.
  - unfold entry. destruct (active nd); [by rewrite bool_decide_true by eauto|].
    by rewrite bool_decide_false by (by intros []).
  - done.
Qed.

Lemma leaf_last a s c1 i c2 :
  wf a → chains a !! s = Some (c1 ++ i :: c2) → is_leaf a i ↔ c2 = [].
Proof.
  intros W Hc. split.
  - intros (s' & c & Hc' & Hl). assert (s' = s) as ->.
    { apply (wf_disjoint _ W s' s c (c1 ++ i :: c2) i); [done..| |set_solver].
      by apply last_Some_elem_of. }
    rewrite Hc in Hc'. injection Hc' as <-.
    destruct c2 as [|j c2 _] using rev_ind; [done|]. exfalso.
    rewrite app_comm_cons, app_assoc, last_snoc in Hl. injection Hl as ->.
    pose proof (wf_nodup _ W _ _ Hc) as N. rewrite app_comm_cons, app_assoc in N.
    apply NoDup_app in N as (_ & N & _). apply (N i); set_solver.
  - intros ->. exists s, (c1 ++ [i]). by rewrite last_snoc.
Qed.

Lemma touch_invalid p a i : rep p a → info a !! i = None → touch p i = Ret (false, p).
Proof.
  intros R Hi. unfold touch. by rewrite (rep_is_active _ _ _ R), Hi.
Qed.

(** The leaves after the entry [i] got the stamp [t']. *)
Lemma touch_leaves p a i k t t' s c1 c2 :
  rep p a → info a !! i = Some (k, t) → chains a !! s = Some (c1 ++ i :: c2) →
  let lv := match first_of c2 None with
            | None => leaf_insert (t', i) (leaf_remove (t, i) (leaves p))
            | Some _ => leaves p
            end in
  sorted lv ∧
  ∀ u j, (u, j) ∈ lv ↔ is_leaf (abs_touch a i k t') j ∧ ∃ k', info (abs_touch a i k t') !! j = Some (k', u).
Proof.
  intros R Hi Hc. pose proof (leaf_last _ _ _ _ _ (rep_wf _ _ R) Hc) as HL.
  change (is_leaf (abs_touch a i k t')) with (is_leaf a). simpl.
  destruct c2 as [|c c2]; simpl.
  - split; [apply leaf_insert_sorted, leaf_remove_sorted, R|]. intros u j.
    rewrite leaf_insert_elem, leaf_remove_elem, (rep_leaves _ _ R).
    destruct (decide (j = i)) as [->|].
    + rewrite lookup_insert_eq, Hi. naive_solver.
    + rewrite lookup_insert_ne by done. naive_solver.
  - split; [apply R|]. intros u j. rewrite (rep_leaves _ _ R). destruct (decide (j = i)) as [->|].
    + naive_solver.
    + by rewrite lookup_insert_ne.
Qed.

Lemma touch_spec p a i k t :
  rep p a → info a !! i = Some (k, t) →
  ∃ p', touch p i = Ret (true, p') ∧ rep p' (abs_touch a i k (tick p)) ∧ clock p' = tick p.
Proof.
  intros R Hi. destruct (rep_at _ _ _ _ _ R Hi) as (s & c1 & c2 & Hc & N & Hn).
  apply lookup_lt_Some in Hn as Hlt.
  unfold touch. rewrite (rep_is_active _ _ _ R), bool_decide_true by eauto.
  unfold set_stamp, vec_get. rewrite Hn. simpl. rewrite vec_set_Ret by done. simpl.
  eexists. split; [done|]. split; [|done].
  destruct (touch_leaves _ _ _ _ _ (tick p) _ _ _ R Hi Hc) as [Hs Hlv].
  split; simpl; try apply R; try done.
  - by eapply wf_touch; [apply R|].
  - intros j. destruct (decide (i = j)) as [<-|].
    + by rewrite list_lookup_insert_eq, lookup_insert_eq.
    + rewrite list_lookup_insert_ne, lookup_insert_ne by done. apply R.
  - intros s' c Hc'. eapply linked_frame; [by apply R|]. intros j _.
    destruct (decide (i = j)) as [<-|]; [|by rewrite list_lookup_insert_ne].
    by rewrite list_lookup_insert_eq, Hn.
  - intros k' j. rewrite (rep_by_key _ _ R). destruct (decide (i = j)) as [<-|].
    + rewrite lookup_insert_eq, Hi. naive_solver.
    + by rewrite lookup_insert_ne.
  - intros j. rewrite length_insert, (rep_free _ _ R). destruct (decide (i = j)) as [<-|].
    + rewrite lookup_insert_eq, Hi. naive_solver.
    + by rewrite lookup_insert_ne.
  - intros j k' u. rewrite lookup_insert_Some. unfold tick.
    intros [[_ ?]|[_ H]]; [simplify_eq; lia|]. pose proof (rep_clock _ _ R _ _ _ H). lia.
  - rewrite map_size_insert, Hi. apply R.
Qed.

Lemma pool_arena_length p a : rep p a → length (nodes p) = size (info a) + length (free p).
Proof.
  intros R. rewrite <- (length_map_to_list (info a)), <- (length_fmap fst), <- length_app.
  rewrite <- (length_seq (length (nodes p)) 0). apply Permutation_length. symmetry.
  assert (∀ i, i ∈ (map_to_list (info a)).*1 ↔ is_Some (info a !! i)) as Hd.
  { intros i. rewrite list_elem_of_fmap. split.
    - intros ([j x] & -> & H%elem_of_map_to_list). eauto.
    - intros [x H]. exists (i, x). by rewrite elem_of_map_to_list. }
  apply NoDup_Permutation.
  - apply NoDup_app. split_and!; [apply NoDup_fst_map_to_list| |apply R].
    intros i [x Hx]%Hd [_ Hf]%(rep_free _ _ R). congruence.
  - apply NoDup_seq.
  - intros i. rewrite elem_of_app, elem_of_seq, Hd, (rep_free _ _ R).
    destruct (info a !! i) as [[k t]|] eqn:E; [|naive_solver lia].
    destruct (rep_at _ _ _ _ _ R E) as (? & ? & ? & _ & _ & H). apply lookup_lt_Some in H.
    split; [lia|]. left. by eexists.
Qed.

(** The slot a new node takes, and the arena around it. *)
Record filled (p : Pool) (a : lists) (nd : Node) (i : nat) (ns : list Node) (fr : list nat) : Prop := {
  filled_fresh : info a !! i = None;
  filled_node : ns !! i = Some nd;
  filled_out : ∀ j, j ≠ i → ns !! j = nodes p !! j;
  filled_nodup : NoDup fr;
  filled_free : ∀ j, j ∈ fr ↔ j ≠ i ∧ j < length ns ∧ info a !! j = None
}.

Lemma alloc_node_spec p a nd :
  rep p a → (Z.of_nat (size (info a)) < 2 ^ 32)%Z →
  ∃ i ns fr, alloc (nodes p) (free p) nd = Ret (i, ns, fr) ∧ filled p a nd i ns fr.
Proof.
  intros R Hs. unfold alloc. destruct (vec_pop (free p)) as [[i fr]|] eqn:Ep.
  - apply vec_pop_Some in Ep. pose proof (rep_free_nodup _ _ R) as Nf. rewrite Ep in Nf.
    apply NoDup_app in Nf as (Nf & Nfi & _).
    destruct (proj1 (rep_free _ _ R i)) as [Hlt Hi]; [rewrite Ep; set_solver|].
    rewrite vec_set_Ret by done. simpl. do 3 eexists. split; [done|]. split; [done| | |done|].
    + by apply list_lookup_insert_eq.
    + intros j Hj. by apply list_lookup_insert_ne.
    + intros j. rewrite length_insert, <- (rep_free _ _ R), Ep, elem_of_app, list_elem_of_singleton.
      split; [|naive_solver]. intros Hj. split; [|by left]. intros ->. by apply (Nfi i); set_solver.
  - apply vec_pop_None in Ep. pose proof (pool_arena_length _ _ R) as HL. rewrite Ep in HL |- *.
    simpl in HL. rewrite as_u32_small by lia. do 3 eexists. split; [done|].
    assert (∀ j, info a !! j = None → ¬ j < length (nodes p)) as Hn.
    { intros j Hj Hlt. pose proof (proj2 (rep_free _ _ R j) (conj Hlt Hj)) as Hf.
      rewrite Ep in Hf. by apply elem_of_nil in Hf. }
    split.
    + rewrite <- (rep_info _ _ R). by rewrite lookup_ge_None_2.
    + by rewrite list_lookup_middle.
    + intros j Hj. destruct (decide (j < length (nodes p))); [by apply lookup_app_l|].
      rewrite (lookup_ge_None_2 (nodes p)) by lia. apply lookup_ge_None_2.
      rewrite length_app. simpl. lia.
    + constructor.
    + intros j. rewrite length_app. simpl. split; [by intros ?%elem_of_nil|].
      intros (Hj & Hlt & Hi). exfalso. apply (Hn _ Hi). lia.
Qed.

(** The chain of session [s] so far. *)
Definition chain_of (a : lists) (s : Z) : list nat := default [] (chains a !! s).

Lemma chain_notin a s i : wf a → info a !! i = None → i ∉ chain_of a s.
Proof.
  intros W Hi Hin. unfold chain_of in Hin. destruct (chains a !! s) as [c|] eqn:E; [|set_solver].
  destruct (proj2 (wf_dom _ W i)) as [? ?]; [eauto|]. congruence.
Qed.

(** Linking the new node behind the chain of its session. *)
Lemma append_link p a s i k t ns fr :
  rep p a → filled p a (mkNode k s (last (chain_of a s)) None t true) i ns fr →
  ∃ ns', match last_of None (chain_of a s) with
         | Some j => set_child ns j (Some i) | None => Ret ns end = Ret ns' ∧
    length ns' = length ns ∧
    (∀ j, ns' !! j ≫= entry = <[i := (k, t)]> (info a) !! j) ∧
    ∀ s' c, chains (abs_push a s i k t) !! s' = Some c → linked ns' s' None c None.
Proof.
  intros R F. pose proof (rep_wf _ _ R) as W. pose proof (filled_fresh _ _ _ _ _ _ F) as Hi.
  assert (∀ s' c, chains a !! s' = Some c → linked ns s' None c None) as Hl.
  { intros s' c Hc. eapply linked_frame; [by apply R|]. intros j Hj.
    rewrite (filled_out _ _ _ _ _ _ F); [done|]. intros ->. apply (chain_notin a s' i W Hi).
    unfold chain_of. by rewrite Hc. }
  assert (linked ns s None (chain_of a s) None ∧ NoDup (chain_of a s)) as [Hls Ns].
  { unfold chain_of. destruct (chains a !! s) eqn:E; simpl; [|split; [done|constructor]].
    split; [by apply Hl|]. by eapply wf_nodup. }
  destruct (set_child_last _ _ _ _ (Some i) Hls Ns) as (ns' & E & Hls' & Rl).
  assert (i ∉ match last (chain_of a s) with Some j => [j] | None => [] end) as Hni.
  { destruct (last (chain_of a s)) as [j|] eqn:El; [|set_solver].
    intros ->%list_elem_of_singleton. apply (chain_notin a s j W Hi). by apply last_Some_elem_of. }
  exists ns'. split_and!; [done|apply Rl| |].
  - intros j. rewrite (relinked_entry _ _ _ Rl). destruct (decide (i = j)) as [<-|].
    + by rewrite (filled_node _ _ _ _ _ _ F), lookup_insert_eq.
    + rewrite (filled_out _ _ _ _ _ _ F), lookup_insert_ne by done. apply R.
  - intros s' c. simpl. rewrite lookup_insert_Some. intros [[<- <-]|[Hne Hc]].
    + apply linked_app. split; [done|]. simpl. split; [|done].
      rewrite (relinked_out _ _ _ Rl) by done. rewrite (filled_node _ _ _ _ _ _ F). simpl.
      unfold links, last_of. simpl. fold (chain_of a s). by destruct (last (chain_of a s)).
    + eapply relinked_frame; [done|by apply Hl|]. intros j Hj Hin. apply Hne.
      unfold chain_of in Hin. destruct (chains a !! s) as [cs|] eqn:Es; simpl in *; [|set_solver].
      eapply (wf_disjoint _ W s s' cs c j); [done..| |done].
      destruct (last cs) as [j'|] eqn:El; [|set_solver].
      apply list_elem_of_singleton in Hin as ->. by apply last_Some_elem_of.
Qed.

Lemma push_leaf a s i k t x :
  wf a → is_leaf (abs_push a s i k t) x ↔ x = i ∨ is_leaf a x ∧ last (chain_of a s) ≠ Some x.
Proof.
  intros W. split.
  - intros (s' & c & Hc & Hl). simpl in Hc. apply lookup_insert_Some in Hc as [[<- <-]|[Hne Hc]].
    + rewrite last_snoc in Hl. left. by injection Hl.
    + right. split; [by exists s', c|]. unfold chain_of. intros Hl'.
      destruct (chains a !! s) as [c'|] eqn:E; [|done]. apply Hne.
      apply (wf_disjoint _ W s s' c' c x); [done..| |]; by apply last_Some_elem_of.
  - intros [->|[(s' & c & Hc & Hl) Hne]].
    + eexists s, _. simpl. rewrite lookup_insert_eq. split; [done|]. by rewrite last_snoc.
    + exists s', c. simpl. split; [|done]. rewrite lookup_insert_ne; [done|]. intros ->.
      apply Hne. unfold chain_of. by rewrite Hc.
Qed.

Lemma rep_session p a s : rep p a → sessions p !! s = last (chain_of a s).
Proof. intros R. rewrite (rep_sessions _ _ R). unfold chain_of. by destruct (chains a !! s). Qed.

(** The last block of a session, which the new one is chained to. *)
Lemma session_tail p a s j :
  rep p a → last (chain_of a s) = Some j →
  ∃ nd, nodes p !! j = Some nd ∧ info a !! j = Some (key nd, stamp nd).
Proof.
  intros R Hl. unfold chain_of in Hl. destruct (chains a !! s) as [c|] eqn:E; [|done].
  destruct (proj2 (wf_dom _ (rep_wf _ _ R) j)) as [[k t] Hj].
  { exists s, c. split; [done|]. by apply last_Some_elem_of. }
  destruct (rep_at _ _ _ _ _ R Hj) as (s' & c1 & c2 & _ & _ & Hn). eauto.
Qed.

(** The leaves after [i] was chained behind [j], or started a chain. *)
Lemma push_leaves p a s i k t lv :
  rep p a → info a !! i = None →
  match last (chain_of a s) with
  | Some j => ∃ kj tj, info a !! j = Some (kj, tj) ∧ lv = leaf_remove (tj, j) (leaves p)
  | None => lv = leaves p
  end →
  sorted (leaf_insert (t, i) lv) ∧
  ∀ u x, (u, x) ∈ leaf_insert (t, i) lv ↔
    is_leaf (abs_push a s i k t) x ∧ ∃ k', info (abs_push a s i k t) !! x = Some (k', u).
Proof.
  intros R Hi Hlv.
  assert (sorted lv ∧ ∀ u x, (u, x) ∈ lv ↔
    (is_leaf a x ∧ last (chain_of a s) ≠ Some x) ∧ ∃ k', info a !! x = Some (k', u)) as [Hs Hm].
  { destruct (last (chain_of a s)) as [j|].
    - destruct Hlv as (kj & tj & Hj & ->). split; [apply leaf_remove_sorted, R|].
      intros u x. rewrite leaf_remove_elem, (rep_leaves _ _ R).
      destruct (decide (x = j)) as [->|]; naive_solver.
    - subst lv. split; [apply R|]. intros u x. rewrite (rep_leaves _ _ R). naive_solver. }
  split; [by apply leaf_insert_sorted|]. intros u x.
  rewrite leaf_insert_elem, Hm, push_leaf by apply R. simpl.
  destruct (decide (x = i)) as [->|].
  - rewrite lookup_insert_eq, Hi. naive_solver.
  - rewrite lookup_insert_ne by done. naive_solver.
Qed.

Lemma register_fresh p a k s :
  rep p a → (∀ i t, info a !! i ≠ Some (k, t)) → (Z.of_nat (size (info a)) < 2 ^ 32)%Z →
  ∃ i p', register p k s = Ret (i, p') ∧ info a !! i = None ∧
          rep p' (abs_push a s i k (tick p)) ∧ clock p' = tick p.
Proof.
  intros R Hk Hs. unfold register.
  destruct (by_key p !! k) as [j|] eqn:Ek.
  { apply (rep_by_key _ _ R) in Ek as [t Ht]. by apply Hk in Ht. }
  rewrite (rep_session _ _ s R).
  destruct (alloc_node_spec p a (mkNode k s (last (chain_of a s)) None (tick p) true) R Hs)
    as (i & ns & fr & -> & F). pose proof (filled_fresh _ _ _ _ _ _ F) as Hi.
  destruct (append_link _ _ _ _ _ _ _ _ R F) as (ns' & E & HL & He & Hl). simpl.
  assert (∃ lv,
    match last (chain_of a s) with
    | Some p0 => ndp ← vec_get ns p0; ns0 ← set_child ns p0 (Some i);
                 Ret (ns0, leaf_remove (stamp ndp, p0) (leaves p))
    | None => Ret (ns, leaves p)
    end = Ret (ns', lv) ∧
    match last (chain_of a s) with
    | Some j => ∃ kj tj, info a !! j = Some (kj, tj) ∧ lv = leaf_remove (tj, j) (leaves p)
    | None => lv = leaves p
    end) as (lv & -> & Hlv).
  { unfold last_of in E. destruct (last (chain_of a s)) as [j|] eqn:El; [|injection E as <-; eauto].
    destruct (session_tail _ _ _ _ R El) as (nd & Hn & Hj).
    unfold vec_get. rewrite (filled_out _ _ _ _ _ _ F), Hn by congruence. simpl. rewrite E. simpl.
    eexists. split; [done|]. eauto. }
  simpl. exists i. eexists. split; [done|]. split; [done|]. split; [|done].
  destruct (push_leaves _ _ _ _ k (tick p) _ R Hi Hlv) as [Hsort Hm].
  split; simpl; try done.
  - apply wf_push; [apply R|done..].
  - intros s'. destruct (decide (s = s')) as [<-|].
    + rewrite !lookup_insert_eq. simpl. by rewrite last_snoc.
    + rewrite !lookup_insert_ne by done. apply R.
  - intros k' j. rewrite lookup_insert_Some, (rep_by_key _ _ R).
    destruct (decide (i = j)) as [<-|]; [rewrite lookup_insert_eq, Hi|rewrite lookup_insert_ne by done];
      naive_solver.
  - intros j. rewrite HL, (filled_free _ _ _ _ _ _ F), lookup_insert_None. naive_solver.
  - apply F.
  - intros j k' u. rewrite lookup_insert_Some. unfold tick.
    intros [[_ ?]|[_ H]]; [simplify_eq; lia|]. pose proof (rep_clock _ _ R _ _ _ H). lia.
  - rewrite map_size_insert, Hi, (rep_len _ _ R). done.
Qed.

Lemma relinked_mono ns ns' d d' : relinked ns ns' d → d ⊆ d' → relinked ns ns' d'.
Proof. intros [L E O] Hd. split; [done..|]. intros i Hi. apply O. set_solver. Qed.

(** The two links around a node are redirected past it. *)
Lemma splice_spec ns s c1 i c2 :
  linked ns s None (c1 ++ i :: c2) None → NoDup (c1 ++ i :: c2) →
  ∃ ns1 ns2,
    match first_of c2 None with
    | Some c => set_parent ns c (last_of None c1) | None => Ret ns end = Ret ns1 ∧
    match last_of None c1 with
    | Some p => set_child ns1 p (first_of c2 None) | None => Ret ns1 end = Ret ns2 ∧
    linked ns2 s None (c1 ++ c2) None ∧ relinked ns ns2 (c2 ++ c1).
Proof.
  intros (H1 & _ & H2)%linked_app (N1 & N12 & [_ N2]%NoDup_cons)%NoDup_app.
  destruct (set_parent_first _ _ _ _ (last_of None c1) H2 N2) as (ns1 & E1 & H2' & R1).
  assert (relinked ns ns1 c2) as R1' by (eapply relinked_mono; [done|]; destruct c2; set_solver).
  assert (linked ns1 s None c1 (Some i)) as H1' by (eapply relinked_frame; [done..|set_solver]).
  destruct (set_child_last _ _ _ _ (first_of c2 None) H1' N1) as (ns2 & E2 & H1'' & R2).
  assert (relinked ns1 ns2 c1) as R2'.
  { eapply relinked_mono; [done|]. destruct (last c1) eqn:El; [|set_solver].
    apply last_Some_elem_of in El. set_solver. }
  exists ns1, ns2. split_and!; [done..| |by eapply relinked_trans].
  apply linked_app. split; [done|]. eapply relinked_frame; [done..|set_solver].
Qed.

Lemma abs_remove_lookup a i s c1 c2 s' :
  wf a → chains a !! s = Some (c1 ++ i :: c2) →
  chains (abs_remove a i) !! s' =
  if decide (s' = s) then match c1 ++ c2 with [] => None | c => Some c end else chains a !! s'.
Proof.
  intros W Hc. simpl. rewrite lookup_omap. case_decide as Hs.
  - subst s'. rewrite Hc. simpl. apply drop_handle_mid. by eapply wf_nodup.
  - destruct (chains a !! s') as [c|] eqn:E; [|done]. simpl.
    apply drop_handle_notin; [by eapply wf_nonempty|]. intros Hin. apply Hs.
    apply (wf_disjoint _ W s' s c (c1 ++ i :: c2) i); [done..|set_solver].
Qed.

Lemma last_app_cons {A} (c1 : list A) x c2 : last (c1 ++ x :: c2) = last (x :: c2).
Proof. rewrite last_app. destruct (last (x :: c2)) eqn:E; [done|]. by apply last_None in E. Qed.

Lemma remove_leaf a s c1 i c2 x :
  wf a → chains a !! s = Some (c1 ++ i :: c2) →
  is_leaf (abs_remove a i) x ↔ x ≠ i ∧ (is_leaf a x ∨ c2 = [] ∧ last c1 = Some x).
Proof.
  intros W Hc. pose proof (wf_nodup _ W _ _ Hc) as N. split.
  - intros (s' & c & Hc' & Hl). rewrite (abs_remove_lookup _ _ _ _ _ _ W Hc) in Hc'.
    case_decide as Hs.
    + subst s'. assert (c = c1 ++ c2) as -> by (destruct (c1 ++ c2); naive_solver).
      split; [intros ->; rewrite <- Permutation_middle in N; apply NoDup_cons in N as [N _];
              by apply N, last_Some_elem_of|].
      destruct c2 as [|j c2]; [right; by rewrite app_nil_r in Hl|]. left.
      exists s, (c1 ++ i :: j :: c2). split; [done|]. by rewrite last_app_cons in *.
    + split; [|left; by exists s', c]. intros ->. apply Hs.
      apply (wf_disjoint _ W s' s c (c1 ++ i :: c2) i); [done..| |set_solver].
      by apply last_Some_elem_of.
  - intros [Hx [(s' & c & Hc' & Hl)|[-> Hl]]].
    + destruct (decide (s' = s)) as [->|Hs].
      * rewrite Hc in Hc'. injection Hc' as <-. exists s, (c1 ++ c2).
        rewrite (abs_remove_lookup _ _ _ _ _ _ W Hc), decide_True by done.
        destruct c2 as [|j c2]; [rewrite last_snoc in Hl; congruence|].
        rewrite last_app_cons in *. split; [by destruct c1|done].
      * exists s', c. by rewrite (abs_remove_lookup _ _ _ _ _ _ W Hc), decide_False.
    + exists s, c1. rewrite (abs_remove_lookup _ _ _ _ _ _ W Hc), decide_True, app_nil_r by done.
      by destruct c1.
Qed.

(** The leaves and the session table after [i] left its chain. *)
Lemma remove_leaves p a s c1 i c2 k t lv ss :
  rep p a → info a !! i = Some (k, t) → chains a !! s = Some (c1 ++ i :: c2) →
  match first_of c2 None, last_of None c1 with
  | Some _, _ => lv = leaves p ∧ ss = sessions p
  | None, Some j => ∃ kj tj, info a !! j = Some (kj, tj) ∧
      lv = leaf_insert (tj, j) (leaf_remove (t, i) (leaves p)) ∧ ss = <[s := j]> (sessions p)
  | None, None => lv = leaf_remove (t, i) (leaves p) ∧ ss = delete s (sessions p)
  end →
  sorted lv ∧
  (∀ u x, (u, x) ∈ lv ↔ is_leaf (abs_remove a i) x ∧ ∃ k', info (abs_remove a i) !! x = Some (k', u)) ∧
  ∀ s', ss !! s' = chains (abs_remove a i) !! s' ≫= last.
Proof.
  intros R Hi Hc Hlv. pose proof (rep_wf _ _ R) as W.
  pose proof (leaf_last _ _ _ _ _ W Hc) as HL.
  pose proof (λ x, remove_leaf _ _ _ _ _ x W Hc) as HR.
  pose proof (λ s', abs_remove_lookup _ _ _ _ _ s' W Hc) as HC.
  pose proof (wf_nodup _ W _ _ Hc) as N.
  assert (∀ u x, x ≠ i → info (abs_remove a i) !! x = Some u ↔ info a !! x = Some u) as Hne.
  { intros u x Hx. simpl. by rewrite lookup_delete_ne. }
  unfold last_of in Hlv. destruct c2 as [|j c2]; simpl in Hlv; [destruct (last c1) as [j|] eqn:El|].
  - destruct Hlv as (kj & tj & Hj & -> & ->). assert (j ≠ i) as Hji.
    { intros ->. apply NoDup_app in N as (_ & N & _). apply (N i); [by apply last_Some_elem_of|set_solver]. }
    split_and!; [apply leaf_insert_sorted, leaf_remove_sorted, R| |].
    + intros u x. rewrite leaf_insert_elem, leaf_remove_elem, (rep_leaves _ _ R), HR.
      destruct (decide (x = i)) as [->|]; [naive_solver|]. setoid_rewrite Hne; [|done].
      destruct (decide (x = j)) as [->|]; naive_solver.
    + intros s'. rewrite HC. case_decide as Hs.
      * subst s'. rewrite lookup_insert_eq, app_nil_r. by destruct c1.
      * rewrite lookup_insert_ne by done. apply R.
  - destruct Hlv as [-> ->]. apply last_None in El as ->.
    split_and!; [apply leaf_remove_sorted, R| |].
    + intros u x. rewrite leaf_remove_elem, (rep_leaves _ _ R), HR.
      destruct (decide (x = i)) as [->|]; [naive_solver|]. setoid_rewrite Hne; [|done]. naive_solver.
    + intros s'. rewrite HC. case_decide as Hs; [subst s'; by rewrite lookup_delete_eq|].
      rewrite lookup_delete_ne by done. apply R.
  - destruct Hlv as [-> ->]. split_and!; [apply R| |].
    + intros u x. rewrite (rep_leaves _ _ R), HR.
      destruct (decide (x = i)) as [->|]; [naive_solver|]. setoid_rewrite Hne; [|done]. naive_solver.
    + intros s'. rewrite HC. case_decide as Hs; [|apply R]. subst s'.
      rewrite (rep_sessions _ _ R), Hc. simpl.
      transitivity (last (c1 ++ j :: c2)); [by rewrite !last_app_cons|by destruct c1].
Qed.

Lemma retire_spec ns i nd :
  ns !! i = Some nd →
  ∃ ns', retire ns i = Ret ns' ∧ length ns' = length ns ∧ ns' !! i ≫= entry = None ∧
         ∀ j, j ≠ i → ns' !! j = ns !! j.
Proof.
  intros Hi. unfold retire, vec_get. rewrite Hi. simpl. apply lookup_lt_Some in Hi as Hlt.
  rewrite vec_set_Ret by done. eexists. split_and!; [done|apply length_insert| |].
  - by rewrite list_lookup_insert_eq.
  - intros j Hj. by apply list_lookup_insert_ne.
Qed.

(** The arena after [i] was spliced out and retired. *)
Lemma unlink_nodes p a s c1 i c2 k t :
  rep p a → info a !! i = Some (k, t) → chains a !! s = Some (c1 ++ i :: c2) →
  ∃ ns1 ns2 ns3,
    match first_of c2 None with
    | Some c => set_parent (nodes p) c (last_of None c1) | None => Ret (nodes p) end = Ret ns1 ∧
    match last_of None c1 with
    | Some p => set_child ns1 p (first_of c2 None) | None => Ret ns1 end = Ret ns2 ∧
    retire ns2 i = Ret ns3 ∧ length ns3 = length (nodes p) ∧
    (∀ j, ns2 !! j ≫= entry = info a !! j) ∧
    (∀ j, ns3 !! j ≫= entry = info (abs_remove a i) !! j) ∧
    ∀ s' c, chains (abs_remove a i) !! s' = Some c → linked ns3 s' None c None.
Proof.
  intros R Hi Hc. pose proof (rep_wf _ _ R) as W. pose proof (wf_nodup _ W _ _ Hc) as N.
  destruct (splice_spec _ _ _ _ _ (rep_links _ _ R _ _ Hc) N) as (ns1 & ns2 & E1 & E2 & Hl & Rl).
  assert (∀ j, ns2 !! j ≫= entry = info a !! j) as He.
  { intros j. rewrite (relinked_entry _ _ _ Rl). apply R. }
  destruct (ns2 !! i) as [nd|] eqn:Hn; [|specialize (He i); rewrite Hn, Hi in He; done].
  destruct (retire_spec _ _ _ Hn) as (ns3 & E3 & HL & H3i & H3).
  exists ns1, ns2, ns3. split_and!; [done..| |done| |].
  - rewrite HL. apply Rl.
  - intros j. simpl. destruct (decide (j = i)) as [->|Hj]; [by rewrite lookup_delete_eq|].
    rewrite H3, lookup_delete_ne by done. apply He.
  - intros s' c Hc'. rewrite (abs_remove_lookup _ _ _ _ _ _ W Hc) in Hc'. case_decide as Hs.
    + subst s'. assert (c = c1 ++ c2) as -> by (destruct (c1 ++ c2); naive_solver).
      eapply linked_frame; [done|]. intros j Hj. rewrite H3; [done|]. intros ->.
      rewrite <- Permutation_middle in N. by apply NoDup_cons in N as [N _].
    + assert (∀ j, j ∈ c → j ∉ c1 ++ i :: c2) as Hout.
      { intros j Hj Hj'. apply Hs. by apply (wf_disjoint _ W s' s c (c1 ++ i :: c2) j). }
      eapply linked_frame; [by apply R|]. intros j Hj. specialize (Hout j Hj).
      rewrite H3 by set_solver. apply Rl. set_solver.
Qed.

(** The leaves and the session table [unlink] computes. *)
Lemma unlink_leaves p a s c1 i c2 t ns2 :
  wf a → chains a !! s = Some (c1 ++ i :: c2) → (∀ j, ns2 !! j ≫= entry = info a !! j) →
  ∃ lv ss,
    match first_of c2 None with
    | Some _ => Ret (leaves p, sessions p)
    | None =>
        match last_of None c1 with
        | Some p0 => ndp ← vec_get ns2 p0;
            Ret (leaf_insert (stamp ndp, p0) (leaf_remove (t, i) (leaves p)), <[s := p0]> (sessions p))
        | None => Ret (leaf_remove (t, i) (leaves p), delete s (sessions p))
        end
    end = Ret (lv, ss) ∧
    match first_of c2 None, last_of None c1 with
    | Some _, _ => lv = leaves p ∧ ss = sessions p
    | None, Some j => ∃ kj tj, info a !! j = Some (kj, tj) ∧
        lv = leaf_insert (tj, j) (leaf_remove (t, i) (leaves p)) ∧ ss = <[s := j]> (sessions p)
    | None, None => lv = leaf_remove (t, i) (leaves p) ∧ ss = delete s (sessions p)
    end.
Proof.
  intros W Hc He2. destruct (first_of c2 None); [by do 2 eexists|].
  unfold last_of in *. destruct (last c1) as [j|] eqn:El; [|by do 2 eexists].
  destruct (proj2 (wf_dom _ W j)) as [[kj tj] Hj].
  { exists s, (c1 ++ i :: c2). apply last_Some_elem_of in El. split; [done|set_solver]. }
  specialize (He2 j). rewrite Hj in He2. unfold vec_get.
  destruct (ns2 !! j) as [nd|]; [|done]. simpl in *. unfold entry in He2.
  destruct (active nd); [|done]. injection He2 as <- <-. do 2 eexists. split; [done|].
  do 2 eexists. done.
Qed.

Lemma unlink_node_spec p a i k t :
  rep p a → info a !! i = Some (k, t) →
  ∃ p', unlink p i = Ret (k, p') ∧ rep p' (abs_remove a i) ∧ clock p' = clock p.
Proof.
  intros R Hi. pose proof (rep_wf _ _ R) as W.
  destruct (rep_at _ _ _ _ _ R Hi) as (s & c1 & c2 & Hc & N & Hn).
  destruct (unlink_nodes _ _ _ _ _ _ _ _ R Hi Hc) as (ns1 & ns2 & ns3 & E1 & E2 & E3 & HL & He2 & He & Hl).
  unfold unlink. rewrite (proj2 (vec_get_Ret _ _ _) Hn). simpl. rewrite E1. simpl. rewrite E2. simpl.
  destruct (unlink_leaves p a s c1 i c2 t ns2 W Hc He2) as (lv & ss & -> & Hlv).
  simpl. rewrite E3. simpl.
  destruct (remove_leaves _ _ _ _ _ _ _ _ _ _ R Hi Hc Hlv) as (Hs & Hm & Hss).
  assert (size (info a) = S (size (delete i (info a)))) as Hsz.
  { rewrite map_size_delete, Hi. simpl. assert (size (info a) ≠ 0); [|lia].
    intros E%map_size_empty_inv. by rewrite E in Hi. }
  rewrite (rep_len _ _ R), Hsz. simpl. eexists. split; [done|]. split; [|done].
  split; simpl; try done.
  - by apply wf_remove.
  - intros k' j. rewrite lookup_delete_Some, (rep_by_key _ _ R). setoid_rewrite lookup_delete_Some.
    split; [|intros (u & Hne & Hj); split; [|eauto]].
    + intros [Hk [u Hj]]. exists u. split; [|done]. congruence.
    + intros ->. apply Hne. by eapply (wf_keys _ W).
  - intros j. rewrite HL, elem_of_app, list_elem_of_singleton, lookup_delete_None, (rep_free _ _ R).
    apply lookup_lt_Some in Hn. naive_solver.
  - apply NoDup_app. split_and!; [apply R| |apply NoDup_singleton].
    intros j [_ Hj]%(rep_free _ _ R) ->%list_elem_of_singleton. congruence.
  - intros j k' u [_ H]%lookup_delete_Some. by apply (rep_clock _ _ R _ _ _ H).
Qed.

Lemma rep_new_pool : rep new (mkLists ∅ ∅).
Proof.
  split; simpl; try done; [split; simpl|..]; try (intros; by rewrite lookup_empty in * ).
  - intros i. rewrite lookup_empty. split; [by intros []|].
    intros (s & c & H & _). by rewrite lookup_empty in H.
  - intros t i. rewrite elem_of_nil. split; [done|]. intros [(s & c & H & _) _].
    simpl in H. by rewrite lookup_empty in H.
  - constructor.
  - intros k i. rewrite lookup_empty. split; [done|]. intros [t H]. by rewrite lookup_empty in H.
  - intros i. rewrite elem_of_nil. split; [done|lia].
  - constructor.
Qed.

(** * What a pool of sessions promises *)

(** The stamp [t] is later than every access so far. *)
Definition newest (a : lists) (t : Z) : Prop :=
  ∀ i k u, info a !! i = Some (k, u) → (u < t)%Z.

(** [i] is the leaf that was accessed longest ago. *)
Definition oldest_leaf (a : lists) (i : nat) (k t : Z) : Prop :=
  is_leaf a i ∧ info a !! i = Some (k, t) ∧
  ∀ j kj tj, is_leaf a j → info a !! j = Some (kj, tj) → (t ≤ tj)%Z.

(** [ks] are the keys of the [n] leaves accessed longest ago, in that order. *)
Definition oldest_leaves (a : lists) (n : nat) (ks : list Z) : Prop :=
  ∃ es, sorted es ∧ length es ≤ n ∧
    Forall2 (λ e k, is_leaf a e.2 ∧ info a !! e.2 = Some (k, e.1)) es ks ∧
    ∀ j k t, is_leaf a j → info a !! j = Some (k, t) →
      (t, j) ∈ es ∨ length es = n ∧ ∀ e, e ∈ es → leaf_ltb e (t, j) = true.

Inductive op :=
| Register (k s : Z)
| Touch (i : nat)
| Remove (i : nat)
| Evict
| Candidates (n : nat)
| Clear.

Inductive out := OHandle (i : nat) | OValid (b : bool) | OKey (k : option Z) | OKeys (ks : list Z) | ODone.

Inductive spec (a : lists) : op → out → lists → Prop :=
| spec_register_new k s i t :
    (∀ j u, info a !! j ≠ Some (k, u)) → info a !! i = None → newest a t →
    spec a (Register k s) (OHandle i) (abs_push a s i k t)
| spec_register_again k s i u t :
    info a !! i = Some (k, u) → newest a t →
    spec a (Register k s) (OHandle i) (abs_touch a i k t)
| spec_touch i k u t :
    info a !! i = Some (k, u) → newest a t →
    spec a (Touch i) (OValid true) (abs_touch a i k t)
| spec_touch_stale i : info a !! i = None → spec a (Touch i) (OValid false) a
| spec_remove i : is_Some (info a !! i) → spec a (Remove i) (OValid true) (abs_remove a i)
| spec_remove_stale i : info a !! i = None → spec a (Remove i) (OValid false) a
| spec_evict i k t : oldest_leaf a i k t → spec a Evict (OKey (Some k)) (abs_remove a i)
| spec_evict_empty : info a = ∅ → spec a Evict (OKey None) a
| spec_candidates n ks : oldest_leaves a n ks → spec a (Candidates n) (OKeys ks) a
| spec_clear : spec a Clear ODone (mkLists ∅ ∅).

(** A method call on the arena. *)
Definition exec (p : Pool) (o : op) : outcome (out * Pool) :=
  match o with
  | Register k s => '(i, p) ← register p k s; Ret (OHandle i, p)
  | Touch i => '(b, p) ← touch p i; Ret (OValid b, p)
  | Remove i => '(b, p) ← remove p i; Ret (OValid b, p)
  | Evict => '(k, p) ← evict_oldest p; Ret (OKey k, p)
  | Candidates n => ks ← candidates p n; Ret (OKeys ks, p)
  | Clear => Ret (ODone, clear p)
  end.

Lemma tick_newest p a : rep p a → newest a (tick p).
Proof. intros R i k u H. pose proof (rep_clock _ _ R _ _ _ H). unfold tick. lia. Qed.

Lemma register_spec p a k s :
  rep p a → (Z.of_nat (size (info a)) < 2 ^ 32)%Z →
  ∃ i p' a', register p k s = Ret (i, p') ∧ spec a (Register k s) (OHandle i) a' ∧ rep p' a'.
Proof.
  intros R Hs. pose proof (tick_newest _ _ R) as T. destruct (by_key p !! k) as [i|] eqn:Ek.
  - apply (rep_by_key _ _ R) in Ek as Ek'. destruct Ek' as [u Hi].
    destruct (touch_spec _ _ _ _ _ R Hi) as (p' & E & R' & _).
    exists i, p', (abs_touch a i k (tick p)). unfold register. rewrite Ek, E.
    split_and!; [done| |done]. by eapply spec_register_again.
  - assert (∀ i t, info a !! i ≠ Some (k, t)) as Hk.
    { intros i t Hi. assert (by_key p !! k = Some i) as H by (apply (rep_by_key _ _ R); eauto).
      congruence. }
    destruct (register_fresh _ _ _ s R Hk Hs) as (i & p' & E & Hi & R' & _).
    exists i, p', (abs_push a s i k (tick p)). split_and!; [done| |done].
    by apply spec_register_new.
Qed.

Lemma remove_node_spec p a i :
  rep p a →
  ∃ b p' a', remove p i = Ret (b, p') ∧ spec a (Remove i) (OValid b) a' ∧ rep p' a'.
Proof.
  intros R. unfold remove. rewrite (rep_is_active _ _ _ R).
  destruct (info a !! i) as [[k t]|] eqn:Hi.
  - destruct (unlink_node_spec _ _ _ _ _ R Hi) as (p' & E & R' & _).
    rewrite bool_decide_true by eauto. simpl. rewrite E. simpl.
    do 3 eexists. split_and!; [done| |done]. apply spec_remove. eauto.
  - simpl. do 3 eexists. split_and!; [done| |done]. by apply spec_remove_stale.
Qed.

Lemma no_leaves p a : rep p a → leaves p = [] → info a = ∅.
Proof.
  intros R E. pose proof (rep_wf _ _ R) as W. apply map_empty. intros i.
  destruct (info a !! i) as [x|] eqn:Hi; [exfalso|done].
  destruct (proj1 (wf_dom _ W i)) as (s & c & Hc & _); [eauto|].
  destruct (last c) as [j|] eqn:El; [|by apply last_None in El; eapply (wf_nonempty _ W)].
  destruct (proj2 (wf_dom _ W j)) as [[k t] Hj].
  { exists s, c. split; [done|]. by apply last_Some_elem_of. }
  assert ((t, j) ∈ leaves p) as H; [|rewrite E in H; set_solver].
  apply (rep_leaves _ _ R). split; [by exists s, c|eauto].
Qed.

Lemma evict_oldest_spec p a :
  rep p a →
  (info a = ∅ ∧ evict_oldest p = Ret (None, p)) ∨
  ∃ i k t p', evict_oldest p = Ret (Some k, p') ∧ oldest_leaf a i k t ∧ rep p' (abs_remove a i).
Proof.
  intros R. unfold evict_oldest. destruct (leaves p) as [|[t i] lv] eqn:E.
  { left. split; [|done]. by eapply no_leaves. }
  right. destruct (proj1 (rep_leaves _ _ R t i)) as [Hl [k Hi]]; [rewrite E; set_solver|].
  destruct (unlink_node_spec _ _ _ _ _ R Hi) as (p' & -> & R' & _). simpl.
  exists i, k, t, p'. split_and!; [done| |done]. split_and!; [done..|].
  intros j kj tj Hj Hi'. assert ((tj, j) ∈ leaves p) as Hin by (apply (rep_leaves _ _ R); eauto).
  pose proof (rep_sorted _ _ R) as Hs. rewrite E in Hin, Hs. inversion_clear Hs as [|? ? _ Hf].
  apply elem_of_cons in Hin as [[= -> ->]|Hin]; [lia|].
  rewrite Forall_forall in Hf. specialize (Hf _ Hin). apply leaf_ltb_spec in Hf. simpl in Hf. lia.
Qed.

Lemma sorted_app_lt es fs x y : sorted (es ++ fs) → x ∈ es → y ∈ fs → leaf_ltb x y = true.
Proof.
  induction es as [|e es IH]; simpl; [set_solver|]. inversion_clear 1 as [|? ? Hs Hf].
  rewrite Forall_app, !Forall_forall in Hf. intros [->|Hx]%elem_of_cons Hy; [by apply Hf|].
  by apply IH.
Qed.

Lemma sorted_take n es : sorted es → sorted (take n es).
Proof.
  intros Hs. revert n. induction Hs as [|e es Hs IH Hf]; intros [|n]; simpl; try constructor.
  - apply IH.
  - by apply Forall_take.
Qed.

Lemma candidates_spec p a n : rep p a → ∃ ks, candidates p n = Ret ks ∧ oldest_leaves a n ks.
Proof.
  intros R. set (es := take n (leaves p)).
  assert (∃ ks, candidates p n = Ret ks ∧
    Forall2 (λ e k, is_leaf a e.2 ∧ info a !! e.2 = Some (k, e.1)) es ks) as (ks & E & HF).
  { unfold candidates. fold es.
    assert (∀ e, e ∈ es → e ∈ leaves p) as Hsub by (intros e; apply subseteq_take).
    clearbody es. induction es as [|[t i] es IH]; [by exists []|].
    destruct IH as (ks & E & HF); [set_solver|].
    destruct (proj1 (rep_leaves _ _ R t i)) as [Hl [k Hi]]; [apply Hsub; set_solver|].
    destruct (rep_at _ _ _ _ _ R Hi) as (s & c1 & c2 & _ & _ & Hn).
    exists (k :: ks). simpl. rewrite (proj2 (vec_get_Ret _ _ _) Hn). simpl. rewrite E. simpl.
    split; [done|]. by constructor. }
  exists ks. split; [done|]. exists es. split_and!; [apply sorted_take, R|unfold es; rewrite length_take; lia|done|].
  intros j k t Hj Hi. assert ((t, j) ∈ leaves p) as Hin by (apply (rep_leaves _ _ R); eauto).
  pose proof (rep_sorted _ _ R) as Hs. rewrite <- (take_drop n (leaves p)) in Hin, Hs.
  apply elem_of_app in Hin as [Hin|Hin]; [by left|]. right. split.
  - unfold es. rewrite length_take. destruct (decide (n ≤ length (leaves p))); [lia|].
    rewrite drop_ge in Hin by lia. set_solver.
  - intros e He. by eapply sorted_app_lt.
Qed.

Lemma exec_spec p a o :
  rep p a → (Z.of_nat (size (info a)) < 2 ^ 32)%Z →
  ∃ r p' a', exec p o = Ret (r, p') ∧ spec a o r a' ∧ rep p' a'.
Proof.
  intros R Hs. pose proof (tick_newest _ _ R) as T. destruct o as [k s|i|i| |n|]; simpl.
  - destruct (register_spec _ _ k s R Hs) as (i & p' & a' & -> & ? & ?). eauto 10.
  - destruct (info a !! i) as [[k t]|] eqn:Hi.
    + destruct (touch_spec _ _ _ _ _ R Hi) as (p' & -> & R' & _). simpl.
      do 3 eexists. split_and!; [done| |done]. by eapply spec_touch.
    + rewrite (touch_invalid _ _ _ R Hi). simpl. do 3 eexists. split_and!; [done| |done].
      by apply spec_touch_stale.
  - destruct (remove_node_spec _ _ i R) as (b & p' & a' & -> & ? & ?). eauto 10.
  - destruct (evict_oldest_spec _ _ R) as [[Hi ->]|(i & k & t & p' & -> & Ho & R')]; simpl.
    + do 3 eexists. split_and!; [done| |done]. by apply spec_evict_empty.
    + do 3 eexists. split_and!; [done| |done]. by eapply spec_evict.
  - destruct (candidates_spec _ _ n R) as (ks & -> & Ho). simpl.
    do 3 eexists. split_and!; [done| |done]. by apply spec_candidates.
  - do 3 eexists. split_and!; [done|apply spec_clear|apply rep_new_pool].
Qed.

(** ** Lineage *)

(** [i] is an ancestor of [j]: both are blocks of one session, [i] registered first. *)
Definition ancestor (a : lists) (i j : nat) : Prop :=
  ∃ s c1 c2 c3, chains a !! s = Some (c1 ++ i :: c2 ++ j :: c3).

Lemma ancestor_not_leaf a i j : wf a → ancestor a i j → ¬ is_leaf a i.
Proof.
  intros W (s & c1 & c2 & c3 & Hc) Hl. apply (leaf_last _ _ _ _ _ W Hc) in Hl.
  by destruct c2.
Qed.

Lemma ancestor_touch a i j x k t : ancestor a i j → ancestor (abs_touch a x k t) i j.
Proof. done. Qed.

Lemma ancestor_push a i j s x k t : ancestor a i j → ancestor (abs_push a s x k t) i j.
Proof.
  intros (s' & c1 & c2 & c3 & Hc). destruct (decide (s' = s)) as [->|].
  - exists s, c1, c2, (c3 ++ [x]). simpl. rewrite lookup_insert_eq, Hc. simpl.
    by rewrite <- !app_assoc, <- !app_comm_cons, <- app_assoc.
  - exists s', c1, c2, c3. simpl. by rewrite lookup_insert_ne.
Qed.

Lemma ancestor_remove a i j x :
  x ≠ i → x ≠ j → ancestor a i j → ancestor (abs_remove a x) i j.
Proof.
  intros Hi Hj (s & c1 & c2 & c3 & Hc).
  exists s, (filter (λ y, y ≠ x) c1), (filter (λ y, y ≠ x) c2), (filter (λ y, y ≠ x) c3).
  simpl. rewrite lookup_omap, Hc. simpl. unfold drop_handle.
  rewrite filter_app, filter_cons_True, filter_app, filter_cons_True by done.
  by destruct (filter _ c1).
Qed.

(** A step of the pool keeps an ancestor in front of its descendant, until
    the ancestor is removed by its handle or the descendant is gone. *)
Lemma spec_ancestor a o r a' i j :
  wf a → spec a o r a' → ancestor a i j → o ≠ Remove i → o ≠ Clear →
  ancestor a' i j ∨ info a' !! j = None.
Proof.
  intros W Hs Ha HR HC.
  assert (∀ x, x ≠ i → ancestor (abs_remove a x) i j ∨ info (abs_remove a x) !! j = None) as Hrem.
  { intros x Hx. destruct (decide (x = j)) as [->|]; [right; apply lookup_delete_eq|].
    left. by apply ancestor_remove. }
  destruct Hs; try (by left); try (left; by apply ancestor_push || by apply ancestor_touch).
  - apply Hrem. by intros ->.
  - apply Hrem. intros ->. destruct H as [Hl _]. by apply (ancestor_not_leaf _ _ _ W Ha) in Hl.
Qed.

(** * The pool as a policy *)

Definition node_key (nd : Node) : option Z := if active nd then Some (key nd) else None.

(** The entries of a pool, from handle to key. *)
Definition entries (p : Pool) : gmap nat Z := omap node_key (map_seq 0 (nodes p)).

Definition sl_ok (p : Pool) : Prop := ∃ a, rep p a.

Lemma entries_rep p a : rep p a → entries p = fst <$> info a.
Proof.
  intros R. apply map_eq. intros i. unfold entries.
  rewrite lookup_omap, lookup_map_seq_0, lookup_fmap, <- (rep_info _ _ R).
  destruct (nodes p !! i) as [nd|]; [|done]. simpl. unfold node_key, entry. by destruct (active nd).
Qed.

#[global] Instance session_pool : PoolOps Pool := {
  pool_new := new;
  pool_track p k sem := register p k (session_id sem);
  pool_touch := touch;
  pool_remove := remove;
  pool_evict := evict_oldest;
  pool_candidates := candidates;
  pool_size := len;
  pool_clear := clear
}.

#[global, refine] Instance session_pool_laws : PoolLaws Pool := {
  pool_ok := sl_ok;
  entries_of := entries
}.
Proof.
  - split; [eexists; apply rep_new_pool|done].
  - intros p k sem [a R]. rewrite (entries_rep _ _ R), map_size_fmap. intros Hk Hs.
    destruct (register_fresh _ _ k (session_id sem) R) as (i & p' & E & Hi & R' & _); [|done|].
    { intros i t Hi. apply (Hk i). by rewrite lookup_fmap, Hi. }
    exists i, p'. rewrite lookup_fmap, Hi, (entries_rep _ _ R'). simpl.
    rewrite fmap_insert. split_and!; [done|by eexists|done..].
  - intros p i k [a R]. rewrite (entries_rep _ _ R), lookup_fmap.
    intros ([k' t] & Hi & ->)%fmap_Some. destruct (touch_spec _ _ _ _ _ R Hi) as (p' & E & R' & _).
    exists p'. rewrite (entries_rep _ _ R'). split_and!; [done|by eexists|]. simpl.
    rewrite fmap_insert. apply insert_id. by rewrite lookup_fmap, Hi.
  - intros p i k [a R]. rewrite (entries_rep _ _ R), lookup_fmap.
    intros ([k' t] & Hi & ->)%fmap_Some. destruct (unlink_node_spec _ _ _ _ _ R Hi) as (p' & E & R' & _).
    exists p'. rewrite (entries_rep _ _ R'). simpl. unfold remove.
    rewrite (rep_is_active _ _ _ R), bool_decide_true by eauto. simpl. rewrite E, fmap_delete.
    split_and!; [done|by eexists|done].
  - intros p [a R]. rewrite (entries_rep _ _ R). intros E%fmap_empty_inv.
    destruct (evict_oldest_spec _ _ R) as [[_ ?]|(i & k & t & p' & _ & (_ & Hi & _) & _)]; [done|].
    by rewrite E in Hi.
  - intros p [a R]. rewrite (entries_rep _ _ R). intros Hne.
    destruct (evict_oldest_spec _ _ R) as [[E _]|(i & k & t & p' & E & (_ & Hi & _) & R')].
    { by rewrite E in Hne. }
    exists i, k, p'. rewrite lookup_fmap, Hi, (entries_rep _ _ R'). simpl.
    rewrite fmap_delete. split_and!; [done|by eexists|done..].
  - intros p n [a R]. rewrite (entries_rep _ _ R).
    destruct (candidates_spec _ _ n R) as (ks & E & es & _ & Hn & HF & _).
    exists ks. split_and!; [done|by rewrite <- (Forall2_length _ _ _ HF)|].
    intros k Hk. apply list_elem_of_lookup in Hk as [x Hx].
    destruct (Forall2_lookup_r _ _ _ _ _ HF Hx) as (e & _ & _ & Hi).
    exists e.2. by rewrite lookup_fmap, Hi.
  - intros p _. split; [eexists; apply rep_new_pool|done].
Defined.

(** A block that has a descendant stays tracked, under the same key. *)
Lemma spec_keeps a o r a' i k t :
  spec a o r a' → info a !! i = Some (k, t) → ¬ is_leaf a i → o ≠ Remove i → o ≠ Clear →
  ∃ t', info a' !! i = Some (k, t').
Proof.
  intros Hs Hi Hl HR HC.
  destruct Hs as [k' s x t' _ Hx _|k' s x u t' Hx _|x k' u t' Hx _|x _|x _|x _|x k' t' [Hx _]| | |];
    simpl; eauto; try done.
  - exists t. rewrite lookup_insert_ne; [done|]. congruence.
  - destruct (decide (x = i)) as [->|]; [|rewrite lookup_insert_ne by done; eauto].
    rewrite lookup_insert_eq. replace k' with k by congruence. eauto.
  - destruct (decide (x = i)) as [->|]; [|rewrite lookup_insert_ne by done; eauto].
    rewrite lookup_insert_eq. replace k' with k by congruence. eauto.
  - exists t. rewrite lookup_delete_ne; [done|]. by intros ->.
  - exists t. rewrite lookup_delete_ne; [done|]. by intros ->.
Qed.

(** * Properties *)

(** C28. The arena refines the chains: on a sound pool that is not full, every
    operation returns (no index is out of range, no count underflows) and does
    what the chains say. Registering a new key chains it behind its session's
    last block, registering a tracked key only refreshes it, a stale handle is
    answered with [false] and changes nothing, removal splices one block out of
    its chain, eviction takes the leaf accessed longest ago, and the candidates
    are the oldest leaves in eviction order. *)
Theorem session_lists_refine p a o :
  rep p a → (Z.of_nat (size (info a)) < 2 ^ 32)%Z →
  ∃ r p' a', exec p o = Ret (r, p') ∧ spec a o r a' ∧ rep p' a'.
Proof. apply exec_spec. Qed.

(** C40. Lineage is protected: while a block has a descendant in its session, no
    operation but its own removal or the clearing of the pool makes the policy
    forget it, and it stays in front of that descendant for as long as the
    descendant is tracked. Eviction in particular never takes an ancestor. *)
Theorem session_ancestor_protected p a i j k t o :
  rep p a → (Z.of_nat (size (info a)) < 2 ^ 32)%Z →
  info a !! i = Some (k, t) → ancestor a i j → o ≠ Remove i → o ≠ Clear →
  ∃ r p' a', exec p o = Ret (r, p') ∧ rep p' a' ∧ (∃ t', info a' !! i = Some (k, t')) ∧
    (ancestor a' i j ∨ info a' !! j = None).
Proof.
  intros R Hs Hi Ha HR HC. destruct (exec_spec p a o R Hs) as (r & p' & a' & E & S & R').
  exists r, p', a'. pose proof (rep_wf _ _ R) as W. split_and!; [done..| |].
  - eapply spec_keeps; [done..| |done|done]. by eapply ancestor_not_leaf.
  - by eapply spec_ancestor.
Qed.

(** Plain LRU is a special case: when every block has a session of its own,
    eviction takes the block that was accessed longest ago in the whole pool. *)
Theorem distinct_sessions_lru p a :
  rep p a → (∀ s c, chains a !! s = Some c → length c = 1) → info a ≠ ∅ →
  ∃ i k t p', evict_oldest p = Ret (Some k, p') ∧ rep p' (abs_remove a i) ∧
    info a !! i = Some (k, t) ∧
    ∀ j kj tj, info a !! j = Some (kj, tj) → (t ≤ tj)%Z.
Proof.
  intros R H1 Hne. destruct (evict_oldest_spec _ _ R) as [[? _]|(i & k & t & p' & E & (_ & Hi & Ho) & R')];
    [done|].
  exists i, k, t, p'. split_and!; [done..|]. intros j kj tj Hj. eapply Ho; [|done].
  destruct (proj1 (wf_dom _ (rep_wf _ _ R) j)) as (s & c & Hc & Hin); [eauto|].
  exists s, c. split; [done|]. specialize (H1 _ _ Hc). destruct c as [|x [|]]; try done.
  by apply list_elem_of_singleton in Hin as ->.
Qed.

(** A pool with two sessions: blocks 10 and 20 in session 1, block 30 in session 2. *)
Definition registered (p : Pool) (k s : Z) : Pool :=
  match register p k s with Ret (_, p') => p' | Panic => p end.

Definition sample : Pool := registered (registered (registered new 10 1) 20 1) 30 2.

Definition sample_lists : lists :=
  abs_push (abs_push (abs_push (mkLists ∅ ∅) 1 0 10 1) 1 1 20 2) 2 2 30 3.

Lemma registered_rep p a k s i :
  rep p a → forallb (λ e, negb (Z.eqb e.2.1 k)) (map_to_list (info a)) = true →
  (size (info a) <? 1024) = true →
  match register p k s with Ret (i', _) => Nat.eqb i' i | Panic => false end = true →
  rep (registered p k s) (abs_push a s i k (tick p)).
Proof.
  intros R Hk Hs Hi. destruct (register_fresh p a k s R) as (i' & p' & E & _ & R' & Hc).
  - intros j u Hj%elem_of_map_to_list. rewrite forallb_forall in Hk.
    specialize (Hk _ (proj1 (list_elem_of_In _ _) Hj)). simpl in Hk.
    rewrite Z.eqb_refl in Hk. done.
  - apply Nat.ltb_lt in Hs. lia.
  - unfold registered. rewrite E in *. by apply Nat.eqb_eq in Hi as ->.
Qed.

Lemma sample_rep : rep sample sample_lists.
Proof.
  apply (registered_rep (registered (registered new 10 1) 20 1)); [|by vm_compute..].
  apply (registered_rep (registered new 10 1)); [|by vm_compute..].
  apply (registered_rep new); [apply rep_new_pool|by vm_compute..].
Qed.

Lemma session_lists_refine_witness :
  rep sample sample_lists ∧ (Z.of_nat (size (info sample_lists)) < 2 ^ 32)%Z ∧
  ∃ r p' a', exec sample Evict = Ret (r, p') ∧ spec sample_lists Evict r a' ∧ rep p' a'.
Proof.
  split; [exact sample_rep|]. split; [by vm_compute|].
  apply (session_lists_refine sample sample_lists Evict); [exact sample_rep|by vm_compute].
Defined.

Lemma session_ancestor_protected_witness :
  info sample_lists !! 0 = Some (10, 1)%Z ∧ ancestor sample_lists 0 1 ∧
  ∃ r p' a', exec sample Evict = Ret (r, p') ∧ rep p' a' ∧
    (∃ t', info a' !! 0 = Some (10%Z, t')) ∧ (ancestor a' 0 1 ∨ info a' !! 1 = None).
Proof.
  assert (ancestor sample_lists 0 1) as Ha by (by exists 1%Z, [], [], []).
  split; [by vm_compute|]. split; [exact Ha|].
  apply (session_ancestor_protected sample sample_lists 0 1 10 1 Evict);
    [exact sample_rep|by vm_compute|by vm_compute|exact Ha|done|done].
Defined.

(** Two blocks, each in a session of its own. *)
Definition singles : Pool := registered (registered new 10 1) 20 2.
Definition singles_lists : lists := abs_push (abs_push (mkLists ∅ ∅) 1 0 10 1) 2 1 20 2.

Lemma singles_rep : rep singles singles_lists.
Proof.
  apply (registered_rep (registered new 10 1)); [|by vm_compute..].
  apply (registered_rep new); [apply rep_new_pool|by vm_compute..].
Qed.

Lemma distinct_sessions_lru_witness :
  ∃ i k t p', evict_oldest singles = Ret (Some k, p') ∧ rep p' (abs_remove singles_lists i) ∧
    info singles_lists !! i = Some (k, t) ∧
    ∀ j kj tj, info singles_lists !! j = Some (kj, tj) → (t ≤ tj)%Z.
Proof.
  apply (distinct_sessions_lru singles singles_lists); [exact singles_rep| |by vm_compute].
  intros s c Hc. simpl in Hc. repeat apply lookup_insert_Some in Hc as [[<- <-]|[_ Hc]]; done.
Defined.

End SessionLists.
