(* ===== verification/FreeList.v ===== *)
(** The first-fit free-list allocator of the memory-tier pool
    ([components/memory-tier/src/allocator.rs]), which serves both the cache
    and the bounce reserve. *)

From S2P Require Import Prelude.

Module FreeList.
Local Open Scope Z_scope.

Definition ALIGNMENT : Z := 4096.

Record FreeList := mkFreeList {
  free_regions : list (Z * Z);
  capacity : Z;
  used : Z
}.

Definition new (capacity : Z) : FreeList :=
  mkFreeList (if 0 <? capacity then BTree.insert [] 0 capacity else []) capacity 0.

(** [usize::next_multiple_of]. *)
Definition next_multiple_of (x m : Z) : outcome Z :=
  r ← rem_w x m;
  if r =? 0 then Ret x else add_w 64 x (m - r).

Definition can_allocate (f : FreeList) (size : Z) : outcome bool :=
  if size =? 0 then Ret false
  else
    aligned_size ← next_multiple_of size ALIGNMENT;
    Ret (existsb (λ '(_, s), aligned_size <=? s) (free_regions f)).

Definition allocate (f : FreeList) (size : Z) : outcome (option Z * FreeList) :=
  if size =? 0 then Ret (None, f)
  else
    aligned_size ← next_multiple_of size ALIGNMENT;
    match List.find (λ '(_, s), aligned_size <=? s) (free_regions f) with
    | None => Ret (None, f)
    | Some (offset, region_size) =>
        let m := BTree.remove (free_regions f) offset in
        remaining ← sub_w region_size aligned_size;
        m ← (if 0 <? remaining
             then k ← add_w 64 offset aligned_size; Ret (BTree.insert m k remaining)
             else Ret m);
        used ← add_w 64 (used f) aligned_size;
        Ret (Some offset, mkFreeList m (capacity f) used)
    end.

Definition deallocate (f : FreeList) (offset size : Z) : outcome FreeList :=
  aligned_size ← next_multiple_of size ALIGNMENT;
  used ← sub_w (used f) aligned_size;
  let m := free_regions f in
  '(new_offset, new_size, m) ←
    match BTree.last_lt m offset with
    | Some (prev_offset, prev_size) =>
        prev_end ← add_w 64 prev_offset prev_size;
        if prev_end =? offset then
          new_size ← add_w 64 aligned_size prev_size;
          Ret (prev_offset, new_size, BTree.remove m prev_offset)
        else Ret (offset, aligned_size, m)
    | None => Ret (offset, aligned_size, m)
    end;
  next_offset ← add_w 64 new_offset new_size;
  '(new_size, m) ←
    match BTree.get m next_offset with
    | Some next_size =>
        new_size ← add_w 64 new_size next_size;
        Ret (new_size, BTree.remove m next_offset)
    | None => Ret (new_size, m)
    end;
  Ret (mkFreeList (BTree.insert m new_offset new_size) (capacity f) used).

(** * Invariant

    The regions are disjoint, lie inside the pool, start on a page, and no two
    of them touch: free space is always coalesced. *)

(** The size a request really takes. *)
Definition aligned (size : Z) : Z := (size + 4095) / 4096 * 4096.

Definition region_ok (cap : Z) (r : Z * Z) : Prop :=
  0 ≤ r.1 ∧ 0 < r.2 ∧ r.1 + r.2 ≤ cap ∧ (4096 | r.1).

Record regions_ok (cap : Z) (m : list (Z * Z)) : Prop := {
  ro_sorted : BTree.sorted m;
  ro_bounds : ∀ o s, (o, s) ∈ m → region_ok cap (o, s);
  ro_gaps : ∀ o s o' s', (o, s) ∈ m → (o', s') ∈ m → o < o' → o + s < o'
}.

Record ok (f : FreeList) : Prop := {
  ok_regions : regions_ok (capacity f) (free_regions f);
  ok_used : used f = capacity f - total (free_regions f);
  ok_cap : is_u 64 (capacity f)
}.

(** A block no byte of which is free: what [allocate] returned and nobody has
    given back. *)
Definition allocated (f : FreeList) (o size : Z) : Prop :=
  0 < size ∧ 0 ≤ o ∧ o + aligned size ≤ capacity f ∧ (4096 | o) ∧
  ∀ x, o ≤ x < o + aligned size → cover (free_regions f) x = 0.

(** * Generic lemmas *)

Lemma next_multiple_of_aligned size :
  0 ≤ size → aligned size < 2 ^ 64 → next_multiple_of size ALIGNMENT = Ret (aligned size).
Proof.
  intros H0 Ha. unfold next_multiple_of, rem_w, ALIGNMENT, add_w, aligned in *. simpl.
  pose proof (Z.div_mod size 4096 ltac:(lia)) as Hd.
  pose proof (Z.mod_pos_bound size 4096 ltac:(lia)) as Hm.
  destruct (Z.eqb_spec (size mod 4096) 0) as [E|E].
  - f_equal. replace ((size + 4095) / 4096) with (size / 4096); [lia|].
    apply (Z.div_unique _ _ _ 4095); lia.
  - replace ((size + 4095) / 4096) with (size / 4096 + 1) in *.
    + replace (size + (4096 - size mod 4096)) with ((size / 4096 + 1) * 4096) by lia.
      by rewrite (proj2 (Z.ltb_lt _ _) Ha).
    + apply (Z.div_unique _ _ _ (size mod 4096 - 1)); lia.
Qed.

Lemma aligned_bounds size : 0 < size → size ≤ aligned size < size + 4096 ∧ (4096 | aligned size).
Proof.
  intros H. unfold aligned. split; [|by exists ((size + 4095) / 4096)].
  pose proof (Z.div_mod (size + 4095) 4096 ltac:(lia)).
  pose proof (Z.mod_pos_bound (size + 4095) 4096 ltac:(lia)). lia.
Qed.

Lemma find_first (m : list (Z * Z)) a o s : BTree.sorted m →
  List.find (λ '(_, s), a <=? s) m = Some (o, s) →
  (o, s) ∈ m ∧ a ≤ s ∧ ∀ o' s', (o', s') ∈ m → a ≤ s' → o ≤ o'.
Proof.
  induction m as [|[o0 s0] m IH]; simpl; [done|].
  intros [Hlt Hs]%BTreeFacts.sorted_cons. destruct (Z.leb_spec a s0) as [Ha|Ha].
  - intros [= -> ->]. split_and!; [by left|done|].
    intros o' s' [[= -> ->]|Hin]%elem_of_cons _; [done|]. apply Hlt in Hin. lia.
  - intros Hf. destruct (IH Hs Hf) as (H1 & H2 & H3). split_and!; [by right|done|].
    intros o' s' [[= -> ->]|Hin]%elem_of_cons ?; [lia|eauto].
Qed.

Lemma find_none (m : list (Z * Z)) a :
  List.find (λ '(_, s), a <=? s) m = None ↔ ∀ o s, (o, s) ∈ m → s < a.
Proof.
  induction m as [|[o0 s0] m IH]; simpl; [set_solver|].
  setoid_rewrite elem_of_cons. destruct (Z.leb_spec a s0) as [Ha|Ha].
  - split; [done|]. intros H. specialize (H o0 s0 (or_introl eq_refl)). lia.
  - rewrite IH. naive_solver.
Qed.

Lemma find_existsb (m : list (Z * Z)) a :
  existsb (λ '(_, s), a <=? s) m = bool_decide (is_Some (List.find (λ '(_, s), a <=? s) m)).
Proof.
  induction m as [|[o0 s0] m IH]; simpl; [done|]. by destruct (a <=? s0).
Qed.

Lemma regions_ok_remove cap m o : regions_ok cap m → regions_ok cap (BTree.remove m o).
Proof.
  intros [Hs Hb Hg]. split.
  - by apply BTreeFacts.remove_sorted.
  - intros o' s'. rewrite BTreeFacts.elem_of_remove by done. naive_solver.
  - intros ????. rewrite !BTreeFacts.elem_of_remove by done. naive_solver.
Qed.

(** A new region is separated from the others by at least one byte. *)
Definition apart (m : list (Z * Z)) (o s : Z) : Prop :=
  ∀ o' s', (o', s') ∈ m → (o' < o ∧ o' + s' < o) ∨ o + s < o'.

Lemma regions_ok_insert cap m o s :
  regions_ok cap m → region_ok cap (o, s) → apart m o s → regions_ok cap (BTree.insert m o s).
Proof.
  intros [Hs Hb Hg] Ho Ha. split.
  - by apply BTreeFacts.insert_sorted.
  - intros o' s'. rewrite BTreeFacts.elem_of_insert by done. naive_solver.
  - intros o1 s1 o2 s2. rewrite !BTreeFacts.elem_of_insert by done.
    destruct Ho as (_ & Hs0 & _). simpl in Hs0.
    intros [[-> ->]|[N1 H1]] [[-> ->]|[N2 H2]] Hlt; [lia|..].
    + destruct (Ha _ _ H2); lia.
    + destruct (Ha _ _ H1) as [|]; [lia|]. apply Hb in H1. unfold region_ok in H1. simpl in H1. lia.
    + eauto.
Qed.

Lemma apart_get_None cap m o s :
  regions_ok cap m → 0 < s → apart m o s → BTree.get m o = None.
Proof.
  intros R Hs Ha. apply BTreeFacts.get_None. intros s' Hin.
  pose proof (ro_bounds _ _ R _ _ Hin) as (_ & ? & _). simpl in *.
  destruct (Ha _ _ Hin); lia.
Qed.

Lemma total_bound m lo cap :
  lo ≤ cap → BTree.sorted m → (∀ o s, (o, s) ∈ m → lo ≤ o ∧ 0 < s ∧ o + s ≤ cap) →
  (∀ o s o' s', (o, s) ∈ m → (o', s') ∈ m → o < o' → o + s ≤ o') →
  total m ≤ cap - lo.
Proof.
  revert lo. induction m as [|[o s] m IH]; intros lo Hlo; simpl; [lia|].
  intros [Hlt Hs]%BTreeFacts.sorted_cons Hb Hg.
  destruct (Hb o s ltac:(by left)) as (? & ? & ?).
  assert (total m ≤ cap - (o + s)); [|lia]. apply IH; [lia|done|..].
  - intros o' s' Hin. destruct (Hb o' s' ltac:(by right)) as (? & ? & ?).
    split_and!; [|lia..]. eapply (Hg o s); [by left|by right|]. by eapply Hlt.
  - intros o1 s1 o2 s2 Hi1 Hi2. eapply Hg; by right.
Qed.

(** * Specifications *)

Lemma regions_ok_total cap m : 0 ≤ cap → regions_ok cap m → 0 ≤ total m ≤ cap.
Proof.
  intros Hc [Hs Hb Hg]. split.
  - clear Hs Hg. induction m as [|[o s] m IH]; simpl; [lia|].
    pose proof (Hb o s ltac:(by left)) as (_ & ? & _). simpl in *.
    assert (0 ≤ total m); [|lia]. apply IH. intros. apply Hb. by right.
  - replace cap with (cap - 0) at 1 by lia. apply total_bound; [done..| |].
    + intros o s Hin. apply Hb in Hin. unfold region_ok in Hin. simpl in Hin. lia.
    + intros. assert (o + s < o'); [eauto|lia].
Qed.

(** What remains of the region a block is carved from. *)
Definition carve (m : list (Z * Z)) (o rs a : Z) : list (Z * Z) :=
  if 0 <? rs - a then BTree.insert (BTree.remove m o) (o + a) (rs - a) else BTree.remove m o.

Lemma carve_spec cap m o rs a :
  regions_ok cap m → (o, rs) ∈ m → 0 < a ≤ rs → (4096 | a) →
  regions_ok cap (carve m o rs a) ∧ total (carve m o rs a) = total m - a ∧
  ∀ x, cover (carve m o rs a) x = cover m x - holds o a x.
Proof.
  intros R Hin Ha Hd. pose proof (ro_sorted _ _ R) as Hs.
  pose proof (ro_bounds _ _ R _ _ Hin) as (Ho & _ & Hc & Hal). simpl in *.
  pose proof (BTreeFacts.remove_perm _ _ _ Hs Hin) as P.
  assert (∀ x, cover m x = holds o rs x + cover (BTree.remove m o) x) as Cm
    by (intros x; by rewrite (cover_perm _ _ x P)).
  assert (total m = rs + total (BTree.remove m o)) as Tm by (by rewrite (total_perm _ _ P)).
  pose proof (regions_ok_remove _ _ o R) as R'.
  unfold carve. destruct (Z.ltb_spec 0 (rs - a)) as [Hr|Hr].
  - assert (apart (BTree.remove m o) (o + a) (rs - a)) as A.
    { intros o' s'. rewrite BTreeFacts.elem_of_remove by done. intros [Hne Hin'].
      destruct (decide (o' < o)).
      - pose proof (ro_gaps _ _ R _ _ _ _ Hin' Hin). lia.
      - pose proof (ro_gaps _ _ R _ _ _ _ Hin Hin'). lia. }
    pose proof (BTreeFacts.insert_perm _ (o + a) (rs - a)
      (apart_get_None _ _ _ _ R' Hr A)) as P'.
    split_and!.
    + apply regions_ok_insert; [done| |done].
      split_and!; simpl; [lia..|]. by apply Z.divide_add_r.
    + rewrite (total_perm _ _ P'). simpl. lia.
    + intros x. rewrite (cover_perm _ _ x P'), Cm. simpl.
      pose proof (holds_split o a (rs - a) x). replace (a + (rs - a)) with rs in * by lia. lia.
  - assert (rs = a) as -> by lia. split_and!; [done|lia|]. intros x. rewrite Cm. lia.
Qed.

Lemma allocate_spec f size :
  ok f → 0 < size → aligned size < 2 ^ 64 →
  match List.find (λ '(_, s), aligned size <=? s) (free_regions f) with
  | None => allocate f size = Ret (None, f)
  | Some (o, rs) =>
      (o, rs) ∈ free_regions f ∧ aligned size ≤ rs ∧
      allocate f size = Ret (Some o, mkFreeList (carve (free_regions f) o rs (aligned size))
                                       (capacity f) (used f + aligned size))
  end.
Proof.
  intros [R Hu Hc] H0 Ha. unfold allocate.
  destruct (Z.eqb_spec size 0); [lia|].
  rewrite next_multiple_of_aligned by lia. simpl.
  destruct (List.find _ _) as [[o rs]|] eqn:E; [|done].
  apply find_first in E as (Hin & Hle & _); [|apply R]. split_and!; [done..|].
  pose proof (ro_bounds _ _ R _ _ Hin) as (Ho & _ & Hcap & _). simpl in *.
  destruct (aligned_bounds size H0) as [Hab _].
  destruct Hc as [Hc0 Hc1].
  assert (rs ≤ total (free_regions f)) as Ht.
  { pose proof (BTreeFacts.remove_perm _ _ _ (ro_sorted _ _ R) Hin) as P.
    rewrite (total_perm _ _ P). simpl.
    pose proof (regions_ok_total _ _ Hc0 (regions_ok_remove _ _ o R)). lia. }
  rewrite sub_w_Ret by lia. simpl. unfold carve.
  destruct (0 <? rs - aligned size).
  - rewrite add_w_Ret by lia. simpl. rewrite add_w_Ret by lia. done.
  - simpl. rewrite add_w_Ret by lia. done.
Qed.

Lemma allocate_ok f size o f' :
  ok f → 0 < size → aligned size < 2 ^ 64 → allocate f size = Ret (Some o, f') →
  ok f' ∧ capacity f' = capacity f ∧ used f' = used f + aligned size ∧
  allocated f' o size ∧
  (∀ x, cover (free_regions f') x = cover (free_regions f) x - holds o (aligned size) x) ∧
  ∃ rs, (o, rs) ∈ free_regions f ∧ aligned size ≤ rs.
Proof.
  intros O H0 Ha E. pose proof (allocate_spec f size O H0 Ha) as S.
  destruct (List.find _ _) as [[o' rs]|] eqn:F; [|congruence].
  destruct S as (Hin & Hle & S). rewrite S in E. injection E as <- <-.
  destruct O as [R Hu Hc]. destruct (aligned_bounds size H0) as [Hab Hd].
  destruct (carve_spec _ _ _ _ (aligned size) R Hin) as (R' & T & C); [lia|done|].
  pose proof (ro_bounds _ _ R _ _ Hin) as (Ho & _ & Hcap & Hal). simpl in *.
  split_and!; simpl; [|done|done| |done|eauto].
  - split; simpl; [done|lia|done].
  - split_and!; simpl; [done|done|lia|done|]. intros x Hx. rewrite C.
    pose proof (cover_nonneg (carve (free_regions f) o' rs (aligned size)) x) as N.
    rewrite C in N. unfold holds in *. rewrite bool_decide_true in * by lia.
    pose proof (BTreeFacts.remove_perm _ _ _ (ro_sorted _ _ R) Hin) as P.
    rewrite (cover_perm _ _ x P) in *. simpl in *. unfold holds in *.
    rewrite bool_decide_true in * by lia.
    assert (cover (BTree.remove (free_regions f) o') x = 0); [|lia].
    apply cover_zero. intros o2 s2. rewrite BTreeFacts.elem_of_remove by apply R.
    intros [Hne Hin2] Hx2. destruct (decide (o2 < o')).
    + pose proof (ro_gaps _ _ R _ _ _ _ Hin2 Hin). lia.
    + pose proof (ro_gaps _ _ R _ _ _ _ Hin Hin2). lia.
Qed.

(** Coalescing with the region that ends where the block starts, if any. *)
Definition join_prev (m : list (Z * Z)) (o a : Z) : Z * Z * list (Z * Z) :=
  match BTree.last_lt m o with
  | Some (po, ps) => if po + ps =? o then (po, a + ps, BTree.remove m po) else (o, a, m)
  | None => (o, a, m)
  end.

(** Coalescing with the region that starts where the block ends, if any. *)
Definition join_next (m : list (Z * Z)) (o a : Z) : Z * list (Z * Z) :=
  match BTree.get m (o + a) with
  | Some ns => (a + ns, BTree.remove m (o + a))
  | None => (a, m)
  end.

(** [m] with the block [(o, a)] beside it holds what [m0] and [(o0, a0)] held. *)
Definition same_bytes (m : list (Z * Z)) (o a : Z) (m0 : list (Z * Z)) (o0 a0 : Z) : Prop :=
  total m + a = total m0 + a0 ∧
  ∀ x, cover m x + holds o a x = cover m0 x + holds o0 a0 x.

(** No region of [m] overlaps the block or ends where it starts. *)
Definition left_apart (m : list (Z * Z)) (o a : Z) : Prop :=
  ∀ o' s', (o', s') ∈ m → (o' < o ∧ o' + s' < o) ∨ o + a ≤ o'.

Lemma disjoint_left cap m o a :
  regions_ok cap m → 0 < a → (∀ x, o ≤ x < o + a → cover m x = 0) →
  ∀ o' s', (o', s') ∈ m → (o' < o ∧ o' + s' ≤ o) ∨ o + a ≤ o'.
Proof.
  intros R Ha Hf o' s' Hin. pose proof (ro_bounds _ _ R _ _ Hin) as (_ & Hs & _). simpl in *.
  destruct (decide (o + a ≤ o')); [by right|]. left.
  assert (¬ (o' ≤ o < o' + s')).
  { apply (proj1 (cover_zero m o)); [apply Hf; lia|done]. }
  assert (¬ (o ≤ o' < o + a)); [|lia]. intros Hx.
  pose proof (proj1 (cover_zero m o') (Hf o' Hx) _ _ Hin). lia.
Qed.

Lemma join_prev_spec cap m o a :
  regions_ok cap m → region_ok cap (o, a) → (∀ x, o ≤ x < o + a → cover m x = 0) →
  let '(o1, a1, m1) := join_prev m o a in
  regions_ok cap m1 ∧ region_ok cap (o1, a1) ∧ left_apart m1 o1 a1 ∧ same_bytes m1 o1 a1 m o a.
Proof.
  intros R (Ho & Ha & Hc & Hd) Hf. simpl in *. pose proof (ro_sorted _ _ R) as Hs.
  pose proof (disjoint_left _ _ _ _ R Ha Hf) as D. unfold join_prev.
  destruct (BTree.last_lt m o) as [[po ps]|] eqn:E.
  - apply BTreeFacts.last_lt_Some in E as (Hin & Hlt & Hmax); [|done].
    pose proof (ro_bounds _ _ R _ _ Hin) as (Hpo & Hps & _ & Hpd). simpl in *.
    destruct (Z.eqb_spec (po + ps) o) as [Eo|Ne].
    + pose proof (BTreeFacts.remove_perm _ _ _ Hs Hin) as P. split_and!.
      * by apply regions_ok_remove.
      * split_and!; simpl; (done || lia).
      * intros o' s'. rewrite BTreeFacts.elem_of_remove by done. intros [Hne Hin'].
        destruct (D _ _ Hin') as [[H1 H2]|H1]; [|right; lia].
        left. pose proof (Hmax _ _ Hin' H1).
        pose proof (ro_gaps _ _ R _ _ _ _ Hin' Hin). lia.
      * split; [rewrite (total_perm _ _ P); simpl; lia|].
        intros x. rewrite (cover_perm _ _ x P). simpl.
        pose proof (holds_split po ps a x). subst o.
        replace (a + ps) with (ps + a) by lia. lia.
    + split_and!; [done|done| |done]. intros o' s' Hin'.
      destruct (D _ _ Hin') as [[H1 H2]|H1]; [|by right]. left. split; [done|].
      destruct (decide (o' = po)) as [->|Hne].
      * rewrite (BTreeFacts.sorted_unique _ _ _ _ Hs Hin' Hin) in *. lia.
      * pose proof (Hmax _ _ Hin' H1). pose proof (ro_gaps _ _ R _ _ _ _ Hin' Hin). lia.
  - split_and!; [done|done| |done]. intros o' s' Hin'.
    pose proof (BTreeFacts.last_lt_None _ _ Hs E _ _ Hin').
    destruct (D _ _ Hin'); [lia|by right].
Qed.

Lemma join_next_spec cap m o a :
  regions_ok cap m → region_ok cap (o, a) → left_apart m o a →
  let '(a1, m1) := join_next m o a in
  regions_ok cap m1 ∧ region_ok cap (o, a1) ∧ apart m1 o a1 ∧ same_bytes m1 o a1 m o a.
Proof.
  intros R (Ho & Ha & Hc & Hd) L. simpl in *. pose proof (ro_sorted _ _ R) as Hs.
  unfold join_next. destruct (BTree.get m (o + a)) as [ns|] eqn:E.
  - apply BTreeFacts.get_Some in E as Hin; [|done].
    pose proof (ro_bounds _ _ R _ _ Hin) as (Hn & Hns & Hnc & _). simpl in *.
    pose proof (BTreeFacts.remove_perm _ _ _ Hs Hin) as P. split_and!.
    + by apply regions_ok_remove.
    + split_and!; simpl; (done || lia).
    + intros o' s'. rewrite BTreeFacts.elem_of_remove by done. intros [Hne Hin'].
      destruct (L _ _ Hin') as [|H1]; [by left|]. right.
      pose proof (ro_gaps _ _ R _ _ _ _ Hin Hin'). lia.
    + split; [rewrite (total_perm _ _ P); simpl; lia|].
      intros x. rewrite (cover_perm _ _ x P). simpl. pose proof (holds_split o a ns x). lia.
  - split_and!; [done|done| |done]. intros o' s' Hin'.
    destruct (L _ _ Hin') as [|H1]; [by left|]. right.
    destruct (decide (o' = o + a)) as [->|]; [|lia].
    by apply (proj1 (BTreeFacts.get_None _ _) E) in Hin'.
Qed.

(** Giving a block back leaves the free list coalesced and frees exactly the
    bytes of the block. *)
Lemma deallocate_spec f o size :
  ok f → allocated f o size →
  ∃ f', deallocate f o size = Ret f' ∧ ok f' ∧ capacity f' = capacity f ∧
        used f' = used f - aligned size ∧
        ∀ x, cover (free_regions f') x = cover (free_regions f) x + holds o (aligned size) x.
Proof.
  intros [R Hu [Hc0 Hc1]] (H0 & Ho & Hc & Hd & Hf).
  destruct (aligned_bounds size H0) as [Hab _].
  assert (region_ok (capacity f) (o, aligned size)) as B by (split_and!; simpl; (done || lia)).
  pose proof (join_prev_spec _ _ _ _ R B Hf) as J. unfold deallocate.
  rewrite next_multiple_of_aligned by lia. simpl.
  destruct (join_prev _ _ _) as [[o1 a1] m1] eqn:E1.
  destruct J as (R1 & B1 & L1 & T1 & C1).
  pose proof (join_next_spec _ _ _ _ R1 B1 L1) as J.
  destruct (join_next _ _ _) as [a2 m2] eqn:E2.
  destruct J as (R2 & B2 & A2 & T2 & C2).
  pose proof (regions_ok_insert _ _ _ _ R2 B2 A2) as R3.
  destruct B1 as (?&?&?&_), B2 as (?&?&?&_). simpl in *.
  pose proof (BTreeFacts.insert_perm _ o1 a2 (apart_get_None _ _ _ _ R2 ltac:(done) A2)) as P.
  pose proof (regions_ok_total _ _ Hc0 R3) as T3. rewrite (total_perm _ _ P) in T3. simpl in T3.
  rewrite sub_w_Ret by lia. simpl.
  exists (mkFreeList (BTree.insert m2 o1 a2) (capacity f) (used f - aligned size)).
  split; [|split_and!; simpl; [split; simpl; [done| |done]| | |]; try done].
  - assert (match BTree.last_lt (free_regions f) o with
      | Some (po, ps) =>
          pe ← add_w 64 po ps;
          if pe =? o then n ← add_w 64 (aligned size) ps;
            Ret (po, n, BTree.remove (free_regions f) po)
          else Ret (o, aligned size, free_regions f)
      | None => Ret (o, aligned size, free_regions f)
      end = Ret (o1, a1, m1)) as ->.
    { unfold join_prev in E1. destruct (BTree.last_lt _ _) as [[po ps]|] eqn:E; [|by rewrite E1].
      apply BTreeFacts.last_lt_Some in E as (Hin & _); [|apply R].
      pose proof (ro_bounds _ _ R _ _ Hin) as (_&_&?&_). simpl in *.
      rewrite (add_w_Ret 64 po ps) by lia. simpl. destruct (po + ps =? o); [|by rewrite E1].
      injection E1 as <- <- <-. rewrite add_w_Ret by lia. done. }
    simpl. rewrite add_w_Ret by lia. simpl. unfold join_next in E2.
    destruct (BTree.get m1 (o1 + a1)); injection E2 as <- <-; [|done].
    rewrite add_w_Ret by lia. done.
  - rewrite (total_perm _ _ P). simpl. lia.
  - intros x. rewrite (cover_perm _ _ x P). simpl. specialize (C1 x). specialize (C2 x). lia.
Qed.

(** * The pool is always partitioned into free regions and live blocks *)

Definition blocks (l : list (Z * Z)) : list (Z * Z) := (λ b, (b.1, aligned b.2)) <$> l.

Record parts (f : FreeList) (l : list (Z * Z)) : Prop := {
  parts_ok : ok f;
  parts_bounds : ∀ o s, (o, s) ∈ l →
    0 < s ∧ 0 ≤ o ∧ o + aligned s ≤ capacity f ∧ (4096 | o);
  parts_cover : ∀ x, cover (free_regions f) x + cover (blocks l) x = holds 0 (capacity f) x
}.

Lemma parts_perm f l l' : l ≡ₚ l' → parts f l → parts f l'.
Proof.
  intros P [O B C]. split; [done|..].
  - intros o s. rewrite <- P. apply B.
  - intros x. rewrite <- C. f_equal. apply cover_perm. unfold blocks. by rewrite P.
Qed.

Lemma parts_new cap : is_u 64 cap → parts (new cap) [].
Proof.
  intros [H0 H1]. unfold new. destruct (Z.ltb_spec 0 cap) as [Hc|Hc]; simpl.
  - split; simpl; [|set_solver|intros x; simpl; lia].
    split; simpl; [|lia|done]. split.
    + apply BTreeFacts.sorted_cons. split; [set_solver|apply BTreeFacts.sorted_nil].
    + intros o s [= -> ->]%list_elem_of_singleton. split_and!; simpl; [lia..|]. by exists 0.
    + intros ???? [= -> ->]%list_elem_of_singleton [= -> ->]%list_elem_of_singleton. lia.
  - assert (cap = 0) as -> by lia. split; simpl; [|set_solver|].
    + split; simpl; [|lia|done]. split; [apply BTreeFacts.sorted_nil|set_solver..].
    + intros x. unfold holds. rewrite bool_decide_false; lia.
Qed.

Lemma parts_allocated f l o s : parts f l → (o, s) ∈ l → allocated f o s.
Proof.
  intros [O B C] Hin. destruct (B _ _ Hin) as (?&?&?&?). split_and!; [done..|].
  intros x Hx. specialize (C x).
  assert (0 < cover (blocks l) x).
  { eapply cover_ge; [|exact Hx]. apply list_elem_of_fmap. by exists (o, s). }
  pose proof (cover_nonneg (free_regions f) x). unfold holds in C. case_bool_decide; lia.
Qed.

Lemma parts_alloc f l size o f' :
  parts f l → 0 < size → aligned size < 2 ^ 64 →
  allocate f size = Ret (Some o, f') →
  parts f' ((o, size) :: l) ∧ capacity f' = capacity f ∧ used f' = used f + aligned size.
Proof.
  intros [O B C] H0 Ha E.
  destruct (allocate_ok _ _ _ _ O H0 Ha E) as (O' & Ec & Eu & A & Cv & _).
  split; [|done]. destruct A as (?&?&?&?&_). split; [done|..].
  - rewrite Ec. rewrite Ec in *. intros o' s' [[= -> ->]|Hin]%elem_of_cons; [done|eauto].
  - intros x. rewrite Ec, Cv, <- C. simpl. lia.
Qed.

Lemma parts_free f l o size :
  parts f ((o, size) :: l) →
  ∃ f', deallocate f o size = Ret f' ∧ parts f' l ∧ capacity f' = capacity f ∧
        used f' = used f - aligned size.
Proof.
  intros Pt. pose proof Pt as [O B C].
  pose proof (parts_allocated _ _ o size Pt ltac:(by left)) as A.
  destruct (deallocate_spec _ _ _ O A) as (f' & E & O' & Ec & Eu & Cv).
  exists f'. split_and!; [done| |done..]. split; [done|..].
  - rewrite Ec. intros. apply B. by right.
  - intros x. rewrite Ec, Cv, <- C. simpl. lia.
Qed.

(** A coalesced free list is determined by the set of free bytes. *)
Lemma cover_head m o s x :
  BTree.sorted ((o, s) :: m) → x < o → cover ((o, s) :: m) x = 0.
Proof.
  intros [Hlt Hs]%BTreeFacts.sorted_cons Hx. apply cover_zero.
  intros o' s' [[= -> ->]|Hin]%elem_of_cons; [lia|]. apply Hlt in Hin. lia.
Qed.

Lemma cover_gap cap m o s :
  regions_ok cap ((o, s) :: m) → cover ((o, s) :: m) (o + s) = 0.
Proof.
  intros R. pose proof (ro_sorted _ _ R) as [Hlt _]%BTreeFacts.sorted_cons.
  apply cover_zero. intros o' s' [[= -> ->]|Hin]%elem_of_cons; [lia|].
  pose proof (ro_gaps _ _ R o s o' s' ltac:(by left) ltac:(by right) (Hlt _ _ Hin)). lia.
Qed.

Lemma regions_ok_tail cap r m : regions_ok cap (r :: m) → regions_ok cap m.
Proof.
  destruct r as [o s]. intros R. split.
  - by pose proof (ro_sorted _ _ R) as [_ ?]%BTreeFacts.sorted_cons.
  - intros. apply R. by right.
  - intros ???? H1 H2. eapply R; by right.
Qed.

Lemma canonical_head cap m1 m2 o1 s1 o2 s2 :
  regions_ok cap ((o1, s1) :: m1) → regions_ok cap ((o2, s2) :: m2) →
  (∀ x, cover ((o1, s1) :: m1) x = cover ((o2, s2) :: m2) x) → o1 ≤ o2 ∧ (o1 = o2 → s2 ≤ s1).
Proof.
  intros R1 R2 C.
  pose proof (ro_bounds _ _ R1 o1 s1 ltac:(by left)) as (_ & ? & _).
  pose proof (ro_bounds _ _ R2 o2 s2 ltac:(by left)) as (_ & ? & _). simpl in *. split.
  - destruct (decide (o1 ≤ o2)) as [|Hn]; [done|]. exfalso.
    pose proof (cover_ge ((o2, s2) :: m2) o2 o2 s2 ltac:(by left) ltac:(lia)) as G. simpl in G.
    rewrite <- C in G.
    pose proof (cover_head m1 o1 s1 o2 (ro_sorted _ _ R1) ltac:(lia)) as Z. simpl in Z. lia.
  - intros <-. destruct (decide (s2 ≤ s1)) as [|Hn]; [done|]. exfalso.
    pose proof (cover_gap _ _ _ _ R1) as G. simpl in G. rewrite C in G.
    pose proof (cover_ge ((o1, s2) :: m2) (o1 + s1) o1 s2 ltac:(by left) ltac:(lia)) as Z.
    simpl in Z. lia.
Qed.

Lemma regions_canonical cap m1 m2 :
  regions_ok cap m1 → regions_ok cap m2 → (∀ x, cover m1 x = cover m2 x) → m1 = m2.
Proof.
  revert m2. induction m1 as [|[o1 s1] m1 IH]; intros [|[o2 s2] m2] R1 R2 C; [done|..].
  - pose proof (ro_bounds _ _ R2 o2 s2 ltac:(by left)) as (_ & ? & _). simpl in *.
    pose proof (cover_ge ((o2, s2) :: m2) o2 o2 s2 ltac:(by left) ltac:(lia)) as G.
    simpl in G. rewrite <- C in G. lia.
  - pose proof (ro_bounds _ _ R1 o1 s1 ltac:(by left)) as (_ & ? & _). simpl in *.
    pose proof (cover_ge ((o1, s1) :: m1) o1 o1 s1 ltac:(by left) ltac:(lia)) as G.
    simpl in G. rewrite C in G. lia.
  - destruct (canonical_head _ _ _ _ _ _ _ R1 R2 C) as [? Hs].
    destruct (canonical_head _ _ _ _ _ _ _ R2 R1 (λ x, eq_sym (C x))) as [? Hs'].
    assert (o1 = o2) as <- by lia. assert (s1 = s2) as <- by (specialize (Hs eq_refl); specialize (Hs' eq_refl); lia).
    f_equal. apply IH; [by eapply regions_ok_tail..|]. intros x. specialize (C x). simpl in C. lia.
Qed.

(** Two well-formed allocators over the same pool with the same free bytes are
    the same state. *)
Lemma parts_canonical f f' l l' :
  parts f l → parts f' l' → capacity f = capacity f' → l ≡ₚ l' → f = f'.
Proof.
  intros [[R1 U1 K1] B1 C1] [[R2 U2 K2] B2 C2] Ec P.
  assert (free_regions f = free_regions f') as E.
  { apply (regions_canonical (capacity f)); [done|by rewrite Ec|]. intros x.
    specialize (C1 x). specialize (C2 x). rewrite Ec in C1.
    assert (cover (blocks l) x = cover (blocks l') x); [|lia].
    apply cover_perm. unfold blocks. by rewrite P. }
  destruct f, f'; simpl in *. subst. done.
Qed.

(** The live blocks of a sequence of calls from an empty pool. *)
Inductive run (cap : Z) : FreeList → list (Z * Z) → Prop :=
| run_new : run cap (new cap) []
| run_alloc f l size o f' :
    run cap f l → 0 < size → is_u 32 size → allocate f size = Ret (Some o, f') →
    run cap f' ((o, size) :: l)
| run_free f l1 o size l2 f' :
    run cap f (l1 ++ (o, size) :: l2) → deallocate f o size = Ret f' →
    run cap f' (l1 ++ l2).

Lemma aligned_u32 size : 0 < size → is_u 32 size → aligned size ≤ 2 ^ 32.
Proof.
  intros H0 [_ H1]. unfold aligned.
  assert ((size + 4095) / 4096 < 2 ^ 20 + 1); [|lia].
  apply Z.div_lt_upper_bound; lia.
Qed.

Lemma run_parts cap f l : is_u 64 cap → run cap f l → parts f l ∧ capacity f = cap.
Proof.
  intros Hc. induction 1 as [|f l size o f' _ [IH IHc] H0 Hu E|f l1 o size l2 f' _ [IH IHc] E].
  - split; [by apply parts_new|done].
  - pose proof (aligned_u32 _ H0 Hu).
    destruct (parts_alloc _ _ _ _ _ IH H0 ltac:(lia) E) as (? & ? & _). split; [done|congruence].
  - apply (parts_perm _ _ ((o, size) :: l1 ++ l2)) in IH; [|by rewrite Permutation_middle].
    destruct (parts_free _ _ _ _ IH) as (f2 & E2 & ? & ? & _).
    rewrite E in E2. injection E2 as <-. split; [done|congruence].
Qed.

Lemma parts_used f l : parts f l → used f = total (blocks l).
Proof.
  intros Pt. remember (length l) as n eqn:Hn. revert f l Pt Hn.
  induction n as [|n IH]; intros f [|[o s] l] Pt Hn; try discriminate.
  - rewrite (ok_used _ (parts_ok _ _ Pt)). simpl.
    pose proof (parts_canonical _ _ _ _ Pt
      (parts_new (capacity f) (ok_cap _ (parts_ok _ _ Pt))) eq_refl ltac:(done)) as ->.
    unfold new. destruct (Z.ltb_spec 0 (capacity f)); simpl; [lia|].
    pose proof (ok_cap _ (parts_ok _ _ Pt)) as [? _]. lia.
  - destruct (parts_free _ _ _ _ Pt) as (f' & _ & Pt' & _ & Eu).
    rewrite (IH f' l Pt') in Eu by (simpl in Hn; lia). simpl. lia.
Qed.

(** Live blocks do not overlap. *)
Lemma parts_disjoint f l o s o' s' :
  parts f ((o, s) :: l) → (o', s') ∈ l → o + aligned s ≤ o' ∨ o' + aligned s' ≤ o.
Proof.
  intros [O B C] Hin. destruct (B o s ltac:(by left)) as (Hs & _).
  destruct (B o' s' ltac:(by right)) as (Hs' & _).
  pose proof (aligned_bounds s Hs) as [? _]. pose proof (aligned_bounds s' Hs') as [? _].
  destruct (decide (o + aligned s ≤ o')); [by left|].
  destruct (decide (o' + aligned s' ≤ o)); [by right|]. exfalso.
  assert (∃ x, o ≤ x < o + aligned s ∧ o' ≤ x < o' + aligned s') as (x & Hx & Hx').
  { exists (Z.max o o'). lia. }
  specialize (C x). change (blocks _) with ((o, aligned s) :: blocks l) in C.
  change (cover (_ :: _) x) with (holds o (aligned s) x + cover (blocks l) x) in C.
  assert (0 < cover (blocks l) x) as G.
  { eapply cover_ge; [apply list_elem_of_fmap; by exists (o', s')|done]. }
  pose proof (cover_nonneg (free_regions f) x).
  unfold holds in C. rewrite (bool_decide_true (o ≤ x < _)) in C by done.
  case_bool_decide; lia.
Qed.

(** An empty pool serves any request it can hold at all. *)
Lemma find_empty_pool f size :
  parts f [] → 0 < size → aligned size ≤ capacity f →
  List.find (λ '(_, s), aligned size <=? s) (free_regions f) ≠ None.
Proof.
  intros P H0 Ha. pose proof (aligned_bounds size H0) as [? _].
  rewrite (parts_canonical _ _ _ _ P (parts_new _ (ok_cap _ (parts_ok _ _ P))) eq_refl ltac:(done)).
  unfold new. destruct (Z.ltb_spec 0 (capacity f)); [|lia]. simpl.
  destruct (Z.leb_spec (aligned size) (capacity f)); [done|lia].
Qed.

Lemma free_alloc_id f size o f' :
  ok f → 0 < size → is_u 32 size → allocate f size = Ret (Some o, f') →
  deallocate f' o size = Ret f.
Proof.
  intros O H0 Hu E. pose proof (aligned_u32 _ H0 Hu) as Ha.
  destruct (allocate_ok _ _ _ _ O H0 ltac:(lia) E) as (O' & Ec & Eu & A & C & _).
  destruct (deallocate_spec _ _ _ O' A) as (g & -> & Og & Egc & Egu & Cg). f_equal.
  assert (free_regions g = free_regions f) as Er.
  { apply (regions_canonical (capacity f)); [rewrite <- Ec, <- Egc; apply Og|apply O|].
    intros x. rewrite Cg, C. lia. }
  destruct f, g; simpl in *. f_equal; [done|congruence|lia].
Qed.

(** * Properties *)

(** After any sequence of allocations and of frees of live blocks, every
    byte of the pool belongs to exactly one free region or one live block;
    [used] is the page-rounded size of the live blocks; every live block can be
    freed without a panic; and when the last one has been freed the allocator is
    back in its initial state, fully coalesced. *)
Theorem free_list_partition cap f l :
  is_u 64 cap → run cap f l →
  (∀ x, cover (free_regions f) x + cover (blocks l) x = holds 0 cap x) ∧
  used f = total (blocks l) ∧
  (∀ o s, (o, s) ∈ l → ∃ f', deallocate f o s = Ret f') ∧
  (l = [] → f = new cap).
Proof.
  intros Hc Hr. destruct (run_parts _ _ _ Hc Hr) as [Pt Ec]. split_and!.
  - intros x. rewrite <- Ec. apply Pt.
  - by apply parts_used.
  - intros o s Hin. pose proof (parts_allocated _ _ _ _ Pt Hin) as A.
    destruct (deallocate_spec _ _ _ (parts_ok _ _ Pt) A) as (f' & E & _). eauto.
  - intros ->. subst cap. by eapply parts_canonical; [..|apply parts_new|done|done].
Qed.

Definition two_blocks : FreeList := mkFreeList [(12288, 4096)] 16384 12288.

Lemma two_blocks_run : run 16384 two_blocks [(4096, 5000); (0, 100)].
Proof.
  apply (run_alloc _ (mkFreeList [(4096, 12288)] 16384 4096)); [|lia|split; lia|reflexivity].
  apply (run_alloc _ (new 16384)); [constructor|lia|split; lia|reflexivity].
Qed.

Lemma free_list_partition_witness :
  used two_blocks = 12288 ∧ ∃ f', deallocate two_blocks 0 100 = Ret f'.
Proof.
  destruct (free_list_partition 16384 two_blocks _ ltac:(split; lia) two_blocks_run)
    as (_ & Hu & Hd & _).
  split; [exact Hu|]. apply Hd. right. left.
Defined.

(** The allocator has no memory of the past: two histories that leave the
    same live blocks, in whatever order they were allocated and freed, leave the
    same free list. *)
Theorem free_list_history_independent cap f f' l l' :
  is_u 64 cap → run cap f l → run cap f' l' → l ≡ₚ l' → f = f'.
Proof.
  intros Hc H1 H2 P. destruct (run_parts _ _ _ Hc H1) as [P1 E1].
  destruct (run_parts _ _ _ Hc H2) as [P2 E2]. eapply parts_canonical; [done..|congruence|done].
Qed.

(** One history frees the block at 0; the other also allocates and frees the
    one at 12288. *)
Definition one_block : FreeList := mkFreeList [(0, 4096); (12288, 4096)] 16384 8192.

Lemma one_block_run : run 16384 one_block [(4096, 5000)].
Proof. apply (run_free _ two_blocks [(4096, 5000)] 0 100 []); [apply two_blocks_run|reflexivity]. Qed.

Lemma one_block_run' : run 16384 one_block [(4096, 5000)].
Proof.
  apply (run_free _ (mkFreeList [(0, 4096)] 16384 12288) [] 12288 1 [(4096, 5000)]); [|reflexivity].
  apply (run_free _ (mkFreeList [] 16384 16384) [(12288, 1); (4096, 5000)] 0 100 []); [|reflexivity].
  apply (run_alloc _ two_blocks); [apply two_blocks_run|lia|split; lia|reflexivity].
Qed.

Lemma free_list_history_independent_witness :
  ∃ f, deallocate (mkFreeList [(0, 4096)] 16384 12288) 12288 1 = Ret f ∧ f = one_block.
Proof.
  eexists. split; [reflexivity|].
  apply (free_list_history_independent 16384 _ _ [(4096, 5000)] [(4096, 5000)]);
    [split; lia|apply one_block_run|apply one_block_run'|reflexivity].
Defined.

(** [allocate] always returns. It succeeds exactly when [can_allocate]
    says so, that is when one free region can hold the page-rounded request; it
    then takes its bytes from the lowest such region and from nothing else.
    Otherwise it changes nothing. *)
Theorem free_list_allocate f size :
  ok f → 0 < size → is_u 32 size →
  ∃ r f', allocate f size = Ret (r, f') ∧
    can_allocate f size = Ret (bool_decide (is_Some r)) ∧
    match r with
    | Some o =>
        (∃ rs, (o, rs) ∈ free_regions f ∧ aligned size ≤ rs) ∧
        (∀ o' s', (o', s') ∈ free_regions f → aligned size ≤ s' → o ≤ o') ∧
        (∀ x, cover (free_regions f') x = cover (free_regions f) x - holds o (aligned size) x) ∧
        ok f' ∧ used f' = used f + aligned size
    | None => f' = f ∧ ∀ o' s', (o', s') ∈ free_regions f → s' < aligned size
    end.
Proof.
  intros O H0 Hu. pose proof (aligned_u32 _ H0 Hu) as Ha.
  pose proof (allocate_spec f size O H0 ltac:(lia)) as S.
  assert (can_allocate f size = Ret (bool_decide (is_Some
    (List.find (λ '(_, s), aligned size <=? s) (free_regions f))))) as Ec.
  { unfold can_allocate. destruct (Z.eqb_spec size 0); [lia|].
    rewrite next_multiple_of_aligned by lia. simpl. by rewrite find_existsb. }
  destruct (List.find _ _) as [[o rs]|] eqn:F.
  - destruct S as (_ & _ & E). eexists (Some o), _. split; [done|]. split; [done|].
    apply find_first in F as (Hin & Hle & Hmin); [|apply O].
    destruct (allocate_ok _ _ _ _ O H0 ltac:(lia) E) as (O' & _ & Eu & _ & C & _).
    split_and!; eauto.
  - exists None, f. split; [done|]. split; [done|]. split; [done|]. by apply find_none.
Qed.

Lemma free_list_allocate_witness :
  ∃ r f', allocate (new 16384) 5000 = Ret (r, f') ∧ can_allocate (new 16384) 5000 = Ret true.
Proof.
  destruct (free_list_allocate (new 16384) 5000 (parts_ok _ _ (parts_new 16384 ltac:(split; lia)))
    ltac:(lia) ltac:(split; lia)) as (r & f' & E & _).
  exists r, f'. split; [exact E|reflexivity].
Defined.

(** Freeing the block [allocate] just returned restores the allocator
    exactly, whichever region it was carved from. *)
Theorem free_list_alloc_free f size o f' :
  ok f → 0 < size → is_u 32 size → allocate f size = Ret (Some o, f') →
  deallocate f' o size = Ret f.
Proof. apply free_alloc_id. Qed.


End FreeList.
