(* ===== verification/MemoryTier.v ===== *)
(** The memory tier ([components/memory-tier/src/lib.rs]): a DRAM cache pool
    carved by the free-list allocator, with eviction delegated to any
    [IEvictionPolicy], and the bounce reserve at the top of the pool. The
    theorems are proved against the policy's laws, not against one policy. *)

From S2P Require Import Prelude EvictionPolicy FreeList.
From S2P Require LruList.

Module MemoryTier.
Import Policy.
Local Open Scope Z_scope.

Definition DEFAULT_BOUNCE_RESERVE : Z := 32 * 1024 * 1024.

(** Errors, without their messages. *)
Inductive MemoryTierError :=
| PoolFull
| KeyNotFound (k : Z)
| AlreadyExists (k : Z)
| AllocationFailed
| InvalidSize
| NotEvictable (k : Z)
| NotInitialized.

Inductive BounceError := NoSpace | NeverFits | Io | BounceNotInitialized.

Record BounceBuffer := mkBuffer { ptr : Z; len : Z }.

Record Slot := mkSlot { offset : Z; size : Z; eviction_handle : EvictionHandle }.

Record Pool := mkPool { allocator : FreeList.FreeList; slots : gmap Z Slot }.

Record Bounce := mkBounce { ballocator : FreeList.FreeList; blive : gmap Z Z }.

Record MemoryTierState := mkState {
  pool_ptr : Z;
  pool_size : Z;
  cache_size : Z;
  bounce_request : Z;
  bounce : Bounce;
  pool_id : nat;
  pool : Pool;
  initialized : bool;
  spdk_allocated : bool
}.

Definition default : MemoryTierState :=
  mkState 0 0 0 DEFAULT_BOUNCE_RESERVE (mkBounce (FreeList.new 0) ∅) 0
    (mkPool (FreeList.new 0) ∅) false false.

Definition set_pool (st : MemoryTierState) (p : Pool) : MemoryTierState :=
  mkState (pool_ptr st) (pool_size st) (cache_size st) (bounce_request st) (bounce st)
    (pool_id st) p (initialized st) (spdk_allocated st).

Definition set_bounce (st : MemoryTierState) (b : Bounce) : MemoryTierState :=
  mkState (pool_ptr st) (pool_size st) (cache_size st) (bounce_request st) b
    (pool_id st) (pool st) (initialized st) (spdk_allocated st).

Definition bounce_reserve_bytes (requested pool_size : Z) : Z :=
  Z.min requested (pool_size / 8) / 4096 * 4096.

Section tier.
Context {S : Type} `{IEvictionPolicy S}.

(** The component: its state and what its [eviction_policy] receptacle is
    bound to ([None] while unconnected). *)
Record Tier := mkTier { state : MemoryTierState; eviction_policy : option S }.

Definition with_pool (t : Tier) (p : Pool) (ep : S) : Tier :=
  mkTier (set_pool (state t) p) (Some ep).

Abbreviation res A := (result A MemoryTierError).

(** [alloc] is what [spdk_zmalloc] or [mmap] gave: an address and whether the
    memory is DMA-capable. *)
Definition initialize (t : Tier) (psize : Z) (alloc : option (Z * bool)) :
    outcome (res unit * Tier) :=
  if psize =? 0 then Ret (Err InvalidSize, t)
  else match eviction_policy t with
  | None => Ret (Err NotInitialized, t)
  | Some ep =>
      let st := state t in
      if initialized st then Ret (Err AllocationFailed, t)
      else match alloc with
      | None => Ret (Err AllocationFailed, t)
      | Some (p, spdk) =>
          let '(pid, ep) := create_pool ep in
          let reserve := bounce_reserve_bytes (bounce_request st) psize in
          csize ← (if reserve =? 0 then Ret psize
                   else d ← sub_w psize reserve; Ret (d / 4096 * 4096));
          Ret (Ok (), mkTier (mkState p psize csize (bounce_request st)
                               (mkBounce (FreeList.new reserve) ∅) pid
                               (mkPool (FreeList.new csize) ∅) true spdk) (Some ep))
      end
  end.

Definition insert (t : Tier) (key sz : Z) : outcome (res Z * Tier) :=
  let st := state t in
  if sz =? 0 then Ret (Err InvalidSize, t)
  else if negb (initialized st) then Ret (Err NotInitialized, t)
  else
    ep ← unwrap (eviction_policy t);
    let p := pool st in
    if bool_decide (is_Some (slots p !! key)) then Ret (Err (AlreadyExists key), t)
    else
      room ← FreeList.can_allocate (allocator p) sz;
      if negb room then Ret (Err PoolFull, t)
      else
        '(h, ep) ← track ep (pool_id st) key default_semantics;
        match h with
        | Err _ => Ret (Err NotInitialized, mkTier st (Some ep))
        | Ok h =>
            '(off, a) ← FreeList.allocate (allocator p) sz;
            match off with
            | None =>
                '(_, ep) ← remove ep h;
                Ret (Err PoolFull, with_pool t (mkPool a (slots p)) ep)
            | Some off =>
                Ret (Ok (pool_ptr st + off),
                     with_pool t (mkPool a (<[key := mkSlot off sz h]> (slots p))) ep)
            end
        end.

Definition get (t : Tier) (key : Z) : outcome (option (Z * Z) * Tier) :=
  let st := state t in
  if negb (initialized st) then Ret (None, t)
  else
    ep ← unwrap (eviction_policy t);
    match slots (pool st) !! key with
    | None => Ret (None, t)
    | Some slot =>
        '(_, ep) ← touch ep (eviction_handle slot);
        Ret (Some (pool_ptr st + offset slot, size slot), mkTier st (Some ep))
    end.

Definition peek (t : Tier) (key : Z) : option (Z * Z) :=
  let st := state t in
  if negb (initialized st) then None
  else match slots (pool st) !! key with
       | None => None
       | Some slot => Some (pool_ptr st + offset slot, size slot)
       end.

Definition oldest_keys (t : Tier) (n : nat) : outcome (list Z) :=
  let st := state t in
  if negb (initialized st) || (n =? 0)%nat then Ret []
  else
    ep ← unwrap (eviction_policy t);
    get_eviction_candidates ep (pool_id st) n.

(** [evict_next] asks the policy for a victim before it takes the pool's write
    lock, so other calls can run between its two halves. *)
Definition evict_identify (t : Tier) : outcome (option Z * Tier) :=
  let st := state t in
  if negb (initialized st) then Ret (None, t)
  else
    ep ← unwrap (eviction_policy t);
    '(k, ep) ← identify_next_to_evict ep (pool_id st);
    Ret (k, mkTier st (Some ep)).

Definition evict_reclaim (t : Tier) (key : Z) : outcome Tier :=
  let st := state t in
  match slots (pool st) !! key with
  | None => Ret t
  | Some slot =>
      a ← FreeList.deallocate (allocator (pool st)) (offset slot) (size slot);
      Ret (mkTier (set_pool st (mkPool a (delete key (slots (pool st))))) (eviction_policy t))
  end.

Definition evict_next (t : Tier) : outcome (option Z * Tier) :=
  '(k, t) ← evict_identify t;
  match k with
  | Some key => t ← evict_reclaim t key; Ret (Some key, t)
  | None => Ret (None, t)
  end.

Definition evict_next_for_key (t : Tier) (_key : Z) : outcome (option Z * Tier) := evict_next t.

Definition remove (t : Tier) (key : Z) : outcome (res unit * Tier) :=
  let st := state t in
  if negb (initialized st) then Ret (Err NotInitialized, t)
  else
    ep ← unwrap (eviction_policy t);
    match slots (pool st) !! key with
    | None => Ret (Err (KeyNotFound key), t)
    | Some slot =>
        '(_, ep) ← Policy.remove ep (eviction_handle slot);
        a ← FreeList.deallocate (allocator (pool st)) (offset slot) (size slot);
        Ret (Ok (), with_pool t (mkPool a (delete key (slots (pool st)))) ep)
    end.

Definition touch (t : Tier) (key : Z) : outcome Tier :=
  let st := state t in
  if negb (initialized st) then Ret t
  else
    ep ← unwrap (eviction_policy t);
    match slots (pool st) !! key with
    | None => Ret t
    | Some slot =>
        '(_, ep) ← Policy.touch ep (eviction_handle slot);
        Ret (mkTier st (Some ep))
    end.

Definition batch_touch (t : Tier) (keys : list Z) : outcome Tier :=
  let st := state t in
  if bool_decide (keys = []) then Ret t
  else if negb (initialized st) then Ret t
  else match eviction_policy t with
  | None => Ret t
  | Some ep =>
      let handles := omap (λ k, eviction_handle <$> slots (pool st) !! k) keys in
      '(_, ep) ← Policy.batch_touch ep handles;
      Ret (mkTier st (Some ep))
  end.

Definition contains (t : Tier) (key : Z) : bool :=
  initialized (state t) && bool_decide (is_Some (slots (pool (state t)) !! key)).

Definition capacity (t : Tier) : Z :=
  if initialized (state t) then FreeList.capacity (allocator (pool (state t))) else 0.

Definition used (t : Tier) : Z :=
  if initialized (state t) then FreeList.used (allocator (pool (state t))) else 0.

Definition free_capacity (t : Tier) : outcome Z :=
  if initialized (state t)
  then sub_w (FreeList.capacity (allocator (pool (state t))))
             (FreeList.used (allocator (pool (state t))))
  else Ret 0.

Definition pool_info (t : Tier) : option (Z * Z) :=
  if initialized (state t) && negb (pool_ptr (state t) =? 0)
  then Some (pool_ptr (state t), pool_size (state t)) else None.

Definition clear (t : Tier) : outcome (res nat * Tier) :=
  let st := state t in
  if negb (initialized st) then Ret (Err NotInitialized, t)
  else
    ep ← unwrap (eviction_policy t);
    let count := base.size (slots (pool st)) in
    Ret (Ok count, with_pool t (mkPool (FreeList.new (cache_size st)) ∅)
                     (clear_pool ep (pool_id st))).

Definition is_dma_capable (t : Tier) : bool := spdk_allocated (state t).

Definition set_bounce_reserve (t : Tier) (bytes : Z) : res unit * Tier :=
  let st := state t in
  if initialized st then (Err AllocationFailed, t)
  else (Ok (), mkTier (mkState (pool_ptr st) (pool_size st) (cache_size st) bytes (bounce st)
                        (pool_id st) (pool st) (initialized st) (spdk_allocated st))
                 (eviction_policy t)).

Definition bounce_alloc (t : Tier) (l : Z) : outcome (result BounceBuffer BounceError * Tier) :=
  let st := state t in
  if negb (initialized st) then Ret (Err BounceNotInitialized, t)
  else
    let reserve := FreeList.capacity (ballocator (bounce st)) in
    if negb (spdk_allocated st) then Ret (Err NeverFits, t)
    else
      need ← FreeList.next_multiple_of l 4096;
      if (l =? 0) || (reserve <? need) then Ret (Err NeverFits, t)
      else
        '(off, a) ← FreeList.allocate (ballocator (bounce st)) l;
        match off with
        | None => Ret (Err NoSpace, t)
        | Some off =>
            Ret (Ok (mkBuffer (pool_ptr st + (cache_size st + off)) l),
                 mkTier (set_bounce st (mkBounce a (<[off := l]> (blive (bounce st)))))
                   (eviction_policy t))
        end.

(** A buffer that is not live, or of another length, panics. The address
    arithmetic wraps at 64 bits. *)
Definition bounce_free (t : Tier) (buf : BounceBuffer) : outcome Tier :=
  let st := state t in
  base ← add_w 64 (pool_ptr st) (cache_size st);
  let off := (ptr buf - base) mod 2 ^ 64 in
  match blive (bounce st) !! off with
  | Some l =>
      if l =? len buf then
        a ← FreeList.deallocate (ballocator (bounce st)) off l;
        Ret (mkTier (set_bounce st (mkBounce a (delete off (blive (bounce st)))))
               (eviction_policy t))
      else Panic
  | None => Panic
  end.

Definition bounce_usage (t : Tier) : Z * Z :=
  (FreeList.capacity (ballocator (bounce (state t))),
   FreeList.used (ballocator (bounce (state t)))).

End tier.
Arguments Tier : clear implicits.

(** * Invariant *)

Section proofs.
Context {S : Type} `{PI : IEvictionPolicy S, PL : !EvictionPolicyLaws S}.

(** The blocks of the pool that slots occupy, as offset and requested size. *)
Definition slot_blocks (m : gmap Z Slot) : list (Z * Z) :=
  (λ kv, (offset kv.2, size kv.2)) <$> map_to_list m.

(** The policy tracks exactly the cached keys, each under its slot's handle. *)
Definition tracks (pid : nat) (m : gmap Z Slot) (tr : gmap nat Z) : Prop :=
  (∀ k sl, m !! k = Some sl →
     ∃ i, eviction_handle sl = mkHandle pid i ∧ tr !! i = Some k) ∧
  (∀ i k, tr !! i = Some k → ∃ sl, m !! k = Some sl ∧ eviction_handle sl = mkHandle pid i).

Record pool_ok (st : MemoryTierState) : Prop := {
  po_parts : FreeList.parts (allocator (pool st)) (slot_blocks (slots (pool st)));
  po_cap : FreeList.capacity (allocator (pool st)) = cache_size st;
  po_sizes : ∀ k sl, slots (pool st) !! k = Some sl → is_u 32 (size sl)
}.

Record bounce_ok (st : MemoryTierState) : Prop := {
  bo_parts : FreeList.parts (ballocator (bounce st)) (map_to_list (blive (bounce st)));
  bo_sizes : ∀ o l, blive (bounce st) !! o = Some l → is_u 32 l
}.

(** 16 TiB of DRAM is what keeps handle indices below [2^32]. *)
Record layout_ok (st : MemoryTierState) : Prop := {
  lo_bound : pool_size st < 2 ^ 44;
  lo_fit : 0 ≤ cache_size st ∧ 0 ≤ FreeList.capacity (ballocator (bounce st)) ∧
           cache_size st + FreeList.capacity (ballocator (bounce st)) ≤ pool_size st;
  lo_addr : 0 ≤ pool_ptr st ∧ pool_ptr st + pool_size st < 2 ^ 64
}.

Record ok (t : Tier S) : Prop := {
  ok_init : initialized (state t) = true;
  ok_policy : ∃ ep tr, eviction_policy t = Some ep ∧ pol_ok ep ∧
                live ep (pool_id (state t)) = Some tr ∧
                tracks (pool_id (state t)) (slots (pool (state t))) tr;
  ok_pool : pool_ok (state t);
  ok_bounce : bounce_ok (state t);
  ok_layout : layout_ok (state t)
}.

(** What a client sees: the cached keys, with address and size. *)
Definition view (t : Tier S) : gmap Z (Z * Z) :=
  (λ sl, (pool_ptr (state t) + offset sl, size sl)) <$> slots (pool (state t)).

(** * Lemmas *)

Lemma slot_blocks_insert m k sl :
  m !! k = None → slot_blocks (<[k := sl]> m) ≡ₚ (offset sl, size sl) :: slot_blocks m.
Proof. intros Hk. unfold slot_blocks. by rewrite map_to_list_insert. Qed.

Lemma slot_blocks_delete m k sl :
  m !! k = Some sl → slot_blocks m ≡ₚ (offset sl, size sl) :: slot_blocks (delete k m).
Proof. intros Hk. unfold slot_blocks. by rewrite <- (map_to_list_delete m k sl Hk). Qed.

Lemma slot_blocks_elem m o s : (o, s) ∈ slot_blocks m ↔ ∃ k sl, m !! k = Some sl ∧ o = offset sl ∧ s = size sl.
Proof.
  unfold slot_blocks. rewrite list_elem_of_fmap. split.
  - intros ([k sl] & [= -> ->] & Hin%elem_of_map_to_list). eauto.
  - intros (k & sl & Hk & -> & ->). exists (k, sl). split; [done|]. by apply elem_of_map_to_list.
Qed.

Lemma tracks_size pid m tr : tracks pid m tr → (base.size tr ≤ base.size m)%nat.
Proof.
  intros [_ Hb]. rewrite <- (length_map_to_list tr), <- (length_map_to_list m).
  rewrite <- (length_fmap snd (map_to_list tr)), <- (length_fmap fst (map_to_list m)).
  apply submseteq_length, NoDup_submseteq.
  - apply (NoDup_fmap_2_strong snd); [|apply NoDup_map_to_list].
    intros [i k] [i' k'] Hi Hi' E. simpl in E. subst k'.
    apply elem_of_map_to_list in Hi, Hi'.
    destruct (Hb _ _ Hi) as (sl & Hs & E1), (Hb _ _ Hi') as (sl' & Hs' & E2). congruence.
  - intros k ([i k'] & -> & Hi%elem_of_map_to_list)%list_elem_of_fmap. simpl.
    destruct (Hb _ _ Hi) as (sl & Hs & _). apply list_elem_of_fmap.
    exists (k', sl). split; [done|]. by apply elem_of_map_to_list.
Qed.

Lemma tracks_insert pid m tr k off sz i :
  tracks pid m tr → m !! k = None → tr !! i = None →
  tracks pid (<[k := mkSlot off sz (mkHandle pid i)]> m) (<[i := k]> tr).
Proof.
  intros [Ha Hb] Hk Hi. split.
  - intros k' sl'. rewrite lookup_insert_Some. intros [[<- <-]|[Hne Hk']].
    + exists i. by rewrite lookup_insert_eq.
    + destruct (Ha _ _ Hk') as (i' & E & Hi'). exists i'. split; [done|].
      rewrite lookup_insert_ne by congruence. done.
  - intros i' k'. rewrite lookup_insert_Some. intros [[<- <-]|[Hne Hi']].
    + eexists. by rewrite lookup_insert_eq.
    + destruct (Hb _ _ Hi') as (sl & Hs & E). exists sl. split; [|done].
      rewrite lookup_insert_ne by congruence. done.
Qed.

Lemma tracks_delete pid m tr k i :
  tracks pid m tr → tr !! i = Some k → tracks pid (delete k m) (delete i tr).
Proof.
  intros [Ha Hb] Hi. split.
  - intros k' sl' [Hne Hk']%lookup_delete_Some. destruct (Ha _ _ Hk') as (i' & E & Hi').
    exists i'. split; [done|]. rewrite lookup_delete_ne by congruence. done.
  - intros i' k' [Hne Hi']%lookup_delete_Some. destruct (Hb _ _ Hi') as (sl & Hs & E).
    exists sl. split; [|done]. rewrite lookup_delete_ne; [done|]. intros <-.
    destruct (Hb _ _ Hi) as (sl2 & Hs2 & E2). congruence.
Qed.

Lemma tracks_empty pid : tracks pid ∅ ∅.
Proof. split; intros ??; by rewrite lookup_empty. Qed.

(** Each slot takes at least a page, so a pool below 16 TiB holds fewer than
    [2^32] of them. *)
Lemma blocks_count l : (∀ o s, (o, s) ∈ l → 0 < s) →
  4096 * Z.of_nat (length l) ≤ total (FreeList.blocks l).
Proof.
  induction l as [|[o s] l IH]; simpl; [lia|]. intros Hp.
  assert (0 < s) as Hs by (eapply Hp; by left).
  destruct (FreeList.aligned_bounds s Hs) as [Hb [q Hq]].
  assert (4096 * Z.of_nat (length l) ≤ total (FreeList.blocks l)).
  { apply IH. intros. eapply Hp. by right. }
  assert (1 ≤ q) by nia. unfold FreeList.blocks in *. lia.
Qed.

Lemma slots_count st : pool_ok st → layout_ok st →
  Z.of_nat (base.size (slots (pool st))) < 2 ^ 32.
Proof.
  intros [P Hc _] [Hb (Hf1 & Hf2 & Hf3) _].
  pose proof (FreeList.parts_used _ _ P) as U.
  pose proof (blocks_count (slot_blocks (slots (pool st)))) as B.
  rewrite <- U in B. unfold slot_blocks in B at 2. rewrite length_fmap, length_map_to_list in B.
  assert (FreeList.used (allocator (pool st)) ≤ cache_size st).
  { destruct (FreeList.parts_ok _ _ P) as [R -> [Hc0 _]].
    pose proof (FreeList.regions_ok_total _ _ Hc0 R). lia. }
  assert (4096 * Z.of_nat (base.size (slots (pool st))) ≤ FreeList.used (allocator (pool st))).
  { apply B. intros o s Hin. by apply (FreeList.parts_bounds _ _ P) in Hin as [? _]. }
  lia.
Qed.

(** * Operations preserve the invariant *)

(** The frame every operation on the cache keeps. *)
Definition same_frame (st st' : MemoryTierState) : Prop :=
  pool_ptr st' = pool_ptr st ∧ pool_size st' = pool_size st ∧
  cache_size st' = cache_size st ∧ bounce st' = bounce st ∧ pool_id st' = pool_id st.

Lemma ok_with_pool t p ep tr :
  ok t → pol_ok ep → live ep (pool_id (state t)) = Some tr →
  tracks (pool_id (state t)) (slots p) tr →
  pool_ok (set_pool (state t) p) →
  ok (mkTier (set_pool (state t) p) (Some ep)).
Proof.
  intros [Hi _ _ [B1 B2] [L1 L2 L3]] Hp Hl Ht Hk. split; simpl; [done| |done|by split|by split].
  exists ep, tr. done.
Qed.

Lemma view_lookup_None t k : view t !! k = None ↔ slots (pool (state t)) !! k = None.
Proof. unfold view. by rewrite lookup_fmap, fmap_None. Qed.

Lemma tier_insert_spec t k sz :
  ok t → 0 < sz → is_u 32 sz →
  (is_Some (view t !! k) ∧ insert t k sz = Ret (Err (AlreadyExists k), t)) ∨
  (view t !! k = None ∧
   (∀ o s, (o, s) ∈ FreeList.free_regions (allocator (pool (state t))) → s < FreeList.aligned sz) ∧
   insert t k sz = Ret (Err PoolFull, t)) ∨
  (view t !! k = None ∧ ∃ p t', insert t k sz = Ret (Ok p, t') ∧ ok t' ∧
   view t' = <[k := (p, sz)]> (view t) ∧ used t' = used t + FreeList.aligned sz ∧
   same_frame (state t) (state t')).
Proof.
  intros O H0 Hu. pose proof O as [Hi (ep & tr & Hep & Hpo & Hl & Ht) PO _ LO].
  pose proof (slots_count _ PO LO) as Hcount. destruct PO as [P Hc Hs].
  unfold insert. rewrite Hi, Hep. destruct (Z.eqb_spec sz 0); [lia|]. simpl.
  unfold view at 1. rewrite lookup_fmap, fmap_is_Some, view_lookup_None.
  case_bool_decide as Hk; [by left|right]. apply eq_None_not_Some in Hk.
  pose proof (FreeList.aligned_u32 _ H0 Hu) as Ha.
  pose proof (FreeList.allocate_spec _ sz (FreeList.parts_ok _ _ P) H0 ltac:(lia)) as Sp.
  unfold FreeList.can_allocate. destruct (Z.eqb_spec sz 0); [lia|].
  rewrite FreeList.next_multiple_of_aligned by lia. simpl. rewrite FreeList.find_existsb.
  destruct (List.find _ _) as [[off rs]|] eqn:F; simpl.
  2: { left. split_and!; [done| |done]. by apply FreeList.find_none. }
  right. split; [done|]. destruct Sp as (_ & _ & E).
  destruct (track_law ep _ k default_semantics tr Hpo Hl) as (i & ep' & -> & Hpo' & Hi' & Hl' & _).
  { intros i Htr. destruct Ht as [_ Hb]. destruct (Hb _ _ Htr) as (sl & ? & _). congruence. }
  { pose proof (tracks_size _ _ _ Ht). lia. }
  simpl. rewrite E. simpl.
  destruct (FreeList.parts_alloc _ _ _ _ _ P H0 ltac:(lia) E) as (P' & Ec' & Eu').
  eexists _, _. split; [done|]. split_and!.
  - eapply ok_with_pool; [done..|by apply tracks_insert|]. split; simpl.
    + eapply FreeList.parts_perm; [|exact P']. by rewrite slot_blocks_insert.
    + simpl in Ec'. congruence.
    + intros k' sl'. rewrite lookup_insert_Some. intros [[<- <-]|[_ ?]]; [done|eauto].
  - unfold view. simpl. by rewrite fmap_insert.
  - unfold used. simpl. by rewrite Hi.
  - done.
Qed.

(** Dropping the slot of [k] and giving its block back. *)
Lemma drop_slot st k sl :
  pool_ok st → slots (pool st) !! k = Some sl →
  ∃ a, FreeList.deallocate (allocator (pool st)) (offset sl) (size sl) = Ret a ∧
       pool_ok (set_pool st (mkPool a (delete k (slots (pool st))))) ∧
       FreeList.used a = FreeList.used (allocator (pool st)) - FreeList.aligned (size sl).
Proof.
  intros [P Hc Hs] Hk.
  pose proof (FreeList.parts_perm _ _ _ (slot_blocks_delete _ _ _ Hk) P) as P1.
  destruct (FreeList.parts_free _ _ _ _ P1) as (a & E & P' & Ec & Eu).
  exists a. split_and!; [done| |done]. split; simpl; [done|congruence|].
  intros k' sl' [_ ?]%lookup_delete_Some. eauto.
Qed.

Lemma tier_remove_spec t k :
  ok t →
  match view t !! k with
  | None => remove t k = Ret (Err (KeyNotFound k), t)
  | Some (_, sz) =>
      ∃ t', remove t k = Ret (Ok (), t') ∧ ok t' ∧ view t' = delete k (view t) ∧
            used t' = used t - FreeList.aligned sz ∧ same_frame (state t) (state t')
  end.
Proof.
  intros O. pose proof O as [Hi (ep & tr & Hep & Hpo & Hl & Ht) PO _ _].
  unfold remove. rewrite Hi, Hep. simpl. unfold view at 1. rewrite lookup_fmap.
  destruct (slots (pool (state t)) !! k) as [sl|] eqn:Hk; simpl; [|done].
  destruct (proj1 Ht _ _ Hk) as (i & Eh & Htr). rewrite Eh.
  destruct (remove_law ep _ i k tr Hpo Hl Htr) as (ep' & -> & Hpo' & Hl' & _). simpl.
  destruct (drop_slot _ _ _ PO Hk) as (a & -> & PO' & Eu). simpl.
  eexists. split; [done|]. split_and!.
  - eapply ok_with_pool; [done..|by apply tracks_delete|done].
  - unfold view. simpl. by rewrite fmap_delete.
  - unfold used. simpl. by rewrite Hi.
  - done.
Qed.

Lemma evict_identify_spec t :
  ok t →
  (view t = ∅ ∧ evict_identify t = Ret (None, t)) ∨
  ∃ k sl ep, slots (pool (state t)) !! k = Some sl ∧
    evict_identify t = Ret (Some k, mkTier (state t) (Some ep)) ∧ pol_ok ep ∧
    ∃ tr, live ep (pool_id (state t)) = Some tr ∧
          tracks (pool_id (state t)) (delete k (slots (pool (state t)))) tr.
Proof.
  intros O. pose proof O as [Hi (ep & tr & Hep & Hpo & Hl & Ht) _ _ _].
  unfold evict_identify. rewrite Hi, Hep. simpl.
  destruct (decide (tr = ∅)) as [->|Hne].
  - left. rewrite (evict_empty_law ep _ Hpo Hl). simpl. split; [|destruct t; simpl in *; congruence].
    unfold view. apply map_eq. intros k. rewrite lookup_fmap, lookup_empty, fmap_None.
    destruct (slots _ !! k) as [sl|] eqn:Hk; [|done].
    destruct (proj1 Ht _ _ Hk) as (i & _ & Hx). by rewrite lookup_empty in Hx.
  - right. destruct (evict_law ep _ tr Hpo Hl Hne) as (i & k & ep' & -> & Hpo' & Htr & Hl' & _).
    destruct (proj2 Ht _ _ Htr) as (sl & Hs & Eh).
    exists k, sl, ep'. split_and!; [done..|]. eexists. split; [done|]. by apply tracks_delete.
Qed.

Lemma evict_next_spec t :
  ok t →
  (view t = ∅ ∧ evict_next t = Ret (None, t)) ∨
  ∃ k p sz t', view t !! k = Some (p, sz) ∧ evict_next t = Ret (Some k, t') ∧ ok t' ∧
    view t' = delete k (view t) ∧ used t' = used t - FreeList.aligned sz ∧
    same_frame (state t) (state t').
Proof.
  intros O. unfold evict_next.
  destruct (evict_identify_spec t O) as [[Hv ->]|(k & sl & ep & Hk & -> & Hpo & tr & Hl & Ht)];
    [by left|right]. simpl.
  destruct (drop_slot _ _ _ (ok_pool _ O) Hk) as (a & E & PO' & Eu).
  unfold evict_reclaim. simpl. rewrite Hk, E. simpl.
  eexists k, _, _, _. split; [unfold view; by rewrite lookup_fmap, Hk|].
  split; [done|]. split_and!.
  - by eapply ok_with_pool.
  - unfold view. simpl. by rewrite fmap_delete.
  - unfold used. simpl. by rewrite (ok_init _ O).
  - done.
Qed.

(** Touching only reorders the policy's ranking. *)
Lemma ok_with_policy t ep tr :
  ok t → pol_ok ep → live ep (pool_id (state t)) = Some tr →
  tracks (pool_id (state t)) (slots (pool (state t))) tr →
  ok (mkTier (state t) (Some ep)).
Proof. intros [????] ???. split; simpl; try done. by exists ep, tr. Qed.

Lemma tier_get_spec t k :
  ok t → ∃ t', get t k = Ret (view t !! k, t') ∧ ok t' ∧ state t' = state t.
Proof.
  intros O. pose proof O as [Hi (ep & tr & Hep & Hpo & Hl & Ht) _ _ _].
  unfold get, view. rewrite Hi, Hep. simpl. rewrite lookup_fmap.
  destruct (slots (pool (state t)) !! k) as [sl|] eqn:Hk; simpl; [|by exists t].
  destruct (proj1 Ht _ _ Hk) as (i & Eh & Htr). rewrite Eh.
  destruct (touch_law ep _ i k tr Hpo Hl Htr) as (ep' & -> & Hpo' & Hl'). simpl.
  eexists. split; [done|]. split; [|done]. eapply ok_with_policy; [done|done|by rewrite Hl'|done].
Qed.

Lemma tier_touch_spec t k : ok t → ∃ t', touch t k = Ret t' ∧ ok t' ∧ state t' = state t.
Proof.
  intros O. pose proof O as [Hi (ep & tr & Hep & Hpo & Hl & Ht) _ _ _].
  unfold touch. rewrite Hi, Hep. simpl.
  destruct (slots (pool (state t)) !! k) as [sl|] eqn:Hk; simpl; [|by exists t].
  destruct (proj1 Ht _ _ Hk) as (i & Eh & Htr). rewrite Eh.
  destruct (touch_law ep _ i k tr Hpo Hl Htr) as (ep' & -> & Hpo' & Hl'). simpl.
  eexists. split; [done|]. split; [|done]. eapply ok_with_policy; [done|done|by rewrite Hl'|done].
Qed.

Lemma tier_batch_touch_spec t ks : ok t → ∃ t', batch_touch t ks = Ret t' ∧ ok t' ∧ state t' = state t.
Proof.
  intros O. pose proof O as [Hi (ep & tr & Hep & Hpo & Hl & Ht) _ _ _].
  unfold batch_touch. rewrite Hi, Hep. case_bool_decide; [by exists t|]. simpl.
  edestruct (batch_touch_law ep) as (ep' & -> & Hpo' & Hl'); [done| |].
  2: { simpl. eexists. split; [done|]. split; [|done].
       eapply ok_with_policy; [done|done|by rewrite Hl'|done]. }
  apply Forall_forall. intros h (k & Hin & Hk)%list_elem_of_omap.
  apply fmap_Some in Hk as (sl & Hk & ->).
  destruct (proj1 Ht _ _ Hk) as (i & -> & Htr). exists tr. simpl. rewrite Htr. eauto.
Qed.

Lemma tier_clear_spec t :
  ok t → ∃ t', clear t = Ret (Ok (base.size (view t)), t') ∧ ok t' ∧ view t' = ∅ ∧ used t' = 0 ∧
               same_frame (state t) (state t').
Proof.
  intros O. pose proof O as [Hi (ep & tr & Hep & Hpo & Hl & Ht) PO _ LO].
  unfold clear. rewrite Hi, Hep. simpl. unfold view at 1. rewrite map_size_fmap.
  eexists. split; [done|]. destruct (clear_law ep _ _ Hpo Hl) as (Hpo' & Hl' & _). split_and!.
  - eapply ok_with_pool; [done..|apply tracks_empty|]. split; simpl; [|done|].
    + unfold slot_blocks. rewrite map_to_list_empty. apply FreeList.parts_new.
      rewrite <- (po_cap _ PO). apply (FreeList.ok_cap _ (FreeList.parts_ok _ _ (po_parts _ PO))).
    + intros k sl. by rewrite lookup_empty.
  - unfold view. simpl. apply fmap_empty.
  - unfold used. simpl. by rewrite Hi.
  - done.
Qed.

(** * The bounce reserve *)

Lemma ok_with_bounce t b :
  ok t → bounce_ok (set_bounce (state t) b) →
  FreeList.capacity (ballocator b) = FreeList.capacity (ballocator (bounce (state t))) →
  ok (mkTier (set_bounce (state t) b) (eviction_policy t)).
Proof.
  intros [Hi Hp [? ? ?] _ [? ? ?]] Hb Hc. split; simpl; [done|done|by split|done|].
  split; simpl; [done|by rewrite Hc|done].
Qed.

Definition fits (t : Tier S) (l : Z) : Prop :=
  spdk_allocated (state t) = true ∧ 0 < l ∧
  FreeList.aligned l ≤ FreeList.capacity (ballocator (bounce (state t))).

(** The address of the buffer at offset [o] of the reserve. *)
Definition bounce_addr (st : MemoryTierState) (o : Z) : Z := pool_ptr st + (cache_size st + o).

Lemma bounce_alloc_spec t l :
  ok t → is_u 32 l →
  (¬ fits t l ∧ bounce_alloc t l = Ret (Err NeverFits, t)) ∨
  (fits t l ∧ bounce_alloc t l = Ret (Err NoSpace, t) ∧ blive (bounce (state t)) ≠ ∅) ∨
  (fits t l ∧ ∃ o t', blive (bounce (state t)) !! o = None ∧
     bounce_alloc t l = Ret (Ok (mkBuffer (bounce_addr (state t) o) l), t') ∧ ok t' ∧
     FreeList.allocate (ballocator (bounce (state t))) l = Ret (Some o, ballocator (bounce (state t'))) ∧
     state t' = set_bounce (state t) (bounce (state t')) ∧ eviction_policy t' = eviction_policy t ∧
     blive (bounce (state t')) = <[o := l]> (blive (bounce (state t)))).
Proof.
  intros O Hu. pose proof O as [Hi _ _ [P Hs] _]. pose proof Hu as [Hl0 _].
  unfold bounce_alloc, fits. rewrite Hi. simpl.
  destruct (spdk_allocated (state t)); [|by left; naive_solver]. simpl.
  destruct (Z.eqb_spec l 0) as [->|Hl]; [left; split; [lia|done]|].
  pose proof (FreeList.aligned_u32 l ltac:(lia) Hu) as Ha.
  fold FreeList.ALIGNMENT. rewrite FreeList.next_multiple_of_aligned by lia. simpl.
  destruct (Z.ltb_spec (FreeList.capacity (ballocator (bounce (state t)))) (FreeList.aligned l));
    [left; split; [lia|done]|right].
  pose proof (FreeList.allocate_spec _ l (FreeList.parts_ok _ _ P) ltac:(lia) ltac:(lia)) as Sp.
  destruct (List.find _ _) as [[o rs]|] eqn:F.
  - right. destruct Sp as (_ & _ & E). split; [lia|].
    destruct (FreeList.parts_alloc _ _ l _ _ P ltac:(lia) ltac:(lia) E) as (P' & Ec & _).
    assert (blive (bounce (state t)) !! o = None) as Hn.
    { apply eq_None_not_Some. intros [l' Hl'%elem_of_map_to_list].
      destruct (FreeList.parts_bounds _ _ P _ _ Hl') as (Hp' & _).
      pose proof (FreeList.aligned_bounds l' Hp'). pose proof (FreeList.aligned_bounds l ltac:(lia)).
      destruct (FreeList.parts_disjoint _ _ _ _ _ _ P' Hl'); lia. }
    eexists o, _. rewrite E. simpl. split; [done|]. split; [done|]. split_and!; [|done..].
    apply ok_with_bounce; [done| |done]. split; simpl.
    + eapply FreeList.parts_perm; [|exact P']. by rewrite map_to_list_insert.
    + intros o' l'. rewrite lookup_insert_Some. intros [[_ <-]|[_ ?]]; [done|eauto].
  - left. rewrite Sp. simpl. split_and!; [lia..|done|]. intros Hb.
    rewrite Hb, map_to_list_empty in P. by eapply FreeList.find_empty_pool; [..|exact F]; try lia.
Qed.

Lemma bounce_block_bounds t o l :
  ok t → blive (bounce (state t)) !! o = Some l →
  0 < l ∧ 0 ≤ o ∧ o + FreeList.aligned l ≤ FreeList.capacity (ballocator (bounce (state t))).
Proof.
  intros O Hl%elem_of_map_to_list.
  by destruct (FreeList.parts_bounds _ _ (bo_parts _ (ok_bounce _ O)) _ _ Hl) as (? & ? & ? & _).
Qed.

Lemma bounce_free_spec t o l :
  ok t → blive (bounce (state t)) !! o = Some l →
  ∃ t', bounce_free t (mkBuffer (bounce_addr (state t) o) l) = Ret t' ∧ ok t' ∧
    FreeList.deallocate (ballocator (bounce (state t))) o l = Ret (ballocator (bounce (state t'))) ∧
    state t' = set_bounce (state t) (bounce (state t')) ∧ eviction_policy t' = eviction_policy t ∧
    blive (bounce (state t')) = delete o (blive (bounce (state t))).
Proof.
  intros O Hl. pose proof (bounce_block_bounds _ _ _ O Hl) as (Hp & Ho & Hc).
  pose proof (FreeList.aligned_bounds l Hp) as [? _].
  pose proof O as [_ _ _ [P Hs] [_ (? & ? & ?) (? & ?)]].
  unfold bounce_free, bounce_addr. simpl. rewrite add_w_Ret by lia. simpl.
  replace (pool_ptr (state t) + (cache_size (state t) + o) - (pool_ptr (state t) + cache_size (state t)))
    with o by lia.
  rewrite Z.mod_small by lia. rewrite Hl, Z.eqb_refl.
  apply (FreeList.parts_perm _ _ ((o, l) :: map_to_list (delete o (blive (bounce (state t)))))) in P;
    [|by rewrite map_to_list_delete].
  destruct (FreeList.parts_free _ _ _ _ P) as (a & -> & P' & Ec & _). simpl.
  eexists. split; [done|]. split_and!; [|done..].
  apply ok_with_bounce; [done| |done]. split; simpl; [done|].
  intros o' l' [_ ?]%lookup_delete_Some. eauto.
Qed.

Lemma bounce_reserve_bounds req psize :
  0 ≤ req → 0 ≤ psize →
  0 ≤ bounce_reserve_bytes req psize ≤ req ∧ bounce_reserve_bytes req psize ≤ psize / 8 ∧
  (4096 | bounce_reserve_bytes req psize).
Proof.
  intros Hr Hp. unfold bounce_reserve_bytes.
  assert (0 ≤ psize / 8) by (apply Z.div_pos; lia).
  pose proof (Z.mul_div_le (Z.min req (psize / 8)) 4096 ltac:(lia)).
  assert (0 ≤ Z.min req (psize / 8) / 4096) by (apply Z.div_pos; lia).
  split_and!; [lia..|]. by eexists.
Qed.

Lemma initialize_spec t ep psize p spdk :
  initialized (state t) = false → eviction_policy t = Some ep → pol_ok ep →
  Z.of_nat (pool_count ep) < 2 ^ 32 → 0 ≤ bounce_request (state t) →
  0 < psize < 2 ^ 44 → 0 ≤ p → p + psize < 2 ^ 64 →
  ∃ t', initialize t psize (Some (p, spdk)) = Ret (Ok (), t') ∧ ok t' ∧
        view t' = ∅ ∧ used t' = 0 ∧ pool_ptr (state t') = p ∧ pool_size (state t') = psize ∧
        spdk_allocated (state t') = spdk ∧
        let reserve := bounce_reserve_bytes (bounce_request (state t)) psize in
        bounce_usage t' = (reserve, 0) ∧
        (reserve ≠ 0 → (4096 | cache_size (state t')) ∧ psize - reserve - 4096 < cache_size (state t')).
Proof.
  intros Hi Hep Hpo Hc Hr Hps Hp Ha. unfold initialize. rewrite Hep, Hi.
  destruct (Z.eqb_spec psize 0); [lia|].
  destruct (create_pool_law ep Hpo Hc) as (ep' & -> & Hpo' & _ & Hl & _).
  destruct (bounce_reserve_bounds (bounce_request (state t)) psize Hr ltac:(lia)) as (B1 & B2 & B3).
  pose proof (Z.mul_div_le psize 8 ltac:(lia)).
  set (reserve := bounce_reserve_bytes (bounce_request (state t)) psize) in *.
  assert (∃ c, (if reserve =? 0 then Ret psize else d ← sub_w psize reserve; Ret (d / 4096 * 4096))
               = Ret c ∧ 0 ≤ c ∧ c + reserve ≤ psize ∧
               (reserve ≠ 0 → (4096 | c) ∧ psize - reserve - 4096 < c)) as (c & -> & C1 & C2 & C3).
  { destruct (Z.eqb_spec reserve 0) as [E0|N0].
    - exists psize. split_and!; [done|lia|lia|done].
    - rewrite sub_w_Ret by lia. eexists. split; [done|].
      pose proof (Z.mul_div_le (psize - reserve) 4096 ltac:(lia)).
      pose proof (Z.mul_succ_div_gt (psize - reserve) 4096 ltac:(lia)).
      assert (0 ≤ (psize - reserve) / 4096) by (apply Z.div_pos; lia).
      split_and!; [lia|lia|]. intros _. split; [by eexists|lia]. }
  simpl. eexists. split; [done|]. split_and!; [|unfold view; simpl; apply fmap_empty|done..].
  split; simpl; [done|exists ep', ∅; split_and!; [done..|apply tracks_empty]|..].
  - split; simpl; [|done|intros ??; by rewrite lookup_empty].
    unfold slot_blocks. rewrite map_to_list_empty. apply FreeList.parts_new. split; lia.
  - split; simpl; [|intros ??; by rewrite lookup_empty].
    rewrite map_to_list_empty. apply FreeList.parts_new. split; lia.
  - split; simpl; [lia|lia|lia].
Qed.

(** * The abstract cache

    A client sees a finite map from keys to buffers and a finite map of bounce
    buffers; everything else is the implementation's. *)

Record Abs := mkAbs { cached : gmap Z (Z * Z); buffers : gmap Z Z }.

Definition abs (t : Tier S) : Abs := mkAbs (view t) (blive (bounce (state t))).

Inductive op :=
| OInsert (k sz : Z) | OGet (k : Z) | OTouch (k : Z) | OBatchTouch (ks : list Z)
| ORemove (k : Z) | OEvict | OClear | OBounceAlloc (l : Z) | OBounceFree (b : BounceBuffer).

Inductive out :=
| RInsert (r : result Z MemoryTierError) | RGet (r : option (Z * Z)) | RUnit
| RRemove (r : result unit MemoryTierError) | REvict (r : option Z)
| RClear (r : result nat MemoryTierError) | RBounce (r : result BounceBuffer BounceError).

Definition exec (t : Tier S) (o : op) : outcome (out * Tier S) :=
  match o with
  | OInsert k sz => '(r, t) ← insert t k sz; Ret (RInsert r, t)
  | OGet k => '(r, t) ← get t k; Ret (RGet r, t)
  | OTouch k => t ← touch t k; Ret (RUnit, t)
  | OBatchTouch ks => t ← batch_touch t ks; Ret (RUnit, t)
  | ORemove k => '(r, t) ← remove t k; Ret (RRemove r, t)
  | OEvict => '(r, t) ← evict_next t; Ret (REvict r, t)
  | OClear => '(r, t) ← clear t; Ret (RClear r, t)
  | OBounceAlloc l => '(r, t) ← bounce_alloc t l; Ret (RBounce r, t)
  | OBounceFree b => t ← bounce_free t b; Ret (RUnit, t)
  end.

(** What an operation may answer, and the cache it leaves. [base] is the
    address of the bounce reserve. *)
Inductive abs_step (base : Z) (a : Abs) : op → out → Abs → Prop :=
| AInsertDup k sz : is_Some (cached a !! k) →
    abs_step base a (OInsert k sz) (RInsert (Err (AlreadyExists k))) a
| AInsertFull k sz : cached a !! k = None →
    abs_step base a (OInsert k sz) (RInsert (Err PoolFull)) a
| AInsert k sz p : cached a !! k = None →
    abs_step base a (OInsert k sz) (RInsert (Ok p)) (mkAbs (<[k := (p, sz)]> (cached a)) (buffers a))
| AGet k : abs_step base a (OGet k) (RGet (cached a !! k)) a
| ATouch k : abs_step base a (OTouch k) RUnit a
| ABatchTouch ks : abs_step base a (OBatchTouch ks) RUnit a
| ARemoveNone k : cached a !! k = None →
    abs_step base a (ORemove k) (RRemove (Err (KeyNotFound k))) a
| ARemove k : is_Some (cached a !! k) →
    abs_step base a (ORemove k) (RRemove (Ok ())) (mkAbs (delete k (cached a)) (buffers a))
| AEvictNone : cached a = ∅ → abs_step base a OEvict (REvict None) a
| AEvict k : is_Some (cached a !! k) →
    abs_step base a OEvict (REvict (Some k)) (mkAbs (delete k (cached a)) (buffers a))
| AClear : abs_step base a OClear (RClear (Ok (base.size (cached a)))) (mkAbs ∅ (buffers a))
| ABounceNever l : abs_step base a (OBounceAlloc l) (RBounce (Err NeverFits)) a
| ABounceFull l : buffers a ≠ ∅ → abs_step base a (OBounceAlloc l) (RBounce (Err NoSpace)) a
| ABounce l o : buffers a !! o = None →
    abs_step base a (OBounceAlloc l) (RBounce (Ok (mkBuffer (base + o) l)))
      (mkAbs (cached a) (<[o := l]> (buffers a)))
| ABounceFree o l : buffers a !! o = Some l →
    abs_step base a (OBounceFree (mkBuffer (base + o) l)) RUnit
      (mkAbs (cached a) (delete o (buffers a))).

(** Requests the interface allows: non-zero [u32] sizes, and only live buffers
    are freed. *)
Definition op_ok (t : Tier S) (o : op) : Prop :=
  match o with
  | OInsert _ sz => 0 < sz ∧ is_u 32 sz
  | OBounceAlloc l => is_u 32 l
  | OBounceFree b => ∃ o, ptr b = bounce_addr (state t) o ∧ blive (bounce (state t)) !! o = Some (len b)
  | _ => True
  end.

Lemma abs_same_frame t t' m :
  same_frame (state t) (state t') → view t' = m → abs t' = mkAbs m (buffers (abs t)).
Proof. intros (_ & _ & _ & E & _) <-. unfold abs. simpl. by rewrite E. Qed.

Lemma abs_same_state t t' : state t' = state t → abs t' = abs t.
Proof. intros E. unfold abs, view. by rewrite E. Qed.

Lemma abs_bounce t t' b :
  state t' = set_bounce (state t) (bounce (state t')) → blive (bounce (state t')) = b →
  abs t' = mkAbs (cached (abs t)) b.
Proof. intros E <-. unfold abs, view. rewrite E. done. Qed.

(** C16. The memory tier implements the abstract cache, over any eviction
    policy that keeps the interface's laws: from a well-formed state every
    operation returns (nothing panics), answers as the abstract cache may, and
    leaves a well-formed state that stands for the abstract result. *)
Theorem memory_tier_refines t o :
  ok t → op_ok t o →
  ∃ r t', exec t o = Ret (r, t') ∧ ok t' ∧
          abs_step (pool_ptr (state t) + cache_size (state t)) (abs t) o r (abs t').
Proof.
  intros O V. destruct o as [k sz|k|k|ks|k| | |l|b]; simpl.
  - destruct V as [V1 V2].
    destruct (tier_insert_spec t k sz O V1 V2) as [[Hv ->]|[(Hv & _ & ->)|(Hv & p & t' & -> & O' & Ev & _ & F)]];
      eexists _, _; split; [done|split; [done|by constructor]|done|split; [done|by constructor]|done|].
    split; [done|]. rewrite (abs_same_frame _ _ _ F Ev). by constructor.
  - destruct (tier_get_spec t k O) as (t' & -> & O' & E). eexists _, _. split; [done|].
    split; [done|]. rewrite (abs_same_state _ _ E). constructor.
  - destruct (tier_touch_spec t k O) as (t' & -> & O' & E). eexists _, _. split; [done|].
    split; [done|]. rewrite (abs_same_state _ _ E). constructor.
  - destruct (tier_batch_touch_spec t ks O) as (t' & -> & O' & E). eexists _, _. split; [done|].
    split; [done|]. rewrite (abs_same_state _ _ E). constructor.
  - pose proof (tier_remove_spec t k O) as R. destruct (view t !! k) as [[p sz]|] eqn:Hv.
    + destruct R as (t' & -> & O' & Ev & _ & F). eexists _, _. split; [done|]. split; [done|].
      rewrite (abs_same_frame _ _ _ F Ev). constructor. by exists (p, sz).
    + rewrite R. eexists _, _. split; [done|]. split; [done|]. by constructor.
  - destruct (evict_next_spec t O) as [[Hv ->]|(k & p & sz & t' & Hv & -> & O' & Ev & _ & F)];
      eexists _, _; (split; [done|]); (split; [done|]); [by constructor|].
    rewrite (abs_same_frame _ _ _ F Ev). constructor. by exists (p, sz).
  - destruct (tier_clear_spec t O) as (t' & -> & O' & Ev & _ & F). eexists _, _. split; [done|].
    split; [done|]. rewrite (abs_same_frame _ _ _ F Ev). constructor.
  - destruct (bounce_alloc_spec t l O V)
      as [[_ ->]|[(_ & -> & Hb)|(_ & o & t' & Hn & -> & O' & _ & Es & _ & Eb)]];
      eexists _, _; (split; [done|]); (split; [done|]); [by constructor|by constructor|].
    rewrite (abs_bounce _ _ _ Es Eb). unfold bounce_addr. rewrite Z.add_assoc. by constructor.
  - destruct b as [p l], V as (o & Hp & Hb). simpl in Hp, Hb. subst p.
    destruct (bounce_free_spec t o l O Hb) as (t' & -> & O' & _ & Es & _ & Eb).
    eexists _, _. split; [done|]. split; [done|].
    rewrite (abs_bounce _ _ _ Es Eb). unfold bounce_addr. rewrite Z.add_assoc. by constructor.
Qed.

Lemma slots_apart t k k' p s p' s' :
  ok t → k ≠ k' → view t !! k = Some (p, s) → view t !! k' = Some (p', s') →
  p + FreeList.aligned s ≤ p' ∨ p' + FreeList.aligned s' ≤ p.
Proof.
  intros [_ _ [P Hc _] _ _] Hne. unfold view. rewrite !lookup_fmap.
  intros (sl & Hs & [= -> ->])%fmap_Some (sl' & Hs' & [= -> ->])%fmap_Some.
  pose proof (FreeList.parts_perm _ _ _ (slot_blocks_delete _ _ _ Hs) P) as P1.
  assert ((offset sl', size sl') ∈ slot_blocks (delete k (slots (pool (state t))))) as Hin.
  { apply slot_blocks_elem. exists k', sl'. by rewrite lookup_delete_ne. }
  destruct (FreeList.parts_disjoint _ _ _ _ _ _ P1 Hin); lia.
Qed.

(** Cached entries never overlap: two keys own disjoint page ranges, every
    range lies inside the cache part of the pool, and no bounce buffer shares a
    byte with a cached entry. *)
Theorem memory_tier_no_overlap t :
  ok t →
  (∀ k k' p s p' s', k ≠ k' → view t !! k = Some (p, s) → view t !! k' = Some (p', s') →
     p + FreeList.aligned s ≤ p' ∨ p' + FreeList.aligned s' ≤ p) ∧
  (∀ k p s, view t !! k = Some (p, s) →
     pool_ptr (state t) ≤ p ∧
     p + FreeList.aligned s ≤ pool_ptr (state t) + cache_size (state t)) ∧
  (∀ o l, blive (bounce (state t)) !! o = Some l →
     pool_ptr (state t) + cache_size (state t) ≤ bounce_addr (state t) o ∧
     bounce_addr (state t) o + FreeList.aligned l ≤ pool_ptr (state t) + pool_size (state t)).
Proof.
  intros O. pose proof O as [_ _ [P Hc _] _ [_ (? & ? & ?) _]]. split_and!.
  - intros k k' p s p' s' Hne. by apply slots_apart.
  - intros k p s. unfold view. rewrite lookup_fmap. intros (sl & Hs & [= -> ->])%fmap_Some.
    assert ((offset sl, size sl) ∈ slot_blocks (slots (pool (state t)))) as Hin
      by (apply slot_blocks_elem; eauto).
    destruct (FreeList.parts_bounds _ _ P _ _ Hin) as (? & ? & ? & _). lia.
  - intros o l Hl. destruct (bounce_block_bounds _ _ _ O Hl) as (? & ? & ?).
    unfold bounce_addr. lia.
Qed.

(** [initialize] sets up a well-formed, empty tier: at most an eighth of
    the pool becomes the bounce reserve, and the reserve starts on a page at
    most one page after the bytes the cache could otherwise use. *)
Theorem memory_tier_initialize t ep psize p spdk :
  initialized (state t) = false → eviction_policy t = Some ep → pol_ok ep →
  Z.of_nat (pool_count ep) < 2 ^ 32 → 0 ≤ bounce_request (state t) →
  0 < psize < 2 ^ 44 → 0 ≤ p → p + psize < 2 ^ 64 →
  ∃ t', initialize t psize (Some (p, spdk)) = Ret (Ok (), t') ∧ ok t' ∧ view t' = ∅ ∧
    ∃ reserve, bounce_usage t' = (reserve, 0) ∧ reserve ≤ psize / 8 ∧
      reserve ≤ bounce_request (state t) ∧
      (reserve ≠ 0 → (4096 | cache_size (state t')) ∧
                     psize - reserve - 4096 < cache_size (state t')).
Proof.
  intros Hi Hep Hpo Hc Hr Hps Hp Ha.
  destruct (initialize_spec t ep psize p spdk Hi Hep Hpo Hc Hr Hps Hp Ha)
    as (t' & E & O & Ev & _ & _ & _ & _ & Eb & Hres).
  destruct (bounce_reserve_bounds (bounce_request (state t)) psize Hr ltac:(lia)) as (B1 & B2 & _).
  exists t'. split; [done|]. split; [done|]. split; [done|]. eexists. split; [exact Eb|].
  split_and!; [done|lia|done].
Qed.

(** A refused insert changes nothing at all, the eviction policy included:
    for a duplicate key and for a pool without room, the state afterwards is the
    state before. *)
Theorem memory_tier_refusal_is_noop t k sz e t' :
  ok t → 0 < sz → is_u 32 sz → insert t k sz = Ret (Err e, t') → t' = t.
Proof.
  intros O H0 Hu E.
  destruct (tier_insert_spec t k sz O H0 Hu) as [[_ E']|[(_ & _ & E')|(_ & p & t2 & E' & _)]]; congruence.
Qed.

(** Evicting as often as there are cached entries empties the cache and
    frees every byte: each call gives back one entry's pages, whatever order the
    policy chooses. *)
Theorem memory_tier_evict_all t :
  ok t → ∃ t', Nat.iter (base.size (view t)) (λ c, '(_, t) ← c; evict_next t) (Ret (None, t))
               = Ret t' ∧ ok t'.2 ∧ view t'.2 = ∅ ∧ used t'.2 = 0.
Proof.
  intros O. remember (base.size (view t)) as n eqn:Hn. revert t O Hn.
  assert (∀ n t k0, ok t → n = base.size (view t) →
    ∃ t', Nat.iter n (λ c, '(_, t) ← c; evict_next t) (Ret (k0, t)) = Ret t' ∧
          ok t'.2 ∧ view t'.2 = ∅) as Hit.
  { clear n. induction n as [|n IH]; intros t k0 O Hn.
    - exists (k0, t). split_and!; [done..|]. by apply map_size_empty_inv.
    - rewrite Nat.iter_succ_r. simpl.
      destruct (evict_next_spec t O) as [[Hv _]|(k & p & sz & t' & Hv & -> & O' & Ev & _)].
      { rewrite Hv, map_size_empty in Hn. lia. }
      apply IH; [done|]. rewrite Ev, map_size_delete_Some by (by eexists). lia. }
  intros t O Hn. destruct (Hit n t None O Hn) as (t' & E & O' & Ev). exists t'.
  split_and!; [done..|]. unfold used. rewrite (ok_init _ O').
  pose proof (po_parts _ (ok_pool _ O')) as P. rewrite (FreeList.parts_used _ _ P).
  unfold view in Ev. apply fmap_empty_inv in Ev. by rewrite Ev.
Qed.

(** Freeing a bounce buffer undoes its allocation exactly. *)
Theorem bounce_round_trip t l b t' :
  ok t → is_u 32 l → bounce_alloc t l = Ret (Ok b, t') → bounce_free t' b = Ret t.
Proof.
  intros O Hu E.
  destruct (bounce_alloc_spec t l O Hu)
    as [[_ E']|[(_ & E' & _)|((_ & Hp & _) & o & t2 & Hn & E' & O2 & Ea & Es & Ep & Eb)]]; [congruence..|].
  rewrite E in E'. injection E' as -> <-.
  destruct (bounce_free_spec t' o l O2) as (t3 & Hf & _ & Ed & Es3 & Ep3 & Eb3).
  { by rewrite Eb, lookup_insert_eq. }
  replace (bounce_addr (state t) o) with (bounce_addr (state t') o) by (by rewrite Es).
  rewrite Hf. f_equal.
  rewrite (FreeList.free_alloc_id _ _ _ _ (FreeList.parts_ok _ _ (bo_parts _ (ok_bounce _ O))) Hp Hu Ea) in Ed.
  injection Ed as Ed. destruct t as [st e], t3 as [st3 e3]. simpl in *. f_equal; [|congruence].
  rewrite Es3, Es. unfold set_bounce. simpl.
  destruct (bounce st3) as [a3 l3] eqn:E3. simpl in *. subst.
  rewrite Eb, delete_insert_id by done. destruct st as [???? [??] ????]. done.
Qed.

(** The two refusals of [bounce_alloc] mean what the interface says:
    [NeverFits] answers exactly the requests no reserve state could serve, and
    [NoSpace] is only answered while some buffer is live, so the same request
    succeeds once the buffers have been freed. *)
Theorem bounce_refusals t l :
  ok t → is_u 32 l →
  (bounce_alloc t l = Ret (Err NeverFits, t) ↔ ¬ fits t l) ∧
  (bounce_alloc t l = Ret (Err NoSpace, t) → blive (bounce (state t)) ≠ ∅) ∧
  (fits t l → blive (bounce (state t)) = ∅ →
   ∃ b t', bounce_alloc t l = Ret (Ok b, t') ∧ len b = l).
Proof.
  intros O Hu.
  destruct (bounce_alloc_spec t l O Hu)
    as [[Hf E]|[(Hf & E & Hb)|(Hf & o & t2 & Hn & E & _)]]; rewrite E.
  - split_and!; [done|done|]. by intros.
  - split_and!; [|done|by intros]. split; [done|]. intros. done.
  - split_and!; [split; done|done|]. intros _ _. by eexists _, _.
Qed.

(** Freeing anything but a live buffer with its own length panics instead
    of corrupting the reserve. *)
Theorem bounce_free_rejects t b :
  ok t → (∀ o, blive (bounce (state t)) !! o = Some (len b) →
               ptr b mod 2 ^ 64 ≠ bounce_addr (state t) o) →
  bounce_free t b = Panic.
Proof.
  intros O Hno. pose proof O as [_ _ _ _ [_ (? & ? & ?) (? & ?)]].
  unfold bounce_free. rewrite add_w_Ret by lia. simpl.
  destruct (blive _ !! _) as [l|] eqn:Hl; [|done].
  destruct (Z.eqb_spec l (len b)) as [->|]; [|done]. exfalso. apply (Hno _ Hl).
  destruct (bounce_block_bounds _ _ _ O Hl) as (Hp & Ho & Hc).
  pose proof (FreeList.aligned_bounds _ Hp) as [? _]. unfold bounce_addr.
  set (base := pool_ptr (state t) + cache_size (state t)) in *.
  rewrite Z.add_assoc. fold base. rewrite <- (Z.mod_small (base + _) (2 ^ 64)) by lia.
  rewrite Zplus_mod_idemp_r. f_equal. lia.
Qed.

End proofs.

(** * The tier over the LRU policy: concrete states *)

Definition tier_of {A} (c : outcome (A * Tier EvictionLru.EvictionState)) :
    Tier EvictionLru.EvictionState :=
  match c with Ret (_, t) => t | Panic => mkTier default None end.

Definition fresh : Tier EvictionLru.EvictionState :=
  mkTier default (Some (EvictionLru.mkState [])).
Definition empty_tier := tier_of (initialize fresh 1048576 (Some (65536, true))).
Definition one_entry := tier_of (insert empty_tier 1 5000).
Definition one_buffer := tier_of (bounce_alloc one_entry 100).

Lemma fresh_policy_ok : pol_ok (EvictionLru.mkState []).
Proof. constructor. Qed.

Lemma empty_tier_ok : ok empty_tier.
Proof.
  destruct (initialize_spec fresh (EvictionLru.mkState []) 1048576 65536 true)
    as (t' & E & O & _); [done|done|apply fresh_policy_ok|done|done|lia|lia|lia|].
  unfold empty_tier. rewrite E. exact O.
Qed.

Lemma one_entry_ok : ok one_entry.
Proof.
  unfold one_entry.
  destruct (tier_insert_spec empty_tier 1 5000 empty_tier_ok) as [[_ E]|[(_ & _ & E)|(_ & p & t' & E & O & _)]];
    [lia|split; lia|by vm_compute in E..|]. rewrite E. exact O.
Qed.

Lemma one_buffer_ok : ok one_buffer.
Proof.
  unfold one_buffer.
  destruct (bounce_alloc_spec one_entry 100 one_entry_ok)
    as [[_ E]|[(_ & E & _)|(_ & o & t' & _ & E & O & _)]];
    [split; lia|by vm_compute in E..|]. rewrite E. exact O.
Qed.

Lemma memory_tier_refines_witness :
  ∃ r t', exec one_entry (OInsert 2 4096) = Ret (r, t') ∧ ok t'.
Proof.
  destruct (memory_tier_refines one_entry (OInsert 2 4096) one_entry_ok) as (r & t' & E & O & _).
  { split; [lia|split; lia]. }
  exists r, t'. split; [exact E|exact O].
Defined.

Lemma memory_tier_no_overlap_witness :
  ∃ p s, view one_entry !! 1 = Some (p, s) ∧ 65536 ≤ p.
Proof.
  destruct (memory_tier_no_overlap one_entry one_entry_ok) as (_ & H & _).
  exists 65536, 5000. split; [reflexivity|]. apply (H 1 65536 5000). reflexivity.
Defined.


Lemma bounce_round_trip_witness :
  ∃ b, bounce_alloc one_entry 100 = Ret (Ok b, one_buffer) ∧ bounce_free one_buffer b = Ret one_entry.
Proof.
  eexists. split; [reflexivity|].
  apply (bounce_round_trip one_entry 100 _ one_buffer one_entry_ok); [split; lia|reflexivity].
Defined.


(** [evict_next] takes the victim off the policy before it locks the pool.
    If another thread inserts a key (which reuses the victim's handle) and a
    third removes the victim's entry in between, the removal untracks the new
    entry: it stays cached, holds its pages, and no later [evict_next] can find
    it. *)
Theorem evict_remove_race :
  ∃ t1 p t2 t3 t4,
    ok one_entry ∧
    evict_identify one_entry = Ret (Some 1, t1) ∧
    insert t1 2 4096 = Ret (Ok p, t2) ∧
    remove t2 1 = Ret (Ok (), t3) ∧
    evict_reclaim t3 1 = Ret t4 ∧
    view t4 = {[ 2 := (p, 4096) ]} ∧ used t4 = 4096 ∧
    evict_next t4 = Ret (None, t4).
Proof.
  do 5 eexists. split; [apply one_entry_ok|].
  repeat (split; [vm_compute; reflexivity|]). vm_compute. reflexivity.
Qed.

End MemoryTier.
