(* ===== verification/Slab.v ===== *)
(** Slabs of the extent manager: the allocation bitmap
    ([components/extent-manager/src/bitmap.rs]), the slab and the size-class
    table ([components/extent-manager/src/slab.rs]). *)

From S2P Require Import Prelude.

(** * The allocation bitmap *)

Module Bitmap.
#[local] Arguments Nat.div : simpl never.
#[local] Arguments Nat.modulo : simpl never.

Record AllocationBitmap := mkBitmap {
  words : list Z;
  num_slots : nat;
  allocated_count : Z
}.

Definition new (num_slots : nat) : AllocationBitmap :=
  mkBitmap (replicate ((num_slots + 63) / 64) 0%Z) num_slots 0.

(** [debug_assert!] panics in a debug build and is absent from a release one;
    a call that returns here behaves the same in both. *)
Definition debug_assert (b : bool) : outcome unit := if b then Ret () else Panic.

Definition is_set (b : AllocationBitmap) (idx : nat) : outcome bool :=
  _ ← debug_assert (as_u32 idx <? num_slots b);
  w ← vec_get (words b) (idx / 64);
  Ret (Z.land (Z.shiftr w (Z.of_nat (idx mod 64))) 1 =? 1)%Z.

Definition set (b : AllocationBitmap) (idx : nat) : outcome AllocationBitmap :=
  _ ← debug_assert (as_u32 idx <? num_slots b);
  s ← is_set b idx;
  _ ← debug_assert (negb s);
  w ← vec_get (words b) (idx / 64);
  words ← vec_set (words b) (idx / 64) (Z.lor w (Z.shiftl 1 (Z.of_nat (idx mod 64))));
  count ← add_w 32 (allocated_count b) 1;
  Ret (mkBitmap words (num_slots b) count).

Definition clear (b : AllocationBitmap) (idx : nat) : outcome AllocationBitmap :=
  _ ← debug_assert (as_u32 idx <? num_slots b);
  s ← is_set b idx;
  _ ← debug_assert s;
  w ← vec_get (words b) (idx / 64);
  words ← vec_set (words b) (idx / 64) (Z.ldiff w (Z.shiftl 1 (Z.of_nat (idx mod 64))));
  count ← sub_w (allocated_count b) 1;
  Ret (mkBitmap words (num_slots b) count).

(** [for i in 0..n], from [i] with [m] rounds left. *)
Fixpoint find_free_loop (b : AllocationBitmap) (start i m : nat) : outcome (option nat) :=
  match m with
  | O => Ret None
  | S m =>
      let idx := (start + i) mod num_slots b in
      s ← is_set b idx;
      if (s : bool) then find_free_loop b start (S i) m else Ret (Some idx)
  end.

Definition find_free_from (b : AllocationBitmap) (start : nat) : outcome (option nat) :=
  find_free_loop b start 0 (num_slots b).

Definition is_all_free (b : AllocationBitmap) : bool := (allocated_count b =? 0)%Z.

Definition count_set (b : AllocationBitmap) : nat := Z.to_nat (allocated_count b).

(** ** The bitmap is a vector of booleans *)

Definition count_true (bs : list bool) : nat := length (filter (λ x, x = true) bs).

Record rep (b : AllocationBitmap) (bs : list bool) : Prop := {
  rep_slots : num_slots b = length bs;
  rep_u32 : (Z.of_nat (length bs) < 2 ^ 32)%Z;
  rep_words : length (words b) = (length bs + 63) / 64;
  rep_nonneg : Forall (is_u 64) (words b);
  rep_bit : ∀ i x, bs !! i = Some x →
    ∃ w, words b !! (i / 64) = Some w ∧ Z.testbit w (Z.of_nat (i mod 64)) = x;
  rep_count : allocated_count b = Z.of_nat (count_true bs)
}.

Lemma land_shiftr_testbit w n : (0 ≤ n)%Z → (Z.land (Z.shiftr w n) 1 =? 1)%Z = Z.testbit w n.
Proof.
  intros Hn. rewrite (Z.land_ones _ 1) by lia.
  rewrite <- (Z.add_0_l n) at 2. rewrite <- Z.shiftr_spec by lia.
  rewrite Z.bit0_odd, <- Z.bit0_mod. by rewrite Z.bit0_odd; destruct (Z.odd _).
Qed.

Lemma count_true_insert bs i x y :
  bs !! i = Some x →
  Z.of_nat (count_true (<[i := y]> bs)) =
  (Z.of_nat (count_true bs) - Z.b2z x + Z.b2z y)%Z.
Proof.
  revert i. induction bs as [|b bs IH]; intros [|i]; simpl; [done..| |].
  - intros [= ->]. unfold count_true. rewrite !filter_cons.
    destruct x, y; repeat case_decide; simpl; lia || done.
  - intros Hi. specialize (IH i Hi). unfold count_true in *. rewrite !filter_cons.
    case_decide; simpl; lia.
Qed.

Lemma count_true_le bs : count_true bs ≤ length bs.
Proof. apply length_filter. Qed.

Lemma count_true_all bs : count_true bs = length bs ↔ ∀ i x, bs !! i = Some x → x = true.
Proof.
  unfold count_true. split.
  - intros E i x Hi. induction bs as [|b bs IH] in i, E, Hi |- *; [done|].
    rewrite filter_cons in E. case_decide.
    + destruct i; simpl in *; [naive_solver|]. apply (IH ltac:(lia) i Hi).
    + pose proof (count_true_le bs). unfold count_true in *. simpl in E. lia.
  - intros Ha. induction bs as [|b bs IH]; [done|]. rewrite filter_cons.
    rewrite decide_True by (by apply (Ha 0)). simpl. f_equal. apply IH. intros i. apply (Ha (S i)).
Qed.

Lemma count_true_none bs : count_true bs = 0 ↔ ∀ i x, bs !! i = Some x → x = false.
Proof.
  unfold count_true. split.
  - intros E i x Hi. induction bs as [|b bs IH] in i, E, Hi |- *; [done|].
    rewrite filter_cons in E. case_decide; [done|].
    destruct i; simpl in *; [destruct b; naive_solver|]. by apply (IH E i).
  - intros Ha. induction bs as [|b bs IH]; [done|]. rewrite filter_cons.
    rewrite decide_False by (by rewrite (Ha 0 b)). apply IH. intros i. apply (Ha (S i)).
Qed.

Lemma rep_lt b bs i : rep b bs → i < length bs → ∃ x w, bs !! i = Some x ∧
  words b !! (i / 64) = Some w ∧ Z.testbit w (Z.of_nat (i mod 64)) = x ∧ is_u 64 w ∧
  (as_u32 i <? num_slots b) = true.
Proof.
  intros R Hi. destruct (lookup_lt_is_Some_2 bs i Hi) as [x Hx].
  destruct (rep_bit _ _ R _ _ Hx) as (w & Hw & Hb). exists x, w. split_and!; [done..| |].
  - by apply (Forall_lookup_1 _ _ _ _ (rep_nonneg _ _ R) Hw).
  - pose proof (rep_u32 _ _ R). rewrite as_u32_small by lia.
    apply Nat.ltb_lt. by rewrite (rep_slots _ _ R).
Qed.

Lemma is_set_spec b bs i x : rep b bs → bs !! i = Some x → is_set b i = Ret x.
Proof.
  intros R Hx. destruct (rep_lt b bs i R) as (x' & w & Hx' & Hw & Hb & _ & Hlt).
  { by eapply lookup_lt_Some. }
  unfold is_set. rewrite Hlt. simpl. unfold vec_get. rewrite Hw. simpl.
  rewrite land_shiftr_testbit by lia. congruence.
Qed.

(** Overwriting one bit of one word. *)
Lemma rep_update b bs i y w' :
  rep b bs → i < length bs → is_u 64 w' →
  (∀ w n, words b !! (i / 64) = Some w → (0 ≤ n < 64)%Z →
     Z.testbit w' n = if (n =? Z.of_nat (i mod 64))%Z then y else Z.testbit w n) →
  rep (mkBitmap (<[i / 64 := w']> (words b)) (num_slots b)
         (Z.of_nat (count_true (<[i := y]> bs)))) (<[i := y]> bs).
Proof.
  intros R Hi Hw' Hb. pose proof R as [R1 R2 R3 R4 R5 _].
  split; simpl; rewrite ?length_insert; [done..| | |done].
  - by apply Forall_insert.
  - intros j x Hx.
    assert (j < length bs) as Hj by (apply lookup_lt_Some in Hx; by rewrite length_insert in Hx).
    destruct (rep_lt b bs j R Hj) as (xj & wj & Hxj & Hwj & Hbj & _).
    assert (0 ≤ Z.of_nat (j mod 64) < 64)%Z by (pose proof (Nat.mod_upper_bound j 64); lia).
    destruct (decide (j / 64 = i / 64)) as [E|E].
    + exists w'. rewrite E in *. rewrite list_lookup_insert_eq by (by eapply lookup_lt_Some).
      split; [done|]. rewrite (Hb _ _ Hwj) by done.
      destruct (Z.eqb_spec (Z.of_nat (j mod 64)) (Z.of_nat (i mod 64))) as [Em|Em].
      * assert (j = i) as -> by (rewrite (Nat.div_mod_eq j 64), (Nat.div_mod_eq i 64); lia).
        rewrite list_lookup_insert_eq in Hx by done. congruence.
      * rewrite list_lookup_insert_ne in Hx by congruence. congruence.
    + exists wj. rewrite list_lookup_insert_ne by congruence.
      rewrite list_lookup_insert_ne in Hx by congruence. split; [done|congruence].
Qed.

Lemma u64_testbit w : (0 ≤ w)%Z → is_u 64 w ↔ ∀ n, (64 ≤ n)%Z → Z.testbit w n = false.
Proof.
  intros H0. unfold is_u. split.
  - intros [_ Hw] n Hn. apply Z.bits_above_log2; [done|].
    destruct (decide (w = 0)%Z) as [->|]; [simpl; lia|].
    apply Z.log2_lt_pow2; [lia|]. pose proof (Z.pow_le_mono_r 2 64 n ltac:(lia) Hn). lia.
  - intros Hb. split; [done|]. destruct (decide (w < 2 ^ 64)%Z) as [|Hn]; [done|]. exfalso.
    assert (64 ≤ Z.log2 w)%Z by (apply Z.log2_le_pow2; lia).
    specialize (Hb (Z.log2 w) ltac:(done)). rewrite Z.bit_log2 in Hb by lia. done.
Qed.

Lemma shiftl_1_testbit n m : (0 ≤ m)%Z → Z.testbit (Z.shiftl 1 m) n = (n =? m)%Z.
Proof.
  intros Hm. rewrite Z.shiftl_1_l. destruct (Z.eqb_spec n m) as [->|Hne].
  - by apply Z.pow2_bits_true.
  - by apply Z.pow2_bits_false.
Qed.

Lemma set_spec b bs i :
  rep b bs → bs !! i = Some false → ∃ b', set b i = Ret b' ∧ rep b' (<[i := true]> bs).
Proof.
  intros R Hx. pose proof (lookup_lt_Some _ _ _ Hx) as Hi.
  destruct (rep_lt b bs i R Hi) as (x' & w & Hx' & Hw & Hb & [Hw0 Hw1] & Hlt).
  unfold set. rewrite Hlt. simpl. rewrite (is_set_spec _ _ _ _ R Hx). simpl.
  unfold vec_get, vec_set. rewrite Hw. simpl.
  pose proof (count_true_insert bs i false true Hx) as Hc. simpl in Hc.
  pose proof (count_true_le (<[i := true]> bs)) as Hle. rewrite length_insert in Hle.
  pose proof (rep_u32 _ _ R). rewrite (rep_count _ _ R).
  rewrite add_w_Ret by lia. simpl. eexists. split; [done|].
  replace (Z.of_nat (count_true bs) + 1)%Z with (Z.of_nat (count_true (<[i:=true]> bs))) by lia.
  assert (0 ≤ Z.of_nat (i mod 64) < 64)%Z as Hm by (pose proof (Nat.mod_upper_bound i 64); lia).
  assert (0 ≤ Z.shiftl 1 (Z.of_nat (i mod 64)))%Z by (apply Z.shiftl_nonneg; lia).
  apply rep_update; [done..| |].
  - apply u64_testbit; [by apply Z.lor_nonneg|]. intros n Hn.
    rewrite Z.lor_spec, shiftl_1_testbit by lia.
    rewrite (proj1 (u64_testbit w Hw0) (conj Hw0 Hw1)) by done.
    destruct (Z.eqb_spec n (Z.of_nat (i mod 64))); [lia|done].
  - intros w2 n Hw2 Hn. rewrite Hw in Hw2. injection Hw2 as <-.
    rewrite Z.lor_spec, shiftl_1_testbit by lia.
    destruct (n =? _)%Z; [by rewrite orb_true_r|by rewrite orb_false_r].
Qed.

Lemma clear_bit_spec b bs i :
  rep b bs → bs !! i = Some true → ∃ b', clear b i = Ret b' ∧ rep b' (<[i := false]> bs).
Proof.
  intros R Hx. pose proof (lookup_lt_Some _ _ _ Hx) as Hi.
  destruct (rep_lt b bs i R Hi) as (x' & w & Hx' & Hw & Hb & [Hw0 Hw1] & Hlt).
  unfold clear. rewrite Hlt. simpl. rewrite (is_set_spec _ _ _ _ R Hx). simpl.
  unfold vec_get, vec_set. rewrite Hw. simpl.
  pose proof (count_true_insert bs i true false Hx) as Hc. simpl in Hc.
  rewrite (rep_count _ _ R). rewrite sub_w_Ret by lia. simpl. eexists. split; [done|].
  replace (Z.of_nat (count_true bs) - 1)%Z with (Z.of_nat (count_true (<[i:=false]> bs))) by lia.
  assert (0 ≤ Z.of_nat (i mod 64) < 64)%Z as Hm by (pose proof (Nat.mod_upper_bound i 64); lia).
  apply rep_update; [done..| |].
  - apply u64_testbit; [apply Z.ldiff_nonneg; by left|]. intros n Hn.
    rewrite Z.ldiff_spec. by rewrite (proj1 (u64_testbit w Hw0) (conj Hw0 Hw1)) by done.
  - intros w2 n Hw2 Hn. rewrite Hw in Hw2. injection Hw2 as <-.
    rewrite Z.ldiff_spec, shiftl_1_testbit by lia.
    destruct (n =? _)%Z; [by rewrite andb_false_r|by rewrite andb_true_r].
Qed.

Lemma bitmap_new_rep n : (Z.of_nat n < 2 ^ 32)%Z → rep (new n) (replicate n false).
Proof.
  intros Hn. split; simpl; rewrite ?length_replicate; [done..| | |].
  - apply Forall_replicate. split; lia.
  - intros i x [-> Hi]%lookup_replicate. exists 0%Z. split; [|apply Z.testbit_0_l].
    apply lookup_replicate. split; [done|]. apply Nat.div_lt_upper_bound; [lia|].
    pose proof (Nat.div_mod_eq (n + 63) 64). pose proof (Nat.mod_upper_bound (n + 63) 64). lia.
  - rewrite (proj2 (count_true_none _)); [done|]. by intros i x [-> _]%lookup_replicate.
Qed.

(** The slots in the order [find_free_from start] visits them. *)
Definition rotation (start n : nat) : list nat := (λ i, (start + i) mod n) <$> seq 0 n.

Lemma find_free_loop_spec b bs start i m :
  rep b bs → i + m ≤ length bs →
  find_free_loop b start i m =
  Ret (snd <$> list_find (λ j, bs !! j = Some false)
                 ((λ j, (start + j) mod length bs) <$> seq i m)).
Proof.
  intros R. revert i. induction m as [|m IH]; intros i Hle; [done|]. simpl.
  rewrite (rep_slots _ _ R).
  assert ((start + i) mod length bs < length bs) as Hlt by (apply Nat.mod_upper_bound; lia).
  destruct (lookup_lt_is_Some_2 bs _ Hlt) as [x Hx]. rewrite (is_set_spec _ _ _ _ R Hx). simpl.
  rewrite Hx. destruct x.
  - rewrite decide_False by done. rewrite IH by lia. f_equal.
    by destruct (list_find _ _) as [[? ?]|].
  - by rewrite decide_True by done.
Qed.

Lemma find_free_from_spec b bs start :
  rep b bs →
  find_free_from b start =
  Ret (snd <$> list_find (λ j, bs !! j = Some false) (rotation start (length bs))).
Proof.
  intros R. unfold find_free_from. rewrite (find_free_loop_spec _ bs), (rep_slots _ _ R); [done..|].
  by rewrite (rep_slots _ _ R).
Qed.

Lemma rotation_elem start n j : j ∈ rotation start n ↔ j < n.
Proof.
  unfold rotation. rewrite list_elem_of_fmap. split.
  - intros (i & -> & Hi%elem_of_seq). apply Nat.mod_upper_bound. lia.
  - intros Hj. assert (n ≠ 0) as Hn by lia. pose proof (Nat.mod_upper_bound start n Hn) as Hs.
    pose proof (Nat.div_mod_eq start n) as Hd. set (q := start / n) in *. set (r := start mod n) in *.
    destruct (decide (r ≤ j)).
    + exists (j - r). split; [|apply elem_of_seq; lia]. symmetry.
      replace (start + (j - r)) with (j + q * n) by lia.
      rewrite Nat.Div0.mod_add. by apply Nat.mod_small.
    + exists (j + n - r). split; [|apply elem_of_seq; lia]. symmetry.
      replace (start + (j + n - r)) with (j + (q + 1) * n) by lia.
      rewrite Nat.Div0.mod_add. by apply Nat.mod_small.
Qed.

Lemma find_free_Some b bs start :
  rep b bs →
  (∃ j, find_free_from b start = Ret (Some j) ∧ bs !! j = Some false) ∨
  (find_free_from b start = Ret None ∧ ∀ i x, bs !! i = Some x → x = true).
Proof.
  intros R. rewrite (find_free_from_spec _ _ _ R).
  destruct (list_find _ _) as [[i j]|] eqn:F; simpl.
  - left. exists j. apply list_find_Some in F as (_ & ? & _). done.
  - right. split; [done|]. intros i x Hx. apply list_find_None in F.
    rewrite Forall_forall in F. destruct x; [done|]. exfalso. apply (F i); [|done].
    apply rotation_elem. by eapply lookup_lt_Some.
Qed.

End Bitmap.

(** * Slabs *)

Module Slab.
Import Bitmap.
#[local] Arguments Nat.div : simpl never.
#[local] Arguments Nat.modulo : simpl never.
Local Open Scope Z_scope.

Definition FREE_KEY : Z := u64_max.

Record Slab := mkSlab {
  start_offset : Z;
  slab_size : Z;
  element_size : Z;
  bitmap : AllocationBitmap;
  keys : list Z;
  rover : nat
}.

Definition new (start_offset slab_size element_size : Z) : outcome Slab :=
  q ← div_w slab_size element_size;
  let num_slots := as_u32 (Z.to_nat q) in
  Ret (mkSlab start_offset slab_size element_size (Bitmap.new num_slots)
         (replicate num_slots FREE_KEY) 0).

Definition num_slots (s : Slab) : nat := Bitmap.num_slots (bitmap s).

Definition slot_offset (s : Slab) (slot_index : nat) : outcome Z :=
  d ← mul_w 64 (Z.of_nat slot_index) (element_size s);
  add_w 64 (start_offset s) d.

Definition set_bitmap (s : Slab) (b : AllocationBitmap) : Slab :=
  mkSlab (start_offset s) (slab_size s) (element_size s) b (keys s) (rover s).
Definition set_keys (s : Slab) (ks : list Z) : Slab :=
  mkSlab (start_offset s) (slab_size s) (element_size s) (bitmap s) ks (rover s).
Definition set_rover (s : Slab) (r : nat) : Slab :=
  mkSlab (start_offset s) (slab_size s) (element_size s) (bitmap s) (keys s) r.

Definition alloc_slot (s : Slab) : outcome (option (nat * Z) * Slab) :=
  idx ← find_free_from (bitmap s) (rover s);
  match idx with
  | None => Ret (None, s)
  | Some idx =>
      b ← Bitmap.set (bitmap s) idx;
      let s := set_rover (set_bitmap s b) ((idx + 1) mod num_slots s) in
      offset ← slot_offset s idx;
      Ret (Some (idx, offset), s)
  end.

Definition free_slot (s : Slab) (slot_index : nat) : outcome Slab :=
  b ← Bitmap.clear (bitmap s) slot_index;
  ks ← vec_set (keys s) slot_index FREE_KEY;
  Ret (set_keys (set_bitmap s b) ks).

Definition set_key (s : Slab) (slot_index : nat) (key : Z) : outcome Slab :=
  ks ← vec_set (keys s) slot_index key;
  Ret (set_keys s ks).

Definition get_key (s : Slab) (slot_index : nat) : outcome Z := vec_get (keys s) slot_index.

Definition is_empty (s : Slab) : bool := is_all_free (bitmap s).

Definition is_full (s : Slab) : bool := (count_set (bitmap s) =? num_slots s)%nat.

Definition slot_for_offset (s : Slab) (byte_offset : Z) : outcome (option nat) :=
  if byte_offset <? start_offset s then Ret None
  else
    relative ← sub_w byte_offset (start_offset s);
    r ← rem_w relative (element_size s);
    if negb (r =? 0) then Ret None
    else
      idx ← div_w relative (element_size s);
      if (Z.to_nat idx <? num_slots s)%nat then Ret (Some (Z.to_nat idx)) else Ret None.

Definition mark_slot_allocated (s : Slab) (slot_index : nat) : outcome Slab :=
  b ← Bitmap.set (bitmap s) slot_index;
  Ret (set_bitmap s b).

Definition contains_offset (s : Slab) (byte_offset : Z) : outcome bool :=
  if byte_offset <? start_offset s then Ret false
  else e ← add_w 64 (start_offset s) (slab_size s); Ret (byte_offset <? e).

(** ** Size classes: the slabs with a free slot, by element size. *)

Record SizeClassManager := mkSizeClass { map : gmap Z (list Z) }.

Definition size_class_new : SizeClassManager := mkSizeClass ∅.

Definition get_slabs (m : SizeClassManager) (element_size : Z) : list Z :=
  default [] (map m !! element_size).

Definition add_slab (m : SizeClassManager) (element_size start_offset : Z) : SizeClassManager :=
  mkSizeClass (<[element_size := get_slabs m element_size ++ [start_offset]]> (map m)).

Definition remove_slab (m : SizeClassManager) (element_size start_offset : Z) : SizeClassManager :=
  match map m !! element_size with
  | None => m
  | Some offsets =>
      let offsets := filter (λ o, o ≠ start_offset) offsets in
      if bool_decide (offsets = []) then mkSizeClass (delete element_size (map m))
      else mkSizeClass (<[element_size := offsets]> (map m))
  end.

(** ** Invariant *)

Record ok (s : Slab) (bs : list bool) : Prop := {
  ok_bitmap : rep (bitmap s) bs;
  ok_elem : 0 < element_size s;
  ok_slots : Z.of_nat (length bs) = slab_size s / element_size s;
  ok_keys : length (keys s) = length bs;
  ok_free : ∀ i, bs !! i = Some false → keys s !! i = Some FREE_KEY;
  ok_range : 0 ≤ start_offset s ∧ 0 ≤ slab_size s ∧ start_offset s + slab_size s < 2 ^ 64
}.

(** The bytes of slot [i]. *)
Definition slot_start (s : Slab) (i : nat) : Z := start_offset s + Z.of_nat i * element_size s.

(** Two slabs at the same place with the same shape. *)
Definition same_shape (s s' : Slab) : Prop :=
  start_offset s' = start_offset s ∧ slab_size s' = slab_size s ∧
  element_size s' = element_size s ∧ num_slots s' = num_slots s.

Lemma slot_inside s bs i : ok s bs → (i < length bs)%nat →
  start_offset s ≤ slot_start s i ∧
  slot_start s i + element_size s ≤ start_offset s + slab_size s.
Proof.
  intros [R E S K F (H0 & H1 & H2)] Hi. unfold slot_start.
  pose proof (Z.mul_div_le (slab_size s) (element_size s) E). nia.
Qed.

Lemma slot_offset_spec s bs i :
  ok s bs → (i < length bs)%nat → slot_offset s i = Ret (slot_start s i).
Proof.
  intros O Hi. pose proof (slot_inside _ _ _ O Hi) as [Ha Hb].
  destruct O as [_ E _ _ _ (H0 & H1 & H2)]. unfold slot_start in *. unfold slot_offset.
  rewrite mul_w_Ret by lia. simpl. by rewrite add_w_Ret by lia.
Qed.

(** The slots of a slab do not overlap. *)
Lemma slots_disjoint s i j : 0 < element_size s → i ≠ j →
  slot_start s i + element_size s ≤ slot_start s j ∨ slot_start s j + element_size s ≤ slot_start s i.
Proof. intros E Hne. unfold slot_start. nia. Qed.

Lemma new_spec start size elem :
  0 < elem → 0 ≤ size → 0 ≤ start → start + size < 2 ^ 64 → size / elem < 2 ^ 32 →
  ∃ s, new start size elem = Ret s ∧ ok s (replicate (Z.to_nat (size / elem)) false) ∧
       start_offset s = start ∧ slab_size s = size ∧ element_size s = elem.
Proof.
  intros He Hs Hst Hr Hn. unfold new. rewrite div_w_Ret by lia. simpl.
  assert (0 ≤ size / elem) by (apply Z.div_pos; lia).
  rewrite as_u32_small by lia. eexists. split; [done|]. split_and!; [|done..].
  split; simpl; rewrite ?length_replicate; [|done|lia|done| |done].
  - apply bitmap_new_rep. lia.
  - intros i [_ Hi]%lookup_replicate. by apply lookup_replicate.
Qed.

Lemma alloc_slot_spec s bs :
  ok s bs →
  (alloc_slot s = Ret (None, s) ∧ is_full s = true ∧ ∀ i x, bs !! i = Some x → x = true) ∨
  (∃ i s', alloc_slot s = Ret (Some (i, slot_start s i), s') ∧ bs !! i = Some false ∧
           ok s' (<[i := true]> bs) ∧ same_shape s s' ∧ keys s' = keys s).
Proof.
  intros O. pose proof O as [R E S K F Rg]. unfold alloc_slot.
  destruct (find_free_Some _ _ (rover s) R) as [(j & -> & Hj)|[-> Ha]]; simpl.
  - right. destruct (set_spec _ _ _ R Hj) as (b' & -> & R'). simpl.
    assert (ok (set_rover (set_bitmap s b') ((j + 1) mod num_slots s)) (<[j:=true]> bs)) as O'.
    { split; simpl; rewrite ?length_insert; [done..| |done].
      intros i. destruct (decide (i = j)) as [->|].
      - by rewrite list_lookup_insert_eq by (by eapply lookup_lt_Some).
      - rewrite list_lookup_insert_ne by done. apply F. }
    rewrite (slot_offset_spec _ _ j O') by (rewrite length_insert; by eapply lookup_lt_Some).
    simpl. eexists j, _. split; [done|]. split_and!; [done|done| |done].
    split_and!; [done..|]. unfold num_slots. simpl.
    by rewrite (rep_slots _ _ R'), (rep_slots _ _ R), length_insert.
  - left. split_and!; [done| |done]. unfold is_full, num_slots, count_set.
    rewrite (rep_count _ _ R), (rep_slots _ _ R). apply Nat.eqb_eq.
    rewrite <- (proj2 (count_true_all bs)) by done. lia.
Qed.

Lemma free_slot_spec s bs i :
  ok s bs → bs !! i = Some true →
  ∃ s', free_slot s i = Ret s' ∧ ok s' (<[i := false]> bs) ∧ same_shape s s' ∧
        keys s' = <[i := FREE_KEY]> (keys s).
Proof.
  intros [R E S K F Rg] Hi. unfold free_slot.
  destruct (clear_bit_spec _ _ _ R Hi) as (b' & -> & R'). simpl.
  pose proof (lookup_lt_Some _ _ _ Hi) as Hlt. rewrite vec_set_Ret by lia. simpl.
  eexists. split; [done|]. split_and!; [| |done].
  - split; simpl; rewrite ?length_insert; [done..| |done].
    intros j. destruct (decide (j = i)) as [->|].
    + intros _. apply list_lookup_insert_eq. lia.
    + rewrite !list_lookup_insert_ne by done. apply F.
  - split_and!; [done..|]. unfold num_slots. simpl.
    by rewrite (rep_slots _ _ R'), (rep_slots _ _ R), length_insert.
Qed.

Lemma set_key_spec s bs i k :
  ok s bs → bs !! i = Some true →
  ∃ s', set_key s i k = Ret s' ∧ ok s' bs ∧ same_shape s s' ∧ keys s' = <[i := k]> (keys s) ∧
        bitmap s' = bitmap s.
Proof.
  intros [R E S K F Rg] Hi. unfold set_key. pose proof (lookup_lt_Some _ _ _ Hi) as Hlt.
  rewrite vec_set_Ret by lia. simpl. eexists. split; [done|]. split_and!; [|done..].
  split; simpl; rewrite ?length_insert; [done..| |done].
  intros j Hj. rewrite list_lookup_insert_ne by congruence. by apply F.
Qed.

Lemma is_empty_spec s bs : ok s bs → is_empty s = true ↔ ∀ i x, bs !! i = Some x → x = false.
Proof.
  intros [R _ _ _ _ _]. unfold is_empty, is_all_free. rewrite (rep_count _ _ R).
  rewrite Z.eqb_eq, <- count_true_none. lia.
Qed.

Lemma is_full_spec s bs : ok s bs → is_full s = true ↔ ∀ i x, bs !! i = Some x → x = true.
Proof.
  intros [R _ _ _ _ _]. unfold is_full, count_set, num_slots.
  rewrite (rep_count _ _ R), (rep_slots _ _ R), Nat.eqb_eq, <- count_true_all. lia.
Qed.

Lemma slot_for_offset_spec s bs off :
  ok s bs →
  (∃ i, (i < length bs)%nat ∧ off = slot_start s i ∧ slot_for_offset s off = Ret (Some i)) ∨
  (slot_for_offset s off = Ret None ∧ ∀ i, (i < length bs)%nat → off ≠ slot_start s i).
Proof.
  intros O. pose proof O as [R E S K F Rg]. unfold slot_for_offset, slot_start.
  destruct (Z.ltb_spec off (start_offset s)).
  { right. split; [done|]. nia. }
  rewrite sub_w_Ret by lia. simpl. rewrite rem_w_Ret by lia. simpl.
  pose proof (Z.div_mod (off - start_offset s) (element_size s) ltac:(lia)) as D.
  destruct (Z.eqb_spec ((off - start_offset s) mod element_size s) 0) as [Em|Em]; simpl.
  - rewrite div_w_Ret by lia. simpl. unfold num_slots. rewrite (rep_slots _ _ R).
    assert (0 ≤ (off - start_offset s) / element_size s) by (apply Z.div_pos; lia).
    destruct (Nat.ltb_spec (Z.to_nat ((off - start_offset s) / element_size s)) (length bs)).
    + left. eexists. split_and!; [done| |done]. lia.
    + right. split; [done|]. intros i Hi Ho.
      replace (off - start_offset s) with (Z.of_nat i * element_size s) in * by lia.
      rewrite Z.div_mul in * by lia. lia.
  - right. split; [done|]. intros i Hi Ho. apply Em.
    replace (off - start_offset s) with (Z.of_nat i * element_size s) by lia.
    apply Z.mod_mul. lia.
Qed.

End Slab.
