(* ===== verification/Buddy.v ===== *)
(** The buddy allocator of the extent manager
    ([components/extent-manager/src/buddy.rs]), which hands out slabs. *)

From S2P Require Import Prelude.

Module Buddy.
Local Open Scope Z_scope.

Record BuddyAllocator := mkBuddy {
  base_offset : Z;
  total_usable_size : Z;
  sector_size : Z;
  max_order : nat;
  free_lists : list (list Z)
}.

(** [free_lists[order].push(off)]. *)
Definition push (fls : list (list Z)) (order : nat) (off : Z) : outcome (list (list Z)) :=
  l ← vec_get fls order;
  vec_set fls order (l ++ [off]).

(** The greedy decomposition of the pool, largest blocks first. Each round at
    least halves [remaining], so 64 rounds are enough for a [u64]. *)
Fixpoint new_loop (fuel : nat) (sector offset remaining : Z) (fls : list (list Z)) :
    outcome (list (list Z)) :=
  if remaining =? 0 then Ret fls
  else match fuel with
  | O => Panic
  | S fuel =>
      order ← sub_w 63 (leading_zeros64 remaining);
      let blocks := Z.shiftl 1 order in
      byte_offset ← mul_w 64 offset sector;
      fls ← push fls (Z.to_nat order) byte_offset;
      offset ← add_w 64 offset blocks;
      remaining ← sub_w remaining blocks;
      new_loop fuel sector offset remaining fls
  end.

Definition new (base total sector : Z) : outcome BuddyAllocator :=
  usable_blocks ← div_w total sector;
  if 1 <? usable_blocks then
    order ← sub_w 63 (leading_zeros64 usable_blocks);
    let max_order := Z.to_nat order in
    fls ← new_loop 64 sector 0 usable_blocks (replicate (max_order + 1) []);
    Ret (mkBuddy base total sector max_order fls)
  else if usable_blocks =? 1 then
    fls ← new_loop 64 sector 0 usable_blocks (replicate 1 []);
    Ret (mkBuddy base total sector 0 fls)
  else Ret (mkBuddy base total sector 0 [[]]).

(** The smallest order of at least [blocks] sectors. *)
Definition order_of (blocks : Z) : outcome nat :=
  if blocks <=? 1 then Ret 0%nat
  else
    b ← sub_w blocks 1;
    o ← sub_w 64 (leading_zeros64 b);
    Ret (Z.to_nat o).

(** [(1u64 << order) * sector_size]. *)
Definition span_of (b : BuddyAllocator) (order : nat) : outcome Z :=
  if (order <? 64)%nat then mul_w 64 (Z.shiftl 1 (Z.of_nat order)) (sector_size b) else Panic.

(** [for order in order..=max_order], with [m] orders left. *)
Fixpoint find_order (fls : list (list Z)) (order m : nat) : outcome (option nat) :=
  match m with
  | O => Ret None
  | S m =>
      l ← vec_get fls order;
      match (l : list Z) with
      | [] => find_order fls (S order) m
      | _ => Ret (Some order)
      end
  end.

(** [for split_order in (needed..needed + m).rev()]. *)
Fixpoint split_loop (b : BuddyAllocator) (local_offset : Z) (needed m : nat) (fls : list (list Z)) :
    outcome (list (list Z)) :=
  match m with
  | O => Ret fls
  | S m =>
      s ← span_of b (needed + m);
      buddy_offset ← add_w 64 local_offset s;
      fls ← push fls (needed + m) buddy_offset;
      split_loop b local_offset needed m fls
  end.

Definition set_lists (b : BuddyAllocator) (fls : list (list Z)) : BuddyAllocator :=
  mkBuddy (base_offset b) (total_usable_size b) (sector_size b) (max_order b) fls.

Definition alloc (b : BuddyAllocator) (size : Z) : outcome (option Z * BuddyAllocator) :=
  a ← add_w 64 size (sector_size b);
  a ← sub_w a 1;
  blocks_needed ← div_w a (sector_size b);
  order_needed ← order_of blocks_needed;
  found ← find_order (free_lists b) order_needed (max_order b + 1 - order_needed);
  match found with
  | None => Ret (None, b)
  | Some found_order =>
      l ← vec_get (free_lists b) found_order;
      '(local_offset, l) ← unwrap (vec_pop l);
      fls ← vec_set (free_lists b) found_order l;
      fls ← split_loop b local_offset order_needed (found_order - order_needed) fls;
      r ← add_w 64 (base_offset b) local_offset;
      Ret (Some r, set_lists b fls)
  end.

(** The merging loop of [free]; [m] is [max_order - order]. *)
Fixpoint merge_loop (b : BuddyAllocator) (m order : nat) (current : Z) (fls : list (list Z)) :
    outcome (nat * Z * list (list Z)) :=
  match m with
  | O => Ret (order, current, fls)
  | S m =>
      block_span ← span_of b order;
      let buddy_offset := Z.lxor current block_span in
      e ← add_w 64 buddy_offset block_span;
      if total_usable_size b <? e then Ret (order, current, fls)
      else
        l ← vec_get fls order;
        match vec_position buddy_offset l with
        | Some pos =>
            l ← vec_swap_remove l pos;
            fls ← vec_set fls order l;
            merge_loop b m (S order) (Z.min current buddy_offset) fls
        | None => Ret (order, current, fls)
        end
  end.

Definition free (b : BuddyAllocator) (abs_offset size : Z) : outcome BuddyAllocator :=
  offset ← sub_w abs_offset (base_offset b);
  blocks ← div_w size (sector_size b);
  order ← order_of blocks;
  '(order, current, fls) ← merge_loop b (max_order b - order) order offset (free_lists b);
  fls ← push fls order current;
  Ret (set_lists b fls).

(** [for so in (target..target + m).rev()] of [mark_allocated]. *)
Fixpoint carve_loop (b : BuddyAllocator) (offset : Z) (target m : nat) (split_offset : Z)
    (fls : list (list Z)) : outcome (list (list Z)) :=
  match m with
  | O => Ret fls
  | S m =>
      half_span ← span_of b (target + m);
      mid ← add_w 64 split_offset half_span;
      if mid <=? offset then
        fls ← push fls (target + m) split_offset;
        carve_loop b offset target m mid fls
      else
        fls ← push fls (target + m) mid;
        carve_loop b offset target m split_offset fls
  end.

(** [for search_order in search..=max_order], with [m] orders left. *)
Fixpoint search_loop (b : BuddyAllocator) (offset : Z) (target search m : nat)
    (fls : list (list Z)) : outcome (list (list Z)) :=
  match m with
  | O => Ret fls
  | S m =>
      block_span ← span_of b search;
      mask ← sub_w block_span 1;
      let aligned_start := Z.ldiff offset mask in
      l ← vec_get fls search;
      match vec_position aligned_start l with
      | Some pos =>
          l ← vec_swap_remove l pos;
          fls ← vec_set fls search l;
          carve_loop b offset target (search - target) aligned_start fls
      | None => search_loop b offset target (S search) m fls
      end
  end.

Definition mark_allocated (b : BuddyAllocator) (abs_offset size : Z) : outcome BuddyAllocator :=
  offset ← sub_w abs_offset (base_offset b);
  blocks ← div_w size (sector_size b);
  target_order ← order_of blocks;
  l ← vec_get (free_lists b) target_order;
  match vec_position offset l with
  | Some pos =>
      l ← vec_swap_remove l pos;
      fls ← vec_set (free_lists b) target_order l;
      Ret (set_lists b fls)
  | None =>
      fls ← search_loop b offset target_order (target_order + 1)
              (max_order b - target_order) (free_lists b);
      Ret (set_lists b fls)
  end.

Fixpoint total_free_loop (sector : Z) (order : nat) (fls : list (list Z)) (total : Z) : outcome Z :=
  match fls with
  | [] => Ret total
  | l :: fls =>
      n ← mul_w 64 (Z.of_nat (length l)) (Z.shiftl 1 (Z.of_nat order));
      n ← mul_w 64 n sector;
      total ← add_w 64 total n;
      total_free_loop sector (S order) fls total
  end.

Definition total_free (b : BuddyAllocator) : outcome Z :=
  total_free_loop (sector_size b) 0 (free_lists b) 0.

(** * The free lists as one collection of blocks

    A block is its order and its offset from [base_offset]; the collection is
    compared up to order. *)

Fixpoint flat_from (i : nat) (fls : list (list Z)) : list (nat * Z) :=
  match fls with
  | [] => []
  | l :: fls => (pair i <$> l) ++ flat_from (S i) fls
  end.

Definition flat (fls : list (list Z)) : list (nat * Z) := flat_from 0 fls.

Lemma flat_from_update i fls o l l' :
  fls !! o = Some l →
  (pair (i + o)%nat <$> l') ++ flat_from i fls ≡ₚ (pair (i + o)%nat <$> l) ++ flat_from i (<[o := l']> fls).
Proof.
  revert i o. induction fls as [|l0 fls IH]; intros i [|o]; simpl; [done..| |].
  - intros [= ->]. rewrite Nat.add_0_r. rewrite !app_assoc.
    apply Permutation_app_tail, Permutation_app_comm.
  - intros Hl. specialize (IH (S i) o Hl). rewrite Nat.add_succ_comm in IH.
    rewrite !app_assoc, (Permutation_app_comm _ (pair i <$> l0)).
    rewrite (Permutation_app_comm _ (pair i <$> l0)), <- !app_assoc. by apply Permutation_app_head.
Qed.

Lemma flat_elem_from i fls o x :
  (o, x) ∈ flat_from i fls ↔ ∃ j l, o = (i + j)%nat ∧ fls !! j = Some l ∧ x ∈ l.
Proof.
  revert i. induction fls as [|l0 fls IH]; intros i; simpl; [set_solver|].
  rewrite elem_of_app, list_elem_of_fmap, IH. split.
  - intros [(y & [= -> ->] & Hy)|(j & l & -> & Hl & Hx)].
    + exists 0%nat, l0. by rewrite Nat.add_0_r.
    + exists (S j), l. split_and!; [lia|done..].
  - intros ([|j] & l & -> & Hl & Hx); simpl in Hl.
    + left. exists x. rewrite Nat.add_0_r. naive_solver.
    + right. exists j, l. split_and!; [lia|done..].
Qed.

Lemma flat_elem fls o x : (o, x) ∈ flat fls ↔ ∃ l, fls !! o = Some l ∧ x ∈ l.
Proof. unfold flat. rewrite flat_elem_from. simpl. naive_solver. Qed.

Lemma flat_push fls o l x :
  fls !! o = Some l → flat (<[o := l ++ [x]]> fls) ≡ₚ (o, x) :: flat fls.
Proof.
  intros Hl. pose proof (flat_from_update 0 fls o l (l ++ [x]) Hl) as P. simpl in P.
  rewrite fmap_app, <- app_assoc in P. apply Permutation_app_inv_l in P. by rewrite <- P.
Qed.

Lemma flat_take fls o l l' x :
  fls !! o = Some l → l ≡ₚ x :: l' → flat fls ≡ₚ (o, x) :: flat (<[o := l']> fls).
Proof.
  intros Hl Hp. pose proof (flat_from_update 0 fls o l l' Hl) as P. simpl in P.
  rewrite Hp in P. simpl in P. rewrite Permutation_middle in P.
  apply Permutation_app_inv_l in P. done.
Qed.

Lemma push_spec fls o x :
  (o < length fls)%nat → ∃ fls', push fls o x = Ret fls' ∧ length fls' = length fls ∧
    flat fls' ≡ₚ (o, x) :: flat fls ∧ ∀ o', o' ≠ o → fls' !! o' = fls !! o'.
Proof.
  intros Ho. destruct (lookup_lt_is_Some_2 _ _ Ho) as [l Hl].
  unfold push, vec_get. rewrite Hl. simpl. rewrite vec_set_Ret by done.
  eexists. split; [done|]. rewrite length_insert. split_and!; [done|by apply flat_push|].
  intros o' Hne. by rewrite list_lookup_insert_ne.
Qed.

(** * Blocks of a pool with [2^k]-byte sectors *)

Definition sp (k : Z) (o : nat) : Z := 2 ^ (k + Z.of_nat o).

Definition ranges (k : Z) (F : list (nat * Z)) : list (Z * Z) := (λ b, (b.2, sp k b.1)) <$> F.

(** The other half of the block one order up. *)
Definition buddy (k : Z) (o : nat) (x : Z) : Z :=
  if Z.even (x / sp k o) then x + sp k o else x - sp k o.

Section blocks.
Context (k : Z) (Hk : 0 ≤ k).
Abbreviation sp := (sp k).
Abbreviation buddy := (buddy k).

Lemma sp_pos o : 0 < sp o.
Proof. unfold Buddy.sp. apply Z.pow_pos_nonneg; lia. Qed.

Lemma sp_S o : sp (S o) = 2 * sp o.
Proof.
  unfold Buddy.sp. replace (k + Z.of_nat (S o)) with (1 + (k + Z.of_nat o)) by lia.
  rewrite Z.pow_add_r by lia. lia.
Qed.

Lemma sp_add o m : sp (o + m) = 2 ^ Z.of_nat m * sp o.
Proof.
  unfold Buddy.sp. rewrite <- Z.pow_add_r by lia. f_equal. lia.
Qed.

Lemma sp_mono o o' : (o ≤ o')%nat → sp o ≤ sp o'.
Proof. intros. unfold Buddy.sp. apply Z.pow_le_mono_r; lia. Qed.

Lemma sp_lt o o' : (o < o')%nat → sp o < sp o'.
Proof. intros. unfold Buddy.sp. apply Z.pow_lt_mono_r; lia. Qed.

Lemma sp_divide o o' : (o ≤ o')%nat → (sp o | sp o').
Proof.
  intros Ho. exists (2 ^ Z.of_nat (o' - o)). rewrite <- sp_add. f_equal. lia.
Qed.

(** Aligned blocks are nested or disjoint. *)
Lemma nested o x o' x' y :
  (o ≤ o')%nat → (sp o | x) → (sp o' | x') → x ≤ y < x + sp o → x' ≤ y < x' + sp o' →
  x' ≤ x ∧ x + sp o ≤ x' + sp o'.
Proof.
  intros Ho [a ->] [c ->] Hy Hy'. destruct (sp_divide o o' Ho) as [q Hq]. rewrite Hq in *.
  pose proof (sp_pos o). assert (c * q ≤ a < c * q + q); [|nia].
  split; [apply Zlt_succ_le|]; apply (Z.mul_lt_mono_pos_r (sp o)); nia.
Qed.

Lemma lxor_1 q : Z.lxor q 1 = if Z.even q then q + 1 else q - 1.
Proof.
  assert (∀ p, Z.even p = true → Z.lxor p 1 = p + 1) as He.
  { intros p Hp. symmetry. apply Z.add_nocarry_lxor. rewrite (Z.land_ones _ 1) by lia.
    rewrite Zeven_mod in Hp. by apply Z.eqb_eq in Hp. }
  destruct (Z.even q) eqn:E; [by apply He|].
  assert (Z.even (q - 1) = true) as E'.
  { rewrite Z.even_sub, E. done. }
  pose proof (He _ E') as H. replace (q - 1 + 1) with q in H by lia. rewrite <- H at 1.
  rewrite Z.lxor_assoc, Z.lxor_nilpotent, Z.lxor_0_r. done.
Qed.

Lemma lxor_buddy o x : (sp o | x) → Z.lxor x (sp o) = buddy o x.
Proof.
  intros [q ->]. unfold buddy. pose proof (sp_pos o). rewrite Z.div_mul by lia.
  assert (0 ≤ k + Z.of_nat o) by lia. unfold Buddy.sp in *.
  rewrite <- (Z.shiftl_mul_pow2 q) by done.
  replace (2 ^ (k + Z.of_nat o)) with (Z.shiftl 1 (k + Z.of_nat o)) at 1
    by (rewrite Z.shiftl_mul_pow2 by done; lia).
  rewrite <- Z.shiftl_lxor, lxor_1, !Z.shiftl_mul_pow2 by done.
  destruct (Z.even q); lia.
Qed.

Lemma buddy_aligned o x : (sp o | x) → (sp o | buddy o x).
Proof.
  intros H. unfold buddy. destruct (Z.even _); [apply Z.divide_add_r|apply Z.divide_sub_r];
    (done || apply Z.divide_refl).
Qed.

Lemma buddy_buddy o x : (sp o | x) → buddy o (buddy o x) = x.
Proof.
  intros [q ->]. pose proof (sp_pos o). unfold buddy at 2. rewrite Z.div_mul by lia.
  destruct (Z.even q) eqn:E; unfold buddy.
  - replace (q * sp o + sp o) with ((q + 1) * sp o) by lia. rewrite Z.div_mul by lia.
    rewrite Z.even_add, E. simpl. lia.
  - replace (q * sp o - sp o) with ((q - 1) * sp o) by lia. rewrite Z.div_mul by lia.
    rewrite Z.even_sub, E. simpl. lia.
Qed.

(** The lower of two buddies is the start of their parent. *)
Lemma buddy_parent o x :
  (sp o | x) → 0 ≤ x → (sp (S o) | Z.min x (buddy o x)) ∧ 0 ≤ Z.min x (buddy o x) ∧
  ∀ y, holds x (sp o) y + holds (buddy o x) (sp o) y = holds (Z.min x (buddy o x)) (sp (S o)) y.
Proof.
  intros [q ->] H0. pose proof (sp_pos o) as Hs. rewrite sp_S.
  assert (0 ≤ q) by nia. unfold buddy. rewrite Z.div_mul by lia.
  replace (2 * sp o) with (sp o + sp o) by lia.
  destruct (Z.even q) eqn:E.
  - rewrite Z.min_l by lia. split_and!; [|lia|].
    + apply Z.even_spec in E as [c ->]. exists c. lia.
    + intros y. rewrite holds_split by lia. done.
  - assert (q ≠ 0) by (by intros ->). rewrite Z.min_r by lia. split_and!; [|nia|].
    + assert (Z.even (q - 1) = true) as E' by (by rewrite Z.even_sub, E).
      apply Z.even_spec in E' as [c Hc]. exists c. nia.
    + intros y. rewrite holds_split by lia.
      replace (q * sp o - sp o + sp o) with (q * sp o) by lia. lia.
Qed.

(** The half of a block that does not start where the block starts. *)
Lemma buddy_upper o x : (sp (S o) | x) → buddy o x = x + sp o ∧ buddy o (x + sp o) = x.
Proof.
  intros [q ->]. rewrite sp_S. pose proof (sp_pos o). unfold buddy.
  replace (q * (2 * sp o)) with (2 * q * sp o) by lia. rewrite Z.div_mul by lia.
  replace (2 * q * sp o + sp o) with ((2 * q + 1) * sp o) by lia. rewrite Z.div_mul by lia.
  rewrite Z.even_add, Z.even_mul. simpl. split; lia.
Qed.

(** * Invariant

    Every listed block is aligned and inside the [U] usable bytes, no two
    overlap, and no two buddies are both listed. *)

Definition blk_ok (U : Z) (mo o : nat) (x : Z) : Prop :=
  (o ≤ mo)%nat ∧ (sp o | x) ∧ 0 ≤ x ∧ x + sp o ≤ U.

Record bok (U : Z) (mo : nat) (F : list (nat * Z)) : Prop := {
  b_blk : ∀ o x, (o, x) ∈ F → blk_ok U mo o x;
  b_cover : ∀ y, cover (ranges k F) y ≤ 1;
  b_merged : ∀ o x, (o, x) ∈ F → (o < mo)%nat → (o, buddy o x) ∉ F
}.

(** No byte of the block is listed as free. *)
Definition uncovered (F : list (nat * Z)) (o : nat) (x : Z) : Prop :=
  ∀ y, x ≤ y < x + sp o → cover (ranges k F) y = 0.

(** Every byte of the block is listed as free. *)
Definition all_free (F : list (nat * Z)) (o : nat) (x : Z) : Prop :=
  ∀ y, x ≤ y < x + sp o → cover (ranges k F) y = 1.

Lemma ranges_perm F F' : F ≡ₚ F' → ranges k F ≡ₚ ranges k F'.
Proof. unfold ranges. by intros ->. Qed.

Lemma bcover_perm F F' y : F ≡ₚ F' → cover (ranges k F) y = cover (ranges k F') y.
Proof. intros P. by apply cover_perm, ranges_perm. Qed.

Lemma bcover_cons o x F y :
  cover (ranges k ((o, x) :: F)) y = holds x (sp o) y + cover (ranges k F) y.
Proof. done. Qed.

Lemma bok_perm U mo F F' : F ≡ₚ F' → bok U mo F → bok U mo F'.
Proof.
  intros P [B C M]. split.
  - intros o x. rewrite <- P. apply B.
  - intros y. rewrite <- (bcover_perm _ _ y P). apply C.
  - intros o x. rewrite <- !P. apply M.
Qed.

Lemma listed_cover F o x y : (o, x) ∈ F → x ≤ y < x + sp o → 0 < cover (ranges k F) y.
Proof.
  intros Hin Hy. eapply cover_ge; [|exact Hy]. apply list_elem_of_fmap. by exists (o, x).
Qed.

Lemma uncovered_not_listed F o x : uncovered F o x → (o, x) ∉ F.
Proof.
  intros Hu Hin. pose proof (sp_pos o).
  pose proof (listed_cover F o x x Hin ltac:(lia)). rewrite Hu in *; lia.
Qed.

Lemma bok_uncons U mo F o x :
  bok U mo ((o, x) :: F) → bok U mo F ∧ blk_ok U mo o x ∧ uncovered F o x.
Proof.
  intros [B C M]. split_and!.
  - split.
    + intros. apply B. by right.
    + intros y. specialize (C y). rewrite bcover_cons in C. pose proof (holds_nonneg x (sp o) y). lia.
    + intros o' x' Hin Ho Hb. apply (M o' x'); [by right|done|by right].
  - apply B. by left.
  - intros y Hy. specialize (C y). rewrite bcover_cons, holds_one in C by done.
    pose proof (cover_nonneg (ranges k F) y). lia.
Qed.

Lemma bok_cons U mo F o x :
  bok U mo F → blk_ok U mo o x → uncovered F o x →
  ((o < mo)%nat → (o, buddy o x) ∉ F) → bok U mo ((o, x) :: F).
Proof.
  intros [B C M] Hb Hu Hm. pose proof (sp_pos o) as Hs. split.
  - intros o' x' [[= -> ->]|Hin]%elem_of_cons; [done|auto].
  - intros y. rewrite bcover_cons. destruct (decide (x ≤ y < x + sp o)) as [Hy|Hy].
    + rewrite Hu by done. pose proof (holds_le_1 x (sp o) y). lia.
    + rewrite (proj2 (holds_zero _ _ _) Hy). by apply C.
  - assert (buddy o x ≠ x) as Hne.
    { unfold Buddy.buddy. destruct (Z.even _); lia. }
    intros o' x' Hin Ho [Hin'|Hin']%elem_of_cons.
    + injection Hin' as -> Hx. apply elem_of_cons in Hin as [Hin|Hin]; [congruence|].
      apply (Hm Ho). rewrite <- Hx, buddy_buddy; [done|]. by apply B.
    + apply elem_of_cons in Hin as [[= -> ->]|Hin]; [by apply Hm|]. by apply (M o' x').
Qed.

Lemma overlap_same U mo F o x o' x' y :
  bok U mo F → (o, x) ∈ F → (o', x') ∈ F → x ≤ y < x + sp o → x' ≤ y < x' + sp o' →
  (o, x) = (o', x').
Proof.
  intros HF H1 H2 Hy Hy'. destruct (decide ((o, x) = (o', x'))) as [|Hne]; [done|]. exfalso.
  apply list_elem_of_split in H1 as (F1 & F2 & ->).
  apply (bok_perm _ _ _ ((o, x) :: F1 ++ F2)) in HF; [|by rewrite Permutation_middle].
  destruct (bok_uncons _ _ _ _ _ HF) as (_ & _ & Hu).
  assert ((o', x') ∈ F1 ++ F2) as Hin.
  { rewrite elem_of_app, elem_of_cons in H2. rewrite elem_of_app. naive_solver. }
  pose proof (listed_cover _ _ _ _ Hin Hy') as Hc. rewrite Hu in Hc; [lia|done].
Qed.

(** A free aligned block lies inside a listed one: free space is maximally
    coalesced. *)
Lemma contained U mo F o x :
  bok U mo F → blk_ok U mo o x → all_free F o x →
  ∃ o' x', (o', x') ∈ F ∧ (o ≤ o')%nat ∧ x' ≤ x ∧ x + sp o ≤ x' + sp o'.
Proof.
  intros HF. revert x. induction o as [|o IH]; intros x (Ho & Ha & H0 & HU) Hf.
  - pose proof (sp_pos 0). pose proof (Hf x ltac:(lia)) as Hc.
    destruct (cover_pos (ranges k F) x ltac:(lia)) as (x' & s' & Hin & Hx).
    apply list_elem_of_fmap in Hin as ([o' x2] & [= -> ->] & Hin). exists o', x2.
    destruct (b_blk _ _ _ HF _ _ Hin) as (_ & Ha' & _).
    split_and!; [done|lia|..]; eapply (nested 0 x o' x2 x); done || lia.
  - pose proof (sp_pos o) as Hs. pose proof (sp_S o) as HS. pose proof (sp_pos (S o)).
    assert ((sp o | x)) as Ha1 by (eapply Z.divide_trans; [|exact Ha]; apply sp_divide; lia).
    destruct (IH x) as (o1 & x1 & Hin1 & Ho1 & Hl1 & Hr1).
    { split_and!; [lia|done|lia|lia]. }
    { intros y Hy. apply Hf. lia. }
    destruct (IH (x + sp o)) as (o2 & x2 & Hin2 & Ho2 & Hl2 & Hr2).
    { split_and!; [lia|by apply Z.divide_add_r; [|apply Z.divide_refl]|lia|lia]. }
    { intros y Hy. apply Hf. lia. }
    destruct (b_blk _ _ _ HF _ _ Hin1) as (_ & Hal1 & _).
    destruct (b_blk _ _ _ HF _ _ Hin2) as (_ & Hal2 & _).
    destruct (decide (S o ≤ o1)%nat).
    { exists o1, x1. split_and!; [done..| |]; eapply (nested (S o) x o1 x1 x); done || lia. }
    destruct (decide (S o ≤ o2)%nat).
    { exists o2, x2. split_and!; [done..| |];
        eapply (nested (S o) x o2 x2 (x + sp o)); done || lia. }
    assert (o1 = o) as -> by lia. assert (o2 = o) as -> by lia.
    assert (x1 = x) as -> by lia. assert (x2 = x + sp o) as -> by lia.
    destruct (b_merged _ _ _ HF _ _ Hin1); [lia|]. by rewrite (proj1 (buddy_upper o x Ha)).
Qed.

(** The listed blocks are determined by the set of free bytes. *)
Lemma bok_canonical_sub U mo F F' o x :
  bok U mo F → bok U mo F' → (∀ y, cover (ranges k F) y = cover (ranges k F') y) →
  (o, x) ∈ F → (o, x) ∈ F'.
Proof.
  intros H1 H2 C Hin. pose proof (sp_pos o).
  assert (∀ G o x, bok U mo G → (o, x) ∈ G → all_free G o x) as Hfree.
  { intros G o' x' HG Hx y Hy. pose proof (listed_cover _ _ _ _ Hx Hy).
    pose proof (b_cover _ _ _ HG y). lia. }
  destruct (contained U mo F' o x H2) as (o' & x' & Hin' & Ho & Hl & Hr).
  { by apply (b_blk _ _ _ H1). }
  { intros y Hy. rewrite <- C. by apply (Hfree F o x). }
  destruct (contained U mo F o' x' H1) as (o2 & x2 & Hin2 & Ho2 & Hl2 & Hr2).
  { by apply (b_blk _ _ _ H2). }
  { intros y Hy. rewrite C. by apply (Hfree F' o' x'). }
  assert ((o, x) = (o2, x2)) as [= <- <-].
  { eapply (overlap_same U mo F _ _ _ _ x); [done..|lia|lia]. }
  assert (o' = o) as -> by lia. assert (x' = x) as -> by lia. done.
Qed.

Lemma bok_nodup U mo F : bok U mo F → NoDup F.
Proof.
  induction F as [|[o x] F IH]; [constructor|]. intros HF.
  destruct (bok_uncons _ _ _ _ _ HF) as (HF' & _ & Hu). constructor; [|auto].
  by apply uncovered_not_listed.
Qed.

Lemma bok_canonical U mo F F' :
  bok U mo F → bok U mo F' → (∀ y, cover (ranges k F) y = cover (ranges k F') y) → F ≡ₚ F'.
Proof.
  intros H1 H2 C. apply NoDup_Permutation; [by eapply bok_nodup..|].
  intros [o x]. split; [by apply bok_canonical_sub with U mo|].
  by apply bok_canonical_sub with U mo.
Qed.

(** * The allocator *)

Definition usable (b : BuddyAllocator) : Z := total_usable_size b / sector_size b * sector_size b.

(** The allocator's parameters: power-of-two sectors (the masks and the
    exclusive-or of the code need it) and less than 8 EiB. *)
Record params_ok (b : BuddyAllocator) : Prop := {
  p_sector : sector_size b = 2 ^ k;
  p_small : k < 32;
  p_total : 0 ≤ total_usable_size b < 2 ^ 63;
  p_base : 0 ≤ base_offset b ∧ base_offset b + total_usable_size b < 2 ^ 64;
  p_max : usable b < sp (S (max_order b));
  p_span : sp (max_order b) < 2 ^ 63
}.

Record ok (b : BuddyAllocator) : Prop := {
  ok_params : params_ok b;
  ok_len : length (free_lists b) = (max_order b + 1)%nat;
  ok_blocks : bok (usable b) (max_order b) (flat (free_lists b))
}.

Lemma usable_le b : params_ok b → 0 ≤ usable b ≤ total_usable_size b.
Proof.
  intros [E _ [H0 _] _ _ _]. unfold usable. rewrite E.
  assert (0 < 2 ^ k) by (apply Z.pow_pos_nonneg; lia).
  pose proof (Z.mul_div_le (total_usable_size b) (2 ^ k)).
  assert (0 ≤ total_usable_size b / 2 ^ k) by (apply Z.div_pos; lia). nia.
Qed.

Lemma span_of_spec b o : params_ok b → (o ≤ max_order b)%nat → span_of b o = Ret (sp o).
Proof.
  intros P Ho. pose proof (sp_mono _ _ Ho) as Hm. pose proof (p_span _ P) as Hs.
  assert (k + Z.of_nat (max_order b) < 63).
  { unfold Buddy.sp in Hs. by apply (Z.pow_lt_mono_r_iff 2); [lia..|]. }
  unfold span_of. destruct (Nat.ltb_spec o 64); [|lia].
  rewrite (p_sector _ P), Z.shiftl_mul_pow2, Z.mul_1_l by lia.
  unfold mul_w, Buddy.sp in *. rewrite <- Z.pow_add_r by lia.
  replace (Z.of_nat o + k) with (k + Z.of_nat o) by lia.
  by rewrite (proj2 (Z.ltb_lt _ _)) by lia.
Qed.

(** ** Splitting *)

(** [carve_loop] lists the siblings on the way from the block at
    [split_offset] down to the one at [offset]. *)
Lemma carve_loop_spec b offset target m split fls :
  params_ok b → length fls = (max_order b + 1)%nat →
  bok (usable b) (max_order b) (flat fls) →
  blk_ok (usable b) (max_order b) (target + m) split → uncovered (flat fls) (target + m) split →
  (sp target | offset) → split ≤ offset → offset + sp target ≤ split + sp (target + m) →
  ∃ fls', carve_loop b offset target m split fls = Ret fls' ∧
    length fls' = length fls ∧ bok (usable b) (max_order b) (flat fls') ∧
    uncovered (flat fls') target offset ∧
    ∀ y, cover (ranges k (flat fls')) y + holds offset (sp target) y =
         cover (ranges k (flat fls)) y + holds split (sp (target + m)) y.
Proof.
  intros P. pose proof (usable_le _ P) as HU. pose proof (p_total _ P) as [_ HT].
  revert split fls. induction m as [|m IH]; intros split fls Hlen HF (Ho & Ha & H0 & Hr) Hu Hal Hlo Hhi.
  { rewrite Nat.add_0_r in *. assert (split = offset) as -> by lia. exists fls. done. }
  simpl. rewrite Nat.add_succ_r in *. set (o := (target + m)%nat) in *.
  pose proof (sp_pos o) as Hs. pose proof (sp_S o) as HS.
  rewrite span_of_spec by (done || lia). simpl. rewrite add_w_Ret by lia. simpl.
  destruct (buddy_upper o split Ha) as [Hb1 Hb2].
  assert ((sp o | split)) as Ha1 by (eapply Z.divide_trans; [|exact Ha]; apply sp_divide; lia).
  assert ((sp o | split + sp o)) as Ha2 by (apply Z.divide_add_r; [done|apply Z.divide_refl]).
  assert (∀ x, x = split ∨ x = split + sp o → blk_ok (usable b) (max_order b) o x ∧ uncovered (flat fls) o x) as Hh.
  { intros x Hx. split; [destruct Hx as [->| ->]; split_and!; (done || lia)|].
    intros y Hy. apply Hu. lia. }
  (* push one half, go on with the other *)
  assert (∀ x x', buddy o x = x' → x ≠ x' → (x = split ∧ x' = split + sp o ∨ x = split + sp o ∧ x' = split) →
    x' ≤ offset → offset + sp target ≤ x' + sp o →
    ∃ fls', (f ← push fls o x; carve_loop b offset target m x' f) = Ret fls' ∧
    length fls' = length fls ∧ bok (usable b) (max_order b) (flat fls') ∧
    uncovered (flat fls') target offset ∧
    ∀ y, cover (ranges k (flat fls')) y + holds offset (sp target) y =
         cover (ranges k (flat fls)) y + holds split (sp (S o)) y) as Hstep.
  { intros x x' Hb Hne Hxx Hlo' Hhi'.
    destruct (Hh x) as [Bx Ux]; [tauto|]. destruct (Hh x') as [Bx' Ux']; [tauto|].
    destruct (push_spec fls o x) as (f & -> & Hl & Hp & _); [lia|]. simpl.
    assert (bok (usable b) (max_order b) (flat f)) as HF1.
    { apply (bok_perm _ _ ((o, x) :: flat fls)); [by rewrite Hp|]. apply bok_cons; [done..|].
      intros _. rewrite Hb. by apply uncovered_not_listed. }
    destruct (IH x' f) as (fls' & E & Hl' & HF' & Hu' & HC); [congruence|done|done| |done..|].
    { intros y Hy. rewrite (bcover_perm _ _ y Hp), bcover_cons, Ux' by done.
      rewrite (proj2 (holds_zero _ _ _)); lia. }
    exists fls'. split_and!; [done|congruence|done|done|]. intros y. rewrite HC.
    rewrite (bcover_perm _ _ y Hp), bcover_cons, HS.
    replace (2 * sp o) with (sp o + sp o) by lia. rewrite (holds_split split) by lia.
    destruct Hxx as [[-> ->]|[-> ->]]; lia. }
  destruct (Z.leb_spec (split + sp o) offset) as [Hm|Hm].
  - apply (Hstep split (split + sp o)); [done|lia|tauto|done|lia].
  - apply (Hstep (split + sp o) split); [done|lia|tauto|done|].
    destruct (nested target offset o split offset) as [_ ?]; (done || lia || idtac).
    + pose proof (sp_pos target). lia.
Qed.

Lemma split_loop_carve b x needed m fls :
  params_ok b → (needed + m ≤ max_order b + 1)%nat →
  split_loop b x needed m fls = carve_loop b x needed m x fls.
Proof.
  intros P. revert fls. induction m as [|m IH]; intros fls Hm; [done|]. simpl.
  rewrite span_of_spec by (done || lia). simpl.
  destruct (add_w 64 x (sp (needed + m))) as [mid|] eqn:E; [|done]. simpl.
  unfold add_w in E. destruct (_ <? _); [|done]. injection E as <-.
  pose proof (sp_pos (needed + m)). destruct (Z.leb_spec (x + sp (needed + m)) x); [lia|].
  destruct (push fls _ _); [|done]. simpl. apply IH. lia.
Qed.

(** ** Allocation *)

Lemma order_of_spec blocks :
  0 ≤ blocks < 2 ^ 64 → order_of blocks = Ret (Z.to_nat (Z.log2_up blocks)).
Proof.
  intros [H0 H1]. unfold order_of. destruct (Z.leb_spec blocks 1).
  { by rewrite Z.log2_up_eqn0 by lia. }
  rewrite sub_w_Ret by lia. simpl. unfold leading_zeros64.
  destruct (Z.eqb_spec (blocks - 1) 0); [lia|].
  assert (Z.log2 (blocks - 1) < 64) by (apply Z.log2_lt_pow2; lia).
  pose proof (Z.log2_nonneg (blocks - 1)).
  rewrite sub_w_Ret by lia. simpl. rewrite Z.log2_up_eqn by lia.
  replace (Z.pred blocks) with (blocks - 1) by lia. do 2 f_equal. lia.
Qed.

(** The order that serves [size] bytes. *)
Definition order_for (size : Z) : nat := Z.to_nat (Z.log2_up ((size + 2 ^ k - 1) / 2 ^ k)).

Lemma order_for_fits size : 0 ≤ size → size ≤ sp (order_for size).
Proof.
  intros H0. unfold order_for, Buddy.sp. assert (0 < 2 ^ k) as Hp by (apply Z.pow_pos_nonneg; lia).
  pose proof (Z.log2_up_nonneg ((size + 2 ^ k - 1) / 2 ^ k)) as Hn.
  rewrite Z2Nat.id, Z.pow_add_r by lia.
  assert (size ≤ 2 ^ k * ((size + 2 ^ k - 1) / 2 ^ k)) as Hc.
  { pose proof (Z.div_mod (size + 2 ^ k - 1) (2 ^ k) ltac:(lia)).
    pose proof (Z.mod_pos_bound (size + 2 ^ k - 1) (2 ^ k) Hp). lia. }
  assert (0 ≤ (size + 2 ^ k - 1) / 2 ^ k) by (apply Z.div_pos; lia).
  pose proof (Z.log2_log2_up_spec ((size + 2 ^ k - 1) / 2 ^ k)) as Hl.
  destruct (decide ((size + 2 ^ k - 1) / 2 ^ k = 0)) as [E|]; [|nia].
  rewrite E in *. simpl. lia.
Qed.

Lemma find_order_spec fls order m :
  (m = 0 ∨ order + m ≤ length fls)%nat →
  (∃ o l, find_order fls order m = Ret (Some o) ∧ (order ≤ o < order + m)%nat ∧
          fls !! o = Some l ∧ l ≠ []) ∨
  (find_order fls order m = Ret None ∧ ∀ o, (order ≤ o < order + m)%nat → fls !! o = Some []).
Proof.
  revert order. induction m as [|m IH]; intros order Hle; simpl.
  { right. split; [done|]. lia. }
  destruct (lookup_lt_is_Some_2 fls order) as [l Hl]; [lia|].
  unfold vec_get. rewrite Hl. simpl. destruct l as [|x l].
  - destruct (IH (S order)) as [(o & l & E & Ho & Hl' & Hne)|[E Hn]]; [lia|..].
    + left. exists o, l. split_and!; (done || lia).
    + right. split; [done|]. intros o Ho. destruct (decide (o = order)) as [->|]; [done|].
      apply Hn. lia.
  - left. exists order, (x :: l). split_and!; (done || lia).
Qed.

(** The result of a call that takes the block [(o, x)] out of the free lists. *)
Definition taken (b b' : BuddyAllocator) (o : nat) (x : Z) : Prop :=
  ok b' ∧ (∃ fls, b' = set_lists b fls) ∧ blk_ok (usable b) (max_order b) o x ∧
  uncovered (flat (free_lists b')) o x ∧
  ∀ y, cover (ranges k (flat (free_lists b'))) y =
       cover (ranges k (flat (free_lists b))) y - holds x (sp o) y.

Lemma ok_set_lists b fls :
  ok b → length fls = length (free_lists b) → bok (usable b) (max_order b) (flat fls) →
  ok (set_lists b fls).
Proof. intros [[] L F] Hl HF. split; simpl; [by split|congruence|done]. Qed.

(** Taking the block [(o, x)] out of the listed block [(o', x')] that holds it. *)
Lemma take_block b o x o' x' l l' :
  ok b → free_lists b !! o' = Some l → l ≡ₚ x' :: l' → (o ≤ o')%nat → (sp o | x) →
  x' ≤ x → x + sp o ≤ x' + sp o' →
  ∃ fls', carve_loop b x o (o' - o) x' (<[o' := l']> (free_lists b)) = Ret fls' ∧
          taken b (set_lists b fls') o x.
Proof.
  intros O Hl Hp Ho Ha Hlo Hhi. pose proof O as [P L HF].
  pose proof (flat_take _ _ _ _ _ Hl Hp) as Hfl.
  apply (bok_perm _ _ _ _ Hfl) in HF. destruct (bok_uncons _ _ _ _ _ HF) as (HF' & Bx & Ux).
  pose proof (carve_loop_spec b x o (o' - o) x' (<[o':=l']> (free_lists b)) P) as CS.
  replace (o + (o' - o))%nat with o' in CS by lia.
  destruct CS as (fls' & E & Hl' & HFl & Hu & HC); [by rewrite length_insert|done..|].
  rewrite length_insert in Hl'. exists fls'. split; [done|].
  pose proof (sp_pos o). destruct Bx as (B1 & B2 & B3 & B4).
  split_and!; [by apply ok_set_lists|by eexists| |done|].
  - split_and!; [lia|done|lia|lia].
  - intros y. simpl. rewrite (bcover_perm _ _ y Hfl), bcover_cons.
    specialize (HC y). lia.
Qed.

Lemma alloc_spec b size :
  ok b → 0 ≤ size < 2 ^ 63 →
  (∃ x b', alloc b size = Ret (Some (base_offset b + x), b') ∧ taken b b' (order_for size) x) ∨
  (alloc b size = Ret (None, b) ∧
   ∀ o, (order_for size ≤ o ≤ max_order b)%nat → free_lists b !! o = Some []).
Proof.
  intros O [H0 H1]. pose proof O as [P L HF]. pose proof (p_sector _ P) as Es.
  pose proof (p_small _ P) as Hks.
  assert (0 < 2 ^ k < 2 ^ 32) as Hp by (split; [apply Z.pow_pos_nonneg|apply Z.pow_lt_mono_r]; lia).
  unfold alloc. rewrite Es. rewrite add_w_Ret by lia. simpl. rewrite sub_w_Ret by lia. simpl.
  rewrite div_w_Ret by lia. simpl.
  assert (0 ≤ (size + 2 ^ k - 1) / 2 ^ k < 2 ^ 64) as Hd.
  { split; [apply Z.div_pos; lia|]. apply Z.div_lt_upper_bound; nia. }
  rewrite order_of_spec by done. simpl. fold (order_for size). set (need := order_for size).
  destruct (find_order_spec (free_lists b) need (max_order b + 1 - need))
    as [(o & l & -> & Ho & Hl & Hne)|[-> Hn]]; [lia|..].
  - left. simpl. unfold vec_get. rewrite Hl. simpl.
    destruct l as [|x l' _] using rev_ind; [done|]. rewrite vec_pop_snoc. simpl.
    rewrite vec_set_Ret by lia. simpl. rewrite split_loop_carve by (done || lia).
    assert (l' ++ [x] ≡ₚ x :: l') as Hpm by (by rewrite <- Permutation_cons_append).
    assert ((o, x) ∈ flat (free_lists b)) as Hin by (apply flat_elem; exists (l' ++ [x]); set_solver).
    destruct (b_blk _ _ _ HF _ _ Hin) as (_ & Ha & Hx0 & Hx1).
    assert (sp need ≤ sp o) by (apply sp_mono; lia).
    destruct (take_block b need x o x (l' ++ [x]) l' O Hl Hpm) as (fls' & -> & T);
      [lia| |lia|lia|].
    { eapply Z.divide_trans; [|exact Ha]. apply sp_divide. lia. }
    simpl. pose proof (usable_le _ P). pose proof (p_base _ P). pose proof (sp_pos o).
    rewrite add_w_Ret by lia. simpl. eauto.
  - right. split; [done|]. intros o Ho. apply Hn. lia.
Qed.

(** ** Freeing *)

Lemma order_floor size : 0 ≤ size < 2 ^ 63 → (2 ^ k | size) →
  order_of (size / 2 ^ k) = Ret (order_for size).
Proof.
  intros [H0 H1] [q ->]. assert (0 < 2 ^ k) as Hp by (apply Z.pow_pos_nonneg; lia).
  rewrite Z.div_mul by lia. rewrite order_of_spec by nia. unfold order_for.
  replace ((q * 2 ^ k + 2 ^ k - 1) / 2 ^ k) with q; [done|].
  apply (Z.div_unique _ _ _ (2 ^ k - 1)); lia.
Qed.

Lemma position_take fls o l x pos :
  fls !! o = Some l → vec_position x l = Some pos →
  ∃ l', vec_swap_remove l pos = Ret l' ∧ l ≡ₚ x :: l' ∧ vec_set fls o l' = Ret (<[o := l']> fls).
Proof.
  intros Hl Hp%vec_position_Some. destruct (vec_swap_remove_perm _ _ _ Hp) as (l' & E & P).
  exists l'. split_and!; [done..|]. apply vec_set_Ret. by eapply lookup_lt_Some.
Qed.

Lemma merge_loop_spec b m o x fls :
  params_ok b → length fls = (max_order b + 1)%nat → (m = max_order b - o)%nat →
  bok (usable b) (max_order b) (flat fls) →
  blk_ok (usable b) (max_order b) o x → uncovered (flat fls) o x →
  ∃ o' x' fls', merge_loop b m o x fls = Ret (o', x', fls') ∧ length fls' = length fls ∧
    bok (usable b) (max_order b) ((o', x') :: flat fls') ∧
    ∀ y, cover (ranges k ((o', x') :: flat fls')) y =
         cover (ranges k (flat fls)) y + holds x (sp o) y.
Proof.
  intros P. pose proof (usable_le _ P) as HU. pose proof (p_total _ P) as [_ HT].
  revert o x fls. induction m as [|m IH]; intros o x fls Hlen Hm HF Bx Ux.
  { exists o, x, fls. split_and!; [done..| |intros y; rewrite bcover_cons; lia].
    apply bok_cons; [done..|]. destruct Bx as [? _]. lia. }
  pose proof Bx as (Ho & Ha & H0 & Hr). pose proof (sp_pos o) as Hs.
  simpl. rewrite span_of_spec by (done || lia). simpl. rewrite lxor_buddy by done.
  assert ((o < max_order b)%nat) as Holt by lia.
  assert (0 ≤ buddy o x ≤ x + sp o) as Hbb.
  { destruct (buddy_parent o x Ha H0) as (_ & Hmin & _). unfold Buddy.buddy in *.
    destruct (Z.even _); lia. }
  assert (2 * sp o ≤ sp (max_order b)) by (rewrite <- sp_S; apply sp_mono; lia).
  pose proof (p_span _ P). rewrite add_w_Ret by lia. simpl.
  assert (∀ Hnin : (o, buddy o x) ∉ flat fls, ∃ o' x' fls', Ret (o, x, fls) = Ret (o', x', fls') ∧
    length fls' = length fls ∧ bok (usable b) (max_order b) ((o', x') :: flat fls') ∧
    ∀ y, cover (ranges k ((o', x') :: flat fls')) y =
         cover (ranges k (flat fls)) y + holds x (sp o) y) as Hstop.
  { intros Hnin. exists o, x, fls. split_and!; [done..| |intros y; rewrite bcover_cons; lia].
    by apply bok_cons. }
  destruct (Z.ltb_spec (total_usable_size b) (buddy o x + sp o)) as [Hb|Hb].
  { apply Hstop. intros Hin. destruct (b_blk _ _ _ HF _ _ Hin) as (_ & _ & _ & ?). lia. }
  destruct (lookup_lt_is_Some_2 fls o) as [l Hl]; [lia|].
  unfold vec_get. rewrite Hl. simpl.
  destruct (vec_position (buddy o x) l) as [pos|] eqn:Hpos.
  2: { apply Hstop. rewrite flat_elem, Hl. apply vec_position_None in Hpos. naive_solver. }
  destruct (position_take _ _ _ _ _ Hl Hpos) as (l' & -> & Hp & Es). simpl. rewrite Es. simpl.
  pose proof (flat_take _ _ _ _ _ Hl Hp) as Hfl.
  destruct (buddy_parent o x Ha H0) as (Hpa & Hp0 & Hph).
  apply (bok_perm _ _ _ _ Hfl) in HF. destruct (bok_uncons _ _ _ _ _ HF) as (HF' & Bb & Ub).
  destruct (IH (S o) (Z.min x (buddy o x)) (<[o:=l']> fls)) as (o' & x' & fls' & E & Hl' & HFx & HC);
    [by rewrite length_insert|lia|done|..].
  { destruct Bb as (_ & _ & ? & ?). split_and!; [lia|done|done|]. rewrite sp_S.
    unfold Buddy.buddy in *. destruct (Z.even _); lia. }
  { intros y Hy. pose proof (Hph y) as Hph'. rewrite (holds_one (Z.min _ _)) in Hph' by done.
    unfold uncovered in Ux. destruct (decide (x ≤ y < x + sp o)) as [Hx|Hx].
    - specialize (Ux y Hx). rewrite (bcover_perm _ _ y Hfl), bcover_cons in Ux.
      pose proof (holds_nonneg (buddy o x) (sp o) y).
      pose proof (cover_nonneg (ranges k (flat (<[o:=l']> fls))) y). lia.
    - rewrite (proj2 (holds_zero _ _ _) Hx) in Hph'. apply Ub. unfold holds in Hph'.
      case_bool_decide; [done|lia]. }
  exists o', x', fls'. rewrite length_insert in Hl'. split_and!; [done..|].
  intros y. etrans; [apply HC|]. rewrite (bcover_perm _ _ y Hfl), bcover_cons.
  specialize (Hph y). lia.
Qed.

Lemma free_spec b size x :
  ok b → 0 ≤ size < 2 ^ 63 → (2 ^ k | size) →
  blk_ok (usable b) (max_order b) (order_for size) x →
  uncovered (flat (free_lists b)) (order_for size) x →
  ∃ b', free b (base_offset b + x) size = Ret b' ∧ ok b' ∧ (∃ fls, b' = set_lists b fls) ∧
    ∀ y, cover (ranges k (flat (free_lists b'))) y =
         cover (ranges k (flat (free_lists b))) y + holds x (sp (order_for size)) y.
Proof.
  intros O Hsz Hdv Bx Ux. pose proof O as [P L HF]. unfold free.
  pose proof Bx as (Ho & _ & H0 & _).
  rewrite sub_w_Ret by lia. simpl. rewrite (p_sector _ P).
  assert (0 < 2 ^ k) as Hp by (apply Z.pow_pos_nonneg; lia). rewrite div_w_Ret by lia. simpl.
  rewrite order_floor by done. simpl. replace (base_offset b + x - base_offset b) with x by lia.
  destruct (merge_loop_spec b (max_order b - order_for size) (order_for size) x (free_lists b) P)
    as (o' & x' & fls' & -> & Hl & HFx & HC); [done..|]. simpl.
  destruct (bok_uncons _ _ _ _ _ HFx) as (_ & (Ho' & _) & _).
  destruct (push_spec fls' o' x') as (f & -> & Hl' & Hp' & _); [lia|]. simpl.
  eexists. split; [done|]. split_and!; [|by eexists|].
  - apply ok_set_lists; [done|congruence|]. by apply (bok_perm _ _ _ _ (symmetry Hp')).
  - intros y. etrans; [apply (bcover_perm _ _ y Hp')|apply HC].
Qed.

(** ** Marking at recovery *)

Lemma ldiff_floor o x : 0 ≤ x → Z.ldiff x (sp o - 1) = x / sp o * sp o.
Proof.
  intros H0. unfold Buddy.sp. replace (2 ^ (k + Z.of_nat o) - 1) with (Z.ones (k + Z.of_nat o))
    by (rewrite Z.ones_equiv; lia).
  rewrite Z.ldiff_ones_r, Z.shiftr_div_pow2, Z.shiftl_mul_pow2 by lia. done.
Qed.

Lemma floor_block o x : 0 ≤ x →
  (sp o | x / sp o * sp o) ∧ x / sp o * sp o ≤ x < x / sp o * sp o + sp o.
Proof.
  intros H0. pose proof (sp_pos o). split; [by eexists|].
  pose proof (Z.div_mod x (sp o) ltac:(lia)). pose proof (Z.mod_pos_bound x (sp o)). lia.
Qed.

Lemma floor_unique o x x' : (sp o | x') → x' ≤ x < x' + sp o → x / sp o * sp o = x'.
Proof.
  intros [q ->] Hx. pose proof (sp_pos o). f_equal. symmetry.
  apply (Z.div_unique _ _ _ (x - q * sp o)); lia.
Qed.

(** The search finds the one listed block that holds [x], if it has an order
    at least [search]. *)
Lemma search_loop_spec b o x search m :
  ok b → blk_ok (usable b) (max_order b) o x → (o < search)%nat →
  (search + m = max_order b + 1)%nat →
  (∀ o', (o' < search)%nat → ∀ x', (o', x') ∈ flat (free_lists b) → ¬ (x' ≤ x < x' + sp o')) →
  (∃ fls', search_loop b x o search m (free_lists b) = Ret fls' ∧ taken b (set_lists b fls') o x) ∨
  (search_loop b x o search m (free_lists b) = Ret (free_lists b) ∧
   cover (ranges k (flat (free_lists b))) x = 0).
Proof.
  intros O Bx. pose proof O as [P L HF]. pose proof Bx as (Ho & Ha & H0 & Hr).
  revert search. induction m as [|m IH]; intros search Hos Hm Hno; simpl.
  - right. split; [done|]. apply cover_zero. intros x' s' Hin.
    apply list_elem_of_fmap in Hin as ([o' x2] & [= -> ->] & Hin).
    destruct (b_blk _ _ _ HF _ _ Hin) as (? & _). apply Hno; [lia|done].
  - rewrite span_of_spec by (done || lia). simpl. pose proof (sp_pos search).
    rewrite sub_w_Ret by lia. simpl. rewrite ldiff_floor by done.
    destruct (lookup_lt_is_Some_2 (free_lists b) search) as [l Hl]; [lia|].
    unfold vec_get. rewrite Hl. simpl. destruct (floor_block search x H0) as [Hfa Hfx].
    destruct (vec_position (x / sp search * sp search) l) as [pos|] eqn:Hpos.
    + left. destruct (position_take _ _ _ _ _ Hl Hpos) as (l' & -> & Hp & Es).
      simpl. rewrite Es. simpl. pose proof (sp_pos o).
      destruct (nested o x search (x / sp search * sp search) x); [lia|done|done|lia|done|].
      apply (take_block b o x search _ l l'); (done || lia).
    + destruct (IH (S search)) as [?|?]; [lia|lia| |by left|by right].
      intros o' Ho' x' Hin Hx. destruct (decide (o' = search)) as [->|]; [|by eapply Hno; [..|exact Hx]; [lia|]].
      destruct (b_blk _ _ _ HF _ _ Hin) as (_ & Ha' & _).
      rewrite (floor_unique search x x') in Hpos by done.
      apply vec_position_None in Hpos. apply flat_elem in Hin as (l2 & Hl2 & Hin). naive_solver.
Qed.

Lemma mark_allocated_spec b size x :
  ok b → 0 ≤ size < 2 ^ 63 → (2 ^ k | size) →
  blk_ok (usable b) (max_order b) (order_for size) x →
  all_free (flat (free_lists b)) (order_for size) x →
  ∃ b', mark_allocated b (base_offset b + x) size = Ret b' ∧ taken b b' (order_for size) x.
Proof.
  intros O Hsz Hdv Bx Fx. pose proof O as [P L HF]. unfold mark_allocated.
  pose proof Bx as (Ho & Ha & H0 & Hr). pose proof (sp_pos (order_for size)) as Hs.
  rewrite sub_w_Ret by lia. simpl. rewrite (p_sector _ P).
  assert (0 < 2 ^ k) as Hp by (apply Z.pow_pos_nonneg; lia). rewrite div_w_Ret by lia. simpl.
  rewrite order_floor by done. simpl. replace (base_offset b + x - base_offset b) with x by lia.
  set (o := order_for size) in *.
  destruct (lookup_lt_is_Some_2 (free_lists b) o) as [l Hl]; [lia|].
  unfold vec_get. rewrite Hl. simpl. destruct (vec_position x l) as [pos|] eqn:Hpos.
  - destruct (position_take _ _ _ _ _ Hl Hpos) as (l' & -> & Hpm & Es). simpl. rewrite Es. simpl.
    eexists. split; [done|].
    destruct (take_block b o x o x l l' O Hl Hpm) as (fls' & E & T); [lia|done|lia|lia|].
    rewrite Nat.sub_diag in E. simpl in E. injection E as <-. done.
  - destruct (contained _ _ _ _ _ HF Bx Fx) as (o' & x' & Hin & Hoo & Hlo & Hhi).
    assert (∀ o2 x2, (o2, x2) ∈ flat (free_lists b) → x2 ≤ x < x2 + sp o2 → (o2, x2) = (o', x')) as Hu.
    { intros o2 x2 Hin2 Hx2. eapply (overlap_same _ _ _ _ _ _ _ x); [done..|lia]. }
    destruct (search_loop_spec b o x (o + 1) (max_order b - o) O Bx) as [(fls' & -> & T)|[_ Hz]];
      [lia|lia| |simpl; eauto|].
    + intros o2 Ho2 x2 Hin2 Hx2. pose proof (Hu _ _ Hin2 Hx2) as [= -> ->].
      assert (o' = o) as -> by lia. assert (x' = x) as -> by lia.
      apply vec_position_None in Hpos. apply flat_elem in Hin2 as (l2 & Hl2 & Hin2). naive_solver.
    + specialize (Fx x ltac:(lia)). lia.
Qed.

(** ** Initialisation *)

(** The loop has listed the first [offset] sectors, in blocks of order at least
    [L], and has fewer than [2^L] left. *)
Lemma new_loop_spec fuel L offset remaining mo fls :
  0 ≤ offset → 0 ≤ remaining → remaining < 2 ^ Z.of_nat fuel → remaining < 2 ^ Z.of_nat L →
  (remaining ≠ 0 → (Z.to_nat (Z.log2 remaining) ≤ mo)%nat) → (fuel ≤ 64)%nat →
  (offset + remaining) * 2 ^ k < 2 ^ 63 → (2 ^ Z.of_nat L | offset) →
  length fls = (mo + 1)%nat →
  bok ((offset + remaining) * 2 ^ k) mo (flat fls) →
  (∀ o x, (o, x) ∈ flat fls → (L ≤ o)%nat) →
  (∀ y, cover (ranges k (flat fls)) y = holds 0 (offset * 2 ^ k) y) →
  ∃ fls', new_loop fuel (2 ^ k) offset remaining fls = Ret fls' ∧ length fls' = (mo + 1)%nat ∧
    bok ((offset + remaining) * 2 ^ k) mo (flat fls') ∧
    ∀ y, cover (ranges k (flat fls')) y = holds 0 ((offset + remaining) * 2 ^ k) y.
Proof.
  assert (0 < 2 ^ k) as Hp by (apply Z.pow_pos_nonneg; lia).
  revert L offset remaining fls.
  induction fuel as [|fuel IH]; intros L offset r fls H0 Hr Hf HL Hmo Hf64 Hb HdL Hlen HF HLo HC; simpl.
  { assert (r = 0) as -> by lia. exists fls. rewrite Z.add_0_r in *. done. }
  destruct (Z.eqb_spec r 0) as [->|Hr0].
  { exists fls. rewrite Z.add_0_r in *. done. }
  specialize (Hmo Hr0). pose proof (Z.log2_spec r ltac:(lia)) as [Hl1 Hl2].
  rewrite Z.pow_succ_r in Hl2 by apply Z.log2_nonneg.
  pose proof (Z.log2_nonneg r) as Hln. set (o := Z.log2 r) in *.
  assert (o < Z.of_nat (S fuel)) as Hof by (apply (Z.pow_lt_mono_r_iff 2); lia).
  assert (o < Z.of_nat L) as HoL by (apply (Z.pow_lt_mono_r_iff 2); lia).
  unfold leading_zeros64. destruct (Z.eqb_spec r 0); [done|]. fold o.
  rewrite sub_w_Ret by lia. simpl. replace (63 - (63 - o)) with o by lia.
  rewrite Z.shiftl_1_l. rewrite mul_w_Ret by nia. simpl.
  destruct (push_spec fls (Z.to_nat o) (offset * 2 ^ k)) as (f & -> & Hl & Hpm & _); [lia|]. simpl.
  assert (2 ^ 63 < 2 ^ 64) by (by vm_compute).
  rewrite add_w_Ret by nia. simpl. rewrite sub_w_Ret by lia. simpl.
  assert (sp (Z.to_nat o) = 2 ^ o * 2 ^ k) as Hsp.
  { unfold Buddy.sp. rewrite Z2Nat.id, Z.pow_add_r by lia. lia. }
  replace (offset + r) with (offset + 2 ^ o + (r - 2 ^ o)) in * by lia.
  assert ((2 ^ o | offset)) as Hdo.
  { eapply Z.divide_trans; [|exact HdL]. exists (2 ^ (Z.of_nat L - o)).
    rewrite <- Z.pow_add_r by lia. f_equal. lia. }
  assert (0 < 2 ^ o) by (apply Z.pow_pos_nonneg; lia).
  apply (IH (Z.to_nat o)); rewrite ?Z2Nat.id by lia; [lia|lia| |lia| |lia|lia| |lia|..].
  - assert (2 ^ o ≤ 2 ^ Z.of_nat fuel) by (apply Z.pow_le_mono_r; lia). lia.
  - intros Hne. assert (Z.log2 (r - 2 ^ o) ≤ o) by (apply Z.log2_le_mono; lia). lia.
  - apply Z.divide_add_r; [done|apply Z.divide_refl].
  - apply (bok_perm _ _ ((Z.to_nat o, offset * 2 ^ k) :: flat fls)); [by rewrite Hpm|].
    apply bok_cons; [done| | |].
    + split_and!; [done| |nia|nia]. rewrite Hsp. by apply Z.mul_divide_mono_r.
    + intros y Hy. rewrite HC. apply holds_zero. lia.
    + intros _ Hin. apply HLo in Hin. lia.
  - intros o' x'. rewrite Hpm. intros [[= -> ->]|Hin]%elem_of_cons; [done|]. apply HLo in Hin. lia.
  - intros y. rewrite (bcover_perm _ _ y Hpm), bcover_cons, HC, Hsp.
    replace ((offset + 2 ^ o) * 2 ^ k) with (offset * 2 ^ k + 2 ^ o * 2 ^ k) by lia.
    rewrite holds_split, Z.add_0_l by nia. lia.
Qed.

#[local] Arguments new_loop : simpl never.

Lemma flat_replicate n : flat (replicate n []) = [].
Proof.
  unfold flat. generalize 0%nat as i. induction n as [|n IH]; intros i; simpl; [done|]. apply IH.
Qed.

Lemma buddy_new_spec base total :
  k < 32 → 0 ≤ total < 2 ^ 63 → 0 ≤ base → base + total < 2 ^ 64 →
  ∃ b, new base total (2 ^ k) = Ret b ∧ ok b ∧ base_offset b = base ∧ total_usable_size b = total ∧
    sector_size b = 2 ^ k ∧
    ∀ y, cover (ranges k (flat (free_lists b))) y = holds 0 (usable b) y.
Proof.
  intros Hks [HT0 HT1] Hb0 Hb1.
  assert (0 < 2 ^ k < 2 ^ 32) as Hp by (split; [apply Z.pow_pos_nonneg|apply Z.pow_lt_mono_r]; lia).
  unfold new. rewrite div_w_Ret by lia. simpl. set (n := total / 2 ^ k).
  assert (0 ≤ n) as Hn by (apply Z.div_pos; lia).
  assert (n * 2 ^ k ≤ total) as Hnt by (pose proof (Z.mul_div_le total (2 ^ k)); lia).
  assert (∀ mo fls, length fls = (mo + 1)%nat → bok (n * 2 ^ k) mo (flat fls) →
    n * 2 ^ k < sp (S mo) → sp mo < 2 ^ 63 →
    (∀ y, cover (ranges k (flat fls)) y = holds 0 (n * 2 ^ k) y) →
    ∃ b, Ret (mkBuddy base total (2 ^ k) mo fls) = Ret b ∧ ok b ∧ base_offset b = base ∧
      total_usable_size b = total ∧ sector_size b = 2 ^ k ∧
      ∀ y, cover (ranges k (flat (free_lists b))) y = holds 0 (usable b) y) as Hfin.
  { intros mo fls Hl HF HU Hs HC. eexists. split; [done|]. split_and!; [|done..].
    split; simpl; [|done|done]. by split. }
  assert (∀ mo, (0 < n) → mo = Z.to_nat (Z.log2 n) → ∃ fls,
    new_loop 64 (2 ^ k) 0 n (replicate (mo + 1) []) = Ret fls ∧ length fls = (mo + 1)%nat ∧
    bok (n * 2 ^ k) mo (flat fls) ∧ n * 2 ^ k < sp (S mo) ∧ sp mo < 2 ^ 63 ∧
    ∀ y, cover (ranges k (flat fls)) y = holds 0 (n * 2 ^ k) y) as Hloop.
  { intros mo Hpos ->. pose proof (Z.log2_spec n Hpos) as [Hl1 Hl2]. pose proof (Z.log2_nonneg n).
    rewrite Z.pow_succ_r in Hl2 by done.
    destruct (new_loop_spec 64 64 0 n (Z.to_nat (Z.log2 n)) (replicate (Z.to_nat (Z.log2 n) + 1) []))
      as (fls & -> & Hl & HF & HC); [lia|lia|lia|lia|lia|lia|lia|by exists 0| | | | |].
    - by rewrite length_replicate.
    - rewrite flat_replicate. split; [set_solver|simpl; lia|set_solver].
    - rewrite flat_replicate. set_solver.
    - intros y. rewrite flat_replicate. simpl. symmetry. apply holds_zero. lia.
    - exists fls. split_and!; [done..| | |done].
      + rewrite sp_S. unfold Buddy.sp. rewrite Z2Nat.id, Z.pow_add_r by lia. nia.
      + unfold Buddy.sp. rewrite Z2Nat.id, Z.pow_add_r by lia. nia. }
  destruct (Z.ltb_spec 1 n) as [H1|H1].
  - assert (n < 2 ^ 63) by nia. assert (Z.log2 n < 63) by (apply Z.log2_lt_pow2; lia).
    pose proof (Z.log2_nonneg n). unfold leading_zeros64. destruct (Z.eqb_spec n 0); [lia|].
    rewrite sub_w_Ret by lia. simpl. replace (63 - (63 - Z.log2 n)) with (Z.log2 n) by lia.
    destruct (Hloop _ ltac:(lia) eq_refl) as (fls & -> & ? & ? & ? & ? & ?). simpl. by apply Hfin.
  - destruct (Z.eqb_spec n 1) as [E1|E1].
    + destruct (Hloop 0%nat ltac:(lia)) as (fls & E & ? & ? & ? & ? & ?); [by rewrite E1|].
      simpl in E. simpl. rewrite E. simpl. by apply Hfin.
    + assert (n = 0) as E0 by lia. rewrite E0 in *. apply Hfin; [done|..].
      * split; [set_solver|simpl; lia|set_solver].
      * pose proof (sp_pos 1). lia.
      * unfold Buddy.sp. rewrite Z.add_0_r. lia.
      * intros y. simpl. symmetry. apply holds_zero. lia.
Qed.

(** * The pool is always partitioned into free and live blocks *)

(** A live block is the address and the size [alloc] was asked for. *)
Definition live_ranges (b : BuddyAllocator) (l : list (Z * Z)) : list (Z * Z) :=
  (λ r, (r.1 - base_offset b, sp (order_for r.2))) <$> l.

Definition live_ok (b : BuddyAllocator) (a size : Z) : Prop :=
  0 ≤ size < 2 ^ 63 ∧ (2 ^ k | size) ∧
  blk_ok (usable b) (max_order b) (order_for size) (a - base_offset b).

Record parts (b : BuddyAllocator) (l : list (Z * Z)) : Prop := {
  parts_ok : ok b;
  parts_live : ∀ a s, (a, s) ∈ l → live_ok b a s;
  parts_cover : ∀ y, cover (ranges k (flat (free_lists b))) y + cover (live_ranges b l) y =
                     holds 0 (usable b) y
}.

Lemma buddy_parts_perm b l l' : l ≡ₚ l' → parts b l → parts b l'.
Proof.
  intros P [O B C]. split; [done|..].
  - intros a s. rewrite <- P. apply B.
  - intros y. rewrite <- C. f_equal. apply cover_perm. unfold live_ranges. by rewrite P.
Qed.

Lemma live_ranges_cons b fls a size l y :
  cover (live_ranges (set_lists b fls) ((a, size) :: l)) y =
  holds (a - base_offset b) (sp (order_for size)) y + cover (live_ranges b l) y.
Proof. done. Qed.

Lemma live_ranges_set b fls l : live_ranges (set_lists b fls) l = live_ranges b l.
Proof. done. Qed.

Lemma parts_take b b' l a size :
  parts b l → 0 ≤ size < 2 ^ 63 → (2 ^ k | size) →
  taken b b' (order_for size) (a - base_offset b) → parts b' ((a, size) :: l).
Proof.
  intros [O B C] Hs Hd (O' & (fls & ->) & Bx & _ & HC). split; [done|..].
  - intros a' s' [[= -> ->]|Hin]%elem_of_cons; [done|]. by apply B.
  - intros y. rewrite HC, live_ranges_cons. change (usable (set_lists b fls)) with (usable b).
    rewrite <- C. lia.
Qed.

Lemma parts_uncovered b l a size :
  parts b l → (a, size) ∈ l →
  uncovered (flat (free_lists b)) (order_for size) (a - base_offset b).
Proof.
  intros [O B C] Hin y Hy. specialize (C y). pose proof (holds_le_1 0 (usable b) y).
  assert (0 < cover (live_ranges b l) y).
  { eapply cover_ge; [apply list_elem_of_fmap; by exists (a, size)|done]. }
  pose proof (cover_nonneg (ranges k (flat (free_lists b))) y). lia.
Qed.

Lemma parts_release b l a size :
  parts b ((a, size) :: l) →
  ∃ b', free b a size = Ret b' ∧ parts b' l ∧ ∃ fls, b' = set_lists b fls.
Proof.
  intros Pt. pose proof Pt as [O B C]. destruct (B a size) as (Hs & Hd & Bx); [by left|].
  pose proof (parts_uncovered _ _ a size Pt ltac:(by left)) as Ux.
  destruct (free_spec b size (a - base_offset b) O Hs Hd Bx Ux) as (b' & E & O' & (fls & ->) & HC).
  replace (base_offset b + (a - base_offset b)) with a in E by lia.
  eexists. split; [done|]. split; [|by eexists]. split; [done|..].
  - intros a' s' Hin. apply (B a' s'). by right.
  - intros y. rewrite HC, live_ranges_set. change (usable (set_lists b fls)) with (usable b).
    rewrite <- C. pose proof (live_ranges_cons b [] a size l y). rewrite live_ranges_set in *. lia.
Qed.

(** Live blocks do not overlap. *)
Lemma buddy_live_disjoint b l a s a' s' :
  parts b ((a, s) :: l) → (a', s') ∈ l →
  a + sp (order_for s) ≤ a' ∨ a' + sp (order_for s') ≤ a.
Proof.
  intros [O B C] Hin. pose proof (sp_pos (order_for s)). pose proof (sp_pos (order_for s')).
  destruct (decide (a + sp (order_for s) ≤ a')); [by left|].
  destruct (decide (a' + sp (order_for s') ≤ a)); [by right|]. exfalso.
  assert (∃ y, a - base_offset b ≤ y < a - base_offset b + sp (order_for s) ∧
               a' - base_offset b ≤ y < a' - base_offset b + sp (order_for s')) as (y & Hy & Hy').
  { exists (Z.max a a' - base_offset b). lia. }
  specialize (C y). replace b with (set_lists b (free_lists b)) in C at 2 by (by destruct b).
  rewrite live_ranges_cons, holds_one in C by done.
  assert (0 < cover (live_ranges b l) y).
  { eapply cover_ge; [apply list_elem_of_fmap; by exists (a', s')|done]. }
  pose proof (cover_nonneg (ranges k (flat (free_lists b))) y).
  pose proof (holds_le_1 0 (usable b) y). lia.
Qed.

(** Histories of an allocator: allocations, recovery marks of free blocks, and
    frees of live blocks. The sizes are whole sectors, as the slab size is. *)
Inductive run (base total : Z) : BuddyAllocator → list (Z * Z) → Prop :=
| run_new b : new base total (2 ^ k) = Ret b → run base total b []
| run_alloc b l size a b' :
    run base total b l → 0 ≤ size < 2 ^ 63 → (2 ^ k | size) →
    alloc b size = Ret (Some a, b') → run base total b' ((a, size) :: l)
| run_mark b l size a b' :
    run base total b l → 0 ≤ size < 2 ^ 63 → (2 ^ k | size) →
    blk_ok (usable b) (max_order b) (order_for size) (a - base_offset b) →
    all_free (flat (free_lists b)) (order_for size) (a - base_offset b) →
    mark_allocated b a size = Ret b' → run base total b' ((a, size) :: l)
| run_free b l1 a size l2 b' :
    run base total b (l1 ++ (a, size) :: l2) → free b a size = Ret b' →
    run base total b' (l1 ++ l2).

Lemma buddy_run_parts base total b l :
  k < 32 → 0 ≤ total < 2 ^ 63 → 0 ≤ base → base + total < 2 ^ 64 →
  run base total b l → parts b l ∧ base_offset b = base ∧ total_usable_size b = total ∧
    sector_size b = 2 ^ k ∧ ∀ b0, new base total (2 ^ k) = Ret b0 → max_order b = max_order b0.
Proof.
  intros Hk32 HT Hb0 Hb1. induction 1
    as [b E|b l size a b' _ (IH & E1 & E2 & E3 & E4) Hs Hd E
       |b l size a b' _ (IH & E1 & E2 & E3 & E4) Hs Hd Bx Fx E|b l1 a size l2 b' _ (IH & E1 & E2 & E3 & E4) E].
  - destruct (buddy_new_spec base total Hk32 HT Hb0 Hb1) as (b1 & E' & O & ? & ? & ? & HC).
    rewrite E in E'. injection E' as <-. split_and!; [|done..|congruence].
    split; [done|set_solver|]. intros y. rewrite HC. simpl. lia.
  - destruct (alloc_spec b size (parts_ok _ _ IH) Hs) as [(x & b2 & E' & T)|[E' _]]; [|congruence].
    rewrite E in E'. injection E' as -> <-.
    replace x with (base_offset b + x - base_offset b) in T by lia.
    pose proof (parts_take _ _ _ _ _ IH Hs Hd T). destruct T as (_ & (fls & ->) & _). done.
  - destruct (mark_allocated_spec b size (a - base_offset b) (parts_ok _ _ IH) Hs Hd Bx Fx) as (b2 & E' & T).
    replace (base_offset b + (a - base_offset b)) with a in E' by lia.
    rewrite E in E'. injection E' as <-.
    pose proof (parts_take _ _ _ _ _ IH Hs Hd T). destruct T as (_ & (fls & ->) & _). done.
  - apply (buddy_parts_perm _ _ ((a, size) :: l1 ++ l2)) in IH; [|by rewrite Permutation_middle].
    destruct (parts_release _ _ _ _ IH) as (b2 & E' & IH' & fls & ->).
    rewrite E in E'. injection E' as ->. done.
Qed.

Lemma alloc_none_iff b size :
  ok b → 0 ≤ size < 2 ^ 63 →
  (alloc b size = Ret (None, b) ↔
   ∀ x, (sp (order_for size) | x) → 0 ≤ x → x + sp (order_for size) ≤ usable b →
        ¬ all_free (flat (free_lists b)) (order_for size) x).
Proof.
  intros O Hs. pose proof O as [P L HF].
  destruct (alloc_spec b size O Hs) as [(x & b' & E & T)|[E Hn]]; rewrite E.
  - split; [done|]. intros Hno. exfalso. destruct T as (_ & _ & (Ho & Ha & H0 & Hr) & Hu & HC).
    apply (Hno x Ha H0 Hr). intros y Hy. specialize (HC y). rewrite Hu, holds_one in HC by done. lia.
  - split; [|done]. intros _ x Ha H0 Hr Hf.
    destruct (decide (order_for size ≤ max_order b)%nat) as [Ho|Ho].
    + destruct (contained _ _ _ (order_for size) x HF) as (o' & x' & Hin & Hoo & _);
        [by split_and!|done|].
      destruct (b_blk _ _ _ HF _ _ Hin) as (Hmo & _).
      apply flat_elem in Hin as (l & Hl & Hx). rewrite Hn in Hl by lia. set_solver.
    + pose proof (p_max _ P). assert (sp (S (max_order b)) ≤ sp (order_for size)); [|lia].
      apply sp_mono. lia.
Qed.

(** * Properties *)

(** C27. After any history of allocations, recovery marks and frees, every
    usable byte belongs to exactly one free block or one live block, every live
    block can be freed without a panic, and once all are freed the free lists
    hold exactly the blocks they started with, whatever order they were freed
    in. *)
Theorem buddy_partition base total b l :
  k < 32 → 0 ≤ total < 2 ^ 63 → 0 ≤ base → base + total < 2 ^ 64 →
  run base total b l →
  (∀ y, cover (ranges k (flat (free_lists b))) y + cover (live_ranges b l) y = holds 0 (usable b) y) ∧
  (∀ a s, (a, s) ∈ l → ∃ b', free b a s = Ret b') ∧
  (∀ b0, l = [] → new base total (2 ^ k) = Ret b0 → flat (free_lists b) ≡ₚ flat (free_lists b0)).
Proof.
  intros Hk32 HT Hb0 Hb1 Hr.
  destruct (buddy_run_parts _ _ _ _ Hk32 HT Hb0 Hb1 Hr) as (Pt & E1 & E2 & E3 & E4). split_and!.
  - apply Pt.
  - intros a s Hin. apply list_elem_of_split in Hin as (l1 & l2 & ->).
    apply (buddy_parts_perm _ _ ((a, s) :: l1 ++ l2)) in Pt; [|by rewrite Permutation_middle].
    destruct (parts_release _ _ _ _ Pt) as (b' & E & _). eauto.
  - intros b0 -> Enew. destruct (buddy_new_spec base total Hk32 HT Hb0 Hb1) as (b1 & E' & O & F1 & F2 & F3 & HC).
    rewrite Enew in E'. injection E' as <-. specialize (E4 _ Enew).
    assert (usable b = usable b0) as EU by (unfold usable; congruence).
    apply (bok_canonical (usable b0) (max_order b0)).
    + rewrite <- EU, <- E4. apply (ok_blocks _ (parts_ok _ _ Pt)).
    + apply O.
    + intros y. rewrite HC, <- EU. rewrite <- (parts_cover _ _ Pt y). simpl. lia.
Qed.

(** [alloc] fails exactly when no aligned run of free sectors of the
    requested order exists anywhere in the pool: merging never leaves usable
    space hidden behind fragmentation of the lists. *)
Theorem buddy_alloc_complete b size :
  ok b → 0 ≤ size < 2 ^ 63 →
  (alloc b size = Ret (None, b) ↔
   ∀ x, (sp (order_for size) | x) → 0 ≤ x → x + sp (order_for size) ≤ usable b →
        ¬ all_free (flat (free_lists b)) (order_for size) x).
Proof. apply alloc_none_iff. Qed.

(** A successful [alloc] returns a block that holds the request, is aligned
    to its own size, lies inside the pool and was entirely free; exactly its
    bytes leave the free lists. *)
Theorem buddy_alloc_sound b size a b' :
  ok b → 0 ≤ size < 2 ^ 63 → alloc b size = Ret (Some a, b') →
  ok b' ∧ base_offset b ≤ a ∧ size ≤ sp (order_for size) ∧
  a + sp (order_for size) ≤ base_offset b + total_usable_size b ∧
  (sp (order_for size) | a - base_offset b) ∧
  all_free (flat (free_lists b)) (order_for size) (a - base_offset b) ∧
  ∀ y, cover (ranges k (flat (free_lists b'))) y =
       cover (ranges k (flat (free_lists b))) y - holds (a - base_offset b) (sp (order_for size)) y.
Proof.
  intros O Hs E. destruct (alloc_spec b size O Hs) as [(x & b2 & E' & T)|[E' _]]; [|congruence].
  rewrite E in E'. injection E' as -> <-. destruct T as (O' & _ & (Ho & Ha & H0 & Hr) & Hu & HC).
  replace (base_offset b + x - base_offset b) with x by lia.
  pose proof (usable_le _ (ok_params _ O)). pose proof (order_for_fits size ltac:(lia)).
  split_and!; [done|lia|done|lia|done| |done].
  intros y Hy. specialize (HC y). rewrite Hu, holds_one in HC by done. lia.
Qed.

(** Freeing the block [alloc] just returned gives back the same free
    blocks. *)
Theorem buddy_alloc_free b size a b' :
  ok b → 0 ≤ size < 2 ^ 63 → (2 ^ k | size) → alloc b size = Ret (Some a, b') →
  ∃ b2, free b' a size = Ret b2 ∧ ok b2 ∧ flat (free_lists b2) ≡ₚ flat (free_lists b).
Proof.
  intros O Hs Hd E. destruct (alloc_spec b size O Hs) as [(x & b2 & E' & T)|[E' _]]; [|congruence].
  rewrite E in E'. injection E' as -> <-. destruct T as (O' & (fls & ->) & Bx & Hu & HC).
  destruct (free_spec (set_lists b fls) size x O' Hs Hd Bx Hu) as (b2 & E2 & O2 & (fls2 & ->) & HC2).
  eexists. split; [exact E2|]. split; [done|].
  apply (bok_canonical (usable b) (max_order b)); [apply O2|apply O|].
  intros y. rewrite HC2, HC. lia.
Qed.

(** At recovery, marking a block whose sectors are all free takes exactly
    those sectors out of the free lists, splitting the free block that holds
    them, so that a later [alloc] cannot hand them out. *)
Theorem buddy_mark_allocated b size a :
  ok b → 0 ≤ size < 2 ^ 63 → (2 ^ k | size) →
  blk_ok (usable b) (max_order b) (order_for size) (a - base_offset b) →
  all_free (flat (free_lists b)) (order_for size) (a - base_offset b) →
  ∃ b', mark_allocated b a size = Ret b' ∧ ok b' ∧
    ∀ y, cover (ranges k (flat (free_lists b'))) y =
         cover (ranges k (flat (free_lists b))) y - holds (a - base_offset b) (sp (order_for size)) y.
Proof.
  intros O Hs Hd Bx Fx.
  destruct (mark_allocated_spec b size (a - base_offset b) O Hs Hd Bx Fx) as (b' & E & T).
  replace (base_offset b + (a - base_offset b)) with a in E by lia.
  destruct T as (O' & _ & _ & _ & HC). eauto.
Qed.

End blocks.

(** * A pool of five 4 KiB sectors at 8192 *)

Definition five : BuddyAllocator := mkBuddy 8192 20480 4096 2 [[16384]; []; [0]].
Definition five_one : BuddyAllocator := mkBuddy 8192 20480 4096 2 [[]; []; [0]].

Lemma five_new : new 8192 20480 (2 ^ 12) = Ret five.
Proof. vm_compute. reflexivity. Qed.

Lemma five_ok : ok 12 five.
Proof.
  destruct (buddy_new_spec 12 ltac:(lia) 8192 20480) as (b & E & O & _); [lia..|].
  rewrite five_new in E. injection E as <-. exact O.
Qed.

Lemma buddy_partition_witness : ∃ b', free five_one 24576 4096 = Ret b'.
Proof.
  destruct (buddy_partition 12 ltac:(lia) 8192 20480 five_one [(24576, 4096)])
    as (_ & H & _); [lia|lia|lia|lia| |].
  - apply (run_alloc 12 _ _ five); [apply run_new; apply five_new|lia|exists 1; lia|].
    vm_compute. reflexivity.
  - apply H. left.
Defined.

Lemma buddy_alloc_complete_witness : alloc five 32768 = Ret (None, five).
Proof.
  apply (buddy_alloc_complete 12 ltac:(lia) five 32768 five_ok); [lia|].
  intros x _ H0 Hr _. change (sp 12 (order_for 12 32768)) with 32768 in Hr.
  change (usable five) with 20480 in Hr. lia.
Defined.


Lemma buddy_alloc_free_witness :
  ∃ b2, free five_one 24576 4096 = Ret b2 ∧ flat (free_lists b2) ≡ₚ flat (free_lists five).
Proof.
  destruct (buddy_alloc_free 12 ltac:(lia) five 4096 24576 five_one five_ok) as (b2 & E & _ & P);
    [lia|exists 1; lia|vm_compute; reflexivity|].
  exists b2. split; [exact E|exact P].
Defined.

Lemma buddy_mark_allocated_witness : ∃ b', mark_allocated five 12288 4096 = Ret b' ∧ ok 12 b'.
Proof.
  destruct (buddy_mark_allocated 12 ltac:(lia) five 4096 12288 five_ok) as (b' & E & O & _);
    [lia|exists 1; lia| | |exists b'; split; [exact E|exact O]].
  - split_and!; [vm_compute; lia|exists 1; vm_compute; reflexivity|vm_compute; done|vm_compute; done].
  - intros y Hy. change (12288 - base_offset five) with 4096 in Hy.
    change (sp 12 (order_for 12 4096)) with 4096 in Hy.
    change (ranges 12 (flat (free_lists five))) with [(16384, 4096); (0, 16384)].
    rewrite !cover_cons, (proj2 (holds_zero 16384 4096 y)), (holds_one 0 16384 y) by lia. done.
Defined.

End Buddy.
