(* ===== verification/Region.v ===== *)
(** A region of the extent manager
    ([components/extent-manager/src/region.rs]): its slabs, the size classes
    that index them, the buddy allocator they come from, and the frees that
    wait for the next checkpoint. *)

From S2P Require Import Prelude Slab Buddy.

Module Region.
Import Slab.
Local Open Scope Z_scope.

(** [interfaces::FormatParams]. *)
Record FormatParams := mkParams {
  data_disk_size : Z;
  fp_slab_size : Z;
  max_extent_size : Z;
  fp_sector_size : Z;
  region_count : Z;
  metadata_alignment : Z;
  instance_id : option Z;
  metadata_disk_ns_id : Z;
  metadata_region_size : Z
}.

(** [interfaces::ExtentManagerError], without the messages. *)
Inductive ExtentManagerError :=
| CorruptMetadata
| IoError
| NotInitialized
| OffsetNotFound (off : Z)
| OutOfSpace.

Record RegionState := mkRegion {
  slabs : list (Z * Slab);
  size_classes : SizeClassManager;
  buddy : Buddy.BuddyAllocator;
  dirty : bool;
  format_params : FormatParams;
  pending_frees : list (Z * nat)
}.

Definition new (b : Buddy.BuddyAllocator) (fp : FormatParams) : RegionState :=
  mkRegion [] size_class_new b false fp [].

Definition set_slabs (r : RegionState) (m : list (Z * Slab)) : RegionState :=
  mkRegion m (size_classes r) (buddy r) (dirty r) (format_params r) (pending_frees r).
Definition set_classes (r : RegionState) (c : SizeClassManager) : RegionState :=
  mkRegion (slabs r) c (buddy r) (dirty r) (format_params r) (pending_frees r).
Definition set_buddy (r : RegionState) (b : Buddy.BuddyAllocator) : RegionState :=
  mkRegion (slabs r) (size_classes r) b (dirty r) (format_params r) (pending_frees r).
Definition set_dirty (r : RegionState) (d : bool) : RegionState :=
  mkRegion (slabs r) (size_classes r) (buddy r) d (format_params r) (pending_frees r).
Definition set_pending (r : RegionState) (p : list (Z * nat)) : RegionState :=
  mkRegion (slabs r) (size_classes r) (buddy r) (dirty r) (format_params r) p.

Definition align_to_sector_size (size sector : Z) : outcome Z :=
  a ← add_w 32 size sector;
  a ← sub_w a 1;
  q ← div_w a sector;
  mul_w 32 q sector.

Abbreviation res A := (result A ExtentManagerError).

(** The search of the size class for a slab with a free slot. Each round that
    does not return removes the first entry, so its length is enough fuel. *)
Fixpoint class_loop (fuel : nat) (r : RegionState) (element_size : Z) :
    outcome (option (Z * nat * Z) * RegionState) :=
  match get_slabs (size_classes r) element_size with
  | [] => Ret (None, r)
  | slab_start :: _ =>
      match fuel with
      | O => Panic
      | S fuel =>
          let drop_entry r := set_classes r (remove_slab (size_classes r) element_size slab_start) in
          match BTree.get (slabs r) slab_start with
          | Some slab =>
              '(res, slab) ← alloc_slot slab;
              let r := set_slabs r (BTree.insert (slabs r) slab_start slab) in
              match res with
              | Some (slot_idx, offset) =>
                  let r := if is_full slab then drop_entry r else r in
                  Ret (Some (slab_start, slot_idx, offset), r)
              | None => class_loop fuel (drop_entry r) element_size
              end
          | None => class_loop fuel (drop_entry r) element_size
          end
      end
  end.

Definition alloc_extent (r : RegionState) (size : Z) : outcome (res (Z * nat * Z) * RegionState) :=
  element_size ← align_to_sector_size size (fp_sector_size (format_params r));
  '(found, r) ← class_loop (length (get_slabs (size_classes r) element_size)) r element_size;
  match found with
  | Some x => Ret (Ok x, r)
  | None =>
      let slab_size := fp_slab_size (format_params r) in
      if slab_size <? element_size then Ret (Err OutOfSpace, r)
      else
        '(disk_offset, b) ← Buddy.alloc (buddy r) slab_size;
        let r := set_buddy r b in
        match disk_offset with
        | None => Ret (Err OutOfSpace, r)
        | Some disk_offset =>
            slab ← Slab.new disk_offset slab_size element_size;
            '(res, slab) ← alloc_slot slab;
            match res with
            | None =>
                b ← Buddy.free (buddy r) disk_offset slab_size;
                Ret (Err OutOfSpace, set_buddy r b)
            | Some (slot_idx, offset) =>
                let r := if is_full slab then r
                         else set_classes r (add_slab (size_classes r) element_size disk_offset) in
                Ret (Ok (disk_offset, slot_idx, offset),
                     set_slabs r (BTree.insert (slabs r) disk_offset slab))
            end
        end
  end.

Definition free_slot (r : RegionState) (slab_start : Z) (slot_idx : nat) : outcome RegionState :=
  match BTree.get (slabs r) slab_start with
  | None => Ret r
  | Some slab =>
      let was_full := is_full slab in
      slab ← Slab.free_slot slab slot_idx;
      let r := set_slabs r (BTree.insert (slabs r) slab_start slab) in
      if is_empty slab then
        b ← Buddy.free (buddy r) slab_start (slab_size slab);
        let r := set_buddy r b in
        let r := set_classes r (remove_slab (size_classes r) (element_size slab) slab_start) in
        Ret (set_slabs r (BTree.remove (slabs r) slab_start))
      else if was_full then
        Ret (set_classes r (add_slab (size_classes r) (element_size slab) slab_start))
      else Ret r
  end.

Definition publish_slot (r : RegionState) (slab_start : Z) (slot_idx : nat) (key : Z) :
    outcome RegionState :=
  r ← match BTree.get (slabs r) slab_start with
      | None => Ret r
      | Some slab =>
          slab ← set_key slab slot_idx key;
          Ret (set_slabs r (BTree.insert (slabs r) slab_start slab))
      end;
  Ret (set_dirty r true).

Definition remove_extent_by_offset (r : RegionState) (offset : Z) : outcome (res unit * RegionState) :=
  match BTree.last_le (slabs r) offset with
  | None => Ret (Err (OffsetNotFound offset), r)
  | Some (slab_start, slab) =>
      inside ← contains_offset slab offset;
      if negb inside then Ret (Err (OffsetNotFound offset), r)
      else
        slot ← slot_for_offset slab offset;
        match slot with
        | None => Ret (Err (OffsetNotFound offset), r)
        | Some slot =>
            used ← Bitmap.is_set (bitmap slab) slot;
            free ← (if (used : bool)
                    then k ← get_key slab slot; Ret (k =? FREE_KEY) else Ret true);
            if (free : bool) then Ret (Err (OffsetNotFound offset), r)
            else
              slab ← set_key slab slot FREE_KEY;
              let r := set_slabs r (BTree.insert (slabs r) slab_start slab) in
              let r := set_pending r (pending_frees r ++ [(slab_start, slot)]) in
              Ret (Ok (), set_dirty r true)
        end
  end.

Fixpoint free_all (r : RegionState) (frees : list (Z * nat)) : outcome RegionState :=
  match frees with
  | [] => Ret r
  | (slab_start, slot_idx) :: frees => r ← free_slot r slab_start slot_idx; free_all r frees
  end.

Definition flush_pending_frees (r : RegionState) : outcome RegionState :=
  free_all (set_pending r []) (pending_frees r).

(** * Invariant *)

Definition slot_bit (s : Slab) (i : nat) : bool :=
  (i <? num_slots s)%nat && match Bitmap.is_set (bitmap s) i with Ret b => b | Panic => false end.

Lemma slot_bit_spec s bs i : Slab.ok s bs → slot_bit s i = default false (bs !! i).
Proof.
  intros O. pose proof (ok_bitmap _ _ O) as R. unfold slot_bit, num_slots.
  rewrite (Bitmap.rep_slots _ _ R). destruct (bs !! i) as [x|] eqn:Hx.
  - rewrite (Bitmap.is_set_spec _ _ _ _ R Hx). apply lookup_lt_Some in Hx.
    by rewrite (proj2 (Nat.ltb_lt _ _) Hx).
  - apply lookup_ge_None in Hx. by rewrite (proj2 (Nat.ltb_ge _ _) Hx).
Qed.

(** The life of an extent slot; a free slot has no state. *)
Inductive estate := Reserved | Published (key : Z) | Pending.

#[global] Instance estate_eq_dec : EqDecision estate.
Proof. solve_decision. Defined.

Definition slot_view (s : Slab) (st : Z) (i : nat) (pend : list (Z * nat)) : option estate :=
  if slot_bit s i then
    if bool_decide ((st, i) ∈ pend) then Some Pending
    else match keys s !! i with
         | Some k => if k =? FREE_KEY then Some Reserved else Some (Published k)
         | None => None
         end
  else None.

Definition slot_state (r : RegionState) (st : Z) (i : nat) : option estate :=
  match BTree.get (slabs r) st with
  | None => None
  | Some s => slot_view s st i (pending_frees r)
  end.

(** [r'] differs from [r] in the state of one slot. *)
Definition updated (r r' : RegionState) (st : Z) (i : nat) (x : option estate) : Prop :=
  ∀ st' i', slot_state r' st' i' = if decide (st' = st ∧ i' = i) then x else slot_state r st' i'.

(** The blocks the slabs hold in the buddy allocator. *)
Definition slab_live (m : list (Z * Slab)) : list (Z * Z) := (λ p, (p.1, slab_size p.2)) <$> m.

Section invariant.
Context (k : Z) (Hk : 0 ≤ k).

Record params_ok (r : RegionState) : Prop := {
  p_sector : fp_sector_size (format_params r) = 2 ^ k;
  p_slab : 0 < fp_slab_size (format_params r) < 2 ^ 63 ∧ (2 ^ k | fp_slab_size (format_params r));
  p_slots : fp_slab_size (format_params r) / 2 ^ k < 2 ^ 32
}.

Record slab_ok (r : RegionState) (st : Z) (s : Slab) : Prop := {
  s_start : start_offset s = st;
  s_size : slab_size s = fp_slab_size (format_params r);
  s_elem : 0 < element_size s ≤ slab_size s ∧ (2 ^ k | element_size s);
  s_ok : ∃ bs, Slab.ok s bs
}.

Record base_ok (r : RegionState) : Prop := {
  ok_params : params_ok r;
  ok_buddy : Buddy.parts k (buddy r) (slab_live (slabs r));
  ok_sorted : BTree.sorted (slabs r);
  ok_slabs : ∀ st s, (st, s) ∈ slabs r → slab_ok r st s
}.

(** Every slab with a free slot is listed under its element size, and a size
    class lists only slabs of that element size. *)
Record classes_ok (r : RegionState) : Prop := {
  c_listed : ∀ e st, st ∈ get_slabs (size_classes r) e →
    ∃ s, (st, s) ∈ slabs r ∧ element_size s = e;
  c_nonfull : ∀ st s, (st, s) ∈ slabs r → is_full s = false →
    st ∈ get_slabs (size_classes r) (element_size s)
}.

(** A pending slot is still allocated and has no key. *)
Record pending_ok (r : RegionState) : Prop := {
  q_slot : ∀ st i, (st, i) ∈ pending_frees r →
    ∃ s, (st, s) ∈ slabs r ∧ slot_bit s i = true ∧ keys s !! i = Some FREE_KEY;
  q_nodup : NoDup (pending_frees r)
}.

Record ok (r : RegionState) : Prop := {
  ok_base : base_ok r;
  ok_classes : classes_ok r;
  ok_pending : pending_ok r
}.

(** ** Size classes *)

Lemma get_slabs_add c e st e' :
  get_slabs (add_slab c e st) e' = if decide (e' = e) then get_slabs c e ++ [st] else get_slabs c e'.
Proof.
  unfold get_slabs, add_slab. simpl. case_decide.
  - subst. by rewrite lookup_insert_eq.
  - by rewrite lookup_insert_ne.
Qed.

Lemma get_slabs_remove c e st e' :
  get_slabs (remove_slab c e st) e' =
  if decide (e' = e) then filter (λ o, o ≠ st) (get_slabs c e) else get_slabs c e'.
Proof.
  unfold get_slabs, remove_slab. destruct (map c !! e) as [l|] eqn:E.
  - case_bool_decide as Hl; simpl; case_decide; subst.
    + by rewrite lookup_delete_eq, Hl.
    + by rewrite lookup_delete_ne.
    + by rewrite lookup_insert_eq.
    + by rewrite lookup_insert_ne.
  - case_decide; subst; [by rewrite E|done].
Qed.

Lemma class_elem_remove c e st e' st' :
  st' ∈ get_slabs (remove_slab c e st) e' ↔
  st' ∈ get_slabs c e' ∧ ¬ (e' = e ∧ st' = st).
Proof.
  rewrite get_slabs_remove. case_decide; subst; [|naive_solver].
  rewrite list_elem_of_filter. naive_solver.
Qed.

Lemma class_elem_add c e st e' st' :
  st' ∈ get_slabs (add_slab c e st) e' ↔ st' ∈ get_slabs c e' ∨ (e' = e ∧ st' = st).
Proof.
  rewrite get_slabs_add. case_decide; subst; [|naive_solver].
  rewrite elem_of_app, list_elem_of_singleton. naive_solver.
Qed.

(** ** Replacing a slab in place *)

Definition with_slab (r : RegionState) (st : Z) (s : Slab) : RegionState :=
  set_slabs r (BTree.insert (slabs r) st s).

Lemma base_update r st s s' bs' :
  base_ok r → (st, s) ∈ slabs r → Slab.ok s' bs' → same_shape s s' → base_ok (with_slab r st s').
Proof.
  intros [P B So Sl] Hin O' (E1 & E2 & E3 & E4). unfold with_slab. split; simpl.
  - by destruct P.
  - unfold slab_live. rewrite (BTreeFacts.fmap_insert_same _ _ _ s); [done..|]. simpl. congruence.
  - by apply BTreeFacts.insert_sorted.
  - intros st' s2. rewrite BTreeFacts.elem_of_insert by done. intros [[-> ->]|[_ Hin']].
    + destruct (Sl _ _ Hin) as [F1 F2 F3 F4]. split; simpl; [congruence|congruence|by rewrite E3, E2|eauto].
    + destruct (Sl _ _ Hin'). by split.
Qed.

Lemma with_slab_elem r st s st' s' :
  base_ok r → (st', s') ∈ slabs (with_slab r st s) ↔
  (st' = st ∧ s' = s) ∨ (st' ≠ st ∧ (st', s') ∈ slabs r).
Proof. intros O. apply BTreeFacts.elem_of_insert, O. Qed.

Lemma slab_unique r st s s' : base_ok r → (st, s) ∈ slabs r → (st, s') ∈ slabs r → s = s'.
Proof. intros O. apply BTreeFacts.sorted_unique, O. Qed.

Lemma get_slab r st s : base_ok r → BTree.get (slabs r) st = Some s ↔ (st, s) ∈ slabs r.
Proof. intros O. apply BTreeFacts.get_Some, O. Qed.

(** Changing slot [i] of one slab, and perhaps its place among the pending
    frees. *)
Lemma slot_update r r' st s s' i x :
  base_ok r → (st, s) ∈ slabs r → slabs r' = BTree.insert (slabs r) st s' →
  (∀ j, j ≠ i → slot_bit s' j = slot_bit s j ∧ keys s' !! j = keys s !! j) →
  (∀ st' j, (st', j) ≠ (st, i) → (st', j) ∈ pending_frees r' ↔ (st', j) ∈ pending_frees r) →
  slot_view s' st i (pending_frees r') = x → updated r r' st i x.
Proof.
  intros O Hin Er Hj Hp Hx st' j. unfold slot_state. rewrite Er.
  rewrite BTreeFacts.get_insert by apply O.
  destruct (decide (st' = st)) as [->|Hst].
  - destruct (decide (j = i)) as [->|Hne]; [by rewrite decide_True|].
    rewrite decide_False by naive_solver. rewrite (proj2 (get_slab _ _ _ O) Hin).
    destruct (Hj j Hne) as [E1 E2]. unfold slot_view. rewrite E1, E2.
    by rewrite (bool_decide_ext ((st, j) ∈ pending_frees r') ((st, j) ∈ pending_frees r))
      by (apply Hp; congruence).
  - rewrite decide_False by naive_solver. destruct (BTree.get (slabs r) st') as [s2|]; [|done].
    unfold slot_view.
    by rewrite (bool_decide_ext ((st', j) ∈ pending_frees r') ((st', j) ∈ pending_frees r))
      by (apply Hp; congruence).
Qed.

Lemma slot_bit_insert s s' bs i x j :
  Slab.ok s bs → Slab.ok s' (<[i := x]> bs) → (i < length bs)%nat →
  slot_bit s' j = if decide (j = i) then x else slot_bit s j.
Proof.
  intros O O' Hi. rewrite (slot_bit_spec _ _ j O'), (slot_bit_spec _ _ j O).
  case_decide; subst; [by rewrite list_lookup_insert_eq|by rewrite list_lookup_insert_ne].
Qed.

(** ** Taking a slot from a listed slab *)

Lemma pending_update r r' st s s' :
  base_ok r → pending_ok r → (st, s) ∈ slabs r → slabs r' = BTree.insert (slabs r) st s' →
  pending_frees r' = pending_frees r →
  (∀ i, (st, i) ∈ pending_frees r → slot_bit s' i = slot_bit s i ∧ keys s' !! i = keys s !! i) →
  pending_ok r'.
Proof.
  intros O [Q N] Hin Er Ep Hs. split; rewrite Ep; [|done]. intros st' i Hp.
  destruct (Q _ _ Hp) as (s2 & Hin2 & Hb & Hkey). rewrite Er.
  destruct (decide (st' = st)) as [->|Hne].
  - rewrite (slab_unique _ _ _ _ O Hin2 Hin) in *. destruct (Hs _ Hp) as [E1 E2].
    exists s'. rewrite E1, E2. split; [|done]. apply BTreeFacts.elem_of_insert; [apply O|by left].
  - exists s2. split; [|done]. apply BTreeFacts.elem_of_insert; [apply O|by right].
Qed.

Lemma pending_free_slot r st s i bs :
  base_ok r → pending_ok r → (st, s) ∈ slabs r → Slab.ok s bs → bs !! i = Some false →
  (st, i) ∉ pending_frees r.
Proof.
  intros O [Q _] Hin Os Hb Hp. destruct (Q _ _ Hp) as (s2 & Hin2 & Hbit & _).
  rewrite (slab_unique _ _ _ _ O Hin2 Hin), (slot_bit_spec _ _ _ Os), Hb in Hbit. done.
Qed.

(** What a successful reservation does to the slab it is served from. *)
Lemma reserve_in_slab r st s bs i s' :
  base_ok r → pending_ok r → (st, s) ∈ slabs r → Slab.ok s bs → bs !! i = Some false →
  Slab.ok s' (<[i := true]> bs) → same_shape s s' → keys s' = keys s →
  base_ok (with_slab r st s') ∧ pending_ok (with_slab r st s') ∧
  slot_state r st i = None ∧ updated r (with_slab r st s') st i (Some Reserved).
Proof.
  intros O Q Hin Os Hb Os' Hsh Ek. pose proof (lookup_lt_Some _ _ _ Hb) as Hi.
  pose proof (pending_free_slot _ _ _ _ _ O Q Hin Os Hb) as Hnp.
  pose proof (slot_bit_insert s s' bs i true) as Hbit. split_and!.
  - by eapply base_update.
  - eapply pending_update; [done..|]. intros j Hj. rewrite Ek, Hbit by done.
    rewrite decide_False; [done|]. by intros ->.
  - unfold slot_state. rewrite (proj2 (get_slab _ _ _ O) Hin). unfold slot_view.
    by rewrite (slot_bit_spec _ _ _ Os), Hb.
  - eapply slot_update; [done..| | |].
    + intros j Hne. rewrite Ek, Hbit, decide_False by done. done.
    + done.
    + simpl. unfold slot_view. rewrite Hbit, decide_True by done.
      rewrite bool_decide_false by done. by rewrite Ek, (ok_free _ _ Os _ Hb).
Qed.

(** What every operation leaves alone. *)
Definition frame (r r' : RegionState) : Prop :=
  format_params r' = format_params r ∧
  Buddy.base_offset (buddy r') = Buddy.base_offset (buddy r) ∧
  Buddy.total_usable_size (buddy r') = Buddy.total_usable_size (buddy r).

Lemma ok_set_classes r c :
  base_ok r → pending_ok r → classes_ok (set_classes r c) → ok (set_classes r c).
Proof. intros [[] B So Sl] [Q N] C. split; [|done|by split]. split; simpl; [by split|done..|]. intros st s Hin. by destruct (Sl _ _ Hin). Qed.

(** Dropping a full slab from its class keeps the index complete. *)
Lemma classes_drop r st s :
  base_ok r → classes_ok r → (st, s) ∈ slabs r → is_full s = true →
  classes_ok (set_classes r (remove_slab (size_classes r) (element_size s) st)).
Proof.
  intros O [L F] Hin Hfull. split; simpl.
  - intros e st' [Hl _]%class_elem_remove. eauto.
  - intros st' s' Hin' Hf. apply class_elem_remove. split; [auto|]. intros [_ ->].
    rewrite (slab_unique _ _ _ _ O Hin' Hin) in Hf. congruence.
Qed.

Lemma classes_with_slab r st s s' :
  base_ok r → classes_ok r → (st, s) ∈ slabs r → same_shape s s' →
  st ∈ get_slabs (size_classes r) (element_size s) → classes_ok (with_slab r st s').
Proof.
  intros O [L F] Hin (_ & _ & E & _) Hl. split; simpl.
  - intros e st' Hl'. destruct (L _ _ Hl') as (s2 & Hin2 & E2).
    destruct (decide (st' = st)) as [->|Hne].
    + exists s'. rewrite (slab_unique _ _ _ _ O Hin2 Hin) in E2. split; [|congruence].
      apply with_slab_elem; [done|by left].
    + exists s2. split; [|done]. apply with_slab_elem; [done|by right].
  - intros st' s2 Hin2. apply with_slab_elem in Hin2 as [[-> ->]|[Hne Hin2]]; [|by auto|done].
    by rewrite E.
Qed.

Lemma with_slab_id r st s : base_ok r → (st, s) ∈ slabs r → with_slab r st s = r.
Proof.
  intros O Hin. unfold with_slab. rewrite BTreeFacts.insert_id; [by destruct r|apply O|done].
Qed.

Lemma length_filter_head (st : Z) l :
  (length (filter (λ o, o ≠ st) (st :: l)) ≤ length l)%nat.
Proof. rewrite filter_cons, decide_False by naive_solver. apply length_filter. Qed.

Definition unchanged (r r' : RegionState) : Prop := ∀ st i, slot_state r' st i = slot_state r st i.

(** The extent of slot [i] of the slab at [st]. *)
Definition extent_at (r : RegionState) (st : Z) (i : nat) (off size : Z) : Prop :=
  ∃ s, (st, s) ∈ slabs r ∧ element_size s = size ∧ off = slot_start s i ∧ (i < num_slots s)%nat.

(** Every extent of [r] is where it was. *)
Definition keeps (r r' : RegionState) : Prop :=
  ∀ st i off e, extent_at r st i off e → extent_at r' st i off e.

Lemma keeps_with_slab r st s s' :
  base_ok r → (st, s) ∈ slabs r → same_shape s s' → keeps r (with_slab r st s').
Proof.
  intros O Hin (E1 & E2 & E3 & E4) st2 i off e (s2 & Hin2 & He & Ho & Hi).
  destruct (decide (st2 = st)) as [->|Hne].
  - rewrite (slab_unique _ _ _ _ O Hin2 Hin) in *. exists s'.
    split_and!; [apply with_slab_elem; auto|congruence| |lia]. unfold slot_start in *. congruence.
  - exists s2. split_and!; [apply with_slab_elem; auto|done..].
Qed.

(** So is every extent of [r] whose slot still exists. *)
Definition keeps_live (r r' : RegionState) : Prop :=
  ∀ st i off e, extent_at r st i off e → slot_state r' st i ≠ None → extent_at r' st i off e.

Lemma class_loop_spec fuel r e :
  ok r → (length (get_slabs (size_classes r) e) ≤ fuel)%nat →
  (∃ st i off r', class_loop fuel r e = Ret (Some (st, i, off), r') ∧ ok r' ∧ frame r r' ∧
     slot_state r st i = None ∧ updated r r' st i (Some Reserved) ∧ extent_at r' st i off e ∧ keeps r r') ∨
  (∃ r', class_loop fuel r e = Ret (None, r') ∧ ok r' ∧ frame r r' ∧ slabs r' = slabs r ∧
     buddy r' = buddy r ∧ pending_frees r' = pending_frees r ∧
     ∀ st s, (st, s) ∈ slabs r → element_size s = e → is_full s = true).
Proof.
  revert r. induction fuel as [|fuel IH]; intros r O Hlen; simpl.
  { destruct (get_slabs _ _) as [|st l] eqn:E; [|simpl in Hlen; lia].
    right. exists r. split_and!; [done..|]. intros st s Hin He.
    destruct (is_full s) eqn:Hf; [done|].
    pose proof (c_nonfull _ (ok_classes _ O) _ _ Hin Hf) as H. rewrite He, E in H. set_solver. }
  destruct (get_slabs (size_classes r) e) as [|st l] eqn:E.
  { right. exists r. split_and!; [done..|]. intros st s Hin He.
    destruct (is_full s) eqn:Hf; [done|].
    pose proof (c_nonfull _ (ok_classes _ O) _ _ Hin Hf) as H. rewrite He, E in H. set_solver. }
  pose proof O as [Ob Oc Op].
  assert (st ∈ get_slabs (size_classes r) e) as Hl by (rewrite E; by left).
  destruct (c_listed _ Oc _ _ Hl) as (s & Hin & He). rewrite (proj2 (get_slab _ _ _ Ob) Hin).
  destruct (s_ok _ _ _ (ok_slabs _ Ob _ _ Hin)) as [bs Os].
  destruct (alloc_slot_spec _ _ Os) as [(-> & Hfull & _)|(i & s' & -> & Hb & Os' & Hsh & Ek)]; simpl.
  - fold (with_slab r st s). rewrite with_slab_id by done.
    rewrite <- He in *. pose proof (classes_drop _ _ _ Ob Oc Hin Hfull) as Oc'.
    pose proof (ok_set_classes _ _ Ob Op Oc') as O'.
    destruct (IH _ O') as [(st2 & i & off & r' & E2 & O2 & F2 & Hn2 & U2 & X2 & K2)|(r' & E2 & O2 & F2 & Es & Eb & Ep & Hall)].
    + simpl. rewrite get_slabs_remove, decide_True, E by done.
      pose proof (length_filter_head st l). simpl in Hlen. lia.
    + left. exists st2, i, off, r'. split_and!; done.
    + right. exists r'. split_and!; done.
  - left. destruct (reserve_in_slab _ _ _ _ _ _ Ob Op Hin Os Hb Os' Hsh Ek) as (Ob' & Op' & Hn & U).
    fold (with_slab r st s'). rewrite <- He in Hl.
    pose proof (classes_with_slab _ _ _ _ Ob Oc Hin Hsh Hl) as Oc'.
    pose proof Hsh as (E1 & _ & E3 & E4).
    assert ((st, s') ∈ slabs (with_slab r st s')) as Hin' by (apply with_slab_elem; [done|by left]).
    exists st, i, (slot_start s i), (if is_full s' then set_classes (with_slab r st s')
      (remove_slab (size_classes (with_slab r st s')) e st) else with_slab r st s').
    split; [done|].
    split_and!; [|by destruct (is_full s')|done|by destruct (is_full s')| |].
    3: { pose proof (keeps_with_slab r st s s' Ob Hin Hsh). by destruct (is_full s'). }
    + destruct (is_full s') eqn:Hf; [|by split]. apply ok_set_classes; [done..|].
      rewrite <- He, <- E3. by apply classes_drop.
    + exists s'. split_and!; [by destruct (is_full s')|congruence| |].
      * unfold slot_start. congruence.
      * rewrite E4. unfold num_slots. rewrite (Bitmap.rep_slots _ _ (ok_bitmap _ _ Os)).
        by eapply lookup_lt_Some.
Qed.

(** ** A new slab *)

Definition elem (size : Z) : Z := (size + 2 ^ k - 1) / 2 ^ k * 2 ^ k.

Lemma pow_k : 0 < 2 ^ k.
Proof. apply Z.pow_pos_nonneg; lia. Qed.

Lemma elem_bounds size : 0 < size → size ≤ elem size < size + 2 ^ k ∧ (2 ^ k | elem size) ∧ 2 ^ k ≤ elem size.
Proof.
  intros H. unfold elem. pose proof pow_k as Hp.
  pose proof (Z.div_mod (size + 2 ^ k - 1) (2 ^ k) ltac:(lia)).
  pose proof (Z.mod_pos_bound (size + 2 ^ k - 1) (2 ^ k) Hp).
  split_and!; [lia|lia|by eexists|]. assert (1 ≤ (size + 2 ^ k - 1) / 2 ^ k); [|nia].
  apply Z.div_le_lower_bound; lia.
Qed.

Lemma align_spec size sector :
  sector = 2 ^ k → 0 < size → size + 2 ^ k < 2 ^ 32 →
  align_to_sector_size size sector = Ret (elem size).
Proof.
  intros -> H0 H1. pose proof pow_k. pose proof (elem_bounds size H0) as [? _].
  unfold align_to_sector_size. rewrite add_w_Ret by lia. simpl. rewrite sub_w_Ret by lia. simpl.
  rewrite div_w_Ret by lia. simpl. apply mul_w_Ret. fold (elem size). lia.
Qed.

(** A slab just carved from the buddy allocator, before it is listed. *)
Lemma fresh_slab r a b' e :
  base_ok r → 0 < e ≤ fp_slab_size (format_params r) → (2 ^ k | e) →
  Buddy.taken k (buddy r) b' (Buddy.order_for k (fp_slab_size (format_params r)))
    (a - Buddy.base_offset (buddy r)) →
  ∃ s n, Slab.new a (fp_slab_size (format_params r)) e = Ret s ∧
    Slab.ok s (replicate (S n) false) ∧ slab_ok r a s ∧ element_size s = e ∧
    BTree.get (slabs r) a = None ∧
    Buddy.parts k b' ((a, fp_slab_size (format_params r)) :: slab_live (slabs r)).
Proof.
  intros O He Hd T. pose proof (ok_params _ O) as [P1 [P2 P2'] P3]. pose proof pow_k as Hp.
  set (sz := fp_slab_size (format_params r)) in *.
  pose proof (Buddy.parts_take k _ _ _ _ sz (ok_buddy _ O) ltac:(lia) P2' T) as Pt.
  destruct T as (_ & _ & (_ & _ & T0 & T1) & _).
  pose proof (Buddy.ok_params _ _ (Buddy.parts_ok _ _ _ (ok_buddy _ O))) as BP.
  pose proof (Buddy.usable_le k Hk _ BP) as [_ HU]. pose proof (Buddy.p_base _ _ BP).
  pose proof (Buddy.order_for_fits k Hk sz ltac:(lia)) as Hfit.
  assert (2 ^ k ≤ e) as Hke by (apply Z.divide_pos_le; lia || done).
  assert (sz / e ≤ sz / 2 ^ k) as Hdiv by (apply Z.div_le_compat_l; lia).
  assert (1 ≤ sz / e) as H1 by (apply Z.div_le_lower_bound; lia).
  destruct (Slab.new_spec a sz e) as (s & E & Os & E1 & E2 & E3); [lia..|].
  exists s, (Z.to_nat (sz / e) - 1)%nat.
  replace (S (Z.to_nat (sz / e) - 1)) with (Z.to_nat (sz / e)) by lia.
  split_and!; [done|done| |done| |done].
  - split; [done|by rewrite E2|rewrite E2, E3; split; [lia|done]|eauto].
  - apply BTreeFacts.get_None. intros s' Hin.
    assert ((a, slab_size s') ∈ slab_live (slabs r)) as Hin'.
    { apply list_elem_of_fmap. by exists (a, s'). }
    pose proof (Buddy.sp_pos k Hk (Buddy.order_for k sz)).
    pose proof (Buddy.sp_pos k Hk (Buddy.order_for k (slab_size s'))).
    destruct (Buddy.buddy_live_disjoint k Hk _ _ _ _ _ _ Pt Hin'); lia.
Qed.

(** The region with a new slab, one slot of which is reserved. *)
Lemma add_fresh_slab r a b' e s s' n i c :
  ok r → slab_ok r a s → element_size s = e → BTree.get (slabs r) a = None →
  Buddy.parts k b' ((a, fp_slab_size (format_params r)) :: slab_live (slabs r)) →
  Slab.ok s (replicate (S n) false) → (i < S n)%nat →
  Slab.ok s' (<[i := true]> (replicate (S n) false)) → same_shape s s' → keys s' = keys s →
  c = (if is_full s' then size_classes r else add_slab (size_classes r) e a) →
  let r' := set_slabs (set_classes (set_buddy r b') c) (BTree.insert (slabs r) a s') in
  ok r' ∧ slot_state r a i = None ∧ updated r r' a i (Some Reserved).
Proof.
  intros [Ob [L F] [Q N]] Ha He Hg Pt Os Hi Os' Hsh Ek Ec r'.
  pose proof Ob as [P B So Sl]. pose proof Hsh as (E1 & E2 & E3 & E4).
  assert (∀ st s2, (st, s2) ∈ BTree.insert (slabs r) a s' ↔ st = a ∧ s2 = s' ∨ (st, s2) ∈ slabs r) as Hel.
  { intros st s2. rewrite BTreeFacts.elem_of_insert by done. split; [naive_solver|].
    intros [?|Hin]; [by left|]. right. split; [|done]. intros ->.
    by apply (proj1 (BTreeFacts.get_None _ _) Hg) in Hin. }
  assert (∀ j, (a, j) ∉ pending_frees r) as Hnp.
  { intros j Hj. destruct (Q _ _ Hj) as (s2 & Hin & _).
    by apply (proj1 (BTreeFacts.get_None _ _) Hg) in Hin. }
  assert (slot_state r a i = None) as Hnone by (unfold slot_state; by rewrite Hg).
  assert (∀ j, slot_bit s' j = bool_decide (j = i)) as Hbit.
  { intros j. rewrite (slot_bit_spec _ _ j Os'). case_bool_decide; subst.
    - rewrite list_lookup_insert_eq; [done|]. by rewrite length_replicate.
    - rewrite list_lookup_insert_ne by done.
      destruct (replicate (S n) false !! j) as [x|] eqn:E; [|done].
      by apply lookup_replicate in E as [-> _]. }
  split_and!; [split; [split|split|split]|done|]; unfold r'; simpl.
  - by destruct P.
  - unfold slab_live. eapply Buddy.buddy_parts_perm; [|exact Pt].
    rewrite BTreeFacts.insert_perm by done. simpl. by rewrite E2, (s_size _ _ _ Ha).
  - by apply BTreeFacts.insert_sorted.
  - intros st s2. rewrite Hel. intros [[-> ->]|Hin]; [|destruct (Sl _ _ Hin); by split].
    destruct Ha as [A1 A2 A3 A4].
    split; simpl; [congruence|congruence|by rewrite E3, E2|eauto].
  - intros e' st Hl. assert (st ∈ get_slabs (size_classes r) e' ∨ (e' = e ∧ st = a)) as [Hl'|[-> ->]].
    { subst c. destruct (is_full s'); [by left|]. by apply class_elem_add. }
    + destruct (L _ _ Hl') as (s2 & Hin & He2). exists s2. rewrite Hel. naive_solver.
    + exists s'. rewrite Hel. split; [by left|congruence].
  - intros st s2. rewrite Hel. intros [[-> ->]|Hin] Hf; subst c.
    + rewrite Hf. apply class_elem_add. right. split; [congruence|done].
    + destruct (is_full s'); [by apply F|]. apply class_elem_add. left. by apply F.
  - intros st j Hj. destruct (Q _ _ Hj) as (s2 & Hin & ?). exists s2. rewrite Hel. naive_solver.
  - done.
  - intros st j. unfold slot_state. simpl. rewrite BTreeFacts.get_insert by done.
    destruct (decide (st = a)) as [->|Hne]; [|by rewrite decide_False by naive_solver].
    unfold slot_view. rewrite Hbit. case_bool_decide as Hj; subst.
    + rewrite decide_True by done. rewrite bool_decide_false by done.
      rewrite Ek, (ok_free _ _ Os i); [done|]. by apply lookup_replicate.
    + rewrite decide_False by naive_solver. by rewrite Hg.
Qed.

(** ** The operations *)

Lemma alloc_extent_spec r size :
  ok r → 0 < size → size + 2 ^ k < 2 ^ 32 →
  (∃ st i off r', alloc_extent r size = Ret (Ok (st, i, off), r') ∧ ok r' ∧ frame r r' ∧
     slot_state r st i = None ∧ updated r r' st i (Some Reserved) ∧
     extent_at r' st i off (elem size) ∧ keeps r r') ∨
  (∃ r', alloc_extent r size = Ret (Err OutOfSpace, r') ∧ ok r' ∧ frame r r' ∧ unchanged r r' ∧ keeps r r' ∧
     (∀ st s, (st, s) ∈ slabs r → element_size s = elem size → is_full s = true) ∧
     (fp_slab_size (format_params r) < elem size ∨
      Buddy.alloc (buddy r) (fp_slab_size (format_params r)) = Ret (None, buddy r))).
Proof.
  intros O H0 H1. pose proof (elem_bounds size H0) as (He & Hed & Hek). pose proof pow_k as Hp.
  unfold alloc_extent. rewrite (align_spec size) by (apply O || done). simpl.
  destruct (class_loop_spec _ r (elem size) O (Nat.le_refl _))
    as [(st & i & off & r' & -> & O' & Fr & Hn & U & X & Kp)|(r1 & -> & O1 & Fr & Es & Eb & Ep & Hall)]; simpl.
  { left. exists st, i, off, r'. done. }
  assert (keeps r r1) as Kp by (intros st i off e; unfold extent_at; by rewrite Es).
  pose proof Fr as [Ef _]. rewrite Ef.
  assert (unchanged r r1) as Un by (intros st i; unfold slot_state; by rewrite Es, Ep).
  destruct (Z.ltb_spec (fp_slab_size (format_params r)) (elem size)) as [Hbig|Hfit].
  { right. exists r1. split_and!; [done..|]. by left. }
  pose proof (p_slab _ (ok_params _ (ok_base _ O))) as [Hsl Hsd]. rewrite Eb.
  destruct (Buddy.alloc_spec k Hk (buddy r) (fp_slab_size (format_params r)))
    as [(x & b' & -> & T)|[-> _]]; [apply O|lia| |]; simpl.
  2: { right. exists (set_buddy r1 (buddy r)). replace (set_buddy r1 (buddy r)) with r1.
       - split_and!; [done..|]. by right.
       - rewrite <- Eb. by destruct r1. }
  left. set (a := Buddy.base_offset (buddy r) + x) in *.
  replace x with (a - Buddy.base_offset (buddy r1)) in T by (rewrite Eb; lia).
  rewrite <- Ef, <- Eb in *.
  destruct (fresh_slab r1 a b' (elem size) (ok_base _ O1) ltac:(lia) Hed T)
    as (s & n & -> & Os & Oa & Ee & Hg & Pt). simpl.
  destruct (alloc_slot_spec _ _ Os) as [(_ & _ & Hno)|(i & s' & -> & Hb & Os' & Hsh & Ek)].
  { specialize (Hno 0%nat false eq_refl). done. }
  apply lookup_replicate in Hb as [_ Hi].
  destruct (add_fresh_slab r1 a b' (elem size) s s' n i _ O1 Oa Ee Hg Pt Os Hi Os' Hsh Ek eq_refl)
    as (O2 & Hn & U).
  destruct Hsh as (E1 & _ & E3 & E4). destruct T as (_ & (fls & ->) & _). destruct Fr as (_ & Fr).
  eexists a, i, _, (set_slabs (set_classes (set_buddy r1 _) _) (BTree.insert (slabs r1) a s')).
  split; [|split_and!; [exact O2|..]]. 1: simpl; by destruct (is_full s').
  - split_and!; simpl; congruence.
  - by rewrite <- Un.
  - intros st' i'. rewrite U. by case_decide.
  - exists s'. simpl. split_and!; [|congruence| |].
    + apply BTreeFacts.elem_of_insert; [apply O1|by left].
    + unfold slot_start. congruence.
    + rewrite E4. unfold num_slots. by rewrite (Bitmap.rep_slots _ _ (ok_bitmap _ _ Os)), length_replicate.
  - intros st2 i2 off2 e2 (s2 & Hin2 & H2)%Kp. exists s2. split; [|done]. simpl.
    apply BTreeFacts.elem_of_insert; [apply O1|]. right. split; [|done]. intros ->.
    apply (get_slab _ _ _ (ok_base _ O1)) in Hin2. congruence.
Qed.

Lemma slot_state_Some r st i x :
  base_ok r → slot_state r st i = Some x →
  ∃ s bs, (st, s) ∈ slabs r ∧ Slab.ok s bs ∧ bs !! i = Some true ∧
          slot_view s st i (pending_frees r) = Some x.
Proof.
  intros O Hs. unfold slot_state in Hs.
  destruct (BTree.get (slabs r) st) as [s|] eqn:Hg; [|done].
  apply (get_slab _ _ _ O) in Hg. destruct (s_ok _ _ _ (ok_slabs _ O _ _ Hg)) as [bs Os].
  exists s, bs. split_and!; [done..| |done]. unfold slot_view in Hs.
  destruct (slot_bit s i) eqn:Hb; [|done]. rewrite (slot_bit_spec _ _ _ Os) in Hb.
  by destruct (bs !! i) as [[]|].
Qed.

(** Giving an empty slab back. *)
Lemma drop_slab r st s s' bs i :
  ok r → (st, s) ∈ slabs r → Slab.ok s bs → (i < length bs)%nat → Slab.ok s' (<[i := false]> bs) →
  same_shape s s' → (∀ j x, <[i := false]> bs !! j = Some x → x = false) → (st, i) ∉ pending_frees r →
  ∃ b', Buddy.free (buddy r) st (slab_size s') = Ret b' ∧
    let r' := set_slabs (set_classes (set_buddy (with_slab r st s') b')
                (remove_slab (size_classes r) (element_size s') st))
                (BTree.remove (BTree.insert (slabs r) st s') st) in
    ok r' ∧ frame r r' ∧ updated r r' st i None.
Proof.
  intros [Ob [L F] [Q N]] Hin Os Hi Os' (E1 & E2 & E3 & E4) Hall Hnp.
  pose proof Ob as [P B So Sl]. pose proof (BTreeFacts.remove_perm _ _ _ So Hin) as Pm.
  assert (Buddy.parts k (buddy r) ((st, slab_size s') :: slab_live (BTree.remove (slabs r) st))) as B1.
  { eapply Buddy.buddy_parts_perm; [|exact B]. unfold slab_live.
    etrans; [apply fmap_Permutation, Pm|]. simpl. by rewrite E2. }
  destruct (Buddy.parts_release k Hk _ _ _ _ B1) as (b' & Ef & B2 & fls & ->).
  exists (Buddy.set_lists (buddy r) fls). split; [done|]. rewrite BTreeFacts.remove_insert by done.
  assert (∀ j, slot_bit s j = true → j = i) as Honly.
  { intros j Hj. rewrite (slot_bit_spec _ _ _ Os) in Hj. destruct (decide (j = i)); [done|].
    destruct (bs !! j) as [x|] eqn:Hx; [|done]. simpl in Hj. subst x.
    specialize (Hall j true). rewrite list_lookup_insert_ne in Hall by done. by apply Hall in Hx. }
  pose proof (BTreeFacts.elem_of_remove (slabs r) st) as Hrem.
  split_and!; [split; [split|split|split]|done|]; simpl.
  - by destruct P.
  - done.
  - by apply BTreeFacts.remove_sorted.
  - intros st2 s2. rewrite Hrem by done. intros [_ Hin2]. destruct (Sl _ _ Hin2). by split.
  - intros e st2 [Hl Hne]%class_elem_remove. destruct (L _ _ Hl) as (s2 & Hin2 & He2).
    exists s2. rewrite Hrem by done. split; [|done]. split; [|done]. intros ->. apply Hne.
    rewrite (slab_unique _ _ _ _ Ob Hin2 Hin) in He2. split; congruence.
  - intros st2 s2. rewrite Hrem by done. intros [Hne Hin2] Hf. apply class_elem_remove.
    split; [by apply F|naive_solver].
  - intros st2 j Hp. destruct (Q _ _ Hp) as (s2 & Hin2 & Hb & Hkey). exists s2.
    rewrite Hrem by done. split_and!; [|done..]. intros ->.
    rewrite (slab_unique _ _ _ _ Ob Hin2 Hin) in Hb. by rewrite (Honly _ Hb) in Hp.
  - done.
  - intros st2 j. unfold slot_state. simpl. rewrite BTreeFacts.get_remove by done.
    destruct (decide (st2 = st)) as [->|Hne]; [|by rewrite decide_False by naive_solver].
    case_decide as Hd; [done|]. rewrite (proj2 (get_slab _ _ _ Ob) Hin). unfold slot_view.
    destruct (slot_bit s j) eqn:Hb; [|done]. apply Honly in Hb. naive_solver.
Qed.

Lemma region_free_slot_spec r st i x :
  ok r → slot_state r st i = Some x → x ≠ Pending →
  ∃ r', free_slot r st i = Ret r' ∧ ok r' ∧ frame r r' ∧ updated r r' st i None ∧
        pending_frees r' = pending_frees r ∧ keeps_live r r'.
Proof.
  intros O Hs Hx. pose proof O as [Ob Oc Op].
  destruct (slot_state_Some _ _ _ _ Ob Hs) as (s & bs & Hin & Os & Hb & Hv).
  assert ((st, i) ∉ pending_frees r) as Hnp.
  { intros Hp. unfold slot_view in Hv. rewrite (slot_bit_spec _ _ _ Os), Hb in Hv. simpl in Hv.
    rewrite bool_decide_true in Hv by done. congruence. }
  pose proof (lookup_lt_Some _ _ _ Hb) as Hi.
  unfold free_slot. rewrite (proj2 (get_slab _ _ _ Ob) Hin).
  destruct (free_slot_spec _ _ _ Os Hb) as (s' & -> & Os' & Hsh & Ek). simpl.
  destruct (is_empty s') eqn:Hemp.
  { pose proof (proj1 (is_empty_spec _ _ Os') Hemp) as Hall.
    destruct (drop_slab _ _ _ _ _ _ O Hin Os Hi Os' Hsh Hall Hnp) as (b' & -> & O' & Fr & U).
    eexists. split; [done|]. split_and!; [done..|].
    intros st2 i2 off2 e2 (s2 & Hin2 & H2) Hne. exists s2. split; [|done]. simpl in *.
    assert (st2 ≠ st) as Hst.
    { intros ->. apply Hne. unfold slot_state. simpl. rewrite BTreeFacts.get_remove by (by apply BTreeFacts.insert_sorted, Ob). by rewrite decide_True. }
    apply BTreeFacts.elem_of_remove; [by apply BTreeFacts.insert_sorted, Ob|].
    split; [done|]. apply BTreeFacts.elem_of_insert; [apply Ob|by right]. }
  pose proof (slot_bit_insert s s' bs i false) as Hbit. pose proof Hsh as (E1 & _ & E3 & E4).
  assert (base_ok (with_slab r st s')) as Ob' by (by eapply base_update).
  assert (pending_ok (with_slab r st s')) as Op'.
  { apply (pending_update r _ st s s'); [done..|]. intros j Hj. assert (j ≠ i) by (by intros ->).
    rewrite Ek, list_lookup_insert_ne by done. rewrite Hbit, decide_False by done. done. }
  assert (updated r (with_slab r st s') st i None) as U.
  { apply (slot_update r _ st s s'); [done..| | |].
    - intros j Hne. rewrite Ek, list_lookup_insert_ne, Hbit, decide_False by done. done.
    - done.
    - unfold slot_view. by rewrite Hbit, decide_True by done. }
  assert (keeps_live r (with_slab r st s')) as Kp by (intros ? ? ? ? X _; by apply (keeps_with_slab r st s s')).
  fold (with_slab r st s'). destruct (is_full s) eqn:Hfull.
  - eexists. split; [done|]. split_and!; [|done|exact U|done|exact Kp].
    apply ok_set_classes; [done..|]. destruct Oc as [L F]. split; simpl.
    + intros e st2. rewrite class_elem_add. intros [Hl|[-> ->]].
      * destruct (L _ _ Hl) as (s2 & Hin2 & He2). destruct (decide (st2 = st)) as [->|Hne].
        -- exists s'. rewrite (slab_unique _ _ _ _ Ob Hin2 Hin) in He2.
           split; [apply with_slab_elem; [done|by left]|congruence].
        -- exists s2. split; [apply with_slab_elem; [done|by right]|done].
      * exists s'. split; [apply with_slab_elem; [done|by left]|done].
    + intros st2 s2 Hin2 Hf. apply class_elem_add.
      apply with_slab_elem in Hin2 as [[-> ->]|[Hne Hin2]]; [by right|left; auto|done].
  - eexists. split; [done|]. split_and!; [|done|exact U|done|exact Kp].
    split; [done| |done]. apply (classes_with_slab r st s s'); [done..|]. by apply (c_nonfull _ Oc).
Qed.

(** Slabs do not overlap and lie inside the region. *)
Lemma slabs_disjoint r st s st' s' :
  base_ok r → (st, s) ∈ slabs r → (st', s') ∈ slabs r → st ≠ st' →
  st + slab_size s ≤ st' ∨ st' + slab_size s' ≤ st.
Proof.
  intros O Hin Hin' Hne. pose proof O as [P B So Sl].
  pose proof (BTreeFacts.remove_perm _ _ _ So Hin) as Pm.
  assert (Buddy.parts k (buddy r) ((st, slab_size s) :: slab_live (BTree.remove (slabs r) st))) as B1.
  { eapply Buddy.buddy_parts_perm; [|exact B]. etrans; [apply fmap_Permutation, Pm|done]. }
  assert ((st', slab_size s') ∈ slab_live (BTree.remove (slabs r) st)) as Hl.
  { apply list_elem_of_fmap. exists (st', s'). split; [done|].
    apply BTreeFacts.elem_of_remove; [done|]. split; [congruence|done]. }
  pose proof (p_slab _ P) as [Hs _].
  pose proof (s_size _ _ _ (Sl _ _ Hin)). pose proof (s_size _ _ _ (Sl _ _ Hin')).
  pose proof (Buddy.order_for_fits k Hk (slab_size s) ltac:(lia)).
  pose proof (Buddy.order_for_fits k Hk (slab_size s') ltac:(lia)).
  destruct (Buddy.buddy_live_disjoint k Hk _ _ _ _ _ _ B1 Hl); lia.
Qed.

Lemma slab_inside r st s :
  base_ok r → (st, s) ∈ slabs r →
  Buddy.base_offset (buddy r) ≤ st ∧
  st + slab_size s ≤ Buddy.base_offset (buddy r) + Buddy.total_usable_size (buddy r).
Proof.
  intros O Hin. pose proof O as [P B So Sl].
  assert ((st, slab_size s) ∈ slab_live (slabs r)) as Hl.
  { apply list_elem_of_fmap. by exists (st, s). }
  destruct (Buddy.parts_live _ _ _ B _ _ Hl) as ([H0 _] & _ & (_ & _ & Hx & Hy)).
  pose proof (Buddy.order_for_fits k Hk (slab_size s) H0).
  pose proof (Buddy.usable_le k Hk _ (Buddy.ok_params _ _ (Buddy.parts_ok _ _ _ B))). lia.
Qed.

Lemma extent_inside_slab r st i off e :
  base_ok r → extent_at r st i off e →
  ∃ s, (st, s) ∈ slabs r ∧ 0 < e ∧ st ≤ off ∧ off + e ≤ st + slab_size s.
Proof.
  intros O (s & Hin & <- & -> & Hi). exists s.
  destruct (ok_slabs _ O _ _ Hin) as [<- _ [He _] (bs & Os)].
  unfold num_slots in Hi. rewrite (Bitmap.rep_slots _ _ (ok_bitmap _ _ Os)) in Hi.
  pose proof (slot_inside _ _ _ Os Hi). split_and!; (done || lia).
Qed.

Lemma extents_disjoint r st i off e st' i' off' e' :
  base_ok r → extent_at r st i off e → extent_at r st' i' off' e' → (st, i) ≠ (st', i') →
  off + e ≤ off' ∨ off' + e' ≤ off.
Proof.
  intros O X X' Hne. destruct (decide (st = st')) as [<-|Hst].
  - destruct X as (s & Hin & <- & -> & Hi), X' as (s' & Hin' & <- & -> & Hi').
    rewrite (slab_unique _ _ _ _ O Hin' Hin).
    apply slots_disjoint; [apply (s_elem _ _ _ (ok_slabs _ O _ _ Hin))|congruence].
  - destruct (extent_inside_slab _ _ _ _ _ O X) as (s & Hin & ? & ? & ?).
    destruct (extent_inside_slab _ _ _ _ _ O X') as (s' & Hin' & ? & ? & ?).
    destruct (slabs_disjoint _ _ _ _ _ O Hin Hin' Hst); lia.
Qed.

(** ** Publishing and removing *)

(** [r'] has the slabs, the classes and the buddy allocator of [r]. *)
Lemma ok_same r r' :
  slabs r' = slabs r → size_classes r' = size_classes r → buddy r' = buddy r →
  format_params r' = format_params r → base_ok r → classes_ok r → base_ok r' ∧ classes_ok r'.
Proof.
  intros E1 E2 E3 E4 [[P1 P2 P3] B So Sl] [L F]. split; split; rewrite ?E1, ?E2, ?E3; try done.
  - split; by rewrite E4.
  - intros st s Hin. destruct (Sl _ _ Hin). split; [done|by rewrite E4|done..].
Qed.

(** Writing the key of an allocated slot. *)
Lemma rekey r st s s' bs :
  base_ok r → classes_ok r → (st, s) ∈ slabs r → Slab.ok s bs → Slab.ok s' bs → same_shape s s' →
  bitmap s' = bitmap s →
  base_ok (with_slab r st s') ∧ classes_ok (with_slab r st s') ∧ ∀ j, slot_bit s' j = slot_bit s j.
Proof.
  intros Ob [L F] Hin Os Os' Hsh Eb. pose proof Hsh as (_ & _ & E3 & E4). split_and!.
  - by eapply base_update.
  - split; simpl.
    + intros e st2 Hl. destruct (L _ _ Hl) as (s2 & Hin2 & He2).
      destruct (decide (st2 = st)) as [->|Hne].
      * exists s'. rewrite (slab_unique _ _ _ _ Ob Hin2 Hin) in He2.
        split; [apply (with_slab_elem r); [done|by left]|congruence].
      * exists s2. split; [apply (with_slab_elem r); [done|by right]|done].
    + intros st2 s2 Hin2 Hf.
      apply (with_slab_elem r) in Hin2 as [[-> ->]|[Hne Hin2]]; [|by apply F|done].
      rewrite E3. apply F; [done|]. rewrite <- Hf. unfold is_full, num_slots. by rewrite Eb.
  - intros j. by rewrite (slot_bit_spec _ _ _ Os'), (slot_bit_spec _ _ _ Os).
Qed.

Lemma not_pending r st i s x :
  slot_view s st i (pending_frees r) = Some x → x ≠ Pending → (st, i) ∉ pending_frees r.
Proof.
  intros Hv Hx Hp. unfold slot_view in Hv. rewrite bool_decide_true in Hv by done.
  destruct (slot_bit s i); congruence.
Qed.

Lemma publish_slot_spec r st i key :
  ok r → slot_state r st i = Some Reserved → key ≠ FREE_KEY →
  ∃ r', publish_slot r st i key = Ret r' ∧ ok r' ∧ frame r r' ∧
        updated r r' st i (Some (Published key)) ∧ dirty r' = true ∧
        pending_frees r' = pending_frees r ∧ keeps r r'.
Proof.
  intros O Hs Hkey. pose proof O as [Ob Oc Op].
  destruct (slot_state_Some _ _ _ _ Ob Hs) as (s & bs & Hin & Os & Hb & Hv).
  pose proof (lookup_lt_Some _ _ _ Hb) as Hi.
  pose proof (not_pending _ _ _ _ _ Hv ltac:(done)) as Hnp.
  unfold publish_slot. rewrite (proj2 (get_slab _ _ _ Ob) Hin).
  destruct (set_key_spec _ _ _ key Os Hb) as (s' & -> & Os' & Hsh & Ek & Eb). simpl.
  destruct (rekey _ _ _ _ _ Ob Oc Hin Os Os' Hsh Eb) as (Ob' & Oc' & Hbit).
  eexists. split; [done|]. fold (with_slab r st s').
  split_and!; [|done| |done|done|by apply (keeps_with_slab r st s)].
  - destruct (ok_same (with_slab r st s') (set_dirty (with_slab r st s') true)) as [? ?]; [done..|].
    split; [done..|]. apply (pending_update r _ st s s'); [done..|]. intros j Hj.
    rewrite Ek, list_lookup_insert_ne, Hbit; [done|]. by intros ->.
  - apply (slot_update r _ st s s'); [done..| |done|].
    + intros j Hne. by rewrite Ek, list_lookup_insert_ne, Hbit.
    + unfold slot_view. rewrite Hbit, (slot_bit_spec _ _ _ Os), Hb. simpl.
      rewrite bool_decide_false by done. rewrite Ek, list_lookup_insert_eq.
      * by rewrite (proj2 (Z.eqb_neq _ _) Hkey).
      * by rewrite (ok_keys _ _ Os).
Qed.

(** The slab that holds an offset is the last one that starts at or before it. *)
Lemma last_le_slab r st s off :
  base_ok r → (st, s) ∈ slabs r → st ≤ off < st + slab_size s →
  BTree.last_le (slabs r) off = Some (st, s).
Proof.
  intros O Hin Hoff. unfold BTree.last_le. pose proof (ok_sorted _ O) as So.
  destruct (BTree.last_lt (slabs r) (off + 1)) as [[st' s']|] eqn:E.
  - apply BTreeFacts.last_lt_Some in E as (Hin' & Hlt & Hmax); [|done].
    pose proof (Hmax _ _ Hin ltac:(lia)).
    destruct (decide (st' = st)) as [->|Hne]; [by rewrite (slab_unique _ _ _ _ O Hin' Hin)|].
    pose proof (s_elem _ _ _ (ok_slabs _ O _ _ Hin')).
    destruct (slabs_disjoint _ _ _ _ _ O Hin' Hin Hne); lia.
  - pose proof (BTreeFacts.last_lt_None _ _ So E _ _ Hin). lia.
Qed.

(** What [remove_extent_by_offset] finds at an offset. *)
Lemma remove_extent_find r off :
  ok r →
  (∃ st i s bs key, (st, s) ∈ slabs r ∧ Slab.ok s bs ∧ bs !! i = Some true ∧
     keys s !! i = Some key ∧ key ≠ FREE_KEY ∧ off = slot_start s i ∧
     remove_extent_by_offset r off =
       (s' ← set_key s i FREE_KEY;
        Ret (Ok (), set_dirty (set_pending (with_slab r st s') (pending_frees r ++ [(st, i)])) true))) ∨
  (remove_extent_by_offset r off = Ret (Err (OffsetNotFound off), r) ∧
   ∀ st i e key, extent_at r st i off e → slot_state r st i ≠ Some (Published key)).
Proof.
  intros O. pose proof O as [Ob Oc [Q N]]. unfold remove_extent_by_offset.
  assert (∀ st s, (st, s) ∈ slabs r → BTree.last_le (slabs r) off = Some (st, s) ∨
    ∀ i e, extent_at r st i off e → False) as Hat.
  { intros st s Hin. destruct (decide (st ≤ off < st + slab_size s)) as [H|H].
    - left. by apply last_le_slab.
    - right. intros i e X. destruct (extent_inside_slab _ _ _ _ _ Ob X) as (s2 & Hin2 & ? & ? & ?).
      rewrite (slab_unique _ _ _ _ Ob Hin2 Hin) in *. lia. }
  destruct (BTree.last_le (slabs r) off) as [[st s]|] eqn:El.
  2: { right. split; [done|]. intros st i e key X _. pose proof X as (s & Hin & _).
       destruct (Hat _ _ Hin) as [?|?]; [done|eauto]. }
  assert ((st, s) ∈ slabs r) as Hin.
  { unfold BTree.last_le in El. by apply BTreeFacts.last_lt_Some in El as (? & _); [|apply Ob]. }
  assert (st ≤ off) as Hle.
  { unfold BTree.last_le in El. apply BTreeFacts.last_lt_Some in El as (_ & ? & _); [lia|apply Ob]. }
  assert (∀ st' i e, extent_at r st' i off e → st' = st) as Hst.
  { intros st' i e X. pose proof X as (s' & Hin' & _). destruct (Hat _ _ Hin') as [?|?]; [congruence|].
    exfalso. eauto. }
  destruct (ok_slabs _ Ob _ _ Hin) as [Est _ _ (bs & Os)].
  pose proof (ok_range _ _ Os) as (? & ? & ?). unfold contains_offset.
  destruct (Z.ltb_spec off (start_offset s)); [lia|]. rewrite add_w_Ret by lia. simpl.
  destruct (Z.ltb_spec off (start_offset s + slab_size s)) as [Hin_r|Hout]; simpl.
  2: { right. split; [done|]. intros st' i e key X _. pose proof (Hst _ _ _ X) as ->.
       destruct (extent_inside_slab _ _ _ _ _ Ob X) as (s2 & Hin2 & ? & ? & ?).
       rewrite (slab_unique _ _ _ _ Ob Hin2 Hin) in *. lia. }
  destruct (slot_for_offset_spec _ _ off Os) as [(i & Hi & Hoff & ->)|[-> Hno]]; simpl.
  2: { right. split; [done|]. intros st' i e key X _. pose proof (Hst _ _ _ X) as ->.
       destruct X as (s2 & Hin2 & _ & Ho & Hi). rewrite (slab_unique _ _ _ _ Ob Hin2 Hin) in *.
       apply (Hno i); [|done]. unfold num_slots in Hi. by rewrite (Bitmap.rep_slots _ _ (ok_bitmap _ _ Os)) in Hi. }
  destruct (lookup_lt_is_Some_2 _ _ Hi) as [x Hb].
  rewrite (Bitmap.is_set_spec _ _ _ _ (ok_bitmap _ _ Os) Hb). simpl.
  assert (i < length (keys s))%nat as Hik by (by rewrite (ok_keys _ _ Os)).
  destruct (lookup_lt_is_Some_2 _ _ Hik) as [key Hkey].
  assert (∀ st' i' e, extent_at r st' i' off e → st' = st ∧ i' = i) as Hwhere.
  { intros st' i' e X. pose proof (Hst _ _ _ X) as ->. split; [done|].
    destruct X as (s2 & Hin2 & _ & Ho & _). rewrite (slab_unique _ _ _ _ Ob Hin2 Hin) in *.
    unfold slot_start in *. pose proof (ok_elem _ _ Os). nia. }
  destruct x; simpl; unfold get_key, vec_get; rewrite ?Hkey; simpl; [destruct (Z.eqb_spec key FREE_KEY) as [Hke|Hke]|].
  - right. split; [done|]. intros st' i' e key' X Hs. destruct (Hwhere _ _ _ X) as [-> ->].
    unfold slot_state, slot_view in Hs. rewrite (proj2 (get_slab _ _ _ Ob) Hin), Hkey in Hs. subst key.
    rewrite Z.eqb_refl in Hs. by destruct (slot_bit s i); [case_bool_decide|].
  - left. exists st, i, s, bs, key. split_and!; done.
  - right. split; [done|]. intros st' i' e key' X Hs. destruct (Hwhere _ _ _ X) as [-> ->].
    unfold slot_state, slot_view in Hs. rewrite (proj2 (get_slab _ _ _ Ob) Hin) in Hs.
    by rewrite (slot_bit_spec _ _ _ Os), Hb in Hs.
Qed.

(** Appending a published slot to the pending frees. *)
Lemma pending_push r st i s s' :
  base_ok r → pending_ok r → (st, s) ∈ slabs r → (st, i) ∉ pending_frees r →
  (∀ j, slot_bit s' j = slot_bit s j) → slot_bit s i = true → (i < length (keys s))%nat →
  keys s' = <[i := FREE_KEY]> (keys s) →
  pending_ok (set_pending (with_slab r st s') (pending_frees r ++ [(st, i)])).
Proof.
  intros Ob [Q N] Hin Hnp Hbit Hb Hlen Ek. split; simpl.
  - intros st2 j. rewrite elem_of_app, list_elem_of_singleton. intros [Hp|[= -> ->]].
    + destruct (Q _ _ Hp) as (s2 & Hin2 & Hb2 & Hk2). destruct (decide (st2 = st)) as [->|Hne].
      * exists s'. rewrite (slab_unique _ _ _ _ Ob Hin2 Hin) in *.
        split_and!; [apply (with_slab_elem r); [done|by left]|by rewrite Hbit|].
        rewrite Ek, list_lookup_insert_ne; [done|]. by intros ->.
      * exists s2. split_and!; [apply (with_slab_elem r); [done|by right]|done..].
    + exists s'. split_and!; [apply (with_slab_elem r); [done|by left]|by rewrite Hbit|].
      rewrite Ek. by apply list_lookup_insert_eq.
  - apply NoDup_app. split_and!; [done| |apply NoDup_singleton].
    intros x Hx ->%list_elem_of_singleton. done.
Qed.

Lemma remove_extent_spec r off :
  ok r →
  (∃ st i e key r', extent_at r st i off e ∧ slot_state r st i = Some (Published key) ∧
     remove_extent_by_offset r off = Ret (Ok (), r') ∧ ok r' ∧ frame r r' ∧
     updated r r' st i (Some Pending) ∧ dirty r' = true ∧
     pending_frees r' = pending_frees r ++ [(st, i)] ∧ keeps r r') ∨
  (remove_extent_by_offset r off = Ret (Err (OffsetNotFound off), r) ∧
   ∀ st i e key, extent_at r st i off e → slot_state r st i ≠ Some (Published key)).
Proof.
  intros O. destruct (remove_extent_find r off O)
    as [(st & i & s & bs & key & Hin & Os & Hb & Hkey & Hkf & Hoff & ->)|H]; [left|by right].
  pose proof O as [Ob Oc Op]. pose proof (lookup_lt_Some _ _ _ Hb) as Hi.
  assert (slot_bit s i = true) as Hbit0 by (by rewrite (slot_bit_spec _ _ _ Os), Hb).
  assert ((st, i) ∉ pending_frees r) as Hnp.
  { intros Hp. destruct (q_slot _ Op _ _ Hp) as (s2 & Hin2 & _ & Hk2).
    rewrite (slab_unique _ _ _ _ Ob Hin2 Hin) in *. congruence. }
  destruct (set_key_spec _ _ _ FREE_KEY Os Hb) as (s' & -> & Os' & Hsh & Ek & Eb). simpl.
  destruct (rekey _ _ _ _ _ Ob Oc Hin Os Os' Hsh Eb) as (Ob' & Oc' & Hbit).
  set (r' := set_dirty _ _).
  destruct (ok_same (with_slab r st s') r') as [? ?]; [done..|].
  exists st, i, (element_size s), key, r'. split_and!; [| |done| |done| |done|done|by apply (keeps_with_slab r st s)].
  - exists s. split_and!; [done..|]. unfold num_slots. by rewrite (Bitmap.rep_slots _ _ (ok_bitmap _ _ Os)).
  - unfold slot_state, slot_view. rewrite (proj2 (get_slab _ _ _ Ob) Hin), Hbit0, Hkey.
    rewrite bool_decide_false by done. by rewrite (proj2 (Z.eqb_neq _ _) Hkf).
  - split; [done..|]. destruct (pending_push r st i s s' Ob Op Hin Hnp Hbit Hbit0); [|done|by split].
    by rewrite (ok_keys _ _ Os).
  - apply (slot_update r _ st s s'); [done..| | |].
    + intros j Hne. by rewrite Ek, list_lookup_insert_ne, Hbit.
    + intros st2 j Hne. simpl. rewrite elem_of_app, list_elem_of_singleton. naive_solver.
    + unfold slot_view. rewrite Hbit, Hbit0, bool_decide_true; [done|].
      apply elem_of_app. right. by apply list_elem_of_singleton.
Qed.

(** ** Flushing *)

Lemma free_all_spec frees r :
  ok r → NoDup frees → (∀ st i, (st, i) ∈ frees → slot_state r st i = Some Reserved) →
  ∃ r', free_all r frees = Ret r' ∧ ok r' ∧ frame r r' ∧ pending_frees r' = pending_frees r ∧ keeps_live r r' ∧
        ∀ st i, slot_state r' st i = if bool_decide ((st, i) ∈ frees) then None else slot_state r st i.
Proof.
  revert r. induction frees as [|[st i] frees IH]; intros r O Hnd Hs; simpl.
  { exists r. split_and!; try done. by intros st i off e X _. }
  apply NoDup_cons in Hnd as [Hni Hnd].
  destruct (region_free_slot_spec r st i Reserved O) as (r1 & -> & O1 & F1 & U1 & P1 & K1);
    [apply Hs; by left|done|]. simpl.
  destruct (IH r1 O1 Hnd) as (r2 & -> & O2 & F2 & P2 & K2 & U2).
  - intros st2 j Hin. rewrite U1, decide_False.
    + apply Hs. by right.
    + intros [-> ->]. done.
  - exists r2. destruct F1 as (? & ? & ?), F2 as (? & ? & ?).
    split_and!; [done|done|split_and!; congruence|congruence|..].
    { intros st2 j off e X Hne. apply K2; [|done]. apply K1; [done|]. intros Hn. apply Hne. rewrite U2, Hn. by case_bool_decide. }
    intros st2 j. rewrite U2, U1.
    destruct (decide (st2 = st ∧ j = i)) as [[-> ->]|Hne].
    + rewrite (bool_decide_true (_ ∈ _ :: _)) by by left. by case_bool_decide.
    + rewrite (bool_decide_ext ((st2, j) ∈ (st, i) :: frees) ((st2, j) ∈ frees)); [done|].
      rewrite elem_of_cons. naive_solver.
Qed.

Lemma flush_spec r :
  ok r →
  ∃ r', flush_pending_frees r = Ret r' ∧ ok r' ∧ frame r r' ∧ pending_frees r' = [] ∧ keeps_live r r' ∧
        ∀ st i, slot_state r' st i =
          if decide (slot_state r st i = Some Pending) then None else slot_state r st i.
Proof.
  intros O. pose proof O as [Ob Oc [Q N]]. unfold flush_pending_frees.
  set (r0 := set_pending r []).
  assert (ok r0) as O0.
  { destruct (ok_same r r0) as [? ?]; [done..|]. split; [done..|]. split; [set_solver|constructor]. }
  assert (∀ st i, (st, i) ∈ pending_frees r ↔ slot_state r st i = Some Pending) as Hpend.
  { intros st i. split.
    - intros Hp. destruct (Q _ _ Hp) as (s & Hin & Hb & _). unfold slot_state, slot_view.
      rewrite (proj2 (get_slab _ _ _ Ob) Hin), Hb. by rewrite bool_decide_true.
    - unfold slot_state, slot_view. destruct (BTree.get (slabs r) st) as [s|]; [|done].
      destruct (slot_bit s i); [|done]. case_bool_decide; [done|].
      destruct (keys s !! i) as [k'|]; [|done]. by destruct (k' =? FREE_KEY). }
  destruct (free_all_spec (pending_frees r) r0 O0 N) as (r' & -> & O' & Fr & Ep & Kp & U).
  - intros st i Hp. destruct (Q _ _ Hp) as (s & Hin & Hb & Hkey). unfold slot_state, slot_view. simpl.
    rewrite (proj2 (get_slab _ _ _ Ob) Hin), Hb, Hkey. by rewrite Z.eqb_refl.
  - exists r'. split_and!; [done..|]. intros st i. rewrite U. case_bool_decide as Hp.
    + by rewrite decide_True by (by apply Hpend).
    + rewrite Hpend in Hp. rewrite decide_False by done. unfold slot_state. simpl.
      destruct (BTree.get (slabs r) st) as [s|]; [|done]. unfold slot_view. simpl.
      destruct (slot_bit s i); [|done]. rewrite bool_decide_false by (by rewrite Hpend). done.
Qed.

Lemma region_new_ok b fp :
  params_ok (new b fp) → Buddy.parts k b [] → ok (new b fp) ∧ ∀ st i, slot_state (new b fp) st i = None.
Proof.
  intros P B. split; [|done]. split; [split|split|split]; simpl.
  - done.
  - done.
  - apply BTreeFacts.sorted_nil.
  - set_solver.
  - intros e st. unfold get_slabs. simpl. rewrite lookup_empty. set_solver.
  - set_solver.
  - set_solver.
  - constructor.
Qed.

(** * The abstract region

    A client of the region sees slots that are free, reserved, published under
    a key, or removed and waiting for the next checkpoint. *)

Inductive op :=
| RReserve (size : Z) | RPublish (st : Z) (i : nat) (key : Z) | RAbort (st : Z) (i : nat)
| RRemove (off : Z) | RFlush.

Definition exec (r : RegionState) (o : op) : outcome (res (option (Z * nat * Z)) * RegionState) :=
  match o with
  | RReserve size =>
      '(x, r) ← alloc_extent r size;
      match x with Ok y => Ret (Ok (Some y), r) | Err e => Ret (Err e, r) end
  | RPublish st i key => r ← publish_slot r st i key; Ret (Ok None, r)
  | RAbort st i => r ← free_slot r st i; Ret (Ok None, r)
  | RRemove off =>
      '(x, r) ← remove_extent_by_offset r off;
      match x with Ok _ => Ret (Ok None, r) | Err e => Ret (Err e, r) end
  | RFlush => r ← flush_pending_frees r; Ret (Ok None, r)
  end.

Abbreviation slots := (Z → nat → option estate).

Definition upd (a : slots) (st : Z) (i : nat) (x : option estate) : slots :=
  λ st' i', if decide (st' = st ∧ i' = i) then x else a st' i'.

(** [at_off st i off]: slot [i] of the slab at [st] starts at byte [off]. *)
Inductive abs_step (at_off : Z → nat → Z → Prop) (a : slots) :
    op → res (option (Z * nat * Z)) → slots → Prop :=
| SReserve size st i off : a st i = None →
    abs_step at_off a (RReserve size) (Ok (Some (st, i, off))) (upd a st i (Some Reserved))
| SReserveFull size : abs_step at_off a (RReserve size) (Err OutOfSpace) a
| SPublish st i key : a st i = Some Reserved →
    abs_step at_off a (RPublish st i key) (Ok None) (upd a st i (Some (Published key)))
| SAbort st i : a st i = Some Reserved →
    abs_step at_off a (RAbort st i) (Ok None) (upd a st i None)
| SRemove off st i key : at_off st i off → a st i = Some (Published key) →
    abs_step at_off a (RRemove off) (Ok None) (upd a st i (Some Pending))
| SRemoveNone off : (∀ st i key, at_off st i off → a st i ≠ Some (Published key)) →
    abs_step at_off a (RRemove off) (Err (OffsetNotFound off)) a
| SFlush :
    abs_step at_off a RFlush (Ok None)
      (λ st i, if decide (a st i = Some Pending) then None else a st i).

(** A write handle is used once, on the slot it reserved, and the key of a
    published extent is not the free marker. *)
Definition op_ok (r : RegionState) (o : op) : Prop :=
  match o with
  | RReserve size => 0 < size ∧ size + 2 ^ k < 2 ^ 32
  | RPublish st i key => slot_state r st i = Some Reserved ∧ key ≠ FREE_KEY
  | RAbort st i => slot_state r st i = Some Reserved
  | RRemove _ | RFlush => True
  end.

(** C15. A region implements the abstract slot table: from a well-formed region
    every permitted call returns without a panic, leaves a well-formed region,
    and moves exactly the slots the abstract step moves. In particular a removed
    extent stays allocated until the flush after the next checkpoint, so nothing
    can overwrite it while the last durable checkpoint still names it. *)
Theorem region_refines r o :
  ok r → op_ok r o →
  ∃ x r' a', exec r o = Ret (x, r') ∧ ok r' ∧
    abs_step (λ st i off, ∃ e, extent_at r st i off e) (slot_state r) o x a' ∧
    ∀ st i, slot_state r' st i = a' st i.
Proof.
  intros O V. destruct o as [size|st i key|st i|off|]; simpl in *.
  - destruct V as [V1 V2]. destruct (alloc_extent_spec r size O V1 V2)
      as [(st & i & off & r' & -> & O' & _ & Hn & U & _)|(r' & -> & O' & _ & Un & _)];
      eexists _, r', _; (split; [done|]); (split; [done|]); (split; [by constructor|]); done.
  - destruct V as [V1 V2]. destruct (publish_slot_spec r st i key O V1 V2) as (r' & -> & O' & _ & U & _).
    eexists _, r', _. split; [done|]. split; [done|]. split; [by constructor|]. done.
  - destruct (region_free_slot_spec r st i Reserved O V ltac:(done)) as (r' & -> & O' & _ & U & _).
    eexists _, r', _. split; [done|]. split; [done|]. split; [by constructor|]. done.
  - destruct (remove_extent_spec r off O)
      as [(st & i & e & key & r' & X & Hs & -> & O' & _ & U & _)|[-> Hno]];
      eexists _, _, _; (split; [done|]); (split; [done|]).
    + split; [by eapply SRemove; eauto|]. done.
    + split; [constructor|done]. intros st i key [e X]. by eapply Hno.
  - destruct (flush_spec r O) as (r' & -> & O' & _ & _ & _ & U).
    eexists _, r', _. split; [done|]. split; [done|]. split; [by constructor|]. done.
Qed.

(** Extents never overlap: two allocated slots of a region own disjoint
    byte ranges inside the region's share of the disk. *)
Theorem region_no_overlap r st i off e st' i' off' e' :
  ok r → extent_at r st i off e → extent_at r st' i' off' e' → (st, i) ≠ (st', i') →
  (off + e ≤ off' ∨ off' + e' ≤ off) ∧
  Buddy.base_offset (buddy r) ≤ off ∧
  off + e ≤ Buddy.base_offset (buddy r) + Buddy.total_usable_size (buddy r).
Proof.
  intros O X X' Hne. pose proof (ok_base _ O) as Ob. split; [by eapply extents_disjoint|].
  destruct (extent_inside_slab _ _ _ _ _ Ob X) as (s & Hin & ? & ? & ?).
  pose proof (slab_inside _ _ _ Ob Hin). lia.
Qed.

(** A reservation is refused only when there is no room: every slab of the
    request's size class is full, and the region has no free aligned block for a
    new slab (or the request is larger than a slab). A granted reservation holds
    the request and wastes less than one sector. *)
Theorem region_alloc_extent r size :
  ok r → 0 < size → size + 2 ^ k < 2 ^ 32 →
  (∃ st i off r', alloc_extent r size = Ret (Ok (st, i, off), r') ∧ ok r' ∧
     slot_state r st i = None ∧ slot_state r' st i = Some Reserved ∧
     ∃ e, extent_at r' st i off e ∧ size ≤ e < size + 2 ^ k) ∨
  (∃ r', alloc_extent r size = Ret (Err OutOfSpace, r') ∧ ok r' ∧ unchanged r r' ∧
     (∀ st s, (st, s) ∈ slabs r → element_size s = elem size → is_full s = true) ∧
     (fp_slab_size (format_params r) < elem size ∨
      let o := Buddy.order_for k (fp_slab_size (format_params r)) in
      ∀ x, (Buddy.sp k o | x) → 0 ≤ x → x + Buddy.sp k o ≤ Buddy.usable (buddy r) →
           ¬ Buddy.all_free k (Buddy.flat (Buddy.free_lists (buddy r))) o x)).
Proof.
  intros O H0 H1. pose proof (elem_bounds size H0) as (He & _).
  destruct (alloc_extent_spec r size O H0 H1)
    as [(st & i & off & r' & E & O' & _ & Hn & U & X & _)|(r' & E & O' & _ & Un & _ & Hfull & Hno)]; [left|right].
  - exists st, i, off, r'. split_and!; [done..| |eauto]. by rewrite U, decide_True.
  - exists r'. split_and!; [done..|]. destruct Hno as [?|Hno]; [by left|right]. simpl.
    pose proof (p_slab _ (ok_params _ (ok_base _ O))) as [? _].
    apply Buddy.alloc_none_iff; [done|apply (ok_buddy _ (ok_base _ O))|lia|done].
Qed.

(** A reservation of zero bytes is not refused: it takes a block from the
    buddy allocator and then divides by the zero element size, a panic with the
    block lost. *)
Theorem region_zero_size_panics r a b :
  ok r → Buddy.alloc (buddy r) (fp_slab_size (format_params r)) = Ret (Some a, b) →
  alloc_extent r 0 = Panic.
Proof.
  intros O E. pose proof pow_k. pose proof (p_sector _ (ok_params _ (ok_base _ O))) as Es.
  pose proof (p_slab _ (ok_params _ (ok_base _ O))) as [? _].
  pose proof (Buddy.p_small _ _ (Buddy.ok_params _ _ (Buddy.parts_ok _ _ _ (ok_buddy _ (ok_base _ O))))).
  assert (2 ^ k < 2 ^ 32) by (apply Z.pow_lt_mono_r; lia).
  unfold alloc_extent, align_to_sector_size. rewrite Es.
  rewrite add_w_Ret by lia. simpl. rewrite sub_w_Ret by lia. simpl.
  rewrite div_w_Ret by lia. rewrite bind_Ret_l, (Z.div_small (0 + 2 ^ k - 1)) by lia.
  rewrite mul_w_Ret, Z.mul_0_l, bind_Ret_l by lia.
  assert (get_slabs (size_classes r) 0 = []) as Hnil.
  { destruct (get_slabs (size_classes r) 0) as [|st l] eqn:El; [done|].
    destruct (c_listed _ (ok_classes _ O) 0 st) as (s & Hin & He); [rewrite El; by left|].
    pose proof (s_elem _ _ _ (ok_slabs _ (ok_base _ O) _ _ Hin)). lia. }
  rewrite Hnil. cbn [length class_loop]. rewrite Hnil, bind_Ret_l. cbn beta iota.
  destruct (Z.ltb_spec (fp_slab_size (format_params r)) 0); [lia|]. by rewrite E.
Qed.

End invariant.

(** * A region of five sectors with two-sector slabs *)

Definition sample_params : FormatParams := mkParams 20480 8192 8192 4096 1 0 None 1 0.
Definition sample0 : RegionState := new Buddy.five sample_params.
Definition region_of {A} (c : outcome (A * RegionState)) : RegionState :=
  match c with Ret (_, r) => r | Panic => sample0 end.
Definition sample1 : RegionState := region_of (alloc_extent sample0 100).
Definition sample2 : RegionState := region_of (alloc_extent sample1 4096).

Lemma sample0_ok : ok 12 sample0.
Proof.
  destruct (region_new_ok 12 ltac:(lia) Buddy.five sample_params) as [O _]; [..|exact O].
  - split; simpl; [done|split; [lia|by exists 2]|done].
  - eapply (Buddy.buddy_run_parts 12 ltac:(lia) 8192 20480); [lia..|].
    apply Buddy.run_new. apply Buddy.five_new.
Qed.

Lemma reserve_ok r size :
  ok 12 r → 0 < size → size + 4096 < 2 ^ 32 →
  ok 12 (region_of (alloc_extent r size)).
Proof.
  intros O H0 H1.
  destruct (alloc_extent_spec 12 ltac:(lia) r size O H0 H1)
    as [(st & i & off & r' & -> & O' & _)|(r' & -> & O' & _)]; done.
Qed.

Lemma sample1_ok : ok 12 sample1.
Proof. apply reserve_ok; [apply sample0_ok|lia|lia]. Qed.

Lemma sample2_ok : ok 12 sample2.
Proof. apply reserve_ok; [apply sample1_ok|lia|lia]. Qed.

Lemma region_refines_witness : ∃ x r', exec sample1 (RPublish 8192 0 77) = Ret (x, r') ∧ ok 12 r'.
Proof.
  destruct (region_refines 12 ltac:(lia) sample1 (RPublish 8192 0 77) sample1_ok)
    as (x & r' & a' & E & O & _).
  - split; [vm_compute; reflexivity|done].
  - exists x, r'. split; [exact E|exact O].
Defined.


Lemma region_alloc_extent_witness :
  ∃ x, alloc_extent sample1 4096 = Ret (Ok x, sample2) ∨ alloc_extent sample1 4096 = Ret (Err OutOfSpace, sample2).
Proof.
  destruct (region_alloc_extent 12 ltac:(lia) sample1 4096 sample1_ok ltac:(lia) ltac:(lia))
    as [(st & i & off & r' & E & _)|(r' & E & _)].
  - exists (st, i, off). left. unfold sample2. rewrite E. reflexivity.
  - exists (0, 0%nat, 0). right. unfold sample2. rewrite E. reflexivity.
Defined.

Lemma region_zero_size_panics_witness : alloc_extent sample0 0 = Panic.
Proof.
  eapply (region_zero_size_panics 12 ltac:(lia) sample0); [apply sample0_ok|].
  vm_compute. reflexivity.
Defined.

End Region.
