(* ===== verification/Bytes.v ===== *)
(** Reading and writing little-endian fields of byte buffers, shared by the
    on-disk formats of the extent manager and of the metadata store. *)

From S2P Require Import Prelude.

(** * Byte readers *)

Section readers.
Local Open Scope Z_scope.

(** [uN::from_le_bytes(buf[pos..pos + n])]. *)
Definition rd (n pos : nat) (buf : list Z) : Z := from_le_bytes (take n (drop pos buf)).

Lemma rd_app_skip n pos a b :
  length a = pos → rd n pos (a ++ b) = rd n 0 b.
Proof. intros <-. unfold rd. by rewrite drop_app_length. Qed.

Lemma rd_le n m x b :
  0 ≤ m → Z.to_nat m = n → is_u (m * 8) x → rd n 0 (to_le_bytes m x ++ b) = x.
Proof.
  intros Hm Hn Hx. unfold rd. simpl. rewrite drop_0, take_app_le.
  - rewrite take_ge, from_to_le_bytes by (rewrite ?length_to_le_bytes; lia || done). done.
  - rewrite length_to_le_bytes; lia.
Qed.

(** Skipping a field in front of the one being read. *)
Lemma rd_skip_le n pos m x b :
  0 ≤ m → (Z.to_nat m ≤ pos)%nat →
  rd n pos (to_le_bytes m x ++ b) = rd n (pos - Z.to_nat m) b.
Proof.
  intros Hm Hp. unfold rd. rewrite drop_app_ge by (rewrite length_to_le_bytes; lia).
  by rewrite length_to_le_bytes by lia.
Qed.

Lemma rd_skip_list n pos l b :
  (length l ≤ pos)%nat → rd n pos (l ++ b) = rd n (pos - length l) b.
Proof. intros Hp. unfold rd. by rewrite drop_app_ge. Qed.
End readers.

(** Read a field of a concatenation of fields. *)
Ltac read_field :=
  repeat (
    (rewrite rd_skip_le by (vm_compute; lia || done) || rewrite rd_skip_list by (vm_compute; lia || done));
    match goal with |- context [rd ?n (?a - ?b) ?l] =>
      let c := eval vm_compute in (a - b)%nat in change (rd n (a - b) l) with (rd n c l)
    end);
  apply rd_le; [done|reflexivity|try assumption].
