(* ===== verification/Checkpoint.v ===== *)
(** Durable metadata of the extent manager: the superblock
    ([components/extent-manager/src/superblock.rs]), sector I/O
    ([block_io.rs]) and the checkpoint codec ([checkpoint.rs]).

    The checksum is a parameter: nothing but its range is used. *)

From S2P Require Import Prelude Bytes Slab Buddy Region.

(** * The superblock *)

Module Superblock.
Local Open Scope Z_scope.

Definition SUPERBLOCK_SIZE : nat := 4096.
Definition SUPERBLOCK_MAGIC : Z := 0x4345525455535634.
Definition FORMAT_VERSION : Z := 6.

Record Superblock := mkSb {
  magic : Z;
  version : Z;
  data_disk_size : Z;
  sector_size : Z;
  slab_size : Z;
  max_extent_size : Z;
  region_count : Z;
  checkpoint_seq : Z;
  active_copy : Z;
  checkpoint_region_offset : Z;
  checkpoint_region_size : Z;
  instance_id : Z;
  metadata_disk_ns_id : Z;
  data_start_offset : Z
}.

Definition new (data_disk_size sector_size slab_size max_extent_size region_count
    checkpoint_region_offset checkpoint_region_size instance_id metadata_disk_ns_id
    data_start_offset : Z) : Superblock :=
  mkSb SUPERBLOCK_MAGIC FORMAT_VERSION data_disk_size sector_size slab_size max_extent_size
    region_count 0 0 checkpoint_region_offset checkpoint_region_size instance_id
    metadata_disk_ns_id data_start_offset.

Section crc.
Context (crc32 : list Z → Z).

(** The 92 bytes the checksum covers, in order. *)
Definition fields (s : Superblock) : list Z :=
  to_le_bytes 8 (magic s) ++ to_le_bytes 4 (version s) ++ to_le_bytes 8 (data_disk_size s) ++
  to_le_bytes 4 (sector_size s) ++ to_le_bytes 8 (slab_size s) ++
  to_le_bytes 4 (max_extent_size s) ++ to_le_bytes 4 (region_count s) ++
  to_le_bytes 8 (checkpoint_seq s) ++ [active_copy s] ++ replicate 7 0 ++
  to_le_bytes 8 (checkpoint_region_offset s) ++ to_le_bytes 8 (checkpoint_region_size s) ++
  to_le_bytes 8 (instance_id s) ++ to_le_bytes 4 (metadata_disk_ns_id s) ++
  to_le_bytes 8 (data_start_offset s).

Definition serialize (s : Superblock) : list Z :=
  let f := fields s in
  f ++ to_le_bytes 4 (crc32 f) ++ replicate (SUPERBLOCK_SIZE - 96) 0.

Definition deserialize (buf : list Z) : result Superblock Region.ExtentManagerError :=
  if (length buf <? SUPERBLOCK_SIZE)%nat then Err Region.CorruptMetadata
  else
    let magic := rd 8 0 buf in
    if negb (magic =? SUPERBLOCK_MAGIC) then Err Region.CorruptMetadata
    else
      let stored_crc := rd 4 92 buf in
      let computed_crc := crc32 (take 92 buf) in
      if negb (stored_crc =? computed_crc) then Err Region.CorruptMetadata
      else Ok (mkSb magic (rd 4 8 buf) (rd 8 12 buf) (rd 4 20 buf) (rd 8 24 buf) (rd 4 32 buf)
                 (rd 4 36 buf) (rd 8 40 buf) (default 0 (buf !! 48%nat)) (rd 8 56 buf)
                 (rd 8 64 buf) (rd 8 72 buf) (rd 4 80 buf) (rd 8 84 buf)).

(** Every field fits its width and the magic is right. *)
Record ok (s : Superblock) : Prop := {
  ok_magic : magic s = SUPERBLOCK_MAGIC;
  ok_u32 : is_u 32 (version s) ∧ is_u 32 (sector_size s) ∧ is_u 32 (max_extent_size s) ∧
           is_u 32 (region_count s) ∧ is_u 32 (metadata_disk_ns_id s);
  ok_u64 : is_u 64 (data_disk_size s) ∧ is_u 64 (slab_size s) ∧ is_u 64 (checkpoint_seq s) ∧
           is_u 64 (checkpoint_region_offset s) ∧ is_u 64 (checkpoint_region_size s) ∧
           is_u 64 (instance_id s) ∧ is_u 64 (data_start_offset s);
  ok_copy : active_copy s = 0 ∨ active_copy s = 1
}.

Lemma length_fields s : length (fields s) = 92%nat.
Proof. unfold fields. rewrite !length_app, !length_to_le_bytes by lia. done. Qed.

Lemma length_serialize s : length (serialize s) = 4096%nat.
Proof. unfold serialize. rewrite !length_app, length_fields, length_to_le_bytes by lia. done. Qed.

(** The superblock round trip. *)
Lemma deserialize_serialize s :
  (∀ l, is_u 32 (crc32 l)) → ok s → deserialize (serialize s) = Ok s.
Proof.
  intros Hcrc [Hm (U1 & U2 & U3 & U4 & U5) (V1 & V2 & V3 & V4 & V5 & V6 & V7) _].
  assert (is_u (8 * 8) (magic s)) as Vm by (rewrite Hm; split; vm_compute; done).
  pose proof (Hcrc (fields s)) as Uc.
  unfold deserialize. rewrite length_serialize.
  assert (take 92 (serialize s) = fields s) as Ht.
  { unfold serialize. rewrite take_app_le by (rewrite length_fields; lia).
    apply take_ge. rewrite length_fields. lia. }
  assert (rd 4 92 (serialize s) = crc32 (fields s)) as Hc.
  { unfold serialize. rewrite rd_app_skip by apply length_fields. by rewrite rd_le. }
  rewrite Ht, Hc, Z.eqb_refl.
  assert (serialize s !! 48%nat = Some (active_copy s)) as Ha.
  { unfold serialize, fields. rewrite <- !app_assoc.
    do 8 (rewrite lookup_app_r by (rewrite length_to_le_bytes; lia);
          rewrite length_to_le_bytes by lia). done. }
  assert (∀ T, let b := fields s ++ T in
    rd 8 0 b = magic s ∧ rd 4 8 b = version s ∧ rd 8 12 b = data_disk_size s ∧
    rd 4 20 b = sector_size s ∧ rd 8 24 b = slab_size s ∧ rd 4 32 b = max_extent_size s ∧
    rd 4 36 b = region_count s ∧ rd 8 40 b = checkpoint_seq s ∧
    rd 8 56 b = checkpoint_region_offset s ∧ rd 8 64 b = checkpoint_region_size s ∧
    rd 8 72 b = instance_id s ∧ rd 4 80 b = metadata_disk_ns_id s ∧
    rd 8 84 b = data_start_offset s) as Hrd.
  { intros T b. unfold b, fields. rewrite <- !app_assoc. split_and!; read_field. }
  rewrite Ha. unfold serialize in *. destruct (Hrd (to_le_bytes 4 (crc32 (fields s)) ++ replicate (SUPERBLOCK_SIZE - 96) 0))
    as (-> & -> & -> & -> & -> & -> & -> & -> & -> & -> & -> & -> & ->).
  rewrite Hm, Z.eqb_refl. rewrite <- Hm. by destruct s.
Qed.

(** The superblock round trip: the 4096 bytes [serialize] writes are read
    back as the same superblock, every field at its offset and width; and the
    checksum is what is compared, so that a block whose stored checksum is not that
    of its first 92 bytes is refused. *)
Theorem superblock_round_trip s :
  (∀ l, is_u 32 (crc32 l)) → ok s →
  length (serialize s) = SUPERBLOCK_SIZE ∧ deserialize (serialize s) = Ok s ∧
  ∀ buf, rd 4 92 buf ≠ crc32 (take 92 buf) → deserialize buf = Err Region.CorruptMetadata.
Proof.
  intros Hcrc O. split_and!; [apply length_serialize|by apply deserialize_serialize|].
  intros buf Hne. unfold deserialize. destruct (length buf <? SUPERBLOCK_SIZE)%nat; [done|].
  destruct (negb _); [done|]. by rewrite (proj2 (Z.eqb_neq _ _) Hne).
Qed.

End crc.

Lemma superblock_round_trip_witness :
  let s := new 20480 4096 8192 8192 1 4096 8192 7 1 0 in
  deserialize (λ _, 5) (serialize (λ _, 5) s) = Ok s.
Proof.
  intros s. apply (superblock_round_trip (λ _, 5) s).
  - intros _. split; vm_compute; congruence.
  - split; [done|..]; [split_and!; split; vm_compute; congruence..|by left].
Defined.

End Superblock.

(** * The checkpoint payload *)

Module Codec.
Import Slab Region.
Local Open Scope Z_scope.

Definition SLAB_HEADER_SIZE : nat := 24.

Definition serialize_slab (s : Slab) : outcome (list Z) :=
  ks ← mapM (get_key s) (seq 0 (num_slots s));
  Ret (to_le_bytes 8 (start_offset s) ++ to_le_bytes 8 (slab_size s) ++
       to_le_bytes 4 (element_size s) ++ to_le_bytes 4 (Z.of_nat (num_slots s)) ++
       concat (to_le_bytes 8 <$> ks)).

Definition serialize_region (r : RegionState) : outcome (list Z) :=
  body ← mapM (λ p, serialize_slab p.2) (slabs r);
  Ret (to_le_bytes 4 (Z.of_nat (as_u32 (length (slabs r)))) ++ concat body).

(** The payload: the region count, then each region. *)
Definition serialize_regions (rs : list RegionState) : outcome (list Z) :=
  body ← mapM serialize_region rs;
  Ret (to_le_bytes 4 (Z.of_nat (as_u32 (length rs))) ++ concat body).

Record SlabDescriptor := mkDesc {
  d_start_offset : Z;
  d_slab_size : Z;
  d_element_size : Z;
  d_keys : list Z
}.

Abbreviation res A := (result A ExtentManagerError).

Fixpoint read_keys (n : nat) (data : list Z) : list Z * list Z :=
  match n with
  | O => ([], data)
  | S n => let '(ks, rest) := read_keys n (drop 8 data) in (rd 8 0 data :: ks, rest)
  end.

(** [data] is the rest of the payload, from [pos] on. *)
Fixpoint read_slabs (n : nat) (data : list Z) : res (list SlabDescriptor * list Z) :=
  match n with
  | O => Ok ([], data)
  | S n =>
      if (length data <? SLAB_HEADER_SIZE)%nat then Err CorruptMetadata
      else
        let start_offset := rd 8 0 data in
        let slab_size := rd 8 8 data in
        let element_size := rd 4 16 data in
        let num_slots := Z.to_nat (rd 4 20 data) in
        let data := drop SLAB_HEADER_SIZE data in
        if (length data <? num_slots * 8)%nat then Err CorruptMetadata
        else
          let '(keys, data) := read_keys num_slots data in
          match read_slabs n data with
          | Err e => Err e
          | Ok (ds, rest) => Ok (mkDesc start_offset slab_size element_size keys :: ds, rest)
          end
  end.

Fixpoint read_regions (n : nat) (data : list Z) : res (list (list SlabDescriptor) * list Z) :=
  match n with
  | O => Ok ([], data)
  | S n =>
      if (length data <? 4)%nat then Err CorruptMetadata
      else
        match read_slabs (Z.to_nat (rd 4 0 data)) (drop 4 data) with
        | Err e => Err e
        | Ok (ds, data) =>
            match read_regions n data with
            | Err e => Err e
            | Ok (rs, rest) => Ok (ds :: rs, rest)
            end
        end
  end.

Definition deserialize_slabs (data : list Z) : res (list (list SlabDescriptor)) :=
  if (length data <? 4)%nat then Err CorruptMetadata
  else match read_regions (Z.to_nat (rd 4 0 data)) (drop 4 data) with
       | Err e => Err e
       | Ok (rs, _) => Ok rs
       end.

(** ** Round trip *)

Definition desc_of (s : Slab) : SlabDescriptor :=
  mkDesc (start_offset s) (slab_size s) (element_size s) (keys s).

Record slab_wf (s : Slab) : Prop := {
  w_u64 : is_u 64 (start_offset s) ∧ is_u 64 (slab_size s);
  w_u32 : is_u 32 (element_size s) ∧ Z.of_nat (num_slots s) < 2 ^ 32;
  w_len : length (keys s) = num_slots s;
  w_keys : Forall (is_u 64) (keys s)
}.

Definition slab_bytes (s : Slab) : list Z :=
  to_le_bytes 8 (start_offset s) ++ to_le_bytes 8 (slab_size s) ++
  to_le_bytes 4 (element_size s) ++ to_le_bytes 4 (Z.of_nat (num_slots s)) ++
  concat (to_le_bytes 8 <$> keys s).

Lemma mapM_get {A} (v : list A) :
  mapM (M:=outcome) (vec_get v) (seq 0 (length v)) = Ret v.
Proof.
  assert (∀ pre post : list A,
    mapM (M:=outcome) (vec_get (pre ++ post)) (seq (length pre) (length post)) = Ret post) as H.
  { intros pre post. revert pre. induction post as [|x post IH]; intros pre; [done|]. simpl.
    assert (vec_get (pre ++ x :: post) (length pre) = Ret x) as ->
      by (apply vec_get_Ret; by apply list_lookup_middle). simpl.
    specialize (IH (pre ++ [x])). rewrite <- app_assoc, length_app in IH. simpl in IH.
    rewrite Nat.add_1_r in IH. by rewrite IH. }
  apply (H [] v).
Qed.

Lemma mapM_Ret {A B} (f : A → outcome B) (g : A → B) l :
  Forall (λ x, f x = Ret (g x)) l → mapM (M:=outcome) f l = Ret (g <$> l).
Proof. induction 1 as [|x l Hx _ IH]; simpl; [done|]. by rewrite Hx, IH. Qed.

Lemma serialize_slab_spec s : slab_wf s → serialize_slab s = Ret (slab_bytes s).
Proof.
  intros W. unfold serialize_slab, get_key. rewrite <- (w_len _ W), mapM_get. simpl.
  unfold slab_bytes. by rewrite <- (w_len _ W).
Qed.

Lemma read_keys_spec ks rest :
  Forall (is_u 64) ks → read_keys (length ks) (concat (to_le_bytes 8 <$> ks) ++ rest) = (ks, rest).
Proof.
  induction 1 as [|k ks Hk _ IH]; [done|]. cbn [fmap list_fmap concat length read_keys].
  rewrite <- app_assoc.
  rewrite drop_app_length' by (by rewrite length_to_le_bytes). rewrite IH.
  by rewrite rd_le.
Qed.

Lemma length_concat_keys ks : length (concat (to_le_bytes 8 <$> ks)) = (length ks * 8)%nat.
Proof.
  induction ks as [|k ks IH]; [done|]. cbn [fmap list_fmap concat length].
  rewrite length_app, IH, length_to_le_bytes by lia. lia.
Qed.

Lemma read_slabs_spec ss rest :
  Forall slab_wf ss →
  read_slabs (length ss) (concat (slab_bytes <$> ss) ++ rest) = Ok (desc_of <$> ss, rest).
Proof.
  induction 1 as [|s ss W _ IH]; [done|]. cbn [fmap list_fmap concat length read_slabs].
  destruct W as [[W1 W2] [W3 W4] W5 W6].
  set (K := concat (to_le_bytes 8 <$> keys s) ++ concat (slab_bytes <$> ss) ++ rest).
  assert (is_u (4 * 8) (Z.of_nat (num_slots s))) as W4' by (split; lia).
  replace ((slab_bytes s ++ concat (slab_bytes <$> ss)) ++ rest) with
    (to_le_bytes 8 (start_offset s) ++ to_le_bytes 8 (slab_size s) ++
     to_le_bytes 4 (element_size s) ++ to_le_bytes 4 (Z.of_nat (num_slots s)) ++ K)
    by (unfold slab_bytes, K; by rewrite <- !app_assoc).
  set (D := to_le_bytes 8 (start_offset s) ++ _).
  assert (rd 8 0 D = start_offset s ∧ rd 8 8 D = slab_size s ∧ rd 4 16 D = element_size s ∧
          rd 4 20 D = Z.of_nat (num_slots s)) as (-> & -> & -> & ->)
    by (unfold D; split_and!; read_field).
  assert (drop SLAB_HEADER_SIZE D = K ∧ length D = (24 + length K)%nat) as [-> ->].
  { unfold D. rewrite !app_assoc. rewrite drop_app_length'.
    - split; [done|]. rewrite !length_app, !length_to_le_bytes by lia. done.
    - rewrite !length_app, !length_to_le_bytes by lia. done. }
  rewrite (proj2 (Nat.ltb_ge _ _)) by (unfold SLAB_HEADER_SIZE; lia). rewrite Nat2Z.id, <- W5.
  assert (length (keys s) * 8 ≤ length K)%nat as HK.
  { unfold K. rewrite length_app, length_concat_keys. lia. }
  rewrite (proj2 (Nat.ltb_ge _ _)) by done. unfold K. rewrite read_keys_spec by done.
  by rewrite IH.
Qed.

Definition region_wf (r : RegionState) : Prop :=
  Forall (λ p, slab_wf p.2) (slabs r) ∧ Z.of_nat (length (slabs r)) < 2 ^ 32.

Definition region_bytes (r : RegionState) : list Z :=
  to_le_bytes 4 (Z.of_nat (length (slabs r))) ++ concat (slab_bytes <$> (slabs r).*2).

(** What a checkpoint records of a region. *)
Definition descs (r : RegionState) : list SlabDescriptor := desc_of <$> (slabs r).*2.

Lemma serialize_region_spec r : region_wf r → serialize_region r = Ret (region_bytes r).
Proof.
  intros [W Hl]. unfold serialize_region, region_bytes.
  rewrite (mapM_Ret _ (λ p, slab_bytes p.2)).
  - simpl. rewrite as_u32_small by done. by rewrite <- list_fmap_compose.
  - eapply Forall_impl; [exact W|]. intros p. apply serialize_slab_spec.
Qed.

(** A count in front of what it counts. *)
Lemma u32_header x B :
  is_u 32 x → let D := to_le_bytes 4 x ++ B in
  (length D <? 4)%nat = false ∧ rd 4 0 D = x ∧ drop 4 D = B.
Proof.
  intros Hx D. unfold D. split_and!.
  - apply Nat.ltb_ge. rewrite length_app, length_to_le_bytes by lia. lia.
  - by apply rd_le.
  - apply drop_app_length'. by rewrite length_to_le_bytes.
Qed.

Lemma read_regions_spec rs rest :
  Forall region_wf rs →
  read_regions (length rs) (concat (region_bytes <$> rs) ++ rest) = Ok (descs <$> rs, rest).
Proof.
  induction 1 as [|r rs [W Hl] _ IH]; [done|]. cbn [fmap list_fmap concat length read_regions].
  set (K := concat (slab_bytes <$> (slabs r).*2) ++ concat (region_bytes <$> rs) ++ rest).
  replace ((region_bytes r ++ concat (region_bytes <$> rs)) ++ rest)
    with (to_le_bytes 4 (Z.of_nat (length (slabs r))) ++ K)
    by (unfold region_bytes at 2, K; by rewrite <- !app_assoc).
  destruct (u32_header (Z.of_nat (length (slabs r))) K) as (-> & -> & ->); [split; lia|].
  rewrite Nat2Z.id. unfold K. rewrite <- (length_fmap snd (slabs r)).
  rewrite read_slabs_spec by (by apply Forall_fmap). by rewrite IH.
Qed.

(** The payload of well-formed regions. *)
Definition payload (rs : list RegionState) : list Z :=
  to_le_bytes 4 (Z.of_nat (length rs)) ++ concat (region_bytes <$> rs).

Lemma serialize_regions_spec rs :
  Forall region_wf rs → Z.of_nat (length rs) < 2 ^ 32 → serialize_regions rs = Ret (payload rs).
Proof.
  intros W Hl. unfold serialize_regions, payload.
  rewrite (mapM_Ret _ region_bytes).
  - simpl. by rewrite as_u32_small.
  - eapply Forall_impl; [exact W|]. apply serialize_region_spec.
Qed.

Lemma deserialize_payload rs :
  Forall region_wf rs → Z.of_nat (length rs) < 2 ^ 32 →
  deserialize_slabs (payload rs) = Ok (descs <$> rs).
Proof.
  intros W Hl. unfold deserialize_slabs, payload.
  destruct (u32_header (Z.of_nat (length rs)) (concat (region_bytes <$> rs))) as (-> & -> & ->); [split; lia|].
  rewrite Nat2Z.id, <- (app_nil_r (concat _)). by rewrite read_regions_spec.
Qed.

(** C32. The checkpoint codec round trip: serialising well-formed regions does
    not panic, and decoding the payload gives, region by region and slab by slab in
    order, the offset, size, element size and every key. *)
Theorem checkpoint_codec_round_trip rs :
  Forall region_wf rs → Z.of_nat (length rs) < 2 ^ 32 →
  ∃ p, serialize_regions rs = Ret p ∧ deserialize_slabs p = Ok (descs <$> rs).
Proof.
  intros W Hl. exists (payload rs). split; [by apply serialize_regions_spec|by apply deserialize_payload].
Qed.

Lemma checkpoint_codec_round_trip_witness :
  ∃ p, serialize_regions [sample2; sample0] = Ret p ∧ deserialize_slabs p = Ok [descs sample2; []].
Proof.
  apply (checkpoint_codec_round_trip [sample2; sample0]); [|done].
  repeat apply Forall_cons_2; [..|constructor]; (split; [|vm_compute; done]); vm_compute;
    repeat constructor; vm_compute; congruence.
Defined.

End Codec.

(** * Sector I/O

    A device is a map from LBAs to sectors; an unreadable sector is [None]. A
    sector write is atomic. [budget] is the number of sector writes the device
    completes before it fails: the call that exhausts it returns [IoError], and
    the same value describes a power loss after that many writes. *)

Module Device.
Import Region.

Record client := mkClient { sector_size : nat; base_lba : Z }.

Definition Disk : Type := Z → option (list Z).

Definition disk_set (d : Disk) (lba : Z) (sector : list Z) : Disk :=
  λ l, if decide (l = lba) then Some sector else d l.

Abbreviation res A := (result A ExtentManagerError).

Definition num_blocks (c : client) (n : nat) : nat := (n + sector_size c - 1) / sector_size c.

(** Sector [i] of the zero-padded buffer. *)
Definition block (c : client) (buf : list Z) (i : nat) : list Z :=
  take (sector_size c) (drop (i * sector_size c) buf).

Definition pad (c : client) (data : list Z) : list Z :=
  data ++ replicate (num_blocks c (length data) * sector_size c - length data) 0%Z.

(** [for i in 0..num_blocks], from [i] with [m] rounds left. *)
Fixpoint write_loop (c : client) (budget : nat) (d : Disk) (lba : Z) (buf : list Z) (i m : nat)
    {struct m} : res unit * Disk * nat :=
  match m with
  | O => (Ok (), d, budget)
  | S m =>
      match budget with
      | O => (Err IoError, d, O)
      | S budget =>
          write_loop c budget (disk_set d (base_lba c + lba + Z.of_nat i) (block c buf i)) lba buf (S i) m
      end
  end.

Definition write_blocks (c : client) (budget : nat) (d : Disk) (lba : Z) (data : list Z) :
    res unit * Disk * nat :=
  write_loop c budget d lba (pad c data) 0 (num_blocks c (length data)).

Fixpoint read_loop (c : client) (d : Disk) (lba : Z) (num_bytes : nat) (result : list Z) (i m : nat) :
    res (list Z) :=
  match m with
  | O => Ok result
  | S m =>
      match d (base_lba c + lba + Z.of_nat i)%Z with
      | None => Err IoError
      | Some s =>
          let remaining := num_bytes - length result in
          let to_copy := min remaining (sector_size c) in
          read_loop c d lba num_bytes (result ++ take to_copy s) (S i) m
      end
  end.

Definition read_blocks (c : client) (d : Disk) (lba : Z) (num_bytes : nat) : res (list Z) :=
  read_loop c d lba num_bytes [] 0 (num_blocks c num_bytes).

(** ** Reading back what was written *)

(** The sectors from [lba] on hold the zero-padded [data]. *)
Definition holds_data (c : client) (d : Disk) (lba : Z) (data : list Z) : Prop :=
  ∀ i, i < num_blocks c (length data) →
    d (base_lba c + lba + Z.of_nat i)%Z = Some (block c (pad c data) i).

Section io.
Context (c : client) (Hss : 0 < sector_size c).
#[local] Arguments Nat.div : simpl never.
#[local] Arguments Nat.modulo : simpl never.

Lemma num_blocks_bounds n :
  n ≤ num_blocks c n * sector_size c < n + sector_size c.
Proof.
  unfold num_blocks. pose proof (Nat.div_mod_eq (n + sector_size c - 1) (sector_size c)).
  pose proof (Nat.mod_upper_bound (n + sector_size c - 1) (sector_size c)). lia.
Qed.

Lemma num_blocks_mono n n' : n ≤ n' → num_blocks c n ≤ num_blocks c n'.
Proof. intros H. unfold num_blocks. apply Nat.Div0.div_le_mono. lia. Qed.

Lemma num_blocks_mul n : num_blocks c (n * sector_size c) = n.
Proof.
  pose proof (num_blocks_bounds (n * sector_size c)). apply Nat.le_antisymm; nia.
Qed.

Lemma length_pad data : length (pad c data) = num_blocks c (length data) * sector_size c.
Proof.
  unfold pad. rewrite length_app, length_replicate. pose proof (num_blocks_bounds (length data)). lia.
Qed.

Lemma length_block buf i : (i + 1) * sector_size c ≤ length buf → length (block c buf i) = sector_size c.
Proof. intros H. unfold block. rewrite length_take, length_drop. nia. Qed.

Lemma write_loop_other budget d lba buf i m l :
  (∀ j, i ≤ j < i + m → l ≠ (base_lba c + lba + Z.of_nat j)%Z) →
  (write_loop c budget d lba buf i m).1.2 l = d l.
Proof.
  revert budget d i. induction m as [|m IH]; intros budget d i Hl; simpl; [done|].
  destruct budget as [|budget]; [done|]. rewrite IH.
  - unfold disk_set. rewrite decide_False; [done|]. apply Hl. lia.
  - intros j Hj. apply Hl. lia.
Qed.

Lemma write_loop_full budget d lba buf i m :
  m ≤ budget →
  ∃ d', write_loop c budget d lba buf i m = (Ok (), d', budget - m) ∧
    (∀ j, i ≤ j < i + m → d' (base_lba c + lba + Z.of_nat j)%Z = Some (block c buf j)) ∧
    ∀ l, (∀ j, i ≤ j < i + m → l ≠ (base_lba c + lba + Z.of_nat j)%Z) → d' l = d l.
Proof.
  revert budget d i. induction m as [|m IH]; intros budget d i Hb; simpl.
  { exists d. rewrite Nat.sub_0_r. split_and!; [done|lia|done]. }
  destruct budget as [|budget]; [lia|].
  destruct (IH budget (disk_set d (base_lba c + lba + Z.of_nat i) (block c buf i)) (S i))
    as (d' & -> & Hin & Hout); [lia|].
  exists d'. split_and!; [done|..].
  - intros j Hj. destruct (decide (j = i)) as [->|]; [|apply Hin; lia].
    rewrite Hout by lia. unfold disk_set. by rewrite decide_True.
  - intros l Hl. rewrite Hout by (intros j Hj; apply Hl; lia). unfold disk_set.
    rewrite decide_False; [done|]. apply Hl. lia.
Qed.

Lemma write_loop_short budget d lba buf i m :
  budget < m → (write_loop c budget d lba buf i m).1.1 = Err IoError.
Proof.
  revert budget d i. induction m as [|m IH]; intros budget d i Hb; simpl; [lia|].
  destruct budget as [|budget]; [done|]. apply IH. lia.
Qed.

Lemma write_loop_each budget d lba buf i m j :
  i ≤ j < i + m →
  let d' := (write_loop c budget d lba buf i m).1.2 in
  let l := (base_lba c + lba + Z.of_nat j)%Z in
  d' l = Some (block c buf j) ∨ d' l = d l ∧ (i < j ∨ budget = 0).
Proof.
  revert budget d i. induction m as [|m IH]; intros budget d i Hj; [lia|]. simpl.
  destruct budget as [|budget]; [auto|].
  destruct (decide (j = i)) as [->|Hne].
  - left. rewrite write_loop_other by lia. unfold disk_set. by rewrite decide_True.
  - destruct (IH budget (disk_set d (base_lba c + lba + Z.of_nat i) (block c buf i)) (S i))
      as [?|[E _]]; [lia|by left|]. right. split; [|lia].
    rewrite E. unfold disk_set. rewrite decide_False by lia. done.
Qed.

Lemma write_blocks_full budget d lba data :
  num_blocks c (length data) ≤ budget →
  ∃ d', write_blocks c budget d lba data = (Ok (), d', budget - num_blocks c (length data)) ∧
    holds_data c d' lba data ∧
    ∀ l, (l < base_lba c + lba ∨ base_lba c + lba + Z.of_nat (num_blocks c (length data)) ≤ l)%Z →
         d' l = d l.
Proof.
  intros Hb. destruct (write_loop_full budget d lba (pad c data) 0 _ Hb) as (d' & E & Hin & Hout).
  exists d'. split_and!; [done|..].
  - intros i Hi. apply Hin. lia.
  - intros l Hl. apply Hout. lia.
Qed.

Lemma write_blocks_short budget d lba data :
  budget < num_blocks c (length data) →
  ∃ d' b, write_blocks c budget d lba data = (Err IoError, d', b) ∧
    ∀ l, (l < base_lba c + lba ∨ base_lba c + lba + Z.of_nat (num_blocks c (length data)) ≤ l)%Z →
         d' l = d l.
Proof.
  intros Hb. pose proof (write_loop_short budget d lba (pad c data) 0 _ Hb) as E.
  pose proof (write_loop_other budget d lba (pad c data) 0 (num_blocks c (length data))) as Ho.
  unfold write_blocks. destruct (write_loop _ _ _ _ _ _ _) as [[x d'] b]. simpl in *. subst x.
  exists d', b. split; [done|]. intros l Hl. apply Ho. lia.
Qed.

Lemma read_loop_spec d lba data n m i :
  holds_data c d lba data → n ≤ length data → i + m = num_blocks c n →
  read_loop c d lba n (take (min n (i * sector_size c)) data) i m = Ok (take n data).
Proof.
  intros Hd Hn. revert i. induction m as [|m IH]; intros i Hi; simpl.
  - f_equal. f_equal. pose proof (num_blocks_bounds n). nia.
  - pose proof (num_blocks_mono _ _ Hn) as Hmono.
    rewrite Hd by lia. rewrite length_take.
    rewrite <- (IH (S i)) by lia. f_equal.
    pose proof (num_blocks_bounds n) as Hb. pose proof (num_blocks_bounds (length data)).
    assert (i * sector_size c < n) as Hlt.
    { assert (i + 1 ≤ num_blocks c n) by lia. nia. }
    rewrite (Nat.min_r n (i * _)) by lia. rewrite (Nat.min_l (i * _) (length data)) by lia.
    unfold block. rewrite take_take.
    replace (min (min (n - i * sector_size c) (sector_size c)) (sector_size c))
      with (min n (S i * sector_size c) - i * sector_size c) by lia.
    unfold pad. rewrite drop_app_le, take_app_le by (rewrite ?length_drop; lia).
    rewrite take_take_drop. f_equal. lia.
Qed.

(** Reading back any prefix of what the sectors hold. *)
Lemma read_blocks_spec d lba data n :
  holds_data c d lba data → n ≤ length data → read_blocks c d lba n = Ok (take n data).
Proof.
  intros Hd Hn. unfold read_blocks.
  rewrite <- (read_loop_spec d lba data n (num_blocks c n) 0 Hd Hn) by done.
  by rewrite Nat.mul_0_l, Nat.min_0_r.
Qed.

Lemma holds_data_frame d d' lba data :
  (∀ l, base_lba c + lba ≤ l < base_lba c + lba + Z.of_nat (num_blocks c (length data)) → d' l = d l)%Z →
  holds_data c d lba data → holds_data c d' lba data.
Proof. intros He Hd i Hi. rewrite He by lia. by apply Hd. Qed.

(** The zero padding of a buffer of whole sectors is empty. *)
Lemma holds_data_pad d lba data :
  holds_data c d lba data → holds_data c d lba (pad c data).
Proof.
  assert (pad c (pad c data) = pad c data) as E.
  { unfold pad at 1. rewrite length_pad, num_blocks_mul, Nat.sub_diag. apply app_nil_r. }
  intros Hd i Hi. rewrite length_pad, num_blocks_mul in Hi. rewrite E. by apply Hd.
Qed.

End io.
End Device.
