(* ===== verification/Recovery.v ===== *)
(** The dual-copy checkpoint protocol of the extent manager
    ([components/extent-manager/src/checkpoint.rs]), recovery from it
    ([recovery.rs]) and the I/O part of [run_checkpoint] ([lib.rs]): what a
    crash after any number of sector writes leaves behind. *)

From S2P Require Import Prelude Bytes Slab Buddy Region Checkpoint.

Module Recovery.
Import Region Codec Device.
Local Open Scope Z_scope.

Definition CHECKPOINT_HEADER_SIZE : nat := 16.

Record SharedState := mkShared {
  sh_params : FormatParams;
  sh_seq : Z;
  sh_superblock : Superblock.Superblock
}.

Abbreviation res A := (result A ExtentManagerError).
Abbreviation SB := Superblock.Superblock.

Section protocol.
Context (crc32 : list Z → Z).

(** Header and payload, with a zero in place of the checksum. *)
Definition raw_blob (seq : Z) (payload : list Z) : list Z :=
  to_le_bytes 8 seq ++ to_le_bytes 4 (Z.of_nat (as_u32 (length payload))) ++
  to_le_bytes 4 0 ++ payload.

Definition blob_of (seq : Z) (payload : list Z) : list Z :=
  let raw := raw_blob seq payload in
  take 12 raw ++ to_le_bytes 4 (crc32 raw) ++ drop 16 raw.

(** The superblock with the given copy active. *)
Definition activate (s : SB) (copy seq : Z) : SB :=
  Superblock.mkSb (Superblock.magic s) (Superblock.version s) (Superblock.data_disk_size s)
    (Superblock.sector_size s) (Superblock.slab_size s) (Superblock.max_extent_size s)
    (Superblock.region_count s) seq copy (Superblock.checkpoint_region_offset s)
    (Superblock.checkpoint_region_size s) (Superblock.instance_id s)
    (Superblock.metadata_disk_ns_id s) (Superblock.data_start_offset s).

(** The byte offset of a copy. *)
Definition copy_offset (s : SB) (copy : Z) : outcome Z :=
  m ← mul_w 64 copy (Superblock.checkpoint_region_size s);
  add_w 64 (Superblock.checkpoint_region_offset s) m.

Definition write_checkpoint (c : client) (budget : nat) (d : Disk) (rs : list RegionState)
    (sh : SharedState) : outcome (res unit * SharedState * Disk * nat) :=
  payload ← serialize_regions rs;
  let sb := sh_superblock sh in
  inactive ← sub_w 1 (Superblock.active_copy sb);
  region_offset ← copy_offset sb inactive;
  new_seq ← add_w 64 (sh_seq sh) 1;
  let total_needed := (CHECKPOINT_HEADER_SIZE + length payload)%nat in
  if Superblock.checkpoint_region_size sb <? Z.of_nat total_needed
  then Ret (Err CorruptMetadata, sh, d, budget)
  else
    let blob := pad c (blob_of new_seq payload) in
    let lba := region_offset / Z.of_nat (sector_size c) in
    match write_blocks c budget d lba blob with
    | (Err e, d, b) => Ret (Err e, sh, d, b)
    | (Ok _, d, b) =>
        Ret (Ok (), mkShared (sh_params sh) new_seq (activate sb inactive new_seq), d, b)
    end.

(** The checkpoint, then the superblock. *)
Definition checkpoint_io (c : client) (budget : nat) (d : Disk) (rs : list RegionState)
    (sh : SharedState) : outcome (res unit * SharedState * Disk) :=
  '(x, sh, d, b) ← write_checkpoint c budget d rs sh;
  match x with
  | Err e => Ret (Err e, sh, d)
  | Ok _ =>
      let '(x, d, _) := write_blocks c b d 0 (Superblock.serialize crc32 (sh_superblock sh)) in
      Ret (x, sh, d)
  end.

Definition read_checkpoint_region (c : client) (d : Disk) (region_byte_offset region_size expected_seq : Z) :
    res (list Z) :=
  let ss := sector_size c in
  let lba := region_byte_offset / Z.of_nat ss in
  match read_blocks c d lba ss with
  | Err e => Err e
  | Ok header_sector =>
      if (length header_sector <? CHECKPOINT_HEADER_SIZE)%nat then Err CorruptMetadata
      else
        let seq := rd 8 0 header_sector in
        let payload_len := Z.to_nat (rd 4 8 header_sector) in
        let stored_crc := rd 4 12 header_sector in
        if negb (seq =? expected_seq) then Err CorruptMetadata
        else
          let total := (CHECKPOINT_HEADER_SIZE + payload_len)%nat in
          if region_size <? Z.of_nat total then Err CorruptMetadata
          else
            let aligned_len := (num_blocks c total * ss)%nat in
            match (if (aligned_len <=? ss)%nat then Ok header_sector
                   else read_blocks c d lba aligned_len) with
            | Err e => Err e
            | Ok raw =>
                if (length raw <? total)%nat then Err CorruptMetadata
                else
                  let check_buf := take 12 raw ++ to_le_bytes 4 0 ++ drop 16 (take total raw) in
                  if negb (stored_crc =? crc32 check_buf) then Err CorruptMetadata
                  else Ok (drop CHECKPOINT_HEADER_SIZE (take total raw))
            end
  end.

Definition recover (c : client) (d : Disk) : outcome (res (SB * list (list SlabDescriptor))) :=
  match read_blocks c d 0 Superblock.SUPERBLOCK_SIZE with
  | Err e => Ret (Err e)
  | Ok sb_data =>
      match Superblock.deserialize crc32 sb_data with
      | Err e => Ret (Err e)
      | Ok sb =>
          if Superblock.checkpoint_seq sb =? 0
          then Ret (Ok (sb, replicate (Z.to_nat (Superblock.region_count sb)) []))
          else
            active_offset ← copy_offset sb (Superblock.active_copy sb);
            inactive ← sub_w 1 (Superblock.active_copy sb);
            inactive_offset ← copy_offset sb inactive;
            let size := Superblock.checkpoint_region_size sb in
            match read_checkpoint_region c d active_offset size (Superblock.checkpoint_seq sb) with
            | Ok data =>
                match deserialize_slabs data with
                | Ok regions => Ret (Ok (sb, regions))
                | Err e => Ret (Err e)
                end
            | Err _ =>
                let prev_seq := saturating_sub (Superblock.checkpoint_seq sb) 1 in
                if 0 <? prev_seq then
                  match read_checkpoint_region c d inactive_offset size prev_seq with
                  | Ok data =>
                      match deserialize_slabs data with
                      | Ok regions => Ret (Ok (sb, regions))
                      | Err e => Ret (Err e)
                      end
                  | Err _ => Ret (Err CorruptMetadata)
                  end
                else Ret (Err CorruptMetadata)
            end
      end
  end.

(** ** What is durable *)

Section durability.
Context (c : client).

(** The two copies are whole sectors behind the superblock. *)
Record geometry (s : SB) : Prop := {
  g_offset : (Z.of_nat (sector_size c) | Superblock.checkpoint_region_offset s);
  g_size : (Z.of_nat (sector_size c) | Superblock.checkpoint_region_size s);
  g_behind : 4096 ≤ Superblock.checkpoint_region_offset s;
  g_fits : Superblock.checkpoint_region_offset s + 2 * Superblock.checkpoint_region_size s < 2 ^ 64
}.

Definition copy_lba (s : SB) (copy : Z) : Z :=
  (Superblock.checkpoint_region_offset s + copy * Superblock.checkpoint_region_size s) /
  Z.of_nat (sector_size c).

Record copy_holds (d : Disk) (s : SB) (copy seq : Z) (p : list Z) : Prop := {
  ch_data : holds_data c d (copy_lba s copy) (blob_of seq p);
  ch_fits : Z.of_nat (CHECKPOINT_HEADER_SIZE + length p) ≤ Superblock.checkpoint_region_size s;
  ch_len : Z.of_nat (length p) < 2 ^ 32;
  ch_seq : is_u 64 seq
}.

(** The disk durably records the regions [ds] under superblock [s]. *)
Record durable (d : Disk) (s : SB) (ds : list (list SlabDescriptor)) : Prop := {
  du_ok : Superblock.ok s;
  du_geometry : geometry s;
  du_sb : holds_data c d 0 (Superblock.serialize crc32 s);
  du_copy :
    (Superblock.checkpoint_seq s = 0 ∧ ds = replicate (Z.to_nat (Superblock.region_count s)) []) ∨
    (Superblock.checkpoint_seq s ≠ 0 ∧
     ∃ p, copy_holds d s (Superblock.active_copy s) (Superblock.checkpoint_seq s) p ∧
          deserialize_slabs p = Ok ds)
}.

End durability.
End protocol.

(** ** Reading a copy *)

Section reading.
Context (crc32 : list Z → Z) (Hcrc : ∀ l, is_u 32 (crc32 l)).
Context (c : client) (Hss : (96 ≤ sector_size c)%nat).
#[local] Arguments Nat.div : simpl never.
#[local] Arguments Nat.mul : simpl never.

Lemma raw_shape seq p :
  Z.of_nat (length p) < 2 ^ 32 →
  raw_blob seq p = (to_le_bytes 8 seq ++ to_le_bytes 4 (Z.of_nat (length p))) ++ to_le_bytes 4 0 ++ p.
Proof. intros H. unfold raw_blob. rewrite as_u32_small by done. by rewrite <- app_assoc. Qed.

Lemma blob_shape seq p :
  Z.of_nat (length p) < 2 ^ 32 →
  blob_of crc32 seq p = (to_le_bytes 8 seq ++ to_le_bytes 4 (Z.of_nat (length p))) ++
    to_le_bytes 4 (crc32 (raw_blob seq p)) ++ p.
Proof.
  intros H. unfold blob_of.
  rewrite (raw_shape seq p H) at 1 3.
  rewrite take_app_length' by (rewrite length_app, !length_to_le_bytes by lia; done).
  rewrite (app_assoc _ (to_le_bytes 4 0)).
  rewrite drop_app_length' by (rewrite !length_app, !length_to_le_bytes by lia; done). done.
Qed.

Lemma length_blob seq p :
  Z.of_nat (length p) < 2 ^ 32 → length (blob_of crc32 seq p) = (16 + length p)%nat.
Proof. intros H. rewrite blob_shape, !length_app, !length_to_le_bytes by (done || lia). done. Qed.

Lemma rd_take n pos m l : (pos + n ≤ m)%nat → rd n pos (take m l) = rd n pos l.
Proof. intros H. unfold rd. rewrite skipn_firstn_comm, take_take. do 2 f_equal. lia. Qed.

Lemma blob_header seq p T :
  is_u 64 seq → Z.of_nat (length p) < 2 ^ 32 →
  let b := blob_of crc32 seq p ++ T in
  rd 8 0 b = seq ∧ rd 4 8 b = Z.of_nat (length p) ∧ rd 4 12 b = crc32 (raw_blob seq p).
Proof.
  intros Hs Hl b. unfold b. rewrite blob_shape by done. rewrite <- !app_assoc.
  pose proof (Hcrc (raw_blob seq p)). assert (is_u 32 (Z.of_nat (length p))) by (split; lia).
  split_and!; read_field.
Qed.

(** A buffer that starts with a copy passes the checksum and yields the payload. *)
Lemma blob_check seq p raw :
  Z.of_nat (length p) < 2 ^ 32 → (16 + length p ≤ length raw)%nat →
  take (16 + length p) raw = blob_of crc32 seq p →
  take 12 raw ++ to_le_bytes 4 0 ++ drop 16 (take (16 + length p) raw) = raw_blob seq p ∧
  drop 16 (take (16 + length p) raw) = p.
Proof.
  intros Hl Hr Ht.
  assert (take 12 raw = take 12 (take (16 + length p) raw)) as -> by (rewrite take_take; f_equal; lia).
  rewrite Ht, blob_shape by done.
  assert (drop 16 ((to_le_bytes 8 seq ++ to_le_bytes 4 (Z.of_nat (length p))) ++
                   to_le_bytes 4 (crc32 (raw_blob seq p)) ++ p) = p) as E.
  { rewrite app_assoc. apply drop_app_length'. rewrite !length_app, !length_to_le_bytes by lia. done. }
  rewrite E. split; [|done].
  rewrite take_app_length' by (rewrite length_app, !length_to_le_bytes by lia; done).
  by rewrite raw_shape.
Qed.

(** Reading a stored copy: its payload if the sequence number is the expected
    one, an error otherwise. *)
Lemma read_copy d off size seq p expected :
  holds_data c d (off / Z.of_nat (sector_size c)) (blob_of crc32 seq p) →
  Z.of_nat (16 + length p) ≤ size → Z.of_nat (length p) < 2 ^ 32 → is_u 64 seq →
  read_checkpoint_region crc32 c d off size expected =
    if seq =? expected then Ok p else Err CorruptMetadata.
Proof.
  intros Hd Hsz Hl Hs. assert (0 < sector_size c)%nat as Hss' by lia.
  pose proof (length_blob seq p Hl) as Lb.
  apply holds_data_pad in Hd; [|done].
  set (B := pad c (blob_of crc32 seq p)) in *.
  assert (length B = num_blocks c (16 + length p) * sector_size c)%nat as LB
    by (unfold B; rewrite length_pad, Lb; done).
  pose proof (num_blocks_bounds c Hss' (16 + length p)) as Hnb.
  assert (1 ≤ num_blocks c (16 + length p))%nat as Hnb1 by nia.
  assert (sector_size c ≤ length B)%nat as HBs by nia.
  assert (∀ n, (16 + length p ≤ n)%nat → take (16 + length p) (take n B) = blob_of crc32 seq p) as HB.
  { intros n Hn. rewrite take_take, Nat.min_l by lia. unfold B, pad. apply take_app_length'. done. }
  unfold read_checkpoint_region. rewrite (read_blocks_spec c Hss' d _ B) by (done || lia).
  rewrite length_take, Nat.min_l by lia.
  rewrite (proj2 (Nat.ltb_ge (sector_size c) _)) by (unfold CHECKPOINT_HEADER_SIZE; lia).
  rewrite !rd_take by lia.
  destruct (blob_header seq p (drop (length (blob_of crc32 seq p)) B) Hs Hl) as (E1 & E2 & E3).
  assert (blob_of crc32 seq p ++ drop (length (blob_of crc32 seq p)) B = B) as EB.
  { rewrite <- (HB (16 + length p)%nat) at 1 by lia. rewrite take_take, Nat.min_id, Lb. apply take_drop. }
  rewrite EB in E1, E2, E3. rewrite E1, E2, E3, Nat2Z.id.
  destruct (Z.eqb_spec seq expected) as [->|Hne]; cbn [negb]; [|done].
  unfold CHECKPOINT_HEADER_SIZE. rewrite (proj2 (Z.ltb_ge _ _)) by lia.
  assert (∀ n, (16 + length p ≤ n ≤ length B)%nat →
    (if (length (take n B) <? 16 + length p)%nat then Err CorruptMetadata
     else if negb (crc32 (raw_blob expected p) =?
                   crc32 (take 12 (take n B) ++ to_le_bytes 4 0 ++ drop 16 (take (16 + length p) (take n B))))
     then Err CorruptMetadata
     else Ok (drop 16 (take (16 + length p) (take n B)))) = (Ok p : res (list Z))) as Hfin.
  { intros n Hn. destruct (blob_check expected p (take n B)) as [-> ->]; rewrite ?length_take; [lia..|apply HB; lia|].
    rewrite (proj2 (Nat.ltb_ge _ _)) by lia. by rewrite Z.eqb_refl. }
  destruct (Nat.leb_spec (num_blocks c (16 + length p) * sector_size c) (sector_size c)).
  - apply Hfin. lia.
  - rewrite (read_blocks_spec c Hss' d _ B) by (done || lia). apply Hfin. lia.
Qed.

(** ** Where the copies are *)

Abbreviation ss := (Z.of_nat (sector_size c)).

Lemma copy_offset_spec s copy :
  Superblock.ok s → geometry c s → copy = 0 ∨ copy = 1 →
  copy_offset s copy =
    Ret (Superblock.checkpoint_region_offset s + copy * Superblock.checkpoint_region_size s).
Proof.
  intros O G Hc. destruct O as [_ _ (_ & _ & _ & [U1 _] & [U2 _] & _) _]. destruct G.
  unfold copy_offset. rewrite mul_w_Ret by nia. rewrite bind_Ret_l. apply add_w_Ret; nia.
Qed.

Lemma inactive_spec s :
  Superblock.ok s →
  sub_w 1 (Superblock.active_copy s) = Ret (1 - Superblock.active_copy s) ∧
  (1 - Superblock.active_copy s = 0 ∨ 1 - Superblock.active_copy s = 1).
Proof. intros [_ _ _ Hc]. split; [apply sub_w_Ret|]; lia. Qed.

(** The sectors of the superblock and of the two copies, in order. *)
Lemma copies_apart s :
  Superblock.ok s → geometry c s →
  Z.of_nat (num_blocks c 4096) ≤ copy_lba c s 0 ∧
  copy_lba c s 1 = copy_lba c s 0 + Superblock.checkpoint_region_size s / ss ∧
  ∀ n, Z.of_nat n ≤ Superblock.checkpoint_region_size s →
    Z.of_nat (num_blocks c n) ≤ Superblock.checkpoint_region_size s / ss.
Proof.
  intros O [[a Ha] [b Hb] Hm _]. unfold copy_lba. assert (ss ≠ 0) by lia. split_and!.
  - rewrite Z.mul_0_l, Z.add_0_r, Ha, Z.div_mul by done.
    pose proof (num_blocks_bounds c ltac:(lia) 4096). nia.
  - rewrite Hb, Ha, Z.mul_0_l, Z.mul_1_l, Z.add_0_r, <- Z.mul_add_distr_r, !Z.div_mul by done. done.
  - intros n Hn. rewrite Hb, Z.div_mul by done. pose proof (num_blocks_bounds c ltac:(lia) n). nia.
Qed.

(** Two copies, or a copy and the superblock, share no sector. *)
Definition in_copy (s : SB) (copy l : Z) : Prop :=
  base_lba c + copy_lba c s copy ≤ l <
  base_lba c + copy_lba c s copy + Superblock.checkpoint_region_size s / ss.

Definition in_superblock (l : Z) : Prop :=
  base_lba c ≤ l < base_lba c + Z.of_nat (num_blocks c 4096).

Lemma in_copy_apart s copy l :
  Superblock.ok s → geometry c s → copy = 0 ∨ copy = 1 →
  in_copy s copy l → ¬ in_copy s (1 - copy) l ∧ ¬ in_superblock l.
Proof.
  intros O G Hc. destruct (copies_apart s O G) as (H1 & H2 & _). unfold in_copy, in_superblock.
  assert (0 ≤ Superblock.checkpoint_region_size s / ss).
  { destruct O as [_ _ (_ & _ & _ & _ & [U2 _] & _) _]. apply Z.div_pos; lia. }
  destruct Hc as [-> | ->]; [change (1 - 0) with 1|change (1 - 1) with 0]; rewrite ?H2; lia.
Qed.

Lemma copy_holds_frame d d' s copy seq p :
  Superblock.ok s → geometry c s →
  (∀ l, in_copy s copy l → d' l = d l) →
  copy_holds crc32 c d s copy seq p → copy_holds crc32 c d' s copy seq p.
Proof.
  intros O G Hf [H1 H2 H3 H4]. split; [|done..].
  apply (holds_data_frame c ltac:(lia) d); [|done]. intros l Hl. apply Hf. unfold in_copy.
  rewrite length_blob in Hl by done. destruct (copies_apart s O G) as (_ & _ & Hn).
  specialize (Hn _ H2). unfold CHECKPOINT_HEADER_SIZE in Hn. lia.
Qed.

Lemma superblock_frame d d' s :
  (∀ l, in_superblock l → d' l = d l) →
  holds_data c d 0 (Superblock.serialize crc32 s) → holds_data c d' 0 (Superblock.serialize crc32 s).
Proof.
  intros Hf. apply (holds_data_frame c ltac:(lia)). intros l Hl. apply Hf. unfold in_superblock.
  rewrite Superblock.length_serialize in Hl. lia.
Qed.

(** ** Recovery *)

Lemma read_superblock d s :
  Superblock.ok s → holds_data c d 0 (Superblock.serialize crc32 s) →
  read_blocks c d 0 Superblock.SUPERBLOCK_SIZE = Ok (Superblock.serialize crc32 s) ∧
  Superblock.deserialize crc32 (Superblock.serialize crc32 s) = Ok s.
Proof.
  intros O Hd. split; [|by apply Superblock.deserialize_serialize].
  pose proof (Superblock.length_serialize crc32 s) as L.
  rewrite (read_blocks_spec c ltac:(lia) d 0 _ _ Hd) by (rewrite L; done).
  by rewrite take_ge by (rewrite L; done).
Qed.

Lemma read_copy_holds d s copy seq p expected :
  copy_holds crc32 c d s copy seq p →
  read_checkpoint_region crc32 c d
    (Superblock.checkpoint_region_offset s + copy * Superblock.checkpoint_region_size s)
    (Superblock.checkpoint_region_size s) expected =
  if seq =? expected then Ok p else Err CorruptMetadata.
Proof. intros [H1 H2 H3 H4]. by apply read_copy. Qed.

Lemma recover_durable d s ds :
  durable crc32 c d s ds → recover crc32 c d = Ret (Ok (s, ds)).
Proof.
  intros [O G Hsb Hc]. unfold recover. destruct (read_superblock d s O Hsb) as [-> ->].
  destruct (inactive_spec s O) as [Ei Hi]. pose proof (Superblock.ok_copy _ O) as Ha.
  destruct Hc as [[-> ->]|(Hne & p & Hp & Hds)]; [by rewrite Z.eqb_refl|].
  rewrite (proj2 (Z.eqb_neq _ _) Hne), copy_offset_spec by done. rewrite bind_Ret_l, Ei, bind_Ret_l.
  rewrite copy_offset_spec by done. rewrite bind_Ret_l.
  rewrite (read_copy_holds _ _ _ _ _ _ Hp), Z.eqb_refl. by rewrite Hds.
Qed.

(** ** Writing a copy *)

(** The regions can be checkpointed under [s]. *)
Record snapshot_ok (s : SB) (rs : list RegionState) : Prop := {
  so_wf : Forall region_wf rs;
  so_count : Z.of_nat (length rs) < 2 ^ 32;
  so_fits : Z.of_nat (CHECKPOINT_HEADER_SIZE + length (payload rs)) ≤ Superblock.checkpoint_region_size s;
  so_len : Z.of_nat (length (payload rs)) < 2 ^ 32
}.

(** Sectors a checkpoint of [rs] takes. *)
Definition copy_sectors (rs : list RegionState) : nat :=
  num_blocks c (CHECKPOINT_HEADER_SIZE + length (payload rs)).

Lemma num_blocks_pad data : num_blocks c (length (pad c data)) = num_blocks c (length data).
Proof. rewrite length_pad by lia. apply num_blocks_mul. lia. Qed.

Lemma write_pad budget d lba data :
  write_blocks c budget d lba (pad c data) = write_blocks c budget d lba data.
Proof.
  unfold write_blocks. rewrite num_blocks_pad. f_equal. unfold pad at 1.
  rewrite num_blocks_pad, length_pad, Nat.sub_diag by lia. apply app_nil_r.
Qed.

(** The state after the copy is written. *)
Definition flipped (sh : SharedState) : SharedState :=
  let s := sh_superblock sh in
  mkShared (sh_params sh) (sh_seq sh + 1)
    (activate s (1 - Superblock.active_copy s) (sh_seq sh + 1)).

Lemma write_checkpoint_spec budget d rs sh (s := sh_superblock sh) :
  Superblock.ok s → geometry c s → snapshot_ok s rs → 0 ≤ sh_seq sh → sh_seq sh + 1 < 2 ^ 64 →
  ∃ d', (∀ l, ¬ in_copy s (1 - Superblock.active_copy s) l → d' l = d l) ∧
    ((budget < copy_sectors rs)%nat ∧
       (∃ b, write_checkpoint crc32 c budget d rs sh = Ret (Err IoError, sh, d', b)) ∨
     (copy_sectors rs ≤ budget)%nat ∧
       write_checkpoint crc32 c budget d rs sh =
         Ret (Ok (), flipped sh, d', (budget - copy_sectors rs)%nat) ∧
       copy_holds crc32 c d' s (1 - Superblock.active_copy s) (sh_seq sh + 1) (payload rs)).
Proof.
  intros O G [W1 W2 W3 W4] Hs0 Hs. destruct (inactive_spec s O) as [Ei Hi].
  destruct (copies_apart s O G) as (_ & _ & Hn). specialize (Hn _ W3).
  unfold write_checkpoint. fold s. rewrite serialize_regions_spec, bind_Ret_l by done.
  rewrite Ei, bind_Ret_l, copy_offset_spec, bind_Ret_l by done.
  rewrite add_w_Ret, bind_Ret_l by lia. cbv zeta. rewrite (proj2 (Z.ltb_ge _ _)) by done.
  rewrite write_pad.
  change ((Superblock.checkpoint_region_offset s + _ * _) / _)
    with (copy_lba c s (1 - Superblock.active_copy s)).
  assert (num_blocks c (length (blob_of crc32 (sh_seq sh + 1) (payload rs))) = copy_sectors rs) as En
    by (by rewrite length_blob).
  change (num_blocks c (CHECKPOINT_HEADER_SIZE + length (payload rs))) with (copy_sectors rs) in Hn.
  destruct (Nat.lt_ge_cases budget (copy_sectors rs)) as [Hb|Hb].
  - destruct (write_blocks_short c ltac:(lia) budget d (copy_lba c s (1 - Superblock.active_copy s))
      (blob_of crc32 (sh_seq sh + 1) (payload rs))) as (d' & b & -> & Hf); [by rewrite En|].
    exists d'. split; [|left; eauto]. intros l Hl. apply Hf. rewrite En. unfold in_copy in Hl. lia.
  - destruct (write_blocks_full c ltac:(lia) budget d (copy_lba c s (1 - Superblock.active_copy s))
      (blob_of crc32 (sh_seq sh + 1) (payload rs))) as (d' & -> & Hh & Hf); [by rewrite En|].
    exists d'. split.
    + intros l Hl. apply Hf. rewrite En. unfold in_copy in Hl. lia.
    + right. rewrite En. split_and!; [done..|]. split; [done..|]. split; lia.
Qed.

(** ** Writing the superblock

    Superblocks agree beyond their first sector, so that a superblock write is
    as atomic as that sector. *)

Lemma superblock_tail s s' i :
  (1 ≤ i)%nat →
  block c (pad c (Superblock.serialize crc32 s)) i = block c (pad c (Superblock.serialize crc32 s')) i.
Proof.
  intros Hi. assert (∀ t, drop 96 (pad c (Superblock.serialize crc32 t)) =
    replicate (Superblock.SUPERBLOCK_SIZE - 96) 0 ++
    replicate (num_blocks c 4096 * sector_size c - 4096) 0) as E.
  { intros t. unfold pad. rewrite Superblock.length_serialize. unfold Superblock.serialize.
    rewrite (app_assoc (Superblock.fields t)), <- app_assoc.
    apply drop_app_length'. rewrite length_app, Superblock.length_fields, length_to_le_bytes by lia. done. }
  unfold block. f_equal. replace (i * sector_size c)%nat with (96 + (i * sector_size c - 96))%nat by nia.
  by rewrite <- !drop_drop, !E.
Qed.

Lemma write_superblock budget d s s' :
  holds_data c d 0 (Superblock.serialize crc32 s) →
  let '(x, d', _) := write_blocks c budget d 0 (Superblock.serialize crc32 s') in
  (holds_data c d' 0 (Superblock.serialize crc32 s) ∧ x = Err IoError ∧ budget = 0%nat ∨
   holds_data c d' 0 (Superblock.serialize crc32 s') ∧ budget ≠ 0%nat) ∧
  ∀ l, ¬ in_superblock l → d' l = d l.
Proof.
  intros Hd. pose proof (Superblock.length_serialize crc32 s) as L.
  pose proof (Superblock.length_serialize crc32 s') as L'.
  pose proof (num_blocks_bounds c ltac:(lia) 4096) as Hnb.
  unfold write_blocks. rewrite L'.
  pose proof (write_loop_other c ltac:(lia) budget d 0 (pad c (Superblock.serialize crc32 s')) 0 (num_blocks c 4096)) as Ho.
  pose proof (write_loop_each c ltac:(lia) budget d 0 (pad c (Superblock.serialize crc32 s')) 0 (num_blocks c 4096)) as He.
  destruct budget as [|budget].
  { destruct (num_blocks c 4096); [lia|]. simpl. split; [by left|done]. }
  destruct (write_loop _ _ _ _ _ _ _) as [[x d'] b]. cbn [fst snd] in *. split.
  - right. split; [|done]. intros i Hi. rewrite L' in Hi.
    destruct (He i ltac:(lia)) as [E|[E H]]; [done|].
    rewrite E, (Hd i) by (by rewrite L). f_equal. apply superblock_tail. lia.
  - intros l Hl. apply Ho. unfold in_superblock in Hl. lia.
Qed.

(** ** A checkpoint and a crash *)

(** The shared state agrees with the durable superblock [s]. *)
Definition synced (sh : SharedState) (s : SB) : Prop :=
  sh_superblock sh = s ∧ sh_seq sh = Superblock.checkpoint_seq s.

Lemma activate_ok s copy seq :
  Superblock.ok s → copy = 0 ∨ copy = 1 → is_u 64 seq → Superblock.ok (activate s copy seq).
Proof. intros [] Hc Hs. split; simpl; naive_solver. Qed.

Lemma activate_geometry s copy seq : geometry c s → geometry c (activate s copy seq).
Proof. by intros []. Qed.

Lemma durable_frame d d' s ds :
  (∀ l, in_superblock l ∨ in_copy s (Superblock.active_copy s) l → d' l = d l) →
  durable crc32 c d s ds → durable crc32 c d' s ds.
Proof.
  intros Hf [O G Hsb Hc]. split; [done..| |].
  - apply (superblock_frame d); auto.
  - destruct Hc as [?|(Hne & p & Hp & E)]; [by left|right]. split; [done|]. exists p. split; [|done].
    apply (copy_holds_frame d); auto.
Qed.

(** The new superblock and the copy it points to. *)
Lemma durable_flipped d s sh rs :
  Superblock.ok s → geometry c s → synced sh s → snapshot_ok s rs → Superblock.checkpoint_seq s + 1 < 2 ^ 64 →
  holds_data c d 0 (Superblock.serialize crc32 (sh_superblock (flipped sh))) →
  copy_holds crc32 c d s (1 - Superblock.active_copy s) (Superblock.checkpoint_seq s + 1) (payload rs) →
  durable crc32 c d (sh_superblock (flipped sh)) (descs <$> rs).
Proof.
  intros O G [Hsh Hseq] S Hlt Hsb Hch. pose proof (Superblock.ok_copy _ O) as Hac.
  assert (is_u 64 (Superblock.checkpoint_seq s)) as [Us _] by apply (Superblock.ok_u64 _ O).
  unfold flipped in *. cbn [sh_superblock] in *. rewrite Hsh, Hseq in *. split.
  - apply activate_ok; [done|lia|]. split; lia.
  - by apply activate_geometry.
  - done.
  - right. split; [simpl; lia|]. exists (payload rs).
    split; [by destruct Hch; split|apply deserialize_payload; apply S].
Qed.

(** What a checkpoint leaves behind, for every number of completed sector
    writes: the old or the new snapshot. *)
Lemma checkpoint_io_spec n d s ds sh rs :
  durable crc32 c d s ds → synced sh s → snapshot_ok s rs → Superblock.checkpoint_seq s + 1 < 2 ^ 64 →
  ∃ x sh' d', checkpoint_io crc32 c n d rs sh = Ret (x, sh', d') ∧
    (∀ l, in_copy s (Superblock.active_copy s) l → d' l = d l) ∧
    (durable crc32 c d' s ds ∧ x = Err IoError ∧
       (sh' = sh ∧ (n < copy_sectors rs)%nat ∨
        sh' = flipped sh ∧ n = copy_sectors rs ∧
          copy_holds crc32 c d' s (1 - Superblock.active_copy s) (Superblock.checkpoint_seq s + 1) (payload rs)) ∨
     durable crc32 c d' (sh_superblock (flipped sh)) (descs <$> rs) ∧ sh' = flipped sh ∧
       (copy_sectors rs < n)%nat).
Proof.
  intros D Hsy S Hlt. pose proof Hsy as [Hsh Hseq].
  pose proof (du_ok _ _ _ _ _ D) as O. pose proof (du_geometry _ _ _ _ _ D) as G.
  pose proof (Superblock.ok_copy _ O) as Hac.
  assert (is_u 64 (Superblock.checkpoint_seq s)) as [Us _] by apply (Superblock.ok_u64 _ O).
  destruct (write_checkpoint_spec n d rs sh) as (d1 & Hf & Hcase); rewrite ?Hsh; [done..|lia|lia|].
  rewrite Hsh in Hf, Hcase.
  assert (∀ l, in_superblock l ∨ in_copy s (Superblock.active_copy s) l → d1 l = d l) as Hf1.
  { intros l Hl. apply Hf. intros Hin. apply (in_copy_apart s) in Hin; [|done..|lia].
    replace (1 - (1 - Superblock.active_copy s)) with (Superblock.active_copy s) in Hin by lia. tauto. }
  pose proof (durable_frame d d1 s ds Hf1 D) as D1.
  unfold checkpoint_io. destruct Hcase as [[Hn (b & ->)]|(Hn & -> & Hch)].
  { eexists _, _, _. split; [reflexivity|]. split; [auto|]. left. auto. }
  rewrite bind_Ret_l.
  pose proof (write_superblock (n - copy_sectors rs) d1 s (sh_superblock (flipped sh)) (du_sb _ _ _ _ _ D1)) as Hw.
  destruct (write_blocks _ _ _ _ _) as [[x d2] b]. destruct Hw as [Hw Hf2].
  assert (∀ copy, copy = 0 ∨ copy = 1 → ∀ l, in_copy s copy l → d2 l = d1 l) as Hc2.
  { intros copy Hcp l Hl. apply Hf2. by apply (in_copy_apart s copy). }
  rewrite Hseq in Hch. eexists x, _, d2. split; [reflexivity|].
  split; [intros l Hl; rewrite (Hc2 _ Hac) by done; auto|].
  assert (copy_holds crc32 c d2 s (1 - Superblock.active_copy s) (Superblock.checkpoint_seq s + 1) (payload rs)) as Hch2.
  { apply (copy_holds_frame d1); [done..| |done]. apply Hc2. lia. }
  destruct Hw as [(Hsb & Hx & Hb)|[Hsb Hb]]; [left|right].
  - split_and!; [|done|right; split_and!; [done|lia|done]]. split; [done..|].
    destruct D1 as [_ _ _ [?|(Hne & p & Hp & E)]]; [by left|right]. split; [done|]. exists p. split; [|done].
    apply (copy_holds_frame d1); [done..| |done]. apply Hc2. done.
  - split_and!; [|done|lia]. by apply (durable_flipped d2 s).
Qed.

(** C8. A checkpoint is crash-safe: started on a disk that durably records
    [ds], and stopped after any number [n] of sector writes (in the copy, between
    the copy and the superblock, or inside the superblock), it leaves a disk from
    which [recover] returns either the old superblock and regions or the new ones,
    complete; when it reports success, and whenever more sectors than the copy's
    were written, it is the new ones, and the disk is durable for them. *)
Theorem checkpoint_crash_safe n d s ds sh rs :
  durable crc32 c d s ds → synced sh s → snapshot_ok s rs → Superblock.checkpoint_seq s + 1 < 2 ^ 64 →
  ∃ x sh' d', checkpoint_io crc32 c n d rs sh = Ret (x, sh', d') ∧
    (recover crc32 c d' = Ret (Ok (s, ds)) ∨
     recover crc32 c d' = Ret (Ok (sh_superblock sh', descs <$> rs))) ∧
    (x = Ok () ∨ (copy_sectors rs < n)%nat →
       durable crc32 c d' (sh_superblock sh') (descs <$> rs) ∧ synced sh' (sh_superblock sh') ∧
       Superblock.checkpoint_seq (sh_superblock sh') = Superblock.checkpoint_seq s + 1 ∧
       recover crc32 c d' = Ret (Ok (sh_superblock sh', descs <$> rs))).
Proof.
  intros D Hsy S Hlt. destruct (checkpoint_io_spec n d s ds sh rs D Hsy S Hlt)
    as (x & sh' & d' & E & _ & Hcase). exists x, sh', d'. split; [exact E|].
  destruct Hcase as [(D' & -> & Hx)|(D' & -> & Hn)].
  - split; [left; by apply recover_durable|]. intros [?|?]; [done|].
    destruct Hx as [[_ ?]|(_ & ? & _)]; lia.
  - pose proof (recover_durable _ _ _ D') as Hr. split; [by right|]. intros _. destruct Hsy as [? Hq].
    split_and!; [done..| |done]. simpl. lia.
Qed.

(** The copies and the superblock as they are after a failed superblock write
    and a further checkpoint: neither copy carries a number recovery accepts. *)
Lemma recover_stale d s seq1 seq2 p1 p2 :
  Superblock.ok s → geometry c s → holds_data c d 0 (Superblock.serialize crc32 s) →
  Superblock.checkpoint_seq s ≠ 0 →
  copy_holds crc32 c d s (Superblock.active_copy s) seq1 p1 →
  copy_holds crc32 c d s (1 - Superblock.active_copy s) seq2 p2 →
  seq1 ≠ Superblock.checkpoint_seq s → seq2 ≠ Superblock.checkpoint_seq s - 1 →
  recover crc32 c d = Ret (Err CorruptMetadata).
Proof.
  intros O G Hsb Hne H1 H2 N1 N2. unfold recover. destruct (read_superblock d s O Hsb) as [-> ->].
  destruct (inactive_spec s O) as [Ei Hi]. pose proof (Superblock.ok_copy _ O) as Ha.
  rewrite (proj2 (Z.eqb_neq _ _) Hne), copy_offset_spec by done. rewrite bind_Ret_l, Ei, bind_Ret_l.
  rewrite copy_offset_spec by done. rewrite bind_Ret_l.
  rewrite (read_copy_holds _ _ _ _ _ _ H1), (read_copy_holds _ _ _ _ _ _ H2).
  rewrite (proj2 (Z.eqb_neq _ _) N1). unfold saturating_sub.
  destruct (Z.ltb_spec 0 (Z.max 0 (Superblock.checkpoint_seq s - 1))); [|done].
  rewrite (proj2 (Z.eqb_neq _ _)) by lia. done.
Qed.

(** C35. The protocol is not safe against a superblock write that fails: the
    in-memory superblock is flipped before it is written, so the next checkpoint
    targets the copy the durable superblock still points to. If that checkpoint
    in turn stops before its superblock reaches the disk, both copies carry
    sequence numbers recovery rejects and every extent is lost. *)
Theorem failed_superblock_write_loses_both d s ds sh rs rs' :
  durable crc32 c d s ds → synced sh s → Superblock.checkpoint_seq s ≠ 0 →
  snapshot_ok s rs → snapshot_ok s rs' → Superblock.checkpoint_seq s + 2 < 2 ^ 64 →
  ∃ sh1 d1 sh2 d2,
    checkpoint_io crc32 c (copy_sectors rs) d rs sh = Ret (Err IoError, sh1, d1) ∧
    recover crc32 c d1 = Ret (Ok (s, ds)) ∧
    checkpoint_io crc32 c (copy_sectors rs') d1 rs' sh1 = Ret (Err IoError, sh2, d2) ∧
    recover crc32 c d2 = Ret (Err CorruptMetadata).
Proof.
  intros D Hsy Hne S S' Hlt.
  destruct (checkpoint_io_spec (copy_sectors rs) d s ds sh rs D Hsy S ltac:(lia))
    as (x & sh1 & d1 & E & _ & [(D1 & -> & [[_ ?]|(-> & _ & Hch)])|(_ & _ & ?)]); [lia| |lia].
  exists (flipped sh), d1.
  pose proof (du_ok _ _ _ _ _ D) as O. pose proof (du_geometry _ _ _ _ _ D) as G.
  pose proof (Superblock.ok_copy _ O) as Hac. destruct Hsy as [Hsh Hseq].
  assert (is_u 64 (Superblock.checkpoint_seq s)) as [Us _] by apply (Superblock.ok_u64 _ O).
  assert (sh_superblock (flipped sh) = activate s (1 - Superblock.active_copy s) (Superblock.checkpoint_seq s + 1)) as Ef
    by (unfold flipped; rewrite Hsh, Hseq; done).
  destruct (write_checkpoint_spec (copy_sectors rs') d1 rs' (flipped sh)) as (d2 & Hf & Hcase);
    rewrite ?Ef; [apply activate_ok; [done|lia|split; lia]|by apply activate_geometry|by destruct S'|simpl; lia..|].
  rewrite Ef in Hf, Hcase.
  change (in_copy (activate s _ _)) with (in_copy s) in Hf. cbn [activate Superblock.active_copy] in Hf, Hcase.
  replace (1 - (1 - Superblock.active_copy s)) with (Superblock.active_copy s) in Hf, Hcase by lia.
  destruct Hcase as [[? _]|(_ & Ew & Hch2)]; [lia|].
  assert (∀ l, in_superblock l → d2 l = d1 l) as Hf1.
  { intros l Hl. apply Hf. intros Hin. by apply (in_copy_apart s) in Hin as [_ ?]. }
  pose proof (superblock_frame d1 d2 s Hf1 (du_sb _ _ _ _ _ D1)) as Hsb2.
  unfold checkpoint_io. rewrite Ew, bind_Ret_l, Nat.sub_diag. unfold write_blocks.
  rewrite Superblock.length_serialize.
  destruct (num_blocks c 4096) as [|m] eqn:Hm;
    [pose proof (num_blocks_bounds c ltac:(lia) 4096); lia|].
  eexists _, d2. split_and!; [done|by apply recover_durable|reflexivity|].
  apply (recover_stale d2 s (sh_seq (flipped sh) + 1) (Superblock.checkpoint_seq s + 1) (payload rs') (payload rs));
    [done|done|done|done|by destruct Hch2; split| |simpl; lia..].
  apply (copy_holds_frame d1); [done..| |done]. intros l Hl. apply Hf. intros Hin.
  apply (in_copy_apart s) in Hin as [? _]; done.
Qed.

Lemma read_unreadable d off size expected :
  d (base_lba c + off / ss) = None → read_checkpoint_region crc32 c d off size expected = Err IoError.
Proof.
  intros Hn. unfold read_checkpoint_region, read_blocks.
  assert (num_blocks c (sector_size c) = 1%nat) as ->.
  { rewrite <- (Nat.mul_1_l (sector_size c)) at 1. apply num_blocks_mul. lia. }
  cbn [read_loop]. change (Z.of_nat 0) with 0. by rewrite Z.add_0_r, Hn.
Qed.

(** An unreadable active copy and the previous one in the other place. *)
Lemma recover_fallback d s p ds :
  Superblock.ok s → geometry c s → holds_data c d 0 (Superblock.serialize crc32 s) →
  1 < Superblock.checkpoint_seq s → d (base_lba c + copy_lba c s (Superblock.active_copy s)) = None →
  copy_holds crc32 c d s (1 - Superblock.active_copy s) (Superblock.checkpoint_seq s - 1) p →
  deserialize_slabs p = Ok ds → recover crc32 c d = Ret (Ok (s, ds)).
Proof.
  intros O G Hsb Hseq Hn Hp Hds. unfold recover. destruct (read_superblock d s O Hsb) as [-> ->].
  destruct (inactive_spec s O) as [Ei Hi]. pose proof (Superblock.ok_copy _ O) as Ha.
  rewrite (proj2 (Z.eqb_neq (Superblock.checkpoint_seq s) 0)), copy_offset_spec by (done || lia).
  rewrite bind_Ret_l, Ei, bind_Ret_l. rewrite copy_offset_spec by done. rewrite bind_Ret_l.
  rewrite read_unreadable by done. unfold saturating_sub.
  rewrite (proj2 (Z.ltb_lt _ _)) by lia. rewrite (read_copy_holds _ _ _ _ _ _ Hp).
  rewrite (proj2 (Z.eqb_eq _ _)) by lia. by rewrite Hds.
Qed.

(** Fallback: after a successful checkpoint on top of an earlier one, losing
    the sectors of the new active copy (its header is unreadable) makes recovery
    return the regions of the previous checkpoint, under the new superblock. *)
Theorem recovery_falls_back n d s ds sh rs sh' d' d'' :
  durable crc32 c d s ds → synced sh s → Superblock.checkpoint_seq s ≠ 0 → snapshot_ok s rs →
  Superblock.checkpoint_seq s + 1 < 2 ^ 64 →
  checkpoint_io crc32 c n d rs sh = Ret (Ok (), sh', d') →
  (∀ l, ¬ in_copy s (1 - Superblock.active_copy s) l → d'' l = d' l) →
  d'' (base_lba c + copy_lba c s (1 - Superblock.active_copy s)) = None →
  recover crc32 c d'' = Ret (Ok (sh_superblock sh', ds)).
Proof.
  intros D Hsy Hne S Hlt E Hf Hnone. pose proof (du_ok _ _ _ _ _ D) as O.
  pose proof (du_geometry _ _ _ _ _ D) as G. pose proof (Superblock.ok_copy _ O) as Hac.
  destruct (checkpoint_io_spec n d s ds sh rs D Hsy S Hlt) as (x & sh1 & d1 & E1 & Hkeep & Hcase).
  rewrite E in E1. injection E1 as <- <- <-.
  destruct Hcase as [(_ & ? & _)|(D' & -> & Hn)]; [done|]. destruct Hsy as [Hsh Hseq].
  set (s' := sh_superblock (flipped sh)) in *.
  assert (s' = activate s (1 - Superblock.active_copy s) (Superblock.checkpoint_seq s + 1)) as Es
    by (unfold s', flipped; rewrite Hsh, Hseq; done).
  assert (is_u 64 (Superblock.checkpoint_seq s)) as [Us _] by apply (Superblock.ok_u64 _ O).
  destruct (du_copy _ _ _ _ _ D) as [[? _]|(_ & p & Hp & Hds)]; [done|].
  assert (copy_holds crc32 c d'' s (Superblock.active_copy s) (Superblock.checkpoint_seq s) p) as Hp'.
  { apply (copy_holds_frame d); [done..| |done]. intros l Hl.
    apply (in_copy_apart s) in Hl as Hl'; [|done..]. rewrite Hf by tauto. by apply Hkeep. }
  apply (recover_fallback d'' s' p); [apply D'|apply D'| |rewrite Es; simpl; lia|by rewrite Es| |done].
  - apply (superblock_frame d'); [|apply D']. intros l Hl. apply Hf.
    intros Hin. apply (in_copy_apart s) in Hin as [_ ?]; [done..|lia].
  - rewrite Es. cbn [activate Superblock.active_copy Superblock.checkpoint_seq].
    replace (1 - (1 - Superblock.active_copy s)) with (Superblock.active_copy s) by lia.
    replace (Superblock.checkpoint_seq s + 1 - 1) with (Superblock.checkpoint_seq s) by lia.
    by destruct Hp'; split.
Qed.

End reading.

(** ** A formatted disk of 4 KiB sectors, with a checksum that sums the bytes *)

Definition sum32 (l : list Z) : Z := foldr Z.add 0 l mod 2 ^ 32.

Definition client0 : client := mkClient 4096 0.
Definition sb0 : SB := Superblock.new 28672 4096 8192 8192 1 4096 8192 7 1 8192.
Definition shared0 : SharedState := mkShared (mkParams 28672 8192 8192 4096 1 0 None 1 0) 0 sb0.
Definition disk0 : Disk := (write_blocks client0 1 (λ _, None) 0 (Superblock.serialize sum32 sb0)).1.2.

Lemma sum32_range l : is_u 32 (sum32 l).
Proof. apply Z.mod_pos_bound. lia. Qed.

Lemma durable0 : durable sum32 client0 disk0 sb0 [[]].
Proof.
  split.
  - split; [done|..]; [split_and!; split; vm_compute; (done || congruence)..|by left].
  - split; simpl; [by exists 1|by exists 2|lia|lia].
  - destruct (write_blocks_full client0 ltac:(simpl; lia) 1 (λ _, None) 0 (Superblock.serialize sum32 sb0))
      as (d & E & Hh & _); [rewrite Superblock.length_serialize; vm_compute; lia|].
    unfold disk0. rewrite E. exact Hh.
  - left. done.
Qed.

Lemma snapshot0 : snapshot_ok sb0 [sample2].
Proof.
  assert (region_wf sample2) as W.
  { split; [|vm_compute; done]. vm_compute. repeat constructor; vm_compute; congruence. }
  split; [by apply Forall_singleton|done|vm_compute; congruence|vm_compute; congruence].
Qed.

Lemma synced0 : synced shared0 sb0.
Proof. done. Qed.

(** The sample disk after one checkpoint and after two. *)
Definition disk_after (d : Disk) (sh : SharedState) : Disk :=
  match checkpoint_io sum32 client0 2 d [sample2] sh with Ret (_, _, d') => d' | Panic => d end.
Definition disk1 : Disk := disk_after disk0 shared0.
Definition shared1 : SharedState := flipped shared0.
Definition sb1 : SB := sh_superblock shared1.
Definition disk2 : Disk := disk_after disk1 shared1.

Lemma durable1 : durable sum32 client0 disk1 sb1 [descs sample2].
Proof.
  destruct (checkpoint_io_spec sum32 client0 ltac:(vm_compute; lia) 2 disk0 sb0 [[]] shared0 [sample2]
    durable0 synced0 snapshot0 ltac:(vm_compute; done)) as (x & sh & d & E & _ & Hc).
  assert (copy_sectors client0 [sample2] = 1%nat) as Hn by (vm_compute; done).
  rewrite Hn in Hc. destruct Hc as [(_ & _ & [[_ ?]|(_ & ? & _)])|(D & -> & _)]; [lia..|].
  unfold disk1, disk_after. rewrite E. exact D.
Qed.

Lemma snapshot1 : snapshot_ok sb1 [sample2].
Proof. by destruct snapshot0; split. Qed.

Lemma checkpoint1 : checkpoint_io sum32 client0 2 disk1 [sample2] shared1 = Ret (Ok (), flipped shared1, disk2).
Proof.
  destruct (checkpoint_io_spec sum32 client0 ltac:(vm_compute; lia) 2 disk1 sb1 _ shared1 [sample2]
    durable1 (conj eq_refl eq_refl) snapshot1 ltac:(vm_compute; done)) as (x & sh & d & E & _ & Hc).
  assert (copy_sectors client0 [sample2] = 1%nat) as Hn by (vm_compute; done).
  rewrite Hn in Hc. destruct Hc as [(_ & _ & [[_ ?]|(_ & ? & _)])|(_ & -> & _)]; [lia..|].
  assert (match checkpoint_io sum32 client0 2 disk1 [sample2] shared1 with
          | Ret (Ok _, _, _) => true | _ => false end = true) as Hx by (vm_compute; reflexivity).
  unfold disk2, disk_after. rewrite E in Hx |- *. by destruct x as [[]|].
Qed.

Lemma checkpoint_crash_safe_witness :
  ∃ x sh' d', checkpoint_io sum32 client0 1 disk0 [sample2] shared0 = Ret (x, sh', d') ∧
    (recover sum32 client0 d' = Ret (Ok (sb0, [[]])) ∨
     recover sum32 client0 d' = Ret (Ok (sh_superblock sh', [descs sample2]))).
Proof.
  destruct (checkpoint_crash_safe sum32 sum32_range client0 ltac:(vm_compute; lia) 1 disk0 sb0 [[]] shared0
    [sample2] durable0 synced0 snapshot0 ltac:(vm_compute; done)) as (x & sh' & d' & E & H & _).
  exists x, sh', d'. split; [exact E|exact H].
Defined.

Lemma failed_superblock_write_loses_both_witness :
  ∃ d, recover sum32 client0 d = Ret (Err CorruptMetadata).
Proof.
  destruct (failed_superblock_write_loses_both sum32 sum32_range client0 ltac:(vm_compute; lia) disk1
    sb1 [descs sample2] shared1 [sample2] [sample2] durable1)
    as (sh1 & d1 & sh2 & d2 & _ & _ & _ & H);
    [split; reflexivity|vm_compute; congruence|apply snapshot1|apply snapshot1|vm_compute; reflexivity|].
  exists d2. exact H.
Defined.

Lemma recovery_falls_back_witness :
  recover sum32 client0 (λ l, if decide (l = 1) then None else disk2 l) =
  Ret (Ok (sh_superblock (flipped shared1), [descs sample2])).
Proof.
  apply (recovery_falls_back sum32 sum32_range client0 ltac:(vm_compute; lia) 2 disk1
    sb1 [descs sample2] shared1 [sample2] (flipped shared1) disk2 _ durable1);
    [split; reflexivity|vm_compute; congruence|apply snapshot1|vm_compute; reflexivity|exact checkpoint1| |reflexivity].
  intros l Hl. rewrite decide_False; [done|]. intros ->. apply Hl. vm_compute. split; congruence.
Defined.

End Recovery.
