(* ===== verification/ExtentManager.v ===== *)
(** The extent manager ([components/extent-manager/src/lib.rs]): formatting,
    recovery into regions, the extent operations routed to their region, and
    [run_checkpoint] with what other threads can do in the middle of it. *)

From S2P Require Import Prelude Slab Buddy Region Checkpoint Recovery.

Module ExtentManager.
Import Slab Region Codec Device Recovery.
Local Open Scope Z_scope.

(** [interfaces::Extent]. *)
Record Extent := mkExtent { x_key : Z; x_size : Z; x_offset : Z }.

(** The metadata block device: its sector size and base LBA, its length, and
    what is on it. *)
Record Device := mkDevice { dev_client : client; num_sectors : Z; disk : Disk }.

Record EM := mkEM {
  regions : option (list RegionState);
  shared : option SharedState;
  metadata_device : option Device
}.

Definition set_regions (em : EM) (rs : list RegionState) : EM :=
  mkEM (Some rs) (shared em) (metadata_device em).
Definition set_shared (em : EM) (sh : SharedState) : EM :=
  mkEM (regions em) (Some sh) (metadata_device em).
Definition set_disk (em : EM) (d : Disk) : EM :=
  mkEM (regions em) (shared em) ((λ v, mkDevice (dev_client v) (num_sectors v) d) <$> metadata_device em).

(** ** Routing *)

Definition region_for_key (em : EM) (key : Z) : outcome (res nat) :=
  match regions em with
  | None => Ret (Err NotInitialized)
  | Some rs =>
      m ← sub_w (Z.of_nat (length rs)) 1;
      let idx := Z.to_nat (Z.land key m) in
      _ ← vec_get rs idx;
      Ret (Ok idx)
  end.

Definition region_for_offset (em : EM) (offset : Z) : outcome (res nat) :=
  match regions em, shared em with
  | None, _ | _, None => Ret (Err NotInitialized)
  | Some rs, Some s =>
      let start := Superblock.data_start_offset (sh_superblock s) in
      usable ← sub_w (data_disk_size (sh_params s)) start;
      region_bytes ← div_w usable (Z.of_nat (length rs));
      if region_bytes =? 0 then Ret (Err NotInitialized)
      else
        let idx := Z.to_nat (saturating_sub offset start / region_bytes) in
        if (length rs <=? idx)%nat then Ret (Err (OffsetNotFound offset)) else Ret (Ok idx)
  end.

(** ** Format *)

Section crc.
Context (crc32 : list Z → Z).

(** Base and size of region [i] of [n]. *)
Definition region_base (start region_bytes : Z) (i : nat) : outcome Z :=
  m ← mul_w 64 (Z.of_nat i) region_bytes;
  add_w 64 start m.

Definition region_span (usable region_bytes : Z) (n i : nat) : outcome Z :=
  if (i <? n - 1)%nat then Ret region_bytes
  else
    m ← mul_w 64 (Z.of_nat n - 1) region_bytes;
    sub_w usable m.

Definition format_region (params : FormatParams) (start usable region_bytes : Z) (n i : nat) :
    outcome RegionState :=
  base ← region_base start region_bytes i;
  size ← region_span usable region_bytes n i;
  b ← Buddy.new base size (fp_sector_size params);
  Ret (new b params).

(** The layout of the checkpoint area: its offset, the size of a copy and where
    the data starts. *)
Definition layout (params : FormatParams) (metadata_disk_size : Z) : outcome (res (Z * Z * Z)) :=
  let alignment := metadata_alignment params in
  let sb_size := Z.of_nat Superblock.SUPERBLOCK_SIZE in
  checkpoint_region_offset ←
    (if alignment =? 0 then Ret sb_size
     else
       a ← add_w 64 sb_size alignment;
       a ← sub_w a 1;
       q ← div_w a alignment;
       mul_w 64 q alignment);
  let effective := if 0 <? metadata_region_size params
                   then Z.min metadata_disk_size (metadata_region_size params)
                   else metadata_disk_size in
  let remaining := saturating_sub effective checkpoint_region_offset in
  q ← div_w (remaining / 2) (fp_sector_size params);
  checkpoint_region_size ← mul_w 64 q (fp_sector_size params);
  if checkpoint_region_size =? 0 then Ret (Err CorruptMetadata)
  else
    data_start_offset ←
      (if 0 <? metadata_region_size params then
         m ← mul_w 64 2 checkpoint_region_size;
         add_w 64 checkpoint_region_offset m
       else Ret 0);
    Ret (Ok (checkpoint_region_offset, checkpoint_region_size, data_start_offset)).

Definition is_power_of_two (x : Z) : bool := (0 <? x) && (Z.land x (x - 1) =? 0).

(** [urandom] is the number read from [/dev/urandom], if that succeeds;
    [budget] bounds the sector writes the device completes. *)
Definition format (urandom : option Z) (budget : nat) (em : EM) (params : FormatParams) :
    outcome (res unit * EM) :=
  if fp_sector_size params =? 0 then Ret (Err CorruptMetadata, em)
  else if negb (fp_slab_size params mod fp_sector_size params =? 0) then Ret (Err CorruptMetadata, em)
  else if fp_slab_size params <? max_extent_size params then Ret (Err CorruptMetadata, em)
  else if negb (is_power_of_two (region_count params)) then Ret (Err CorruptMetadata, em)
  else
    match metadata_device em with
    | None => Ret (Err NotInitialized, em)
    | Some dev =>
        metadata_disk_size ← mul_w 64 (num_sectors dev) (Z.of_nat (sector_size (dev_client dev)));
        l ← layout params metadata_disk_size;
        match l with
        | Err e => Ret (Err e, em)
        | Ok (checkpoint_region_offset, checkpoint_region_size, data_start_offset) =>
            let usable := saturating_sub (data_disk_size params) data_start_offset in
            if usable =? 0 then Ret (Err CorruptMetadata, em)
            else
              let n := Z.to_nat (region_count params) in
              region_bytes ← div_w usable (region_count params);
              rs ← mapM (M:=outcome) (format_region params data_start_offset usable region_bytes n) (seq 0 n);
              match instance_id params ∪ urandom with
              | None => Ret (Err IoError, em)
              | Some id =>
                  let sb := Superblock.new (data_disk_size params) (fp_sector_size params)
                    (fp_slab_size params) (max_extent_size params) (region_count params)
                    checkpoint_region_offset checkpoint_region_size id
                    (metadata_disk_ns_id params) data_start_offset in
                  match write_blocks (dev_client dev) budget (disk dev) 0 (Superblock.serialize crc32 sb) with
                  | (Err e, d, _) => Ret (Err e, set_disk em d)
                  | (Ok _, d, _) =>
                      Ret (Ok (), set_shared (set_regions (set_disk em d) rs) (mkShared params 0 sb))
                  end
              end
        end
    end.

(** ** Recovery *)

(** The loop over [keys.iter().enumerate()], from slot [i]. *)
Fixpoint mark_keys (s : Slab) (i : nat) (ks : list Z) : outcome Slab :=
  match ks with
  | [] => Ret s
  | key :: ks =>
      if key =? FREE_KEY then mark_keys s (S i) ks
      else
        s ← mark_slot_allocated s i;
        s ← set_key s i key;
        mark_keys s (S i) ks
  end.

Definition slab_from_descriptor (d : SlabDescriptor) : outcome Slab :=
  s ← Slab.new (d_start_offset d) (d_slab_size d) (d_element_size d);
  mark_keys s 0 (d_keys d).

Fixpoint mark_slabs (b : Buddy.BuddyAllocator) (ds : list SlabDescriptor) : outcome Buddy.BuddyAllocator :=
  match ds with
  | [] => Ret b
  | d :: ds => b ← Buddy.mark_allocated b (d_start_offset d) (d_slab_size d); mark_slabs b ds
  end.

Fixpoint add_slabs (r : RegionState) (ds : list SlabDescriptor) : outcome RegionState :=
  match ds with
  | [] => Ret r
  | d :: ds =>
      s ← slab_from_descriptor d;
      let r := set_classes r (add_slab (size_classes r) (element_size s) (start_offset s)) in
      add_slabs (set_slabs r (BTree.insert (slabs r) (start_offset s) s)) ds
  end.

Definition recover_region (params : FormatParams) (start usable region_bytes : Z) (n : nat)
    (data : list (list SlabDescriptor)) (i : nat) : outcome RegionState :=
  base ← region_base start region_bytes i;
  size ← region_span usable region_bytes n i;
  let slab_descs := default [] (data !! i) in
  b ← Buddy.new base size (fp_sector_size params);
  b ← mark_slabs b slab_descs;
  add_slabs (new b params) slab_descs.

Definition initialize (em : EM) : outcome (res unit * EM) :=
  match metadata_device em with
  | None => Ret (Err NotInitialized, em)
  | Some dev =>
      r ← recover crc32 (dev_client dev) (disk dev);
      match r with
      | Err e => Ret (Err e, em)
      | Ok (sb, data) =>
          m ← mul_w 64 2 (Superblock.checkpoint_region_size sb);
          mrs ← add_w 64 (Superblock.checkpoint_region_offset sb) m;
          let params := mkParams (Superblock.data_disk_size sb) (Superblock.slab_size sb)
            (Superblock.max_extent_size sb) (Superblock.sector_size sb) (Superblock.region_count sb)
            (Superblock.checkpoint_region_offset sb) (Some (Superblock.instance_id sb))
            (Superblock.metadata_disk_ns_id sb) mrs in
          let start := Superblock.data_start_offset sb in
          let usable := saturating_sub (Superblock.data_disk_size sb) start in
          let n := Z.to_nat (Superblock.region_count sb) in
          region_bytes ← div_w usable (Superblock.region_count sb);
          rs ← mapM (M:=outcome) (recover_region params start usable region_bytes n data) (seq 0 n);
          Ret (Ok (), set_shared (set_regions em rs) (mkShared params (Superblock.checkpoint_seq sb) sb))
      end
  end.

(** ** Extents *)

(** A write handle: the region it was reserved in and what its two closures
    captured. [publish] and [abort] consume it; dropping it aborts. *)
Record WriteHandle := mkHandle {
  h_region : nat;
  h_key : Z;
  h_slab : Z;
  h_slot : nat;
  h_offset : Z;
  h_size : Z
}.

Definition update_region (em : EM) (i : nat) (r : RegionState) : outcome EM :=
  match regions em with
  | None => Panic
  | Some rs => rs ← vec_set rs i r; Ret (set_regions em rs)
  end.

(** The region an [Arc] points to. *)
Definition get_region (em : EM) (i : nat) : outcome RegionState :=
  match regions em with None => Panic | Some rs => vec_get rs i end.

Definition reserve_extent (em : EM) (key size : Z) : outcome (res WriteHandle * EM) :=
  i ← region_for_key em key;
  match i with
  | Err e => Ret (Err e, em)
  | Ok i =>
      r ← get_region em i;
      '(x, r) ← alloc_extent r size;
      em ← update_region em i r;
      match x with
      | Err e => Ret (Err e, em)
      | Ok (slab_start, slot_idx, offset) =>
          aligned_size ← align_to_sector_size size (fp_sector_size (format_params r));
          Ret (Ok (mkHandle i key slab_start slot_idx offset aligned_size), em)
      end
  end.

Definition publish (em : EM) (h : WriteHandle) : outcome (res Extent * EM) :=
  r ← get_region em (h_region h);
  r ← (if h_key h =? FREE_KEY then free_slot r (h_slab h) (h_slot h)
       else publish_slot r (h_slab h) (h_slot h) (h_key h));
  em ← update_region em (h_region h) r;
  Ret (Ok (mkExtent (h_key h) (h_size h) (h_offset h)), em).

Definition abort (em : EM) (h : WriteHandle) : outcome EM :=
  r ← get_region em (h_region h);
  r ← free_slot r (h_slab h) (h_slot h);
  update_region em (h_region h) r.

Definition remove_extent (em : EM) (offset : Z) : outcome (res unit * EM) :=
  i ← region_for_offset em offset;
  match i with
  | Err e => Ret (Err e, em)
  | Ok i =>
      r ← get_region em i;
      '(x, r) ← remove_extent_by_offset r offset;
      em ← update_region em i r;
      Ret (x, em)
  end.

(** The extents of a slab, in slot order from [i]. *)
Fixpoint slab_extents (s : Slab) (i m : nat) : outcome (list Extent) :=
  match m with
  | O => Ret []
  | S m =>
      key ← get_key s i;
      if key =? FREE_KEY then slab_extents s (S i) m
      else
        off ← slot_offset s i;
        l ← slab_extents s (S i) m;
        Ret (mkExtent key (element_size s) off :: l)
  end.

Definition region_extents (r : RegionState) : outcome (list Extent) :=
  l ← mapM (M:=outcome) (λ p, slab_extents p.2 0 (Slab.num_slots p.2)) (slabs r);
  Ret (concat l).

Definition get_extents (em : EM) : outcome (list Extent) :=
  match regions em with
  | None => Ret []
  | Some rs => l ← mapM (M:=outcome) region_extents rs; Ret (concat l)
  end.

Definition get_instance_id (em : EM) : res Z :=
  match shared em with
  | None => Err NotInitialized
  | Some s => Ok (Superblock.instance_id (sh_superblock s))
  end.

(** [sum()] of a [u64] iterator. *)
Definition sum64 (l : list Z) : outcome Z :=
  foldl (λ acc x, a ← acc; add_w 64 a x) (Ret 0) l.

Definition used_bytes (em : EM) : outcome Z :=
  match regions em with
  | None => Ret 0
  | Some rs =>
      l ← mapM (M:=outcome)
        (λ r, f ← Buddy.total_free (buddy r); sub_w (Buddy.total_usable_size (buddy r)) f) rs;
      sum64 l
  end.

Definition capacity_bytes (em : EM) : outcome Z :=
  match regions em with
  | None => Ret 0
  | Some rs => sum64 ((λ r, Buddy.total_usable_size (buddy r)) <$> rs)
  end.

(** ** Checkpoints

    [run_checkpoint] takes and releases the regions' locks three times; the
    three parts are separate so that other calls can come between them. *)

Definition checkpoint_begin (em : EM) : res bool :=
  match regions em with
  | None => Err NotInitialized
  | Some rs => Ok (existsb dirty rs)
  end.

Definition checkpoint_write (budget : nat) (em : EM) : outcome (res unit * EM) :=
  match metadata_device em, regions em, shared em with
  | None, _, _ | _, None, _ => Ret (Err NotInitialized, em)
  | _, _, None => Panic
  | Some dev, Some rs, Some sh =>
      '(x, sh, d) ← checkpoint_io crc32 (dev_client dev) budget (disk dev) rs sh;
      Ret (x, set_shared (set_disk em d) sh)
  end.

Definition checkpoint_finish (em : EM) : outcome EM :=
  match regions em with
  | None => Ret em
  | Some rs =>
      rs ← mapM (M:=outcome) (λ r, flush_pending_frees (set_dirty r false)) rs;
      Ret (set_regions em rs)
  end.

Definition run_checkpoint (budget : nat) (em : EM) : outcome (res unit * EM) :=
  match checkpoint_begin em with
  | Err e => Ret (Err e, em)
  | Ok false => Ret (Ok (), em)
  | Ok true =>
      '(x, em) ← checkpoint_write budget em;
      match x with
      | Err e => Ret (Err e, em)
      | Ok _ => em ← checkpoint_finish em; Ret (Ok (), em)
      end
  end.

End crc.

(** * A slab rebuilt from its descriptor *)

Lemma mark_slot_spec s bs i :
  Slab.ok s bs → bs !! i = Some false →
  ∃ s', mark_slot_allocated s i = Ret s' ∧ Slab.ok s' (<[i := true]> bs) ∧ same_shape s s' ∧
        keys s' = keys s.
Proof.
  intros [R E S K F H] Hi. destruct (Bitmap.set_spec _ _ _ R Hi) as (b & Eb & R').
  unfold mark_slot_allocated. rewrite Eb. simpl. eexists. split; [done|]. split_and!; [|..|done].
  - split; simpl; rewrite ?length_insert; [done..| |done]. intros j Hj. apply F.
    destruct (decide (j = i)) as [->|]; [|by rewrite list_lookup_insert_ne in Hj].
    rewrite list_lookup_insert_eq in Hj; [done|]. by eapply lookup_lt_Some.
  - unfold same_shape, Slab.num_slots. simpl. rewrite (Bitmap.rep_slots _ _ R'), (Bitmap.rep_slots _ _ R).
    by rewrite length_insert.
Qed.

(** What recovery takes to be allocated. *)
Definition keyed (ks : list Z) : list bool := (λ key, negb (key =? FREE_KEY)) <$> ks.

Lemma mark_keys_spec ks s pre :
  Slab.ok s (keyed pre ++ replicate (length ks) false) →
  keys s = pre ++ replicate (length ks) FREE_KEY →
  ∃ s', mark_keys s (length pre) ks = Ret s' ∧ Slab.ok s' (keyed (pre ++ ks)) ∧ same_shape s s' ∧
        keys s' = pre ++ ks.
Proof.
  revert s pre. induction ks as [|key ks IH]; intros s pre O Hk.
  { simpl in *. rewrite app_nil_r in *. exists s. by split_and!. }
  cbn [mark_keys]. destruct (Z.eqb_spec key FREE_KEY) as [->|Hne].
  - destruct (IH s (pre ++ [FREE_KEY])) as (s' & E & H).
    + unfold keyed. rewrite fmap_app, <- app_assoc. done.
    + by rewrite <- app_assoc.
    + rewrite length_app, Nat.add_1_r in E. rewrite <- app_assoc in H. eauto.
  - assert (length (keyed pre) = length pre) as Lp by apply length_fmap.
    destruct (mark_slot_spec s _ (length pre) O) as (s1 & -> & O1 & Sh1 & K1).
    { by rewrite lookup_app_r, Lp, Nat.sub_diag by lia. }
    rewrite bind_Ret_l. rewrite insert_app_r_alt, Lp, Nat.sub_diag in O1 by lia. simpl in O1.
    destruct (set_key_spec s1 _ (length pre) key O1) as (s2 & -> & O2 & Sh2 & K2 & _).
    { by rewrite lookup_app_r, Lp, Nat.sub_diag by lia. }
    rewrite bind_Ret_l. rewrite K1, Hk, insert_app_r_alt, Nat.sub_diag in K2 by lia. simpl in K2.
    destruct (IH s2 (pre ++ [key])) as (s' & E & O' & Sh' & K').
    + unfold keyed. rewrite fmap_app, <- app_assoc. simpl. rewrite (proj2 (Z.eqb_neq _ _) Hne). done.
    + by rewrite <- app_assoc.
    + rewrite length_app, Nat.add_1_r in E. rewrite <- app_assoc in O', K'.
      exists s'. split_and!; [done..| |done]. unfold same_shape in *. intuition congruence.
Qed.

Lemma new_keys start size elem s :
  Slab.new start size elem = Ret s → keys s = replicate (Slab.num_slots s) FREE_KEY.
Proof. unfold Slab.new. intros H. apply bind_Ret in H as (q & _ & [= <-]). done. Qed.

Lemma slab_from_descriptor_spec s bs :
  Slab.ok s bs →
  ∃ s', slab_from_descriptor (desc_of s) = Ret s' ∧ Slab.ok s' (keyed (keys s)) ∧ same_shape s s' ∧
        keys s' = keys s.
Proof.
  intros O. pose proof O as [R E Sl K F (H0 & H1 & H2)]. pose proof (Bitmap.rep_u32 _ _ R) as Hu.
  destruct (new_spec (start_offset s) (slab_size s) (element_size s)) as (s0 & En & O0 & E1 & E2 & E3); [lia..|].
  assert (Z.to_nat (slab_size s / element_size s) = length (keys s)) as El by lia. rewrite El in O0.
  assert (Slab.num_slots s0 = length (keys s)) as Hn0.
  { unfold Slab.num_slots. by rewrite (Bitmap.rep_slots _ _ (ok_bitmap _ _ O0)), length_replicate. }
  destruct (mark_keys_spec (keys s) s0 []) as (s' & E' & O' & Sh & K').
  { done. }
  { rewrite (new_keys _ _ _ _ En), Hn0. done. }
  unfold slab_from_descriptor. simpl. rewrite En, bind_Ret_l. exists s'. split_and!; [done..| |done].
  unfold same_shape in *. destruct Sh as (? & ? & ? & ?). unfold Slab.num_slots in *.
  rewrite (Bitmap.rep_slots _ _ R), <- K. split_and!; congruence.
Qed.

Section rebuild.
Context (k : Z) (Hk : 0 ≤ k).

(** ** The buddy allocator rebuilt from the slabs it had handed out *)

Lemma live_all_free b0 b a size todo don :
  Buddy.parts k b0 ((a, size) :: todo ++ don) → Buddy.parts k b don →
  Buddy.base_offset b = Buddy.base_offset b0 → Buddy.usable b = Buddy.usable b0 →
  0 ≤ size < 2 ^ 63 ∧ (2 ^ k | size) ∧
  Buddy.blk_ok k (Buddy.usable b) (Buddy.max_order b) (Buddy.order_for k size) (a - Buddy.base_offset b) ∧
  Buddy.all_free k (Buddy.flat (Buddy.free_lists b)) (Buddy.order_for k size) (a - Buddy.base_offset b).
Proof.
  intros [O0 L0 C0] [O L C] Eb Eu. destruct (L0 a size) as (Hs & Hd & (_ & Hal & Hx & Hr)); [by left|].
  rewrite <- Eb, <- Eu in *. split_and!; [lia|lia|done| |].
  - split_and!; [|done..]. pose proof (Buddy.p_max _ _ (Buddy.ok_params _ _ O)) as Hmax.
    destruct (Nat.le_gt_cases (Buddy.order_for k size) (Buddy.max_order b)) as [|Hgt]; [done|].
    pose proof (Buddy.sp_mono k (S (Buddy.max_order b)) (Buddy.order_for k size) Hgt). lia.
  - intros y Hy. specialize (C y). specialize (C0 y).
    rewrite holds_one in C by lia. rewrite holds_one in C0 by lia.
    unfold Buddy.live_ranges in C, C0. rewrite fmap_cons, fmap_app, cover_cons, cover_app in C0.
    cbn [fst snd] in C0. rewrite <- Eb, holds_one in C0 by done.
    pose proof (cover_nonneg (Buddy.ranges k (Buddy.flat (Buddy.free_lists b0))) y).
    pose proof (cover_nonneg ((λ r, (r.1 - Buddy.base_offset b, Buddy.sp k (Buddy.order_for k r.2))) <$> todo) y).
    pose proof (cover_nonneg ((λ r, (r.1 - Buddy.base_offset b, Buddy.sp k (Buddy.order_for k r.2))) <$> don) y).
    lia.
Qed.

Definition desc_live (ds : list SlabDescriptor) : list (Z * Z) :=
  (λ d, (d_start_offset d, d_slab_size d)) <$> ds.

Lemma mark_slabs_spec b0 ds b don :
  Buddy.parts k b0 (desc_live ds ++ don) → Buddy.parts k b don →
  Buddy.base_offset b = Buddy.base_offset b0 → Buddy.usable b = Buddy.usable b0 →
  ∃ b', mark_slabs b ds = Ret b' ∧ Buddy.parts k b' (desc_live ds ++ don) ∧
    Buddy.base_offset b' = Buddy.base_offset b ∧
    Buddy.total_usable_size b' = Buddy.total_usable_size b ∧ Buddy.sector_size b' = Buddy.sector_size b.
Proof.
  revert b don. induction ds as [|d ds IH]; intros b don P0 P Eb Eu; [by exists b|].
  cbn [mark_slabs]. destruct (live_all_free b0 b _ _ _ _ P0 P Eb Eu) as (Hs & Hd & Bx & Fx).
  destruct (Buddy.mark_allocated_spec k Hk b _ _ (Buddy.parts_ok _ _ _ P) Hs Hd Bx Fx) as (b1 & E & T).
  replace (Buddy.base_offset b + (d_start_offset d - Buddy.base_offset b)) with (d_start_offset d) in E by lia.
  rewrite E, bind_Ret_l. pose proof (Buddy.parts_take k _ _ _ _ _ P Hs Hd T) as P1.
  destruct T as (_ & (fls & ->) & _).
  destruct (IH (Buddy.set_lists b fls) ((d_start_offset d, d_slab_size d) :: don)) as (b' & E' & P' & H');
    [|done..|].
  - eapply Buddy.buddy_parts_perm; [|exact P0]. by rewrite <- Permutation_middle.
  - exists b'. split_and!; [done| |apply H'..].
    eapply Buddy.buddy_parts_perm; [|exact P']. by rewrite <- Permutation_middle.
Qed.

(** ** The region rebuilt from its descriptors *)

(** A slab and its rebuilt version. *)
Definition reb (p p' : Z * Slab) : Prop :=
  p'.1 = p.1 ∧ same_shape p.2 p'.2 ∧ keys p'.2 = keys p.2 ∧ Slab.ok p'.2 (keyed (keys p.2)).

Lemma add_slabs_spec ss r :
  (∀ st s, (st, s) ∈ ss → start_offset s = st ∧ ∃ bs, Slab.ok s bs) →
  BTree.sorted (slabs r ++ ss) →
  ∃ r' ss', add_slabs r (desc_of <$> ss.*2) = Ret r' ∧ slabs r' = slabs r ++ ss' ∧ Forall2 reb ss ss' ∧
    (∀ e st, st ∈ get_slabs (size_classes r') e ↔
       st ∈ get_slabs (size_classes r) e ∨ ∃ s, (st, s) ∈ ss ∧ element_size s = e) ∧
    buddy r' = buddy r ∧ dirty r' = dirty r ∧ format_params r' = format_params r ∧
    pending_frees r' = pending_frees r.
Proof.
  revert r. induction ss as [|[st s] ss IH]; intros r Hss Hso.
  { exists r, []. rewrite app_nil_r. split_and!; try done. set_solver. }
  destruct (Hss st s) as (Hst & bs & O); [by left|].
  destruct (slab_from_descriptor_spec s bs O) as (s' & Es & O' & Sh & K).
  cbn [fmap list_fmap add_slabs snd]. rewrite Es, bind_Ret_l.
  pose proof Sh as (E1 & E2 & E3 & E4). rewrite E1, Hst. cbn [slabs set_classes].
  rewrite (BTreeFacts.insert_last (slabs r) st s') by (by eapply BTreeFacts.sorted_app_cons).
  set (r1 := set_slabs _ _).
  destruct (IH r1) as (r' & ss' & -> & Hsl & HF & Hcl & H').
  - intros st2 s2 Hin. apply Hss. by right.
  - simpl. rewrite <- app_assoc. simpl. by eapply BTreeFacts.sorted_replace.
  - exists r', ((st, s') :: ss'). split_and!; [done| | | |apply H'..].
    + rewrite Hsl. simpl. by rewrite <- app_assoc.
    + constructor; [|done]. by split_and!.
    + intros e st2. rewrite Hcl. simpl. rewrite class_elem_add, E3. set_solver.
Qed.

(** The superblocks [format] writes, for sectors of [2^k] bytes. *)
Record sb_ok (s : SB) : Prop := {
  sb_fields : Superblock.ok s;
  sb_sector : Superblock.sector_size s = 2 ^ k ∧ k < 32;
  sb_regions : 0 < Superblock.region_count s;
  sb_data : Superblock.data_start_offset s ≤ Superblock.data_disk_size s < 2 ^ 63;
  sb_slab : 0 < Superblock.slab_size s < 2 ^ 63 ∧ (2 ^ k | Superblock.slab_size s) ∧
            Superblock.slab_size s / 2 ^ k < 2 ^ 32
}.

Definition sb_usable (s : SB) : Z := Superblock.data_disk_size s - Superblock.data_start_offset s.
Definition sb_region_bytes (s : SB) : Z := sb_usable s / Superblock.region_count s.
Definition sb_count (s : SB) : nat := Z.to_nat (Superblock.region_count s).

Definition place_base (s : SB) (i : nat) : Z :=
  Superblock.data_start_offset s + Z.of_nat i * sb_region_bytes s.
Definition place_size (s : SB) (i : nat) : Z :=
  if (i <? sb_count s - 1)%nat then sb_region_bytes s
  else sb_usable s - (Superblock.region_count s - 1) * sb_region_bytes s.

(** Region [i] has the share of the disk the superblock gives it. *)
Record placed (s : SB) (i : nat) (r : RegionState) : Prop := {
  pl_base : Buddy.base_offset (buddy r) = place_base s i;
  pl_size : Buddy.total_usable_size (buddy r) = place_size s i;
  pl_slab : fp_slab_size (format_params r) = Superblock.slab_size s
}.

Lemma place_bounds s i :
  sb_ok s → (i < sb_count s)%nat →
  0 ≤ Superblock.data_start_offset s ≤ place_base s i ∧ 0 ≤ place_size s i ∧ 0 ≤ sb_region_bytes s ∧
  Z.of_nat i * sb_region_bytes s < 2 ^ 63 ∧
  (Superblock.region_count s - 1) * sb_region_bytes s ≤ sb_usable s ∧
  place_base s i + place_size s i ≤ Superblock.data_disk_size s.
Proof.
  intros [F _ Hr Hd _] Hi. destruct F as [_ _ (_ & _ & _ & _ & _ & _ & [U _]) _].
  unfold place_base, place_size, sb_region_bytes, sb_count in *.
  assert (0 ≤ sb_usable s) as Hu by (unfold sb_usable; lia).
  pose proof (Z.mul_div_le (sb_usable s) (Superblock.region_count s) Hr) as Hm.
  assert (0 ≤ sb_usable s / Superblock.region_count s) as Hq by (apply Z.div_pos; lia).
  set (q := sb_usable s / Superblock.region_count s) in *. set (n := Superblock.region_count s) in *.
  assert (Z.of_nat i ≤ n - 1) by lia. assert (Z.of_nat i * q ≤ (n - 1) * q) by nia.
  assert (sb_usable s + Superblock.data_start_offset s < 2 ^ 63) by (unfold sb_usable; lia).
  unfold sb_usable in *. destruct (Nat.ltb_spec i (Z.to_nat n - 1)); split_and!; try lia; nia.
Qed.

Lemma region_base_spec s i :
  sb_ok s → (i < sb_count s)%nat →
  region_base (Superblock.data_start_offset s) (sb_region_bytes s) i = Ret (place_base s i) ∧
  region_span (sb_usable s) (sb_region_bytes s) (sb_count s) i = Ret (place_size s i).
Proof.
  intros S Hi. pose proof (place_bounds s i S Hi). pose proof (sb_data _ S). pose proof (sb_regions _ S).
  unfold region_base, region_span, place_size. split.
  - rewrite mul_w_Ret by lia. rewrite bind_Ret_l. unfold place_base in *. apply add_w_Ret. lia.
  - destruct (i <? sb_count s - 1)%nat; [done|].
    replace (Z.of_nat (sb_count s)) with (Superblock.region_count s) by (unfold sb_count; lia).
    rewrite mul_w_Ret by (unfold sb_usable in *; lia). rewrite bind_Ret_l. apply sub_w_Ret. lia.
Qed.

Lemma fresh_buddy s i :
  sb_ok s → (i < sb_count s)%nat →
  ∃ b, Buddy.new (place_base s i) (place_size s i) (2 ^ k) = Ret b ∧ Buddy.parts k b [] ∧
    Buddy.base_offset b = place_base s i ∧ Buddy.total_usable_size b = place_size s i ∧
    Buddy.sector_size b = 2 ^ k.
Proof.
  intros S Hi. pose proof (place_bounds s i S Hi). pose proof (sb_data _ S). pose proof (sb_sector _ S).
  destruct (Buddy.buddy_new_spec k Hk (place_base s i) (place_size s i))
    as (b & E & O & E1 & E2 & E3 & C); [lia..|].
  exists b. split_and!; [done| |done..]. split; [done|set_solver|]. intros y. rewrite C. simpl. lia.
Qed.

Lemma desc_live_descs r : base_ok k r → desc_live (descs r) = slab_live (slabs r).
Proof.
  intros O. unfold desc_live, descs, slab_live. rewrite <- !list_fmap_compose.
  apply list_fmap_ext. intros j [st s] Hj. simpl.
  by rewrite (s_start _ _ _ _ (ok_slabs _ _ O st s ltac:(by eapply list_elem_of_lookup_2))).
Qed.

Lemma reb_elem ss ss' : Forall2 reb ss ss' →
  (∀ st s', (st, s') ∈ ss' → ∃ s, (st, s) ∈ ss ∧ reb (st, s) (st, s')) ∧
  (∀ st s, (st, s) ∈ ss → ∃ s', (st, s') ∈ ss' ∧ reb (st, s) (st, s')) ∧
  ss'.*1 = ss.*1 ∧ slab_live ss' = slab_live ss.
Proof.
  induction 1 as [|[st s] [st' s'] ss ss' Hr _ (IH1 & IH2 & IH3 & IH4)].
  { split_and!; [set_solver..|done|done]. }
  pose proof Hr as (E & (_ & E2 & _) & _). simpl in E, E2. subst st'. split_and!.
  - intros st2 s2 [[= -> ->]|Hin]%elem_of_cons; [set_solver|].
    destruct (IH1 _ _ Hin) as (s3 & ? & ?). set_solver.
  - intros st2 s2 [[= -> ->]|Hin]%elem_of_cons; [set_solver|].
    destruct (IH2 _ _ Hin) as (s3 & ? & ?). set_solver.
  - by rewrite !fmap_cons, IH3.
  - unfold slab_live in *. rewrite !fmap_cons, IH4. simpl. by rewrite E2.
Qed.

(** Rebuilding the slabs of a well-formed region around a buddy allocator that
    has the same blocks handed out. *)
Lemma rebuilt_ok r0 b fp :
  ok k r0 → Buddy.parts k b (slab_live (slabs r0)) → params_ok k (new b fp) →
  fp_slab_size fp = fp_slab_size (format_params r0) →
  ∃ r', add_slabs (new b fp) (descs r0) = Ret r' ∧ ok k r' ∧ buddy r' = b ∧ format_params r' = fp ∧
    dirty r' = false ∧ pending_frees r' = [] ∧ Forall2 reb (slabs r0) (slabs r').
Proof.
  intros [O0 _ _] B P Efp. destruct (add_slabs_spec (slabs r0) (new b fp))
    as (r' & ss' & E & Hsl & HF & Hcl & Eb & Ed & Ef & Ep).
  - intros st s Hin. destruct (ok_slabs _ _ O0 _ _ Hin) as [<- _ _ ?]. done.
  - apply O0.
  - simpl in *. subst ss'. destruct (reb_elem _ _ HF) as (H1 & H2 & H3 & H4).
    exists r'. split_and!; try done. split; [split|split|split].
    + destruct P. split; by rewrite Ef.
    + by rewrite Eb, H4.
    + unfold BTree.sorted. rewrite H3. apply O0.
    + intros st s' Hin. destruct (H1 _ _ Hin) as (s & Hin0 & _ & (E1 & E2 & E3 & E4) & _ & Os). simpl in *.
      destruct (ok_slabs _ _ O0 _ _ Hin0) as [F1 F2 F3 F4].
      split; [congruence|rewrite Ef; congruence|by rewrite E3, E2|eauto].
    + intros e st Hin. apply Hcl in Hin as [Hin|(s & Hin & He)].
      { unfold get_slabs in Hin. simpl in Hin. rewrite lookup_empty in Hin. set_solver. }
      destruct (H2 _ _ Hin) as (s' & Hin' & _ & (_ & _ & E3 & _) & _). exists s'. split; [done|].
      simpl in *. congruence.
    + intros st s' Hin Hf. destruct (H1 _ _ Hin) as (s & Hin0 & _ & (_ & _ & E3 & _) & _).
      apply Hcl. right. exists s. split; [done|]. simpl in *. congruence.
    + rewrite Ep. set_solver.
    + rewrite Ep. constructor.
Qed.

Lemma recover_region_spec s params data i r0 :
  sb_ok s → (i < sb_count s)%nat → fp_sector_size params = Superblock.sector_size s →
  fp_slab_size params = Superblock.slab_size s → ok k r0 → placed s i r0 →
  default [] (data !! i) = descs r0 →
  ∃ r', recover_region params (Superblock.data_start_offset s) (sb_usable s) (sb_region_bytes s)
          (sb_count s) data i = Ret r' ∧
    ok k r' ∧ placed s i r' ∧ dirty r' = false ∧ pending_frees r' = [] ∧
    Forall2 reb (slabs r0) (slabs r').
Proof.
  intros S Hi Eps Epl O0 [P1 P2 P3] Hd. unfold recover_region.
  destruct (region_base_spec s i S Hi) as [-> ->]. rewrite !bind_Ret_l, Hd, Eps.
  pose proof (sb_sector _ S) as [Es _]. rewrite Es.
  destruct (fresh_buddy s i S Hi) as (b & -> & B & E1 & E2 & E3). rewrite bind_Ret_l.
  pose proof (ok_buddy _ _ (ok_base _ _ O0)) as B0.
  pose proof (Buddy.p_sector _ _ (Buddy.ok_params _ _ (Buddy.parts_ok _ _ _ B0))) as Es0.
  destruct (mark_slabs_spec (buddy r0) (descs r0) b []) as (b' & -> & B' & F1 & F2 & F3).
  - rewrite app_nil_r, desc_live_descs; [done|apply O0].
  - done.
  - congruence.
  - unfold Buddy.usable. rewrite E2, E3, P2, Es0. done.
  - rewrite app_nil_r, desc_live_descs in B' by apply O0. rewrite bind_Ret_l.
    destruct (rebuilt_ok r0 b' params O0 B') as (r' & E & O' & Eb & Ef & Ed & Ep & HF).
    + destruct (sb_slab _ S) as (? & ? & ?). split; simpl; rewrite ?Epl, ?Eps; done.
    + congruence.
    + exists r'. split_and!; [done..| |done|done|done]. split; congruence.
Qed.

(** ** What a rebuilt region shows *)

Lemma slab_extents_same s s' i m :
  same_shape s s' → keys s' = keys s → slab_extents s' i m = slab_extents s i m.
Proof.
  intros (E1 & _ & E3 & _) K. revert i. induction m as [|m IH]; intros i; [done|].
  cbn [slab_extents]. unfold get_key, slot_offset. rewrite K, E1, E3, IH. done.
Qed.

Lemma reb_extents r r' :
  Forall2 reb (slabs r) (slabs r') → region_extents r' = region_extents r ∧ descs r' = descs r.
Proof.
  intros HF. unfold region_extents, descs.
  assert (mapM (M:=outcome) (λ p, slab_extents p.2 0 (Slab.num_slots p.2)) (slabs r') =
          mapM (M:=outcome) (λ p, slab_extents p.2 0 (Slab.num_slots p.2)) (slabs r) ∧
          desc_of <$> (slabs r').*2 = desc_of <$> (slabs r).*2) as [-> ->]; [|done].
  induction HF as [|[st s] [st' s'] ss ss' (E & Sh & K & _) _ [IH1 IH2]]; [done|].
  pose proof Sh as (E1 & E2 & E3 & E4). cbn [fst snd] in *. split.
  - cbn [mapM snd]. by rewrite E4, (slab_extents_same s s'), IH1.
  - rewrite !fmap_cons, IH2. unfold desc_of. simpl. by rewrite E1, E2, E3, K.
Qed.

(** Published extents survive, everything else is free. *)
Lemma reb_slot_state r r' st i :
  ok k r → ok k r' → pending_frees r' = [] → Forall2 reb (slabs r) (slabs r') →
  slot_state r' st i =
  match slot_state r st i with Some (Published key) => Some (Published key) | _ => None end.
Proof.
  intros [O _ [Q _]] [O' _ _] Hp HF. destruct (reb_elem _ _ HF) as (H1 & H2 & _).
  unfold slot_state. destruct (BTree.get (slabs r) st) as [s|] eqn:Hg.
  - apply (get_slab k _ _ _ O) in Hg. destruct (H2 _ _ Hg) as (s' & Hin' & _ & Sh & K & Os'). simpl in *.
    rewrite (proj2 (get_slab k _ _ _ O') Hin'). unfold slot_view.
    destruct (s_ok _ _ _ _ (ok_slabs _ _ O _ _ Hg)) as [bs Os].
    rewrite (slot_bit_spec _ _ _ Os), (slot_bit_spec _ _ _ Os'), K, Hp. unfold keyed. rewrite list_lookup_fmap.
    rewrite (bool_decide_false ((st, i) ∈ [])) by set_solver.
    destruct (bs !! i) as [bit|] eqn:Hb.
    + destruct (lookup_lt_is_Some_2 (keys s) i) as [key Hkey].
      { rewrite (ok_keys _ _ Os). by eapply lookup_lt_Some. }
      rewrite Hkey. simpl. destruct (Z.eqb_spec key FREE_KEY) as [->|Hne]; simpl.
      * destruct bit; [|done]. by case_bool_decide.
      * destruct bit; [|by rewrite (ok_free _ _ Os _ Hb) in Hkey; naive_solver].
        rewrite bool_decide_false; [done|]. intros Hpd. destruct (Q _ _ Hpd) as (s2 & Hin2 & _ & Hk2).
        rewrite (slab_unique k _ _ _ _ O Hin2 Hg) in Hk2. congruence.
    + assert (keys s !! i = None) as ->; [|done].
      apply lookup_ge_None. rewrite (ok_keys _ _ Os). by apply lookup_ge_None.
  - assert (BTree.get (slabs r') st = None) as ->; [|done]. apply BTreeFacts.get_None. intros s' Hin'.
    destruct (H1 _ _ Hin') as (s & Hin & _). by apply (proj1 (BTreeFacts.get_None _ _) Hg s).
Qed.

(** ** Initialisation *)

(** An initialised extent manager. *)
Record em_ok (em : EM) (rs : list RegionState) (sh : SharedState) (dev : Device) : Prop := {
  e_regions : regions em = Some rs;
  e_shared : shared em = Some sh;
  e_device : metadata_device em = Some dev;
  e_sb : sb_ok (sh_superblock sh);
  e_disk : data_disk_size (sh_params sh) = Superblock.data_disk_size (sh_superblock sh);
  e_count : length rs = sb_count (sh_superblock sh);
  e_region : ∀ i r, rs !! i = Some r → ok k r ∧ placed (sh_superblock sh) i r
}.

Lemma manager_initialize_spec crc32 (Hcrc : ∀ l, is_u 32 (crc32 l)) em dev s rs :
  metadata_device em = Some dev → (96 ≤ sector_size (dev_client dev))%nat → sb_ok s →
  durable crc32 (dev_client dev) (disk dev) s (descs <$> rs) → length rs = sb_count s →
  (∀ i r, rs !! i = Some r → ok k r ∧ placed s i r) →
  ∃ em' rs' sh, initialize crc32 em = Ret (Ok (), em') ∧ em_ok em' rs' sh dev ∧ synced sh s ∧
    ∀ i r, rs !! i = Some r → ∃ r', rs' !! i = Some r' ∧ ok k r' ∧ dirty r' = false ∧
      pending_frees r' = [] ∧ Forall2 reb (slabs r) (slabs r').
Proof.
  intros Hdev Hss S D Hlen Hrs. unfold initialize. rewrite Hdev.
  rewrite (recover_durable crc32 Hcrc _ Hss _ _ _ D), bind_Ret_l.
  destruct (du_geometry _ _ _ _ _ D) as [_ _ G1 G2]. pose proof (sb_regions _ S). pose proof (sb_data _ S).
  rewrite mul_w_Ret by lia. rewrite bind_Ret_l, add_w_Ret by lia. rewrite bind_Ret_l.
  set (params := mkParams _ _ _ _ _ _ _ _ _).
  assert (saturating_sub (Superblock.data_disk_size s) (Superblock.data_start_offset s) = sb_usable s) as ->
    by (unfold saturating_sub, sb_usable; lia).
  rewrite div_w_Ret, bind_Ret_l by lia. fold (sb_region_bytes s) (sb_count s).
  destruct (mapM_exists (recover_region params (Superblock.data_start_offset s) (sb_usable s)
      (sb_region_bytes s) (sb_count s) (descs <$> rs)) (seq 0 (sb_count s))
    (λ i r', ∃ r, rs !! i = Some r ∧ ok k r' ∧ placed s i r' ∧ dirty r' = false ∧
       pending_frees r' = [] ∧ Forall2 reb (slabs r) (slabs r'))) as (rs' & -> & Hl' & Hrs').
  { intros i j [-> Hj]%lookup_seq. rewrite Nat.add_0_l.
    destruct (lookup_lt_is_Some_2 rs i) as [r Hr]; [lia|].
    destruct (Hrs _ _ Hr) as [O P].
    destruct (recover_region_spec s params (descs <$> rs) i r) as (r' & E & H'); try done.
    - by rewrite list_lookup_fmap, Hr.
    - exists r'. split; [exact E|]. exists r. split_and!; [done|apply H'..]. }
  rewrite length_seq in Hl'. rewrite bind_Ret_l.
  eexists _, rs', (mkShared params (Superblock.checkpoint_seq s) s). split; [reflexivity|].
  split_and!; [|by split|].
  - split; try done. intros i r' Hr'. destruct (Hrs' _ _ Hr') as (r & _ & ? & ? & _). done.
  - intros i r Hr. destruct (lookup_lt_is_Some_2 rs' i) as [r' Hr'].
    { apply lookup_lt_Some in Hr. lia. }
    destruct (Hrs' _ _ Hr') as (r2 & Hr2 & ? & _ & ? & ? & ?). simplify_eq. eauto 10.
Qed.

(** ** Finishing a checkpoint *)

Lemma free_slot_dirty r st i r' : free_slot r st i = Ret r' → dirty r' = dirty r.
Proof.
  unfold free_slot. destruct (BTree.get (slabs r) st) as [s|]; [|by intros [= <-]].
  intros (s' & _ & H)%bind_Ret. destruct (is_empty s').
  - apply bind_Ret in H as (b & _ & [= <-]). done.
  - destruct (is_full s); by injection H as <-.
Qed.

Lemma free_all_dirty frees r r' : free_all r frees = Ret r' → dirty r' = dirty r.
Proof.
  revert r. induction frees as [|[st i] frees IH]; intros r; simpl; [by intros [= <-]|].
  intros (r1 & H1 & H2)%bind_Ret. rewrite (IH _ H2). by eapply free_slot_dirty.
Qed.

Lemma flush_clean_spec r :
  ok k r → ∃ r', flush_pending_frees (set_dirty r false) = Ret r' ∧ ok k r' ∧ frame r r' ∧
    dirty r' = false ∧ keeps_live r r' ∧
    ∀ st i, slot_state r' st i = if decide (slot_state r st i = Some Pending) then None else slot_state r st i.
Proof.
  intros [O C P]. set (r0 := set_dirty r false).
  assert (ok k r0) as O0.
  { destruct (ok_same k r r0) as [? ?]; [done..|]. split; [done..|]. by destruct P; split. }
  destruct (flush_spec k Hk r0 O0) as (r' & E & O' & F & _ & Kp & U). exists r'. split_and!; [done..| |done|done].
  by apply free_all_dirty in E.
Qed.

Lemma placed_frame s i r r' : frame r r' → placed s i r → placed s i r'.
Proof. intros (E1 & E2 & E3) [P1 P2 P3]. split; congruence. Qed.

Lemma em_ok_regions em rs rs' sh dev :
  em_ok em rs sh dev → length rs' = length rs →
  (∀ i r', rs' !! i = Some r' → ∃ r, rs !! i = Some r ∧ ok k r' ∧ frame r r') →
  em_ok (set_regions em rs') rs' sh dev.
Proof.
  intros [E1 E2 E3 E4 E5 E6 E7] Hl H. split; [done..|congruence|].
  intros i r' Hr'. destruct (H _ _ Hr') as (r & Hr & O & F). split; [done|].
  eapply placed_frame; [done|]. by apply E7.
Qed.

Lemma checkpoint_finish_spec em rs sh dev :
  em_ok em rs sh dev →
  ∃ rs', checkpoint_finish em = Ret (set_regions em rs') ∧ em_ok (set_regions em rs') rs' sh dev ∧
    existsb dirty rs' = false ∧
    ∀ i r, rs !! i = Some r → ∃ r', rs' !! i = Some r' ∧ (ok k r' ∧ keeps_live r r') ∧
      ∀ st j, slot_state r' st j = if decide (slot_state r st j = Some Pending) then None else slot_state r st j.
Proof.
  intros E. unfold checkpoint_finish. rewrite (e_regions _ _ _ _ E).
  destruct (mapM_exists (λ r, flush_pending_frees (set_dirty r false)) rs
    (λ i r', ∃ r, rs !! i = Some r ∧ ok k r' ∧ frame r r' ∧ dirty r' = false ∧ keeps_live r r' ∧
       ∀ st j, slot_state r' st j = if decide (slot_state r st j = Some Pending) then None else slot_state r st j))
    as (rs' & -> & Hl & Hrs').
  { intros i r Hr. destruct (e_region _ _ _ _ E _ _ Hr) as [O _].
    destruct (flush_clean_spec r O) as (r' & Er & H'). exists r'. split; [done|]. exists r. split; [done|apply H']. }
  rewrite bind_Ret_l. exists rs'. split_and!; [done|..].
  - apply (em_ok_regions em rs); [done..|]. intros i r' Hr'.
    destruct (Hrs' _ _ Hr') as (r & ? & ? & ? & _). eauto.
  - apply not_true_iff_false. rewrite existsb_exists. intros (r' & Hin & Hd).
    apply list_elem_of_In, list_elem_of_lookup in Hin as [i Hi].
    destruct (Hrs' _ _ Hi) as (_ & _ & _ & _ & Hf & _). congruence.
  - intros i r Hr. destruct (lookup_lt_is_Some_2 rs' i) as [r' Hr'].
    { rewrite Hl. by eapply lookup_lt_Some. }
    destruct (Hrs' _ _ Hr') as (r2 & ? & ? & _ & _ & ? & ?). simplify_eq. eauto.
Qed.

(** ** Routing *)

Lemma extent_sector r st j off e : base_ok k r → extent_at r st j off e → 2 ^ k ≤ e.
Proof.
  intros O (s & Hin & <- & _). destruct (ok_slabs _ _ O _ _ Hin) as [_ _ [[? _] Hd] _].
  by apply Z.divide_pos_le.
Qed.

Lemma region_for_offset_spec em rs sh dev i r st j off e :
  em_ok em rs sh dev → rs !! i = Some r → extent_at r st j off e →
  Superblock.region_count (sh_superblock sh) ≤ 2 ^ k →
  region_for_offset em off = Ret (Ok i).
Proof.
  intros E Hi X Hn. destruct (e_region _ _ _ _ E _ _ Hi) as [[O _ _] [P1 P2 _]].
  destruct (extent_inside_slab k _ _ _ _ _ O X) as (sl & Hin & He & Hlo & Hhi).
  pose proof (slab_inside k Hk _ _ _ O Hin) as [Hb1 Hb2]. pose proof (extent_sector _ _ _ _ _ O X) as Hek.
  rewrite P1, P2 in *. pose proof (lookup_lt_Some _ _ _ Hi) as Hlt. rewrite (e_count _ _ _ _ E) in Hlt.
  pose proof (place_bounds _ i (e_sb _ _ _ _ E) Hlt) as (B1 & B2 & B3 & _).
  pose proof (sb_data _ (e_sb _ _ _ _ E)) as Hd. pose proof (sb_regions _ (e_sb _ _ _ _ E)) as Hr.
  unfold region_for_offset. rewrite (e_regions _ _ _ _ E), (e_shared _ _ _ _ E), (e_disk _ _ _ _ E).
  set (s := sh_superblock sh) in *. rewrite sub_w_Ret by lia. rewrite bind_Ret_l, (e_count _ _ _ _ E).
  fold s. replace (Z.of_nat (sb_count s)) with (Superblock.region_count s) by (unfold sb_count; lia).
  rewrite div_w_Ret, bind_Ret_l by lia. fold (sb_usable s) (sb_region_bytes s).
  assert (0 ≤ off - place_base s i < sb_region_bytes s) as Hx.
  { split; [lia|]. unfold place_size in Hb2. destruct (Nat.ltb_spec i (sb_count s - 1)); [lia|].
    pose proof (Z.mod_pos_bound (sb_usable s) _ Hr). pose proof (Z.div_mod (sb_usable s) (Superblock.region_count s)).
    unfold sb_region_bytes in *. nia. }
  rewrite (proj2 (Z.eqb_neq _ _)) by lia.
  assert (saturating_sub off (Superblock.data_start_offset s) / sb_region_bytes s = Z.of_nat i) as ->.
  { symmetry. apply (Z.div_unique _ _ _ (off - place_base s i)); [lia|].
    unfold saturating_sub, place_base in *. lia. }
  rewrite Nat2Z.id. by rewrite (proj2 (Nat.leb_gt _ _)).
Qed.

Lemma region_for_key_spec em rs sh dev key :
  em_ok em rs sh dev → 0 ≤ key →
  ∃ i r, region_for_key em key = Ret (Ok i) ∧ rs !! i = Some r ∧ get_region em i = Ret r.
Proof.
  intros E Hkey. unfold region_for_key, get_region. rewrite (e_regions _ _ _ _ E).
  pose proof (sb_regions _ (e_sb _ _ _ _ E)). pose proof (e_count _ _ _ _ E) as Hc. unfold sb_count in Hc.
  rewrite sub_w_Ret by lia. rewrite bind_Ret_l. set (m := Z.of_nat (length rs) - 1).
  assert (0 ≤ Z.land key m ≤ m) as Hm.
  { assert (0 ≤ m) by lia. split; [apply Z.land_nonneg; lia|]. apply land_le_r; lia. }
  destruct (lookup_lt_is_Some_2 rs (Z.to_nat (Z.land key m))) as [r Hr]; [lia|].
  exists (Z.to_nat (Z.land key m)), r.
  assert (vec_get rs (Z.to_nat (Z.land key m)) = Ret r) as -> by (by apply vec_get_Ret). done.
Qed.

(** ** The operations on a region, through the manager *)

Lemma em_get em rs sh dev i r :
  em_ok em rs sh dev → rs !! i = Some r → get_region em i = Ret r.
Proof. intros E Hi. unfold get_region. rewrite (e_regions _ _ _ _ E). by apply vec_get_Ret. Qed.

Lemma em_update em rs sh dev i r r' :
  em_ok em rs sh dev → rs !! i = Some r → ok k r' → frame r r' →
  update_region em i r' = Ret (set_regions em (<[i := r']> rs)) ∧
  em_ok (set_regions em (<[i := r']> rs)) (<[i := r']> rs) sh dev.
Proof.
  intros E Hi O F. pose proof (lookup_lt_Some _ _ _ Hi) as Hlt. split.
  - unfold update_region. rewrite (e_regions _ _ _ _ E). by rewrite vec_set_Ret.
  - apply (em_ok_regions em rs); [done|by rewrite length_insert|]. intros j rj Hj.
    destruct (decide (j = i)) as [->|Hne].
    + rewrite list_lookup_insert_eq in Hj by done. injection Hj as <-. eauto.
    + rewrite list_lookup_insert_ne in Hj by done. exists rj. split_and!; [done| |done].
      by apply (e_region _ _ _ _ E j).
Qed.

(** What the manager's calls do to the regions [rs]. *)
Lemma reserve_extent_spec em rs sh dev key size :
  em_ok em rs sh dev → 0 ≤ key → 0 < size → size + 2 ^ k < 2 ^ 32 →
  ∃ i r r', region_for_key em key = Ret (Ok i) ∧ rs !! i = Some r ∧
    em_ok (set_regions em (<[i := r']> rs)) (<[i := r']> rs) sh dev ∧
    ((∃ st j off, reserve_extent em key size =
        Ret (Ok (mkHandle i key st j off (elem k size)), set_regions em (<[i := r']> rs)) ∧
        slot_state r st j = None ∧ updated r r' st j (Some Reserved) ∧
        extent_at r' st j off (elem k size)) ∨
     (reserve_extent em key size = Ret (Err OutOfSpace, set_regions em (<[i := r']> rs)) ∧ unchanged r r')) ∧
    keeps r r'.
Proof.
  intros E Hkey H0 H1. destruct (region_for_key_spec em rs sh dev key E Hkey) as (i & r & Ei & Hi & Hg).
  destruct (e_region _ _ _ _ E _ _ Hi) as [O _]. unfold reserve_extent. rewrite Ei, bind_Ret_l, Hg, bind_Ret_l.
  destruct (alloc_extent_spec k Hk r size O H0 H1)
    as [(st & j & off & r' & -> & O' & F & Hn & U & X & Kp)|(r' & -> & O' & F & U & Kp & _)];
    destruct (em_update em rs sh dev i r r' E Hi O' F) as [Eu E']; exists i, r, r';
    rewrite bind_Ret_l; cbn beta iota; rewrite Eu, bind_Ret_l; split_and!; try done; [left|by right].
  exists st, j, off. split_and!; try done.
  destruct F as (Ef & _). rewrite Ef. pose proof (p_sector _ _ (ok_params _ _ (ok_base _ _ O))) as Es.
  rewrite (align_spec k Hk size _) by done. done.
Qed.

Lemma publish_spec em rs sh dev h r :
  em_ok em rs sh dev → rs !! h_region h = Some r →
  slot_state r (h_slab h) (h_slot h) = Some Reserved → h_key h ≠ FREE_KEY →
  ∃ r', publish em h = Ret (Ok (mkExtent (h_key h) (h_size h) (h_offset h)),
                            set_regions em (<[h_region h := r']> rs)) ∧
    em_ok (set_regions em (<[h_region h := r']> rs)) (<[h_region h := r']> rs) sh dev ∧
    updated r r' (h_slab h) (h_slot h) (Some (Published (h_key h))) ∧ dirty r' = true ∧ keeps r r'.
Proof.
  intros E Hi Hs Hkey. destruct (e_region _ _ _ _ E _ _ Hi) as [O _]. unfold publish.
  rewrite (em_get _ _ _ _ _ _ E Hi), bind_Ret_l, (proj2 (Z.eqb_neq _ _) Hkey).
  destruct (publish_slot_spec k r _ _ _ O Hs Hkey) as (r' & -> & O' & F & U & Hd & _ & Kp). rewrite bind_Ret_l.
  destruct (em_update em rs sh dev _ r r' E Hi O' F) as [Eu E']. rewrite Eu, bind_Ret_l. eauto 10.
Qed.

Lemma abort_spec em rs sh dev h r :
  em_ok em rs sh dev → rs !! h_region h = Some r →
  slot_state r (h_slab h) (h_slot h) = Some Reserved →
  ∃ r', abort em h = Ret (set_regions em (<[h_region h := r']> rs)) ∧
    em_ok (set_regions em (<[h_region h := r']> rs)) (<[h_region h := r']> rs) sh dev ∧
    updated r r' (h_slab h) (h_slot h) None ∧ keeps_live r r'.
Proof.
  intros E Hi Hs. destruct (e_region _ _ _ _ E _ _ Hi) as [O _]. unfold abort.
  rewrite (em_get _ _ _ _ _ _ E Hi), bind_Ret_l.
  destruct (region_free_slot_spec k Hk r _ _ _ O Hs ltac:(done)) as (r' & -> & O' & F & U & _ & Kp). rewrite bind_Ret_l.
  destruct (em_update em rs sh dev _ r r' E Hi O' F) as [Eu E']. rewrite Eu. eauto 10.
Qed.

(** Two slots do not start at the same byte. *)
Lemma extent_at_inj r off st j e st' j' e' :
  ok k r → extent_at r st j off e → extent_at r st' j' off e' → (st, j) ≠ (st', j') → False.
Proof.
  intros O X X' Hne. destruct (extents_disjoint k Hk _ _ _ _ _ _ _ _ _ (ok_base _ _ O) X X' Hne);
    pose proof (extent_sector _ _ _ _ _ (ok_base _ _ O) X); pose proof (extent_sector _ _ _ _ _ (ok_base _ _ O) X');
    pose proof (pow_k k Hk); lia.
Qed.

Lemma remove_extent_em_spec em rs sh dev i r st j off e key :
  em_ok em rs sh dev → Superblock.region_count (sh_superblock sh) ≤ 2 ^ k → rs !! i = Some r →
  extent_at r st j off e → slot_state r st j = Some (Published key) →
  ∃ r', remove_extent em off = Ret (Ok (), set_regions em (<[i := r']> rs)) ∧
    em_ok (set_regions em (<[i := r']> rs)) (<[i := r']> rs) sh dev ∧ updated r r' st j (Some Pending) ∧
    keeps r r'.
Proof.
  intros E Hn Hi X Hs. destruct (e_region _ _ _ _ E _ _ Hi) as [O _]. unfold remove_extent.
  rewrite (region_for_offset_spec em rs sh dev i r st j off e E Hi X Hn), bind_Ret_l.
  rewrite (em_get _ _ _ _ _ _ E Hi), bind_Ret_l.
  destruct (remove_extent_spec k Hk r off O)
    as [(st' & j' & e' & key' & r' & X' & Hs' & -> & O' & F & U & _ & _ & Kp)|[_ Hno]]; [|by destruct (Hno st j e key)].
  rewrite bind_Ret_l. cbn beta iota.
  destruct (em_update em rs sh dev _ r r' E Hi O' F) as [Eu E']. rewrite Eu, bind_Ret_l. exists r'.
  split_and!; [done..| |done]. assert ((st', j') = (st, j)) as [= -> ->]; [|done].
  destruct (decide ((st', j') = (st, j))) as [|Hne]; [done|].
  by destruct (extent_at_inj r off _ _ _ _ _ _ O X' X Hne).
Qed.

(** Regions have disjoint shares of the disk. *)
Lemma places_disjoint s i i' :
  sb_ok s → (i < i' < sb_count s)%nat → place_base s i + place_size s i ≤ place_base s i'.
Proof.
  intros S Hi. pose proof (place_bounds s i S ltac:(lia)). unfold place_size, place_base.
  rewrite (proj2 (Nat.ltb_lt _ _)) by lia. nia.
Qed.

Lemma extent_placed em rs sh dev i r st j off e :
  em_ok em rs sh dev → rs !! i = Some r → extent_at r st j off e →
  (i < sb_count (sh_superblock sh))%nat ∧ 0 < e ∧ place_base (sh_superblock sh) i ≤ off ∧
  off + e ≤ place_base (sh_superblock sh) i + place_size (sh_superblock sh) i.
Proof.
  intros E Hi X. destruct (e_region _ _ _ _ E _ _ Hi) as [[O _ _] [P1 P2 _]].
  destruct (extent_inside_slab k _ _ _ _ _ O X) as (sl & Hin & He & Hlo & Hhi).
  pose proof (slab_inside k Hk _ _ _ O Hin) as [Hb1 Hb2]. rewrite P1, P2 in *.
  rewrite <- (e_count _ _ _ _ E). split_and!; [by eapply lookup_lt_Some|lia..].
Qed.

(** Two extents share no byte, whether in the same slab, in different slabs or in
    different regions, and lie behind the metadata area and inside the data disk. *)
Lemma extents_apart em rs sh dev i r st j off e i' r' st' j' off' e' :
  em_ok em rs sh dev → rs !! i = Some r → rs !! i' = Some r' →
  extent_at r st j off e → extent_at r' st' j' off' e' → (i, st, j) ≠ (i', st', j') →
  (off + e ≤ off' ∨ off' + e' ≤ off) ∧
  Superblock.data_start_offset (sh_superblock sh) ≤ off ∧
  off + e ≤ Superblock.data_disk_size (sh_superblock sh).
Proof.
  intros E Hi Hi' X X' Hne. destruct (extent_placed _ _ _ _ _ _ _ _ _ _ E Hi X) as (Hl & He & H1 & H2).
  destruct (extent_placed _ _ _ _ _ _ _ _ _ _ E Hi' X') as (Hl' & He' & H1' & H2').
  pose proof (place_bounds _ i (e_sb _ _ _ _ E) Hl). split; [|lia].
  destruct (Nat.lt_trichotomy i i') as [Hlt|[<-|Hlt]].
  - pose proof (places_disjoint _ i i' (e_sb _ _ _ _ E) ltac:(lia)). lia.
  - simplify_eq. destruct (e_region _ _ _ _ E _ _ Hi) as [[O _ _] _].
    apply (extents_disjoint k Hk r st j off e st' j' off' e'); [done..|congruence].
  - pose proof (places_disjoint _ i' i (e_sb _ _ _ _ E) ltac:(lia)). lia.
Qed.

Lemma set_regions_twice em rs rs' : set_regions (set_regions em rs) rs' = set_regions em rs'.
Proof. done. Qed.

(** C11. The life of an extent: a granted reservation can be published, the
    extent [publish] returns has the handle's key, offset and size (the request
    rounded up to whole sectors), [remove_extent] of that offset is routed to the
    region that holds it and succeeds, and a second removal finds nothing. Until the
    next checkpoint the slot stays allocated. *)
Theorem extent_lifecycle em rs sh dev key size h em1 :
  em_ok em rs sh dev → Superblock.region_count (sh_superblock sh) ≤ 2 ^ k →
  0 ≤ key → key ≠ FREE_KEY → 0 < size → size + 2 ^ k < 2 ^ 32 →
  reserve_extent em key size = Ret (Ok h, em1) →
  ∃ em2 em3 rs3 r3, publish em1 h = Ret (Ok (mkExtent key (elem k size) (h_offset h)), em2) ∧
    remove_extent em2 (h_offset h) = Ret (Ok (), em3) ∧
    remove_extent em3 (h_offset h) = Ret (Err (OffsetNotFound (h_offset h)), em3) ∧
    em_ok em3 rs3 sh dev ∧ rs3 !! h_region h = Some r3 ∧
    slot_state r3 (h_slab h) (h_slot h) = Some Pending.
Proof.
  intros E Hn Hkey Hkf H0 H1 Er.
  destruct (reserve_extent_spec em rs sh dev key size E Hkey H0 H1)
    as (i & r & r1 & _ & Hi & E1 & [(st & j & off & Er' & _ & U1 & X1)|[Er' _]] & _); rewrite Er in Er'; [|done].
  injection Er' as -> ->. pose proof (lookup_lt_Some _ _ _ Hi) as Hlt. simpl.
  assert (∀ x, <[i:=x]> rs !! i = Some x) as Hins by (intros x; by apply list_lookup_insert_eq).
  destruct (publish_spec _ _ _ _ (mkHandle i key st j off (elem k size)) r1 E1) as (r2 & Ep & E2 & U2 & _ & K2);
    simpl; [apply Hins|by rewrite U1, decide_True|done|].
  rewrite set_regions_twice, list_insert_insert_eq in Ep, E2.
  destruct (remove_extent_em_spec _ _ _ _ i r2 st j off _ key E2 Hn (Hins r2) (K2 _ _ _ _ X1))
    as (r3 & Em & E3 & U3 & K3); [by rewrite U2, decide_True|].
  rewrite set_regions_twice, list_insert_insert_eq in Em, E3.
  eexists _, _, _, r3. split_and!; [exact Ep|exact Em| |exact E3|apply Hins|by rewrite U3, decide_True].
  pose proof (K3 _ _ _ _ (K2 _ _ _ _ X1)) as X3. destruct (e_region _ _ _ _ E3 i r3 (Hins r3)) as [O3 _].
  unfold remove_extent. rewrite (region_for_offset_spec _ _ _ _ i r3 st j off _ E3 (Hins r3) X3 Hn), bind_Ret_l.
  rewrite (em_get _ _ _ _ i r3 E3 (Hins r3)), bind_Ret_l.
  destruct (remove_extent_spec k Hk r3 off O3)
    as [(st' & j' & e' & key' & r' & X' & Hs' & _)|[-> _]].
  - exfalso. destruct (decide ((st', j') = (st, j))) as [[= -> ->]|Hne].
    { rewrite U3, decide_True in Hs' by done. done. }
    by destruct (extent_at_inj r3 off _ _ _ _ _ _ O3 X' X3 Hne).
  - rewrite bind_Ret_l. cbn beta iota.
    destruct (em_update _ _ _ _ i r3 r3 E3 (Hins r3) O3) as [Eu _]; [done|].
    rewrite Eu, set_regions_twice, list_insert_insert_eq, bind_Ret_l. done.
Qed.

(** ** Checkpoint, crash, restart *)

Section crash.
Context (crc32 : list Z → Z) (Hcrc : ∀ l, is_u 32 (crc32 l)).

(** The regions a superblock describes. *)
Definition regions_of (s : SB) (rs : list RegionState) : Prop :=
  length rs = sb_count s ∧ ∀ i r, rs !! i = Some r → ok k r ∧ placed s i r.

(** The device records the regions [rs0], and the shared state knows it. *)
Record saved (sh : SharedState) (dev : Device) (rs0 : list RegionState) : Prop := {
  sv_sectors : (96 ≤ sector_size (dev_client dev))%nat;
  sv_durable : durable crc32 (dev_client dev) (disk dev) (sh_superblock sh) (descs <$> rs0);
  sv_synced : synced sh (sh_superblock sh);
  sv_regions : regions_of (sh_superblock sh) rs0
}.

(** The process is gone, the device is still there. *)
Definition restart (em : EM) : EM := mkEM None None (metadata_device em).

(** After a restart and [initialize], exactly the published extents of [rs0]
    are there. *)
Definition recovers_to (em : EM) (rs0 : list RegionState) : Prop :=
  ∃ em2 rs2 sh2 dev2, initialize crc32 (restart em) = Ret (Ok (), em2) ∧ em_ok em2 rs2 sh2 dev2 ∧
    get_extents em2 = get_extents (set_regions em rs0) ∧
    ∀ i r0, rs0 !! i = Some r0 → ∃ r2, rs2 !! i = Some r2 ∧
      ∀ st j, slot_state r2 st j =
        match slot_state r0 st j with Some (Published key) => Some (Published key) | _ => None end.

Lemma extents_same rs rs' :
  length rs' = length rs →
  (∀ i r, rs !! i = Some r → ∃ r', rs' !! i = Some r' ∧ region_extents r' = region_extents r) →
  mapM (M:=outcome) region_extents rs' = mapM (M:=outcome) region_extents rs.
Proof.
  revert rs'. induction rs as [|r rs IH]; intros [|r' rs']; try done. intros Hl H.
  destruct (H 0%nat r eq_refl) as (r2 & [= <-] & E). cbn [mapM]. rewrite E, (IH rs').
  - done.
  - simpl in Hl. lia.
  - intros i r1 Hr1. apply (H (S i) r1 Hr1).
Qed.

Lemma initialize_recovers em dev s rs0 :
  metadata_device em = Some dev → (96 ≤ sector_size (dev_client dev))%nat → sb_ok s →
  durable crc32 (dev_client dev) (disk dev) s (descs <$> rs0) → regions_of s rs0 → recovers_to em rs0.
Proof.
  intros Hdev Hss S D [Hl Hr]. destruct (manager_initialize_spec crc32 Hcrc (restart em) dev s rs0)
    as (em2 & rs2 & sh2 & E & Eok & Sy & H2); [done..|].
  exists em2, rs2, sh2, dev. split_and!; [done..| |].
  - unfold get_extents. rewrite (e_regions _ _ _ _ Eok). simpl. rewrite (extents_same rs0 rs2); [done|..].
    + rewrite (e_count _ _ _ _ Eok). destruct Sy as [-> _]. congruence.
    + intros i r Hi. destruct (H2 _ _ Hi) as (r' & ? & _ & _ & _ & HF). exists r'. split; [done|].
      by apply reb_extents.
  - intros i r0 Hi. destruct (H2 _ _ Hi) as (r2 & Hi2 & O2 & _ & Hp & HF). exists r2. split; [done|].
    intros st j. destruct (Hr _ _ Hi) as [O0 _]. by apply reb_slot_state.
Qed.

Lemma sb_ok_activate s copy seq :
  sb_ok s → Superblock.ok (activate s copy seq) → sb_ok (activate s copy seq).
Proof. by intros [] ?. Qed.

Lemma checkpoint_write_spec n em rs sh dev rs0 :
  em_ok em rs sh dev → saved sh dev rs0 → snapshot_ok (sh_superblock sh) rs → sh_seq sh + 1 < 2 ^ 64 →
  ∃ x sh' dev', let em' := mkEM (Some rs) (Some sh') (Some dev') in
    checkpoint_write crc32 n em = Ret (x, em') ∧ em_ok em' rs sh' dev' ∧
    Superblock.region_count (sh_superblock sh') = Superblock.region_count (sh_superblock sh) ∧
    (saved sh dev' rs0 ∧ x = Err IoError ∨ saved sh' dev' rs) .
Proof.
  intros E [Hss D Sy Rg] S Hlt. destruct (checkpoint_io_spec crc32 (dev_client dev) Hss n (disk dev)
    (sh_superblock sh) _ sh rs D Sy S) as (x & sh' & d' & Eio & _ & Hc); [by destruct Sy as [_ <-]|].
  exists x, sh', (mkDevice (dev_client dev) (num_sectors dev) d').
  pose proof (e_sb _ _ _ _ E) as Sb.
  assert (sh' = sh ∨ sh' = flipped sh) as Hsh by naive_solver.
  assert (Superblock.ok (sh_superblock (flipped sh))) as Of.
  { apply activate_ok; [apply Sb|pose proof (Superblock.ok_copy _ (sb_fields _ Sb)); lia|].
    pose proof (Superblock.ok_u64 _ (sb_fields _ Sb)) as (_ & _ & [? _] & _). destruct Sy as [_ Eq].
    split; lia. }
  assert (sb_ok (sh_superblock (flipped sh))) as Sf by (by apply sb_ok_activate).
  intros em'. split_and!.
  - unfold checkpoint_write. rewrite (e_device _ _ _ _ E), (e_regions _ _ _ _ E), (e_shared _ _ _ _ E), Eio.
    rewrite bind_Ret_l. unfold set_shared, set_disk. simpl.
    by rewrite (e_regions _ _ _ _ E), (e_device _ _ _ _ E).
  - destruct E as [E1 E2 E3 E4 E5 E6 E7]. destruct Hsh as [-> | ->]; split; try done.
    intros i r Hi. destruct (E7 _ _ Hi) as [? []]. done.
  - by destruct Hsh as [-> | ->].
  - destruct Hc as [(D' & -> & _)|(D' & -> & _)]; [left|right]; [by split|].
    split; [done|done|by destruct Sy as [_ Eq]|]. split; [apply E|].
    intros i r Hi. destruct (e_region _ _ _ _ E _ _ Hi) as [? []]. done.
Qed.

(** C1. Published extents survive crashes. From an initialised manager whose
    device records the regions [rs0], a checkpoint stopped after any number [n] of
    sector writes, followed by a restart and [initialize], gives back a well-formed
    manager that has exactly the published extents of [rs0] or exactly those of the
    regions at the checkpoint, with the same offsets and sizes; reservations that
    were not published and removed extents are free again. When the checkpoint
    reports success it is the latter, the manager is well formed and clean, and the
    device records them, so that the next checkpoint starts from the same state. *)
Theorem run_checkpoint_crash n em rs sh dev rs0 :
  em_ok em rs sh dev → saved sh dev rs0 → snapshot_ok (sh_superblock sh) rs → sh_seq sh + 1 < 2 ^ 64 →
  existsb dirty rs = true →
  ∃ x em1, run_checkpoint crc32 n em = Ret (x, em1) ∧
    (recovers_to em1 rs0 ∨ recovers_to em1 rs) ∧
    (x = Ok () → recovers_to em1 rs ∧
       ∃ rs1 sh1 dev1, em_ok em1 rs1 sh1 dev1 ∧ existsb dirty rs1 = false ∧ saved sh1 dev1 rs).
Proof.
  intros E Sv S Hlt Hd. destruct (checkpoint_write_spec n em rs sh dev rs0 E Sv S Hlt)
    as (x & sh' & dev' & Ew & E' & _ & Hc).
  unfold run_checkpoint, checkpoint_begin. rewrite (e_regions _ _ _ _ E), Hd, Ew, bind_Ret_l.
  set (em' := mkEM _ _ _) in *.
  assert (saved sh' dev' rs → ∀ em1, metadata_device em1 = Some dev' → recovers_to em1 rs) as Hnew.
  { intros Sv' em1 He1. destruct Sv' as [? Dd ? ?]. by eapply initialize_recovers; [|..|exact Dd|]; [done|done|apply E'|done]. }
  assert (recovers_to em' rs0 ∨ recovers_to em' rs) as Hrec.
  { destruct Hc as [[[? Dd ? ?] _]|?]; [left|right; by apply Hnew].
    by eapply initialize_recovers; [| | |exact Dd|]; [done|done|apply E|done]. }
  destruct x as [[]|e].
  - destruct Hc as [[_ ?]|Sv']; [done|].
    destruct (checkpoint_finish_spec em' rs sh' dev' E') as (rs1 & -> & E1 & Hcl & _). rewrite bind_Ret_l.
    eexists _, _. split; [reflexivity|]. split; [right; by apply Hnew|].
    intros _. split; [by apply Hnew|]. eauto 10.
  - eexists _, _. split; [reflexivity|]. split; [done|]. done.
Qed.

(** ** Formatting *)

(** Parameters as a caller may choose them: every field in its width, sectors of
    [2^k] bytes that are whole sectors of the metadata device (of [ss] bytes), and
    an alignment that is too. *)
Record fmt_ok (ss : nat) (p : FormatParams) : Prop := {
  f_ss : (96 ≤ ss)%nat ∧ (Z.of_nat ss | 2 ^ k) ∧ (Z.of_nat ss | 4096) ∧ (Z.of_nat ss | metadata_alignment p);
  f_sector : fp_sector_size p = 2 ^ k ∧ k < 32;
  f_slab : 0 < fp_slab_size p < 2 ^ 63 ∧ fp_slab_size p / 2 ^ k < 2 ^ 32;
  f_u32 : is_u 32 (max_extent_size p) ∧ is_u 32 (region_count p) ∧ is_u 32 (metadata_disk_ns_id p);
  f_size : 0 ≤ data_disk_size p < 2 ^ 63 ∧ 0 ≤ metadata_region_size p;
  f_align : 0 ≤ metadata_alignment p < 2 ^ 63
}.

Lemma align_up a b : 0 ≤ a → 0 < b → a ≤ (a + b - 1) / b * b < a + b.
Proof.
  intros Ha Hb. pose proof (Z.div_mod (a + b - 1) b). pose proof (Z.mod_pos_bound (a + b - 1) b Hb). lia.
Qed.

Lemma layout_spec ss p mds :
  fmt_ok ss p → 0 ≤ mds < 2 ^ 64 →
  layout p mds = Ret (Err CorruptMetadata) ∨
  ∃ off size start, layout p mds = Ret (Ok (off, size, start)) ∧
    4096 ≤ off ∧ (Z.of_nat ss | off) ∧ 0 < size ∧ (Z.of_nat ss | size) ∧ off + 2 * size ≤ mds ∧
    (start = 0 ∨ start = off + 2 * size).
Proof.
  intros [(Hs0 & Hs1 & Hs2 & Hs3) [Es Hk32] _ _ [_ Hm] Ha] Hd. unfold layout. rewrite Es.
  set (offc := if metadata_alignment p =? 0 then _ else _).
  assert (∃ off, offc = Ret off ∧ 4096 ≤ off ∧ (Z.of_nat ss | off)) as (off & -> & Ho & Hod).
  { unfold offc. destruct (Z.eqb_spec (metadata_alignment p) 0) as [E|E]; [by exists 4096|].
    change (Z.of_nat Superblock.SUPERBLOCK_SIZE) with 4096.
    pose proof (align_up 4096 (metadata_alignment p)) as Hu. rewrite add_w_Ret by lia. rewrite bind_Ret_l.
    rewrite sub_w_Ret by lia. rewrite bind_Ret_l, div_w_Ret by lia. rewrite bind_Ret_l, mul_w_Ret by lia.
    eexists. split; [done|]. split; [lia|]. by apply Z.divide_mul_r. }
  rewrite bind_Ret_l. set (eff := if 0 <? metadata_region_size p then _ else _).
  assert (0 ≤ eff ≤ mds) as He by (unfold eff; destruct (Z.ltb_spec 0 (metadata_region_size p)); lia).
  pose proof (pow_k k Hk) as Hpk. rewrite div_w_Ret by lia. rewrite bind_Ret_l.
  set (rem := saturating_sub eff off). assert (0 ≤ rem) as Hr by (unfold rem, saturating_sub; lia).
  pose proof (Z.mul_div_le rem 2). assert (0 ≤ rem / 2) by (apply Z.div_pos; lia).
  pose proof (Z.mul_div_le (rem / 2) (2 ^ k)). assert (0 ≤ rem / 2 / 2 ^ k) by (apply Z.div_pos; lia).
  assert (rem ≤ mds) by (unfold rem, saturating_sub; lia).
  rewrite mul_w_Ret by lia. rewrite bind_Ret_l.
  destruct (Z.eqb_spec (rem / 2 / 2 ^ k * 2 ^ k) 0) as [Ez|Ez]; [by left|]. right.
  set (size := rem / 2 / 2 ^ k * 2 ^ k) in *.
  assert (0 < size) by nia. assert (2 * size ≤ rem) by lia.
  assert (off + 2 * size ≤ mds) by (unfold rem, saturating_sub in *; lia).
  assert (Z.of_nat ss | size) by (by apply Z.divide_mul_r).
  destruct (0 <? metadata_region_size p).
  - rewrite mul_w_Ret by lia. rewrite bind_Ret_l, add_w_Ret by lia. rewrite bind_Ret_l. eauto 15.
  - rewrite bind_Ret_l. eauto 15.
Qed.

(** The regions of a fresh superblock. *)
Lemma format_regions_spec p s :
  sb_ok s → fp_sector_size p = Superblock.sector_size s → fp_slab_size p = Superblock.slab_size s →
  ∃ rs, mapM (M:=outcome) (format_region p (Superblock.data_start_offset s) (sb_usable s) (sb_region_bytes s)
          (sb_count s)) (seq 0 (sb_count s)) = Ret rs ∧
    regions_of s rs ∧ ∀ i r, rs !! i = Some r → slabs r = [].
Proof.
  intros S Eps Epl. destruct (mapM_exists (format_region p (Superblock.data_start_offset s) (sb_usable s)
    (sb_region_bytes s) (sb_count s)) (seq 0 (sb_count s))
    (λ i r, ok k r ∧ placed s i r ∧ slabs r = [])) as (rs & E & Hl & H).
  - intros i j [-> Hi]%lookup_seq. rewrite Nat.add_0_l. unfold format_region.
    destruct (region_base_spec s i S Hi) as [-> ->]. rewrite !bind_Ret_l, Eps.
    rewrite (proj1 (sb_sector _ S)). destruct (fresh_buddy s i S Hi) as (b & -> & B & E1 & E2 & E3).
    rewrite bind_Ret_l. eexists. split; [done|]. destruct (sb_slab _ S) as (? & ? & ?).
    destruct (region_new_ok k Hk b p) as [O _]; [|done|].
    { split; simpl; rewrite ?Epl, ?Eps; [apply S|done..]. }
    split_and!; [done| |done]. split; simpl; congruence.
  - exists rs. rewrite length_seq in Hl. split_and!; [done| |].
    + split; [done|]. intros i r Hr. by destruct (H _ _ Hr) as (? & ? & _).
    + intros i r Hr. by destruct (H _ _ Hr) as (_ & _ & ?).
Qed.

Lemma no_slabs rs :
  (∀ i r, rs !! i = Some r → slabs r = []) →
  descs <$> rs = replicate (length rs) [] ∧
  (l ← mapM (M:=outcome) region_extents rs; Ret (concat l)) = Ret [].
Proof.
  intros H. assert (descs <$> rs = replicate (length rs) [] ∧
    mapM (M:=outcome) region_extents rs = Ret (replicate (length rs) [])) as [-> ->].
  - induction rs as [|r rs IH]; [done|]. destruct IH as [IH1 IH2]; [intros i r' Hr'; by apply (H (S i))|].
    pose proof (H 0%nat r eq_refl) as Hr. split.
    + rewrite fmap_cons, IH1. unfold descs. by rewrite Hr.
    + assert (region_extents r = Ret []) as Hx by (unfold region_extents; by rewrite Hr).
      cbn [mapM]. by rewrite Hx, IH2.
  - split; [done|]. rewrite bind_Ret_l. f_equal. induction (length rs) as [|n IH]; [done|]. simpl. done.
Qed.

(** The superblock [format] builds. *)
Definition fresh_sb (p : FormatParams) (off size start id : Z) : SB :=
  Superblock.new (data_disk_size p) (fp_sector_size p) (fp_slab_size p) (max_extent_size p)
    (region_count p) off size id (metadata_disk_ns_id p) start.

Lemma fresh_sb_ok c p off size start id mds :
  fmt_ok (sector_size c) p → fp_slab_size p mod 2 ^ k = 0 → 0 < region_count p → mds < 2 ^ 64 →
  4096 ≤ off → (Z.of_nat (sector_size c) | off) → 0 < size → (Z.of_nat (sector_size c) | size) →
  off + 2 * size ≤ mds → (start = 0 ∨ start = off + 2 * size) → start < data_disk_size p → is_u 64 id →
  sb_ok (fresh_sb p off size start id) ∧ geometry c (fresh_sb p off size start id).
Proof.
  intros [_ [Es Hk32] (Hsl & Hsn) (U1 & U2 & U3) [Hdd Hm] Ha] Em Hrc Hmds Ho Hod Hz Hzd Hfit Hst Hsd Uid.
  pose proof (pow_k k Hk) as Hpk. assert (2 ^ k < 2 ^ 32) as Hk2 by (apply Z.pow_lt_mono_r; lia).
  split.
  - split; simpl; [|by rewrite Es|done|lia|].
    + split; [done| |..|by left]; simpl; rewrite ?Es; split_and!; (done || (split; lia)).
    + split_and!; [lia|lia| |done]. apply Z.mod_divide; [lia|done].
  - split; simpl; (done || lia).
Qed.

(** The device after the superblock of a fresh format was written. *)
Lemma fresh_saved budget dev p sb rs d b :
  (96 ≤ sector_size (dev_client dev))%nat → sb_ok sb → geometry (dev_client dev) sb →
  Superblock.checkpoint_seq sb = 0 → regions_of sb rs → (∀ i r, rs !! i = Some r → slabs r = []) →
  write_blocks (dev_client dev) budget (disk dev) 0 (Superblock.serialize crc32 sb) = (Ok (), d, b) →
  saved (mkShared p 0 sb) (mkDevice (dev_client dev) (num_sectors dev) d) rs.
Proof.
  intros Hss Sb G Hq [Hl Hr] Hns Hw. pose proof (Superblock.length_serialize crc32 sb) as L.
  destruct (Nat.lt_ge_cases budget (num_blocks (dev_client dev) (length (Superblock.serialize crc32 sb)))) as [Hb|Hb].
  { destruct (write_blocks_short (dev_client dev) ltac:(lia) _ (disk dev) 0 _ Hb) as (? & ? & E & _). congruence. }
  destruct (write_blocks_full (dev_client dev) ltac:(lia) _ (disk dev) 0 _ Hb) as (d' & E & Hh & _).
  rewrite Hw in E. injection E as -> _. split; simpl; [done| |by split|done].
  split; [apply Sb|done|done|]. left. split; [done|].
  destruct (no_slabs rs Hns) as [-> _]. by rewrite Hl.
Qed.

(** [format] never panics on legal parameters; it either refuses them and
    changes nothing, or leaves a well-formed manager without extents whose device
    records exactly that, so that the durability theorems apply from there on. *)
Theorem format_establishes urandom budget em p dev id :
  metadata_device em = Some dev → fmt_ok (sector_size (dev_client dev)) p → 0 ≤ num_sectors dev →
  num_sectors dev * Z.of_nat (sector_size (dev_client dev)) < 2 ^ 64 →
  instance_id p ∪ urandom = Some id → is_u 64 id → (num_blocks (dev_client dev) 4096 ≤ budget)%nat →
  format crc32 urandom budget em p = Ret (Err CorruptMetadata, em) ∨
  ∃ em' rs sh dev', format crc32 urandom budget em p = Ret (Ok (), em') ∧
    em_ok em' rs sh dev' ∧ saved sh dev' rs ∧ get_extents em' = Ret [] ∧ get_instance_id em' = Ok id.
Proof.
  intros Hdev F Hn Hmds Hid Uid Hb. pose proof F as [(Hss & _) [Es _] _ _ [Hdd _] _].
  pose proof (pow_k k Hk) as Hpk. unfold format.
  rewrite (proj2 (Z.eqb_neq (fp_sector_size p) 0)) by lia.
  destruct (Z.eqb_spec (fp_slab_size p mod fp_sector_size p) 0) as [Em|]; [|by left].
  destruct (fp_slab_size p <? max_extent_size p); [by left|].
  destruct (is_power_of_two (region_count p)) eqn:Ep; [|by left].
  apply andb_prop in Ep as [Hrc%Z.ltb_lt _]. cbn [negb]. rewrite Hdev, mul_w_Ret by lia. rewrite bind_Ret_l.
  destruct (layout_spec _ p (num_sectors dev * Z.of_nat (sector_size (dev_client dev))) F)
    as [->|(off & size & start & -> & Ho & Hod & Hz & Hzd & Hfit & Hst)]; [lia|by left|].
  rewrite bind_Ret_l. destruct (Z.eqb_spec (saturating_sub (data_disk_size p) start) 0) as [|Hu]; [by left|].
  right. rewrite div_w_Ret, bind_Ret_l by lia. fold (fresh_sb p off size start id).
  assert (start < data_disk_size p) as Hsd by (unfold saturating_sub in Hu; lia).
  rewrite Es in Em. destruct (fresh_sb_ok (dev_client dev) p off size start id _ F Em Hrc Hmds) as [Sb G]; [done..|].
  set (sb := fresh_sb p off size start id) in *.
  assert (saturating_sub (data_disk_size p) start = sb_usable sb) as ->
    by (unfold saturating_sub, sb_usable; simpl; lia).
  destruct (format_regions_spec p sb Sb eq_refl eq_refl) as (rs & Er & Rg & Hns).
  change (Superblock.data_start_offset sb) with start in Er.
  change (sb_usable sb / region_count p) with (sb_region_bytes sb).
  change (Z.to_nat (region_count p)) with (sb_count sb). rewrite Er, bind_Ret_l, Hid.
  change (Superblock.new _ _ _ _ _ _ _ _ _ _) with sb.
  destruct (write_blocks_full (dev_client dev) ltac:(lia) budget (disk dev) 0 (Superblock.serialize crc32 sb))
    as (d & Ew & _); [by rewrite Superblock.length_serialize|]. rewrite Ew.
  pose proof (fresh_saved budget dev p sb rs d _ Hss Sb G eq_refl Rg Hns Ew) as Sv.
  eexists _, rs, _, _. split; [reflexivity|]. split_and!; [|exact Sv| |done].
  - destruct Rg as [? ?]. split; simpl; try done. by rewrite Hdev.
  - unfold get_extents. simpl. by apply no_slabs.
Qed.

(** C34. A checkpoint can leave an extent behind. [run_checkpoint] clears every
    dirty flag after the snapshot was taken under a different lock, so an extent
    published in between is not in this checkpoint and leaves nothing dirty: as long
    as no other call changes the manager, every further checkpoint reports success
    without writing, and a restart does not find the extent, although [publish] and
    all those checkpoints succeeded. (A later change that marks a region dirty brings
    the extent into the next snapshot.) *)
Theorem checkpoint_lost_publish n em rs sh dev rs0 em1 h r :
  em_ok em rs sh dev → saved sh dev rs0 → snapshot_ok (sh_superblock sh) rs → sh_seq sh + 1 < 2 ^ 64 →
  checkpoint_write crc32 n em = Ret (Ok (), em1) → rs !! h_region h = Some r →
  slot_state r (h_slab h) (h_slot h) = Some Reserved → h_key h ≠ FREE_KEY →
  ∃ x em2 em3 rs3 r3, publish em1 h = Ret (Ok x, em2) ∧ checkpoint_finish em2 = Ret em3 ∧
    regions em3 = Some rs3 ∧ rs3 !! h_region h = Some r3 ∧
    slot_state r3 (h_slab h) (h_slot h) = Some (Published (h_key h)) ∧
    (∀ m, run_checkpoint crc32 m em3 = Ret (Ok (), em3)) ∧ recovers_to em3 rs.
Proof.
  intros E Sv S Hlt Ew Hi Hs Hkey. destruct (checkpoint_write_spec n em rs sh dev rs0 E Sv S Hlt)
    as (x & sh' & dev' & Ew' & E' & _ & Hc).
  rewrite Ew in Ew'. injection Ew' as <- ->. destruct Hc as [[_ ?]|[Hss Dd Sy Rg]]; [done|].
  destruct (publish_spec _ _ _ _ h r E' Hi Hs Hkey) as (r1 & Ep & E1 & U & _).
  destruct (checkpoint_finish_spec _ _ _ _ E1) as (rs3 & Ef & E3 & Hcl & H3).
  destruct (H3 (h_region h) r1) as (r3 & Hr3 & _ & U3).
  { apply list_lookup_insert_eq. by eapply lookup_lt_Some. }
  eexists _, _, _, rs3, r3. split_and!; [exact Ep|exact Ef|apply E3|done| | |].
  - assert (slot_state r1 (h_slab h) (h_slot h) = Some (Published (h_key h))) as H1
      by (by rewrite U, decide_True).
    by rewrite U3, H1, decide_False.
  - intros m. unfold run_checkpoint, checkpoint_begin. by rewrite (e_regions _ _ _ _ E3), Hcl.
  - eapply initialize_recovers; [apply E3|done|apply E'|exact Dd|exact Rg].
Qed.

(** A removal in the middle of a checkpoint frees its slot too early: the
    flush at the end of the checkpoint also frees what was removed after the
    snapshot, so the slot can be given to another extent while the checkpoint just
    written still lists the old key there; a restart brings the removed extent
    back, on bytes that may belong to the new one. *)
Theorem checkpoint_early_free n em rs sh dev rs0 em1 i r st j off e key :
  em_ok em rs sh dev → saved sh dev rs0 → snapshot_ok (sh_superblock sh) rs → sh_seq sh + 1 < 2 ^ 64 →
  Superblock.region_count (sh_superblock sh) ≤ 2 ^ k →
  checkpoint_write crc32 n em = Ret (Ok (), em1) → rs !! i = Some r →
  extent_at r st j off e → slot_state r st j = Some (Published key) →
  ∃ em2 em3 rs3 r3, remove_extent em1 off = Ret (Ok (), em2) ∧ checkpoint_finish em2 = Ret em3 ∧
    regions em3 = Some rs3 ∧ rs3 !! i = Some r3 ∧ slot_state r3 st j = None ∧ recovers_to em3 rs.
Proof.
  intros E Sv S Hlt Hn Ew Hi X Hs. destruct (checkpoint_write_spec n em rs sh dev rs0 E Sv S Hlt)
    as (x & sh' & dev' & Ew' & E' & En & Hc).
  rewrite Ew in Ew'. injection Ew' as <- ->. destruct Hc as [[_ ?]|[Hss Dd Sy Rg]]; [done|].
  destruct (remove_extent_em_spec _ _ _ _ i r st j off e key E' ltac:(lia) Hi X Hs) as (r1 & Er & E1 & U & _).
  destruct (checkpoint_finish_spec _ _ _ _ E1) as (rs3 & Ef & E3 & _ & H3).
  destruct (H3 i r1) as (r3 & Hr3 & _ & U3).
  { apply list_lookup_insert_eq. by eapply lookup_lt_Some. }
  eexists _, _, rs3, r3. split_and!; [exact Er|exact Ef|apply E3|done| |].
  - assert (slot_state r1 st j = Some Pending) as H1 by (by rewrite U, decide_True).
    by rewrite U3, decide_True.
  - eapply initialize_recovers; [apply E3|done|apply E'|exact Dd|exact Rg].
Qed.

End crash.
End rebuild.

(** * A manager with one region of five sectors *)

Definition dev0 : Device := mkDevice client0 8 disk0.
Definition em_with (r : RegionState) : EM := mkEM (Some [r]) (Some shared0) (Some dev0).

(** [sample2] with its first slot published under key 77. *)
Definition sample3 : RegionState :=
  match publish_slot sample2 8192 0 77 with Ret r => r | Panic => sample2 end.

Lemma sb0_ok : sb_ok 12 sb0.
Proof.
  split; simpl; [apply durable0|done|done|done|]. split_and!; [done|done|by exists 2|done].
Qed.

Lemma em_with_ok r :
  ok 12 r → placed sb0 0 r → em_ok 12 (em_with r) [r] shared0 dev0.
Proof.
  intros O P. split; try done; [apply sb0_ok|]. intros [|i] r' Hr; [|by destruct i]. by injection Hr as <-.
Qed.

Lemma sample3_ok : ok 12 sample3 ∧ frame sample2 sample3.
Proof.
  unfold sample3. destruct (publish_slot_spec 12 sample2 8192 0 77 sample2_ok) as (r & -> & O & F & _);
    [vm_compute; done|vm_compute; done|]. done.
Qed.

Lemma em0_ok : em_ok 12 (em_with sample0) [sample0] shared0 dev0.
Proof. apply em_with_ok; [apply sample0_ok|split; vm_compute; done]. Qed.

Lemma em2_ok : em_ok 12 (em_with sample2) [sample2] shared0 dev0.
Proof. apply em_with_ok; [apply sample2_ok|split; vm_compute; done]. Qed.

Lemma em3_ok : em_ok 12 (em_with sample3) [sample3] shared0 dev0.
Proof. apply em_with_ok; [apply sample3_ok|split; vm_compute; done]. Qed.

Lemma saved0 : saved 12 sum32 shared0 dev0 [sample0].
Proof.
  split; [vm_compute; lia|apply durable0|done|]. split; [done|]. intros [|i] r Hr; [|by destruct i].
  injection Hr as <-. split; [apply sample0_ok|split; vm_compute; done].
Qed.

Lemma snapshot3 : snapshot_ok sb0 [sample3].
Proof.
  assert (region_wf sample3) as W.
  { split; [|vm_compute; done]. vm_compute. repeat constructor; vm_compute; congruence. }
  split; [by apply Forall_singleton|done|vm_compute; congruence|vm_compute; congruence].
Qed.

Definition reserved0 : outcome (res WriteHandle * EM) := reserve_extent (em_with sample0) 5 100.
Definition handle0 : WriteHandle :=
  match reserved0 with Ret (Ok h, _) => h | _ => mkHandle 0 0 0 0 0 0 end.

Lemma extent_lifecycle_witness :
  ∃ em2, publish (match reserved0 with Ret (_, em) => em | Panic => em_with sample0 end) handle0 =
         Ret (Ok (mkExtent 5 4096 8192), em2).
Proof.
  destruct (extent_lifecycle 12 ltac:(lia) (em_with sample0) [sample0] shared0 dev0 5 100 handle0
    (match reserved0 with Ret (_, em) => em | Panic => em_with sample0 end) em0_ok)
    as (em2 & em3 & rs3 & r3 & E & _);
    [vm_compute; congruence|vm_compute; congruence|vm_compute; congruence|lia|lia|vm_compute; reflexivity|].
  exists em2. exact E.
Defined.

Lemma run_checkpoint_crash_witness :
  ∃ x em1, run_checkpoint sum32 1 (em_with sample3) = Ret (x, em1) ∧
    (recovers_to 12 sum32 em1 [sample0] ∨ recovers_to 12 sum32 em1 [sample3]).
Proof.
  destruct (run_checkpoint_crash 12 ltac:(lia) sum32 sum32_range 1 (em_with sample3) [sample3] shared0 dev0
    [sample0] em3_ok saved0 snapshot3) as (x & em1 & E & H & _); [vm_compute; done|vm_compute; done|].
  exists x, em1. split; [exact E|exact H].
Defined.

Lemma format_establishes_witness :
  ∃ em', format sum32 (Some 7) 1 (em_with sample0) sample_params = Ret (Ok (), em') ∧ get_extents em' = Ret [].
Proof.
  destruct (format_establishes 12 ltac:(lia) sum32 (Some 7) 1 (em_with sample0) sample_params dev0 7)
    as [E|(em' & rs & sh & dev & E & _ & _ & H & _)]; [done| |vm_compute; congruence|vm_compute; congruence|done
    |split; vm_compute; congruence|vm_compute; lia| |].
  - split; simpl; [split_and!; [lia|by exists 1|by exists 1|by exists 0]|done|done| |done|done].
    split_and!; split; vm_compute; congruence.
  - exfalso. assert (match format sum32 (Some 7) 1 (em_with sample0) sample_params with
      | Ret (Ok _, _) => true | _ => false end = true) as Hx by (vm_compute; reflexivity).
    by rewrite E in Hx.
  - exists em'. split; [exact E|exact H].
Defined.

(** The checkpoint of [sample3] is written, its last part still to run. *)
Definition em_written : EM :=
  match checkpoint_write sum32 2 (em_with sample3) with Ret (_, em) => em | Panic => em_with sample3 end.

Lemma written : checkpoint_write sum32 2 (em_with sample3) = Ret (Ok (), em_written).
Proof.
  destruct (checkpoint_write_spec 12 sum32 2 (em_with sample3) [sample3] shared0 dev0 [sample0]
    em3_ok saved0 snapshot3 ltac:(vm_compute; done)) as (x & sh' & dev' & E & _).
  assert (match checkpoint_write sum32 2 (em_with sample3) with
    | Ret (Ok _, _) => true | _ => false end = true) as Hx by (vm_compute; reflexivity).
  unfold em_written. rewrite E in Hx |- *. by destruct x as [[]|].
Qed.

Definition handle1 : WriteHandle := mkHandle 0 78 8192 1 12288 4096.

Lemma checkpoint_lost_publish_witness :
  ∃ x em2 em3, publish em_written handle1 = Ret (Ok x, em2) ∧ checkpoint_finish em2 = Ret em3 ∧
    recovers_to 12 sum32 em3 [sample3].
Proof.
  destruct (checkpoint_lost_publish 12 ltac:(lia) sum32 sum32_range 2 (em_with sample3) [sample3] shared0 dev0
    [sample0] em_written handle1 sample3 em3_ok saved0 snapshot3)
    as (x & em2 & em3 & rs3 & r3 & E1 & E2 & _ & _ & _ & _ & H);
    [vm_compute; done|exact written|done|vm_compute; done|vm_compute; done|].
  exists x, em2, em3. split; [exact E1|]. split; [exact E2|exact H].
Defined.

Lemma checkpoint_early_free_witness :
  ∃ em2 em3, remove_extent em_written 8192 = Ret (Ok (), em2) ∧ checkpoint_finish em2 = Ret em3 ∧
    recovers_to 12 sum32 em3 [sample3].
Proof.
  destruct (checkpoint_early_free 12 ltac:(lia) sum32 sum32_range 2 (em_with sample3) [sample3] shared0 dev0
    [sample0] em_written 0 sample3 8192 0 8192 4096 77 em3_ok saved0 snapshot3)
    as (em2 & em3 & rs3 & r3 & E1 & E2 & _ & _ & _ & H);
    [vm_compute; done|vm_compute; congruence|exact written|done| |vm_compute; done|].
  - eexists. split; [apply list_elem_of_In; vm_compute; left; reflexivity|]. vm_compute. split_and!; (done || lia).
  - exists em2, em3. split; [exact E1|]. split; [exact E2|exact H].
Defined.

End ExtentManager.
