(* ===== verification/ExtentRuns.v ===== *)
(** Runs of the extent manager ([components/extent-manager/src/lib.rs]) as its callers
    see them: the write handles they hold and the extents they have published, over
    any sequence of calls from a formatted disk on. *)

From S2P Require Import Prelude Slab Buddy Region Checkpoint Recovery ExtentManager.

Module ExtentRuns.
Import Slab Region Codec Device Recovery ExtentManager.
Local Open Scope Z_scope.

(** * The callers *)

(** The manager, the handles that are open and the extents published and not
    removed. *)
Record Callers := mkCallers { manager : EM; held : list WriteHandle; live : list Extent }.

(** [CPublish] and [CAbort] consume a handle, the [n]-th of those held; [CWrite] and
    [CFinish] are the two parts of [run_checkpoint] that change the manager, between
    which other calls may come. *)
Inductive call :=
| CReserve (key size : Z)
| CPublish (n : nat)
| CAbort (n : nat)
| CRemove (offset : Z)
| CWrite (budget : nat)
| CFinish.

Section calls.
Context (crc32 : list Z → Z).

Definition perform (c : Callers) (x : call) : outcome Callers :=
  match x with
  | CReserve key size =>
      '(x, em) ← reserve_extent (manager c) key size;
      Ret (mkCallers em (match x with Ok h => held c ++ [h] | Err _ => held c end) (live c))
  | CPublish n =>
      match held c !! n with
      | None => Ret c
      | Some h =>
          '(x, em) ← publish (manager c) h;
          Ret (mkCallers em (delete n (held c)) (match x with Ok e => live c ++ [e] | Err _ => live c end))
      end
  | CAbort n =>
      match held c !! n with
      | None => Ret c
      | Some h => em ← abort (manager c) h; Ret (mkCallers em (delete n (held c)) (live c))
      end
  | CRemove offset =>
      '(x, em) ← remove_extent (manager c) offset;
      Ret (mkCallers em (held c) (match x with Ok _ => filter (λ e, x_offset e ≠ offset) (live c) | Err _ => live c end))
  | CWrite budget =>
      '(_, em) ← checkpoint_write crc32 budget (manager c);
      Ret (mkCallers em (held c) (live c))
  | CFinish => em ← checkpoint_finish (manager c); Ret (mkCallers em (held c) (live c))
  end.

Fixpoint performs (c : Callers) (xs : list call) : outcome Callers :=
  match xs with [] => Ret c | x :: xs => c ← perform c x; performs c xs end.
End calls.

(** The bytes in the hands of callers: offset and size. *)
Definition spans (c : Callers) : list (Z * Z) :=
  ((λ h, (h_offset h, h_size h)) <$> held c) ++ ((λ e, (x_offset e, x_size e)) <$> live c).

Definition apart (a b : Z * Z) : Prop := a.1 + a.2 ≤ b.1 ∨ b.1 + b.2 ≤ a.1.

(** * Where the spans are *)

Definition place (h : WriteHandle) : nat * Z * nat := (h_region h, h_slab h, h_slot h).

(** Slot [l] is in state [x] and has these bytes. *)
Definition at_slot (rs : list RegionState) (l : nat * Z * nat) (x : estate) (off e : Z) : Prop :=
  ∃ r, rs !! l.1.1 = Some r ∧ slot_state r l.1.2 l.2 = Some x ∧ extent_at r l.1.2 l.2 off e.

Lemma at_slot_update rs i r r' st j v l x off e :
  rs !! i = Some r → updated r r' st j v → keeps_live r r' → l ≠ (i, st, j) →
  at_slot rs l x off e → at_slot (<[i := r']> rs) l x off e.
Proof.
  intros Hi U K Hne (r0 & Hr0 & Hs & X). destruct l as [[i0 st0] j0]. simpl in *.
  destruct (decide (i0 = i)) as [->|Hi0]; [|exists r0; simpl; by rewrite list_lookup_insert_ne].
  simplify_eq. exists r'. simpl. rewrite list_lookup_insert_eq by (by eapply lookup_lt_Some).
  assert (slot_state r' st0 j0 = Some x) as Hs' by (rewrite U, decide_False; [done|naive_solver]).
  split_and!; [done..|]. apply K; [done|]. by rewrite Hs'.
Qed.

Lemma at_slot_same rs i r r' l x off e :
  rs !! i = Some r → unchanged r r' → keeps r r' → at_slot rs l x off e → at_slot (<[i := r']> rs) l x off e.
Proof.
  intros Hi U K (r0 & Hr0 & Hs & X). destruct (decide (l.1.1 = i)) as [<-|Hne].
  - simplify_eq. exists r'. rewrite list_lookup_insert_eq by (by eapply lookup_lt_Some). split_and!; [done|by rewrite U|by apply K].
  - exists r0. by rewrite list_lookup_insert_ne.
Qed.

Lemma at_slot_new rs i r r' st j x off e :
  rs !! i = Some r → updated r r' st j (Some x) → extent_at r' st j off e → at_slot (<[i := r']> rs) (i, st, j) x off e.
Proof.
  intros Hi U X. exists r'. simpl. rewrite list_lookup_insert_eq by (by eapply lookup_lt_Some).
  split_and!; [done|by rewrite U, decide_True|done].
Qed.

Lemma at_slot_state rs l x off e x' off' e' : at_slot rs l x off e → at_slot rs l x' off' e' → x = x'.
Proof. intros (r & Hr & Hs & _) (r' & Hr' & Hs' & _). congruence. Qed.

Section manager.
Context (k : Z) (Hk : 0 ≤ k) (crc32 : list Z → Z) (Hcrc : ∀ l, is_u 32 (crc32 l)).

Lemma at_slot_offset em rs sh dev l x off e x' off' e' :
  em_ok k em rs sh dev → at_slot rs l x off e → at_slot rs l x' off' e' → off = off'.
Proof.
  intros E (r & Hr & _ & (s & Hin & _ & -> & _)) (r' & Hr' & _ & (s' & Hin' & _ & -> & _)). simplify_eq.
  destruct (e_region _ _ _ _ _ E _ _ Hr) as [[O _ _] _]. by rewrite (slab_unique _ _ _ _ _ O Hin Hin').
Qed.

Lemma at_slot_apart em rs sh dev l l' x off e x' off' e' :
  em_ok k em rs sh dev → at_slot rs l x off e → at_slot rs l' x' off' e' → l ≠ l' → apart (off, e) (off', e') ∧ 0 < e ∧ 0 < e'.
Proof.
  intros E (r & Hr & _ & X) (r' & Hr' & _ & X') Hne. destruct l as [[i st] j], l' as [[i' st'] j']. simpl in *.
  destruct (extent_placed k Hk _ _ _ _ _ _ _ _ _ _ E Hr X) as (_ & He & _).
  destruct (extent_placed k Hk _ _ _ _ _ _ _ _ _ _ E Hr' X') as (_ & He' & _). split; [|done].
  by destruct (extents_apart k Hk _ _ _ _ _ _ _ _ _ _ _ _ _ _ _ _ E Hr Hr' X X' Hne).
Qed.

(** * The invariant *)

Record inv (c : Callers) (rs : list RegionState) (sh : SharedState) (dev : ExtentManager.Device) : Prop := {
  v_ok : em_ok k (manager c) rs sh dev;
  v_synced : synced sh (sh_superblock sh);
  v_held : Forall (λ h, h_key h ≠ FREE_KEY ∧ at_slot rs (place h) Reserved (h_offset h) (h_size h)) (held c);
  v_live : Forall (λ e, ∃ l key, at_slot rs l (Published key) (x_offset e) (x_size e)) (live c);
  v_nodup : NoDup (spans c).*1
}.

(** What the callers must observe: keys are below [u64::MAX] and sizes are positive
    and leave room for rounding up. *)
Definition permitted (x : call) : Prop :=
  match x with
  | CReserve key size => 0 ≤ key ∧ key ≠ FREE_KEY ∧ 0 < size ∧ size + 2 ^ k < 2 ^ 32
  | _ => True
  end.

Lemma spans_slot c rs sh dev sp : inv c rs sh dev → sp ∈ spans c → ∃ l x, at_slot rs l x sp.1 sp.2 ∧ x ≠ Pending.
Proof.
  intros I [H|H]%elem_of_app; apply list_elem_of_fmap in H as (y & -> & Hy); simpl.
  - destruct (proj1 (Forall_forall _ _) (v_held _ _ _ _ I) y Hy) as [_ ?]. eauto.
  - destruct (proj1 (Forall_forall _ _) (v_live _ _ _ _ I) y Hy) as (l & key & ?). eauto.
Qed.

(** * The calls *)

Lemma reserve_inv c rs sh dev key size : inv c rs sh dev → permitted (CReserve key size) →
  ∃ c' rs', perform crc32 c (CReserve key size) = Ret c' ∧ inv c' rs' sh dev.
Proof.
  intros I (Hk0 & Hkf & H0 & H1). pose proof I as [E Sy Hh Hl Nd].
  destruct (reserve_extent_spec k Hk _ _ _ _ key size E Hk0 H0 H1) as (i & r & r' & _ & Hi & E' & Hc & Kp). simpl.
  destruct Hc as [(st & j & off & -> & Hn & U & X)|[-> U]]; rewrite bind_Ret_l; eexists _, _; (split; [done|]).
  - assert (keeps_live r r') as Kl by (intros ? ? ? ? ? _; by apply Kp).
    assert (∀ l x o e, at_slot rs l x o e → l ≠ (i, st, j)) as Hne.
    { intros l x o e (r0 & Hr0 & Hs & _) ->. simpl in *. congruence. }
    assert (∀ l x o e, at_slot rs l x o e → at_slot (<[i := r']> rs) l x o e) as Hup.
    { intros l x o e Ha. eapply at_slot_update; [done..| |done]. by eapply Hne. }
    pose proof (at_slot_new _ _ _ _ _ _ _ _ _ Hi U X) as Hnew. split; simpl; [done|done|..].
    + apply Forall_app. split; [|by apply Forall_singleton]. eapply Forall_impl; [exact Hh|]. naive_solver.
    + eapply Forall_impl; [exact Hl|]. naive_solver.
    + assert (off ∉ (spans c).*1) as Hoff.
      { intros (sp & Ho & Hin)%list_elem_of_fmap. destruct (spans_slot _ _ _ _ _ I Hin) as (l & x & Ha & _).
        destruct (at_slot_apart _ _ _ _ _ _ _ _ _ _ _ _ E' (Hup _ _ _ _ Ha) Hnew) as ([?|?] & ? & ?); [by eapply Hne|simpl in *; lia..]. }
      eapply (NoDup_Permutation_proper (off :: (spans c).*1)); [|by apply NoDup_cons].
      unfold spans. simpl. rewrite !fmap_app. rewrite <- app_assoc. simpl. by rewrite <- Permutation_middle.
  - split; simpl; [done|done| | |done].
    + eapply Forall_impl; [exact Hh|]. intros h [? Ha]. split; [done|]. by eapply at_slot_same.
    + eapply Forall_impl; [exact Hl|]. intros e (l & key' & Ha). exists l, key'. by eapply at_slot_same.
Qed.

(** Taking a handle off the list. *)
Lemma held_delete c rs sh dev n h : inv c rs sh dev → held c !! n = Some h →
  h_key h ≠ FREE_KEY ∧ at_slot rs (place h) Reserved (h_offset h) (h_size h) ∧
  (spans c) ≡ₚ (h_offset h, h_size h) :: spans (mkCallers (manager c) (delete n (held c)) (live c)) ∧
  Forall (λ h', place h' ≠ place h) (delete n (held c)).
Proof.
  intros I Hn. pose proof I as [E Sy Hh Hl Nd]. pose proof (list_elem_of_lookup_2 _ _ _ Hn) as Hin.
  destruct (proj1 (Forall_forall _ _) Hh h Hin) as [Hkf Ha].
  assert (spans c ≡ₚ (h_offset h, h_size h) :: spans (mkCallers (manager c) (delete n (held c)) (live c))) as P.
  { unfold spans. simpl. by rewrite (delete_Permutation _ _ _ Hn) at 1. }
  split_and!; [done..|]. apply Forall_forall. intros h' Hin' Hp.
  assert (h' ∈ held c) as Hin2 by (rewrite (delete_Permutation _ _ _ Hn); by right).
  destruct (proj1 (Forall_forall _ _) Hh h' Hin2) as [_ Ha']. rewrite Hp in Ha'.
  pose proof (at_slot_offset _ _ _ _ _ _ _ _ _ _ _ E Ha Ha') as Ho. rewrite P in Nd. simpl in Nd. apply NoDup_cons in Nd as [Nd _].
  apply Nd. rewrite Ho. unfold spans. simpl. rewrite fmap_app, elem_of_app. left. apply list_elem_of_fmap.
  exists (h_offset h', h_size h'). split; [done|]. apply list_elem_of_fmap. by exists h'.
Qed.

Lemma publish_inv c rs sh dev n : inv c rs sh dev → ∃ c' rs', perform crc32 c (CPublish n) = Ret c' ∧ inv c' rs' sh dev.
Proof.
  intros I. simpl. destruct (held c !! n) as [h|] eqn:Hn; [|by exists c, rs].
  destruct (held_delete _ _ _ _ _ _ I Hn) as (Hkf & Ha & P & Hne). pose proof I as [E Sy Hh Hl Nd]. pose proof Ha as (r & Hr & Hs & X).
  destruct (publish_spec k _ _ _ _ h r E Hr Hs Hkf) as (r' & -> & E' & U & _ & Kp). rewrite bind_Ret_l. eexists _, _. split; [done|].
  assert (keeps_live r r') as Kl by (intros ? ? ? ? ? _; by apply Kp).
  split; simpl; [done|done|..].
  - apply Forall_forall. intros h' Hin. rewrite Forall_forall in Hh, Hne.
    destruct (Hh h') as [? Ha']; [rewrite (delete_Permutation _ _ _ Hn); by right|]. split; [done|].
    eapply at_slot_update; [done..|by apply Hne|done].
  - apply Forall_app. split.
    + eapply Forall_impl; [exact Hl|]. intros e (l & key & Ha'). exists l, key. eapply at_slot_update; [done..| |done].
      intros ->. by pose proof (at_slot_state _ _ _ _ _ _ _ _ Ha Ha').
    + apply Forall_singleton. exists (place h), (h_key h). eapply at_slot_new; [done..|]. by apply Kp.
  - rewrite P in Nd. eapply NoDup_Permutation_proper; [|exact Nd]. unfold spans. simpl. rewrite !fmap_app. simpl.
    by rewrite app_assoc, <- Permutation_cons_append.
Qed.

Lemma abort_inv c rs sh dev n : inv c rs sh dev → ∃ c' rs', perform crc32 c (CAbort n) = Ret c' ∧ inv c' rs' sh dev.
Proof.
  intros I. simpl. destruct (held c !! n) as [h|] eqn:Hn; [|by exists c, rs].
  destruct (held_delete _ _ _ _ _ _ I Hn) as (Hkf & Ha & P & Hne). pose proof I as [E Sy Hh Hl Nd]. pose proof Ha as (r & Hr & Hs & X).
  destruct (abort_spec k Hk _ _ _ _ h r E Hr Hs) as (r' & -> & E' & U & Kl). rewrite bind_Ret_l. eexists _, _. split; [done|].
  split; simpl; [done|done|..].
  - apply Forall_forall. intros h' Hin. rewrite Forall_forall in Hh, Hne.
    destruct (Hh h') as [? Ha']; [rewrite (delete_Permutation _ _ _ Hn); by right|]. split; [done|].
    eapply at_slot_update; [done..|by apply Hne|done].
  - eapply Forall_impl; [exact Hl|]. intros e (l & key & Ha'). exists l, key. eapply at_slot_update; [done..| |done].
    intros ->. by pose proof (at_slot_state _ _ _ _ _ _ _ _ Ha Ha').
  - rewrite P in Nd. simpl in Nd. by apply NoDup_cons in Nd as [_ Nd].
Qed.

Lemma region_for_offset_total em rs sh dev off : em_ok k em rs sh dev →
  (∃ e, region_for_offset em off = Ret (Err e)) ∨ (∃ i r, region_for_offset em off = Ret (Ok i) ∧ rs !! i = Some r).
Proof.
  intros E. pose proof (sb_data _ _ (e_sb _ _ _ _ _ E)). pose proof (sb_regions _ _ (e_sb _ _ _ _ _ E)). pose proof (e_count _ _ _ _ _ E) as Hc.
  unfold region_for_offset. rewrite (e_regions _ _ _ _ _ E), (e_shared _ _ _ _ _ E), (e_disk _ _ _ _ _ E).
  rewrite sub_w_Ret, bind_Ret_l by lia. unfold sb_count in Hc. rewrite div_w_Ret, bind_Ret_l by lia.
  destruct (_ =? 0); [by left; eexists|]. destruct (Nat.leb_spec (length rs) (Z.to_nat (saturating_sub off (Superblock.data_start_offset (sh_superblock sh)) /
    ((Superblock.data_disk_size (sh_superblock sh) - Superblock.data_start_offset (sh_superblock sh)) / Z.of_nat (length rs))))) as [|Hlt]; [by left; eexists|].
  right. apply lookup_lt_is_Some in Hlt as [r Hr]. eauto.
Qed.

Lemma remove_inv c rs sh dev off : inv c rs sh dev → ∃ c' rs', perform crc32 c (CRemove off) = Ret c' ∧ inv c' rs' sh dev.
Proof.
  intros I. pose proof I as [E Sy Hh Hl Nd]. simpl. unfold remove_extent.
  destruct (region_for_offset_total _ _ _ _ off E) as [[e ->]|(i & r & -> & Hi)]; rewrite bind_Ret_l.
  { eexists _, rs. split; [done|]. by split. }
  rewrite (em_get _ _ _ _ _ _ _ E Hi), bind_Ret_l. destruct (e_region _ _ _ _ _ E _ _ Hi) as [O _].
  destruct (remove_extent_spec k Hk r off O) as [(st & j & e & key & r' & X & Hs & -> & O' & F & U & _ & _ & Kp)|[-> Hno]];
    rewrite bind_Ret_l; cbn beta iota.
  2: { destruct (em_update k _ _ _ _ i r r E Hi O ltac:(done)) as [-> E']. rewrite !bind_Ret_l. eexists _, _. split; [done|].
       rewrite list_insert_id in E' |- * by done. by split. }
  destruct (em_update k _ _ _ _ _ r r' E Hi O' F) as [-> E']. rewrite !bind_Ret_l. eexists _, _. split; [done|].
  assert (at_slot rs (i, st, j) (Published key) off e) as Ha by (by exists r).
  assert (keeps_live r r') as Kl by (intros ? ? ? ? ? _; by apply Kp).
  split; simpl; [done|done|..].
  - eapply Forall_impl; [exact Hh|]. intros h [? Ha']. split; [done|]. eapply at_slot_update; [done..| |done].
    intros Hp. rewrite Hp in Ha'. by pose proof (at_slot_state _ _ _ _ _ _ _ _ Ha Ha').
  - apply Forall_forall. intros x [Hx Hin]%list_elem_of_filter. destruct (proj1 (Forall_forall _ _) Hl x Hin) as (l & key' & Ha').
    exists l, key'. eapply at_slot_update; [done..| |done]. intros ->. apply Hx. exact (at_slot_offset _ _ _ _ _ _ _ _ _ _ _ E Ha' Ha).
  - unfold spans in *. simpl in *. rewrite fmap_app in *. apply NoDup_app in Nd as (N1 & N2 & N3). apply NoDup_app. split_and!; [done|..].
    + intros o Ho Ho'. apply (N2 o Ho). apply list_elem_of_fmap in Ho' as (sp & -> & Hsp). apply list_elem_of_fmap in Hsp as (x & -> & [_ Hx]%list_elem_of_filter).
      apply list_elem_of_fmap. eexists. split; [done|]. apply list_elem_of_fmap. by exists x.
    + rewrite <- list_fmap_compose in *. eapply sublist_NoDup; [exact N3|]. apply fmap_sublist, sublist_filter.
Qed.

Lemma checkpoint_done_inv c rs sh dev : inv c rs sh dev → ∃ c' rs', perform crc32 c CFinish = Ret c' ∧ inv c' rs' sh dev.
Proof.
  intros [E Sy Hh Hl Nd]. simpl. destruct (checkpoint_finish_spec k Hk _ _ _ _ E) as (rs' & -> & E' & _ & Hrs). rewrite bind_Ret_l.
  assert (∀ l x o e, x ≠ Pending → at_slot rs l x o e → at_slot rs' l x o e) as Hup.
  { intros l x o e Hx (r & Hr & Hs & X). destruct (Hrs _ _ Hr) as (r' & Hr' & [_ Kl] & U). exists r'.
    assert (slot_state r' l.1.2 l.2 = Some x) as Hs' by (by rewrite U, Hs, decide_False by congruence).
    split_and!; [done..|]. apply Kl; [done|]. by rewrite Hs'. }
  eexists _, _. split; [done|]. split; simpl; [done|done| | |done].
  - eapply Forall_impl; [exact Hh|]. intros h [? ?]. auto.
  - eapply Forall_impl; [exact Hl|]. intros x (l & key & ?). exists l, key. auto.
Qed.

(** The superblocks of a manager differ only in the active copy. *)
Definition same_disk (sh sh' : SharedState) : Prop :=
  Superblock.data_start_offset (sh_superblock sh') = Superblock.data_start_offset (sh_superblock sh) ∧
  Superblock.data_disk_size (sh_superblock sh') = Superblock.data_disk_size (sh_superblock sh).

Lemma checkpoint_io_shared cl budget d rs sh x sh' d' :
  sb_ok k (sh_superblock sh) → synced sh (sh_superblock sh) → checkpoint_io crc32 cl budget d rs sh = Ret (x, sh', d') →
  sh' = sh ∨ sh' = flipped sh ∧ Superblock.ok (sh_superblock (flipped sh)).
Proof.
  intros Sb [_ Hq] H. unfold checkpoint_io in H. apply bind_Ret in H as ([[[y sh1] d1] b1] & Hw & H).
  assert (sh' = sh1) as -> by (destruct y; [destruct (write_blocks _ _ _ _ _) as [[? ?] ?]|]; by simplify_eq). clear H.
  unfold write_checkpoint in Hw. apply bind_Ret in Hw as (pl & _ & Hw). apply bind_Ret in Hw as (ia & Hia & Hw).
  apply bind_Ret in Hw as (ro & _ & Hw). apply bind_Ret in Hw as (sq & Hsq & Hw). destruct (_ <? _); [simplify_eq; by left|].
  destruct (write_blocks _ _ _ _ _) as [[[]?] ?]; simplify_eq; [|by left]. right.
  pose proof (Superblock.ok_copy _ (sb_fields _ _ Sb)) as Hac. pose proof (Superblock.ok_u64 _ (sb_fields _ _ Sb)) as (_ & _ & [Hs0 _] & _).
  rewrite sub_w_Ret in Hia by lia. unfold add_w in Hsq. destruct (Z.ltb_spec (sh_seq sh + 1) (2 ^ 64)); [|done]. simplify_eq.
  split; [done|]. apply activate_ok; [apply Sb|lia|]. split; lia.
Qed.

Lemma write_inv c rs sh dev budget c' : inv c rs sh dev → perform crc32 c (CWrite budget) = Ret c' →
  ∃ sh' dev', inv c' rs sh' dev' ∧ same_disk sh sh'.
Proof.
  intros [E Sy Hh Hl Nd] H. simpl in H. apply bind_Ret in H as ([x em'] & Hw & H). simplify_eq. unfold checkpoint_write in Hw.
  rewrite (e_device _ _ _ _ _ E), (e_regions _ _ _ _ _ E), (e_shared _ _ _ _ _ E) in Hw.
  apply bind_Ret in Hw as ([[y sh'] d'] & Hio & Hw). simplify_eq. unfold set_shared, set_disk. simpl.
  rewrite (e_device _ _ _ _ _ E), (e_regions _ _ _ _ _ E). simpl.
  destruct (checkpoint_io_shared _ _ _ _ _ _ _ _ (e_sb _ _ _ _ _ E) Sy Hio) as [->|[-> Ok]];
    [exists sh|exists (flipped sh)]; exists (mkDevice (dev_client dev) (num_sectors dev) d'); (split; [|done]); (split; simpl; [| |done..]).
  - destruct E. by split.
  - done.
  - pose proof (sb_ok_activate k _ _ _ (e_sb _ _ _ _ _ E) Ok) as Sf. destruct E as [E1 E2 E3 E4 E5 E6 E7]. split; try done.
    intros i r Hi. destruct (E7 _ _ Hi) as [? []]. done.
  - done.
Qed.

Lemma perform_total c rs sh dev x : inv c rs sh dev → permitted x → (∀ n, x ≠ CWrite n) →
  ∃ c' rs', perform crc32 c x = Ret c' ∧ inv c' rs' sh dev.
Proof.
  intros I Hp Hx. destruct x; [by eapply reserve_inv|by eapply publish_inv|by eapply abort_inv|by eapply remove_inv|by destruct (Hx budget)|by eapply checkpoint_done_inv].
Qed.

Lemma performs_inv xs c rs sh dev c' : inv c rs sh dev → Forall permitted xs → performs crc32 c xs = Ret c' →
  ∃ rs' sh' dev', inv c' rs' sh' dev' ∧ same_disk sh sh'.
Proof.
  revert c rs sh dev. induction xs as [|x xs IH]; intros c rs sh dev I Hp H; simpl in H; [simplify_eq; by exists rs, sh, dev|].
  apply bind_Ret in H as (c1 & H1 & H). apply Forall_cons in Hp as [Hx Hp].
  assert (∃ rs1 sh1 dev1, inv c1 rs1 sh1 dev1 ∧ same_disk sh sh1) as (rs1 & sh1 & dev1 & I1 & D1).
  { destruct x as [| | | |n|]; try (destruct (perform_total _ _ _ _ _ I Hx) as (c2 & rs2 & E2 & I2); [done|]; rewrite H1 in E2; simplify_eq; by exists rs2, sh, dev).
    destruct (write_inv _ _ _ _ _ _ I H1) as (sh1 & dev1 & ? & ?). eauto. }
  destruct (IH _ _ _ _ I1 Hp H) as (rs' & sh' & dev' & I' & D'). exists rs', sh', dev'. split; [done|].
  destruct D1, D'. split; congruence.
Qed.

Lemma inv_spans c rs sh dev : inv c rs sh dev →
  (∀ i j a b, spans c !! i = Some a → spans c !! j = Some b → i ≠ j → apart a b) ∧
  Forall (λ a, Superblock.data_start_offset (sh_superblock sh) ≤ a.1 ∧ 0 < a.2 ∧ a.1 + a.2 ≤ Superblock.data_disk_size (sh_superblock sh)) (spans c).
Proof.
  intros I. pose proof (v_ok _ _ _ _ I) as E. split.
  - intros i j a b Hi Hj Hne. destruct (spans_slot _ _ _ _ a I) as (l & x & Ha & _); [by eapply list_elem_of_lookup_2|].
    destruct (spans_slot _ _ _ _ b I) as (l' & x' & Hb & _); [by eapply list_elem_of_lookup_2|].
    assert (l ≠ l') as Hl; [|by destruct a, b, (at_slot_apart _ _ _ _ _ _ _ _ _ _ _ _ E Ha Hb Hl)]. intros ->. apply Hne.
    apply (NoDup_lookup _ _ _ (a.1) (v_nodup _ _ _ _ I)); rewrite list_lookup_fmap; [by rewrite Hi|].
    rewrite Hj. simpl. by rewrite (at_slot_offset _ _ _ _ _ _ _ _ _ _ _ E Ha Hb).
  - apply Forall_forall. intros a Hin. destruct (spans_slot _ _ _ _ a I Hin) as ([[i st] j] & x & (r & Hr & _ & X) & _). simpl in *.
    destruct (extent_placed k Hk _ _ _ _ _ _ _ _ _ _ E Hr X) as (Hl & He & H1 & H2).
    pose proof (place_bounds k _ i (e_sb _ _ _ _ _ E) Hl). lia.
Qed.

(** C12. What the manager hands out never overlaps. From a formatted disk on, in any
    sequence of reservations, publications, aborts, removals and checkpoints (whose
    parts other calls may interrupt, and whose writes may fail at any point), no two
    of the open handles and of the published extents share a byte, across slots,
    slabs and regions, and all lie behind the metadata area and inside the data disk;
    and in every state so reached every call but the write of a checkpoint returns.
    Keys are below [u64::MAX], sizes positive and small enough to be rounded up, and
    a handle is used once. *)
Theorem manager_no_overlap urandom budget em p dev id em0 xs c :
  metadata_device em = Some dev → fmt_ok k (sector_size (dev_client dev)) p → 0 ≤ num_sectors dev →
  num_sectors dev * Z.of_nat (sector_size (dev_client dev)) < 2 ^ 64 →
  instance_id p ∪ urandom = Some id → is_u 64 id → (num_blocks (dev_client dev) 4096 ≤ budget)%nat →
  format crc32 urandom budget em p = Ret (Ok (), em0) →
  Forall permitted xs → performs crc32 (mkCallers em0 [] []) xs = Ret c →
  (∀ i j a b, spans c !! i = Some a → spans c !! j = Some b → i ≠ j → apart a b) ∧
  (∃ sh, shared em0 = Some sh ∧
     Forall (λ a, Superblock.data_start_offset (sh_superblock sh) ≤ a.1 ∧ 0 < a.2 ∧
       a.1 + a.2 ≤ Superblock.data_disk_size (sh_superblock sh)) (spans c)) ∧
  ∀ x, permitted x → (∀ n, x ≠ CWrite n) → ∃ c', perform crc32 c x = Ret c'.
Proof.
  intros Hd Hf H1 H2 H3 H4 H5 Ef Hx Hr.
  destruct (format_establishes k Hk crc32 urandom budget em p dev id Hd Hf H1 H2 H3 H4 H5) as [E|(em' & rs & sh & dev' & E & Eok & Sv & _)];
    [by rewrite Ef in E|]. rewrite Ef in E. simplify_eq.
  assert (inv (mkCallers em' [] []) rs sh dev') as I0 by (split; simpl; [done|apply Sv|constructor..]).
  destruct (performs_inv _ _ _ _ _ _ I0 Hx Hr) as (rs' & sh' & dev2 & I & [D1 D2]).
  destruct (inv_spans _ _ _ _ I) as [Ha Hb]. rewrite D1, D2 in Hb. split_and!; [done|exists sh; split; [apply Eok|done]|].
  intros x Hp Hn. destruct (perform_total _ _ _ _ x I Hp Hn) as (c' & _ & ? & _). eauto.
Qed.
End manager.

(** * A run *)

(** Two extents, one published; a checkpoint, in the middle of which the published one
    is removed; and a third. *)
Definition sample_calls : list call :=
  [CReserve 5 100; CReserve 6 100; CPublish 0; CWrite 2; CRemove 0; CFinish; CReserve 7 100; CPublish 0].

Definition formatted : EM := match format sum32 (Some 7) 1 (em_with sample0) sample_params with Ret (_, em) => em | Panic => em_with sample0 end.

Definition sample_run : outcome Callers := performs sum32 (mkCallers formatted [] []) sample_calls.

Lemma sample_fmt : fmt_ok 12 (sector_size (dev_client dev0)) sample_params.
Proof.
  split; simpl; [split_and!; [lia|by exists 1|by exists 1|by exists 0]|done|done| |done|done].
  split_and!; split; vm_compute; congruence.
Qed.

Lemma sample_formatted : format sum32 (Some 7) 1 (em_with sample0) sample_params = Ret (Ok (), formatted).
Proof. vm_compute. reflexivity. Qed.

Lemma sample_permitted : Forall (permitted 12) sample_calls.
Proof. repeat constructor; simpl; try lia; vm_compute; congruence. Qed.

Lemma manager_no_overlap_witness : ∃ c, sample_run = Ret c ∧ spans c = [(0, 4096); (4096, 4096)] ∧ apart (0, 4096) (4096, 4096).
Proof.
  destruct sample_run as [c|] eqn:E; [|vm_compute in E; discriminate E]. exists c. split; [reflexivity|].
  assert (match sample_run with Ret c => spans c | Panic => [] end = [(0, 4096); (4096, 4096)]) as Hs by (vm_compute; reflexivity).
  rewrite E in Hs. split; [exact Hs|].
  destruct (manager_no_overlap 12 ltac:(lia) sum32 (Some 7) 1 (em_with sample0) sample_params dev0 7 formatted sample_calls c
    eq_refl sample_fmt ltac:(vm_compute; congruence) ltac:(vm_compute; congruence) eq_refl
    ltac:(split; vm_compute; congruence) ltac:(vm_compute; lia) sample_formatted sample_permitted E) as [H _].
  apply (H 0%nat 1%nat); [by rewrite Hs|by rewrite Hs|lia].
Defined.

End ExtentRuns.
