(* ===== verification/ExtentStore.v ===== *)
(** What the dispatcher needs of an extent manager
    ([components/interfaces/src/iextent_manager.rs]): the interface as a class, its
    promises as the class [ExtentManagerLaws], and the extent manager of
    [ExtentManager] as the instance that keeps them. *)

From S2P Require Import Prelude Slab Buddy Region Checkpoint Recovery ExtentManager.

Module ExtentStore.
Local Open Scope Z_scope.

(** The dispatcher asks only whether a call succeeded; [for_each_extent] gives keys
    with offsets. *)
Class IExtentManager (E : Type) := {
  WriteHandle : Type;
  extent_offset : WriteHandle → Z;
  reserve_extent : E → Z → Z → outcome (option WriteHandle * E);
  publish : E → WriteHandle → outcome (bool * E);
  abort : E → WriteHandle → outcome E;
  remove_extent : E → Z → outcome (bool * E);
  for_each_extent : E → outcome (list (Z * Z))
}.

(** [extent e off k]: an extent of key [k] is published at [off];
    [granted e h k]: handle [h] is an open reservation for [k]. *)
Class ExtentManagerLaws (E : Type) `{IExtentManager E} := {
  em_ok : E → Prop;
  extent : E → Z → Z → Prop;
  granted : E → WriteHandle → Z → Prop;
  extent_range e off k : em_ok e → extent e off k → 0 ≤ off < 2 ^ 56;
  extent_key e off k k' : em_ok e → extent e off k → extent e off k' → k = k';
  granted_range e h k : em_ok e → granted e h k → 0 ≤ extent_offset h < 2 ^ 56;
  granted_fresh e h k k' : em_ok e → granted e h k → ¬ extent e (extent_offset h) k';
  reserve_law e key size :
    em_ok e → 0 ≤ key < u64_max → 0 < size → size ≤ 2 ^ 31 →
    ∃ x e', reserve_extent e key size = Ret (x, e') ∧ em_ok e' ∧
      (∀ off k, extent e' off k ↔ extent e off k) ∧
      match x with Some h => granted e' h key | None => True end;
  publish_law e h key :
    em_ok e → granted e h key →
    ∃ e', publish e h = Ret (true, e') ∧ em_ok e' ∧
      ∀ off k, extent e' off k ↔ extent e off k ∨ off = extent_offset h ∧ k = key;
  abort_law e h key :
    em_ok e → granted e h key →
    ∃ e', abort e h = Ret e' ∧ em_ok e' ∧ ∀ off k, extent e' off k ↔ extent e off k;
  remove_law e off key :
    em_ok e → extent e off key →
    ∃ e', remove_extent e off = Ret (true, e') ∧ em_ok e' ∧
      (∀ o k, extent e' o k ↔ extent e o k ∧ o ≠ off) ∧
      ∀ h k, granted e h k → granted e' h k
}.

(** * The extent manager *)

Import Slab Region Recovery ExtentManager.

Definition answered {A} (x : res A) : option A := match x with Ok a => Some a | Err _ => None end.
Definition succeeded {A} (x : res A) : bool := match x with Ok _ => true | Err _ => false end.

#[global] Instance EM_extents : IExtentManager EM := {
  WriteHandle := ExtentManager.WriteHandle;
  extent_offset := h_offset;
  reserve_extent em key size := '(x, em) ← ExtentManager.reserve_extent em key size; Ret (answered x, em);
  publish em h := '(x, em) ← ExtentManager.publish em h; Ret (succeeded x, em);
  abort := ExtentManager.abort;
  remove_extent em off := '(x, em) ← ExtentManager.remove_extent em off; Ret (succeeded x, em);
  for_each_extent em := es ← get_extents em; Ret (List.map (λ e, (x_key e, x_offset e)) es)
}.

(** A manager on a disk of less than 2^56 bytes with sectors of at most 4 KiB. *)
Definition manager_ok (em : EM) : Prop :=
  ∃ k rs sh dev, 0 ≤ k ≤ 12 ∧ ExtentManager.em_ok k em rs sh dev ∧
    Superblock.region_count (sh_superblock sh) ≤ 2 ^ k ∧
    Superblock.data_disk_size (sh_superblock sh) ≤ 2 ^ 56.

Definition has_slot (em : EM) (i : nat) (st : Z) (j : nat) (off : Z) (x : estate) : Prop :=
  ∃ rs r e, regions em = Some rs ∧ rs !! i = Some r ∧ extent_at r st j off e ∧ slot_state r st j = Some x.

Definition has_extent (em : EM) (off key : Z) : Prop := ∃ i st j, has_slot em i st j off (Published key).

Definition is_granted (em : EM) (h : ExtentManager.WriteHandle) (key : Z) : Prop :=
  has_slot em (h_region h) (h_slab h) (h_slot h) (h_offset h) Reserved ∧ h_key h = key ∧ key ≠ FREE_KEY.

Lemma slot_range em i st j off x : manager_ok em → has_slot em i st j off x → 0 ≤ off < 2 ^ 56.
Proof.
  intros (k & rs & sh & dev & Hk & E & _ & Hd) (rs' & r & e & Er & Hi & X & _).
  rewrite (e_regions _ _ _ _ _ E) in Er. injection Er as <-.
  destruct (extent_placed k ltac:(lia) _ _ _ _ _ _ _ _ _ _ E Hi X) as (Hl & He & H1 & H2).
  pose proof (place_bounds k _ i (e_sb _ _ _ _ _ E) Hl). lia.
Qed.

(** Two slots at one offset are one slot. *)
Lemma slot_inj em i st j off x i' st' j' x' :
  manager_ok em → has_slot em i st j off x → has_slot em i' st' j' off x' → i = i' ∧ st = st' ∧ j = j' ∧ x = x'.
Proof.
  intros (k & rs & sh & dev & Hk & E & _ & Hd) (rs1 & r & e & Er & Hi & X & S) (rs2 & r' & e' & Er' & Hi' & X' & S').
  rewrite (e_regions _ _ _ _ _ E) in *. simplify_eq.
  destruct (extent_placed k ltac:(lia) _ _ _ _ _ _ _ _ _ _ E Hi X) as (Hl & He & H1 & H2).
  destruct (extent_placed k ltac:(lia) _ _ _ _ _ _ _ _ _ _ E Hi' X') as (Hl' & He' & H1' & H2').
  pose proof (λ a b H, places_disjoint k _ a b (e_sb _ _ _ _ _ E) H) as Pd.
  assert (i = i') as <-.
  { destruct (Nat.lt_trichotomy i i') as [Hlt|[?|Hlt]]; [|done|];
      [specialize (Pd i i' ltac:(lia))|specialize (Pd i' i ltac:(lia))]; lia. }
  simplify_eq. destruct (decide ((st, j) = (st', j'))) as [[= <- <-]|Hne]; [by simplify_eq|].
  destruct (e_region _ _ _ _ _ E _ _ Hi) as [O _].
  by destruct (extent_at_inj k ltac:(lia) r off st j e st' j' e' O X X' Hne).
Qed.

(** A change of one slot of one region that leaves the others in place. *)
Lemma slot_after em em' i r r' rs st0 j0 x0 k :
  regions em = Some rs → rs !! i = Some r → em' = set_regions em (<[i := r']> rs) → ok k r' →
  updated r r' st0 j0 x0 → keeps_live r r' →
  ∀ i' st j off x, (i', st, j) ≠ (i, st0, j0) → has_slot em i' st j off x → has_slot em' i' st j off x.
Proof.
  intros Er Hi -> Ok U Kp i' st j off x Hne (rs1 & r1 & e & Er1 & Hi1 & X & S). simplify_eq.
  exists (<[i := r']> rs). destruct (decide (i' = i)) as [->|Hi'].
  - exists r', e. simplify_eq. pose proof (lookup_lt_Some _ _ _ Hi).
    assert (slot_state r' st j = Some x) as S' by (rewrite U, decide_False; [done|naive_solver]).
    split_and!; [done|by apply list_lookup_insert_eq|apply Kp; [done|congruence]|done].
  - exists r1, e. split_and!; [done|by rewrite list_lookup_insert_ne|done..].
Qed.

Lemma live_extent k r st j x : ok k r → slot_state r st j = Some x → ∃ off e, extent_at r st j off e.
Proof.
  intros [Ob _ _] (s & bs & Hin & Os & Hb & _)%(slot_state_Some k); [|done].
  exists (slot_start s j), (element_size s), s. split_and!; [done..|].
  unfold num_slots. rewrite (Bitmap.rep_slots _ _ (ok_bitmap _ _ Os)). by eapply lookup_lt_Some.
Qed.

Lemma slot_before em em' i r r' rs st0 j0 x0 k :
  regions em = Some rs → rs !! i = Some r → em' = set_regions em (<[i := r']> rs) → ok k r → ok k r' →
  updated r r' st0 j0 x0 → keeps_live r r' →
  ∀ i' st j off x, (i', st, j) ≠ (i, st0, j0) → has_slot em' i' st j off x → has_slot em i' st j off x.
Proof.
  intros Er Hi -> Ok Ok' U Kp i' st j off x Hne (rs1 & r1 & e & Er1 & Hi1 & X & S). simpl in Er1. simplify_eq.
  exists rs. destruct (decide (i' = i)) as [->|Hi'].
  - rewrite list_lookup_insert_eq in Hi1 by (by eapply lookup_lt_Some). injection Hi1 as <-.
    pose proof S as S'. rewrite U, decide_False in S' by naive_solver.
    destruct (live_extent _ _ _ _ _ Ok S') as (off0 & e0 & X0).
    destruct (Kp _ _ _ _ X0 ltac:(congruence)) as (s1 & Hin1 & <- & -> & _).
    destruct X as (s & Hin & <- & -> & _). rewrite (slab_unique k _ _ _ _ (ok_base _ _ Ok') Hin1 Hin) in X0.
    exists r, (element_size s). done.
  - rewrite list_lookup_insert_ne in Hi1 by done. exists r1, e. done.
Qed.

(** What one changed slot means for the published extents. *)
Lemma slot_change em i r r' rs st0 j0 x0 k :
  regions em = Some rs → rs !! i = Some r → ok k r → ok k r' → updated r r' st0 j0 x0 → keeps_live r r' →
  ∀ i' st j off x, (i', st, j) ≠ (i, st0, j0) →
    has_slot (set_regions em (<[i := r']> rs)) i' st j off x ↔ has_slot em i' st j off x.
Proof.
  intros Er Hi O O' U Kp i' st j off x Hne. split.
  - by apply (slot_before em _ i r r' rs st0 j0 x0 k).
  - by apply (slot_after em _ i r r' rs st0 j0 x0 k).
Qed.

Lemma slot_here em i r rs st j off x :
  regions em = Some rs → rs !! i = Some r → has_slot em i st j off x → slot_state r st j = Some x.
Proof. intros Er Hi (rs1 & r1 & e & Er1 & Hi1 & _ & S). by simplify_eq. Qed.

Lemma extents_change em i r r' rs st0 j0 x0 k :
  regions em = Some rs → rs !! i = Some r → ok k r → ok k r' → updated r r' st0 j0 x0 → keeps_live r r' →
  ∀ off key, has_extent (set_regions em (<[i := r']> rs)) off key ↔
    (∃ i' st j, (i', st, j) ≠ (i, st0, j0) ∧ has_slot em i' st j off (Published key)) ∨
    (x0 = Some (Published key) ∧ has_slot (set_regions em (<[i := r']> rs)) i st0 j0 off (Published key)).
Proof.
  intros Er Hi O O' U Kp off key. pose proof (slot_change em i r r' rs st0 j0 x0 k Er Hi O O' U Kp) as C. split.
  - intros (i' & st & j & Hs). destruct (decide ((i', st, j) = (i, st0, j0))) as [[= -> -> ->]|Hne].
    + right. split; [|done]. eapply slot_here in Hs; [|done|by apply list_lookup_insert_eq, lookup_lt_Some with r].
      by rewrite U, decide_True in Hs.
    + left. exists i', st, j. by rewrite <- C.
  - intros [(i' & st & j & Hne & Hs)|[_ Hs]]; [|by do 3 eexists].
    exists i', st, j. by apply C.
Qed.

(** ** The laws *)

Lemma manager_reserve em key size :
  manager_ok em → 0 ≤ key < u64_max → 0 < size → size ≤ 2 ^ 31 →
  ∃ x em', ExtentManager.reserve_extent em key size = Ret (x, em') ∧ manager_ok em' ∧
    (∀ off k, has_extent em' off k ↔ has_extent em off k) ∧
    match answered x with Some h => is_granted em' h key | None => True end.
Proof.
  intros (k & rs & sh & dev & Hk & E & Hn & Hd) Hkey H0 H1.
  assert (2 ^ k ≤ 2 ^ 12) by (apply Z.pow_le_mono_r; lia).
  destruct (reserve_extent_spec k ltac:(lia) em rs sh dev key size E) as (i & r & r' & _ & Hi & E' & Hcase & Kp); [lia..|].
  pose proof (e_regions _ _ _ _ _ E) as Er. destruct (e_region _ _ _ _ _ E _ _ Hi) as [O _].
  assert (<[i := r']> rs !! i = Some r') as Hi' by (by apply list_lookup_insert_eq, lookup_lt_Some with r).
  destruct (e_region _ _ _ _ _ E' i r' Hi') as [O' _].
  assert (keeps_live r r') as Kl by (intros ? ? ? ? X _; by apply Kp).
  assert (manager_ok (set_regions em (<[i := r']> rs))) as M by (by exists k, (<[i := r']> rs), sh, dev).
  destruct Hcase as [(st & j & off & Ex & Hnone & U & X)|[Ex U]]; eexists _, _; (split; [exact Ex|]); (split; [done|]).
  - split.
    + intros o q. rewrite (extents_change em i r r' rs st j _ k Er Hi O O' U Kl). split.
      * intros [(? & ? & ? & _ & ?)|[? _]]; [by do 3 eexists|done].
      * intros (i1 & st1 & j1 & Hs). left. exists i1, st1, j1. split; [|done]. intros [= -> -> ->].
        rewrite (slot_here _ _ _ _ _ _ _ _ Er Hi Hs) in Hnone. done.
    + split_and!; [|done|unfold FREE_KEY; lia]. exists (<[i := r']> rs), r', (elem k size). simpl.
      split_and!; [done..|]. by rewrite U, decide_True.
  - split; [|done]. intros o q.
    assert (∀ i1 st1 j1, has_slot (set_regions em (<[i := r']> rs)) i1 st1 j1 o (Published q) ↔
                         has_slot em i1 st1 j1 o (Published q)) as C.
    { intros i1 st1 j1. apply (slot_change em i r r' rs st1 (S j1) (slot_state r st1 (S j1)) k); try done.
      - intros st2 j2. case_decide as Hd2; [destruct Hd2 as [-> ->]|]; apply U.
      - intros [= _ Hj]. lia. }
    split; intros (i1 & st1 & j1 & Hs); exists i1, st1, j1; by apply C.
Qed.

Lemma manager_publish em h key :
  manager_ok em → is_granted em h key →
  ∃ x em', ExtentManager.publish em h = Ret (Ok x, em') ∧ manager_ok em' ∧
    ∀ off k, has_extent em' off k ↔ has_extent em off k ∨ off = h_offset h ∧ k = key.
Proof.
  intros (k & rs & sh & dev & Hk & E & Hn & Hd) ((rs1 & r & e & Er1 & Hi & X & S) & <- & Hkey).
  pose proof (e_regions _ _ _ _ _ E) as Er. rewrite Er in Er1. injection Er1 as <-.
  destruct (publish_spec k em rs sh dev h r E Hi S Hkey) as (r' & Ep & E' & U & _ & Kp).
  destruct (e_region _ _ _ _ _ E _ _ Hi) as [O _].
  assert (<[h_region h := r']> rs !! h_region h = Some r') as Hi' by (by apply list_lookup_insert_eq, lookup_lt_Some with r).
  destruct (e_region _ _ _ _ _ E' _ r' Hi') as [O' _].
  assert (keeps_live r r') as Kl by (intros ? ? ? ? Xx _; by apply Kp).
  eexists _, _. split; [exact Ep|]. split; [by exists k, (<[h_region h := r']> rs), sh, dev|].
  assert (has_slot (set_regions em (<[h_region h := r']> rs)) (h_region h) (h_slab h) (h_slot h) (h_offset h) (Published (h_key h))) as Hnew.
  { exists (<[h_region h := r']> rs), r', e. split_and!; [done..|by apply Kp|by rewrite U, decide_True]. }
  intros o q. rewrite (extents_change em _ r r' rs _ _ _ k Er Hi O O' U Kl). split.
  - intros [(? & ? & ? & _ & ?)|[[= <-] Hs]]; [left; by do 3 eexists|right]. split; [|done].
    destruct Hs as (rs2 & r2 & e2 & E2 & Hi2 & (s2 & Hin2 & _ & -> & _) & _), Hnew as (rs3 & r3 & e3 & E3 & Hi3 & (s3 & Hin3 & _ & -> & _) & _).
    simpl in E2, E3. simplify_eq. by rewrite (slab_unique k _ _ _ _ (ok_base _ _ O') Hin2 Hin3).
  - intros [(i1 & st1 & j1 & Hs)|[-> ->]]; [left|by right]. exists i1, st1, j1. split; [|done]. intros [= -> -> ->].
    rewrite (slot_here _ _ _ _ _ _ _ _ Er Hi Hs) in S. done.
Qed.

Lemma manager_abort em h key :
  manager_ok em → is_granted em h key →
  ∃ em', ExtentManager.abort em h = Ret em' ∧ manager_ok em' ∧ ∀ off k, has_extent em' off k ↔ has_extent em off k.
Proof.
  intros (k & rs & sh & dev & Hk & E & Hn & Hd) ((rs1 & r & e & Er1 & Hi & X & S) & <- & Hkey).
  pose proof (e_regions _ _ _ _ _ E) as Er. rewrite Er in Er1. injection Er1 as <-.
  destruct (abort_spec k ltac:(lia) em rs sh dev h r E Hi S) as (r' & Ep & E' & U & Kl).
  destruct (e_region _ _ _ _ _ E _ _ Hi) as [O _].
  assert (<[h_region h := r']> rs !! h_region h = Some r') as Hi' by (by apply list_lookup_insert_eq, lookup_lt_Some with r).
  destruct (e_region _ _ _ _ _ E' _ r' Hi') as [O' _].
  eexists. split; [exact Ep|]. split; [by exists k, (<[h_region h := r']> rs), sh, dev|].
  intros o q. rewrite (extents_change em _ r r' rs _ _ _ k Er Hi O O' U Kl). split.
  - intros [(? & ? & ? & _ & ?)|[? _]]; [by do 3 eexists|done].
  - intros (i1 & st1 & j1 & Hs). left. exists i1, st1, j1. split; [|done]. intros [= -> -> ->].
    rewrite (slot_here _ _ _ _ _ _ _ _ Er Hi Hs) in S. done.
Qed.

Lemma manager_remove em off key :
  manager_ok em → has_extent em off key →
  ∃ em', ExtentManager.remove_extent em off = Ret (Ok (), em') ∧ manager_ok em' ∧
    (∀ o k, has_extent em' o k ↔ has_extent em o k ∧ o ≠ off) ∧
    ∀ h k, is_granted em h k → is_granted em' h k.
Proof.
  intros M (i & st & j & Hs0). pose proof M as (k & rs & sh & dev & Hk & E & Hn & Hd).
  pose proof Hs0 as (rs1 & r & e & Er1 & Hi & X & S).
  pose proof (e_regions _ _ _ _ _ E) as Er. rewrite Er in Er1. injection Er1 as <-.
  destruct (remove_extent_em_spec k ltac:(lia) em rs sh dev i r st j off e key E Hn Hi X S) as (r' & Ep & E' & U & Kp).
  destruct (e_region _ _ _ _ _ E _ _ Hi) as [O _].
  assert (<[i := r']> rs !! i = Some r') as Hi' by (by apply list_lookup_insert_eq, lookup_lt_Some with r).
  destruct (e_region _ _ _ _ _ E' _ r' Hi') as [O' _].
  assert (keeps_live r r') as Kl by (intros ? ? ? ? Xx _; by apply Kp).
  eexists. split; [exact Ep|]. split; [by exists k, (<[i := r']> rs), sh, dev|]. split.
  - intros o q. rewrite (extents_change em _ r r' rs _ _ _ k Er Hi O O' U Kl). split.
    + intros [(i1 & st1 & j1 & Hne & Hs)|[? _]]; [|done]. split; [by do 3 eexists|]. intros ->.
      destruct (slot_inj _ _ _ _ _ _ _ _ _ _ M Hs Hs0) as (-> & -> & -> & _). done.
    + intros [(i1 & st1 & j1 & Hs) Hne]. left. exists i1, st1, j1. split; [|done]. intros [= -> -> ->].
      destruct Hs as (rs2 & r2 & e2 & E2 & Hi2 & (s2 & Hin2 & _ & -> & _) & _), X as (s3 & Hin3 & _ & -> & _).
      simplify_eq. by rewrite (slab_unique k _ _ _ _ (ok_base _ _ O) Hin2 Hin3) in Hne.
  - intros h q (Hs & ? & ?). split; [|done]. apply (slot_change em i r r' rs st j _ k Er Hi O O' U Kl); [|done].
    intros [= Eh1 Eh2 Eh3]. rewrite Eh1, Eh2, Eh3 in Hs. rewrite (slot_here _ _ _ _ _ _ _ _ Er Hi Hs) in S. done.
Qed.

#[global] Program Instance EM_laws : ExtentManagerLaws EM := {
  em_ok := manager_ok;
  extent := has_extent;
  granted := is_granted
}.
Next Obligation. intros e off k M (i & st & j & Hs). by eapply slot_range. Qed.
Next Obligation.
  intros e off k k' M (i & st & j & Hs) (i' & st' & j' & Hs').
  by destruct (slot_inj _ _ _ _ _ _ _ _ _ _ M Hs Hs') as (_ & _ & _ & [= ->]).
Qed.
Next Obligation. intros e h k M [Hs _]. by eapply slot_range. Qed.
Next Obligation.
  intros e h k k' M [Hs _] (i' & st' & j' & Hs'). by destruct (slot_inj _ _ _ _ _ _ _ _ _ _ M Hs Hs') as (_ & _ & _ & ?).
Qed.
Next Obligation.
  intros e key size M Hk H0 H1. destruct (manager_reserve e key size M Hk H0 H1) as (x & e' & E & ? & ? & ?).
  exists (answered x), e'. simpl. by rewrite E.
Qed.
Next Obligation.
  intros e h key M G. destruct (manager_publish e h key M G) as (x & e' & E & ? & ?).
  exists e'. simpl. by rewrite E.
Qed.
Next Obligation. intros e h key M G. by apply (manager_abort e h key). Qed.
Next Obligation.
  intros e off key M G. destruct (manager_remove e off key M G) as (e' & E & ? & ? & ?).
  exists e'. simpl. by rewrite E.
Qed.

End ExtentStore.
