(* ===== verification/Coalesce.v ===== *)
(** Coalescing of concurrent [checkpoint] calls
    ([components/extent-manager/src/lib.rs], [IExtentManager::checkpoint] and
    [CheckpointCoalesce]).

    Each critical section of [checkpoint_coalesce] is one event; the run of
    [run_checkpoint] between two of them is outside the lock. The sequence
    numbers are unbounded (a [u64] is not exhausted by checkpoints). *)

From S2P Require Import Prelude.

Module Coalesce.
Local Open Scope Z_scope.

(** [CheckpointCoalesce]. *)
Record CheckpointCoalesce := mkState { completed_seq : Z; in_progress : bool }.

(** Where a caller is. The times are not in the code: when it called, and when
    the run it makes began. *)
Inductive caller :=
| Waiting (needed : Z) (called : nat)
| Running (needed : Z) (called began : nat)
| Returned (is_ok : bool) (called : nat).

(** The callers, the time, and when each successful run began. *)
Record system := mkSys {
  state : CheckpointCoalesce;
  callers : gmap nat caller;
  time : nat;
  runs : list nat
}.

Definition initial : system := mkSys (mkState 0 false) ∅ 0 [].

Inductive event :=
| Call (t : nat)
| Wake (t : nat)
| Finish (t : nat) (is_ok : bool).

(** The loop of [checkpoint]: return, start a run, or wait. *)
Definition loop_head (s : system) (t : nat) (needed : Z) (called : nat) : system :=
  if needed <=? completed_seq (state s) then
    mkSys (state s) (<[t := Returned true called]> (callers s)) (S (time s)) (runs s)
  else if in_progress (state s) then
    mkSys (state s) (<[t := Waiting needed called]> (callers s)) (S (time s)) (runs s)
  else
    mkSys (mkState (completed_seq (state s)) true)
      (<[t := Running needed called (time s)]> (callers s)) (S (time s)) (runs s).

Definition call (s : system) (t : nat) : system :=
  let needed := if in_progress (state s) then completed_seq (state s) + 2
                else completed_seq (state s) + 1 in
  loop_head s t needed (time s).

(** The end of a run, successful or not. *)
Definition finish (s : system) (t : nat) (needed : Z) (called began : nat) (is_ok : bool) : system :=
  mkSys (mkState (if is_ok then needed else completed_seq (state s)) false)
    (<[t := Returned is_ok called]> (callers s)) (S (time s))
    (if is_ok then began :: runs s else runs s).

Definition step (s : system) (e : event) : option system :=
  match e with
  | Call t =>
      match callers s !! t with
      | None | Some (Returned _ _) => Some (call s t)
      | _ => None
      end
  | Wake t =>
      match callers s !! t with
      | Some (Waiting needed called) => Some (loop_head s t needed called)
      | _ => None
      end
  | Finish t is_ok =>
      match callers s !! t with
      | Some (Running needed called began) => Some (finish s t needed called began is_ok)
      | _ => None
      end
  end.

Fixpoint run (s : system) (es : list event) : option system :=
  match es with
  | [] => Some s
  | e :: es => s' ← step s e; run s' es
  end.

(** The caller was served by a run that began after it called. *)
Definition served (s : system) (called : nat) : Prop := ∃ b, b ∈ runs s ∧ (called ≤ b)%nat.

Definition no_failure (e : event) : Prop := match e with Finish _ is_ok => is_ok = true | _ => True end.

(** ** When no run fails *)

Record inv (s : system) : Prop := {
  i_runner : ∀ t n c b, callers s !! t = Some (Running n c b) →
    in_progress (state s) = true ∧ n = completed_seq (state s) + 1 ∧ (c ≤ b)%nat;
  i_one : ∀ t t' n n' c c' b b', callers s !! t = Some (Running n c b) →
    callers s !! t' = Some (Running n' c' b') → t = t';
  i_wait : ∀ t n c, callers s !! t = Some (Waiting n c) →
    (c ≤ time s)%nat ∧ n ≤ completed_seq (state s) + 2 ∧
    (n ≤ completed_seq (state s) → served s c) ∧
    (n = completed_seq (state s) + 1 →
      ∀ t' n' c' b, callers s !! t' = Some (Running n' c' b) → (c ≤ b)%nat) ∧
    (n = completed_seq (state s) + 2 → in_progress (state s) = true);
  i_done : ∀ t c, callers s !! t = Some (Returned true c) → served s c
}.
Ltac caller_at H :=
  rewrite lookup_insert_Some in H; destruct H as [[<- ?]|[? H]]; simplify_eq.

Lemma inv_initial : inv initial.
Proof. split; simpl; intros *; by rewrite lookup_empty. Qed.

(** The loop head, for a caller whose number is right. *)
Lemma inv_loop_head s t n c :
  inv s → (∀ n' c' b, callers s !! t ≠ Some (Running n' c' b)) →
  (c ≤ time s)%nat → n ≤ completed_seq (state s) + 2 →
  (n ≤ completed_seq (state s) → served s c) →
  (n = completed_seq (state s) + 1 →
    ∀ t' n' c' b, callers s !! t' = Some (Running n' c' b) → (c ≤ b)%nat) →
  (n = completed_seq (state s) + 2 → in_progress (state s) = true) →
  inv (loop_head s t n c).
Proof.
  intros [R1 R2 W D] Hnr Hc H1 H2 H3 H4. unfold loop_head. destruct (Z.leb_spec n (completed_seq (state s))).
  - split; simpl.
    + intros t1 n1 c1 b1 Ha. caller_at Ha. eauto.
    + intros t1 t2 n1 n2 c1 c2 b1 b2 Ha Hb. caller_at Ha. caller_at Hb. eauto.
    + intros t1 n1 c1 Ha. caller_at Ha. destruct (W _ _ _ Ha) as (? & ? & ? & Hw & ?).
      split_and!; [lia|done..| |done]. intros Hn t2 n2 c2 b2 Hb. caller_at Hb. eauto.
    + intros t1 c1 Ha. caller_at Ha; [auto|by eapply D].
  - destruct (in_progress (state s)) eqn:Hp.
    + split; simpl.
      * intros t1 n1 c1 b1 Ha. caller_at Ha. rewrite Hp. by destruct (R1 _ _ _ _ Ha) as (_ & ? & ?).
      * intros t1 t2 n1 n2 c1 c2 b1 b2 Ha Hb. caller_at Ha. caller_at Hb. eauto.
      * intros t1 n1 c1 Ha. caller_at Ha.
        { split_and!; [lia|lia|auto| |auto]. intros Hn t2 n2 c2 b2 Hb. caller_at Hb. eauto. }
        destruct (W _ _ _ Ha) as (? & ? & ? & Hw & ?).
        split_and!; [lia|done..| |auto]. intros Hn t2 n2 c2 b2 Hb. caller_at Hb. eauto.
      * intros t1 c1 Ha. caller_at Ha. by eapply D.
    + assert (∀ t1 n1 c1 b1, callers s !! t1 ≠ Some (Running n1 c1 b1)) as Hno.
      { intros t1 n1 c1 b1 Ha. destruct (R1 _ _ _ _ Ha) as [? _]. congruence. }
      assert (n = completed_seq (state s) + 1) as -> by (destruct (decide (n = completed_seq (state s) + 2)); [naive_solver|lia]).
      split; simpl.
      * intros t1 n1 c1 b1 Ha. caller_at Ha; [done|by destruct (Hno _ _ _ _ Ha)].
      * intros t1 t2 n1 n2 c1 c2 b1 b2 Ha Hb. caller_at Ha; [|by destruct (Hno _ _ _ _ Ha)].
        caller_at Hb; [done|by destruct (Hno _ _ _ _ Hb)].
      * intros t1 n1 c1 Ha. caller_at Ha. destruct (W _ _ _ Ha) as (? & ? & ? & Hw & ?).
        split_and!; [lia|done..| |done]. intros Hn t2 n2 c2 b2 Hb.
        caller_at Hb; [lia|by destruct (Hno _ _ _ _ Hb)].
      * intros t1 c1 Ha. caller_at Ha. by eapply D.
Qed.

Lemma inv_finish s t n c b :
  inv s → callers s !! t = Some (Running n c b) → inv (finish s t n c b true).
Proof.
  intros [R1 R2 W D] Ht. destruct (R1 _ _ _ _ Ht) as (Hp & -> & Hcb).
  assert (∀ t' n' c' b', t ≠ t' → callers s !! t' ≠ Some (Running n' c' b')) as Hno.
  { intros t' n' c' b' Hne Ha. by destruct (Hne (R2 _ _ _ _ _ _ _ _ Ht Ha)). }
  assert (∀ c', served s c' → served (finish s t (completed_seq (state s) + 1) c b true) c') as Hs.
  { intros c' (x & Hx & ?). exists x. split; [by right|done]. }
  unfold finish. split; simpl.
  - intros t1 n1 c1 b1 Ha. caller_at Ha. by destruct (Hno t1 n1 c1 b1).
  - intros t1 t2 n1 n2 c1 c2 b1 b2 Ha. caller_at Ha. by destruct (Hno t1 n1 c1 b1).
  - intros t1 n1 c1 Ha. caller_at Ha. destruct (W _ _ _ Ha) as (? & ? & Hsv & Hw & ?).
    split_and!; [lia|lia| | |lia].
    + intros Hn. destruct (decide (n1 = completed_seq (state s) + 1)) as [E|].
      * exists b. split; [by left|by eapply Hw].
      * apply Hs, Hsv. lia.
    + intros Hn t2 n2 c2 b2 Hb. caller_at Hb. by destruct (Hno t2 n2 c2 b2).
  - intros t1 c1 Ha. caller_at Ha; [exists b; split; [by left|done]|]. apply Hs. by eapply D.
Qed.

Lemma inv_step s e s' : inv s → no_failure e → step s e = Some s' → inv s'.
Proof.
  intros I Hf. pose proof I as [R1 R2 W D]. destruct e as [t|t|t ok]; simpl in *.
  - assert ((∀ n' c' b, callers s !! t ≠ Some (Running n' c' b)) → inv (call s t)) as Hcall.
    { intros Hnr. apply inv_loop_head; [done..|lia| | | |].
      all: destruct (in_progress (state s)) eqn:Hp; try lia; try done.
      intros _ t' n' c' b Ha. destruct (R1 _ _ _ _ Ha). congruence. }
    destruct (callers s !! t) as [[]|] eqn:Ht; intros [= <-]; by apply Hcall.
  - destruct (callers s !! t) as [[n c| |]|] eqn:Ht; intros [= <-].
    destruct (W _ _ _ Ht) as (? & ? & ? & ? & ?). apply inv_loop_head; try done. by rewrite Ht.
  - destruct (callers s !! t) as [[|n c b|]|] eqn:Ht; intros [= <-]. subst ok. by apply inv_finish.
Qed.

(** As long as no run fails, coalescing keeps its promise: a [checkpoint]
    call that returns success was served by a successful run that began after the
    call, so that everything published before the call is in that run's snapshot. *)
Theorem coalesce_serves es s t c :
  run initial es = Some s → Forall no_failure es → callers s !! t = Some (Returned true c) → served s c.
Proof.
  assert (∀ es s0, inv s0 → run s0 es = Some s → Forall no_failure es → inv s) as H.
  { clear. induction es as [|e es IH]; intros s0 I; simpl; [by intros [= <-]|].
    intros (s1 & H1 & H2)%bind_Some [Hf Hfs]%Forall_cons. eapply IH; [|done..]. by eapply inv_step. }
  intros Hr Hf. apply (H es initial inv_initial Hr Hf).
Qed.

(** A failed run breaks the promise. The next runner keeps the number it
    computed while the failed run was in progress, one too high, and a caller that
    arrives during its run computes the same number: it returns success when that
    run ends, although no run has begun since it called. *)
Theorem coalesce_failure_skips :
  ∃ s, run initial [Call 0; Call 1; Finish 0 false; Wake 1; Call 2; Finish 1 true; Wake 2] = Some s ∧
    callers s !! 2%nat = Some (Returned true 4) ∧ ¬ served s 4.
Proof.
  eexists. split; [vm_compute; reflexivity|]. split; [vm_compute; reflexivity|].
  intros (b & Hb & Hle). simpl in Hb. apply list_elem_of_singleton in Hb. lia.
Qed.

Lemma coalesce_serves_witness :
  ∃ s, run initial [Call 0; Call 1; Call 2; Finish 0 true; Wake 1; Finish 1 true; Wake 2] = Some s ∧
    served s 2.
Proof.
  eexists. split; [vm_compute; reflexivity|].
  apply (coalesce_serves [Call 0; Call 1; Call 2; Finish 0 true; Wake 1; Finish 1 true; Wake 2] _ 2);
    [vm_compute; reflexivity|repeat constructor|vm_compute; reflexivity].
Defined.

End Coalesce.
