(* ===== verification/DispatchMap.v ===== *)
(** The dispatch map ([components/dispatch-map/src]): where each key's data is,
    and the readers-writer reference counts that protect it.

    Every operation runs under the map's mutex, so it is one step here. A call
    that waits ([lookup], [take_read], [take_write]) is taken at the moment its
    wait ends: with its condition true, or with the deadline passed, which is
    the [Timeout] answer. [touch] of the eviction policy after the lock was
    dropped is part of the step. Messages are left out of the errors. *)

From S2P Require Import Prelude LruList EvictionPolicy.

Module DispatchMap.
Import Policy.
Local Open Scope Z_scope.

Inductive Location :=
| BlockDevice (offset : Z)
| MemoryTier (pointer size : Z) (ssd_offset : option Z).

(** [checksum] exists under the [integrity-check] feature. *)
Record DispatchEntry := mkEntry {
  location : Location;
  size_blocks : Z;
  read_ref : Z;
  write_ref : Z;
  eviction_handle : EvictionHandle;
  reuse_count : Z;
  checksum : Z
}.

Inductive LookupResult :=
| NotExist
| FoundBlock (offset : Z)
| FoundMemory (pointer size : Z).

Inductive DispatchMapError :=
| KeyNotFound (key : Z)
| AlreadyExists (key : Z)
| ActiveReferences (key : Z)
| Timeout (key : Z)
| InvalidSize
| NotInitialized
| RefCountUnderflow (key : Z)
| RefCountOverflow (key : Z)
| NoWriteReference (key : Z)
| InvalidState.

Abbreviation res A := (result A DispatchMapError).

Definition set_location (e : DispatchEntry) (l : Location) : DispatchEntry :=
  mkEntry l (size_blocks e) (read_ref e) (write_ref e) (eviction_handle e) (reuse_count e) (checksum e).
Definition set_blocks (e : DispatchEntry) (n : Z) : DispatchEntry :=
  mkEntry (location e) n (read_ref e) (write_ref e) (eviction_handle e) (reuse_count e) (checksum e).
Definition set_read (e : DispatchEntry) (n : Z) : DispatchEntry :=
  mkEntry (location e) (size_blocks e) n (write_ref e) (eviction_handle e) (reuse_count e) (checksum e).
Definition set_write (e : DispatchEntry) (n : Z) : DispatchEntry :=
  mkEntry (location e) (size_blocks e) (read_ref e) n (eviction_handle e) (reuse_count e) (checksum e).
Definition set_sum (e : DispatchEntry) (n : Z) : DispatchEntry :=
  mkEntry (location e) (size_blocks e) (read_ref e) (write_ref e) (eviction_handle e) (reuse_count e) n.

(** [fetch_add] wraps. *)
Definition bump_reuse (e : DispatchEntry) : DispatchEntry :=
  mkEntry (location e) (size_blocks e) (read_ref e) (write_ref e) (eviction_handle e)
    ((reuse_count e + 1) mod 2 ^ 32) (checksum e).

(** [size.div_ceil(4096)]. *)
Definition blocks_of (size : Z) : Z := (size + 4095) / 4096.

Section ops.
Context {S : Type} `{IEvictionPolicy S}.

Record Map := mkMap {
  entries : gmap Z DispatchEntry;
  pool : option nat;
  eviction_policy : option S
}.

Definition set_entry (m : Map) (key : Z) (e : DispatchEntry) : Map :=
  mkMap (<[key := e]> (entries m)) (pool m) (eviction_policy m).
Definition set_policy (m : Map) (s : S) : Map := mkMap (entries m) (pool m) (Some s).

Definition get_pool_id (m : Map) : res nat * Map :=
  match pool m with
  | Some id => (Ok id, m)
  | None =>
      match eviction_policy m with
      | None => (Err NotInitialized, m)
      | Some s => let '(id, s) := create_pool s in (Ok id, mkMap (entries m) (Some id) (Some s))
      end
  end.

(** [ep.track(pool, key, default).unwrap()], then a new entry. *)
Definition insert_tracked (m : Map) (s : S) (id : nat) (key : Z) (mk : EvictionHandle → DispatchEntry) :
    outcome Map :=
  '(h, s) ← track s id key default_semantics;
  match h with
  | Err _ => Panic
  | Ok h => Ret (set_policy (set_entry m key (mk h)) s)
  end.

Definition block_entry (offset size : Z) (h : EvictionHandle) : DispatchEntry :=
  mkEntry (BlockDevice offset) size 0 0 h 0 0.

(** The extents are (key, offset, size) triples, in the order
    [for_each_extent] gives them. *)
Fixpoint restore (m : Map) (id : nat) (extents : list (Z * Z * Z)) : outcome Map :=
  match extents with
  | [] => Ret m
  | (key, offset, size) :: extents =>
      s ← unwrap (eviction_policy m);
      m ← insert_tracked m s id key (block_entry offset size);
      restore m id extents
  end.

(** [extents] is [None] when no extent manager is bound. *)
Definition initialize (m : Map) (extents : option (list (Z * Z * Z))) : outcome (res unit * Map) :=
  let '(id, m) := get_pool_id m in
  match id with
  | Err e => Ret (Err e, m)
  | Ok id =>
      match eviction_policy m with
      | None => Ret (Err NotInitialized, m)
      | Some _ =>
          match extents with
          | None => Ret (Ok (), m)
          | Some l => m ← restore m id l; Ret (Ok (), m)
          end
      end
  end.

Definition touch_policy (m : Map) (h : EvictionHandle) : outcome Map :=
  match eviction_policy m with
  | None => Ret m
  | Some s => '(_, s) ← Policy.touch s h; Ret (set_policy m s)
  end.

Definition lookup (m : Map) (key : Z) : outcome (res LookupResult * Map) :=
  match entries m !! key with
  | None => Ret (Ok NotExist, m)
  | Some e =>
      if negb (write_ref e =? 0) then Ret (Err (Timeout key), m)
      else if read_ref e =? u32_max then Ret (Err (RefCountOverflow key), m)
      else
        let m := set_entry m key (bump_reuse (set_read e (read_ref e + 1))) in
        let result := match location e with
                      | BlockDevice offset => FoundBlock offset
                      | MemoryTier pointer size _ => FoundMemory pointer size
                      end in
        m ← touch_policy m (eviction_handle e);
        Ret (Ok result, m)
  end.

Definition convert_to_storage (m : Map) (key offset : Z) : res unit * Map :=
  match entries m !! key with
  | None => (Err (KeyNotFound key), m)
  | Some e =>
      match location e with
      | MemoryTier pointer size _ =>
          let e := set_location e (MemoryTier pointer size (Some offset)) in
          let e := if 0 <? read_ref e then set_read e (read_ref e - 1) else e in
          (Ok (), set_entry m key e)
      | BlockDevice _ => (Err InvalidState, m)
      end
  end.

Definition take_read (m : Map) (key : Z) : res unit * Map :=
  match entries m !! key with
  | None => (Err (KeyNotFound key), m)
  | Some e =>
      if negb (write_ref e =? 0) then (Err (Timeout key), m)
      else if read_ref e =? u32_max then (Err (RefCountOverflow key), m)
      else (Ok (), set_entry m key (bump_reuse (set_read e (read_ref e + 1))))
  end.

Definition take_write (m : Map) (key : Z) : res unit * Map :=
  match entries m !! key with
  | None => (Err (KeyNotFound key), m)
  | Some e =>
      if (read_ref e =? 0) && (write_ref e =? 0) then (Ok (), set_entry m key (set_write e 1))
      else (Err (Timeout key), m)
  end.

Definition release_read (m : Map) (key : Z) : res unit * Map :=
  match entries m !! key with
  | None => (Err (KeyNotFound key), m)
  | Some e =>
      if read_ref e =? 0 then (Err (RefCountUnderflow key), m)
      else (Ok (), set_entry m key (set_read e (read_ref e - 1)))
  end.

Definition release_write (m : Map) (key : Z) : res unit * Map :=
  match entries m !! key with
  | None => (Err (KeyNotFound key), m)
  | Some e =>
      if write_ref e =? 0 then (Err (RefCountUnderflow key), m)
      else (Ok (), set_entry m key (set_write e 0))
  end.

(** The write reference is gone even when the read reference overflows. *)
Definition downgrade_reference (m : Map) (key : Z) : res unit * Map :=
  match entries m !! key with
  | None => (Err (KeyNotFound key), m)
  | Some e =>
      if write_ref e =? 0 then (Err (NoWriteReference key), m)
      else
        let e := set_write e 0 in
        if read_ref e =? u32_max then (Err (RefCountOverflow key), set_entry m key e)
        else (Ok (), set_entry m key (bump_reuse (set_read e (read_ref e + 1))))
  end.

Definition remove (m : Map) (key : Z) : outcome (res unit * Map) :=
  match entries m !! key with
  | None => Ret (Err (KeyNotFound key), m)
  | Some e =>
      if (0 <? read_ref e) || (0 <? write_ref e) then Ret (Err (ActiveReferences key), m)
      else
        let m := mkMap (delete key (entries m)) (pool m) (eviction_policy m) in
        match eviction_policy m with
        | None => Ret (Ok (), m)
        | Some s => '(_, s) ← Policy.remove s (eviction_handle e); Ret (Ok (), set_policy m s)
        end
  end.

Definition touch (m : Map) (key : Z) : outcome (res unit * Map) :=
  match entries m !! key with
  | None => Ret (Err (KeyNotFound key), m)
  | Some e => m ← touch_policy m (eviction_handle e); Ret (Ok (), m)
  end.

Definition entry_size (m : Map) (key : Z) : outcome (res Z) :=
  match entries m !! key with
  | None => Ret (Err (KeyNotFound key))
  | Some e => n ← mul_w 32 (size_blocks e) 4096; Ret (Ok n)
  end.

Definition oldest_keys (m : Map) (n : nat) : outcome (list Z * Map) :=
  let '(id, m) := get_pool_id m in
  match id, eviction_policy m with
  | Ok id, Some s => l ← get_eviction_candidates s id n; Ret (l, m)
  | _, _ => Ret ([], m)
  end.

Definition create_memory_tier_entry (m : Map) (key pointer size : Z) : outcome (res unit * Map) :=
  if size =? 0 then Ret (Err InvalidSize, m)
  else
    let '(id, m) := get_pool_id m in
    match id, eviction_policy m with
    | Err e, _ => Ret (Err e, m)
    | Ok _, None => Ret (Err NotInitialized, m)
    | Ok id, Some s =>
        if bool_decide (is_Some (entries m !! key)) then Ret (Err (AlreadyExists key), m)
        else
          m ← insert_tracked m s id key
                (λ h, mkEntry (MemoryTier pointer size None) (blocks_of size) 0 1 h 0 0);
          Ret (Ok (), m)
    end.

Definition convert_memory_tier_to_block (m : Map) (key : Z) : res unit * Map :=
  match entries m !! key with
  | None => (Err (KeyNotFound key), m)
  | Some e =>
      match location e with
      | MemoryTier _ _ (Some offset) => (Ok (), set_entry m key (set_location e (BlockDevice offset)))
      | MemoryTier _ _ None => (Err InvalidState, m)
      | BlockDevice _ => (Err InvalidState, m)
      end
  end.

Definition promote_block_to_memory_tier (m : Map) (key pointer size : Z) : res unit * Map :=
  if size =? 0 then (Err InvalidSize, m)
  else
    match entries m !! key with
    | None => (Err (KeyNotFound key), m)
    | Some e =>
        match location e with
        | BlockDevice offset =>
            (Ok (), set_entry m key
               (set_blocks (set_location e (MemoryTier pointer size (Some offset))) (blocks_of size)))
        | MemoryTier _ _ _ => (Err InvalidState, m)
        end
    end.

Definition is_evictable (m : Map) (key : Z) : bool :=
  match entries m !! key with
  | Some e =>
      (read_ref e =? 0) && (write_ref e =? 0) &&
      match location e with MemoryTier _ _ (Some _) => true | _ => false end
  | None => false
  end.

Definition try_evict_to_block (m : Map) (key : Z) : res unit * Map :=
  match entries m !! key with
  | None => (Err (KeyNotFound key), m)
  | Some e =>
      if negb (read_ref e =? 0) || negb (write_ref e =? 0) then (Err (ActiveReferences key), m)
      else
        match location e with
        | MemoryTier _ _ (Some offset) => (Ok (), set_entry m key (set_location e (BlockDevice offset)))
        | MemoryTier _ _ None => (Err InvalidState, m)
        | BlockDevice _ => (Err InvalidState, m)
        end
  end.

Definition recover_extent (m : Map) (key offset size_blocks : Z) : outcome (res unit * Map) :=
  let '(id, m) := get_pool_id m in
  match id, eviction_policy m with
  | Err e, _ => Ret (Err e, m)
  | Ok _, None => Ret (Err NotInitialized, m)
  | Ok id, Some s =>
      if bool_decide (is_Some (entries m !! key)) then Ret (Err (AlreadyExists key), m)
      else m ← insert_tracked m s id key (block_entry offset size_blocks); Ret (Ok (), m)
  end.

Definition set_checksum (m : Map) (key checksum : Z) : res unit * Map :=
  match entries m !! key with
  | None => (Err (KeyNotFound key), m)
  | Some e => (Ok (), set_entry m key (set_sum e checksum))
  end.

Definition get_checksum (m : Map) (key : Z) : option Z :=
  e ← entries m !! key;
  if checksum e =? 0 then None else Some (checksum e).

(** ** The operations as one function *)

Inductive op :=
| OLookup (key : Z) | OTakeRead (key : Z) | OTakeWrite (key : Z)
| OReleaseRead (key : Z) | OReleaseWrite (key : Z) | ODowngrade (key : Z)
| OToStorage (key offset : Z) | ORemove (key : Z) | OTouch (key : Z)
| OCreate (key pointer size : Z) | OToBlock (key : Z) | OPromote (key pointer size : Z)
| OTryEvict (key : Z) | ORecover (key offset size : Z) | OSetChecksum (key sum : Z).

Definition op_key (o : op) : Z :=
  match o with
  | OLookup k | OTakeRead k | OTakeWrite k | OReleaseRead k | OReleaseWrite k | ODowngrade k
  | OToStorage k _ | ORemove k | OTouch k | OCreate k _ _ | OToBlock k | OPromote k _ _
  | OTryEvict k | ORecover k _ _ | OSetChecksum k _ => k
  end.

(** The answer: that of [lookup], or that the call succeeded. *)
Definition plain (x : res unit) : res LookupResult :=
  match x with Ok _ => Ok NotExist | Err e => Err e end.

Definition plainly (c : outcome (res unit * Map)) : outcome (res LookupResult * Map) :=
  '(x, m) ← c; Ret (plain x, m).

Definition exec (m : Map) (o : op) : outcome (res LookupResult * Map) :=
  match o with
  | OLookup k => lookup m k
  | OTakeRead k => plainly (Ret (take_read m k))
  | OTakeWrite k => plainly (Ret (take_write m k))
  | OReleaseRead k => plainly (Ret (release_read m k))
  | OReleaseWrite k => plainly (Ret (release_write m k))
  | ODowngrade k => plainly (Ret (downgrade_reference m k))
  | OToStorage k off => plainly (Ret (convert_to_storage m k off))
  | ORemove k => plainly (remove m k)
  | OTouch k => plainly (touch m k)
  | OCreate k ptr sz => plainly (create_memory_tier_entry m k ptr sz)
  | OToBlock k => plainly (Ret (convert_memory_tier_to_block m k))
  | OPromote k ptr sz => plainly (Ret (promote_block_to_memory_tier m k ptr sz))
  | OTryEvict k => plainly (Ret (try_evict_to_block m k))
  | ORecover k off sz => plainly (recover_extent m k off sz)
  | OSetChecksum k c => plainly (Ret (set_checksum m k c))
  end.

End ops.

Arguments Map : clear implicits.

(** ** Clients

    What the callers hold: how many read references on each key, and whether a
    write reference. *)

Record holds := mkHolds { reads : Z → Z; writes : Z → bool }.

Definition upd {A} (f : Z → A) (k : Z) (x : A) : Z → A := λ k', if decide (k' = k) then x else f k'.

Definition add_read (h : holds) (k n : Z) : holds := mkHolds (upd (reads h) k (reads h k + n)) (writes h).
Definition set_writer (h : holds) (k : Z) (b : bool) : holds := mkHolds (reads h) (upd (writes h) k b).

(** What a successful call gives to, or takes from, its caller. [convert_to_storage]
    consumes the read reference the write-through holds. *)
Definition after (h : holds) (o : op) (x : res LookupResult) : holds :=
  match o, x with
  | _, Err _ => h
  | OLookup k, Ok NotExist => h
  | OLookup k, Ok _ => add_read h k 1
  | OTakeRead k, Ok _ => add_read h k 1
  | OTakeWrite k, Ok _ => set_writer h k true
  | OReleaseRead k, Ok _ => add_read h k (-1)
  | OReleaseWrite k, Ok _ => set_writer h k false
  | ODowngrade k, Ok _ => add_read (set_writer h k false) k 1
  | OToStorage k _, Ok _ => add_read h k (-1)
  | OCreate k _ _, Ok _ => set_writer h k true
  | _, Ok _ => h
  end.

(** A client gives back only what it holds. *)
Definition allowed (h : holds) (o : op) : Prop :=
  match o with
  | OReleaseRead k | OToStorage k _ => 0 < reads h k
  | OReleaseWrite k | ODowngrade k => writes h k = true
  | _ => True
  end.

(** The counters are exactly what the clients hold. *)
Definition exact {S} (m : Map S) (h : holds) : Prop :=
  ∀ k, match entries m !! k with
       | Some e => read_ref e = reads h k ∧ write_ref e = Z.b2z (writes h k)
       | None => reads h k = 0 ∧ writes h k = false
       end.

(** A write reference excludes every other reference. *)
Definition ref_ok (e : DispatchEntry) : Prop :=
  0 ≤ read_ref e ≤ u32_max ∧ (write_ref e = 0 ∨ write_ref e = 1 ∧ read_ref e = 0).

(** Where in memory an entry's data is, if it is there. *)
Definition residence (l : Location) : option (Z * Z) :=
  match l with MemoryTier p sz _ => Some (p, sz) | BlockDevice _ => None end.

Section laws.
Context {S : Type} `{PI : IEvictionPolicy S, PL : !EvictionPolicyLaws S}.

(** The policy tracks exactly the map's keys, each under its entry's handle. *)
Record ok (m : Map S) (s : S) (p : nat) (L : gmap nat Z) : Prop := {
  ok_pool : pool m = Some p;
  ok_policy : eviction_policy m = Some s;
  ok_pol : pol_ok s;
  ok_live : live s p = Some L;
  ok_handles : ∀ i k, L !! i = Some k ↔ ∃ e, entries m !! k = Some e ∧ eviction_handle e = mkHandle p i;
  ok_tracked : ∀ k e, entries m !! k = Some e → ∃ i, eviction_handle e = mkHandle p i;
  ok_refs : ∀ k e, entries m !! k = Some e → ref_ok e
}.

Lemma ok_set_entry m s p L k e e' :
  ok m s p L → entries m !! k = Some e → eviction_handle e' = eviction_handle e → ref_ok e' →
  ok (set_entry m k e') s p L.
Proof.
  intros [O1 O2 O3 O4 O5 O6 O7] He Hh Hr. split; try done; simpl.
  - intros i k'. rewrite O5. destruct (decide (k' = k)) as [->|Hne].
    + rewrite lookup_insert_eq. split; intros (e0 & E & ?); simplify_eq; eexists; (split; [done|congruence]).
    + by rewrite lookup_insert_ne.
  - intros k' e0. destruct (decide (k' = k)) as [->|Hne].
    + rewrite lookup_insert_eq. intros [= <-]. rewrite Hh. by eapply O6.
    + rewrite lookup_insert_ne by done. apply O6.
  - intros k' e0. destruct (decide (k' = k)) as [->|Hne].
    + rewrite lookup_insert_eq. by intros [= <-].
    + rewrite lookup_insert_ne by done. apply O7.
Qed.

Lemma ok_set_policy m s s' p L :
  ok m s p L → pol_ok s' → live s' p = live s p → ok (set_policy m s') s' p L.
Proof. intros [O1 O2 O3 O4 O5 O6 O7] Hs Hl. split; try done. by rewrite Hl. Qed.

Lemma touch_policy_entries (m : Map S) hd m' : touch_policy m hd = Ret m' → entries m' = entries m.
Proof.
  unfold touch_policy. destruct (eviction_policy m); [|by intros [= <-]].
  intros ([x s'] & _ & [= <-])%bind_Ret. done.
Qed.

Lemma touch_policy_spec m s p L k e :
  ok m s p L → entries m !! k = Some e →
  ∃ s', touch_policy m (eviction_handle e) = Ret (set_policy m s') ∧ ok (set_policy m s') s' p L.
Proof.
  intros O He. destruct (ok_tracked _ _ _ _ O _ _ He) as [i Hi].
  assert (L !! i = Some k) as Hk by (apply (ok_handles _ _ _ _ O); eauto).
  destruct (touch_law _ _ _ _ _ (ok_pol _ _ _ _ O) (ok_live _ _ _ _ O) Hk) as (s' & E & Hs & Hl).
  unfold touch_policy. rewrite (ok_policy _ _ _ _ O), Hi, E. exists s'. split; [done|].
  by apply (ok_set_policy m s).
Qed.

Lemma insert_tracked_spec m s p L k mk :
  ok m s p L → entries m !! k = None → Z.of_nat (size L) < 2 ^ 32 →
  (∀ h, eviction_handle (mk h) = h ∧ ref_ok (mk h)) →
  ∃ s' i, insert_tracked m s p k mk = Ret (set_policy (set_entry m k (mk (mkHandle p i))) s') ∧
    ok (set_policy (set_entry m k (mk (mkHandle p i))) s') s' p (<[i := k]> L).
Proof.
  intros O Hk Hsz Hmk. pose proof O as [O1 O2 O3 O4 O5 O6 O7].
  destruct (track_law s p k default_semantics L O3 O4) as (i & s' & E & Hs & Hi & Hl & _); [|done|].
  { intros j Hj. apply O5 in Hj as (e & ? & _). congruence. }
  unfold insert_tracked. rewrite E. exists s', i. split; [done|].
  destruct (Hmk (mkHandle p i)) as [Hh Hr]. split; try done; simpl.
  - intros j k'. destruct (decide (j = i)) as [->|Hj].
    + rewrite lookup_insert_eq. split.
      * intros [= <-]. eexists. by rewrite lookup_insert_eq.
      * intros (e & He & Heh). destruct (decide (k' = k)) as [->|Hne]; [done|].
        rewrite lookup_insert_ne in He by done. assert (L !! i = Some k') by (apply O5; eauto). congruence.
    + rewrite lookup_insert_ne by done. rewrite O5. destruct (decide (k' = k)) as [->|Hne].
      * rewrite lookup_insert_eq, Hk. split; intros (e & ? & ?); simplify_eq. congruence.
      * by rewrite lookup_insert_ne.
  - intros k' e. destruct (decide (k' = k)) as [->|Hne].
    + rewrite lookup_insert_eq. intros [= <-]. eauto.
    + rewrite lookup_insert_ne by done. apply O6.
  - intros k' e. destruct (decide (k' = k)) as [->|Hne].
    + rewrite lookup_insert_eq. by intros [= <-].
    + rewrite lookup_insert_ne by done. apply O7.
Qed.

Lemma map_remove_spec m s p L k e :
  ok m s p L → entries m !! k = Some e → read_ref e = 0 → write_ref e = 0 →
  ∃ m' s' i, remove m k = Ret (Ok (), m') ∧ entries m' = delete k (entries m) ∧
    L !! i = Some k ∧ ok m' s' p (delete i L).
Proof.
  intros O He Hr Hw. pose proof O as [O1 O2 O3 O4 O5 O6 O7].
  destruct (O6 _ _ He) as [i Hi]. assert (L !! i = Some k) as Hk by (apply O5; eauto).
  destruct (remove_law _ _ _ _ _ O3 O4 Hk) as (s' & E & Hs & Hl & _).
  unfold remove. rewrite He, Hr, Hw. simpl. rewrite O2, Hi, E, bind_Ret_l.
  eexists _, s', i. split_and!; [reflexivity|done|done|]. split; try done; simpl.
  - intros j k'. destruct (decide (j = i)) as [->|Hj].
    + rewrite lookup_delete_eq. split; [done|]. intros (e0 & He0 & Hh).
      destruct (decide (k' = k)) as [->|]; [by rewrite lookup_delete_eq in He0|].
      rewrite lookup_delete_ne in He0 by done. assert (L !! i = Some k') by (apply O5; eauto). congruence.
    + rewrite lookup_delete_ne by done. rewrite O5. destruct (decide (k' = k)) as [->|].
      * rewrite lookup_delete_eq. split; intros (e0 & He0 & ?); [|done]. simplify_eq. congruence.
      * by rewrite lookup_delete_ne.
  - intros k' e0 [_ He0]%lookup_delete_Some. by eapply O6.
  - intros k' e0 [_ He0]%lookup_delete_Some. by eapply O7.
Qed.

Lemma exact_set_entry (m : Map S) h h' k e' :
  exact m h → (∀ k', k' ≠ k → reads h' k' = reads h k' ∧ writes h' k' = writes h k') →
  read_ref e' = reads h' k → write_ref e' = Z.b2z (writes h' k) → exact (set_entry m k e') h'.
Proof.
  intros X F Hr Hw k'. simpl. destruct (decide (k' = k)) as [->|Hne].
  - by rewrite lookup_insert_eq.
  - rewrite lookup_insert_ne by done. specialize (X k'). destruct (F _ Hne) as [-> ->]. done.
Qed.

Lemma after_frame h o x k :
  k ≠ op_key o → reads (after h o x) k = reads h k ∧ writes (after h o x) k = writes h k.
Proof.
  intros Hne. destruct o, x as [[]|]; simpl in *; unfold upd; rewrite ?decide_False by done; done.
Qed.

(** A step that rewrites the entry of its key. *)
Lemma step_entry m s p L h o x e e' :
  ok m s p L → exact m h → entries m !! op_key o = Some e → eviction_handle e' = eviction_handle e →
  ref_ok e' → read_ref e' = reads (after h o x) (op_key o) →
  write_ref e' = Z.b2z (writes (after h o x) (op_key o)) →
  ok (set_entry m (op_key o) e') s p L ∧ exact (set_entry m (op_key o) e') (after h o x) ∧
  ∀ k, k ≠ op_key o → entries (set_entry m (op_key o) e') !! k = entries m !! k.
Proof.
  intros O X He Hh Hr H1 H2. split_and!.
  - by eapply ok_set_entry.
  - eapply exact_set_entry; [done| |done..]. intros k. apply after_frame.
  - intros k Hne. simpl. by rewrite lookup_insert_ne.
Qed.

(** The call returns, keeps the map well formed and the counters exact, and
    touches no other key. *)
Definition step_ok (m : Map S) (p : nat) (h : holds) (o : op) : Prop :=
  ∃ x m' s' L', exec m o = Ret (x, m') ∧ ok m' s' p L' ∧ exact m' (after h o x) ∧
    ∀ k, k ≠ op_key o → entries m' !! k = entries m !! k.

Lemma step_same m s p L h o x :
  ok m s p L → exact m h → exec m o = Ret (x, m) → after h o x = h → step_ok m p h o.
Proof. intros O X E Ha. exists x, m, s, L. by rewrite Ha. Qed.

Lemma step_rewrites m s p L h o x e e' :
  ok m s p L → exact m h → exec m o = Ret (x, set_entry m (op_key o) e') →
  entries m !! op_key o = Some e → eviction_handle e' = eviction_handle e → ref_ok e' →
  read_ref e' = reads (after h o x) (op_key o) → write_ref e' = Z.b2z (writes (after h o x) (op_key o)) →
  step_ok m p h o.
Proof.
  intros O X E He Hh Hr H1 H2. exists x, (set_entry m (op_key o) e'), s, L.
  split; [done|]. by apply (step_entry m s p L h o x e).
Qed.

(** The counters of an entry are in range. *)
Lemma entry_counts m s p L h k e :
  ok m s p L → exact m h → entries m !! k = Some e →
  read_ref e = reads h k ∧ write_ref e = Z.b2z (writes h k) ∧ ref_ok e.
Proof.
  intros O X He. specialize (X k). rewrite He in X. destruct X as [? ?].
  split_and!; [done..|]. by eapply ok_refs.
Qed.

Ltac at_key :=
  simpl; unfold upd; rewrite ?decide_True by done; try done; try lia; try congruence.

Lemma step_reader m s p L h k :
  ok m s p L → exact m h → step_ok m p h (OLookup k) ∧ step_ok m p h (OTakeRead k).
Proof.
  intros O X. destruct (entries m !! k) as [e|] eqn:He.
  2:{ split.
      - apply (step_same m s p L h _ (Ok NotExist)); try done. simpl. unfold lookup. by rewrite He.
      - apply (step_same m s p L h _ (Err (KeyNotFound k))); try done. simpl. unfold take_read. by rewrite He. }
  destruct (entry_counts _ _ _ _ _ _ _ O X He) as (Hr & Hw & [Hr1 Hr2]).
  destruct (Z.eqb_spec (write_ref e) 0) as [Hw0|Hw0].
  2:{ split; (apply (step_same m s p L h _ (Err (Timeout k))); try done); simpl;
        unfold lookup, take_read; rewrite He, (proj2 (Z.eqb_neq _ _) Hw0); done. }
  destruct (Z.eqb_spec (read_ref e) u32_max) as [Hm|Hm].
  { split; (apply (step_same m s p L h _ (Err (RefCountOverflow k))); try done); simpl;
      unfold lookup, take_read; rewrite He, Hw0, Hm; done. }
  set (e' := bump_reuse (set_read e (read_ref e + 1))).
  assert (ref_ok e') as Re' by (split; simpl; [lia|left; done]). split.
  - set (x := match location e with BlockDevice off => FoundBlock off | MemoryTier a b _ => FoundMemory a b end).
    assert (after h (OLookup k) (Ok x) = add_read h k 1) as Ha by (unfold x; by destruct (location e)).
    destruct (step_entry m s p L h (OLookup k) (Ok x) e e' O X He) as (O' & X' & F'); try done.
    { rewrite Ha. at_key. }
    { by rewrite Ha. }
    destruct (touch_policy_spec _ _ _ _ k e' O') as (s' & Et & Ot); [simpl; by rewrite lookup_insert_eq|].
    eexists (Ok x), _, s', L. split_and!; [|exact Ot|exact X'|exact F'].
    cbn [exec]. unfold lookup. rewrite He, Hw0, (proj2 (Z.eqb_neq _ _) Hm). cbn [negb Z.eqb].
    fold e'. change (eviction_handle e) with (eviction_handle e'). cbn [op_key] in Et. by rewrite Et.
  - apply (step_rewrites m s p L h (OTakeRead k) (Ok NotExist) e e'); try done; simpl.
    + unfold take_read. rewrite He, Hw0, (proj2 (Z.eqb_neq _ _) Hm). done.
    + at_key.
Qed.

Ltac refused x := match goal with
  O : ok ?m ?s ?p ?L, X : exact ?m ?h |- step_ok _ _ _ ?o => apply (step_same m s p L h o (Err x)); try done end.

Ltac rewrites e e' := match goal with
  O : ok ?m ?s ?p ?L, X : exact ?m ?h |- step_ok _ _ _ ?o =>
    apply (step_rewrites m s p L h o (Ok NotExist) e e'); try done end.

Lemma step_writer m s p L h o k :
  ok m s p L → exact m h → allowed h o →
  (o = OTakeWrite k ∨ o = OReleaseRead k ∨ o = OReleaseWrite k ∨ o = ODowngrade k) → step_ok m p h o.
Proof.
  intros O X Ha Ho. destruct (entries m !! k) as [e|] eqn:He.
  2:{ destruct Ho as [-> |[-> |[-> | ->]]]; refused (KeyNotFound k); simpl;
      unfold take_write, release_read, release_write, downgrade_reference; by rewrite He. }
  destruct (entry_counts _ _ _ _ _ _ _ O X He) as (Hr & Hw & [Hr1 Hr2]).
  destruct Ho as [-> |[-> |[-> | ->]]]; simpl in Ha.
  - destruct ((read_ref e =? 0) && (write_ref e =? 0)) eqn:E.
    + apply andb_prop in E as [E1%Z.eqb_eq E2%Z.eqb_eq]. rewrites e (set_write e 1); simpl.
      * unfold take_write. rewrite He, E1, E2. done.
      * split; simpl; [lia|auto].
      * at_key.
    + refused (Timeout k). simpl. unfold take_write. by rewrite He, E.
  - rewrites e (set_read e (read_ref e - 1)).
    + simpl. unfold release_read. rewrite He, (proj2 (Z.eqb_neq _ _)) by lia. done.
    + split; simpl; lia.
    + at_key.
  - rewrite Ha in Hw. simpl in Hw. rewrites e (set_write e 0).
    + simpl. unfold release_write. rewrite He, (proj2 (Z.eqb_neq _ _)) by lia. done.
    + split; simpl; lia.
    + at_key.
  - rewrite Ha in Hw. simpl in Hw. assert (read_ref e = 0) as Hr0 by lia.
    rewrites e (bump_reuse (set_read (set_write e 0) (read_ref e + 1))).
    + simpl. unfold downgrade_reference. rewrite He, (proj2 (Z.eqb_neq _ _)) by lia. simpl. rewrite Hr0. done.
    + split; simpl; unfold u32_max in *; lia.
    + at_key.
    + at_key.
Qed.

Lemma step_location m s p L h o k :
  ok m s p L → exact m h → allowed h o → op_key o = k →
  match o with OToStorage _ _ | OToBlock _ | OPromote _ _ _ | OTryEvict _ | OSetChecksum _ _ => True | _ => False end →
  step_ok m p h o.
Proof.
  intros O X Ha Hk Ho. destruct (entries m !! k) as [e|] eqn:He.
  2:{ destruct o; simpl in Hk; subst; try done.
      3: destruct (decide (size = 0)) as [->|Hz]; [by refused InvalidSize|].
      all: refused (KeyNotFound k); simpl;
      unfold convert_to_storage, convert_memory_tier_to_block, promote_block_to_memory_tier, try_evict_to_block, set_checksum;
      rewrite ?He; try done. by rewrite (proj2 (Z.eqb_neq _ _) Hz). }
  destruct (entry_counts _ _ _ _ _ _ _ O X He) as (Hr & Hw & Rr). pose proof Rr as [Hr1 Hr2].
  destruct o as [ | | | | | |k0 off| | | |k0|k0 ptr sz|k0| |k0 c]; try done; simpl in Hk; subst k0; simpl in Ha.
  - destruct (location e) as [o1|ptr sz so] eqn:El.
    { refused InvalidState. simpl. unfold convert_to_storage. by rewrite He, El. }
    rewrites e (set_read (set_location e (MemoryTier ptr sz (Some off))) (read_ref e - 1)).
    + simpl. unfold convert_to_storage. rewrite He, El. simpl. by rewrite (proj2 (Z.ltb_lt _ _)) by lia.
    + split; simpl; lia.
    + at_key.
  - destruct (location e) as [o1|ptr sz [off|]] eqn:El.
    + refused InvalidState. simpl. unfold convert_memory_tier_to_block. by rewrite He, El.
    + rewrites e (set_location e (BlockDevice off)). simpl. unfold convert_memory_tier_to_block. by rewrite He, El.
    + refused InvalidState. simpl. unfold convert_memory_tier_to_block. by rewrite He, El.
  - destruct (Z.eqb_spec sz 0) as [->|Hz]; [by refused InvalidSize|].
    destruct (location e) as [off|] eqn:El.
    + rewrites e (set_blocks (set_location e (MemoryTier ptr sz (Some off))) (blocks_of sz)).
      simpl. unfold promote_block_to_memory_tier. by rewrite (proj2 (Z.eqb_neq _ _) Hz), He, El.
    + refused InvalidState. simpl. unfold promote_block_to_memory_tier.
      by rewrite (proj2 (Z.eqb_neq _ _) Hz), He, El.
  - destruct (negb (read_ref e =? 0) || negb (write_ref e =? 0)) eqn:E.
    { refused (ActiveReferences k). simpl. unfold try_evict_to_block. by rewrite He, E. }
    destruct (location e) as [o1|ptr sz [off|]] eqn:El.
    + refused InvalidState. simpl. unfold try_evict_to_block. by rewrite He, E, El.
    + rewrites e (set_location e (BlockDevice off)). simpl. unfold try_evict_to_block. by rewrite He, E, El.
    + refused InvalidState. simpl. unfold try_evict_to_block. by rewrite He, E, El.
  - rewrites e (set_sum e c). simpl. unfold set_checksum. by rewrite He.
Qed.

(** A step that adds an entry for a key the map does not have. *)
Lemma step_adds m s p L h o mk :
  ok m s p L → exact m h → entries m !! op_key o = None → Z.of_nat (size L) < 2 ^ 32 →
  (∀ hd, eviction_handle (mk hd) = hd ∧ ref_ok (mk hd) ∧
     read_ref (mk hd) = reads (after h o (Ok NotExist)) (op_key o) ∧
     write_ref (mk hd) = Z.b2z (writes (after h o (Ok NotExist)) (op_key o))) →
  exec m o = (m' ← insert_tracked m s p (op_key o) mk; Ret (Ok NotExist, m')) →
  step_ok m p h o.
Proof.
  intros O X Hn Hsz Hmk E.
  destruct (insert_tracked_spec m s p L (op_key o) mk O Hn Hsz) as (s' & i & Ei & O').
  { intros hd. by destruct (Hmk hd) as (? & ? & _). }
  destruct (Hmk (mkHandle p i)) as (_ & _ & H1 & H2).
  eexists (Ok NotExist), _, s', _. rewrite E, Ei, bind_Ret_l. split_and!; [reflexivity|exact O'|..].
  - apply (exact_set_entry m h); [done| |done..]. intros k. apply after_frame.
  - intros k Hne. simpl. by rewrite lookup_insert_ne.
Qed.

Lemma step_create m s p L h k :
  ok m s p L → exact m h → Z.of_nat (size L) < 2 ^ 32 →
  (∀ ptr sz, step_ok m p h (OCreate k ptr sz)) ∧ (∀ off sz, step_ok m p h (ORecover k off sz)).
Proof.
  intros O X Hsz. pose proof O as [O1 O2 _ _ _ _ _]. specialize (X k) as Xk. split.
  - intros ptr sz. destruct (Z.eqb_spec sz 0) as [->|Hz]; [by refused InvalidSize|].
    assert (exec m (OCreate k ptr sz) =
      if bool_decide (is_Some (entries m !! k)) then Ret (Err (AlreadyExists k), m)
      else m' ← insert_tracked m s p k
             (λ hd, mkEntry (MemoryTier ptr sz None) (blocks_of sz) 0 1 hd 0 0); Ret (Ok NotExist, m')) as E.
    { simpl. unfold create_memory_tier_entry, get_pool_id, plainly.
      rewrite (proj2 (Z.eqb_neq _ _) Hz), O1, O2. case_bool_decide; [done|]. by destruct (insert_tracked _ _ _ _ _). }
    case_bool_decide as Hs; [by refused (AlreadyExists k)|].
    apply eq_None_not_Some in Hs. rewrite Hs in Xk.
    eapply step_adds; [done|done|done|done| |exact E]. intros hd. split_and!; [done| |at_key|at_key].
    split; simpl; [unfold u32_max; lia|auto].
  - intros off sz.
    assert (exec m (ORecover k off sz) =
      if bool_decide (is_Some (entries m !! k)) then Ret (Err (AlreadyExists k), m)
      else m' ← insert_tracked m s p k (block_entry off sz); Ret (Ok NotExist, m')) as E.
    { simpl. unfold recover_extent, get_pool_id, plainly. rewrite O1, O2. case_bool_decide; [done|].
      by destruct (insert_tracked _ _ _ _ _). }
    case_bool_decide as Hs; [by refused (AlreadyExists k)|].
    apply eq_None_not_Some in Hs. rewrite Hs in Xk. destruct Xk as [X1 X2].
    eapply step_adds; [done|done|done|done| |exact E]. intros hd.
    split_and!; [done| |simpl; by rewrite X1|simpl; by rewrite X2].
    split; simpl; [unfold u32_max; lia|auto].
Qed.

Lemma step_remove_touch m s p L h k :
  ok m s p L → exact m h → step_ok m p h (ORemove k) ∧ step_ok m p h (OTouch k).
Proof.
  intros O X. destruct (entries m !! k) as [e|] eqn:He.
  2:{ split; refused (KeyNotFound k); simpl; unfold remove, touch; by rewrite He. }
  destruct (entry_counts _ _ _ _ _ _ _ O X He) as (Hr & Hw & [Hr1 Hr2]). split.
  - destruct ((0 <? read_ref e) || (0 <? write_ref e)) eqn:E.
    { refused (ActiveReferences k). simpl. unfold remove. by rewrite He, E. }
    apply orb_false_elim in E as [E1%Z.ltb_ge E2%Z.ltb_ge].
    destruct (map_remove_spec m s p L k e O He) as (m' & s' & i & Er & Ed & _ & O'); [lia|lia|].
    exists (Ok NotExist), m', s', (delete i L). split_and!; [simpl; by rewrite Er|done|..].
    + intros k'. simpl. rewrite Ed. destruct (decide (k' = k)) as [->|Hne].
      * rewrite lookup_delete_eq. destruct (writes h k); simpl in Hw; split; (lia || done).
      * rewrite lookup_delete_ne by done. apply X.
    + intros k' Hne. simpl in Hne. by rewrite Ed, lookup_delete_ne.
  - destruct (touch_policy_spec m s p L k e O He) as (s' & Et & O').
    exists (Ok NotExist), (set_policy m s'), s', L. split_and!; [|done|exact X|done].
    simpl. unfold touch. rewrite He, Et. done.
Qed.

Lemma exec_step_ok m s p L h o :
  ok m s p L → exact m h → allowed h o → Z.of_nat (size L) < 2 ^ 32 → step_ok m p h o.
Proof.
  intros O X Ha Hsz.
  destruct o as [k|k|k|k|k|k|k off|k|k|k ptr sz|k|k ptr sz|k|k off sz|k c].
  all: try by apply (step_reader m s p L).
  all: try by apply (step_remove_touch m s p L).
  all: try by apply (step_create m s p L).
  all: try by apply (step_location m s p L h _ k).
  all: apply (step_writer m s p L h _ k); auto.
Qed.

(** C30. Reference counting is exact. As long as each caller gives back only the
    references it holds, every call of the dispatch map returns without a panic or an
    underflow, leaves the eviction policy tracking exactly the map's keys, and
    leaves on every entry a read count equal to the number of read references held
    and a write flag equal to whether a write reference is held, never both; no
    other key is touched. *)
Theorem dispatch_map_counts m s p L h o :
  ok m s p L → exact m h → allowed h o → Z.of_nat (size L) < 2 ^ 32 →
  ∃ x m' s' L', exec m o = Ret (x, m') ∧ ok m' s' p L' ∧ exact m' (after h o x) ∧
    (∀ k, k ≠ op_key o → entries m' !! k = entries m !! k) ∧
    (∀ k, writes (after h o x) k = true → reads (after h o x) k = 0).
Proof.
  intros O X Ha Hsz.
  destruct (exec_step_ok m s p L h o O X Ha Hsz) as (x & m' & s' & L' & E & O' & X' & F').
  exists x, m', s', L'. split_and!; [done..|]. intros k Hk. specialize (X' k) as Xk.
  destruct (entries m' !! k) as [e|] eqn:He; [|by destruct Xk].
  destruct (ok_refs _ _ _ _ O' _ _ He) as [_ Hr]. destruct Xk as [H1 H2]. rewrite Hk in H2. simpl in H2. lia.
Qed.

(** Where an entry's data is on disk, if it is. *)
Definition stored (l : Location) : option Z :=
  match l with MemoryTier _ _ so => so | BlockDevice off => Some off end.

(** The two calls that move a held entry on purpose. *)
Definition relocates (o : op) : bool :=
  match o with OToBlock _ | OPromote _ _ _ => true | _ => false end.

(** C10. A reference protects its entry. While some client holds a read or a write
    reference on a key, whatever call comes next: the entry stays in the map; its
    data stays where it is in memory (no eviction or removal can free the slot a
    client points at), unless the call is one of the two explicit relocations; and a
    disk copy once recorded is not forgotten. *)
Theorem held_entry_protected m s p L h o k e x m' :
  ok m s p L → exact m h → allowed h o → Z.of_nat (size L) < 2 ^ 32 →
  0 < reads h k ∨ writes h k = true → entries m !! k = Some e → exec m o = Ret (x, m') →
  ∃ e', entries m' !! k = Some e' ∧
    (relocates o = false → residence (location e') = residence (location e)) ∧
    (∀ off, stored (location e) = Some off → (∀ off', o ≠ OToStorage k off') → stored (location e') = Some off).
Proof.
  intros O X Ha Hsz Hh He E.
  destruct (entry_counts _ _ _ _ _ _ _ O X He) as (Hr & Hw & [Hr1 Hr2]).
  destruct (decide (k = op_key o)) as [Hk|Hne].
  2:{ destruct (exec_step_ok m s p L h o O X Ha Hsz) as (x2 & m2 & _ & _ & E2 & _ & _ & F). rewrite E in E2.
      injection E2 as <- <-. exists e. by rewrite F. }
  assert (read_ref e ≠ 0 ∨ write_ref e ≠ 0) as Hheld
    by (destruct Hh as [?|Hww]; [left; lia|right; rewrite Hw, Hww; done]).
  destruct o as [k0|k0|k0|k0|k0|k0|k0 off|k0|k0|k0 ptr sz|k0|k0 ptr sz|k0|k0 off sz|k0 c]; simpl in Hk; subst k0.
  all: simpl in E; unfold lookup, take_read, take_write, release_read, release_write, downgrade_reference,
    convert_to_storage, remove, touch, create_memory_tier_entry, convert_memory_tier_to_block,
    promote_block_to_memory_tier, try_evict_to_block, recover_extent, set_checksum, get_pool_id in E;
    rewrite ?(ok_pool _ _ _ _ O), ?(ok_policy _ _ _ _ O), ?He in E.
  all: repeat (case_match; simplify_eq/=); unfold plainly in *; outcome_inv.
  all: repeat match goal with H : touch_policy _ _ = Ret _ |- _ => apply touch_policy_entries in H; rewrite H end.
  all: simplify_eq/=; rewrite ?lookup_insert_eq.
  all: try (exfalso; lia).
  all: eexists; split; [done|]; simpl;
    repeat match goal with H : location _ = _ |- _ => rewrite H end; naive_solver.
Qed.

(** Eviction to disk and promotion back: an entry is demoted exactly when
    [is_evictable] says so, that is when nobody holds it and its disk copy is
    recorded. The demoted entry is found at that disk offset, and promoting it with
    the same memory gives back the entry, still demotable. A refused demotion changes
    nothing. *)
Theorem evict_promote_round_trip (m : Map S) k :
  (is_evictable m k = true →
   ∃ e ptr sz off m1, entries m !! k = Some e ∧ location e = MemoryTier ptr sz (Some off) ∧
     read_ref e = 0 ∧ write_ref e = 0 ∧
     try_evict_to_block m k = (Ok (), m1) ∧
     entries m1 !! k = Some (set_location e (BlockDevice off)) ∧
     (sz ≠ 0 → promote_block_to_memory_tier m1 k ptr sz = (Ok (), set_entry m k (set_blocks e (blocks_of sz))))) ∧
  (is_evictable m k = false → ∃ err, try_evict_to_block m k = (Err err, m)).
Proof.
  unfold is_evictable, try_evict_to_block. destruct (entries m !! k) as [e|] eqn:He; [|naive_solver].
  destruct (Z.eqb_spec (read_ref e) 0) as [Hr|Hr], (Z.eqb_spec (write_ref e) 0) as [Hw|Hw]; simpl; [|naive_solver..].
  destruct (location e) as [o|ptr sz [off|]] eqn:El; [naive_solver| |naive_solver]. split; [|done]. intros _.
  exists e, ptr, sz, off, (set_entry m k (set_location e (BlockDevice off))).
  split_and!; [done..|simpl; by rewrite lookup_insert_eq|]. intros Hz.
  unfold promote_block_to_memory_tier. rewrite (proj2 (Z.eqb_neq _ _) Hz). simpl. rewrite lookup_insert_eq.
  simpl. unfold set_entry. simpl. rewrite insert_insert_eq. do 3 f_equal.
  destruct e. simpl in *. subst. done.
Qed.

(** ** Recovery from the extent manager *)

Lemma restore_spec l m s p L :
  ok m s p L → NoDup (l.*1.*1) → (∀ k, k ∈ l.*1.*1 → entries m !! k = None) →
  Z.of_nat (size L + length l) < 2 ^ 32 →
  ∃ m' s' L', restore m p l = Ret m' ∧ ok m' s' p L' ∧
    (∀ k off sz, (k, off, sz) ∈ l → ∃ hd, entries m' !! k = Some (block_entry off sz hd)) ∧
    ∀ k, k ∉ l.*1.*1 → entries m' !! k = entries m !! k.
Proof.
  revert m s L. induction l as [|[[k off] sz] l IH]; intros m s L O Hnd Hfr Hsz; simpl.
  { exists m, s, L. split_and!; [done|done|set_solver|done]. }
  rewrite !fmap_cons in Hnd. apply NoDup_cons in Hnd as [Hnk Hnd]. simpl in Hnk.
  rewrite (ok_policy _ _ _ _ O). simpl.
  destruct (insert_tracked_spec m s p L k (block_entry off sz) O) as (s1 & i & E & O1).
  { apply Hfr. by left. }
  { simpl in Hsz. lia. }
  { intros hd. split; [done|]. split; simpl; [unfold u32_max; lia|auto]. }
  rewrite E, bind_Ret_l.
  assert (L !! i = None) as HiL.
  { destruct (L !! i) as [k0|] eqn:Hi; [|done]. apply (ok_handles _ _ _ _ O) in Hi as (e & He & Hh).
    assert (<[i:=k]> L !! i = Some k0) as Hi2.
    { apply (ok_handles _ _ _ _ O1). exists e. split; [|done]. simpl. rewrite lookup_insert_ne; [done|].
      intros <-. rewrite Hfr in He by (by left). done. }
    rewrite lookup_insert_eq in Hi2. injection Hi2 as <-. rewrite Hfr in He by (by left). done. }
  destruct (IH _ s1 _ O1 Hnd) as (m' & s' & L' & E' & O' & H').
  - intros k' Hk'. simpl. rewrite lookup_insert_ne by (by intros ->). apply Hfr. by right.
  - rewrite map_size_insert_None by done. simpl in Hsz. lia.
  - destruct H' as [H1 H2]. exists m', s', L'. split_and!; [done..| |].
    + intros k' o2 z2 [[= -> -> ->]|Hin]%elem_of_cons; [|by apply H1].
      exists (mkHandle p i). rewrite H2 by done. simpl. by rewrite lookup_insert_eq.
    + intros k' [Hne Hk']%not_elem_of_cons.
      rewrite H2 by done. simpl. by rewrite lookup_insert_ne.
Qed.

Definition nobody : holds := mkHolds (λ _, 0) (λ _, false).

(** Recovery rebuilds the map: from extents with distinct keys, [initialize]
    on an empty map gives exactly one block-device entry per extent, at the
    extent's offset, unreferenced, tracked by the eviction policy. *)
Theorem dispatch_map_recovers s l :
  pol_ok s → Z.of_nat (pool_count s) < 2 ^ 32 → NoDup (l.*1.*1) → Z.of_nat (length l) < 2 ^ 32 →
  ∃ m' s' p L', initialize (mkMap ∅ None (Some s)) (Some l) = Ret (Ok (), m') ∧ ok m' s' p L' ∧
    exact m' nobody ∧
    (∀ k off sz, (k, off, sz) ∈ l → ∃ hd, entries m' !! k = Some (block_entry off sz hd)) ∧
    ∀ k, k ∉ l.*1.*1 → entries m' !! k = None.
Proof.
  intros Hs Hp Hnd Hl. destruct (create_pool_law s Hs Hp) as (s1 & Ec & Hs1 & _ & Hlv & _).
  unfold initialize, get_pool_id. simpl. rewrite Ec. simpl.
  destruct (restore_spec l (mkMap ∅ (Some (pool_count s)) (Some s1)) s1 (pool_count s) ∅)
    as (m' & s' & L' & E & O & H1 & H2); [|done|done|by rewrite map_size_empty|].
  { split; try done. intros i k. rewrite lookup_empty. split; [done|]. intros (e & He & _). done. }
  exists m', s', (pool_count s), L'. rewrite E. split_and!; [done|done| |done|].
  - intros k. destruct (decide (k ∈ l.*1.*1)) as [Hin|Hni].
    + apply list_elem_of_fmap in Hin as ([k0 off] & -> & Hin).
      apply list_elem_of_fmap in Hin as ([[k1 off1] sz] & [= -> ->] & Hin).
      destruct (H1 _ _ _ Hin) as [hd Hhd]. simpl in *. by rewrite Hhd.
    + rewrite H2 by done. done.
  - intros k Hk. by rewrite H2.
Qed.

(** The size of a recovered entry is wrong. [recover_extent] takes a size in
    4 KiB blocks and the dispatcher passes the extent's size, which is in bytes;
    [entry_size] then multiplies by 4096: the answer is 4096 times the real size,
    and a recovered extent of 1 MiB or more overflows the [u32] and panics. *)
Theorem recovered_entry_size m s p L k off bytes :
  ok m s p L → entries m !! k = None → Z.of_nat (size L) < 2 ^ 32 →
  ∃ m', recover_extent m k off bytes = Ret (Ok (), m') ∧
    entry_size m' k = if bytes <? 2 ^ 20 then Ret (Ok (bytes * 4096)) else Panic.
Proof.
  intros O Hk Hsz. unfold recover_extent, get_pool_id. rewrite (ok_pool _ _ _ _ O), (ok_policy _ _ _ _ O).
  rewrite bool_decide_false by (by rewrite Hk; intros [? ?]).
  destruct (insert_tracked_spec m s p L k (block_entry off bytes) O Hk Hsz) as (s1 & i & E & O1).
  { intros hd. split; [done|]. split; simpl; [unfold u32_max; lia|auto]. }
  rewrite E, bind_Ret_l. eexists. split; [reflexivity|]. unfold entry_size. simpl. rewrite lookup_insert_eq. simpl.
  destruct (Z.ltb_spec bytes (2 ^ 20)).
  - by rewrite mul_w_Ret by lia.
  - unfold mul_w. destruct (Z.ltb_spec (bytes * 4096) (2 ^ 32)); [lia|done].
Qed.

End laws.

(** * A map over the LRU policy *)

Lemma lru_fresh_ok : pol_ok (EvictionLru.mkState []).
Proof. constructor. Qed.

Definition map0 : Map EvictionLru.EvictionState :=
  mkMap ∅ (Some 0%nat) (Some (EvictionLru.mkState [Lru.new])).

Lemma map0_ok : ok map0 (EvictionLru.mkState [Lru.new]) 0 ∅.
Proof.
  destruct (create_pool_law (EvictionLru.mkState []) lru_fresh_ok ltac:(simpl; lia)) as (s' & E & Hs & _ & Hl & _).
  injection E as <-. split; try done. intros i k. rewrite lookup_empty. split; [done|]. by intros (e & He & _).
Qed.

Lemma map0_exact : exact map0 nobody.
Proof. done. Qed.

(** Key 5 in 100 bytes of memory at 4096, just created. *)
Lemma map1_ok : ∃ m s L e, ok m s 0 L ∧ exact m (set_writer nobody 5 true) ∧ Z.of_nat (size L) < 2 ^ 32 ∧
  entries m !! 5 = Some e.
Proof.
  destruct (insert_tracked_spec map0 _ 0 ∅ 5 (λ h, mkEntry (MemoryTier 4096 100 None) 1 0 1 h 0 0) map0_ok)
    as (s & i & E & O); [done|done| |].
  { intros hd. split; [done|]. split; simpl; [unfold u32_max; lia|auto]. }
  eexists _, s, _, _. split_and!; [exact O| | |simpl; by rewrite lookup_insert_eq].
  - apply (exact_set_entry map0 nobody); [done| |done|done]. intros k Hne. simpl. unfold upd. by rewrite decide_False.
  - rewrite map_size_insert_None by done. rewrite map_size_empty. lia.
Qed.

Lemma dispatch_map_counts_witness :
  ∃ x m', exec map0 (OCreate 5 4096 100) = Ret (x, m') ∧ exact m' (after nobody (OCreate 5 4096 100) x).
Proof.
  destruct (dispatch_map_counts map0 _ 0 ∅ nobody (OCreate 5 4096 100) map0_ok map0_exact I)
    as (x & m' & s' & L' & E & _ & X & _); [by rewrite map_size_empty|].
  exists x, m'. split; [exact E|exact X].
Defined.

Lemma held_entry_protected_witness :
  ∃ m m' e', exec (S:=EvictionLru.EvictionState) m (ORemove 5) = Ret (Err (ActiveReferences 5), m') ∧
    entries m' !! 5 = Some e'.
Proof.
  destruct map1_ok as (m & s & L & e & O & X & Hsz & He).
  assert (exec m (ORemove 5) = Ret (Err (ActiveReferences 5), m)) as E.
  { destruct (entry_counts _ _ _ _ _ _ _ O X He) as (Hr & Hw & _). simpl. unfold remove. rewrite He, Hr, Hw. done. }
  destruct (held_entry_protected m s 0 L (set_writer nobody 5 true) (ORemove 5) 5 e _ m O X I Hsz (or_intror eq_refl) He E)
    as (e' & He' & _).
  exists m, m, e'. split; [exact E|exact He'].
Defined.

Lemma dispatch_map_recovers_witness :
  ∃ m' hd, initialize (mkMap ∅ None (Some (EvictionLru.mkState []))) (Some [(5, 4096, 8192)]) = Ret (Ok (), m') ∧
    entries m' !! 5 = Some (block_entry 4096 8192 hd).
Proof.
  destruct (dispatch_map_recovers (EvictionLru.mkState []) [(5, 4096, 8192)] lru_fresh_ok)
    as (m' & s' & p & L' & E & _ & _ & H & _); [simpl; lia|apply NoDup_singleton|simpl; lia|].
  destruct (H 5 4096 8192) as [hd Hd]; [by left|]. exists m', hd. split; [exact E|exact Hd].
Defined.

Lemma recovered_entry_size_witness :
  ∃ m', recover_extent map0 5 0 (2 ^ 20) = Ret (Ok (), m') ∧ entry_size m' 5 = Panic.
Proof.
  destruct (recovered_entry_size map0 _ 0 ∅ 5 0 (2 ^ 20) map0_ok) as (m' & E & H);
    [done|by rewrite map_size_empty|]. exists m'. split; [exact E|exact H].
Defined.

End DispatchMap.
