(* ===== verification/Pins.v ===== *)
(** The ledger of write-through pins ([components/dispatcher/src/background.rs],
    [WriteThroughPins]). A new entry keeps one read reference until its data has
    been written through; the ledger records which keys hold such a reference, so
    that [remove] can take it over from a job that is queued or running, and the
    two agree on who releases the reference and who frees the slot. *)

From S2P Require Import Prelude LruList EvictionPolicy DispatchMap.

Module WriteThroughPins.
Import Policy.

Record PinState := mkPin {
  pinned : bool;
  queued : bool;
  running : bool;
  removed : bool;
  stale : nat
}.

Definition idle_pin : PinState := mkPin false false false false 0.

Inductive JobStart := Owned | Stale | Untracked.

(** [keys.entry(key).or_default()]. *)
Definition pin_of (keys : gmap Z PinState) (key : Z) : PinState := default idle_pin (keys !! key).

Definition is_idle (s : PinState) : bool :=
  negb (pinned s) && negb (queued s) && negb (running s) && (stale s =? 0).

Definition forget_if_idle (keys : gmap Z PinState) (key : Z) : gmap Z PinState :=
  match keys !! key with
  | Some s => if is_idle s then delete key keys else keys
  | None => keys
  end.

(** [enqueued] is the answer of the closure that queues the job. *)
Definition pin (keys : gmap Z PinState) (key : Z) (enqueued : bool) : gmap Z PinState :=
  let s := pin_of keys key in
  <[key := mkPin true enqueued (running s) (removed s) (stale s)]> keys.

Definition start (keys : gmap Z PinState) (key : Z) : JobStart * gmap Z PinState :=
  match keys !! key with
  | None => (Untracked, keys)
  | Some s =>
      match stale s with
      | S n =>
          (Stale, forget_if_idle (<[key := mkPin (pinned s) (queued s) (running s) (removed s) n]> keys) key)
      | O =>
          if negb (queued s) then (Untracked, keys)
          else (Owned, <[key := mkPin (pinned s) false true (removed s) (stale s)]> keys)
      end
  end.

(** The ledger's part of [finish]: whether the job still owns the pin, and the
    ledger after [settle]. *)
Definition finish (keys : gmap Z PinState) (key : Z) : bool * gmap Z PinState :=
  match keys !! key with
  | None => (true, keys)
  | Some s =>
      (negb (removed s), forget_if_idle (<[key := mkPin false (queued s) false false (stale s)]> keys) key)
  end.

(** [remove_entry]: [None] when refused, otherwise whether the running job is to
    free the slot. *)
Definition remove_entry {T} `{IEvictionPolicy T} (m : DispatchMap.Map T) (keys : gmap Z PinState) (key : Z) :
    outcome (option bool * DispatchMap.Map T * gmap Z PinState) :=
  let s := pin_of keys key in
  if negb (pinned s) then
    '(x, m) ← DispatchMap.remove m key;
    Ret (match x with Ok _ => Some false | Err _ => None end, m, keys)
  else
    match DispatchMap.release_read m key with
    | (Err _, m) => Ret (None, m, keys)
    | (Ok _, m) =>
        '(x, m) ← DispatchMap.remove m key;
        match x with
        | Err _ => Ret (None, (DispatchMap.take_read m key).2, keys)
        | Ok _ =>
            let stale := if queued s then S (stale s) else stale s in
            Ret (Some (running s), m,
                 forget_if_idle (<[key := mkPin false false (running s) (running s) stale]> keys) key)
        end
    end.

(** The outcome of the latest write-through of each key. *)
Definition record_write (failed : gset Z) (key : Z) (landed : bool) : gset Z :=
  if landed then failed ∖ {[key]} else failed ∪ {[key]}.

Definition failed_writes (failed : gset Z) (resident : Z → bool) : nat * gset Z :=
  let kept := filter (λ key, resident key = true) failed in (size kept, kept).

(** The ledger seen as a function of the key: forgetting an idle state changes
    nothing. *)
Lemma forget_if_idle_pin_of keys key k :
  removed (pin_of keys key) = false ∨ running (pin_of keys key) = true →
  pin_of (forget_if_idle keys key) k = pin_of keys k.
Proof.
  unfold forget_if_idle, pin_of. destruct (keys !! key) as [s|] eqn:E; [|done].
  destruct (is_idle s) eqn:Ei; [|done]. simpl. intros Hr.
  destruct (decide (k = key)) as [->|Hne]; [|by rewrite lookup_delete_ne].
  rewrite lookup_delete_eq, E. simpl. unfold is_idle in Ei. destruct s as [[] [] [] [] []]; naive_solver.
Qed.

Lemma pin_of_insert keys key s k : pin_of (<[key := s]> keys) k = if decide (k = key) then s else pin_of keys k.
Proof.
  unfold pin_of. destruct (decide (k = key)) as [->|]; [by rewrite lookup_insert_eq|by rewrite lookup_insert_ne].
Qed.

End WriteThroughPins.
