(* ===== verification/Dispatcher.v ===== *)
(** The dispatcher's eviction path, SSD locations and I/O segmentation
    ([components/dispatcher/src/lib.rs], [io_segmenter.rs], [pins.rs]): how the
    dispatch map and the memory tier are used together.

    Each call of the map or the tier is atomic. The dispatcher takes no lock of
    its own here; the theorems are about one eviction running against the clients'
    references as they are when it starts. *)

From S2P Require Import Prelude LruList EvictionPolicy FreeList MemoryTier DispatchMap.

(** * SSD locations *)

Module Location.
Local Open Scope Z_scope.

Definition DRIVE_SHIFT : Z := 56.

(** [debug_assert] of both ranges. *)
Definition encode_loc (drive offset : Z) : outcome Z :=
  if (drive <? 256) && (offset <? Z.shiftl 1 DRIVE_SHIFT)
  then Ret (Z.lor (Z.shiftl drive DRIVE_SHIFT mod 2 ^ 64) offset) else Panic.

Definition decode_loc (loc : Z) : Z * Z :=
  (Z.shiftr loc DRIVE_SHIFT, Z.land loc (Z.shiftl 1 DRIVE_SHIFT - 1)).

Definition select_drive {T} (items : list T) (loc : Z) : option (T * Z) :=
  let '(drive, raw) := decode_loc loc in
  (λ item, (item, raw)) <$> items !! Z.to_nat drive.

(** SSD locations round trip: for every drive below 256 and offset below
    2^56, encoding does not trap, decoding gives both back, and selecting finds that
    drive; in particular no two (drive, offset) pairs share a location. *)
Theorem location_round_trip {T} (items : list T) drive offset :
  0 ≤ drive < 256 → 0 ≤ offset < 2 ^ 56 →
  ∃ loc, encode_loc drive offset = Ret loc ∧ is_u 64 loc ∧ decode_loc loc = (drive, offset) ∧
    select_drive items loc = (λ item, (item, offset)) <$> items !! Z.to_nat drive.
Proof.
  intros Hd Ho. unfold encode_loc, DRIVE_SHIFT. rewrite (proj2 (Z.ltb_lt _ _)) by lia.
  rewrite (proj2 (Z.ltb_lt _ _)) by (rewrite Z.shiftl_1_l; lia). simpl andb. cbn iota.
  assert (Z.shiftl drive 56 = drive * 2 ^ 56) as Es by (apply Z.shiftl_mul_pow2; lia).
  rewrite (Z.mod_small (Z.shiftl drive 56)) by lia. eexists. split; [done|].
  assert (decode_loc (Z.lor (Z.shiftl drive 56) offset) = (drive, offset)) as Ed.
  { unfold decode_loc, DRIVE_SHIFT. change (Z.shiftl 1 56 - 1) with (Z.ones 56). f_equal.
    - rewrite Z.shiftr_lor, Z.shiftr_shiftl_l, Z.sub_diag, Z.shiftl_0_r by lia.
      rewrite (Z.shiftr_div_pow2 offset), Z.div_small, Z.lor_0_r by lia. done.
    - rewrite Z.land_lor_distr_l, !Z.land_ones, Es, Z.mod_mul, Z.lor_0_l by lia. apply Z.mod_small. lia. }
  split_and!; [|done|unfold select_drive; by rewrite Ed].
  assert (Z.lor (Z.shiftl drive 56) offset = drive * 2 ^ 56 + offset) as ->; [|split; lia].
  pose proof (Z.div_mod (Z.lor (Z.shiftl drive 56) offset) (2 ^ 56)) as Hdm.
  unfold decode_loc, DRIVE_SHIFT in Ed. change (Z.shiftl 1 56 - 1) with (Z.ones 56) in Ed.
  rewrite Z.land_ones, Z.shiftr_div_pow2 in Ed by lia. injection Ed as E1 E2. lia.
Qed.

Lemma location_round_trip_witness :
  ∃ loc, encode_loc 3 4096 = Ret loc ∧ decode_loc loc = (3, 4096).
Proof.
  destruct (location_round_trip [tt] 3 4096) as (loc & E & _ & D & _); [lia|lia|].
  exists loc. split; [exact E|exact D].
Defined.

End Location.

(** * I/O segmentation *)

Module IoSegmenter.
Local Open Scope Z_scope.

Record IoSegment := mkSegment { buffer_offset : Z; lba : Z; length : Z }.

(** The [while] loop; each round takes at least one byte, so [remaining] rounds
    are enough. *)
Fixpoint segment_loop (fuel : nat) (mts ss buffer_offset lba remaining : Z) : outcome (list IoSegment) :=
  if remaining <=? 0 then Ret []
  else match fuel with
  | O => Panic
  | S fuel =>
      let len := Z.min remaining mts in
      b ← add_w 64 buffer_offset len;
      l ← add_w 64 lba (len / ss);
      r ← sub_w remaining len;
      rest ← segment_loop fuel mts ss b l r;
      Ret (mkSegment buffer_offset lba len :: rest)
  end.

Definition segment_io (start_lba total_bytes max_transfer_size sector_size : Z) : outcome (list IoSegment) :=
  if max_transfer_size <=? 0 then Panic
  else if sector_size <=? 0 then Panic
  else if total_bytes =? 0 then Ret []
  else segment_loop (Z.to_nat total_bytes) max_transfer_size sector_size 0 start_lba total_bytes.

(** Segment [i] of a transfer. *)
Definition segment (start total mts ss : Z) (i : nat) : IoSegment :=
  mkSegment (Z.of_nat i * mts) (start + Z.of_nat i * mts / ss) (Z.min mts (total - Z.of_nat i * mts)).

Lemma segment_loop_spec start total mts ss n fuel i :
  0 < mts → 0 < ss → (ss | mts) → 0 ≤ start → 0 ≤ total → total + mts < 2 ^ 64 → start + total < 2 ^ 64 →
  n = Z.to_nat ((total + mts - 1) / mts) → (i ≤ n)%nat → total - Z.of_nat i * mts ≤ Z.of_nat fuel →
  segment_loop fuel mts ss (Z.of_nat i * mts) (start + Z.of_nat i * mts / ss) (total - Z.of_nat i * mts) =
  Ret (segment start total mts ss <$> seq i (n - i)).
Proof.
  intros Hm Hs [q Hq] H0 Ht Hb Hl Hn.
  pose proof (Z.div_mod (total + mts - 1) mts) as Hdm.
  pose proof (Z.mod_pos_bound (total + mts - 1) mts Hm) as Hmb.
  assert (0 ≤ (total + mts - 1) / mts) as Hq0 by (apply Z.div_pos; lia).
  assert (Z.of_nat n * mts < total + mts ∧ total ≤ Z.of_nat n * mts) as [Hn1 Hn2] by (subst n; lia).
  clear Hdm Hmb Hq0. assert (∀ j, (j ≤ n)%nat → total ≤ Z.of_nat j * mts → n = j) as Hend.
  { intros j Hj Hle. assert (Z.of_nat n < Z.of_nat j + 1); [|lia]. apply (Z.mul_lt_mono_pos_r mts); lia. }
  assert (0 < q) as Hq1 by (apply (Z.mul_lt_mono_pos_r ss); lia).
  assert (q ≤ mts) as Hq2 by (rewrite Hq; apply Z.le_mul_diag_r; lia).
  revert i. induction fuel as [|fuel IH]; intros i Hi Hf; cbn [segment_loop].
  - rewrite (proj2 (Z.leb_le _ _)) by lia. rewrite (Hend i) by lia. by rewrite Nat.sub_diag.
  - destruct (Z.leb_spec (total - Z.of_nat i * mts) 0) as [Hle|Hgt].
    { rewrite (Hend i) by lia. by rewrite Nat.sub_diag. }
    assert (i < n)%nat as Hin by (destruct (decide (i = n)) as [->|]; lia).
    assert (∀ a, a * mts / ss = a * q) as Hdiv by (intros a; rewrite Hq, Z.mul_assoc, Z.div_mul by lia; done).
    set (len := Z.min (total - Z.of_nat i * mts) mts).
    assert (0 < len ∧ len ≤ total - Z.of_nat i * mts ∧ len ≤ mts) as Hle by (unfold len; lia).
    assert (0 ≤ len / ss ≤ len) as Hlen by (split; [apply Z.div_pos; lia|apply Z.div_le_upper_bound; [lia|rewrite Z.mul_comm; apply Z.le_mul_diag_r; lia]]).
    assert (Z.of_nat i * q ≤ Z.of_nat i * mts) by (apply Z.mul_le_mono_nonneg_l; lia).
    rewrite (add_w_Ret 64 (Z.of_nat i * mts) len) by lia.
    rewrite bind_Ret_l, (add_w_Ret 64 (start + _) (len / ss)) by (rewrite Hdiv; lia).
    rewrite bind_Ret_l, sub_w_Ret by lia. rewrite bind_Ret_l.
    replace (n - i)%nat with (S (n - S i)) by lia. cbn [seq fmap list_fmap].
    destruct (decide (total ≤ Z.of_nat (S i) * mts)) as [Hlast|Hmore].
    + rewrite (Hend (S i)) by lia. rewrite Nat.sub_diag.
      replace (total - Z.of_nat i * mts - len) with 0 by lia.
      assert (segment_loop fuel mts ss (Z.of_nat i * mts + len) (start + Z.of_nat i * mts / ss + len / ss) 0 = Ret []) as ->
        by (by destruct fuel).
      rewrite bind_Ret_l. unfold segment. rewrite (Z.min_comm mts). done.
    + specialize (IH (S i)). assert (len = mts) as El by lia. rewrite El.
      replace (Z.of_nat i * mts + mts) with (Z.of_nat (S i) * mts) by lia.
      replace (start + Z.of_nat i * mts / ss + mts / ss) with (start + Z.of_nat (S i) * mts / ss).
      2:{ rewrite !Hdiv. replace (mts / ss) with (1 * mts / ss) by (f_equal; lia). rewrite Hdiv. lia. }
      replace (total - Z.of_nat i * mts - mts) with (total - Z.of_nat (S i) * mts) by lia.
      rewrite IH by lia. rewrite bind_Ret_l. unfold segment at 2. rewrite (Z.min_comm mts). fold len. by rewrite El.
Qed.

(** Segmentation is exact: for a transfer limit that is a whole number of
    sectors, the transfer is cut into [ceil(total / limit)] segments; segment [i]
    starts [i * limit] bytes into the buffer and at the sector of those bytes, and
    every segment but the last is exactly the limit. Together they cover each byte
    once, in order; the loop needs no more rounds than bytes. *)
Theorem segment_io_exact start total mts ss :
  0 < mts → 0 < ss → (ss | mts) → 0 ≤ start → 0 ≤ total → total + mts < 2 ^ 64 → start + total < 2 ^ 64 →
  segment_io start total mts ss =
  Ret (segment start total mts ss <$> seq 0 (Z.to_nat ((total + mts - 1) / mts))).
Proof.
  intros Hm Hs Hd H0 Ht Hb Hl. unfold segment_io.
  rewrite (proj2 (Z.leb_gt _ _)), (proj2 (Z.leb_gt _ _)) by lia.
  destruct (Z.eqb_spec total 0) as [->|Hz].
  - rewrite (Z.div_small (0 + mts - 1)) by lia. done.
  - pose proof (segment_loop_spec start total mts ss _ (Z.to_nat total) 0 Hm Hs Hd H0 Ht Hb Hl eq_refl) as H.
    simpl in H. rewrite Z.sub_0_r, Z.div_0_l, Z.add_0_r, Nat.sub_0_r in H by lia. apply H; lia.
Qed.

Lemma segment_io_exact_witness :
  segment_io 100 10000 4096 512 =
  Ret [mkSegment 0 100 4096; mkSegment 4096 108 4096; mkSegment 8192 116 1808].
Proof.
  rewrite (segment_io_exact 100 10000 4096 512); [reflexivity|lia|lia|by exists 8|lia..].
Defined.

End IoSegmenter.

(** * Eviction *)

Module Dispatcher.
Import Policy.
Local Open Scope Z_scope.

Definition EVICT_SCAN_STEP : nat := 4.
Definition EVICT_SCAN_MAX : nat := 1024.

Inductive DispatcherError :=
| KeyNotFound (key : Z)
| AlreadyExists (key : Z)
| AllocationFailed
| InvalidParameter
| IoError
| Timeout.

Abbreviation res A := (result A DispatcherError).

(** The eviction counters of [TierEventCounters]. *)
Record Counters := mkCounters {
  evictions_from_memory : nat;
  blocked_by_pin : nat;
  blocked_unpersisted : nat;
  scans_exhausted : nat
}.

Definition count_evicted (c : Counters) : Counters :=
  mkCounters (S (evictions_from_memory c)) (blocked_by_pin c) (blocked_unpersisted c) (scans_exhausted c).
Definition count_pinned (c : Counters) : Counters :=
  mkCounters (evictions_from_memory c) (S (blocked_by_pin c)) (blocked_unpersisted c) (scans_exhausted c).
Definition count_unpersisted (c : Counters) : Counters :=
  mkCounters (evictions_from_memory c) (blocked_by_pin c) (S (blocked_unpersisted c)) (scans_exhausted c).
Definition count_exhausted (c : Counters) : Counters :=
  mkCounters (evictions_from_memory c) (blocked_by_pin c) (blocked_unpersisted c) (S (scans_exhausted c)).

Section ops.
Context {S1 S2 : Type} `{P1 : IEvictionPolicy S1, P2 : IEvictionPolicy S2}.

Record State := mkState {
  dm : DispatchMap.Map S1;
  mt : MemoryTier.Tier S2;
  counters : Counters
}.

Definition set_counters (d : State) (c : Counters) : State := mkState (dm d) (mt d) c.

(** The loop over the candidates. *)
Fixpoint evict_scan (d : State) (cands : list Z) : outcome (bool * State) :=
  match cands with
  | [] => Ret (false, set_counters d (count_exhausted (counters d)))
  | cand :: cands =>
      match DispatchMap.try_evict_to_block (dm d) cand with
      | (Ok _, m) =>
          '(_, t) ← MemoryTier.remove (mt d) cand;
          Ret (true, mkState m t (count_evicted (counters d)))
      | (Err (DispatchMap.ActiveReferences _), m) =>
          evict_scan (mkState m (mt d) (count_pinned (counters d))) cands
      | (Err _, m) =>
          evict_scan (mkState m (mt d) (count_unpersisted (counters d))) cands
      end
  end.

Definition evict_one_clean (d : State) (scan : nat) : outcome (bool * State) :=
  cands ← MemoryTier.oldest_keys (mt d) scan;
  evict_scan d cands.

(** The scan at the regular depth, or else the one at full depth. *)
Definition evict_widening (d : State) (scan : nat) : outcome (bool * State) :=
  '(freed, d) ← evict_one_clean d scan;
  if (freed : bool) then Ret (true, d)
  else if (scan <? EVICT_SCAN_MAX)%nat then evict_one_clean d EVICT_SCAN_MAX
  else Ret (false, d).

(** The [while] loop; [budget] is the number of attempts left, and every round
    uses one. *)
Fixpoint evict_loop (budget : nat) (d : State) (needed : Z) (attempts : nat) : outcome (res unit * State) :=
  total ← add_w 64 (MemoryTier.used (mt d)) needed;
  if negb (MemoryTier.capacity (mt d) <? total) then Ret (Ok (), d)
  else
    let attempts := S attempts in
    match budget with
    | O => Ret (Err AllocationFailed, d)
    | S budget =>
        let scan := Nat.min (EVICT_SCAN_STEP * attempts) EVICT_SCAN_MAX in
        '(freed, d) ← evict_widening d scan;
        if (freed : bool) then evict_loop budget d needed attempts
        else Ret (Err AllocationFailed, d)
    end.

Definition evict_for_space (d : State) (needed : Z) (max_attempts : nat) : outcome (res unit * State) :=
  evict_loop max_attempts d needed 0.

(** The insertion loop: [budget] is [max_attempts - attempts]. *)
Fixpoint insert_loop (budget : nat) (d : State) (key size : Z) : outcome (res Z * State) :=
  '(x, d) ← evict_for_space d size budget;
  match x with
  | Err e => Ret (Err e, d)
  | Ok _ =>
      '(p, t) ← MemoryTier.insert (mt d) key size;
      let d := mkState (dm d) t (counters d) in
      match p with
      | Ok ptr => Ret (Ok ptr, d)
      | Err MemoryTier.PoolFull =>
          match budget with
          | O | S O => Ret (Err AllocationFailed, d)
          | S budget =>
              '(freed, d) ← evict_one_clean d EVICT_SCAN_MAX;
              if (freed : bool) then insert_loop budget d key size
              else Ret (Err AllocationFailed, d)
          end
      | Err (MemoryTier.AlreadyExists k) => Ret (Err (AlreadyExists k), d)
      | Err _ => Ret (Err AllocationFailed, d)
      end
  end.

Definition evict_and_insert (d : State) (key size : Z) (max_attempts : nat) : outcome (res Z * State) :=
  if MemoryTier.contains (mt d) key then Ret (Err (AlreadyExists key), d)
  else insert_loop max_attempts d key size.

(** Dropping [PinnedKeys]: every adopted pin is released. *)
Fixpoint drop_pins (m : DispatchMap.Map S1) (keys : list Z) : DispatchMap.Map S1 :=
  match keys with
  | [] => m
  | key :: keys => drop_pins (DispatchMap.release_read m key).2 keys
  end.

(** The end of a write-through: record the copy, or just release the pin. *)
Definition settle_write_through (m : DispatchMap.Map S1) (key : Z) (written : option Z) : DispatchMap.Map S1 :=
  match written with
  | Some block_offset => (DispatchMap.convert_to_storage m key block_offset).2
  | None => (DispatchMap.release_read m key).2
  end.

End ops.

Arguments State : clear implicits.

(** ** Nothing a client holds is evicted *)

Section laws.
Context {S1 S2 : Type} `{P1 : IEvictionPolicy S1, L1 : !EvictionPolicyLaws S1,
  P2 : IEvictionPolicy S2, L2 : !EvictionPolicyLaws S2}.
Abbreviation State := (State S1 S2).
Abbreviation entries d := (DispatchMap.entries (dm d)).
Abbreviation view d := (MemoryTier.view (mt d)).

Definition held (h : DispatchMap.holds) (k : Z) : Prop :=
  0 < DispatchMap.reads h k ∨ DispatchMap.writes h k = true.

(** The map and the tier are well formed, the counters are what the clients
    hold, and an entry that is in memory points at its own slot of the tier. *)
Record good (h : DispatchMap.holds) (d : State) : Prop := {
  g_dm : ∃ s p L, DispatchMap.ok (dm d) s p L;
  g_exact : DispatchMap.exact (dm d) h;
  g_mt : MemoryTier.ok (mt d);
  g_slots : ∀ k e ptr sz so, entries d !! k = Some e →
    DispatchMap.location e = DispatchMap.MemoryTier ptr sz so → view d !! k = Some (ptr, sz)
}.

(** The entry went from memory to its recorded disk copy. *)
Definition demoted (e e' : DispatchMap.DispatchEntry) : Prop :=
  ∃ ptr sz off, DispatchMap.location e = DispatchMap.MemoryTier ptr sz (Some off) ∧
    e' = DispatchMap.set_location e (DispatchMap.BlockDevice off).

(** What an eviction may change: no held entry and no held slot, no key is lost,
    an entry that changes is demoted, and a slot goes exactly with its demotion. *)
Record evicts (h : DispatchMap.holds) (d d' : State) : Prop := {
  v_held : ∀ k, held h k → entries d' !! k = entries d !! k ∧ view d' !! k = view d !! k;
  v_kept : ∀ k e, entries d !! k = Some e →
    ∃ e', entries d' !! k = Some e' ∧ (e' = e ∨ demoted e e');
  v_new : ∀ k, entries d !! k = None → entries d' !! k = None;
  v_slots : view d' ⊆ view d;
  v_key : ∀ k, entries d' !! k = entries d !! k ∧ view d' !! k = view d !! k ∨
    ∃ e e', entries d !! k = Some e ∧ entries d' !! k = Some e' ∧ demoted e e' ∧ view d' !! k = None;
  v_frame : MemoryTier.same_frame (MemoryTier.state (mt d)) (MemoryTier.state (mt d'))
}.

Lemma evicts_refl h d : evicts h d d.
Proof. split; try done; eauto. Qed.

Lemma evicts_trans h d1 d2 d3 : evicts h d1 d2 → evicts h d2 d3 → evicts h d1 d3.
Proof.
  intros [A1 A2 A3 A4 A6 A5] [B1 B2 B3 B4 B6 B5]. split.
  - intros k Hk. destruct (A1 k Hk), (B1 k Hk). split; congruence.
  - intros k e He. destruct (A2 k e He) as (e1 & He1 & H1). destruct (B2 k e1 He1) as (e2 & He2 & H2).
    exists e2. split; [done|]. destruct H2 as [->|(ptr & sz & off & El & ->)]; [done|].
    destruct H1 as [->|(ptr1 & sz1 & off1 & El1 & ->)]; [right; by exists ptr, sz, off|done].
  - auto.
  - by etrans.
  - intros k. destruct (A6 k) as [[E1 V1]|(e & e' & E1 & E2 & D & V1)]; destruct (B6 k) as [[E3 V3]|(e1 & e2 & E3 & E4 & D2 & V3)].
    + left. split; congruence.
    + right. exists e1, e2. split_and!; [congruence|done..].
    + right. exists e, e'. split_and!; [done|congruence|done|congruence].
    + destruct D as (? & ? & ? & _ & ->), D2 as (? & ? & ? & E5 & _). rewrite E2 in E3. by injection E3 as <-.
  - unfold MemoryTier.same_frame in *. intuition congruence.
Qed.

Lemma oldest_keys_spec t n :
  MemoryTier.ok t → ∃ ks, MemoryTier.oldest_keys (S:=S2) t n = Ret ks ∧ (length ks ≤ n)%nat ∧
    ∀ k, k ∈ ks → is_Some (MemoryTier.view t !! k).
Proof.
  intros O. pose proof O as [Hi (ep & tr & Hep & Hpo & Hl & Ht) _ _ _].
  unfold MemoryTier.oldest_keys. rewrite Hi, Hep. destruct (Nat.eqb_spec n 0) as [->|Hn]; simpl.
  { exists []. split_and!; [done|done|set_solver]. }
  destruct (candidates_law ep _ tr n Hpo Hl) as (ks & -> & Hlen & Hks). exists ks. split_and!; [done..|].
  intros k Hk. destruct (Hks k Hk) as [i Hik]. destruct (proj2 Ht i k Hik) as (sl & Hsl & _).
  unfold MemoryTier.view. by rewrite lookup_fmap, Hsl.
Qed.

(** One victim: demoted in the map, then its slot freed. *)
Lemma evict_victim h d k e ptr sz off :
  good h d → entries d !! k = Some e → DispatchMap.location e = DispatchMap.MemoryTier ptr sz (Some off) →
  DispatchMap.read_ref e = 0 → DispatchMap.write_ref e = 0 →
  let m' := DispatchMap.set_entry (dm d) k (DispatchMap.set_location e (DispatchMap.BlockDevice off)) in
  ∃ t', MemoryTier.remove (mt d) k = Ret (Ok (), t') ∧
    MemoryTier.view t' = delete k (view d) ∧ view d !! k = Some (ptr, sz) ∧
    MemoryTier.used t' = MemoryTier.used (mt d) - FreeList.aligned sz ∧
    ∀ c, good h (mkState m' t' c) ∧ evicts h d (mkState m' t' c).
Proof.
  intros [(s & p & L & O) X M G] He El Hr Hw m'. pose proof (G _ _ _ _ _ He El) as Hv.
  pose proof (MemoryTier.tier_remove_spec (mt d) k M) as Hrm. rewrite Hv in Hrm.
  destruct Hrm as (t' & E & M' & Vw & Hu & Fr). exists t'. split_and!; [done..|]. intros c.
  assert (¬ held h k) as Hnh.
  { specialize (X k). rewrite He in X. destruct X as [X1 X2]. intros [?|Hx]; [lia|]. rewrite Hx in X2. simpl in X2. lia. }
  split.
  - split; simpl; [exists s, p, L|..].
    + eapply DispatchMap.ok_set_entry; [done|exact He|done|]. by eapply DispatchMap.ok_refs in He as [? ?].
    + intros k'. destruct (decide (k' = k)) as [->|Hne]; simpl.
      * rewrite lookup_insert_eq. specialize (X k). by rewrite He in X.
      * rewrite lookup_insert_ne by done. apply X.
    + done.
    + intros k' e' ptr' sz' so'. rewrite Vw. destruct (decide (k' = k)) as [->|Hne].
      * rewrite lookup_insert_eq. by intros [= <-].
      * rewrite lookup_insert_ne, lookup_delete_ne by done. apply G.
  - split; simpl.
    + intros k' Hk'. assert (k' ≠ k) by (by intros ->). rewrite Vw, lookup_insert_ne, lookup_delete_ne by done. done.
    + intros k' e' He'. destruct (decide (k' = k)) as [->|Hne].
      * rewrite lookup_insert_eq. eexists. split; [done|]. right. exists ptr, sz, off. split; congruence.
      * rewrite lookup_insert_ne by done. eauto.
    + intros k' Hn. rewrite lookup_insert_ne; [done|]. intros ->. congruence.
    + rewrite Vw. apply delete_subseteq.
    + intros k'. rewrite Vw. destruct (decide (k' = k)) as [->|Hne].
      * right. exists e. eexists. rewrite lookup_insert_eq, lookup_delete_eq. split_and!; [done..| |done]. by exists ptr, sz, off.
      * left. by rewrite lookup_insert_ne, lookup_delete_ne.
    + done.
Qed.

Lemma good_counters h d c : good h d → good h (set_counters d c) ∧ evicts h d (set_counters d c).
Proof. intros [A B C D]. split; split; eauto. done. Qed.

(** How a scan ends: at the first evictable candidate, or past the last one
    with nothing changed but the counters. *)
Definition scanned (d d' : State) (ks : list Z) (b : bool) : Prop :=
  if b then
    ∃ pre k post p sz, ks = pre ++ k :: post ∧ Forall (λ k, DispatchMap.is_evictable (dm d) k = false) pre ∧
      DispatchMap.is_evictable (dm d) k = true ∧ view d !! k = Some (p, sz) ∧ view d' = delete k (view d) ∧
      MemoryTier.used (mt d') = MemoryTier.used (mt d) - FreeList.aligned sz ∧
      evictions_from_memory (counters d') = S (evictions_from_memory (counters d)) ∧
      (blocked_by_pin (counters d') + blocked_unpersisted (counters d') =
       length pre + (blocked_by_pin (counters d) + blocked_unpersisted (counters d)))%nat
  else
    dm d' = dm d ∧ mt d' = mt d ∧ Forall (λ k, DispatchMap.is_evictable (dm d) k = false) ks ∧
    evictions_from_memory (counters d') = evictions_from_memory (counters d) ∧
    (blocked_by_pin (counters d') + blocked_unpersisted (counters d') =
     length ks + (blocked_by_pin (counters d) + blocked_unpersisted (counters d)))%nat.

Lemma scanned_skip d c d' k ks b :
  DispatchMap.is_evictable (dm d) k = false →
  evictions_from_memory c = evictions_from_memory (counters d) →
  (blocked_by_pin c + blocked_unpersisted c = S (blocked_by_pin (counters d) + blocked_unpersisted (counters d)))%nat →
  scanned (set_counters d c) d' ks b → scanned d d' (k :: ks) b.
Proof.
  intros Hk He Hb. destruct b; simpl; rewrite ?He, Hb.
  - intros (pre & k' & post & p & sz & -> & Hp & Hk' & Hv & Hv' & Hu & Hc & Hcb).
    exists (k :: pre), k', post, p, sz. split_and!; try done; [by constructor|simpl; lia].
  - intros (Hd & Hm & Hf & Hc & Hcb). split_and!; try done; [by constructor|lia].
Qed.

Lemma evict_scan_spec h d ks :
  good h d → ∃ b d', evict_scan d ks = Ret (b, d') ∧ good h d' ∧ evicts h d d' ∧ scanned d d' ks b.
Proof.
  revert d. induction ks as [|k ks IH]; intros d G.
  { exists false. eexists. split; [done|]. destruct (good_counters h d (count_exhausted (counters d)) G).
    split_and!; try done. }
  assert (∀ c, DispatchMap.is_evictable (dm d) k = false →
    evictions_from_memory c = evictions_from_memory (counters d) →
    (blocked_by_pin c + blocked_unpersisted c = S (blocked_by_pin (counters d) + blocked_unpersisted (counters d)))%nat →
    ∃ b d', evict_scan (mkState (dm d) (mt d) c) ks = Ret (b, d') ∧ good h d' ∧ evicts h d d' ∧ scanned d d' (k :: ks) b) as Skip.
  { intros c Hk He Hb. destruct (good_counters h d c G) as [Gc Vc]. destruct (IH _ Gc) as (b & d' & E & G' & V' & Sc).
    exists b, d'. split_and!; [done|done|by eapply evicts_trans|by eapply scanned_skip]. }
  simpl. unfold DispatchMap.try_evict_to_block, DispatchMap.is_evictable in *.
  destruct (entries d !! k) as [e|] eqn:He; [|apply Skip; simpl; (lia || done)].
  destruct (Z.eqb_spec (DispatchMap.read_ref e) 0) as [Hr|]; simpl in *; [|apply Skip; simpl; (lia || done)].
  destruct (Z.eqb_spec (DispatchMap.write_ref e) 0) as [Hw|]; simpl in *; [|apply Skip; simpl; (lia || done)].
  destruct (DispatchMap.location e) as [off|ptr sz [off|]] eqn:El; [apply Skip; simpl; (lia || done)| |apply Skip; simpl; (lia || done)].
  clear Skip. destruct (evict_victim h d k e ptr sz off G He El Hr Hw) as (t' & -> & Vw & Hv & Hu & Hg).
  destruct (Hg (count_evicted (counters d))) as [G' V']. exists true. eexists. split_and!; [done..|].
  exists [], k, ks, ptr, sz. split_and!; try done. by unfold DispatchMap.is_evictable; rewrite He, Hr, Hw, El.
Qed.

Lemma evict_one_clean_spec h d n :
  good h d → ∃ ks b d', MemoryTier.oldest_keys (mt d) n = Ret ks ∧ (length ks ≤ n)%nat ∧
    evict_one_clean d n = Ret (b, d') ∧ good h d' ∧ evicts h d d' ∧ scanned d d' ks b.
Proof.
  intros G. destruct (oldest_keys_spec (mt d) n (g_mt _ _ G)) as (ks & E & Hl & _).
  destruct (evict_scan_spec h d ks G) as (b & d' & E' & H). exists ks, b, d'.
  destruct H as (? & ? & ?).
  unfold evict_one_clean. rewrite E, bind_Ret_l. split_and!; done.
Qed.

(** No entry the scan of full depth reaches can be evicted. *)
Definition stuck (d : State) : Prop :=
  ∃ ks, MemoryTier.oldest_keys (mt d) EVICT_SCAN_MAX = Ret ks ∧
        Forall (λ k, DispatchMap.is_evictable (dm d) k = false) ks.

Lemma evict_widening_spec h d scan :
  good h d → (scan ≤ EVICT_SCAN_MAX)%nat → ∃ b d', evict_widening d scan = Ret (b, d') ∧
    good h d' ∧ evicts h d d' ∧
    (if b then evictions_from_memory (counters d') = S (evictions_from_memory (counters d))
     else evictions_from_memory (counters d') = evictions_from_memory (counters d) ∧ mt d' = mt d ∧ stuck d').
Proof.
  intros G Hs. unfold evict_widening.
  destruct (evict_one_clean_spec h d scan G) as (ks & b & d1 & Ek & _ & -> & G1 & V1 & Sc).
  rewrite bind_Ret_l. destruct b.
  { destruct Sc as (pre & k & post & p & sz & _ & _ & _ & _ & _ & _ & Hc & _). exists true, d1. by split_and!. }
  destruct Sc as (Hd & Hm & Hf & Hc & _). destruct (Nat.ltb_spec scan EVICT_SCAN_MAX) as [Hlt|Hge].
  - destruct (evict_one_clean_spec h d1 EVICT_SCAN_MAX G1) as (ks2 & b & d2 & Ek2 & _ & -> & G2 & V2 & Sc).
    exists b, d2. split_and!; [done|done|by eapply evicts_trans|]. destruct b.
    + destruct Sc as (pre & k & post & p & sz & _ & _ & _ & _ & _ & _ & Hc2 & _). congruence.
    + destruct Sc as (Hd2 & Hm2 & Hf2 & Hc2 & _). split_and!; [congruence..|].
      exists ks2. rewrite Hm2, Hd2. by split.
  - exists false, d1. split_and!; try done. replace scan with EVICT_SCAN_MAX in Ek by lia.
    exists ks. rewrite Hd, Hm. by split.
Qed.

Lemma used_bound t : MemoryTier.ok (S:=S2) t → 0 ≤ MemoryTier.used t ≤ MemoryTier.capacity t ∧ MemoryTier.capacity t < 2 ^ 44.
Proof.
  intros [Hi _ [P Hc _] _ [Hb (Hf1 & Hf2 & Hf3) _]]. unfold MemoryTier.used, MemoryTier.capacity. rewrite Hi.
  destruct (FreeList.parts_ok _ _ P) as [R Hu [Hc0 _]]. pose proof (FreeList.regions_ok_total _ _ Hc0 R). lia.
Qed.

(** How [evict_for_space] ends. *)
Definition spaced (d d' : State) (needed : Z) (budget : nat) (x : res unit) : Prop :=
  match x with
  | Ok _ => MemoryTier.used (mt d') + needed ≤ MemoryTier.capacity (mt d') ∧
      (evictions_from_memory (counters d') ≤ budget + evictions_from_memory (counters d))%nat
  | Err e => e = AllocationFailed ∧ MemoryTier.capacity (mt d') < MemoryTier.used (mt d') + needed ∧
      (evictions_from_memory (counters d') = budget + evictions_from_memory (counters d) ∨ stuck d')%nat
  end.

Lemma evict_loop_spec h needed budget d attempts :
  good h d → is_u 32 needed → ∃ x d', evict_loop budget d needed attempts = Ret (x, d') ∧
    good h d' ∧ evicts h d d' ∧ spaced d d' needed budget x.
Proof.
  intros G Hn. revert d attempts G. induction budget as [|budget IH]; intros d attempts G;
    pose proof (used_bound _ (g_mt _ _ G)) as [Hu Hc]; destruct Hn as [Hn1 Hn2]; cbn [evict_loop];
    rewrite add_w_Ret, bind_Ret_l by lia;
    (destruct (Z.ltb_spec (MemoryTier.capacity (mt d)) (MemoryTier.used (mt d) + needed)) as [Hlt|Hge]; cbn [negb];
    [|exists (Ok ()), d; split_and!; [done|done|apply evicts_refl|split; lia]]).
  { exists (Err AllocationFailed), d. split_and!; [done|done|apply evicts_refl|]. split_and!; [done|lia|by left]. }
  destruct (evict_widening_spec h d (Nat.min (EVICT_SCAN_STEP * S attempts) EVICT_SCAN_MAX) G)
    as (b & d1 & -> & G1 & V1 & Hb); [lia|]. rewrite bind_Ret_l. destruct b.
  - destruct (IH d1 (S attempts) G1) as (x & d2 & E & G2 & V2 & Hx). exists x, d2.
    split_and!; [done|done|by eapply evicts_trans|]. destruct x; destruct Hx as (? & Hx); split_and!; try done; [lia| |].
    + apply Hx.
    + destruct Hx as [_ [Hx|Hx]]; [left; lia|by right].
  - destruct Hb as (_ & Hm & Hst). exists (Err AllocationFailed), d1. split_and!; [done..|].
    split_and!; [done|rewrite Hm; lia|by right].
Qed.

(** The tier insert that follows: it leaves the map alone, so only the new key
    gets a slot. *)
Lemma good_insert h d t key size ptr :
  good h d → view d !! key = None → MemoryTier.ok t → MemoryTier.view t = <[key := (ptr, size)]> (view d) →
  good h (mkState (dm d) t (counters d)).
Proof.
  intros [A B C D] Hn Ht Hv. split; try done. intros k e p sz so He El. simpl in *. rewrite Hv.
  rewrite lookup_insert_ne; [by eapply D|]. intros ->. rewrite (D _ _ _ _ _ He El) in Hn. done.
Qed.

Lemma insert_loop_eq budget (d : State) key size :
  insert_loop budget d key size =
  '(x, d) ← evict_for_space d size budget;
  match x with
  | Err e => Ret (Err e, d)
  | Ok _ =>
      '(p, t) ← MemoryTier.insert (mt d) key size;
      let d := mkState (dm d) t (counters d) in
      match p with
      | Ok ptr => Ret (Ok ptr, d)
      | Err MemoryTier.PoolFull =>
          match budget with
          | O | S O => Ret (Err AllocationFailed, d)
          | S budget =>
              '(freed, d) ← evict_one_clean d EVICT_SCAN_MAX;
              if (freed : bool) then insert_loop budget d key size
              else Ret (Err AllocationFailed, d)
          end
      | Err (MemoryTier.AlreadyExists k) => Ret (Err (AlreadyExists k), d)
      | Err _ => Ret (Err AllocationFailed, d)
      end
  end.
Proof. by destruct budget. Qed.

(** How [evict_and_insert] ends on a key without a slot. *)
Definition inserted (h : DispatchMap.holds) (d d' : State) (key size : Z) (x : res Z) : Prop :=
  match x with
  | Ok ptr => ∃ d1, evicts h d d1 ∧ good h d1 ∧ dm d' = dm d1 ∧ view d' = <[key := (ptr, size)]> (view d1)
  | Err e => e = AllocationFailed ∧ evicts h d d'
  end.

Lemma insert_loop_spec h key size budget d :
  good h d → view d !! key = None → 0 < size → is_u 32 size →
  ∃ x d', insert_loop budget d key size = Ret (x, d') ∧ good h d' ∧ inserted h d d' key size x.
Proof.
  intros G Hn H0 Hu. revert d G Hn. induction budget as [budget IH] using lt_wf_ind; intros d G Hn.
  rewrite insert_loop_eq. unfold evict_for_space.
  destruct (evict_loop_spec h size budget d 0 G Hu) as (x & d1 & -> & G1 & V1 & Hx). rewrite bind_Ret_l.
  assert (view d1 !! key = None) as Hn1 by (eapply lookup_weaken_None; [exact Hn|apply V1]).
  destruct x as [u|e]; [clear Hx|destruct Hx as (-> & _); by exists (Err AllocationFailed), d1].
  destruct (MemoryTier.tier_insert_spec (mt d1) key size (g_mt _ _ G1) H0 Hu)
    as [[[? ?] _]|[(_ & _ & ->)|(_ & p & t' & -> & O' & Hv & _)]]; [congruence| |]; rewrite bind_Ret_l.
  2: { exists (Ok p). eexists. split; [done|]. split; [by eapply good_insert|by exists d1]. }
  replace (mkState (dm d1) (mt d1) (counters d1)) with d1 by (by destruct d1). cbv zeta.
  destruct budget as [|[|budget]]; [by exists (Err AllocationFailed), d1..|].
  destruct (evict_one_clean_spec h d1 EVICT_SCAN_MAX G1) as (ks & b & d2 & _ & _ & -> & G2 & V2 & _).
  assert (evicts h d d2) as V by (by eapply evicts_trans).
  rewrite bind_Ret_l. destruct b; [|by exists (Err AllocationFailed), d2].
  destruct (IH (S budget) ltac:(lia) d2 G2) as (x & d3 & E3 & G3 & Hx); [eapply lookup_weaken_None; [exact Hn|apply V]|].
  exists x, d3. split_and!; [done..|]. destruct x as [p|e]; simpl in *.
  - destruct Hx as (d4 & V4 & Hd4). exists d4. split; [by eapply evicts_trans|done].
  - destruct Hx as [-> V3]. split; [done|by eapply evicts_trans].
Qed.

(** C9. One eviction never touches what a client holds and never loses a key.
    [evict_one_clean] goes through the oldest keys in order and stops at the
    first entry that is unpinned and persisted; that entry is demoted to its disk
    copy before its slot is freed, and every other entry is left alone. It
    answers [false] only when none of the keys it looked at is evictable, and
    then nothing has changed but the counters, which account for every key it
    skipped. The map, the tier, the clients' counts and the agreement between an
    entry and its slot survive. *)
Theorem evict_one_clean_safe h (d : State) n :
  good h d → ∃ ks b d', MemoryTier.oldest_keys (mt d) n = Ret ks ∧ (length ks ≤ n)%nat ∧
    evict_one_clean d n = Ret (b, d') ∧ good h d' ∧ evicts h d d' ∧ scanned d d' ks b.
Proof. apply evict_one_clean_spec. Qed.

(** [evict_for_space] ends, with room or with a reason. Whatever the
    pressure it never panics and never evicts a held entry; when it answers [Ok]
    the requested bytes fit the capacity and at most [max_attempts] entries were
    evicted; when it fails there is still no room, and either the attempts are
    used up or no key among the [EVICT_SCAN_MAX] oldest can be evicted. *)
Theorem evict_for_space_ends h (d : State) needed max_attempts :
  good h d → is_u 32 needed → ∃ x d', evict_for_space d needed max_attempts = Ret (x, d') ∧
    good h d' ∧ evicts h d d' ∧ spaced d d' needed max_attempts x.
Proof. intros G Hn. by apply evict_loop_spec. Qed.

Lemma evict_and_insert_spec h (d : State) key size max_attempts :
  good h d → 0 < size → is_u 32 size →
  ∃ x d', evict_and_insert d key size max_attempts = Ret (x, d') ∧ good h d' ∧
    match view d !! key with
    | Some _ => x = Err (AlreadyExists key) ∧ d' = d
    | None => inserted h d d' key size x
    end.
Proof.
  intros G H0 Hu. unfold evict_and_insert, MemoryTier.contains.
  rewrite (MemoryTier.ok_init _ (g_mt _ _ G)). simpl.
  destruct (view d !! key) as [v|] eqn:Hv; pose proof Hv as Hs; unfold MemoryTier.view in Hs; rewrite lookup_fmap in Hs;
    destruct (MemoryTier.slots _ !! key); simplify_eq/=.
  - by exists (Err (AlreadyExists key)), d.
  - by apply insert_loop_spec.
Qed.

(** [evict_and_insert] gives a key its one slot. A key that has a slot is
    refused with [AlreadyExists] before anything is evicted; otherwise the call
    ends after at most [max_attempts] rounds, either with the new slot the only
    addition to the tier, or with [AllocationFailed] and the tier as eviction
    left it. Held entries keep their slots on every path. *)
Theorem evict_and_insert_safe h (d : State) key size max_attempts :
  good h d → 0 < size → is_u 32 size →
  ∃ x d', evict_and_insert d key size max_attempts = Ret (x, d') ∧ good h d' ∧
    match view d !! key with
    | Some _ => x = Err (AlreadyExists key) ∧ d' = d
    | None => inserted h d d' key size x
    end.
Proof. apply evict_and_insert_spec. Qed.

End laws.

(** ** A concrete cache *)

Definition no_counts : Counters := mkCounters 0 0 0 0.

(** Key 1 in its slot of [MemoryTier.one_entry], written through to offset 8192. *)
Lemma cache1 : ∃ m : DispatchMap.Map EvictionLru.EvictionState,
  good DispatchMap.nobody (mkState m MemoryTier.one_entry no_counts) ∧ DispatchMap.is_evictable m 1 = true.
Proof.
  destruct (DispatchMap.insert_tracked_spec DispatchMap.map0 _ 0 ∅ 1
    (λ hd, DispatchMap.mkEntry (DispatchMap.MemoryTier 65536 5000 (Some 8192)) 1 0 0 hd 0 0) DispatchMap.map0_ok)
    as (s & i & E & O); [done|done| |].
  { intros hd. split; [done|]. split; simpl; [unfold u32_max; lia|auto]. }
  eexists. split; [split; [by eexists _, _, _| |apply MemoryTier.one_entry_ok|]|].
  - intros k. simpl. destruct (decide (k = 1)) as [->|]; [by rewrite lookup_insert_eq|by rewrite lookup_insert_ne].
  - intros k e ptr sz so. simpl. destruct (decide (k = 1)) as [->|]; [|by rewrite lookup_insert_ne].
    rewrite lookup_insert_eq. intros [= <-] [= <- <- <-]. reflexivity.
  - unfold DispatchMap.is_evictable. simpl. by rewrite lookup_insert_eq.
Qed.

Lemma evict_one_clean_safe_witness : ∃ m d',
  evict_one_clean (mkState (S1:=EvictionLru.EvictionState) m MemoryTier.one_entry no_counts) 4 = Ret (true, d') ∧
  MemoryTier.view (mt d') !! 1 = None.
Proof.
  destruct cache1 as (m & G & Hm).
  destruct (evict_one_clean_safe DispatchMap.nobody _ 4 G) as (ks & b & d' & Ek & _ & E & _ & _ & Sc).
  change (MemoryTier.oldest_keys _ _) with (Ret (A:=list Z) [1]) in Ek. assert (ks = [1]) as -> by congruence.
  exists m, d'. destruct b.
  - split; [exact E|]. destruct Sc as (pre & k & post & p & sz & Hks & _ & _ & _ & -> & _).
    destruct pre as [|? [|? ?]]; [injection Hks as <- _; apply lookup_delete_eq|discriminate Hks..].
  - destruct Sc as (_ & _ & Hf & _). apply Forall_inv in Hf. simpl in Hf. congruence.
Defined.

Lemma evict_for_space_ends_witness : ∃ m x d',
  evict_for_space (mkState (S1:=EvictionLru.EvictionState) m MemoryTier.one_entry no_counts) 900000 10 = Ret (x, d').
Proof.
  destruct cache1 as (m & G & Hm).
  destruct (evict_for_space_ends DispatchMap.nobody _ 900000 10 G) as (x & d' & E & _); [split; lia|].
  exists m, x, d'. exact E.
Defined.

Lemma evict_and_insert_safe_witness : ∃ m d',
  evict_and_insert (mkState (S1:=EvictionLru.EvictionState) m MemoryTier.one_entry no_counts) 1 100 10
  = Ret (Err (AlreadyExists 1), d').
Proof.
  destruct cache1 as (m & G & Hm).
  destruct (evict_and_insert_safe DispatchMap.nobody _ 1 100 10 G) as (x & d' & E & _ & Hx); [lia|split; lia|].
  exists m, d'. change (x = Err (AlreadyExists 1) ∧ d' = mkState m MemoryTier.one_entry no_counts) in Hx.
  rewrite <- (proj1 Hx). exact E.
Defined.

End Dispatcher.
