(* ===== verification/StorePath.v ===== *)
(** The dispatcher's store, load and remove paths
    ([components/dispatcher/src/lib.rs], [background.rs]): the dispatch map, the
    memory tier, the extent managers, the ledger of write-through pins and the
    writer threads working on one cache.

    A call of the dispatcher is one step. A writer's job is four steps (start,
    reserve, write, finish), so that any call can run while a job holds its slot
    or its extent. Memory is a function from addresses to bytes; a drive's
    contents are kept by extent. Sleeping and polling are arguments: how often a
    loop goes round before its deadline passes. The log, the eviction events
    sent to subscribers and the statistics other than the eviction counters are
    write-only and are left out. *)

From S2P Require Import Prelude LruList EvictionPolicy FreeList MemoryTier DispatchMap Dispatcher Pins ExtentStore.

Module StorePath.
Import Policy WriteThroughPins ExtentStore.
Local Open Scope Z_scope.

Abbreviation res A := (Dispatcher.res A).

(** * Memory *)

Definition slice (memory : Z → Z) (ptr size : Z) : list Z :=
  (λ i : nat, memory (ptr + Z.of_nat i)) <$> seq 0 (Z.to_nat size).

Definition store_bytes (memory : Z → Z) (ptr : Z) (bytes : list Z) : Z → Z := λ a,
  if (ptr <=? a) && (a <? ptr + Z.of_nat (length bytes))
  then default 0 (bytes !! Z.to_nat (a - ptr)) else memory a.

(** Region [i] gets the bytes of the slot behind those of the regions before it,
    as far as the slot goes; an exhausted slot ends the copy. *)
Fixpoint scatter (slot : list Z) (off : Z) (regions : list Z) : list (list Z) :=
  match regions with
  | [] => []
  | region :: regions =>
      let rest := Z.max 0 (Z.of_nat (length slot) - off) in
      if rest =? 0 then []
      else take (Z.to_nat (Z.min region rest)) (drop (Z.to_nat off) slot) :: scatter slot (off + region) regions
  end.

(** * The components together *)

Record WriteJob := mkJob { job_key : Z; job_size : Z; device_index : nat }.

(** Where a writer thread is in [run_write_job]; [own] tells an [Owned] job
    from an [Untracked] one. *)
Inductive Worker (H : Type) :=
| Idle
| Started (own : bool) (job : WriteJob)
| Reading (own : bool) (job : WriteJob) (mem_ptr : Z) (handle : H)
| Written (own : bool) (job : WriteJob) (written : option Z).

Arguments Idle {H}.
Arguments Started {H}.
Arguments Reading {H}.
Arguments Written {H}.

(** How a GPU copy goes: not issued, issued but not completed, or done. *)
Inductive Dma := DmaFailed | SyncFailed | DmaDone.

(** [next_store_drive]: the thread's cursor and the global seed. *)
Definition next_store_drive (cursor : option Z) (seed num_drives : Z) : Z * option Z * Z :=
  if num_drives <=? 1 then (0, cursor, seed)
  else
    let '(cur, seed) := match cursor with
                        | Some cur => (cur, seed)
                        | None => (seed, (seed + 1) mod 2 ^ 64)
                        end in
    (cur mod num_drives, Some ((cur + 1) mod 2 ^ 64), seed).

Section ops.
Context {S1 S2 E : Type} `{P1 : IEvictionPolicy S1, P2 : IEvictionPolicy S2, X : IExtentManager E}.

Record Drive := mkDrive { block_size : Z; extent_mgr : E; blocks : gmap Z (list Z) }.

Record Writer := mkWriter { queue : list WriteJob; worker : Worker WriteHandle }.

Record World := mkWorld {
  dm : DispatchMap.Map S1;
  mt : MemoryTier.Tier S2;
  counters : Dispatcher.Counters;
  drives : list Drive;
  pins : gmap Z PinState;
  failed : gset Z;
  writers : list Writer;
  memory : Z → Z
}.

Definition set_dm (w : World) m : World :=
  mkWorld m (mt w) (counters w) (drives w) (pins w) (failed w) (writers w) (memory w).
Definition set_mt (w : World) t : World :=
  mkWorld (dm w) t (counters w) (drives w) (pins w) (failed w) (writers w) (memory w).
Definition set_drive (w : World) (i : nat) d : World :=
  mkWorld (dm w) (mt w) (counters w) (<[i := d]> (drives w)) (pins w) (failed w) (writers w) (memory w).
Definition set_pins (w : World) ks : World :=
  mkWorld (dm w) (mt w) (counters w) (drives w) ks (failed w) (writers w) (memory w).
Definition set_failed (w : World) f : World :=
  mkWorld (dm w) (mt w) (counters w) (drives w) (pins w) f (writers w) (memory w).
Definition set_writer (w : World) (i : nat) x : World :=
  mkWorld (dm w) (mt w) (counters w) (drives w) (pins w) (failed w) (<[i := x]> (writers w)) (memory w).
Definition set_memory (w : World) f : World :=
  mkWorld (dm w) (mt w) (counters w) (drives w) (pins w) (failed w) (writers w) f.

Definition disp (w : World) : Dispatcher.State S1 S2 := Dispatcher.mkState (dm w) (mt w) (counters w).
Definition set_disp (w : World) (d : Dispatcher.State S1 S2) : World :=
  mkWorld (Dispatcher.dm d) (Dispatcher.mt d) (Dispatcher.counters d) (drives w) (pins w) (failed w) (writers w) (memory w).

(** [let _ = mt.remove(key)]. *)
Definition mt_remove (w : World) (key : Z) : outcome World :=
  '(_, t) ← MemoryTier.remove (mt w) key; Ret (set_mt w t).

(** [let _ = dm.release_read(key)]. *)
Definition dm_release (w : World) (key : Z) : World := set_dm w (DispatchMap.release_read (dm w) key).2.

(** [select_drive], then [let _ = extent_mgr.remove_extent(raw)]. *)
Definition free_extent (w : World) (loc : Z) : outcome World :=
  match Location.select_drive (drives w) loc with
  | Some (drive, raw) =>
      '(_, e) ← remove_extent (extent_mgr drive) raw;
      Ret (set_drive w (Z.to_nat (Location.decode_loc loc).1) (mkDrive (block_size drive) e (blocks drive)))
  | None => Ret w
  end.

(** ** Store *)

(** [reserve_memory]; [polls] is how often the deadline has not passed yet after
    a failed attempt, 0 being the zero budget. *)
Fixpoint reserve_loop (polls : nat) (w : World) (key size : Z) (max_attempts : nat) : outcome (res Z * World) :=
  '(x, d) ← Dispatcher.evict_and_insert (disp w) key size max_attempts;
  let w := set_disp w d in
  match x, polls with
  | Err Dispatcher.AllocationFailed, S polls => reserve_loop polls w key size max_attempts
  | _, _ => Ret (x, w)
  end.

Definition reserve_memory (w : World) (key size : Z) (max_attempts polls : nat) : outcome (res Z * World) :=
  if size =? 0 then Ret (Err Dispatcher.InvalidParameter, w)
  else reserve_loop polls w key size max_attempts.

(** Memory that a failed copy may have reached is [junk]. *)
Definition copy_gpu_to_memory_async (w : World) (key : Z) (regions : list (list Z)) (dma : Dma) (junk : list Z) :
    outcome (res unit * World) :=
  '(slot, t) ← MemoryTier.get (mt w) key;
  let w := set_mt w t in
  match slot with
  | None => Ret (Err (Dispatcher.KeyNotFound key), w)
  | Some (mem_ptr, slot_size) =>
      let total := Z.of_nat (length (concat regions)) in
      if slot_size <? total then Ret (Err Dispatcher.InvalidParameter, w)
      else
        let reached := take (Z.to_nat total) junk in
        match dma with
        | DmaFailed =>
            w ← mt_remove (set_memory w (store_bytes (memory w) mem_ptr reached)) key;
            Ret (Err Dispatcher.IoError, w)
        | SyncFailed => Ret (Err Dispatcher.IoError, set_memory w (store_bytes (memory w) mem_ptr reached))
        | DmaDone => Ret (Ok (), set_memory w (store_bytes (memory w) mem_ptr (concat regions)))
        end
  end.

(** [ParallelBackgroundWriter::enqueue]; without writers the job is refused. *)
Definition enqueue (w : World) (job : WriteJob) : bool * World :=
  let idx := (device_index job mod length (writers w))%nat in
  match writers w !! idx with
  | Some x => (true, set_writer w idx (mkWriter (queue x ++ [job]) (worker x)))
  | None => (false, w)
  end.

Definition copy_gpu_to_memory_completed (w : World) (key size : Z) (device : nat) : outcome (res unit * World) :=
  '(slot, t) ← MemoryTier.get (mt w) key;
  let w := set_mt w t in
  match slot with
  | None => Ret (Err (Dispatcher.KeyNotFound key), w)
  | Some (mem_ptr, _) =>
      '(x, m) ← DispatchMap.create_memory_tier_entry (dm w) key mem_ptr size;
      let w := set_dm w m in
      match x with
      | Err (DispatchMap.AlreadyExists k) =>
          '(r, m) ← DispatchMap.lookup (dm w) key;
          let w := set_dm w m in
          let '(live, w) :=
            match r with
            | Ok DispatchMap.NotExist => (false, w)
            | Ok (DispatchMap.FoundMemory pointer _) => (pointer =? mem_ptr, dm_release w key)
            | Ok (DispatchMap.FoundBlock _) => (false, dm_release w key)
            | Err _ => (true, w)
            end in
          w ← if (live : bool) then Ret w else mt_remove w key;
          Ret (Err (Dispatcher.AlreadyExists k), w)
      | Err _ => w ← mt_remove w key; Ret (Err Dispatcher.IoError, w)
      | Ok _ =>
          let '(x, m) := DispatchMap.downgrade_reference (dm w) key in
          let w := set_dm w m in
          match x with
          | Err _ => Ret (Err Dispatcher.IoError, w)
          | Ok _ =>
              let '(queued, w) := enqueue w (mkJob key size device) in
              Ret (Ok (), set_pins w (pin (pins w) key queued))
          end
      end
  end.

Definition release_memory (w : World) (key : Z) : outcome (res unit * World) :=
  '(x, t) ← MemoryTier.remove (mt w) key;
  Ret (match x with
       | Ok _ | Err (MemoryTier.KeyNotFound _) => Ok ()
       | Err _ => Err Dispatcher.IoError
       end, set_mt w t).

(** One GPU region; the copy and its synchronisation are both [dma]. *)
Definition populate (w : World) (key : Z) (bytes : list Z) (dma : Dma) (junk : list Z) (device max_attempts polls : nat) :
    outcome (res unit * World) :=
  let size := Z.of_nat (length bytes) in
  if size =? 0 then Ret (Err Dispatcher.InvalidParameter, w)
  else
    '(x, w) ← reserve_memory w key size max_attempts polls;
    match x with
    | Err Dispatcher.AllocationFailed => Ret (Ok (), w)
    | Err e => Ret (Err e, w)
    | Ok _ =>
        '(x, w) ← copy_gpu_to_memory_async w key [bytes] dma junk;
        match x with
        | Err e => '(_, w) ← release_memory w key; Ret (Err e, w)
        | Ok _ => copy_gpu_to_memory_completed w key size device
        end
    end.

(** ** References *)

Definition dm_error (e : DispatchMap.DispatchMapError) : Dispatcher.DispatcherError :=
  match e with
  | DispatchMap.KeyNotFound k => Dispatcher.KeyNotFound k
  | DispatchMap.Timeout _ => Dispatcher.Timeout
  | _ => Dispatcher.IoError
  end.

Definition take_pin (w : World) (key : Z) : res unit * World :=
  let '(x, m) := DispatchMap.take_read (dm w) key in
  (match x with Ok _ => Ok () | Err e => Err (dm_error e) end, set_dm w m).

Definition unpin (w : World) (key : Z) : res unit * World :=
  let '(x, m) := DispatchMap.release_read (dm w) key in
  (match x with
   | Ok _ => Ok ()
   | Err (DispatchMap.KeyNotFound k) | Err (DispatchMap.RefCountUnderflow k) => Err (Dispatcher.KeyNotFound k)
   | Err _ => Err Dispatcher.IoError
   end, set_dm w m).

Definition touch (w : World) (key : Z) : outcome (res unit * World) :=
  '(x, m) ← DispatchMap.touch (dm w) key;
  let w := set_dm w m in
  match x with
  | Err _ => Ret (Err (Dispatcher.KeyNotFound key), w)
  | Ok _ => t ← MemoryTier.touch (mt w) key; Ret (Ok (), set_mt w t)
  end.

Definition LOOKUP_RETRIES : nat := 5.

Fixpoint lookup_retry (retries : nat) (m : DispatchMap.Map S1) (key : Z) :
    outcome (DispatchMap.res DispatchMap.LookupResult * DispatchMap.Map S1) :=
  '(lk, m) ← DispatchMap.lookup m key;
  match lk, retries with
  | Err _, S retries => lookup_retry retries m key
  | _, _ => Ret (lk, m)
  end.

Definition check (w : World) (key : Z) : outcome (res bool * World) :=
  '(lk, m) ← lookup_retry LOOKUP_RETRIES (dm w) key;
  let w := set_dm w m in
  match lk with
  | Ok DispatchMap.NotExist => Ret (Ok false, w)
  | Ok _ => Ret (Ok true, dm_release w key)
  | Err (DispatchMap.Timeout _) => Ret (Err Dispatcher.Timeout, w)
  | Err _ => Ret (Err Dispatcher.IoError, w)
  end.

(** ** Remove *)

(** The lookups that find the extent: where it is, and the memory state the
    entry was flipped from. *)
Definition find_extent (w : World) (key : Z) : outcome (option (option Z * option (Z * Z)) * World) :=
  '(r, m) ← DispatchMap.lookup (dm w) key;
  let w := set_dm w m in
  match r with
  | Err _ => Ret (None, w)
  | Ok DispatchMap.NotExist => Ret (Some (None, None), w)
  | Ok (DispatchMap.FoundBlock offset) => Ret (Some (Some offset, None), dm_release w key)
  | Ok (DispatchMap.FoundMemory pointer size) =>
      let '(converted, m) := DispatchMap.convert_memory_tier_to_block (dm w) key in
      let w := dm_release (set_dm w m) key in
      match converted with
      | Err _ => Ret (Some (None, None), w)
      | Ok _ =>
          '(r, m) ← DispatchMap.lookup (dm w) key;
          let w := set_dm w m in
          match r with
          | Ok (DispatchMap.FoundBlock offset) => Ret (Some (Some offset, Some (pointer, size)), dm_release w key)
          | Ok (DispatchMap.FoundMemory _ _) => Ret (Some (None, None), dm_release w key)
          | _ => Ret (Some (None, None), w)
          end
      end
  end.

(** After the entry is gone: the slot, then the extent. *)
Definition free_removed (w : World) (key : Z) (job_frees_slot : bool) (block_offset : option Z) :
    outcome (res unit * World) :=
  w ← if job_frees_slot then Ret w else mt_remove w key;
  w ← match block_offset with Some loc => free_extent w loc | None => Ret w end;
  Ret (Ok (), w).

Definition remove (w : World) (key : Z) : outcome (res unit * World) :=
  '(found, w) ← find_extent w key;
  match found with
  | None => Ret (Err (Dispatcher.KeyNotFound key), w)
  | Some (block_offset, flipped_memory_tier) =>
      '(x, m) ← DispatchMap.remove (dm w) key;
      let w := set_dm w m in
      match x with
      | Ok _ => free_removed w key false block_offset
      | Err (DispatchMap.ActiveReferences _) =>
          '(taken, m, ks) ← remove_entry (dm w) (pins w) key;
          let w := set_pins (set_dm w m) ks in
          match taken with
          | Some job_frees_slot => free_removed w key job_frees_slot block_offset
          | None =>
              let w := match flipped_memory_tier with
                       | Some (pointer, size) =>
                           set_dm w (DispatchMap.promote_block_to_memory_tier (dm w) key pointer size).2
                       | None => w
                       end in
              Ret (Err (Dispatcher.KeyNotFound key), w)
          end
      | Err _ => Ret (Err (Dispatcher.KeyNotFound key), w)
      end
  end.

(** ** Load *)

(** Bytes of a drive from an extent on; [tail] is what follows the extent's
    data on the device. *)
Definition read_drive (drive : Drive) (raw size : Z) (tail : list Z) : list Z :=
  take (Z.to_nat size) (default [] (blocks drive !! raw) ++ tail).

(** The pieces that reach the GPU regions; [io] tells whether the copies work. *)
Definition serve_memory_tier_to_gpu (w : World) (pointer slot_size : Z) (regions : list Z) (io : bool) :
    res (list (list Z)) :=
  if io then Ok (scatter (slice (memory w) pointer slot_size) 0 regions) else Err Dispatcher.IoError.

Definition served_bytes (x : res (list (list Z))) : res (list Z) :=
  match x with Ok pieces => Ok (concat pieces) | Err e => Err e end.

(** The end of a promotion that has its slot: the read, then the transition. *)
Definition read_and_promote (w : World) (key offset mem_ptr size : Z) (io : bool) (tail : list Z) :
    outcome (res (list Z) * World) :=
  match Location.select_drive (drives w) offset with
  | None => w ← mt_remove w key; Ret (Err Dispatcher.IoError, w)
  | Some (drive, raw) =>
      let data := read_drive drive raw size tail in
      let w := set_memory w (store_bytes (memory w) mem_ptr data) in
      if negb io then w ← mt_remove w key; Ret (Err Dispatcher.IoError, w)
      else
        let '(x, m) := DispatchMap.promote_block_to_memory_tier (dm w) key mem_ptr size in
        let w := set_dm w m in
        match x with
        | Err _ => w ← mt_remove w key; Ret (Err Dispatcher.IoError, w)
        | Ok _ => Ret (Ok data, w)
        end
  end.

(** [staging]: a staging buffer of at least that size exists. *)
Definition promote_and_serve (w : World) (key offset size : Z) (staging io : bool) (tail : list Z) (max_attempts : nat) :
    outcome (res (list Z) * World) :=
  '(x, d) ← Dispatcher.evict_and_insert (disp w) key size max_attempts;
  let w := set_disp w d in
  match x with
  | Err Dispatcher.AllocationFailed =>
      if bool_decide (drives w = []) || negb staging then Ret (Err Dispatcher.AllocationFailed, w)
      else
        match Location.select_drive (drives w) offset with
        | Some (drive, raw) =>
            if io then Ret (Ok (read_drive drive raw size tail), w) else Ret (Err Dispatcher.IoError, w)
        | None => Ret (Err Dispatcher.IoError, w)
        end
  | Err e => Ret (Err e, w)
  | Ok mem_ptr =>
      match drives w with
      | [] =>
          '(_, m) ← DispatchMap.create_memory_tier_entry (dm w) key mem_ptr size;
          let m := (DispatchMap.release_write m key).2 in
          Ret (if io then Ok (slice (memory w) mem_ptr size) else Err Dispatcher.IoError, set_dm w m)
      | _ => read_and_promote w key offset mem_ptr size io tail
      end
  end.

(** [serve_concurrently_promoted], its last round: the one that finds the entry
    in memory or the deadline passed. *)
Definition serve_concurrently_promoted (w : World) (key : Z) (regions : list Z) (io : bool) :
    outcome (res (list (list Z)) * World) :=
  '(r, m) ← DispatchMap.lookup (dm w) key;
  let w := set_dm w m in
  match r with
  | Ok (DispatchMap.FoundMemory pointer slot_size) =>
      let x := serve_memory_tier_to_gpu w pointer slot_size regions io in
      '(_, m) ← DispatchMap.touch (dm (dm_release w key)) key;
      Ret (x, set_dm w m)
  | Ok (DispatchMap.FoundBlock _) => Ret (Err (Dispatcher.KeyNotFound key), dm_release w key)
  | Ok DispatchMap.NotExist => Ret (Err (Dispatcher.KeyNotFound key), w)
  | Err _ => Ret (Err Dispatcher.IoError, w)
  end.

(** [lookup]: the bytes that reach the GPU. *)
Definition lookup (w : World) (key size : Z) (staging io : bool) (tail : list Z) (max_attempts : nat) :
    outcome (res (list Z) * World) :=
  '(r, m) ← DispatchMap.lookup (dm w) key;
  let w := set_dm w m in
  match r with
  | Err _ | Ok DispatchMap.NotExist => Ret (Err (Dispatcher.KeyNotFound key), w)
  | Ok (DispatchMap.FoundMemory pointer slot_size) =>
      let x := served_bytes (serve_memory_tier_to_gpu w pointer slot_size [size] io) in
      let w := dm_release w key in
      t ← MemoryTier.touch (mt w) key;
      Ret (x, set_mt w t)
  | Ok (DispatchMap.FoundBlock offset) =>
      '(x, w) ← promote_and_serve w key offset size staging io tail max_attempts;
      '(x, w) ← match x with
                | Err (Dispatcher.AlreadyExists _) =>
                    '(x, w) ← serve_concurrently_promoted w key [size] io; Ret (served_bytes x, w)
                | _ => Ret (x, w)
                end;
      Ret (x, dm_release w key)
  end.

(** ** Prefetch *)

(** An entry only on a drive, where it is and how much of it is read. *)
Record Prefetch := mkPrefetch { f_key : Z; f_offset : Z; f_size : Z }.

(** The first pass of [promote_to_memory_tier]: entries in memory are touched,
    those on a drive listed. *)
Definition prefetch_entry (w : World) (key : Z) : outcome (list Prefetch * World) :=
  '(r, m) ← DispatchMap.lookup (dm w) key;
  let w := set_dm w m in
  match r with
  | Ok (DispatchMap.FoundBlock offset) =>
      let w := dm_release w key in
      size ← DispatchMap.entry_size (dm w) key;
      Ret (match size with Ok size => [mkPrefetch key offset size] | Err _ => [] end, w)
  | Ok (DispatchMap.FoundMemory _ _) =>
      '(_, m) ← DispatchMap.touch (dm (dm_release w key)) key;
      t ← MemoryTier.touch (mt w) key;
      Ret ([], set_mt (set_dm w m) t)
  | _ => Ret ([], w)
  end.

Fixpoint prefetch_entries (w : World) (keys : list Z) : outcome (list Prefetch * World) :=
  match keys with
  | [] => Ret ([], w)
  | key :: keys =>
      '(e, w) ← prefetch_entry w key;
      '(es, w) ← prefetch_entries w keys;
      Ret (e ++ es, w)
  end.

(** One entry: room, a slot, the read, the transition. *)
Definition prefetch (w : World) (e : Prefetch) (io : bool) (tail : list Z) (max_attempts : nat) : outcome World :=
  let key := f_key e in
  let size := f_size e in
  '(x, d) ← Dispatcher.evict_for_space (disp w) size max_attempts;
  let w := set_disp w d in
  match x with
  | Err _ => Ret w
  | Ok _ =>
      '(p, t) ← MemoryTier.insert (mt w) key size;
      let w := set_mt w t in
      match p with
      | Err _ => Ret w
      | Ok mem_ptr =>
          match drives w with
          | [] =>
              let '(x, m) := DispatchMap.promote_block_to_memory_tier (dm w) key mem_ptr size in
              match x with
              | Ok _ => Ret (set_dm w m)
              | Err _ => mt_remove (set_dm w m) key
              end
          | _ => '(_, w) ← read_and_promote w key (f_offset e) mem_ptr size io tail; Ret w
          end
      end
  end.

(** [read] and [tail] tell how the read of a key goes. *)
Fixpoint prefetch_all (w : World) (es : list Prefetch) (read : Z → bool) (tail : Z → list Z) (max_attempts : nat) : outcome World :=
  match es with
  | [] => Ret w
  | e :: es =>
      w ← prefetch w e (read (f_key e)) (tail (f_key e)) max_attempts;
      prefetch_all w es read tail max_attempts
  end.

Definition on_drive (es : list Prefetch) (d : nat) : list Prefetch :=
  filter (λ e, Z.to_nat (Location.decode_loc (f_offset e)).1 = d) es.

(** The drives' threads, one after the other; a drive whose channel cannot be
    checked out is left out. *)
Fixpoint prefetch_drives (w : World) (ds : list nat) (es : list Prefetch) (checkout : nat → bool) (read : Z → bool) (tail : Z → list Z)
    (max_attempts : nat) : outcome World :=
  match ds with
  | [] => Ret w
  | d :: ds =>
      w ← if checkout d then prefetch_all w (on_drive es d) read tail max_attempts else Ret w;
      prefetch_drives w ds es checkout read tail max_attempts
  end.

Definition promote_to_memory_tier (w : World) (keys : list Z) (checkout : nat → bool) (read : Z → bool) (tail : Z → list Z)
    (max_attempts : nat) : outcome World :=
  '(es, w) ← prefetch_entries w keys;
  match drives w with
  | [] => prefetch_all w es read tail max_attempts
  | _ => prefetch_drives w (seq 0 (length (drives w))) es checkout read tail max_attempts
  end.

(** ** Write-through *)

Definition set_worker (w : World) (i : nat) (x : Writer) (k : Worker WriteHandle) : World :=
  set_writer w i (mkWriter (queue x) k).

(** A writer takes its next job: [pins.start]. *)
Definition job_start (w : World) (i : nat) : World :=
  match writers w !! i with
  | Some (mkWriter (job :: rest) Idle) =>
      let '(s, ks) := start (pins w) (job_key job) in
      set_writer (set_pins w ks) i
        (mkWriter rest match s with
                       | Stale => Idle
                       | Untracked => Started false job
                       | Owned => Started true job
                       end)
  | _ => w
  end.

(** [write_through] up to the reservation. *)
Definition job_reserve (w : World) (i : nat) : outcome World :=
  match writers w !! i with
  | Some (mkWriter _ (Started own job) as x) =>
      match MemoryTier.peek (mt w) (job_key job) with
      | None => Ret (set_worker w i x (Written own job None))
      | Some (mem_ptr, _) =>
          match drives w with
          | [] =>
              off ← mul_w 64 (job_key job) 4096;
              Ret (set_worker w i x (Written own job (Some off)))
          | _ =>
              let drive_idx := (device_index job mod length (drives w))%nat in
              drive ← vec_get (drives w) drive_idx;
              aligned_bytes ← FreeList.next_multiple_of (job_size job) (block_size drive);
              '(h, e) ← reserve_extent (extent_mgr drive) (job_key job) (aligned_bytes mod 2 ^ 32);
              let w := set_drive w drive_idx (mkDrive (block_size drive) e (blocks drive)) in
              Ret (set_worker w i x match h with
                                    | None => Written own job None
                                    | Some h => Reading own job mem_ptr h
                                    end)
          end
      end
  | _ => Ret w
  end.

(** The device write, then [publish]; a failed write drops the handle. *)
Definition job_write (w : World) (i : nat) (io : bool) : outcome World :=
  match writers w !! i with
  | Some (mkWriter _ (Reading own job mem_ptr h) as x) =>
      let drive_idx := (device_index job mod length (drives w))%nat in
      drive ← vec_get (drives w) drive_idx;
      let offset := extent_offset h in
      if io then
        let data := slice (memory w) mem_ptr (job_size job) in
        '(_, e) ← publish (extent_mgr drive) h;
        loc ← Location.encode_loc (Z.of_nat drive_idx) offset;
        let w := set_drive w drive_idx (mkDrive (block_size drive) e (<[offset := data]> (blocks drive))) in
        Ret (set_worker w i x (Written own job (Some loc)))
      else
        e ← abort (extent_mgr drive) h;
        let w := set_drive w drive_idx (mkDrive (block_size drive) e (delete offset (blocks drive))) in
        Ret (set_worker w i x (Written own job None))
  | _ => Ret w
  end.

(** The end of [run_write_job]. *)
Definition job_finish (w : World) (i : nat) : outcome World :=
  match writers w !! i with
  | Some (mkWriter _ (Written own job written) as x) =>
      let key := job_key job in
      let landed := bool_decide (is_Some written) in
      let w := set_worker w i x Idle in
      let settle w := set_dm (set_failed w (record_write (failed w) key landed))
                             (Dispatcher.settle_write_through (dm w) key written) in
      if negb own then Ret (settle w)
      else
        let '(owned, ks) := finish (pins w) key in
        let w := set_pins w ks in
        if (owned : bool) then Ret (settle w)
        else
          w ← mt_remove w key;
          match written, drives w with
          | Some loc, _ :: _ => free_extent w loc
          | _, _ => Ret w
          end
  | _ => Ret w
  end.

(** One step of writer [i], whatever it is at; [io] is the device's answer if
    it writes. *)
Definition job_step (w : World) (i : nat) (io : bool) : outcome World :=
  match writers w !! i with
  | Some (mkWriter _ Idle) => Ret (job_start w i)
  | Some (mkWriter _ (Started _ _)) => job_reserve w i
  | Some (mkWriter _ (Reading _ _ _ _)) => job_write w i io
  | Some (mkWriter _ (Written _ _ _)) => job_finish w i
  | None => Ret w
  end.

Definition in_flight (x : Writer) : nat :=
  (length (queue x) + match worker x with Idle => 0 | _ => 1 end)%nat.

(** [worker_loop] of writer [i] until nothing of it is in flight; a job takes at
    most four steps, and [io] answers the device writes in between. *)
Fixpoint worker_loop (fuel : nat) (w : World) (i : nat) (io : nat → bool) : outcome World :=
  match writers w !! i with
  | None => Ret w
  | Some x =>
      if (in_flight x =? 0)%nat then Ret w
      else match fuel with
           | O => Panic
           | S fuel => w ← job_step w i (io fuel); worker_loop fuel w i io
           end
  end.

Definition drain (w : World) (i : nat) (io : nat → bool) : outcome World :=
  match writers w !! i with
  | None => Ret w
  | Some x => worker_loop (4 * in_flight x) w i io
  end.

(** [flush]: every writer is drained. *)
Fixpoint flush (n : nat) (w : World) (io : nat → bool) : outcome World :=
  match n with
  | O => Ret w
  | S n => w ← flush n w io; drain w n io
  end.

(** [schedule_write_through]: a job that holds no pin. *)
Definition schedule_write_through (w : World) (key size : Z) (device : nat) : World :=
  (enqueue w (mkJob key size device)).2.

(** ** Background eviction *)

(** The memory-tier evictor's pass over its candidates; [quota] is the number of
    demotions after which the utilization is below the low watermark. *)
Fixpoint demote_pass (quota : nat) (w : World) (cands : list Z) : outcome World :=
  match cands with
  | [] => Ret w
  | key :: cands =>
      match DispatchMap.try_evict_to_block (dm w) key with
      | (Err _, m) => demote_pass quota (set_dm w m) cands
      | (Ok _, m) =>
          '(x, t) ← MemoryTier.remove (mt w) key;
          let w := set_mt (set_dm w m) t in
          match x with
          | Err _ => demote_pass quota w cands
          | Ok _ =>
              let w := set_disp w (Dispatcher.mkState (dm w) (mt w) (Dispatcher.count_evicted (counters w))) in
              match quota with O | S O => Ret w | S quota => demote_pass quota w cands end
          end
      end
  end.

Definition memory_tier_evictor (w : World) (scan quota : nat) : outcome World :=
  cands ← MemoryTier.oldest_keys (mt w) scan;
  demote_pass quota w cands.

Definition get_evictable_offset (w : World) (key : Z) : outcome (option Z * World) :=
  '(r, m) ← DispatchMap.lookup (dm w) key;
  let w := set_dm w m in
  match r with
  | Ok (DispatchMap.FoundBlock offset) => Ret (Some offset, dm_release w key)
  | Ok (DispatchMap.FoundMemory _ _) => Ret (None, dm_release w key)
  | _ => Ret (None, w)
  end.

(** The SSD evictor's round for one candidate. *)
Definition evict_from_ssd (w : World) (key : Z) : outcome World :=
  '(o, w) ← get_evictable_offset w key;
  match o with
  | None => Ret w
  | Some offset =>
      '(x, m) ← DispatchMap.remove (dm w) key;
      let w := set_dm w m in
      match x with
      | Err _ => Ret w
      | Ok _ => w ← mt_remove w key; free_extent w offset
      end
  end.

(** ** Maintenance *)

Definition slot_count (w : World) : nat := size (MemoryTier.slots (MemoryTier.pool (MemoryTier.state (mt w)))).

(** One pass of [clear_memory_tier] over its candidates: how many it cleared and
    how many it left. *)
Fixpoint clear_pass (w : World) (cands : list Z) (cleared pinned : nat) : outcome (nat * nat * World) :=
  match cands with
  | [] => Ret (cleared, pinned, w)
  | key :: cands =>
      '(done, m) ← match DispatchMap.try_evict_to_block (dm w) key with
                   | (Ok _, m) => Ret (true, m)
                   | (Err (DispatchMap.ActiveReferences _), m) => Ret (false, m)
                   | (Err _, m) =>
                       '(x, m) ← DispatchMap.remove m key;
                       Ret (match x with Err (DispatchMap.ActiveReferences _) => false | _ => true end, m)
                   end;
      let w := set_dm w m in
      if (done : bool) then w ← mt_remove w key; clear_pass w cands (S cleared) pinned
      else clear_pass w cands cleared (S pinned)
  end.

(** [clear_memory_tier]; [polls] as in [reserve_loop], and [fuel] bounds the
    rounds, each of which clears a slot or polls. *)
Fixpoint clear_loop (fuel polls : nat) (w : World) (pinned count : nat) : outcome (res nat * World) :=
  cands ← MemoryTier.oldest_keys (mt w) (64 + pinned);
  match cands, fuel with
  | [], _ => Ret (Ok count, w)
  | _, O => Panic
  | _, S fuel =>
      '(cleared, pinned, w) ← clear_pass w cands 0 0;
      let count := (count + cleared)%nat in
      match cleared, polls with
      | S _, _ => clear_loop fuel polls w pinned count
      | O, S polls => clear_loop fuel polls w pinned count
      | O, O => Ret (Err Dispatcher.Timeout, w)
      end
  end.

Definition clear_memory_tier (w : World) (polls : nat) : outcome (res nat * World) :=
  clear_loop (slot_count w + polls + 1) polls w 0 0.

(** [clear_all]'s listing: the keys in memory and on the drives, sorted and each
    once, and the extents. *)
Fixpoint extents_of (d : nat) (ds : list Drive) : outcome (list (nat * Z * Z)) :=
  match ds with
  | [] => Ret []
  | drive :: ds =>
      es ← for_each_extent (extent_mgr drive);
      rest ← extents_of (S d) ds;
      Ret (((λ e, (d, e.1, e.2)) <$> es) ++ rest)
  end.

Definition listing (w : World) : outcome (list Z * list (nat * Z * Z)) :=
  keys ← MemoryTier.oldest_keys (mt w) (slot_count w);
  extents ← extents_of 0 (drives w);
  Ret (merge_sort Z.le (remove_dups (keys ++ ((λ x, x.1.2) <$> extents))), extents).

Fixpoint remove_all (w : World) (keys : list Z) (gone : gset Z) : outcome (gset Z * World) :=
  match keys with
  | [] => Ret (gone, w)
  | key :: keys =>
      '(x, w) ← remove w key;
      remove_all w keys match x with Ok _ => {[key]} ∪ gone | Err _ => gone end
  end.

Fixpoint free_listed (w : World) (gone : gset Z) (extents : list (nat * Z * Z)) : outcome World :=
  match extents with
  | [] => Ret w
  | (d, key, offset) :: extents =>
      w ← if decide (key ∈ gone) then
            drive ← vec_get (drives w) d;
            '(_, e) ← remove_extent (extent_mgr drive) offset;
            Ret (set_drive w d (mkDrive (block_size drive) e (blocks drive)))
          else Ret w;
      free_listed w gone extents
  end.

(** How many were removed and how many are left; [polls] as in [reserve_loop]. *)
Fixpoint clear_all_loop (polls : nat) (w : World) (removed : nat) : outcome (nat * nat * World) :=
  '(keys, extents) ← listing w;
  '(gone, w) ← remove_all w keys ∅;
  w ← free_listed w gone extents;
  '(kept, _) ← listing w;
  let removed := (removed + size gone)%nat in
  match kept, polls with
  | _ :: _, S polls => clear_all_loop polls w removed
  | _, _ => Ret (removed, length kept, w)
  end.

Definition clear_all (w : World) (polls : nat) : outcome (nat * nat * World) := clear_all_loop polls w 0.

(** [flush_to_ssd] once the writers are idle: the number of persisted entries in
    memory, or an error when a write-through has failed. *)
Definition flush_report (w : World) : outcome (res nat * World) :=
  let '(n, f) := failed_writes (failed w) (MemoryTier.contains (mt w)) in
  let w := set_failed w f in
  if (0 <? n)%nat then Ret (Err Dispatcher.IoError, w)
  else
    keys ← MemoryTier.oldest_keys (mt w) (slot_count w);
    Ret (Ok (length (filter (λ k, DispatchMap.is_evictable (dm w) k = true) keys)), w).

Definition flush_to_ssd (w : World) (io : nat → bool) : outcome (res nat * World) :=
  w ← flush (length (writers w)) w io; flush_report w.

End ops.

Arguments Drive : clear implicits.
Arguments World S1 S2 E {X}.
Arguments Writer E {X}.

End StorePath.
