(* ===== verification/StoreInvariant.v ===== *)
(** What holds of the cache between any two steps of [StorePath]: the state of
    each key (absent, reserved, resident, cold, or left to a running job), the
    ledger against the writers' queues, and the extents against the entries. *)

From S2P Require Import Prelude LruList EvictionPolicy FreeList MemoryTier DispatchMap Dispatcher Pins ExtentStore StorePath.

Module StoreInvariant.
Import Policy WriteThroughPins ExtentStore StorePath.
Local Open Scope Z_scope.

(** What the clients know: the references they hold, the slots they have
    reserved (with the slot's size and what they copied into it), an extent a
    call is about to free, and what they have stored. *)
Record ghost := mkGhost {
  refs : Z → Z;
  pend : gmap Z (Z * option (list Z));
  loose : option (nat * Z * Z);
  cache : gmap Z (list Z)
}.

Definition job_of {H} (x : Worker H) : option WriteJob :=
  match x with
  | Idle => None
  | Started _ j | Reading _ j _ _ | Written _ j _ => Some j
  end.

Definition ledger (s : PinState) : bool * bool * bool * bool := (pinned s, queued s, running s, removed s).

Definition unpinned := (false, false, false, false).
Definition waiting := (true, true, false, false).
Definition writing := (true, false, true, false).
Definition taken_over := (false, false, true, true).

(** ** Pieces *)

Definition total (regions : list Z) : Z := foldr Z.add 0 regions.

(** The pieces together are the slot's bytes, as many as the regions take. *)
Lemma scatter_concat slot off regions :
  0 ≤ off → Forall (λ r, 0 ≤ r) regions →
  concat (scatter slot off regions) = take (Z.to_nat (total regions)) (drop (Z.to_nat off) slot).
Proof.
  intros H0 Hn. revert off H0. induction Hn as [|r regions Hr Hn IH]; intros off H0; [done|].
  assert (0 ≤ total regions) by (clear IH; induction Hn; simpl in *; lia).
  simpl. destruct (Z.eqb_spec (Z.max 0 (Z.of_nat (length slot) - off)) 0).
  - rewrite drop_ge by lia. by rewrite take_nil.
  - simpl. rewrite IH by lia. replace (Z.to_nat (off + r)) with (Z.to_nat off + Z.to_nat r)%nat by lia.
    rewrite <- drop_drop. replace (Z.to_nat (r + total regions)) with (Z.to_nat r + Z.to_nat (total regions))%nat by lia.
    rewrite <- take_take_drop. f_equal. destruct (decide (r ≤ Z.of_nat (length slot) - off)).
    + f_equal. lia.
    + rewrite !take_ge; [done|rewrite length_drop; lia..].
Qed.

(** Piece by piece, [ps] fills the regions; the last ones may get nothing. *)
Definition cut (regions : list Z) (ps : list (list Z)) : Prop :=
  ∀ j p, ps !! j = Some p → regions !! j = Some (Z.of_nat (length p)).

Lemma scatter_cut slot off regions :
  0 ≤ off → Forall (λ r, 0 ≤ r) regions → off + total regions ≤ Z.of_nat (length slot) → cut regions (scatter slot off regions).
Proof.
  intros H0 Hn. revert off H0. induction Hn as [|r regions Hr Hn IH]; intros off H0 Hl; [done|].
  assert (0 ≤ total regions) by (clear IH Hl; induction Hn; simpl in *; lia). unfold total in Hl. simpl in Hl. fold (total regions) in Hl.
  simpl. destruct (Z.eqb_spec (Z.max 0 (Z.of_nat (length slot) - off)) 0); [done|]. intros [|j] p; simpl.
  - intros [= <-]. f_equal. rewrite length_take, length_drop. lia.
  - apply IH; lia.
Qed.

(** The pieces are the stored bytes, cut at the region boundaries. *)
Definition delivers (c : gmap Z (list Z)) (k : Z) (regions : list Z) (ps : list (list Z)) : Prop :=
  c !! k = Some (concat ps) ∧ cut regions ps.

Lemma slice_take f ptr n m : 0 ≤ n ≤ m → take (Z.to_nat n) (slice f ptr m) = slice f ptr n.
Proof. intros. unfold slice. rewrite <- fmap_take. f_equal. rewrite take_seq. f_equal. lia. Qed.

Section inv.
Context {S1 S2 E : Type} `{P1 : IEvictionPolicy S1, L1 : !EvictionPolicyLaws S1,
  P2 : IEvictionPolicy S2, L2 : !EvictionPolicyLaws S2,
  X : IExtentManager E, XL : !ExtentManagerLaws E}.
(** Every store of a key has the same size. *)
Context (size_of : Z → Z).
Abbreviation World := (World S1 S2 E).
Implicit Types (w : World) (g : ghost).

Definition entry w (k : Z) : option DispatchMap.DispatchEntry := DispatchMap.entries (dm w) !! k.
Definition slot w (k : Z) : option (Z * Z) := MemoryTier.view (mt w) !! k.
Definition pin_at w (k : Z) : PinState := pin_of (pins w) k.

(** Key [k] has its bytes in the extent at [loc]. *)
Definition on_disk w (k loc : Z) (b : list Z) : Prop :=
  Z.of_nat (length b) = size_of k ∧
  ∃ d drive off, drives w !! d = Some drive ∧ Location.encode_loc (Z.of_nat d) off = Ret loc ∧
    extent (extent_mgr drive) off k ∧ blocks drive !! off = Some b.

Definition filled w (k ptr : Z) (b : list Z) : Prop := slice (memory w) ptr (size_of k) = b.

(** A slot size the entry of [k] may have: rounding it to blocks gives the
    entry's block count. *)
Definition fits (k sz : Z) : Prop :=
  size_of k ≤ sz ≤ 2 ^ 31 ∧ DispatchMap.blocks_of sz = DispatchMap.blocks_of (size_of k).

(** The slot of a key whose entry is not in memory: none, or a reservation. *)
Definition spare w g (k : Z) : Prop :=
  slot w k = None ∧ pend g !! k = None ∨
  ∃ ptr sz p, slot w k = Some (ptr, sz) ∧ pend g !! k = Some (sz, p) ∧
    ∀ b, p = Some b → fits k sz ∧ filled w k ptr b.

Definition counted w g (k : Z) (e : DispatchMap.DispatchEntry) : Prop :=
  DispatchMap.write_ref e = 0 ∧ 0 ≤ refs g k ∧
  DispatchMap.read_ref e = refs g k + Z.b2z (pinned (pin_at w k)) ∧
  DispatchMap.size_blocks e = DispatchMap.blocks_of (size_of k).

(** How far the write-through of a resident entry is. *)
Definition persisted w (k : Z) (so : option Z) (b : list Z) : Prop :=
  match so with
  | Some loc => ledger (pin_at w k) = unpinned ∧ on_disk w k loc b
  | None => ledger (pin_at w k) = waiting ∨ ledger (pin_at w k) = writing ∨
            ledger (pin_at w k) = unpinned ∧ k ∈ failed w
  end.

Inductive key_state w g (k : Z) : Prop :=
| k_absent :
    entry w k = None → refs g k = 0 → cache g !! k = None → ledger (pin_at w k) = unpinned → spare w g k →
    key_state w g k
| k_orphan v :
    entry w k = None → refs g k = 0 → cache g !! k = None → ledger (pin_at w k) = taken_over →
    slot w k = Some v → pend g !! k = None → key_state w g k
| k_resident e ptr sz so b :
    entry w k = Some e → DispatchMap.location e = DispatchMap.MemoryTier ptr sz so → counted w g k e →
    cache g !! k = Some b → slot w k = Some (ptr, sz) → pend g !! k = None → fits k sz →
    filled w k ptr b → persisted w k so b → key_state w g k
| k_cold e loc b :
    entry w k = Some e → DispatchMap.location e = DispatchMap.BlockDevice loc → counted w g k e →
    cache g !! k = Some b → ledger (pin_at w k) = unpinned → on_disk w k loc b → spare w g k → key_state w g k.

(** A job is on the queue of its drive. *)
Definition job_ok w (d : nat) (j : WriteJob) : Prop :=
  0 ≤ job_key j < u64_max ∧ job_size j = size_of (job_key j) ∧ (device_index j mod length (drives w))%nat = d.

Definition worker_ok w g (d : nat) (x : Worker WriteHandle) : Prop :=
  match x with
  | Idle => True
  | Started own j => own = true ∧ job_ok w d j ∧ running (pin_at w (job_key j)) = true
  | Reading own j ptr h =>
      own = true ∧ job_ok w d j ∧ running (pin_at w (job_key j)) = true ∧
      ∃ drive sz, drives w !! d = Some drive ∧ granted (extent_mgr drive) h (job_key j) ∧
        slot w (job_key j) = Some (ptr, sz)
  | Written own j None => own = true ∧ job_ok w d j ∧ running (pin_at w (job_key j)) = true
  | Written own j (Some loc) =>
      own = true ∧ job_ok w d j ∧ running (pin_at w (job_key j)) = true ∧
      ∃ drive off, drives w !! d = Some drive ∧ Location.encode_loc (Z.of_nat d) off = Ret loc ∧
        extent (extent_mgr drive) off (job_key j) ∧
        ∀ b, cache g !! job_key j = Some b → blocks drive !! off = Some b
  end.

(** Why an extent is not leaked: an entry records it, a job is about to hand it
    over, or the call in progress frees it. *)
Definition accounted w g (d : nat) (off k : Z) : Prop :=
  (∃ e loc, entry w k = Some e ∧ DispatchMap.stored (DispatchMap.location e) = Some loc ∧
     Location.encode_loc (Z.of_nat d) off = Ret loc) ∨
  (∃ x own j loc, writers w !! d = Some x ∧ worker x = Written own j (Some loc) ∧ job_key j = k ∧
     Location.encode_loc (Z.of_nat d) off = Ret loc) ∨
  loose g = Some (d, off, k).

Definition queued_jobs w : list WriteJob := mjoin (queue <$> writers w).

Definition jobs_of w (k : Z) : nat := length (filter (λ j, job_key j = k) (queued_jobs w)).

Definition loose_ok w g : Prop :=
  match loose g with
  | None => True
  | Some (d, off, k) =>
      entry w k = None ∧ running (pin_at w k) = false ∧
      ∃ drive, drives w !! d = Some drive ∧ extent (extent_mgr drive) off k
  end.

Record inv g w : Prop := {
  i_dm : ∃ s p L, DispatchMap.ok (dm w) s p L;
  i_mt : MemoryTier.ok (mt w);
  i_key : ∀ k, key_state w g k;
  i_len : length (writers w) = length (drives w) ∧ (0 < length (drives w) ≤ 256)%nat;
  i_drive : ∀ d drive, drives w !! d = Some drive → em_ok (extent_mgr drive) ∧ 0 < block_size drive ≤ 2 ^ 30;
  i_jobs : ∀ k, jobs_of w k = (Nat.b2n (queued (pin_at w k)) + stale (pin_at w k))%nat;
  i_queue : ∀ d x j, writers w !! d = Some x → j ∈ queue x → job_ok w d j;
  i_worker : ∀ d x, writers w !! d = Some x → worker_ok w g d (worker x);
  i_alone : ∀ d d' x x' j j', writers w !! d = Some x → writers w !! d' = Some x' →
    job_of (worker x) = Some j → job_of (worker x') = Some j' → job_key j = job_key j' → d = d';
  i_running : ∀ k, running (pin_at w k) = true → ∃ d x j, writers w !! d = Some x ∧
    job_of (worker x) = Some j ∧ job_key j = k;
  i_extents : ∀ d drive off k, drives w !! d = Some drive → extent (extent_mgr drive) off k → accounted w g d off k;
  i_loose : loose_ok w g
}.

(** * Frames *)

(** Nothing about key [k] has changed. *)
Record same_key w g w' g' (k : Z) : Prop := {
  sk_entry : entry w' k = entry w k;
  sk_slot : slot w' k = slot w k;
  sk_pin : pin_at w' k = pin_at w k;
  sk_refs : refs g' k = refs g k;
  sk_pend : pend g' !! k = pend g !! k;
  sk_cache : cache g' !! k = cache g !! k;
  sk_failed : k ∈ failed w → k ∈ failed w';
  sk_memory : ∀ ptr sz n, slot w k = Some (ptr, sz) → n ≤ sz → slice (memory w') ptr n = slice (memory w) ptr n;
  sk_disk : ∀ loc b, is_Some (entry w k) → on_disk w k loc b → on_disk w' k loc b
}.

Lemma spare_same w g w' g' k : same_key w g w' g' k → spare w g k → spare w' g' k.
Proof.
  intros [] [[? ?]|(ptr & sz & p & ? & ? & Hb)]; [left; split; congruence|right].
  exists ptr, sz, p. split_and!; [congruence..|]. intros b Hp. destruct (Hb b Hp) as [? Hf].
  split; [done|]. unfold filled, fits in *. rewrite <- Hf. naive_solver.
Qed.

Lemma key_state_same w g w' g' k : same_key w g w' g' k → key_state w g k → key_state w' g' k.
Proof.
  intros S K. pose proof (spare_same _ _ _ _ _ S) as Sp. destruct S.
  destruct K as [He Hr Hc Hl Hs|v He Hr Hc Hl Hs Hp|e ptr sz so b He El Hc Hb Hs Hp Hz Hf Hw|e loc b He El Hc Hb Hl Hd Hs].
  - apply k_absent; [congruence..|auto].
  - by eapply (k_orphan _ _ _ v); congruence.
  - apply (k_resident _ _ _ e ptr sz so b); try congruence.
    + unfold counted in *. by rewrite sk_pin0, sk_refs0.
    + unfold filled in *. rewrite <- Hf. by eapply sk_memory0, Hz.
    + unfold persisted in *. rewrite sk_pin0. destruct so; [|naive_solver].
      destruct Hw. split; [done|]. apply sk_disk0; [by exists e|done].
  - apply (k_cold _ _ _ e loc b); try congruence; [| |auto].
    + unfold counted in *. by rewrite sk_pin0, sk_refs0.
    + apply sk_disk0; [by exists e|done].
Qed.

(** What the writers and the extents see of key [k] has not changed. *)
Record steady w g w' g' (k : Z) : Prop := {
  st_jobs : (Nat.b2n (queued (pin_at w' k)) + stale (pin_at w' k) =
             Nat.b2n (queued (pin_at w k)) + stale (pin_at w k))%nat;
  st_running : running (pin_at w' k) = running (pin_at w k);
  st_slot : running (pin_at w k) = true → slot w' k = slot w k;
  st_cache : running (pin_at w k) = true → ∀ b, cache g' !! k = Some b → cache g !! k = Some b;
  st_extents : ∀ d drive off, drives w !! d = Some drive → extent (extent_mgr drive) off k →
    accounted w g d off k → accounted w' g' d off k
}.

(** What a running job sees of its key. *)
Definition sees w g w' g' (k : Z) : Prop :=
  running (pin_at w' k) = running (pin_at w k) ∧
  (running (pin_at w k) = true → slot w' k = slot w k ∧ ∀ b, cache g' !! k = Some b → cache g !! k = Some b).

Lemma worker_sees w g w' g' d x :
  drives w' = drives w → (∀ j, job_of x = Some j → sees w g w' g' (job_key j)) → worker_ok w g d x → worker_ok w' g' d x.
Proof.
  intros Hd Se. assert (∀ j, job_ok w d j → job_ok w' d j) as Hj by (unfold job_ok; by rewrite Hd).
  destruct x as [|own j|own j ptr h|own j [loc|]]; simpl; [done|..];
    destruct (Se j eq_refl) as [Hr Hs]; rewrite ?Hr, ?Hd.
  - naive_solver.
  - intros (-> & J & R & drive & sz & Hdr & G & Hsl). split_and!; [done|auto|done|].
    exists drive, sz. destruct (Hs R) as [-> _]. done.
  - intros (-> & J & R & drive & off & Hdr & En & Ex & Hb). split_and!; [done|auto|done|].
    exists drive, off. split_and!; [done..|]. destruct (Hs R). eauto.
  - naive_solver.
Qed.

Lemma steady_sees w g w' g' k : steady w g w' g' k → sees w g w' g' k.
Proof. intros [_ Hr Hs Hc _]. split; auto. Qed.

Lemma same_sees w g w' g' k : same_key w g w' g' k → sees w g w' g' k.
Proof. intros [_ Hs Hp _ _ Hc _ _ _]. split; [by rewrite Hp|]. intros _. by rewrite Hs, Hc. Qed.

(** A change of the map, the tier, the memory or the ledger that the writers do
    not see. *)
Lemma inv_local w g w' g' :
  inv g w → drives w' = drives w → writers w' = writers w →
  (∃ s p L, DispatchMap.ok (dm w') s p L) → MemoryTier.ok (mt w') →
  (∀ k, key_state w' g' k) → (∀ k, steady w g w' g' k) → loose_ok w' g' → inv g' w'.
Proof.
  intros [I1 I2 I3 I4 I5 I6 I7 I8 I9 I10 I11 I12] Hd Hw Om Ot K St Lo.
  split; try done; rewrite ?Hd, ?Hw; try done.
  - intros k. unfold jobs_of, queued_jobs in *. rewrite Hw, I6. symmetry. apply St.
  - intros d x j Hx Hj. specialize (I7 d x j Hx Hj). unfold job_ok in *. by rewrite Hd.
  - intros d x Hx. apply (worker_sees w g); eauto using steady_sees.
  - intros k. rewrite (st_running _ _ _ _ _ (St k)). apply I10.
  - intros d drive off k Hdr Ex. eapply St; eauto.
Qed.

Lemma accounted_same w g w' g' d off k :
  entry w' k = entry w k → writers w' = writers w → loose g' = loose g →
  accounted w g d off k → accounted w' g' d off k.
Proof. unfold accounted. intros -> -> ->. done. Qed.

(** The same when only the key [k] changes. *)
Lemma inv_one k w g w' g' :
  inv g w → drives w' = drives w → writers w' = writers w → loose g' = loose g →
  (∃ s p L, DispatchMap.ok (dm w') s p L) → MemoryTier.ok (mt w') →
  (∀ k', k' ≠ k → same_key w g w' g' k') → key_state w' g' k → steady w g w' g' k → loose_ok w' g' → inv g' w'.
Proof.
  intros I Hd Hw Hl Om Ot Sk K St Lo. eapply inv_local; eauto.
  - intros k'. destruct (decide (k' = k)) as [->|Hne]; [done|].
    eapply key_state_same; [by apply Sk|]. apply I.
  - intros k'. destruct (decide (k' = k)) as [->|Hne]; [done|].
    destruct (Sk k' Hne). split; try congruence. intros d dr off _ _. by apply accounted_same.
Qed.

Lemma on_disk_drives w w' k loc b : drives w' = drives w → on_disk w k loc b → on_disk w' k loc b.
Proof. unfold on_disk. by intros ->. Qed.

Lemma refs_nonneg g w k : inv g w → 0 ≤ refs g k.
Proof. intros I. destruct (i_key _ _ I k) as [| |??????? (?&?&?)|????? (?&?&?)]; lia. Qed.

(** * References *)

Definition add_ref g (k n : Z) : ghost :=
  mkGhost (DispatchMap.upd (refs g) k (refs g k + n)) (pend g) (loose g) (cache g).

Definition set_pend g p : ghost := mkGhost (refs g) p (loose g) (cache g).
Definition set_loose g l : ghost := mkGhost (refs g) (pend g) l (cache g).
Definition set_cache g c : ghost := mkGhost (refs g) (pend g) (loose g) c.

Lemma upd_eq {A} (f : Z → A) k x : DispatchMap.upd f k x k = x.
Proof. unfold DispatchMap.upd. by rewrite decide_True. Qed.

Lemma upd_ne {A} (f : Z → A) k k' x : k' ≠ k → DispatchMap.upd f k x k' = f k'.
Proof. intros. unfold DispatchMap.upd. by rewrite decide_False. Qed.

(** Two ghosts that agree everywhere. *)
Lemma inv_ghost g g' w :
  (∀ k, refs g' k = refs g k) → pend g' = pend g → loose g' = loose g → cache g' = cache g → inv g w → inv g' w.
Proof.
  intros Hr Hp Hl Hc I. destruct (I) as [I1 I2 I3 I4 I5 I6 I7 I8 I9 I10 I11 I12].
  assert (∀ k, same_key w g w g' k) as Sk by (intros k; split; congruence).
  apply (inv_local w g); try done.
  - intros k. by eapply key_state_same.
  - intros k. split; try done; [congruence|]. intros d dr off _ _. by apply accounted_same.
  - unfold loose_ok. by rewrite Hl.
Qed.

(** Only the order of eviction changes. *)
Lemma inv_touched g w w' :
  inv g w → (∃ s p L, DispatchMap.ok (dm w') s p L) → MemoryTier.ok (mt w') →
  DispatchMap.entries (dm w') = DispatchMap.entries (dm w) → MemoryTier.view (mt w') = MemoryTier.view (mt w) →
  drives w' = drives w → pins w' = pins w → failed w' = failed w → writers w' = writers w → memory w' = memory w →
  inv g w'.
Proof.
  intros I Om Ot He Hv Hd Hp Hf Hw Hm.
  assert (∀ k, same_key w g w' g k) as Sk.
  { intros k. split; unfold entry, slot, pin_at; rewrite ?He, ?Hv, ?Hp, ?Hf, ?Hm; try done.
    intros loc b _. by apply on_disk_drives. }
  apply (inv_local w g); try done.
  - intros k. eapply key_state_same; [done|apply I].
  - intros k. destruct (Sk k). split; try congruence. intros d dr off _ _. by apply accounted_same.
  - pose proof (i_loose _ _ I) as Lo. unfold loose_ok, entry, pin_at in *. by rewrite He, Hp, Hd.
Qed.

(** An entry's counters change with the references the clients hold. *)
Lemma inv_entry k e e' n m' g w :
  inv g w → entry w k = Some e → DispatchMap.location e' = DispatchMap.location e →
  DispatchMap.write_ref e' = DispatchMap.write_ref e → DispatchMap.size_blocks e' = DispatchMap.size_blocks e →
  DispatchMap.read_ref e' = DispatchMap.read_ref e + n → 0 ≤ refs g k + n →
  DispatchMap.entries m' = <[k := e']> (DispatchMap.entries (dm w)) → (∃ s p L, DispatchMap.ok m' s p L) →
  inv (add_ref g k n) (set_dm w m').
Proof.
  intros I He El Ew Ez Er Hn Em Om. unfold entry in He.
  assert (entry (set_dm w m') k = Some e') as He' by (unfold entry; simpl; by rewrite Em, lookup_insert_eq).
  assert (∀ k', k' ≠ k → entry (set_dm w m') k' = entry w k') as Hne
    by (intros; unfold entry; simpl; by rewrite Em, lookup_insert_ne).
  apply (inv_one k w g); try done.
  - apply I.
  - intros k' Hk. split; try done; [by apply Hne|]. simpl. by apply upd_ne.
  - assert (counted w g k e → counted (set_dm w m') (add_ref g k n) k e') as Hct
      by (unfold counted; change (pin_at (set_dm w m') k) with (pin_at w k); simpl; rewrite upd_eq, Ew, Er, Ez; intuition lia).
    destruct (i_key _ _ I k) as [He0|v He0|e0 ptr sz so b He0 El0 Hc Hb Hs Hp Hz Hf Hw|e0 loc b He0 El0 Hc Hb Hl Hd Hs];
      unfold entry in He0; simplify_eq; try congruence.
    + apply (k_resident _ _ _ e' ptr sz so b); try done; [congruence|by apply Hct].
    + apply (k_cold _ _ _ e' loc b); try done; [congruence|by apply Hct].
  - split; try done. intros d dr off _ _. unfold accounted. rewrite He'. unfold entry. rewrite He. simpl.
    intros [(e0 & loc & [= <-] & Hs & Hl)|H]; [left; exists e', loc; by rewrite El|by right].
  - pose proof (i_loose _ _ I) as Lo. unfold loose_ok in *. simpl. destruct (loose g) as [[[d off] k0]|]; [|done].
    destruct Lo as (Ln & Lr & Ld). split_and!; try done. rewrite Hne; [done|]. intros ->. unfold entry in Ln. congruence.
Qed.

Definition found (l : DispatchMap.Location) : DispatchMap.LookupResult :=
  match l with
  | DispatchMap.BlockDevice offset => DispatchMap.FoundBlock offset
  | DispatchMap.MemoryTier pointer size _ => DispatchMap.FoundMemory pointer size
  end.

Definition same_location w w' (k : Z) : Prop :=
  DispatchMap.location <$> entry w' k = DispatchMap.location <$> entry w k.

Lemma inv_taken g w k e :
  inv g w → entry w k = Some e → DispatchMap.read_ref e ≠ u32_max →
  DispatchMap.write_ref e = 0 ∧
  let m := DispatchMap.set_entry (dm w) k (DispatchMap.bump_reuse (DispatchMap.set_read e (DispatchMap.read_ref e + 1))) in
  inv (add_ref g k 1) (set_dm w m) ∧ same_location w (set_dm w m) k.
Proof.
  intros I He Hr. pose proof (refs_nonneg _ _ k I).
  assert (DispatchMap.write_ref e = 0) as Hw by (destruct (i_key _ _ I k) as [| |??????? (?&?&?)|????? (?&?&?)]; congruence).
  split; [done|]. split.
  - eapply (inv_entry k e (DispatchMap.bump_reuse (DispatchMap.set_read e (DispatchMap.read_ref e + 1))) 1); try done; [lia|]. destruct (i_dm _ _ I) as (s & p & L & O). exists s, p, L.
    apply (DispatchMap.ok_set_entry _ _ _ _ _ e); try done.
    destruct (DispatchMap.ok_refs _ _ _ _ O _ _ He) as [? ?]. split; simpl; [lia|by left].
  - unfold same_location, entry. simpl. rewrite lookup_insert_eq. unfold entry in He. by rewrite He.
Qed.

Lemma same_location_trans w1 w2 w3 k : same_location w1 w2 k → same_location w2 w3 k → same_location w1 w3 k.
Proof. unfold same_location. congruence. Qed.

Lemma inv_take_read g w k :
  inv g w → ∃ x m', DispatchMap.take_read (dm w) k = (x, m') ∧
    match x with
    | Ok _ => is_Some (entry w k) ∧ inv (add_ref g k 1) (set_dm w m') ∧ same_location w (set_dm w m') k
    | Err _ => m' = dm w
    end.
Proof.
  intros I. unfold DispatchMap.take_read. destruct (DispatchMap.entries (dm w) !! k) as [e|] eqn:He; [|by eexists _, _].
  destruct (Z.eqb_spec (DispatchMap.write_ref e) 0) as [Hw|]; simpl; [|by eexists _, _].
  destruct (Z.eqb_spec (DispatchMap.read_ref e) u32_max) as [|Hr]; [by eexists _, _|].
  destruct (inv_taken g w k e I He Hr) as (_ & I' & Sl). eexists _, _. split; [done|].
  split_and!; [by exists e|done..].
Qed.

Definition ref_count w g (k : Z) : Z := refs g k + Z.b2z (pinned (pin_at w k)).

Lemma inv_counted g w k e : inv g w → entry w k = Some e → counted w g k e.
Proof.
  intros I He. destruct (i_key _ _ I k) as [| |e0 ptr sz so b He0 El0 Hc|e0 loc b He0 El0 Hc]; congruence.
Qed.

(** The map's [lookup] is a reference taken, and a touch of the policy. *)
Lemma inv_lookup g w k :
  inv g w → ∃ x m', DispatchMap.lookup (dm w) k = Ret (x, m') ∧
    match x, entry w k with
    | Ok r, Some e => r = found (DispatchMap.location e) ∧ ref_count w g k ≠ u32_max ∧
        inv (add_ref g k 1) (set_dm w m') ∧ same_location w (set_dm w m') k
    | Ok r, None => r = DispatchMap.NotExist ∧ m' = dm w
    | Err _, _ => is_Some (entry w k) ∧ ref_count w g k = u32_max ∧ m' = dm w
    end.
Proof.
  intros I. unfold DispatchMap.lookup, entry. destruct (DispatchMap.entries (dm w) !! k) as [e|] eqn:He; [|by eexists _, _].
  destruct (inv_counted g w k e I He) as (Hw & _ & Hrc & _). rewrite Hw. simpl. unfold ref_count. rewrite <- Hrc.
  destruct (Z.eqb_spec (DispatchMap.read_ref e) u32_max) as [|Hr]; [by eexists _, _; split; [done|split; [by exists e|]]|].
  destruct (inv_taken g w k e I He Hr) as (_ & I' & Sl). cbv zeta in *.
  destruct (i_dm _ _ I') as (s & p & L & O). simpl in O.
  destruct (DispatchMap.touch_policy_spec _ s p L k
    (DispatchMap.bump_reuse (DispatchMap.set_read e (DispatchMap.read_ref e + 1))) O) as (s' & Et & O').
  { simpl. apply lookup_insert_eq. }
  simpl in Et. rewrite Et. eexists _, _. split; [done|]. split; [done|]. split; [done|]. split; [|done].
  apply (inv_touched _ _ _ I'); [eauto|apply I'|done..].
Qed.

(** [release_read] by a client that holds a reference. *)
Lemma inv_release g w k :
  inv (add_ref g k 1) w → 0 ≤ refs g k →
  ∃ m', DispatchMap.release_read (dm w) k = (Ok (), m') ∧ inv g (set_dm w m') ∧ same_location w (set_dm w m') k.
Proof.
  intros I Hn. unfold DispatchMap.release_read.
  assert (∃ e, entry w k = Some e ∧ counted w (add_ref g k 1) k e) as (e & He & Hw & Hr0 & Hr & Hz).
  { destruct (i_key _ _ I k) as [? H0|?? H0| |]; eauto; simpl in H0; rewrite upd_eq in H0; lia. }
  simpl in Hr, Hr0. rewrite upd_eq in Hr, Hr0. unfold entry in He. rewrite He.
  assert (0 ≤ Z.b2z (pinned (pin_at w k))) by (by destruct (pinned _)).
  destruct (Z.eqb_spec (DispatchMap.read_ref e) 0) as [|_]; [lia|]. eexists. split; [done|]. split.
  - apply (inv_ghost (add_ref (add_ref g k 1) k (-1))); try done.
    { intros k'. simpl. rewrite upd_eq. unfold DispatchMap.upd. destruct (decide (k' = k)) as [->|]; lia. }
    eapply (inv_entry k e (DispatchMap.set_read e (DispatchMap.read_ref e - 1)) (-1)); try done.
    + simpl. rewrite upd_eq. lia.
    + destruct (i_dm _ _ I) as (s & p & L & O). exists s, p, L.
      apply (DispatchMap.ok_set_entry _ _ _ _ _ e); try done.
      destruct (DispatchMap.ok_refs _ _ _ _ O _ _ He) as [? ?]. split; simpl; [lia|by left].
  - unfold same_location, entry. simpl. by rewrite lookup_insert_eq, He.
Qed.

Lemma inv_dm_release g w k :
  inv (add_ref g k 1) w → 0 ≤ refs g k →
  inv g (dm_release w k) ∧ same_location w (dm_release w k) k.
Proof.
  intros I Hn. destruct (inv_release g w k I Hn) as (m' & Er & I' & Sl). unfold dm_release. rewrite Er. done.
Qed.

(** * Slots *)

Definition holds_of w g : DispatchMap.holds :=
  DispatchMap.mkHolds (λ k, refs g k + Z.b2z (pinned (pin_at w k))) (λ _, false).

Lemma inv_good g w : inv g w → Dispatcher.good (holds_of w g) (disp w).
Proof.
  intros I. split; simpl; [apply I| |apply I|].
  - intros k. pose proof (i_key _ _ I k) as K. change (DispatchMap.entries (dm w) !! k) with (entry w k). simpl.
    destruct K as [He Hr Hc Hl Hs|v He Hr Hc Hl Hs Hp|e ptr sz so b He El Hc Hb Hs Hp Hz Hf Hw|e loc b He El Hc Hb Hl Hd Hs];
      rewrite He; try (destruct Hc as (? & ? & ? & ?); done).
    + unfold ledger, unpinned in Hl. injection Hl as -> _ _ _. by rewrite Hr.
    + unfold ledger, taken_over in Hl. injection Hl as -> _ _ _. by rewrite Hr.
  - intros k e ptr sz so He El.
    destruct (i_key _ _ I k) as [He0|v He0|e0 ptr0 sz0 so0 b He0 El0 Hc Hb Hs|e0 loc b He0 El0 Hc Hb Hl Hd Hs];
      unfold entry in He0; simplify_eq; try congruence.
    unfold slot in Hs. congruence.
Qed.

Lemma inv_evicts g w d' :
  inv g w → Dispatcher.good (holds_of w g) d' → Dispatcher.evicts (holds_of w g) (disp w) d' → inv g (set_disp w d').
Proof.
  intros I [Om _ Ot _] [_ _ _ _ V _]. apply (inv_local w g); try done.
  - intros k. pose proof (i_key _ _ I k) as K. destruct (V k) as [[He Hv]|(e & e' & He & He' & (ptr & sz & off & El & ->) & Hv)].
    { eapply key_state_same; [|exact K]. done. }
    destruct K as [He0|v He0|e0 ptr0 sz0 so0 b He0 El0 Hc Hb Hs Hp Hz Hf Hw|e0 loc b He0 El0 Hc Hb Hl Hd Hs];
      unfold entry in He0; simpl in He; simplify_eq; try congruence.
    rewrite El in El0. injection El0 as -> -> <-. destruct Hw as [Hl Hd].
    eapply (k_cold _ _ _ _ off b); [exact He'|done|done|done|done|done|by left].
  - intros k. destruct (V k) as [[He Hv]|(e & e' & He & He' & (ptr & sz & off & El & ->) & Hv)].
    { split; try done. intros d dr o _ _. by apply accounted_same. }
    assert (running (pin_at w k) = false) as Hr.
    { destruct (i_key _ _ I k) as [He0|v He0|e0 ptr0 sz0 so0 b He0 El0 Hc Hb Hs Hp Hz Hf Hw|e0 loc b He0 El0 Hc Hb Hl Hd Hs];
      unfold entry in He0; simpl in He; simplify_eq; try congruence.
      rewrite El in El0. injection El0 as -> -> <-. destruct Hw as [Hl Hd]. unfold ledger, unpinned in Hl. congruence. }
    split; try done; try congruence. intros d dr o _ _. unfold accounted, entry in *. simpl in *. rewrite He, He'.
    intros [(e0 & loc & [= <-] & Hs & Hl)|H]; [left|by right]. eexists _, loc. split; [done|]. by rewrite El in Hs.
  - pose proof (i_loose _ _ I) as Lo. unfold loose_ok, entry in *. destruct (loose g) as [[[d off] k0]|]; [|done].
    destruct Lo as (Ln & ?). split; [|done]. destruct (V k0) as [[He Hv]|(e & e' & He & ?)]; simpl in *; congruence.
Qed.

Lemma loose_entries g g' w w' :
  loose_ok w g → loose g' = loose g → DispatchMap.entries (dm w') = DispatchMap.entries (dm w) →
  pins w' = pins w → drives w' = drives w → loose_ok w' g'.
Proof. unfold loose_ok, entry, pin_at. by intros H -> -> -> ->. Qed.

(** The slot of a key whose entry is not in memory changes. *)
Lemma inv_spare k g g' w w' :
  inv g w → slot w k = None ∨ is_Some (pend g !! k) →
  (∃ s p L, DispatchMap.ok (dm w') s p L) → MemoryTier.ok (mt w') →
  DispatchMap.entries (dm w') = DispatchMap.entries (dm w) →
  drives w' = drives w → pins w' = pins w → failed w' = failed w → writers w' = writers w →
  refs g' = refs g → loose g' = loose g → cache g' = cache g →
  (∀ k', k' ≠ k → slot w' k' = slot w k' ∧ pend g' !! k' = pend g !! k' ∧
     ∀ ptr sz n, slot w k' = Some (ptr, sz) → n ≤ sz → slice (memory w') ptr n = slice (memory w) ptr n) →
  spare w' g' k → inv g' w'.
Proof.
  intros I Hn Om Ot He Hd Hp Hf Hw Gr Gl Gc Fr Hsp.
  assert (∀ k, pin_at w' k = pin_at w k) as Hpa by (intros; unfold pin_at; by rewrite Hp).
  assert (∀ k, entry w' k = entry w k) as Hea by (intros; unfold entry; by rewrite He).
  assert (∀ k loc b, on_disk w k loc b → on_disk w' k loc b) as Hod by (intros ???; by apply on_disk_drives).
  assert (key_state w' g' k ∧ running (pin_at w k) = false) as [K Hr].
  { destruct (i_key _ _ I k) as [He0 Hr Hc Hl _|v He0 Hr Hc Hl Hs0|e0 ptr0 sz0 so0 b He0 El0 Hc Hb Hs0|e0 loc b He0 El0 Hc Hb Hl Hdk _];
      [|destruct Hn as [?|[? ?]]; congruence..|]; (split; [|unfold ledger, unpinned in Hl; congruence]).
    - apply k_absent; rewrite ?Hea, ?Hpa, ?Gr, ?Gc; done.
    - apply (k_cold _ _ _ e0 loc b); unfold counted in *; rewrite ?Hea, ?Hpa, ?Gr, ?Gc; auto. }
  apply (inv_one k w g); try done.
  - intros k' Hne. destruct (Fr k' Hne) as (? & ? & ?). split; rewrite ?Hf, ?Gr, ?Gc; auto.
  - split; rewrite ?Hpa; try done; try congruence. intros d dr off _ _. by apply accounted_same.
  - by eapply loose_entries; [apply I|..].
Qed.

(** A key gets a slot; what is in it is unknown. *)
Lemma inv_reserved k ptr sz g w w' :
  inv g w → slot w k = None → (∃ s p L, DispatchMap.ok (dm w') s p L) → MemoryTier.ok (mt w') →
  DispatchMap.entries (dm w') = DispatchMap.entries (dm w) →
  MemoryTier.view (mt w') = <[k := (ptr, sz)]> (MemoryTier.view (mt w)) →
  drives w' = drives w → pins w' = pins w → failed w' = failed w → writers w' = writers w → memory w' = memory w →
  inv (set_pend g (<[k := (sz, None)]> (pend g))) w'.
Proof.
  intros I Hn Om Ot He Hv Hd Hp Hf Hw Hm. apply (inv_spare k g _ w); try done; [by left|..].
  - intros k' Hne. unfold slot. simpl. by rewrite Hv, Hm, !lookup_insert_ne.
  - right. exists ptr, sz, None. split_and!; [unfold slot; by rewrite Hv, lookup_insert_eq|simpl; by rewrite lookup_insert_eq|done].
Qed.

(** A reserved slot is given back. *)
Lemma inv_unreserved k v g w w' :
  inv g w → pend g !! k = Some v → (∃ s p L, DispatchMap.ok (dm w') s p L) → MemoryTier.ok (mt w') →
  DispatchMap.entries (dm w') = DispatchMap.entries (dm w) →
  MemoryTier.view (mt w') = delete k (MemoryTier.view (mt w)) →
  drives w' = drives w → pins w' = pins w → failed w' = failed w → writers w' = writers w → memory w' = memory w →
  inv (set_pend g (delete k (pend g))) w'.
Proof.
  intros I Hn Om Ot He Hv Hd Hp Hf Hw Hm. apply (inv_spare k g _ w); try done; [by right|..].
  - intros k' Hne. unfold slot. simpl. by rewrite Hv, Hm, !lookup_delete_ne.
  - left. unfold slot. rewrite Hv. simpl. by rewrite !lookup_delete_eq.
Qed.

(** ** Memory *)

Lemma slice_length f ptr n : length (slice f ptr n) = Z.to_nat n.
Proof. unfold slice. by rewrite length_fmap, length_seq. Qed.

Lemma slice_store f ptr bs n :
  n ≤ Z.of_nat (length bs) → slice (store_bytes f ptr bs) ptr n = take (Z.to_nat n) bs.
Proof.
  intros Hn. apply list_eq. intros i. unfold slice. rewrite list_lookup_fmap.
  destruct (decide (i < Z.to_nat n)%nat) as [Hi|Hi].
  - rewrite lookup_seq_lt, lookup_take_lt by lia. simpl. unfold store_bytes.
    rewrite (proj2 (Z.leb_le _ _)), (proj2 (Z.ltb_lt _ _)) by lia. simpl.
    replace (Z.to_nat (ptr + Z.of_nat i - ptr)) with i by lia.
    destruct (lookup_lt_is_Some_2 bs i) as [x ->]; [lia|done].
  - rewrite lookup_seq_ge, lookup_take_ge by lia. done.
Qed.

Lemma slice_apart f ptr bs p n :
  p + n ≤ ptr ∨ ptr + Z.of_nat (length bs) ≤ p → slice (store_bytes f ptr bs) p n = slice f p n.
Proof.
  intros Hd. apply list_fmap_ext. intros i x Hi. apply lookup_seq in Hi as [-> Hi]. unfold store_bytes.
  destruct (Z.leb_spec ptr (p + Z.of_nat (0 + i))), (Z.ltb_spec (p + Z.of_nat (0 + i)) (ptr + Z.of_nat (length bs)));
    simpl; try done; lia.
Qed.

(** Writing into one key's slot does not reach another's. *)
Lemma slice_others w k k' ptr sz p sz' bs n :
  MemoryTier.ok (mt w) → k' ≠ k → slot w k = Some (ptr, sz) → slot w k' = Some (p, sz') →
  Z.of_nat (length bs) ≤ sz → n ≤ sz' → slice (store_bytes (memory w) ptr bs) p n = slice (memory w) p n.
Proof.
  intros Ot Hne Hs Hs' Hb Hn. destruct (decide (n ≤ 0)) as [?|Hn0].
  { unfold slice. by replace (Z.to_nat n) with 0%nat by lia. }
  destruct bs as [|b0 bs].
  { apply list_fmap_ext. intros i x _. unfold store_bytes. simpl.
    destruct (Z.leb_spec ptr (p + Z.of_nat x)), (Z.ltb_spec (p + Z.of_nat x) (ptr + Z.of_nat 0)); simpl; try done. lia. }
  apply slice_apart. destruct (MemoryTier.slots_apart _ _ _ _ _ _ _ Ot Hne Hs' Hs);
    [left|right]; [pose proof (FreeList.aligned_bounds sz')|pose proof (FreeList.aligned_bounds sz)]; simpl in *; lia.
Qed.

(** Bytes arrive in a reserved slot. *)
Lemma inv_filled k ptr sz p bs p' g w :
  inv g w → pend g !! k = Some (sz, p) → slot w k = Some (ptr, sz) → Z.of_nat (length bs) ≤ sz →
  (∀ b, p' = Some b → fits k sz ∧ size_of k ≤ Z.of_nat (length bs) ∧ take (Z.to_nat (size_of k)) bs = b) →
  inv (set_pend g (<[k := (sz, p')]> (pend g))) (set_memory w (store_bytes (memory w) ptr bs)).
Proof.
  intros I Hp Hs Hb Hf. apply (inv_spare k g _ w); try done; [by right|apply I|apply I|..].
  - intros k' Hne. simpl. rewrite lookup_insert_ne by done. split_and!; [done..|].
    intros ptr' sz' n Hs' Hn. eapply slice_others; eauto. apply I.
  - right. exists ptr, sz, p'. split_and!; [done|simpl; by rewrite lookup_insert_eq|].
    intros b ->. destruct (Hf b eq_refl) as (? & Hl & <-). split; [done|]. by apply slice_store.
Qed.

(** * Entries *)

Lemma loose_other k g g' w w' :
  loose_ok w g → loose g' = loose g → drives w' = drives w → is_Some (entry w k) →
  (∀ k', k' ≠ k → entry w' k' = entry w k' ∧ pin_at w' k' = pin_at w k') → loose_ok w' g'.
Proof.
  unfold loose_ok. intros Lo -> -> [e He] Fr. destruct (loose g) as [[[d off] k0]|]; [|done].
  assert (k0 ≠ k) as Hne by (intros ->; destruct Lo as [? _]; congruence). destruct (Fr k0 Hne) as [-> ->]. done.
Qed.

(** A resident entry with a copy on disk is flipped to the copy; its slot is then
    a reservation that still holds the bytes. *)
Lemma inv_flipped k e ptr sz loc b g w :
  inv g w → entry w k = Some e → DispatchMap.location e = DispatchMap.MemoryTier ptr sz (Some loc) →
  cache g !! k = Some b →
  inv (set_pend g (<[k := (sz, Some b)]> (pend g)))
    (set_dm w (DispatchMap.set_entry (dm w) k (DispatchMap.set_location e (DispatchMap.BlockDevice loc)))).
Proof.
  intros I He El Hb. set (w' := set_dm w _). set (g' := set_pend g _).
  assert (entry w' k = Some (DispatchMap.set_location e (DispatchMap.BlockDevice loc))) as He'
    by (unfold entry; simpl; by rewrite lookup_insert_eq).
  assert (∀ k', k' ≠ k → entry w' k' = entry w k') as Hne by (intros; unfold entry; simpl; by rewrite lookup_insert_ne).
  destruct (i_key _ _ I k) as [| |e0 ptr0 sz0 so0 b0 He0 El0 Hc Hb0 Hs Hp Hz Hf Hw|]; try congruence.
  rewrite He in He0. injection He0 as <-. rewrite El in El0. injection El0 as <- <- <-.
  rewrite Hb in Hb0. injection Hb0 as <-. destruct Hw as [Hl Hd].
  apply (inv_one k w g); try done.
  - destruct (i_dm _ _ I) as (s & p & L & O). exists s, p, L. apply (DispatchMap.ok_set_entry _ _ _ _ _ e); try done.
    apply (DispatchMap.ok_refs _ _ _ _ O _ _ He).
  - apply I.
  - intros k' Hk. split; auto; simpl; by rewrite lookup_insert_ne.
  - eapply (k_cold _ _ _ _ loc b); [done|done|done|done|done|done|]. right. exists ptr, sz, (Some b).
    split_and!; [done|simpl; by rewrite lookup_insert_eq|]. by intros b' [= <-].
  - split; try done. intros d dr off _ _. unfold accounted. rewrite He', He. simpl.
    intros [(e0 & loc0 & [= <-] & Hs0 & Hl0)|H]; [left|by right]. eexists _, loc0. split; [done|]. by rewrite El in Hs0.
  - apply (loose_other k g _ w); [apply I|done|done|by exists e|]. intros k' Hk. by rewrite Hne.
Qed.

(** The inverse: the entry is put into the reserved slot that holds its bytes. *)
Lemma inv_promoted k e ptr sz loc b g w :
  inv g w → entry w k = Some e → DispatchMap.location e = DispatchMap.BlockDevice loc →
  cache g !! k = Some b → slot w k = Some (ptr, sz) → pend g !! k = Some (sz, Some b) →
  inv (set_pend g (delete k (pend g)))
    (set_dm w (DispatchMap.set_entry (dm w) k
       (DispatchMap.set_blocks (DispatchMap.set_location e (DispatchMap.MemoryTier ptr sz (Some loc))) (DispatchMap.blocks_of sz)))).
Proof.
  intros I He El Hb Hs Hp. set (w' := set_dm w _). set (g' := set_pend g _).
  set (e' := DispatchMap.set_blocks _ _) in *.
  assert (entry w' k = Some e') as He' by (unfold entry; simpl; by rewrite lookup_insert_eq).
  assert (∀ k', k' ≠ k → entry w' k' = entry w k') as Hne by (intros; unfold entry; simpl; by rewrite lookup_insert_ne).
  destruct (i_key _ _ I k) as [| | |e0 loc0 b0 He0 El0 Hc Hb0 Hl Hd Hsp]; try congruence.
  rewrite He in He0. injection He0 as <-. rewrite El in El0. injection El0 as <-.
  rewrite Hb in Hb0. injection Hb0 as <-. destruct Hsp as [[? ?]|(ptr0 & sz0 & p & Hs0 & Hp0 & Hf)]; [congruence|].
  rewrite Hs in Hs0. injection Hs0 as <- <-. rewrite Hp in Hp0. injection Hp0 as <-. destruct (Hf b eq_refl) as [Hz Hfl].
  apply (inv_one k w g); try done.
  - destruct (i_dm _ _ I) as (s & p & L & O). exists s, p, L. apply (DispatchMap.ok_set_entry _ _ _ _ _ e); try done.
    apply (DispatchMap.ok_refs _ _ _ _ O _ _ He).
  - apply I.
  - intros k' Hk. split; auto; simpl; by rewrite lookup_delete_ne.
  - apply (k_resident _ _ _ e' ptr sz (Some loc) b); try done.
    + destruct Hc as (? & ? & ? & ?). split_and!; try done. apply Hz.
    + simpl. by rewrite lookup_delete_eq.
  - split; try done. intros d dr off _ _. unfold accounted. rewrite He', He. simpl.
    intros [(e0 & loc0 & [= <-] & Hs0 & Hl0)|H]; [left|by right]. eexists _, loc0. split; [done|]. by rewrite El in Hs0.
  - apply (loose_other k g _ w); [apply I|done|done|by exists e|]. intros k' Hk. by rewrite Hne.
Qed.

(** ** An entry leaves the map *)

(** The extent the entry recorded is left for the call to free. *)
Definition left_loose w (k : Z) (l : DispatchMap.Location) (lo : option (nat * Z * Z)) : Prop :=
  match DispatchMap.stored l with
  | None => lo = None
  | Some loc => ∃ d off drive, lo = Some (d, off, k) ∧ Location.encode_loc (Z.of_nat d) off = Ret loc ∧
      drives w !! d = Some drive ∧ extent (extent_mgr drive) off k
  end.

Definition left_pend g (k : Z) (l : DispatchMap.Location) : gmap Z (Z * option (list Z)) :=
  match l with
  | DispatchMap.MemoryTier _ sz _ => <[k := (sz, None)]> (pend g)
  | DispatchMap.BlockDevice _ => pend g
  end.

Lemma encode_loc_inj d off d' off' loc :
  0 ≤ d → 0 ≤ d' → 0 ≤ off < 2 ^ 56 → 0 ≤ off' < 2 ^ 56 →
  Location.encode_loc d off = Ret loc → Location.encode_loc d' off' = Ret loc → d = d' ∧ off = off'.
Proof.
  intros Hd Hd' Ho Ho' E1 E2.
  assert (∀ d off, 0 ≤ d → 0 ≤ off < 2 ^ 56 → Location.encode_loc d off = Ret loc → Location.decode_loc loc = (d, off)) as D.
  { intros x y Hx Hy En. assert (x < 256) as Hx2 by (unfold Location.encode_loc in En; destruct (Z.ltb_spec x 256); [done|by destruct (_ <? _)]).
    destruct (Location.location_round_trip [()] x y ltac:(lia) Hy) as (l & El & _ & Dl & _). congruence. }
  assert ((d, off) = (d', off')) as [= -> ->]; [|done]. rewrite <- (D d off), <- (D d' off'); done.
Qed.

Lemma inv_dropped k e lo g g' w w' :
  inv g w → loose g = None → entry w k = Some e → left_loose w k (DispatchMap.location e) lo →
  DispatchMap.entries (dm w') = delete k (DispatchMap.entries (dm w)) → (∃ s p L, DispatchMap.ok (dm w') s p L) →
  mt w' = mt w → drives w' = drives w → writers w' = writers w → failed w' = failed w → memory w' = memory w →
  (∀ k', k' ≠ k → pin_at w' k' = pin_at w k') →
  (Nat.b2n (queued (pin_at w' k)) + stale (pin_at w' k) = Nat.b2n (queued (pin_at w k)) + stale (pin_at w k))%nat →
  running (pin_at w' k) = running (pin_at w k) →
  refs g' = refs g → loose g' = lo → cache g' = delete k (cache g) →
  (∀ k', k' ≠ k → pend g' !! k' = pend g !! k') →
  key_state w' g' k → inv g' w'.
Proof.
  intros I Hno He Hlo Hes Om Hmt Hd Hw Hf Hm Hp Hq Hr Gr Gl Gc Gp K.
  assert (entry w' k = None) as Hek by (unfold entry; by rewrite Hes, lookup_delete_eq).
  assert (∀ k', k' ≠ k → entry w' k' = entry w k') as Hne by (intros; unfold entry; by rewrite Hes, lookup_delete_ne).
  assert (∀ k', slot w' k' = slot w k') as Hs by (intros; unfold slot; by rewrite Hmt).
  assert (∀ k', k' ≠ k → same_key w g w' g' k') as Sk.
  { intros k' Hk. split; rewrite ?Gr, ?Gc, ?Hf, ?Hm, ?lookup_delete_ne by done; auto. intros loc b _. by apply on_disk_drives. }
  apply (inv_local w g); try done.
  - rewrite Hmt. apply I.
  - intros k'. destruct (decide (k' = k)) as [->|Hk]; [done|]. eapply key_state_same; [by apply Sk|apply I].
  - intros k'. destruct (decide (k' = k)) as [->|Hk].
    + split; try done. { rewrite Gc, lookup_delete_eq. done. }
      intros d dr off Hdr Ex. unfold accounted. rewrite Hek, He, Hw, Hno, Gl.
      intros [(e0 & loc & [= <-] & Hs0 & En)|[H|H]]; [|by right; left|done].
      right; right. unfold left_loose in Hlo. rewrite Hs0 in Hlo. destruct Hlo as (d' & off' & drive & -> & En' & Hdr' & Ex').
      pose proof (extent_range _ _ _ (proj1 (i_drive _ _ I _ _ Hdr)) Ex).
      pose proof (extent_range _ _ _ (proj1 (i_drive _ _ I _ _ Hdr')) Ex').
      destruct (encode_loc_inj (Z.of_nat d) off (Z.of_nat d') off' loc) as [? ->]; [lia|lia|done..|].
      by replace d' with d by lia.
    + destruct (Sk k' Hk). split; try congruence. intros d dr off Hdr Ex H.
      assert (accounted w' (set_loose g' (loose g)) d off k') as [?|[?|?]] by (by eapply accounted_same; eauto).
      * by left.
      * by right; left.
      * simpl in *. congruence.
  - unfold loose_ok. rewrite Gl. unfold left_loose in Hlo. destruct (DispatchMap.stored _) eqn:Hst; [|by subst].
    destruct Hlo as (d & off & drive & -> & En & Hdr & Ex). split_and!; [done| |rewrite Hd; eauto]. rewrite Hr.
    destruct (i_key _ _ I k) as [| |e0 ptr sz so b He0 El0 Hc Hb Hsl Hp0 Hz Hf0 Hps|e0 loc0 b He0 El0 Hc Hb Hl Hd0 Hsl];
      try congruence; [|unfold ledger, unpinned in Hl; congruence].
    rewrite He in He0. injection He0 as <-. rewrite El0 in Hst. simpl in Hst. subst so. destruct Hps as [Hl _].
    unfold ledger, unpinned in Hl. congruence.
Qed.

Definition dropped g (k : Z) (l : DispatchMap.Location) (lo : option (nat * Z * Z)) : ghost :=
  mkGhost (refs g) (left_pend g k l) lo (delete k (cache g)).

Lemma left_loose_ex g w k e : inv g w → entry w k = Some e → ∃ lo, left_loose w k (DispatchMap.location e) lo.
Proof.
  intros I He. unfold left_loose.
  destruct (i_key _ _ I k) as [| |e0 ptr sz [loc|] b He0 El0 Hc Hb Hsl Hp0 Hz Hf0 Hps|e0 loc b He0 El0 Hc Hb Hl Hd Hsl];
    try congruence; rewrite He in He0; injection He0 as <-; rewrite El0; simpl; [..|eauto|].
  - destruct Hps as [_ (_ & d & drive & off & ? & ? & ? & _)]. eauto 10.
  - destruct Hd as (_ & d & drive & off & ? & ? & ? & _). eauto 10.
Qed.

(** An entry without references leaves; its slot becomes a reservation. *)
Lemma inv_removed k e m' lo g w :
  inv g w → loose g = None → entry w k = Some e → DispatchMap.read_ref e = 0 →
  left_loose w k (DispatchMap.location e) lo →
  DispatchMap.entries m' = delete k (DispatchMap.entries (dm w)) → (∃ s p L, DispatchMap.ok m' s p L) →
  inv (dropped g k (DispatchMap.location e) lo) (set_dm w m').
Proof.
  intros I Hno He Hr Hlo Hes Om.
  apply (inv_dropped k e lo g _ w); try done.
  { intros k' Hk. simpl. unfold left_pend. destruct (DispatchMap.location e); [done|by rewrite lookup_insert_ne]. }
  assert (entry (set_dm w m') k = None) as Hek by (unfold entry; simpl; by rewrite Hes, lookup_delete_eq).
  assert (∀ k, slot (set_dm w m') k = slot w k) as Hs by done.
  destruct (i_key _ _ I k) as [| |e0 ptr sz so b He0 El0 Hc Hb Hsl Hp0 Hz Hf0 Hps|e0 loc b He0 El0 Hc Hb Hl Hd Hsl];
    try congruence; rewrite He in He0; injection He0 as <-; destruct Hc as (_ & Hc0 & Hc1 & _).
  - assert (ledger (pin_at w k) = unpinned) as Hl.
    { destruct so; [apply Hps|]. destruct Hps as [Hl|[Hl|[Hl _]]]; [..|done];
        unfold ledger, waiting, writing in Hl; injection Hl as Hpin _ _ _; rewrite Hpin in Hc1; simpl in Hc1; lia. }
    injection Hl as Hpin ? ? ?. rewrite Hpin in Hc1. simpl in Hc1.
    apply k_absent; [done|simpl; lia|simpl; apply lookup_delete_eq|unfold ledger, pin_at in *; simpl; unfold unpinned; congruence|].
    right. exists ptr, sz, None. split_and!; [done|simpl; rewrite El0; simpl; apply lookup_insert_eq|done].
  - pose proof Hl as Hl'. injection Hl as Hpin ? ? ?. rewrite Hpin in Hc1. simpl in Hc1.
    apply k_absent; [done|simpl; lia|simpl; apply lookup_delete_eq|done|].
    unfold spare in *. simpl. rewrite El0. simpl. done.
Qed.

Lemma inv_dm_remove g w k :
  inv g w → loose g = None → ∃ x m', DispatchMap.remove (dm w) k = Ret (x, m') ∧
    match x, entry w k with
    | Ok _, Some e => DispatchMap.read_ref e = 0 ∧ ∃ lo, left_loose w k (DispatchMap.location e) lo ∧
        inv (dropped g k (DispatchMap.location e) lo) (set_dm w m')
    | Err (DispatchMap.ActiveReferences _), Some e => DispatchMap.read_ref e ≠ 0 ∧ m' = dm w
    | Err (DispatchMap.KeyNotFound _), None => m' = dm w
    | _, _ => False
    end.
Proof.
  intros I Hno. unfold entry. destruct (DispatchMap.entries (dm w) !! k) as [e|] eqn:He.
  2:{ unfold DispatchMap.remove. rewrite He. by eexists _, _. }
  destruct (inv_counted g w k e I He) as (Hw & H0 & Hr & _).
  destruct (decide (DispatchMap.read_ref e = 0)) as [Hr0|Hr0].
  - destruct (i_dm _ _ I) as (s & p & L & O).
    destruct (DispatchMap.map_remove_spec _ _ _ _ _ _ O He Hr0 Hw) as (m' & s' & i & Er & Hes & _ & O').
    eexists _, _. split; [exact Er|]. split; [done|].
    destruct (left_loose_ex g w k e I He) as [lo Hlo]. exists lo. split; [done|].
    by eapply (inv_removed k e m' lo); eauto.
  - unfold DispatchMap.remove. rewrite He, Hw. destruct (Z.ltb_spec 0 (DispatchMap.read_ref e)); [by eexists _, _|].
    destruct (pinned _); simpl in *; lia.
Qed.

(** The pin of a write-through is on an entry in memory that has no copy yet. *)
Lemma pinned_resident g w k :
  inv g w → pinned (pin_at w k) = true →
  ∃ e ptr sz b, entry w k = Some e ∧ DispatchMap.location e = DispatchMap.MemoryTier ptr sz None ∧
    counted w g k e ∧ cache g !! k = Some b ∧ slot w k = Some (ptr, sz) ∧ pend g !! k = None ∧
    filled w k ptr b ∧ fits k sz ∧
    (ledger (pin_at w k) = waiting ∨ ledger (pin_at w k) = writing).
Proof.
  intros I Hp.
  destruct (i_key _ _ I k) as [He Hr Hc Hl|v He Hr Hc Hl|e ptr sz so b He El Hc Hb Hsl Hp0 Hz Hf0 Hps|e loc b He El Hc Hb Hl].
  all: try (unfold ledger, unpinned, taken_over in Hl; congruence).
  exists e, ptr, sz, b. destruct so as [loc|].
  { destruct Hps as [Hl _]. unfold ledger, unpinned in Hl. congruence. }
  destruct Hps as [Hl|[Hl|[Hl _]]]; [auto 12..|]. unfold ledger, unpinned in Hl. congruence.
Qed.

(** [remove] takes over the pin of a pending write-through. *)
Lemma inv_taken_over g w k e ptr sz m' :
  inv g w → loose g = None → entry w k = Some e → DispatchMap.location e = DispatchMap.MemoryTier ptr sz None →
  pinned (pin_at w k) = true → DispatchMap.read_ref e = 1 →
  DispatchMap.entries m' = delete k (DispatchMap.entries (dm w)) → (∃ s p L, DispatchMap.ok m' s p L) →
  let s := pin_of (pins w) k in
  let stale := if queued s then S (stale s) else stale s in
  let ks := forget_if_idle (<[k := mkPin false false (running s) (running s) stale]> (pins w)) k in
  inv (if running s then set_cache g (delete k (cache g)) else dropped g k (DispatchMap.location e) None)
      (set_pins (set_dm w m') ks).
Proof.
  intros I Hno He El Hpin Hr Hes Om s stale ks. set (w' := set_pins (set_dm w m') ks).
  destruct (pinned_resident g w k I Hpin) as (e0 & ptr0 & sz0 & b & He0 & El0 & (_ & _ & Hc & _) & Hb & Hsl & Hp & _ & _ & Hl).
  rewrite He in He0. injection He0 as <-. rewrite El in El0. injection El0 as <- <-. rewrite Hpin, Hr in Hc. simpl in Hc.
  assert (∀ k', pin_at w' k' = if decide (k' = k) then mkPin false false (running s) (running s) stale else pin_at w k') as Hpa.
  { intros k'. unfold pin_at. simpl. unfold ks. rewrite forget_if_idle_pin_of, pin_of_insert; [done|].
    rewrite pin_of_insert, decide_True by done. simpl. destruct (running s); auto. }
  assert (pin_at w' k = mkPin false false (running s) (running s) stale) as Hpk by (by rewrite Hpa, decide_True).
  assert (entry w' k = None) as Hek by (unfold entry; simpl; by rewrite Hes, lookup_delete_eq).
  change (pin_of (pins w) k) with (pin_at w k) in s. unfold ledger, waiting, writing in Hl.
  apply (inv_dropped k e None g _ w); try done.
  - rewrite El. done.
  - intros k' Hk. by rewrite Hpa, decide_False.
  - rewrite Hpk. simpl. unfold stale, s. destruct Hl as [[= _ -> _ _]|[= _ -> _ _]]; simpl; lia.
  - by rewrite Hpk.
  - by destruct (running s).
  - by destruct (running s).
  - by destruct (running s).
  - intros k' Hk. destruct (running s); [done|]. simpl. rewrite El. simpl. by rewrite lookup_insert_ne.
  - destruct Hl as [[= _ Hq Hrun _]|[= _ Hq Hrun _]]; fold s in Hrun; rewrite Hrun in *.
    + apply k_absent; [done|simpl; lia|simpl; apply lookup_delete_eq|by rewrite Hpk|].
      right. exists ptr, sz, None. split_and!; [done|simpl; rewrite El; simpl; apply lookup_insert_eq|done].
    + eapply k_orphan; [done|simpl; lia|simpl; apply lookup_delete_eq|by rewrite Hpk|exact Hsl|done].
Qed.

Lemma inv_remove_entry g w k e :
  inv g w → loose g = None → entry w k = Some e →
  ∃ x m' ks, remove_entry (dm w) (pins w) k = Ret (x, m', ks) ∧
    match x with
    | None => refs g k ≠ 0 ∧ inv g (set_pins (set_dm w m') ks) ∧ same_location w (set_pins (set_dm w m') ks) k
    | Some f => refs g k = 0 ∧ ∃ lo, left_loose w k (DispatchMap.location e) lo ∧
        f = pinned (pin_at w k) && running (pin_at w k) ∧
        inv (if f then set_cache g (delete k (cache g)) else dropped g k (DispatchMap.location e) lo) (set_pins (set_dm w m') ks)
    end.
Proof.
  intros I Hno He. unfold remove_entry. change (pin_of (pins w) k) with (pin_at w k).
  destruct (pinned (pin_at w k)) eqn:Hpin; simpl.
  2:{ destruct (inv_dm_remove g w k I Hno) as (x & m' & -> & Hx). rewrite bind_Ret_l. eexists _, m', _. split; [done|].
      rewrite He in Hx. assert (set_pins (set_dm w m') (pins w) = set_dm w m') as -> by done.
      assert (DispatchMap.read_ref e = refs g k) as Hr.
      { destruct (inv_counted g w k e I He) as (_ & _ & Hc & _). rewrite Hpin in Hc. simpl in Hc. lia. }
      destruct x as [u|[]]; try done.
      - destruct Hx as (Hr0 & lo & Hlo & I'). split; [congruence|]. eauto.
      - destruct Hx as [? ->]. split; [congruence|]. split; [by destruct w|done]. }
  destruct (pinned_resident g w k I Hpin) as (e0 & ptr & sz & b & He0 & El & (Hw & Hc0 & Hc & _) & _).
  rewrite He in He0. injection He0 as <-. rewrite Hpin in Hc. simpl in Hc. pose proof He as He'. unfold entry in He'.
  unfold DispatchMap.release_read. rewrite He'. destruct (Z.eqb_spec (DispatchMap.read_ref e) 0) as [|_]; [lia|].
  set (e1 := DispatchMap.set_read e (DispatchMap.read_ref e - 1)).
  destruct (i_dm _ _ I) as (s & p & L & O). destruct (DispatchMap.ok_refs _ _ _ _ O _ _ He') as [Hrr _].
  assert (DispatchMap.ok (DispatchMap.set_entry (dm w) k e1) s p L) as O1.
  { apply (DispatchMap.ok_set_entry _ _ _ _ _ e); try done. split; simpl; [lia|by left]. }
  assert (DispatchMap.entries (DispatchMap.set_entry (dm w) k e1) !! k = Some e1) as He1 by apply lookup_insert_eq.
  destruct (decide (refs g k = 0)) as [Hz|Hz].
  - destruct (DispatchMap.map_remove_spec _ _ _ _ _ _ O1 He1) as (m' & s' & i & -> & Hes & _ & O'); [simpl; lia|done|].
    rewrite bind_Ret_l. eexists _, _, _. split; [done|]. split; [done|]. exists None. split; [by rewrite El|]. split; [done|].
    eapply inv_taken_over; eauto; [lia|]. by rewrite Hes; simpl; rewrite delete_insert_eq.
  - unfold DispatchMap.remove. rewrite He1. simpl. rewrite (proj2 (Z.ltb_lt 0 (DispatchMap.read_ref e - 1))) by lia. simpl.
    eexists _, _, _. split; [done|]. split; [done|]. unfold DispatchMap.take_read. rewrite He1. simpl.
    rewrite Hw. simpl. destruct (Z.eqb_spec (DispatchMap.read_ref e - 1) u32_max); [lia|].
    set (e2 := DispatchMap.bump_reuse _). set (w' := set_dm w (DispatchMap.set_entry (DispatchMap.set_entry (dm w) k e1) k e2)).
    assert (inv g w' ∧ same_location w w' k) as [I' Sl]; [|done]. split.
    + apply (inv_ghost (add_ref g k 0)); try done.
      { intros k'. simpl. unfold DispatchMap.upd. destruct (decide (k' = k)) as [->|]; lia. }
      apply (inv_entry k e e2 0); try done; [simpl; lia|lia|simpl; by rewrite insert_insert_eq|].
      exists s, p, L. apply (DispatchMap.ok_set_entry _ _ _ _ _ e1); try done. split; simpl; [lia|by left].
    + unfold same_location, entry. simpl. by rewrite lookup_insert_eq, He'.
Qed.

(** * Drives and writers *)

Lemma queued_jobs_same w w' d x x' :
  writers w !! d = Some x → writers w' = <[d := x']> (writers w) → queue x' = queue x → queued_jobs w' = queued_jobs w.
Proof.
  intros Hx Hw Hq. unfold queued_jobs. rewrite Hw, list_fmap_insert, Hq. f_equal.
  apply list_insert_id. by rewrite list_lookup_fmap, Hx.
Qed.

(** The extents of drive [d] change, with the state of its writer, which keeps
    its job. *)
Lemma inv_drive d drive drive' x x' g g' w w' :
  inv g w → drives w !! d = Some drive → writers w !! d = Some x →
  drives w' = <[d := drive']> (drives w) → writers w' = <[d := x']> (writers w) →
  dm w' = dm w → mt w' = mt w → pins w' = pins w → failed w' = failed w → memory w' = memory w →
  queue x' = queue x → job_of (worker x') = job_of (worker x) →
  refs g' = refs g → pend g' = pend g → cache g' = cache g →
  em_ok (extent_mgr drive') → block_size drive' = block_size drive →
  (∀ off k b, is_Some (entry w k) → extent (extent_mgr drive) off k → blocks drive !! off = Some b →
     extent (extent_mgr drive') off k ∧ blocks drive' !! off = Some b) →
  worker_ok w' g' d (worker x') →
  (∀ off k, extent (extent_mgr drive') off k → accounted w' g' d off k) →
  (∀ d' off k, d' ≠ d → loose g = Some (d', off, k) → loose g' = Some (d', off, k)) → loose_ok w' g' → inv g' w'.
Proof.
  intros I Hdr Hx Hds Hws Hdm Hmt Hp Hf Hm Hq Hj Gr Gp Gc Eok Hbs Hdisk Wk Acc Glo Lo.
  pose proof (lookup_lt_Some _ _ _ Hdr) as Hlt. pose proof (lookup_lt_Some _ _ _ Hx) as Hlt'.
  destruct (I) as [I1 I2 I3 I4 I5 I6 I7 I8 I9 I10 I11 I12].
  assert (∀ d', d' ≠ d → drives w' !! d' = drives w !! d') as Hds' by (intros; by rewrite Hds, list_lookup_insert_ne).
  assert (drives w' !! d = Some drive') as Hdd by (rewrite Hds; by apply list_lookup_insert_eq).
  assert (∀ d', d' ≠ d → writers w' !! d' = writers w !! d') as Hws' by (intros; by rewrite Hws, list_lookup_insert_ne).
  assert (writers w' !! d = Some x') as Hwd by (rewrite Hws; by apply list_lookup_insert_eq).
  assert (∀ k, pin_at w' k = pin_at w k) as Hpa by (intros; unfold pin_at; by rewrite Hp).
  assert (∀ k, slot w' k = slot w k) as Hs by (intros; unfold slot; by rewrite Hmt).
  assert (∀ k, entry w' k = entry w k) as He by (intros; unfold entry; by rewrite Hdm).
  assert (∀ d' j, job_ok w d' j → job_ok w' d' j) as Hjo by (intros d' j; unfold job_ok; by rewrite Hds, length_insert).
  assert (∀ d' y, writers w' !! d' = Some y → ∃ y0, writers w !! d' = Some y0 ∧ queue y = queue y0 ∧ job_of (worker y) = job_of (worker y0)) as Hy.
  { intros d' y Hy. destruct (decide (d' = d)) as [->|Hne]; [rewrite Hwd in Hy; injection Hy as <-; eauto|].
    rewrite Hws' in Hy by done. eauto. }
  split; rewrite ?Hdm, ?Hmt; try done.
  - intros k. eapply key_state_same; [|apply I3]. split; rewrite ?Gr, ?Gp, ?Gc, ?Hf, ?Hm; try done.
    intros loc b Hk (Hl & d1 & dr1 & off & Hd1 & En & Ex & Hb). split; [done|].
    destruct (decide (d1 = d)) as [->|Hne]; [|exists d1, dr1, off; by rewrite Hds'].
    rewrite Hdr in Hd1. injection Hd1 as <-. destruct (Hdisk off k b Hk Ex Hb). exists d, drive', off. done.
  - by rewrite Hds, Hws, !length_insert.
  - intros d' dr'. destruct (decide (d' = d)) as [->|Hne]; [|rewrite Hds' by done; apply I5].
    rewrite Hdd. intros [= <-]. rewrite Hbs. split; [done|]. by eapply I5.
  - intros k. unfold jobs_of. rewrite (queued_jobs_same w w' d x x') by done. rewrite Hpa. apply I6.
  - intros d' y j Hyd Hin. destruct (Hy d' y Hyd) as (y0 & Hy0 & Eq & _). rewrite Eq in Hin. eauto.
  - intros d' y Hyd. destruct (decide (d' = d)) as [->|Hne]; [rewrite Hwd in Hyd; by injection Hyd as <-|].
    rewrite Hws' in Hyd by done. pose proof (I8 d' y Hyd) as Wy.
    destruct (worker y) as [|own j|own j ptr h|own j [loc|]]; simpl in *; rewrite ?Hpa, ?Hs, ?Hds', ?Gc by done; intuition auto.
  - intros d1 d2 y1 y2 j1 j2 Hy1 Hy2 Hj1 Hj2 Hk. destruct (Hy _ _ Hy1) as (z1 & ? & _ & E1), (Hy _ _ Hy2) as (z2 & ? & _ & E2).
    rewrite E1 in Hj1. rewrite E2 in Hj2. eauto.
  - intros k Hr. rewrite Hpa in Hr. destruct (I10 k Hr) as (d1 & y & j & Hy1 & Hj1 & Hk).
    destruct (decide (d1 = d)) as [->|Hne]; [|exists d1, y, j; by rewrite Hws'].
    rewrite Hx in Hy1. injection Hy1 as <-. exists d, x', j. by rewrite Hj.
  - intros d1 dr1 off k Hd1 Ex. destruct (decide (d1 = d)) as [->|Hne]; [rewrite Hdd in Hd1; injection Hd1 as <-; eauto|].
    rewrite Hds' in Hd1 by done. destruct (I11 _ _ _ _ Hd1 Ex) as [H|[H|H]];
      [left; by rewrite He|right; left; by rewrite Hws'|right; right; by apply Glo].
Qed.

Lemma select_drive_spec w d drive off loc :
  drives w !! d = Some drive → (length (drives w) ≤ 256)%nat → 0 ≤ off < 2 ^ 56 →
  Location.encode_loc (Z.of_nat d) off = Ret loc →
  Location.select_drive (drives w) loc = Some (drive, off) ∧ Location.decode_loc loc = (Z.of_nat d, off).
Proof.
  intros Hd Hl Ho En. pose proof (lookup_lt_Some _ _ _ Hd).
  destruct (Location.location_round_trip (drives w) (Z.of_nat d) off ltac:(lia) Ho) as (l & El & _ & Dl & Sl).
  rewrite En in El. injection El as <-. split; [|done]. rewrite Sl, Nat2Z.id, Hd. done.
Qed.

(** The loose extent is freed. *)
Lemma inv_freed d off k loc g w :
  inv g w → loose g = Some (d, off, k) → Location.encode_loc (Z.of_nat d) off = Ret loc →
  ∃ w', free_extent w loc = Ret w' ∧ inv (set_loose g None) w' ∧ dm w' = dm w ∧ mt w' = mt w ∧
    memory w' = memory w ∧ pins w' = pins w ∧ failed w' = failed w ∧ writers w' = writers w.
Proof.
  intros I Hlo En. pose proof (i_loose _ _ I) as Lo. unfold loose_ok in Lo. rewrite Hlo in Lo.
  destruct Lo as (Hn & Hr & drive & Hdr & Ex). destruct (i_drive _ _ I _ _ Hdr) as [Eok Hbs].
  pose proof (extent_range _ _ _ Eok Ex) as Ho. destruct (i_len _ _ I) as [Hl1 Hl2].
  destruct (select_drive_spec w d drive off loc Hdr ltac:(lia) Ho En) as [Sd Dc].
  destruct (remove_law _ _ _ Eok Ex) as (e' & Er & Eok' & Hex & Hgr).
  unfold free_extent. rewrite Sd, Er, bind_Ret_l, Dc. simpl. rewrite Nat2Z.id. eexists. split; [done|].
  split; [|done]. assert (∃ x, writers w !! d = Some x) as [x Hx].
  { apply lookup_lt_is_Some. rewrite Hl1. by eapply lookup_lt_Some. }
  apply (inv_drive d drive (mkDrive (block_size drive) e' (blocks drive)) x x g _ w); try done; simpl.
  - by rewrite list_insert_id.
  - intros off' k' b Hk Ex' Hb. split; [|done]. apply Hex. split; [done|]. intros ->.
    rewrite (extent_key _ _ _ _ Eok Ex' Ex) in Hk. destruct Hk. congruence.
  - pose proof (i_worker _ _ I d x Hx) as Wk. pose proof (lookup_lt_Some _ _ _ Hdr) as Hlt.
    destruct (worker x) as [|own j|own j ptr h|own j [l|]] eqn:Ew; simpl in *; unfold job_ok in *; simpl; rewrite ?length_insert; try done.
    + destruct Wk as (-> & Hj & Hrun & dr & sz & Hdr' & Hg & Hs). rewrite Hdr in Hdr'. injection Hdr' as <-.
      split; [done|]. split; [exact Hj|]. split; [exact Hrun|].
      eexists _, sz. rewrite list_lookup_insert_eq by done. split_and!; [done|by apply Hgr|done].
    + destruct Wk as (-> & Hj & Hrun & dr & off' & Hdr' & En' & Ex' & Hb). rewrite Hdr in Hdr'. injection Hdr' as <-.
      split; [done|]. split; [exact Hj|]. split; [exact Hrun|].
      eexists _, off'. rewrite list_lookup_insert_eq by done. split_and!; [done|done| |done]. apply Hex. split; [done|].
      intros ->. rewrite (extent_key _ _ _ _ Eok Ex' Ex) in Hrun. change (pin_at (set_drive w d _) k) with (pin_at w k) in Hrun. congruence.
  - intros off' k' [Ex' Hne]%Hex. destruct (i_extents _ _ I _ _ _ _ Hdr Ex') as [H|[H|H]]; [by left| |].
    + by right; left.
    + rewrite Hlo in H. injection H as -> ->. done.
  - intros d' off' k' Hne. congruence.
Qed.

(** What writer [d] does: its job is the same and sees no change, or it takes or
    ends a job of [k] that no other writer has. *)
Definition job_change (d : nat) (x x' : Writer E) (k : Z) w g w' g' : Prop :=
  worker x' = worker x ∧ sees w g w' g' k ∨
  (∀ d' y j, d' ≠ d → writers w !! d' = Some y → job_of (worker y) = Some j → job_key j ≠ k) ∧
  (∀ j, job_of (worker x) = Some j → job_key j = k) ∧ (∀ j, job_of (worker x') = Some j → job_key j = k) ∧
  (running (pin_at w' k) = true → ∃ j, job_of (worker x') = Some j ∧ job_key j = k) ∧ worker_ok w' g' d (worker x').

Lemma inv_job d x x' k g g' w w' :
  inv g w → writers w !! d = Some x → writers w' = <[d := x']> (writers w) → drives w' = drives w →
  (∃ s p L, DispatchMap.ok (dm w') s p L) → MemoryTier.ok (mt w') →
  (∀ k', k' ≠ k → same_key w g w' g' k') → key_state w' g' k →
  (∀ k', jobs_of w' k' = (Nat.b2n (queued (pin_at w' k')) + stale (pin_at w' k'))%nat) →
  (∀ j, j ∈ queue x' → job_ok w d j) → job_change d x x' k w g w' g' →
  (∀ d' dr off, drives w !! d' = Some dr → extent (extent_mgr dr) off k → accounted w g d' off k → accounted w' g' d' off k) →
  (∀ d' off k', k' ≠ k → loose g = Some (d', off, k') → loose g' = Some (d', off, k')) → loose_ok w' g' → inv g' w'.
Proof.
  intros I Hx Hws Hds Om Ot Sk K Hjobs Hqu Hch Acc Glo Lo.
  destruct (I) as [I1 I2 I3 I4 I5 I6 I7 I8 I9 I10 I11 I12]. pose proof (lookup_lt_Some _ _ _ Hx) as Hlt.
  assert (∀ d', d' ≠ d → writers w' !! d' = writers w !! d') as Hws' by (intros; by rewrite Hws, list_lookup_insert_ne).
  assert (writers w' !! d = Some x') as Hwd by (rewrite Hws; by apply list_lookup_insert_eq).
  assert (∀ k', sees w g w' g' k → sees w g w' g' k') as Hse.
  { intros k' H. destruct (decide (k' = k)) as [->|Hne]; [done|]. by apply same_sees, Sk. }
  split; try done.
  - intros k'. destruct (decide (k' = k)) as [->|Hne]; [done|]. by eapply key_state_same; [apply Sk|].
  - by rewrite Hds, Hws, length_insert.
  - by rewrite Hds.
  - intros d' y j Hy Hj. unfold job_ok. rewrite Hds. fold (job_ok w d' j).
    destruct (decide (d' = d)) as [->|Hne]; [|rewrite Hws' in Hy by done; by eapply I7].
    rewrite Hwd in Hy. injection Hy as <-. by apply Hqu.
  - intros d' y Hy. destruct Hch as [[Hwk Se]|(Hfree & _ & _ & _ & Wk)].
    + assert (∃ y0, writers w !! d' = Some y0 ∧ worker y = worker y0) as (y0 & Hy0 & ->).
      { destruct (decide (d' = d)) as [->|Hne]; [|rewrite Hws' in Hy by done; eauto].
        rewrite Hwd in Hy. injection Hy as <-. eauto. }
      apply (worker_sees w g); auto.
    + destruct (decide (d' = d)) as [->|Hne]; [rewrite Hwd in Hy; by injection Hy as <-|].
      rewrite Hws' in Hy by done. apply (worker_sees w g); [done| |by apply I8]. intros j Hj. apply same_sees, Sk. eauto.
  - intros d1 d2 y1 y2 j1 j2 Hy1 Hy2 Hj1 Hj2 Hk.
    destruct (decide (d1 = d)) as [->|H1], (decide (d2 = d)) as [->|H2]; [done|..].
    + rewrite Hwd in Hy1. injection Hy1 as <-. rewrite Hws' in Hy2 by done. destruct Hch as [[Hwk _]|(Hfree & _ & Hwk & _)].
      * rewrite Hwk in Hj1. eauto.
      * destruct (Hfree d2 y2 j2); [done..|]. rewrite <- Hk. eauto.
    + rewrite Hwd in Hy2. injection Hy2 as <-. rewrite Hws' in Hy1 by done. destruct Hch as [[Hwk _]|(Hfree & _ & Hwk & _)].
      * rewrite Hwk in Hj2. eauto.
      * destruct (Hfree d1 y1 j1); [done..|]. rewrite Hk. eauto.
    + rewrite Hws' in Hy1, Hy2 by done. eauto.
  - intros k' Hr. destruct Hch as [[Hwk Se]|(Hfree & Hj & _ & Hrun & _)].
    + rewrite (proj1 (Hse k' Se)) in Hr. destruct (I10 k' Hr) as (d1 & y & j & Hy & Hj & Hk).
      destruct (decide (d1 = d)) as [->|H1]; [|exists d1, y, j; by rewrite Hws'].
      rewrite Hx in Hy. injection Hy as <-. exists d, x', j. by rewrite Hwk.
    + destruct (decide (k' = k)) as [->|Hne]; [destruct (Hrun Hr) as (j & ? & ?); by exists d, x', j|].
      rewrite (sk_pin _ _ _ _ _ (Sk k' Hne)) in Hr. destruct (I10 k' Hr) as (d1 & y & j & Hy & Hjy & Hk).
      exists d1, y, j. rewrite Hws'; [done|]. intros ->. rewrite Hx in Hy. injection Hy as <-. specialize (Hj j Hjy). congruence.
  - intros d' dr off k' Hdr Ex. rewrite Hds in Hdr. pose proof (I11 _ _ _ _ Hdr Ex) as A.
    destruct (decide (k' = k)) as [->|Hne]; [by eapply Acc|]. destruct A as [H|[(y & own & j & loc & Hy & Ew & Hk & En)|H]].
    + left. by rewrite (sk_entry _ _ _ _ _ (Sk k' Hne)).
    + right; left. destruct (decide (d' = d)) as [->|Hd]; [|exists y, own, j, loc; by rewrite Hws'].
      rewrite Hx in Hy. injection Hy as <-. destruct Hch as [[Hwk _]|(_ & Hj & _)]; [exists x', own, j, loc; by rewrite Hwk|].
      destruct Hne. rewrite <- Hk. apply Hj. by rewrite Ew.
    + right; right. by apply Glo.
Qed.

(** No writer works on a key that is not running. *)
Lemma idle_free g w k d y j :
  inv g w → running (pin_at w k) = false → writers w !! d = Some y → job_of (worker y) = Some j → job_key j ≠ k.
Proof.
  intros I Hr Hy Hj <-. pose proof (i_worker _ _ I d y Hy) as Wk.
  destruct (worker y) as [|own j'|own j' ptr h|own j' [loc|]]; simpl in *; simplify_eq; destruct Wk as (_ & _ & Wk); [|destruct Wk as [Wk _]..|]; congruence.
Qed.

Lemma queued_jobs_split w d x :
  writers w !! d = Some x → ∃ a b, queued_jobs w = a ++ queue x ++ b ∧
    ∀ w' x', writers w' = <[d := x']> (writers w) → queued_jobs w' = a ++ queue x' ++ b.
Proof.
  intros Hx. exists (mjoin (queue <$> take d (writers w))), (mjoin (queue <$> drop (S d) (writers w))). unfold queued_jobs.
  pose proof (lookup_lt_Some _ _ _ Hx). split.
  - rewrite <- (take_drop_middle _ _ _ Hx) at 1. rewrite fmap_app, join_app. done.
  - intros w' x' ->. rewrite insert_take_drop, fmap_app, join_app by done. done.
Qed.

End inv.

End StoreInvariant.
