(* ===== verification/StoreCalls.v ===== *)
(** Every call of [StorePath] keeps the invariant of [StoreInvariant], and the
    cache as a whole refines an abstract one that may forget entries but never
    answers with anything but the bytes that were stored. *)

From S2P Require Import Prelude LruList EvictionPolicy FreeList MemoryTier DispatchMap Dispatcher Pins ExtentStore StorePath StoreInvariant.

Module StoreCalls.
Import Policy WriteThroughPins ExtentStore StorePath StoreInvariant.
Local Open Scope Z_scope.

Section calls.
Context {S1 S2 E : Type} `{P1 : IEvictionPolicy S1, L1 : !EvictionPolicyLaws S1,
  P2 : IEvictionPolicy S2, L2 : !EvictionPolicyLaws S2,
  X : IExtentManager E, XL : !ExtentManagerLaws E}.
Context (size_of : Z → Z) (sizes : ∀ k, 0 < size_of k ≤ 2 ^ 30).
Abbreviation World := (World S1 S2 E).
Abbreviation inv := (inv size_of).
Abbreviation key_state := (key_state size_of).
Implicit Types (w : World) (g : ghost).

(** * The store *)

Lemma set_disp_disp w : set_disp w (disp w) = w.
Proof. by destruct w. Qed.

(** The case analysis of a key's state. *)
Lemma inv_view g w k ptr sz so e :
  inv g w → entry w k = Some e → DispatchMap.location e = DispatchMap.MemoryTier ptr sz so →
  slot w k = Some (ptr, sz) ∧ pend g !! k = None ∧ fits size_of k sz ∧
  ∃ b, cache g !! k = Some b ∧ filled size_of w k ptr b ∧ persisted size_of w k so b ∧ counted size_of w g k e.
Proof.
  intros I He El. destruct (i_key _ _ _ I k) as [| |e0 ptr0 sz0 so0 b He0 El0 Hc Hb Hs Hp Hz Hf Hw|]; try congruence.
  rewrite He in He0. injection He0 as <-. rewrite El in El0. injection El0 as <- <- <-. eauto 10.
Qed.

Lemma inv_cold g w k loc e :
  inv g w → entry w k = Some e → DispatchMap.location e = DispatchMap.BlockDevice loc →
  ledger (pin_at w k) = unpinned ∧ spare size_of w g k ∧
  ∃ b, cache g !! k = Some b ∧ on_disk size_of w k loc b ∧ counted size_of w g k e.
Proof.
  intros I He El. destruct (i_key _ _ _ I k) as [| | |e0 loc0 b He0 El0 Hc Hb Hl Hd Hs]; try congruence.
  rewrite He in He0. injection He0 as <-. rewrite El in El0. injection El0 as <-. eauto 10.
Qed.

Lemma inv_insert g w k sz ma :
  inv g w → 0 < sz ≤ 2 ^ 31 → ∃ x d, Dispatcher.evict_and_insert (disp w) k sz ma = Ret (x, d) ∧
    (0 < refs g k → entry (set_disp w d) k = entry w k) ∧
    match x with
    | Ok ptr => slot w k = None ∧ slot (set_disp w d) k = Some (ptr, sz) ∧
        inv (set_pend g (<[k := (sz, None)]> (pend g))) (set_disp w d)
    | Err e => inv g (set_disp w d) ∧
        (e = Dispatcher.AlreadyExists k ∧ is_Some (slot w k) ∨ e = Dispatcher.AllocationFailed ∧ slot w k = None)
    end.
Proof.
  intros I Hz. pose proof (inv_good _ _ _ I) as G.
  destruct (Dispatcher.evict_and_insert_spec (holds_of w g) (disp w) k sz ma G ltac:(lia) ltac:(split; lia)) as (x & d & Ex & G' & Hx).
  exists x, d. split; [done|]. change (Dispatcher.mt (disp w)) with (mt w) in Hx.
  assert (0 < refs g k → Dispatcher.held (holds_of w g) k) as Hh.
  { intros Hr. left. simpl. destruct (pinned _); simpl; lia. }
  unfold slot in *. destruct (MemoryTier.view (mt w) !! k) as [v|] eqn:Hv.
  { destruct Hx as [-> ->]. rewrite set_disp_disp. split; [done|]. split; [done|]. left. split; [done|by exists v]. }
  destruct x as [ptr|e]; simpl in Hx.
  - destruct Hx as (d1 & V & G1 & Ed & Ev). split.
    { intros Hr. destruct (Dispatcher.v_held _ _ _ V k (Hh Hr)) as [H _]. unfold entry. simpl in *. by rewrite Ed, H. }
    split; [done|]. split; [simpl; by rewrite Ev, lookup_insert_eq|].
    assert (inv g (set_disp w d1)) as I1 by (by eapply inv_evicts).
    apply (inv_reserved size_of k ptr sz g (set_disp w d1)); try done; simpl.
    + unfold slot. simpl. eapply lookup_weaken_None; [exact Hv|apply V].
    + apply G'.
    + apply G'.
    + by rewrite Ed.
  - destruct Hx as [-> V]. split.
    { intros Hr. destruct (Dispatcher.v_held _ _ _ V k (Hh Hr)) as [H _]. done. }
    split; [by eapply inv_evicts|]. by right.
Qed.

Lemma spare_pend g w k : inv g w → slot w k = None → pend g !! k = None.
Proof.
  intros I Hs.
  destruct (i_key _ _ _ I k) as [He Hr Hc Hl Hsp|v He Hr Hc Hl Hs0|e ptr sz so b He El Hc Hb Hs0|e loc b He El Hc Hb Hl Hd Hsp];
    try congruence; destruct Hsp as [[_ ?]|(?&?&?&?&_)]; congruence.
Qed.

(** A reservation has its slot, and no entry in memory. *)
Lemma pend_slot g w k sz p : inv g w → pend g !! k = Some (sz, p) →
  ∃ ptr, slot w k = Some (ptr, sz) ∧ ∀ b, p = Some b → fits size_of k sz ∧ filled size_of w k ptr b.
Proof.
  intros I Hp.
  destruct (i_key _ _ _ I k) as [He Hr Hc Hl Hsp|v He Hr Hc Hl Hs0|e ptr sz0 so b He El Hc Hb Hs0|e loc b He El Hc Hb Hl Hd Hsp];
    try congruence; destruct Hsp as [[_ ?]|(ptr&sz1&p1&Hs&Hp1&Hf)]; try congruence;
    rewrite Hp in Hp1; injection Hp1 as <- <-; eauto.
Qed.

Lemma set_pend_same g : set_pend g (pend g) = g.
Proof. by destruct g. Qed.

Lemma inv_mt_remove g w k :
  inv g w → slot w k = None ∨ is_Some (pend g !! k) →
  ∃ w', mt_remove w k = Ret w' ∧ inv (set_pend g (delete k (pend g))) w' ∧
    dm w' = dm w ∧ drives w' = drives w ∧ pins w' = pins w ∧ memory w' = memory w ∧ failed w' = failed w ∧
    writers w' = writers w ∧ slot w' k = None ∧ ∀ k', k' ≠ k → slot w' k' = slot w k'.
Proof.
  intros I Hk. unfold mt_remove. pose proof (MemoryTier.tier_remove_spec (mt w) k (i_mt _ _ _ I)) as R.
  unfold slot in *. destruct (MemoryTier.view (mt w) !! k) as [[ptr sz]|] eqn:Hv.
  - destruct Hk as [?|[v Hp]]; [done|]. destruct R as (t' & -> & O & Ev & _). rewrite bind_Ret_l.
    eexists. split; [done|]. split.
    + eapply (inv_unreserved size_of k v g w); try done. apply I.
    + split_and!; try done; simpl; rewrite Ev; [by rewrite lookup_delete_eq|]. intros k' Hne. by rewrite lookup_delete_ne.
  - rewrite R, bind_Ret_l. exists (set_mt w (mt w)). split; [done|]. split; [|done].
    replace (set_mt w (mt w)) with w by (by destruct w).
    rewrite delete_id by (by eapply spare_pend). by rewrite set_pend_same.
Qed.

Lemma reserve_spec g w k sz ma polls :
  inv g w → 0 < sz ≤ 2 ^ 31 → ∃ x w', reserve_memory w k sz ma polls = Ret (x, w') ∧
    match x with
    | Ok ptr => pend g !! k = None ∧ slot w' k = Some (ptr, sz) ∧ inv (set_pend g (<[k := (sz, None)]> (pend g))) w'
    | Err e => inv g w' ∧ (e = Dispatcher.AlreadyExists k ∨ e = Dispatcher.AllocationFailed)
    end.
Proof.
  intros I Hz. unfold reserve_memory. destruct (Z.eqb_spec sz 0); [lia|]. revert w I.
  induction polls as [|polls IH]; intros w I; simpl;
    destruct (inv_insert g w k sz ma I Hz) as (x & d & -> & _ & Hx); rewrite bind_Ret_l.
  - exists x, (set_disp w d). split; [by destruct x as [|[]]|]. destruct x as [ptr|e].
    + destruct Hx as (Hn & ? & ?). split; [by eapply spare_pend|done].
    + destruct Hx as (I' & Hx). split; [done|]. destruct Hx as [[? _]|[? _]]; auto.
  - destruct x as [ptr|e].
    + destruct Hx as (Hn & ? & ?). exists (Ok ptr), (set_disp w d). split; [done|]. split; [by eapply spare_pend|done].
    + destruct Hx as (I' & [[-> _]|[-> _]]); [exists (Err (Dispatcher.AlreadyExists k)), (set_disp w d); auto|]. by apply IH.
Qed.

(** What is known of a reservation after a copy of [bytes]. *)
Lemma copy_spec g w k sz p regions dma junk :
  inv g w → pend g !! k = Some (sz, p) → fits size_of k sz →
  ∃ x w', copy_gpu_to_memory_async w k regions dma junk = Ret (x, w') ∧ ∃ g', inv g' w' ∧
    refs g' = refs g ∧ loose g' = loose g ∧ cache g' = cache g ∧
    match x with
    | Ok _ => dma = DmaDone ∧ Z.of_nat (length (concat regions)) ≤ sz ∧
        pend g' = <[k := (sz, if decide (Z.of_nat (length (concat regions)) = size_of k)
                              then Some (concat regions) else None)]> (pend g)
    | Err _ => pend g' = pend g ∨ pend g' = <[k := (sz, None)]> (pend g) ∨
        dma = DmaFailed ∧ pend g' = delete k (pend g) ∧ slot w' k = None
    end.
Proof.
  intros I Hp Hz. unfold copy_gpu_to_memory_async.
  destruct (pend_slot g w k sz p I Hp) as (ptr & Hs & _).
  destruct (MemoryTier.tier_get_spec (mt w) k (i_mt _ _ _ I)) as (t & -> & O & Est). rewrite bind_Ret_l.
  change (MemoryTier.view (mt w) !! k) with (slot w k). rewrite Hs.
  assert (MemoryTier.view t = MemoryTier.view (mt w)) as Ev by (unfold MemoryTier.view; by rewrite Est).
  set (w1 := set_mt w t). assert (inv g w1) as I1 by (apply (inv_touched size_of g w); [done|apply I|done..]).
  assert (slot w1 k = Some (ptr, sz)) as Hs1 by (unfold slot; simpl; by rewrite Ev).
  destruct (Z.ltb_spec sz (Z.of_nat (length (concat regions)))) as [Hlt|Hge].
  { eexists _, _. split; [done|]. exists g. split_and!; auto. }
  assert (Z.of_nat (length (take (Z.to_nat (Z.of_nat (length (concat regions)))) junk)) ≤ sz) as Hj by (rewrite length_take; lia).
  pose proof (inv_filled size_of k ptr sz p _ None g w1 I1 Hp Hs1 Hj ltac:(done)) as I2.
  destruct dma.
  - match type of I2 with StoreInvariant.inv _ ?a ?b => set (g2 := a) in *; set (w2 := b) in * end.
    destruct (inv_mt_remove g2 w2 k I2) as (w' & -> & I' & _ & _ & _ & _ & _ & _ & Hn & _).
    { right. simpl. rewrite lookup_insert_eq. by eexists. }
    eexists _, _. split; [done|]. eexists. split; [exact I'|]. simpl. split_and!; auto.
    right; right. by rewrite delete_insert_eq.
  - eexists _, _. split; [done|]. eexists. split; [exact I2|]. simpl. split_and!; auto.
  - eexists _, _. split; [done|]. eexists. split.
    + apply (inv_filled size_of k ptr sz p (concat regions)
        (if decide (Z.of_nat (length (concat regions)) = size_of k) then Some (concat regions) else None) g w1); try done.
      intros b. destruct (decide _) as [Hd|]; [|done]. intros [= <-]. split; [done|]. split; [lia|].
      rewrite <- Hd, Nat2Z.id. by rewrite take_ge.
    + split_and!; done.
Qed.

Lemma release_spec g w k :
  inv g w → slot w k = None ∨ is_Some (pend g !! k) →
  ∃ w', release_memory w k = Ret (Ok (), w') ∧ inv (set_pend g (delete k (pend g))) w'.
Proof.
  intros I Hk. destruct (inv_mt_remove g w k I Hk) as (w' & Er & I' & _). unfold mt_remove, release_memory in *.
  pose proof (MemoryTier.tier_remove_spec (mt w) k (i_mt _ _ _ I)) as R.
  destruct (MemoryTier.view (mt w) !! k) as [[ptr sz]|].
  - destruct R as (t' & Et & _). rewrite Et in *. rewrite bind_Ret_l in *. injection Er as <-. eexists. split; [done|exact I'].
  - rewrite R in *. rewrite bind_Ret_l in *. injection Er as <-. eexists. split; [done|exact I'].
Qed.

(** A reservation and its copy; a failed copy gives the slot back. *)
Lemma reserve_copy_spec g w k bytes dma junk ma polls :
  inv g w → 0 < size_of k ≤ 2 ^ 30 → Z.of_nat (length bytes) = size_of k →
  ∃ x w1, reserve_memory w k (size_of k) ma polls = Ret (x, w1) ∧
    match x with
    | Ok _ => pend g !! k = None ∧ ∃ y w2, copy_gpu_to_memory_async w1 k [bytes] dma junk = Ret (y, w2) ∧
        match y with
        | Ok _ => dma = DmaDone ∧ inv (set_pend g (<[k := (size_of k, Some bytes)]> (pend g))) w2
        | Err _ => ∃ w3, release_memory w2 k = Ret (Ok (), w3) ∧ inv g w3
        end
    | Err e => inv g w1 ∧ (e = Dispatcher.AlreadyExists k ∨ e = Dispatcher.AllocationFailed)
    end.
Proof.
  intros I Hz Hl. destruct (reserve_spec g w k (size_of k) ma polls I ltac:(lia)) as (x & w1 & Er & Hx). exists x, w1. split; [done|].
  destruct x as [ptr|e]; [|done]. destruct Hx as (Hn & _ & I1). split; [done|]. set (g1 := set_pend g _) in *.
  assert (pend g1 !! k = Some (size_of k, None)) as Hp by (apply lookup_insert_eq).
  destruct (copy_spec g1 w1 k (size_of k) None [bytes] dma junk I1 Hp ltac:(split; [lia|done])) as (y & w2 & Ey & g' & I2 & Gr & Gl & Gc & Hy).
  exists y, w2. split; [done|]. simpl in Hy. rewrite app_nil_r in Hy.
  assert (g' = set_pend g (pend g')) as Eg by (destruct g'; simpl in *; by subst). destruct y as [u|e].
  - destruct Hy as (-> & _ & Hy). rewrite decide_True in Hy by done. split; [done|]. rewrite insert_insert_eq in Hy. by rewrite Eg, Hy in I2.
  - assert (delete k (pend g') = pend g ∧ (slot w2 k = None ∨ is_Some (pend g' !! k))) as [Hd Hs].
    { destruct Hy as [-> |[-> |(_ & -> & Hs)]].
      - split; [by apply delete_insert_id|right; rewrite lookup_insert_eq; by eexists].
      - rewrite insert_insert_eq. split; [by apply delete_insert_id|right; rewrite lookup_insert_eq; by eexists].
      - rewrite delete_insert_id by done. split; [by apply delete_id|by left]. }
    destruct (release_spec g' w2 k I2 Hs) as (w3 & -> & I3). exists w3. split; [done|]. rewrite Hd, Eg in I3. by destruct g.
Qed.

(** The entries of the map are the stored keys. *)
Lemma stored_size g w : inv g w → size (DispatchMap.entries (dm w)) = size (cache g).
Proof.
  intros I. rewrite <- !(size_dom (D:=gset Z)). f_equal. apply set_eq. intros k. rewrite !elem_of_dom.
  change (DispatchMap.entries (dm w) !! k) with (entry w k).
  destruct (i_key _ _ _ I k) as [He _ Hc|? He _ Hc|e ? ? ? b He _ _ Hc|e ? b He _ _ Hc]; rewrite He, Hc.
  1, 2: by split; intros [? ?].
  all: by split; eexists.
Qed.

(** ** Completion *)

Lemma live_size m s p L : DispatchMap.ok m s p L → (size L ≤ size (DispatchMap.entries (S:=S1) m))%nat.
Proof.
  intros O. rewrite <- length_map_to_list. rewrite <- (size_dom (D:=gset Z) (DispatchMap.entries m)).
  unfold size at 1, set_size. simpl. rewrite <- (length_fmap snd). apply submseteq_length, NoDup_submseteq.
  - apply NoDup_fmap_2_strong; [|apply NoDup_map_to_list].
    intros [i k] [j k'] Hi%elem_of_map_to_list Hj%elem_of_map_to_list Hk. simpl in Hk. subst k'.
    destruct (proj1 (DispatchMap.ok_handles _ _ _ _ O i k) Hi) as (e & He & Hh).
    destruct (proj1 (DispatchMap.ok_handles _ _ _ _ O j k) Hj) as (e' & He' & Hh'). f_equal. congruence.
  - intros k ([i k'] & -> & Hi%elem_of_map_to_list)%list_elem_of_fmap. simpl. apply elem_of_elements, elem_of_dom.
    destruct (proj1 (DispatchMap.ok_handles _ _ _ _ O i k') Hi) as (e & He & _). by exists e.
Qed.

Lemma jobs_of_enqueued w w' d x j k :
  writers w !! d = Some x → writers w' = <[d := mkWriter (queue x ++ [j]) (worker x)]> (writers w) →
  jobs_of w' k = (jobs_of w k + if decide (job_key j = k) then 1 else 0)%nat.
Proof.
  intros Hx Hw. destruct (queued_jobs_split w d x Hx) as (a & b & Eq & Eq'). unfold jobs_of.
  rewrite (Eq' _ _ Hw), Eq. simpl. rewrite !filter_app, !length_app.
  rewrite filter_cons. simpl. destruct (decide (job_key j = k)); simpl; lia.
Qed.

(** The entry of a filled reservation, with the pin and the job of its
    write-through. *)
Lemma inv_completed k b dev ptr e m' d x g w :
  inv g w → loose g = None → 0 ≤ k < u64_max → pend g !! k = Some (size_of k, Some b) →
  slot w k = Some (ptr, size_of k) → entry w k = None →
  DispatchMap.entries m' = <[k := e]> (DispatchMap.entries (dm w)) → (∃ s p L, DispatchMap.ok m' s p L) →
  DispatchMap.location e = DispatchMap.MemoryTier ptr (size_of k) None → DispatchMap.write_ref e = 0 →
  DispatchMap.read_ref e = 1 → DispatchMap.size_blocks e = DispatchMap.blocks_of (size_of k) →
  d = (dev mod length (writers w))%nat → writers w !! d = Some x →
  inv (mkGhost (refs g) (delete k (pend g)) None (<[k := b]> (cache g)))
    (set_pins (set_writer (set_dm w m') d (mkWriter (queue x ++ [mkJob k (size_of k) dev]) (worker x))) (pin (pins w) k true)).
Proof.
  intros I Hno Hk Hp Hs He Hes Om El Hw Hr Hbl Hd Hx. set (g' := mkGhost _ _ _ _). set (w' := set_pins _ _).
  destruct (pend_slot g w k _ _ I Hp) as (ptr0 & Hs0 & Hf). rewrite Hs in Hs0. injection Hs0 as <-.
  destruct (Hf b eq_refl) as [Hz Hfl].
  assert (ledger (pin_at w k) = unpinned ∧ refs g k = 0) as [Hl Hrf].
  { destruct (i_key _ _ _ I k) as [? Hr0 Hc Hl|v ? Hr0 Hc Hl Hs0 Hp0| |]; [done|congruence..]. }
  pose proof Hl as Hl'. injection Hl as Hl1 Hl2 Hl3 Hl4.
  assert (∀ k', pin_at w' k' = if decide (k' = k) then mkPin true true (running (pin_at w k)) (removed (pin_at w k)) (stale (pin_at w k)) else pin_at w k') as Hpa.
  { intros k'. unfold pin_at. simpl. unfold pin. apply pin_of_insert. }
  assert (pin_at w' k = mkPin true true false false (stale (pin_at w k))) as Hpk by (by rewrite Hpa, decide_True, Hl3, Hl4).
  assert (entry w' k = Some e) as Hek by (unfold entry; simpl; by rewrite Hes, lookup_insert_eq).
  assert (∀ k', k' ≠ k → entry w' k' = entry w k') as Hne by (intros; unfold entry; simpl; by rewrite Hes, lookup_insert_ne).
  apply (inv_job size_of d x (mkWriter (queue x ++ [mkJob k (size_of k) dev]) (worker x)) k g _ w); try done; [apply I|..].
  - intros k' Hk'. split; simpl; rewrite ?lookup_delete_ne, ?lookup_insert_ne by done; auto. by rewrite Hpa, decide_False.
  - apply (k_resident _ _ _ _ e ptr (size_of k) None b); try done; simpl.
    + unfold counted. rewrite Hpk, Hr, Hw. simpl. rewrite Hrf. done.
    + apply lookup_insert_eq.
    + apply lookup_delete_eq.
    + left. by rewrite Hpk.
  - intros k'. rewrite (jobs_of_enqueued w w' d x (mkJob k (size_of k) dev) k' Hx) by done. simpl.
    rewrite Hpa, (i_jobs _ _ _ I k'). destruct (decide (k = k')) as [->|]; [rewrite decide_True by done; rewrite Hl2; simpl; lia|].
    rewrite decide_False by done. lia.
  - intros j Hj. apply elem_of_app in Hj as [Hj|Hj%list_elem_of_singleton]; [by eapply i_queue|]. subst j.
    split; [exact Hk|]. split; [done|]. simpl. rewrite Hd. f_equal. symmetry. apply (i_len _ _ _ I).
  - left. split; [done|]. split; [by rewrite Hpk|]. congruence.
  - intros d' dr off _ _ [(e0 & ? & ? & _)|[(y & own & j & loc & Hy & Ew & Hj & _)|?]]; [congruence| |congruence].
    destruct (idle_free _ g w k d' y j I Hl3 Hy); [by rewrite Ew|done].
  - intros d' off k' _. congruence.
Qed.

Lemma completed_spec g w k b dev :
  inv g w → loose g = None → 0 ≤ k < u64_max → pend g !! k = Some (size_of k, Some b) →
  Z.of_nat (size (DispatchMap.entries (dm w))) < 2 ^ 32 →
  ∃ x w', copy_gpu_to_memory_completed w k (size_of k) dev = Ret (x, w') ∧
    match x with
    | Ok _ => cache g !! k = None ∧ inv (mkGhost (refs g) (delete k (pend g)) None (<[k := b]> (cache g))) w'
    | Err e => e = Dispatcher.AlreadyExists k ∧ is_Some (cache g !! k) ∧
        (ref_count w g k = u32_max ∧ inv g w' ∨ inv (set_pend g (delete k (pend g))) w')
    end.
Proof.
  intros I Hno Hk Hp Hsz. unfold copy_gpu_to_memory_completed.
  destruct (pend_slot g w k _ _ I Hp) as (ptr & Hs & _).
  destruct (MemoryTier.tier_get_spec (mt w) k (i_mt _ _ _ I)) as (t & -> & O & Est). rewrite bind_Ret_l.
  change (MemoryTier.view (mt w) !! k) with (slot w k). rewrite Hs.
  assert (MemoryTier.view t = MemoryTier.view (mt w)) as Ev by (unfold MemoryTier.view; by rewrite Est).
  set (w1 := set_mt w t). assert (inv g w1) as I1 by (apply (inv_touched size_of g w); [done|apply I|done..]).
  assert (slot w1 k = Some (ptr, size_of k)) as Hs1 by (unfold slot; simpl; by rewrite Ev).
  destruct (i_dm _ _ _ I1) as (s & p & L & Om). pose proof (live_size _ _ _ _ Om) as Hls. simpl in Hls.
  unfold DispatchMap.create_memory_tier_entry, DispatchMap.get_pool_id.
  rewrite (DispatchMap.ok_pool _ _ _ _ Om), (DispatchMap.ok_policy _ _ _ _ Om).
  pose proof (sizes k). destruct (Z.eqb_spec (size_of k) 0); [lia|]. cbv zeta.
  destruct (entry w1 k) as [e|] eqn:He; pose proof He as He0; unfold entry in He0.
  - rewrite bool_decide_true by (rewrite He0; by eexists). rewrite bind_Ret_l.
    replace (set_dm w1 (dm w1)) with w1 by (by destruct w).
    assert (∃ loc, DispatchMap.location e = DispatchMap.BlockDevice loc ∧ is_Some (cache g !! k)) as (loc & El & Hc).
    { destruct (i_key _ _ _ I1 k) as [| | |e0 loc b0 He1 El]; try congruence. exists loc. split; [congruence|by eexists]. }
    destruct (inv_lookup size_of g w1 k I1) as (r & m & -> & Hr). rewrite bind_Ret_l. rewrite He in Hr.
    destruct r as [r|err].
    + destruct Hr as (-> & _ & I2 & _). rewrite El. simpl.
      destruct (inv_dm_release size_of g _ k I2 (refs_nonneg _ _ _ k I1)) as [I3 _].
      destruct (inv_mt_remove g _ k I3) as (w' & -> & I' & _); [right; rewrite Hp; by eexists|].
      rewrite bind_Ret_l. eexists _, w'. split; [done|]. split_and!; auto.
    + destruct Hr as (_ & Hrc & ->). replace (set_dm w1 (dm w1)) with w1 by (by destruct w).
      eexists _, w1. split; [done|]. split_and!; auto.
  - rewrite bool_decide_false by (rewrite He0; by intros [? ?]).
    destruct (DispatchMap.insert_tracked_spec (dm w1) s p L k
      (λ h, DispatchMap.mkEntry (DispatchMap.MemoryTier ptr (size_of k) None) (DispatchMap.blocks_of (size_of k)) 0 1 h 0 0) Om He0)
      as (s' & i & -> & Om'); [simpl; lia| |].
    { intros hd. split; [done|]. split; simpl; [unfold u32_max; lia|auto]. }
    rewrite !bind_Ret_l. unfold DispatchMap.downgrade_reference. simpl. rewrite lookup_insert_eq. simpl.
    assert (∃ x, writers w !! (dev mod length (writers w))%nat = Some x) as [x Hx].
    { apply lookup_lt_is_Some. apply Nat.mod_upper_bound. destruct (i_len _ _ _ I) as [-> ?]. lia. }
    unfold enqueue. simpl. rewrite Hx. eexists _, _. split; [done|]. split.
    { destruct (i_key _ _ _ I1 k); congruence. }
    eapply (inv_completed k b dev ptr (DispatchMap.bump_reuse (DispatchMap.mkEntry (DispatchMap.MemoryTier ptr (size_of k) None)
      (DispatchMap.blocks_of (size_of k)) 1 0 (mkHandle p i) 0 0)) _ _ x g w1); try done.
    + simpl. by rewrite insert_insert_eq.
    + exists s', p, (<[i := k]> L). eapply DispatchMap.ok_set_entry; [exact Om'|simpl; apply lookup_insert_eq|done|].
      split; simpl; [unfold u32_max; lia|by left].
Qed.

(** * Remove *)

Lemma set_dm_dm w : set_dm w (dm w) = w.
Proof. by destruct w. Qed.

Lemma same_location_entry w w' k e :
  same_location w w' k → entry w k = Some e → ∃ e', entry w' k = Some e' ∧ DispatchMap.location e' = DispatchMap.location e.
Proof.
  unfold same_location. intros H He. rewrite He in H. simpl in H.
  destruct (entry w' k) as [e'|]; simplify_eq/=; eauto.
Qed.

Lemma busy_refs w g k : ref_count w g k = u32_max → refs g k ≠ 0.
Proof. unfold ref_count, u32_max. destruct (pinned _); simpl; lia. Qed.

Lemma find_extent_spec g w k :
  inv g w → ∃ x w', find_extent w k = Ret (x, w') ∧ pins w' = pins w ∧
    match x with
    | None => inv g w' ∧ same_location w w' k ∧ refs g k ≠ 0
    | Some (lo, flip) =>
        match entry w k with
        | None => w' = w ∧ lo = None ∧ flip = None
        | Some e => ∃ e', entry w' k = Some e' ∧ lo = DispatchMap.stored (DispatchMap.location e) ∧
            match DispatchMap.location e with
            | DispatchMap.MemoryTier p sz (Some loc) =>
                flip = Some (p, sz) ∧ DispatchMap.location e' = DispatchMap.BlockDevice loc ∧
                ∃ b, cache g !! k = Some b ∧ slot w' k = Some (p, sz) ∧ pend g !! k = None ∧
                  inv (set_pend g (<[k := (sz, Some b)]> (pend g))) w'
            | l => flip = None ∧ DispatchMap.location e' = l ∧ inv g w'
            end
        end
    end.
Proof.
  intros I. pose proof (refs_nonneg _ _ _ k I) as H0. unfold find_extent.
  destruct (inv_lookup size_of g w k I) as (r & m & -> & Hr). rewrite bind_Ret_l.
  destruct r as [r|err].
  2:{ destruct Hr as ([e He] & Hc & ->). rewrite set_dm_dm. exists None, w. split_and!; auto. { done. } by eapply busy_refs. }
  destruct (entry w k) as [e|] eqn:He.
  2:{ destruct Hr as [-> ->]. rewrite set_dm_dm. by eexists _, _. }
  destruct Hr as (-> & Hc & I1 & Sl1). destruct (same_location_entry _ _ _ _ Sl1 He) as (e1 & He1 & El1).
  set (w1 := set_dm w m) in *. destruct (DispatchMap.location e) as [off|p sz so] eqn:El; simpl.
  { destruct (inv_dm_release _ g w1 k I1 H0) as [I2 Sl2].
    destruct (same_location_entry _ _ _ _ Sl2 He1) as (e2 & He2 & El2).
    eexists _, _. split; [done|]. split; [done|]. exists e2. split_and!; [done..|congruence|done]. }
  unfold DispatchMap.convert_memory_tier_to_block. pose proof He1 as He1'. unfold entry in He1'. simpl in He1'.
  rewrite He1', El1. destruct so as [loc|].
  2:{ replace (set_dm w1 m) with w1 by done. destruct (inv_dm_release _ g w1 k I1 H0) as [I2 Sl2].
      destruct (same_location_entry _ _ _ _ Sl2 He1) as (e2 & He2 & El2).
      eexists _, _. split; [done|]. split; [done|]. exists e2. split_and!; [done..|congruence|done]. }
  destruct (inv_view _ _ _ _ _ _ _ I1 He1 El1) as (Hs & Hp & _ & b & Hb & _ & _ & _).
  pose proof (inv_flipped size_of k e1 p sz loc b _ w1 I1 He1 El1 Hb) as I2.
  set (w2 := set_dm w1 _) in I2. set (g2 := set_pend g (<[k := (sz, Some b)]> (pend g))).
  change (inv (add_ref g2 k 1) w2) in I2.
  change (DispatchMap.release_read (DispatchMap.set_entry m k (DispatchMap.set_location e1 (DispatchMap.BlockDevice loc))) k).2
    with (dm (dm_release w2 k)).
  change (set_dm w1 (DispatchMap.set_entry m k (DispatchMap.set_location e1 (DispatchMap.BlockDevice loc)))) with w2.
  destruct (inv_dm_release _ g2 w2 k I2 H0) as [I3 Sl3].
  assert (entry w2 k = Some (DispatchMap.set_location e1 (DispatchMap.BlockDevice loc))) as He2
    by (unfold entry; simpl; by rewrite lookup_insert_eq).
  destruct (same_location_entry _ _ _ _ Sl3 He2) as (e3 & He3 & El3). simpl in El3.
  destruct (inv_lookup size_of g2 (dm_release w2 k) k I3) as (r & m4 & -> & Hr). rewrite bind_Ret_l. rewrite He3 in Hr.
  destruct r as [r|err]; [|destruct Hr as (_ & Hc' & _); done].
  destruct Hr as (-> & _ & I4 & Sl4). rewrite El3. simpl.
  destruct (inv_dm_release _ g2 _ k I4 H0) as [I5 Sl5].
  destruct (same_location_entry _ _ _ _ Sl4 He3) as (e4 & He4 & El4).
  destruct (same_location_entry _ _ _ _ Sl5 He4) as (e5 & He5 & El5).
  eexists _, _. split; [done|]. split; [done|]. exists e5. split_and!; [done..|congruence|]. exists b. done.
Qed.

Lemma absent_spare g w k :
  inv g w → entry w k = None → ledger (pin_at w k) ≠ taken_over → slot w k = None ∨ is_Some (pend g !! k).
Proof.
  intros I He Hl. destruct (i_key _ _ _ I k) as [_ _ _ _ Hs| | |]; [|congruence..].
  destruct Hs as [[? _]|(?&?&?&_&->&_)]; [by left|right; by eexists].
Qed.

(** The entry is gone: the slot and the extent go too. *)
Lemma free_removed_spec g w0 w k l lo off :
  inv (dropped g k l lo) w → left_loose w0 k l lo → off = DispatchMap.stored l → entry w k = None →
  ledger (pin_at w k) = unpinned →
  ∃ w', free_removed w k false off = Ret (Ok (), w') ∧
    inv (mkGhost (refs g) (delete k (pend g)) None (delete k (cache g))) w' ∧ entry w' k = None ∧ slot w' k = None.
Proof.
  intros I Hlo -> He Hl. unfold free_removed.
  destruct (inv_mt_remove _ w k I) as (w1 & -> & I1 & Hdm & Hdr & _ & _ & _ & _ & Hs & _).
  { eapply absent_spare; [exact I|done|]. by rewrite Hl. }
  rewrite bind_Ret_l. assert (delete k (pend (dropped g k l lo)) = delete k (pend g)) as Ed.
  { simpl. unfold left_pend. destruct l; [done|]. by rewrite delete_insert_eq. }
  rewrite Ed in I1. unfold left_loose in Hlo. destruct (DispatchMap.stored l) as [loc|] eqn:Est.
  - destruct Hlo as (d & o & drive & -> & En & _).
    destruct (inv_freed size_of d o k loc _ w1 I1 eq_refl En) as (w' & -> & I' & Hdm' & Hmt' & _).
    rewrite bind_Ret_l. exists w'. split; [done|]. split; [exact I'|].
    unfold entry, slot. rewrite Hdm', Hmt', Hdm. done.
  - rewrite Hlo in I1. exists w1. split; [done|]. split; [exact I1|]. unfold entry. by rewrite Hdm.
Qed.

(** The state [find_extent] leaves: the entry as it was, or flipped to its copy
    with the bytes still in the slot. *)
Definition flipped g g1 w1 (k : Z) (l l1 : DispatchMap.Location) (flip : option (Z * Z)) : Prop :=
  g1 = g ∧ flip = None ∧ l1 = l ∨
  ∃ p sz loc b, l = DispatchMap.MemoryTier p sz (Some loc) ∧ flip = Some (p, sz) ∧ l1 = DispatchMap.BlockDevice loc ∧
    cache g !! k = Some b ∧ slot w1 k = Some (p, sz) ∧ pend g !! k = None ∧ g1 = set_pend g (<[k := (sz, Some b)]> (pend g)).

Lemma find_extent_found g w k e off flip w1 :
  inv g w → entry w k = Some e → find_extent w k = Ret (Some (off, flip), w1) →
  ∃ g1 e1, entry w1 k = Some e1 ∧ inv g1 w1 ∧ off = DispatchMap.stored (DispatchMap.location e1) ∧
    flipped g g1 w1 k (DispatchMap.location e) (DispatchMap.location e1) flip.
Proof.
  intros I He Ef. destruct (find_extent_spec g w k I) as (x & w' & Ef' & _ & Hx). rewrite Ef in Ef'.
  injection Ef' as <- <-. rewrite He in Hx. destruct Hx as (e1 & He1 & -> & Hx).
  destruct (DispatchMap.location e) as [loc|p sz [loc|]] eqn:El.
  - destruct Hx as (-> & El1 & I1). exists g, e1. rewrite El1. split_and!; auto. by left.
  - destruct Hx as (-> & El1 & b & Hb & Hs & Hp & I1). eexists _, e1. split; [done|]. split; [exact I1|]. rewrite El1.
    split; [done|]. right. exists p, sz, loc, b. auto 10.
  - destruct Hx as (-> & El1 & I1). exists g, e1. rewrite El1. split_and!; auto. by left.
Qed.

Lemma flipped_ghost g g1 w1 k l l1 flip :
  flipped g g1 w1 k l l1 flip →
  refs g1 = refs g ∧ cache g1 = cache g ∧ loose g1 = loose g ∧ delete k (pend g1) = delete k (pend g).
Proof.
  intros [(-> & _)|(p & sz & loc & b & _ & _ & _ & _ & _ & _ & ->)]; [done|]. simpl. by rewrite delete_insert_eq.
Qed.

(** A refused remove puts the entry back. *)
Lemma unflip_spec g g1 w w1 k e e1 flip :
  inv g1 w1 → entry w k = Some e → entry w1 k = Some e1 →
  flipped g g1 w1 k (DispatchMap.location e) (DispatchMap.location e1) flip →
  let w2 := match flip with
            | Some (pointer, size) => set_dm w1 (DispatchMap.promote_block_to_memory_tier (dm w1) k pointer size).2
            | None => w1
            end in
  inv g w2 ∧ same_location w w2 k.
Proof.
  intros I1 He He1 [(-> & -> & El)|(p & sz & loc & b & El & -> & El1 & Hb & Hs & Hp & ->)]; simpl.
  { split; [done|]. unfold same_location. rewrite He, He1. simpl. by rewrite El. }
  destruct (pend_slot _ w1 k sz (Some b) I1) as (ptr & Hs' & Hf); [simpl; apply lookup_insert_eq|].
  destruct (Hf b eq_refl) as [[Hz _] _]. pose proof (sizes k). unfold DispatchMap.promote_block_to_memory_tier.
  destruct (Z.eqb_spec sz 0); [lia|]. pose proof He1 as He1'. unfold entry in He1'. rewrite He1', El1. simpl.
  pose proof (inv_promoted size_of k e1 p sz loc b _ w1 I1 He1 El1 Hb Hs) as I2. simpl in I2.
  rewrite lookup_insert_eq, delete_insert_id in I2 by done. split.
  - destruct g. by apply I2.
  - unfold same_location, entry. simpl. rewrite lookup_insert_eq. unfold entry in He. rewrite He. simpl. by rewrite El.
Qed.

Definition remove_answer g w (k : Z) (x : res unit) w' : Prop :=
  match x with
  | Ok _ => is_Some (cache g !! k) ∧ refs g k = 0 ∧
      inv (mkGhost (refs g) (delete k (pend g)) None (delete k (cache g))) w'
  | Err e => e = Dispatcher.KeyNotFound k ∧ (cache g !! k = None ∨ refs g k ≠ 0) ∧ inv g w' ∧ same_location w w' k
  end.

Lemma cache_entry g w k e : inv g w → entry w k = Some e → is_Some (cache g !! k).
Proof. intros I He. destruct (i_key _ _ _ I k); try congruence; by eexists. Qed.

Lemma absent_state g w k :
  inv g w → cache g !! k = None → is_Some (pend g !! k) ∨ running (pin_at w k) = false →
  entry w k = None ∧ ledger (pin_at w k) = unpinned.
Proof.
  intros I Hc Hk. destruct (i_key _ _ _ I k) as [? _ _ ?|v ? _ _ Hl _ Hp| |]; [done| |congruence..].
  unfold ledger, taken_over in Hl. destruct Hk as [[? ?]|?]; congruence.
Qed.

Lemma unreferenced_unpinned g w k e :
  inv g w → entry w k = Some e → DispatchMap.read_ref e = 0 → ledger (pin_at w k) = unpinned ∧ refs g k = 0.
Proof.
  intros I He Hr. destruct (inv_counted _ _ _ _ _ I He) as (_ & H0 & Hc & _).
  destruct (pinned (pin_at w k)) eqn:Hp; simpl in Hc; [lia|]. split; [|lia].
  destruct (i_key _ _ _ I k) as [| |e0 ptr sz so b He0 El0 _ Hb Hs Hpd Hz Hf Hw|]; try congruence.
  destruct so; [apply Hw|]. destruct Hw as [Hl|[Hl|[Hl _]]]; [unfold ledger, waiting, writing in Hl; congruence..|done].
Qed.

Lemma remove_found_spec g w w1 k e e1 g1 flip :
  inv g w → loose g = None → entry w k = Some e → inv g1 w1 → entry w1 k = Some e1 →
  flipped g g1 w1 k (DispatchMap.location e) (DispatchMap.location e1) flip →
  ∃ x w', ('(x, m) ← DispatchMap.remove (dm w1) k;
    let w1 := set_dm w1 m in
    match x with
    | Ok _ => free_removed w1 k false (DispatchMap.stored (DispatchMap.location e1))
    | Err (DispatchMap.ActiveReferences _) =>
        '(taken, m, ks) ← remove_entry (dm w1) (pins w1) k;
        let w1 := set_pins (set_dm w1 m) ks in
        match taken with
        | Some job_frees_slot => free_removed w1 k job_frees_slot (DispatchMap.stored (DispatchMap.location e1))
        | None =>
            Ret (Err (Dispatcher.KeyNotFound k),
                 match flip with
                 | Some (pointer, size) => set_dm w1 (DispatchMap.promote_block_to_memory_tier (dm w1) k pointer size).2
                 | None => w1
                 end)
        end
    | Err _ => Ret (Err (Dispatcher.KeyNotFound k), w1)
    end) = Ret (x, w') ∧ remove_answer g w k x w'.
Proof.
  intros I Hno He I1 He1 Fl. destruct (flipped_ghost _ _ _ _ _ _ _ Fl) as (Hr1 & Hc1 & Hno1 & Hp1). rewrite Hno in Hno1.
  pose proof (cache_entry _ _ _ _ I He) as Hcs.
  assert (∀ w2 lo, left_loose w1 k (DispatchMap.location e1) lo → inv (dropped g1 k (DispatchMap.location e1) lo) w2 →
    is_Some (left_pend g1 k (DispatchMap.location e1) !! k) ∨ running (pin_at w2 k) = false → refs g k = 0 →
    ∃ x w', free_removed w2 k false (DispatchMap.stored (DispatchMap.location e1)) = Ret (x, w') ∧ remove_answer g w k x w') as Done.
  { intros w2 lo Hlo I2 Hab Hr0.
    destruct (absent_state _ _ k I2) as [He2 Hl2]; [simpl; apply lookup_delete_eq|done|].
    destruct (free_removed_spec g1 w1 w2 k _ lo (DispatchMap.stored (DispatchMap.location e1)) I2 Hlo) as (w' & -> & I' & _); [done..|].
    exists (Ok ()), w'. split; [done|]. rewrite Hr1, Hc1, Hp1 in I'. by split_and!. }
  destruct (inv_dm_remove size_of g1 w1 k I1 Hno1) as (x & m & -> & Hm). rewrite bind_Ret_l. rewrite He1 in Hm.
  destruct x as [u|[]]; try done.
  { destruct Hm as (Hr0 & lo & Hlo & I2). destruct (unreferenced_unpinned _ _ _ _ I1 He1 Hr0) as [Hl Hrf].
    apply (Done _ lo); try done; [|congruence]. right. by injection Hl. }
  destruct Hm as [Hrn ->]. rewrite set_dm_dm. cbv zeta.
  destruct (inv_remove_entry size_of g1 w1 k e1 I1 Hno1 He1) as (x & m & ks & -> & Hx). rewrite bind_Ret_l.
  destruct (inv_counted _ _ _ _ _ I1 He1) as (_ & _ & Hct & _). destruct x as [f|].
  - destruct Hx as (Hr0 & lo & Hlo & Ef & I2). rewrite Hr0 in Hct.
    destruct (pinned (pin_at w1 k)) eqn:Hpin; simpl in Hct; [|lia]. simpl in Ef.
    destruct (pinned_resident _ _ _ _ I1 Hpin) as (e0 & ptr & sz & b & He0 & El & _ & _ & _ & Hpd & _).
    rewrite He1 in He0. injection He0 as <-. rewrite El in *. destruct f.
    + exists (Ok ()), (set_pins (set_dm w1 m) ks). split; [done|]. split; [done|]. split; [congruence|].
      destruct Fl as [(-> & _)|(? & ? & ? & ? & _ & _ & ? & _)]; [|congruence]. rewrite (delete_id (pend g)) by done.
      eapply inv_ghost; [..|exact I2]; done.
    + apply (Done _ lo); try done; [|congruence]. left. simpl. rewrite lookup_insert_eq. by eexists.
  - destruct Hx as (Hr0 & I2 & Sl). destruct (same_location_entry _ _ _ _ Sl He1) as (e2 & He2 & El2).
    eexists _, _. split; [done|]. split; [done|]. split; [right; congruence|].
    apply (unflip_spec g g1 w _ k e e2 flip); try done. rewrite El2.
    destruct Fl as [Fl|(p & sz & loc & b & ? & ? & ? & ? & Hs & ?)]; [by left|right]. exists p, sz, loc, b. auto 10.
Qed.

Lemma remove_call_spec g w k : inv g w → loose g = None → ∃ x w', remove w k = Ret (x, w') ∧ remove_answer g w k x w'.
Proof.
  intros I Hno. unfold remove. destruct (find_extent_spec g w k I) as (x & w1 & Ef & _ & Hx).
  destruct x as [[off flip]|].
  2:{ rewrite Ef, bind_Ret_l. destruct Hx as (? & ? & ?). eexists _, w1. split; [done|]. split_and!; auto. }
  destruct (entry w k) as [e|] eqn:He.
  - destruct (find_extent_found g w k e off flip w1 I He Ef) as (g1 & e1 & He1 & I1 & -> & Fl).
    rewrite Ef, bind_Ret_l. destruct (remove_found_spec g w w1 k e e1 g1 flip I Hno He I1 He1 Fl) as (x & w' & Er & Ha).
    exists x, w'. split; [|done]. exact Er.
  - rewrite Ef, bind_Ret_l. destruct Hx as (-> & -> & ->).
    destruct (inv_dm_remove size_of g w k I Hno) as (x & m & -> & Hx). rewrite bind_Ret_l.
    rewrite He in Hx. destruct x as [|[]]; try done. subst m. rewrite set_dm_dm. eexists _, w. split; [done|].
    split_and!; [done| |done|done]. left. destruct (i_key _ _ _ I k); congruence.
Qed.

(** * Load *)

Lemma on_disk_drive g w k loc b :
  inv g w → on_disk size_of w k loc b →
  ∃ drive off, Location.select_drive (drives w) loc = Some (drive, off) ∧ blocks drive !! off = Some b ∧
    Z.of_nat (length b) = size_of k.
Proof.
  intros I (Hl & d & drive & off & Hd & En & Ex & Hb). exists drive, off. destruct (i_len _ _ _ I).
  destruct (i_drive _ _ _ I _ _ Hd) as [Eok _].
  destruct (select_drive_spec w d drive off loc Hd ltac:(lia) (extent_range _ _ _ Eok Ex) En). done.
Qed.

(** Reading an extent of [k] gives its bytes first. *)
Lemma read_drive_spec drive off b k sz tail :
  blocks (E:=E) drive !! off = Some b → Z.of_nat (length b) = size_of k → size_of k ≤ sz →
  take (Z.to_nat (size_of k)) (read_drive drive off sz tail) = b ∧
  size_of k ≤ Z.of_nat (length (read_drive drive off sz tail)) ≤ sz.
Proof.
  intros Hb Hl Hz. pose proof (sizes k). unfold read_drive. rewrite Hb. simpl. split.
  - rewrite take_take, Nat.min_l, take_app_le, take_ge by lia. done.
  - rewrite length_take, length_app. lia.
Qed.

Lemma read_and_promote_spec g w k e loc sz p ptr io tail :
  inv g w → pend g !! k = Some (sz, p) → slot w k = Some (ptr, sz) → fits size_of k sz →
  entry w k = Some e → DispatchMap.location e = DispatchMap.BlockDevice loc →
  ∃ x w', read_and_promote w k loc ptr sz io tail = Ret (x, w') ∧ inv (set_pend g (delete k (pend g))) w' ∧
    (∀ k', k' ≠ k → entry w' k' = entry w k') ∧
    match x with
    | Ok data => io = true ∧ cache g !! k = Some (take (Z.to_nat (size_of k)) data) ∧ Z.of_nat (length data) ≤ sz
    | Err er => io = false ∧ er = Dispatcher.IoError
    end.
Proof.
  intros I Hp Hs Hz He El. destruct (inv_cold _ _ _ _ _ I He El) as (_ & _ & b & Hb & Hd & _).
  destruct (on_disk_drive g w k loc b I Hd) as (drive & off & Sd & Hbl & Hlen). unfold read_and_promote. rewrite Sd.
  destruct (read_drive_spec drive off b k sz tail Hbl Hlen (proj1 (proj1 Hz))) as [Ht Hl]. cbv zeta.
  set (data := read_drive drive off sz tail) in *.
  assert (inv (set_pend g (<[k := (sz, Some b)]> (pend g))) (set_memory w (store_bytes (memory w) ptr data))) as I1.
  { eapply (inv_filled size_of k ptr sz p); try done; [lia|]. intros ? [= <-]. split; [done|]. split; [lia|done]. }
  set (w1 := set_memory w _) in *. destruct io; simpl.
  - pose proof (sizes k). unfold DispatchMap.promote_block_to_memory_tier. destruct Hz as [Hz1 Hz2].
    destruct (Z.eqb_spec sz 0); [lia|]. pose proof He as He0. unfold entry in He0. rewrite He0, El.
    eexists _, _. split; [done|]. split; [|split; [by intros; unfold entry; simpl; rewrite lookup_insert_ne|rewrite Ht; split_and!; [done..|lia]]].
    pose proof (inv_promoted size_of k e ptr sz loc b _ w1 I1 He El Hb Hs) as I2. simpl in I2.
    rewrite lookup_insert_eq, delete_insert_eq in I2. by apply I2.
  - destruct (inv_mt_remove _ w1 k I1) as (w' & -> & I' & Hdm & _); [right; simpl; rewrite lookup_insert_eq; by eexists|].
    rewrite bind_Ret_l. eexists _, w'. split; [done|]. split; [|split; [by intros; unfold entry; rewrite Hdm|done]]. simpl in I'. by rewrite delete_insert_eq in I'.
Qed.

Lemma fits_size k : fits size_of k (size_of k).
Proof. pose proof (sizes k). split; [lia|done]. Qed.

Lemma promote_and_serve_spec g w k e loc staging io tail ma :
  inv g w → 0 < refs g k → entry w k = Some e → DispatchMap.location e = DispatchMap.BlockDevice loc →
  ∃ x w', promote_and_serve w k loc (size_of k) staging io tail ma = Ret (x, w') ∧ inv g w' ∧
    match x with
    | Ok data => cache g !! k = Some data
    | Err (Dispatcher.AlreadyExists _) => is_Some (pend g !! k)
    | Err _ => io && staging = false
    end.
Proof.
  intros I Hr He El. unfold promote_and_serve. pose proof (sizes k).
  destruct (inv_insert g w k (size_of k) ma I ltac:(lia)) as (x & d & -> & Hh & Hx). rewrite bind_Ret_l. specialize (Hh Hr).
  set (w1 := set_disp w d) in *. rewrite He in Hh. change (drives w1) with (drives w).
  assert (drives w ≠ []) as Hnd by (destruct (i_len _ _ _ I) as [_ ?]; intros Hd; rewrite Hd in *; simpl in *; lia).
  destruct x as [ptr|err].
  - destruct Hx as (Hn & Hs & I1). pose proof (spare_pend _ _ _ I Hn) as Hpn.
    destruct (read_and_promote_spec _ w1 k e loc (size_of k) None ptr io tail I1) as (x & w' & Er & I' & _ & Hx);
      [simpl; apply lookup_insert_eq|done|apply fits_size|done|done|].
    simpl in I'. rewrite delete_insert_id in I' by done.
    exists x, w'. change (drives w1) with (drives w) in *. destruct (drives w); [done|]. split; [done|]. split; [destruct g; done|].
    destruct x as [data|err]; [|by destruct Hx as [-> ->]]. destruct Hx as (_ & Hc & Hl). simpl in Hc. rewrite take_ge in Hc by lia. done.
  - destruct Hx as (I1 & [[-> Hs]|[-> Hs]]).
    + eexists _, w1. split; [done|]. split; [done|].
      destruct (inv_cold _ _ _ _ _ I He El) as (_ & [[? _]|(? & ? & ? & _ & -> & _)] & _); [destruct Hs; congruence|by eexists].
    + rewrite bool_decide_false by done. simpl. destruct staging; simpl.
      2:{ eexists _, w1. split; [done|]. split; [done|]. by destruct io. }
      destruct (inv_cold _ _ _ _ _ I1 Hh El) as (_ & _ & b & Hb & Hd & _).
      destruct (on_disk_drive g w1 k loc b I1 Hd) as (drive & off & Sd & Hbl & Hlen). change (drives w1) with (drives w) in Sd. rewrite Sd.
      destruct (read_drive_spec drive off b k (size_of k) tail Hbl Hlen ltac:(lia)) as [Ht Hl].
      rewrite take_ge in Ht by lia. rewrite Ht. destruct io; eexists _, w1; (split; [done|]); split; done.
Qed.

Lemma inv_touch_dm g w k :
  inv g w → ∃ x m, DispatchMap.touch (dm w) k = Ret (x, m) ∧ inv g (set_dm w m) ∧
    DispatchMap.entries m = DispatchMap.entries (dm w) ∧
    match x with Ok _ => is_Some (entry w k) | Err _ => entry w k = None end.
Proof.
  intros I. unfold DispatchMap.touch, entry. destruct (DispatchMap.entries (dm w) !! k) as [e|] eqn:He.
  2:{ eexists _, _. split; [done|]. by rewrite set_dm_dm. }
  destruct (i_dm _ _ _ I) as (s & p & L & O).
  destruct (DispatchMap.touch_policy_spec _ _ _ _ _ _ O He) as (s' & -> & O'). rewrite bind_Ret_l.
  eexists _, _. split; [done|]. split; [|by split; [|eexists]].
  apply (inv_touched size_of g w); try done; [eauto|apply I].
Qed.

Lemma inv_touch_mt g w k :
  inv g w → ∃ t, MemoryTier.touch (mt w) k = Ret t ∧ inv g (set_mt w t) ∧ MemoryTier.view t = MemoryTier.view (mt w).
Proof.
  intros I. destruct (MemoryTier.tier_touch_spec (mt w) k (i_mt _ _ _ I)) as (t & -> & O & Es). exists t. split; [done|].
  assert (MemoryTier.view t = MemoryTier.view (mt w)) as Ev by (unfold MemoryTier.view; by rewrite Es).
  split; [|done]. apply (inv_touched size_of g w); try done. apply I.
Qed.

(** The regions of a request for [k]: as many bytes as it has. *)
Definition covers (k : Z) (regions : list Z) : Prop := Forall (λ r, 0 ≤ r) regions ∧ total regions = size_of k.

Lemma covers_one k : covers k [size_of k].
Proof. pose proof (sizes k). split; [by apply Forall_singleton; lia|]. unfold total. simpl. lia. Qed.

(** A resident entry is served from its slot. *)
Lemma serve_resident g w k e ptr sz so regions io :
  inv g w → entry w k = Some e → DispatchMap.location e = DispatchMap.MemoryTier ptr sz so → covers k regions →
  ∃ pieces, delivers (cache g) k regions pieces ∧
    serve_memory_tier_to_gpu w ptr sz regions io = if io then Ok pieces else Err Dispatcher.IoError.
Proof.
  intros I He El [Hn Ht]. destruct (inv_view _ _ _ _ _ _ _ I He El) as (_ & _ & [Hz _] & b & Hb & Hf & _).
  pose proof (sizes k). eexists. split; [|done]. split.
  - rewrite Hb, scatter_concat, Ht, drop_0 by done. unfold filled in Hf. subst b. by rewrite slice_take by lia.
  - apply scatter_cut; [done..|]. rewrite slice_length. lia.
Qed.

Definition served g (k : Z) (x : res (list Z)) : Prop := ∀ data, x = Ok data → cache g !! k = Some data.

Lemma serve_concurrently_promoted_spec g w k regions io :
  inv g w → covers k regions →
  ∃ x w', serve_concurrently_promoted w k regions io = Ret (x, w') ∧ inv g w' ∧
    ∀ ps, x = Ok ps → delivers (cache g) k regions ps.
Proof.
  intros I Hc. pose proof (refs_nonneg _ _ _ k I) as H0. unfold serve_concurrently_promoted.
  destruct (inv_lookup size_of g w k I) as (r & m & -> & Hr). rewrite bind_Ret_l. destruct r as [r|err].
  2:{ destruct Hr as (_ & _ & ->). rewrite set_dm_dm. eexists (Err _), w. split_and!; done. }
  destruct (entry w k) as [e|] eqn:He; [|destruct Hr as [-> ->]; rewrite set_dm_dm; eexists (Err _), w; split_and!; done].
  destruct Hr as (-> & _ & I1 & Sl1). destruct (same_location_entry _ _ _ _ Sl1 He) as (e1 & He1 & El1).
  destruct (inv_dm_release _ g _ k I1 H0) as [I2 Sl2]. destruct (DispatchMap.location e) as [off|ptr sz so] eqn:El; simpl.
  - eexists (Err _), _. split_and!; done.
  - destruct (serve_resident _ _ k e1 ptr sz so regions io I1 He1 El1 Hc) as (b & Hb & ->).
    destruct (inv_touch_dm g _ k I2) as (x & m' & Et & I3 & _). simpl in Et. rewrite Et, bind_Ret_l. eexists _, _. split; [done|].
    split; [exact I3|]. intros ps Hx. destruct io; by simplify_eq/=.
Qed.

Lemma lookup_call_spec g w k staging io tail ma :
  inv g w → ∃ x w', lookup w k (size_of k) staging io tail ma = Ret (x, w') ∧ inv g w' ∧ served g k x ∧
    (io = true → staging = true → pend g !! k = None → ref_count w g k ≠ u32_max →
     x = match cache g !! k with Some b => Ok b | None => Err (Dispatcher.KeyNotFound k) end).
Proof.
  intros I. pose proof (refs_nonneg _ _ _ k I) as H0. unfold lookup.
  destruct (inv_lookup size_of g w k I) as (r & m & -> & Hr). rewrite bind_Ret_l. destruct r as [r|err].
  2:{ destruct Hr as (_ & Hc & ->). rewrite set_dm_dm. eexists _, w. split; [done|]. split_and!; done. }
  destruct (entry w k) as [e|] eqn:He.
  2:{ destruct Hr as [-> ->]. rewrite set_dm_dm. eexists _, w. split; [done|]. split_and!; [done..|]. intros _ _ _ _.
      destruct (i_key _ _ _ I k) as [? _ ->|? ? _ ->| |]; [done..|congruence|congruence]. }
  destruct Hr as (-> & _ & I1 & Sl1). destruct (same_location_entry _ _ _ _ Sl1 He) as (e1 & He1 & El1).
  destruct (DispatchMap.location e) as [off|ptr sz so] eqn:El; simpl.
  - destruct (promote_and_serve_spec _ _ k e1 off staging io tail ma I1) as (x & w2 & -> & I2 & Hx);
      [simpl; rewrite upd_eq; lia|done|done|]. rewrite bind_Ret_l.
    assert (∃ x' w3, match x with
      | Err (Dispatcher.AlreadyExists _) => '(x, w) ← serve_concurrently_promoted w2 k [size_of k] io; Ret (served_bytes x, w)
      | _ => Ret (x, w2) end = Ret (x', w3) ∧ inv (add_ref g k 1) w3 ∧ served g k x' ∧
      (pend g !! k = None → io && staging = true → is_Some (cache g !! k) → ∃ b, x' = Ok b)) as (x' & w3 & -> & I3 & Hs & Hc).
    { destruct x as [data|err]; [exists (Ok data), w2; split_and!; auto; [|eauto]; intros ? [= <-]; done|].
      destruct err; try (eexists _, w2; split_and!; [done|done|done|congruence]).
      destruct (serve_concurrently_promoted_spec _ w2 k [size_of k] io I2 (covers_one k)) as (x' & w3 & -> & I3 & Hs).
      rewrite bind_Ret_l. exists (served_bytes x'), w3. split_and!; [done|done| |].
      { intros data Hd. destruct x' as [ps|]; simplify_eq/=. by apply Hs. }
      simpl in Hx. destruct Hx. congruence. }
    rewrite bind_Ret_l. destruct (inv_dm_release _ g _ k I3 H0) as [I4 _]. eexists _, _. split; [done|].
    split_and!; [done|done|]. intros -> -> Hpn _. destruct (cache_entry _ _ _ _ I1 He1) as [b Hb]. simpl in Hb.
    destruct (Hc Hpn eq_refl) as [b' ->]; [by eexists|]. rewrite Hb. specialize (Hs b' eq_refl). congruence.
  - destruct (serve_resident _ _ k e1 ptr sz so [size_of k] io I1 He1 El1 (covers_one k)) as (b & [Hb _] & ->). simpl in Hb.
    destruct (inv_dm_release _ g _ k I1 H0) as [I2 _]. destruct (inv_touch_mt g _ k I2) as (t & Et & I3 & _).
    simpl in Et. rewrite Et, bind_Ret_l. eexists _, _. split; [done|]. split; [exact I3|]. rewrite Hb. split.
    + intros data Hx. destruct io; simplify_eq/=. done.
    + by intros ->.
Qed.

Lemma rounded_fits k : fits size_of k (DispatchMap.blocks_of (size_of k) * 4096) ∧
  0 < DispatchMap.blocks_of (size_of k) * 4096 ∧ DispatchMap.blocks_of (size_of k) * 4096 ≤ 2 ^ 31 ∧
  mul_w 32 (DispatchMap.blocks_of (size_of k)) 4096 = Ret (DispatchMap.blocks_of (size_of k) * 4096).
Proof.
  pose proof (sizes k). unfold fits, DispatchMap.blocks_of.
  pose proof (Z.div_mod (size_of k + 4095) 4096 ltac:(lia)). pose proof (Z.mod_pos_bound (size_of k + 4095) 4096 ltac:(lia)).
  set (q := (size_of k + 4095) / 4096) in *. split_and!; try lia; [|apply mul_w_Ret; lia].
  replace (q * 4096 + 4095) with (4095 + q * 4096) by lia. rewrite Z.div_add by lia. rewrite Z.div_small by lia. lia.
Qed.

(** * References *)

Lemma take_pin_spec g w k :
  inv g w → ∃ x w', take_pin w k = (x, w') ∧
    match x with Ok _ => is_Some (cache g !! k) ∧ inv (add_ref g k 1) w' | Err _ => w' = w end.
Proof.
  intros I. unfold take_pin. destruct (inv_take_read size_of g w k I) as (x & m & -> & Hx). destruct x as [u|err].
  - destruct Hx as ([e He] & I1 & _). eexists _, _. split; [done|]. split; [by eapply cache_entry|done].
  - subst m. eexists _, _. split; [done|]. apply set_dm_dm.
Qed.

Lemma unpin_spec g w k :
  inv g w → 0 < refs g k → ∃ w', unpin w k = (Ok (), w') ∧ inv (add_ref g k (-1)) w'.
Proof.
  intros I Hr. unfold unpin.
  assert (inv (add_ref (add_ref g k (-1)) k 1) w) as I0.
  { apply (inv_ghost size_of g); try done. intros k'. simpl. rewrite upd_eq. unfold DispatchMap.upd.
    destruct (decide (k' = k)) as [->|]; lia. }
  destruct (inv_release size_of _ w k I0) as (m & -> & I1 & _); [simpl; rewrite upd_eq; lia|]. by eexists.
Qed.

Lemma touch_call_spec g w k : inv g w → ∃ x w', touch w k = Ret (x, w') ∧ inv g w'.
Proof.
  intros I. unfold touch. destruct (inv_touch_dm g w k I) as (x & m & -> & I1 & _). rewrite bind_Ret_l.
  simpl. destruct x; [|by eexists _, _]. destruct (inv_touch_mt g _ k I1) as (t & Et & I2 & _). simpl in Et. rewrite Et, bind_Ret_l. by eexists _, _.
Qed.

(** In a quiet map the retries change nothing. *)
Lemma lookup_retry_spec g w k n :
  inv g w → ∃ x m, lookup_retry n (dm w) k = Ret (x, m) ∧ DispatchMap.lookup (dm w) k = Ret (x, m).
Proof.
  intros I. destruct (inv_lookup size_of g w k I) as (x & m & El & Hx). induction n as [|n IH]; simpl; rewrite El, bind_Ret_l.
  - exists x, m. by destruct x.
  - destruct x; [by eexists _, _|]. destruct Hx as (_ & _ & ->). rewrite <- El. apply IH.
Qed.

Lemma check_spec g w k :
  inv g w → ∃ x w', check w k = Ret (x, w') ∧ inv g w' ∧ ∀ b, x = Ok b → b = bool_decide (is_Some (cache g !! k)).
Proof.
  intros I. pose proof (refs_nonneg _ _ _ k I) as H0.
  unfold check. destruct (lookup_retry_spec g w k LOOKUP_RETRIES I) as (x & m & -> & El). rewrite bind_Ret_l.
  destruct (inv_lookup size_of g w k I) as (x' & m' & El' & Hx). rewrite El in El'. injection El' as <- <-. destruct x as [r|err].
  - destruct (entry w k) as [e|] eqn:He.
    + destruct Hx as (-> & _ & I1 & _). destruct (inv_dm_release _ g _ k I1 H0) as [I2 _].
      pose proof (cache_entry _ _ _ _ I He). destruct (DispatchMap.location e); simpl; eexists _, _; (split; [done|]); (split; [done|]);
        intros b [= <-]; by rewrite bool_decide_true.
    + destruct Hx as [-> ->]. rewrite set_dm_dm. eexists _, _. split; [done|]. split; [done|]. intros b [= <-].
      rewrite bool_decide_false; [done|]. intros [? ?]. destruct (i_key _ _ _ I k); congruence.
  - destruct Hx as (_ & _ & ->). rewrite set_dm_dm. destruct err; eexists _, _; (split; [done|]); done.
Qed.

End calls.

End StoreCalls.
