(* ===== verification/StoreBatch.v ===== *)
(** The dispatcher's batch calls ([components/dispatcher/src/lib.rs]):
    [batch_lookup] in its passes (classification, cold promotion over all drives,
    staging, the deferred synchronisation, forwarding to peers, recovery of
    concurrent promotions) and [batch_populate]. The answers of the GPU, of the
    channel pools and of the devices are a record of functions of the entry's or
    the drive's index; the component that asks the peers is a parameter. *)

From S2P Require Import Prelude LruList EvictionPolicy FreeList MemoryTier DispatchMap Dispatcher Pins ExtentStore StorePath.

Module StoreBatch.
Import Policy WriteThroughPins ExtentStore StorePath.
Local Open Scope Z_scope.

Inductive ServedBy := Dram | Ssd | Remote | Fetched | Miss | SizeMismatch | Error.

#[global] Instance ServedBy_eq_dec : EqDecision ServedBy.
Proof. solve_decision. Defined.

Definition is_hit (s : ServedBy) : bool :=
  match s with Dram | Ssd | Remote | Fetched => true | _ => false end.

Inductive RemoteLookupError := NotFound | TransportError.

(** A key and the sizes of its GPU regions. *)
Record Request := mkRequest { r_key : Z; r_regions : list Z }.

Record ColdEntry := mkCold { idx : nat; c_key : Z; c_offset : Z; c_regions : list Z; total_size : Z }.

(** A cold entry with the slot it is read into. *)
Record ColdReadJob := mkReadJob { j_entry : ColdEntry; j_ptr : Z }.

(** What the environment answers: whether entry [i]'s copy from memory is issued,
    whether the warm stream exists and synchronises, whether there are streams for
    the reads, which drives' channels can be checked out, how the reads go and what
    follows the data on the device, and the same for staging, recovery and
    deliveries from peers. *)
Record Env := mkEnv {
  submit : nat → bool;
  warm_stream : bool;
  warm_sync : bool;
  pipe_streams : bool;
  checkout : nat → bool;
  read : nat → bool;
  tail : nat → list Z;
  staging : bool;
  staging_fits : nat → bool;
  recover : nat → bool;
  deliver : nat → bool;
  deliver_sync : bool
}.

(** The sum of [u32] sizes. *)
Fixpoint sum_u32 (acc : Z) (xs : list Z) : outcome Z :=
  match xs with
  | [] => Ret acc
  | x :: xs => acc ← add_w 32 acc x; sum_u32 acc xs
  end.

Section batch.
Context {S1 S2 E : Type} `{P1 : IEvictionPolicy S1, P2 : IEvictionPolicy S2, X : IExtentManager E}.
Abbreviation World := (World S1 S2 E).
Abbreviation pieces := (list (list Z)).
Implicit Types w : World.

(** ** Lookup *)

(** The call's local state in the classification loop; [warm] are the keys it
    pins and touches later. *)
Record Pass := mkPass {
  world : World;
  results : list (option (res pieces));
  tier : list (option ServedBy);
  warm : list Z;
  inflight : list nat;
  cold : list ColdEntry
}.

Definition set_result (st : Pass) (i : nat) (x : res pieces) : Pass :=
  mkPass (world st) (<[i := Some x]> (results st)) (tier st) (warm st) (inflight st) (cold st).
Definition set_world (st : Pass) (w : World) : Pass :=
  mkPass w (results st) (tier st) (warm st) (inflight st) (cold st).

Definition classify (env : Env) (st : Pass) (i : nat) (r : Request) : outcome Pass :=
  let key := r_key r in
  size ← sum_u32 0 (r_regions r);
  '(lk, m) ← lookup_retry LOOKUP_RETRIES (dm (world st)) key;
  let w := set_dm (world st) m in
  match lk with
  | Ok DispatchMap.NotExist | Err _ => Ret (set_result (set_world st w) i (Err (Dispatcher.KeyNotFound key)))
  | Ok (DispatchMap.FoundMemory pointer slot_size) =>
      let x := serve_memory_tier_to_gpu w pointer slot_size (r_regions r) (submit env i) in
      Ret (mkPass w (<[i := Some x]> (results st)) (<[i := Some Dram]> (tier st)) (warm st ++ [key])
                  (if warm_stream env && submit env i then inflight st ++ [i] else inflight st) (cold st))
  | Ok (DispatchMap.FoundBlock offset) =>
      Ret (mkPass (dm_release w key) (results st) (<[i := Some Ssd]> (tier st)) (warm st) (inflight st)
                  (cold st ++ [mkCold i key offset (r_regions r) size]))
  end.

Fixpoint classify_all (env : Env) (st : Pass) (i : nat) (entries : list Request) : outcome Pass :=
  match entries with
  | [] => Ret st
  | r :: entries => st ← classify env st i r; classify_all env st (S i) entries
  end.

(** Without drives nothing is read and nothing reaches the GPU. *)
Definition promote_without_drives (w : World) (e : ColdEntry) (max_attempts : nat) : outcome (res pieces * World) :=
  '(_, d) ← Dispatcher.evict_for_space (disp w) (total_size e) max_attempts;
  let w := set_disp w d in
  '(p, t) ← MemoryTier.insert (mt w) (c_key e) (total_size e);
  let w := set_mt w t in
  match p with
  | Ok mem_ptr =>
      let '(x, m) := DispatchMap.promote_block_to_memory_tier (dm w) (c_key e) mem_ptr (total_size e) in
      let w := set_dm w m in
      w ← match x with Ok _ => Ret w | Err _ => mt_remove w (c_key e) end;
      Ret (Ok [], w)
  | Err (MemoryTier.AlreadyExists k) => Ret (Err (Dispatcher.AlreadyExists k), w)
  | Err _ => Ret (Err Dispatcher.AllocationFailed, w)
  end.

Fixpoint promote_all_without_drives (st : Pass) (es : list ColdEntry) (max_attempts : nat) : outcome Pass :=
  match es with
  | [] => Ret st
  | e :: es =>
      '(x, w) ← promote_without_drives (world st) e max_attempts;
      promote_all_without_drives (set_result (set_world st w) (idx e) x) es max_attempts
  end.

Definition drive_of (e : ColdEntry) : nat := Z.to_nat (Location.decode_loc (c_offset e)).1.

(** Entries whose location names no drive. *)
Fixpoint reject_invalid (st : Pass) (es : list ColdEntry) (num_drives : nat) : Pass :=
  match es with
  | [] => st
  | e :: es =>
      reject_invalid (if bool_decide (drive_of e < num_drives)%nat then st
                      else set_result st (idx e) (Err Dispatcher.IoError)) es num_drives
  end.

Definition per_drive (es : list ColdEntry) (d : nat) : list ColdEntry := filter (λ e, drive_of e = d) es.

(** A slot for each cold entry, drive by drive: the reads to do, and the entries
    left to staging. *)
Fixpoint cold_prep (env : Env) (st : Pass) (es : list ColdEntry) (jobs : list (nat * ColdReadJob))
    (staged : list ColdEntry) (max_attempts : nat) : outcome (Pass * list (nat * ColdReadJob) * list ColdEntry) :=
  match es with
  | [] => Ret (st, jobs, staged)
  | e :: es =>
      '(x, d) ← Dispatcher.evict_and_insert (disp (world st)) (c_key e) (total_size e) max_attempts;
      let st := set_world st (set_disp (world st) d) in
      match x with
      | Ok mem_ptr => cold_prep env st es (jobs ++ [(drive_of e, mkReadJob e mem_ptr)]) staged max_attempts
      | Err Dispatcher.AllocationFailed =>
          if staging env then cold_prep env st es jobs (staged ++ [e]) max_attempts
          else cold_prep env (set_result st (idx e) (Err Dispatcher.AllocationFailed)) es jobs staged max_attempts
      | Err er => cold_prep env (set_result st (idx e) (Err er)) es jobs staged max_attempts
      end
  end.

(** No read ran: the slots go back. *)
Fixpoint release_slots (w : World) (jobs : list (nat * ColdReadJob)) : outcome World :=
  match jobs with
  | [] => Ret w
  | (_, j) :: jobs => w ← mt_remove w (c_key (j_entry j)); release_slots w jobs
  end.

Fixpoint fail_jobs (st : Pass) (jobs : list (nat * ColdReadJob)) : Pass :=
  match jobs with
  | [] => st
  | (_, j) :: jobs => fail_jobs (set_result st (idx (j_entry j)) (Err Dispatcher.IoError)) jobs
  end.

(** [scatter_gather_multi_drive_zero_copy]: every read into its slot and on to
    the GPU; the answer of each job. *)
Fixpoint scatter_gather (env : Env) (w : World) (jobs : list (nat * ColdReadJob)) :
    outcome (list (res pieces) * World) :=
  match jobs with
  | [] => Ret ([], w)
  | (d, j) :: jobs =>
      drive ← vec_get (drives w) d;
      let e := j_entry j in
      let data := read_drive drive (Location.decode_loc (c_offset e)).2 (total_size e) (tail env (idx e)) in
      let w := set_memory w (store_bytes (memory w) (j_ptr j) data) in
      '(xs, w) ← scatter_gather env w jobs;
      Ret ((if read env (idx e) then Ok (scatter data 0 (c_regions e)) else Err Dispatcher.IoError) :: xs, w)
  end.

(** A finished read makes its entry resident; a failed one gives the slot back. *)
Definition settle_job (w : World) (j : ColdReadJob) (x : res pieces) : outcome (res pieces * World) :=
  let e := j_entry j in
  match x with
  | Ok _ =>
      let '(y, m) := DispatchMap.promote_block_to_memory_tier (dm w) (c_key e) (j_ptr j) (total_size e) in
      let w := set_dm w m in
      match y with
      | Ok _ => Ret (x, w)
      | Err _ => w ← mt_remove w (c_key e); Ret (Err Dispatcher.IoError, w)
      end
  | Err er => w ← mt_remove w (c_key e); Ret (Err er, w)
  end.

Fixpoint settle_jobs (st : Pass) (jobs : list (nat * ColdReadJob)) (xs : list (res pieces)) : outcome Pass :=
  match jobs, xs with
  | (_, j) :: jobs, x :: xs =>
      '(x, w) ← settle_job (world st) j x;
      settle_jobs (set_result (set_world st w) (idx (j_entry j)) x) jobs xs
  | _, _ => Ret st
  end.

(** The drives with reads to do, in order. *)
Definition active (jobs : list (nat * ColdReadJob)) (num_drives : nat) : list nat :=
  filter (λ d, d ∈ jobs.*1) (seq 0 num_drives).

(** The reads. Without streams every job fails; when a drive's channel cannot be
    checked out no read runs, and that drive's jobs fail. *)
Definition run_jobs (env : Env) (st : Pass) (jobs : list (nat * ColdReadJob)) : outcome Pass :=
  if bool_decide (jobs = []) then Ret st
  else if negb (pipe_streams env) then
    w ← release_slots (world st) jobs; Ret (fail_jobs (set_world st w) jobs)
  else
    match filter (λ d, checkout env d = false) (active jobs (length (drives (world st)))) with
    | d :: _ =>
        w ← release_slots (world st) jobs;
        Ret (fail_jobs (set_world st w) (filter (λ j, j.1 = d) jobs))
    | [] =>
        '(xs, w) ← scatter_gather env (world st) jobs;
        settle_jobs (set_world st w) jobs xs
    end.

(** The staging buffers hold an entry or do not; the entry stays on its drive. *)
Definition serve_cold_staged (w : World) (e : ColdEntry) (fits io : bool) (tail : list Z) : res pieces :=
  if negb fits then Err Dispatcher.AllocationFailed
  else
    match Location.select_drive (drives w) (c_offset e) with
    | None => Err Dispatcher.IoError
    | Some (drive, raw) =>
        if io then Ok (scatter (read_drive drive raw (total_size e) tail) 0 (c_regions e)) else Err Dispatcher.IoError
    end.

Fixpoint serve_staged (env : Env) (st : Pass) (es : list ColdEntry) : Pass :=
  match es with
  | [] => st
  | e :: es =>
      let x := serve_cold_staged (world st) e (staging_fits env (idx e)) (read env (idx e)) (tail env (idx e)) in
      serve_staged env (set_result st (idx e) x) es
  end.

Definition promote_cold (env : Env) (st : Pass) (max_attempts : nat) : outcome Pass :=
  let es := cold st in
  match length (drives (world st)) with
  | O => promote_all_without_drives st es max_attempts
  | S _ as n =>
      let st := reject_invalid st es n in
      '(st, jobs, staged) ← cold_prep env st (mjoin (per_drive es <$> seq 0 n)) [] [] max_attempts;
      st ← run_jobs env st jobs;
      Ret (serve_staged env st staged)
  end.

Fixpoint fail_all (st : Pass) (ixs : list nat) : Pass :=
  match ixs with
  | [] => st
  | i :: ixs => fail_all (set_result st i (Err Dispatcher.IoError)) ixs
  end.

(** Dropping [PinnedKeys]. *)
Definition release_pins (w : World) (keys : list Z) : World := foldl dm_release w keys.

(** The deferred synchronisation of the warm copies, then their pins. *)
Definition sync_warm (env : Env) (st : Pass) : Pass :=
  let st := if negb (bool_decide (warm st = [])) && warm_stream env && negb (warm_sync env)
            then fail_all st (inflight st) else st in
  set_world st (release_pins (world st) (warm st)).

(** The component that asks the peers, when one is bound: it answers for each key
    and, on success, leaves the key's bytes in the memory tier. *)
Abbreviation RemoteLookup := (World → list (Z * Z) → outcome (list (result unit RemoteLookupError) * World)).

Definition is_missing (x : option (option (res pieces))) : bool :=
  match x with Some (Some (Err (Dispatcher.KeyNotFound _))) => true | _ => false end.

Definition missing (st : Pass) : list nat :=
  filter (λ i, is_missing (results st !! i) = true) (seq 0 (length (results st))).

Fixpoint remote_entries (entries : list Request) (ixs : list nat) : outcome (list (Z * Z)) :=
  match ixs with
  | [] => Ret []
  | i :: ixs =>
      r ← vec_get entries i;
      size ← sum_u32 0 (r_regions r);
      rest ← remote_entries entries ixs;
      Ret ((r_key r, size) :: rest)
  end.

(** One peer's answer; [submitted] are the entries whose copy is issued. *)
Definition deliver_remote (env : Env) (entries : list Request) (st : Pass) (submitted : list nat) (i : nat)
    (x : result unit RemoteLookupError) : outcome (Pass * list nat) :=
  r ← vec_get entries i;
  let key := r_key r in
  match x with
  | Err NotFound => Ret (set_result st i (Err (Dispatcher.KeyNotFound key)), submitted)
  | Err TransportError => Ret (set_result st i (Err Dispatcher.IoError), submitted)
  | Ok _ =>
      '(lk, m) ← DispatchMap.lookup (dm (world st)) key;
      let w := set_dm (world st) m in
      match lk with
      | Ok (DispatchMap.FoundMemory pointer slot_size) =>
          let x := serve_memory_tier_to_gpu w pointer slot_size (r_regions r) (deliver env i) in
          Ret (mkPass w (<[i := Some x]> (results st)) (<[i := Some Remote]> (tier st)) (warm st ++ [key])
                      (inflight st) (cold st),
               if deliver env i then submitted ++ [i] else submitted)
      | Ok (DispatchMap.FoundBlock _) =>
          Ret (set_result (set_world st (dm_release w key)) i (Err (Dispatcher.KeyNotFound key)), submitted)
      | Ok DispatchMap.NotExist => Ret (set_result (set_world st w) i (Err (Dispatcher.KeyNotFound key)), submitted)
      | Err _ => Ret (set_result (set_world st w) i (Err Dispatcher.IoError), submitted)
      end
  end.

Fixpoint deliver_all (env : Env) (entries : list Request) (st : Pass) (submitted : list nat)
    (xs : list (nat * result unit RemoteLookupError)) : outcome (Pass * list nat) :=
  match xs with
  | [] => Ret (st, submitted)
  | (i, x) :: xs =>
      '(st, submitted) ← deliver_remote env entries st submitted i x; deliver_all env entries st submitted xs
  end.

Definition forward_missing (env : Env) (remote : option RemoteLookup) (entries : list Request) (st : Pass) :
    outcome Pass :=
  let ixs := missing st in
  match remote with
  | Some ask =>
      if bool_decide (ixs = []) then Ret st
      else
        asked ← remote_entries entries ixs;
        '(answers, w) ← ask (world st) asked;
        let st := mkPass w (results st) (tier st) [] (inflight st) (cold st) in
        '(st, submitted) ← deliver_all env entries st [] (zip ixs answers);
        let st := if negb (bool_decide (submitted = [])) && warm_stream env && negb (deliver_sync env)
                  then fail_all st submitted else st in
        Ret (set_world st (release_pins (world st) (warm st)))
  | None => Ret st
  end.

(** Entries another call promoted meanwhile. *)
Fixpoint recover_promoted (env : Env) (st : Pass) (i : nat) (entries : list Request) : outcome Pass :=
  match entries with
  | [] => Ret st
  | r :: entries =>
      st ← match results st !! i with
           | Some (Some (Err (Dispatcher.AlreadyExists _))) =>
               '(x, w) ← serve_concurrently_promoted (world st) (r_key r) (r_regions r) (recover env i);
               Ret (mkPass w (<[i := Some x]> (results st)) (<[i := Some Dram]> (tier st)) (warm st) (inflight st) (cold st))
           | _ => Ret st
           end;
      recover_promoted env st (S i) entries
  end.

(** The attribution of a result; a hit nobody has claimed fails an assertion. *)
Definition attribute (x : option (res pieces)) (t : option ServedBy) : outcome (ServedBy * res pieces) :=
  x ← unwrap x;
  match x, t with
  | Ok _, Some t => Ret (t, x)
  | Ok _, None => Panic
  | Err (Dispatcher.KeyNotFound _), _ => Ret (Miss, x)
  | Err Dispatcher.InvalidParameter, _ => Ret (SizeMismatch, x)
  | Err _, _ => Ret (Error, x)
  end.

Fixpoint outcomes (xs : list (option (res pieces))) (ts : list (option ServedBy)) : outcome (list (ServedBy * res pieces)) :=
  match xs, ts with
  | x :: xs, t :: ts => o ← attribute x t; os ← outcomes xs ts; Ret (o :: os)
  | _, _ => Ret []
  end.

Definition start_pass (w : World) (n : nat) : Pass := mkPass w (replicate n None) (replicate n None) [] [] [].

Definition batch_lookup (env : Env) (remote : option RemoteLookup) (w : World) (entries : list Request) (max_attempts : nat) :
    outcome (list (ServedBy * res pieces) * World) :=
  st ← classify_all env (start_pass w (length entries)) 0 entries;
  t ← if bool_decide (warm st = []) then Ret (mt (world st)) else MemoryTier.batch_touch (mt (world st)) (warm st);
  let st := set_world st (set_mt (world st) t) in
  st ← if bool_decide (cold st = []) then Ret st else promote_cold env st max_attempts;
  st ← forward_missing env remote entries (sync_warm env st);
  st ← recover_promoted env st 0 entries;
  os ← outcomes (results st) (tier st);
  Ret (os, world st).

(** ** Populate *)

(** The entry [i] of a batch: its key and the bytes of its GPU region; whether
    its copy is issued and what it leaves in the slot if not. *)
Record StoreEnv := mkStoreEnv {
  issue : nat → Dma;
  junk : nat → list Z;
  store_sync : bool;
  device : nat → nat
}.

Abbreviation stores := (list (option (res unit))).

(** Reservations and copies, one after the other. *)
Fixpoint populate_submit (env : StoreEnv) (w : World) (rs : stores) (submitted : list (nat * Z * Z)) (i : nat)
    (entries : list (Z * list Z)) (max_attempts polls : nat) : outcome (World * stores * list (nat * Z * Z)) :=
  match entries with
  | [] => Ret (w, rs, submitted)
  | (key, bytes) :: entries =>
      let size := Z.of_nat (length bytes) in
      if size =? 0 then populate_submit env w (<[i := Some (Err Dispatcher.InvalidParameter)]> rs) submitted (S i) entries max_attempts polls
      else
        '(x, w) ← reserve_memory w key size max_attempts polls;
        match x with
        | Ok _ =>
            '(y, w) ← copy_gpu_to_memory_async w key [bytes] (issue env i) (junk env i);
            match y with
            | Ok _ => populate_submit env w rs (submitted ++ [(i, key, size)]) (S i) entries max_attempts polls
            | Err e =>
                '(_, w) ← release_memory w key;
                populate_submit env w (<[i := Some (Err e)]> rs) submitted (S i) entries max_attempts polls
            end
        | Err Dispatcher.AllocationFailed =>
            populate_submit env w (<[i := Some (Ok ())]> rs) submitted (S i) entries max_attempts polls
        | Err e => populate_submit env w (<[i := Some (Err e)]> rs) submitted (S i) entries max_attempts polls
        end
  end.

Fixpoint populate_abort (w : World) (rs : stores) (submitted : list (nat * Z * Z)) : outcome (World * stores) :=
  match submitted with
  | [] => Ret (w, rs)
  | (i, key, _) :: submitted =>
      '(_, w) ← release_memory w key;
      populate_abort w (<[i := Some (Err Dispatcher.IoError)]> rs) submitted
  end.

Fixpoint populate_register (env : StoreEnv) (w : World) (rs : stores) (submitted : list (nat * Z * Z)) : outcome (World * stores) :=
  match submitted with
  | [] => Ret (w, rs)
  | (i, key, size) :: submitted =>
      '(x, w) ← copy_gpu_to_memory_completed w key size (device env i);
      populate_register env w (<[i := Some x]> rs) submitted
  end.

Fixpoint unwrap_all (rs : stores) : outcome (list (res unit)) :=
  match rs with
  | [] => Ret []
  | r :: rs => x ← unwrap r; xs ← unwrap_all rs; Ret (x :: xs)
  end.

Definition batch_populate (env : StoreEnv) (w : World) (entries : list (Z * list Z)) (max_attempts polls : nat) :
    outcome (list (res unit) * World) :=
  '(w, rs, submitted) ← populate_submit env w (replicate (length entries) None) [] 0 entries max_attempts polls;
  '(w, rs) ← if store_sync env then populate_register env w rs submitted else populate_abort w rs submitted;
  xs ← unwrap_all rs;
  Ret (xs, w).

End batch.

Arguments Pass S1 S2 E {X}.

End StoreBatch.
