(* ===== verification/BatchCalls.v ===== *)
(** The batch calls of [StoreBatch] keep the invariant of the cache. A batch
    lookup holds several pins and several half-filled slots at once; its passes
    are followed one by one, with what each leaves open for the next. *)

From S2P Require Import Prelude LruList EvictionPolicy FreeList MemoryTier DispatchMap Dispatcher Pins ExtentStore StorePath StoreInvariant StoreCalls StoreBatch.

Module BatchCalls.
Import Policy WriteThroughPins ExtentStore StorePath StoreInvariant StoreCalls StoreBatch.
Local Open Scope Z_scope.

Section frames.
Context {S1 S2 E : Type} `{P1 : IEvictionPolicy S1, L1 : !EvictionPolicyLaws S1,
  P2 : IEvictionPolicy S2, L2 : !EvictionPolicyLaws S2,
  X : IExtentManager E, XL : !ExtentManagerLaws E}.
Context (size_of : Z → Z) (sizes : ∀ k, 0 < size_of k ≤ 2 ^ 30).
Abbreviation World := (World S1 S2 E).
Abbreviation inv := (inv size_of).
Implicit Types (w : World) (g : ghost).

(** * Frames *)

(** Key [k] is only on a drive, at [loc]. *)
Definition cold_at w (k loc : Z) : Prop := ∃ e, entry w k = Some e ∧ DispatchMap.location e = DispatchMap.BlockDevice loc.

(** Entries and slots are where they were. *)
Record same_places w w' : Prop := {
  sp_location : ∀ k, same_location w w' k;
  sp_slot : ∀ k, slot w' k = slot w k;
  sp_pin : ∀ k, pin_at w' k = pin_at w k;
  sp_drives : drives w' = drives w
}.

Lemma same_places_refl w : same_places w w.
Proof. by split. Qed.

Lemma same_places_trans w1 w2 w3 : same_places w1 w2 → same_places w2 w3 → same_places w1 w3.
Proof. intros [A1 A2 A3 A4] [B1 B2 B3 B4]. split; intros; unfold same_location in *; congruence. Qed.

Lemma same_places_cold w w' k loc : same_places w w' → cold_at w k loc → cold_at w' k loc.
Proof.
  intros [Sl _ _ _] (e & He & El). destruct (same_location_entry _ _ _ _ (Sl k) He) as (e' & He' & El').
  exists e'. split; congruence.
Qed.

Lemma lookup_others (m m' : DispatchMap.Map S1) k x k' :
  DispatchMap.lookup m k = Ret (x, m') → k' ≠ k → DispatchMap.entries m' !! k' = DispatchMap.entries m !! k'.
Proof.
  unfold DispatchMap.lookup. intros El Hne. destruct (DispatchMap.entries m !! k) as [e|]; [|by injection El as <- <-].
  destruct (negb _); [by injection El as <- <-|]. destruct (_ =? _); [by injection El as <- <-|].
  destruct (DispatchMap.touch_policy _ _) as [m1|] eqn:Et; [|done]. apply DispatchMap.touch_policy_entries in Et.
  injection El as <- <-. rewrite Et. simpl. by rewrite lookup_insert_ne.
Qed.

Lemma release_others w k k' : k' ≠ k → entry (dm_release w k) k' = entry w k'.
Proof.
  intros Hne. unfold dm_release, DispatchMap.release_read, entry. destruct (DispatchMap.entries (dm w) !! k) as [e|]; [|done].
  destruct (_ =? _); [done|]. simpl. by rewrite lookup_insert_ne.
Qed.

Lemma released g w k : inv (add_ref g k 1) w → 0 ≤ refs g k → inv g (dm_release w k) ∧ same_places w (dm_release w k).
Proof.
  intros I H0. destruct (inv_dm_release size_of g w k I H0) as [I' Sl]. split; [done|]. split; try done.
  intros k'. destruct (decide (k' = k)) as [->|Hne]; [done|]. unfold same_location. by rewrite release_others.
Qed.

(** The lookup with its retries: the key is absent, out of references, or found
    and held. *)
Lemma retried g w n k :
  inv g w → ∃ x m, lookup_retry n (dm w) k = Ret (x, m) ∧ same_places w (set_dm w m) ∧
    match x with
    | Ok DispatchMap.NotExist => cache g !! k = None ∧ inv g (set_dm w m)
    | Ok (DispatchMap.FoundMemory ptr sz) => inv (add_ref g k 1) (set_dm w m) ∧
        ∃ e so, entry (set_dm w m) k = Some e ∧ DispatchMap.location e = DispatchMap.MemoryTier ptr sz so
    | Ok (DispatchMap.FoundBlock loc) => inv (add_ref g k 1) (set_dm w m) ∧ cold_at w k loc
    | Err _ => is_Some (cache g !! k) ∧ ref_count w g k = u32_max ∧ inv g (set_dm w m)
    end.
Proof.
  intros I. destruct (lookup_retry_spec size_of g w k n I) as (x & m & -> & El). exists x, m. split; [done|].
  destruct (inv_lookup size_of g w k I) as (x' & m' & El' & Hx). rewrite El in El'. injection El' as <- <-.
  assert (same_location w (set_dm w m) k → same_places w (set_dm w m)) as Sp.
  { intros Sl. split; try done. intros k'. destruct (decide (k' = k)) as [->|Hne]; [done|].
    unfold same_location, entry. simpl. by rewrite (lookup_others _ _ _ _ _ El Hne). }
  destruct x as [r|err].
  - destruct (entry w k) as [e|] eqn:He.
    + destruct Hx as (-> & _ & I' & Sl). split; [auto|]. destruct (same_location_entry _ _ _ _ Sl He) as (e' & He' & El').
      destruct (DispatchMap.location e) eqn:Hl; simpl; (split; [done|]).
      * by exists e.
      * eexists e', _. by rewrite El'.
    + destruct Hx as [-> ->]. rewrite set_dm_dm. split; [apply same_places_refl|]. split; [|done].
      destruct (i_key _ _ _ I k) as [? _ ?|? ? _ ?| |]; congruence.
  - destruct Hx as ([e He] & Hr & ->). rewrite set_dm_dm. split; [apply same_places_refl|]. split_and!; [|done..].
    exact (cache_entry size_of g w k e I He).
Qed.

(** A slot taken for [k] leaves the cold entries and their slots alone. *)
Lemma inserted_cold g w k sz ma x d :
  inv g w → 0 < sz ≤ 2 ^ 31 → Dispatcher.evict_and_insert (disp w) k sz ma = Ret (x, d) →
  ∀ k' loc, cold_at w k' loc → cold_at (set_disp w d) k' loc ∧ (k' ≠ k → slot (set_disp w d) k' = slot w k').
Proof.
  intros I Hz Ei k' loc (e & He & El). pose proof (inv_good _ _ _ I) as G.
  destruct (Dispatcher.evict_and_insert_spec (holds_of w g) (disp w) k sz ma G ltac:(lia) ltac:(split; lia)) as (x' & d' & Ex & _ & Hx).
  rewrite Ei in Ex. injection Ex as <- <-. change (Dispatcher.mt (disp w)) with (mt w) in Hx.
  assert (∀ d1, Dispatcher.evicts (holds_of w g) (disp w) d1 →
    DispatchMap.entries (Dispatcher.dm d1) !! k' = Some e ∧ MemoryTier.view (Dispatcher.mt d1) !! k' = slot w k') as Hv.
  { intros d1 V. destruct (Dispatcher.v_key _ _ _ V k') as [[H1 H2]|(e0 & e1 & H1 & _ & D & _)].
    - unfold entry in He. simpl in H1. rewrite H1, He. done.
    - simpl in H1. unfold entry in He. rewrite He in H1. injection H1 as <-. destruct D as (? & ? & ? & ? & _). congruence. }
  unfold cold_at. destruct (MemoryTier.view (mt w) !! k) as [v|].
  { destruct Hx as [_ ->]. rewrite set_disp_disp. eauto. }
  destruct x as [ptr|er]; simpl in Hx.
  - destruct Hx as (d1 & V & _ & Ed & Ev). destruct (Hv d1 V) as [H1 H2]. unfold entry, slot in *. simpl.
    rewrite Ed, Ev. split; [by eexists|]. intros Hne. by rewrite lookup_insert_ne.
  - destruct Hx as [_ V]. destruct (Hv d V) as [H1 H2]. unfold entry, slot in *. simpl. eauto.
Qed.

(** ** Prefetch *)

Definition prefetch_ok w (e : Prefetch) : Prop :=
  cold_at w (f_key e) (f_offset e) ∧ f_size e = DispatchMap.blocks_of (size_of (f_key e)) * 4096.

Lemma prefetch_spec g w e io tail ma :
  inv g w → prefetch_ok w e →
  ∃ w', prefetch w e io tail ma = Ret w' ∧ inv g w' ∧ ∀ k loc, k ≠ f_key e → cold_at w k loc → cold_at w' k loc.
Proof.
  intros I [(en & He & El) Hsz]. destruct e as [k loc sz]. simpl in *. destruct (rounded_fits size_of sizes k) as (Hz & Hz0 & Hz1 & _). rewrite <- Hsz in Hz, Hz0, Hz1.
  unfold prefetch. cbn [f_key f_size f_offset].
  destruct (Dispatcher.evict_loop_spec (holds_of w g) sz ma (disp w) 0 (inv_good _ _ _ I)) as (x & d & Ex & G & V & _); [split; lia|].
  unfold Dispatcher.evict_for_space. rewrite Ex, bind_Ret_l. pose proof (inv_evicts _ _ _ _ I G V) as I1.
  assert (drives w ≠ []) as Hnd by (destruct (i_len _ _ _ I) as [_ ?]; intros Hd; rewrite Hd in *; simpl in *; lia).
  assert (∀ k e loc, entry w k = Some e → DispatchMap.location e = DispatchMap.BlockDevice loc → entry (set_disp w d) k = Some e) as Fr.
  { intros k0 e0 loc0 He0 El0. destruct (Dispatcher.v_key _ _ _ V k0) as [[Hek _]|(e1 & e' & Hek & _ & (? & ? & ? & El1 & _) & _)]; simpl in Hek.
    - unfold entry in *. simpl. congruence.
    - unfold entry in He0. congruence. }
  assert (∀ k loc, cold_at w k loc → cold_at (set_disp w d) k loc) as Fc by (intros k0 loc0 (e0 & He0 & El0); exists e0; eauto).
  pose proof (Fr k en loc He El) as He1. set (w1 := set_disp w d) in *. cbv zeta. destruct x as [u|err]; [|eauto].
  destruct (MemoryTier.tier_insert_spec (mt w1) k sz (i_mt _ _ _ I1) Hz0 ltac:(split; lia))
    as [[_ ->]|[(_ & _ & ->)|(Hn & ptr & t & -> & O & Ev & _)]]; rewrite bind_Ret_l.
  1, 2: exists w1; split; [by destruct w1|auto].
  pose proof (inv_reserved size_of k ptr sz g w1 (set_mt w1 t) I1 Hn (i_dm _ _ _ I1) O eq_refl Ev eq_refl eq_refl eq_refl eq_refl eq_refl) as I2.
  destruct (read_and_promote_spec size_of sizes _ (set_mt w1 t) k en loc sz None ptr io tail I2) as (x & w' & Er & I' & Fe & _);
    [simpl; apply lookup_insert_eq|unfold slot; simpl; by rewrite Ev, lookup_insert_eq|done|done|done|].
  simpl in I'. rewrite delete_insert_id in I' by (by apply (spare_pend size_of g w1)). change (drives (set_mt w1 t)) with (drives w).
  destruct (drives w); [done|]. rewrite Er, bind_Ret_l. exists w'. split; [done|]. split; [by destruct g|].
  intros k0 loc0 Hne (e0 & He0 & El0)%Fc. exists e0. split; [|done]. by rewrite Fe.
Qed.

Lemma prefetch_all_spec g w es read tail ma :
  inv g w → NoDup (f_key <$> es) → Forall (prefetch_ok w) es →
  ∃ w', prefetch_all w es read tail ma = Ret w' ∧ inv g w' ∧ ∀ k loc, k ∉ f_key <$> es → cold_at w k loc → cold_at w' k loc.
Proof.
  revert w. induction es as [|e es IH]; intros w I Nd Ok; simpl; [eauto|].
  apply NoDup_cons in Nd as [Hn Nd]. apply Forall_cons in Ok as [Oe Ok].
  destruct (prefetch_spec g w e (read (f_key e)) (tail (f_key e)) ma I Oe) as (w1 & -> & I1 & Fr). rewrite bind_Ret_l.
  destruct (IH w1 I1 Nd) as (w' & -> & I' & Fr').
  { apply Forall_forall. intros e' He'. rewrite Forall_forall in Ok. destruct (Ok e' He') as [C ?]. split; [|done]. apply Fr; [|done].
    intros Heq. apply Hn. rewrite <- Heq. by apply list_elem_of_fmap_2. }
  exists w'. split; [done|]. split; [done|]. intros k loc [Hne Hk]%not_elem_of_cons C. auto.
Qed.

Lemma prefetch_drives_spec g w ds es checkout read tail ma :
  inv g w → NoDup ds → NoDup (f_key <$> es) → (∀ d, d ∈ ds → Forall (prefetch_ok w) (on_drive es d)) →
  ∃ w', prefetch_drives w ds es checkout read tail ma = Ret w' ∧ inv g w'.
Proof.
  revert w. induction ds as [|d ds IH]; intros w I Nd Ne Ok; simpl; [eauto|]. apply NoDup_cons in Nd as [Hn Nd].
  assert (∀ d', NoDup (f_key <$> on_drive es d')) as Nf.
  { intros d'. unfold on_drive. eapply sublist_NoDup; [exact Ne|]. apply fmap_sublist, sublist_filter. }
  destruct (checkout d); [|rewrite bind_Ret_l; apply IH; [done..|intros; apply Ok; by right]].
  destruct (prefetch_all_spec g w (on_drive es d) read tail ma I (Nf d) (Ok d ltac:(left))) as (w1 & -> & I1 & Fr). rewrite bind_Ret_l.
  apply IH; [done..|]. intros d' Hd'. apply Forall_forall. intros e He. pose proof (Ok d' ltac:(by right)) as Od. rewrite Forall_forall in Od.
  destruct (Od e He) as [C ?]. split; [|done]. apply Fr; [|done]. intros (e' & Heq & He')%list_elem_of_fmap.
  unfold on_drive in He, He'. apply list_elem_of_filter in He as [Hde He]. apply list_elem_of_filter in He' as [Hde' He'].
  assert (e' = e) as -> by (by eapply (NoDup_fmap_elem f_key es)). congruence.
Qed.

Lemma lookup_once (m : DispatchMap.Map S1) k : DispatchMap.lookup m k = lookup_retry 0 m k.
Proof. simpl. destruct (DispatchMap.lookup m k) as [[[|] ?]|]; done. Qed.

Lemma prefetch_entry_spec g w k :
  inv g w → ∃ es w', prefetch_entry w k = Ret (es, w') ∧ inv g w' ∧ same_places w w' ∧
    (es = [] ∨ ∃ e, es = [e] ∧ f_key e = k ∧ prefetch_ok w' e).
Proof.
  intros I. pose proof (refs_nonneg _ _ _ k I) as H0. unfold prefetch_entry. rewrite lookup_once.
  destruct (retried g w 0 k I) as (r & m & -> & Sp & Hr). rewrite bind_Ret_l. destruct r as [[|loc|ptr sz]|err].
  - destruct Hr as [_ I1]. eexists _, _. split; [done|]. auto.
  - destruct Hr as [I1 C]. destruct (released g _ k I1 H0) as [I2 Sp2]. pose proof (same_places_trans _ _ _ Sp Sp2) as Sp'.
    destruct (same_places_cold _ _ _ _ Sp' C) as (e & He & El). unfold DispatchMap.entry_size. pose proof He as He'. unfold entry in He'.
    rewrite He'. destruct (inv_counted _ _ _ _ _ I2 He) as (_ & _ & _ & ->). destruct (rounded_fits size_of sizes k) as (_ & _ & _ & ->). rewrite !bind_Ret_l.
    eexists _, _. split; [done|]. split_and!; [done..|]. right. eexists. split; [done|]. split; [done|]. split; [by exists e|done].
  - destruct Hr as [I1 _]. destruct (released g _ k I1 H0) as [I2 Sp2].
    destruct (inv_touch_dm size_of g _ k I2) as (x & m' & Et & I3 & Es & _). rewrite Et, bind_Ret_l.
    destruct (inv_touch_mt size_of g _ k I3) as (t & Et' & I4 & Ev). simpl in Et'. cbn [mt set_dm]. rewrite Et', bind_Ret_l.
    eexists _, _. split; [done|]. split_and!; [exact I4| |by left]. eapply same_places_trans; [exact Sp|]. eapply same_places_trans; [exact Sp2|].
    split; try done; intros k'.
    + unfold same_location, entry in *. simpl. by rewrite Es.
    + unfold slot. simpl. by rewrite Ev.
  - destruct Hr as (_ & _ & I1). eexists _, _. split; [done|]. auto.
Qed.

Lemma prefetch_entries_spec g w ks :
  inv g w → NoDup ks → ∃ es w', prefetch_entries w ks = Ret (es, w') ∧ inv g w' ∧ same_places w w' ∧
    NoDup (f_key <$> es) ∧ f_key <$> es ⊆ ks ∧ Forall (prefetch_ok w') es.
Proof.
  revert w. induction ks as [|k ks IH]; intros w I Nd; simpl.
  { eexists _, w. split; [done|]. split_and!; [done|apply same_places_refl|apply NoDup_nil_2|done|done]. }
  apply NoDup_cons in Nd as [Hk Nd]. destruct (prefetch_entry_spec g w k I) as (e & w1 & -> & I1 & Sp1 & He). rewrite bind_Ret_l.
  destruct (IH w1 I1 Nd) as (es & w' & -> & I' & Sp' & Ne & Hs & Ok). rewrite bind_Ret_l. eexists _, w'. split; [done|].
  pose proof (same_places_trans _ _ _ Sp1 Sp'). split; [done|]. split; [done|].
  destruct He as [->|(p & -> & <- & C & Hz)]; [split_and!; [done|set_solver|done]|]. simpl. split_and!.
  - apply NoDup_cons. split; [|done]. intros Hin. apply Hk, Hs, Hin.
  - set_solver.
  - constructor; [|done]. split; [|done]. exact (same_places_cold _ _ _ _ Sp' C).
Qed.

Lemma promote_to_memory_tier_spec g w ks checkout read tail ma :
  inv g w → NoDup ks → ∃ w', promote_to_memory_tier w ks checkout read tail ma = Ret w' ∧ inv g w'.
Proof.
  intros I Nd. unfold promote_to_memory_tier.
  destruct (prefetch_entries_spec g w ks I Nd) as (es & w1 & -> & I1 & _ & Ne & _ & Ok). rewrite bind_Ret_l.
  destruct (drives w1) as [|d0 ds] eqn:Hd; [destruct (i_len _ _ _ I1) as [_ ?]; rewrite Hd in *; simpl in *; lia|]. rewrite <- Hd.
  apply prefetch_drives_spec; [done|apply NoDup_seq|done|]. intros d1 _. unfold on_drive. apply Forall_forall.
  intros e [_ He]%list_elem_of_filter. rewrite Forall_forall in Ok. by apply Ok.
Qed.

(** ** Pins of a batch *)

Definition add_refs g (ks : list Z) : ghost :=
  mkGhost (λ k, refs g k + Z.of_nat (count_occ Z.eq_dec ks k)) (pend g) (loose g) (cache g).

Lemma inv_add_refs_nil g w : inv (add_refs g []) w ↔ inv g w.
Proof. split; apply inv_ghost; try done; intros k; simpl; lia. Qed.

Lemma inv_add_refs_snoc g w ks k : inv (add_ref (add_refs g ks) k 1) w → inv (add_refs g (ks ++ [k])) w.
Proof.
  apply inv_ghost; try done. intros k'. simpl. rewrite count_occ_app. unfold DispatchMap.upd. simpl.
  destruct (Z.eq_dec k k'), (decide (k' = k)); subst; try done; lia.
Qed.

Lemma inv_add_refs_cons g w ks k : inv (add_refs g (k :: ks)) w → inv (add_ref (add_refs g ks) k 1) w.
Proof.
  apply inv_ghost; try done. intros k'. simpl. unfold DispatchMap.upd.
  destruct (Z.eq_dec k k'), (decide (k' = k)); subst; try done; lia.
Qed.

(** The pins of a batch are dropped one after the other. *)
Lemma release_pins_spec g w ks :
  inv (add_refs g ks) w → (∀ k, 0 ≤ refs g k) → inv g (release_pins w ks) ∧ same_places w (release_pins w ks).
Proof.
  revert w. induction ks as [|k ks IH]; intros w I H0; simpl.
  { split; [by apply inv_add_refs_nil|apply same_places_refl]. }
  destruct (released (add_refs g ks) w k) as [I' Sp]; [by apply inv_add_refs_cons|simpl; specialize (H0 k); lia|].
  destruct (IH _ I' H0) as [I2 Sp2]. split; [done|]. by eapply same_places_trans.
Qed.

(** * Reads in progress *)

Definition job_key (j : nat * ColdReadJob) : Z := c_key (j_entry j.2).

Definition job_at (P : gmap Z (Z * option (list Z))) w (j : nat * ColdReadJob) : Prop :=
  let e := j_entry j.2 in
  cold_at w (c_key e) (c_offset e) ∧ j.1 = drive_of e ∧ total_size e = size_of (c_key e) ∧
  slot w (c_key e) = Some (j_ptr j.2, total_size e) ∧ ∃ p, P !! c_key e = Some (total_size e, p).

(** The slots of [jobs] are open reservations, beyond those of [g]. *)
Record open_jobs g P w (jobs : list (nat * ColdReadJob)) : Prop := {
  o_inv : inv (set_pend g P) w;
  o_out : ∀ k, k ∉ job_key <$> jobs → P !! k = pend g !! k;
  o_nodup : NoDup (job_key <$> jobs);
  o_fresh : ∀ k, k ∈ job_key <$> jobs → pend g !! k = None;
  o_jobs : Forall (job_at P w) jobs
}.

(** What a read has put into its slot is what the key has stored. *)
Definition filled_at g (P : gmap Z (Z * option (list Z))) (j : nat * ColdReadJob) : Prop :=
  ∃ b, P !! job_key j = Some (total_size (j_entry j.2), Some b) ∧ cache g !! job_key j = Some b.

Lemma open_nil g P w : open_jobs g P w [] → inv g w.
Proof.
  intros [I Out _ _ _]. replace P with (pend g) in I; [by rewrite set_pend_same in I|].
  apply map_eq. intros k. symmetry. apply Out. set_solver.
Qed.

(** Closing the first job. *)
Lemma open_tail g P w w' j jobs :
  open_jobs g P w (j :: jobs) → inv (set_pend g (delete (job_key j) P)) w' →
  (∀ k loc, k ≠ job_key j → cold_at w k loc → cold_at w' k loc ∧ slot w' k = slot w k) →
  open_jobs g (delete (job_key j) P) w' jobs.
Proof.
  intros [I Out Nd Fr Js] I' Fm. apply NoDup_cons in Nd as [Hn Nd]. apply Forall_cons in Js as [J Js]. split; [done|..].
  - intros k Hk. destruct (decide (k = job_key j)) as [->|Hne].
    + rewrite lookup_delete_eq, Fr; [done|]. left.
    + rewrite lookup_delete_ne by done. apply Out. by intros [?|?]%elem_of_cons.
  - done.
  - intros k Hk. apply Fr. by right.
  - apply Forall_forall. intros j' Hj'. rewrite Forall_forall in Js. destruct (Js j' Hj') as (C & D & T & Sl & Hp).
    assert (job_key j' ≠ job_key j) as Hne by (intros Heq; apply Hn; rewrite <- Heq; by apply list_elem_of_fmap_2).
    destruct (Fm _ _ Hne C) as [C' Sl']. split_and!; [done..| |].
    + unfold job_key in *. by rewrite Sl'.
    + unfold job_key in *. by rewrite lookup_delete_ne.
Qed.

(** Giving back the slot of the first job. *)
Lemma open_released g P w j jobs :
  open_jobs g P w (j :: jobs) →
  ∃ w', mt_remove w (job_key j) = Ret w' ∧ open_jobs g (delete (job_key j) P) w' jobs ∧
    dm w' = dm w ∧ drives w' = drives w ∧ pins w' = pins w.
Proof.
  intros O. pose proof (o_jobs _ _ _ _ O) as [(_ & _ & _ & _ & p & Hp) _]%Forall_cons.
  destruct (inv_mt_remove size_of _ w (job_key j) (o_inv _ _ _ _ O)) as (w' & Er & I' & Hdm & Hdr & Hpn & _ & _ & _ & _ & Sl).
  { right. simpl. unfold job_key. rewrite Hp. by eexists. }
  exists w'. split; [done|]. split_and!; [|done..]. eapply open_tail; [done|exact I'|].
  intros k loc Hne (e & He & El). split; [|by apply Sl]. exists e. unfold entry in *. by rewrite Hdm.
Qed.

Lemma release_slots_spec g P w jobs :
  open_jobs g P w jobs → ∃ w', release_slots w jobs = Ret w' ∧ inv g w' ∧ dm w' = dm w ∧ drives w' = drives w ∧ pins w' = pins w.
Proof.
  revert P w. induction jobs as [|[d j] jobs IH]; intros P w O; simpl.
  { exists w. split; [done|]. split; [by eapply open_nil|done]. }
  destruct (open_released _ _ _ _ _ O) as (w1 & Er & O1 & D1 & D2 & D3). unfold job_key in Er. simpl in Er. rewrite Er, bind_Ret_l.
  destruct (IH _ _ O1) as (w' & -> & I' & ? & ? & ?). exists w'. split; [done|]. split_and!; [done|congruence..].
Qed.

(** Where a cold entry's bytes are. *)
Lemma cold_drive g w k loc :
  inv g w → cold_at w k loc →
  ∃ drive off b, drives w !! Z.to_nat (Location.decode_loc loc).1 = Some drive ∧ (Location.decode_loc loc).2 = off ∧
    Location.select_drive (drives w) loc = Some (drive, off) ∧
    blocks drive !! off = Some b ∧ Z.of_nat (length b) = size_of k ∧ cache g !! k = Some b.
Proof.
  intros I (e & He & El). destruct (inv_cold _ _ _ _ _ _ I He El) as (_ & _ & b & Hb & (Hl & d & drive & off & Hd & En & Ex & Hbl) & _).
  destruct (i_len _ _ _ I). destruct (i_drive _ _ _ I _ _ Hd) as [Eok _].
  destruct (select_drive_spec w d drive off loc Hd ltac:(lia) (extent_range _ _ _ Eok Ex) En) as [Sd Dc].
  exists drive, off, b. rewrite Dc. simpl. rewrite Nat2Z.id. done.
Qed.

Definition job_answer (env : Env) g (j : nat * ColdReadJob) (x : res (list (list Z))) : Prop :=
  match x with
  | Ok ps => delivers (cache g) (job_key j) (c_regions (j_entry j.2)) ps
  | Err er => er = Dispatcher.IoError ∧ read env (idx (j_entry j.2)) = false
  end.

(** One read fills the slot of its job. *)
Lemma read_fills g P w jobs j tail :
  open_jobs g P w jobs → j ∈ jobs →
  let e := j_entry j.2 in
  ∃ drive b, drives w !! j.1 = Some drive ∧ cache g !! job_key j = Some b ∧
    read_drive drive (Location.decode_loc (c_offset e)).2 (total_size e) tail = b ∧
    open_jobs g (<[job_key j := (total_size e, Some b)]> P) (set_memory w (store_bytes (memory w) (j_ptr j.2) b)) jobs.
Proof.
  intros O Hj e. pose proof (o_jobs _ _ _ _ O) as Js. rewrite Forall_forall in Js.
  destruct (Js j Hj) as (C & D & T & Sl & p & Hp). fold e in C, D, T, Sl, Hp.
  destruct (cold_drive _ _ _ _ (o_inv _ _ _ _ O) C) as (drive & off & b & Hd & Ho & _ & Hbl & Hlen & Hb). simpl in Hb.
  destruct (read_drive_spec size_of sizes drive off b (c_key e) (total_size e) tail Hbl Hlen ltac:(lia)) as [Ht Hl].
  rewrite take_ge in Ht by lia. exists drive, b. rewrite D, Ho. split_and!; [done..|].
  assert (fits size_of (c_key e) (total_size e)) as Fi by (rewrite T; by apply fits_size).
  pose proof (inv_filled size_of (c_key e) (j_ptr j.2) (total_size e) p b (Some b) _ w (o_inv _ _ _ _ O) Hp Sl ltac:(lia)) as I'.
  split.
  - simpl in I'. apply I'. intros b' [= <-]. split_and!; [done|lia|]. apply take_ge. lia.
  - intros k Hk. rewrite lookup_insert_ne; [by apply O|]. intros <-. apply Hk. by apply list_elem_of_fmap_2.
  - apply O.
  - apply O.
  - apply Forall_forall. intros j' Hj'. destruct (Js j' Hj') as (C' & D' & T' & Sl' & Hp'). split_and!; [done..|].
    unfold job_key. destruct (decide (c_key (j_entry j'.2) = c_key e)) as [Heq|Hne].
    + fold e. rewrite Heq, lookup_insert_eq, T', Heq, T. by eexists.
    + fold e. by rewrite lookup_insert_ne.
Qed.

Lemma scatter_gather_spec env g P w done jobs :
  open_jobs g P w (done ++ jobs) → Forall (filled_at g P) done →
  Forall (λ j, covers size_of (job_key j) (c_regions (j_entry j.2))) jobs →
  ∃ xs w' P', scatter_gather env w jobs = Ret (xs, w') ∧ open_jobs g P' w' (done ++ jobs) ∧
    Forall (filled_at g P') (done ++ jobs) ∧ Forall2 (job_answer env g) jobs xs ∧
    dm w' = dm w ∧ mt w' = mt w ∧ drives w' = drives w ∧ pins w' = pins w.
Proof.
  revert P w done. induction jobs as [|[d j] jobs IH]; intros P w done O Fd Cv; simpl.
  { eexists _, w, P. split; [done|]. rewrite app_nil_r in *. done. }
  destruct (read_fills g P w _ (d, j) (tail env (idx (j_entry j))) O) as (drive & b & Hd & Hb & Er & O1); [set_solver|].
  apply Forall_cons in Cv as [Cv1 Cv]. simpl in Hd, Er, O1. unfold vec_get. rewrite Hd. simpl. rewrite Er.
  destruct (IH (<[job_key (d, j) := (total_size (j_entry j), Some b)]> P) (set_memory w (store_bytes (memory w) (j_ptr j) b)) (done ++ [(d, j)]))
    as (xs & w' & P' & -> & O2 & Fd2 & F2 & ? & ? & ? & ?).
  - by rewrite <- app_assoc.
  - apply Forall_app. split; [|apply Forall_singleton; exists b; by rewrite lookup_insert_eq].
    apply Forall_forall. intros j' Hj'. rewrite Forall_forall in Fd. destruct (Fd j' Hj') as (b' & Hp' & Hb').
    exists b'. split; [|done]. rewrite lookup_insert_ne; [done|]. intros Heq.
    pose proof (o_nodup _ _ _ _ O) as Nd. rewrite fmap_app in Nd. apply NoDup_app in Nd as (_ & Nd & _).
    apply (Nd (job_key j')); [by apply list_elem_of_fmap_2|]. rewrite <- Heq. left.
  - done.
  - rewrite bind_Ret_l. rewrite <- app_assoc in O2, Fd2. eexists _, w', P'. split; [done|]. split_and!; try done.
    constructor; [|done]. unfold job_answer. destruct (read env (idx (j_entry j))) eqn:Hr; [|done].
    destruct Cv1 as [Hn Ht]. simpl in Hn, Ht.
    assert (Z.of_nat (length b) = size_of (job_key (d, j))) as Hlb; [|split; [rewrite scatter_concat, Ht, drop_0, take_ge; [done|lia|done|done]|apply scatter_cut; [done|done|simpl; lia]]].
    pose proof (o_jobs _ _ _ _ O) as Js. rewrite Forall_forall in Js. destruct (Js (d, j) ltac:(set_solver)) as (C & _ & _ & _ & _).
    destruct (cold_drive _ _ _ _ (o_inv _ _ _ _ O) C) as (_ & _ & b0 & _ & _ & _ & _ & Hl & Hb0). simpl in Hb0, Hl.
    unfold job_key in *. simpl in *. rewrite Hb in Hb0. by injection Hb0 as <-.
Qed.

(** Settling the first job. *)
Lemma settle_job_spec env g P w d j jobs x :
  open_jobs g P w ((d, j) :: jobs) → filled_at g P (d, j) → job_answer env g (d, j) x →
  ∃ w', settle_job w j x = Ret (x, w') ∧ open_jobs g (delete (job_key (d, j)) P) w' jobs ∧
    drives w' = drives w ∧ pins w' = pins w ∧
    ∀ k loc, k ≠ job_key (d, j) → cold_at w k loc → cold_at w' k loc.
Proof.
  intros O (b & Hp & Hb) Ha. unfold settle_job. destruct x as [ps|er].
  - pose proof (o_jobs _ _ _ _ O) as [((e & He & El) & _ & T & Sl & _) _]%Forall_cons. simpl in *.
    pose proof (sizes (c_key (j_entry j))). unfold DispatchMap.promote_block_to_memory_tier. destruct (Z.eqb_spec (total_size (j_entry j)) 0); [lia|].
    pose proof He as He0. unfold entry in He0. rewrite He0, El.
    pose proof (inv_promoted size_of (job_key (d, j)) e (j_ptr j) (total_size (j_entry j)) (c_offset (j_entry j)) b _ w (o_inv _ _ _ _ O) He El Hb Sl Hp) as I'.
    assert (∀ k loc, k ≠ job_key (d, j) → cold_at w k loc → cold_at (set_dm w (DispatchMap.set_entry (dm w) (job_key (d, j))
      (DispatchMap.set_blocks (DispatchMap.set_location e (DispatchMap.MemoryTier (j_ptr j) (total_size (j_entry j)) (Some (c_offset (j_entry j)))))
        (DispatchMap.blocks_of (total_size (j_entry j)))))) k loc) as Fr.
    { intros k loc Hne (e' & He' & El'). exists e'. split; [|done]. unfold entry in *. simpl. by rewrite lookup_insert_ne. }
    eexists. split; [done|]. split_and!; [|done..]. eapply open_tail; [done|exact I'|]. intros k loc Hne C. split; [by apply Fr|done].
  - destruct (open_released _ _ _ _ _ O) as (w1 & Er & O1 & D1 & D2 & D3). unfold job_key in Er. simpl in Er. rewrite Er, bind_Ret_l.
    exists w1. split; [done|]. split_and!; [done..|]. intros k loc _ (e' & He' & El'). exists e'. unfold entry in *. by rewrite D1.
Qed.

End frames.
Section lookup_batch.
Context {S1 S2 E : Type} `{P1 : IEvictionPolicy S1, L1 : !EvictionPolicyLaws S1,
  P2 : IEvictionPolicy S2, L2 : !EvictionPolicyLaws S2,
  X : IExtentManager E, XL : !ExtentManagerLaws E}.
Context (size_of : Z → Z) (sizes : ∀ k, 0 < size_of k ≤ 2 ^ 30).
Abbreviation World := (World S1 S2 E).
Abbreviation Pass := (Pass S1 S2 E).
Abbreviation pieces := (list (list Z)).
Abbreviation inv := (inv size_of).
Abbreviation open_jobs := (open_jobs size_of).
Abbreviation filled_at := filled_at.
Implicit Types (w : World) (st : Pass).

(** A batch: what the clients have, the environment, whether peers are asked,
    and the requests, each for a key of its own and as long as the key. *)
Context (g : ghost) (w0 : World) (env : Env) (asking : bool) (entries : list Request).
Context (own_keys : NoDup (r_key <$> entries)).
Context (whole : Forall (λ r, covers size_of (r_key r) (r_regions r)) entries).

(** Nothing fails outside the cache. *)
Definition smooth : Prop :=
  (∀ i, submit env i = true) ∧ warm_sync env = true ∧ pipe_streams env = true ∧ (∀ i, read env i = true) ∧
  staging env = true ∧ ∀ i, staging_fits env i = true.

(** What may be answered to a request; [c] is what is stored by then. *)
Record answer_ok (c : gmap Z (list Z)) (r : Request) (x : res pieces) : Prop := {
  a_data : ∀ ps, x = Ok ps → delivers c (r_key r) (r_regions r) ps;
  a_hit : smooth → pend g !! r_key r = None → ref_count w0 g (r_key r) ≠ u32_max → is_Some (cache g !! r_key r) →
    ∃ ps, x = Ok ps;
  a_miss : asking = false → cache g !! r_key r = None → x = Err (Dispatcher.KeyNotFound (r_key r));
  a_race : ∀ k, x = Err (Dispatcher.AlreadyExists k) → is_Some (cache g !! r_key r) ∧ is_Some (pend g !! r_key r)
}.

(** The answers so far; those of the entries in [T] are open. *)
Record sound (c : gmap Z (list Z)) st (T : gset nat) : Prop := {
  s_results : length (results st) = length entries;
  s_tiers : length (tier st) = length entries;
  s_answers : ∀ i r x, entries !! i = Some r → results st !! i = Some (Some x) →
    answer_ok c r x ∧ ((∃ ps, x = Ok ps) → ∃ t, tier st !! i = Some (Some t) ∧ is_hit t = true);
  s_open : ∀ i, results st !! i = Some None → i ∈ T
}.

(** A cold entry of the batch, still to be served. *)
Record cold_ok st (e : ColdEntry) : Prop := {
  co_entry : entries !! idx e = Some (mkRequest (c_key e) (c_regions e));
  co_size : total_size e = size_of (c_key e);
  co_tier : tier st !! idx e = Some (Some Ssd)
}.

Lemma key_index i j r r' : entries !! i = Some r → entries !! j = Some r' → r_key r = r_key r' → i = j.
Proof.
  intros Hi Hj Heq. apply (NoDup_lookup (r_key <$> entries) i j (r_key r)); [done|..]; rewrite list_lookup_fmap.
  - by rewrite Hi.
  - by rewrite Hj, Heq.
Qed.

Lemma covers_at i r : entries !! i = Some r → covers size_of (r_key r) (r_regions r).
Proof. intros Hi. by eapply (Forall_lookup_1 _ _ _ _ whole). Qed.

Lemma sound_world c st T w : sound c st T → sound c (set_world st w) T.
Proof. intros []. by split. Qed.

(** An answer for entry [i]. *)
Lemma sound_result c st T i r x :
  sound c st T → entries !! i = Some r → answer_ok c r x →
  ((∃ ps, x = Ok ps) → ∃ t, tier st !! i = Some (Some t) ∧ is_hit t = true) →
  sound c (set_result st i x) (T ∖ {[i]}).
Proof.
  intros [Lr Lt An Op] Hi Ha Ht. pose proof (lookup_lt_Some _ _ _ Hi). split; simpl; [by rewrite length_insert|done|..].
  - intros j r' x' Hj Hx. destruct (decide (j = i)) as [->|Hne].
    + rewrite list_lookup_insert_eq in Hx by lia. simplify_eq. done.
    + rewrite list_lookup_insert_ne in Hx by done. eauto.
  - intros j Hj. destruct (decide (j = i)) as [->|Hne].
    + rewrite list_lookup_insert_eq in Hj by lia. done.
    + rewrite list_lookup_insert_ne in Hj by done. apply Op in Hj. set_solver.
Qed.

Lemma sound_weaken c st T T' : T ⊆ T' → sound c st T → sound c st T'.
Proof. intros Hs [Lr Lt An Op]. split; try done. intros i Hi. by apply Hs, Op. Qed.

(** A stored key may be answered with an error when something failed outside, or
    when its slot is reserved. *)
Lemma answer_failed c r er :
  is_Some (cache g !! r_key r) → (smooth → is_Some (pend g !! r_key r)) →
  (∀ k, er = Dispatcher.AlreadyExists k → is_Some (pend g !! r_key r)) → answer_ok c r (Err er).
Proof.
  intros Hc Hs Hr. split; try done.
  - intros S Hn. apply Hs in S as [? ?]. congruence.
  - intros _ Hn. rewrite Hn in Hc. by destruct Hc.
  - intros k [= ->]. eauto.
Qed.

Lemma answer_served r ps : delivers (cache g) (r_key r) (r_regions r) ps → answer_ok (cache g) r (Ok ps).
Proof. intros [Hc Hcut]. split; [by intros ? [= <-]|by eexists|congruence|done]. Qed.

Lemma sum_u32_spec acc xs : 0 ≤ acc → Forall (λ x, 0 ≤ x) xs → acc + total xs < 2 ^ 32 → sum_u32 acc xs = Ret (acc + total xs).
Proof.
  intros H0 Hn. revert acc H0. induction Hn as [|x xs Hx Hn IH]; intros acc H0 Hs; simpl; [f_equal; unfold total; simpl; lia|].
  unfold total in Hs. simpl in Hs. fold (total xs) in Hs.
  assert (0 ≤ total xs) by (clear IH Hs; induction Hn; unfold total in *; simpl in *; lia).
  rewrite add_w_Ret, bind_Ret_l, IH by lia. f_equal. unfold total. simpl. lia.
Qed.

Lemma sum_covers k regions : covers size_of k regions → sum_u32 0 regions = Ret (size_of k).
Proof. intros [Hn Ht]. pose proof (sizes k). rewrite sum_u32_spec; [by rewrite Ht|lia|done|lia]. Qed.

(** ** Classification *)

Record classified (n : nat) st : Prop := {
  c_sound : sound (cache g) st (set_seq n (length entries - n) ∪ list_to_set (idx <$> cold st));
  c_inv : inv (add_refs g (warm st)) (world st);
  c_places : same_places w0 (world st);
  c_cold : Forall (λ e, cold_ok st e ∧ cold_at w0 (c_key e) (c_offset e) ∧ (idx e < n)%nat) (cold st);
  c_nodup : NoDup (idx <$> cold st);
  c_warm : ∀ k, k ∈ warm st → ∃ j r, (j < n)%nat ∧ entries !! j = Some r ∧ r_key r = k;
  c_inflight : ∀ i, i ∈ inflight st → ∃ r, entries !! i = Some r ∧ is_Some (cache g !! r_key r);
  c_fresh : ∀ i x, (n ≤ i)%nat → results st !! i ≠ Some (Some x)
}.

(** The state after entry [n] when its answer is settled in this pass. *)
Lemma classified_answer n st st' r x t :
  classified n st → entries !! n = Some r → answer_ok (cache g) r x →
  results st' = <[n := Some x]> (results st) → tier st' = <[n := t]> (tier st) →
  ((∃ ps, x = Ok ps) → t = Some Dram) → cold st' = cold st →
  inv (add_refs g (warm st')) (world st') → same_places w0 (world st') →
  (∀ k, k ∈ warm st' → k ∈ warm st ∨ k = r_key r) →
  (∀ i, i ∈ inflight st' → i ∈ inflight st ∨ i = n ∧ is_Some (cache g !! r_key r)) → classified (S n) st'.
Proof.
  intros [[Lr Lt An Op] I Pl Co Nd Wa Fl Fr] Hn Ha Er Et Ht Ec I' Pl' Wa' Fl'. pose proof (lookup_lt_Some _ _ _ Hn). split; try done.
  - split; [by rewrite Er, length_insert|by rewrite Et, length_insert|..].
    + intros j r' x' Hj Hx. destruct (decide (j = n)) as [->|Hne].
      * rewrite Er, list_lookup_insert_eq in Hx by lia. simplify_eq. split; [done|]. intros Hp. exists Dram.
        rewrite Et, list_lookup_insert_eq by lia. by rewrite Ht.
      * rewrite Er, list_lookup_insert_ne in Hx by done. rewrite Et, list_lookup_insert_ne by done. eauto.
    + intros j Hj. destruct (decide (j = n)) as [->|Hne]; [rewrite Er, list_lookup_insert_eq in Hj by lia; done|].
      rewrite Er, list_lookup_insert_ne in Hj by done. apply Op in Hj. rewrite Ec.
      rewrite elem_of_union, elem_of_set_seq in *. destruct Hj; [left; lia|by right].
  - rewrite Ec. eapply Forall_impl; [exact Co|]. intros e ([Ce Cs Ct] & Ca & Hlt). split; [|split; [done|lia]].
    split; [done..|]. rewrite Et, list_lookup_insert_ne by lia. done.
  - by rewrite Ec.
  - intros k Hk. destruct (Wa' k Hk) as [Hk'| ->]; [|exists n, r; split_and!; [lia|done|done]]. destruct (Wa k Hk') as (j & r' & ? & ? & ?). exists j, r'. split; [lia|done].
  - intros i Hi. destruct (Fl' i Hi) as [Hi'|[-> ?]]; [by apply Fl|by exists r].
  - intros i y Hi. rewrite Er, list_lookup_insert_ne by lia. apply Fr. lia.
Qed.

(** ... and when it is left to the cold pass. *)
Lemma classified_cold n st st' r off :
  classified n st → entries !! n = Some r → cold_at w0 (r_key r) off →
  results st' = results st → tier st' = <[n := Some Ssd]> (tier st) →
  cold st' = cold st ++ [mkCold n (r_key r) off (r_regions r) (size_of (r_key r))] →
  warm st' = warm st → inflight st' = inflight st →
  inv (add_refs g (warm st)) (world st') → same_places w0 (world st') → classified (S n) st'.
Proof.
  intros [[Lr Lt An Op] I Pl Co Nd Wa Fl Fr] Hn Ca Er Et Ec Ew Ei I' Pl'. pose proof (lookup_lt_Some _ _ _ Hn).
  rewrite Forall_forall in Co. split; try done; try (by rewrite Ew); try (by rewrite Ei).
  - split; [by rewrite Er|by rewrite Et, length_insert|..].
    + intros j r' x' Hj Hx. rewrite Er in Hx. destruct (decide (j = n)) as [->|Hne]; [by apply Fr in Hx|].
      rewrite Et, list_lookup_insert_ne by done. eauto.
    + intros j Hj. rewrite Er in Hj. apply Op in Hj. rewrite Ec, fmap_app, list_to_set_app_L. simpl.
      rewrite !elem_of_union, !elem_of_set_seq in *. destruct (decide (j = n)) as [->|]; [right; right; set_solver|].
      destruct Hj; [left; lia|by right; left].
  - rewrite Ec. apply Forall_app. split.
    + apply Forall_forall. intros e He. destruct (Co e He) as ([Ce Cs Ct] & ? & Hlt). split; [|split; [done|lia]].
      split; [done..|]. rewrite Et, list_lookup_insert_ne by lia. done.
    + apply Forall_singleton. split; [|split; [done|simpl; lia]]. split; [simpl; rewrite Hn; by destruct r|done|].
      simpl. rewrite Et, list_lookup_insert_eq by lia. done.
  - rewrite Ec, fmap_app. apply NoDup_app. split_and!; [done| |apply NoDup_singleton].
    intros i (e & -> & He)%list_elem_of_fmap. destruct (Co e He) as (_ & _ & ?). simpl. rewrite list_elem_of_singleton. lia.
  - rewrite Ew. intros k Hk. destruct (Wa k Hk) as (j & r' & ? & ? & ?). exists j, r'. split; [lia|done].
  - intros i y Hi. rewrite Er. apply Fr. lia.
Qed.

Lemma classify_spec n st r :
  classified n st → entries !! n = Some r → ∃ st', classify env st n r = Ret st' ∧ classified (S n) st'.
Proof.
  intros C Hn. destruct (C) as [_ I Pl _ _ Wa _ _]. unfold classify. pose proof (covers_at n r Hn) as Cv.
  rewrite (sum_covers _ _ Cv), bind_Ret_l. destruct (retried size_of _ (world st) LOOKUP_RETRIES (r_key r) I) as (x & m & -> & Pl' & Hx).
  rewrite bind_Ret_l. pose proof (same_places_trans _ _ _ Pl Pl') as Pl2.
  assert (r_key r ∉ warm st) as Hw.
  { intros (j & r' & Hlt & Hj & Heq)%Wa. pose proof (key_index _ _ _ _ Hj Hn Heq). lia. }
  assert (tier st = <[n := default None (tier st !! n)]> (tier st)) as Et.
  { destruct (tier st !! n) as [t|] eqn:Ht; simpl; [by rewrite list_insert_id|]. rewrite list_insert_ge; [done|]. by apply lookup_ge_None. }
  destruct x as [[|off|ptr sz]|err].
  - destruct Hx as [Hc I']. eexists. split; [done|].
    eapply (classified_answer n st _ r (Err _) (default None (tier st !! n))); try done; [split; try done|..]; try (by left).
    + simpl in Hc. intros _ _ _ [? ?]. congruence.
    + by intros [? ?].
  - destruct Hx as [I' Ca]. destruct (released size_of _ _ _ I') as [I2 Pl3]; [apply (refs_nonneg _ _ _ _ I)|].
    eexists. split; [done|]. eapply (classified_cold n st _ r off); simpl; try done.
    + destruct Pl as [Sl _ _ _]. destruct Ca as (e & He & El). specialize (Sl (r_key r)). unfold same_location in Sl. rewrite He in Sl.
      unfold cold_at. destruct (entry w0 (r_key r)) as [e0|]; simplify_eq/=. exists e0. split; congruence.
    + by eapply same_places_trans.
  - destruct Hx as (I' & e & so & He & El).
    destruct (serve_resident size_of sizes _ _ _ e ptr sz so (r_regions r) (submit env n) I' He El Cv) as (ps & De & Es). simpl in De. pose proof (proj1 De) as Hc.
    rewrite Es. eexists. split; [done|]. eapply (classified_answer n st _ r _ (Some Dram)); simpl; try done.
    + destruct (submit env n) eqn:Hs; [by apply answer_served|]. apply answer_failed; [by rewrite Hc| |done].
      intros (Sm & _). rewrite Sm in Hs. done.
    + by apply inv_add_refs_snoc.
    + intros k. rewrite elem_of_app, list_elem_of_singleton. done.
    + intros i. destruct (warm_stream env && submit env n); [|by left]. rewrite elem_of_app, list_elem_of_singleton.
      intros [?| ->]; [by left|right]. by rewrite Hc.
  - destruct Hx as (Hc & Hr & I'). simpl in Hc. eexists. split; [done|].
    eapply (classified_answer n st _ r (Err _) (default None (tier st !! n))); try done; [split; try done|..]; try (by left).
    + intros _ _ []. rewrite <- Hr. unfold ref_count. simpl. rewrite (proj1 (count_occ_not_In _ _ _)).
      * rewrite (sp_pin _ _ Pl). lia.
      * by rewrite <- list_elem_of_In.
    + by intros [? ?].
Qed.

Lemma classify_all_spec n st rest :
  classified n st → (n ≤ length entries)%nat → drop n entries = rest →
  ∃ st', classify_all env st n rest = Ret st' ∧ classified (length entries) st'.
Proof.
  revert n st. induction rest as [|r rest IH]; intros n st C Hle Hd; simpl; pose proof (length_drop entries n) as Hl; rewrite Hd in Hl; simpl in Hl.
  - exists st. split; [done|]. by replace (length entries) with n by lia.
  - assert (entries !! n = Some r) as Hn by (by rewrite <- (Nat.add_0_r n), <- lookup_drop, Hd).
    destruct (classify_spec n st r C Hn) as (st' & -> & C'). rewrite bind_Ret_l. apply IH; [done|lia|].
    rewrite <- (Nat.add_1_r n), <- drop_drop, Hd. done.
Qed.

Lemma classified_start : inv g w0 → classified 0 (start_pass w0 (length entries)).
Proof.
  intros I. split; simpl; try done; [|by apply inv_add_refs_nil|by apply NoDup_nil|set_solver|set_solver|].
  - split; simpl; [by rewrite length_replicate..| |].
    + intros i r x _ Hx. apply lookup_replicate in Hx as [? _]. done.
    + intros i Hx. apply lookup_replicate in Hx as [_ ?]. rewrite elem_of_union, elem_of_set_seq. left. lia.
  - intros i x _ Hx. apply lookup_replicate in Hx as [? _]. done.
Qed.

(** ** The cold pass *)

Lemma filter_lt_S (es : list ColdEntry) n :
  filter (λ e, drive_of e < S n)%nat es ≡ₚ filter (λ e, drive_of e < n)%nat es ++ per_drive es n.
Proof.
  unfold per_drive. induction es as [|e es IH]; [done|]. rewrite !filter_cons.
  destruct (decide (drive_of e < S n)%nat), (decide (drive_of e < n)%nat), (decide (drive_of e = n)); try lia; simpl; rewrite IH; try done.
  by rewrite Permutation_middle.
Qed.

(** Grouping by drive keeps every entry. *)
Lemma per_drive_perm (es : list ColdEntry) n :
  Forall (λ e, drive_of e < n)%nat es → mjoin (per_drive es <$> seq 0 n) ≡ₚ es.
Proof.
  intros Hf. transitivity (filter (λ e, drive_of e < n)%nat es).
  - clear Hf. induction n as [|n IH].
    + induction es as [|e es IHes]; [done|]. rewrite filter_cons. by destruct (decide _); [lia|].
    + rewrite seq_S, fmap_app, join_app, IH, filter_lt_S. simpl. by rewrite app_nil_r.
  - induction Hf as [|e es He Hf IH]; [done|]. rewrite filter_cons. destruct (decide _); [by rewrite IH|done].
Qed.

Lemma reject_none st es n : Forall (λ e, drive_of e < n)%nat es → reject_invalid st es n = st.
Proof. intros Hf. induction Hf as [|e es He Hf IH]; simpl; [done|]. by rewrite bool_decide_true. Qed.

Lemma cold_ok_tier st st' e : tier st' = tier st → cold_ok st e → cold_ok st' e.
Proof. intros Ht [? ? ?]. split; [done..|]. by rewrite Ht. Qed.

Lemma cold_ok_key st st' e e' : cold_ok st e → cold_ok st' e' → c_key e = c_key e' → idx e = idx e'.
Proof. intros [H1 _ _] [H2 _ _] Heq. by apply (key_index _ _ _ _ H1 H2). Qed.

Section with_pins.
Context (ws : list Z).
Abbreviation g1 := (add_refs g ws).

Definition job_entries (jobs : list (nat * ColdReadJob)) : list ColdEntry := (λ j, j_entry j.2) <$> jobs.

(** Between the slots that are taken and the entries still to come. *)
Record prepped st (P : gmap Z (Z * option (list Z))) (jobs : list (nat * ColdReadJob)) (others : list ColdEntry) : Prop := {
  p_open : open_jobs g1 P (world st) jobs;
  p_ok : Forall (cold_ok st) (job_entries jobs ++ others);
  p_cold : Forall (λ e, cold_at (world st) (c_key e) (c_offset e)) others;
  p_sound : sound (cache g) st (list_to_set (idx <$> job_entries jobs ++ others));
  p_nodup : NoDup (idx <$> job_entries jobs ++ others)
}.

Lemma prepped_key st P jobs others e :
  prepped st P jobs others → e ∈ others → c_key e ∉ job_key <$> jobs.
Proof.
  intros [_ Ok _ _ Nd] He (j & Heq & Hj)%list_elem_of_fmap. rewrite Forall_forall in Ok.
  assert (j_entry j.2 ∈ job_entries jobs) as Hj' by (by apply (list_elem_of_fmap_2 (λ j, j_entry j.2))).
  assert (idx e = idx (j_entry j.2)) as Hi.
  { apply (cold_ok_key st st); [apply Ok; set_solver|apply Ok; set_solver|done]. }
  rewrite fmap_app in Nd. apply NoDup_app in Nd as (_ & Nd & _).
  apply (Nd (idx (j_entry j.2))); [by apply list_elem_of_fmap_2|]. rewrite <- Hi. by apply list_elem_of_fmap_2.
Qed.

Lemma prepped_perm st P jobs others others' : others ≡ₚ others' → prepped st P jobs others → prepped st P jobs others'.
Proof.
  intros Pm [O Ok Co So Nd]. split; [done|by rewrite <- Pm|by rewrite <- Pm| |by rewrite <- Pm].
  eapply sound_weaken; [|exact So]. intros i. rewrite !elem_of_list_to_set. by rewrite Pm.
Qed.

(** An answer for the first of the others. *)
Lemma prepped_answer st P jobs e others er :
  prepped st P jobs (e :: others) →
  answer_ok (cache g) (mkRequest (c_key e) (c_regions e)) (Err er) → prepped (set_result st (idx e) (Err er)) P jobs others.
Proof.
  intros [O Ok Co So Nd] Ha. rewrite fmap_app in Nd. simpl in Nd. apply NoDup_app in Nd as (N1 & N2 & N3). apply NoDup_cons in N3 as [N3 N4].
  apply Forall_app in Ok as [Ok1 [Ok2 Ok3]%Forall_cons]. apply Forall_cons in Co as [_ Co]. split; simpl.
  - done.
  - apply Forall_app. split; [eapply Forall_impl; [exact Ok1|]|eapply Forall_impl; [exact Ok3|]]; intros e'; by apply (cold_ok_tier st).
  - done.
  - eapply sound_weaken; [|eapply sound_result; [exact So|apply Ok2|done|]].
    + intros i. rewrite elem_of_difference, !elem_of_list_to_set, !fmap_app, !elem_of_app, fmap_cons, elem_of_cons. set_solver.
    + by intros [? ?].
  - rewrite fmap_app. apply NoDup_app. split_and!; [done|set_solver|done].
Qed.

(** Evictions, or a slot for [k], leave the other jobs open. *)
Lemma open_frame P P' w w' jobs k :
  open_jobs g1 P w jobs → k ∉ job_key <$> jobs → inv (set_pend g1 P') w' →
  (∀ k', k' ≠ k → P' !! k' = P !! k') →
  (∀ k' loc, cold_at w k' loc → cold_at w' k' loc ∧ (k' ≠ k → slot w' k' = slot w k')) →
  Forall (job_at size_of P' w') jobs.
Proof.
  intros O Hk I' Hp Fr. apply Forall_forall. intros j Hj. pose proof (o_jobs _ _ _ _ _ O) as Js. rewrite Forall_forall in Js.
  destruct (Js j Hj) as (C & D & T & Sl & Hpj). destruct (Fr _ _ C) as [C' Sl'].
  assert (c_key (j_entry j.2) ≠ k) as Hne by (intros <-; apply Hk; by apply (list_elem_of_fmap_2 job_key)).
  split_and!; [done..| |]; [by rewrite Sl'|by rewrite Hp].
Qed.

Lemma cold_oks st st' es : tier st' = tier st → Forall (cold_ok st) es → Forall (cold_ok st') es.
Proof. intros Ht F. eapply Forall_impl; [exact F|]. intros e. by apply cold_ok_tier. Qed.

(** The slot of the first of the others is taken. *)
Lemma prepped_slot st P jobs e others w1 ptr :
  prepped st P jobs (e :: others) → slot (world st) (c_key e) = None → slot w1 (c_key e) = Some (ptr, size_of (c_key e)) →
  inv (set_pend g1 (<[c_key e := (size_of (c_key e), None)]> P)) w1 →
  (∀ k' loc, cold_at (world st) k' loc → cold_at w1 k' loc ∧ (k' ≠ c_key e → slot w1 k' = slot (world st) k')) →
  prepped (set_world st w1) (<[c_key e := (size_of (c_key e), None)]> P) (jobs ++ [(drive_of e, mkReadJob e ptr)]) others.
Proof.
  intros Pr Hn Hs I1 Fr. destruct (Pr) as [O Ok Co So Nd]. pose proof (prepped_key _ _ _ _ e Pr ltac:(left)) as Hk.
  apply Forall_cons in Co as [Ce Co]. destruct (Fr _ _ Ce) as [Ce' _].
  assert (total_size e = size_of (c_key e)) as Hz by (apply Forall_app in Ok as [_ [[] _]%Forall_cons]; done).
  assert (P !! c_key e = None) as Hpn by (apply (spare_pend size_of _ _ _ (o_inv _ _ _ _ _ O) Hn)).
  assert (job_entries (jobs ++ [(drive_of e, mkReadJob e ptr)]) ++ others = job_entries jobs ++ e :: others) as Ej
    by (unfold job_entries; rewrite fmap_app, <- app_assoc; done).
  split; rewrite ?Ej; [|by apply (cold_oks st)| |by apply sound_world|done].
  - destruct (O) as [_ Out Nk Frs _]. split; simpl; rewrite ?fmap_app; simpl.
    + exact I1.
    + intros k. rewrite not_elem_of_app, list_elem_of_singleton. intros [Hk1 Hk2].
      rewrite lookup_insert_ne by (intros <-; by apply Hk2). by apply Out.
    + apply NoDup_app. split_and!; [done| |apply NoDup_singleton]. intros k Hk1 Hk2%list_elem_of_singleton. subst k. by apply Hk.
    + intros k. rewrite elem_of_app, list_elem_of_singleton. intros [?| ->]; [by apply Frs|]. unfold job_key. simpl. by rewrite <- Out.
    + apply Forall_app. split; [|apply Forall_singleton].
      * eapply (open_frame P _ (world st) _ _ (c_key e)); try done. intros k' Hne. by rewrite lookup_insert_ne.
      * split_and!; try done; simpl; rewrite Hz; [done|]. rewrite lookup_insert_eq. by eexists.
  - eapply Forall_impl; [exact Co|]. intros e' Ce2. by apply Fr.
Qed.

(** Evictions for one of the others. *)
Lemma prepped_world st P jobs others k w1 :
  prepped st P jobs others → k ∉ job_key <$> jobs → inv (set_pend g1 P) w1 →
  (∀ k' loc, cold_at (world st) k' loc → cold_at w1 k' loc ∧ (k' ≠ k → slot w1 k' = slot (world st) k')) →
  prepped (set_world st w1) P jobs others.
Proof.
  intros [O Ok Co So Nd] Hk I1 Fr. split; [|by apply (cold_oks st)| |by apply sound_world|done].
  - destruct (O) as [_ Out Nk Frs _]. split; [exact I1|done..|]. by eapply (open_frame P _ (world st) _ _ k).
  - eapply Forall_impl; [exact Co|]. intros e' Ce2. by apply Fr.
Qed.

(** A refused slot: the key is reserved, or the tier is full. *)
Lemma refused_slot st P jobs e others er :
  prepped st P jobs (e :: others) →
  er = Dispatcher.AlreadyExists (c_key e) ∧ is_Some (slot (world st) (c_key e)) ∨ er = Dispatcher.AllocationFailed ∧ staging env = false →
  answer_ok (cache g) (mkRequest (c_key e) (c_regions e)) (Err er).
Proof.
  intros Pr Her. destruct (Pr) as [O _ [(e0 & He0 & El0) _]%Forall_cons _ _]. pose proof (prepped_key _ _ _ _ e Pr ltac:(left)) as Hk.
  destruct (inv_cold _ _ _ _ _ _ (o_inv _ _ _ _ _ O) He0 El0) as (_ & Sp & b & Hb & _). simpl in Hb.
  apply answer_failed; simpl; [by rewrite Hb|..].
  - intros (_ & _ & _ & _ & Sm & _). destruct Her as [[_ [v Hv]]|[_ Hs]]; [|congruence].
    destruct Sp as [[? _]|(? & ? & ? & _ & Hp & _)]; [congruence|]. simpl in Hp. rewrite (o_out _ _ _ _ _ O) in Hp by done. simpl in Hp. by rewrite Hp.
  - intros k ->. destruct Her as [[_ [v Hv]]|[? _]]; [|done].
    destruct Sp as [[? _]|(? & ? & ? & _ & Hp & _)]; [congruence|]. simpl in Hp. rewrite (o_out _ _ _ _ _ O) in Hp by done. simpl in Hp. by rewrite Hp.
Qed.

Lemma cold_prep_spec rest st P jobs staged ma :
  prepped st P jobs (staged ++ rest) →
  ∃ st' P' jobs' staged', cold_prep env st rest jobs staged ma = Ret (st', jobs', staged') ∧
    prepped st' P' jobs' staged' ∧ drives (world st') = drives (world st) ∧ warm st' = warm st ∧ inflight st' = inflight st.
Proof.
  revert st P jobs staged. induction rest as [|e rest IH]; intros st P jobs staged Pr; simpl.
  { rewrite app_nil_r in Pr. by eexists _, P, _, _. }
  apply (prepped_perm _ _ _ _ (e :: staged ++ rest)) in Pr; [|by rewrite Permutation_middle].
  pose proof (p_open _ _ _ _ Pr) as O. pose proof (prepped_key _ _ _ _ e Pr ltac:(left)) as Hk.
  assert (total_size e = size_of (c_key e)) as Hz by (pose proof (p_ok _ _ _ _ Pr) as [_ [[] _]%Forall_cons]%Forall_app; done).
  pose proof (sizes (c_key e)) as Hpos. rewrite Hz.
  destruct (inv_insert size_of _ _ (c_key e) (size_of (c_key e)) ma (o_inv _ _ _ _ _ O) ltac:(lia)) as (x & d & Ei & _ & Hx).
  pose proof (inserted_cold size_of _ _ (c_key e) (size_of (c_key e)) ma x d (o_inv _ _ _ _ _ O) ltac:(lia) Ei) as Fr. rewrite Ei, bind_Ret_l.
  destruct x as [ptr|er].
  - destruct Hx as (Hn & Hs & I1). pose proof (prepped_slot _ _ _ _ _ _ ptr Pr Hn Hs I1 Fr) as Pr1. exact (IH _ _ _ _ Pr1).
  - destruct Hx as [I1 Her]. pose proof (prepped_world _ _ _ _ _ _ Pr Hk I1 Fr) as Pr1.
    destruct Her as [[-> Hs]|[-> Hs]].
    + pose proof (refused_slot _ _ _ _ _ _ Pr (or_introl (conj eq_refl Hs))) as Ha. exact (IH _ _ _ _ (prepped_answer _ _ _ _ _ _ Pr1 Ha)).
    + destruct (staging env) eqn:Hst.
      * apply (prepped_perm _ _ _ _ ((staged ++ [e]) ++ rest)) in Pr1; [exact (IH _ _ _ _ Pr1)|]. rewrite <- app_assoc. apply Permutation_middle.
      * pose proof (refused_slot _ _ _ _ _ _ Pr (or_intror (conj eq_refl Hst))) as Ha. exact (IH _ _ _ _ (prepped_answer _ _ _ _ _ _ Pr1 Ha)).
Qed.

(** The first job has its answer. *)
Lemma prepped_settled st P P' w' j jobs others x :
  prepped st P (j :: jobs) others → open_jobs g1 P' w' jobs →
  (∀ k loc, k ≠ job_key j → cold_at (world st) k loc → cold_at w' k loc) →
  answer_ok (cache g) (mkRequest (c_key (j_entry j.2)) (c_regions (j_entry j.2))) x →
  prepped (set_result (set_world st w') (idx (j_entry j.2)) x) P' jobs others.
Proof.
  intros Pr O' Fr Ha. destruct (Pr) as [O Ok Co So Nd]. simpl in Ok, So, Nd.
  apply Forall_cons in Ok as [Oe Ok]. apply NoDup_cons in Nd as [Nj Nd]. split; simpl.
  - done.
  - by apply (cold_oks st).
  - rewrite Forall_forall in *. intros e He. apply Fr; [|by apply Co]. intros Heq.
    eapply prepped_key; [exact Pr|exact He|]. rewrite Heq. left.
  - eapply sound_weaken; [|eapply (sound_result (cache g) (set_world st w')); [by apply sound_world|apply Oe|done|]].
    + simpl. set_solver.
    + intros _. exists Ssd. split; [apply Oe|done].
  - done.
Qed.

Lemma job_stored st P j jobs others : prepped st P (j :: jobs) others → is_Some (cache g !! job_key j).
Proof.
  intros [O _ _ _ _]. pose proof (o_jobs _ _ _ _ _ O) as [((e & He & _) & _) _]%Forall_cons.
  exact (cache_entry size_of _ _ _ e (o_inv _ _ _ _ _ O) He).
Qed.

(** A job fails because something outside has. *)
Lemma job_failed st P j jobs others :
  prepped st P (j :: jobs) others → ¬ smooth →
  answer_ok (cache g) (mkRequest (c_key (j_entry j.2)) (c_regions (j_entry j.2))) (Err Dispatcher.IoError).
Proof. intros Pr Ns. apply answer_failed; [by eapply job_stored|done|done]. Qed.

Definition untouched st st' : Prop :=
  drives (world st') = drives (world st) ∧ warm st' = warm st ∧ inflight st' = inflight st.

Lemma settle_jobs_spec jobs xs st P others :
  prepped st P jobs others → Forall (filled_at g1 P) jobs → Forall2 (job_answer env g1) jobs xs →
  ∃ st' P', settle_jobs st jobs xs = Ret st' ∧ prepped st' P' [] others ∧ untouched st st'.
Proof.
  intros Pr Fi F2. revert st P Pr Fi. induction F2 as [|[d j] x jobs xs Hx F2 IH]; intros st P Pr Fi; simpl.
  { exists st, P. by split_and!. }
  apply Forall_cons in Fi as [Fj Fi]. pose proof (p_open _ _ _ _ Pr) as O.
  destruct (settle_job_spec size_of sizes env g1 P (world st) d j jobs x O Fj Hx) as (w' & -> & O' & Hd & _ & Fr).
  rewrite bind_Ret_l. pose proof (prepped_settled st P _ w' (d, j) jobs others x Pr O' Fr) as Pr'.
  destruct (IH (set_result (set_world st w') (idx (j_entry j)) x) (delete (job_key (d, j)) P)) as (st' & P' & -> & Pr2 & U1 & U2 & U3).
  - apply Pr'. destruct x as [ps|er]; [by apply answer_served|]. destruct Hx as [-> Hr]. eapply job_failed; [exact Pr|].
    intros (_ & _ & _ & Sm & _). simpl in Hr. rewrite Sm in Hr. done.
  - rewrite Forall_forall in *. intros j' Hj'. destruct (Fi j' Hj') as (b & Hp & Hb). exists b. split; [|done].
    rewrite lookup_delete_ne; [done|]. pose proof (o_nodup _ _ _ _ _ O) as Nd. rewrite fmap_cons in Nd. apply NoDup_cons in Nd as [Nd _].
    intros Heq. apply Nd. rewrite Heq. by apply list_elem_of_fmap_2.
  - exists st', P'. split_and!; [done..|]. unfold untouched in *. simpl in *. split_and!; congruence.
Qed.

(** The jobs get an error. *)
Lemma fail_jobs_spec jobs st T :
  sound (cache g) st T → ¬ smooth →
  Forall (λ j, cold_ok st (j_entry j.2) ∧ is_Some (cache g !! job_key j)) jobs →
  let st' := fail_jobs st jobs in
  sound (cache g) st' (T ∖ list_to_set (idx <$> job_entries jobs)) ∧
  world st' = world st ∧ tier st' = tier st ∧ warm st' = warm st ∧ inflight st' = inflight st.
Proof.
  intros So Ns. revert st T So. induction jobs as [|[d j] jobs IH]; intros st T So Js; simpl.
  { split_and!; try done. eapply sound_weaken; [|done]. set_solver. }
  apply Forall_cons in Js as [[Cj Hc] Js]. destruct (IH (set_result st (idx (j_entry j)) (Err Dispatcher.IoError)) (T ∖ {[idx (j_entry j)]})) as (So' & ? & ? & ? & ?).
  - eapply sound_result; [done|apply Cj|by apply answer_failed|by intros [? ?]].
  - eapply Forall_impl; [exact Js|]. intros j' [Cj' ?]. split; [|done]. by apply (cold_ok_tier st).
  - split_and!; try done. eapply sound_weaken; [|exact So']. set_solver.
Qed.

Lemma run_jobs_spec st P jobs others :
  prepped st P jobs others → (∀ d, checkout env d = true) →
  ∃ st' P', run_jobs env st jobs = Ret st' ∧ prepped st' P' [] others ∧ untouched st st'.
Proof.
  intros Pr Hco. unfold run_jobs. destruct (Pr) as [O Ok Co So Nd]. case_bool_decide as Hj.
  { subst jobs. exists st, P. by split_and!. }
  destruct (pipe_streams env) eqn:Hps; simpl.
  - destruct (filter _ (active jobs _)) as [|d ds] eqn:Hf.
    2:{ assert (d ∈ filter (λ d, checkout env d = false) (active jobs (length (drives (world st))))) as Hd by (rewrite Hf; left).
        apply list_elem_of_filter in Hd as [Hd _]. by rewrite Hco in Hd. }
    destruct (scatter_gather_spec size_of sizes env g1 P (world st) [] jobs O) as (xs & w' & P' & -> & O' & Fi & F2 & Hdm & Hmt & Hdr & _); [done| |].
    { apply Forall_app in Ok as [Ok _]. unfold job_entries in Ok. rewrite Forall_fmap in Ok. eapply Forall_impl; [exact Ok|]. intros j [He _ _]. apply (covers_at _ _ He). }
    rewrite bind_Ret_l. destruct (settle_jobs_spec jobs xs (set_world st w') P' others) as (st' & P0 & -> & Pr' & U1 & U2 & U3); [|done|done|].
    + split; simpl; [done|by apply (cold_oks st)| |by apply sound_world|done]. eapply Forall_impl; [exact Co|].
      intros e (e0 & He0 & El0). exists e0. unfold entry in *. by rewrite Hdm.
    + exists st', P0. split_and!; [done..|]. unfold untouched in *. simpl in *. split_and!; congruence.
  - destruct (release_slots_spec size_of sizes g1 P (world st) jobs O) as (w' & -> & I' & Hdm & Hdr & _). rewrite bind_Ret_l.
    destruct (fail_jobs_spec jobs (set_world st w') (list_to_set (idx <$> job_entries jobs ++ others))) as (So' & Hw & Ht & Hwa & Hin).
    + by apply sound_world.
    + intros (_ & _ & Sm & _). congruence.
    + apply Forall_forall. intros j Hj'. pose proof (o_jobs _ _ _ _ _ O) as Js. rewrite Forall_forall in Js.
      destruct (Js j Hj') as ((e & He & _) & _). split.
      * apply (cold_ok_tier st); [done|]. rewrite Forall_forall in Ok. apply Ok, elem_of_app. left. by apply (list_elem_of_fmap_2 (λ j, j_entry j.2)).
      * exact (cache_entry size_of _ _ _ e (o_inv _ _ _ _ _ O) He).
    + simpl in Hw. eexists _, (pend g1). split; [done|]. split; [|unfold untouched; rewrite Hw, Hwa, Hin; by split_and!].
      apply Forall_app in Ok as [_ Ok]. split; rewrite ?Hw.
      * split; [by rewrite set_pend_same|done|by apply NoDup_nil|set_solver|done].
      * apply (cold_oks st); [by rewrite Ht|done].
      * eapply Forall_impl; [exact Co|]. intros e (e0 & He0 & El0). exists e0. unfold entry in *. by rewrite Hdm.
      * eapply sound_weaken; [|exact So']. rewrite fmap_app. set_solver.
      * rewrite fmap_app in Nd. by apply NoDup_app in Nd as (_ & _ & ?).
Qed.

(** Staging answers the rest. *)
Lemma serve_staged_spec es st P :
  prepped st P [] es →
  let st' := serve_staged env st es in sound (cache g) st' ∅ ∧ world st' = world st ∧ warm st' = warm st ∧ inflight st' = inflight st.
Proof.
  revert st. induction es as [|e es IH]; intros st Pr; simpl.
  { split_and!; try done. by destruct Pr as [_ _ _ So _]. }
  destruct (Pr) as [O Ok [Ce Co]%Forall_cons So Nd]. simpl in Ok, So, Nd. apply Forall_cons in Ok as [Oe Ok].
  apply NoDup_cons in Nd as [Ne Nd]. destruct (cold_drive size_of _ _ _ _ (open_nil size_of sizes _ _ _ O) Ce) as (drive & off & b & _ & _ & Sd & Hbl & Hl & Hb).
  simpl in Hb. set (x := serve_cold_staged _ _ _ _ _).
  assert (answer_ok (cache g) (mkRequest (c_key e) (c_regions e)) x) as Ha.
  { unfold x, serve_cold_staged. rewrite Sd. destruct (covers_at _ _ (co_entry _ _ Oe)) as [Hn Ht]. simpl in Hn, Ht.
    destruct (staging_fits env (idx e)) eqn:Hsf; simpl.
    2:{ apply answer_failed; simpl; [by rewrite Hb| |done]. intros (_ & _ & _ & _ & _ & Sm). by rewrite Sm in Hsf. }
    destruct (read env (idx e)) eqn:Hr.
    2:{ apply answer_failed; simpl; [by rewrite Hb| |done]. intros (_ & _ & _ & Sm & _). by rewrite Sm in Hr. }
    apply answer_served. destruct (read_drive_spec size_of sizes drive off b (c_key e) (total_size e) (tail env (idx e)) Hbl Hl) as [Hrd Hrl];
      [rewrite (co_size _ _ Oe); lia|]. split; [|apply scatter_cut; [done|done|simpl; lia]]. simpl. rewrite scatter_concat, Ht, drop_0 by done. by rewrite Hrd. }
  destruct (IH (set_result st (idx e) x)) as (So' & ? & ? & ?); [|by split_and!].
  split; simpl; [done|by apply (cold_oks st)|done| |done].
  eapply sound_weaken; [|eapply sound_result; [exact So|apply Oe|done|intros _; exists Ssd; split; [apply Oe|done]]]. set_solver.
Qed.

Lemma promote_cold_pass_spec st ma :
  sound (cache g) st (list_to_set (idx <$> cold st)) → inv g1 (world st) → NoDup (idx <$> cold st) →
  Forall (λ e, cold_ok st e ∧ cold_at (world st) (c_key e) (c_offset e)) (cold st) → (∀ d, checkout env d = true) →
  ∃ st', promote_cold env st ma = Ret st' ∧ sound (cache g) st' ∅ ∧ inv g1 (world st') ∧
    warm st' = warm st ∧ inflight st' = inflight st.
Proof.
  intros So I Nd Co Hco. unfold promote_cold. destruct (i_len _ _ _ I) as [_ Hl].
  destruct (length (drives (world st))) as [|n] eqn:Hn; [lia|].
  assert (Forall (λ e, drive_of e < S n)%nat (cold st)) as Hd.
  { eapply Forall_impl; [exact Co|]. intros e [_ Ce]. destruct (cold_drive size_of _ _ _ _ I Ce) as (drive & _ & _ & Hdr & _).
    apply lookup_lt_Some in Hdr. unfold drive_of. lia. }
  rewrite (reject_none _ _ _ Hd). assert (prepped st (pend g1) [] ([] ++ mjoin (per_drive (cold st) <$> seq 0 (S n)))) as Pr.
  { eapply prepped_perm; [symmetry; by apply per_drive_perm|]. split; [|..|done|done].
    - split; [by rewrite set_pend_same|done|by apply NoDup_nil|set_solver|done].
    - eapply Forall_impl; [exact Co|]. by intros e [? _].
    - eapply Forall_impl; [exact Co|]. by intros e [_ ?]. }
  destruct (cold_prep_spec _ st _ [] [] ma Pr) as (st1 & P' & jobs & staged & -> & Pr1 & _ & Hw1 & Hi1). rewrite bind_Ret_l.
  destruct (run_jobs_spec st1 P' jobs staged Pr1 Hco) as (st2 & P0 & -> & Pr2 & _ & Hw2 & Hi2). rewrite bind_Ret_l.
  destruct (serve_staged_spec staged st2 P0 Pr2) as (So' & Hw & Hwa & Hin). eexists. split; [done|]. rewrite Hw, Hwa, Hin.
  split_and!; [done| |congruence..]. exact (open_nil size_of sizes _ _ _ (p_open _ _ _ _ Pr2)).
Qed.

(** ** Synchronisation, peers, recovery *)

Lemma fail_all_spec c ixs st :
  sound c st ∅ → (∀ i, i ∈ ixs → ∃ r, entries !! i = Some r ∧ answer_ok c r (Err Dispatcher.IoError)) →
  let st' := fail_all st ixs in sound c st' ∅ ∧ world st' = world st ∧ warm st' = warm st.
Proof.
  revert st. induction ixs as [|i ixs IH]; intros st So Hi; simpl; [done|].
  destruct (Hi i) as (r & Hr & Ha); [left|].
  destruct (IH (set_result st i (Err Dispatcher.IoError))) as (So' & ? & ?); [|intros; apply Hi; by right|done].
  eapply sound_weaken; [|eapply sound_result; [done|done|done|by intros [? ?]]]. set_solver.
Qed.

Lemma sync_warm_spec st :
  sound (cache g) st ∅ → inv g1 (world st) → warm st = ws → (∀ k, 0 ≤ refs g k) →
  (∀ i, i ∈ inflight st → ∃ r, entries !! i = Some r ∧ is_Some (cache g !! r_key r)) →
  sound (cache g) (sync_warm env st) ∅ ∧ inv g (world (sync_warm env st)).
Proof.
  intros So I Hw H0 Fl. unfold sync_warm.
  set (st1 := if negb (bool_decide (warm st = [])) && warm_stream env && negb (warm_sync env) then fail_all st (inflight st) else st).
  assert (sound (cache g) st1 ∅ ∧ world st1 = world st ∧ warm st1 = warm st) as (So1 & Hw1 & Hwa1).
  { unfold st1. destruct (negb (bool_decide (warm st = [])) && warm_stream env); simpl; [|done]. destruct (warm_sync env) eqn:Hs; simpl; [done|].
    apply fail_all_spec; [done|]. intros i (r & Hr & Hc)%Fl. exists r. split; [done|]. apply answer_failed; [done| |done].
    intros (_ & Sm & _). congruence. }
  simpl. rewrite Hw1, Hwa1, Hw. split; [by apply sound_world|]. by apply release_pins_spec.
Qed.

(** An entry reported missing may be answered otherwise once a peer was asked. *)
Lemma answer_replaced c r k x :
  answer_ok c r (Err (Dispatcher.KeyNotFound k)) → asking = true →
  (∀ ps, x = Ok ps → delivers c (r_key r) (r_regions r) ps) → (∀ k, x ≠ Err (Dispatcher.AlreadyExists k)) → answer_ok c r x.
Proof.
  intros [_ Hh _ _] Hask Hd Hr. split; [done|..].
  - intros S1' Hp Hc Hs. destruct (Hh S1' Hp Hc Hs) as [? ?]. done.
  - congruence.
  - intros k' ->. by destruct (Hr k').
Qed.

(** An answer and its tier. *)
Lemma sound_served c st T i r x t w ks :
  sound c st T → entries !! i = Some r → answer_ok c r x → is_hit t = true →
  sound c (mkPass w (<[i := Some x]> (results st)) (<[i := Some t]> (tier st)) ks (inflight st) (cold st)) T.
Proof.
  intros [Lr Lt An Op] Hi Ha Ht. pose proof (lookup_lt_Some _ _ _ Hi). split; simpl; [by rewrite length_insert..| |].
  - intros j r' x' Hj Hx. destruct (decide (j = i)) as [->|Hne].
    + rewrite list_lookup_insert_eq in Hx by lia. rewrite list_lookup_insert_eq by lia. simplify_eq. eauto.
    + rewrite list_lookup_insert_ne in Hx by done. rewrite list_lookup_insert_ne by done. eauto.
  - intros j Hj. destruct (decide (j = i)) as [->|Hne].
    + rewrite list_lookup_insert_eq in Hj by lia. done.
    + rewrite list_lookup_insert_ne in Hj by done. eauto.
Qed.

Definition may_fail (c : gmap Z (list Z)) (i : nat) : Prop :=
  ∃ r, entries !! i = Some r ∧ answer_ok c r (Err Dispatcher.IoError).

(** Delivering: the answers so far, the pins taken, and the copies issued. *)
Record delivering c st (submitted : list nat) : Prop := {
  d_sound : sound c st ∅;
  d_inv : inv (add_refs (set_cache g c) (warm st)) (world st);
  d_submitted : ∀ i, i ∈ submitted → may_fail c i
}.

Lemma deliver_remote_spec c st submitted i x r k :
  delivering c st submitted → asking = true → entries !! i = Some r →
  results st !! i = Some (Some (Err (Dispatcher.KeyNotFound k))) →
  ∃ st' submitted', deliver_remote env entries st submitted i x = Ret (st', submitted') ∧
    delivering c st' submitted' ∧ ∀ j, j ≠ i → results st' !! j = results st !! j.
Proof.
  intros [So I Su] Hask Hi Hk. destruct (s_answers _ _ _ So i r _ Hi Hk) as [Ha _]. unfold deliver_remote, vec_get. rewrite Hi. simpl.
  assert (∀ er, (∀ k, er ≠ Dispatcher.AlreadyExists k) → answer_ok c r (Err er)) as He.
  { intros er Her. eapply answer_replaced; [exact Ha|done|done|]. intros k' [= ->]. by destruct (Her k'). }
  assert (∀ w er, (∀ k, er ≠ Dispatcher.AlreadyExists k) → inv (add_refs (set_cache g c) (warm st)) w →
    delivering c (set_result (set_world st w) i (Err er)) submitted) as Hd.
  { intros w er Her Iw. split; [|done..]. eapply sound_weaken; [|eapply sound_result; [by apply sound_world|done|by apply He|by intros [? ?]]]. set_solver. }
  destruct x as [u|[]].
  2,3: eexists _, submitted; (split; [done|]); (split; [apply (Hd (world st)); done|]); intros j Hne; simpl; by rewrite list_lookup_insert_ne.
  rewrite lookup_once. destruct (retried size_of _ (world st) 0 (r_key r) I) as (lk & m & -> & _ & Hx). rewrite bind_Ret_l.
  destruct lk as [[|off|ptr sz]|err].
  1,2,4: eexists _, submitted; (split; [done|]); split; [|intros j Hne; simpl; by rewrite list_lookup_insert_ne].
  - destruct Hx as [_ I']. apply (Hd _ _); done.
  - destruct Hx as [I' _]. destruct (released size_of _ _ _ I') as [I2 _]; [apply (refs_nonneg _ _ _ _ I)|]. apply (Hd _ _); done.
  - destruct Hx as (_ & _ & I'). apply (Hd _ _); done.
  - destruct Hx as (I' & e & so & Hen & El). pose proof (covers_at i r Hi) as Cv.
    destruct (serve_resident size_of sizes _ _ _ e ptr sz so (r_regions r) (deliver env i) I' Hen El Cv) as (ps & Hc & ->). simpl in Hc.
    eexists _, _. split; [done|]. split; [|intros j Hne; simpl; by rewrite list_lookup_insert_ne]. split; simpl.
    + eapply sound_served; [done|done| |done]. destruct (deliver env i); [|by apply He].
      eapply answer_replaced; [exact Ha|done|by intros ? [= <-]|done].
    + by apply inv_add_refs_snoc.
    + destruct (deliver env i); [|done]. intros j [?| ->%list_elem_of_singleton]%elem_of_app; [by apply Su|]. exists r. split; [done|by apply He].
Qed.

Lemma deliver_all_spec c xs st submitted :
  delivering c st submitted → asking = true → NoDup xs.*1 →
  (∀ i, i ∈ xs.*1 → ∃ r k, entries !! i = Some r ∧ results st !! i = Some (Some (Err (Dispatcher.KeyNotFound k)))) →
  ∃ st' submitted', deliver_all env entries st submitted xs = Ret (st', submitted') ∧ delivering c st' submitted'.
Proof.
  revert st submitted. induction xs as [|[i x] xs IH]; intros st submitted De Hask Nd Hm; simpl; [by eexists _, _|].
  apply NoDup_cons in Nd as [Ni Nd]. destruct (Hm i) as (r & k & Hi & Hk); [left|].
  destruct (deliver_remote_spec c st submitted i x r k De Hask Hi Hk) as (st1 & sub1 & -> & De1 & Fr). rewrite bind_Ret_l.
  apply IH; [done..|]. intros j Hj. destruct (Hm j) as (r' & k' & ? & ?); [by right|]. exists r', k'. split; [done|].
  rewrite Fr; [done|]. by intros ->.
Qed.

(** What the dispatcher relies on when it asks the peers: the cache stays in
    order, and what was stored still is. *)
Definition peers_keep (ask : World → list (Z * Z) → outcome (list (result unit RemoteLookupError) * World)) : Prop :=
  ∀ g w asked, inv g w → ∃ answers w' c, ask w asked = Ret (answers, w') ∧ inv (set_cache g c) w' ∧ cache g ⊆ c.

Lemma answer_weaken c c' r x : c ⊆ c' → answer_ok c r x → answer_ok c' r x.
Proof. intros Hs [Hd ? ? ?]. split; try done. intros ps Hx. destruct (Hd ps Hx). split; [by eapply lookup_weaken|done]. Qed.

Lemma sound_cache c c' st T : c ⊆ c' → sound c st T → sound c' st T.
Proof.
  intros Hs [Lr Lt An Op]. split; try done. intros i r x Hi Hx. destruct (An i r x Hi Hx) as [Ha ?]. split; [|done]. by eapply answer_weaken.
Qed.

Lemma missing_spec c st i :
  sound c st ∅ → i ∈ missing st → ∃ r k, entries !! i = Some r ∧ results st !! i = Some (Some (Err (Dispatcher.KeyNotFound k))).
Proof.
  intros [Lr _ _ _] [Hm Hi%elem_of_seq]%list_elem_of_filter. destruct (lookup_lt_is_Some_2 entries i) as [r Hr]; [lia|].
  unfold is_missing in Hm. destruct (results st !! i) as [[[|[]]|]|]; try done. eauto.
Qed.

Lemma remote_entries_spec ixs : (∀ i, i ∈ ixs → is_Some (entries !! i)) → ∃ asked, remote_entries entries ixs = Ret asked.
Proof.
  induction ixs as [|i ixs IH]; intros Hi; simpl; [by eexists|]. destruct (Hi i) as [r Hr]; [left|]. unfold vec_get. rewrite Hr. simpl.
  rewrite (sum_covers _ _ (covers_at _ _ Hr)), bind_Ret_l. destruct IH as [asked ->]; [intros; apply Hi; by right|]. simpl. by eexists.
Qed.

Lemma zip_fst {A B} (l : list A) (k : list B) : (zip l k).*1 = take (length k) l.
Proof. revert k. induction l as [|x l IH]; intros [|y k]; simpl; try done. by rewrite IH. Qed.

Lemma forward_missing_spec st remote :
  sound (cache g) st ∅ → inv g (world st) → (∀ k, 0 ≤ refs g k) →
  match remote with Some ask => asking = true ∧ peers_keep ask | None => True end →
  ∃ st' c, forward_missing env remote entries st = Ret st' ∧ sound c st' ∅ ∧ inv (set_cache g c) (world st') ∧
    cache g ⊆ c ∧ (remote = None → c = cache g).
Proof.
  intros So I H0 Hrem. assert (set_cache g (cache g) = g) as Eg by (by destruct g).
  destruct remote as [ask|]; simpl; [|exists st, (cache g); by rewrite Eg].
  destruct Hrem as [Hask Pk]. case_bool_decide; [exists st, (cache g); by rewrite Eg|].
  destruct (remote_entries_spec (missing st)) as [asked ->].
  { intros i Hi. destruct (missing_spec _ _ _ So Hi) as (r & ? & -> & _). by eexists. }
  rewrite bind_Ret_l. destruct (Pk g (world st) asked I) as (answers & w' & c & -> & I' & Hc). rewrite bind_Ret_l.
  destruct (deliver_all_spec c (zip (missing st) answers) (mkPass w' (results st) (tier st) [] (inflight st) (cold st)) [])
    as (st1 & sub & -> & [So1 I1 Su1]); [|done|..].
  - split; simpl; [|by apply inv_add_refs_nil|set_solver]. destruct (sound_cache _ _ _ _ Hc So). by split.
  - rewrite zip_fst. eapply sublist_NoDup; [|apply sublist_take]. apply NoDup_filter, NoDup_seq.
  - intros i. rewrite zip_fst. intros Hi%subseteq_take. exact (missing_spec (cache g) st i So Hi).
  - rewrite bind_Ret_l.
    set (st2 := if negb (bool_decide (sub = [])) && warm_stream env && negb (deliver_sync env) then fail_all st1 sub else st1).
    assert (sound c st2 ∅ ∧ world st2 = world st1 ∧ warm st2 = warm st1) as (So2 & Hw2 & Hwa2).
    { unfold st2. destruct (_ && negb (deliver_sync env)); [|done]. by apply fail_all_spec. }
    exists (set_world st2 (release_pins (world st2) (warm st2))), c. split; [done|].
    split; [by apply sound_world|]. split; [|done]. simpl. rewrite Hw2, Hwa2. by apply release_pins_spec.
Qed.

Lemma recover_promoted_spec c st i rest :
  sound c st ∅ → inv (set_cache g c) (world st) → drop i entries = rest →
  ∃ st', recover_promoted env st i rest = Ret st' ∧ sound c st' ∅ ∧ inv (set_cache g c) (world st').
Proof.
  revert i st. induction rest as [|r rest IH]; intros i st So I Hd; simpl; [by eexists|].
  assert (entries !! i = Some r) as Hi by (by rewrite <- (Nat.add_0_r i), <- lookup_drop, Hd).
  assert (drop (S i) entries = rest) as Hd' by (by rewrite <- (Nat.add_1_r i), <- drop_drop, Hd).
  destruct (results st !! i) as [[[|[]]|]|] eqn:Hx; try (rewrite bind_Ret_l; by apply IH).
  destruct (s_answers _ _ _ So i r _ Hi Hx) as [Ha _]. destruct (a_race _ _ _ Ha key eq_refl) as [Hc Hp].
  destruct (serve_concurrently_promoted_spec size_of sizes _ _ (r_key r) (r_regions r) (recover env i) I (covers_at _ _ Hi)) as (x & w' & -> & I' & Hs).
  rewrite bind_Ret_l. apply IH; [|done|done]. eapply sound_served; [done|done| |done].
  split; [|..|done].
  - intros ps ->. by apply Hs.
  - intros _ Hn. rewrite Hn in Hp. by destruct Hp.
  - intros _ Hn. rewrite Hn in Hc. by destruct Hc.
Qed.

End with_pins.

(** ** The answers *)

(** The attribution agrees with the result. *)
Definition attributed (s : ServedBy) (x : res pieces) : Prop :=
  (is_hit s = true ↔ ∃ ps, x = Ok ps) ∧ (s = Miss ↔ ∃ k, x = Err (Dispatcher.KeyNotFound k)).

Lemma attribute_spec x t :
  ((∃ ps, x = Ok ps) → ∃ t', t = Some t' ∧ is_hit t' = true) → ∃ s, attribute (Some x) t = Ret (s, x) ∧ attributed s x.
Proof.
  intros Ht. destruct x as [ps|er]; simpl.
  - destruct Ht as (t' & -> & Hh); [by eexists|]. exists t'. split; [done|]. split; [by split; [eauto|]|].
    split; [by intros ->|by intros [? ?]].
  - destruct er; eexists; (split; [done|]); split; (split; [|by intros [? ?]]); try done; eauto.
Qed.

Lemma outcomes_spec xs ts :
  length xs = length ts →
  (∀ i y, xs !! i = Some y → ∃ x, y = Some x ∧ ((∃ ps, x = Ok ps) → ∃ t, ts !! i = Some (Some t) ∧ is_hit t = true)) →
  ∃ os, outcomes xs ts = Ret os ∧ length os = length xs ∧
    ∀ i s x, os !! i = Some (s, x) → xs !! i = Some (Some x) ∧ attributed s x.
Proof.
  revert ts. induction xs as [|y xs IH]; intros [|t ts] Hl Hx; try done; simpl.
  { exists []. split_and!; try done. }
  destruct (Hx 0%nat y eq_refl) as (x & -> & Ht). destruct (attribute_spec x t) as (s & -> & Hs).
  { intros Hp. destruct (Ht Hp) as (t' & Ht' & ?). simplify_eq/=. eauto. }
  rewrite bind_Ret_l. destruct (IH ts) as (os & -> & Hlo & Hos); [by injection Hl|intros i; apply (Hx (S i))|]. rewrite bind_Ret_l.
  eexists. split; [done|]. split; [simpl; by rewrite Hlo|]. intros [|i] s' x'; simpl; [by intros [= <- <-]|apply Hos].
Qed.

Lemma batch_lookup_spec remote ma :
  inv g w0 → (∀ d, checkout env d = true) →
  match remote with Some ask => asking = true ∧ peers_keep ask | None => True end →
  ∃ os w' c, batch_lookup env remote w0 entries ma = Ret (os, w') ∧ inv (set_cache g c) w' ∧
    cache g ⊆ c ∧ (remote = None → c = cache g) ∧ length os = length entries ∧
    ∀ i r s x, entries !! i = Some r → os !! i = Some (s, x) → answer_ok c r x ∧ attributed s x.
Proof.
  intros I Hco Hrem. pose proof (λ k, refs_nonneg _ _ _ k I) as H0. unfold batch_lookup.
  destruct (classify_all_spec 0 _ entries (classified_start I)) as (st & -> & [So Ic Pl Co Nd _ Fl _]); [lia|done|]. rewrite bind_Ret_l.
  rewrite Nat.sub_diag in So. simpl in So. rewrite (left_id_L ∅ (∪)) in So.
  assert (∃ t, (if bool_decide (warm st = []) then Ret (mt (world st)) else MemoryTier.batch_touch (mt (world st)) (warm st)) = Ret t ∧
    inv (add_refs g (warm st)) (set_mt (world st) t)) as (t & -> & It).
  { case_bool_decide; [exists (mt (world st)); split; [done|]; by replace (set_mt (world st) (mt (world st))) with (world st) by (by destruct (world st))|].
    destruct (MemoryTier.tier_batch_touch_spec (mt (world st)) (warm st) (i_mt _ _ _ Ic)) as (t & -> & Ot & Es). exists t. split; [done|].
    apply (inv_touched size_of _ (world st)); try done; [apply Ic|]. simpl. unfold MemoryTier.view. by rewrite Es. }
  rewrite bind_Ret_l. set (st1 := set_world st (set_mt (world st) t)).
  assert (∃ st2, (if bool_decide (cold st1 = []) then Ret st1 else promote_cold env st1 ma) = Ret st2 ∧ sound (cache g) st2 ∅ ∧
    inv (add_refs g (warm st)) (world st2) ∧ warm st2 = warm st ∧ inflight st2 = inflight st) as (st2 & -> & So2 & I2 & Hw2 & Hi2).
  { case_bool_decide as Hc.
    - exists st1. split_and!; try done. apply sound_world. simpl in Hc. by rewrite Hc in So.
    - apply (promote_cold_pass_spec (warm st) st1 ma); [by apply sound_world|done|done| |done].
      eapply Forall_impl; [exact Co|]. intros e (Ce & Ca & _). split; [by apply (cold_ok_tier st)|]. exact (same_places_cold _ _ _ _ Pl Ca). }
  rewrite bind_Ret_l. destruct (sync_warm_spec (warm st) st2 So2 I2 Hw2 H0) as [So3 I3]; [by rewrite Hi2|].
  destruct (forward_missing_spec _ remote So3 I3 H0 Hrem) as (st4 & c & -> & So4 & I4 & Hc & Hnone). rewrite bind_Ret_l.
  destruct (recover_promoted_spec c st4 0 entries So4 I4 eq_refl) as (st5 & -> & So5 & I5). rewrite bind_Ret_l.
  destruct (outcomes_spec (results st5) (tier st5)) as (os & -> & Hlo & Hos).
  - by rewrite (s_results _ _ _ So5), (s_tiers _ _ _ So5).
  - intros i y Hy. destruct (lookup_lt_is_Some_2 entries i) as [r Hr]; [rewrite <- (s_results _ _ _ So5); by eapply lookup_lt_Some|].
    destruct y as [x|]; [|apply (s_open _ _ _ So5) in Hy; set_solver]. exists x. split; [done|]. by eapply (s_answers _ _ _ So5).
  - rewrite bind_Ret_l. exists os, (world st5), c. split_and!; try done; [by rewrite Hlo, (s_results _ _ _ So5)|].
    intros i r s x Hr Ho. destruct (Hos i s x Ho) as [Hx Ha]. split; [|done]. by eapply (s_answers _ _ _ So5).
Qed.

End lookup_batch.

(** * Batch stores *)

Section store_batch.
Context {S1 S2 E : Type} `{P1 : IEvictionPolicy S1, L1 : !EvictionPolicyLaws S1,
  P2 : IEvictionPolicy S2, L2 : !EvictionPolicyLaws S2,
  X : IExtentManager E, XL : !ExtentManagerLaws E}.
Context (size_of : Z → Z) (sizes : ∀ k, 0 < size_of k ≤ 2 ^ 30).
Abbreviation World := (World S1 S2 E).
Abbreviation inv := (inv size_of).
Context (g : ghost) (env : StoreEnv) (entries : list (Z * list Z)) (max_attempts polls : nat).
Context (blocks : Forall (λ e, Z.of_nat (length e.2) = size_of e.1 ∧ 0 ≤ e.1 < u64_max) entries).
Implicit Types (w : World) (subs : list (nat * (Z * list Z))) (rs : list (option (res unit))).

(** The stores whose copies are issued, as reservations and as the code lists them. *)
Definition opened subs : gmap Z (Z * option (list Z)) := list_to_map ((λ s, (s.2.1, (size_of s.2.1, Some s.2.2))) <$> subs).
Definition listed subs : list (nat * Z * Z) := (λ s, (s.1, s.2.1, size_of s.2.1)) <$> subs.

(** The tier was full for this key after the whole backpressure budget. *)
Definition dropped (k : Z) : Prop :=
  ∃ p w1 w2, inv (set_pend g p) w1 ∧ pend g ⊆ p ∧
    reserve_memory w1 k (size_of k) max_attempts polls = Ret (Err Dispatcher.AllocationFailed, w2).

(** The answers so far; those of the stores [subs] are open. *)
Record storing rs subs (kept : gmap Z (list Z)) (n : nat) : Prop := {
  st_len : length rs = length entries;
  st_subs : ∀ i k b, (i, (k, b)) ∈ subs → entries !! i = Some (k, b) ∧ issue env i = DmaDone ∧ pend g !! k = None;
  st_keys : NoDup ((λ s, s.2.1) <$> subs);
  st_open : ∀ i, (i < length entries)%nat → rs !! i = Some None ↔ i ∈ subs.*1 ∨ (n ≤ i)%nat;
  st_bound : ∀ i, i ∈ subs.*1 → (i < n)%nat;
  st_ok : ∀ i k b, entries !! i = Some (k, b) → rs !! i = Some (Some (Ok ())) → kept !! k = Some b ∨ dropped k;
  st_kept : ∀ k b, kept !! k = Some b → pend g !! k = None ∧ ∃ i, entries !! i = Some (k, b) ∧ rs !! i = Some (Some (Ok ())) ∧
    issue env i = DmaDone ∧ store_sync env = true
}.

Lemma opened_absent subs k : k ∉ (λ s, s.2.1) <$> subs → opened subs !! k = None.
Proof.
  intros Hk. apply not_elem_of_list_to_map_1. by rewrite <- list_fmap_compose.
Qed.

Lemma opened_snoc subs i k b : k ∉ (λ s, s.2.1) <$> subs → opened (subs ++ [(i, (k, b))]) = <[k := (size_of k, Some b)]> (opened subs).
Proof.
  intros Hk. unfold opened. rewrite fmap_app. simpl. apply list_to_map_snoc. by rewrite <- list_fmap_compose.
Qed.

(** An answer for the open entry [i]. *)
Lemma storing_answer rs subs subs' kept kept' n n' i k b x :
  storing rs subs kept n → entries !! i = Some (k, b) → rs !! i = Some None →
  (∀ s, s ∈ subs' → s ∈ subs) → NoDup ((λ s, s.2.1) <$> subs') → (∀ j, j ∈ subs'.*1 → (j < n')%nat) →
  (∀ j, j ∈ subs'.*1 ∨ (n' ≤ j)%nat ↔ j ≠ i ∧ (j ∈ subs.*1 ∨ (n ≤ j)%nat)) →
  match x with
  | Ok _ => kept' = kept ∧ dropped k ∨ kept' = <[k := b]> kept ∧ kept !! k = None ∧ pend g !! k = None ∧ issue env i = DmaDone ∧ store_sync env = true
  | Err _ => kept' = kept
  end →
  storing (<[i := Some x]> rs) subs' kept' n'.
Proof.
  intros [Le Su Ks Op Bo An Ke] Hi Ho Hsub Nd Hb Hop Hx. pose proof (lookup_lt_Some _ _ _ Hi) as Hlt.
  assert (kept ⊆ kept') as Hk.
  { destruct x as [[]|]; [destruct Hx as [[-> _]|(-> & ? & _)]; [done|by apply insert_subseteq]|by subst]. }
  split; try done.
  - by rewrite length_insert.
  - intros j k' b' Hj. eapply Su. by apply Hsub.
  - intros j Hj. rewrite Hop, <- (Op j Hj). destruct (decide (j = i)) as [->|Hne].
    + rewrite list_lookup_insert_eq by lia. by split; [|intros [? _]].
    + rewrite list_lookup_insert_ne by done. by split; [|intros [_ ?]].
  - intros j k' b' Hk' Hn. destruct (decide (j = i)) as [->|Hne].
    + rewrite list_lookup_insert_eq in Hn by lia. simplify_eq. destruct Hx as [[_ Hd]|[-> _]]; [by right|left; apply lookup_insert_eq].
    + rewrite list_lookup_insert_ne in Hn by done. destruct (An j k' b' Hk' Hn); [left; by eapply lookup_weaken|by right].
  - assert (∀ k' b', kept !! k' = Some b' → pend g !! k' = None ∧ ∃ j, entries !! j = Some (k', b') ∧ <[i := Some x]> rs !! j = Some (Some (@Ok unit Dispatcher.DispatcherError ())) ∧
      issue env j = DmaDone ∧ store_sync env = true) as Hke.
    { intros k' b' Hk'. destruct (Ke k' b' Hk') as (? & j & ? & Hn & ?). split; [done|]. exists j. rewrite list_lookup_insert_ne; [done|]. intros <-. congruence. }
    intros k' b' Hk'. destruct x as [[]|e]; [|subst; by apply Hke]. destruct Hx as [[-> _]|(-> & _ & Hp & Hd & Hs)]; [by apply Hke|].
    apply lookup_insert_Some in Hk' as [[<- <-]|[_ Hk']]; [|by apply Hke]. split; [done|]. exists i. by rewrite list_lookup_insert_eq by lia.
Qed.

Lemma storing_skip rs subs n k b x :
  storing rs subs ∅ n → entries !! n = Some (k, b) → (x = Ok () → dropped k) → storing (<[n := Some x]> rs) subs ∅ (S n).
Proof.
  intros St Hn Hx. pose proof (lookup_lt_Some _ _ _ Hn) as Hlt. destruct (st_open _ _ _ _ St n Hlt) as [_ Ho].
  eapply storing_answer; [exact St|exact Hn|apply Ho; by right|done|apply St|intros j ?%(st_bound _ _ _ _ St); lia| |].
  - intros j. split; [|intros [? [?|?]]; [by left|right; lia]]. intros [Hj|Hj]; [|split; [lia|right; lia]].
    pose proof (st_bound _ _ _ _ St j Hj). split; [lia|by left].
  - destruct x as [[]|]; [left; auto|done].
Qed.

Lemma storing_issued rs subs n k b :
  storing rs subs ∅ n → entries !! n = Some (k, b) → issue env n = DmaDone → pend g !! k = None → k ∉ (λ s, s.2.1) <$> subs →
  storing rs (subs ++ [(n, (k, b))]) ∅ (S n).
Proof.
  intros [Le Su Ks Op Bo An Ke] Hn Hd Hp Hk. split; try done.
  - intros i k' b' [Hi|Hi%list_elem_of_singleton]%elem_of_app; [by apply Su|by simplify_eq].
  - rewrite fmap_app. simpl. apply NoDup_app. split_and!; [done| |apply NoDup_singleton]. intros j Hj ->%list_elem_of_singleton. done.
  - intros i Hi. rewrite (Op i Hi), fmap_app, elem_of_app. simpl. rewrite list_elem_of_singleton. split.
    + intros [?|?]; [by left; left|]. destruct (decide (i = n)); [by left; right|right; lia].
    + intros [[?| ->]|?]; [by left|by right|right; lia].
  - intros i. rewrite fmap_app, elem_of_app. simpl. rewrite list_elem_of_singleton. intros [?%Bo| ->]; lia.
Qed.

Lemma opened_fresh subs k : (opened subs ∪ pend g) !! k = None → k ∉ (λ s, s.2.1) <$> subs ∧ pend g !! k = None.
Proof.
  intros [Ho Hp]%lookup_union_None. split; [|done]. intros (s & -> & Hs)%list_elem_of_fmap.
  apply not_elem_of_list_to_map_2 in Ho. apply Ho. rewrite <- list_fmap_compose. apply list_elem_of_fmap. by exists s.
Qed.

Lemma populate_submit_spec rest n w rs subs :
  drop n entries = rest → storing rs subs ∅ n → (length subs ≤ n ≤ length entries)%nat → inv (set_pend g (opened subs ∪ pend g)) w →
  ∃ w' rs' subs', populate_submit env w rs (listed subs) n rest max_attempts polls = Ret (w', rs', listed subs') ∧
    storing rs' subs' ∅ (length entries) ∧ (length subs' ≤ length entries)%nat ∧ inv (set_pend g (opened subs' ∪ pend g)) w'.
Proof.
  revert n w rs subs. induction rest as [|[k b] rest IH]; intros n w rs subs Hd St Hl I; simpl.
  - exists w, rs, subs. assert (n = length entries) as -> by (pose proof (length_drop entries n) as Hl'; rewrite Hd in Hl'; simpl in Hl'; lia).
    split_and!; try done. lia.
  - assert (entries !! n = Some (k, b)) as Hn by (by rewrite <- (Nat.add_0_r n), <- lookup_drop, Hd).
    assert (drop (S n) entries = rest) as Hd' by (by rewrite <- (Nat.add_1_r n), <- drop_drop, Hd).
    pose proof (lookup_lt_Some _ _ _ Hn). destruct (Forall_lookup_1 _ _ _ _ blocks Hn) as [Hb Hk]. simpl in Hb, Hk.
    pose proof (sizes k) as Hz. rewrite Hb. destruct (Z.eqb_spec (size_of k) 0); [lia|].
    destruct (reserve_copy_spec size_of _ w k b (issue env n) (junk env n) max_attempts polls I Hz Hb) as (x & w1 & Er & Hx).
    rewrite Er, bind_Ret_l. destruct x as [ptr|e].
    + destruct Hx as (Hp & y & w2 & -> & Hy). rewrite bind_Ret_l. apply opened_fresh in Hp as [Hks Hp]. destruct y as [u|e].
      * destruct Hy as [Hdma I2]. replace (listed subs ++ [(n, k, size_of k)]) with (listed (subs ++ [(n, (k, b))])) by (unfold listed; by rewrite fmap_app).
        apply IH; [done|by apply storing_issued|rewrite length_app; simpl; lia|]. rewrite opened_snoc, <- insert_union_l by done. exact I2.
      * destruct Hy as (w3 & -> & I3). rewrite bind_Ret_l. apply IH; [done|by eapply storing_skip|lia|done].
    + destruct Hx as [I1 [-> | ->]].
      * apply IH; [done|by eapply storing_skip|lia|done].
      * apply IH; [done|eapply storing_skip; [done|done|]|lia|done]. intros _. exists (opened subs ∪ pend g), w, w1. split_and!; [done| |done].
        apply map_subseteq_spec. intros k' v Hv. apply lookup_union_Some_r; [|done]. apply map_disjoint_spec. intros k0 v1 v2 H1 H2.
        apply elem_of_list_to_map_2, list_elem_of_fmap in H1 as ([i0 [k1 b1]] & [= -> ->] & Hs). apply (st_subs _ _ _ _ St) in Hs as (_ & _ & Hs). congruence.
Qed.

(** The head of the open stores is settled. *)
Lemma opened_head subs i k b :
  NoDup ((λ s, s.2.1) <$> (i, (k, b)) :: subs) → pend g !! k = None →
  delete k (opened ((i, (k, b)) :: subs) ∪ pend g) = opened subs ∪ pend g.
Proof.
  intros [Hk _]%NoDup_cons Hp. unfold opened. simpl. rewrite <- insert_union_l. apply delete_insert_id, lookup_union_None.
  split; [by apply opened_absent|done].
Qed.

Lemma storing_head rs subs kept kept' n i k b x :
  storing rs ((i, (k, b)) :: subs) kept n →
  match x with
  | Ok _ => kept' = <[k := b]> kept ∧ kept !! k = None ∧ store_sync env = true
  | Err _ => kept' = kept
  end →
  storing (<[i := Some x]> rs) subs kept' n.
Proof.
  intros St Hx. destruct (st_subs _ _ _ _ St i k b) as (Hi & Hd & Hpk); [left|].
  assert (rs !! i = Some None) as Ho by (apply (st_open _ _ _ _ St); [by eapply lookup_lt_Some|left; left]).
  pose proof (st_keys _ _ _ _ St) as Nd. apply NoDup_cons in Nd as [Hk Nd].
  assert (i ∉ subs.*1) as Hni.
  { intros ([j [k' b']] & Ej & Hs)%list_elem_of_fmap. simpl in Ej. subst j.
    destruct (st_subs _ _ _ _ St i k' b') as (Hi' & _); [by right|]. rewrite Hi in Hi'. injection Hi' as <- <-. apply Hk, list_elem_of_fmap. by eexists. }
  pose proof (st_bound _ _ _ _ St i ltac:(left)) as Hlt.
  eapply storing_answer; [exact St|exact Hi|exact Ho|by right|done|intros j ?; apply (st_bound _ _ _ _ St); by right| |].
  - intros j. simpl. rewrite elem_of_cons. split.
    + intros [Hj|Hj]; [split; [by intros ->|auto]|split; [lia|auto]].
    + intros [? [[?|?]|?]]; [done|auto|auto].
  - destruct x as [[]|]; [|done]. right. by destruct Hx as (? & ? & ?).
Qed.

(** The ghost while stores are open and some are registered. *)
Definition partly subs (kept : gmap Z (list Z)) : ghost := mkGhost (refs g) (opened subs ∪ pend g) None (kept ∪ cache g).

Lemma populate_abort_spec subs w rs n :
  storing rs subs ∅ n → inv (set_pend g (opened subs ∪ pend g)) w →
  ∃ w' rs', populate_abort w rs (listed subs) = Ret (w', rs') ∧ storing rs' [] ∅ n ∧ inv g w'.
Proof.
  revert w rs. induction subs as [|[i [k b]] subs IH]; intros w rs St I; simpl.
  - exists w, rs. unfold opened in I. simpl in I. rewrite (left_id_L ∅ (∪)), set_pend_same in I. done.
  - destruct (st_subs _ _ _ _ St i k b) as (_ & _ & Hp); [left|].
    destruct (release_spec size_of _ w k I) as (w1 & -> & I1).
    { right. unfold opened. simpl. rewrite <- insert_union_l, lookup_insert_eq. by eexists. }
    rewrite bind_Ret_l. simpl in I1. rewrite opened_head in I1 by (done || apply St). apply IH; [|exact I1].
    by eapply storing_head.
Qed.

Lemma populate_register_spec subs w rs n kept :
  storing rs subs kept n → store_sync env = true → (size kept + length subs ≤ length entries)%nat →
  Z.of_nat (size (cache g) + length entries) ≤ 2 ^ 32 → (∀ k, refs g k < u32_max - 1) → kept ##ₘ cache g →
  inv (partly subs kept) w →
  ∃ w' rs' kept', populate_register env w rs (listed subs) = Ret (w', rs') ∧ storing rs' [] kept' n ∧ kept' ##ₘ cache g ∧
    inv (partly [] kept') w'.
Proof.
  revert w rs kept. induction subs as [|[i [k b]] subs IH]; intros w rs kept St Hsy Hl Hsz Hr Hdj I; simpl; [by exists w, rs, kept|].
  destruct (st_subs _ _ _ _ St i k b) as (Hi & _ & Hp); [left|]. destruct (Forall_lookup_1 _ _ _ _ blocks Hi) as [_ Hk]. simpl in Hl.
  destruct (completed_spec size_of sizes _ w k b (device env i) I eq_refl Hk) as (x & w1 & -> & Hx).
  { unfold partly, opened. simpl. by rewrite <- insert_union_l, lookup_insert_eq. }
  { rewrite (stored_size _ _ _ I). unfold partly. simpl. rewrite map_size_disj_union by done. lia. }
  rewrite bind_Ret_l. destruct x as [[]|e].
  - destruct Hx as [Hn I1]. simpl in Hn, I1. apply lookup_union_None in Hn as [Hn Hc]. rewrite opened_head in I1 by (done || apply St).
    rewrite insert_union_l in I1. apply (IH w1 _ (<[k := b]> kept)); try done.
    + by eapply storing_head.
    + rewrite map_size_insert_None by done. lia.
    + by apply map_disjoint_insert_l_2.
  - destruct Hx as (-> & _ & [[Hc _]|I1]).
    + exfalso. specialize (Hr k). unfold ref_count in Hc. simpl in Hc. destruct (pinned _); simpl in Hc; lia.
    + unfold partly, set_pend in I1. simpl in I1. rewrite opened_head in I1 by (done || apply St). apply (IH w1 _ kept); try done; [|lia].
      by eapply storing_head.
Qed.

Lemma unwrap_all_spec rs : (∀ i, rs !! i ≠ Some None) → ∃ xs, unwrap_all rs = Ret xs ∧ rs = Some <$> xs.
Proof.
  induction rs as [|[x|] rs IH]; intros Ho; simpl; [by exists []| |by destruct (Ho 0%nat)].
  destruct IH as (xs & -> & ->); [intros i; apply (Ho (S i))|]. by exists (x :: xs).
Qed.

Lemma batch_populate_spec w :
  inv g w → loose g = None → (∀ k, refs g k < u32_max - 1) → Z.of_nat (size (cache g) + length entries) ≤ 2 ^ 32 →
  ∃ xs w' kept, batch_populate env w entries max_attempts polls = Ret (xs, w') ∧ length xs = length entries ∧
    kept ##ₘ cache g ∧ inv (set_cache g (kept ∪ cache g)) w' ∧
    (∀ i k b, entries !! i = Some (k, b) → xs !! i = Some (Ok ()) → kept !! k = Some b ∨ dropped k) ∧
    (∀ k b, kept !! k = Some b → pend g !! k = None ∧ ∃ i, entries !! i = Some (k, b) ∧ xs !! i = Some (Ok ()) ∧
      issue env i = DmaDone ∧ store_sync env = true).
Proof.
  intros I Hlo Hr Hsz. unfold batch_populate.
  assert (storing (replicate (length entries) None) [] ∅ 0) as St0.
  { split; simpl; try done; [by rewrite length_replicate|by intros ? ? ? ?%elem_of_nil|by apply NoDup_nil|..|by intros ? ?%elem_of_nil|].
    - intros i Hi. split; [intros _; right; lia|intros _]. by apply lookup_replicate_2.
    - intros i k b _ [? _]%lookup_replicate. done. }
  assert (opened [] ∪ pend g = pend g) as Ho by (unfold opened; simpl; apply (left_id_L ∅ (∪))).
  destruct (populate_submit_spec entries 0 w _ [] eq_refl St0) as (w1 & rs1 & subs & Es & St1 & Hls & I1);
    [simpl; lia|by rewrite Ho, set_pend_same|]. simpl in Es. rewrite Es, bind_Ret_l.
  assert (∃ w' rs' kept, (if store_sync env then populate_register env w1 rs1 (listed subs) else populate_abort w1 rs1 (listed subs)) = Ret (w', rs') ∧
    storing rs' [] kept (length entries) ∧ kept ##ₘ cache g ∧ inv (partly [] kept) w') as (w' & rs' & kept & -> & St' & Hdj & I').
  { destruct (store_sync env) eqn:Hsy.
    - apply (populate_register_spec subs w1 rs1 (length entries) ∅); try done; [apply map_disjoint_empty_l|].
      unfold partly. rewrite (left_id_L ∅ (∪)), <- Hlo. exact I1.
    - destruct (populate_abort_spec subs w1 rs1 _ St1 I1) as (w' & rs' & -> & St' & I'). exists w', rs', ∅. split_and!; try done; [apply map_disjoint_empty_l|].
      unfold partly. rewrite (left_id_L ∅ (∪)), Ho, <- Hlo. by destruct g. }
  rewrite bind_Ret_l. destruct (unwrap_all_spec rs') as (xs & -> & ->).
  { intros i Hi. assert (i < length entries)%nat by (rewrite <- (st_len _ _ _ _ St'); by eapply lookup_lt_Some).
    apply (st_open _ _ _ _ St') in Hi as [?%elem_of_nil|?]; [done|lia|done]. }
  rewrite bind_Ret_l. pose proof (st_len _ _ _ _ St') as Hl. rewrite length_fmap in Hl.
  exists xs, w', kept. split_and!; try done.
  - unfold partly in I'. rewrite Ho, <- Hlo in I'. exact I'.
  - intros i k b Hi Hx. apply (st_ok _ _ _ _ St' i k b Hi). by rewrite list_lookup_fmap, Hx.
  - intros k b Hk. destruct (st_kept _ _ _ _ St' k b Hk) as (? & i & Hi & Hx & ?). split; [done|]. exists i. split; [done|]. split; [|done].
    rewrite list_lookup_fmap in Hx. by destruct (xs !! i); simplify_eq/=.
Qed.

End store_batch.

End BatchCalls.
