(* ===== verification/CacheSpec.v ===== *)
(** The dispatcher as its clients see it ([components/interfaces/src/idispatcher.rs]):
    the abstract cache, the interface [IDispatcher] as a class, and its promises
    over the abstract cache as the class [DispatcherLaws]. The servers are proved
    against the laws; [CacheService] shows that the dispatcher keeps them. *)

From S2P Require Import Prelude MemoryTier DispatchMap Dispatcher Pins ExtentStore StorePath StoreInvariant StoreCalls StoreBatch BatchCalls.

Module CacheSpec.
Import StorePath StoreInvariant StoreCalls StoreBatch BatchCalls.
Local Open Scope Z_scope.

(** * The abstract cache *)

(** What is stored, what is reserved (with what has been copied so far), and how
    many references the clients hold. *)
Record Spec := mkSpec {
  stored : gmap Z (list Z);
  reserved : gmap Z (option (list Z));
  pinned_by : Z → Z
}.

Definition empty_spec : Spec := mkSpec ∅ ∅ (λ _, 0).

Definition store (sp : Spec) k b := mkSpec (<[k := b]> (stored sp)) (delete k (reserved sp)) (pinned_by sp).
Definition forget (sp : Spec) k := mkSpec (delete k (stored sp)) (delete k (reserved sp)) (pinned_by sp).
Definition reserve (sp : Spec) k p := mkSpec (stored sp) (<[k := p]> (reserved sp)) (pinned_by sp).
Definition unreserve (sp : Spec) k := mkSpec (stored sp) (delete k (reserved sp)) (pinned_by sp).
Definition hold (sp : Spec) k n :=
  mkSpec (stored sp) (reserved sp) (DispatchMap.upd (pinned_by sp) k (pinned_by sp k + n)).

(** A batch store adds blocks of the batch, each with an [Ok] of its own and under
    a key nobody had reserved, and replaces nothing. *)
Definition adds (sp : Spec) (entries : list (Z * list Z)) (xs : list (Dispatcher.res unit)) (sp' : Spec) : Prop :=
  length xs = length entries ∧ stored sp ⊆ stored sp' ∧ reserved sp' = reserved sp ∧ pinned_by sp' = pinned_by sp ∧
  ∀ k b, stored sp !! k = None → stored sp' !! k = Some b →
    reserved sp !! k = None ∧ ∃ i, entries !! i = Some (k, b) ∧ xs !! i = Some (Ok ()).

End CacheSpec.

(** * The interface *)

Module Api.
Import StorePath StoreInvariant StoreCalls StoreBatch BatchCalls CacheSpec.
Local Open Scope Z_scope.

Abbreviation res A := (Dispatcher.res A).

(** What a call finds outside the cache: the time, how often an eviction or a
    reservation is retried, how the GPU copies, the device accesses and the CUDA
    calls go, what the GPU memory holds, and the statistics. *)
Record Answers := mkAnswers {
  now : Z;
  max_attempts : nat;
  polls : nat;
  dma : Dma;
  junk : list Z;
  device : nat;
  lookup_env : Env;
  store_env : StoreEnv;
  promote_checkout : nat → bool;
  promote_read : Z → bool;
  promote_tail : Z → list Z;
  flush_io : nat → bool;
  gpu : Z → Z;
  set_device : bool;
  opened : option (Z * Z);
  io_stats : list Z
}.

(** A step of a background thread: of writer [i], or a pass of an evictor. *)
Inductive Tick := TJob (i : nat) (io : bool) | TEvictMemory (scan quota : nat) | TEvictSsd (key : Z).

Class IDispatcher (W : Type) := {
  check : W → Z → outcome (res bool * W);
  touch : W → Z → outcome (res unit * W);
  promote_to_memory_tier : Answers → W → list Z → outcome W;
  reserve_memory : Answers → W → Z → Z → outcome (res Z * W);
  copy_gpu_to_memory_async : Answers → W → Z → list (list Z) → outcome (res unit * W);
  copy_gpu_to_memory_completed : Answers → W → Z → Z → outcome (res unit * W);
  release_memory : W → Z → outcome (res unit * W);
  pin : W → Z → outcome (res unit * W);
  unpin : W → Z → outcome (res unit * W);
  remove : W → Z → outcome (res unit * W);
  batch_lookup : Answers → W → list Request → outcome (list (ServedBy * res (list (list Z))) * W);
  batch_populate : Answers → W → list (Z * list Z) → outcome (list (res unit) * W);
  clear_memory_tier : Answers → W → outcome (res nat * W);
  clear_all : Answers → W → outcome (nat * nat * W);
  flush_to_ssd : Answers → W → outcome (res nat * W);
  tick : Tick → W → outcome W
}.

(** [ok sp w]: the dispatcher is in order and holds what [sp] says; [vacant w k]:
    the memory tier has no slot for [k]. A key has one size, [size_of k]. *)
Class DispatcherLaws (W : Type) `{IDispatcher W} (size_of : Z → Z) := {
  ok : Spec → W → Prop;
  vacant : W → Z → Prop;
  held_law sp w k : ok sp w → 0 ≤ pinned_by sp k ≤ u32_max ∧ (0 < pinned_by sp k → is_Some (stored sp !! k));
  check_law sp w k :
    ok sp w → ∃ x w', check w k = Ret (x, w') ∧ ok sp w' ∧ ∀ b, x = Ok b → b = bool_decide (is_Some (stored sp !! k));
  touch_law sp w k : ok sp w → ∃ x w', touch w k = Ret (x, w') ∧ ok sp w';
  promote_law a sp w ks : ok sp w → NoDup ks → ∃ w', promote_to_memory_tier a w ks = Ret w' ∧ ok sp w';
  reserve_memory_law a sp w k :
    ok sp w → ∃ x w', reserve_memory a w k (size_of k) = Ret (x, w') ∧
      match x with Ok _ => reserved sp !! k = None ∧ ok (reserve sp k None) w' | Err _ => ok sp w' end;
  copy_law a sp w k regions :
    ok sp w → is_Some (reserved sp !! k) →
    ∃ x w', copy_gpu_to_memory_async a w k regions = Ret (x, w') ∧
      match x with
      | Ok _ => Z.of_nat (length (concat regions)) ≤ size_of k ∧
          ok (reserve sp k (if decide (Z.of_nat (length (concat regions)) = size_of k) then Some (concat regions) else None)) w'
      | Err _ => ok sp w' ∨ ok (reserve sp k None) w' ∨ dma a = DmaFailed ∧ ok (unreserve sp k) w'
      end;
  complete_law a sp w k b :
    ok sp w → reserved sp !! k = Some (Some b) → 0 ≤ k < u64_max → Z.of_nat (size (stored sp)) < 2 ^ 32 →
    ∃ x w', copy_gpu_to_memory_completed a w k (size_of k) = Ret (x, w') ∧
      match x with
      | Ok _ => stored sp !! k = None ∧ ok (store sp k b) w'
      | Err _ => is_Some (stored sp !! k) ∧ (ok sp w' ∨ ok (unreserve sp k) w')
      end;
  release_law sp w k :
    ok sp w → is_Some (reserved sp !! k) ∨ vacant w k →
    ∃ w', release_memory w k = Ret (Ok (), w') ∧ ok (unreserve sp k) w';
  pin_law sp w k :
    ok sp w → ∃ x w', pin w k = Ret (x, w') ∧
      match x with Ok _ => is_Some (stored sp !! k) ∧ ok (hold sp k 1) w' | Err _ => ok sp w' end;
  unpin_law sp w k : ok sp w → 0 < pinned_by sp k → ∃ w', unpin w k = Ret (Ok (), w') ∧ ok (hold sp k (-1)) w';
  remove_law sp w k :
    ok sp w → ∃ x w', remove w k = Ret (x, w') ∧
      match x with
      | Ok _ => is_Some (stored sp !! k) ∧ pinned_by sp k = 0 ∧ ok (forget sp k) w'
      | Err _ => (stored sp !! k = None ∨ pinned_by sp k ≠ 0) ∧ ok sp w'
      end;
  batch_lookup_law a sp w entries :
    ok sp w → NoDup (r_key <$> entries) → Forall (λ r, covers size_of (r_key r) (r_regions r)) entries →
    (∀ d, checkout (lookup_env a) d = true) →
    ∃ os w', batch_lookup a w entries = Ret (os, w') ∧ ok sp w' ∧ length os = length entries ∧
      ∀ i r s x, entries !! i = Some r → os !! i = Some (s, x) →
        (∀ ps, x = Ok ps → delivers (stored sp) (r_key r) (r_regions r) ps) ∧
        (smooth (lookup_env a) → reserved sp !! r_key r = None → pinned_by sp (r_key r) < u32_max - 1 →
          is_Some (stored sp !! r_key r) → ∃ ps, x = Ok ps) ∧
        (stored sp !! r_key r = None → x = Err (Dispatcher.KeyNotFound (r_key r))) ∧ attributed s x;
  batch_populate_law a sp w entries :
    ok sp w → Forall (λ e, Z.of_nat (length e.2) = size_of e.1 ∧ 0 ≤ e.1 < u64_max) entries →
    Z.of_nat (size (stored sp) + length entries) ≤ 2 ^ 32 → (∀ k, pinned_by sp k < u32_max - 1) →
    ∃ xs w' sp', batch_populate a w entries = Ret (xs, w') ∧ adds sp entries xs sp' ∧ ok sp' w';
  flush_law a sp w : ok sp w → ∃ x w', flush_to_ssd a w = Ret (x, w') ∧ ok sp w';
  tick_law t sp w :
    ok sp w → ∃ w' sp', tick t w = Ret w' ∧ ok sp' w' ∧
      (sp' = sp ∨ ∃ k, t = TEvictSsd k ∧ pinned_by sp k = 0 ∧ is_Some (stored sp !! k) ∧ sp' = forget sp k)
}.

End Api.
