(* ===== verification/WriteThrough.v ===== *)
(** The writers' jobs and the background evictors of [StorePath]: every step of
    a job, at whatever moment it runs, keeps the invariant of [StoreInvariant]. *)

From S2P Require Import Prelude LruList EvictionPolicy FreeList MemoryTier DispatchMap Dispatcher Pins ExtentStore StorePath StoreInvariant StoreCalls.

Module WriteThrough.
Import Policy WriteThroughPins ExtentStore StorePath StoreInvariant StoreCalls.
Local Open Scope Z_scope.

Section jobs.
Context {S1 S2 E : Type} `{P1 : IEvictionPolicy S1, L1 : !EvictionPolicyLaws S1,
  P2 : IEvictionPolicy S2, L2 : !EvictionPolicyLaws S2,
  X : IExtentManager E, XL : !ExtentManagerLaws E}.
Context (size_of : Z → Z) (sizes : ∀ k, 0 < size_of k ≤ 2 ^ 30).
Abbreviation World := (World S1 S2 E).
Abbreviation inv := (inv size_of).
Implicit Types (w : World) (g : ghost).

(** A key whose job runs: in memory, or left to the job. *)
Lemma running_state g w k :
  inv g w → running (pin_at w k) = true →
  is_Some (slot w k) ∧ pend g !! k = None ∧ queued (pin_at w k) = false ∧
  (ledger (pin_at w k) = writing ∧ pinned (pin_at w k) = true ∧ removed (pin_at w k) = false ∨
   ledger (pin_at w k) = taken_over ∧ entry w k = None ∧ cache g !! k = None ∧ refs g k = 0 ∧ removed (pin_at w k) = true).
Proof.
  intros I Hr.
  destruct (i_key _ _ _ I k) as [He Hrf Hc Hl Hs|v He Hrf Hc Hl Hs Hp|e ptr sz so b He El Hc Hb Hs Hp Hz Hf Hw|e loc b He El Hc Hb Hl].
  - unfold ledger, unpinned in Hl. congruence.
  - pose proof Hl as Hl'. injection Hl' as ????. split_and!; [by eexists|done..|]. right. done.
  - assert (ledger (pin_at w k) = writing) as Hl.
    { destruct so; [destruct Hw as [Hl _]|destruct Hw as [Hl|[Hl|[Hl _]]]]; try done;
        unfold ledger, unpinned, waiting in Hl; congruence. }
    pose proof Hl as Hl'. injection Hl' as ????. split_and!; [by eexists|done..|]. left. done.
  - unfold ledger, unpinned in Hl. congruence.
Qed.

Lemma peek_view t k : MemoryTier.ok (S:=S2) t → MemoryTier.peek t k = MemoryTier.view t !! k.
Proof.
  intros O. unfold MemoryTier.peek, MemoryTier.view. rewrite (MemoryTier.ok_init _ O). simpl.
  rewrite lookup_fmap. by destruct (_ !! k).
Qed.

Lemma next_multiple_of_bounds n block :
  0 < n ≤ 2 ^ 30 → 0 < block ≤ 2 ^ 30 → ∃ a, FreeList.next_multiple_of n block = Ret a ∧ n ≤ a ≤ 2 ^ 31.
Proof.
  intros Hn Hb. unfold FreeList.next_multiple_of. rewrite rem_w_Ret, bind_Ret_l by lia.
  pose proof (Z.mod_pos_bound n block ltac:(lia)). destruct (Z.eqb_spec (n mod block) 0); [by exists n; split; [|lia]|].
  rewrite add_w_Ret by lia. eexists. split; [done|]. lia.
Qed.

Lemma job_drive g w d x j :
  inv g w → writers w !! d = Some x → job_ok size_of w d j →
  ∃ drive, drives w !! d = Some drive ∧ vec_get (drives w) (device_index j mod length (drives w)) = Ret drive.
Proof.
  intros I Hx (_ & _ & Hd). destruct (i_len _ _ _ I) as [Hl _]. pose proof (lookup_lt_Some _ _ _ Hx) as Hlt. rewrite Hl in Hlt.
  destruct (lookup_lt_is_Some_2 _ _ Hlt) as [drive Hdr]. exists drive. split; [done|]. apply vec_get_Ret. by rewrite Hd.
Qed.

Lemma job_reserve_spec g w i : inv g w → ∃ w', job_reserve w i = Ret w' ∧ inv g w'.
Proof.
  intros I. unfold job_reserve. destruct (writers w !! i) as [[q [|own j| |]]|] eqn:Hx; try (by exists w).
  destruct (i_worker _ _ _ I i _ Hx) as (-> & Hj & Hr). destruct (running_state g w _ I Hr) as ([[ptr sz] Hs] & _ & _ & _).
  rewrite peek_view by apply I. change (MemoryTier.view (mt w) !! job_key j) with (slot w (job_key j)). rewrite Hs.
  destruct (job_drive g w i _ j I Hx Hj) as (drive & Hdr & Hv). destruct (i_drive _ _ _ I _ _ Hdr) as [Eok Hbs].
  destruct (drives w) as [|d0 ds] eqn:Hds; [done|]. rewrite <- Hds in *. rewrite Hv, bind_Ret_l.
  pose proof Hj as (Hk & Hsz & Hd). rewrite Hsz. pose proof (sizes (job_key j)) as Hz.
  destruct (next_multiple_of_bounds (size_of (job_key j)) (block_size drive) Hz Hbs) as (a & -> & Ha). rewrite bind_Ret_l.
  rewrite Z.mod_small by lia. destruct (reserve_law _ _ a Eok Hk ltac:(lia) ltac:(lia)) as (h & e & -> & Eok' & Hex & Hh).
  rewrite bind_Ret_l. eexists. split; [done|]. unfold set_worker. rewrite Hd. pose proof (lookup_lt_Some _ _ _ Hdr) as Hlt.
  eapply (inv_drive size_of i drive _ _ _ g g w); try done; simpl.
  - by destruct h.
  - intros off k b _ Ex Hb. split; [by apply Hex|done].
  - destruct h as [h|]; simpl; (split; [done|]); (split; [unfold job_ok in *; simpl; by rewrite length_insert|]); [|done].
    split; [done|]. eexists _, sz. rewrite list_lookup_insert_eq by done. done.
  - intros off k Ex%Hex. destruct (i_extents _ _ _ I _ _ _ _ Hdr Ex) as [H|[(y & ? & ? & ? & Hy & Ew & _)|H]];
      [by left| |by right; right]. rewrite Hx in Hy. by injection Hy as <-.
  - pose proof (i_loose _ _ _ I) as Lo. unfold loose_ok in *. destruct (loose g) as [[[d' off] k']|]; [|done].
    destruct Lo as (? & ? & drive' & Hdr' & Ex). split_and!; [done..|]. simpl. destruct (decide (d' = i)) as [->|Hne].
    + eexists. rewrite list_lookup_insert_eq by done. split; [done|]. apply Hex. congruence.
    + exists drive'. by rewrite list_lookup_insert_ne.
Qed.

(** The bytes a job writes for an entry that is still there are the stored ones. *)
Lemma job_bytes g w k ptr sz b :
  inv g w → slot w k = Some (ptr, sz) → pend g !! k = None → cache g !! k = Some b → running (pin_at w k) = true →
  slice (memory w) ptr (size_of k) = b.
Proof.
  intros I Hs Hp Hb Hr. destruct (i_key _ _ _ I k) as [| |e ptr0 sz0 so b0 He El Hc Hb0 Hs0 _ _ Hf|e loc b0 He El Hc Hb0 Hl];
    try congruence. unfold ledger, unpinned in Hl. congruence.
Qed.

Lemma loose_none w g : loose g = None → loose_ok w g.
Proof. unfold loose_ok. by intros ->. Qed.

Lemma job_write_spec g w i io :
  inv g w → loose g = None → ∃ w', job_write w i io = Ret w' ∧ inv g w'.
Proof.
  intros I Hno. unfold job_write. destruct (writers w !! i) as [[q [| |own j ptr h|]]|] eqn:Hx; try (by exists w).
  destruct (i_worker _ _ _ I i _ Hx) as (-> & Hj & Hr & drive & sz & Hdr & Hg & Hs).
  destruct (running_state g w _ I Hr) as (_ & Hp & _ & _).
  destruct (job_drive g w i _ j I Hx Hj) as (drive' & Hdr' & ->). rewrite Hdr in Hdr'. injection Hdr' as <-. rewrite bind_Ret_l.
  destruct (i_drive _ _ _ I _ _ Hdr) as [Eok Hbs]. pose proof (lookup_lt_Some _ _ _ Hdr) as Hlt.
  destruct (i_len _ _ _ I) as [_ Hl]. pose proof Hj as (Hk & Hsz & Hd). rewrite Hsz, Hd.
  assert (∀ e b, job_ok size_of (set_drive w i (mkDrive (block_size drive) e b)) i j) as Hj'
    by (intros; unfold job_ok in *; simpl; by rewrite length_insert).
  assert (∀ off k e b, extent (extent_mgr drive) off k →
    accounted (set_worker (set_drive w i (mkDrive (block_size drive) e b)) i (mkWriter q (Reading true j ptr h)) (Written true j None)) g i off k) as Acc.
  { intros off k e b Ex. destruct (i_extents _ _ _ I _ _ _ _ Hdr Ex) as [H|[(y & ? & ? & ? & Hy & Ew & _)|H]];
      [by left| |congruence]. rewrite Hx in Hy. by injection Hy as <-. }
  destruct io.
  - destruct (publish_law _ _ _ Eok Hg) as (e & -> & Eok' & Hex). rewrite bind_Ret_l.
    pose proof (granted_range _ _ _ Eok Hg) as Ho.
    destruct (Location.location_round_trip (drives w) (Z.of_nat i) (extent_offset h) ltac:(lia) Ho) as (loc & En & _).
    rewrite En, bind_Ret_l. eexists. split; [done|]. unfold set_worker.
    eapply (inv_drive size_of i drive _ _ _ g g w); try done; simpl.
    + intros off k b _ Ex Hb. split; [apply Hex; by left|]. rewrite lookup_insert_ne; [done|].
      intros <-. by apply (granted_fresh _ _ _ k Eok Hg).
    + split; [done|]. split; [apply Hj'|]. split; [done|]. eexists _, (extent_offset h).
      rewrite list_lookup_insert_eq by done. split_and!; [done..|apply Hex; by right|]. simpl. intros b Hb.
      rewrite lookup_insert_eq. f_equal. by eapply job_bytes.
    + intros off k [Ex|[-> ->]]%Hex.
      * destruct (Acc off k e (blocks drive) Ex) as [H|[(y & own & j' & l & Hy & Ew & _)|H]]; [by left| |congruence].
        simpl in Hy. rewrite list_lookup_insert_eq in Hy by (by eapply lookup_lt_Some). injection Hy as <-. done.
      * right; left. simpl. eexists _, true, j, loc. rewrite list_lookup_insert_eq by (by eapply lookup_lt_Some). done.
    + by apply loose_none.
  - destruct (abort_law _ _ _ Eok Hg) as (e & -> & Eok' & Hex). rewrite bind_Ret_l. eexists. split; [done|]. unfold set_worker.
    eapply (inv_drive size_of i drive _ _ _ g g w); try done; simpl.
    + intros off k b _ Ex Hb. split; [by apply Hex|]. rewrite lookup_delete_ne; [done|].
      intros <-. by apply (granted_fresh _ _ _ k Eok Hg).
    + split; [done|]. split; [apply Hj'|done].
    + intros off k Ex%Hex. by apply Acc.
    + by apply loose_none.
Qed.

(** ** Start *)

(** The state of a key depends on its ledger entry, not on the stale count. *)
Lemma key_state_ledger w w' g k :
  entry w' k = entry w k → slot w' k = slot w k → drives w' = drives w → failed w' = failed w → memory w' = memory w →
  ledger (pin_at w' k) = ledger (pin_at w k) → key_state size_of w g k → key_state size_of w' g k.
Proof.
  intros He Hs Hd Hf Hm Hl K. assert (pinned (pin_at w' k) = pinned (pin_at w k)) as Hp by (by injection Hl).
  assert (spare size_of w g k → spare size_of w' g k) as Hsp by (unfold spare, filled; by rewrite Hs, Hm).
  assert (∀ e, counted size_of w g k e → counted size_of w' g k e) as Hc by (intros e; unfold counted; by rewrite Hp).
  assert (∀ so b, persisted size_of w k so b → persisted size_of w' k so b) as Hps.
  { intros [loc|] b; unfold persisted; rewrite Hl, ?Hf; [|done]. intros [? ?]. split; [done|]. by apply (on_disk_drives _ w). }
  destruct K as [A1 A2 A3 A4 A5|v A1 A2 A3 A4 A5 A6|e ptr sz so b A1 A2 A3 A4 A5 A6 A7 A8 A9|e loc b A1 A2 A3 A4 A5 A6 A7].
  - apply k_absent; try congruence. by apply Hsp.
  - apply (k_orphan _ _ _ _ v); congruence.
  - eapply (k_resident _ _ _ _ e ptr sz so b); try congruence; auto.
  - eapply (k_cold _ _ _ _ e loc b); try congruence; auto. by apply (on_disk_drives _ w).
Qed.

Lemma jobs_of_taken w w' d q y z j k :
  writers w !! d = Some (mkWriter (j :: q) y) → writers w' = <[d := mkWriter q z]> (writers w) →
  jobs_of w k = (jobs_of w' k + if decide (job_key j = k) then 1 else 0)%nat.
Proof.
  intros Hx Hw. destruct (queued_jobs_split w d _ Hx) as (a & b & Eq & Eq'). unfold jobs_of.
  rewrite (Eq' _ _ Hw), Eq. simpl. rewrite !filter_app, !length_app, filter_cons.
  destruct (decide (job_key j = k)); simpl; rewrite filter_app, length_app; lia.
Qed.

(** The ledger's answer to a job that is taken from a queue. *)
Lemma start_spec g w k :
  inv g w → (0 < jobs_of w k)%nat → ∃ s ks, start (pins w) k = (s, ks) ∧
    (∀ k', k' ≠ k → pin_of ks k' = pin_at w k') ∧
    (s = Stale ∧ ledger (pin_of ks k) = ledger (pin_at w k) ∧ S (stale (pin_of ks k)) = stale (pin_at w k) ∨
     s = Owned ∧ ledger (pin_at w k) = waiting ∧ ledger (pin_of ks k) = writing ∧ stale (pin_at w k) = 0%nat ∧ stale (pin_of ks k) = 0%nat).
Proof.
  intros I Hj. rewrite (i_jobs _ _ _ I k) in Hj. unfold start.
  assert (removed (pin_at w k) = true → running (pin_at w k) = true) as Hrr.
  { destruct (i_key _ _ _ I k) as [? ? ? Hl|? ? ? ? Hl|? ? ? so ? ? ? ? ? ? ? ? ? Hw|? ? ? ? ? ? ? Hl].
    1, 2, 4: injection Hl as ????; congruence.
    destruct so; [destruct Hw as [Hl _]|destruct Hw as [Hl|[Hl|[Hl _]]]]; injection Hl as ????; congruence. }
  destruct (pins w !! k) as [s|] eqn:Hp; [|unfold pin_at, pin_of in Hj; rewrite Hp in Hj; simpl in Hj; lia].
  assert (pin_at w k = s) as Hs by (unfold pin_at, pin_of; by rewrite Hp). rewrite Hs in *.
  destruct (stale s) as [|n] eqn:Hst.
  - assert (queued s = true) as Hq by (destruct (queued s); [done|simpl in Hj; lia]). rewrite Hq. simpl.
    eexists _, _. split; [done|]. split; [intros k' Hne; by rewrite pin_of_insert, decide_False|]. right.
    rewrite pin_of_insert, decide_True by done. simpl. split; [done|].
    assert (ledger s = waiting) as Hl; [|split; [done|]; split; [|done]; unfold ledger, waiting, writing in *; simpl; congruence].
    rewrite <- Hs in *.
    destruct (i_key _ _ _ I k) as [? ? ? Hl|? ? ? ? Hl|? ? ? so ? ? ? ? ? ? ? ? ? Hw|? ? ? ? ? ? ? Hl].
    1, 2, 4: unfold ledger, unpinned, taken_over in Hl; congruence.
    destruct so; [destruct Hw as [Hl _]|destruct Hw as [Hl|[Hl|[Hl _]]]]; try done;
      unfold ledger, unpinned, writing in Hl; congruence.
  - eexists _, _. split; [done|].
    assert (∀ k', pin_of (forget_if_idle (<[k := mkPin (pinned s) (queued s) (running s) (removed s) n]> (pins w)) k) k' =
      pin_of (<[k := mkPin (pinned s) (queued s) (running s) (removed s) n]> (pins w)) k') as Hf.
    { intros k'. apply forget_if_idle_pin_of. rewrite pin_of_insert, decide_True by done. simpl.
      destruct (removed s); [right; by apply Hrr|by left]. }
    split; [intros k' Hne; by rewrite Hf, pin_of_insert, decide_False|]. left. rewrite Hf, pin_of_insert, decide_True by done. done.
Qed.

Lemma job_start_spec g w i : inv g w → loose g = None → inv g (job_start w i).
Proof.
  intros I Hno. unfold job_start. destruct (writers w !! i) as [[[|j q] [| | |]]|] eqn:Hx; try done.
  assert (job_ok size_of w i j) as Hj by (eapply (i_queue _ _ _ I); [exact Hx|by left]).
  assert (0 < jobs_of w (job_key j))%nat as Hpos.
  { rewrite (jobs_of_taken w (set_writer w i (mkWriter q Idle)) i q Idle Idle j _ Hx) by done. rewrite decide_True by done. lia. }
  destruct (start_spec g w (job_key j) I Hpos) as (s & ks & -> & Hks & Hs). set (w' := set_writer _ _ _).
  assert (∀ k', k' ≠ job_key j → pin_at w' k' = pin_at w k') as Hpa by (intros; by apply Hks).
  assert (∀ k', k' ≠ job_key j → same_key size_of w g w' g k') as Sk.
  { intros k' Hne. split; try done. by apply Hpa. }
  assert (∀ k', jobs_of w k' = (jobs_of w' k' + if decide (job_key j = k') then 1 else 0)%nat) as Hjo
    by (intros; by eapply jobs_of_taken).
  assert (∀ j0, j0 ∈ q → job_ok size_of w i j0) as Hqu by (intros j0 Hj0; eapply (i_queue _ _ _ I); [exact Hx|by right]).
  assert (∀ (d' : nat) dr off, drives w !! d' = Some dr → extent (extent_mgr dr) off (job_key j) →
    accounted w g d' off (job_key j) → accounted w' g d' off (job_key j)) as Acc.
  { intros d' dr off _ _ [H|[(y & own & j' & loc & Hy & Ew & H)|H]]; [by left| |congruence].
    right; left. exists y, own, j', loc. simpl. rewrite list_lookup_insert_ne; [done|]. intros <-. rewrite Hx in Hy. by injection Hy as <-. }
  destruct Hs as [(-> & Hl & Hst)|(-> & Hl & Hl' & Hst & Hst')].
  - change (pin_of ks (job_key j)) with (pin_at w' (job_key j)) in *.
    apply (inv_job size_of i _ (mkWriter q Idle) (job_key j) g _ w w' I Hx); try done; try apply I.
    + by apply (key_state_ledger w); [..|apply I].
    + intros k'. specialize (Hjo k'). rewrite (i_jobs _ _ _ I k') in Hjo. destruct (decide (job_key j = k')) as [<-|Hne].
      * injection Hl as ? Hq ? ?. rewrite Hq in *. lia.
      * rewrite Hpa by done. lia.
    + left. split; [done|]. split; [by injection Hl|]. done.
    + by apply loose_none.
  - change (pin_of ks (job_key j)) with (pin_at w' (job_key j)) in *.
    assert (pinned (pin_at w (job_key j)) = true) as Hpin by (by injection Hl).
    destruct (pinned_resident _ _ _ _ I Hpin) as (e & ptr & sz & b & He & El & Hc & Hb & Hs & Hp & Hf & Hz & _).
    apply (inv_job size_of i _ (mkWriter q (Started true j)) (job_key j) g _ w w' I Hx); try done; try apply I.
    + apply (k_resident _ _ _ _ e ptr sz None b); try done; [|by right; left].
      unfold counted in *. assert (pinned (pin_at w' (job_key j)) = true) as -> by (by injection Hl'). by rewrite <- Hpin.
    + intros k'. specialize (Hjo k'). rewrite (i_jobs _ _ _ I k') in Hjo. destruct (decide (job_key j = k')) as [<-|Hne].
      * injection Hl as ? Hq ? ?. injection Hl' as ? Hq' ? ?. rewrite Hq, Hst in Hjo. rewrite Hq', Hst'. simpl in *. lia.
      * rewrite Hpa by done. lia.
    + right. assert (running (pin_at w (job_key j)) = false) as Hr by (by injection Hl).
      split; [intros d' y j' _; by eapply idle_free|]. split; [done|]. split; [by intros ? [= <-]|].
      split; [by exists j|]. split; [done|]. split; [exact Hj|]. by injection Hl'.
    + by apply loose_none.
Qed.

(** ** Finish *)

Lemma finish_spec g w k :
  inv g w → running (pin_at w k) = true → ∃ ks, finish (pins w) k = (negb (removed (pin_at w k)), ks) ∧
    (∀ k', k' ≠ k → pin_of ks k' = pin_at w k') ∧
    ledger (pin_of ks k) = unpinned ∧ stale (pin_of ks k) = stale (pin_at w k).
Proof.
  intros I Hr. destruct (running_state g w k I Hr) as (_ & _ & Hq & _). unfold finish, pin_at, pin_of in *.
  destruct (pins w !! k) as [s|] eqn:Hp; simpl in *; [|done]. eexists. split; [done|].
  assert (∀ k', pin_of (forget_if_idle (<[k := mkPin false (queued s) false false (stale s)]> (pins w)) k) k' =
    pin_of (<[k := mkPin false (queued s) false false (stale s)]> (pins w)) k') as Hf.
  { intros k'. apply forget_if_idle_pin_of. rewrite pin_of_insert, decide_True by done. by left. }
  split; [intros k' Hne; unfold pin_of in Hf; rewrite Hf; by rewrite lookup_insert_ne|].
  unfold pin_of in Hf. rewrite Hf, lookup_insert_eq. simpl. by rewrite Hq.
Qed.

Lemma jobs_of_same w w' d x x' k :
  writers w !! d = Some x → writers w' = <[d := x']> (writers w) → queue x' = queue x → jobs_of w' k = jobs_of w k.
Proof. intros Hx Hw Hq. unfold jobs_of. by rewrite (queued_jobs_same w w' d x x'). Qed.

(** A job of key [k] ends on writer [i]; what it leaves is given by the state of
    the key afterwards. *)
Lemma inv_ended i q own j written ks g g' w w' :
  inv g w → loose g = None → writers w !! i = Some (mkWriter q (Written own j written)) →
  (∀ k', k' ≠ job_key j → pin_of ks k' = pin_at w k') →
  ledger (pin_of ks (job_key j)) = unpinned → stale (pin_of ks (job_key j)) = stale (pin_at w (job_key j)) →
  running (pin_at w (job_key j)) = true →
  writers w' = <[i := mkWriter q Idle]> (writers w) → drives w' = drives w → pins w' = ks → mt w' = mt w → memory w' = memory w →
  (∃ s p L, DispatchMap.ok (dm w') s p L) →
  (∀ k', k' ≠ job_key j → entry w' k' = entry w k' ∧ (k' ∈ failed w → k' ∈ failed w')) →
  refs g' = refs g → cache g' = cache g → (∀ k', k' ≠ job_key j → pend g' !! k' = pend g !! k') →
  key_state size_of w' g' (job_key j) →
  (∀ drive off loc, written = Some loc → drives w !! i = Some drive → extent (extent_mgr drive) off (job_key j) →
     Location.encode_loc (Z.of_nat i) off = Ret loc → accounted w' g' i off (job_key j)) →
  (∀ e loc, entry w (job_key j) = Some e → DispatchMap.stored (DispatchMap.location e) = Some loc → False) →
  loose_ok w' g' → inv g' w'.
Proof.
  intros I Hno Hx Hks Hl Hst Hr Hws Hds Hp Hmt Hm Om Hen Gr Gc Gp K Acc Hrec Lo.
  set (k := job_key j) in *. assert (∀ k', pin_at w' k' = pin_of ks k') as Hpa by (intros; unfold pin_at; by rewrite Hp).
  destruct (running_state g w k I Hr) as (_ & _ & Hq & _).
  assert (∀ d' y j', d' ≠ i → writers w !! d' = Some y → job_of (worker y) = Some j' → job_key j' ≠ k) as Hfree.
  { intros d' y j' Hne Hy Hj Hk. destruct Hne. eapply (i_alone _ _ _ I); [exact Hy|exact Hx|exact Hj|done|done]. }
  apply (inv_job size_of i _ (mkWriter q Idle) k g g' w w' I Hx); try done.
  - rewrite Hmt. apply I.
  - intros k' Hne. destruct (Hen k' Hne). split; rewrite ?Gr, ?Gc, ?Hm; auto; [unfold slot; by rewrite Hmt|by rewrite Hpa, Hks|].
    intros loc b _. by apply on_disk_drives.
  - intros k'. rewrite (jobs_of_same w w' i _ (mkWriter q Idle) k' Hx Hws) by done. rewrite (i_jobs _ _ _ I k'), Hpa.
    destruct (decide (k' = k)) as [->|Hne]; [|by rewrite Hks]. rewrite Hst, Hq. by injection Hl as _ -> _ _.
  - intros j' Hj'. by eapply (i_queue _ _ _ I i _ j' Hx).
  - right. split; [done|]. split; [by intros ? [= <-]|]. split; [done|]. split; [|done]. rewrite Hpa.
    injection Hl as _ _ -> _. done.
  - intros d' dr off Hdr Ex [(e & loc & He & Hs & _)|[(y & own' & j' & loc & Hy & Ew & Hk & En)|H]]; [by destruct (Hrec e loc)| |congruence].
    destruct (decide (d' = i)) as [->|Hne]; [|by destruct (Hfree d' y j' Hne Hy); [by rewrite Ew|]].
    rewrite Hx in Hy. injection Hy as <-. injection Ew as -> -> ->. by eapply (Acc dr off loc).
  - intros d' off k' _. congruence.
Qed.

(** The entry is still there: it gets its copy, or is noted as failed. *)
Lemma inv_settled i q j written ks g w :
  inv g w → loose g = None → writers w !! i = Some (mkWriter q (Written true j written)) →
  (∀ k', k' ≠ job_key j → pin_of ks k' = pin_at w k') →
  ledger (pin_of ks (job_key j)) = unpinned → stale (pin_of ks (job_key j)) = stale (pin_at w (job_key j)) →
  running (pin_at w (job_key j)) = true → pinned (pin_at w (job_key j)) = true →
  inv g (set_dm (set_failed (set_pins (set_worker w i (mkWriter q (Written true j written)) Idle) ks)
                   (record_write (failed w) (job_key j) (bool_decide (is_Some written))))
                (Dispatcher.settle_write_through (dm w) (job_key j) written)).
Proof.
  intros I Hno Hx Hks Hl Hst Hr Hpin. set (k := job_key j) in *.
  destruct (pinned_resident _ _ _ _ I Hpin) as (e & ptr & sz & b & He & El & (Hw & H0 & Hc & Hbl) & Hb & Hs & Hp & Hf & Hz & _).
  rewrite Hpin in Hc. simpl in Hc. destruct (i_dm _ _ _ I) as (s & p & L & O). pose proof He as He'. unfold entry in He'.
  destruct (DispatchMap.ok_refs _ _ _ _ O _ _ He') as [Hrr _]. pose proof (i_worker _ _ _ I i _ Hx) as Wk. simpl in Wk.
  set (e1 := DispatchMap.set_read (DispatchMap.set_location e (DispatchMap.MemoryTier ptr sz written)) (DispatchMap.read_ref e - 1)).
  assert (Dispatcher.settle_write_through (dm w) k written = DispatchMap.set_entry (dm w) k e1) as ->.
  { unfold Dispatcher.settle_write_through, DispatchMap.convert_to_storage, DispatchMap.release_read. rewrite He', El.
    unfold e1. destruct written; simpl; [rewrite (proj2 (Z.ltb_lt _ _)) by lia; done|].
    destruct (Z.eqb_spec (DispatchMap.read_ref e) 0); [lia|]. unfold DispatchMap.set_location. rewrite <- El. by destruct e. }
  match goal with |- StoreInvariant.inv _ _ ?x => set (w' := x) end.
  assert (entry w' k = Some e1) as Hek by (unfold entry; simpl; by rewrite lookup_insert_eq).
  assert (pinned (pin_at w' k) = false) as Hpk by (by injection Hl).
  eapply (inv_ended i q true j written ks g g w); try done.
  - exists s, p, L. apply (DispatchMap.ok_set_entry _ _ _ _ _ e); try done. split; simpl; [lia|by left].
  - intros k' Hne. split; [unfold entry; simpl; by rewrite lookup_insert_ne|]. simpl. unfold record_write.
    destruct (bool_decide _); set_solver.
  - fold k. apply (k_resident _ _ _ _ e1 ptr sz written b); try done.
    + split_and!; [done|done|rewrite Hpk; simpl; lia|done].
    + destruct written as [loc|]; simpl.
      * split; [done|]. destruct Wk as (_ & _ & _ & drive & off & Hdr & En & Ex & Hbk).
        split; [|exists i, drive, off; auto]. rewrite <- Hf, slice_length. pose proof (sizes k). lia.
      * right; right. split; [done|]. simpl. set_solver.
  - intros drive off loc -> Hdr Ex En. left. exists e1, loc. done.
  - fold k. intros e0 loc. rewrite He. intros [= <-]. by rewrite El.
  - by apply loose_none.
Qed.

(** The entry was removed meanwhile: the job frees its slot and its extent. *)
Lemma inv_abandoned i q j written ks g w :
  inv g w → loose g = None → writers w !! i = Some (mkWriter q (Written true j written)) →
  (∀ k', k' ≠ job_key j → pin_of ks k' = pin_at w k') →
  ledger (pin_of ks (job_key j)) = unpinned → stale (pin_of ks (job_key j)) = stale (pin_at w (job_key j)) →
  running (pin_at w (job_key j)) = true → removed (pin_at w (job_key j)) = true →
  ∃ w', (w1 ← mt_remove (set_pins (set_worker w i (mkWriter q (Written true j written)) Idle) ks) (job_key j);
         match written, drives w1 with
         | Some loc, _ :: _ => free_extent w1 loc
         | _, _ => Ret w1
         end) = Ret w' ∧ inv g w'.
Proof.
  intros I Hno Hx Hks Hl Hst Hr Hrm. set (k := job_key j) in *.
  destruct (running_state g w k I Hr) as ([[ptr sz] Hs] & Hp & _ & Hc). destruct Hc as [(_ & _ & ?)|(_ & He & Hc & Hrf & _)]; [congruence|].
  set (w1 := set_pins _ ks). pose proof (i_worker _ _ _ I i _ Hx) as Wk. simpl in Wk.
  assert (∃ lo, match written with
    | None => lo = None
    | Some loc => ∃ off, lo = Some (i, off, k) ∧ Location.encode_loc (Z.of_nat i) off = Ret loc ∧
        ∃ drive, drives w !! i = Some drive ∧ extent (extent_mgr drive) off k end) as [lo Hlo].
  { destruct written as [loc|]; [|by exists None]. destruct Wk as (_ & _ & _ & drive & off & Hdr & En & Ex & _).
    exists (Some (i, off, k)), off. eauto. }
  assert (inv (mkGhost (refs g) (<[k := (sz, None)]> (pend g)) lo (cache g)) w1) as I1.
  { eapply (inv_ended i q true j written ks g _ w); try done; fold k; simpl.
    - apply I.
    - intros k' Hne. by rewrite lookup_insert_ne.
    - apply k_absent; try done. right. exists ptr, sz, None. split_and!; [done|simpl; apply lookup_insert_eq|done].
    - intros drive off loc -> Hdr Ex En. right; right. simpl. destruct Hlo as (off' & -> & En' & drive' & Hdr' & Ex').
      rewrite Hdr in Hdr'. injection Hdr' as <-. destruct (i_drive _ _ _ I _ _ Hdr) as [Eok _].
      destruct (encode_loc_inj (Z.of_nat i) off (Z.of_nat i) off' loc) as [_ ->]; try done; try lia;
        by eapply extent_range.
    - congruence.
    - unfold loose_ok. simpl. destruct written; [|by rewrite Hlo]. destruct Hlo as (off & -> & _ & H).
      split; [done|]. split; [by injection Hl|done]. }
  destruct (inv_mt_remove size_of _ w1 k I1) as (w2 & -> & I2 & _ & Hds & _); [right; simpl; rewrite lookup_insert_eq; by eexists|].
  rewrite bind_Ret_l. simpl in I2. rewrite delete_insert_id in I2 by done. destruct written as [loc|].
  - destruct Hlo as (off & -> & En & drive & Hdr & Ex). rewrite Hds. change (drives w1) with (drives w).
    destruct (drives w) eqn:Ed; [done|]. destruct (inv_freed size_of i off k loc _ w2 I2 eq_refl En) as (w' & -> & I' & _).
    exists w'. split; [done|]. eapply inv_ghost; [..|exact I']; done.
  - rewrite Hlo in I2. exists w2. split; [done|]. eapply inv_ghost; [..|exact I2]; done.
Qed.

Lemma job_finish_spec g w i : inv g w → loose g = None → ∃ w', job_finish w i = Ret w' ∧ inv g w'.
Proof.
  intros I Hno. unfold job_finish. destruct (writers w !! i) as [[q [| | |own j written]]|] eqn:Hx; try (by exists w).
  pose proof (i_worker _ _ _ I i _ Hx) as Wk. assert (own = true ∧ running (pin_at w (job_key j)) = true) as [-> Hr]
    by (destruct written; simpl in Wk; intuition auto).
  destruct (finish_spec g w (job_key j) I Hr) as (ks & Ef & Hks & Hl & Hst). simpl. rewrite Ef.
  destruct (running_state g w _ I Hr) as (_ & _ & _ & [(_ & Hpin & Hrm)|(_ & _ & _ & _ & Hrm)]); rewrite Hrm; simpl.
  - eexists. split; [done|]. by eapply (inv_settled i q j written ks g w).
  - by apply inv_abandoned.
Qed.

Lemma job_step_spec g w i io : inv g w → loose g = None → ∃ w', job_step w i io = Ret w' ∧ inv g w'.
Proof.
  intros I Hno. unfold job_step. destruct (writers w !! i) as [[q [| | |]]|] eqn:Hx.
  - eexists. split; [done|]. by apply job_start_spec.
  - by apply job_reserve_spec.
  - by apply job_write_spec.
  - by apply job_finish_spec.
  - by exists w.
Qed.

(** * The evictors *)

Lemma demote_pass_spec g quota w cands : inv g w → ∃ w', demote_pass quota w cands = Ret w' ∧ inv g w'.
Proof.
  intros I. revert quota w I. induction cands as [|k cands IH]; intros quota w I; simpl; [by exists w|].
  unfold DispatchMap.try_evict_to_block. destruct (DispatchMap.entries (dm w) !! k) as [e|] eqn:He; [|rewrite set_dm_dm; by apply IH].
  destruct (Z.eqb_spec (DispatchMap.read_ref e) 0) as [Hr|]; simpl; [|rewrite set_dm_dm; by apply IH].
  destruct (Z.eqb_spec (DispatchMap.write_ref e) 0) as [Hw|]; simpl; [|rewrite set_dm_dm; by apply IH].
  destruct (DispatchMap.location e) as [off|ptr sz [off|]] eqn:El; [rewrite set_dm_dm; by apply IH| |rewrite set_dm_dm; by apply IH].
  destruct (Dispatcher.evict_victim (holds_of w g) (disp w) k e ptr sz off (inv_good _ _ _ I) He El Hr Hw) as (t & Er & _ & _ & _ & Hg).
  simpl in Er. rewrite Er, bind_Ret_l. destruct (Hg (Dispatcher.count_evicted (counters w))) as [G V].
  pose proof (inv_evicts _ _ _ _ I G V) as I'. destruct quota as [|[|quota]]; [by eexists..|]. by apply IH.
Qed.

Lemma memory_tier_evictor_spec g w scan quota : inv g w → ∃ w', memory_tier_evictor w scan quota = Ret w' ∧ inv g w'.
Proof.
  intros I. unfold memory_tier_evictor.
  destruct (Dispatcher.oldest_keys_spec (mt w) scan (i_mt _ _ _ I)) as (ks & -> & _). rewrite bind_Ret_l. by apply demote_pass_spec.
Qed.

Lemma free_removed_steps w k off w' :
  free_removed w k false (Some off) = Ret (Ok (), w') → (w1 ← mt_remove w k; free_extent w1 off) = Ret w'.
Proof.
  unfold free_removed. intros (w1 & -> & (w2 & E2 & [= <-])%bind_Ret)%bind_Ret. by rewrite bind_Ret_l.
Qed.

Lemma get_evictable_offset_spec g w k :
  inv g w → ∃ x w', get_evictable_offset w k = Ret (x, w') ∧ inv g w' ∧
    ∀ off, x = Some off → ∃ e, entry w' k = Some e ∧ DispatchMap.location e = DispatchMap.BlockDevice off.
Proof.
  intros I. pose proof (refs_nonneg _ _ _ k I) as H0. unfold get_evictable_offset.
  destruct (inv_lookup size_of g w k I) as (r & m & -> & Hr). rewrite bind_Ret_l. destruct r as [r|err].
  2:{ destruct Hr as (_ & _ & ->). rewrite set_dm_dm. by eexists _, w. }
  destruct (entry w k) as [e|] eqn:He; [|destruct Hr as [-> ->]; rewrite set_dm_dm; by eexists _, w].
  destruct Hr as (-> & _ & I1 & Sl1). destruct (same_location_entry _ _ _ _ Sl1 He) as (e1 & He1 & El1).
  destruct (inv_dm_release _ g _ k I1 H0) as [I2 Sl2]. destruct (same_location_entry _ _ _ _ Sl2 He1) as (e2 & He2 & El2).
  destruct (DispatchMap.location e) as [off|] eqn:El; simpl; eexists _, _; (split; [done|]); (split; [done|]); [|done].
  intros ? [= <-]. exists e2. split; [done|congruence].
Qed.

Lemma evict_from_ssd_spec g w k :
  inv g w → loose g = None → ∃ w', evict_from_ssd w k = Ret w' ∧
    (inv g w' ∨ refs g k = 0 ∧ is_Some (cache g !! k) ∧
     inv (mkGhost (refs g) (delete k (pend g)) None (delete k (cache g))) w').
Proof.
  intros I Hno. unfold evict_from_ssd. destruct (get_evictable_offset_spec g w k I) as (x & w1 & -> & I1 & Hx). rewrite bind_Ret_l.
  destruct x as [off|]; [|eauto]. destruct (Hx off eq_refl) as (e & He & El).
  destruct (inv_dm_remove size_of g w1 k I1 Hno) as (x & m & -> & Hm). rewrite bind_Ret_l. rewrite He in Hm.
  destruct x as [u|[]]; try done.
  2:{ destruct Hm as [_ ->]. rewrite set_dm_dm. eauto. }
  destruct Hm as (Hr0 & lo & Hlo & I2). destruct (unreferenced_unpinned _ _ _ _ _ I1 He Hr0) as [Hl Hrf].
  destruct (absent_state _ _ _ k I2) as [He2 Hl2]; [simpl; apply lookup_delete_eq|right; injection Hl as ? ? Hrun ?; exact Hrun|].
  destruct (free_removed_spec size_of g w1 (set_dm w1 m) k _ lo (Some off) I2 Hlo) as (w' & Ef & I' & _); [by rewrite El|done..|].
  exists w'. split; [by apply free_removed_steps|]. right. split_and!; [done|by apply (cache_entry size_of g w1 k e)|done].
Qed.

End jobs.

End WriteThrough.
