(* ===== verification/CacheSystem.v ===== *)
(** The cache as its clients see it: an abstract store of bytes by key, and the
    theorem that every call of the dispatcher, and every step of its background
    threads, in any order, refines it. *)

From S2P Require Import Prelude LruList EvictionPolicy FreeList MemoryTier Slab Buddy Region Checkpoint Recovery ExtentManager DispatchMap Dispatcher Pins ExtentStore StorePath StoreInvariant StoreCalls StoreBatch BatchCalls CacheSpec WriteThrough.

Module CacheSystem.
Import Policy WriteThroughPins ExtentStore StorePath StoreInvariant StoreCalls StoreBatch BatchCalls CacheSpec WriteThrough.
Local Open Scope Z_scope.

(** * Events

    A call with its arguments and what the environment answers to it, a step of
    writer [i], or a pass of an evictor. *)
Inductive event :=
| EReserve (key : Z) (max_attempts polls : nat)
| ECopy (key : Z) (regions : list (list Z)) (dma : Dma) (junk : list Z)
| EComplete (key : Z) (device : nat)
| ERelease (key : Z)
| ELookup (key : Z) (staging io : bool) (tail : list Z) (max_attempts : nat)
| EPromote (keys : list Z) (checkout : nat → bool) (read : Z → bool) (tail : Z → list Z) (max_attempts : nat)
| ECheck (key : Z)
| EPin (key : Z)
| EUnpin (key : Z)
| ETouch (key : Z)
| ERemove (key : Z)
| EJob (i : nat) (io : bool)
| EEvictMemory (scan quota : nat)
| EEvictSsd (key : Z)
| EBatchLookup (env : Env) (entries : list Request) (max_attempts : nat)
| EBatchPopulate (env : StoreEnv) (entries : list (Z * list Z)) (max_attempts polls : nat).

Inductive answer :=
| ANone
| APointer (x : Dispatcher.res Z)
| AUnit (x : Dispatcher.res unit)
| AData (x : Dispatcher.res (list Z))
| ABool (x : Dispatcher.res bool)
| AServed (os : list (ServedBy * Dispatcher.res (list (list Z))))
| AUnits (xs : list (Dispatcher.res unit)).

Section system.
Context {S1 S2 E : Type} `{P1 : IEvictionPolicy S1, P2 : IEvictionPolicy S2, X : IExtentManager E}.
Context (size_of : Z → Z).
Abbreviation World := (World S1 S2 E).

Definition exec (w : World) (ev : event) : outcome (answer * World) :=
  match ev with
  | EReserve k ma polls => '(x, w) ← reserve_memory w k (size_of k) ma polls; Ret (APointer x, w)
  | ECopy k regions dma junk => '(x, w) ← copy_gpu_to_memory_async w k regions dma junk; Ret (AUnit x, w)
  | EComplete k device => '(x, w) ← copy_gpu_to_memory_completed w k (size_of k) device; Ret (AUnit x, w)
  | ERelease k => '(x, w) ← release_memory w k; Ret (AUnit x, w)
  | ELookup k staging io tail ma => '(x, w) ← lookup w k (size_of k) staging io tail ma; Ret (AData x, w)
  | EPromote ks checkout read tail ma => w ← promote_to_memory_tier w ks checkout read tail ma; Ret (ANone, w)
  | ECheck k => '(x, w) ← check w k; Ret (ABool x, w)
  | EPin k => let '(x, w) := take_pin w k in Ret (AUnit x, w)
  | EUnpin k => let '(x, w) := unpin w k in Ret (AUnit x, w)
  | ETouch k => '(x, w) ← touch w k; Ret (AUnit x, w)
  | ERemove k => '(x, w) ← remove w k; Ret (AUnit x, w)
  | EJob i io => w ← job_step w i io; Ret (ANone, w)
  | EEvictMemory scan quota => w ← memory_tier_evictor w scan quota; Ret (ANone, w)
  | EEvictSsd k => w ← evict_from_ssd w k; Ret (ANone, w)
  | EBatchLookup env entries ma => '(os, w) ← batch_lookup env None w entries ma; Ret (AServed os, w)
  | EBatchPopulate env entries ma polls => '(xs, w) ← batch_populate env w entries ma polls; Ret (AUnits xs, w)
  end.

(** The clients' side of the contract: a reservation is used by the client that
    got it, it is completed once the whole block is in, and a client gives back
    only references it holds. The keys of a prefetch are distinct. Keys are below [u64::MAX], and fewer than 2^32 are
    stored. The entries of a batch lookup have distinct keys and regions that add
    up to the key's size, and a channel of every drive can be checked out; a
    batch store brings whole blocks, for keys held fewer than 2^32 - 2 times. *)
Definition allowed (sp : Spec) (ev : event) : Prop :=
  match ev with
  | ECopy k _ _ _ | ERelease k => is_Some (reserved sp !! k)
  | EComplete k _ => (∃ b, reserved sp !! k = Some (Some b)) ∧ 0 ≤ k < u64_max ∧
      Z.of_nat (size (stored sp)) < 2 ^ 32
  | EUnpin k => 0 < pinned_by sp k
  | EPromote ks _ _ _ _ => NoDup ks
  | EBatchLookup env entries _ => NoDup (r_key <$> entries) ∧ Forall (λ r, covers size_of (r_key r) (r_regions r)) entries ∧
      ∀ d, checkout env d = true
  | EBatchPopulate _ entries _ _ => Forall (λ e, Z.of_nat (length e.2) = size_of e.1 ∧ 0 ≤ e.1 < u64_max) entries ∧
      Z.of_nat (size (stored sp) + length entries) ≤ 2 ^ 32 ∧ ∀ k, pinned_by sp k < u32_max - 1
  | _ => True
  end.

(** What a call may answer, and what the clients know afterwards. *)
Definition spec_step (sp : Spec) (ev : event) (ans : answer) (sp' : Spec) : Prop :=
  match ev, ans with
  | EReserve k _ _, APointer (Ok _) => reserved sp !! k = None ∧ sp' = reserve sp k None
  | EReserve k _ _, APointer (Err _) => sp' = sp
  | ECopy k regions dma _, AUnit (Ok _) => dma = DmaDone ∧ Z.of_nat (length (concat regions)) ≤ size_of k ∧
      sp' = reserve sp k (if decide (Z.of_nat (length (concat regions)) = size_of k) then Some (concat regions) else None)
  | ECopy k _ dma _, AUnit (Err _) => sp' = sp ∨ sp' = reserve sp k None ∨ dma = DmaFailed ∧ sp' = unreserve sp k
  | EComplete k _, AUnit (Ok _) => stored sp !! k = None ∧ ∃ b, reserved sp !! k = Some (Some b) ∧ sp' = store sp k b
  | EComplete k _, AUnit (Err e) => e = Dispatcher.AlreadyExists k ∧ is_Some (stored sp !! k) ∧
      (sp' = sp ∨ sp' = unreserve sp k)
  | ERelease k, AUnit (Ok _) => sp' = unreserve sp k
  | ELookup k _ _ _ _, AData x => (∀ data, x = Ok data → stored sp !! k = Some data) ∧ sp' = sp
  | ECheck k, ABool x => (∀ b, x = Ok b → b = bool_decide (is_Some (stored sp !! k))) ∧ sp' = sp
  | EPin k, AUnit (Ok _) => is_Some (stored sp !! k) ∧ sp' = hold sp k 1
  | EPin k, AUnit (Err _) => sp' = sp
  | EUnpin k, AUnit (Ok _) => sp' = hold sp k (-1)
  | ETouch _, AUnit _ => sp' = sp
  | ERemove k, AUnit (Ok _) => is_Some (stored sp !! k) ∧ pinned_by sp k = 0 ∧ sp' = forget sp k
  | ERemove k, AUnit (Err e) => e = Dispatcher.KeyNotFound k ∧ (stored sp !! k = None ∨ pinned_by sp k ≠ 0) ∧ sp' = sp
  | EEvictSsd k, ANone => sp' = sp ∨ pinned_by sp k = 0 ∧ is_Some (stored sp !! k) ∧ sp' = forget sp k
  | EBatchLookup _ entries _, AServed os => length os = length entries ∧ sp' = sp ∧
      ∀ i r s x, entries !! i = Some r → os !! i = Some (s, x) →
        (∀ ps, x = Ok ps → delivers (stored sp) (r_key r) (r_regions r) ps) ∧
        (stored sp !! r_key r = None → x = Err (Dispatcher.KeyNotFound (r_key r))) ∧ attributed s x
  | EBatchPopulate _ entries _ _, AUnits xs => adds sp entries xs sp'
  | EPromote _ _ _ _ _, ANone | EJob _ _, ANone | EEvictMemory _ _, ANone => sp' = sp
  | _, _ => False
  end.

(** The world serves the sequence: each call the clients may make returns, with an
    answer the abstract cache allows, and serves the rest. *)
Inductive serves : World → Spec → list event → Prop :=
| serves_nil w sp : serves w sp []
| serves_cons w sp ev evs :
    (allowed sp ev → ∃ ans w' sp', exec w ev = Ret (ans, w') ∧ spec_step sp ev ans sp' ∧ serves w' sp' evs) →
    serves w sp (ev :: evs).

(** In addition [Q] holds of the abstract and the concrete state all along. *)
Inductive always (Q : Spec → World → Prop) : World → Spec → list event → Prop :=
| always_nil w sp : Q sp w → always Q w sp []
| always_cons w sp ev evs : Q sp w →
    (allowed sp ev → ∃ ans w' sp', exec w ev = Ret (ans, w') ∧ spec_step sp ev ans sp' ∧ always Q w' sp' evs) →
    always Q w sp (ev :: evs).

(** The clients give up the reservations [ks]; a release that is refused counts as a
    failure of the whole. *)
Fixpoint release_all (w : World) (ks : list Z) : outcome World :=
  match ks with
  | [] => Ret w
  | k :: ks => '(x, w) ← release_memory w k; match x with Ok _ => release_all w ks | Err _ => Panic end
  end.

End system.

(** * Refinement *)

Section refinement.
Context {S1 S2 E : Type} `{P1 : IEvictionPolicy S1, L1 : !EvictionPolicyLaws S1,
  P2 : IEvictionPolicy S2, L2 : !EvictionPolicyLaws S2,
  X : IExtentManager E, XL : !ExtentManagerLaws E}.
Context (size_of : Z → Z) (sizes : ∀ k, 0 < size_of k ≤ 2 ^ 30).
Abbreviation World := (World S1 S2 E).
Implicit Types (w : World) (sp : Spec).

(** The abstract state as the ghost of the invariant. *)
Definition ghost_of sp : ghost :=
  mkGhost (pinned_by sp) (map_imap (λ k p, Some (size_of k, p)) (reserved sp)) None (stored sp).

Definition holds sp w : Prop := inv size_of (ghost_of sp) w.

Lemma pend_of sp k : pend (ghost_of sp) !! k = (λ p, (size_of k, p)) <$> reserved sp !! k.
Proof. simpl. rewrite map_lookup_imap. by destruct (reserved sp !! k). Qed.

Lemma ghost_reserve sp k p :
  set_pend (ghost_of sp) (<[k := (size_of k, p)]> (pend (ghost_of sp))) = ghost_of (reserve sp k p).
Proof. unfold ghost_of, set_pend. simpl. f_equal. symmetry. by apply map_imap_insert_Some. Qed.

Lemma imap_delete (m : gmap Z (option (list Z))) k :
  map_imap (λ k p, Some (size_of k, p)) (delete k m) = delete k (map_imap (λ k p, Some (size_of k, p)) m).
Proof. by rewrite map_imap_delete. Qed.

Lemma ghost_unreserve sp k : set_pend (ghost_of sp) (delete k (pend (ghost_of sp))) = ghost_of (unreserve sp k).
Proof. unfold ghost_of, set_pend. simpl. by rewrite imap_delete. Qed.

Lemma ghost_forget sp k :
  mkGhost (refs (ghost_of sp)) (delete k (pend (ghost_of sp))) None (delete k (cache (ghost_of sp))) = ghost_of (forget sp k).
Proof. unfold ghost_of. simpl. by rewrite imap_delete. Qed.

Lemma ghost_store sp k b :
  mkGhost (refs (ghost_of sp)) (delete k (pend (ghost_of sp))) None (<[k := b]> (cache (ghost_of sp))) = ghost_of (store sp k b).
Proof. unfold ghost_of. simpl. by rewrite imap_delete. Qed.

Lemma ghost_pend sp g :
  refs g = refs (ghost_of sp) → loose g = loose (ghost_of sp) → cache g = cache (ghost_of sp) → g = set_pend (ghost_of sp) (pend g).
Proof. destruct g. simpl. by intros -> -> ->. Qed.

(** One event. *)
Definition simulates sp w (ev : event) : Prop :=
  ∃ ans w' sp', exec size_of w ev = Ret (ans, w') ∧ spec_step size_of sp ev ans sp' ∧ holds sp' w'.

Lemma store_events sp w ev :
  holds sp w → allowed size_of sp ev →
  match ev with EReserve _ _ _ | ECopy _ _ _ _ | EComplete _ _ | ERelease _ => True | _ => False end → simulates sp w ev.
Proof.
  intros I Ha Hev. destruct ev as [k ma polls|k regions dma junk|k dev|k| | | | | | | | | | | |]; try done; clear Hev; unfold simulates; simpl.
  - pose proof (sizes k). destruct (reserve_spec size_of _ w k (size_of k) ma polls I ltac:(lia)) as (x & w' & -> & Hx).
    rewrite bind_Ret_l. destruct x as [ptr|e].
    + destruct Hx as (Hn & _ & I'). rewrite ghost_reserve in I'. eexists _, w', _. split; [done|]. split; [|exact I']. split; [|done].
      rewrite pend_of in Hn. by destruct (reserved sp !! k).
    + destruct Hx as [I' _]. by eexists _, w', sp.
  - destruct Ha as [p Hp]. destruct (copy_spec size_of _ w k (size_of k) p regions dma junk I) as (x & w' & -> & g' & I' & Gr & Gl & Gc & Hx);
      [by rewrite pend_of, Hp|by apply fits_size|]. rewrite bind_Ret_l. rewrite (ghost_pend sp g' Gr Gl Gc) in I'. destruct x as [u|e].
    + destruct Hx as (-> & Hl & Hx). rewrite Hx, ghost_reserve in I'. by eexists _, w', _.
    + destruct Hx as [Hx|[Hx|(Hd & Hx & _)]]; rewrite Hx in I'.
      * rewrite set_pend_same in I'. eexists _, w', _. split; [done|]. split; [by left|done].
      * rewrite ghost_reserve in I'. eexists _, w', _. split; [done|]. split; [by right; left|done].
      * rewrite ghost_unreserve in I'. eexists _, w', _. split; [done|]. split; [by right; right|done].
  - destruct Ha as ([b Hb] & Hk & Hsz).
    destruct (completed_spec size_of sizes _ w k b dev I eq_refl Hk) as (x & w' & -> & Hx);
      [by rewrite pend_of, Hb|by rewrite (stored_size _ _ _ I)|].
    rewrite bind_Ret_l. destruct x as [u|e].
    + destruct Hx as [Hc I']. rewrite ghost_store in I'. eexists _, w', _. split; [done|]. split; [|exact I']. split; [done|]. eauto.
    + destruct Hx as (-> & Hc & [[_ I']|I']); [|rewrite ghost_unreserve in I']; eexists _, w', _; (split; [done|]); (split; [|exact I']); split; auto.
  - destruct Ha as [p Hp]. destruct (release_spec size_of _ w k I) as (w' & -> & I').
    { right. rewrite pend_of, Hp. by eexists. }
    rewrite bind_Ret_l, ghost_unreserve in *. by eexists _, w', _.
Qed.

Lemma load_events sp w ev :
  holds sp w → allowed size_of sp ev →
  match ev with ELookup _ _ _ _ _ | EPromote _ _ _ _ _ | ECheck _ | EPin _ | EUnpin _ | ETouch _ => True | _ => False end →
  simulates sp w ev.
Proof.
  intros I Ha Hev. destruct ev as [| | | |k staging io tail ma|ks checkout read tail ma|k|k|k|k| | | | | |]; try done; clear Hev; unfold simulates; simpl.
  - destruct (lookup_call_spec size_of sizes _ w k staging io tail ma I) as (x & w' & -> & I' & Hs & _). rewrite bind_Ret_l.
    by eexists _, w', sp.
  - destruct (promote_to_memory_tier_spec size_of sizes _ w ks checkout read tail ma I Ha) as (w' & -> & I'). rewrite bind_Ret_l. by eexists _, w', sp.
  - destruct (check_spec size_of _ w k I) as (x & w' & -> & I' & Hb). rewrite bind_Ret_l. by eexists _, w', sp.
  - destruct (take_pin_spec size_of _ w k I) as (x & w' & -> & Hx). destruct x.
    + destruct Hx as [Hc I']. by eexists _, w', (hold sp k 1).
    + subst w'. by eexists _, w, sp.
  - destruct (unpin_spec size_of _ w k I Ha) as (w' & -> & I'). by eexists _, w', (hold sp k (-1)).
  - destruct (touch_call_spec size_of _ w k I) as (x & w' & -> & I'). rewrite bind_Ret_l. by eexists _, w', sp.
Qed.

Lemma background_events sp w ev :
  holds sp w → allowed size_of sp ev →
  match ev with ERemove _ | EJob _ _ | EEvictMemory _ _ | EEvictSsd _ => True | _ => False end → simulates sp w ev.
Proof.
  intros I Ha Hev. destruct ev as [| | | | | | | | | |k|i io|scan quota|k| |]; try done; clear Hev Ha; unfold simulates; simpl.
  - destruct (remove_call_spec size_of sizes _ w k I eq_refl) as (x & w' & -> & Hx). rewrite bind_Ret_l. destruct x as [u|e].
    + destruct Hx as (Hc & Hr & I'). rewrite ghost_forget in I'. by eexists _, w', _.
    + destruct Hx as (-> & Hc & I' & _). by eexists _, w', sp.
  - destruct (job_step_spec size_of sizes _ w i io I eq_refl) as (w' & -> & I'). rewrite bind_Ret_l. by eexists _, w', sp.
  - destruct (memory_tier_evictor_spec size_of _ w scan quota I) as (w' & -> & I'). rewrite bind_Ret_l. by eexists _, w', sp.
  - destruct (evict_from_ssd_spec size_of _ w k I eq_refl) as (w' & -> & Hx). rewrite bind_Ret_l. destruct Hx as [I'|(Hr & Hc & I')].
    + eexists _, w', sp. split; [done|]. split; [by left|done].
    + rewrite ghost_forget in I'. eexists _, w', _. split; [done|]. split; [|exact I']. by right.
Qed.

(** The blocks a batch store adds, as a state of the abstract cache. *)
Definition with_blocks sp (kept : gmap Z (list Z)) : Spec := mkSpec (kept ∪ stored sp) (reserved sp) (pinned_by sp).

Lemma batch_events sp w ev :
  holds sp w → allowed size_of sp ev →
  match ev with EBatchLookup _ _ _ | EBatchPopulate _ _ _ _ => True | _ => False end → simulates sp w ev.
Proof.
  intros I Ha Hev. destruct ev as [| | | | | | | | | | | | | |env entries ma|env entries ma polls]; try done; clear Hev; unfold simulates; simpl.
  - destruct Ha as (Nd & Co & Hch).
    destruct (batch_lookup_spec size_of sizes (ghost_of sp) w env false entries Nd Co None ma I Hch Logic.I) as (os & w' & c & -> & I' & _ & Hc & Hl & Ho).
    rewrite bind_Ret_l. rewrite (Hc eq_refl) in I'. eexists _, w', sp. split; [done|]. split; [|exact I'].
    split; [done|]. split; [done|]. intros i r s x Hr Hx. destruct (Ho i r s x Hr Hx) as [An At]. split_and!; [|by apply An|done].
    intros ps Hps. pose proof (a_data _ _ _ _ _ _ _ An ps Hps) as Hd. by rewrite (Hc eq_refl) in Hd.
  - destruct Ha as (Bl & Hsz & Hp).
    destruct (batch_populate_spec size_of sizes (ghost_of sp) env entries ma polls Bl w I eq_refl Hp Hsz) as (xs & w' & kept & -> & Hl & Hdj & I' & _ & Hk).
    rewrite bind_Ret_l. eexists _, w', (with_blocks sp kept). split; [done|]. split; [|exact I']. split; [done|]. simpl.
    split; [by apply map_union_subseteq_r|]. split_and!; try done. intros k b Hn Hb. apply lookup_union_Some_raw in Hb as [Hb|[_ ?]]; [|congruence].
    destruct (Hk k b Hb) as (Hpd & i & ? & ? & _). split; [|eauto]. rewrite pend_of in Hpd. by destruct (reserved sp !! k).
Qed.

Lemma event_simulates sp w ev : holds sp w → allowed size_of sp ev → simulates sp w ev.
Proof.
  intros I Ha. destruct ev; first [by apply store_events|by apply load_events|by apply background_events|by apply batch_events].
Qed.

Lemma holds_serves evs sp w : holds sp w → serves size_of w sp evs.
Proof.
  revert sp w. induction evs as [|ev evs IH]; intros sp w I; [constructor|]. constructor. intros Ha.
  destruct (event_simulates sp w ev I Ha) as (ans & w' & sp' & Ex & Hs & I'). exists ans, w', sp'. auto.
Qed.

Lemma holds_always Q evs sp w : (∀ sp w, holds sp w → Q sp w) → holds sp w → always size_of Q w sp evs.
Proof.
  intros HQ. revert sp w. induction evs as [|ev evs IH]; intros sp w I; constructor; auto. intros Ha.
  destruct (event_simulates sp w ev I Ha) as (ans & w' & sp' & Ex & Hs & I'). exists ans, w', sp'. auto.
Qed.

(** A cache that has just been set up. *)
Record initial w : Prop := {
  n_dm : ∃ s p L, DispatchMap.ok (dm w) s p L;
  n_entries : DispatchMap.entries (dm w) = ∅;
  n_mt : MemoryTier.ok (mt w);
  n_slots : MemoryTier.view (mt w) = ∅;
  n_pins : pins w = ∅;
  n_len : length (writers w) = length (drives w) ∧ (0 < length (drives w) ≤ 256)%nat;
  n_drives : ∀ d drive, drives w !! d = Some drive → em_ok (extent_mgr drive) ∧ 0 < block_size drive ≤ 2 ^ 30 ∧
    ∀ off k, ¬ extent (extent_mgr drive) off k;
  n_writers : ∀ d x, writers w !! d = Some x → x = mkWriter [] Idle
}.

Lemma initial_holds w : initial w → holds empty_spec w.
Proof.
  intros [N1 N2 N3 N4 N5 N6 N7 N8].
  assert (∀ k, pin_at w k = idle_pin) as Hp by (intros; unfold pin_at, pin_of; by rewrite N5).
  split; try done.
  - intros k. apply k_absent; try done.
    + unfold entry. by rewrite N2.
    + by rewrite Hp.
    + left. unfold slot. by rewrite N4.
  - intros d drive Hd. destruct (N7 d drive Hd) as (? & ? & _). done.
  - intros k. rewrite Hp. unfold jobs_of. assert (queued_jobs w = []) as ->; [|done]. unfold queued_jobs.
    apply elem_of_nil_inv. intros j Hj. apply list_elem_of_join in Hj as (q & Hj & Hq). apply list_elem_of_fmap in Hq as (x & -> & Hx).
    apply list_elem_of_lookup in Hx as (d & Hd). rewrite (N8 d x Hd) in Hj. by apply not_elem_of_nil in Hj.
  - intros d x j Hx. rewrite (N8 d x Hx). by intros ?%not_elem_of_nil.
  - intros d x Hx. by rewrite (N8 d x Hx).
  - intros d d' x x' j j' Hx. by rewrite (N8 d x Hx).
  - intros k. by rewrite Hp.
  - intros d drive off k Hd Ex. destruct (N7 d drive Hd) as (_ & _ & Hn). by destruct (Hn off k).
Qed.

End refinement.

(** * Flushing *)

Section flush.
Context {S1 S2 E : Type} `{P1 : IEvictionPolicy S1, P2 : IEvictionPolicy S2, X : IExtentManager E}.
Abbreviation World := (World S1 S2 E).
Implicit Types (w : World) (x : Writer E).

(** Steps left of a writer. *)
Definition work x : nat :=
  (4 * length (queue x) + match worker x with Idle => 0 | Started _ _ => 3 | Reading _ _ _ _ => 2 | Written _ _ _ => 1 end)%nat.

Lemma work_in_flight x : (work x ≤ 4 * in_flight x)%nat ∧ (in_flight x = 0 → work x = 0)%nat.
Proof. unfold work, in_flight. destruct (worker x); lia. Qed.

Lemma mt_remove_writers w k w' : mt_remove w k = Ret w' → writers w' = writers w.
Proof. by intros ([r t] & _ & [= <-])%bind_Ret. Qed.

Lemma free_extent_writers w loc w' : free_extent w loc = Ret w' → writers w' = writers w.
Proof.
  unfold free_extent. destruct (Location.select_drive _ _) as [[drive raw]|]; [|by intros [= <-]].
  by intros ([r e] & _ & [= <-])%bind_Ret.
Qed.

Lemma job_step_work w i io w' x :
  writers w !! i = Some x → job_step w i io = Ret w' →
  ∃ x', writers w' = <[i := x']> (writers w) ∧ (in_flight x ≠ 0 → work x' < work x)%nat.
Proof.
  intros Hx. unfold job_step. rewrite Hx. destruct x as [q [|own j|own j ptr h|own j written]].
  - unfold job_start. rewrite Hx. destruct q as [|j q]; [intros [= <-]; eexists; split; [by rewrite list_insert_id|done]|].
    destruct (start _ _) as [s ks]. intros [= <-]. eexists. split; [done|]. unfold work. simpl. destruct s; simpl; lia.
  - unfold job_reserve. rewrite Hx. destruct (MemoryTier.peek _ _) as [[ptr sz]|]; [|intros [= <-]; eexists; split; [done|unfold work; simpl; lia]].
    destruct (drives w).
    + intros (off & _ & [= <-])%bind_Ret. eexists. split; [done|]. unfold work. simpl. lia.
    + intros (dr & _ & (a & _ & ([h e] & _ & [= <-])%bind_Ret)%bind_Ret)%bind_Ret. eexists. split; [done|].
      unfold work. destruct h; simpl; lia.
  - unfold job_write. rewrite Hx. intros (dr & _ & H)%bind_Ret. destruct io.
    + apply bind_Ret in H as ([r e] & _ & (loc & _ & [= <-])%bind_Ret). eexists. split; [done|]. unfold work. simpl. lia.
    + apply bind_Ret in H as (e & _ & [= <-]). eexists. split; [done|]. unfold work. simpl. lia.
  - unfold job_finish. rewrite Hx. simpl. intros H. exists (mkWriter q Idle). split; [|unfold work; simpl; lia].
    destruct own; simpl in H; [|by injection H as <-]. destruct (finish _ _) as [[] ks]; [by injection H as <-|].
    apply bind_Ret in H as (w1 & Hm & H). apply mt_remove_writers in Hm. simpl in Hm.
    destruct written as [loc|]; [|injection H as <-; done]. destruct (drives w1) eqn:Hd; [injection H as <-; done|].
    apply free_extent_writers in H. congruence.
Qed.

End flush.

Section flush_laws.
Context {S1 S2 E : Type} `{P1 : IEvictionPolicy S1, L1 : !EvictionPolicyLaws S1,
  P2 : IEvictionPolicy S2, L2 : !EvictionPolicyLaws S2,
  X : IExtentManager E, XL : !ExtentManagerLaws E}.
Context (size_of : Z → Z) (sizes : ∀ k, 0 < size_of k ≤ 2 ^ 30).
Abbreviation World := (World S1 S2 E).
Abbreviation holds := (holds size_of).
Implicit Types (w : World) (sp : Spec).

Lemma worker_loop_spec sp fuel w i io x :
  holds sp w → writers w !! i = Some x → (work x ≤ fuel)%nat →
  ∃ w' x', worker_loop fuel w i io = Ret w' ∧ holds sp w' ∧ writers w' = <[i := x']> (writers w) ∧ in_flight x' = 0%nat.
Proof.
  revert w x. induction fuel as [|fuel IH]; intros w x I Hx Hf; simpl; rewrite Hx.
  - assert (in_flight x = 0)%nat as H0 by (unfold work, in_flight in *; destruct (worker x); lia). rewrite H0. simpl.
    exists w, x. by rewrite list_insert_id.
  - destruct (Nat.eqb_spec (in_flight x) 0) as [H0|H0]; [exists w, x; by rewrite list_insert_id|].
    destruct (job_step_spec size_of sizes _ w i (io fuel) I eq_refl) as (w1 & Ej & I1). rewrite Ej, bind_Ret_l.
    destruct (job_step_work w i _ w1 x Hx Ej) as (x1 & Hw1 & Hlt). specialize (Hlt H0).
    destruct (IH w1 x1 I1) as (w' & x' & El & I' & Hw' & H'); [rewrite Hw1; apply list_lookup_insert_eq; by eapply lookup_lt_Some|lia|].
    exists w', x'. split_and!; [done..| |done]. by rewrite Hw', Hw1, list_insert_insert_eq.
Qed.

Lemma drain_spec sp w i io :
  holds sp w → (i < length (writers w))%nat →
  ∃ w' x', drain w i io = Ret w' ∧ holds sp w' ∧ writers w' = <[i := x']> (writers w) ∧ in_flight x' = 0%nat.
Proof.
  intros I [x Hx]%lookup_lt_is_Some. unfold drain. rewrite Hx.
  apply (worker_loop_spec sp _ w i io x I Hx). apply work_in_flight.
Qed.

Definition idle_writers w : Prop := ∀ i x, writers w !! i = Some x → in_flight x = 0%nat.

Lemma flush_call_spec sp n w io :
  holds sp w → (n ≤ length (writers w))%nat →
  ∃ w', flush n w io = Ret w' ∧ holds sp w' ∧ length (writers w') = length (writers w) ∧
    ∀ i x, (i < n)%nat → writers w' !! i = Some x → in_flight x = 0%nat.
Proof.
  intros I. induction n as [|n IH]; intros Hn; simpl; [exists w; split_and!; auto; lia|].
  destruct (IH ltac:(lia)) as (w1 & -> & I1 & Hl & Hi). rewrite bind_Ret_l.
  destruct (drain_spec sp w1 n io I1 ltac:(lia)) as (w' & x' & -> & I' & Hw & Hx). exists w'.
  split_and!; [done..|by rewrite Hw, length_insert|]. intros i x Hlt Hix. rewrite Hw in Hix.
  destruct (decide (i = n)) as [->|Hne]; [|rewrite list_lookup_insert_ne in Hix by done; apply (Hi i); [lia|done]].
  rewrite list_lookup_insert_eq in Hix by lia. by injection Hix as <-.
Qed.

(** With idle writers the ledger holds nothing. *)
Lemma idle_ledger sp w k : holds sp w → idle_writers w → ledger (pin_at w k) = unpinned.
Proof.
  intros I Hid.
  assert (running (pin_at w k) = false) as Hr.
  { destruct (running (pin_at w k)) eqn:Hr; [|done]. destruct (i_running _ _ _ I k Hr) as (d & x & j & Hx & Hj & _).
    specialize (Hid d x Hx). unfold in_flight in Hid. destruct (worker x); simpl in *; [done|lia..]. }
  assert (queued (pin_at w k) = false) as Hq.
  { pose proof (i_jobs _ _ _ I k) as Hj. assert (queued_jobs w = []) as Hn.
    { unfold queued_jobs. apply elem_of_nil_inv. intros j (q & Hin & (x & -> & Hx)%list_elem_of_fmap)%list_elem_of_join.
      apply list_elem_of_lookup in Hx as (d & Hd). specialize (Hid d x Hd). unfold in_flight in Hid.
      destruct (queue x); [by apply not_elem_of_nil in Hin|simpl in Hid; lia]. }
    unfold jobs_of in Hj. rewrite Hn in Hj. simpl in Hj. destruct (queued _); simpl in Hj; [lia|done]. }
  destruct (i_key _ _ _ I k) as [? ? ? Hl|? ? ? ? Hl|? ? ? so ? ? ? ? ? ? ? ? ? Hw|? ? ? ? ? ? ? Hl]; try done.
  - unfold ledger, taken_over in Hl. congruence.
  - destruct so; [apply Hw|]. destruct Hw as [Hl|[Hl|[Hl _]]]; [unfold ledger, waiting, writing in Hl; congruence..|done].
Qed.

Lemma contains_slot w k : MemoryTier.ok (mt w) → MemoryTier.contains (mt w) k = bool_decide (is_Some (slot w k)).
Proof.
  intros O. unfold MemoryTier.contains, slot, MemoryTier.view. rewrite (MemoryTier.ok_init _ O), lookup_fmap. simpl.
  by destruct (_ !! k).
Qed.

(** Forgetting the failures of keys that are not in memory. *)
Lemma holds_failed sp w f :
  holds sp w → (∀ k, k ∈ failed w → is_Some (slot w k) → k ∈ f) → holds sp (set_failed w f).
Proof.
  intros I Hf. eapply inv_local; [exact I|done|done|apply I|apply I| |done|apply I].
  intros k. destruct (i_key _ _ _ I k) as [A1 A2 A3 A4 A5|v A1 A2 A3 A4 A5 A6|e ptr sz so b A1 A2 A3 A4 A5 A6 A7 A8 A9|e loc b A1 A2 A3 A4 A5 A6 A7].
  - by apply k_absent.
  - by apply (k_orphan _ _ _ _ v).
  - apply (k_resident _ _ _ _ e ptr sz so b); try done. destruct so; [done|]. destruct A9 as [H|[H|[H H']]]; [by left|by right; left|].
    right; right. split; [done|]. apply Hf; [done|]. rewrite A5. by eexists.
  - by apply (k_cold _ _ _ _ e loc b).
Qed.

(** The report of a flush, once the writers are idle. *)
Lemma flush_report_spec sp w :
  holds sp w → idle_writers w → ∃ x w', flush_report w = Ret (x, w') ∧ holds sp w' ∧ idle_writers w' ∧
    match x with
    | Ok _ => ∀ k e ptr sz so, entry w' k = Some e → DispatchMap.location e = DispatchMap.MemoryTier ptr sz so →
        ∃ loc b, so = Some loc ∧ stored sp !! k = Some b ∧ on_disk size_of w' k loc b
    | Err e => e = Dispatcher.IoError ∧ ∃ k, k ∈ failed w' ∧ is_Some (slot w' k)
    end.
Proof.
  intros I Hid.
  unfold flush_report, failed_writes. set (f := filter _ (failed w)).
  assert (∀ k, k ∈ f ↔ is_Some (slot w k) ∧ k ∈ failed w) as Hf.
  { intros k. unfold f. rewrite elem_of_filter, contains_slot by apply I. by rewrite bool_decide_eq_true. }
  assert (holds sp (set_failed w f)) as I2 by (apply holds_failed; [done|]; intros k ? ?; by apply Hf).
  destruct (Nat.ltb_spec 0 (size f)) as [Hlt|Hge].
  - eexists _, _. split; [done|]. split; [done|]. split; [done|]. split; [done|].
    destruct (set_choose_or_empty f) as [[k Hk]|He]; [|apply size_empty_iff in He; lia]. exists k. split; [done|]. by apply Hf.
  - destruct (Dispatcher.oldest_keys_spec (mt w) (slot_count w) (i_mt _ _ _ I)) as (ks & Ek & _).
    change (mt (set_failed w f)) with (mt w). change (slot_count (set_failed w f)) with (slot_count w).
    rewrite Ek, bind_Ret_l. eexists _, _. split; [done|]. split; [done|]. split; [done|].
    intros k e ptr sz so He El. destruct (inv_view _ _ _ _ _ _ _ _ I2 He El) as (Hs & _ & _ & b & Hb & _ & Hps & _).
    pose proof (idle_ledger sp _ k I2 Hid) as Hled. destruct so as [loc|]; [exists loc, b; split_and!; [done..|apply Hps]|].
    destruct Hps as [Hl'|[Hl'|[_ Hk]]]; [by rewrite Hled in Hl'..|]. simpl in Hk.
    assert (f ≡ ∅) as Hemp by (apply size_empty_iff; lia). set_solver.
Qed.

(** ** The theorems *)


(** C6. A pending write-through never stands in the way of a remove. In every
    state the cache can reach, [remove] answers [Ok] exactly when the key is stored
    and no client holds a reference to it: whether its write-through is queued,
    reading the slot, writing the extent or done. When it answers an error
    nothing has changed, the entry is where it was, and the references are kept. *)
Theorem remove_never_waits sp w k :
  holds sp w → ∃ x w', remove w k = Ret (x, w') ∧
    (x = Ok () ↔ is_Some (stored sp !! k) ∧ pinned_by sp k = 0) ∧
    match x with
    | Ok _ => holds (forget sp k) w'
    | Err e => e = Dispatcher.KeyNotFound k ∧ holds sp w' ∧ same_location w w' k
    end.
Proof.
  intros I. destruct (remove_call_spec size_of sizes _ w k I eq_refl) as (x & w' & E1 & Hx). exists x, w'. split; [done|].
  destruct x as [[]|e].
  - destruct Hx as (Hc & Hr & I'). rewrite ghost_forget in I'. done.
  - destruct Hx as (-> & Hc & I' & Sl). split; [|done]. split; [done|]. intros [[b Hb] Hp]. simpl in Hc. destruct Hc; congruence.
Qed.

(** C4. What is stored is served. In every reachable state, a lookup of a stored
    key whose slot nobody is filling returns the stored bytes when the device and the
    GPU copy work and a staging buffer exists: with the tier full of entries that
    cannot be evicted, with the key's write-through at any stage, and with its copy
    only on a drive. *)
Theorem stored_is_served sp w k b tail max_attempts :
  holds sp w → stored sp !! k = Some b → reserved sp !! k = None → ref_count w (ghost_of size_of sp) k ≠ u32_max →
  ∃ w', lookup w k (size_of k) true true tail max_attempts = Ret (Ok b, w') ∧ holds sp w'.
Proof.
  intros I Hb Hr Hc. destruct (lookup_call_spec size_of sizes _ w k true true tail max_attempts I) as (x & w' & E1 & I' & _ & Hx).
  exists w'. split; [|done]. rewrite E1, Hx; [|done|done|by rewrite pend_of, Hr|done]. simpl. by rewrite Hb.
Qed.


(** Every slot is an entry's, every extent is the recorded copy of an entry, and the
    ledger holds no pin. *)
Definition no_leak w : Prop :=
  (∀ k ptr sz, slot w k = Some (ptr, sz) ↔
     ∃ e so, entry w k = Some e ∧ DispatchMap.location e = DispatchMap.MemoryTier ptr sz so) ∧
  (∀ d drive off k, drives w !! d = Some drive → extent (extent_mgr drive) off k →
     ∃ e loc, entry w k = Some e ∧ DispatchMap.stored (DispatchMap.location e) = Some loc ∧
       Location.encode_loc (Z.of_nat d) off = Ret loc) ∧
  (∀ k, ledger (pin_at w k) = unpinned).

Lemma holds_no_leak sp w : holds sp w → idle_writers w → reserved sp = ∅ → no_leak w.
Proof.
  intros I Hid Hr. assert (∀ k, pend (ghost_of size_of sp) !! k = None) as Hp by (intros; by rewrite pend_of, Hr).
  split_and!.
  - intros k ptr sz. split.
    + intros Hs. destruct (i_key _ _ _ I k) as [? ? ? ? Hsp|? ? ? ? Hl|e ptr0 sz0 so b He El ? ? Hs0|? ? ? ? ? ? ? ? ? Hsp].
      * destruct Hsp as [[? _]|(?&?&?&_&Hpd&_)]; [congruence|by rewrite Hp in Hpd].
      * rewrite (idle_ledger sp w k I Hid) in Hl. done.
      * rewrite Hs in Hs0. injection Hs0 as <- <-. eauto.
      * destruct Hsp as [[? _]|(?&?&?&_&Hpd&_)]; [congruence|by rewrite Hp in Hpd].
    + intros (e & so & He & El). by destruct (inv_view _ _ _ _ _ _ _ _ I He El) as [? _].
  - intros d drive off k Hd Ex. destruct (i_extents _ _ _ I _ _ _ _ Hd Ex) as [H|[(x & own & j & loc & Hx & Ew & _)|H]]; [done| |done].
    specialize (Hid d x Hx). unfold in_flight in Hid. rewrite Ew in Hid. simpl in Hid. lia.
  - intros k. by eapply idle_ledger.
Qed.

Lemma flush_quiet sp w io : holds sp w →
  ∃ w1, flush (length (writers w)) w io = Ret w1 ∧ holds sp w1 ∧ idle_writers w1.
Proof.
  intros I. destruct (flush_call_spec sp (length (writers w)) w io I ltac:(lia)) as (w1 & E1 & I1 & Hl & Hi).
  exists w1. split_and!; [done..|]. intros i x Hx. apply (Hi i x); [|done]. rewrite <- Hl. by eapply lookup_lt_Some.
Qed.

Lemma release_all_spec ks sp w : holds sp w → (∀ k, k ∈ ks → is_Some (reserved sp !! k)) → NoDup ks →
  ∃ w' sp', release_all w ks = Ret w' ∧ holds sp' w' ∧ ∀ k, reserved sp' !! k = if decide (k ∈ ks) then None else reserved sp !! k.
Proof.
  revert sp w. induction ks as [|k ks IH]; intros sp w I Hr Nd; [exists w, sp; split_and!; [done..|]; intros k; by rewrite decide_False by set_solver|].
  destruct (event_simulates size_of sizes sp w (ERelease k) I) as (ans & w1 & sp1 & Ex & Hs & I1); [apply Hr; by left|].
  simpl in Ex. apply bind_Ret in Ex as ([x w2] & Ek & Ex). simplify_eq. destruct x as [[]|e]; [|done]. simpl in Hs. subst sp1.
  apply NoDup_cons in Nd as [Hk Nd]. destruct (IH (unreserve sp k) w1 I1) as (w' & sp' & El & I' & H'); [|done|].
  { intros k' Hk'. simpl. rewrite lookup_delete_ne by set_solver. apply Hr. by right. }
  exists w', sp'. simpl. rewrite Ek, bind_Ret_l. split_and!; [done..|]. intros k'. rewrite H'. simpl.
  destruct (decide (k' = k)) as [->|Hne]; [rewrite lookup_delete_eq, (decide_True (P := k ∈ k :: ks)) by set_solver; by case_decide|].
  rewrite lookup_delete_ne by done. destruct (decide (k' ∈ ks)), (decide (k' ∈ k :: ks)); set_solver.
Qed.

(** When nothing is under way nothing has leaked; and at any time the clients can
    give up the open reservations and flush, and then nothing has. *)
Definition leak_free (io : nat → bool) sp w : Prop :=
  (idle_writers w → reserved sp = ∅ → no_leak w) ∧
  ∃ w1 x w2, release_all w (elements (dom (reserved sp))) = Ret w1 ∧ flush_to_ssd w1 io = Ret (x, w2) ∧ no_leak w2.

(** C13. Nothing leaks. From a freshly set up cache, after any sequence of events:
    when the writers are idle and no reservation is open, the slots of the memory
    tier are exactly those the entries in memory point at, every extent on every
    drive is the recorded copy of an entry, and the ledger holds no pin; removes that
    raced with write-throughs have left nothing behind. And whatever is under way,
    releasing the open reservations succeeds, and the flush after it returns, however
    the devices answer, and leaves the cache like that. Events and contract are those
    of [cache_refines]. *)
Theorem quiescent_no_leak w evs io : initial w → always size_of (leak_free io) w empty_spec evs.
Proof.
  intros N. apply (holds_always size_of sizes); [|by apply initial_holds]. clear N w evs. intros sp w I.
  split; [by apply holds_no_leak|].
  destruct (release_all_spec (elements (dom (reserved sp))) sp w I) as (w1 & sp1 & E1 & I1 & Hr); [|apply NoDup_elements|].
  { intros k Hk. by apply elem_of_elements, elem_of_dom in Hk. }
  destruct (flush_quiet sp1 w1 io I1) as (w3 & E3 & I3 & Hid3). destruct (flush_report_spec sp1 w3 I3 Hid3) as (x & w2 & E2 & I2 & Hid & _).
  exists w1, x, w2. split_and!; [done|unfold flush_to_ssd; by rewrite E3, bind_Ret_l|].
  apply (holds_no_leak sp1); [done..|]. apply map_empty. intros k. rewrite Hr. case_decide as Hk; [done|].
  rewrite elem_of_elements, not_elem_of_dom in Hk. done.
Qed.

(** C14. [flush_to_ssd] finishes, and an [Ok] means persisted. Whatever is queued
    and however the devices answer, the writers drain in at most four steps per job
    in flight; then either every entry in memory has its bytes in a published extent
    that the entry records, so that clearing the memory tier loses nothing, or the
    call reports an error and some key in memory is on the list of failed writes. *)
Theorem flush_persists sp w io :
  holds sp w → ∃ x w', flush_to_ssd w io = Ret (x, w') ∧ holds sp w' ∧ idle_writers w' ∧
    match x with
    | Ok _ => ∀ k e ptr sz so, entry w' k = Some e → DispatchMap.location e = DispatchMap.MemoryTier ptr sz so →
        ∃ loc b, so = Some loc ∧ stored sp !! k = Some b ∧ on_disk size_of w' k loc b
    | Err e => e = Dispatcher.IoError ∧ ∃ k, k ∈ failed w' ∧ is_Some (slot w' k)
    end.
Proof.
  intros I. unfold flush_to_ssd. destruct (flush_quiet sp w io I) as (w1 & -> & I1 & Hid). rewrite bind_Ret_l.
  destruct (flush_report_spec sp w1 I1 Hid) as (x & w' & -> & I' & Hid' & Hx). by exists x, w'.
Qed.

End flush_laws.

(** * A concrete cache

    One drive of 4 KiB blocks with an empty extent manager, a 1 MiB memory tier,
    blocks of four bytes. *)

Abbreviation Cache := (World EvictionLru.EvictionState EvictionLru.EvictionState ExtentManager.EM).

Definition four (_ : Z) : Z := 4.

Lemma four_sizes k : 0 < four k ≤ 2 ^ 30.
Proof. unfold four. lia. Qed.

Definition drive0 : Drive ExtentManager.EM := mkDrive 4096 (ExtentManager.em_with Region.sample0) ∅.

Definition cache0 : Cache :=
  mkWorld DispatchMap.map0 MemoryTier.empty_tier Dispatcher.no_counts [drive0] ∅ ∅ [mkWriter [] Idle] (λ _, 0).

Lemma drive0_ok : em_ok (extent_mgr drive0) ∧ ∀ off k, ¬ extent (extent_mgr drive0) off k.
Proof.
  split.
  - exists 12, [Region.sample0], Recovery.shared0, ExtentManager.dev0. split; [lia|]. split; [apply ExtentManager.em0_ok|].
    split; vm_compute; congruence.
  - intros off k (i & st & j & rs & r & e & Er & Hr & (s & Hin & _) & _). vm_compute in Er. injection Er as <-.
    destruct i as [|i]; [|done]. injection Hr as <-. vm_compute in Hin. by apply not_elem_of_nil in Hin.
Qed.

Lemma cache0_initial : initial cache0.
Proof.
  split; try done.
  - eexists _, _, _. apply DispatchMap.map0_ok.
  - apply MemoryTier.empty_tier_ok.
  - simpl. lia.
  - intros [|d] drive Hd; [|done]. injection Hd as <-. destruct drive0_ok as [H1 H2]. split_and!; [exact H1|done|done|exact H2].
  - intros [|d] x Hx; [|done]. by injection Hx as <-.
Qed.

Fixpoint run (w : Cache) (evs : list event) : outcome (list answer * Cache) :=
  match evs with
  | [] => Ret ([], w)
  | ev :: evs => '(a, w) ← exec four w ev; '(l, w) ← run w evs; Ret (a :: l, w)
  end.

Definition answers {A} (c : outcome (A * Cache)) : outcome A := '(l, _) ← c; Ret l.

Definition put (k : Z) (bytes : list Z) : list event := [EReserve k 1 0; ECopy k [bytes] DmaDone []; EComplete k 0].

(** A job from start to finish. *)
Definition job (i : nat) : list event := [EJob i true; EJob i true; EJob i true; EJob i true].

(** Nothing fails outside the cache. *)
Definition good_env : Env := mkEnv (λ _, true) true true true (λ _, true) (λ _, true) (λ _, []) true (λ _, true) (λ _, true) (λ _, true) true.

Definition story : list event :=
  put 5 [1; 2; 3; 4] ++ job 0 ++
  [ELookup 5 true true [] 1; EEvictMemory 4 4; ELookup 5 true true [] 1; ERemove 5; ELookup 5 true true [] 1] ++
  [EBatchPopulate (mkStoreEnv (λ _, DmaDone) (λ _, []) true (λ _, 0%nat)) [(6, [5; 6; 7; 8]); (7, [9; 9; 9; 9])] 1 0] ++ job 0 ++
  [EEvictMemory 1 1; EBatchLookup good_env [mkRequest 7 [2; 2]; mkRequest 5 [4]; mkRequest 6 [1; 3]] 1].

Definition told : list answer :=
  [APointer (Ok 65536); AUnit (Ok ()); AUnit (Ok ()); ANone; ANone; ANone; ANone;
   AData (Ok [1; 2; 3; 4]); ANone; AData (Ok [1; 2; 3; 4]); AUnit (Ok ()); AData (Err (Dispatcher.KeyNotFound 5));
   AUnits [Ok (); Ok ()]; ANone; ANone; ANone; ANone; ANone;
   AServed [(Dram, Ok [[9; 9]; [9; 9]]); (Miss, Err (Dispatcher.KeyNotFound 5)); (Ssd, Ok [[5]; [6; 7; 8]])]].


(** The world after one event. *)
Definition next (w : Cache) (ev : event) : Cache := match exec four w ev with Ret (_, w) => w | Panic => w end.

Definition cache1 : Cache := next cache0 (EReserve 5 1 0).
Definition cache2 : Cache := next cache1 (ECopy 5 [[1; 2; 3; 4]] DmaDone []).
(** Key 5 is stored and its job is queued. *)
Definition cache3 : Cache := next cache2 (EComplete 5 0).
(** Its job has read the slot and holds an extent. *)
Definition cache4 : Cache := next (next cache3 (EJob 0 true)) (EJob 0 true).
(** Its job has finished. *)
Definition cache5 : Cache := next (next cache4 (EJob 0 true)) (EJob 0 true).

Definition spec1 : Spec := reserve empty_spec 5 None.
Definition spec2 : Spec := reserve spec1 5 (Some [1; 2; 3; 4]).
Definition spec3 : Spec := store spec2 5 [1; 2; 3; 4].

(** One event from a state where the invariant holds, with its answer known. *)
Lemma next_holds sp w ev ans :
  holds four sp w → allowed four sp ev → answers (exec four w ev) = Ret ans →
  ∃ sp', spec_step four sp ev ans sp' ∧ holds four sp' (next w ev).
Proof.
  intros I Ha Hans. destruct (event_simulates four four_sizes sp w ev I Ha) as (a & w' & sp' & Ex & Hs & I').
  unfold answers in Hans. rewrite Ex, bind_Ret_l in Hans. injection Hans as ->. exists sp'. unfold next. rewrite Ex. done.
Qed.

Lemma cache3_holds : holds four spec3 cache3.
Proof.
  destruct (next_holds empty_spec cache0 (EReserve 5 1 0) (APointer (Ok 65536))) as (sp1 & [_ ->] & I1);
    [apply initial_holds, cache0_initial|done|vm_compute; reflexivity|].
  destruct (next_holds spec1 cache1 (ECopy 5 [[1; 2; 3; 4]] DmaDone []) (AUnit (Ok ()))) as (sp2 & (_ & _ & ->) & I2);
    [exact I1|by eexists|vm_compute; reflexivity|].
  destruct (next_holds spec2 cache2 (EComplete 5 0) (AUnit (Ok ()))) as (sp3 & (_ & b & Hb & ->) & I3); [exact I2| |vm_compute; reflexivity|].
  - split; [by eexists|]. split; [unfold u64_max; lia|done].
  - vm_compute in Hb. injection Hb as <-. exact I3.
Qed.

Lemma cache4_holds : holds four spec3 cache4.
Proof.
  destruct (next_holds spec3 cache3 (EJob 0 true) ANone) as (sp & -> & I); [apply cache3_holds|done|vm_compute; reflexivity|].
  by destruct (next_holds spec3 _ (EJob 0 true) ANone I) as (sp & -> & I'); [done|vm_compute; reflexivity|].
Qed.

Lemma cache5_holds : holds four spec3 cache5.
Proof.
  destruct (next_holds spec3 cache4 (EJob 0 true) ANone) as (sp & -> & I); [apply cache4_holds|done|vm_compute; reflexivity|].
  by destruct (next_holds spec3 _ (EJob 0 true) ANone I) as (sp & -> & I'); [done|vm_compute; reflexivity|].
Qed.

Lemma remove_never_waits_witness : ∃ w', remove cache4 5 = Ret (Ok (), w') ∧ holds four (forget spec3 5) w'.
Proof.
  destruct (remove_never_waits four four_sizes spec3 cache4 5 cache4_holds) as (x & w' & Er & Hx & Ha).
  assert (x = Ok ()) as -> by (apply Hx; split; [by eexists|reflexivity]). exists w'. split; [exact Er|exact Ha].
Defined.


Lemma stored_is_served_witness : ∃ w', lookup cache4 5 4 true true [] 1 = Ret (Ok [1; 2; 3; 4], w').
Proof.
  destruct (stored_is_served four four_sizes spec3 cache4 5 [1; 2; 3; 4] [] 1 cache4_holds) as (w' & El & _);
    [reflexivity|reflexivity|vm_compute; congruence|]. exists w'. exact El.
Defined.

(** Key 5 is removed while its job writes the extent. *)
Definition raced : list event := put 5 [1; 2; 3; 4] ++ [EJob 0 true; EJob 0 true; ERemove 5; EJob 0 true; EJob 0 true; EReserve 6 1 0].

Lemma quiescent_no_leak_witness : always four (leak_free (λ _, true)) cache0 empty_spec raced ∧
  answers (run cache0 raced) = Ret [APointer (Ok 65536); AUnit (Ok ()); AUnit (Ok ()); ANone; ANone; AUnit (Ok ()); ANone; ANone; APointer (Ok 65536)].
Proof. split; [exact (quiescent_no_leak four four_sizes cache0 raced (λ _, true) cache0_initial)|vm_compute; reflexivity]. Defined.

Lemma flush_persists_witness : ∃ x w', flush_to_ssd cache3 (λ _, true) = Ret (x, w') ∧ idle_writers w'.
Proof.
  destruct (flush_persists four four_sizes spec3 cache3 (λ _, true) cache3_holds) as (x & w' & Ef & _ & Hi & _).
  exists x, w'. split; [exact Ef|exact Hi].
Defined.

End CacheSystem.
