(* ===== verification/CacheBatch.v ===== *)
(** The batch calls as their clients see them: what [batch_lookup], with and
    without peers, and [batch_populate] do to the abstract cache of [CacheSystem]. *)

From S2P Require Import Prelude LruList EvictionPolicy FreeList MemoryTier Slab Buddy Region Checkpoint Recovery ExtentManager DispatchMap Dispatcher Pins ExtentStore StorePath StoreInvariant StoreCalls StoreBatch BatchCalls CacheSpec WriteThrough CacheSystem.

Module CacheBatch.
Import Policy WriteThroughPins ExtentStore StorePath StoreInvariant StoreCalls StoreBatch BatchCalls CacheSpec WriteThrough CacheSystem.
Local Open Scope Z_scope.

Section batches.
Context {S1 S2 E : Type} `{P1 : IEvictionPolicy S1, L1 : !EvictionPolicyLaws S1,
  P2 : IEvictionPolicy S2, L2 : !EvictionPolicyLaws S2,
  X : IExtentManager E, XL : !ExtentManagerLaws E}.
Context (size_of : Z → Z) (sizes : ∀ k, 0 < size_of k ≤ 2 ^ 30).
Abbreviation World := (World S1 S2 E).
Abbreviation holds := (holds size_of).
Implicit Types (w : World) (sp : Spec).

(** The component that asks the peers may add blocks to the cache while it is
    asked; it keeps the cache in order and loses nothing. *)
Definition peers_ok (remote : option (World → list (Z * Z) → outcome (list (result unit RemoteLookupError) * World))) : Prop :=
  match remote with Some ask => peers_keep size_of ask | None => True end.

(** C5. A batch lookup answers every entry, and truthfully. In every reachable
    state, for distinct keys whose regions add up to the block and with a channel
    of each drive at hand, [batch_lookup] returns one answer per entry, whatever
    the copies, the reads, the streams, the staging buffer and the peers do; it
    leaves no pin and no half-filled slot behind. An [Ok] has delivered, cut at the
    region boundaries, exactly the stored bytes, and is attributed to a tier; [Miss]
    and [KeyNotFound] go together. When nothing fails outside the cache every
    stored key whose slot nobody is filling is delivered, with the tier full or not.
    Without a peer lookup a key that is not stored answers [KeyNotFound]; with one,
    an [Ok] delivers what the peers have stored, and what a key answers that they have
    not delivered ([KeyNotFound], or an I/O error of the transport) is left open. *)
Theorem batch_lookup_serves sp w env remote entries max_attempts :
  holds sp w → NoDup (r_key <$> entries) → Forall (λ r, covers size_of (r_key r) (r_regions r)) entries →
  (∀ d, checkout env d = true) → peers_ok remote →
  ∃ os w' sp', batch_lookup env remote w entries max_attempts = Ret (os, w') ∧ holds sp' w' ∧
    stored sp ⊆ stored sp' ∧ reserved sp' = reserved sp ∧ pinned_by sp' = pinned_by sp ∧ (remote = None → sp' = sp) ∧
    length os = length entries ∧
    ∀ i r s x, entries !! i = Some r → os !! i = Some (s, x) →
      (∀ ps, x = Ok ps → delivers (stored sp') (r_key r) (r_regions r) ps) ∧
      (smooth env → reserved sp !! r_key r = None → pinned_by sp (r_key r) < u32_max - 1 → is_Some (stored sp !! r_key r) → ∃ ps, x = Ok ps) ∧
      (remote = None → stored sp !! r_key r = None → x = Err (Dispatcher.KeyNotFound (r_key r))) ∧ attributed s x.
Proof.
  intros I Nd Co Hch Hp. set (asking := match remote with Some _ => true | None => false end).
  destruct (batch_lookup_spec size_of sizes (ghost_of size_of sp) w env asking entries Nd Co remote max_attempts I Hch) as (os & w' & c & Eb & I' & Hs & Hc & Hl & Ho);
    [by destruct remote|].
  exists os, w', (mkSpec c (reserved sp) (pinned_by sp)). split_and!; try done.
  - intros Hn. rewrite (Hc Hn). by destruct sp.
  - intros i r s x Hr Hx. destruct (Ho i r s x Hr Hx) as [[Hd Hh Hm _] At]. split_and!; try done.
    + intros Sm Hres Hpin Hst. apply Hh; [done|by rewrite pend_of, Hres| |done]. unfold ref_count. simpl. destruct (pinned _); simpl; lia.
    + intros Hn Hst. apply Hm; [by subst remote|done].
Qed.

(** C7. A batch store is all or nothing, block by block. In every reachable
    state [batch_populate] of whole blocks (keys may repeat) returns one answer per
    entry, whatever the copies and the final synchronisation do; what was stored
    stays as it was, no reservation is left behind, and what is added are blocks of
    the batch, under keys nobody had reserved. A block is added only by an entry that answers [Ok] and whose copy
    was issued and synchronised: a failed copy, or a failed synchronisation, is
    never reported as success. An [Ok] without the block means that the tier was
    full for that key after the whole backpressure budget. *)
Theorem batch_populate_all_or_nothing sp w env entries max_attempts polls :
  holds sp w → Forall (λ e, Z.of_nat (length e.2) = size_of e.1 ∧ 0 ≤ e.1 < u64_max) entries →
  Z.of_nat (size (stored sp) + length entries) ≤ 2 ^ 32 → (∀ k, pinned_by sp k < u32_max - 1) →
  ∃ xs w' kept, batch_populate env w entries max_attempts polls = Ret (xs, w') ∧ length xs = length entries ∧
    holds (with_blocks sp kept) w' ∧ kept ##ₘ stored sp ∧
    (∀ k b, kept !! k = Some b → reserved sp !! k = None ∧ ∃ i, entries !! i = Some (k, b) ∧ xs !! i = Some (Ok ()) ∧
      issue env i = DmaDone ∧ store_sync env = true) ∧
    (∀ i k b, entries !! i = Some (k, b) → xs !! i = Some (Ok ()) →
      kept !! k = Some b ∨
      ∃ p w1 w2, inv size_of (set_pend (ghost_of size_of sp) p) w1 ∧ pend (ghost_of size_of sp) ⊆ p ∧
        reserve_memory w1 k (size_of k) max_attempts polls = Ret (Err Dispatcher.AllocationFailed, w2)).
Proof.
  intros I Bl Hsz Hp.
  destruct (batch_populate_spec size_of sizes (ghost_of size_of sp) env entries max_attempts polls Bl w I eq_refl Hp Hsz)
    as (xs & w' & kept & Eb & Hl & Hdj & I' & Hok & Hk).
  exists xs, w', kept. split_and!; try done. intros k b Hkb. destruct (Hk k b Hkb) as [Hpd Hi]. split; [|exact Hi].
  rewrite pend_of in Hpd. by destruct (reserved sp !! k).
Qed.

End batches.

(** * Concrete batches *)

Lemma good_smooth : smooth good_env.
Proof. by split_and!. Qed.

(** Peers that have nothing. *)
Definition no_peer (w : Cache) (asked : list (Z * Z)) : outcome (list (result unit RemoteLookupError) * Cache) :=
  Ret ((λ _, Err NotFound) <$> asked, w).

Lemma no_peer_keeps : peers_ok four (Some no_peer).
Proof. intros g w asked I. exists ((λ _, Err NotFound) <$> asked), w, (cache g). split_and!; [done| |done]. by destruct g. Qed.

(** Key 5 only on the drive. *)
Definition cache6 : Cache := next cache5 (EEvictMemory 4 4).

Lemma cache6_holds : holds four spec3 cache6.
Proof.
  by destruct (next_holds spec3 cache5 (EEvictMemory 4 4) ANone cache5_holds) as (sp & -> & I'); [done|vm_compute; reflexivity|].
Qed.

Lemma batch_lookup_serves_witness :
  ∃ os w', batch_lookup good_env (Some no_peer) cache6 [mkRequest 7 [4]; mkRequest 5 [3; 1]] 1 = Ret (os, w') ∧
    ∃ ps s, os !! 1%nat = Some (s, Ok ps) ∧ concat ps = [1; 2; 3; 4].
Proof.
  destruct (batch_lookup_serves four four_sizes spec3 cache6 good_env (Some no_peer) [mkRequest 7 [4]; mkRequest 5 [3; 1]] 1)
    as (os & w' & sp' & Eb & _ & Hs & _ & _ & _ & Hl & Ho).
  - exact cache6_holds.
  - by repeat constructor; set_solver.
  - repeat constructor; done.
  - done.
  - exact no_peer_keeps.
  - exists os, w'. split; [exact Eb|]. destruct (lookup_lt_is_Some_2 os 1%nat) as [[s x] Hx]; [rewrite Hl; simpl; lia|].
    destruct (Ho 1%nat (mkRequest 5 [3; 1]) s x eq_refl Hx) as (Hd & Hh & _).
    destruct (Hh good_smooth eq_refl ltac:(done) ltac:(by eexists)) as [ps ->]. exists ps, s. split; [exact Hx|].
    destruct (Hd ps eq_refl) as [Hc _]. apply (lookup_weaken _ _ 5 [1; 2; 3; 4]) in Hs; [|reflexivity]. simpl in Hc. congruence.
Defined.

Definition store_env : StoreEnv := mkStoreEnv (λ i, if (i =? 1)%nat then DmaFailed else DmaDone) (λ _, []) true (λ _, 0%nat).

Lemma batch_populate_all_or_nothing_witness :
  ∃ xs w' kept, batch_populate store_env cache4 [(6, [5; 6; 7; 8]); (8, [1; 1; 1; 1]); (6, [0; 0; 0; 0])] 1 0 = Ret (xs, w') ∧
    holds four (with_blocks spec3 kept) w' ∧ kept !! 8 = None.
Proof.
  destruct (batch_populate_all_or_nothing four four_sizes spec3 cache4 store_env [(6, [5; 6; 7; 8]); (8, [1; 1; 1; 1]); (6, [0; 0; 0; 0])] 1 0)
    as (xs & w' & kept & Eb & _ & I' & _ & Hk & _).
  - exact cache4_holds.
  - repeat constructor; done.
  - vm_compute. congruence.
  - intros k. done.
  - exists xs, w', kept. split_and!; [exact Eb|exact I'|]. destruct (kept !! 8) as [b|] eqn:H8; [|done].
    destruct (Hk 8 b H8) as (_ & i & Hi & _ & Hd & _). destruct i as [|[|[|i]]]; simplify_eq/=.
Defined.

End CacheBatch.
