(* ===== verification/CacheService.v ===== *)
(** The dispatcher of [StorePath] behind the interface [IDispatcher], and the
    proof that it keeps the laws. *)

From S2P Require Import Prelude LruList EvictionPolicy FreeList MemoryTier DispatchMap Dispatcher Pins ExtentStore StorePath StoreInvariant StoreCalls StoreBatch BatchCalls CacheSpec WriteThrough CacheSystem CacheBatch.

Module CacheService.
Import Policy WriteThroughPins ExtentStore StorePath StoreInvariant StoreCalls StoreBatch BatchCalls CacheSpec WriteThrough CacheSystem CacheBatch.
Local Open Scope Z_scope.

Section service.
Context {S1 S2 E : Type} `{P1 : IEvictionPolicy S1, P2 : IEvictionPolicy S2, X : IExtentManager E}.
Abbreviation World := (World S1 S2 E).

(** A dispatcher without peers. *)
#[global] Instance StoreDispatcher : Api.IDispatcher World := {
  Api.check := check;
  Api.touch := touch;
  Api.promote_to_memory_tier a w ks :=
    promote_to_memory_tier w ks (Api.promote_checkout a) (Api.promote_read a) (Api.promote_tail a) (Api.max_attempts a);
  Api.reserve_memory a w k size := reserve_memory w k size (Api.max_attempts a) (Api.polls a);
  Api.copy_gpu_to_memory_async a w k regions := copy_gpu_to_memory_async w k regions (Api.dma a) (Api.junk a);
  Api.copy_gpu_to_memory_completed a w k size := copy_gpu_to_memory_completed w k size (Api.device a);
  Api.release_memory := release_memory;
  Api.pin w k := Ret (take_pin w k);
  Api.unpin w k := Ret (unpin w k);
  Api.remove := remove;
  Api.batch_lookup a w entries := batch_lookup (Api.lookup_env a) None w entries (Api.max_attempts a);
  Api.batch_populate a w entries := batch_populate (Api.store_env a) w entries (Api.max_attempts a) (Api.polls a);
  Api.clear_memory_tier a w := clear_memory_tier w (Api.polls a);
  Api.clear_all a w := clear_all w (Api.polls a);
  Api.flush_to_ssd a w := flush_to_ssd w (Api.flush_io a);
  Api.tick t w := match t with
                  | Api.TJob i io => job_step w i io
                  | Api.TEvictMemory scan quota => memory_tier_evictor w scan quota
                  | Api.TEvictSsd key => evict_from_ssd w key
                  end
}.

End service.

Section laws.
Context {S1 S2 E : Type} `{P1 : IEvictionPolicy S1, L1 : !EvictionPolicyLaws S1,
  P2 : IEvictionPolicy S2, L2 : !EvictionPolicyLaws S2,
  X : IExtentManager E, XL : !ExtentManagerLaws E}.
Context (size_of : Z → Z) (sizes : ∀ k, 0 < size_of k ≤ 2 ^ 30).
Abbreviation World := (World S1 S2 E).
Abbreviation holds := (holds size_of).
Implicit Types (w : World) (sp : Spec).

Lemma holds_held sp w k : holds sp w → 0 ≤ pinned_by sp k ≤ u32_max ∧ (0 < pinned_by sp k → is_Some (stored sp !! k)).
Proof.
  intros I. assert (∀ e, entry w k = Some e → counted size_of w (ghost_of size_of sp) k e → is_Some (stored sp !! k) →
    0 ≤ pinned_by sp k ≤ u32_max ∧ (0 < pinned_by sp k → is_Some (stored sp !! k))) as He.
  { intros e He (_ & H0 & Hr & _) Hs. destruct (i_dm _ _ _ I) as (s & p & L & O). destruct (DispatchMap.ok_refs _ _ _ _ O k e He) as [Hb _].
    simpl in *. split; [|done]. destruct (pinned _); simpl in *; lia. }
  assert (pinned_by sp k = 0 → 0 ≤ pinned_by sp k ≤ u32_max ∧ (0 < pinned_by sp k → is_Some (stored sp !! k))) as Hz by (intros ->; unfold u32_max; lia).
  destruct (i_key _ _ _ I k) as [? Hr|? ? Hr|e ptr sz so b En ? Hc Hb|e loc b En ? Hc Hb]; [by apply Hz..| |]; apply (He e); try done; simpl in Hb; by eexists.
Qed.

(** One event of [CacheSystem], as a law. *)
Ltac by_event ev I Ha := destruct (event_simulates size_of sizes _ _ ev I Ha) as (ans & w' & sp' & Ex & Hs & I'); simpl in Ex;
  apply bind_Ret in Ex as (xw & Ex & Ea); destruct xw as [x ?]; injection Ea as <- ->; simpl in Hs.

#[global] Instance StoreDispatcherLaws : Api.DispatcherLaws World size_of.
Proof.
  refine {| Api.ok := holds; Api.vacant w k := slot w k = None; Api.held_law := holds_held |}.
  - intros sp w k I. by_event (ECheck k) I Logic.I. destruct Hs as [Hb ->]. eauto.
  - intros sp w k I. by_event (ETouch k) I Logic.I. subst sp'. eauto.
  - intros a sp w ks I Nd. destruct (promote_to_memory_tier_spec size_of sizes _ w ks (Api.promote_checkout a) (Api.promote_read a) (Api.promote_tail a) (Api.max_attempts a) I Nd) as (w' & Ep & I').
    by exists w'.
  - intros a sp w k I. by_event (EReserve k (Api.max_attempts a) (Api.polls a)) I Logic.I. exists x, w'. split; [done|].
    destruct x; [by destruct Hs as [? ->]|by subst sp'].
  - intros a sp w k regions I Hr. by_event (ECopy k regions (Api.dma a) (Api.junk a)) I Hr. exists x, w'. split; [done|].
    destruct x; [by destruct Hs as (_ & ? & ->)|]. destruct Hs as [->|[->|[? ->]]]; auto.
  - intros a sp w k b I Hb Hk Hsz.
    assert (allowed size_of sp (EComplete k (Api.device a))) as Ha by (split; [by exists b|done]).
    by_event (EComplete k (Api.device a)) I Ha. exists x, w'. split; [done|]. destruct x.
    + destruct Hs as (? & b' & Hb' & ->). rewrite Hb in Hb'. by injection Hb' as <-.
    + destruct Hs as (_ & ? & [->| ->]); auto.
  - intros sp w k I Hk. destruct (release_spec size_of _ w k I) as (w' & Er & I').
    { destruct Hk as [[p Hp]|Hk]; [right; rewrite pend_of, Hp; by eexists|by left]. }
    rewrite ghost_unreserve in I'. by exists w'.
  - intros sp w k I. destruct (take_pin_spec size_of _ w k I) as (x & w' & Et & Hx). exists x, w'. simpl. rewrite Et. split; [done|].
    destruct x; [by destruct Hx|by subst w'].
  - intros sp w k I Hp. destruct (unpin_spec size_of _ w k I Hp) as (w' & Eu & I'). exists w'. simpl. by rewrite Eu.
  - intros sp w k I. by_event (ERemove k) I Logic.I. exists x, w'. split; [done|].
    destruct x; [by destruct Hs as (? & ? & ->)|by destruct Hs as (_ & ? & ->)].
  - intros a sp w entries I Nd Co Hch.
    destruct (batch_lookup_spec size_of sizes (ghost_of size_of sp) w (Api.lookup_env a) false entries Nd Co None (Api.max_attempts a) I Hch Logic.I)
      as (os & w' & c & Eb & I' & _ & Hc & Hl & Ho). rewrite (Hc eq_refl) in I', Ho. exists os, w'. split_and!; [exact Eb|exact I'|done|].
    intros i r s x Hr Hx. destruct (Ho i r s x Hr Hx) as [[Hd Hh Hm _] At]. split_and!; try done; [|by intros; apply Hm].
    intros Sm Hres Hpin Hst. apply Hh; [done|by rewrite pend_of, Hres| |done]. unfold ref_count. simpl. destruct (pinned _); simpl; lia.
  - intros a sp w entries I Bl Hsz Hp. by_event (EBatchPopulate (Api.store_env a) entries (Api.max_attempts a) (Api.polls a)) I (conj Bl (conj Hsz Hp)). by exists x, w', sp'.
  - intros a sp w I. destruct (flush_call_spec size_of sizes sp (length (writers w)) w (Api.flush_io a) I ltac:(lia)) as (w1 & Ef & I1 & Hl & Hi).
    destruct (flush_report_spec size_of sizes sp w1 I1) as (x & w' & Er & I' & _).
    { intros i x Hx. apply (Hi i x); [|done]. rewrite <- Hl. by eapply lookup_lt_Some. }
    exists x, w'. simpl. unfold flush_to_ssd. by rewrite Ef, bind_Ret_l.
  - intros [i io|scan quota|k] sp w I; simpl.
    + destruct (job_step_spec size_of sizes _ w i io I eq_refl) as (w' & -> & I'). eauto 10.
    + destruct (memory_tier_evictor_spec size_of _ w scan quota I) as (w' & -> & I'). eauto 10.
    + destruct (evict_from_ssd_spec size_of _ w k I eq_refl) as (w' & -> & [I'|(Hr & Hc & I')]); [eauto 10|]. rewrite ghost_forget in I'.
      exists w', (forget sp k). eauto 10.
Defined.

End laws.

End CacheService.
