(* ===== verification/CacheHazards.v ===== *)
(** What the store path does outside the contract of [CacheSystem]: runs of the
    concrete cache in which a call the contract leaves out, a size that changes or
    a reserved key makes one key's bytes appear under another, or lost. *)

From S2P Require Import Prelude LruList EvictionPolicy FreeList MemoryTier Slab Buddy Region Checkpoint Recovery ExtentManager DispatchMap Dispatcher Pins ExtentStore StorePath StoreBatch CacheSpec CacheSystem CacheBatch.

Module CacheHazards.
Import StorePath StoreBatch CacheSpec CacheSystem CacheBatch.
Local Open Scope Z_scope.

(** Two drives. *)
Definition cache0_two : Cache :=
  mkWorld DispatchMap.map0 MemoryTier.empty_tier Dispatcher.no_counts [drive0; drive0] ∅ ∅
    [mkWriter [] Idle; mkWriter [] Idle] (λ _, 0).

(** [clear_memory_tier] frees the slot that a removed entry's job still reads,
    and the next store of the key loses its slot to that job. Key 5 is stored and
    removed while its job runs, so its slot is left to the job; [clear_memory_tier]
    finds a slot without an entry and frees it. Key 5 is stored again in a new
    slot; the old job then ends and frees the slot of key 5, now the new one. Key 6
    is stored into the same memory, and a lookup of key 5 answers [Ok] with the
    bytes of key 6. *)
Theorem cleared_slot_serves_other_key :
  answers ('(_, w) ← run cache0 (put 5 [1; 2; 3; 4] ++ [EJob 0 true; EJob 0 true; ERemove 5]);
           '(_, w) ← clear_memory_tier w 0;
           run w (put 5 [5; 6; 7; 8] ++ [EJob 0 true; EJob 0 true] ++ put 6 [9; 9; 9; 9] ++ [ELookup 5 true true [] 1]))
  = Ret [APointer (Ok 65536); AUnit (Ok ()); AUnit (Ok ()); ANone; ANone;
         APointer (Ok 65536); AUnit (Ok ()); AUnit (Ok ()); AData (Ok [9; 9; 9; 9])].
Proof. vm_compute. reflexivity. Qed.

(** A remove of a cold key frees the slot another client is filling. Key 5 is
    only on the drive; a client reserves a slot for it and is told where to copy; a
    remove of key 5 succeeds and frees that slot; the next client, storing key 6, is
    given the same memory while the first copy may still be running. *)
Theorem remove_frees_reservation :
  answers (run cache0 (put 5 [1; 2; 3; 4] ++ job 0 ++ [EEvictMemory 4 4; EReserve 5 1 0; ERemove 5; EReserve 6 1 0]))
  = Ret [APointer (Ok 65536); AUnit (Ok ()); AUnit (Ok ()); ANone; ANone; ANone; ANone; ANone;
         APointer (Ok 65536); AUnit (Ok ()); APointer (Ok 65536)].
Proof. vm_compute. reflexivity. Qed.

(** [clear_memory_tier] frees the slots of stores in flight. A reservation has no
    entry, so neither the demotion nor the removal of its key can refuse: the slot
    counts as cleared and is freed under the client, or under the peer of a fetch,
    that is filling it, and the next reservation is given the same memory. *)
Theorem clear_frees_reservation :
  answers ('(x, w) ← run cache0 [EReserve 5 1 0]; '(n, w) ← clear_memory_tier w 0; '(y, w) ← run w [EReserve 6 1 0]; Ret (x, n, y, w))
  = Ret ([APointer (Ok 65536)], Ok 1%nat, [APointer (Ok 65536)]).
Proof. vm_compute. reflexivity. Qed.

(** A stale job writes the new block with the old size. Key 5 is stored with
    four bytes for drive 0, removed before its job ran, and stored with eight bytes
    for drive 1. The ledger counts stale jobs without telling them apart, so the
    writer of drive 1 drops the new job as stale and the writer of drive 0 runs the
    old one as its owner: four of the eight bytes reach a drive, the entry records
    that copy, and once it is evicted from memory a lookup delivers the four bytes
    followed by what the device had there. *)
Theorem stale_job_writes_old_size tail :
  answers ('(_, w) ← populate cache0_two 5 [1; 2; 3; 4] DmaDone [] 0 1 0;
           '(_, w) ← remove w 5;
           '(_, w) ← populate w 5 [11; 12; 13; 14; 15; 16; 17; 18] DmaDone [] 1 1 0;
           '(_, w) ← run w (EJob 1 true :: job 0 ++ [EEvictMemory 4 4]);
           lookup w 5 8 true true tail 1)
  = Ret (Ok (take 8 ([11; 12; 13; 14] ++ tail))).
Proof. vm_compute. reflexivity. Qed.

(** All drives answer but for the channel pool of drive [d]. *)
Definition no_channel (d : nat) : Env :=
  mkEnv (λ _, true) true true true (λ d', negb (d' =? d)%nat) (λ _, true) (λ _, []) true (λ _, true) (λ _, true) (λ _, true) true.

(** Keys 5 and 6 only on drives 0 and 1. *)
Definition two_cold : outcome Cache :=
  '(_, w) ← populate cache0_two 5 [1; 2; 3; 4] DmaDone [] 0 1 0;
  '(_, w) ← populate w 6 [5; 6; 7; 8] DmaDone [] 1 1 0;
  '(_, w) ← run w (job 0 ++ job 1 ++ [EEvictMemory 4 4]);
  Ret w.

(** A drive without a channel takes the whole batch lookup down. Keys 5 and 6
    are on drives 0 and 1. When the channel pool of drive 0 gives no channel, only
    the entries of drive 0 are answered with the error; the entry of drive 1 stays
    without an answer, and the last pass unwraps it and panics. A batch with only
    key 5 reports the error. *)
Theorem checkout_failure_panics :
  answers (w ← two_cold; batch_lookup (no_channel 0) None w [mkRequest 5 [4]; mkRequest 6 [4]] 1) = Panic ∧
  answers (w ← two_cold; batch_lookup (no_channel 0) None w [mkRequest 5 [4]] 1) = Ret [(Error, Err Dispatcher.IoError)] ∧
  answers (w ← two_cold; batch_lookup (no_channel 2) None w [mkRequest 5 [4]; mkRequest 6 [4]] 1) =
    Ret [(Ssd, Ok [[1; 2; 3; 4]]); (Ssd, Ok [[5; 6; 7; 8]])].
Proof. split_and!; vm_compute; reflexivity. Qed.

(** The key [u64::MAX] loses its copy. The extent manager marks free slots with
    that key, so publishing an extent for it frees the slot, and the write-through
    ignores the answer and records the extent all the same. The next key's extent
    takes the slot, and after an eviction from memory a lookup of [u64::MAX]
    delivers the other key's bytes. *)
Theorem max_key_serves_other_key :
  answers (run cache0 (put u64_max [1; 2; 3; 4] ++ job 0 ++ put 6 [5; 6; 7; 8] ++ job 0 ++
                       [EEvictMemory 4 4; ELookup u64_max true true [] 1]))
  = Ret [APointer (Ok 65536); AUnit (Ok ()); AUnit (Ok ()); ANone; ANone; ANone; ANone;
         APointer (Ok 69632); AUnit (Ok ()); AUnit (Ok ()); ANone; ANone; ANone; ANone; ANone;
         AData (Ok [5; 6; 7; 8])].
Proof. vm_compute. reflexivity. Qed.

(** A short lookup of a cold key truncates the entry. The promotion takes its
    size from the caller's handle: after a lookup of four bytes of an eight-byte
    block the entry in memory has four bytes, and a lookup of all eight answers
    [Ok] having delivered four. *)
Theorem short_lookup_truncates tail :
  answers ('(_, w) ← populate cache0 5 [11; 12; 13; 14; 15; 16; 17; 18] DmaDone [] 0 1 0;
           '(_, w) ← run w (job 0 ++ [EEvictMemory 4 4]);
           '(_, w) ← lookup w 5 4 true true tail 1;
           lookup w 5 8 true true tail 1)
  = Ret (Ok [11; 12; 13; 14]).
Proof. vm_compute. reflexivity. Qed.

End CacheHazards.
