(* ===== verification/ShmQueue.v ===== *)
(** The shared-memory mailbox between clients and the server
    ([lib/shm-queue/src/lib.rs]): the layout of the mapped file, and the
    exchange of one request and one reply on a channel, under the memory model
    the code is written for, x86-TSO.

    Memory is the cells of one channel; every thread has a FIFO buffer of
    stores that reach memory one at a time, and a load sees the thread's own
    buffer first. The channels are independent: [ShmLayout] shows that their
    cells share no byte. The lock that is a channel's claim is the kernel's: it
    is held by at most one client and is released when its holder ends. Futex
    waits only bound how long a client sleeps between two looks at the reply and
    are left out, like the owner word, which is kept for observation only. *)

From S2P Require Import Prelude.

(** * The layout of the file *)

Module ShmLayout.
Local Open Scope Z_scope.

Definition MAGIC_READY : Z := 0x51484d53.
Definition ABI_VERSION : Z := 2.
Definition CONTROL_SIZE : Z := 64.
Definition OFF_SEQ : Z := 0.
Definition OFF_OPCODE : Z := 4.
Definition OFF_LEN : Z := 8.
Definition OFF_OWNER : Z := 12.

(** [size_of::<Header>()]: eleven [u32] fields, four bytes of padding and the
    [u64] heartbeat. *)
Definition HEADER_SIZE : Z := 56.

Definition round_up_cl (x : Z) : outcome Z :=
  x ← add_w 64 x CONTROL_SIZE;
  x ← sub_w x 1;
  Ret (Z.land x (Z.lnot (CONTROL_SIZE - 1))).

Record Layout := mkLayout {
  num_channels : Z;
  cap_req : Z;
  cap_resp : Z;
  channels_offset : Z;
  channel_stride : Z;
  req_payload_off : Z;
  resp_control_off : Z;
  resp_payload_off : Z;
  total_size : Z
}.

Definition compute (nch creq cresp : Z) : outcome Layout :=
  channels_offset ← round_up_cl HEADER_SIZE;
  let req_payload_off := CONTROL_SIZE in
  r ← round_up_cl creq;
  resp_control_off ← add_w 64 req_payload_off r;
  resp_payload_off ← add_w 64 resp_control_off CONTROL_SIZE;
  r ← round_up_cl cresp;
  channel_stride ← add_w 64 resp_payload_off r;
  all ← mul_w 64 nch channel_stride;
  total_size ← add_w 64 channels_offset all;
  Ret (mkLayout nch creq cresp channels_offset channel_stride req_payload_off
         resp_control_off resp_payload_off total_size).

Definition channel_base (l : Layout) (ch : Z) : outcome Z :=
  x ← mul_w 64 ch (channel_stride l); add_w 64 (channels_offset l) x.

(** The header fields the server writes and a client validates. *)
Record Header := mkHeader {
  h_magic : Z;
  h_abi_version : Z;
  h_generation : Z;
  h_num_channels : Z;
  h_cap_req : Z;
  h_cap_resp : Z;
  h_control_size : Z;
  h_channel_stride : Z;
  h_channels_offset : Z
}.

(** [x as u32]. *)
Definition as_u32 (x : Z) : Z := x mod 2 ^ 32.

(** [fresh_generation], from the clock and the process id. *)
Definition fresh_generation (nanos pid : Z) : Z :=
  let mixed := Z.lxor (Z.lxor (nanos mod 2 ^ 64) (Z.shiftl pid 32 mod 2 ^ 64)) (Z.shiftr nanos 64 mod 2 ^ 64) in
  let folded := as_u32 (Z.lxor mixed (Z.shiftr mixed 32)) in
  if folded =? 0 then 1 else folded.

(** [Server::create], as far as the file's header goes. *)
Definition create (nch creq cresp nanos pid : Z) : outcome (Layout * Header) :=
  if negb ((0 <? nch) && (nch <=? 4096)) then Panic
  else if negb ((64 <=? creq) && (64 <=? cresp)) then Panic
  else
    l ← compute nch creq cresp;
    Ret (l, mkHeader MAGIC_READY ABI_VERSION (fresh_generation nanos pid) (as_u32 nch) (as_u32 creq)
              (as_u32 cresp) (as_u32 CONTROL_SIZE) (as_u32 (channel_stride l)) (as_u32 (channels_offset l))).

Inductive AttachError := TimedOut | InvalidData.

(** [Client::attach], from the header it maps first. *)
Definition attach (h : Header) : outcome (result Layout AttachError) :=
  if negb (h_magic h =? MAGIC_READY) then Ret (Err TimedOut)
  else if negb (h_abi_version h =? ABI_VERSION) then Ret (Err InvalidData)
  else
    l ← compute (h_num_channels h) (h_cap_req h) (h_cap_resp h);
    if negb (h_control_size h =? CONTROL_SIZE) || negb (h_channel_stride h =? channel_stride l)
       || negb (h_channels_offset h =? channels_offset l)
    then Ret (Err InvalidData)
    else Ret (Ok l).

(** The byte of the file whose lock is the claim of a channel. *)
Definition lock_offset (l : Layout) (ch : Z) : outcome Z :=
  x ← add_w 64 (total_size l) ch;
  if x <? 2 ^ 63 then Ret x else Panic.

(** ** Lemmas *)

Definition round_up (x : Z) : Z := (x + 63) / 64 * 64.

Lemma round_up_bounds x : 0 ≤ x → x ≤ round_up x < x + 64 ∧ (64 | round_up x).
Proof.
  intros H. unfold round_up. split; [|by eexists].
  pose proof (Z.div_mod (x + 63) 64 ltac:(lia)). pose proof (Z.mod_pos_bound (x + 63) 64 ltac:(lia)). lia.
Qed.

Lemma round_up_cl_spec x : 0 ≤ x → x + 64 < 2 ^ 64 → round_up_cl x = Ret (round_up x).
Proof.
  intros H0 H. unfold round_up_cl, CONTROL_SIZE. rewrite add_w_Ret by lia. rewrite bind_Ret_l, sub_w_Ret by lia.
  rewrite bind_Ret_l. unfold round_up. f_equal. replace (x + 64 - 1) with (x + 63) by lia.
  change (64 - 1) with (Z.ones 6). rewrite <- Z.ldiff_land, Z.ldiff_ones_r by lia.
  rewrite Z.shiftl_mul_pow2, Z.shiftr_div_pow2 by lia. done.
Qed.

Definition stride (creq cresp : Z) : Z := 128 + round_up creq + round_up cresp.

Lemma compute_spec nch creq cresp :
  0 ≤ nch ≤ 4096 → 0 ≤ creq < 2 ^ 44 → 0 ≤ cresp < 2 ^ 44 →
  compute nch creq cresp =
  Ret (mkLayout nch creq cresp 64 (stride creq cresp) 64 (64 + round_up creq) (128 + round_up creq)
         (64 + nch * stride creq cresp)).
Proof.
  intros Hn Hq Hr. unfold compute.
  pose proof (round_up_bounds creq ltac:(lia)). pose proof (round_up_bounds cresp ltac:(lia)).
  assert (0 ≤ nch * stride creq cresp ≤ 4096 * 2 ^ 46) as Hs.
  { split; [apply Z.mul_nonneg_nonneg|apply Z.mul_le_mono_nonneg]; unfold stride; lia. }
  rewrite (round_up_cl_spec HEADER_SIZE) by (unfold HEADER_SIZE; lia). rewrite bind_Ret_l.
  rewrite (round_up_cl_spec creq) by lia. rewrite bind_Ret_l. unfold CONTROL_SIZE.
  rewrite (add_w_Ret 64 64 (round_up creq)) by lia. rewrite bind_Ret_l.
  rewrite (add_w_Ret 64 (64 + _) 64) by lia. rewrite bind_Ret_l.
  rewrite (round_up_cl_spec cresp), bind_Ret_l by lia.
  rewrite (add_w_Ret 64 (64 + round_up creq + 64)), bind_Ret_l by lia.
  replace (64 + round_up creq + 64 + round_up cresp) with (stride creq cresp) by (unfold stride; lia).
  rewrite mul_w_Ret by lia. rewrite bind_Ret_l.
  rewrite add_w_Ret by (change (round_up HEADER_SIZE) with 64; lia). rewrite bind_Ret_l.
  f_equal. f_equal; change (round_up HEADER_SIZE) with 64; lia.
Qed.

Lemma channel_base_spec l ch :
  0 ≤ ch → 0 ≤ channels_offset l → channels_offset l + ch * channel_stride l < 2 ^ 64 →
  channel_base l ch = Ret (channels_offset l + ch * channel_stride l).
Proof. intros. unfold channel_base. rewrite mul_w_Ret by lia. rewrite bind_Ret_l. apply add_w_Ret. lia. Qed.

Lemma fresh_generation_range nanos pid : 0 < fresh_generation nanos pid < 2 ^ 32.
Proof.
  unfold fresh_generation, as_u32. case_match eqn:E; [lia|]. apply Z.eqb_neq in E.
  pose proof (Z.mod_pos_bound (Z.lxor
     (Z.lxor (Z.lxor (nanos mod 2 ^ 64) (Z.shiftl pid 32 mod 2 ^ 64)) (Z.shiftr nanos 64 mod 2 ^ 64))
     (Z.shiftr (Z.lxor (Z.lxor (nanos mod 2 ^ 64) (Z.shiftl pid 32 mod 2 ^ 64)) (Z.shiftr nanos 64 mod 2 ^ 64)) 32)) (2 ^ 32) ltac:(lia)).
  lia.
Qed.

(** ** The cells of a channel *)

(** The places of a channel block a thread loads from or stores to. *)
Inductive cell :=
| ReqSeq | ReqOp | ReqLen | ReqOwner | ReqByte (i : nat)
| RespSeq | RespStatus | RespLen | RespByte (i : nat).

#[global] Instance cell_eq_dec : EqDecision cell.
Proof. solve_decision. Defined.

(** Offset of a cell in its block, as [take_request], [reply], [request],
    [read_response], [claim_channel] and [release_channel] compute it, and its width. *)
Definition cell_offset (l : Layout) (c : cell) : Z :=
  match c with
  | ReqSeq => OFF_SEQ
  | ReqOp => OFF_OPCODE
  | ReqLen => OFF_LEN
  | ReqOwner => OFF_OWNER
  | ReqByte i => req_payload_off l + Z.of_nat i
  | RespSeq => resp_control_off l + OFF_SEQ
  | RespStatus => resp_control_off l + OFF_OPCODE
  | RespLen => resp_control_off l + OFF_LEN
  | RespByte i => resp_payload_off l + Z.of_nat i
  end.

Definition cell_width (c : cell) : Z :=
  match c with ReqByte _ | RespByte _ => 1 | _ => 4 end.

Definition cell_in (l : Layout) (c : cell) : Prop :=
  match c with
  | ReqByte i => Z.of_nat i < cap_req l
  | RespByte i => Z.of_nat i < cap_resp l
  | _ => True
  end.

Lemma cell_block creq cresp n l c :
  compute n creq cresp = Ret l → 0 ≤ n ≤ 4096 → 0 ≤ creq < 2 ^ 44 → 0 ≤ cresp < 2 ^ 44 → cell_in l c →
  0 ≤ cell_offset l c ∧ cell_offset l c + cell_width c ≤ stride creq cresp ∧
  (cell_width c = 4 → (4 | cell_offset l c)) ∧
  ∀ c', cell_in l c' → c ≠ c' →
    cell_offset l c + cell_width c ≤ cell_offset l c' ∨ cell_offset l c' + cell_width c' ≤ cell_offset l c.
Proof.
  intros E Hn Hq Hr. rewrite compute_spec in E by done. injection E as <-. unfold cell_in, cell_offset, stride.
  pose proof (round_up_bounds creq ltac:(lia)) as [B1 [q Q]]. pose proof (round_up_bounds cresp ltac:(lia)) as [B2 _].
  unfold OFF_SEQ, OFF_OPCODE, OFF_LEN, OFF_OWNER. simpl. intros Hc. split_and!.
  - destruct c; lia.
  - destruct c; simpl in *; lia.
  - rewrite Q. destruct c; simpl; intros Hw; try discriminate Hw;
      [exists 0|exists 1|exists 2|exists 3|exists (16 + q * 16)|exists (17 + q * 16)|exists (18 + q * 16)]; lia.
  - intros c' Hc' Hne. destruct c, c'; simpl in *; try done; try lia.
    + assert (i ≠ i0) by congruence. lia.
    + assert (i ≠ i0) by congruence. lia.
Qed.

Lemma block_apart a b st x w y :
  a < b → 0 ≤ w → 0 ≤ x → x + w ≤ st → 0 ≤ y → 64 + a * st + x + w ≤ 64 + b * st + y.
Proof. intros Hab Hw0 Hx Hw Hy. assert ((a + 1) * st ≤ b * st) by (apply Z.mul_le_mono_nonneg_r; lia). lia. Qed.

(** C33. The cells of the mailbox never share a byte. In the file [create] lays
    out, every cell of every channel (the words of both control blocks, the owner
    word included, and the payload bytes) lies behind the header and inside the
    mapping, every word is aligned, two different cells (of one channel or of two)
    are disjoint, and the byte that stands for a channel's claim is a byte of its
    own past the mapping. *)
Theorem shm_layout_disjoint nch creq cresp nanos pid :
  0 < nch ≤ 4096 → 64 ≤ creq < 2 ^ 44 → 64 ≤ cresp < 2 ^ 44 →
  ∃ l h, create nch creq cresp nanos pid = Ret (l, h) ∧
  ∀ ch c, 0 ≤ ch < nch → cell_in l c → ∃ base, channel_base l ch = Ret base ∧
    HEADER_SIZE ≤ base + cell_offset l c ∧ base + cell_offset l c + cell_width c ≤ total_size l ∧
    (cell_width c = 4 → (4 | base + cell_offset l c)) ∧
    lock_offset l ch = Ret (total_size l + ch) ∧
    ∀ ch' c' base', 0 ≤ ch' < nch → cell_in l c' → (ch, c) ≠ (ch', c') → channel_base l ch' = Ret base' →
      base + cell_offset l c + cell_width c ≤ base' + cell_offset l c' ∨
      base' + cell_offset l c' + cell_width c' ≤ base + cell_offset l c.
Proof.
  intros Hn Hq Hr. unfold create.
  destruct (Z.ltb_spec 0 nch); [|lia]. destruct (Z.leb_spec nch 4096); [|lia].
  destruct (Z.leb_spec 64 creq); [|lia]. destruct (Z.leb_spec 64 cresp); [|lia]. simpl.
  pose proof (compute_spec nch creq cresp ltac:(lia) ltac:(lia) ltac:(lia)) as E. rewrite E, bind_Ret_l.
  eexists _, _. split; [done|]. intros ch c Hch Hc.
  set (l := mkLayout _ _ _ _ _ _ _ _ _) in *. set (st := stride creq cresp) in *.
  assert (0 < st ≤ 2 ^ 46 ∧ (4 | st)) as [Hst Hst4].
  { pose proof (round_up_bounds creq ltac:(lia)) as [? [q1 Q1]]. pose proof (round_up_bounds cresp ltac:(lia)) as [? [q2 Q2]].
    unfold st, stride. split; [lia|]. rewrite Q1, Q2. exists (32 + q1 * 16 + q2 * 16). lia. }
  assert (∀ x, 0 ≤ x < nch → channel_base l x = Ret (64 + x * st) ∧ 0 ≤ x * st ∧ x * st + st ≤ nch * st ≤ 4096 * 2 ^ 46) as Hb.
  { intros x Hx. assert ((x + 1) * st ≤ nch * st) by (apply Z.mul_le_mono_nonneg_r; lia).
    assert (0 ≤ x * st) by lia. assert (nch * st ≤ 4096 * 2 ^ 46) by (apply Z.mul_le_mono_nonneg; lia).
    split_and!; [apply channel_base_spec; simpl; fold st; lia|lia..]. }
  destruct (cell_block _ _ _ _ c E ltac:(lia) ltac:(lia) ltac:(lia) Hc) as (B1 & B2 & B3 & B4).
  destruct (Hb ch Hch) as (-> & ? & ? & ?). exists (64 + ch * st). change (total_size l) with (64 + nch * st).
  change HEADER_SIZE with 56. fold st in B2. split_and!; [done|lia|lia| | |].
  - intros Hw. apply Z.divide_add_r; [|by apply B3]. apply Z.divide_add_r; [by exists 16|]. by apply Z.divide_mul_r.
  - unfold lock_offset. change (total_size l) with (64 + nch * st). rewrite add_w_Ret, bind_Ret_l by lia.
    destruct (Z.ltb_spec (64 + nch * st + ch) (2 ^ 63)); [done|lia].
  - intros ch' c' base' Hch' Hc' Hne Hbase. destruct (Hb ch' Hch') as (Eb & _). rewrite Eb in Hbase. injection Hbase as <-.
    destruct (cell_block _ _ _ _ c' E ltac:(lia) ltac:(lia) ltac:(lia) Hc') as (B1' & B2' & _). fold st in B2'.
    destruct (Z.lt_trichotomy ch ch') as [Hlt|[<-|Hlt]].
    + left. apply block_apart; try done. by destruct c.
    + destruct (B4 c' Hc' ltac:(congruence)); lia.
    + right. apply block_apart; try done. by destruct c'.
Qed.

Lemma shm_layout_disjoint_witness :
  ∃ l h, create 2 100 200 0 1 = Ret (l, h) ∧
    ∃ base, channel_base l 1 = Ret base ∧ HEADER_SIZE ≤ base + cell_offset l (RespByte 199).
Proof.
  destruct (shm_layout_disjoint 2 100 200 0 1) as (l & h & E & H); [lia..|].
  exists l, h. split; [exact E|]. injection E as <- _.
  destruct (H 1 (RespByte 199)) as (base & Eb & Hb & _); [lia|simpl; lia|].
  exists base. split; [exact Eb|exact Hb].
Defined.

(** What the server advertises is what a client attaches to: from the
    header [create] publishes, a client computes the server's own layout when the
    stride fits the header's field, and refuses the mailbox when it does not. The
    generation is never zero. *)
Theorem attach_matches_create nch creq cresp nanos pid :
  0 < nch ≤ 4096 → 64 ≤ creq < 2 ^ 32 → 64 ≤ cresp < 2 ^ 32 →
  ∃ l h, create nch creq cresp nanos pid = Ret (l, h) ∧ 0 < h_generation h < 2 ^ 32 ∧
    attach h = Ret (if channel_stride l <? 2 ^ 32 then Ok l else Err InvalidData).
Proof.
  intros Hn Hq Hr. unfold create.
  destruct (Z.ltb_spec 0 nch); [|lia]. destruct (Z.leb_spec nch 4096); [|lia].
  destruct (Z.leb_spec 64 creq); [|lia]. destruct (Z.leb_spec 64 cresp); [|lia]. simpl.
  pose proof (compute_spec nch creq cresp ltac:(lia) ltac:(lia) ltac:(lia)) as E. rewrite E, bind_Ret_l.
  eexists _, _. split; [done|]. split; [apply fresh_generation_range|]. unfold attach. simpl. unfold as_u32.
  rewrite !(Z.mod_small nch), !(Z.mod_small creq), !(Z.mod_small cresp), E, bind_Ret_l by lia. simpl.
  assert (0 ≤ stride creq cresp) as Hst.
  { unfold stride. pose proof (round_up_bounds creq). pose proof (round_up_bounds cresp). lia. }
  change (64 mod 2 ^ 32) with 64. simpl.
  destruct (Z.ltb_spec (stride creq cresp) (2 ^ 32)) as [Hlt|Hge].
  - rewrite Z.mod_small, Z.eqb_refl by lia. done.
  - rewrite (proj2 (Z.eqb_neq _ _)); [done|]. pose proof (Z.mod_pos_bound (stride creq cresp) (2 ^ 32)). lia.
Qed.

Lemma attach_matches_create_witness :
  ∃ l h, create 2 100 200 0 1 = Ret (l, h) ∧ attach h = Ret (Ok l).
Proof.
  destruct (attach_matches_create 2 100 200 0 1) as (l & h & E & _ & H); [lia..|].
  exists l, h. split; [exact E|]. injection E as <- _. exact H.
Defined.

(** The check does not see a capacity that was cut to 32 bits: a server whose
    request cells hold 2^32 + 64 bytes is attached to as one whose cells hold
    64, with every later offset wrong. *)
Lemma attach_accepts_cut_capacity :
  ∃ l h l', create 1 (2 ^ 32 + 64) 64 0 1 = Ret (l, h) ∧ attach h = Ret (Ok l') ∧
    resp_control_off l' ≠ resp_control_off l.
Proof. eexists _, _, _. split_and!; [reflexivity..|]. done. Qed.

End ShmLayout.
