(* ===== verification/Mailbox.v ===== *)
(** One channel of the shared-memory mailbox in operation
    ([lib/shm-queue/src/lib.rs]: [Server::take_request] and [reply],
    [Client::claim_channel], [adopt_seq], [request], [read_response] and
    [release_channel]), as a step system: a client, the server's poller and its
    workers, with a store buffer per thread. *)

From S2P Require Import Prelude ShmQueue.

Module Mailbox.
Import ShmLayout.

Record Request := mkRequest { opcode : Z; payload : list Z }.
Record Reply := mkReply { status : Z; data : list Z }.

(** ** Memory *)

Definition store : Type := cell * Z.
Definition Mem : Type := cell → Z.

Definition commit (m : Mem) (w : store) : Mem := λ c, if decide (c = w.1) then w.2 else m c.

(** A load: the newest store of the thread's own buffer, else memory. *)
Definition load (buf : list store) (m : Mem) (c : cell) : Z :=
  match List.find (λ w, bool_decide (w.1 = c)) (reverse buf) with
  | Some w => w.2
  | None => m c
  end.

(** ** The threads *)

(** [Client::next_seq], from the number kept for the channel. *)
Definition next_seq (prev : Z) : Z :=
  let s := ((prev + 1) mod 2 ^ 32)%Z in
  if (s =? 0)%Z then 1%Z else s.

(** A client of the channel: not there; in [adopt_seq], with the request number
    it has loaded; owner of the channel at rest (and whether its last request
    came to an end); or inside [request] and [read_response]. *)
Inductive client :=
| Away
| Adopting (req : option Z)
| Idle (seq : Z) (settled : bool)
| Waiting (seq : Z) (r : Request)
| GotSeq (seq : Z) (r : Request)
| GotStatus (seq : Z) (r : Request) (st : Z)
| GotLen (seq : Z) (r : Request) (st : Z) (len : nat) (acc : list Z).

(** The poller inside [take_request]. *)
Inductive poller :=
| Watching
| SawSeq (seq : Z)
| SawOp (seq op : Z)
| Copying (seq op : Z) (len : nat) (acc : list Z).

(** A worker with a request, or inside [reply] with stores under way. *)
Inductive worker :=
| Job (seq : Z) (r : Request)
| Replying (buf : list store).

(** The last three fields record the history: the requests whose number reached
    memory, those the poller handed to a worker, and what [request] returned. *)
Record sys := mkSys {
  mem : Mem;
  cl : client;
  cbuf : list store;
  last_seen : Z;
  pl : poller;
  workers : list worker;
  inflight : Request;
  published : list Request;
  taken : list Request;
  answered : list (Request * Reply)
}.

Definition set_client (x : sys) (c : client) : sys :=
  mkSys (mem x) c (cbuf x) (last_seen x) (pl x) (workers x) (inflight x) (published x) (taken x) (answered x).
Definition set_poller (x : sys) (p : poller) : sys :=
  mkSys (mem x) (cl x) (cbuf x) (last_seen x) p (workers x) (inflight x) (published x) (taken x) (answered x).
Definition set_workers (x : sys) (ws : list worker) : sys :=
  mkSys (mem x) (cl x) (cbuf x) (last_seen x) (pl x) ws (inflight x) (published x) (taken x) (answered x).
Definition set_mem (x : sys) (m : Mem) : sys :=
  mkSys m (cl x) (cbuf x) (last_seen x) (pl x) (workers x) (inflight x) (published x) (taken x) (answered x).

Inductive event :=
| EClaim | EAdopt | ERequest (r : Request) | ECFlush | EPoll | ETimeout | ERelease | ECrash (k : nat)
| EServe | EWork (i : nat) | EWFlush (i : nat).

Section protocol.
(** The capacities of the cells and what the server does with a request. *)
Context (cap_req cap_resp : nat) (handle : Request → Reply).

(** The region [Server::create] has zeroed, and [seq_baseline]. *)
Definition initial : sys :=
  mkSys (λ _, 0%Z) Away [] 0 Watching [] (mkRequest 0 []) [] [] [].

(** The stores of [request] and of [reply], in program order. *)
Definition request_stores (seq : Z) (r : Request) : list store :=
  imap (λ i b, (ReqByte i, b)) (payload r) ++
  [(ReqOp, opcode r); (ReqLen, Z.of_nat (length (payload r))); (ReqSeq, seq)].

Definition reply_data (a : Reply) : list Z := take cap_resp (data a).

Definition reply_stores (seq : Z) (a : Reply) : list store :=
  imap (λ i b, (RespByte i, b)) (reply_data a) ++
  [(RespStatus, status a); (RespLen, Z.of_nat (length (reply_data a))); (RespSeq, seq)].

(** The oldest store of the client's buffer reaches memory. *)
Definition flush_one (x : sys) : sys :=
  match cbuf x with
  | [] => x
  | w :: buf =>
      mkSys (commit (mem x) w) (cl x) buf (last_seen x) (pl x) (workers x) (inflight x)
        (if decide (w.1 = ReqSeq) then published x ++ [inflight x] else published x) (taken x) (answered x)
  end.

Definition drop_buffer (x : sys) : sys :=
  mkSys (mem x) (cl x) [] (last_seen x) (pl x) (workers x) (inflight x) (published x) (taken x) (answered x).

(** The length word as a reader clamps it. *)
Definition clamp (len : Z) (cap : nat) : nat := Z.to_nat (Z.min len (Z.of_nat cap)).

(** One look of the client at the reply, or one load of [read_response]. *)
Definition poll (x : sys) : option sys :=
  let ld := load (cbuf x) (mem x) in
  match cl x with
  | Waiting s r => Some (if (ld RespSeq =? s)%Z then set_client x (GotSeq s r) else x)
  | GotSeq s r => Some (set_client x (GotStatus s r (ld RespStatus)))
  | GotStatus s r st => Some (set_client x (GotLen s r st (clamp (ld RespLen) cap_resp) []))
  | GotLen s r st len acc =>
      if (length acc <? len) then Some (set_client x (GotLen s r st len (acc ++ [ld (RespByte (length acc))])))
      else Some (mkSys (mem x) (Idle s true) (cbuf x) (last_seen x) (pl x) (workers x) (inflight x)
                   (published x) (taken x) (answered x ++ [(r, mkReply st acc)]))
  | _ => None
  end.

(** One load of [take_request]. *)
Definition serve (x : sys) : sys :=
  match pl x with
  | Watching =>
      let s := mem x ReqSeq in
      if (s =? last_seen x)%Z then x
      else mkSys (mem x) (cl x) (cbuf x) s (SawSeq s) (workers x) (inflight x) (published x) (taken x) (answered x)
  | SawSeq s => set_poller x (SawOp s (mem x ReqOp))
  | SawOp s op => set_poller x (Copying s op (clamp (mem x ReqLen) cap_req) [])
  | Copying s op len acc =>
      if (length acc <? len) then set_poller x (Copying s op len (acc ++ [mem x (ReqByte (length acc))]))
      else mkSys (mem x) (cl x) (cbuf x) (last_seen x) Watching (workers x ++ [Job s (mkRequest op acc)])
             (inflight x) (published x) (taken x ++ [mkRequest op acc]) (answered x)
  end.

(** [claim_channel] has the lock of a free channel; the next steps are [adopt_seq]. *)
Definition claim_channel (x : sys) : option sys :=
  match cl x with Away => Some (set_client x (Adopting None)) | _ => None end.

(** One load of [adopt_seq]: the request number, then the response number; the
    loop starts again while they differ. *)
Definition adopt_seq (x : sys) : option sys :=
  match cl x with
  | Adopting None => Some (set_client x (Adopting (Some (load (cbuf x) (mem x) ReqSeq))))
  | Adopting (Some q) =>
      Some (set_client x (if (load (cbuf x) (mem x) RespSeq =? q)%Z then Idle q true else Adopting None))
  | _ => None
  end.

(** [request] up to its wait loop; a payload over the capacity fails the assertion. *)
Definition request (x : sys) (r : Request) : option sys :=
  match cl x with
  | Idle q _ =>
      if (length (payload r) <=? cap_req) then
        Some (mkSys (mem x) (Waiting (next_seq q) r) (cbuf x ++ request_stores (next_seq q) r) (last_seen x)
                (pl x) (workers x) r (published x) (taken x) (answered x))
      else None
  | _ => None
  end.

(** [release_channel] (and giving up in [claim_channel]) ends with the release of
    the lock, a system call that drains the store buffer. *)
Definition release_channel (x : sys) : option sys :=
  match cl x with
  | Idle _ _ | Adopting _ => Some (set_client (Nat.iter (length (cbuf x)) flush_one x) Away)
  | _ => None
  end.

Definition step (x : sys) (e : event) : option sys :=
  match e with
  | EClaim => claim_channel x
  | EAdopt => adopt_seq x
  | ERequest r => request x r
  | ECFlush => match cbuf x with [] => None | _ => Some (flush_one x) end
  | EPoll => poll x
  | ETimeout => match cl x with Waiting s _ => Some (set_client x (Idle s false)) | _ => None end
  | ERelease => release_channel x
  | ECrash k =>
      match cl x with
      | Away => None
      | _ => Some (set_client (drop_buffer (Nat.iter (Nat.min k (length (cbuf x))) flush_one x)) Away)
      end
  | EServe => Some (serve x)
  | EWork i =>
      match workers x !! i with
      | Some (Job s r) => Some (set_workers x (<[i := Replying (reply_stores s (handle r))]> (workers x)))
      | _ => None
      end
  | EWFlush i =>
      match workers x !! i with
      | Some (Replying (w :: buf)) =>
          Some (set_workers (set_mem x (commit (mem x) w))
                  (match buf with [] => delete i (workers x) | _ => <[i := Replying buf]> (workers x) end))
      | _ => None
      end
  end.

Fixpoint run (x : sys) (es : list event) : option sys :=
  match es with
  | [] => Some x
  | e :: es => step x e ≫= λ x, run x es
  end.

(** A client that gave up on a request does not use the channel for another one
    before it has released it. *)
Definition proper (x : sys) (e : event) : Prop :=
  match e with ERequest _ => ∃ q, cl x = Idle q true | _ => True end.

Inductive reach : sys → Prop :=
| reach_init : reach initial
| reach_step x e x' : reach x → proper x e → step x e = Some x' → reach x'.

(** What a client must get back. *)
Definition answer (r : Request) : Reply := mkReply (status (handle r)) (reply_data (handle r)).

(** ** The invariant *)

Definition applied (m : Mem) (ws : list store) : Prop := Forall (λ w, m w.1 = w.2) ws.

(** Where the request under way is. *)
Inductive stage :=
| Quiet | Publishing (pre : list store) | Published | Polling | Working | Answering (pre : list store).

(** What the poller holds while it takes [r], numbered [s]. *)
Definition poller_ok (s : Z) (r : Request) (p : poller) : Prop :=
  match p with
  | Watching => False
  | SawSeq s' => s' = s
  | SawOp s' op => s' = s ∧ op = opcode r
  | Copying s' op len acc => s' = s ∧ op = opcode r ∧ len = length (payload r) ∧ acc `prefix_of` payload r
  end.

(** [q] is the number of the last answered request, [s] that of [r], the one
    under way. *)
Definition stage_ok (x : sys) (q s : Z) (r : Request) (g : stage) : Prop :=
  match g with
  | Quiet => mem x ReqSeq = q ∧ last_seen x = q ∧ pl x = Watching ∧ workers x = [] ∧ cbuf x = [] ∧
      published x = taken x
  | Publishing pre => mem x ReqSeq = q ∧ last_seen x = q ∧ pl x = Watching ∧ workers x = [] ∧ cbuf x ≠ [] ∧
      published x = taken x ∧ inflight x = r ∧ request_stores s r = pre ++ cbuf x ∧ applied (mem x) pre
  | Published => mem x ReqSeq = s ∧ last_seen x = q ∧ pl x = Watching ∧ workers x = [] ∧ cbuf x = [] ∧
      published x = taken x ++ [r] ∧ applied (mem x) (request_stores s r)
  | Polling => mem x ReqSeq = s ∧ last_seen x = s ∧ poller_ok s r (pl x) ∧ workers x = [] ∧ cbuf x = [] ∧
      published x = taken x ++ [r] ∧ applied (mem x) (request_stores s r)
  | Working => mem x ReqSeq = s ∧ last_seen x = s ∧ pl x = Watching ∧ workers x = [Job s r] ∧ cbuf x = [] ∧
      published x = taken x
  | Answering pre => mem x ReqSeq = s ∧ last_seen x = s ∧ pl x = Watching ∧ cbuf x = [] ∧ published x = taken x ∧
      ∃ rest, workers x = [Replying rest] ∧ rest ≠ [] ∧ reply_stores s (handle r) = pre ++ rest ∧ applied (mem x) pre
  end.

Definition engaged (m : Mem) (q s v : Z) (r r' : Request) (g : stage) : Prop :=
  match g with
  | Quiet => v = q ∧ applied m (reply_stores q (handle r'))
  | _ => v = s ∧ r' = r
  end.

Definition client_ok (x : sys) (q s : Z) (r : Request) (g : stage) : Prop :=
  match cl x with
  | Away | Adopting None => ∀ pre, g ≠ Publishing pre
  | Adopting (Some v) => v = mem x ReqSeq ∧ ∀ pre, g ≠ Publishing pre
  | Idle v true => v = q ∧ g = Quiet
  | Idle v false => match g with Quiet => v = q | _ => v = s end
  | Waiting v r' => engaged (mem x) q s v r r' g
  | GotSeq v r' => g = Quiet ∧ engaged (mem x) q s v r r' g
  | GotStatus v r' st => g = Quiet ∧ engaged (mem x) q s v r r' g ∧ st = status (handle r')
  | GotLen v r' st len acc => g = Quiet ∧ engaged (mem x) q s v r r' g ∧ st = status (handle r') ∧
      len = length (reply_data (handle r')) ∧ acc `prefix_of` reply_data (handle r')
  end.

Record inv (x : sys) (q s : Z) (r : Request) (g : stage) : Prop := {
  i_next : s = next_seq q;
  i_range : is_u 32 q;
  i_fits : length (payload r) ≤ cap_req;
  i_resp : mem x RespSeq = q;
  i_stage : stage_ok x q s r g;
  i_client : client_ok x q s r g;
  i_answered : Forall (λ p, p.2 = answer p.1) (answered x)
}.

(** ** Lemmas *)

Lemma next_seq_spec q : is_u 32 q → next_seq q ≠ q ∧ next_seq q ≠ 0%Z ∧ is_u 32 (next_seq q).
Proof.
  unfold is_u, next_seq. intros H. destruct (decide (q = 2 ^ 32 - 1)%Z) as [->|]; [done|].
  rewrite Z.mod_small by lia. destruct (Z.eqb_spec (q + 1) 0); lia.
Qed.

Lemma load_other buf m c : (∀ w, w ∈ buf → w.1 ≠ c) → load buf m c = m c.
Proof.
  intros H. unfold load. destruct (List.find _ _) as [w|] eqn:F; [|done].
  apply List.find_some in F as [Hin Hw]. apply bool_decide_eq_true in Hw. exfalso.
  apply (H w); [|done]. apply elem_of_reverse. by apply list_elem_of_In.
Qed.

Lemma commit_eq m w : commit m w w.1 = w.2.
Proof. unfold commit. by rewrite decide_True. Qed.

Lemma commit_ne m w c : w.1 ≠ c → commit m w c = m c.
Proof. intros H. unfold commit. by rewrite decide_False by congruence. Qed.

(** A buffer committed in order: the stores done so far stay visible. *)
Lemma applied_commit m pre w rest :
  NoDup ((pre ++ w :: rest).*1) → applied m pre → applied (commit m w) (pre ++ [w]).
Proof.
  intros Hnd Ha. rewrite fmap_app, fmap_cons in Hnd. apply NoDup_app in Hnd as (_ & Hd & _).
  apply Forall_app. split; [|by constructor; [apply commit_eq|]].
  apply Forall_forall. intros w' Hw'. rewrite commit_ne; [by eapply Forall_forall in Ha|].
  intros E. apply (Hd w'.1); [by apply list_elem_of_fmap_2|]. rewrite E. by left.
Qed.

Lemma cells_imap (f : nat → cell) (bs : list Z) : (imap (λ i b, (f i, b)) bs).*1 = f <$> seq 0 (length bs).
Proof.
  rewrite fmap_imap. apply list_eq. intros i. rewrite list_lookup_imap, list_lookup_fmap.
  destruct (bs !! i) as [b|] eqn:E; simpl.
  - rewrite lookup_seq_lt by (by eapply lookup_lt_Some). done.
  - apply lookup_ge_None in E. by rewrite lookup_seq_ge.
Qed.

Lemma request_cells s r : NoDup ((request_stores s r).*1).
Proof.
  unfold request_stores. rewrite fmap_app, cells_imap. simpl. apply NoDup_app. split_and!.
  - apply NoDup_fmap_2; [by intros ?? [=]|apply NoDup_seq].
  - intros c (i & -> & _)%list_elem_of_fmap. set_solver.
  - repeat constructor; set_solver.
Qed.

Lemma reply_cells s a : NoDup ((reply_stores s a).*1).
Proof.
  unfold reply_stores. rewrite fmap_app, cells_imap. simpl. apply NoDup_app. split_and!.
  - apply NoDup_fmap_2; [by intros ?? [=]|apply NoDup_seq].
  - intros c (i & -> & _)%list_elem_of_fmap. set_solver.
  - repeat constructor; set_solver.
Qed.

(** What a reader finds behind a number. *)
Lemma request_read m s r :
  applied m (request_stores s r) → length (payload r) ≤ cap_req →
  m ReqOp = opcode r ∧ clamp (m ReqLen) cap_req = length (payload r) ∧
  ∀ i b, payload r !! i = Some b → m (ReqByte i) = b.
Proof.
  unfold request_stores. intros [H1 H2]%Forall_app Hl. rewrite !Forall_cons in H2. simpl in H2.
  destruct H2 as (-> & E & _ & _). split_and!; [done|rewrite E; unfold clamp; lia|].
  intros i b Hi. apply (proj1 (Forall_forall _ _) H1 (ReqByte i, b)).
  apply elem_of_lookup_imap. eauto.
Qed.

Lemma reply_read m s a :
  applied m (reply_stores s a) →
  m RespSeq = s ∧ m RespStatus = status a ∧ clamp (m RespLen) cap_resp = length (reply_data a) ∧
  ∀ i b, reply_data a !! i = Some b → m (RespByte i) = b.
Proof.
  unfold reply_stores. intros [H1 H2]%Forall_app. rewrite !Forall_cons in H2. simpl in H2.
  destruct H2 as (-> & E & -> & _). split_and!; [done|done| |].
  - rewrite E. unfold clamp, reply_data. rewrite length_take. lia.
  - intros i b Hi. apply (proj1 (Forall_forall _ _) H1 (RespByte i, b)). apply elem_of_lookup_imap. eauto.
Qed.

Lemma prefix_next (acc l : list Z) b :
  acc `prefix_of` l → length acc < length l → (∀ b', l !! length acc = Some b' → b = b') → (acc ++ [b]) `prefix_of` l.
Proof.
  intros [k ->] Hlt Hb. rewrite length_app in Hlt. destruct k as [|b' k]; [simpl in Hlt; lia|].
  rewrite (Hb b') by (by rewrite lookup_app_r, Nat.sub_diag by lia). exists k. by rewrite <- (assoc_L app).
Qed.

Lemma prefix_all (acc l : list Z) : acc `prefix_of` l → ¬ length acc < length l → acc = l.
Proof. intros [k ->] H. rewrite length_app in H. destruct k; [by rewrite app_nil_r|simpl in H; lia]. Qed.

(** The number is the last store of a message. *)
Lemma last_store (ms : list store) c v pre w rest :
  ms ++ [(c, v)] = pre ++ w :: rest → NoDup ((ms ++ [(c, v)]).*1) →
  (rest = [] ∧ w = (c, v)) ∨ (rest ≠ [] ∧ w.1 ≠ c).
Proof.
  intros E Hnd. destruct rest as [|w' rest _] using rev_ind.
  - left. by apply app_inj_tail in E as [_ ->].
  - right. split; [by destruct rest|]. rewrite app_comm_cons, (assoc_L app) in E.
    apply app_inj_tail in E as [-> <-]. intros Hw. rewrite !fmap_app, fmap_cons in Hnd.
    apply NoDup_app in Hnd as (_ & Hnd & _). apply (Hnd c); [|by left].
    apply elem_of_app. right. rewrite Hw. by left.
Qed.

Lemma request_last s r pre w rest :
  request_stores s r = pre ++ w :: rest → (rest = [] ∧ w = (ReqSeq, s)) ∨ (rest ≠ [] ∧ w.1 ≠ ReqSeq).
Proof.
  intros E. pose proof (request_cells s r) as Hnd. unfold request_stores in *.
  change [(ReqOp, opcode r); (ReqLen, Z.of_nat (length (payload r))); (ReqSeq, s)]
    with ([(ReqOp, opcode r); (ReqLen, Z.of_nat (length (payload r)))] ++ [(ReqSeq, s)]) in *.
  rewrite (assoc_L app) in E, Hnd. by eapply last_store.
Qed.

Lemma reply_last s a pre w rest :
  reply_stores s a = pre ++ w :: rest → (rest = [] ∧ w = (RespSeq, s)) ∨ (rest ≠ [] ∧ w.1 ≠ RespSeq).
Proof.
  intros E. pose proof (reply_cells s a) as Hnd. unfold reply_stores in *.
  change [(RespStatus, status a); (RespLen, Z.of_nat (length (reply_data a))); (RespSeq, s)]
    with ([(RespStatus, status a); (RespLen, Z.of_nat (length (reply_data a)))] ++ [(RespSeq, s)]) in *.
  rewrite (assoc_L app) in E, Hnd. by eapply last_store.
Qed.

(** Which cells a message writes. *)
Definition is_req (c : cell) : bool :=
  match c with ReqSeq | ReqOp | ReqLen | ReqOwner | ReqByte _ => true | _ => false end.

Lemma request_stores_req s r w : w ∈ request_stores s r → is_req w.1 = true.
Proof.
  intros [(i & b & -> & _)%elem_of_lookup_imap|H]%elem_of_app; [done|].
  rewrite !elem_of_cons, elem_of_nil in H. naive_solver.
Qed.

Lemma reply_stores_resp s a w : w ∈ reply_stores s a → is_req w.1 = false.
Proof.
  intros [(i & b & -> & _)%elem_of_lookup_imap|H]%elem_of_app; [done|].
  rewrite !elem_of_cons, elem_of_nil in H. naive_solver.
Qed.

(** ** Preservation *)

(** A thread that writes cells of one kind leaves the stores of the other kind. *)
Lemma applied_other m w ws (b : bool) :
  is_req w.1 = b → (∀ w', w' ∈ ws → is_req w'.1 = negb b) → applied m ws → applied (commit m w) ws.
Proof.
  intros Hw Hws Ha. apply Forall_forall. intros w' Hin. rewrite <- (proj1 (Forall_forall _ _) Ha w' Hin). apply commit_ne. intros E.
  specialize (Hws w' Hin). rewrite <- E, Hw in Hws. by destruct b.
Qed.

(** The client's own loads, past its buffer, are loads of memory: it never
    loads what it stores. *)
Lemma client_load x q s r g c :
  inv x q s r g → is_req c = false → load (cbuf x) (mem x) c = mem x c.
Proof.
  intros I Hc. apply load_other. intros w Hw Ec. subst c. pose proof (i_stage _ _ _ _ _ I) as S.
  destruct g; simpl in S; try (destruct_and! S; match goal with H : cbuf x = [] |- _ => rewrite H in Hw end; by apply elem_of_nil in Hw).
  - destruct S as (_ & _ & _ & _ & _ & _ & _ & E & _).
    rewrite (request_stores_req s r w) in Hc; [done|]. rewrite E. apply elem_of_app. by right.
Qed.

Lemma flush_one_inv x q s r pre w buf :
  inv x q s r (Publishing pre) → cbuf x = w :: buf →
  ∃ g, inv (flush_one x) q s r g ∧ cbuf (flush_one x) = buf ∧ cl (flush_one x) = cl x.
Proof.
  intros [I1 I2 I3 I4 I5 I6 I7] Hb. simpl in I5. destruct I5 as (H1 & H2 & H3 & H4 & _ & H6 & H7 & H8 & H9).
  rewrite Hb in H8. pose proof (request_cells s r) as Hnd. rewrite H8 in Hnd.
  pose proof (applied_commit _ _ _ _ Hnd H9) as Ha.
  assert (is_req w.1 = true) as Hw by (apply (request_stores_req s r); rewrite H8; set_solver).
  assert (commit (mem x) w RespSeq = q) as Hr by (rewrite commit_ne; [done|intros E; by rewrite E in Hw]).
  unfold flush_one. rewrite Hb. destruct (request_last _ _ _ _ _ H8) as [[-> ->]|[Hne Hw1]].
  - exists Published. split_and!; [|done..]. split; simpl; try done.
    + rewrite H8. split_and!; try done. by rewrite H6, H7.
    + unfold client_ok in *. simpl. destruct (cl x) as [|[]|? []| | | |]; try done; naive_solver.
  - exists (Publishing (pre ++ [w])). split_and!; [|done..]. split; simpl; try done.
    + rewrite <- (assoc_L app). split_and!; try done; [by rewrite commit_ne|]. by rewrite decide_False.
    + unfold client_ok in *. simpl. destruct (cl x) as [|[]|? []| | | |]; try done; naive_solver.
Qed.

Lemma flush_iter_inv k x q s r g :
  inv x q s r g → k ≤ length (cbuf x) →
  ∃ g', inv (Nat.iter k flush_one x) q s r g' ∧ cbuf (Nat.iter k flush_one x) = drop k (cbuf x).
Proof.
  intros I Hk. revert Hk. induction k as [|k IH]; intros Hk; [by exists g|].
  destruct IH as (g' & I' & E); [lia|]. simpl. set (y := Nat.iter k flush_one x) in *.
  destruct (cbuf y) as [|w buf] eqn:Hb.
  { symmetry in E. apply (f_equal length) in E. rewrite length_drop in E. simpl in E. lia. }
  assert (∃ pre, g' = Publishing pre) as [pre ->].
  { pose proof (i_stage _ _ _ _ _ I') as S. destruct g'; simpl in S; destruct_and? S; eauto; congruence. }
  destruct (flush_one_inv _ _ _ _ _ _ _ I' Hb) as (g2 & I2 & Hb2 & _). exists g2. split; [done|].
  rewrite Hb2. replace (S k) with (k + 1) by lia. by rewrite <- drop_drop, <- E.
Qed.

(** Nothing the client's own state says matters once it is gone. *)
Lemma leave_inv x q s r g :
  inv x q s r g → (∀ pre, g ≠ Publishing pre) → inv (set_client x Away) q s r g.
Proof. intros [I1 I2 I3 I4 I5 I6 I7] Hg. by split. Qed.

Lemma drop_inv x q s r g :
  inv x q s r g → ∃ g', inv (set_client (drop_buffer x) Away) q s r g'.
Proof.
  intros I. destruct (decide (cbuf x = [])) as [Hb|Hb].
  - assert (drop_buffer x = x) as -> by (destruct x; simpl in *; by subst). exists g.
    apply leave_inv; [done|]. intros pre ->. pose proof (i_stage _ _ _ _ _ I) as S. simpl in S. naive_solver.
  - pose proof I as [I1 I2 I3 I4 I5 I6 I7]. exists Quiet.
    destruct g as [|pre| | | |pre]; simpl in I5; destruct_and? I5; done.
Qed.

Lemma poll_inv x q s r g x' :
  inv x q s r g → poll x = Some x' → ∃ g', inv x' q s r g'.
Proof.
  intros I. pose proof I as [I1 I2 I3 I4 I5 I6 I7]. unfold poll, client_ok in *.
  destruct (cl x) as [| | |v r'|v r'|v r' st|v r' st len acc] eqn:Ec; intros Hp; try done.
  - injection Hp as <-. rewrite (client_load _ _ _ _ _ _ I) by done. destruct (Z.eqb_spec (mem x RespSeq) v) as [Ev|]; [|by exists g].
    exists g. split; try done. unfold client_ok. simpl.
    destruct (next_seq_spec q I2). destruct g; simpl in *; naive_solver congruence.
  - injection Hp as <-. destruct I6 as [-> I6]. exists Quiet.
    rewrite (client_load _ _ _ _ _ _ I) by done.
    destruct (reply_read _ _ _ (proj2 I6)) as (_ & -> & _). by split.
  - injection Hp as <-. destruct I6 as (-> & I6 & ->). exists Quiet.
    rewrite (client_load _ _ _ _ _ _ I) by done.
    destruct (reply_read _ _ _ (proj2 I6)) as (_ & _ & -> & _). split; try done. unfold client_ok. simpl.
    split_and!; try done; [by apply I6..|]. apply prefix_nil.
  - destruct I6 as (-> & I6 & -> & -> & Hpre). exists Quiet.
    destruct (reply_read _ _ _ (proj2 I6)) as (_ & _ & _ & Hb).
    destruct (Nat.ltb_spec (length acc) (length (reply_data (handle r')))) as [Hlt|Hge]; injection Hp as <-.
    + split; try done. unfold client_ok. simpl. split_and!; try done; [by apply I6..|].
      apply prefix_next; [done|done|]. intros b' Hb'. by rewrite (client_load _ _ _ _ _ _ I), (Hb _ _ Hb').
    + rewrite (prefix_all _ _ Hpre) by lia. split; try done; simpl.
      * unfold client_ok. simpl. split; [by apply I6|done].
      * apply Forall_app. split; [done|]. by constructor.
Qed.

Lemma serve_inv x q s r g : inv x q s r g → ∃ g', inv (serve x) q s r g'.
Proof.
  intros I. pose proof I as [I1 I2 I3 I4 I5 I6 I7]. destruct (next_seq_spec q I2) as [Hsq _]. rewrite <- I1 in Hsq.
  unfold serve. destruct g as [|pre| | | |pre]; simpl in I5.
  - destruct I5 as (H1 & H2 & H3 & H4). rewrite H3, H1, H2, Z.eqb_refl. by exists Quiet.
  - destruct I5 as (H1 & H2 & H3 & H4). rewrite H3, H1, H2, Z.eqb_refl. by exists (Publishing pre).
  - destruct I5 as (H1 & H2 & H3 & H4). rewrite H3, H1, H2, (proj2 (Z.eqb_neq _ _)) by done.
    exists Polling. split; try done. unfold client_ok in *. simpl. destruct (cl x) as [|[]|? []| | | |]; try done; naive_solver.
  - destruct I5 as (H1 & H2 & H3 & H4 & H5 & H6 & H7).
    destruct (request_read _ _ _ H7 I3) as (Ro & Rl & Rb).
    destruct (pl x) as [|s'|s' op|s' op len acc] eqn:Ep; simpl in H3; [done|..].
    + exists Polling. subst s'. rewrite Ro. by split.
    + exists Polling. destruct H3 as [-> ->]. rewrite Rl. split; try done. simpl. split_and!; try done. apply prefix_nil.
    + destruct H3 as (-> & -> & -> & Hpre).
      destruct (Nat.ltb_spec (length acc) (length (payload r))) as [Hlt|Hge].
      * exists Polling. split; try done. simpl. split_and!; try done. apply prefix_next; [done|done|].
        intros b' Hb'. by rewrite (Rb _ _ Hb').
      * rewrite (prefix_all _ _ Hpre) by lia. replace (mkRequest (opcode r) (payload r)) with r by (by destruct r).
        exists Working. split; try done; simpl.
        -- by rewrite H4.
        -- unfold client_ok in *. simpl. destruct (cl x) as [|[]|? []| | | |]; try done; naive_solver.
  - destruct I5 as (H1 & H2 & H3 & H4). rewrite H3, H1, H2, Z.eqb_refl. by exists Working.
  - destruct I5 as (H1 & H2 & H3 & H4). rewrite H3, H1, H2, Z.eqb_refl. by exists (Answering pre).
Qed.

(** A reply reaches memory store by store; its number ends the exchange. *)
Lemma wflush_inv x q s r pre w buf :
  inv x q s r (Answering pre) → workers x = [Replying (w :: buf)] →
  match buf with
  | [] => inv (set_workers (set_mem x (commit (mem x) w)) []) s (next_seq s) r Quiet
  | _ => inv (set_workers (set_mem x (commit (mem x) w)) [Replying buf]) q s r (Answering (pre ++ [w]))
  end.
Proof.
  intros [I1 I2 I3 I4 I5 I6 I7] Hw. simpl in I5.
  destruct I5 as (H1 & H2 & H3 & H4 & H5 & rest & H6 & _ & H8 & H9). rewrite Hw in H6. injection H6 as <-.
  pose proof (reply_cells s (handle r)) as Hnd. rewrite H8 in Hnd. pose proof (applied_commit _ _ _ _ Hnd H9) as Ha.
  assert (is_req w.1 = false) as Hreq by (apply (reply_stores_resp s (handle r)); rewrite H8; set_solver).
  assert (commit (mem x) w ReqSeq = s) as Hq by (rewrite commit_ne; [done|intros E; by rewrite E in Hreq]).
  destruct (reply_last _ _ _ _ _ H8) as [[-> ->]|[Hne Hw1]].
  - assert (applied (commit (mem x) (RespSeq, s)) (reply_stores s (handle r))) as Ha' by (rewrite H8; exact Ha).
    split; try done; simpl; [rewrite I1; by apply next_seq_spec|].
    unfold client_ok in *. simpl. destruct (cl x) as [|[]|? []| | | |]; simpl in *; try done; naive_solver.
  - destruct buf as [|w' buf]; [done|]. split; try done; simpl; [by rewrite commit_ne| |].
    + split_and!; try done. exists (w' :: buf). rewrite <- (assoc_L app). split_and!; try done.
    + unfold client_ok in *. simpl. destruct (cl x) as [|[]|? []| | | |]; simpl in *; try done; [|naive_solver..].
      split; [|done]. rewrite Hq, <- H1. apply I6.
Qed.

Lemma no_publish x q s r g : inv x q s r g → cbuf x = [] → ∀ pre, g ≠ Publishing pre.
Proof. intros [_ _ _ _ S _ _] Hb pre ->. simpl in S. naive_solver. Qed.

(** A step of the channel or of its owner outside an exchange. *)
Lemma client_step_inv x q s r g e x' :
  inv x q s r g → proper x e → step x e = Some x' →
  match e with EClaim | EAdopt | ERequest _ | ETimeout | ERelease | ECrash _ => True | _ => False end →
  ∃ r' g', inv x' q s r' g'.
Proof.
  intros I Hp Hs He. pose proof I as [I1 I2 I3 I4 I5 I6 I7]. unfold client_ok in I6.
  destruct e; try done; simpl in Hs; unfold claim_channel, adopt_seq, request, release_channel in Hs.
  - destruct (cl x) eqn:Ec; try discriminate Hs; injection Hs as <-. exists r, g. by split.
  - destruct (cl x) as [|[v|]| | | | |] eqn:Ec; try discriminate Hs; injection Hs as <-; exists r, g.
    + rewrite (client_load _ _ _ _ _ _ I) by done. destruct I6 as [-> Hg]. split; try done. unfold client_ok.
      destruct (Z.eqb_spec (mem x RespSeq) (mem x ReqSeq)) as [E|]; [|done]. simpl.
      destruct (next_seq_spec q I2). destruct g; simpl in I5; naive_solver congruence.
    + split; try done. unfold client_ok. simpl. split; [|done].
      assert (cbuf x = []) as -> by (destruct g; simpl in I5; naive_solver). done.
  - destruct Hp as [v Hv]. rewrite Hv in Hs, I6. destruct I6 as [-> ->]. case_match eqn:Hl; [|done]. injection Hs as <-.
    apply Nat.leb_le in Hl. rename r0 into r1. exists r1, (Publishing []). destruct I5 as (H1 & H2 & H3 & H4 & H5 & H6).
    split; try done; simpl. rewrite H5. split_and!; try done; [|by rewrite I1|by apply Forall_nil].
    unfold request_stores. by destruct (imap _ _).
  - destruct (cl x) eqn:Ec; try discriminate Hs; injection Hs as <-. exists r, g. split; try done. unfold client_ok. simpl. destruct g; simpl in *; naive_solver.
  - destruct (flush_iter_inv (length (cbuf x)) x q s r g I (le_n _)) as (g' & I' & Hb). rewrite drop_all in Hb.
    assert (x' = set_client (Nat.iter (length (cbuf x)) flush_one x) Away) as -> by (destruct (cl x); congruence).
    exists r, g'. apply leave_inv; [done|]. by eapply no_publish.
  - destruct (flush_iter_inv (Nat.min k (length (cbuf x))) x q s r g I ltac:(lia)) as (g' & I' & _).
    assert (x' = set_client (drop_buffer (Nat.iter (Nat.min k (length (cbuf x))) flush_one x)) Away) as -> by (destruct (cl x); congruence).
    exists r. by apply drop_inv in I'.
Qed.

Lemma step_inv x q s r g e x' :
  inv x q s r g → proper x e → step x e = Some x' → ∃ q' s' r' g', inv x' q' s' r' g'.
Proof.
  intros I Hp Hs. destruct e as [| |r0| | | | |k| |i|i];
    try (by destruct (client_step_inv _ _ _ _ _ _ _ I Hp Hs Logic.I) as (r' & g' & I'); exists q, s, r', g'); simpl in Hs.
  - destruct (cbuf x) as [|w buf] eqn:Hb; [done|]. injection Hs as <-.
    destruct (flush_iter_inv 1 x q s r g I) as (g' & I' & _); [rewrite Hb; simpl; lia|]. by exists q, s, r, g'.
  - destruct (poll_inv _ _ _ _ _ _ I Hs) as [g' I']. by exists q, s, r, g'.
  - injection Hs as <-. destruct (serve_inv _ _ _ _ _ I) as [g' I']. by exists q, s, r, g'.
  - pose proof I as [I1 I2 I3 I4 I5 I6 I7]. destruct g as [|pre| | | |pre]; simpl in I5; destruct_and? I5;
      try (match goal with H : workers x = [] |- _ => rewrite H in Hs; by rewrite lookup_nil in Hs end).
    + match goal with H : workers x = _ |- _ => rewrite H in Hs; rename H into Hw end.
      destruct i as [|i]; [|done]. injection Hs as <-. exists q, s, r, (Answering []). split; try done; simpl.
      * split_and!; try done. eexists. split_and!; [done| |done|by apply Forall_nil].
        unfold reply_stores. by destruct (imap _ _).
      * unfold client_ok in *. simpl. destruct (cl x) as [|[]|? []| | | |]; simpl in *; try done; naive_solver.
    + match goal with H : ∃ rest, _ |- _ => destruct H as (rest & Hw & _) end. rewrite Hw in Hs. by destruct i.
  - pose proof (i_stage _ _ _ _ _ I) as S. destruct g as [|pre| | | |pre]; simpl in S;
      try (destruct_and! S; match goal with H : workers x = [] |- _ => rewrite H in Hs; by rewrite lookup_nil in Hs end).
    + destruct S as (_ & _ & _ & Hw & _). rewrite Hw in Hs. by destruct i.
    + destruct S as (_ & _ & _ & _ & _ & rest & Hw & Hne & _). rewrite Hw in Hs.
      destruct i as [|i]; [|done]. destruct rest as [|w buf]; [done|]. simpl in Hs. injection Hs as <-.
      pose proof (wflush_inv _ _ _ _ _ _ _ I Hw) as I'. destruct buf; simpl; eauto.
Qed.

Lemma inv_init : inv initial 0 1 (mkRequest 0 []) Quiet.
Proof. split; try done; simpl; lia. Qed.

Lemma reach_inv x : reach x → ∃ q s r g, inv x q s r g.
Proof.
  induction 1 as [|x e x' _ (q & s & r & g & I) Hp Hs]; [|by eapply step_inv].
  exists 0%Z, 1%Z, (mkRequest 0 []), Quiet. apply inv_init.
Qed.

(** ** Progress *)

(** The events that carry an exchange forward. *)
Definition internal (e : event) : bool :=
  match e with ECFlush | EPoll | EServe | EWork _ | EWFlush _ => true | _ => false end.

(** The request the client is inside. *)
Definition asking (x : sys) : option Request :=
  match cl x with
  | Waiting _ r | GotSeq _ r | GotStatus _ r _ | GotLen _ r _ _ _ => Some r
  | _ => None
  end.

Definition reply_cost (r : Request) : nat := length (reply_stores 0 (handle r)).

(** How many steps the exchange still takes. *)
Definition server_todo (x : sys) : nat :=
  match cl x with
  | Waiting s r =>
      match workers x with
      | Replying buf :: _ => length buf
      | Job _ _ :: _ => 1 + reply_cost r
      | [] =>
          match pl x with
          | Watching => if (last_seen x =? s)%Z then 0 else 5 + length (payload r) + reply_cost r
          | SawSeq _ => 4 + length (payload r) + reply_cost r
          | SawOp _ _ => 3 + length (payload r) + reply_cost r
          | Copying _ _ len acc => 2 + (len - length acc) + reply_cost r
          end
      end
  | _ => 0
  end.

Definition client_todo (x : sys) : nat :=
  match cl x with
  | Waiting _ r => 4 + length (reply_data (handle r))
  | GotSeq _ r => 3 + length (reply_data (handle r))
  | GotStatus _ r _ => 2 + length (reply_data (handle r))
  | GotLen _ _ _ len acc => 1 + (len - length acc)
  | _ => 0
  end.

Definition todo (x : sys) : nat := length (cbuf x) + server_todo x + client_todo x.

Definition answered_with (x x' : sys) (r : Request) : Prop :=
  (∃ s, cl x' = Idle s true) ∧ answered x' = answered x ++ [(r, answer r)].

(** What an internal step does while [r] is asked. *)
Definition advances (x x' : sys) (r : Request) : Prop :=
  x' = x ∨ (todo x' < todo x ∧ (asking x' = Some r ∨ answered_with x x' r)).

Lemma flush_advances x r w buf :
  cbuf x = w :: buf → asking x = Some r → todo (flush_one x) < todo x ∧ asking (flush_one x) = Some r.
Proof. intros Hb Ha. unfold todo, server_todo, client_todo, asking, flush_one in *. rewrite Hb. simpl. split; [lia|done]. Qed.

Lemma poll_advances x q s r g x' r0 :
  inv x q s r g → asking x = Some r0 → poll x = Some x' → advances x x' r0.
Proof.
  intros I Ha Hp. destruct (poll_inv _ _ _ _ _ _ I Hp) as [g' I']. pose proof (i_answered _ _ _ _ _ I') as Han.
  pose proof (i_client _ _ _ _ _ I) as Hc. unfold client_ok in Hc. unfold poll, asking in *.
  unfold advances, todo, server_todo, client_todo, asking.
  destruct (cl x) as [| | |v r'|v r'|v r' st|v r' st len acc] eqn:Ec; try done; injection Ha as ->.
  - injection Hp as <-. case_match; [|by left]. right. simpl. split; [lia|by left].
  - injection Hp as <-. right. simpl. split; [lia|by left].
  - injection Hp as <-. right. simpl. destruct Hc as (-> & Hq & ->).
    rewrite (client_load _ _ _ _ _ _ I) by done. destruct (reply_read _ _ _ (proj2 Hq)) as (_ & _ & -> & _).
    split; [lia|by left].
  - destruct (Nat.ltb_spec (length acc) len); injection Hp as <-; right; simpl.
    + rewrite length_app. simpl. split; [lia|by left].
    + split; [lia|]. right. split; [by eexists|]. simpl in *. apply Forall_app in Han as [_ Han].
      apply Forall_inv in Han. simpl in Han. by rewrite Han.
Qed.

Lemma serve_advances x q s r g r0 :
  inv x q s r g → asking x = Some r0 → advances x (serve x) r0.
Proof.
  intros I Ha. pose proof I as [I1 I2 I3 I4 I5 I6 I7]. destruct (next_seq_spec q I2) as [Hsq _]. rewrite <- I1 in Hsq.
  unfold serve. destruct g as [|pre| | | |pre]; simpl in I5;
    try (destruct I5 as (H1 & H2 & H3 & H4); rewrite H3, H1, H2, Z.eqb_refl; by left).
  - destruct I5 as (H1 & H2 & H3 & H4 & _). rewrite H3, H1, H2, (proj2 (Z.eqb_neq _ _)) by done. right.
    unfold client_ok, asking, todo, server_todo, client_todo in *. simpl. rewrite H3, H4.
    destruct (cl x); try done; simpl in I6; try (by destruct I6). destruct I6 as [-> ->].
    rewrite H2, (proj2 (Z.eqb_neq _ _)) by done. split; [lia|by left].
  - destruct I5 as (H1 & H2 & H3 & H4 & H5 & H6 & H7). destruct (request_read _ _ _ H7 I3) as (_ & Rl & _).
    right. unfold client_ok, asking, todo, server_todo, client_todo in *.
    destruct (cl x) eqn:Ec; try done; simpl in I6; try (by destruct I6). destruct I6 as [-> ->]. simpl. rewrite H4.
    destruct (pl x) as [|s'|s' op|s' op len acc] eqn:Ep; simpl in H3; [done|..].
    + simpl. rewrite ?H4, ?Ec. split; [lia|by left].
    + simpl. rewrite ?H4, ?Ec, Rl. simpl. split; [lia|by left].
    + case_match eqn:El; simpl; rewrite ?H4, ?Ec, ?length_app; simpl; [apply Nat.ltb_lt in El|]; (split; [lia|by left]).
Qed.

Lemma work_advances x q s r g r0 i x' :
  inv x q s r g → asking x = Some r0 → step x (EWork i) = Some x' → advances x x' r0.
Proof.
  intros [I1 I2 I3 I4 I5 I6 I7] Ha Hs. simpl in Hs. right.
  destruct g as [|pre| | | |pre]; simpl in I5; destruct_and? I5;
    try (match goal with H : workers x = [] |- _ => rewrite H in Hs; by rewrite lookup_nil in Hs end).
  - match goal with H : workers x = _ |- _ => rewrite H in Hs; rename H into Hw end.
    destruct i as [|i]; [|done]. injection Hs as <-. unfold client_ok, asking, todo, server_todo, client_todo in *. simpl.
    destruct (cl x); try done; simpl in I6; try (by destruct I6). destruct I6 as [-> ->]. rewrite Hw.
    split; [|by left]. unfold reply_cost, reply_stores. rewrite !length_app. simpl. lia.
  - match goal with H : ∃ rest, _ |- _ => destruct H as (rest & Hw & _) end. rewrite Hw in Hs. by destruct i.
Qed.

Lemma wflush_advances x q s r g r0 i x' :
  inv x q s r g → asking x = Some r0 → step x (EWFlush i) = Some x' → advances x x' r0.
Proof.
  intros [I1 I2 I3 I4 I5 I6 I7] Ha Hs. simpl in Hs. right.
  destruct g as [|pre| | | |pre]; simpl in I5; destruct_and? I5;
    try (match goal with H : workers x = [] |- _ => rewrite H in Hs; by rewrite lookup_nil in Hs end).
  - match goal with H : workers x = _ |- _ => rewrite H in Hs end. by destruct i.
  - match goal with H : ∃ rest, _ |- _ => destruct H as (rest & Hw & Hne & _) end. rewrite Hw in Hs.
    destruct i as [|i]; [|done]. destruct rest as [|w buf]; [done|]. simpl in Hs. injection Hs as <-.
    unfold client_ok, asking, todo, server_todo, client_todo in *. simpl.
    destruct (cl x); try done; simpl in I6; try (by destruct I6). destruct I6 as [-> ->]. rewrite Hw. simpl.
    destruct buf; simpl; [|split; [lia|by left]].
    match goal with H : pl x = _ |- _ => rewrite H end. match goal with H : last_seen x = _ |- _ => rewrite H, Z.eqb_refl end.
    split; [lia|by left].
Qed.

(** Some thread can always move the exchange. *)
Lemma enabled x q s r g r0 :
  inv x q s r g → asking x = Some r0 → ∃ e x', internal e = true ∧ step x e = Some x' ∧ x' ≠ x.
Proof.
  intros I Ha. pose proof I as [I1 I2 I3 I4 I5 I6 I7]. destruct (next_seq_spec q I2) as [Hsq _]. rewrite <- I1 in Hsq.
  destruct g as [|pre| | | |pre]; simpl in I5.
  - unfold asking, client_ok in *. exists EPoll. simpl. unfold poll.
    destruct (cl x) as [| | |v r'|v r'|v r' st|v r' st len acc] eqn:Ec; try done.
    + destruct I6 as [-> _]. rewrite (client_load _ _ _ _ _ _ I), I4, Z.eqb_refl by done.
      eexists. split_and!; [done..|]. intros E. apply (f_equal cl) in E. by rewrite Ec in E.
    + eexists. split_and!; [done..|]. intros E. apply (f_equal cl) in E. by rewrite Ec in E.
    + eexists. split_and!; [done..|]. intros E. apply (f_equal cl) in E. by rewrite Ec in E.
    + case_match; eexists; (split_and!; [done..|]); intros E; apply (f_equal cl) in E; rewrite Ec in E; [|done].
      injection E as E. apply (f_equal length) in E. rewrite length_app in E. simpl in E. lia.
  - destruct (cbuf x) as [|w buf] eqn:Hb; [naive_solver|]. exists ECFlush, (flush_one x). simpl. rewrite Hb.
    split_and!; [done..|]. intros E. apply (f_equal (length ∘ cbuf)) in E. simpl in E. unfold flush_one in E.
    rewrite Hb in E. simpl in E. lia.
  - destruct I5 as (H1 & H2 & H3 & _). exists EServe, (serve x). split_and!; [done..|]. intros E.
    apply (f_equal last_seen) in E. unfold serve in E. rewrite H3, H1, H2, (proj2 (Z.eqb_neq _ _)) in E by done.
    simpl in E. congruence.
  - destruct I5 as (_ & _ & H3 & _). exists EServe, (serve x). split_and!; [done..|]. intros E.
    apply (f_equal pl) in E. unfold serve in E. destruct (pl x) as [|s'|s' op|s' op len acc] eqn:Ep; [done..|].
    case_match; [|done]. simpl in E. injection E as E. apply (f_equal length) in E. rewrite length_app in E. simpl in E. lia.
  - destruct I5 as (_ & _ & _ & Hw & _). exists (EWork 0). simpl. rewrite Hw. eexists. split_and!; [done..|].
    intros E. apply (f_equal workers) in E. by rewrite Hw in E.
  - destruct I5 as (_ & _ & _ & _ & _ & rest & Hw & Hne & _). destruct rest as [|w buf]; [done|].
    exists (EWFlush 0). simpl. rewrite Hw. eexists. split_and!; [done..|]. intros E. apply (f_equal workers) in E.
    rewrite Hw in E. simpl in E. destruct buf; simpl in E; [done|]. injection E as _ E.
    apply (f_equal length) in E. simpl in E. lia.
Qed.

(** ** Properties *)

(** C17. Every client gets the answer to its own request, provided that a client
    that gave up on a request releases the channel before it makes another
    ([late_reply_misdelivered] is what happens otherwise). Whatever the order in
    which the client, the poller and the workers run and their buffered stores
    reach memory, and however often clients crash (in the middle of publishing
    included), give up, release the channel and are taken over: what [request]
    returns is the server's answer to exactly the request that was made, complete;
    the server takes every published request once and in order, and at most one
    published request is waiting to be taken; at most one worker is active. *)
Theorem mailbox_exchange x :
  reach x →
  (∀ r a, (r, a) ∈ answered x → a = answer r) ∧
  taken x `prefix_of` published x ∧ length (published x) ≤ S (length (taken x)) ∧ length (workers x) ≤ 1.
Proof.
  intros (q & s & r & g & [_ _ _ _ S _ A])%reach_inv. split.
  { intros r' a Hin. by apply (proj1 (Forall_forall _ _) A _ Hin). }
  destruct g; simpl in S; destruct_and? S;
    repeat match goal with H : ∃ rest, _ |- _ => destruct H as (rest & ? & _) end;
    repeat match goal with H : published x = _ |- _ => rewrite H | H : workers x = _ |- _ => rewrite H end;
    rewrite ?length_app; simpl; (split_and!; [|lia..]); by apply prefix_app_r || done.
Qed.

(** C31. No exchange gets stuck, under the same condition. While a client is inside [request], some thread
    can take a step that brings the exchange closer to its end; no step of any
    thread takes it further away, so that after at most [todo] effective steps,
    however they are scheduled, the client has its answer. *)
Theorem mailbox_progress x r :
  reach x → asking x = Some r →
  (∃ e x', internal e = true ∧ step x e = Some x' ∧ todo x' < todo x) ∧
  (∀ e x', internal e = true → step x e = Some x' →
     x' = x ∨ (todo x' < todo x ∧ (asking x' = Some r ∨ answered_with x x' r))).
Proof.
  intros (q & s & r' & g & I)%reach_inv Ha.
  assert (∀ e x', internal e = true → step x e = Some x' → advances x x' r) as Hadv.
  { intros e x' He Hs. destruct e; try done; simpl in Hs.
    - destruct (cbuf x) as [|w buf] eqn:Hb; [done|]. injection Hs as <-.
      destruct (flush_advances x r w buf Hb Ha). right. auto.
    - by eapply poll_advances.
    - injection Hs as <-. by eapply serve_advances.
    - by eapply work_advances.
    - by eapply wflush_advances. }
  split; [|exact Hadv]. destruct (enabled _ _ _ _ _ _ I Ha) as (e & x' & He & Hs & Hne). exists e, x'.
  split_and!; [done..|]. by destruct (Hadv e x' He Hs) as [->|[? _]].
Qed.

End protocol.

(** ** Concrete channels *)

(** A server that sends back what it gets. *)
Definition echo (r : Request) : Reply := mkReply 0 (payload r).

Definition req1 : Request := mkRequest 7 [1%Z].
Definition req2 : Request := mkRequest 7 [2%Z].

Definition ask (r : Request) : list event :=
  ERequest r :: replicate (3 + length (payload r)) ECFlush ++ replicate (4 + length (payload r)) EServe.

(** A channel must not be used again after a request timed out. If the
    client does not release it, the late reply to the first request can overwrite
    the reply to the second: here [request] returns the first request's bytes as
    the answer to the second. *)
Theorem late_reply_misdelivered :
  ∃ x, run 64 64 echo initial
    ([EClaim; EAdopt; EAdopt] ++ ask req1 ++ [ETimeout] ++ ask req2 ++ [EWork 1] ++ replicate 4 (EWFlush 1) ++
     [EWork 0; EWFlush 0] ++ replicate 5 EPoll) = Some x ∧
    answered x = [(req2, mkReply 0 [1%Z])] ∧ answer 64 echo req2 = mkReply 0 [2%Z].
Proof.
  match goal with |- ∃ x, ?c = _ ∧ _ =>
    assert (answered <$> c = Some [(req2, mkReply 0 [1%Z])]) as E by (vm_compute; reflexivity); revert E; generalize c end.
  intros [x|] [= E]. exists x. split_and!; [done|done|reflexivity].
Qed.

Lemma run_reach cap_req cap_resp handle x x' es :
  reach cap_req cap_resp handle x → run cap_req cap_resp handle x es = Some x' →
  Forall (λ e, ∀ y, proper y e) es → reach cap_req cap_resp handle x'.
Proof.
  revert x. induction es as [|e es IH]; simpl; intros x Hr Hs Hp; [by injection Hs as <-|].
  destruct (step _ _ _ x e) as [y|] eqn:E; [|done]. apply Forall_cons in Hp as [Hp Hps].
  apply (IH y); [|done|done]. by eapply reach_step.
Qed.

Definition claimed : sys := default initial (run 64 64 echo initial [EClaim; EAdopt; EAdopt]).
Definition asked : sys := default initial (step 64 64 echo claimed (ERequest req1)).
Definition served : sys :=
  default initial (run 64 64 echo asked
    (replicate 4 ECFlush ++ replicate 5 EServe ++ [EWork 0] ++ replicate 4 (EWFlush 0) ++ replicate 5 EPoll)).

Lemma asked_reach : reach 64 64 echo asked.
Proof.
  apply (reach_step 64 64 echo claimed (ERequest req1)); [|by eexists|reflexivity].
  apply (run_reach 64 64 echo initial claimed [EClaim; EAdopt; EAdopt]); [constructor|reflexivity|].
  by repeat constructor.
Qed.

Lemma served_reach : reach 64 64 echo served.
Proof.
  apply (run_reach 64 64 echo asked served (replicate 4 ECFlush ++ replicate 5 EServe ++ [EWork 0] ++
    replicate 4 (EWFlush 0) ++ replicate 5 EPoll)); [apply asked_reach| |by repeat constructor].
  unfold served.
  match goal with |- ?c = _ => assert (match c with Some _ => true | None => false end = true) as E by (vm_compute; reflexivity);
    revert E; generalize c end.
  by intros [x|].
Qed.

Lemma mailbox_exchange_witness :
  answered served = [(req1, mkReply 0 [1%Z])] ∧ mkReply 0 [1%Z] = answer 64 echo req1.
Proof.
  assert (answered served = [(req1, mkReply 0 [1%Z])]) as E by (vm_compute; reflexivity). split; [exact E|].
  apply (proj1 (mailbox_exchange 64 64 echo served served_reach) req1). rewrite E. by left.
Defined.

Lemma mailbox_progress_witness :
  ∃ e x', internal e = true ∧ step 64 64 echo asked e = Some x' ∧ todo 64 echo x' < todo 64 echo asked.
Proof. exact (proj1 (mailbox_progress 64 64 echo asked req1 asked_reach eq_refl)). Defined.

End Mailbox.
