(* ===== verification/Wire.v ===== *)
(** The control protocol of the shared-memory front end, server side: the reader
    and writer of [lib/shmq-dispatcher/src/wire.rs] and the request decoders of
    [translate.rs]. A decoder is a function on the reader that may fail with an
    [OpError] or panic; [types] and [parses] are its two specifications, what it
    returns on any payload and that it inverts an encoding, and both compose. *)

From S2P Require Import Prelude Bytes.

Module Wire.
Local Open Scope Z_scope.

Definition CHUNK_SCRATCH : Z := u64_max.
Definition CHUNK_ABSENT : Z := u64_max - 1.
Definition UNPIN_ALL : Z := u32_max.

Inductive WireError := LengthOverflow | Truncated.

(** [OpError]; of a message only what it is about is kept. *)
Inductive OpError :=
| WireErr (e : WireError)
| DuplicateKey (key : Z)
| HandleOutOfRange (idx : Z)
| NoLayers
| NoBlocksPerKey
| OffsetOverflows (block_id : Z)
| PeerNotUtf8
| UnknownOpcode (opcode : Z)
| CallFailed.

(** * The reader *)

Record Reader := mkReader { buf : list Z; pos : nat }.

Definition reader_new (b : list Z) : Reader := mkReader b 0.

(** What a decoder does to the reader. *)
Definition D (A : Type) : Type := Reader → outcome (result (A * Reader) OpError).

#[global] Instance D_ret : MRet D := λ A x r, Ret (Ok (x, r)).
#[global] Instance D_bind : MBind D := λ A B f m r,
  match m r with
  | Ret (Ok (x, r')) => f x r'
  | Ret (Err e) => Ret (Err e)
  | Panic => Panic
  end.

Definition fail {A} (e : OpError) : D A := λ r, Ret (Err e).

(** Arithmetic that may panic. *)
Definition lift {A} (c : outcome A) : D A := λ r, x ← c; Ret (Ok (x, r)).

Definition take_n (n : nat) : D (list Z) := λ r,
  let end_ := (pos r + n)%nat in
  if 2 ^ 64 <=? Z.of_nat end_ then Ret (Err (WireErr LengthOverflow))
  else if (length (buf r) <? end_)%nat then Ret (Err (WireErr Truncated))
  else Ret (Ok (take n (drop (pos r) (buf r)), mkReader (buf r) end_)).

Definition u8 : D Z := b ← take_n 1; mret (from_le_bytes b).
Definition u16 : D Z := b ← take_n 2; mret (from_le_bytes b).
Definition u32 : D Z := b ← take_n 4; mret (from_le_bytes b).
Definition as_i32 (x : Z) : Z := if x <? 2 ^ 31 then x else x - 2 ^ 32.
Definition i32 : D Z := x ← u32; mret (as_i32 x).
Definition u64 : D Z := b ← take_n 8; mret (from_le_bytes b).
Definition bytes (n : nat) : D (list Z) := take_n n.
Definition handle : D (list Z) := take_n 64.

(** * The writer *)

Definition w_u8 (out : list Z) (v : Z) : list Z := out ++ [v].
Definition w_u32 (out : list Z) (v : Z) : list Z := out ++ to_le_bytes 4 v.
Definition w_u64 (out : list Z) (v : Z) : list Z := out ++ to_le_bytes 8 v.

(** The response of [op_take_events]. *)
Definition encode_events (events : list (Z * Z)) (dropped : Z) : list Z :=
  let w := w_u32 [] (Z.of_nat (length events) mod 2 ^ 32) in
  let w := foldl (λ w ev, w_u32 (w_u64 w ev.1) ev.2) w events in
  w_u64 w dropped.

(** * Request decoders *)

(** [for _ in 0..n { v.push(m?) }]. *)
Fixpoint read_n {A} (n : nat) (m : D A) : D (list A) :=
  match n with
  | O => mret []
  | S n => x ← m; xs ← read_n n m; mret (x :: xs)
  end.

Definition read_keys : D (list Z) := n ← u32; read_n (Z.to_nat n) u64.

Fixpoint check_duplicates (seen : gset Z) (keys : list Z) : option OpError :=
  match keys with
  | [] => None
  | k :: keys => if decide (k ∈ seen) then Some (DuplicateKey k) else check_duplicates ({[k]} ∪ seen) keys
  end.

Definition check_duplicate_keys (keys : list Z) : D unit :=
  match check_duplicates ∅ keys with Some e => fail e | None => mret () end.

(** A 64-byte CUDA handle and its device; a reference to one of them with an
    offset and a size. *)
Abbreviation TableHandle := (list Z * Z)%type.
Abbreviation RegionRef := (Z * Z * Z)%type.
Abbreviation BatchEntry := (Z * list RegionRef)%type.

Record HandleBatch := mkBatch { handles : list TableHandle; entries : list BatchEntry }.

Definition table_handle : D TableHandle := h ← handle; dev ← i32; mret (h, dev).

Definition read_handles : D (list TableHandle) := n ← u32; read_n (Z.to_nat n) table_handle.

Definition region_ref (n_handles : Z) : D RegionRef :=
  idx ← u32; offset ← u64; size ← u32;
  if n_handles <=? idx then fail (HandleOutOfRange idx) else mret (idx, offset, size).

Definition batch_entry (n_handles : Z) : D BatchEntry :=
  key ← u64; nreg ← u16; regions ← read_n (Z.to_nat nreg) (region_ref n_handles); mret (key, regions).

Definition decode_handle_batch : D HandleBatch :=
  hs ← read_handles;
  n_entries ← u32;
  es ← read_n (Z.to_nat n_entries) (batch_entry (Z.of_nat (length hs)));
  mret (mkBatch hs es).

(** Handle index, base, stride and size of a layer. *)
Record Layer := mkLayer { l_idx : Z; base_delta : Z; stride : Z; l_size : Z }.

Definition layer (n_handles : Z) : D Layer :=
  idx ← u32; base ← u64; st ← u64; size ← u32;
  if n_handles <=? idx then fail (HandleOutOfRange idx) else mret (mkLayer idx base st size).

Definition read_layers (n_handles : Z) : D (list Layer) :=
  n ← u16;
  if n =? 0 then fail NoLayers else read_n (Z.to_nat n) (layer n_handles).

(** [block_id.checked_mul(stride).and_then(|o| o.checked_add(base_delta))]. *)
Definition layer_offset (block_id : Z) (l : Layer) : option Z :=
  let o := block_id * stride l in
  if 2 ^ 64 <=? o then None else if 2 ^ 64 <=? o + base_delta l then None else Some (o + base_delta l).

Fixpoint block_regions (block_id : Z) (ls : list Layer) : D (list RegionRef) :=
  match ls with
  | [] => mret []
  | l :: ls =>
      match layer_offset block_id l with
      | None => fail (OffsetOverflows block_id)
      | Some off => rs ← block_regions block_id ls; mret ((l_idx l, off, l_size l) :: rs)
      end
  end.

Fixpoint block_entries (ls : list Layer) (keys : list Z) : D (list BatchEntry) :=
  match keys with
  | [] => mret []
  | key :: keys =>
      block_id ← u64; regions ← block_regions block_id ls;
      es ← block_entries ls keys; mret ((key, regions) :: es)
  end.

Definition decode_block_batch : D HandleBatch :=
  hs ← read_handles;
  ls ← read_layers (Z.of_nat (length hs));
  n_entries ← u32;
  keys ← read_n (Z.to_nat n_entries) u64;
  es ← block_entries ls keys;
  mret (mkBatch hs es).

(** [layers.iter().map(|l| u64::from(l.size)).sum()]. *)
Fixpoint sum_sizes (acc : Z) (ls : list Layer) : outcome Z :=
  match ls with
  | [] => Ret acc
  | l :: ls => acc ← add_w 64 acc (l_size l); sum_sizes acc ls
  end.

(** The layers of a skipped block, side by side from [off] on. *)
Fixpoint scratch_regions (scratch_idx off : Z) (ls : list Layer) : D (list RegionRef) :=
  match ls with
  | [] => mret []
  | l :: ls =>
      off' ← lift (add_w 64 off (l_size l));
      rs ← scratch_regions scratch_idx off' ls;
      mret ((scratch_idx, off, l_size l) :: rs)
  end.

(** One key's [n] blocks; [skipped] counts its scratch markers so far. *)
Fixpoint chunk_regions (n_handles scratch_idx block_bytes : Z) (ls : list Layer) (n : nat) (skipped : Z) : D (list RegionRef) :=
  match n with
  | O => mret []
  | S n =>
      block_id ← u64;
      if block_id =? CHUNK_ABSENT then chunk_regions n_handles scratch_idx block_bytes ls n skipped
      else if block_id =? CHUNK_SCRATCH then
        if n_handles <=? scratch_idx then fail (HandleOutOfRange scratch_idx)
        else
          off ← lift (mul_w 64 skipped block_bytes);
          rs ← scratch_regions scratch_idx off ls;
          skipped ← lift (add_w 64 skipped 1);
          rs' ← chunk_regions n_handles scratch_idx block_bytes ls n skipped;
          mret (rs ++ rs')
      else
        rs ← block_regions block_id ls;
        rs' ← chunk_regions n_handles scratch_idx block_bytes ls n skipped;
        mret (rs ++ rs')
  end.

Fixpoint chunk_entries (n_handles scratch_idx block_bytes : Z) (ls : list Layer) (blocks_per_key : nat) (keys : list Z) :
    D (list BatchEntry) :=
  match keys with
  | [] => mret []
  | key :: keys =>
      regions ← chunk_regions n_handles scratch_idx block_bytes ls blocks_per_key 0;
      es ← chunk_entries n_handles scratch_idx block_bytes ls blocks_per_key keys;
      mret ((key, regions) :: es)
  end.

Definition decode_chunk_block_batch : D HandleBatch :=
  hs ← read_handles;
  let n_handles := Z.of_nat (length hs) in
  ls ← read_layers n_handles;
  scratch_idx ← u32;
  blocks_per_key ← u16;
  if blocks_per_key =? 0 then fail NoBlocksPerKey
  else
    n_entries ← u32;
    keys ← read_n (Z.to_nat n_entries) u64;
    block_bytes ← lift (sum_sizes 0 ls);
    es ← chunk_entries n_handles scratch_idx block_bytes ls (Z.to_nat blocks_per_key) keys;
    mret (mkBatch hs es).

(** [op_reserve]'s and [op_fetch]'s entries. *)
Definition reserve_entry : D (Z * Z * Z) := key ← u64; size ← u32; session ← u64; mret (key, size, session).
Definition read_reserve : D (list (Z * Z * Z)) := n ← u32; read_n (Z.to_nat n) reserve_entry.

(** [std::str::from_utf8] accepts the bytes. *)
Definition continuation (b : Z) : bool := (128 <=? b) && (b <=? 191).

Definition between (lo b hi : Z) : bool := (lo <=? b) && (b <=? hi).

Fixpoint valid_utf8 (bs : list Z) : bool :=
  match bs with
  | [] => true
  | b :: bs =>
      if b <? 128 then valid_utf8 bs
      else match bs with
      | [] => false
      | c :: bs =>
          if between 194 b 223 then continuation c && valid_utf8 bs
          else match bs with
          | [] => false
          | d :: bs =>
              if between 224 b 239 then
                between (if b =? 224 then 160 else 128) c (if b =? 237 then 159 else 191) && continuation d && valid_utf8 bs
              else match bs with
              | [] => false
              | e :: bs =>
                  between 240 b 244 && between (if b =? 240 then 144 else 128) c (if b =? 244 then 143 else 191) &&
                  continuation d && continuation e && valid_utf8 bs
              end
          end
      end
  end.

Definition fetch_entry : D (Z * Z) := key ← u64; size ← u32; mret (key, size).
Definition read_fetch : D (list Z * list (Z * Z)) :=
  peer_len ← u16; peer ← bytes (Z.to_nat peer_len);
  if valid_utf8 peer then n ← u32; es ← read_n (Z.to_nat n) fetch_entry; mret (peer, es)
  else fail PeerNotUtf8.

Definition read_promote : D (bool * list Z) := p ← u8; keys ← read_keys; mret (negb (p =? 0), keys).

(** * What a decoder returns on any payload *)

Record good (r : Reader) : Prop := {
  g_bytes : Forall (is_u 8) (buf r);
  g_pos : (pos r ≤ length (buf r))%nat
}.

(** The decoder returns, an error or a value in [P], and stays in the buffer. *)
Definition types {A} (m : D A) (P : A → Prop) : Prop :=
  ∀ r, good r → ∃ x, m r = Ret x ∧
    match x with Ok (a, r') => P a ∧ good r' ∧ buf r' = buf r ∧ (pos r ≤ pos r')%nat | Err _ => True end.

Lemma types_ret {A} (x : A) (P : A → Prop) : P x → types (mret x) P.
Proof. intros Hx r G. exists (Ok (x, r)). split; [done|]. split_and!; try done; lia. Qed.

Lemma types_bind {A B} (m : D A) (f : A → D B) P Q : types m P → (∀ x, P x → types (f x) Q) → types (m ≫= f) Q.
Proof.
  intros Hm Hf r G. destruct (Hm r G) as ([[a r1]|e] & E1 & H1); unfold mbind, D_bind; rewrite E1; [|by exists (Err e)].
  destruct H1 as (Pa & G1 & Hb & Hp). destruct (Hf a Pa r1 G1) as ([[b r2]|e] & -> & H2); [|by exists (Err e)].
  exists (Ok (b, r2)). split; [done|]. destruct H2 as (? & ? & Hb2 & ?). split_and!; try done; [congruence|lia].
Qed.

Lemma types_fail {A} (e : OpError) (P : A → Prop) : types (fail e) P.
Proof. intros r _. by exists (Err e). Qed.

Lemma types_lift {A} (c : outcome A) (x : A) (P : A → Prop) : c = Ret x → P x → types (lift c) P.
Proof. intros -> Hx. by apply types_ret. Qed.

Lemma types_weaken {A} (m : D A) (P Q : A → Prop) : types m P → (∀ x, P x → Q x) → types m Q.
Proof.
  intros Hm Hq r G. destruct (Hm r G) as (x & E & H). exists x. split; [done|]. destruct x as [[a r']|]; [|done].
  destruct H as (? & ?). split; [by apply Hq|done].
Qed.

Lemma types_take n : types (take_n n) (λ bs, length bs = n ∧ Forall (is_u 8) bs).
Proof.
  intros r [Hb Hp]. unfold take_n. destruct (_ <=? _); [by eexists|]. destruct (Nat.ltb_spec (length (buf r)) (pos r + n)); [by eexists|].
  eexists. split; [done|]. split_and!; simpl; try done; try lia.
  - rewrite length_take, length_drop. lia.
  - by apply Forall_take, Forall_drop.
Qed.

Lemma types_le n : types (b ← take_n n; mret (from_le_bytes b)) (is_u (Z.of_nat n * 8)).
Proof.
  eapply types_bind; [apply types_take|]. intros b [Hl Hb]. apply types_ret. unfold is_u, from_le_bytes. rewrite <- Hl.
  apply little_endian_to_Z_bound; [lia|]. exact Hb.
Qed.

Lemma types_u8 : types u8 (is_u 8).
Proof. exact (types_le 1). Qed.
Lemma types_u16 : types u16 (is_u 16).
Proof. exact (types_le 2). Qed.
Lemma types_u32 : types u32 (is_u 32).
Proof. exact (types_le 4). Qed.
Lemma types_u64 : types u64 (is_u 64).
Proof. exact (types_le 8). Qed.

Lemma types_i32 : types i32 (λ x, - 2 ^ 31 ≤ x < 2 ^ 31).
Proof.
  eapply types_bind; [apply types_u32|]. intros x Hx. apply types_ret. unfold as_i32, is_u in *. destruct (Z.ltb_spec x (2 ^ 31)); lia.
Qed.

Lemma types_read_n {A} n (m : D A) P : types m P → types (read_n n m) (λ xs, length xs = n ∧ Forall P xs).
Proof.
  intros Hm. induction n as [|n IH]; simpl; [by apply types_ret|]. eapply types_bind; [exact Hm|]. intros x Px.
  eapply types_bind; [exact IH|]. intros xs [Hl Hxs]. apply types_ret. split; [simpl; lia|by constructor].
Qed.

Create HintDb wire.
#[export] Hint Resolve types_u8 types_u16 types_u32 types_u64 types_i32 : wire.

(** ** Batches *)

Definition handle_ok (h : TableHandle) : Prop := length h.1 = 64%nat ∧ Forall (is_u 8) h.1 ∧ - 2 ^ 31 ≤ h.2 < 2 ^ 31.
Definition region_ok (n_handles : nat) (x : RegionRef) : Prop :=
  let '(idx, offset, size) := x in (Z.to_nat idx < n_handles)%nat ∧ is_u 32 idx ∧ is_u 64 offset ∧ is_u 32 size.
Definition entry_ok (n_handles : nat) (e : BatchEntry) : Prop := is_u 64 e.1 ∧ Forall (region_ok n_handles) e.2.
Definition layer_ok (n_handles : nat) (l : Layer) : Prop :=
  (Z.to_nat (l_idx l) < n_handles)%nat ∧ is_u 32 (l_idx l) ∧ is_u 64 (base_delta l) ∧ is_u 64 (stride l) ∧ is_u 32 (l_size l).

(** Every region refers to a handle of the table, and every field is of its width. *)
Record batch_ok (b : HandleBatch) : Prop := {
  b_handles : Forall handle_ok (handles b);
  b_entries : Forall (entry_ok (length (handles b))) (entries b);
  b_count : Z.of_nat (length (entries b)) < 2 ^ 32
}.

Lemma mk_batch_ok hs es n :
  Forall handle_ok hs → length es = Z.to_nat n ∧ Forall (entry_ok (length hs)) es → is_u 32 n → batch_ok (mkBatch hs es).
Proof. intros Hh [Hl He] Hn. split; simpl; [done|done|]. rewrite Hl. unfold is_u in Hn. lia. Qed.

Lemma types_handles : types read_handles (λ hs, Forall handle_ok hs).
Proof.
  eapply types_bind; [eauto with wire|]. intros n Hn. eapply types_weaken; [apply (types_read_n _ _ handle_ok)|by intros hs [_ H]].
  eapply types_bind; [apply types_take|]. intros h [Hl Hb]. eapply types_bind; [eauto with wire|]. intros d Hd. by apply types_ret.
Qed.

Lemma types_region n : types (region_ref (Z.of_nat n)) (region_ok n).
Proof.
  eapply types_bind; [eauto with wire|]. intros idx Hi. eapply types_bind; [eauto with wire|]. intros off Ho.
  eapply types_bind; [eauto with wire|]. intros sz Hs. destruct (Z.leb_spec (Z.of_nat n) idx); [apply types_fail|]. apply types_ret.
  split_and!; try done. unfold is_u in Hi. lia.
Qed.

Lemma types_entry n : types (batch_entry (Z.of_nat n)) (entry_ok n).
Proof.
  eapply types_bind; [eauto with wire|]. intros k Hk. eapply types_bind; [eauto with wire|]. intros m _.
  eapply types_bind; [apply types_read_n, types_region|]. intros rs [_ Hr]. by apply types_ret.
Qed.

Lemma types_handle_batch : types decode_handle_batch batch_ok.
Proof.
  eapply types_bind; [apply types_handles|]. intros hs Hh. eapply types_bind; [eauto with wire|]. intros n Hn.
  eapply types_bind; [apply types_read_n, types_entry|]. intros es He. apply types_ret. by apply (mk_batch_ok hs es n).
Qed.

Lemma types_layers n : types (read_layers (Z.of_nat n)) (λ ls, Z.of_nat (length ls) < 2 ^ 16 ∧ Forall (layer_ok n) ls).
Proof.
  eapply types_bind; [eauto with wire|]. intros m Hm. destruct (m =? 0); [apply types_fail|].
  eapply types_weaken; [apply (types_read_n _ _ (layer_ok n))|].
  - eapply types_bind; [eauto with wire|]. intros idx Hi. eapply types_bind; [eauto with wire|]. intros b Hb.
    eapply types_bind; [eauto with wire|]. intros st Hst. eapply types_bind; [eauto with wire|]. intros sz Hs.
    destruct (Z.leb_spec (Z.of_nat n) idx); [apply types_fail|]. apply types_ret. split_and!; try done. unfold is_u in Hi. simpl. lia.
  - intros ls [Hl Hls]. split; [|done]. rewrite Hl. unfold is_u in Hm. lia.
Qed.

Lemma layer_offset_u64 n b l off : layer_ok n l → is_u 64 b → layer_offset b l = Some off → is_u 64 off.
Proof.
  intros (_ & _ & Hb & Hs & _) Hi. unfold layer_offset, is_u in *. destruct (Z.leb_spec (2 ^ 64) (b * stride l)); [done|].
  destruct (Z.leb_spec (2 ^ 64) (b * stride l + base_delta l)); [done|]. intros [= <-]. nia.
Qed.

Lemma types_block_regions n b ls :
  Forall (layer_ok n) ls → is_u 64 b → types (block_regions b ls) (Forall (region_ok n)).
Proof.
  intros Hls Hb. induction Hls as [|l ls Hl Hls IH]; simpl; [by apply types_ret|].
  destruct (layer_offset b l) as [off|] eqn:Ho; [|apply types_fail]. eapply types_bind; [exact IH|]. intros rs Hr. apply types_ret.
  constructor; [|done]. pose proof (layer_offset_u64 n b l off Hl Hb Ho). destruct Hl as (? & ? & _ & _ & ?). done.
Qed.

Lemma types_block_batch : types decode_block_batch batch_ok.
Proof.
  eapply types_bind; [apply types_handles|]. intros hs Hh. eapply types_bind; [apply types_layers|]. intros ls [_ Hls].
  eapply types_bind; [eauto with wire|]. intros n Hn. eapply types_bind; [apply types_read_n; eauto with wire|]. intros ks [Hl Hks].
  eapply (types_bind _ _ (λ es, length es = length ks ∧ Forall (entry_ok (length hs)) es));
    [|intros es He; apply types_ret; rewrite Hl in He; by apply (mk_batch_ok hs es n)].
  clear n Hn Hl. induction Hks as [|k ks Hk Hks IH]; simpl; [by apply types_ret|]. eapply types_bind; [eauto with wire|]. intros b Hb.
  eapply types_bind; [by apply types_block_regions|]. intros rs Hr. eapply types_bind; [exact IH|]. intros es [Hl He]. apply types_ret.
  split; [simpl; lia|by constructor].
Qed.

(** ** Scratch blocks *)

Fixpoint layers_size (ls : list Layer) : Z :=
  match ls with [] => 0 | l :: ls => l_size l + layers_size ls end.

Lemma layers_size_bound n ls : Forall (layer_ok n) ls → 0 ≤ layers_size ls ≤ Z.of_nat (length ls) * (2 ^ 32 - 1).
Proof. induction 1 as [|l ls (_ & _ & _ & _ & Hl) _ IH]; simpl; [lia|]. unfold is_u in Hl. lia. Qed.

Lemma sum_sizes_spec n acc ls : Forall (layer_ok n) ls → acc + layers_size ls < 2 ^ 64 → sum_sizes acc ls = Ret (acc + layers_size ls).
Proof.
  intros Hls. revert acc. induction Hls as [|l ls Hl Hls IH]; intros acc Hs; simpl in *; [f_equal; lia|].
  pose proof (layers_size_bound n ls Hls). rewrite add_w_Ret, bind_Ret_l, IH by lia. f_equal. lia.
Qed.

Lemma types_scratch n idx off ls :
  Forall (layer_ok n) ls → is_u 32 idx → (Z.to_nat idx < n)%nat → 0 ≤ off → off + layers_size ls < 2 ^ 64 →
  types (scratch_regions idx off ls) (Forall (region_ok n)).
Proof.
  intros Hls Hi Hn. revert off. induction Hls as [|l ls Hl Hls IH]; intros off H0 Hs; simpl in *; [by apply types_ret|].
  pose proof (layers_size_bound n ls Hls). destruct Hl as (_ & _ & _ & _ & Hl). pose proof Hl as Hl'. unfold is_u in Hl'.
  eapply types_bind; [eapply (types_lift _ _ (λ x, x = off + l_size l)); [apply add_w_Ret; lia|done]|]. intros ? ->.
  eapply types_bind; [apply IH; lia|]. intros rs Hr. apply types_ret. constructor; [|done]. split_and!; try done. unfold is_u. lia.
Qed.

(** One key has at most [2^16 - 1] blocks of at most [2^16 - 1] layers below
    [2^32] bytes, so no scratch offset overflows. *)
Lemma types_chunk_regions n idx ls m skipped :
  Forall (layer_ok n) ls → is_u 32 idx → Z.of_nat (length ls) < 2 ^ 16 → 0 ≤ skipped → skipped + Z.of_nat m < 2 ^ 16 →
  types (chunk_regions (Z.of_nat n) idx (layers_size ls) ls m skipped) (Forall (region_ok n)).
Proof.
  intros Hls Hi Hll. pose proof (layers_size_bound n ls Hls) as Hsz. revert skipped.
  induction m as [|m IH]; intros skipped H0 Hs; simpl; [by apply types_ret|]. eapply types_bind; [eauto with wire|]. intros b Hb.
  destruct (b =? CHUNK_ABSENT); [apply IH; lia|]. destruct (b =? CHUNK_SCRATCH).
  - destruct (Z.leb_spec (Z.of_nat n) idx); [apply types_fail|]. assert (skipped * layers_size ls + layers_size ls < 2 ^ 64) by nia.
    eapply types_bind; [eapply (types_lift _ _ (λ x, x = skipped * layers_size ls)); [apply mul_w_Ret; nia|done]|]. intros ? ->.
    eapply types_bind; [apply types_scratch; [done|done|unfold is_u in Hi; lia|nia|lia]|]. intros rs Hr.
    eapply types_bind; [eapply (types_lift _ _ (λ x, x = skipped + 1)); [apply add_w_Ret; lia|done]|]. intros ? ->.
    eapply types_bind; [apply IH; lia|]. intros rs' Hr'. apply types_ret. by apply Forall_app.
  - eapply types_bind; [by apply types_block_regions|]. intros rs Hr. eapply types_bind; [apply IH; lia|]. intros rs' Hr'.
    apply types_ret. by apply Forall_app.
Qed.

Lemma types_chunk_block_batch : types decode_chunk_block_batch batch_ok.
Proof.
  eapply types_bind; [apply types_handles|]. intros hs Hh. eapply types_bind; [apply types_layers|]. intros ls [Hll Hls].
  pose proof (layers_size_bound _ ls Hls). eapply types_bind; [eauto with wire|]. intros idx Hidx. eapply types_bind; [eauto with wire|]. intros bpk Hbpk.
  destruct (bpk =? 0); [apply types_fail|]. eapply types_bind; [eauto with wire|]. intros n Hn.
  eapply types_bind; [apply types_read_n; eauto with wire|]. intros ks [Hl Hks].
  eapply types_bind; [eapply (types_lift _ _ (λ x, x = layers_size ls)); [apply (sum_sizes_spec (length hs)); [done|lia]|lia]|]. intros ? ->.
  eapply (types_bind _ _ (λ es, length es = length ks ∧ Forall (entry_ok (length hs)) es));
    [|intros es He; apply types_ret; rewrite Hl in He; by apply (mk_batch_ok hs es n)].
  clear n Hn Hl. induction Hks as [|k ks Hk Hks IH]; simpl; [by apply types_ret|].
  eapply types_bind; [apply types_chunk_regions; try done; unfold is_u in Hbpk; lia|]. intros rs Hr.
  eapply types_bind; [exact IH|]. intros es [Hl He]. apply types_ret. split; [simpl; lia|by constructor].
Qed.

(** * Decoding what was encoded *)

(** On [bs], at any place of any buffer, the decoder returns [x] and stops at the
    end of [bs]. *)
Definition parses {A} (m : D A) (bs : list Z) (x : A) : Prop :=
  ∀ pre t, Z.of_nat (length (pre ++ bs ++ t)) < 2 ^ 64 →
    m (mkReader (pre ++ bs ++ t) (length pre)) = Ret (Ok (x, mkReader (pre ++ bs ++ t) (length pre + length bs))).

Lemma parses_ret {A} (x : A) : parses (mret x) [] x.
Proof. intros pre t _. simpl. by rewrite Nat.add_0_r. Qed.

Lemma parses_bind {A B} (m : D A) (f : A → D B) bs bs' x y :
  parses m bs x → parses (f x) bs' y → parses (m ≫= f) (bs ++ bs') y.
Proof.
  intros Hm Hf pre t Hl. unfold mbind, D_bind. rewrite <- (app_assoc bs) in *. rewrite (Hm pre (bs' ++ t) Hl).
  specialize (Hf (pre ++ bs) t). rewrite <- app_assoc, (length_app pre bs) in Hf. rewrite Hf by done. rewrite length_app. do 4 f_equal. lia.
Qed.

(** The last step leaves nothing to read. *)
Lemma parses_last {A B} (m : D A) (f : A → D B) bs x y :
  parses m bs x → parses (f x) [] y → parses (m ≫= f) bs y.
Proof. intros Hm Hf. rewrite <- (app_nil_r bs). by eapply parses_bind. Qed.

Lemma parses_lift {A} (c : outcome A) x : c = Ret x → parses (lift c) [] x.
Proof. intros ->. apply parses_ret. Qed.

Lemma parses_take bs n : length bs = n → parses (take_n n) bs bs.
Proof.
  intros Hn pre t Hl. unfold take_n. simpl. rewrite !length_app in *.
  destruct (Z.leb_spec (2 ^ 64) (Z.of_nat (length pre + n))); [lia|]. destruct (Nat.ltb_spec (length pre + (length bs + length t)) (length pre + n)); [lia|].
  rewrite drop_app_length, <- Hn, take_app_length. done.
Qed.

Lemma parses_le n x : is_u (Z.of_nat n * 8) x → parses (b ← take_n n; mret (from_le_bytes b)) (to_le_bytes (Z.of_nat n) x) x.
Proof.
  intros Hx. eapply parses_last; [apply parses_take; rewrite length_to_le_bytes; lia|]. rewrite from_to_le_bytes by (done || lia). apply parses_ret.
Qed.

Lemma parses_u8 x : is_u 8 x → parses u8 (to_le_bytes 1 x) x.
Proof. exact (parses_le 1 x). Qed.
Lemma parses_u16 x : is_u 16 x → parses u16 (to_le_bytes 2 x) x.
Proof. exact (parses_le 2 x). Qed.
Lemma parses_u32 x : is_u 32 x → parses u32 (to_le_bytes 4 x) x.
Proof. exact (parses_le 4 x). Qed.
Lemma parses_u64 x : is_u 64 x → parses u64 (to_le_bytes 8 x) x.
Proof. exact (parses_le 8 x). Qed.

Lemma parses_i32 x : - 2 ^ 31 ≤ x < 2 ^ 31 → parses i32 (to_le_bytes 4 x) x.
Proof.
  intros Hx. eapply parses_last; [eapply parses_last; [apply parses_take; by rewrite length_to_le_bytes|apply parses_ret]|].
  assert (as_i32 (from_le_bytes (to_le_bytes 4 x)) = x) as ->; [|apply parses_ret].
  unfold from_le_bytes, to_le_bytes. rewrite little_endian_to_Z_to_little_endian by lia. unfold as_i32. change (4 * 8) with 32.
  destruct (Z_lt_le_dec x 0) as [Hn|Hn].
  - rewrite <- (Z.mod_add x 1 (2 ^ 32)), Z.mod_small, Z.mul_1_l by lia.
    destruct (Z.ltb_spec (x + 2 ^ 32) (2 ^ 31)); lia.
  - rewrite Z.mod_small by lia. destruct (Z.ltb_spec x (2 ^ 31)); lia.
Qed.

Lemma parses_read_n {A} (m : D A) bss xs : Forall2 (parses m) bss xs → parses (read_n (length xs) m) (concat bss) xs.
Proof.
  induction 1 as [|bs x bss xs Hx _ IH]; simpl; [apply parses_ret|]. eapply parses_bind; [exact Hx|].
  eapply parses_last; [exact IH|]. apply parses_ret.
Qed.

(** A count and that many items. *)
Lemma parses_counted {A} (m : D A) bss xs :
  Forall2 (parses m) bss xs → Z.of_nat (length xs) < 2 ^ 32 →
  parses (n ← u32; read_n (Z.to_nat n) m) (to_le_bytes 4 (Z.of_nat (length xs)) ++ concat bss) xs.
Proof.
  intros H Hl. eapply parses_bind; [apply parses_u32; split; lia|]. rewrite Nat2Z.id. by apply parses_read_n.
Qed.

(** The whole payload. *)
Lemma parses_payload {A} (m : D A) bs x :
  parses m bs x → Z.of_nat (length bs) < 2 ^ 64 → m (reader_new bs) = Ret (Ok (x, mkReader bs (length bs))).
Proof. intros Hm Hl. specialize (Hm [] []). simpl in Hm. rewrite app_nil_r in Hm. by apply Hm. Qed.

#[export] Hint Resolve parses_u8 parses_u16 parses_u32 parses_u64 parses_i32 parses_ret : wire.

(** ** The theorem *)

(** C19. No request can break the decoders. On any payload, each of the three batch
    decoders returns, with an error or with a batch in which every region refers
    to a handle of the table, every offset is below 2^64 (checked where the server
    computes it, and never overflowing where it lays out the scratch blocks of up to
    65535 blocks of 65535 layers) and every other field is of its width; and it has
    not read past the payload. *)
Theorem batches_decode_safely payload decode :
  Forall (is_u 8) payload → decode ∈ [decode_handle_batch; decode_block_batch; decode_chunk_block_batch] →
  ∃ x, decode (reader_new payload) = Ret x ∧
    match x with Ok (b, r) => batch_ok b ∧ (pos r ≤ length payload)%nat | Err _ => True end.
Proof.
  intros Hb Hd. assert (types decode batch_ok) as Ht.
  { apply elem_of_cons in Hd as [->|Hd]; [apply types_handle_batch|]. apply elem_of_cons in Hd as [->|Hd]; [apply types_block_batch|].
    apply list_elem_of_singleton in Hd as ->. apply types_chunk_block_batch. }
  destruct (Ht (reader_new payload)) as (x & E & H); [by split; [|simpl; lia]|]. exists x. split; [done|].
  destruct x as [[b r]|]; [|done]. destruct H as (Hok & [_ Hp] & Hbuf & _). split; [done|]. by rewrite Hbuf in Hp.
Qed.

Lemma batches_decode_safely_witness :
  ∃ x, decode_chunk_block_batch (reader_new (replicate 100 255)) = Ret x.
Proof.
  destruct (batches_decode_safely (replicate 100 255) decode_chunk_block_batch) as (x & E & _); [|set_solver|by exists x].
  apply Forall_replicate. split; lia.
Defined.

End Wire.
