(* ===== verification/RingClient.v ===== *)
(** The client side of the control protocol, in Python: the encoders, decoders and
    request splitting of [certus_shmq_connector/ring.py] and the builders of region
    lists of [handler.py]. Python integers are [Z]; an exception is an error of the
    result. *)

From S2P Require Import Prelude Bytes Wire.

Module Ring.
Local Open Scope Z_scope.

Inductive PyError := StructError | ValueError | RingError | AssertionError.

Definition py (A : Type) : Type := result A PyError.

#[global] Instance py_ret : MRet py := λ A x, Ok x.
#[global] Instance py_bind : MBind py := λ A B f c, match c with Ok a => f a | Err e => Err e end.

(** ** [struct.pack] *)

(** An unsigned field of [n] bytes. *)
Definition pack_u (n v : Z) : py (list Z) :=
  if (0 <=? v) && (v <? 2 ^ (n * 8)) then Ok (to_le_bytes n v) else Err StructError.

Definition pack_i32 (v : Z) : py (list Z) :=
  if (- 2 ^ 31 <=? v) && (v <? 2 ^ 31) then Ok (to_le_bytes 4 v) else Err StructError.

Fixpoint pack_us (n : Z) (vs : list Z) : py (list Z) :=
  match vs with
  | [] => mret []
  | v :: vs => b ← pack_u n v; bs ← pack_us n vs; mret (b ++ bs)
  end.

Definition len {A} (l : list A) : Z := Z.of_nat (length l).

Definition U64_MASK : Z := 2 ^ 64 - 1.
Definition mask64 (k : Z) : Z := Z.land k U64_MASK.
Definition mask32 (k : Z) : Z := Z.land k (2 ^ 32 - 1).

(** [try: a except struct.error: b]. *)
Definition or_masked {A} (a b : py A) : py A := match a with Err StructError => b | _ => a end.

(** ** Requests of keys *)

Definition pack_keys (keys : list Z) : py (list Z) :=
  n ← pack_u 4 (len keys); ks ← pack_us 8 keys; mret (n ++ ks).

Definition encode_keys (keys : list Z) : py (list Z) := or_masked (pack_keys keys) (pack_keys (mask64 <$> keys)).

Definition pack_promote_keys (promote : bool) (keys : list Z) : py (list Z) :=
  p ← pack_u 1 (if promote then 1 else 0); n ← pack_u 4 (len keys); ks ← pack_us 8 keys; mret (p ++ n ++ ks).

Definition encode_promote_keys (promote : bool) (keys : list Z) : py (list Z) :=
  or_masked (pack_promote_keys promote keys) (pack_promote_keys promote (mask64 <$> keys)).

Fixpoint encode_reserve_entries (entries : list (Z * Z * Z)) : py (list Z) :=
  match entries with
  | [] => mret []
  | (key, size, session) :: entries =>
      if negb ((0 <=? size) && (size <=? u32_max)) then Err ValueError
      else
        k ← pack_u 8 (mask64 key); s ← pack_u 4 size; ss ← pack_u 8 (mask64 session);
        rest ← encode_reserve_entries entries; mret (k ++ s ++ ss ++ rest)
  end.

Definition encode_reserve (entries : list (Z * Z * Z)) : py (list Z) :=
  n ← pack_u 4 (len entries); es ← encode_reserve_entries entries; mret (n ++ es).

(** ** Handle tables *)

Record Table := mkTable { index : gmap (list Z * Z) Z; rows : list (list Z * Z) }.

Definition no_table : Table := mkTable ∅ [].

(** [table.get(tkey)], or a new row. *)
Definition intern (t : Table) (tkey : list Z * Z) : Z * Table :=
  match index t !! tkey with
  | Some idx => (idx, t)
  | None => let idx := len (rows t) in (idx, mkTable (<[tkey := idx]> (index t)) (rows t ++ [tkey]))
  end.

Fixpoint encode_rows (rs : list (list Z * Z)) : py (list Z) :=
  match rs with
  | [] => mret []
  | (hb, dev) :: rs =>
      if negb (length hb =? 64)%nat then Err RingError
      else d ← pack_i32 dev; rest ← encode_rows rs; mret (hb ++ d ++ rest)
  end.

Definition encode_head (rs : list (list Z * Z)) : py (list Z) := n ← pack_u 4 (len rs); b ← encode_rows rs; mret (n ++ b).

(** A handle, its device, an offset and a size. *)
Record Region := mkRegion { hb : list Z; dev : Z; off : Z; size : Z }.
Abbreviation Entry := (Z * list Region)%type.

Definition tkey (r : Region) : list Z * Z := (hb r, dev r).

Fixpoint encode_regions (t : Table) (rs : list Region) : py (list Z * Table) :=
  match rs with
  | [] => mret ([], t)
  | r :: rs =>
      let '(idx, t) := intern t (tkey r) in
      i ← pack_u 4 idx; o ← pack_u 8 (mask64 (off r)); s ← pack_u 4 (mask32 (size r));
      '(rest, t) ← encode_regions t rs; mret (i ++ o ++ s ++ rest, t)
  end.

Fixpoint encode_entries (t : Table) (entries : list Entry) : py (list Z * Table) :=
  match entries with
  | [] => mret ([], t)
  | (key, regions) :: entries =>
      k ← pack_u 8 (mask64 key); n ← pack_u 2 (len regions);
      '(rs, t) ← encode_regions t regions;
      '(rest, t) ← encode_entries t entries; mret (k ++ n ++ rs ++ rest, t)
  end.

Definition encode_handle_batch (entries : list Entry) : py (list Z) :=
  n ← pack_u 4 (len entries);
  '(es, t) ← encode_entries no_table entries;
  head ← encode_head (rows t);
  mret (head ++ n ++ es).

(** A layer: handle, device, base, stride and size. *)
Record LayerRow := mkRow { lr_hb : list Z; lr_dev : Z; lr_base : Z; lr_stride : Z; lr_size : Z }.

Fixpoint encode_layer_rows (t : Table) (ls : list LayerRow) : py (list Z * Table) :=
  match ls with
  | [] => mret ([], t)
  | l :: ls =>
      let '(idx, t) := intern t (lr_hb l, lr_dev l) in
      i ← pack_u 4 idx; b ← pack_u 8 (lr_base l); st ← pack_u 8 (lr_stride l); s ← pack_u 4 (lr_size l);
      '(rest, t) ← encode_layer_rows t ls; mret (i ++ b ++ st ++ s ++ rest, t)
  end.

(** The table and the index of the first extra handle. *)
Definition encode_layer_table (layers : list LayerRow) (extra : list (list Z * Z)) : py (list Z * Z) :=
  if bool_decide (layers = []) || (65535 <? len layers) then Err RingError
  else
    n ← pack_u 2 (len layers);
    '(ls, t) ← encode_layer_rows no_table layers;
    let first_extra := len (rows t) in
    head ← encode_head (rows t ++ extra);
    mret (head ++ n ++ ls, first_extra).

Definition pack_block_entries (keys block_ids : list Z) : py (list Z) :=
  n ← pack_u 4 (len keys); ks ← pack_us 8 keys; bs ← pack_us 8 block_ids; mret (n ++ ks ++ bs).

Definition encode_block_entries (keys block_ids : list Z) : py (list Z) :=
  if negb (len block_ids =? len keys) then Err RingError
  else or_masked (pack_block_entries keys block_ids) (pack_block_entries (mask64 <$> keys) block_ids).

Definition pack_chunk_entries (scratch_idx blocks_per_key : Z) (keys block_ids : list Z) : py (list Z) :=
  s ← pack_u 4 scratch_idx; b ← pack_u 2 blocks_per_key; n ← pack_u 4 (len keys);
  ks ← pack_us 8 keys; bs ← pack_us 8 block_ids; mret (s ++ b ++ n ++ ks ++ bs).

Definition encode_chunk_entries (scratch_idx blocks_per_key : Z) (keys block_ids : list Z) : py (list Z) :=
  if (blocks_per_key <? 1) || (65535 <? blocks_per_key) then Err RingError
  else if negb (len block_ids =? len keys * blocks_per_key) then Err RingError
  else or_masked (pack_chunk_entries scratch_idx blocks_per_key keys block_ids)
                 (pack_chunk_entries scratch_idx blocks_per_key (mask64 <$> keys) block_ids).

(** ** Splitting *)

Definition HANDLE_ENTRY_SIZE : Z := 64 + 4.
Definition REGION_SIZE : Z := 4 + 8 + 4.
Definition HANDLE_BATCH_FIXED : Z := 4 + 4.
Definition ENTRY_FIXED : Z := 8 + 2.
Definition BLOCK_ENTRY_SIZE : Z := 8 + 8.

(** The entry's bytes without handles, and the number of regions whose handle has
    not been seen. *)
Definition entry_cost (regions : list Region) (seen : gset (list Z * Z)) : Z * Z :=
  (ENTRY_FIXED + len regions * REGION_SIZE, len (filter (λ r, tkey r ∉ seen) regions)).

(** The loop of [chunk_handle_batches]. *)
Fixpoint split_loop (cap_req : Z) (chunks : list (list Entry)) (cur : list Entry) (seen : gset (list Z * Z)) (cur_bytes : Z)
    (entries : list Entry) : list (list Entry) :=
  match entries with
  | [] => if bool_decide (cur = []) then chunks else chunks ++ [cur]
  | (key, regions) :: entries =>
      let '(add_body, new_h) := entry_cost regions seen in
      let add := add_body + new_h * HANDLE_ENTRY_SIZE in
      if negb (bool_decide (cur = [])) && (cap_req <? cur_bytes + add) then
        let '(add_body, new_h) := entry_cost regions ∅ in
        let add := add_body + new_h * HANDLE_ENTRY_SIZE in
        split_loop cap_req (chunks ++ [cur]) [(key, regions)] (list_to_set (tkey <$> regions)) (HANDLE_BATCH_FIXED + add) entries
      else
        split_loop cap_req chunks (cur ++ [(key, regions)]) (seen ∪ list_to_set (tkey <$> regions)) (cur_bytes + add) entries
  end.

Definition chunk_handle_batches (entries : list Entry) (cap_req : Z) : list (list Entry) :=
  split_loop cap_req [] [] ∅ HANDLE_BATCH_FIXED entries.

(** ** Responses *)

Definition decode_ok_flags (payload : list Z) (n : nat) : list bool :=
  (λ i, match payload !! i with Some b => negb (b =? 0) | None => false end) <$> seq 0 n.

Definition CHECK_MISS : Z := 0.
Definition CHECK_RESIDENT : Z := 1.
Definition CHECK_PENDING : Z := 2.

Definition decode_states (payload : list Z) (n : nat) : list Z :=
  let states := take n payload in states ++ replicate (n - length states) CHECK_MISS.

Fixpoint read_events (n off : nat) (payload : list Z) : list (Z * Z) :=
  match n with
  | O => []
  | S n => (rd 8 off payload, rd 4 (off + 8) payload) :: read_events n (off + 12) payload
  end.

Definition decode_take_events (payload : list Z) : list (Z * Z) * Z :=
  let buf_len := len payload in
  if buf_len <? 4 then ([], 0)
  else
    let n := rd 4 0 payload in
    let max_fit := Z.max 0 ((buf_len - 4 - 8) / 12) in
    let decodable := Z.min n max_fit in
    let events := read_events (Z.to_nat decodable) 4 payload in
    if decodable <? n then (events, n - decodable)
    else
      let o := 4 + 12 * decodable in
      if buf_len <? o + 8 then (events, 0) else (events, rd 8 (Z.to_nat o) payload).

(** [take_events]: the count asked for always fits in the response. *)
Definition events_to_ask (cap_resp max_events : Z) : Z :=
  let fit := Z.max 1 ((cap_resp - 4 - 8) / 12) in
  if (max_events <=? 0) || (fit <? max_events) then fit else max_events.

End Ring.

Module Handler.
Import Ring.
Local Open Scope Z_scope.

Record KvCacheIpc := mkIpc { handle_bytes : list Z; gpu_device_id : Z; stride_bytes : Z; base_delta : Z }.

Definition block_offset (r : KvCacheIpc) (block_id : Z) : Z := base_delta r + block_id * stride_bytes r.

Definition regions_for_block (regions : list KvCacheIpc) (block_id : Z) : list Region :=
  (λ r, mkRegion (handle_bytes r) (gpu_device_id r) (block_offset r block_id) (stride_bytes r)) <$> regions.

Definition per_block (regions : list KvCacheIpc) : Z := foldr (λ r a, stride_bytes r + a) 0 regions.

Definition scratch_offset (regions : list KvCacheIpc) (block layer : nat) : Z :=
  Z.of_nat block * per_block regions + per_block (take layer regions).

Definition scratch_bytes (regions : list KvCacheIpc) (blocks_per_chunk : Z) : Z :=
  Z.max (blocks_per_chunk - 1) 1 * per_block regions.

(** The scratch pieces of the skipped blocks. *)
Definition scratch_pieces (regions : list KvCacheIpc) (skip : nat) (scratch : KvCacheIpc) : list Region :=
  j ← seq 0 skip;
  imap (λ layer r, mkRegion (handle_bytes scratch) (gpu_device_id scratch) (scratch_offset regions j layer) (stride_bytes r)) regions.

(** [_chunk_entries]' loop over the keys; a key takes its blocks while there are
    some. *)
Fixpoint chunk_loop (regions : list KvCacheIpc) (ids : list Z) (keys : list Z) (blocks_per_chunk skip : nat) (scratch : KvCacheIpc) :
    list Entry :=
  match keys with
  | [] => []
  | key :: keys =>
      let mine := take (blocks_per_chunk - skip) ids in
      (key, scratch_pieces regions skip scratch ++ (mine ≫= regions_for_block regions))
        :: chunk_loop regions (drop (blocks_per_chunk - skip) ids) keys blocks_per_chunk 0 scratch
  end.

(** The guard of [_chunk_entries] and [_chunk_ids]. *)
Definition fills (n_ids n_keys blocks_per_chunk skip : Z) : bool :=
  let expected := n_keys * blocks_per_chunk - skip in
  (0 <=? skip) && (skip <? blocks_per_chunk) && (expected - blocks_per_chunk <? n_ids) && (n_ids <=? expected).

Definition chunk_entries (regions : list KvCacheIpc) (ids keys : list Z) (blocks_per_chunk skip : nat) (scratch : KvCacheIpc) :
    py (list Entry) :=
  if negb (fills (len ids) (len keys) (Z.of_nat blocks_per_chunk) (Z.of_nat skip)) then Err AssertionError
  else mret (chunk_loop regions ids keys blocks_per_chunk skip scratch).

Definition chunk_ids (ids : list Z) (n_keys blocks_per_chunk skip : nat) : py (list Z) :=
  if negb (fills (len ids) (Z.of_nat n_keys) (Z.of_nat blocks_per_chunk) (Z.of_nat skip)) then Err AssertionError
  else
    let l := replicate skip Wire.CHUNK_SCRATCH ++ ids in
    mret (l ++ replicate (n_keys * blocks_per_chunk - length l) Wire.CHUNK_ABSENT).

(** The rows of the worker's layer table. *)
Definition layer_rows (regions : list KvCacheIpc) : list LayerRow :=
  (λ r, mkRow (handle_bytes r) (gpu_device_id r) (base_delta r) (stride_bytes r) (stride_bytes r)) <$> regions.

(** [_entries] of one block per key. *)
Definition block_entries (regions : list KvCacheIpc) (ids keys : list Z) : py (list Entry) :=
  if negb (len ids =? len keys) then Err AssertionError
  else mret (zip_with (λ id k, (k, regions_for_block regions id)) ids keys).

(** [_chunk_table_for]: with nothing skipped the plain layer table serves. *)
Definition chunk_table_for (regions : list KvCacheIpc) (skip : nat) (scratch : KvCacheIpc) : py (list Z * Z) :=
  if (skip =? 0)%nat then '(t, _) ← encode_layer_table (layer_rows regions) []; mret (t, 0)
  else encode_layer_table (layer_rows regions) [(handle_bytes scratch, gpu_device_id scratch)].

End Handler.
