(* ===== verification/WireAgreement.v ===== *)
(** The two ends of the control protocol agree: what the Python client encodes the
    server decodes to the same keys, GPU regions and flags, and the compact
    requests stand for exactly the region lists they replace. *)

From S2P Require Import Prelude Bytes Wire RingClient.

Module WireAgreement.
Import Wire Ring.
Local Open Scope Z_scope.

(** * What [struct.pack] wrote *)

Lemma py_bind_Ok {A B} (c : py A) (f : A → py B) y : (c ≫= f) = Ok y ↔ ∃ x, c = Ok x ∧ f x = Ok y.
Proof. destruct c; simpl; naive_solver. Qed.

Lemma pack_u_Ok n v bs : pack_u n v = Ok bs → bs = to_le_bytes n v ∧ is_u (n * 8) v.
Proof.
  unfold pack_u. destruct (Z.leb_spec 0 v); [|done]. destruct (Z.ltb_spec v (2 ^ (n * 8))); [|done]. intros [= <-]. done.
Qed.

Lemma pack_i32_Ok v bs : pack_i32 v = Ok bs → bs = to_le_bytes 4 v ∧ - 2 ^ 31 ≤ v < 2 ^ 31.
Proof.
  unfold pack_i32. destruct (Z.leb_spec (- 2 ^ 31) v); [|done]. destruct (Z.ltb_spec v (2 ^ 31)); [|done]. intros [= <-]. done.
Qed.

Lemma pack_us_Ok n vs bs : pack_us n vs = Ok bs → bs = concat (to_le_bytes n <$> vs) ∧ Forall (is_u (n * 8)) vs.
Proof.
  revert bs. induction vs as [|v vs IH]; intros bs; simpl; [by intros [= <-]|].
  intros (b & [-> Hv]%pack_u_Ok & (bs' & [-> Hvs]%IH & [= <-])%py_bind_Ok)%py_bind_Ok. split; [done|]. by constructor.
Qed.

Lemma Ok_inj {A} (x y : A) : @Ok A PyError x = Ok y → x = y.
Proof. congruence. Qed.

(** Take a successful encoding apart. *)
Ltac py_inv :=
  repeat match goal with
  | H : (_ ≫= _) = Ok _ |- _ => apply py_bind_Ok in H as (? & ? & ?)
  | H : pack_u _ _ = Ok _ |- _ => apply pack_u_Ok in H as [-> ?]
  | H : pack_us _ _ = Ok _ |- _ => apply pack_us_Ok in H as [-> ?]
  | H : pack_i32 _ = Ok _ |- _ => apply pack_i32_Ok in H as [-> ?]
  | H : mret _ = Ok _ |- _ => apply Ok_inj in H; subst
  | H : Ok _ = Ok _ |- _ => apply Ok_inj in H; subst
  | H : Err _ = Ok _ |- _ => discriminate H
  | x : (_ * _)%type |- _ => destruct x
  | H : (_, _) = (_, _) |- _ => apply pair_equal_spec in H as [? ?]; subst
  end.

Lemma mask64_mod k : mask64 k = k mod 2 ^ 64.
Proof. unfold mask64, U64_MASK. rewrite <- Z.land_ones by lia. done. Qed.

Lemma mask32_mod k : mask32 k = k mod 2 ^ 32.
Proof. unfold mask32. rewrite <- Z.land_ones by lia. done. Qed.

Lemma mask64_u k : is_u 64 (mask64 k).
Proof. rewrite mask64_mod. by apply Z.mod_pos_bound. Qed.

Lemma mask64_id k : is_u 64 k → mask64 k = k.
Proof. intros Hk. rewrite mask64_mod. by apply Z.mod_small. Qed.

Lemma mask32_id k : is_u 32 k → mask32 k = k.
Proof. intros Hk. rewrite mask32_mod. by apply Z.mod_small. Qed.

Lemma mask64_all ks : Forall (is_u 64) ks → mask64 <$> ks = ks.
Proof. induction 1; simpl; [done|]. f_equal; [by apply mask64_id|done]. Qed.

Lemma mask64_us ks : Forall (is_u 64) (mask64 <$> ks).
Proof. induction ks; simpl; constructor; [apply mask64_u|done]. Qed.

Lemma parses_u64s ks : Forall (is_u 64) ks → Forall2 (parses u64) (to_le_bytes 8 <$> ks) ks.
Proof. induction 1; simpl; constructor; eauto with wire. Qed.

(** * Requests of keys *)

Lemma pack_keys_parses ks bs : pack_keys ks = Ok bs → parses read_keys bs ks ∧ Forall (is_u 64) ks.
Proof.
  unfold pack_keys. intros H. py_inv. split; [|done]. apply parses_counted; [by apply parses_u64s|]. unfold len, is_u in *. lia.
Qed.

Lemma encode_keys_parses ks bs : encode_keys ks = Ok bs → parses read_keys bs (mask64 <$> ks).
Proof.
  unfold encode_keys, or_masked. destruct (pack_keys ks) as [b|[]] eqn:E; try done.
  - intros [= <-]. apply pack_keys_parses in E as [E Hk]. by rewrite mask64_all.
  - by intros [? _]%pack_keys_parses.
Qed.

Lemma encode_promote_parses p ks bs : encode_promote_keys p ks = Ok bs → parses read_promote bs (p, mask64 <$> ks).
Proof.
  assert (∀ ks bs, pack_promote_keys p ks = Ok bs → parses read_promote bs (p, ks) ∧ Forall (is_u 64) ks) as Hp.
  { clear. intros ks bs. unfold pack_promote_keys. intros H. py_inv. split; [|done]. eapply parses_bind; [eauto with wire|].
    eapply parses_last; [apply parses_counted; [by apply parses_u64s|unfold len, is_u in *; lia]|]. destruct p; apply parses_ret. }
  unfold encode_promote_keys, or_masked. destruct (pack_promote_keys p ks) as [b|[]] eqn:E; try done.
  - intros [= <-]. apply Hp in E as [E Hk]. by rewrite mask64_all.
  - by intros [? _]%Hp.
Qed.

Definition masked_reserve (e : Z * Z * Z) : Z * Z * Z := let '(k, s, ss) := e in (mask64 k, s, mask64 ss).

Lemma encode_reserve_parses es bs : encode_reserve es = Ok bs → parses read_reserve bs (masked_reserve <$> es).
Proof.
  intros (n & [-> Hn]%pack_u_Ok & (body & Hb & <-%Ok_inj)%py_bind_Ok)%py_bind_Ok.
  assert (∃ bss, body = concat bss ∧ Forall2 (parses reserve_entry) bss (masked_reserve <$> es)) as (bss & -> & Hp).
  { clear Hn. revert body Hb. induction es as [|[[k s] ss] es IH]; intros body Hb; simpl in Hb; [apply Ok_inj in Hb as <-; by exists []|].
    destruct (_ && _); [|done]. simpl in Hb.
    apply py_bind_Ok in Hb as (kb & [-> Hk]%pack_u_Ok & (sb & [-> Hs]%pack_u_Ok & (ssb & [-> Hss]%pack_u_Ok & (rest & Hb & <-%Ok_inj)%py_bind_Ok)%py_bind_Ok)%py_bind_Ok).
    destruct (IH _ Hb) as (bss & -> & Hp).
    exists ((to_le_bytes 8 (mask64 k) ++ to_le_bytes 4 s ++ to_le_bytes 8 (mask64 ss)) :: bss). split; [by rewrite List.concat_cons, <- !app_assoc|].
    constructor; [|done].
    eapply parses_bind; [eauto with wire|]. eapply parses_bind; [eauto with wire|]. eapply parses_last; [eauto with wire|]. apply parses_ret. }
  replace (len es) with (Z.of_nat (length (masked_reserve <$> es))) by (by rewrite length_fmap).
  apply parses_counted; [done|]. rewrite length_fmap. unfold is_u, len in Hn. lia.
Qed.

(** * Handle tables *)

Record table_ok (t : Table) : Prop := {
  t_index : ∀ k i, index t !! k = Some i ↔ 0 ≤ i ∧ rows t !! Z.to_nat i = Some k
}.

Lemma no_table_ok : table_ok no_table.
Proof. split. intros k i. simpl. rewrite lookup_empty, lookup_nil. naive_solver. Qed.

Lemma intern_spec t k i t' :
  table_ok t → intern t k = (i, t') → table_ok t' ∧ rows t `prefix_of` rows t' ∧ 0 ≤ i ∧ rows t' !! Z.to_nat i = Some k.
Proof.
  intros [Hi]. unfold intern. destruct (index t !! k) as [i0|] eqn:E; intros [= <- <-].
  - apply Hi in E as [? ?]. by split_and!.
  - unfold len. split_and!; [|by apply prefix_app_r|lia|simpl; by rewrite Nat2Z.id, list_lookup_middle]. split. intros k' i. simpl.
    rewrite lookup_insert_Some, lookup_app_Some, Hi. split.
    + intros [[<- <-]|[Hne [? ?]]]; [|by split; [|left]]. split; [lia|]. right. split; [lia|]. by rewrite Nat2Z.id, Nat.sub_diag.
    + intros [H0 [Hr|[Hge Hr]]].
      * right. split; [|done]. intros <-. assert (index t !! k = Some i) by (by apply Hi). congruence.
      * left. apply list_lookup_singleton_Some in Hr as [Hr <-]. split; [done|]. lia.
Qed.

(** The reference [x] stands for region [r] under the table [hs]. *)
Definition refers (hs : list TableHandle) (r : Region) (x : RegionRef) : Prop :=
  let '(idx, o, s) := x in hs !! Z.to_nat idx = Some (tkey r) ∧ 0 ≤ idx ∧ o = mask64 (off r) ∧ s = mask32 (size r).

Lemma refers_prefix hs hs' r x : hs `prefix_of` hs' → refers hs r x → refers hs' r x.
Proof. destruct x as [[idx o] s]. intros Hp (Hl & ? & ?). split; [|done]. by eapply prefix_lookup_Some. Qed.

Lemma encode_regions_parses t rs bs t' :
  table_ok t → encode_regions t rs = Ok (bs, t') →
  table_ok t' ∧ rows t `prefix_of` rows t' ∧
  ∃ xs, Forall2 (refers (rows t')) rs xs ∧ ∀ n, len (rows t') ≤ n → parses (read_n (length rs) (region_ref n)) bs xs.
Proof.
  revert t bs. induction rs as [|r rs IH]; intros t bs Ht; cbn [encode_regions].
  { intros [<- <-]%Ok_inj%pair_equal_spec. split_and!; try done. exists []. split; [done|]. intros n _. apply parses_ret. }
  destruct (intern t (tkey r)) as [idx t1] eqn:Ei. destruct (intern_spec _ _ _ _ Ht Ei) as (Ht1 & Hp1 & H0 & Hr).
  intros (ib & [-> Hi]%pack_u_Ok & (ob & [-> Ho]%pack_u_Ok & (sb & [-> Hs]%pack_u_Ok & ([rest t2] & Hb & [<- <-]%Ok_inj%pair_equal_spec)%py_bind_Ok)%py_bind_Ok)%py_bind_Ok)%py_bind_Ok.
  destruct (IH t1 rest Ht1 Hb) as (Ht2 & Hp2 & xs & Hx & Hpa). split_and!; [done|by etrans|].
  assert (rows t2 !! Z.to_nat idx = Some (tkey r)) as Hr2 by (by eapply prefix_lookup_Some).
  exists ((idx, mask64 (off r), mask32 (size r)) :: xs). split; [by constructor|]. intros n Hn. cbn [length read_n]. rewrite !app_assoc.
  eapply parses_bind; [|eapply parses_last; [by apply Hpa|apply parses_ret]]. rewrite <- !app_assoc.
  eapply parses_bind; [eauto with wire|]. eapply parses_bind; [eauto with wire|]. eapply parses_last; [eauto with wire|].
  apply lookup_lt_Some in Hr2. unfold len in Hn. destruct (Z.leb_spec n idx); [lia|]. apply parses_ret.
Qed.

(** The entry [x] stands for the client's entry [e]. *)
Definition entry_refers (hs : list TableHandle) (e : Entry) (x : BatchEntry) : Prop :=
  x.1 = mask64 e.1 ∧ Forall2 (refers hs) e.2 x.2.

Lemma encode_entries_parses t es bs t' :
  table_ok t → encode_entries t es = Ok (bs, t') →
  table_ok t' ∧ rows t `prefix_of` rows t' ∧
  ∃ xs, Forall2 (entry_refers (rows t')) es xs ∧ ∀ n, len (rows t') ≤ n → parses (read_n (length es) (batch_entry n)) bs xs.
Proof.
  revert t bs. induction es as [|[k rs] es IH]; intros t bs Ht; cbn [encode_entries].
  { intros [<- <-]%Ok_inj%pair_equal_spec. split_and!; try done. exists []. split; [done|]. intros n _. apply parses_ret. }
  intros (kb & [-> Hk]%pack_u_Ok & (nb & [-> Hn]%pack_u_Ok & ([rb t1] & Hr & ([rest t2] & Hb & [<- <-]%Ok_inj%pair_equal_spec)%py_bind_Ok)%py_bind_Ok)%py_bind_Ok)%py_bind_Ok.
  destruct (encode_regions_parses t rs rb t1 Ht Hr) as (Ht1 & Hp1 & xs & Hx & Hpa).
  destruct (IH t1 rest Ht1 Hb) as (Ht2 & Hp2 & ys & Hy & Hpb). split_and!; [done|by etrans|].
  exists ((mask64 k, xs) :: ys). split; [constructor; [|done]; split; [done|]; eapply Forall2_impl; [exact Hx|]; intros ? ?; by apply refers_prefix|].
  intros n Hln. assert (len (rows t1) ≤ n) by (apply prefix_length in Hp2; unfold len in *; lia). cbn [length read_n]. rewrite !app_assoc.
  eapply parses_bind; [|eapply parses_last; [by apply Hpb|apply parses_ret]]. rewrite <- !app_assoc.
  eapply parses_bind; [eauto with wire|]. eapply parses_bind; [eauto with wire|]. unfold len. rewrite Nat2Z.id.
  eapply parses_last; [by apply Hpa|]. apply parses_ret.
Qed.

Lemma encode_head_parses rs bs : encode_head rs = Ok bs → parses read_handles bs rs.
Proof.
  intros (n & [-> Hn]%pack_u_Ok & (body & Hb & <-%Ok_inj)%py_bind_Ok)%py_bind_Ok.
  assert (∃ bss, body = concat bss ∧ Forall2 (parses table_handle) bss rs) as (bss & -> & Hp).
  { clear Hn. revert body Hb. induction rs as [|[h d] rs IH]; intros body Hb; cbn [encode_rows] in Hb; [apply Ok_inj in Hb as <-; by exists []|].
    destruct (Nat.eqb_spec (length h) 64) as [Hh|]; [|done]. simpl negb in Hb.
    apply py_bind_Ok in Hb as (db & [-> Hd]%pack_i32_Ok & (rest & Hb & <-%Ok_inj)%py_bind_Ok). destruct (IH _ Hb) as (bss & -> & Hp).
    exists ((h ++ to_le_bytes 4 d) :: bss). split; [by rewrite List.concat_cons, <- !app_assoc|]. constructor; [|done].
    eapply parses_bind; [by apply parses_take|]. eapply parses_last; [eauto with wire|]. apply parses_ret. }
  apply parses_counted; [done|]. unfold is_u, len in Hn. lia.
Qed.

Lemma encode_handle_batch_parses es bs :
  encode_handle_batch es = Ok bs → ∃ b, parses decode_handle_batch bs b ∧ Forall2 (entry_refers (handles b)) es (entries b).
Proof.
  intros (n & [-> Hn]%pack_u_Ok & ([eb t] & He & (hb & Hh & <-%Ok_inj)%py_bind_Ok)%py_bind_Ok)%py_bind_Ok.
  destruct (encode_entries_parses _ _ _ _ no_table_ok He) as (_ & _ & xs & Hx & Hpa).
  exists (mkBatch (rows t) xs). split; [|done]. eapply parses_bind; [by apply encode_head_parses|].
  eapply parses_bind; [eauto with wire|]. unfold len. rewrite Nat2Z.id. eapply parses_last; [by apply Hpa|]. apply parses_ret.
Qed.

(** * What a batch means

    Its keys, each with the regions its references stand for. *)

Definition resolve_region (hs : list TableHandle) (x : RegionRef) : option Region :=
  let '(idx, o, s) := x in h ← hs !! Z.to_nat idx; Some (mkRegion h.1 h.2 o s).

Definition resolve_entry (hs : list TableHandle) (e : BatchEntry) : option Entry :=
  rs ← mapM (resolve_region hs) e.2; Some (e.1, rs).

Definition resolve (b : HandleBatch) : option (list Entry) := mapM (resolve_entry (handles b)) (entries b).

(** The client's entries at the widths of the wire. *)
Definition on_wire_region (r : Region) : Region := mkRegion (hb r) (dev r) (mask64 (off r)) (mask32 (size r)).
Definition on_wire (e : Entry) : Entry := (mask64 e.1, on_wire_region <$> e.2).

Lemma resolve_refers b es : Forall2 (entry_refers (handles b)) es (entries b) → resolve b = Some (on_wire <$> es).
Proof.
  intros H. unfold resolve. apply mapM_Some. apply Forall2_flip in H. apply Forall2_fmap_r. eapply Forall2_impl; [exact H|].
  intros [k xs] [k' rs] [Hk Hx]. simpl in *. subst k. unfold resolve_entry. simpl.
  assert (mapM (resolve_region (handles b)) xs = Some (on_wire_region <$> rs)) as ->; [|done].
  apply mapM_Some, Forall2_fmap_r. apply Forall2_flip in Hx. eapply Forall2_impl; [exact Hx|].
  intros [[idx o] s] r (Hl & _ & -> & ->). simpl. by rewrite Hl.
Qed.

(** * Layer tables *)

(** The decoded layer [l] is the client's row. *)
Record layer_refers (hs : list TableHandle) (r : LayerRow) (l : Layer) : Prop := {
  lf_handle : hs !! Z.to_nat (l_idx l) = Some (lr_hb r, lr_dev r);
  lf_idx : 0 ≤ l_idx l;
  lf_base : Wire.base_delta l = lr_base r ∧ is_u 64 (lr_base r);
  lf_stride : stride l = lr_stride r ∧ is_u 64 (lr_stride r);
  lf_size : l_size l = lr_size r ∧ is_u 32 (lr_size r)
}.

Lemma layer_refers_prefix hs hs' r l : hs `prefix_of` hs' → layer_refers hs r l → layer_refers hs' r l.
Proof. intros Hp [Hl ? ? ? ?]. split; try done. by eapply prefix_lookup_Some. Qed.

Lemma encode_layer_rows_parses t rs bs t' :
  table_ok t → encode_layer_rows t rs = Ok (bs, t') →
  table_ok t' ∧ rows t `prefix_of` rows t' ∧
  ∃ ls, Forall2 (layer_refers (rows t')) rs ls ∧ ∀ n, len (rows t') ≤ n → parses (read_n (length rs) (layer n)) bs ls.
Proof.
  revert t bs. induction rs as [|r rs IH]; intros t bs Ht; cbn [encode_layer_rows].
  { intros [<- <-]%Ok_inj%pair_equal_spec. split_and!; try done. exists []. split; [done|]. intros n _. apply parses_ret. }
  destruct (intern t _) as [idx t1] eqn:Ei. destruct (intern_spec _ _ _ _ Ht Ei) as (Ht1 & Hp1 & H0 & Hr).
  intros (ib & [-> Hi]%pack_u_Ok & (bb & [-> Hb]%pack_u_Ok & (stb & [-> Hst]%pack_u_Ok & (sb & [-> Hs]%pack_u_Ok & ([rest t2] & He & [<- <-]%Ok_inj%pair_equal_spec)%py_bind_Ok)%py_bind_Ok)%py_bind_Ok)%py_bind_Ok)%py_bind_Ok.
  destruct (IH t1 rest Ht1 He) as (Ht2 & Hp2 & ls & Hx & Hpa). split_and!; [done|by etrans|].
  assert (rows t2 !! Z.to_nat idx = Some (lr_hb r, lr_dev r)) as Hr2 by (by eapply prefix_lookup_Some).
  exists (mkLayer idx (lr_base r) (lr_stride r) (lr_size r) :: ls). split; [by constructor|]. intros n Hn. cbn [length read_n]. rewrite !app_assoc.
  eapply parses_bind; [|eapply parses_last; [by apply Hpa|apply parses_ret]]. rewrite <- !app_assoc.
  eapply parses_bind; [eauto with wire|]. eapply parses_bind; [eauto with wire|]. eapply parses_bind; [eauto with wire|].
  eapply parses_last; [eauto with wire|]. apply lookup_lt_Some in Hr2. unfold len in Hn. destruct (Z.leb_spec n idx); [lia|]. apply parses_ret.
Qed.

(** The head of a compact request: the handles, then the layers. *)
Lemma encode_layer_table_parses rs extra table first :
  encode_layer_table rs extra = Ok (table, first) →
  ∃ hs ls head body, table = head ++ body ∧ parses read_handles head hs ∧ parses (read_layers (Z.of_nat (length hs))) body ls ∧
    Forall2 (layer_refers hs) rs ls ∧ 0 ≤ first ∧ len rs < 2 ^ 16 ∧ ∀ i, hs !! (Z.to_nat first + i)%nat = extra !! i.
Proof.
  unfold encode_layer_table. case_bool_decide as Hne; [done|]. simpl orb. destruct (Z.ltb_spec 65535 (len rs)); [done|].
  intros (n & [-> Hn]%pack_u_Ok & ([lb t] & Hl & (hd & Hh & [<- <-]%Ok_inj%pair_equal_spec)%py_bind_Ok)%py_bind_Ok)%py_bind_Ok.
  destruct (encode_layer_rows_parses _ _ _ _ no_table_ok Hl) as (_ & _ & ls & Hx & Hpa).
  exists (rows t ++ extra), ls, hd, (to_le_bytes 2 (len rs) ++ lb). split_and!; [done|by apply encode_head_parses| | |unfold len; lia|lia|].
  - eapply parses_bind; [eauto with wire|]. destruct (Z.eqb_spec (len rs) 0) as [Hz|_]; [unfold len in Hz; destruct rs; [done|simpl in Hz; lia]|].
    unfold len at 1. rewrite Nat2Z.id. apply Hpa. rewrite length_app. unfold len. lia.
  - eapply Forall2_impl; [exact Hx|]. intros r l. apply layer_refers_prefix, prefix_app_r. done.
  - intros i. unfold len. rewrite Nat2Z.id, lookup_app_r by lia. f_equal. lia.
Qed.

(** ** Blocks *)

Definition row_region (id : Z) (r : LayerRow) : Region := mkRegion (lr_hb r) (lr_dev r) (lr_base r + id * lr_stride r) (lr_size r).

(** No layer's offset of block [id] overflows. *)
Definition in_reach (rs : list LayerRow) (id : Z) : Prop :=
  0 ≤ id ∧ Forall (λ r, lr_base r + id * lr_stride r < 2 ^ 64) rs.

Lemma block_regions_parses hs rs ls id :
  Forall2 (layer_refers hs) rs ls → in_reach rs id →
  ∃ xs, parses (block_regions id ls) [] xs ∧ Forall2 (refers hs) (row_region id <$> rs) xs.
Proof.
  intros Hl [H0 Hr]. induction Hl as [|r l rs ls [Hh Hi [Hb Hbu] [Hs Hsu] [Hz Hzu]] _ IH]; simpl; [exists []; split; [apply parses_ret|done]|].
  apply Forall_cons in Hr as [Hr Hrs]. destruct (IH Hrs) as (xs & Hpa & Hx).
  assert (layer_offset id l = Some (lr_base r + id * lr_stride r)) as ->.
  { unfold layer_offset. rewrite Hb, Hs. unfold is_u in *. destruct (Z.leb_spec (2 ^ 64) (id * lr_stride r)); [nia|].
    destruct (Z.leb_spec (2 ^ 64) (id * lr_stride r + lr_base r)); [lia|]. f_equal. lia. }
  eexists. split; [eapply parses_last; [exact Hpa|apply parses_ret]|]. constructor; [|done]. simpl. rewrite Hz.
  split_and!; [done|done|symmetry; apply mask64_id; unfold is_u in *; nia|by rewrite mask32_id].
Qed.

Lemma block_entries_parses hs rs ls keys ids :
  Forall2 (layer_refers hs) rs ls → length keys = length ids → Forall (is_u 64) keys → Forall (is_u 64) ids → Forall (in_reach rs) ids →
  ∃ xs, parses (block_entries ls keys) (concat (to_le_bytes 8 <$> ids)) xs ∧
    Forall2 (entry_refers hs) (zip_with (λ id k, (k, row_region id <$> rs)) ids keys) xs.
Proof.
  intros Hl. revert keys. induction ids as [|id ids IH]; intros [|k keys] Hlen Hk Hi Hr; try done; [exists []; split; [apply parses_ret|constructor]|].
  apply Forall_cons in Hk as [Hk Hks], Hi as [Hi His], Hr as [Hr Hrs]. destruct (IH keys ltac:(by injection Hlen) Hks His Hrs) as (xs & Hpa & Hx).
  destruct (block_regions_parses _ _ _ _ Hl Hr) as (ys & Hpb & Hy).
  exists ((k, ys) :: xs). split.
  - rewrite fmap_cons, List.concat_cons. eapply parses_bind; [eauto with wire|]. rewrite <- (app_nil_l (concat _)).
    eapply parses_bind; [exact Hpb|]. eapply parses_last; [exact Hpa|]. apply parses_ret.
  - constructor; [|done]. split; [|done]. simpl. by rewrite mask64_id.
Qed.

Lemma block_batch_parses rs keys ids table first tail :
  encode_layer_table rs [] = Ok (table, first) → encode_block_entries keys ids = Ok tail → Forall (in_reach rs) ids →
  ∃ b, parses decode_block_batch (table ++ tail) b ∧
    Forall2 (entry_refers (handles b)) (zip_with (λ id k, (k, row_region id <$> rs)) ids (mask64 <$> keys)) (entries b).
Proof.
  intros (hs & ls & head & body & -> & Hh & Hl & Hx & _)%encode_layer_table_parses He Hr.
  unfold encode_block_entries in He. destruct (Z.eqb_spec (len ids) (len keys)) as [Hlen|]; [|done]. simpl in He.
  assert (∀ ks, pack_block_entries ks ids = Ok tail → length ks = length keys → mask64 <$> keys = ks → 
    ∃ b, parses decode_block_batch ((head ++ body) ++ tail) b ∧
      Forall2 (entry_refers (handles b)) (zip_with (λ id k, (k, row_region id <$> rs)) ids (mask64 <$> keys)) (entries b)) as Hp.
  { intros ks (n & [-> Hn]%pack_u_Ok & (kb & [-> Hk]%pack_us_Ok & (ib & [-> Hi]%pack_us_Ok & <-%Ok_inj)%py_bind_Ok)%py_bind_Ok)%py_bind_Ok Hlk ->.
    destruct (block_entries_parses hs rs ls ks ids Hx) as (xs & Hpa & Hxs); [unfold len in Hlen; lia|done..|].
    exists (mkBatch hs xs). split; [|done]. rewrite <- app_assoc. eapply parses_bind; [exact Hh|]. eapply parses_bind; [exact Hl|].
    eapply parses_bind; [eauto with wire|]. eapply parses_bind; [|eapply parses_last; [exact Hpa|apply parses_ret]].
    unfold len. rewrite Nat2Z.id. apply parses_read_n. by apply parses_u64s. }
  unfold or_masked in He. destruct (pack_block_entries keys ids) as [b|[]] eqn:E; try done.
  - apply Ok_inj in He as ->. apply (Hp keys E eq_refl). apply py_bind_Ok in E as (n & _ & (kb & [_ Hk]%pack_us_Ok & _)%py_bind_Ok). by apply mask64_all.
  - apply (Hp (mask64 <$> keys) He); [by rewrite length_fmap|done].
Qed.

(** ** Chunks *)

Definition rows_size (rs : list LayerRow) : Z := foldr (λ r a, lr_size r + a) 0 rs.

(** One skipped block's layers, side by side from [o] on. *)
Fixpoint scratch_row (h : list Z) (d o : Z) (rs : list LayerRow) : list Region :=
  match rs with [] => [] | r :: rs => mkRegion h d o (lr_size r) :: scratch_row h d (o + lr_size r) rs end.

Fixpoint scratch_blocks (h : list Z) (d : Z) (rs : list LayerRow) (s : nat) (skipped : Z) : list Region :=
  match s with O => [] | S s => scratch_row h d (skipped * rows_size rs) rs ++ scratch_blocks h d rs s (skipped + 1) end.

Lemma rows_size_bound hs rs ls :
  Forall2 (layer_refers hs) rs ls → layers_size ls = rows_size rs ∧ 0 ≤ rows_size rs ≤ Z.of_nat (length rs) * (2 ^ 32 - 1).
Proof. induction 1 as [|r l rs ls [_ _ _ _ [Hz Hu]] _ [IH1 IH2]]; simpl; [lia|]. rewrite Hz, IH1. unfold is_u in Hu. lia. Qed.

Lemma sum_sizes_refers hs rs ls acc :
  Forall2 (layer_refers hs) rs ls → acc + layers_size ls < 2 ^ 64 → sum_sizes acc ls = Ret (acc + layers_size ls).
Proof.
  intros Hl. revert acc. induction Hl as [|r l rs ls [_ _ _ _ [Hz Hu]] Hl IH]; intros acc Ha; simpl in *; [f_equal; lia|].
  destruct (rows_size_bound _ _ _ Hl) as [Hs Hb]. unfold is_u in Hu. rewrite add_w_Ret, bind_Ret_l, IH by lia. f_equal. lia.
Qed.

Lemma scratch_regions_parses hs rs ls idx h d o :
  Forall2 (layer_refers hs) rs ls → hs !! Z.to_nat idx = Some (h, d) → 0 ≤ idx → 0 ≤ o → o + rows_size rs < 2 ^ 64 →
  ∃ xs, parses (scratch_regions idx o ls) [] xs ∧ Forall2 (refers hs) (scratch_row h d o rs) xs.
Proof.
  intros Hl Hh H0. revert o. induction Hl as [|r l rs ls Hr Hl IH]; intros o Ho Hs; simpl in *; [exists []; split; [apply parses_ret|done]|].
  destruct (rows_size_bound _ _ _ Hl) as [_ Hb]. destruct Hr as [_ _ _ _ [Hz Hu]]. pose proof Hu as Hu'. unfold is_u in Hu'.
  destruct (IH (o + lr_size r)) as (xs & Hpa & Hx); [lia|lia|]. exists ((idx, o, l_size l) :: xs). split.
  - rewrite <- (app_nil_l []). eapply parses_bind; [apply parses_lift, add_w_Ret; rewrite Hz; lia|]. rewrite Hz. eapply parses_last; [exact Hpa|]. apply parses_ret.
  - constructor; [|done]. rewrite Hz. split_and!; [done|done|symmetry; apply mask64_id; unfold is_u; lia|by rewrite mask32_id].
Qed.

(** One key: skipped blocks, blocks, absent blocks. *)
Lemma chunk_regions_parses hs rs ls idx h d mine a s skipped :
  Forall2 (layer_refers hs) rs ls → len rs < 2 ^ 16 → (s ≠ 0%nat → hs !! Z.to_nat idx = Some (h, d)) → 0 ≤ idx →
  Forall (in_reach rs) mine → Forall (λ id, id < CHUNK_ABSENT) mine → 0 ≤ skipped → skipped + Z.of_nat s < 2 ^ 16 →
  ∃ xs, parses (chunk_regions (Z.of_nat (length hs)) idx (layers_size ls) ls (s + (length mine + a)) skipped)
      (concat (to_le_bytes 8 <$> (replicate s CHUNK_SCRATCH ++ mine ++ replicate a CHUNK_ABSENT))) xs ∧
    Forall2 (refers hs) (scratch_blocks h d rs s skipped ++ (mine ≫= λ id, row_region id <$> rs)) xs.
Proof.
  intros Hl Hlen Hh H0 Hr Hc. destruct (rows_size_bound _ _ _ Hl) as [Hsz Hb]. unfold len in Hlen. revert skipped.
  assert (∀ m skipped, parses (chunk_regions (Z.of_nat (length hs)) idx (layers_size ls) ls m skipped) (concat (to_le_bytes 8 <$> replicate m CHUNK_ABSENT)) []) as Habs.
  { intros m. induction m as [|m IH]; intros skipped; [apply parses_ret|]. cbn [replicate chunk_regions]. rewrite fmap_cons, List.concat_cons.
    eapply parses_bind; [apply parses_u64; split; unfold CHUNK_ABSENT, u64_max; lia|]. simpl. apply IH. }
  assert (∀ skipped, ∃ xs, parses (chunk_regions (Z.of_nat (length hs)) idx (layers_size ls) ls (length mine + a) skipped)
    (concat (to_le_bytes 8 <$> (mine ++ replicate a CHUNK_ABSENT))) xs ∧ Forall2 (refers hs) (mine ≫= λ id, row_region id <$> rs) xs) as Hmine.
  { intros skipped. induction Hc as [|id mine Hid Hc IH]; [exists []; split; [apply Habs|done]|]. apply Forall_cons in Hr as [Hr Hrs].
    destruct (IH Hrs) as (xs & Hpa & Hx). destruct (block_regions_parses _ _ _ _ Hl Hr) as (ys & Hpb & Hy).
    exists (ys ++ xs). split; [|simpl; by apply Forall2_app]. cbn [length Nat.add chunk_regions app]. rewrite fmap_cons, List.concat_cons.
    destruct Hr as [Hge _]. unfold CHUNK_ABSENT, u64_max in Hid. eapply parses_bind; [apply parses_u64; split; lia|].
    destruct (Z.eqb_spec id CHUNK_ABSENT); [unfold CHUNK_ABSENT, u64_max in *; lia|]. destruct (Z.eqb_spec id CHUNK_SCRATCH); [unfold CHUNK_SCRATCH, u64_max in *; lia|].
    rewrite <- (app_nil_l (concat _)). eapply parses_bind; [exact Hpb|]. eapply parses_last; [exact Hpa|]. apply parses_ret. }
  induction s as [|s IH]; intros skipped Hs0 Hs1; [apply Hmine|].
  destruct (IH ltac:(intros _; by apply Hh) (skipped + 1) ltac:(lia) ltac:(lia)) as (xs & Hpa & Hx). clear IH Hmine.
  assert (skipped * rows_size rs + rows_size rs < 2 ^ 64) by nia. specialize (Hh ltac:(lia)).
  destruct (scratch_regions_parses hs rs ls idx h d (skipped * rows_size rs) Hl Hh H0 ltac:(nia) ltac:(lia)) as (ys & Hpb & Hy).
  exists (ys ++ xs). split; [|cbn [scratch_blocks]; rewrite <- app_assoc; by apply Forall2_app].
  cbn [replicate Nat.add chunk_regions app]. rewrite fmap_cons, List.concat_cons. eapply parses_bind; [apply parses_u64; split; unfold CHUNK_SCRATCH, u64_max; lia|].
  simpl. apply lookup_lt_Some in Hh. destruct (Z.leb_spec (Z.of_nat (length hs)) idx); [lia|]. rewrite Hsz in *.
  rewrite <- (app_nil_l (concat _)). eapply parses_bind; [apply parses_lift, mul_w_Ret; nia|]. rewrite <- (app_nil_l (concat _)).
  eapply parses_bind; [exact Hpb|]. rewrite <- (app_nil_l (concat _)). eapply parses_bind; [apply parses_lift, add_w_Ret; lia|].
  eapply parses_last; [exact Hpa|]. apply parses_ret.
Qed.

(** ** The worker's requests *)

Import Handler.

Lemma regions_for_block_rows regions id : regions_for_block regions id = row_region id <$> layer_rows regions.
Proof. unfold regions_for_block, layer_rows. rewrite <- list_fmap_compose. done. Qed.

Lemma per_block_rows regions : per_block regions = rows_size (layer_rows regions).
Proof. induction regions as [|r regions IH]; simpl; [done|]. by rewrite IH. Qed.

Lemma scratch_row_imap h d o regions :
  imap (λ layer r, mkRegion h d (o + per_block (take layer regions)) (stride_bytes r)) regions = scratch_row h d o (layer_rows regions).
Proof.
  revert o. induction regions as [|r regions IH]; intros o; [done|]. rewrite imap_cons. cbn [layer_rows fmap list_fmap scratch_row]. f_equal.
  - f_equal. simpl. lia.
  - rewrite <- IH. apply imap_ext. intros i r' _. simpl. f_equal. lia.
Qed.

Lemma scratch_pieces_blocks regions skip scratch :
  scratch_pieces regions skip scratch = scratch_blocks (handle_bytes scratch) (gpu_device_id scratch) (layer_rows regions) skip 0.
Proof.
  unfold scratch_pieces. change 0 with (Z.of_nat 0). generalize 0%nat as j. induction skip as [|skip IH]; intros j; [done|].
  cbn [seq mbind list_bind scratch_blocks]. f_equal.
  - unfold scratch_offset. rewrite <- per_block_rows. apply scratch_row_imap.
  - replace (Z.of_nat j + 1) with (Z.of_nat (S j)) by lia. apply IH.
Qed.

(** The ids of all keys, cut at the first key's share. *)
Lemma chunk_ids_cut (ids : list Z) skip bpc n :
  (skip ≤ bpc)%nat → (skip + length ids ≤ S n * bpc)%nat →
  let mine := take (bpc - skip) ids in
  replicate skip CHUNK_SCRATCH ++ ids ++ replicate (S n * bpc - (skip + length ids)) CHUNK_ABSENT =
  (replicate skip CHUNK_SCRATCH ++ mine ++ replicate (bpc - skip - length mine) CHUNK_ABSENT) ++
  (drop (bpc - skip) ids ++ replicate (n * bpc - length (drop (bpc - skip) ids)) CHUNK_ABSENT).
Proof.
  intros Hs Hl mine. unfold mine. rewrite <- !app_assoc. f_equal. rewrite length_take, length_drop.
  destruct (decide (bpc - skip ≤ length ids)%nat) as [Hge|Hlt].
  - replace (bpc - skip - (bpc - skip) `min` length ids)%nat with 0%nat by lia. simpl replicate. rewrite app_nil_l, app_assoc, take_drop. f_equal. f_equal. lia.
  - rewrite take_ge, drop_ge by lia. rewrite app_nil_l, <- replicate_add. f_equal. f_equal. lia.
Qed.

Lemma chunk_entries_parses hs regions ls idx scratch keys ids skip bpc :
  Forall2 (layer_refers hs) (layer_rows regions) ls → len (layer_rows regions) < 2 ^ 16 →
  (skip ≠ 0%nat → hs !! Z.to_nat idx = Some (handle_bytes scratch, gpu_device_id scratch)) → 0 ≤ idx →
  Forall (in_reach (layer_rows regions)) ids → Forall (λ id, id < CHUNK_ABSENT) ids → Forall (is_u 64) keys →
  (skip ≤ bpc)%nat → (skip + length ids ≤ length keys * bpc)%nat → Z.of_nat bpc < 2 ^ 16 →
  ∃ xs, parses (Wire.chunk_entries (Z.of_nat (length hs)) idx (layers_size ls) ls bpc keys)
      (concat (to_le_bytes 8 <$> (replicate skip CHUNK_SCRATCH ++ ids ++ replicate (length keys * bpc - (skip + length ids)) CHUNK_ABSENT))) xs ∧
    Forall2 (entry_refers hs) (chunk_loop regions ids keys bpc skip scratch) xs.
Proof.
  intros Hl Hlen. revert ids skip. induction keys as [|k keys IH]; intros ids skip Hh H0 Hr Hc Hk Hs Hlk Hb.
  { destruct skip, ids; simpl in Hlk; try lia. exists []. split; [apply parses_ret|constructor]. }
  apply Forall_cons in Hk as [Hk Hks]. set (mine := take (bpc - skip) ids).
  destruct (chunk_regions_parses hs _ ls idx (handle_bytes scratch) (gpu_device_id scratch) mine (bpc - skip - length mine) skip 0
    Hl Hlen Hh H0 ltac:(by apply Forall_take) ltac:(by apply Forall_take) ltac:(lia) ltac:(lia)) as (ys & Hpb & Hy).
  destruct (IH (drop (bpc - skip) ids) 0%nat) as (xs & Hpa & Hx); try done; [by apply Forall_drop..|lia|rewrite length_drop; simpl in Hlk; lia|].
  assert (length mine ≤ bpc - skip)%nat by (unfold mine; rewrite length_take; lia).
  replace (skip + (length mine + (bpc - skip - length mine)))%nat with bpc in Hpb by lia.
  exists ((k, ys) :: xs). split.
  - cbn [length] in *. rewrite (chunk_ids_cut ids skip bpc (length keys)) by done. fold mine. rewrite fmap_app, concat_app. eapply parses_bind; [exact Hpb|].
    eapply parses_last; [exact Hpa|]. apply parses_ret.
  - constructor; [|done]. split; [simpl; by rewrite mask64_id|]. simpl. rewrite scratch_pieces_blocks.
    erewrite (list_bind_ext (regions_for_block regions)); [exact Hy|intros id; apply regions_for_block_rows|done].
Qed.

Lemma chunk_table_parses regions skip scratch table idx :
  chunk_table_for regions skip scratch = Ok (table, idx) →
  ∃ hs ls head body, table = head ++ body ∧ parses read_handles head hs ∧ parses (read_layers (Z.of_nat (length hs))) body ls ∧
    Forall2 (layer_refers hs) (layer_rows regions) ls ∧ len (layer_rows regions) < 2 ^ 16 ∧ 0 ≤ idx ∧
    (skip ≠ 0%nat → hs !! Z.to_nat idx = Some (handle_bytes scratch, gpu_device_id scratch)).
Proof.
  unfold chunk_table_for. destruct (Nat.eqb_spec skip 0) as [->|Hs].
  - intros ([t f] & (hs & ls & head & body & -> & ? & ? & ? & _ & ? & _)%encode_layer_table_parses & [= <- <-])%py_bind_Ok. exists hs, ls, head, body. by split_and!.
  - intros (hs & ls & head & body & -> & ? & ? & ? & ? & ? & He)%encode_layer_table_parses. exists hs, ls, head, body. split_and!; try done.
    intros _. specialize (He 0%nat). by rewrite Nat.add_0_r in He.
Qed.

Lemma chunk_batch_parses regions ids keys bpc skip scratch table idx cids tail :
  chunk_table_for regions skip scratch = Ok (table, idx) → chunk_ids ids (length keys) bpc skip = Ok cids →
  encode_chunk_entries idx (Z.of_nat bpc) keys cids = Ok tail →
  Forall (in_reach (layer_rows regions)) ids → Forall (λ id, id < CHUNK_ABSENT) ids →
  ∃ b, parses decode_chunk_block_batch (table ++ tail) b ∧
    Forall2 (entry_refers (handles b)) (chunk_loop regions ids (mask64 <$> keys) bpc skip scratch) (entries b).
Proof.
  intros (hs & ls & head & body & -> & Hh & Hl & Hx & Hlen & H0 & Hsc)%chunk_table_parses Hids He Hr Hc.
  unfold chunk_ids, fills in Hids. destruct (Z.leb_spec 0 (Z.of_nat skip)); [|done]. destruct (Z.ltb_spec (Z.of_nat skip) (Z.of_nat bpc)); [|done].
  destruct (Z.ltb_spec (Z.of_nat (length keys) * Z.of_nat bpc - Z.of_nat skip - Z.of_nat bpc) (len ids)); [|done].
  destruct (Z.leb_spec (len ids) (Z.of_nat (length keys) * Z.of_nat bpc - Z.of_nat skip)); [|done]. apply Ok_inj in Hids as <-. unfold len in *.
  rewrite length_app, length_replicate, <- app_assoc in He. set (cids := replicate skip _ ++ _) in He.
  unfold encode_chunk_entries in He. destruct (Z.ltb_spec (Z.of_nat bpc) 1); [done|]. destruct (Z.ltb_spec 65535 (Z.of_nat bpc)); [done|]. simpl in He.
  destruct (len cids =? _); [|done]. simpl in He.
  assert (∀ ks, pack_chunk_entries idx (Z.of_nat bpc) ks cids = Ok tail → length ks = length keys → mask64 <$> keys = ks →
    ∃ b, parses decode_chunk_block_batch ((head ++ body) ++ tail) b ∧
      Forall2 (entry_refers (handles b)) (chunk_loop regions ids (mask64 <$> keys) bpc skip scratch) (entries b)) as Hp.
  { intros ks (sb & [-> Hs]%pack_u_Ok & (bb & [-> Hb]%pack_u_Ok & (n & [-> Hn]%pack_u_Ok & (kb & [-> Hk]%pack_us_Ok & (ib & [-> Hi]%pack_us_Ok & <-%Ok_inj)%py_bind_Ok)%py_bind_Ok)%py_bind_Ok)%py_bind_Ok)%py_bind_Ok Hlk ->.
    destruct (chunk_entries_parses hs regions ls idx scratch ks ids skip bpc Hx ltac:(unfold len; lia) Hsc H0 Hr Hc Hk) as (xs & Hpa & Hxs);
      [lia|rewrite Hlk; lia|lia|]. rewrite Hlk in Hpa.
    exists (mkBatch hs xs). split; [|done]. rewrite <- app_assoc. eapply parses_bind; [exact Hh|]. eapply parses_bind; [exact Hl|].
    eapply parses_bind; [eauto with wire|]. eapply parses_bind; [eauto with wire|]. destruct (Z.eqb_spec (Z.of_nat bpc) 0); [lia|].
    eapply parses_bind; [eauto with wire|]. eapply parses_bind; [unfold len; rewrite Nat2Z.id; apply parses_read_n; by apply parses_u64s|].
    rewrite <- (app_nil_l (concat _)). destruct (rows_size_bound _ _ _ Hx) as [Hsz Hbd]. eapply parses_bind.
    - apply parses_lift. apply (sum_sizes_refers hs (layer_rows regions) ls 0); [done|unfold len in *; lia].
    - rewrite Nat2Z.id. eapply parses_last; [exact Hpa|]. apply parses_ret. }
  unfold or_masked in He. destruct (pack_chunk_entries idx _ keys cids) as [b|[]] eqn:E; try done.
  - apply Ok_inj in He as ->. apply (Hp keys E eq_refl).
    apply py_bind_Ok in E as (? & _ & (? & _ & (? & _ & (kb & [_ Hk]%pack_us_Ok & _)%py_bind_Ok)%py_bind_Ok)%py_bind_Ok). by apply mask64_all.
  - apply (Hp (mask64 <$> keys) He); [by rewrite length_fmap|done].
Qed.

Lemma mask64_mask k : mask64 (mask64 k) = mask64 k.
Proof. apply mask64_id, mask64_u. Qed.

Lemma chunk_loop_on_wire regions ids keys bpc skip scratch :
  on_wire <$> chunk_loop regions ids (mask64 <$> keys) bpc skip scratch = on_wire <$> chunk_loop regions ids keys bpc skip scratch.
Proof.
  revert ids skip. induction keys as [|k keys IH]; intros ids skip; [done|]. cbn [fmap list_fmap chunk_loop]. f_equal; [|apply IH].
  unfold on_wire. simpl. by rewrite mask64_mask.
Qed.

(** * Splitting *)

Definition handles_of (es : list Entry) : gset (list Z * Z) := list_to_set (es ≫= λ e, tkey <$> e.2).

(** The bytes of a request. *)
Definition weight (es : list Entry) : Z :=
  HANDLE_BATCH_FIXED + foldr (λ e a, ENTRY_FIXED + len e.2 * REGION_SIZE + a) 0 es + Z.of_nat (base.size (handles_of es)) * HANDLE_ENTRY_SIZE.

Lemma table_NoDup t : table_ok t → NoDup (rows t).
Proof.
  intros [Hi]. apply NoDup_alt. intros i j k Hik Hjk.
  assert (index t !! k = Some (Z.of_nat i)) as H1 by (apply Hi; split; [lia|by rewrite Nat2Z.id]).
  assert (index t !! k = Some (Z.of_nat j)) as H2 by (apply Hi; split; [lia|by rewrite Nat2Z.id]). rewrite H1 in H2. injection H2. lia.
Qed.

Lemma intern_rows t k i t' : table_ok t → intern t k = (i, t') → (list_to_set (rows t') : gset _) = {[k]} ∪ list_to_set (rows t).
Proof.
  intros [Hi]. unfold intern. destruct (index t !! k) as [i0|] eqn:E; intros [= <- <-].
  - apply Hi in E as [_ E%list_elem_of_lookup_2]. set_solver.
  - simpl. rewrite list_to_set_app_L. set_solver.
Qed.

Lemma encode_regions_length t rs bs t' :
  table_ok t → encode_regions t rs = Ok (bs, t') →
  len bs = len rs * REGION_SIZE ∧ (list_to_set (rows t') : gset _) = list_to_set (tkey <$> rs) ∪ list_to_set (rows t).
Proof.
  revert t bs. induction rs as [|r rs IH]; intros t bs Ht; cbn [encode_regions].
  { intros [<- <-]%Ok_inj%pair_equal_spec. split; [done|set_solver]. }
  destruct (intern t (tkey r)) as [idx t1] eqn:Ei. destruct (intern_spec _ _ _ _ Ht Ei) as (Ht1 & _). pose proof (intern_rows _ _ _ _ Ht Ei) as Hr.
  intros (ib & [-> Hi]%pack_u_Ok & (ob & [-> Ho]%pack_u_Ok & (sb & [-> Hs]%pack_u_Ok & ([rest t2] & Hb & [<- <-]%Ok_inj%pair_equal_spec)%py_bind_Ok)%py_bind_Ok)%py_bind_Ok)%py_bind_Ok.
  destruct (IH t1 rest Ht1 Hb) as (Hl & Hs2). unfold len in *. rewrite !length_app, !length_to_le_bytes by lia. split; [simpl length; unfold REGION_SIZE in *; lia|].
  rewrite Hs2, Hr. set_solver.
Qed.

Lemma encode_entries_length t es bs t' :
  table_ok t → encode_entries t es = Ok (bs, t') →
  len bs = foldr (λ e a, ENTRY_FIXED + len e.2 * REGION_SIZE + a) 0 es ∧
  (list_to_set (rows t') : gset _) = handles_of es ∪ list_to_set (rows t).
Proof.
  revert t bs. induction es as [|[k rs] es IH]; intros t bs Ht; cbn [encode_entries].
  { intros [<- <-]%Ok_inj%pair_equal_spec. split; [done|set_solver]. }
  intros (kb & [-> Hk]%pack_u_Ok & (nb & [-> Hn]%pack_u_Ok & ([rb t1] & Hr & ([rest t2] & Hb & [<- <-]%Ok_inj%pair_equal_spec)%py_bind_Ok)%py_bind_Ok)%py_bind_Ok)%py_bind_Ok.
  destruct (encode_regions_parses t rs rb t1 Ht Hr) as (Ht1 & _). destruct (encode_regions_length t rs rb t1 Ht Hr) as (Hl1 & Hs1).
  destruct (IH t1 rest Ht1 Hb) as (Hl & Hs2). unfold len in *. rewrite !length_app, !length_to_le_bytes by lia. split; [cbn [foldr snd]; unfold ENTRY_FIXED in *; lia|].
  rewrite Hs2, Hs1. unfold handles_of. cbn [mbind list_bind snd]. rewrite list_to_set_app_L. set_solver.
Qed.

Lemma encode_handle_batch_length es bs : encode_handle_batch es = Ok bs → len bs = weight es.
Proof.
  intros (n & [-> Hn]%pack_u_Ok & ([eb t] & He & (hb & Hh & <-%Ok_inj)%py_bind_Ok)%py_bind_Ok)%py_bind_Ok.
  destruct (encode_entries_parses _ _ _ _ no_table_ok He) as (Ht & _). destruct (encode_entries_length _ _ _ _ no_table_ok He) as (Hl & Hs).
  apply table_NoDup in Ht. assert (len hb = 4 + len (rows t) * HANDLE_ENTRY_SIZE) as Hhl.
  { apply py_bind_Ok in Hh as (nb & [-> _]%pack_u_Ok & (body & Hb & <-%Ok_inj)%py_bind_Ok). unfold len. rewrite length_app, length_to_le_bytes by lia.
    assert (len body = len (rows t) * HANDLE_ENTRY_SIZE) as Hlb; [|unfold len in Hlb; lia]. clear -Hb. revert body Hb.
    induction (rows t) as [|[h d] rs IH]; intros body Hb; cbn [encode_rows] in Hb; [by apply Ok_inj in Hb as <-|].
    destruct (Nat.eqb_spec (length h) 64) as [Hh|]; [|done]. simpl negb in Hb.
    apply py_bind_Ok in Hb as (db & [-> Hd]%pack_i32_Ok & (rest & Hb & <-%Ok_inj)%py_bind_Ok). specialize (IH _ Hb). unfold len in *.
    rewrite !length_app, length_to_le_bytes by lia. cbn [length]. unfold HANDLE_ENTRY_SIZE in *. lia. }
  unfold weight. replace (base.size (handles_of es)) with (length (rows t)).
  - unfold len in *. rewrite !length_app, length_to_le_bytes by lia. unfold HANDLE_BATCH_FIXED. lia.
  - simpl in Hs. rewrite union_empty_r_L in Hs. rewrite <- Hs. symmetry. by apply size_list_to_set.
Qed.

Lemma size_list_le (l : list (list Z * Z)) : (base.size (list_to_set l : gset (list Z * Z)) ≤ length l)%nat.
Proof.
  induction l as [|x l IH]; [done|]. rewrite list_to_set_cons, size_union_alt, size_singleton. cbn [length].
  assert (list_to_set l ∖ {[x]} ⊆ (list_to_set l : gset (list Z * Z))) as H%subseteq_size by set_solver. lia.
Qed.

(** Appending an entry costs at most what [entry_cost] says. *)
Lemma weight_snoc cur k rs :
  let '(body, new_h) := entry_cost rs (handles_of cur) in weight (cur ++ [(k, rs)]) ≤ weight cur + (body + new_h * HANDLE_ENTRY_SIZE).
Proof.
  unfold entry_cost, weight. rewrite foldr_app. simpl foldr. unfold handles_of at 1. rewrite bind_app, list_to_set_app_L.
  cbn [mbind list_bind snd]. rewrite app_nil_r. fold (handles_of cur). rewrite size_union_alt.
  assert (list_to_set (tkey <$> rs) ∖ handles_of cur ⊆ (list_to_set (tkey <$> filter (λ r, tkey r ∉ handles_of cur) rs) : gset _)) as Hsub%subseteq_size.
  { intros x. rewrite elem_of_difference, !elem_of_list_to_set, !list_elem_of_fmap. intros [(r & -> & Hr) Hn]. exists r. split; [done|]. by apply list_elem_of_filter. }
  pose proof (size_list_le (tkey <$> filter (λ r, tkey r ∉ handles_of cur) rs)) as Hle. rewrite length_fmap in Hle.
  assert (∀ a, foldr (λ e a, ENTRY_FIXED + len e.2 * REGION_SIZE + a) a cur = foldr (λ e a, ENTRY_FIXED + len e.2 * REGION_SIZE + a) 0 cur + a) as ->.
  { intros a. clear. induction cur as [|e cur IH]; simpl; [done|]. rewrite IH. lia. }
  unfold len in *. unfold HANDLE_ENTRY_SIZE. lia.
Qed.

Definition fits_request (cap_req : Z) (c : list Entry) : Prop := c ≠ [] ∧ (length c = 1%nat ∨ weight c ≤ cap_req).

Lemma split_loop_spec cap chunks cur seen cur_bytes es :
  Forall (fits_request cap) chunks → seen = handles_of cur → weight cur ≤ cur_bytes → cur = [] ∨ length cur = 1%nat ∨ cur_bytes ≤ cap →
  let out := split_loop cap chunks cur seen cur_bytes es in Forall (fits_request cap) out ∧ concat out = concat chunks ++ cur ++ es.
Proof.
  revert chunks cur seen cur_bytes. induction es as [|[k rs] es IH]; intros chunks cur seen cur_bytes Hc -> Hw Hcur; cbn [split_loop].
  - case_bool_decide as Hn; [subst; split; [done|]; simpl; by rewrite app_nil_r|].
    split; [apply Forall_app; split; [done|]; constructor; [|done]; split; [done|]; destruct Hcur as [?|[?|?]]; [done|by left|right; lia]|].
    rewrite concat_app. simpl. by rewrite !app_nil_r.
  - pose proof (weight_snoc cur k rs) as Hsn. pose proof (weight_snoc [] k rs) as Hs1. change (handles_of []) with (∅ : gset (list Z * Z)) in Hs1.
    destruct (entry_cost rs (handles_of cur)) as [body new_h]. destruct (entry_cost rs ∅) as [body1 new1].
    assert (∀ c, handles_of (c ++ [(k, rs)]) = handles_of c ∪ list_to_set (tkey <$> rs)) as Hh.
    { intros c. unfold handles_of. rewrite bind_app, list_to_set_app_L. cbn [mbind list_bind snd]. by rewrite app_nil_r. }
    case_bool_decide as Hn; cbn [negb andb]; [subst cur|destruct (Z.ltb_spec cap (cur_bytes + (body + new_h * HANDLE_ENTRY_SIZE)))].
    + destruct (IH chunks ([] ++ [(k, rs)]) _ (cur_bytes + (body + new_h * HANDLE_ENTRY_SIZE)) Hc (eq_sym (Hh []))) as [H1 H2]; [lia|by right; left|].
      split; [exact H1|]. etrans; [exact H2|]. done.
    + destruct (IH (chunks ++ [cur]) ([] ++ [(k, rs)]) (list_to_set (tkey <$> rs)) (HANDLE_BATCH_FIXED + (body1 + new1 * HANDLE_ENTRY_SIZE))) as [H1 H2].
      * apply Forall_app. split; [done|]. constructor; [|done]. split; [done|]. destruct Hcur as [?|[?|?]]; [done|by left|right; lia].
      * rewrite (Hh []). change (handles_of []) with (∅ : gset (list Z * Z)). set_solver.
      * change (weight []) with HANDLE_BATCH_FIXED in Hs1. exact Hs1.
      * by right; left.
      * split; [exact H1|]. etrans; [exact H2|]. rewrite concat_app. simpl. by rewrite app_nil_r, <- app_assoc.
    + destruct (IH chunks (cur ++ [(k, rs)]) _ (cur_bytes + (body + new_h * HANDLE_ENTRY_SIZE)) Hc (eq_sym (Hh cur))) as [H1 H2]; [lia|right; right; lia|].
      split; [exact H1|]. etrans; [exact H2|]. by rewrite <- app_assoc.
Qed.

(** * Eviction events *)

Definition event_bytes (evs : list (Z * Z)) : list Z := concat ((λ ev, to_le_bytes 8 ev.1 ++ to_le_bytes 4 ev.2) <$> evs).
Definition event_ok (ev : Z * Z) : Prop := is_u 64 ev.1 ∧ is_u 32 ev.2.

Lemma encode_events_app evs dropped :
  len evs < 2 ^ 32 → encode_events evs dropped = to_le_bytes 4 (len evs) ++ event_bytes evs ++ to_le_bytes 8 dropped.
Proof.
  intros Hl. unfold encode_events, w_u64, w_u32. unfold len in *. rewrite Z.mod_small by lia. rewrite app_assoc. f_equal.
  rewrite app_nil_l. generalize (to_le_bytes 4 (Z.of_nat (length evs))) as w. clear. induction evs as [|ev evs IH]; intros w; cbn [foldl].
  - change (event_bytes []) with (@nil Z). by rewrite app_nil_r.
  - rewrite IH. unfold event_bytes. by rewrite fmap_cons, List.concat_cons, <- !app_assoc.
Qed.

Lemma event_bytes_length evs : len (event_bytes evs) = 12 * len evs.
Proof.
  unfold len, event_bytes. induction evs as [|ev evs IH]; [done|]. rewrite fmap_cons, List.concat_cons, !length_app, !length_to_le_bytes by lia. cbn [length]. lia.
Qed.

Lemma rd_at pre n x t : is_u (Z.of_nat n * 8) x → rd n (length pre) (pre ++ to_le_bytes (Z.of_nat n) x ++ t) = x.
Proof.
  intros Hx. unfold rd. rewrite drop_app_length, take_app_length' by (rewrite length_to_le_bytes; lia). apply from_to_le_bytes; [lia|done].
Qed.

Lemma read_events_spec pre evs t :
  Forall event_ok evs → read_events (length evs) (length pre) (pre ++ event_bytes evs ++ t) = evs.
Proof.
  intros He. revert pre. induction He as [|[k r] evs [Hk Hr] He IH]; intros pre; [done|]. cbn [length read_events]. unfold event_bytes.
  rewrite fmap_cons, List.concat_cons, <- !app_assoc. cbn [fst snd]. fold (event_bytes evs). f_equal.
  - f_equal; [by apply (rd_at pre 8)|]. rewrite (app_assoc pre). replace (length pre + 8)%nat with (length (pre ++ to_le_bytes 8 k)).
    + by apply (rd_at _ 4).
    + rewrite length_app, length_to_le_bytes by lia. done.
  - specialize (IH ((pre ++ to_le_bytes 8 k) ++ to_le_bytes 4 r)). rewrite !length_app, !length_to_le_bytes, <- !app_assoc in IH by lia.
    by replace (length pre + Z.to_nat 8 + Z.to_nat 4)%nat with (length pre + 12)%nat in IH by lia.
Qed.

(** The response cut to [cap] bytes. *)
Lemma decode_cut_events evs dropped cap :
  Forall event_ok evs → is_u 64 dropped → len evs < 2 ^ 32 → 4 ≤ Z.of_nat cap →
  decode_take_events (take cap (encode_events evs dropped)) =
    if 4 + 12 * len evs + 8 <=? Z.of_nat cap then (evs, dropped)
    else let m := Z.max 0 ((Z.of_nat cap - 12) / 12) in (take (Z.to_nat m) evs, len evs - m).
Proof.
  intros He Hd Hl Hcap. rewrite encode_events_app by done. set (full := _ ++ _ ++ _).
  assert (len full = 4 + 12 * len evs + 8) as Hfl.
  { unfold full. pose proof (event_bytes_length evs) as Hb. unfold len in *. rewrite !length_app, !length_to_le_bytes by lia. lia. }
  pose proof (Zle_0_nat (length evs)) as H0. fold (len evs) in H0.
  assert (∀ m, 0 ≤ m ≤ len evs → 4 + 12 * m ≤ Z.of_nat cap →
    ∃ t, take cap full = to_le_bytes 4 (len evs) ++ event_bytes (take (Z.to_nat m) evs) ++ t) as Hpre.
  { intros m Hm Hc. pose proof (event_bytes_length (take (Z.to_nat m) evs)) as Hb. unfold len in Hb. rewrite length_take in Hb. unfold len in Hm.
    exists (take (cap - 4 - Z.to_nat (12 * m)) (event_bytes (drop (Z.to_nat m) evs) ++ to_le_bytes 8 dropped)).
    unfold full. rewrite <- (take_drop (Z.to_nat m) evs) at 2. unfold event_bytes at 1. rewrite fmap_app, concat_app. fold (event_bytes (take (Z.to_nat m) evs)). fold (event_bytes (drop (Z.to_nat m) evs)).
    rewrite <- app_assoc, (take_app_ge (to_le_bytes 4 _)) by (rewrite length_to_le_bytes; lia). f_equal. rewrite length_to_le_bytes by lia.
    rewrite take_app_ge by lia. f_equal. f_equal. lia. }
  assert (∀ m, 0 ≤ m ≤ len evs → 4 + 12 * m ≤ Z.of_nat cap →
    rd 4 0 (take cap full) = len evs ∧ read_events (Z.to_nat m) 4 (take cap full) = take (Z.to_nat m) evs) as Hrd.
  { intros m Hm Hc. destruct (Hpre m Hm Hc) as (t & ->). split; [by apply (rd_at [] 4); split|].
    pose proof (read_events_spec (to_le_bytes 4 (len evs)) (take (Z.to_nat m) evs) t ltac:(by apply Forall_take)) as Hr.
    rewrite length_to_le_bytes, length_take in Hr by lia. unfold len in Hm. by replace (Z.to_nat m `min` length evs)%nat with (Z.to_nat m) in Hr by lia. }
  unfold decode_take_events. destruct (Hrd 0) as [-> _]; [lia|lia|]. destruct (Z.leb_spec (4 + 12 * len evs + 8) (Z.of_nat cap)) as [Hfit|Hcut].
  - destruct (Hrd (len evs)) as [_ Hev]; [lia|lia|]. rewrite take_ge in Hev |- * by (unfold len in *; lia). rewrite Hfl.
    destruct (Z.ltb_spec (4 + 12 * len evs + 8) 4); [lia|]. replace (4 + 12 * len evs + 8 - 4 - 8) with (len evs * 12) by lia.
    rewrite Z.div_mul, Z.max_r, Z.min_id, Z.ltb_irrefl, Z.ltb_irrefl, Hev by lia. f_equal; [apply take_ge; unfold len; lia|].
    unfold full. rewrite app_assoc, <- (app_nil_r (to_le_bytes 8 dropped)). replace (Z.to_nat (4 + 12 * len evs)) with (length (to_le_bytes 4 (len evs) ++ event_bytes evs)).
    + by apply (rd_at _ 8).
    + pose proof (event_bytes_length evs) as Hb. rewrite length_app, length_to_le_bytes by lia. unfold len in *. lia.
  - assert (len (take cap full) = Z.of_nat cap) as -> by (unfold len in *; rewrite length_take; lia).
    destruct (Z.ltb_spec (Z.of_nat cap) 4); [lia|]. replace (Z.of_nat cap - 4 - 8) with (Z.of_nat cap - 12) by lia.
    set (m := Z.max 0 ((Z.of_nat cap - 12) / 12)). pose proof (Z.mul_div_le (Z.of_nat cap - 12) 12 ltac:(lia)).
    assert ((Z.of_nat cap - 12) / 12 < len evs) by (apply Z.div_lt_upper_bound; lia). assert (0 ≤ m ≤ len evs) by (unfold m; lia).
    assert (4 + 12 * m ≤ Z.of_nat cap) by (unfold m; lia). rewrite Z.min_r by lia. destruct (Hrd m) as [_ ->]; [lia|lia|].
    destruct (Z.ltb_spec m (len evs)); [done|]. destruct (Z.ltb_spec (Z.of_nat cap) (4 + 12 * m + 8)); [|lia]. f_equal. lia.
Qed.

(** * The theorems *)

(** C20. The server decodes what the client encoded. Whenever the Python
    [encode_handle_batch] of any entries returns bytes, the Rust
    [decode_handle_batch] accepts them, reads them to the last byte, and the batch
    stands, entry by entry and region by region, for the client's handles, devices,
    offsets and sizes, at the widths of the wire: the table of distinct handles and
    the indices into it have neither mixed up nor lost one. *)
Theorem handle_batch_round_trip es bs :
  encode_handle_batch es = Ok bs → len bs < 2 ^ 64 →
  ∃ b, decode_handle_batch (reader_new bs) = Ret (Ok (b, mkReader bs (length bs))) ∧ resolve b = Some (on_wire <$> es).
Proof.
  intros He Hl. destruct (encode_handle_batch_parses es bs He) as (b & Hp & Hr). exists b. split; [by apply parses_payload|by apply resolve_refers].
Qed.

(** C18. The compact requests mean the same as the region lists they replace. For
    any layers, keys, GPU blocks, skipped blocks and scratch buffer, when no layer's
    offset overflows, the request a worker sends over the chunk opcodes (layer
    table, marker ids for the skipped and the missing blocks) and the one it sends
    over the per-region opcodes ([_chunk_entries]) are decoded by the two server
    decoders to the same keys, with the same handle, device, offset and size for
    every region in the same order, scratch pieces included. *)
Theorem chunk_requests_equivalent regions ids keys bpc skip scratch table idx cids tail es legacy :
  chunk_table_for regions skip scratch = Ok (table, idx) → chunk_ids ids (length keys) bpc skip = Ok cids →
  encode_chunk_entries idx (Z.of_nat bpc) keys cids = Ok tail →
  Handler.chunk_entries regions ids keys bpc skip scratch = Ok es → encode_handle_batch es = Ok legacy →
  Forall (in_reach (layer_rows regions)) ids → Forall (λ id, id < CHUNK_ABSENT) ids →
  len (table ++ tail) < 2 ^ 64 → len legacy < 2 ^ 64 →
  ∃ b b' out, decode_chunk_block_batch (reader_new (table ++ tail)) = Ret (Ok (b, mkReader (table ++ tail) (length (table ++ tail)))) ∧
    decode_handle_batch (reader_new legacy) = Ret (Ok (b', mkReader legacy (length legacy))) ∧
    resolve b = Some out ∧ resolve b' = Some out ∧ length out = length keys.
Proof.
  intros Ht Hi He Hes Hle Hr Hc Hl1 Hl2.
  destruct (chunk_batch_parses regions ids keys bpc skip scratch table idx cids tail Ht Hi He Hr Hc) as (b & Hp & Hx).
  destruct (encode_handle_batch_parses es legacy Hle) as (b' & Hp' & Hx').
  unfold Handler.chunk_entries in Hes. destruct (fills _ _ _ _); [|done]. apply Ok_inj in Hes as <-.
  exists b, b', (on_wire <$> chunk_loop regions ids keys bpc skip scratch). split_and!; [by apply parses_payload..| |by apply resolve_refers|].
  - rewrite (resolve_refers _ _ Hx). by rewrite chunk_loop_on_wire.
  - rewrite length_fmap. clear. revert ids skip. induction keys as [|k keys IH]; intros ids skip; [done|]. simpl. by rewrite IH.
Qed.

(** The same for one block per key. *)
Theorem block_requests_equivalent regions ids keys table first tail es legacy :
  encode_layer_table (layer_rows regions) [] = Ok (table, first) → encode_block_entries keys ids = Ok tail →
  Handler.block_entries regions ids keys = Ok es → encode_handle_batch es = Ok legacy →
  Forall (in_reach (layer_rows regions)) ids → len (table ++ tail) < 2 ^ 64 → len legacy < 2 ^ 64 →
  ∃ b b' out, decode_block_batch (reader_new (table ++ tail)) = Ret (Ok (b, mkReader (table ++ tail) (length (table ++ tail)))) ∧
    decode_handle_batch (reader_new legacy) = Ret (Ok (b', mkReader legacy (length legacy))) ∧
    resolve b = Some out ∧ resolve b' = Some out.
Proof.
  intros Ht He Hes Hle Hr Hl1 Hl2. destruct (block_batch_parses _ _ _ _ _ _ Ht He Hr) as (b & Hp & Hx).
  destruct (encode_handle_batch_parses es legacy Hle) as (b' & Hp' & Hx').
  unfold Handler.block_entries in Hes. destruct (_ =? _); [|done]. apply Ok_inj in Hes as <-.
  exists b, b', (on_wire <$> zip_with (λ id k, (k, regions_for_block regions id)) ids keys).
  split_and!; [by apply parses_payload..| |by apply resolve_refers]. rewrite (resolve_refers _ _ Hx). f_equal. clear.
  revert keys. induction ids as [|id ids IH]; intros [|k keys]; try done. simpl. rewrite IH, regions_for_block_rows. f_equal.
  unfold on_wire. simpl. by rewrite mask64_mask.
Qed.

(** C38. Requests fit in the mailbox. [chunk_handle_batches] cuts a batch into
    non-empty runs of entries, in order and without loss, and what
    [encode_handle_batch] makes of each run has exactly the size the handle table and
    the entries add up to; it is at most [cap_req] unless the run is a single
    entry. The running size the loop keeps, which counts a handle once per region of
    the entry that brings it, never underestimates. *)
Theorem split_requests_fit es cap_req :
  concat (chunk_handle_batches es cap_req) = es ∧
  ∀ c, c ∈ chunk_handle_batches es cap_req → c ≠ [] ∧
    ∀ bs, encode_handle_batch c = Ok bs → len bs = weight c ∧ (length c = 1%nat ∨ len bs ≤ cap_req).
Proof.
  unfold chunk_handle_batches. destruct (split_loop_spec cap_req [] [] ∅ HANDLE_BATCH_FIXED es) as [Hf Hc]; [done|done|done|by left|].
  split; [exact Hc|]. intros c Hin. destruct (proj1 (Forall_forall _ _) Hf c Hin) as [Hne Hw]. split; [done|].
  intros bs Hb. rewrite (encode_handle_batch_length c bs Hb). done.
Qed.

(** C39. Eviction events survive the response slot. The client decodes the server's
    event list, cut by the transport to any [cap] of at least four bytes, without
    reading out of bounds: completely and with the server's drop count when it
    fits, and otherwise as its longest whole prefix, with the rest counted as
    dropped. When the server was asked for no more than [take_events] asks for,
    everything fits. *)
Theorem events_survive_cut events dropped cap :
  Forall event_ok events → is_u 64 dropped → len events < 2 ^ 32 → 4 ≤ Z.of_nat cap →
  (let '(got, lost) := decode_take_events (take cap (encode_events events dropped)) in
   got `prefix_of` events ∧
   (if decide (len (encode_events events dropped) ≤ Z.of_nat cap) then got = events ∧ lost = dropped else lost = len events - len got)) ∧
  (24 ≤ Z.of_nat cap → ∀ asked, len events ≤ events_to_ask (Z.of_nat cap) asked → len (encode_events events dropped) ≤ Z.of_nat cap).
Proof.
  intros He Hd Hl Hcap. assert (len (encode_events events dropped) = 4 + 12 * len events + 8) as Hlen.
  { rewrite encode_events_app by done. pose proof (event_bytes_length events) as Hb. unfold len in *. rewrite !length_app, !length_to_le_bytes by lia. lia. }
  rewrite Hlen. pose proof (Zle_0_nat (length events)) as H0. fold (len events) in H0. split.
  - rewrite decode_cut_events by done. destruct (Z.leb_spec (4 + 12 * len events + 8) (Z.of_nat cap)); [by rewrite decide_True by lia|].
    split; [by apply prefix_take|]. rewrite decide_False by lia.
    assert ((Z.of_nat cap - 12) / 12 < len events) by (apply Z.div_lt_upper_bound; lia).
    unfold len at 3. rewrite length_take. unfold len in *. lia.
  - intros Hc asked. unfold events_to_ask. replace (Z.of_nat cap - 4 - 8) with (Z.of_nat cap - 12) by lia.
    pose proof (Z.mul_div_le (Z.of_nat cap - 12) 12 ltac:(lia)). assert (1 ≤ (Z.of_nat cap - 12) / 12) by (apply Z.div_le_lower_bound; lia).
    destruct (Z.leb_spec asked 0), (Z.ltb_spec (Z.max 1 ((Z.of_nat cap - 12) / 12)) asked); simpl; lia.
Qed.

(** ** Concrete requests *)

Definition handle_a : list Z := replicate 64 17.
Definition handle_b : list Z := replicate 64 34.
Definition two_layers : list KvCacheIpc := [mkIpc handle_a 0 100 0; mkIpc handle_b 0 200 4096].
Definition scratch_ipc : KvCacheIpc := mkIpc (replicate 64 51) 0 0 0.

Definition from_ok {A} (d : A) (x : py A) : A := match x with Ok a => a | Err _ => d end.

Definition entries3 : list Entry := from_ok [] (Handler.chunk_entries two_layers [7; 8; 9] [1; 2] 2 1 scratch_ipc).

Lemma handle_batch_round_trip_witness :
  ∃ b, decode_handle_batch (reader_new (from_ok [] (encode_handle_batch entries3))) =
    Ret (Ok (b, mkReader (from_ok [] (encode_handle_batch entries3)) 360)) ∧ resolve b = Some (on_wire <$> entries3).
Proof.
  destruct (handle_batch_round_trip entries3 (from_ok [] (encode_handle_batch entries3))) as (b & Hd & Hr); [vm_compute; reflexivity|vm_compute; reflexivity|].
  exists b. split; [|exact Hr]. replace 360%nat with (length (from_ok [] (encode_handle_batch entries3))) by (vm_compute; reflexivity). exact Hd.
Defined.

Lemma chunk_requests_equivalent_witness :
  ∃ b b' out,
    decode_chunk_block_batch (reader_new ((from_ok ([], 0) (chunk_table_for two_layers 1 scratch_ipc)).1 ++
      from_ok [] (encode_chunk_entries 2 2 [1; 2] [CHUNK_SCRATCH; 7; 8; 9]))) = Ret (Ok b) ∧
    decode_handle_batch (reader_new (from_ok [] (encode_handle_batch entries3))) = Ret (Ok b') ∧
    resolve b.1 = Some out ∧ resolve b'.1 = Some out.
Proof.
  destruct (chunk_requests_equivalent two_layers [7; 8; 9] [1; 2] 2 1 scratch_ipc
    (from_ok ([], 0) (chunk_table_for two_layers 1 scratch_ipc)).1 2 [CHUNK_SCRATCH; 7; 8; 9]
    (from_ok [] (encode_chunk_entries 2 2 [1; 2] [CHUNK_SCRATCH; 7; 8; 9])) entries3 (from_ok [] (encode_handle_batch entries3)))
    as (b & b' & out & H1 & H2 & H3 & H4 & _).
  1, 2, 3, 4, 5: vm_compute; reflexivity.
  - repeat constructor; done.
  - repeat constructor; done.
  - vm_compute. reflexivity.
  - vm_compute. reflexivity.
  - eexists (b, _), (b', _), out. split_and!; [exact H1|exact H2|exact H3|exact H4].
Defined.

Lemma events_survive_cut_witness :
  decode_take_events (take 40 (encode_events [(1, 0); (2, 1); (3, 0)] 5)) = ([(1, 0); (2, 1)], 1) ∧
  ∃ got, got `prefix_of` [(1, 0); (2, 1); (3, 0)] ∧ (decode_take_events (take 40 (encode_events [(1, 0); (2, 1); (3, 0)] 5))).1 = got.
Proof.
  split; [vm_compute; reflexivity|]. destruct (events_survive_cut [(1, 0); (2, 1); (3, 0)] 5 40) as [H _]; [repeat constructor; vm_compute; congruence|split; lia|done|lia|].
  destruct (decode_take_events _) as [got lost] eqn:E. exists got. split; [apply H|done].
Defined.

End WireAgreement.
