(* ===== verification/Translator.v ===== *)
(** The server behind the shared-memory front end ([lib/shmq-dispatcher]):
    [translate.rs], the operations a request runs, and the threads of [serve.rs].
    An operation is a program, a tree of the calls it makes under one lock each,
    so that the calls of requests in flight on different channels, of the reaper
    and of the dispatcher's own threads interleave. The server has no transfer
    endpoint: a fetch is refused. *)

From S2P Require Import Prelude Bytes MemoryTier DispatchMap Dispatcher Pins ExtentStore StorePath StoreBatch CacheSpec Wire.

Module Translator.
Import Wire.
Local Open Scope Z_scope.

Abbreviation res A := (Dispatcher.res A).
Abbreviation Answers := Api.Answers.

Definition is_ok {A E} (x : result A E) : bool := match x with Ok _ => true | Err _ => false end.

(** * The cache of CUDA IPC mappings

    [mapped] is the state of the CUDA driver: the mappings that are open, by their
    base, with their length. *)

Definition IPC_GRACE_PERIOD : Z := 5000000000.

Record IpcCacheEntry := mkEntry {
  dev_ptr : Z;
  gpu_device_id : Z;
  refcount : Z;
  grace_until : option Z
}.

Record IpcCache := mkIpc { ipc_map : gmap (list Z) IpcCacheEntry; mapped : gmap Z Z }.

Definition ipc_cache_open (a : Answers) (c : IpcCache) (h : list Z) (device : Z) : outcome (option Z * IpcCache) :=
  match ipc_map c !! h with
  | Some e =>
      let grace := if (refcount e =? 0) && bool_decide (is_Some (grace_until e)) then None else grace_until e in
      n ← add_w 64 (refcount e) 1;
      Ret (Some (dev_ptr e), mkIpc (<[h := mkEntry (dev_ptr e) (gpu_device_id e) n grace]> (ipc_map c)) (mapped c))
  | None =>
      if (0 <=? device) && negb (Api.set_device a) then Ret (None, c)
      else
        match Api.opened a with
        | None => Ret (None, c)
        | Some (ptr, len) =>
            if ptr =? 0 then Ret (None, c)
            else Ret (Some ptr, mkIpc (<[h := mkEntry ptr device 1 None]> (ipc_map c)) (<[ptr := len]> (mapped c)))
        end
  end.

(** The first half of [ipc_cache_close], under its lock. *)
Definition ipc_release (now : Z) (c : IpcCache) (h : list Z) : outcome IpcCache :=
  match ipc_map c !! h with
  | None => Ret c
  | Some e =>
      n ← sub_w (refcount e) 1;
      let grace := if n =? 0 then Some (now + IPC_GRACE_PERIOD) else grace_until e in
      Ret (mkIpc (<[h := mkEntry (dev_ptr e) (gpu_device_id e) n grace]> (ipc_map c)) (mapped c))
  end.

Definition expired (now : Z) (e : IpcCacheEntry) : bool :=
  (refcount e =? 0) && match grace_until e with Some t => t <=? now | None => false end.

Fixpoint close_mappings (hs : list (list Z)) (c : IpcCache) (closed : Z) : Z * IpcCache :=
  match hs with
  | [] => (closed, c)
  | h :: hs =>
      match ipc_map c !! h with
      | None => close_mappings hs c closed
      | Some e => close_mappings hs (mkIpc (delete h (ipc_map c)) (delete (dev_ptr e) (mapped c))) (closed + 1)
      end
  end.

Definition ipc_cache_reap_expired (now : Z) (c : IpcCache) : Z * IpcCache :=
  close_mappings (filter (λ he, expired now he.2) (map_to_list (ipc_map c))).*1 c 0.

Definition ipc_cache_close_all (c : IpcCache) : IpcCache :=
  (close_mappings (map_to_list (ipc_map c)).*1 c 0).2.

(** * Pins by channel *)

Record ChannelPins := mkPins {
  by_channel : gmap nat (gmap Z Z);
  refused : Z;
  released_by_unpin_all : Z
}.

Definition set_by_channel (p : ChannelPins) m : ChannelPins := mkPins m (refused p) (released_by_unpin_all p).

Definition record (p : ChannelPins) (ch : nat) (key : Z) : outcome ChannelPins :=
  let keys := default ∅ (by_channel p !! ch) in
  n ← add_w 32 (default 0 (keys !! key)) 1;
  Ret (set_by_channel p (<[ch := <[key := n]> keys]> (by_channel p))).

Definition take_pin (p : ChannelPins) (ch : nat) (key : Z) : outcome (bool * ChannelPins) :=
  match by_channel p !! ch with
  | None => Ret (false, p)
  | Some keys =>
      match keys !! key with
      | None => Ret (false, p)
      | Some n =>
          n ← sub_w n 1;
          let keys := if n =? 0 then delete key keys else <[key := n]> keys in
          Ret (true, set_by_channel p (<[ch := keys]> (by_channel p)))
      end
  end.

Definition take_all (p : ChannelPins) (ch : nat) : list Z * ChannelPins :=
  (concat (List.map (λ kn, replicate (Z.to_nat kn.2) kn.1) (map_to_list (default ∅ (by_channel p !! ch)))),
   set_by_channel p (delete ch (by_channel p))).

(** The pins held now: the first field of [PinStats]. *)
Definition held (p : ChannelPins) : Z :=
  foldr Z.add 0 (List.map (λ cm, foldr Z.add 0 (List.map snd (map_to_list cm.2))) (map_to_list (by_channel p))).

(** * The translator *)

Record PendingStoreEntry := mkPending { p_size : Z; reserved_at : Z }.

Inductive EvictionReason := Demoted | Removed.

(** What a [TranslatorObserver] is told. *)
Inductive Observation :=
| OnPopulate (succeeded : Z)
| OnLookup (hits misses errors gpu_bytes : Z)
| OnEvictions (count : Z).

(** [gpu_writes] are the bytes delivered to the GPU, in order, and [observed] what
    the observer has been told. *)
Record Translator (W : Type) := mkTranslator {
  dispatcher : W;
  ipc_cache : IpcCache;
  pending_stores : gmap Z PendingStoreEntry;
  eviction_rx : list (Z * EvictionReason);
  eviction_dropped : Z;
  pins : ChannelPins;
  observed : list Observation;
  gpu_writes : list (Z * list Z)
}.
#[global] Arguments mkTranslator {W}.
#[global] Arguments dispatcher {W}.
#[global] Arguments ipc_cache {W}.
#[global] Arguments pending_stores {W}.
#[global] Arguments eviction_rx {W}.
#[global] Arguments eviction_dropped {W}.
#[global] Arguments pins {W}.
#[global] Arguments observed {W}.
#[global] Arguments gpu_writes {W}.

Definition new {W} (d : W) : Translator W :=
  mkTranslator d (mkIpc ∅ ∅) ∅ [] 0 (mkPins ∅ 0 0) [] [].

(** [IpcHandle]: where in GPU memory, and how many bytes. *)
Record IpcHandle := mkHandle { address : Z; h_size : Z }.

(** [EvictionSender::emit] on a channel of [capacity] events. *)
Definition emit {W} (capacity : nat) (s : Translator W) (key : Z) (reason : EvictionReason) : Translator W :=
  if (length (eviction_rx s) <? capacity)%nat
  then mkTranslator (dispatcher s) (ipc_cache s) (pending_stores s) (eviction_rx s ++ [(key, reason)]) (eviction_dropped s)
         (pins s) (observed s) (gpu_writes s)
  else mkTranslator (dispatcher s) (ipc_cache s) (pending_stores s) (eviction_rx s) ((eviction_dropped s + 1) mod 2 ^ 64)
         (pins s) (observed s) (gpu_writes s).

(** * Calls *)

(** What an operation does in one go: a call of the dispatcher, or a critical
    section of one of the translator's own tables. *)
Inductive call :=
| Now
| Check (key : Z)
| Touch (key : Z)
| Promote (keys : list Z)
| Reserve (key size session deadline : Z)
| CopyAsync (key : Z) (regions : list IpcHandle)
| Completed (key size : Z)
| Release (key : Z)
| Pin (key : Z)
| Unpin (key : Z)
| Remove (key : Z)
| BatchLookup (batch : list (Z * list IpcHandle))
| BatchPopulate (batch : list (Z * IpcHandle))
| ClearMemoryTier
| ClearAll
| FlushToSsd
| ReadWriteStats
| IpcOpen (handle : list Z) (device : Z)
| IpcRelease (handle : list Z)
| IpcReap
| PendingSnapshot (keys : list Z)
| PendingInsert (key size : Z)
| PendingSize (key : Z)
| PendingRemove (key : Z)
| Stale (timeout : Z)
| RecordPin (channel : nat) (key : Z)
| TakePin (channel : nat) (key : Z)
| TakeAllPins (channel : nat)
| CountRefused
| CountReleased (n : Z)
| Drain (max : Z)
| SwapDropped
| Observe (o : Observation).

Definition reply (c : call) : Type :=
  match c with
  | Now => Z
  | Check _ => res bool
  | Touch _ | CopyAsync _ _ | Completed _ _ | Release _ | Pin _ | Unpin _ | Remove _ => res unit
  | Reserve _ _ _ _ => res Z
  | BatchLookup _ => list (StoreBatch.ServedBy * res (list (list Z)))
  | BatchPopulate _ => list (res unit)
  | ClearMemoryTier | FlushToSsd => res nat
  | ClearAll => (nat * nat)%type
  | ReadWriteStats => list Z
  | IpcOpen _ _ => option Z
  | IpcReap => Z
  | PendingSnapshot _ => gset Z
  | PendingSize _ => option Z
  | Stale _ => list Z
  | TakePin _ _ => bool
  | TakeAllPins _ => list Z
  | Drain _ => list (Z * EvictionReason)
  | SwapDropped => Z
  | Promote _ | IpcRelease _ | PendingInsert _ _ | PendingRemove _ | RecordPin _ _ | CountRefused | CountReleased _ | Observe _ => unit
  end.

(** The region lies in a mapping that is open. *)
Definition reachable (c : IpcCache) (h : IpcHandle) : bool :=
  existsb (λ m, (m.1 <=? address h) && (address h + h_size h <=? m.1 + m.2)) (map_to_list (mapped c)).

(** The bytes of a region. *)
Definition gpu_bytes (a : Answers) (h : IpcHandle) : list Z := StorePath.slice (Api.gpu a) (address h) (h_size h).

(** Where a batch lookup puts the bytes it delivers. *)
Definition delivered (batch : list (Z * list IpcHandle)) (os : list (StoreBatch.ServedBy * res (list (list Z)))) : list (Z * list Z) :=
  concat (zip_with (λ e o, match o.2 with Ok ps => zip (address <$> e.2) ps | Err _ => [] end) batch os).

(** A reservation past its deadline makes a single attempt. *)
Definition within (a : Answers) (deadline : Z) : Answers :=
  if Api.now a <? deadline then a
  else Api.mkAnswers (Api.now a) (Api.max_attempts a) 0 (Api.dma a) (Api.junk a) (Api.device a) (Api.lookup_env a) (Api.store_env a)
         (Api.promote_checkout a) (Api.promote_read a) (Api.promote_tail a) (Api.flush_io a) (Api.gpu a) (Api.set_device a)
         (Api.opened a) (Api.io_stats a).

Section exec.
Context {W : Type} `{Api.IDispatcher W}.
Abbreviation T := (Translator W).

Definition set_dispatcher (s : T) d : T :=
  mkTranslator d (ipc_cache s) (pending_stores s) (eviction_rx s) (eviction_dropped s) (pins s) (observed s) (gpu_writes s).
Definition set_ipc (s : T) c : T :=
  mkTranslator (dispatcher s) c (pending_stores s) (eviction_rx s) (eviction_dropped s) (pins s) (observed s) (gpu_writes s).
Definition set_pending (s : T) m : T :=
  mkTranslator (dispatcher s) (ipc_cache s) m (eviction_rx s) (eviction_dropped s) (pins s) (observed s) (gpu_writes s).
Definition set_events (s : T) rx dropped : T :=
  mkTranslator (dispatcher s) (ipc_cache s) (pending_stores s) rx dropped (pins s) (observed s) (gpu_writes s).
Definition set_pins (s : T) p : T :=
  mkTranslator (dispatcher s) (ipc_cache s) (pending_stores s) (eviction_rx s) (eviction_dropped s) p (observed s) (gpu_writes s).
Definition observe (s : T) o : T :=
  mkTranslator (dispatcher s) (ipc_cache s) (pending_stores s) (eviction_rx s) (eviction_dropped s) (pins s) (observed s ++ [o]) (gpu_writes s).
Definition write_gpu (s : T) ws : T :=
  mkTranslator (dispatcher s) (ipc_cache s) (pending_stores s) (eviction_rx s) (eviction_dropped s) (pins s) (observed s) (gpu_writes s ++ ws).

(** A call of the dispatcher, on the state it has. *)
Definition on_dispatcher {A} (s : T) (x : outcome (A * W)) : outcome (A * T) :=
  '(r, d) ← x; Ret (r, set_dispatcher s d).

(** A GPU access outside the open mappings is a fault. *)
Definition faulting {A} (s : T) (regions : list IpcHandle) (x : outcome A) : outcome A :=
  if forallb (reachable (ipc_cache s)) regions then x else Panic.

Definition drain (max : Z) (rx : list (Z * EvictionReason)) : list (Z * EvictionReason) * list (Z * EvictionReason) :=
  if 0 <? max then (take (Z.to_nat max) rx, drop (Z.to_nat max) rx) else (rx, []).

Definition exec (a : Answers) (s : T) (c : call) : outcome (reply c * T) :=
  match c return outcome (reply c * T) with
  | Now => Ret (Api.now a, s)
  | Check key => on_dispatcher s (Api.check (dispatcher s) key)
  | Touch key => on_dispatcher s (Api.touch (dispatcher s) key)
  | Promote keys => d ← Api.promote_to_memory_tier a (dispatcher s) keys; Ret ((), set_dispatcher s d)
  | Reserve key size _ deadline => on_dispatcher s (Api.reserve_memory (within a deadline) (dispatcher s) key size)
  | CopyAsync key regions =>
      faulting s regions (on_dispatcher s (Api.copy_gpu_to_memory_async a (dispatcher s) key (gpu_bytes a <$> regions)))
  | Completed key size => on_dispatcher s (Api.copy_gpu_to_memory_completed a (dispatcher s) key size)
  | Release key => on_dispatcher s (Api.release_memory (dispatcher s) key)
  | Pin key => on_dispatcher s (Api.pin (dispatcher s) key)
  | Unpin key => on_dispatcher s (Api.unpin (dispatcher s) key)
  | Remove key => on_dispatcher s (Api.remove (dispatcher s) key)
  | BatchLookup batch =>
      faulting s (concat batch.*2)
        ('(os, s) ← on_dispatcher s (Api.batch_lookup a (dispatcher s) (List.map (λ e, StoreBatch.mkRequest e.1 (h_size <$> e.2)) batch));
         Ret (os, write_gpu s (delivered batch os)))
  | BatchPopulate batch =>
      faulting s batch.*2
        (on_dispatcher s (Api.batch_populate a (dispatcher s) (List.map (λ e, (e.1, gpu_bytes a e.2)) batch)))
  | ClearMemoryTier => on_dispatcher s (Api.clear_memory_tier a (dispatcher s))
  | ClearAll => on_dispatcher s (Api.clear_all a (dispatcher s))
  | FlushToSsd => on_dispatcher s (Api.flush_to_ssd a (dispatcher s))
  | ReadWriteStats => Ret (Api.io_stats a, s)
  | IpcOpen h device => '(p, c) ← ipc_cache_open a (ipc_cache s) h device; Ret (p, set_ipc s c)
  | IpcRelease h => c ← ipc_release (Api.now a) (ipc_cache s) h; Ret ((), set_ipc s c)
  | IpcReap => let '(n, c) := ipc_cache_reap_expired (Api.now a) (ipc_cache s) in Ret (n, set_ipc s c)
  | PendingSnapshot keys => Ret (list_to_set (filter (λ k, is_Some (pending_stores s !! k)) keys), s)
  | PendingInsert key size => Ret ((), set_pending s (<[key := mkPending size (Api.now a)]> (pending_stores s)))
  | PendingSize key => Ret (p_size <$> pending_stores s !! key, s)
  | PendingRemove key => Ret ((), set_pending s (delete key (pending_stores s)))
  | Stale timeout =>
      Ret ((filter (λ ke, timeout <=? Z.max 0 (Api.now a - reserved_at ke.2)) (map_to_list (pending_stores s))).*1, s)
  | RecordPin ch key => p ← record (pins s) ch key; Ret ((), set_pins s p)
  | TakePin ch key => '(b, p) ← take_pin (pins s) ch key; Ret (b, set_pins s p)
  | TakeAllPins ch => let '(keys, p) := take_all (pins s) ch in Ret (keys, set_pins s p)
  | CountRefused =>
      Ret ((), set_pins s (mkPins (by_channel (pins s)) ((refused (pins s) + 1) mod 2 ^ 64) (released_by_unpin_all (pins s))))
  | CountReleased n =>
      Ret ((), set_pins s (mkPins (by_channel (pins s)) (refused (pins s)) ((released_by_unpin_all (pins s) + n) mod 2 ^ 64)))
  | Drain max => let '(evs, rx) := drain max (eviction_rx s) in Ret (evs, set_events s rx (eviction_dropped s))
  | SwapDropped => Ret (eviction_dropped s, set_events s (eviction_rx s) 0)
  | Observe o => Ret ((), observe s o)
  end.

End exec.

(** * Programs *)

Inductive prog (A : Type) : Type :=
| Done (x : A)
| Abort
| Step (c : call) (k : reply c → prog A).
#[global] Arguments Done {A}.
#[global] Arguments Abort {A}.
#[global] Arguments Step {A}.

#[global] Instance prog_ret : MRet prog := @Done.
#[global] Instance prog_bind : MBind prog := λ A B f,
  fix go (p : prog A) : prog B :=
    match p with
    | Done x => f x
    | Abort => Abort
    | Step c k => Step c (λ r, go (k r))
    end.

Definition ask (c : call) : prog (reply c) := Step c Done.

(** Arithmetic that may panic. *)
Definition attempt {A} (x : outcome A) : prog A := match x with Ret x => Done x | Panic => Abort end.

(** [for x in xs { ... }], with the results of the rounds. *)
Fixpoint each {A B} (f : A → prog B) (xs : list A) : prog (list B) :=
  match xs with
  | [] => mret []
  | x :: xs => y ← f x; ys ← each f xs; mret (y :: ys)
  end.

Definition flag (b : bool) : Z := if b then 1 else 0.

(** ** Requests *)

Inductive Opcode :=
| CHECK | TOUCH | RESERVE | COPY_TO_STORE | COMMIT_STORE | ABORT_STORE | PIN | UNPIN | LOOKUP | TAKE_EVENTS | POPULATE
| REMOVE | CLEAR_MEMORY_TIER | FLUSH_TO_SSD | GET_IO_STATS | TOUCH_CHECK | FETCH | CLEAR_ALL | LOOKUP_BLOCKS
| COPY_TO_STORE_BLOCKS | LOOKUP_CHUNKS | COPY_TO_STORE_CHUNKS.

Definition opcode_of (opcode : Z) : option Opcode :=
  match opcode with
  | 1 => Some CHECK | 2 => Some TOUCH | 3 => Some RESERVE | 4 => Some COPY_TO_STORE | 5 => Some COMMIT_STORE
  | 6 => Some ABORT_STORE | 7 => Some PIN | 8 => Some UNPIN | 9 => Some LOOKUP | 10 => Some TAKE_EVENTS
  | 11 => Some POPULATE | 12 => Some REMOVE | 13 => Some CLEAR_MEMORY_TIER | 14 => Some FLUSH_TO_SSD
  | 15 => Some GET_IO_STATS | 16 => Some TOUCH_CHECK | 17 => Some FETCH | 18 => Some CLEAR_ALL
  | 19 => Some LOOKUP_BLOCKS | 20 => Some COPY_TO_STORE_BLOCKS | 21 => Some LOOKUP_CHUNKS | 22 => Some COPY_TO_STORE_CHUNKS
  | _ => None
  end.

(** A request, decoded. *)
Inductive request :=
| RCheck (keys : list Z)
| RTouch (promote : bool) (keys : list Z)
| RTouchCheck (promote : bool) (keys : list Z)
| RReserve (entries : list (Z * Z * Z))
| RCopy (batch : HandleBatch)
| RCommit (keys : list Z)
| RAbort (keys : list Z)
| RPin (promote : bool) (keys : list Z)
| RUnpin (keys : list Z)
| RUnpinAll
| RLookup (batch : HandleBatch)
| RTakeEvents (max : Z)
| RPopulate (batch : HandleBatch)
| RRemove (keys : list Z)
| RClearMemoryTier
| RFlushToSsd
| RGetIoStats
| RFetch (peer : list Z) (entries : list (Z * Z))
| RClearAll.

(** The operations decode first, and refuse a key that occurs twice. *)
Definition unique {A} (keys_of : A → list Z) (m : D A) : D A :=
  x ← m; _ ← check_duplicate_keys (keys_of x); mret x.

Definition batch_keys (b : HandleBatch) : list Z := (entries b).*1.

Definition decode_unpin : D request :=
  n ← u32;
  if n =? UNPIN_ALL then mret RUnpinAll
  else keys ← unique id (read_n (Z.to_nat n) u64); mret (RUnpin keys).

Definition decode (op : Opcode) : D request :=
  match op with
  | CHECK => keys ← unique id read_keys; mret (RCheck keys)
  | TOUCH => pk ← unique snd read_promote; mret (RTouch pk.1 pk.2)
  | RESERVE => es ← unique (List.map (λ e, e.1.1)) read_reserve; mret (RReserve es)
  | COPY_TO_STORE => b ← unique batch_keys decode_handle_batch; mret (RCopy b)
  | COMMIT_STORE => keys ← unique id read_keys; mret (RCommit keys)
  | ABORT_STORE => keys ← unique id read_keys; mret (RAbort keys)
  | PIN => pk ← unique snd read_promote; mret (RPin pk.1 pk.2)
  | UNPIN => decode_unpin
  | LOOKUP => b ← unique batch_keys decode_handle_batch; mret (RLookup b)
  | TAKE_EVENTS => max ← u32; mret (RTakeEvents max)
  | POPULATE => b ← unique batch_keys decode_handle_batch; mret (RPopulate b)
  | REMOVE => keys ← unique id read_keys; mret (RRemove keys)
  | CLEAR_MEMORY_TIER => mret RClearMemoryTier
  | FLUSH_TO_SSD => mret RFlushToSsd
  | GET_IO_STATS => mret RGetIoStats
  | TOUCH_CHECK => pk ← unique snd read_promote; mret (RTouchCheck pk.1 pk.2)
  | FETCH => pe ← unique (λ pe, pe.2.*1) read_fetch; mret (RFetch pe.1 pe.2)
  | CLEAR_ALL => mret RClearAll
  | LOOKUP_BLOCKS => b ← unique batch_keys decode_block_batch; mret (RLookup b)
  | COPY_TO_STORE_BLOCKS => b ← unique batch_keys decode_block_batch; mret (RCopy b)
  | LOOKUP_CHUNKS => b ← unique batch_keys decode_chunk_block_batch; mret (RLookup b)
  | COPY_TO_STORE_CHUNKS => b ← unique batch_keys decode_chunk_block_batch; mret (RCopy b)
  end.

(** ** The operations *)

Definition MISS : Z := 0.
Definition RESIDENT : Z := 1.
Definition PENDING : Z := 2.
Definition NO_ENDPOINT : Z := 1.

Abbreviation response := (result (list Z) OpError).
Abbreviation program := (prog response).

(** [dispatcher.check(key).unwrap_or_default()]. *)
Definition present (x : res bool) : bool := match x with Ok b => b | Err _ => false end.

Definition op_check (keys : list Z) : program :=
  pending ← ask (PendingSnapshot keys);
  w ← each (λ key,
    if decide (key ∈ pending) then mret PENDING
    else x ← ask (Check key); mret (if present x then RESIDENT else MISS)) keys;
  mret (Ok w).

Definition promoting (promote : bool) (keys : list Z) : prog unit :=
  if promote then ask (Promote keys) else mret ().

Definition op_touch (promote : bool) (keys : list Z) : program :=
  w ← each (λ key, x ← ask (Touch key); mret (flag (is_ok x))) keys;
  _ ← promoting promote keys;
  mret (Ok w).

Definition op_touch_check (promote : bool) (keys : list Z) : program :=
  pending ← ask (PendingSnapshot keys);
  w ← each (λ key,
    touched ← ask (Touch key);
    if decide (key ∈ pending) then mret PENDING
    else if is_ok touched then x ← ask (Check key); mret (if present x then RESIDENT else MISS)
    else mret MISS) keys;
  _ ← promoting promote keys;
  mret (Ok w).

Definition reserve_one (deadline : Z) (e : Z * Z * Z) : prog Z :=
  let '(key, size, session) := e in
  x ← ask (Reserve key size session deadline);
  match x with
  | Ok _ => _ ← ask (PendingInsert key size); mret 1
  | Err _ => mret 0
  end.

Definition op_reserve (store_backpressure : Z) (es : list (Z * Z * Z)) : program :=
  start ← ask Now;
  w ← each (reserve_one (start + store_backpressure)) es;
  mret (Ok w).

Definition commit_one (key : Z) : prog Z :=
  size ← ask (PendingSize key);
  match size with
  | None => mret 0
  | Some size =>
      x ← ask (Completed key size);
      match x with
      | Ok _ => _ ← ask (PendingRemove key); mret 1
      | Err _ => mret 0
      end
  end.

Definition op_commit_store (keys : list Z) : program := w ← each commit_one keys; mret (Ok w).

Definition abort_one (key : Z) : prog Z :=
  _ ← ask (PendingRemove key); x ← ask (Release key); mret (flag (is_ok x)).

Definition op_abort_store (keys : list Z) : program := w ← each abort_one keys; mret (Ok w).

Definition pin_one (channel : nat) (key : Z) : prog Z :=
  x ← ask (Pin key);
  match x with
  | Ok _ => _ ← ask (RecordPin channel key); mret 1
  | Err _ => mret 0
  end.

Definition op_pin (channel : nat) (promote : bool) (keys : list Z) : program :=
  w ← each (pin_one channel) keys; _ ← promoting promote keys; mret (Ok w).

Definition unpin_one (channel : nat) (key : Z) : prog Z :=
  b ← ask (TakePin channel key);
  if b : bool then x ← ask (Unpin key); mret (flag (is_ok x))
  else _ ← ask CountRefused; mret 0.

Definition op_unpin (channel : nat) (keys : list Z) : program := w ← each (unpin_one channel) keys; mret (Ok w).

Definition op_unpin_all (channel : nat) : program :=
  keys ← ask (TakeAllPins channel);
  _ ← each (λ key, ask (Unpin key)) keys;
  let released := Z.of_nat (length keys) in
  _ ← ask (CountReleased released);
  mret (Ok (to_le_bytes 8 released)).

(** The base of each handle, if it opens, and the handles that did. *)
Fixpoint open_handle_table (hs : list TableHandle) : prog (list (option Z) * list (list Z)) :=
  match hs with
  | [] => mret ([], [])
  | (h, device) :: hs =>
      p ← ask (IpcOpen h device);
      '(resolved, opened) ← open_handle_table hs;
      mret (match p with
            | Some ptr => (Some ptr :: resolved, h :: opened)
            | None => (None :: resolved, opened)
            end)
  end.

(** [ipc_cache_close] of every handle that was opened. *)
Definition close_handles (opened : list (list Z)) : prog unit :=
  _ ← each (λ h, _ ← ask (IpcRelease h); ask IpcReap) opened; mret ().

Fixpoint regions_of (rs : list RegionRef) (resolved : list (option Z)) : outcome (option (list IpcHandle)) :=
  match rs with
  | [] => Ret (Some [])
  | (idx, offset, size) :: rs =>
      match resolved !! Z.to_nat idx with
      | Some (Some base) =>
          addr ← add_w 64 base offset;
          rest ← regions_of rs resolved;
          Ret (match rest with Some hs => Some (mkHandle addr size :: hs) | None => None end)
      | _ => Ret None
      end
  end.

Definition copy_one (resolved : list (option Z)) (e : BatchEntry) : prog Z :=
  hs ← attempt (regions_of e.2 resolved);
  match hs with
  | None => mret 0
  | Some regions => x ← ask (CopyAsync e.1 regions); mret (flag (is_ok x))
  end.

Definition copy_to_store_batch (b : HandleBatch) : program :=
  '(resolved, opened) ← open_handle_table (handles b);
  w ← each (copy_one resolved) (entries b);
  _ ← close_handles opened;
  mret (Ok w).

Definition wire_tier (s : StoreBatch.ServedBy) : Z :=
  match s with
  | StoreBatch.Dram => 1
  | StoreBatch.Ssd => 2
  | StoreBatch.Remote => 3
  | StoreBatch.Fetched => 4
  | StoreBatch.Miss | StoreBatch.SizeMismatch | StoreBatch.Error => 0
  end.

Fixpoint tally (results : list StoreBatch.ServedBy) (hits misses errors : Z) : Z * Z * Z :=
  match results with
  | [] => (hits, misses, errors)
  | s :: results =>
      if StoreBatch.is_hit s then tally results (hits + 1) misses errors
      else match s with
      | StoreBatch.Miss => tally results hits (misses + 1) errors
      | _ => tally results hits misses (errors + 1)
      end
  end.

(** The [debug_assert] is kept. *)
Definition tally_lookup (requested : nat) (results : list StoreBatch.ServedBy) : outcome (Z * Z * Z) :=
  if (requested <? length results)%nat then Panic
  else Ret (tally results 0 0 (Z.of_nat (requested - length results))).

(** The entries whose handles all opened, with their positions. *)
Fixpoint valid_entries (i : nat) (es : list BatchEntry) (resolved : list (option Z)) : outcome (list (nat * (Z * list IpcHandle))) :=
  match es with
  | [] => Ret []
  | e :: es =>
      hs ← regions_of e.2 resolved;
      rest ← valid_entries (S i) es resolved;
      Ret (match hs with Some regions => (i, (e.1, regions)) :: rest | None => rest end)
  end.

(** [regions.iter().map(|h| h.size as u64).sum()]. *)
Fixpoint sum_regions (acc : Z) (hs : list IpcHandle) : outcome Z :=
  match hs with
  | [] => Ret acc
  | h :: hs => acc ← add_w 64 acc (h_size h); sum_regions acc hs
  end.

(** The flags of the entries served, and the bytes they moved. *)
Fixpoint served_flags (valid : list (nat * (Z * list IpcHandle))) (results : list StoreBatch.ServedBy) (flags : list Z) (bytes : Z) :
    outcome (list Z * Z) :=
  match valid, results with
  | (slot, (_, regions)) :: valid, s :: results =>
      let tier := wire_tier s in
      if tier =? 0 then served_flags valid results flags bytes
      else
        flags ← vec_set flags slot tier;
        n ← sum_regions 0 regions;
        bytes ← add_w 64 bytes n;
        served_flags valid results flags bytes
  | _, _ => Ret (flags, bytes)
  end.

Definition lookup_batch (b : HandleBatch) : program :=
  '(resolved, opened) ← open_handle_table (handles b);
  valid ← attempt (valid_entries 0 (entries b) resolved);
  results ← ask (BatchLookup valid.*2);
  '(hits, misses, errors) ← attempt (tally_lookup (length (entries b)) results.*1);
  '(flags, bytes) ← attempt (served_flags valid results.*1 (replicate (length (entries b)) 0) 0);
  _ ← close_handles opened;
  _ ← ask (Observe (OnLookup hits misses errors bytes));
  mret (Ok flags).

Definition reason_code (r : EvictionReason) : Z := match r with Demoted => 0 | Removed => 1 end.

Definition op_take_events (max : Z) : program :=
  evs ← ask (Drain max);
  dropped ← ask SwapDropped;
  _ ← ask (Observe (OnEvictions (Z.of_nat (length evs))));
  mret (Ok (encode_events (List.map (λ e, (e.1, reason_code e.2)) evs) dropped)).

(** The entries with one region whose handle opened, and the positions of the
    others. *)
Fixpoint populate_entries (i : nat) (es : list BatchEntry) (resolved : list (option Z)) : outcome (list (Z * IpcHandle) * list nat) :=
  match es with
  | [] => Ret ([], [])
  | e :: es =>
      if (length e.2 =? 1)%nat then
        hs ← regions_of e.2 resolved;
        '(batch, rejected) ← populate_entries (S i) es resolved;
        match hs with
        | None => Ret (batch, i :: rejected)
        | Some regions => h ← vec_get regions 0; Ret ((e.1, h) :: batch, rejected)
        end
      else
        '(batch, rejected) ← populate_entries (S i) es resolved; Ret (batch, i :: rejected)
  end.

(** The results, in the order of the entries. *)
Fixpoint populate_flags (is_ : list nat) (rejected : list nat) (results : list (res unit)) (batch_idx : nat) : list Z :=
  match is_ with
  | [] => []
  | i :: is_ =>
      if decide (i ∈ rejected) then 0 :: populate_flags is_ rejected results batch_idx
      else flag (match results !! batch_idx with Some x => is_ok x | None => false end)
             :: populate_flags is_ rejected results (S batch_idx)
  end.

Definition op_populate (b : HandleBatch) : program :=
  '(resolved, opened) ← open_handle_table (handles b);
  '(batch, rejected) ← attempt (populate_entries 0 (entries b) resolved);
  results ← ask (BatchPopulate batch);
  let w := populate_flags (seq 0 (length (entries b))) rejected results 0 in
  _ ← close_handles opened;
  _ ← ask (Observe (OnPopulate (foldr Z.add 0 w)));
  mret (Ok w).

Definition op_remove (keys : list Z) : program :=
  w ← each (λ key, x ← ask (Remove key); mret (flag (is_ok x))) keys; mret (Ok w).

Definition op_clear_all : program :=
  c ← ask ClearAll;
  mret (Ok (to_le_bytes 8 (Z.of_nat c.1) ++ to_le_bytes 8 (Z.of_nat c.2) ++ to_le_bytes 8 0)).

Definition op_clear_memory_tier : program :=
  x ← ask ClearMemoryTier;
  match x with Ok n => mret (Ok (to_le_bytes 8 (Z.of_nat n))) | Err _ => mret (Err CallFailed) end.

Definition op_flush_to_ssd : program :=
  x ← ask FlushToSsd;
  match x with Ok n => mret (Ok (to_le_bytes 8 (Z.of_nat n))) | Err _ => mret (Err CallFailed) end.

Definition op_get_io_stats : program :=
  s ← ask ReadWriteStats; mret (Ok (concat (List.map (to_le_bytes 8) s))).

Definition handle_request (store_backpressure : Z) (channel : nat) (r : request) : program :=
  match r with
  | RCheck keys => op_check keys
  | RTouch promote keys => op_touch promote keys
  | RTouchCheck promote keys => op_touch_check promote keys
  | RReserve es => op_reserve store_backpressure es
  | RCopy b => copy_to_store_batch b
  | RCommit keys => op_commit_store keys
  | RAbort keys => op_abort_store keys
  | RPin promote keys => op_pin channel promote keys
  | RUnpin keys => op_unpin channel keys
  | RUnpinAll => op_unpin_all channel
  | RLookup b => lookup_batch b
  | RTakeEvents max => op_take_events max
  | RPopulate b => op_populate b
  | RRemove keys => op_remove keys
  | RClearMemoryTier => op_clear_memory_tier
  | RFlushToSsd => op_flush_to_ssd
  | RGetIoStats => op_get_io_stats
  | RFetch _ _ => mret (Ok [NO_ENDPOINT])
  | RClearAll => op_clear_all
  end.

(** What a payload asks for. *)
Definition parse (opcode : Z) (payload : list Z) : outcome (result request OpError) :=
  match opcode_of opcode with
  | None => Ret (Err (UnknownOpcode opcode))
  | Some op => x ← decode op (reader_new payload); Ret (match x with Ok (r, _) => Ok r | Err e => Err e end)
  end.

Definition dispatch (store_backpressure : Z) (channel : nat) (opcode : Z) (payload : list Z) : program :=
  x ← attempt (parse opcode payload);
  match x with Ok r => handle_request store_backpressure channel r | Err e => mret (Err e) end.

(** ** The reaper *)

Definition reap_one (key : Z) : prog unit := _ ← ask (Release key); ask (PendingRemove key).

Definition reap_stale_reservations (timeout : Z) : prog nat :=
  stale ← ask (Stale timeout); _ ← each reap_one stale; mret (length stale).

Definition sweep (reserve_timeout : Z) : program :=
  _ ← reap_stale_reservations reserve_timeout; _ ← ask IpcReap; mret (Ok []).

(** * The threads

    A channel has at most one request in flight ([Mailbox]); a worker takes it and
    runs it to its reply. The reaper is the thread [None]. *)

Abbreviation Thread := (option nat).

Record Server (W : Type) := mkServer {
  tr : Translator W;
  running : gmap Thread program
}.
#[global] Arguments mkServer {W}.
#[global] Arguments tr {W}.
#[global] Arguments running {W}.

Inductive event :=
| ERequest (channel : nat) (opcode : Z) (payload : list Z)
| ESweep
| ERun (t : Thread) (a : Answers)
| ETick (k : Api.Tick)
| EEmit (key : Z) (reason : EvictionReason)
| EWorkerExit.

(** What a step shows: a call and its answer, or the response to a request. *)
Inductive label :=
| LSilent
| LCall (t : Thread) (c : call) (r : reply c)
| LReply (t : Thread) (x : response).

(** [store_backpressure], [reserve_timeout] and the capacity of the event channel. *)
Record Config := mkConfig { store_backpressure : Z; reserve_timeout : Z; capacity : nat }.

Section server.
Context {W : Type} `{Api.IDispatcher W} (cfg : Config).

(** One step of thread [t]: its next call, or its reply. *)
Definition run (s : Server W) (t : Thread) (a : Answers) : outcome (label * Server W) :=
  match running s !! t with
  | None => Ret (LSilent, s)
  | Some (Done x) => Ret (LReply t x, mkServer (tr s) (delete t (running s)))
  | Some Abort => Panic
  | Some (Step c k) => '(r, tr) ← exec a (tr s) c; Ret (LCall t c r, mkServer tr (<[t := k r]> (running s)))
  end.

(** A worker that leaves drops its clone of the translator, which closes every
    mapping. *)
Definition step (s : Server W) (ev : event) : outcome (label * Server W) :=
  match ev with
  | ERequest ch opcode payload =>
      match running s !! Some ch with
      | Some _ => Ret (LSilent, s)
      | None => Ret (LSilent, mkServer (tr s) (<[Some ch := dispatch (store_backpressure cfg) ch opcode payload]> (running s)))
      end
  | ESweep =>
      match running s !! None with
      | Some _ => Ret (LSilent, s)
      | None => Ret (LSilent, mkServer (tr s) (<[None := sweep (reserve_timeout cfg)]> (running s)))
      end
  | ERun t a => run s t a
  | ETick k => d ← Api.tick k (dispatcher (tr s)); Ret (LSilent, mkServer (set_dispatcher (tr s) d) (running s))
  | EEmit key reason => Ret (LSilent, mkServer (emit (capacity cfg) (tr s) key reason) (running s))
  | EWorkerExit => Ret (LSilent, mkServer (set_ipc (tr s) (ipc_cache_close_all (ipc_cache (tr s)))) (running s))
  end.

End server.

End Translator.
