(* ===== verification/ServerLogic.v ===== *)
(** A program logic for the requests of [Translator]: what a thread has of the
    server while it runs a request (reservations it works on, references it has
    not recorded, mappings it has open), what each call needs and gives, and the
    proof of every operation of the server from these. *)

From S2P Require Import Prelude Bytes MemoryTier DispatchMap Dispatcher Pins ExtentStore StorePath StoreInvariant StoreCalls StoreBatch BatchCalls CacheSpec Wire Translator.

Module ServerLogic.
Import Wire Translator.
Local Open Scope Z_scope.

(** What is known of a key that a request works on: the reservation in the cache,
    with what was copied into it, and whether it is recorded as pending. *)
Record Claim := mkClaim { c_res : option (option (list Z)); c_rec : bool }.

(** What a thread has. *)
Record Own := mkOwn { claims : gmap Z Claim; loose : list Z; opens : list (list Z * Z) }.

Definition set_claims (o : Own) m : Own := mkOwn m (loose o) (opens o).
Definition set_loose (o : Own) l : Own := mkOwn (claims o) l (opens o).
Definition set_opens (o : Own) l : Own := mkOwn (claims o) (loose o) l.

(** A reservation nobody works on. *)
Definition banked (c : Claim) : Prop := is_Some (c_res c) ∧ c_rec c = true.

(** After the record is removed, after the reservation is gone: a claim without
    either is none. *)
Definition without_record (m : gmap Z Claim) (k : Z) (c : Claim) : gmap Z Claim :=
  match c_res c with None => delete k m | Some p => <[k := mkClaim (Some p) false]> m end.
Definition without_slot (m : gmap Z Claim) (k : Z) (c : Claim) : gmap Z Claim :=
  if c_rec c then <[k := mkClaim None true]> m else delete k m.

Section logic.
Context (size_of : Z → Z) (alloc_len : list Z → Z).

(** The region lies in an allocation the thread has open. *)
Definition in_open (o : Own) (h : IpcHandle) : Prop :=
  ∃ hd base, (hd, base) ∈ opens o ∧ base ≤ address h ∧ address h + h_size h ≤ base + alloc_len hd.

(** ** Requests that keep the contract *)

(** Every region lies in the allocation of its handle. *)
Definition in_bounds (b : HandleBatch) : Prop :=
  ∀ k rs idx off size h dev, (k, rs) ∈ entries b → (idx, off, size) ∈ rs → handles b !! Z.to_nat idx = Some (h, dev) →
    off + size ≤ alloc_len h.

(** The reservations a request works on. *)
Definition works_on (r : request) : list Z :=
  match r with
  | RCopy b => batch_keys b
  | RCommit keys | RAbort keys => keys
  | _ => []
  end.

(** A client stores under sizes that belong to the keys, commits what it copied in
    full, and names regions of its own allocations. *)
Definition keeps_contract (m : gmap Z Claim) (r : request) : Prop :=
  match r with
  | RReserve es => Forall (λ e, e.1.2 = size_of e.1.1) es
  | RCopy b => in_bounds b ∧ ∀ k, k ∈ batch_keys b → ∃ c, m !! k = Some c ∧ banked c
  | RCommit keys => ∀ k, k ∈ keys → 0 ≤ k < u64_max ∧ ∃ b, m !! k = Some (mkClaim (Some (Some b)) true)
  | RAbort keys => ∀ k, k ∈ keys → ∃ c, m !! k = Some c ∧ banked c
  | RLookup b => in_bounds b ∧ Forall (λ e, StoreCalls.covers size_of e.1 (List.map snd e.2)) (entries b)
  | RPopulate b => in_bounds b ∧ Forall (λ e, 0 ≤ e.1 < u64_max ∧ ∀ x, e.2 = [x] → x.2 = size_of e.1) (entries b)
  | RClearMemoryTier | RClearAll => False
  | _ => True
  end.

(** What the decoder promises of a request. *)
Definition well_formed (r : request) : Prop :=
  match r with
  | RCheck keys | RTouch _ keys | RTouchCheck _ keys | RCommit keys | RAbort keys | RPin _ keys | RUnpin keys | RRemove keys => NoDup keys
  | RReserve es => NoDup (List.map (λ e, e.1.1) es)
  | RCopy b | RLookup b | RPopulate b => batch_ok b ∧ NoDup (batch_keys b)
  | _ => True
  end.

(** What a response says: one byte per key, and a commit and an abort succeed. *)
Definition answers (r : request) (x : response) : Prop :=
  match r with
  | RCheck keys | RTouchCheck _ keys => ∃ w, x = Ok w ∧ length w = length keys ∧ Forall (λ b, b = MISS ∨ b = RESIDENT ∨ b = PENDING) w
  | RTouch _ keys | RPin _ keys | RUnpin keys | RRemove keys => ∃ w, x = Ok w ∧ length w = length keys ∧ Forall (λ b, b = 0 ∨ b = 1) w
  | RReserve es => ∃ w, x = Ok w ∧ length w = length es ∧ Forall (λ b, b = 0 ∨ b = 1) w
  | RCopy b | RPopulate b => ∃ w, x = Ok w ∧ length w = length (entries b) ∧ Forall (λ b, b = 0 ∨ b = 1) w
  | RLookup b => ∃ w, x = Ok w ∧ length w = length (entries b) ∧ Forall (λ b, 0 ≤ b ≤ 4) w
  | RCommit keys | RAbort keys => x = Ok (replicate (length keys) 1)
  | RUnpinAll => ∃ n, x = Ok (to_le_bytes 8 n)
  | RFetch _ _ => x = Ok [NO_ENDPOINT]
  | _ => True
  end.

(** ** Calls *)

(** FR-024: every entry that was asked for is counted once. *)
Definition tallied (r : option request) (ob : Observation) : Prop :=
  match ob with
  | OnLookup hits misses errors _ => ∃ b, r = Some (RLookup b) ∧ hits + misses + errors = Z.of_nat (length (entries b))
  | OnPopulate n => ∃ b, r = Some (RPopulate b) ∧ 0 ≤ n ≤ Z.of_nat (length (entries b))
  | OnEvictions _ => True
  end.

Section thread.
Context (t : Thread) (rq : option request).

(** What a call needs of the thread that makes it. *)
Definition need (o : Own) (c : call) : Prop :=
  match c with
  | Promote keys => NoDup keys
  | Reserve k size _ _ => size = size_of k ∧ claims o !! k = None
  | CopyAsync k regions => (∃ c, claims o !! k = Some c ∧ banked c) ∧ Forall (in_open o) regions
  | Completed k size => size = size_of k ∧ 0 ≤ k < u64_max ∧ ∃ b, claims o !! k = Some (mkClaim (Some (Some b)) true)
  | Release k => ∃ c, claims o !! k = Some c ∧ is_Some (c_res c)
  | Unpin k => k ∈ loose o
  | BatchLookup batch => NoDup batch.*1 ∧ Forall (λ e, StoreCalls.covers size_of e.1 (h_size <$> e.2) ∧ Forall (in_open o) e.2) batch
  | BatchPopulate batch => Forall (λ e, 0 ≤ e.1 < u64_max ∧ h_size e.2 = size_of e.1 ∧ in_open o e.2) batch
  | ClearMemoryTier | ClearAll => False
  | IpcRelease h => ∃ base, (h, base) ∈ opens o
  | PendingInsert k size => size = size_of k ∧ ∃ p, claims o !! k = Some (mkClaim (Some p) false)
  | PendingRemove k => ∃ c, claims o !! k = Some c ∧ c_rec c = true
  | Stale _ => t = None
  | RecordPin ch k => t = Some ch ∧ k ∈ loose o
  | TakePin ch _ | TakeAllPins ch => t = Some ch
  | Observe ob => tallied rq ob
  | _ => True
  end.

(** What it answers, and what the thread has then. *)
Definition give (o : Own) (c : call) : reply c → Own → Prop :=
  match c return reply c → Own → Prop with
  | Reserve k _ _ _ => λ r o',
      match r with Ok _ => o' = set_claims o (<[k := mkClaim (Some None) false]> (claims o)) | Err _ => o' = o end
  | CopyAsync k _ => λ r o', ∃ p c, claims o !! k = Some c ∧ o' = set_claims o (<[k := mkClaim (Some p) (c_rec c)]> (claims o))
  | Completed k _ => λ r o', r = Ok () ∧ o' = set_claims o (<[k := mkClaim None true]> (claims o))
  | Release k => λ r o', r = Ok () ∧ ∃ c, claims o !! k = Some c ∧ o' = set_claims o (without_slot (claims o) k c)
  | Pin k => λ r o', match r with Ok _ => o' = set_loose o (k :: loose o) | Err _ => o' = o end
  | Unpin k => λ r o', r = Ok () ∧ ∃ l1 l2, loose o = l1 ++ k :: l2 ∧ o' = set_loose o (l1 ++ l2)
  | BatchLookup batch => λ r o', length r = length batch ∧ o' = o
  | IpcOpen h _ => λ r o',
      match r with
      | Some base => 0 < base ∧ base + alloc_len h < 2 ^ 64 ∧ o' = set_opens o ((h, base) :: opens o)
      | None => o' = o
      end
  | IpcRelease h => λ r o', ∃ base l1 l2, opens o = l1 ++ (h, base) :: l2 ∧ o' = set_opens o (l1 ++ l2)
  | PendingInsert k _ => λ r o', ∃ c, claims o !! k = Some c ∧ o' = set_claims o (<[k := mkClaim (c_res c) true]> (claims o))
  | PendingSize k => λ r o', o' = o ∧ ∀ c, claims o !! k = Some c → c_rec c = true → r = Some (size_of k)
  | PendingRemove k => λ r o', ∃ c, claims o !! k = Some c ∧ o' = set_claims o (without_record (claims o) k c)
  | Stale _ => λ r o', NoDup r ∧ (∀ k, k ∈ r → ∃ c, claims o' !! k = Some c ∧ banked c) ∧
      (∀ k, k ∉ r → claims o' !! k = claims o !! k) ∧ loose o' = loose o ∧ opens o' = opens o
  | RecordPin ch k => λ r o', ∃ l1 l2, loose o = l1 ++ k :: l2 ∧ o' = set_loose o (l1 ++ l2)
  | TakePin ch k => λ r o', if (r : bool) then ∃ l, l ≡ₚ k :: loose o ∧ o' = set_loose o l else o' = o
  | TakeAllPins ch => λ r o', ∃ l, l ≡ₚ r ++ loose o ∧ o' = set_loose o l
  | _ => λ r o', o' = o
  end.

Fixpoint wp {A} (p : prog A) (o : Own) (Q : A → Own → Prop) : Prop :=
  match p with
  | Done x => Q x o
  | Abort => False
  | Step c k => need o c ∧ ∀ r o', give o c r o' → wp (k r) o' Q
  end.

Lemma wp_mono {A} (p : prog A) o (Q Q' : A → Own → Prop) : wp p o Q → (∀ x o', Q x o' → Q' x o') → wp p o Q'.
Proof.
  intros Hp Hq. revert o Hp. induction p as [x| |c k IH]; intros o; simpl; [apply Hq|done|]. intros [Hn Hk]. split; [done|].
  intros r o' Hr. by apply IH, Hk.
Qed.

Lemma wp_bind {A B} (p : prog A) (f : A → prog B) o Q : wp p o (λ x o', wp (f x) o' Q) → wp (p ≫= f) o Q.
Proof.
  revert o. induction p as [x| |c k IH]; intros o; simpl; [done|done|]. intros [Hn Hk]. split; [done|].
  intros r o' Hr. by apply IH, Hk.
Qed.

Lemma wp_ask (c : call) o (Q : reply c → Own → Prop) : need o c → (∀ r o', give o c r o' → Q r o') → wp (ask c) o Q.
Proof. done. Qed.

Lemma wp_each {A B} (f : A → prog B) xs o (I : list B → list A → Own → Prop) Q :
  I [] xs o → (∀ ys x rest o', I ys (x :: rest) o' → wp (f x) o' (λ y o'', I (ys ++ [y]) rest o'')) →
  (∀ ys o', I ys [] o' → Q ys o') → wp (each f xs) o Q.
Proof.
  intros Hi Hs Hd. assert (∀ ys o', I ys xs o' → wp (each f xs) o' (λ zs, Q (ys ++ zs))) as G; [|exact (G [] o Hi)].
  clear Hi o. induction xs as [|x xs IH]; intros ys o' Hi; simpl; [rewrite app_nil_r; by apply Hd|].
  apply wp_bind. eapply wp_mono; [by apply Hs|]. intros y o1 H1. simpl. apply wp_bind. eapply wp_mono; [exact (IH _ _ H1)|].
  intros zs o2 H2. cbn beta in H2. simpl. by rewrite <- app_assoc in H2.
Qed.


(** The loops of the operations: one answer in [P] per key, [J] of the keys left. *)
Lemma wp_flags {A} (f : A → prog Z) xs o (J : list A → Own → Prop) (P : Z → Prop) Q :
  J xs o → (∀ x rest o', J (x :: rest) o' → wp (f x) o' (λ y o'', P y ∧ J rest o'')) →
  (∀ ys o', length ys = length xs → Forall P ys → J [] o' → Q ys o') → wp (each f xs) o Q.
Proof.
  intros Hj Hs Hd. apply (wp_each f xs o (λ ys rest o', (length ys + length rest = length xs)%nat ∧ Forall P ys ∧ J rest o')); [done| |].
  - intros ys x rest o' (Hl & Hp & Hj'). eapply wp_mono; [by apply Hs|]. intros y o'' [Hy Hj'']. rewrite length_app. simpl in *.
    split; [lia|]. split; [|done]. apply Forall_app. by split; [|apply Forall_singleton].
  - intros ys o' (Hl & Hp & Hj'). simpl in Hl. apply Hd; [lia|done|done].
Qed.

(** The same where a round leaves what the thread has as it is. *)
Lemma wp_flags_same {A} (f : A → prog Z) xs o (P : Z → Prop) Q :
  (∀ x, x ∈ xs → wp (f x) o (λ y o', P y ∧ o' = o)) →
  (∀ ys, length ys = length xs → Forall P ys → Q ys o) → wp (each f xs) o Q.
Proof.
  intros Hs Hd. apply (wp_flags f xs o (λ rest o', o' = o ∧ ∀ x, x ∈ rest → x ∈ xs) P); [done| |].
  - intros x rest o' [-> Hr]. eapply wp_mono; [apply Hs, Hr; set_solver|]. intros y o'' [Hy ->]. split_and!; [done|done|set_solver].
  - intros ys o' Hl Hp [-> _]. by apply Hd.
Qed.

(** * Operations *)

(** No reference is loose, no mapping open, and what it works on is reserved. *)
Record idle (o : Own) : Prop := {
  id_loose : loose o = [];
  id_opens : opens o = [];
  id_claims : ∀ k c, claims o !! k = Some c → banked c
}.

Definition finished (x : response) (o : Own) : Prop :=
  idle o ∧ match rq with Some r => answers r x | None => True end.

Lemma flag_bit b : flag b = 0 ∨ flag b = 1.
Proof. destruct b; auto. Qed.

Lemma wp_promoting promote keys o (Q : unit → Own → Prop) : NoDup keys → Q () o → wp (promoting promote keys) o Q.
Proof. intros Nd Hq. destruct promote; [|done]. apply wp_ask; [done|]. by intros [] o' ->. Qed.

Lemma wp_check keys o : rq = Some (RCheck keys) → idle o → wp (op_check keys) o finished.
Proof.
  intros Hr Id. apply wp_bind, wp_ask; [done|]. intros pending o' ->. apply wp_bind.
  apply (wp_flags_same _ _ _ (λ b, b = MISS ∨ b = RESIDENT ∨ b = PENDING)).
  - intros k _. case_decide; [simpl; auto|]. apply wp_bind, wp_ask; [done|]. intros x o' ->. simpl. destruct (present x); auto.
  - intros ys Hl Hp. split; [done|]. rewrite Hr. by exists ys.
Qed.

Lemma wp_touch promote keys o : rq = Some (RTouch promote keys) → idle o → NoDup keys → wp (op_touch promote keys) o finished.
Proof.
  intros Hr Id Nd. apply wp_bind. apply (wp_flags_same _ _ _ (λ b, b = 0 ∨ b = 1)).
  - intros k _. apply wp_bind, wp_ask; [done|]. intros x o' ->. split; [apply flag_bit|done].
  - intros ys Hl Hp. apply wp_bind, wp_promoting; [done|]. split; [done|]. rewrite Hr. by exists ys.
Qed.

Lemma wp_touch_check promote keys o :
  rq = Some (RTouchCheck promote keys) → idle o → NoDup keys → wp (op_touch_check promote keys) o finished.
Proof.
  intros Hr Id Nd. apply wp_bind, wp_ask; [done|]. intros pending o' ->. apply wp_bind.
  apply (wp_flags_same _ _ _ (λ b, b = MISS ∨ b = RESIDENT ∨ b = PENDING)).
  - intros k _. apply wp_bind, wp_ask; [done|]. intros y o' ->. case_decide; [simpl; auto|]. destruct (is_ok y); [|simpl; auto].
    apply wp_bind, wp_ask; [done|]. intros x o' ->. simpl. destruct (present x); auto.
  - intros ys Hl Hp. apply wp_bind, wp_promoting; [done|]. split; [done|]. rewrite Hr. by exists ys.
Qed.

Lemma wp_remove keys o : rq = Some (RRemove keys) → idle o → wp (op_remove keys) o finished.
Proof.
  intros Hr Id. apply wp_bind. apply (wp_flags_same _ _ _ (λ b, b = 0 ∨ b = 1)).
  - intros k _. apply wp_bind, wp_ask; [done|]. intros x o' ->. split; [apply flag_bit|done].
  - intros ys Hl Hp. split; [done|]. rewrite Hr. by exists ys.
Qed.

Lemma wp_take_events max o : rq = Some (RTakeEvents max) → idle o → wp (op_take_events max) o finished.
Proof.
  intros Hr Id. apply wp_bind, wp_ask; [done|]. intros evs o' ->. apply wp_bind, wp_ask; [done|]. intros d o' ->.
  apply wp_bind, wp_ask; [done|]. intros [] o' ->. split; [done|]. by rewrite Hr.
Qed.

Lemma wp_flush o : rq = Some RFlushToSsd → idle o → wp op_flush_to_ssd o finished.
Proof. intros Hr Id. apply wp_bind, wp_ask; [done|]. intros [n|e] o' ->; split; try done; by rewrite Hr. Qed.

Lemma wp_stats o : rq = Some RGetIoStats → idle o → wp op_get_io_stats o finished.
Proof. intros Hr Id. apply wp_bind, wp_ask; [done|]. intros x o' ->. split; [done|]. by rewrite Hr. Qed.

(** ** Stores *)

Lemma wp_reserve bp es o :
  rq = Some (RReserve es) → idle o → claims o = ∅ → NoDup (List.map (λ e, e.1.1) es) → Forall (λ e, e.1.2 = size_of e.1.1) es →
  wp (op_reserve bp es) o finished.
Proof.
  intros Hr Id Hc Nd Hz. apply wp_bind, wp_ask; [done|]. intros start o' ->. apply wp_bind.
  apply (wp_flags _ es o (λ rest o', idle o' ∧ NoDup (List.map (λ e, e.1.1) rest) ∧ Forall (λ e, e.1.2 = size_of e.1.1) rest ∧
    ∀ e, e ∈ rest → claims o' !! e.1.1 = None) (λ b, b = 0 ∨ b = 1)).
  - split_and!; try done. intros e _. rewrite Hc. apply lookup_empty.
  - intros [[k sz] session] rest o' (Id' & Nd' & Hz' & Hn). simpl in Nd'. apply NoDup_cons in Nd' as [Hk Nd']. apply Forall_cons in Hz' as [Hs Hz'].
    simpl in Hs. apply wp_bind, wp_ask; [split; [done|]; by apply (Hn (k, sz, session)), list_elem_of_here|].
    intros [ptr|e] o''; simpl; [intros ->|intros ->; split_and!; auto; intros e' He'; apply Hn; by apply list_elem_of_further].
    split; [split; [done|]; exists None; simpl; by rewrite lookup_insert_eq|]. intros [] o'' (c & Hc' & ->). simpl in Hc'.
    rewrite lookup_insert_eq in Hc'. injection Hc' as <-. split; [by right|]. simpl. rewrite insert_insert_eq.
    split_and!; try done.
    + destruct Id' as [H1 H2 H3]. split; simpl; [done|done|]. intros k' c. destruct (decide (k' = k)) as [->|Hk'].
      * rewrite lookup_insert_eq. intros [= <-]. split; [by eexists|done].
      * rewrite lookup_insert_ne by done. apply H3.
    + intros e He. rewrite lookup_insert_ne; [apply Hn; by apply list_elem_of_further|]. intros ->. apply Hk.
      by apply (list_elem_of_fmap_2 (λ e : Z * Z * Z, e.1.1)).
  - intros ys o' Hl Hp (Id' & _). split; [done|]. rewrite Hr. by exists ys.
Qed.

(** A claim that goes leaves the others. *)
Lemma idle_delete o k : idle o → idle (set_claims o (delete k (claims o))).
Proof. intros [H1 H2 H3]. split; simpl; [done|done|]. intros k' c Hc. apply lookup_delete_Some in Hc as [_ Hc]. by eapply H3. Qed.

Lemma all_ones (ys : list Z) n : length ys = n → Forall (λ b, b = 1) ys → ys = replicate n 1.
Proof. intros <-. induction 1 as [|y ys -> _ IH]; simpl; congruence. Qed.

Lemma wp_commit keys o :
  rq = Some (RCommit keys) → idle o → NoDup keys →
  (∀ k, k ∈ keys → 0 ≤ k < u64_max ∧ ∃ b, claims o !! k = Some (mkClaim (Some (Some b)) true)) →
  wp (op_commit_store keys) o finished.
Proof.
  intros Hr Id Nd Hk. apply wp_bind.
  apply (wp_flags _ keys o (λ rest o', idle o' ∧ NoDup rest ∧
    ∀ k, k ∈ rest → 0 ≤ k < u64_max ∧ ∃ b, claims o' !! k = Some (mkClaim (Some (Some b)) true)) (λ b, b = 1)); [done| |].
  - intros k rest o' (Id' & Nd' & Hk'). apply NoDup_cons in Nd' as [Hnk Nd']. destruct (Hk' k ltac:(set_solver)) as (Hb & b & Hc).
    apply wp_bind, wp_ask; [done|]. intros sz o'' [-> Hs]. rewrite (Hs _ Hc eq_refl). apply wp_bind, wp_ask; [split; [done|]; split; [done|by exists b]|].
    intros r o'' [-> ->]. apply wp_bind, wp_ask; [exists (mkClaim None true); simpl; by rewrite lookup_insert_eq|].
    intros [] o'' (c & Hc' & ->). simpl in Hc'. rewrite lookup_insert_eq in Hc'. injection Hc' as <-. split; [done|].
    unfold without_record. simpl. rewrite delete_insert_eq. split; [by apply (idle_delete o')|]. split; [done|].
    intros k' Hk2. rewrite lookup_delete_ne by set_solver. apply Hk'. set_solver.
  - intros ys o' Hl Hp (Id' & _). split; [done|]. rewrite Hr. simpl. by rewrite (all_ones ys (length keys)).
Qed.

Lemma wp_abort keys o :
  rq = Some (RAbort keys) → idle o → NoDup keys → (∀ k, k ∈ keys → ∃ c, claims o !! k = Some c ∧ banked c) →
  wp (op_abort_store keys) o finished.
Proof.
  intros Hr Id Nd Hk. apply wp_bind.
  apply (wp_flags _ keys o (λ rest o', idle o' ∧ NoDup rest ∧ ∀ k, k ∈ rest → ∃ c, claims o' !! k = Some c ∧ banked c) (λ b, b = 1)); [done| |].
  - intros k rest o' (Id' & Nd' & Hk'). apply NoDup_cons in Nd' as [Hnk Nd']. destruct (Hk' k ltac:(set_solver)) as ([p r] & Hc & [p' Hp] & Hrec).
    simpl in Hp, Hrec. subst p r. apply wp_bind, wp_ask; [by eexists|]. intros [] o'' (c & Hc' & ->). rewrite Hc in Hc'. injection Hc' as <-.
    unfold without_record. simpl. split; [eexists; rewrite lookup_insert_eq; split; [done|by eexists]|].
    intros r o'' (-> & c & Hc' & ->). simpl in Hc'. rewrite lookup_insert_eq in Hc'. injection Hc' as <-. unfold without_slot. simpl. split; [done|].
    rewrite delete_insert_eq. split; [by apply (idle_delete o')|]. split; [done|].
    intros k' Hk2. rewrite lookup_delete_ne by set_solver. apply Hk'. set_solver.
  - intros ys o' Hl Hp (Id' & _). split; [done|]. rewrite Hr. simpl. by rewrite (all_ones ys (length keys)).
Qed.

(** ** Pins *)

Lemma set_loose_nil o : loose o = [] → set_loose o [] = o.
Proof. destruct o. simpl. by intros ->. Qed.

Lemma singleton_split {A} (x y : A) l1 l2 : [x] = l1 ++ y :: l2 → l1 = [] ∧ l2 = [].
Proof. destruct l1 as [|z [|z' l1]]; simpl; [by intros [= -> <-]|done|done]. Qed.

Lemma wp_pin ch promote keys o :
  t = Some ch → rq = Some (RPin promote keys) → idle o → NoDup keys → wp (op_pin ch promote keys) o finished.
Proof.
  intros Ht Hr Id Nd. apply wp_bind. apply (wp_flags_same _ _ _ (λ b, b = 0 ∨ b = 1)).
  - intros k _. apply wp_bind, wp_ask; [done|]. intros [[]|e] o'; simpl; [intros ->|intros ->; auto]. rewrite (id_loose _ Id).
    split; [split; [done|set_solver]|]. intros [] o' (l1 & l2 & Hl & ->). simpl in Hl. apply singleton_split in Hl as [-> ->].
    split; [by right|]. simpl. apply (set_loose_nil o), Id.
  - intros ys Hl Hp. apply wp_bind, wp_promoting; [done|]. split; [done|]. rewrite Hr. by exists ys.
Qed.

Lemma wp_unpin ch keys o : t = Some ch → rq = Some (RUnpin keys) → idle o → wp (op_unpin ch keys) o finished.
Proof.
  intros Ht Hr Id. apply wp_bind. apply (wp_flags_same _ _ _ (λ b, b = 0 ∨ b = 1)).
  - intros k _. apply wp_bind, wp_ask; [done|]. intros [] o'; simpl.
    + rewrite (id_loose _ Id). intros (l & Hl & ->). apply Permutation_singleton_r in Hl as ->. split; [simpl; set_solver|].
      intros r o' (-> & l1 & l2 & Hl & ->). simpl in Hl. apply singleton_split in Hl as [-> ->]. split; [by right|]. apply (set_loose_nil o), Id.
    + intros ->. split; [done|]. intros [] o' ->. auto.
  - intros ys Hl Hp. split; [done|]. rewrite Hr. by exists ys.
Qed.

Lemma wp_unpin_all ch o : t = Some ch → rq = Some RUnpinAll → idle o → wp (op_unpin_all ch) o finished.
Proof.
  intros Ht Hr Id. apply wp_bind, wp_ask; [done|]. intros keys o' (l & Hl & ->). rewrite (id_loose _ Id), app_nil_r in Hl. apply wp_bind.
  apply (wp_each _ _ _ (λ _ rest o', ∃ l, l ≡ₚ rest ∧ o' = set_loose o l)); [by exists l| |].
  - intros _ k rest o' (l' & Hl' & ->). apply wp_ask; [simpl; rewrite Hl'; set_solver|]. intros r o' (-> & l1 & l2 & El & ->). simpl in El. subst l'.
    exists (l1 ++ l2). split; [|done]. rewrite <- Permutation_middle in Hl'. by apply Permutation_cons_inv in Hl'.
  - intros _ o' (l' & Hl' & ->). apply Permutation_nil_r in Hl' as ->. rewrite set_loose_nil by apply Id.
    apply wp_bind, wp_ask; [done|]. intros [] o' ->. split; [done|]. rewrite Hr. by eexists.
Qed.

(** ** Mappings *)

Definition resolved_ok (hs : list TableHandle) (resolved : list (option Z)) (l : list (list Z * Z)) : Prop :=
  ∀ i base, resolved !! i = Some (Some base) →
    ∃ h dev, hs !! i = Some (h, dev) ∧ (h, base) ∈ l ∧ 0 < base ∧ base + alloc_len h < 2 ^ 64.

Lemma wp_open_table hs o (Q : list (option Z) * list (list Z) → Own → Prop) :
  (∀ resolved opened l, resolved_ok hs resolved l → l.*1 ≡ₚ opened ++ (opens o).*1 → (∀ x, x ∈ opens o → x ∈ l) →
    Q (resolved, opened) (set_opens o l)) →
  wp (open_handle_table hs) o Q.
Proof.
  revert o Q. induction hs as [|[h dev] hs IH]; intros o Q Hq; simpl.
  { replace o with (set_opens o (opens o)) by (by destruct o). by apply Hq. }
  split; [done|]. intros [base|] o' Ho.
  - destruct Ho as (H0 & Hb & ->). apply wp_bind. apply IH. intros resolved opened l Hrs Hl Hin. simpl in *.
    apply (Hq (Some base :: resolved) (h :: opened) l).
    + intros [|i] b; simpl; [|apply Hrs]. intros [= <-]. exists h, dev. split_and!; try done. apply Hin. set_solver.
    + by rewrite Hl, <- Permutation_middle.
    + set_solver.
  - subst o'. apply wp_bind. apply IH. intros resolved opened l Hrs Hl Hin. simpl in *. apply (Hq (None :: resolved) opened l); [|done|done].
    intros [|i] b; simpl; [done|apply Hrs].
Qed.

Lemma wp_close opened o (Q : unit → Own → Prop) :
  (opens o).*1 ≡ₚ opened → Q () (set_opens o []) → wp (close_handles opened) o Q.
Proof.
  intros Hp Hq. apply wp_bind. apply (wp_each _ _ _ (λ _ rest o', ∃ l, l.*1 ≡ₚ rest ∧ o' = set_opens o l)).
  - exists (opens o). split; [done|]. by destruct o.
  - intros _ h rest o' (l & Hl & ->). apply wp_bind, wp_ask.
    { assert (h ∈ l.*1) as Hin by (rewrite Hl; set_solver). apply list_elem_of_fmap_1 in Hin as ([h' base] & -> & Hin). by exists base. }
    intros [] o' (base & l1 & l2 & El & ->). simpl in El. subst l. apply wp_ask; [done|]. intros n o' ->. exists (l1 ++ l2). split; [|done].
    rewrite fmap_app in *. simpl in Hl. rewrite <- Permutation_middle in Hl. by apply Permutation_cons_inv in Hl.
  - intros _ o' (l & Hl & ->). apply Permutation_nil_r, fmap_nil_inv in Hl as ->. done.
Qed.

(** The regions of an entry lie in the allocations the thread has open. *)
Definition bounded (hs : list TableHandle) (rs : list RegionRef) : Prop :=
  ∀ idx off size h dev, (idx, off, size) ∈ rs → hs !! Z.to_nat idx = Some (h, dev) → off + size ≤ alloc_len h.

Lemma regions_of_spec hs rs resolved o :
  resolved_ok hs resolved (opens o) → bounded hs rs → Forall (region_ok (length hs)) rs →
  ∃ x, regions_of rs resolved = Ret x ∧ ∀ regions, x = Some regions → h_size <$> regions = List.map snd rs ∧ Forall (in_open o) regions.
Proof.
  intros Hr Hb Hok. induction Hok as [|[[idx off] sz] rs Hx Hok IH]; simpl.
  { eexists. split; [done|]. intros ? [= <-]. done. }
  destruct IH as (y & Ey & Hy); [intros i' o' s' h' d' Hin; apply (Hb i' o' s' h' d'); by apply list_elem_of_further|].
  destruct (resolved !! Z.to_nat idx) as [[base|]|] eqn:Er; [|by eexists..].
  destruct (Hr _ _ Er) as (h & dev & Hh & Hin & H0 & Hlt). pose proof (Hb idx off sz h dev ltac:(set_solver) Hh).
  destruct Hx as (_ & _ & Ho & Hs). unfold is_u in Ho, Hs. rewrite add_w_Ret, bind_Ret_l, Ey, bind_Ret_l by lia.
  eexists. split; [done|]. intros regions. destruct y as [hs'|]; [|done]. intros [= <-]. destruct (Hy hs' eq_refl) as [<- Hf].
  split; [done|]. constructor; [|done]. exists h, base. simpl. split; [done|lia].
Qed.

(** The entries of a batch, with its handles resolved. *)
Record table_ok (b : HandleBatch) (resolved : list (option Z)) (l : list (list Z * Z)) : Prop := {
  t_resolved : resolved_ok (handles b) resolved l;
  t_batch : batch_ok b;
  t_bounds : in_bounds b
}.

Lemma entry_regions b resolved o e :
  table_ok b resolved (opens o) → e ∈ entries b →
  ∃ x, regions_of e.2 resolved = Ret x ∧ ∀ regions, x = Some regions → h_size <$> regions = List.map snd e.2 ∧ Forall (in_open o) regions.
Proof.
  intros [Hr [_ Hb _] Hi] He. rewrite Forall_forall in Hb. destruct (Hb e He) as [_ Hok]. destruct e as [k rs].
  apply (regions_of_spec (handles b)); [done| |done]. intros idx off sz h dev Hin Hh. by eapply Hi.
Qed.

Lemma set_opens_nil o l : opens o = [] → set_opens (set_opens o l) [] = o.
Proof. destruct o. simpl. by intros ->. Qed.

Lemma wp_copy b o :
  rq = Some (RCopy b) → idle o → batch_ok b → in_bounds b → (∀ k, k ∈ batch_keys b → ∃ c, claims o !! k = Some c ∧ banked c) →
  wp (copy_to_store_batch b) o finished.
Proof.
  intros Hr Id Hb Hi Hk. apply wp_bind, wp_open_table. intros resolved opened l Hrs Hl _. rewrite (id_opens _ Id), app_nil_r in Hl.
  apply wp_bind. apply (wp_flags _ (entries b) _ (λ rest o', loose o' = [] ∧ opens o' = l ∧ (∀ k c, claims o' !! k = Some c → banked c) ∧
    (∀ k, k ∈ batch_keys b → ∃ c, claims o' !! k = Some c ∧ banked c) ∧ ∀ e, e ∈ rest → e ∈ entries b) (λ b, b = 0 ∨ b = 1)).
  - destruct Id as [H1 _ H3]. split_and!; try done.
  - intros e rest o' (Hlo & Hop & Hc & Hk' & Hin). assert (e ∈ entries b) as He by (apply Hin; set_solver).
    destruct (entry_regions b resolved o' e) as (x & Ex & Hx); [by rewrite Hop|done|]. unfold copy_one. rewrite Ex.
    destruct x as [regions|]; simpl; [|split; [by left|]; split_and!; try done; set_solver].
    destruct (Hx regions eq_refl) as [_ Ho]. destruct (Hk' e.1) as (c & Hce & Hbk); [by apply (list_elem_of_fmap_2 fst)|].
    split; [split; [by exists c|done]|]. intros x o'' (p & c' & Hc' & ->). rewrite Hce in Hc'. injection Hc' as <-. simpl.
    assert (banked (mkClaim (Some p) (c_rec c))) as Hbk' by (split; [by eexists|apply Hbk]).
    split; [apply flag_bit|]. split_and!; try done; [| |set_solver].
    + intros k c'. destruct (decide (k = e.1)) as [->|]; [rewrite lookup_insert_eq; by intros [= <-]|rewrite lookup_insert_ne by done; apply Hc].
    + intros k Hkk. destruct (decide (k = e.1)) as [->|]; [rewrite lookup_insert_eq; by eexists|rewrite lookup_insert_ne by done; by apply Hk'].
  - intros ys o' Hly Hp (Hlo & Hop & Hc & _). apply wp_bind, wp_close; [by rewrite Hop|]. split; [split; simpl; done|].
    rewrite Hr. by exists ys.
Qed.

(** ** Lookups *)

Lemma valid_entries_spec b resolved o es i :
  table_ok b resolved (opens o) → (∀ e, e ∈ es → e ∈ entries b) →
  ∃ v, valid_entries i es resolved = Ret v ∧ v.*2.*1 `sublist_of` es.*1 ∧
    Forall (λ x, (i ≤ x.1 < i + length es)%nat ∧ Forall (in_open o) x.2.2 ∧ ∃ rs, (x.2.1, rs) ∈ es ∧ h_size <$> x.2.2 = List.map snd rs) v.
Proof.
  intros T. revert i. induction es as [|e es IH]; intros i Hin; simpl; [by eexists|].
  destruct (entry_regions b resolved o e T) as (x & -> & Hx); [set_solver|]. rewrite bind_Ret_l.
  destruct (IH (S i)) as (v & -> & Hs & Hv); [set_solver|]. rewrite bind_Ret_l. eexists. split; [done|].
  assert (Forall (λ x, (i ≤ x.1 < i + S (length es))%nat ∧ Forall (in_open o) x.2.2 ∧
    ∃ rs, (x.2.1, rs) ∈ e :: es ∧ h_size <$> x.2.2 = List.map snd rs) v) as Hv'.
  { eapply Forall_impl; [exact Hv|]. intros y (Hy & Ho & rs & Hr & Hz). split; [lia|]. split; [done|]. exists rs. split; [set_solver|done]. }
  destruct x as [regions|]; [|split; [by apply sublist_cons|done]]. destruct (Hx regions eq_refl) as [Hz Ho]. simpl.
  split; [by apply sublist_skip|]. constructor; [|done]. simpl. split; [lia|]. split; [done|]. exists e.2. split; [|done].
  rewrite <- surjective_pairing. set_solver.
Qed.

Lemma tally_sum rs h m e : let '(h', m', e') := tally rs h m e in h' + m' + e' = h + m + e + Z.of_nat (length rs).
Proof.
  revert h m e. induction rs as [|s rs IH]; intros h m e; simpl; [lia|].
  destruct s; simpl; match goal with |- context [tally rs ?a ?b ?c] => specialize (IH a b c); destruct (tally rs a b c) as [[? ?] ?] end; lia.
Qed.

Lemma wire_tier_range s : 0 ≤ wire_tier s ≤ 4.
Proof. destruct s; simpl; lia. Qed.

Lemma sum_regions_spec hs acc :
  0 ≤ acc → Forall (λ r, 0 ≤ r) (h_size <$> hs) → acc + StoreInvariant.total (h_size <$> hs) < 2 ^ 64 →
  sum_regions acc hs = Ret (acc + StoreInvariant.total (h_size <$> hs)).
Proof.
  revert acc. induction hs as [|h hs IH]; intros acc H0 Hn Hl; [simpl; f_equal; unfold StoreInvariant.total; simpl; lia|].
  cbn [fmap list_fmap] in *. apply Forall_cons in Hn as [Hh Hn]. unfold StoreInvariant.total in *. cbn [foldr] in *.
  assert (0 ≤ foldr Z.add 0 (h_size <$> hs)) by (clear -Hn; induction Hn; simpl; lia).
  simpl. rewrite add_w_Ret, bind_Ret_l, IH by (done || lia). f_equal. lia.
Qed.

Lemma served_flags_spec (valid : list (nat * (Z * list IpcHandle))) results flags bytes :
  Forall (λ x, (x.1 < length flags)%nat ∧ Forall (λ r, 0 ≤ r) (h_size <$> x.2.2) ∧ 0 ≤ StoreInvariant.total (h_size <$> x.2.2) ≤ 2 ^ 30) valid →
  Forall (λ b, 0 ≤ b ≤ 4) flags → 0 ≤ bytes → bytes + Z.of_nat (length valid) * 2 ^ 30 < 2 ^ 64 →
  ∃ flags' bytes', served_flags valid results flags bytes = Ret (flags', bytes') ∧ length flags' = length flags ∧
    Forall (λ b, 0 ≤ b ≤ 4) flags'.
Proof.
  intros Hv. revert results flags bytes Hv. induction valid as [|[slot [k regions]] valid IH]; intros results flags bytes Hv Hf H0 Hb; [by eexists _, _|].
  apply Forall_cons in Hv as ((Hs & Hn & Ht) & Hv). simpl in Hs, Hn, Ht. simpl in Hb. destruct results as [|r results]; [by eexists _, _|].
  simpl. pose proof (wire_tier_range r). destruct (wire_tier r =? 0); [apply IH; try done; lia|].
  rewrite vec_set_Ret, bind_Ret_l, sum_regions_spec, bind_Ret_l, add_w_Ret, bind_Ret_l by (done || lia).
  destruct (IH results (<[slot := wire_tier r]> flags) (bytes + (0 + StoreInvariant.total (h_size <$> regions)))) as (f' & b' & -> & Hl & Hf').
  - eapply Forall_impl; [exact Hv|]. intros x Hx. by rewrite length_insert.
  - by apply Forall_insert.
  - lia.
  - lia.
  - exists f', b'. rewrite length_insert in Hl. done.
Qed.

Lemma wp_lookup b o :
  (∀ k, 0 < size_of k ≤ 2 ^ 30) → rq = Some (RLookup b) → idle o → batch_ok b → NoDup (batch_keys b) → in_bounds b →
  Forall (λ e, StoreCalls.covers size_of e.1 (List.map snd e.2)) (entries b) → wp (lookup_batch b) o finished.
Proof.
  intros Hz Hr Id Hb Nd Hi Hc. rewrite Forall_forall in Hc. apply wp_bind, wp_open_table. intros resolved opened l Hrs Hl _.
  rewrite (id_opens _ Id), app_nil_r in Hl. set (o1 := set_opens o l).
  destruct (valid_entries_spec b resolved o1 (entries b) 0) as (v & Ev & Hsub & Hv); [done|done|]. rewrite Forall_forall in Hv.
  unfold attempt. rewrite Ev. apply wp_bind. cbn [wp]. apply wp_bind, wp_ask.
  { split; [by eapply sublist_NoDup|]. apply Forall_fmap, Forall_forall. intros x Hx.
    destruct (Hv x Hx) as (_ & Ho & rs & Hin & Hsz). simpl. rewrite Hsz. split; [by apply (Hc (x.2.1, rs))|done]. }
  intros results o2 [Hlr ->]. rewrite length_fmap in Hlr. pose proof (sublist_length _ _ Hsub) as Hlv. rewrite !length_fmap in Hlv.
  unfold tally_lookup. rewrite length_fmap. destruct (Nat.ltb_spec (length (entries b)) (length results)); [lia|].
  pose proof (tally_sum results.*1 0 0 (Z.of_nat (length (entries b) - length results))) as Ht.
  destruct (tally _ 0 0 _) as [[hits misses] errors]. rewrite length_fmap in Ht. apply wp_bind. cbn [wp].
  destruct (served_flags_spec v results.*1 (replicate (length (entries b)) 0) 0) as (flags & bytes & Ef & Hlf & Hf).
  { apply Forall_forall. intros x Hx. destruct (Hv x Hx) as (Hs & _ & rs & Hin & ->). destruct (Hc _ Hin) as [Hn Htot]. simpl in Hn, Htot.
    rewrite length_replicate. split; [lia|]. split; [done|]. rewrite Htot. specialize (Hz x.2.1). lia. }
  { apply Forall_replicate. lia. }
  { done. }
  { pose proof (b_count _ Hb). lia. }
  rewrite Ef. apply wp_bind. cbn [wp]. apply wp_bind, wp_close; [done|]. unfold o1. rewrite set_opens_nil by apply Id. apply wp_bind, wp_ask.
  { exists b. split; [done|lia]. }
  intros [] o' ->. split; [done|]. rewrite Hr. exists flags. rewrite Hlf, length_replicate. done.
Qed.

(** ** The batch store *)

Lemma populate_entries_spec b resolved o es i :
  table_ok b resolved (opens o) → (∀ e, e ∈ es → e ∈ entries b) →
  ∃ batch rejected, populate_entries i es resolved = Ret (batch, rejected) ∧
    Forall (λ x, in_open o x.2 ∧ ∃ r, (x.1, [r]) ∈ es ∧ h_size x.2 = r.2) batch.
Proof.
  intros T. revert i. induction es as [|e es IH]; intros i Hin; simpl; [by eexists _, _|].
  destruct (IH (S i)) as (batch & rejected & Ep & Hb); [set_solver|].
  assert (Forall (λ x, in_open o x.2 ∧ ∃ r, (x.1, [r]) ∈ e :: es ∧ h_size x.2 = r.2) batch) as Hb'.
  { eapply Forall_impl; [exact Hb|]. intros x (Ho & r & Hr & Hs). split; [done|]. exists r. split; [set_solver|done]. }
  destruct (Nat.eqb_spec (length e.2) 1) as [Hl|]; [|rewrite Ep, bind_Ret_l; by eexists _, _].
  destruct (entry_regions b resolved o e T) as (x & -> & Hx); [set_solver|]. rewrite bind_Ret_l, Ep, bind_Ret_l.
  destruct x as [regions|]; [|by eexists _, _]. destruct (Hx regions eq_refl) as [Hz Ho].
  destruct e as [k [|r [|]]]; simpl in *; try done. destruct regions as [|h [|]]; simpl in Hz; try done. injection Hz as Hz.
  eexists _, _. split; [done|]. constructor; [|done]. simpl. split; [by apply Forall_cons in Ho as [Ho _]|]. exists r. split; [set_solver|done].
Qed.

Lemma populate_flags_bits is_ rejected results i :
  length (populate_flags is_ rejected results i) = length is_ ∧ Forall (λ b, b = 0 ∨ b = 1) (populate_flags is_ rejected results i).
Proof.
  revert i. induction is_ as [|j is_ IH]; intros i; simpl; [done|]. case_decide; simpl.
  - destruct (IH i) as [-> ?]. split; [done|]. constructor; auto.
  - destruct (IH (S i)) as [-> ?]. split; [done|]. constructor; [apply flag_bit|done].
Qed.

Lemma sum_bits ys : Forall (λ b, b = 0 ∨ b = 1) ys → 0 ≤ foldr Z.add 0 ys ≤ Z.of_nat (length ys).
Proof. induction 1 as [|y ys [->| ->] _ IH]; simpl; lia. Qed.

Lemma wp_populate b o :
  rq = Some (RPopulate b) → idle o → batch_ok b → in_bounds b →
  Forall (λ e, 0 ≤ e.1 < u64_max ∧ ∀ x, e.2 = [x] → x.2 = size_of e.1) (entries b) → wp (op_populate b) o finished.
Proof.
  intros Hr Id Hb Hi Hc. rewrite Forall_forall in Hc. apply wp_bind, wp_open_table. intros resolved opened l Hrs Hl _.
  rewrite (id_opens _ Id), app_nil_r in Hl. set (o1 := set_opens o l).
  destruct (populate_entries_spec b resolved o1 (entries b) 0) as (batch & rejected & Ev & Hv); [done|done|]. rewrite Forall_forall in Hv.
  unfold attempt. rewrite Ev. apply wp_bind. cbn [wp]. apply wp_bind, wp_ask.
  { apply Forall_forall. intros x Hx. destruct (Hv x Hx) as (Ho & r & Hin & Hz). destruct (Hc _ Hin) as [Hk Hs]. split; [done|].
    split; [|done]. rewrite Hz. by apply (Hs r). }
  intros results o2 ->. apply wp_bind, wp_close; [done|]. unfold o1. rewrite set_opens_nil by apply Id.
  destruct (populate_flags_bits (seq 0 (length (entries b))) rejected results 0) as [Hlf Hf]. rewrite length_seq in Hlf.
  apply wp_bind, wp_ask.
  { exists b. split; [done|]. pose proof (sum_bits _ Hf) as Hs. by rewrite Hlf in Hs. }
  intros [] o' ->. split; [done|]. rewrite Hr. by eexists.
Qed.

(** * Requests *)

(** What a thread has when it starts on a request. *)
Record starts (r : request) (o : Own) : Prop := {
  st_idle : idle o;
  st_contract : keeps_contract (claims o) r;
  st_formed : well_formed r;
  st_claims : ∀ k, is_Some (claims o !! k) → k ∈ works_on r
}.

Lemma wp_request bp ch r o :
  (∀ k, 0 < size_of k ≤ 2 ^ 30) → t = Some ch → rq = Some r → starts r o → wp (handle_request bp ch r) o finished.
Proof.
  intros Hz Ht Hr [Id Hk Hf Hc]. destruct r; simpl in *.
  - by apply wp_check.
  - by apply wp_touch.
  - by apply wp_touch_check.
  - apply wp_reserve; try done. apply map_empty. intros k. apply eq_None_not_Some. intros Hs. by apply Hc, not_elem_of_nil in Hs.
  - destruct Hk, Hf. by apply wp_copy.
  - by apply wp_commit.
  - by apply wp_abort.
  - by apply wp_pin.
  - by apply wp_unpin.
  - by apply wp_unpin_all.
  - destruct Hk, Hf. by apply wp_lookup.
  - by apply (wp_take_events max).
  - destruct Hk, Hf. by apply wp_populate.
  - by apply wp_remove.
  - done.
  - by apply wp_flush.
  - by apply wp_stats.
  - split; [done|]. by rewrite Hr.
  - done.
Qed.

Lemma wp_sweep timeout o : t = None → rq = None → idle o → claims o = ∅ → wp (sweep timeout) o finished.
Proof.
  intros Ht Hr Id Hc. apply wp_bind, wp_bind, wp_ask; [done|]. intros stale o1 (Nd & Hs & Ho & Hl & Hop). apply wp_bind.
  apply (wp_each _ _ _ (λ _ rest o', idle o' ∧ NoDup rest ∧ ∀ k, k ∈ rest → ∃ c, claims o' !! k = Some c ∧ banked c)).
  - split; [|done]. destruct Id as [H1 H2 _]. split; [congruence|congruence|]. intros k c Hk. destruct (decide (k ∈ stale)) as [Hin|Hin].
    + destruct (Hs k Hin) as (c' & Hc' & ?). by simplify_eq.
    + rewrite Ho, Hc in Hk by done. by rewrite lookup_empty in Hk.
  - intros _ k rest o' (Id' & Nd' & Hk'). apply NoDup_cons in Nd' as [Hnk Nd']. destruct (Hk' k ltac:(set_solver)) as ([p r] & Hck & [p' Hp] & Hrec).
    simpl in Hp, Hrec. subst p r. apply wp_bind, wp_ask; [eexists; split; [done|by eexists]|]. intros r o2 (-> & c & Hc2 & ->).
    rewrite Hck in Hc2. injection Hc2 as <-. unfold without_slot. cbn [c_rec]. apply wp_ask.
    { exists (mkClaim None true). simpl. by rewrite lookup_insert_eq. }
    intros [] o3 (c & Hc3 & ->). simpl in Hc3. rewrite lookup_insert_eq in Hc3. injection Hc3 as <-. unfold without_record. simpl.
    rewrite delete_insert_eq. split; [by apply (idle_delete o')|]. split; [done|].
    intros k' Hk2. rewrite lookup_delete_ne by set_solver. apply Hk'. set_solver.
  - intros _ o' (Id' & _). simpl. split; [done|]. intros n o'' ->. split; [done|]. by rewrite Hr.
Qed.

End thread.
End logic.

(** * Decoding *)

Lemma check_duplicates_NoDup seen keys : check_duplicates seen keys = None → NoDup keys ∧ ∀ k, k ∈ keys → k ∉ seen.
Proof.
  revert seen. induction keys as [|k keys IH]; intros seen; simpl; [split; [constructor|set_solver]|]. case_decide; [done|].
  intros Hc. apply IH in Hc as [Nd Hk]. split; [|set_solver]. constructor; [|done]. intros Hin. apply Hk in Hin. set_solver.
Qed.

Lemma types_unique {A} (keys_of : A → list Z) (m : D A) P : types m P → types (unique keys_of m) (λ x, P x ∧ NoDup (keys_of x)).
Proof.
  intros Hm. eapply types_bind; [exact Hm|]. intros x Hx. unfold check_duplicate_keys.
  destruct (check_duplicates ∅ (keys_of x)) eqn:Hc; [apply types_fail|]. eapply types_bind; [by apply (types_ret () (λ _, True))|].
  intros [] _. apply types_ret. split; [done|]. by apply check_duplicates_NoDup in Hc as [? _].
Qed.

Lemma types_keys : types read_keys (λ _, True).
Proof. eapply types_bind; [eauto with wire|]. intros n _. eapply types_weaken; [apply types_read_n; eauto with wire|done]. Qed.

Lemma types_promote : types read_promote (λ _, True).
Proof. eapply types_bind; [eauto with wire|]. intros p _. eapply types_bind; [apply types_keys|]. intros ks _. by apply types_ret. Qed.

Lemma types_reserve : types read_reserve (λ _, True).
Proof.
  eapply types_bind; [eauto with wire|]. intros n _. eapply types_weaken; [apply (types_read_n _ _ (λ _, True))|done].
  eapply types_bind; [eauto with wire|]. intros k _. eapply types_bind; [eauto with wire|]. intros sz _.
  eapply types_bind; [eauto with wire|]. intros se _. by apply types_ret.
Qed.

Lemma types_fetch : types read_fetch (λ _, True).
Proof.
  eapply types_bind; [eauto with wire|]. intros n _. eapply types_bind; [apply types_take|]. intros peer _.
  destruct (valid_utf8 peer); [|apply types_fail]. eapply types_bind; [eauto with wire|]. intros m _.
  eapply types_bind; [apply (types_read_n _ _ (λ _, True))|intros es _; by apply types_ret].
  eapply types_bind; [eauto with wire|]. intros k _. eapply types_bind; [eauto with wire|]. intros sz _. by apply types_ret.
Qed.

#[export] Hint Resolve types_keys types_promote types_reserve types_fetch types_handle_batch types_block_batch types_chunk_block_batch : wire.

Lemma types_decode op : types (decode op) well_formed.
Proof.
  assert (types decode_unpin well_formed) as Hu.
  { eapply types_bind; [eauto with wire|]. intros n _. destruct (n =? UNPIN_ALL); [by apply types_ret|].
    eapply types_bind; [apply types_unique, types_read_n; eauto with wire|]. intros ks [_ Nd]. by apply types_ret. }
  destruct op; simpl; try done; try (by apply types_ret);
    try (eapply types_bind; [apply types_unique; eauto with wire|]; intros x [? ?]; by apply types_ret).
  eapply types_bind; [eauto with wire|]. intros x _. by apply types_ret.
Qed.

(** Any payload is decoded, to a well-formed request or an error. *)
Lemma parse_spec opcode payload :
  Forall (is_u 8) payload → ∃ x, parse opcode payload = Ret x ∧ ∀ r, x = Ok r → well_formed r.
Proof.
  intros Hp. unfold parse. destruct (opcode_of opcode) as [op|]; [|by eexists].
  destruct (types_decode op (reader_new payload)) as (x & -> & Hx); [split; simpl; [done|lia]|]. rewrite bind_Ret_l.
  eexists. split; [done|]. intros r. destruct x as [[r' rd]|e]; [|done]. intros [= <-]. by destruct Hx.
Qed.

End ServerLogic.
