(* ===== verification/ServerSystem.v ===== *)
(** The server as a whole: any number of requests in flight, the reaper and the
    dispatcher's own threads, over any dispatcher that keeps [DispatcherLaws]. The
    abstract server is the abstract cache with the reservations, references and
    mappings that are in use and by whom; the server refines it. *)

From S2P Require Import Prelude Bytes MemoryTier DispatchMap Dispatcher Pins ExtentStore StorePath StoreInvariant StoreCalls StoreBatch BatchCalls CacheSpec Wire Translator ServerLogic.

Module ServerSystem.
Import CacheSpec Wire Translator ServerLogic.
Local Open Scope Z_scope.

(** * The abstract server *)

(** A reservation is in the bank, for any request to work on, or a thread works on
    it. A reference is in the ledger of a channel, or a thread is about to record
    or to release it. *)
Inductive Holder := Bank | Held (t : Thread).
Inductive PinOwner := Ledger (ch : nat) | Loose (t : Thread).

#[global] Instance Holder_eq_dec : EqDecision Holder.
Proof. solve_decision. Defined.
#[global] Instance PinOwner_eq_dec : EqDecision PinOwner.
Proof. solve_decision. Defined.

Record Abs := mkAbs {
  cache : Spec;
  holders : gmap Z (Holder * Claim);
  pin_log : list (PinOwner * Z);
  open_log : list (Thread * (list Z * Z));
  asked : gmap Thread request
}.

Definition empty_abs : Abs := mkAbs empty_spec ∅ [] [] ∅.

Definition set_cache (A : Abs) sp : Abs := mkAbs sp (holders A) (pin_log A) (open_log A) (asked A).
Definition set_pin_log (A : Abs) l : Abs := mkAbs (cache A) (holders A) l (open_log A) (asked A).
Definition set_open_log (A : Abs) l : Abs := mkAbs (cache A) (holders A) (pin_log A) l (asked A).

(** Thread [t] has [c] on [k] from now on. *)
Definition set_claim (A : Abs) (t : Thread) (k : Z) (c : option Claim) : Abs :=
  mkAbs (cache A) (partial_alter (λ _, (λ c, (Held t, c)) <$> c) k (holders A)) (pin_log A) (open_log A) (asked A).

Definition after_record (c : Claim) : option Claim :=
  match c_res c with None => None | Some p => Some (mkClaim (Some p) false) end.
Definition after_slot (c : Claim) : option Claim := if c_rec c then Some (mkClaim None true) else None.

Definition recorded (A : Abs) (k : Z) : bool := match holders A !! k with Some hc => c_rec hc.2 | None => false end.

(** What a thread has. *)
Definition mine (t : Thread) (hc : Holder * Claim) : option Claim := if decide (hc.1 = Held t) then Some hc.2 else None.

Definition own (A : Abs) (t : Thread) : Own :=
  mkOwn (omap (mine t) (holders A))
        (omap (λ x : PinOwner * Z, if decide (x.1 = Loose t) then Some x.2 else None) (pin_log A))
        (omap (λ x : Thread * (list Z * Z), if decide (x.1 = t) then Some x.2 else None) (open_log A)).

Definition bank (A : Abs) : gmap Z Claim :=
  omap (λ hc : Holder * Claim, if decide (hc.1 = Bank) then Some hc.2 else None) (holders A).

(** A request takes the reservations it works on out of the bank. *)
Definition take_over (A : Abs) (ch : nat) (r : request) : Abs :=
  mkAbs (cache A) (map_imap (λ k hc, Some (if decide (k ∈ works_on r) then (Held (Some ch), hc.2) else hc)) (holders A))
        (pin_log A) (open_log A) (<[Some ch := r]> (asked A)).

(** The reaper takes those that are stale. *)
Definition take_stale (A : Abs) (t : Thread) (ks : list Z) : Abs :=
  mkAbs (cache A) (map_imap (λ k hc, Some (if decide (k ∈ ks) then (Held t, hc.2) else hc)) (holders A))
        (pin_log A) (open_log A) (asked A).

(** When a thread is done they go back. *)
Definition give_back (A : Abs) (t : Thread) : Abs :=
  mkAbs (cache A) ((λ hc, (if decide (hc.1 = Held t) then Bank else hc.1, hc.2)) <$> holders A)
        (pin_log A) (open_log A) (delete t (asked A)).

Section system.
Context (size_of : Z → Z) (alloc_len : list Z → Z).

(** One call of thread [t]: what it may answer, and the server afterwards. *)
Definition call_step (a : Answers) (t : Thread) (A : Abs) (c : call) : reply c → Abs → Prop :=
  let sp := cache A in
  match c return reply c → Abs → Prop with
  | Check k => λ r A', A' = A ∧ ∀ b, r = Ok b → b = bool_decide (is_Some (stored sp !! k))
  | Reserve k _ _ _ => λ r A',
      match r with
      | Ok _ => reserved sp !! k = None ∧ A' = set_cache (set_claim A t k (Some (mkClaim (Some None) false))) (reserve sp k None)
      | Err _ => A' = A
      end
  | CopyAsync k regions => λ r A',
      let b := concat (gpu_bytes a <$> regions) in
      ∃ p rec, holders A !! k = Some (Held t, mkClaim (Some p) rec) ∧
      match r with
      | Ok _ => let p' := if decide (Z.of_nat (length b) = size_of k) then Some b else None in
          A' = set_cache (set_claim A t k (Some (mkClaim (Some p') rec))) (reserve sp k p')
      | Err _ => A' = A ∨ A' = set_cache (set_claim A t k (Some (mkClaim (Some None) rec))) (reserve sp k None)
      end
  | Completed k _ => λ r A',
      r = Ok () ∧ ∃ b, holders A !! k = Some (Held t, mkClaim (Some (Some b)) true) ∧ stored sp !! k = None ∧
      A' = set_cache (set_claim A t k (Some (mkClaim None true))) (store sp k b)
  | Release k => λ r A',
      r = Ok () ∧ ∃ c, holders A !! k = Some (Held t, c) ∧ A' = set_cache (set_claim A t k (after_slot c)) (unreserve sp k)
  | Pin k => λ r A',
      match r with
      | Ok _ => is_Some (stored sp !! k) ∧ A' = set_pin_log (set_cache A (hold sp k 1)) ((Loose t, k) :: pin_log A)
      | Err _ => A' = A
      end
  | Unpin k => λ r A',
      r = Ok () ∧ ∃ l1 l2, pin_log A = l1 ++ (Loose t, k) :: l2 ∧ A' = set_pin_log (set_cache A (hold sp k (-1))) (l1 ++ l2)
  | Remove k => λ r A',
      match r with
      | Ok _ => is_Some (stored sp !! k) ∧ pinned_by sp k = 0 ∧ A' = set_cache A (forget sp k)
      | Err _ => (stored sp !! k = None ∨ pinned_by sp k ≠ 0) ∧ A' = A
      end
  | BatchLookup batch => λ r A', A' = A ∧ length r = length batch ∧
      ∀ i k regions s x, batch !! i = Some (k, regions) → r !! i = Some (s, x) →
        (∀ ps, x = Ok ps → StoreInvariant.delivers (stored sp) k (h_size <$> regions) ps) ∧
        (BatchCalls.smooth (Api.lookup_env a) → reserved sp !! k = None → pinned_by sp k < u32_max - 1 →
          is_Some (stored sp !! k) → ∃ ps, x = Ok ps) ∧
        (stored sp !! k = None → x = Err (Dispatcher.KeyNotFound k)) ∧ BatchCalls.attributed s x
  | BatchPopulate batch => λ r A',
      ∃ sp', adds sp (List.map (λ e, (e.1, gpu_bytes a e.2)) batch) r sp' ∧ A' = set_cache A sp'
  | IpcOpen h _ => λ r A',
      match r with Some base => A' = set_open_log A ((t, (h, base)) :: open_log A) | None => A' = A end
  | IpcRelease h => λ r A',
      ∃ base l1 l2, open_log A = l1 ++ (t, (h, base)) :: l2 ∧ A' = set_open_log A (l1 ++ l2)
  | PendingSnapshot ks => λ r A', A' = A ∧ ∀ k, k ∈ r ↔ k ∈ ks ∧ recorded A k = true
  | PendingInsert k _ => λ r A',
      ∃ c, holders A !! k = Some (Held t, c) ∧ A' = set_claim A t k (Some (mkClaim (c_res c) true))
  | PendingSize k => λ r A', A' = A ∧ r = if recorded A k then Some (size_of k) else None
  | PendingRemove k => λ r A', ∃ c, holders A !! k = Some (Held t, c) ∧ A' = set_claim A t k (after_record c)
  | Stale _ => λ r A', A' = take_stale A t r
  | RecordPin ch k => λ r A',
      ∃ l1 l2, pin_log A = l1 ++ (Loose t, k) :: l2 ∧ A' = set_pin_log A (l1 ++ (Ledger ch, k) :: l2)
  | TakePin ch k => λ r A',
      if (r : bool) then ∃ l1 l2, pin_log A = l1 ++ (Ledger ch, k) :: l2 ∧ A' = set_pin_log A (l1 ++ (Loose t, k) :: l2)
      else (Ledger ch, k) ∉ pin_log A ∧ A' = A
  | TakeAllPins ch => λ r A',
      r ≡ₚ omap (λ x : PinOwner * Z, if decide (x.1 = Ledger ch) then Some x.2 else None) (pin_log A) ∧
      A' = set_pin_log A ((λ x : PinOwner * Z, (if decide (x.1 = Ledger ch) then Loose t else x.1, x.2)) <$> pin_log A)
  | Observe ob => λ r A', A' = A ∧ tallied (asked A !! t) ob
  | _ => λ r A', A' = A
  end.

(** ** What the clients and the machine keep to *)

(** A key is reserved only while it is not cached; copies are not cut off by a
    failing DMA engine; channels of the drives can be checked out; CUDA maps an
    allocation at a fresh address, with its length; fewer than 2^32 keys are
    cached. No request works on a reservation that is stale. *)
Definition fair {W} (A : Abs) (s : Translator W) (a : Answers) (c : call) : Prop :=
  let sp := cache A in
  match c with
  | Reserve k _ _ _ => stored sp !! k = None ∧ ∀ hc, holders A !! k = Some hc → is_Some (c_res hc.2)
  | CopyAsync _ _ => Api.dma a ≠ StorePath.DmaFailed
  | Completed _ _ => Z.of_nat (size (stored sp)) < 2 ^ 32
  | BatchLookup _ => ∀ d, StoreBatch.checkout (Api.lookup_env a) d = true
  | BatchPopulate batch => Z.of_nat (size (stored sp) + length batch) ≤ 2 ^ 32 ∧ ∀ k, pinned_by sp k < u32_max - 1
  | IpcOpen h _ => Z.of_nat (length (open_log A)) < 2 ^ 64 - 1 ∧
      ∀ ptr len, Api.opened a = Some (ptr, len) → ipc_map (ipc_cache s) !! h = None →
        len = alloc_len h ∧ 0 ≤ ptr ∧ ptr + len < 2 ^ 64 ∧ mapped (ipc_cache s) !! ptr = None
  | Stale timeout => ∀ k e, pending_stores s !! k = Some e → timeout ≤ Z.max 0 (Api.now a - reserved_at e) →
      ∃ c, holders A !! k = Some (Bank, c)
  | _ => True
  end.

(** What may happen next. A request names keys, sizes and regions as agreed, and
    works on reservations that no other request works on. *)
Definition legal {W} (A : Abs) (s : Server W) (ev : event) : Prop :=
  match ev with
  | ERequest ch opcode payload => running s !! Some ch = None ∧ Forall (is_u 8) payload ∧
      ∀ r, parse opcode payload = Ret (Ok r) → keeps_contract size_of alloc_len (bank A) r
  | ESweep => running s !! None = None
  | ERun t a => match running s !! t with Some (Step c _) => fair A (tr s) a c | _ => True end
  | ETick _ | EEmit _ _ => True
  | EWorkerExit => False
  end.

Definition abs_step (A : Abs) (ev : event) (l : label) (A' : Abs) : Prop :=
  match ev, l with
  | ERequest ch opcode payload, LSilent =>
      A' = match parse opcode payload with Ret (Ok r) => take_over A ch r | _ => A end
  | ERun t a, LCall t' c r => t' = t ∧ call_step a t A c r A'
  | ERun t a, LReply t' x => t' = t ∧ A' = give_back A t ∧ ∀ r, asked A !! t = Some r → answers r x
  | ETick k, LSilent => A' = A ∨ ∃ key, k = Api.TEvictSsd key ∧ pinned_by (cache A) key = 0 ∧ is_Some (stored (cache A) !! key) ∧
      A' = set_cache A (forget (cache A) key)
  | ESweep, LSilent | ERun _ _, LSilent | EEmit _ _, LSilent => A' = A
  | _, _ => False
  end.

(** What every state of the server shows: a reference in the ledger of a channel is
    held in the cache, which therefore keeps the entry; the pending stores are the
    recorded reservations; a mapping in use is open, and one that is open is in use
    or has its time to be closed set. *)
Record consistent {W} (A : Abs) (s : Server W) : Prop := {
  s_pins ch k n : by_channel (pins (tr s)) !! ch ≫= (.!! k) = Some n → 0 < n ≤ pinned_by (cache A) k ∧ is_Some (stored (cache A) !! k);
  s_pending k : p_size <$> pending_stores (tr s) !! k = if recorded A k then Some (size_of k) else None;
  s_mapped t h base : (t, (h, base)) ∈ open_log A → mapped (ipc_cache (tr s)) !! base = Some (alloc_len h);
  s_closing ptr len : mapped (ipc_cache (tr s)) !! ptr = Some len →
    ∃ h e, ipc_map (ipc_cache (tr s)) !! h = Some e ∧ dev_ptr e = ptr;
  s_unused h e : ipc_map (ipc_cache (tr s)) !! h = Some e → (∀ t base, (t, (h, base)) ∉ open_log A) →
    refcount e = 0 ∧ is_Some (grace_until e)
}.

(** What a step writes to the GPU. *)
Definition writes_of (l : label) : list (Z * list Z) :=
  match l with
  | LCall _ c r => match c return reply c → list (Z * list Z) with BatchLookup batch => delivered batch | _ => λ _, [] end r
  | _ => []
  end.

(** A step from [s] to [s']: what the abstract server does; a referenced entry
    keeps its bytes; only a lookup writes to the GPU, into mappings that are open. *)
Record behaves {W} (s : Server W) (A : Abs) (ev : event) (l : label) (s' : Server W) (A' : Abs) : Prop := {
  b_abs : abs_step A ev l A';
  b_kept w k : (w, k) ∈ pin_log A → is_Some (stored (cache A) !! k) ∧ stored (cache A') !! k = stored (cache A) !! k;
  b_wrote : gpu_writes (tr s') = gpu_writes (tr s) ++ writes_of l;
  b_mapped addr bytes : (addr, bytes) ∈ writes_of l →
    ∃ base len, mapped (ipc_cache (tr s)) !! base = Some len ∧ base ≤ addr ∧ addr + Z.of_nat (length bytes) ≤ base + len
}.

Section serves.
Context {W : Type} `{Api.IDispatcher W} (cfg : Config).

(** The server serves the sequence: it is consistent, each event that may happen
    is carried out as the abstract server allows, and it serves the rest. *)
Inductive serves : Server W → Abs → list event → Prop :=
| serves_nil s A : consistent A s → serves s A []
| serves_cons s A ev evs :
    consistent A s →
    (legal A s ev → ∃ l s' A', step cfg s ev = Ret (l, s') ∧ behaves s A ev l s' A' ∧ serves s' A' evs) →
    serves s A (ev :: evs).

End serves.
End system.

(** * Counting *)

Definition number {X} (P : X → Prop) `{!∀ x, Decision (P x)} (l : list X) : Z := Z.of_nat (length (filter P l)).

Section number.
Context {X : Type} (P : X → Prop) `{!∀ x, Decision (P x)}.

Lemma number_app l1 l2 : number P (l1 ++ l2) = number P l1 + number P l2.
Proof. unfold number. rewrite filter_app, length_app. lia. Qed.

Lemma number_cons x l : number P (x :: l) = (if decide (P x) then 1 else 0) + number P l.
Proof. unfold number. rewrite filter_cons. case_decide; simpl; lia. Qed.

Lemma number_nonneg l : 0 ≤ number P l.
Proof. unfold number. lia. Qed.

Lemma number_pos l x : x ∈ l → P x → 0 < number P l.
Proof.
  intros Hx Hp. apply list_elem_of_split in Hx as (l1 & l2 & ->). rewrite number_app, number_cons, decide_True by done.
  pose proof (number_nonneg l1). pose proof (number_nonneg l2). lia.
Qed.

Lemma number_elem l : 0 < number P l → ∃ x, x ∈ l ∧ P x.
Proof.
  unfold number. destruct (filter P l) as [|x xs] eqn:E; simpl; [lia|]. intros _. exists x.
  assert (x ∈ filter P l) as Hx by (rewrite E; set_solver). apply list_elem_of_filter in Hx as [? ?]. done.
Qed.

Lemma number_le (Q : X → Prop) `{!∀ x, Decision (Q x)} l : (∀ x, P x → Q x) → number P l ≤ number Q l.
Proof.
  intros Hpq. induction l as [|x l IH]; [done|]. unfold number in *. rewrite !filter_cons.
  destruct (decide (P x)) as [Hp|], (decide (Q x)) as [|Hq]; simpl; try lia. by destruct Hq; apply Hpq.
Qed.

Lemma number_length l : number P l ≤ Z.of_nat (length l).
Proof. unfold number. pose proof (length_filter P l). lia. Qed.

End number.

(** * The invariant *)

Section invariant.
Context {W : Type} `{D : Api.IDispatcher W} (size_of : Z → Z) `{L : !Api.DispatcherLaws W size_of} (alloc_len : list Z → Z).
Implicit Types (A : Abs) (T : Translator W) (s : Server W).

(** The references to [k], those of one owner, and the opens of [h]. *)
Definition refs_to (k : Z) (l : list (PinOwner * Z)) : Z := number (λ x, x.2 = k) l.
Definition refs_by (w : PinOwner) (k : Z) (l : list (PinOwner * Z)) : Z := number (λ x, x = (w, k)) l.
Definition opens_of (h : list Z) (l : list (Thread * (list Z * Z))) : Z := number (λ x, x.2.1 = h) l.

(** The reference count of a channel's ledger. *)
Definition ledger (p : ChannelPins) (ch : nat) (k : Z) : option Z := default ∅ (by_channel p !! ch) !! k.

Definition as_count (n : Z) : option Z := if n =? 0 then None else Some n.

Record mapping_ok (c : IpcCache) (h : list Z) (e : IpcCacheEntry) : Prop := {
  m_mapped : mapped c !! dev_ptr e = Some (alloc_len h);
  m_ptr : 0 < dev_ptr e ∧ dev_ptr e + alloc_len h < 2 ^ 64;
  m_grace : refcount e = 0 → is_Some (grace_until e)
}.

Record ipc_ok (c : IpcCache) (l : list (Thread * (list Z * Z))) : Prop := {
  ip_entry h e : ipc_map c !! h = Some e → mapping_ok c h e ∧ refcount e = opens_of h l;
  ip_open t h base : (t, (h, base)) ∈ l → ∃ e, ipc_map c !! h = Some e ∧ dev_ptr e = base;
  ip_inj h h' e e' : ipc_map c !! h = Some e → ipc_map c !! h' = Some e' → dev_ptr e = dev_ptr e' → h = h';
  ip_mapped ptr len : mapped c !! ptr = Some len → ∃ h e, ipc_map c !! h = Some e ∧ dev_ptr e = ptr
}.

Record pins_ok (p : ChannelPins) (sp : Spec) (l : list (PinOwner * Z)) : Prop := {
  pi_refs k : pinned_by sp k = refs_to k l;
  pi_ledger ch k : ledger p ch k = as_count (refs_by (Ledger ch) k l)
}.

Record claims_ok (m : gmap Z PendingStoreEntry) (sp : Spec) (A : Abs) : Prop := {
  cl_reserved k : reserved sp !! k = holders A !! k ≫= λ hc, c_res hc.2;
  cl_pending k : p_size <$> m !! k = if recorded A k then Some (size_of k) else None;
  cl_fresh k : is_Some (reserved sp !! k) → stored sp !! k = None;
  cl_bank k c : holders A !! k = Some (Bank, c) → banked c
}.

Record inv0 A T : Prop := {
  i_ok : Api.ok (cache A) (dispatcher T);
  i_claims : claims_ok (pending_stores T) (cache A) A;
  i_pins : pins_ok (pins T) (cache A) (pin_log A);
  i_ipc : ipc_ok (ipc_cache T) (open_log A)
}.

Definition nothing : Own := mkOwn ∅ [] [].

Record inv A s : Prop := {
  i_state : inv0 A (tr s);
  i_run t p : running s !! t = Some p →
    wp size_of alloc_len t (asked A !! t) p (own A t) (finished (asked A !! t));
  i_idle t : running s !! t = None → own A t = nothing ∧ asked A !! t = None
}.

Lemma inv_consistent A s : inv A s → consistent size_of alloc_len A s.
Proof.
  intros [[Io Ic Ip Ii] _ _]. split.
  - intros ch k n Hn. assert (ledger (pins (tr s)) ch k = Some n) as Hl.
    { unfold ledger. destruct (by_channel (pins (tr s)) !! ch); [done|done]. }
    rewrite (pi_ledger _ _ _ Ip) in Hl. unfold as_count in Hl. destruct (Z.eqb_spec (refs_by (Ledger ch) k (pin_log A)) 0); [done|].
    injection Hl as <-. assert (refs_by (Ledger ch) k (pin_log A) ≤ refs_to k (pin_log A)) as Hle by (apply number_le; by intros [? ?] [= -> ->]).
    pose proof (number_nonneg (λ x, x = (Ledger ch, k)) (pin_log A)). unfold refs_by in *. rewrite <- (pi_refs _ _ _ Ip) in Hle.
    split; [lia|]. apply (Api.held_law (cache A) (dispatcher (tr s)) k Io). lia.
  - apply Ic.
  - intros t h base Hin. destruct (ip_open _ _ Ii _ _ _ Hin) as (e & He & <-). apply (ip_entry _ _ Ii _ _ He).
  - apply Ii.
  - intros h e He Hn. destruct (ip_entry _ _ Ii _ _ He) as [[_ _ Hg] Hr]. pose proof (number_nonneg (λ x, x.2.1 = h) (open_log A)).
    assert (refcount e = 0) as H0; [|auto]. unfold opens_of in Hr. destruct (decide (number (λ x, x.2.1 = h) (open_log A) = 0)); [lia|].
    destruct (number_elem (λ x, x.2.1 = h) (open_log A)) as ([t [h' base]] & Hin & Hh); [lia|]. simpl in Hh. subst h'. by destruct (Hn t base).
Qed.

(** * Calls *)

(** The call returns, as the abstract server allows, and gives the thread what the
    logic says; the other threads keep what they have. *)
Definition simulated (a : Answers) (t : Thread) A T (c : call) : Prop :=
  ∃ r T', exec a T c = Ret (r, T') ∧ ∃ A', call_step size_of a t A c r A' ∧ give size_of alloc_len (own A t) c r (own A' t) ∧
    inv0 A' T' ∧ asked A' = asked A ∧ ∀ t', t' ≠ t → own A' t' = own A t'.

Lemma simulated_same a t A T c r T' :
  exec a T c = Ret (r, T') → call_step size_of a t A c r A → give size_of alloc_len (own A t) c r (own A t) → inv0 A T' → simulated a t A T c.
Proof. intros He Hc Hg I. exists r, T'. split; [done|]. by exists A. Qed.

Lemma inv0_dispatcher A T d : inv0 A T → Api.ok (cache A) d → inv0 A (set_dispatcher T d).
Proof. intros [_ Ic Ip Ii] Io. by split. Qed.

Lemma opens_own A t x : x ∈ opens (own A t) ↔ (t, x) ∈ open_log A.
Proof.
  simpl. rewrite list_elem_of_omap. split.
  - intros ([t' y] & Hin & Hy). simpl in Hy. case_decide; [|done]. by simplify_eq.
  - intros Hin. exists (t, x). split; [done|]. simpl. by rewrite decide_True.
Qed.

Lemma loose_own A t k : k ∈ loose (own A t) ↔ (Loose t, k) ∈ pin_log A.
Proof.
  simpl. rewrite list_elem_of_omap. split.
  - intros ([w y] & Hin & Hy). simpl in Hy. case_decide; [|done]. by simplify_eq.
  - intros Hin. exists (Loose t, k). split; [done|]. simpl. by rewrite decide_True.
Qed.

Lemma claims_own A t k c : claims (own A t) !! k = Some c ↔ holders A !! k = Some (Held t, c).
Proof.
  simpl. rewrite lookup_omap. unfold mine. destruct (holders A !! k) as [[hd c']|]; simpl; [|done]. case_decide; simpl; split; naive_solver.
Qed.

Lemma in_open_reachable A T t h : inv0 A T → in_open alloc_len (own A t) h → reachable (ipc_cache T) h = true.
Proof.
  intros I (hd & base & Hin & Hlo & Hhi). apply opens_own in Hin. destruct (ip_open _ _ (i_ipc _ _ I) _ _ _ Hin) as (e & He & <-).
  destruct (ip_entry _ _ (i_ipc _ _ I) _ _ He) as [[Hm _ _] _]. unfold reachable. apply existsb_exists. exists (dev_ptr e, alloc_len hd).
  split; [by apply list_elem_of_In, elem_of_map_to_list|]. simpl. apply andb_true_intro. split; by apply Z.leb_le.
Qed.

Lemma no_fault {X} A T t regions (x : outcome X) : inv0 A T → Forall (in_open alloc_len (own A t)) regions → faulting T regions x = x.
Proof.
  intros I Hf. unfold faulting. assert (forallb (reachable (ipc_cache T)) regions = true) as ->; [|done].
  apply forallb_forall. intros h Hh. apply list_elem_of_In in Hh. rewrite Forall_forall in Hf. by eapply in_open_reachable, Hf.
Qed.

(** ** Calls that leave the abstract server as it is *)

Lemma sim_read a t A T c :
  inv0 A T → need size_of alloc_len t (asked A !! t) (own A t) c → fair alloc_len A T a c →
  match c with Now | Check _ | Touch _ | Promote _ | FlushToSsd | ReadWriteStats | BatchLookup _ | PendingSnapshot _ | PendingSize _
             | CountRefused | CountReleased _ | Drain _ | SwapDropped | Observe _ => True | _ => False end →
  simulated a t A T c.
Proof.
  intros I Hn Hf Hc. pose proof (i_ok _ _ I) as Io. destruct c; try done; clear Hc; simpl in Hn, Hf.
  - by eapply simulated_same.
  - destruct (Api.check_law (cache A) (dispatcher T) key Io) as (x & d & Ex & Io' & Hx). eapply simulated_same; [simpl; by rewrite Ex|done|done|].
    by apply inv0_dispatcher.
  - destruct (Api.touch_law (cache A) (dispatcher T) key Io) as (x & d & Ex & Io'). eapply simulated_same; [simpl; by rewrite Ex|done|done|].
    by apply inv0_dispatcher.
  - destruct (Api.promote_law a (cache A) (dispatcher T) keys Io Hn) as (d & Ex & Io'). eapply simulated_same; [simpl; by rewrite Ex|done|done|].
    by apply inv0_dispatcher.
  - destruct Hn as [Nd Hb]. apply Forall_and in Hb as [Hcov Hop].
    destruct (Api.batch_lookup_law a (cache A) (dispatcher T) (List.map (λ e, StoreBatch.mkRequest e.1 (h_size <$> e.2)) batch) Io) as (os & d & Eb & Io' & Hl & Ho).
    { change (List.map ?f ?l) with (f <$> l). by rewrite <- list_fmap_compose. }
    { change (List.map ?f ?l) with (f <$> l). by apply Forall_fmap. }
    { done. }
    rewrite length_map in Hl. eapply (simulated_same _ _ _ _ (BatchLookup batch) os); [| |done|].
    + simpl. rewrite (no_fault A T t); [|done|]; [unfold on_dispatcher; by rewrite Eb|]. apply Forall_concat, Forall_fmap. exact Hop.
    + split; [done|]. split; [done|]. intros i k regions st x Hi Hx. refine (Ho i (StoreBatch.mkRequest k (h_size <$> regions)) st x _ Hx).
      change (List.map ?f ?l) with (f <$> l). by rewrite list_lookup_fmap, Hi.
    + destruct (inv0_dispatcher A T d I Io'). by split.
  - destruct (Api.flush_law a (cache A) (dispatcher T) Io) as (x & d & Ex & Io'). eapply simulated_same; [simpl; by rewrite Ex|done|done|].
    by apply inv0_dispatcher.
  - by eapply simulated_same.
  - eapply simulated_same; [done| |done|done]. split; [done|]. intros k. rewrite elem_of_list_to_set, list_elem_of_filter.
    pose proof (cl_pending _ _ _ (i_claims _ _ I) k) as Hp. destruct (pending_stores T !! k), (recorded A k); simpl in Hp; try done; naive_solver.
  - eapply simulated_same; [done| | |done]; simpl; (split; [done|]); pose proof (cl_pending _ _ _ (i_claims _ _ I) key) as Hp; [done|].
    intros c Hc Hr. apply claims_own in Hc. rewrite Hp. unfold recorded. rewrite Hc. simpl. by rewrite Hr.
  - eapply simulated_same; [done|done|done|]. destruct I as [? ? [? ?] ?]. by split.
  - eapply simulated_same; [done|done|done|]. destruct I as [? ? [? ?] ?]. by split.
  - destruct (drain max (eviction_rx T)) as [evs rx] eqn:Ed. eapply simulated_same; [simpl; by rewrite Ed|done|done|]. destruct I. by split.
  - eapply simulated_same; [done|done|done|]. destruct I. by split.
  - eapply simulated_same; [done|done|done|]. destruct I. by split.
Qed.

(** ** Reservations *)

Lemma own_claim A t k c : own (set_claim A t k c) t = set_claims (own A t) (partial_alter (λ _, c) k (claims (own A t))).
Proof.
  unfold own, set_claims. simpl. f_equal. apply map_eq. intros k'. rewrite lookup_omap. destruct (decide (k' = k)) as [->|Hk].
  - rewrite !lookup_partial_alter_eq. destruct c; simpl; [|done]. unfold mine. by rewrite decide_True.
  - by rewrite !lookup_partial_alter_ne, lookup_omap by done.
Qed.

Lemma own_claim_ne A t t' k c : t' ≠ t → (∀ c', holders A !! k ≠ Some (Held t', c')) → own (set_claim A t k c) t' = own A t'.
Proof.
  intros Ht Hk. unfold own. simpl. f_equal. apply map_eq. intros k'. rewrite !lookup_omap. destruct (decide (k' = k)) as [->|].
  - rewrite lookup_partial_alter_eq. unfold mine. destruct (holders A !! k) as [[hd c']|] eqn:E, c; simpl; repeat case_decide; naive_solver.
  - by rewrite lookup_partial_alter_ne by done.
Qed.

Lemma claims_ok_upd m m' sp sp' A t k c :
  claims_ok m sp A →
  (∀ k', k' ≠ k → reserved sp' !! k' = reserved sp !! k' ∧ stored sp' !! k' = stored sp !! k' ∧ m' !! k' = m !! k') →
  reserved sp' !! k = c ≫= c_res → (is_Some (reserved sp' !! k) → stored sp' !! k = None) →
  p_size <$> m' !! k = (if from_option c_rec false c then Some (size_of k) else None) →
  claims_ok m' sp' (set_claim A t k c).
Proof.
  intros [Hr Hp Hf Hb] Ho Hrk Hfk Hpk. split.
  - intros k'. simpl. destruct (decide (k' = k)) as [->|Hk].
    + rewrite lookup_partial_alter_eq, Hrk. by destruct c.
    + rewrite lookup_partial_alter_ne by done. destruct (Ho k' Hk) as (-> & _). apply Hr.
  - intros k'. unfold recorded. simpl. destruct (decide (k' = k)) as [->|Hk].
    + rewrite lookup_partial_alter_eq, Hpk. by destruct c.
    + rewrite lookup_partial_alter_ne by done. destruct (Ho k' Hk) as (_ & _ & ->). apply Hp.
  - intros k'. destruct (decide (k' = k)) as [->|Hk]; [done|]. destruct (Ho k' Hk) as (-> & -> & _). apply Hf.
  - intros k' c'. simpl. destruct (decide (k' = k)) as [->|Hk].
    + rewrite lookup_partial_alter_eq. by destruct c.
    + rewrite lookup_partial_alter_ne by done. apply Hb.
Qed.

(** A step on the reservation of [k], which [t] works on or nobody has. *)
Lemma inv0_claim A T T' t k c sp' :
  inv0 A T → Api.ok sp' (dispatcher T') → pins T' = pins T → ipc_cache T' = ipc_cache T → pinned_by sp' = pinned_by (cache A) →
  (∀ k', k' ≠ k → reserved sp' !! k' = reserved (cache A) !! k' ∧ stored sp' !! k' = stored (cache A) !! k' ∧
    pending_stores T' !! k' = pending_stores T !! k') →
  reserved sp' !! k = c ≫= c_res → (is_Some (reserved sp' !! k) → stored sp' !! k = None) →
  p_size <$> pending_stores T' !! k = (if from_option c_rec false c then Some (size_of k) else None) →
  inv0 (set_cache (set_claim A t k c) sp') T'.
Proof.
  intros [Io Ic [Ip Il] Ii] Io' Hp Hi Hpb Ho Hr Hf Hm. split; simpl; [done| |split; simpl; by rewrite ?Hp, ?Hpb|by rewrite Hi].
  pose proof (claims_ok_upd _ _ _ sp' A t k c Ic Ho Hr Hf Hm) as [? ? ? ?]. by split.
Qed.

Lemma pending_of A T k : inv0 A T → p_size <$> pending_stores T !! k = if recorded A k then Some (size_of k) else None.
Proof. intros I. apply I. Qed.

Lemma after_slot_alter m k c : without_slot m k c = partial_alter (λ _, after_slot c) k m.
Proof. unfold without_slot, after_slot. by destruct (c_rec c). Qed.

Lemma after_record_alter m k c : without_record m k c = partial_alter (λ _, after_record c) k m.
Proof. unfold without_record, after_record. by destruct (c_res c). Qed.

(** The conclusion of a step on one reservation. *)
Lemma simulated_claim a t A T c r T' k cl sp' :
  exec a T c = Ret (r, T') → (∀ t' c', t' ≠ t → holders A !! k ≠ Some (Held t', c')) →
  call_step size_of a t A c r (set_cache (set_claim A t k cl) sp') →
  give size_of alloc_len (own A t) c r (set_claims (own A t) (partial_alter (λ _, cl) k (claims (own A t)))) →
  inv0 (set_cache (set_claim A t k cl) sp') T' → simulated a t A T c.
Proof.
  intros He Hk Hc Hg I. exists r, T'. split; [done|]. eexists. split; [exact Hc|]. split_and!; [|done|done|].
  - by rewrite <- own_claim in Hg.
  - intros t' Ht. apply own_claim_ne; [done|]. intros c'. by apply Hk.
Qed.

Lemma held_alone A t k c t' c' : holders A !! k = Some (Held t, c) → t' ≠ t → holders A !! k ≠ Some (Held t', c').
Proof. intros -> Ht. naive_solver. Qed.

Lemma sim_reserve a t A T k size session deadline :
  inv0 A T → need size_of alloc_len t (asked A !! t) (own A t) (Reserve k size session deadline) →
  fair alloc_len A T a (Reserve k size session deadline) → simulated a t A T (Reserve k size session deadline).
Proof.
  intros I [-> Hn] [Hst Hh]. pose proof (i_ok _ _ I) as Io. pose proof (cl_reserved _ _ _ (i_claims _ _ I) k) as Hr.
  destruct (Api.reserve_memory_law (within a deadline) (cache A) (dispatcher T) k Io) as (x & d & Ex & Hx). destruct x as [ptr|e].
  - destruct Hx as [Hres Io']. assert (holders A !! k = None) as Hnone.
    { destruct (holders A !! k) as [hc|] eqn:E; [|done]. destruct (Hh hc eq_refl) as [p Hp]. rewrite Hres in Hr. simpl in Hr. congruence. }
    eapply (simulated_claim _ _ _ _ (Reserve k (size_of k) session deadline) (Ok ptr) _ k (Some (mkClaim (Some None) false)) (reserve (cache A) k None));
      [simpl; by rewrite Ex|by rewrite Hnone|done|done|].
    apply (inv0_claim A T); try done.
    + intros k' Hk'. simpl. by rewrite lookup_insert_ne.
    + simpl. by rewrite lookup_insert_eq.
    + simpl. rewrite (pending_of A T k I). unfold recorded. by rewrite Hnone.
  - eapply simulated_same; [simpl; by rewrite Ex|done|done|]. by apply inv0_dispatcher.
Qed.

Lemma sim_copy a t A T k regions :
  inv0 A T → need size_of alloc_len t (asked A !! t) (own A t) (CopyAsync k regions) → fair alloc_len A T a (CopyAsync k regions) →
  simulated a t A T (CopyAsync k regions).
Proof.
  intros I (([cr rec] & Hc & [p Hp] & Hrec) & Hop) Hf. simpl in Hp, Hrec, Hf. subst cr rec. apply claims_own in Hc as Hh.
  pose proof (i_ok _ _ I) as Io. pose proof (cl_reserved _ _ _ (i_claims _ _ I) k) as Hr. rewrite Hh in Hr. simpl in Hr.
  assert (∀ p' d, Api.ok (reserve (cache A) k p') d →
    inv0 (set_cache (set_claim A t k (Some (mkClaim (Some p') true))) (reserve (cache A) k p')) (set_dispatcher T d)) as Hinv.
  { intros p' d Io'. apply (inv0_claim A T); try done; simpl.
    - intros k' Hk'. by rewrite lookup_insert_ne.
    - by rewrite lookup_insert_eq.
    - intros _. apply (cl_fresh _ _ _ (i_claims _ _ I)). rewrite Hr. by eexists.
    - rewrite (pending_of A T k I). unfold recorded. by rewrite Hh. }
  destruct (Api.copy_law a (cache A) (dispatcher T) k (gpu_bytes a <$> regions) Io) as (x & d & Ex & Hx); [rewrite Hr; by eexists|].
  assert (exec a T (CopyAsync k regions) = Ret (x, set_dispatcher T d)) as He.
  { simpl. rewrite (no_fault A T t) by done. unfold on_dispatcher. by rewrite Ex. }
  destruct x as [u|e]; [destruct Hx as [_ Io']|destruct Hx as [Io'|[Io'|[? _]]]; [| |done]].
  - eapply (simulated_claim _ _ _ _ (CopyAsync k regions)); [exact He|intros; by eapply held_alone| | |by apply Hinv]; simpl; by eauto 6.
  - exists (Err e), (set_dispatcher T d). split; [done|]. exists A. split; [exists p, true; split; [done|by left]|]. split; [|split; [by apply inv0_dispatcher|done]].
    exists p, (mkClaim (Some p) true). split; [done|]. unfold set_claims. simpl. rewrite insert_id by done. done.
  - eapply (simulated_claim _ _ _ _ (CopyAsync k regions)); [exact He|intros; by eapply held_alone| | |by apply Hinv]; simpl; by eauto 6.
Qed.

Lemma sim_completed a t A T k size :
  inv0 A T → need size_of alloc_len t (asked A !! t) (own A t) (Completed k size) → fair alloc_len A T a (Completed k size) →
  simulated a t A T (Completed k size).
Proof.
  intros I (-> & Hk & b & Hc) Hf. apply claims_own in Hc as Hh. pose proof (i_ok _ _ I) as Io.
  pose proof (cl_reserved _ _ _ (i_claims _ _ I) k) as Hr. rewrite Hh in Hr. simpl in Hr.
  pose proof (cl_fresh _ _ _ (i_claims _ _ I) k ltac:(rewrite Hr; by eexists)) as Hs.
  destruct (Api.complete_law a (cache A) (dispatcher T) k b Io Hr Hk Hf) as (x & d & Ex & Hx). destruct x as [[]|e].
  - destruct Hx as [_ Io']. eapply (simulated_claim _ _ _ _ (Completed k (size_of k))); [simpl; by rewrite Ex|intros; by eapply held_alone| | |].
    + split; [done|]. by exists b.
    + done.
    + apply (inv0_claim A T); try done; simpl.
      * intros k' Hk'. by rewrite lookup_insert_ne, lookup_delete_ne.
      * by rewrite lookup_delete_eq.
      * rewrite lookup_delete_eq. by intros [? ?].
      * rewrite (pending_of A T k I). unfold recorded. by rewrite Hh.
  - destruct Hx as [[? Hx] _]. congruence.
Qed.

Lemma sim_release a t A T k :
  inv0 A T → need size_of alloc_len t (asked A !! t) (own A t) (Release k) → simulated a t A T (Release k).
Proof.
  intros I (c & Hc & [p Hp]). apply claims_own in Hc as Hh. pose proof (i_ok _ _ I) as Io.
  pose proof (cl_reserved _ _ _ (i_claims _ _ I) k) as Hr. rewrite Hh in Hr. simpl in Hr.
  destruct (Api.release_law (cache A) (dispatcher T) k Io) as (d & Ex & Io'); [left; rewrite Hr, Hp; by eexists|].
  eapply (simulated_claim _ _ _ _ (Release k)); [simpl; by rewrite Ex|intros; by eapply held_alone| | |].
  - split; [done|]. by exists c.
  - split; [done|]. exists c. split; [done|]. by rewrite after_slot_alter.
  - apply (inv0_claim A T); try done; simpl.
    + intros k' Hk'. by rewrite lookup_delete_ne.
    + rewrite lookup_delete_eq. unfold after_slot. by destruct (c_rec c).
    + rewrite lookup_delete_eq. by intros [? ?].
    + rewrite (pending_of A T k I). unfold recorded, after_slot. rewrite Hh. simpl. by destruct (c_rec c).
Qed.

(** A step of the pending records alone. *)
Lemma set_cache_id A : set_cache A (cache A) = A.
Proof. by destruct A. Qed.

Lemma sim_record a t A T c :
  inv0 A T → need size_of alloc_len t (asked A !! t) (own A t) c →
  match c with PendingInsert _ _ | PendingRemove _ => True | _ => False end → simulated a t A T c.
Proof.
  intros I Hn Hc. pose proof (i_ok _ _ I) as Io. destruct c; try done; clear Hc; simpl in Hn.
  - destruct Hn as (-> & p & Hc). apply claims_own in Hc as Hh. pose proof (cl_reserved _ _ _ (i_claims _ _ I) key) as Hr. rewrite Hh in Hr. simpl in Hr.
    eapply (simulated_claim _ _ _ _ (PendingInsert key (size_of key)) () _ key (Some (mkClaim (Some p) true)) (cache A)); [done|intros; by eapply held_alone| | |].
    + by exists (mkClaim (Some p) false).
    + by exists (mkClaim (Some p) false).
    + apply (inv0_claim A T); try done; simpl.
      * intros k' Hk'. by rewrite lookup_insert_ne.
      * apply I.
      * by rewrite lookup_insert_eq.
  - destruct Hn as (c & Hc & Hrec). apply claims_own in Hc as Hh. pose proof (cl_reserved _ _ _ (i_claims _ _ I) key) as Hr. rewrite Hh in Hr. simpl in Hr.
    eapply (simulated_claim _ _ _ _ (PendingRemove key) () _ key (after_record c) (cache A)); [done|intros; by eapply held_alone| | |].
    + by exists c.
    + exists c. split; [done|]. by rewrite after_record_alter.
    + apply (inv0_claim A T); try done; simpl.
      * intros k' Hk'. by rewrite lookup_delete_ne.
      * rewrite Hr. unfold after_record. by destruct (c_res c).
      * apply I.
      * rewrite lookup_delete_eq. unfold after_record. by destruct (c_res c).
Qed.

(** The reaper takes reservations out of the bank. *)
Lemma holders_stale A t ks k :
  holders (take_stale A t ks) !! k = (λ hc, if decide (k ∈ ks) then (Held t, hc.2) else hc) <$> holders A !! k.
Proof. simpl. rewrite map_lookup_imap. by destruct (holders A !! k). Qed.

Lemma claims_stale A t ks k :
  (∀ k, k ∈ ks → ∃ c, holders A !! k = Some (Bank, c)) →
  claims (own (take_stale A t ks) t) !! k = if decide (k ∈ ks) then snd <$> holders A !! k else claims (own A t) !! k.
Proof.
  intros Hk. unfold own. cbn [claims]. rewrite lookup_omap, holders_stale. case_decide as Hin.
  - destruct (Hk k Hin) as (c & ->). simpl. unfold mine. by rewrite decide_True.
  - rewrite lookup_omap. by destruct (holders A !! k).
Qed.

Lemma own_stale_ne A t t' ks :
  t' ≠ t → (∀ k, k ∈ ks → ∃ c, holders A !! k = Some (Bank, c)) → own (take_stale A t ks) t' = own A t'.
Proof.
  intros Ht Hk. unfold own. f_equal. apply map_eq. intros k. rewrite !lookup_omap, holders_stale. case_decide as Hin; [|by destruct (holders A !! k)].
  destruct (Hk k Hin) as (c & ->). simpl. unfold mine. simpl. by rewrite !decide_False by naive_solver.
Qed.

Lemma inv0_stale A T t ks : inv0 A T → inv0 (take_stale A t ks) T.
Proof.
  intros [Io [Hr Hp Hfr Hb] Ip Ii]. split; [done| |done|done]. split; [| |done|].
  - intros k. rewrite Hr, holders_stale. by destruct (holders A !! k); simpl; [case_decide|].
  - intros k. rewrite Hp. unfold recorded. rewrite holders_stale. by destruct (holders A !! k); simpl; [case_decide|].
  - intros k c. rewrite holders_stale. destruct (holders A !! k) as [[hd c']|] eqn:E; simpl; [|done]. case_decide; [done|]. intros [= -> ->]. by apply (Hb k).
Qed.

Lemma sim_stale a t A T timeout : inv0 A T → fair alloc_len A T a (Stale timeout) → simulated a t A T (Stale timeout).
Proof.
  intros I Hf. set (f := λ ke : Z * PendingStoreEntry, timeout <=? Z.max 0 (Api.now a - reserved_at ke.2)).
  assert (∀ k, k ∈ (filter f (map_to_list (pending_stores T))).*1 → ∃ c, holders A !! k = Some (Bank, c)) as Hk.
  { intros k Hk. apply list_elem_of_fmap in Hk as ([k' e] & -> & Hin). apply list_elem_of_filter in Hin as [Hp Hin]. apply elem_of_map_to_list in Hin.
    unfold f in Hp. simpl in Hp. apply Is_true_true, Z.leb_le in Hp. by eapply Hf. }
  eexists _, T. split; [done|]. exists (take_stale A t (filter f (map_to_list (pending_stores T))).*1). split; [done|]. split_and!; simpl.
  - split_and!; [| | |done|done].
    + eapply sublist_NoDup; [apply (NoDup_fst_map_to_list (pending_stores T))|apply fmap_sublist, sublist_filter].
    + intros k Hin. destruct (Hk k Hin) as (c & Hc). exists c. pose proof (claims_stale A t _ k Hk) as Hs. rewrite decide_True, Hc in Hs by done.
      split; [exact Hs|]. by eapply I.
    + intros k Hin. pose proof (claims_stale A t _ k Hk) as Hs. by rewrite decide_False in Hs.
  - by apply inv0_stale.
  - done.
  - intros t' Ht. by apply own_stale_ne.
Qed.

(** ** The cache *)

Lemma inv0_forget A T k d :
  inv0 A T → is_Some (stored (cache A) !! k) → Api.ok (forget (cache A) k) d → inv0 (set_cache A (forget (cache A) k)) (set_dispatcher T d).
Proof.
  intros [_ [Hr Hpe Hfr Hb] [Hpi Hl] Ii] Hs Io. split; [done| |by split|done]. split; simpl; [|done| |done].
  - intros k'. destruct (decide (k' = k)) as [->|]; [|by rewrite lookup_delete_ne]. rewrite lookup_delete_eq, <- Hr.
    destruct (reserved (cache A) !! k) eqn:E; [|done]. rewrite Hfr in Hs by (rewrite E; by eexists). by destruct Hs.
  - intros k'. destruct (decide (k' = k)) as [->|]; [rewrite lookup_delete_eq; by intros [? ?]|rewrite !lookup_delete_ne by done; apply Hfr].
Qed.

Lemma sim_remove a t A T k : inv0 A T → simulated a t A T (Remove k).
Proof.
  intros I. pose proof (i_ok _ _ I) as Io. destruct (Api.remove_law (cache A) (dispatcher T) k Io) as (x & d & Ex & Hx). destruct x as [[]|e].
  - destruct Hx as (Hs & Hp & Io'). eexists _, _. split; [simpl; by rewrite Ex|]. eexists. split; [split_and!; done|]. split; [done|].
    split_and!; try done. by apply inv0_forget.
  - destruct Hx as [Hx Io']. eapply simulated_same; [simpl; by rewrite Ex|done|done|]. by apply inv0_dispatcher.
Qed.

Lemma inv0_adds A T d entries xs sp' :
  inv0 A T → adds (cache A) entries xs sp' → Api.ok sp' d → inv0 (set_cache A sp') (set_dispatcher T d).
Proof.
  intros [_ [Hr Hp Hfr Hb] [Hpi Hl] Ii] (_ & Hsub & Hres & Hpin & Hnew) Io. split; [done| |split; simpl; [by rewrite Hpin|done]|done].
  split; simpl; [by rewrite Hres|done| |done]. intros k. rewrite Hres. intros Hk. destruct (stored sp' !! k) as [b|] eqn:E; [|done].
  destruct (Hnew k b (Hfr k Hk) E) as [Hn _]. rewrite Hn in Hk. by destruct Hk.
Qed.

Lemma sim_populate a t A T batch :
  (∀ k, 0 < size_of k) → inv0 A T → need size_of alloc_len t (asked A !! t) (own A t) (BatchPopulate batch) →
  fair alloc_len A T a (BatchPopulate batch) → simulated a t A T (BatchPopulate batch).
Proof.
  intros Hz I Hn [Hsz Hp]. simpl in Hn. rewrite Forall_forall in Hn. pose proof (i_ok _ _ I) as Io.
  destruct (Api.batch_populate_law a (cache A) (dispatcher T) (List.map (λ e, (e.1, gpu_bytes a e.2)) batch) Io) as (xs & d & sp' & Ex & Had & Io').
  { change (List.map ?f ?l) with (f <$> l). apply Forall_fmap, Forall_forall. intros e He. destruct (Hn e He) as (Hk & Hs & _). simpl. split; [|done].
    unfold gpu_bytes, StorePath.slice. rewrite length_fmap, length_seq, Hs. specialize (Hz e.1). lia. }
  { by rewrite length_map. }
  { done. }
  eexists _, _. split.
  { simpl. rewrite (no_fault A T t); [|done|]; [unfold on_dispatcher; by rewrite Ex|]. apply Forall_fmap, Forall_forall. intros e He. by destruct (Hn e He) as (_ & _ & ?). }
  exists (set_cache A sp'). split; [by exists sp'|]. split; [done|]. split; [by eapply inv0_adds|done].
Qed.

(** ** Pins *)

(** The references of one owner, by key. *)
Definition owned (w : PinOwner) (l : list (PinOwner * Z)) : list Z := omap (λ x : PinOwner * Z, if decide (x.1 = w) then Some x.2 else None) l.

Lemma owned_app w l1 l2 : owned w (l1 ++ l2) = owned w l1 ++ owned w l2.
Proof. apply omap_app. Qed.

Lemma owned_cons w x l : owned w (x :: l) = if decide (x.1 = w) then x.2 :: owned w l else owned w l.
Proof. unfold owned. simpl. by case_decide. Qed.

Lemma refs_by_owned w k l : refs_by w k l = number (λ x, x = k) (owned w l).
Proof.
  induction l as [|[w' k'] l IH]; [done|]. unfold refs_by in *. rewrite number_cons, IH, owned_cons. simpl.
  destruct (decide (w' = w)) as [->|]; [rewrite number_cons|]; repeat case_decide; naive_solver.
Qed.

Lemma refs_by_middle w k l1 w' k' l2 :
  refs_by w k (l1 ++ (w', k') :: l2) = refs_by w k (l1 ++ l2) + if decide (w' = w ∧ k' = k) then 1 else 0.
Proof.
  unfold refs_by. rewrite !number_app, number_cons. case_decide as Hx; simplify_eq; [rewrite decide_True by done|rewrite decide_False by naive_solver]; lia.
Qed.

Lemma refs_to_middle k l1 w' k' l2 : refs_to k (l1 ++ (w', k') :: l2) = refs_to k (l1 ++ l2) + if decide (k' = k) then 1 else 0.
Proof. unfold refs_to. rewrite !number_app, number_cons. simpl. case_decide; lia. Qed.

(** A reference outside the ledger is not counted there. *)
Lemma ledger_bound ch t k l1 l2 : refs_by (Ledger ch) k (l1 ++ l2) + 1 ≤ refs_to k (l1 ++ (Loose t, k) :: l2).
Proof.
  rewrite refs_to_middle, decide_True by done. assert (refs_by (Ledger ch) k (l1 ++ l2) ≤ refs_to k (l1 ++ l2)); [|lia].
  apply number_le. by intros [? ?] [= -> ->].
Qed.

Lemma as_count_default n : 0 ≤ n → default 0 (as_count n) = n.
Proof. intros. unfold as_count. destruct (Z.eqb_spec n 0); simpl; lia. Qed.

Lemma refs_by_nonneg w k l : 0 ≤ refs_by w k l.
Proof. apply number_nonneg. Qed.

Lemma inv0_pins A T sp' p' l d :
  inv0 A T → Api.ok sp' d → stored sp' = stored (cache A) → reserved sp' = reserved (cache A) →
  pins_ok p' sp' l → inv0 (set_pin_log (set_cache A sp') l) (set_pins (set_dispatcher T d) p').
Proof.
  intros [_ [Hr Hp Hfr Hb] _ Ii] Io Hs Hres Hpi. split; [done| |done|done]. split; simpl; [by rewrite Hres|done|by rewrite Hs, Hres|done].
Qed.

Lemma set_dispatcher_id T : set_dispatcher T (dispatcher T) = T.
Proof. by destruct T. Qed.

Lemma set_pins_id T : set_pins T (pins T) = T.
Proof. by destruct T. Qed.

(** What the threads have after a change of the references of [t]. *)
Lemma own_pin_log A sp l t : own (set_pin_log (set_cache A sp) l) t = set_loose (own A t) (owned (Loose t) l).
Proof. done. Qed.

Lemma own_same_loose A sp l t : owned (Loose t) l = owned (Loose t) (pin_log A) → own (set_pin_log (set_cache A sp) l) t = own A t.
Proof. intros E. rewrite own_pin_log, E. done. Qed.

Lemma pinned_hold sp k n k' : pinned_by (hold sp k n) k' = pinned_by sp k' + if decide (k = k') then n else 0.
Proof. simpl. unfold DispatchMap.upd. repeat case_decide; subst; lia || done. Qed.

Lemma sim_pin a t A T k : inv0 A T → simulated a t A T (Pin k).
Proof.
  intros I. pose proof (i_ok _ _ I) as Io. destruct (Api.pin_law (cache A) (dispatcher T) k Io) as (x & d & Ex & Hx). destruct x as [[]|e].
  - destruct Hx as [Hs Io']. eexists _, _. split; [simpl; by rewrite Ex|]. eexists. split; [by split|]. split_and!.
    + rewrite own_pin_log. by rewrite owned_cons, decide_True by done.
    + rewrite <- (set_pins_id (set_dispatcher T d)). simpl. apply inv0_pins; try done. destruct (i_pins _ _ I) as [Hp Hl]. split.
      * intros k'. rewrite pinned_hold, Hp. change ((Loose t, k) :: pin_log A) with ([] ++ (Loose t, k) :: pin_log A). by rewrite refs_to_middle.
      * intros ch k'. by rewrite Hl.
    + done.
    + intros t' Ht. apply own_same_loose. rewrite owned_cons, decide_False by (simpl; naive_solver). done.
  - eapply simulated_same; [simpl; by rewrite Ex|done|done|]. by apply inv0_dispatcher.
Qed.

Lemma sim_unpin a t A T k : inv0 A T → need size_of alloc_len t (asked A !! t) (own A t) (Unpin k) → simulated a t A T (Unpin k).
Proof.
  intros I Hn. apply loose_own, list_elem_of_split in Hn as (l1 & l2 & El). destruct (i_pins _ _ I) as [Hp Hl].
  destruct (Api.unpin_law (cache A) (dispatcher T) k (i_ok _ _ I)) as (d & Ex & Io').
  { rewrite Hp, El, refs_to_middle, decide_True by done. pose proof (number_nonneg (λ x, x.2 = k) (l1 ++ l2)). unfold refs_to. lia. }
  eexists _, _. split; [simpl; by rewrite Ex|]. eexists. split; [split; [done|]; by exists l1, l2|]. split_and!.
  - split; [done|]. exists (owned (Loose t) l1), (owned (Loose t) l2). rewrite own_pin_log, owned_app. split; [|done].
    simpl. fold (owned (Loose t) (pin_log A)). by rewrite El, owned_app, owned_cons, decide_True.
  - rewrite <- (set_pins_id (set_dispatcher T d)). simpl. apply inv0_pins; try done. split.
    + intros k'. rewrite pinned_hold, Hp, El, refs_to_middle. case_decide; lia.
    + intros ch k'. rewrite Hl, El, refs_by_middle, decide_False by naive_solver. f_equal. lia.
  - done.
  - intros t' Ht. apply own_same_loose. by rewrite El, !owned_app, owned_cons, decide_False by (simpl; naive_solver).
Qed.

(** The ledgers after one of them has a new count. *)
Lemma ledger_insert p ch keys ch' k' :
  ledger (set_by_channel p (<[ch := keys]> (by_channel p))) ch' k' = if decide (ch = ch') then keys !! k' else ledger p ch' k'.
Proof.
  unfold ledger. simpl. case_decide as Hc; [subst; by rewrite lookup_insert_eq|by rewrite lookup_insert_ne].
Qed.

(** A step of the ledger of [ch]: one reference of [t] for one of the ledger, or
    the other way. *)
Lemma inv0_ledger A T l p' : inv0 A T → pins_ok p' (cache A) l → inv0 (set_pin_log A l) (set_pins T p').
Proof.
  intros I Hp. pose proof (inv0_pins A T (cache A) p' l (dispatcher T) I (i_ok _ _ I) eq_refl eq_refl Hp) as I'.
  by rewrite set_dispatcher_id, set_cache_id in I'.
Qed.

Lemma sim_record_pin a t A T ch k :
  inv0 A T → need size_of alloc_len t (asked A !! t) (own A t) (RecordPin ch k) → simulated a t A T (RecordPin ch k).
Proof.
  intros I [-> Hn]. apply loose_own, list_elem_of_split in Hn as (l1 & l2 & El). destruct (i_pins _ _ I) as [Hp Hl].
  pose proof (ledger_bound ch (Some ch) k l1 l2) as Hle. rewrite <- El, <- Hp in Hle.
  destruct (Api.held_law (cache A) (dispatcher T) k (i_ok _ _ I)) as [Hb _]. unfold u32_max in Hb. pose proof (refs_by_nonneg (Ledger ch) k (l1 ++ l2)).
  assert (ledger (pins T) ch k = as_count (refs_by (Ledger ch) k (l1 ++ l2))) as Hlk.
  { rewrite Hl, El, refs_by_middle, decide_False by naive_solver. f_equal. lia. }
  eexists _, _. split.
  { simpl. unfold record. fold (ledger (pins T) ch k). rewrite Hlk, as_count_default, add_w_Ret, bind_Ret_l by lia. simpl. done. }
  eexists. split; [by exists l1, l2|]. split_and!.
  - exists (owned (Loose (Some ch)) l1), (owned (Loose (Some ch)) l2). rewrite <- (set_cache_id A) at 2.
    rewrite own_pin_log, owned_app, owned_cons, decide_False by (simpl; naive_solver). split; [|done].
    simpl. fold (owned (Loose (Some ch)) (pin_log A)). by rewrite El, owned_app, owned_cons, decide_True.
  - apply inv0_ledger; [done|]. split.
    + intros k'. by rewrite Hp, El, !refs_to_middle.
    + intros ch' k'. rewrite ledger_insert, refs_by_middle. case_decide as Hc; [subst ch'|].
      * destruct (decide (k' = k)) as [->|Hk].
        -- rewrite lookup_insert_eq, decide_True by done. unfold as_count. destruct (Z.eqb_spec (refs_by (Ledger ch) k (l1 ++ l2) + 1) 0); [lia|done].
        -- rewrite lookup_insert_ne, decide_False by naive_solver. fold (ledger (pins T) ch k').
           rewrite Hl, El, refs_by_middle, decide_False by naive_solver. done.
      * rewrite decide_False by naive_solver. rewrite Hl, El, refs_by_middle, decide_False by naive_solver. done.
  - done.
  - intros t' Ht. rewrite <- (set_cache_id A) at 1. apply own_same_loose.
    by rewrite El, !owned_app, !owned_cons, !decide_False by (simpl; naive_solver).
Qed.

Lemma sim_take_pin a t A T ch k :
  inv0 A T → need size_of alloc_len t (asked A !! t) (own A t) (TakePin ch k) → simulated a t A T (TakePin ch k).
Proof.
  intros I Hn. simpl in Hn. subst t. destruct (i_pins _ _ I) as [Hp Hl]. pose proof (Hl ch k) as Hlk.
  assert (ledger (pins T) ch k = None → simulated a (Some ch) A T (TakePin ch k)) as Hnone.
  { intros E. eapply (simulated_same _ _ _ _ (TakePin ch k) false); [| |done|exact I].
    - assert (take_pin (pins T) ch k = Ret (false, pins T)) as Et.
      { unfold take_pin, ledger in *. destruct (by_channel (pins T) !! ch); [|done]. simpl in E. by rewrite E. }
      simpl. rewrite Et, bind_Ret_l. simpl. by rewrite set_pins_id.
    - split; [|done]. intros Hin. rewrite E in Hlk. unfold as_count in Hlk. destruct (Z.eqb_spec (refs_by (Ledger ch) k (pin_log A)) 0) as [H0|]; [|done].
      pose proof (number_pos (λ x, x = (Ledger ch, k)) (pin_log A) _ Hin eq_refl) as Hpos. unfold refs_by in H0. lia. }
  destruct (ledger (pins T) ch k) as [n|] eqn:En; [|by apply Hnone]. clear Hnone. unfold as_count in Hlk.
  destruct (Z.eqb_spec (refs_by (Ledger ch) k (pin_log A)) 0) as [|Hne]; [done|]. injection Hlk as ->. pose proof (refs_by_nonneg (Ledger ch) k (pin_log A)).
  destruct (number_elem (λ x, x = (Ledger ch, k)) (pin_log A)) as (x & Hin & ->); [unfold refs_by in *; lia|].
  apply list_elem_of_split in Hin as (l1 & l2 & El). pose proof (refs_by_middle (Ledger ch) k l1 (Ledger ch) k l2) as Hm.
  rewrite <- El, decide_True in Hm by done. pose proof (refs_by_nonneg (Ledger ch) k (l1 ++ l2)).
  unfold ledger in En. destruct (by_channel (pins T) !! ch) as [keys|] eqn:Ek; [|done]. simpl in En.
  eexists true, _. split.
  { simpl. unfold take_pin. rewrite Ek, En, sub_w_Ret, bind_Ret_l by lia. simpl. done. }
  eexists. split; [by exists l1, l2|]. split_and!.
  - exists (owned (Loose (Some ch)) (l1 ++ (Loose (Some ch), k) :: l2)). split; [|by rewrite <- (set_cache_id A) at 1].
    simpl. fold (owned (Loose (Some ch)) (pin_log A)). rewrite El, !owned_app, !owned_cons, decide_True, decide_False by (simpl; naive_solver).
    by rewrite Permutation_middle.
  - apply inv0_ledger; [done|]. split.
    + intros k'. by rewrite Hp, El, !refs_to_middle.
    + intros ch' k'. rewrite ledger_insert. pose proof (refs_by_middle (Ledger ch') k' l1 (Loose (Some ch)) k l2) as Hm1.
      rewrite decide_False, Z.add_0_r in Hm1 by naive_solver. rewrite Hm1. pose proof (Hl ch' k') as Hl'. rewrite El, refs_by_middle in Hl'.
      destruct (decide (ch = ch')) as [<-|Hc]; [|rewrite decide_False, Z.add_0_r in Hl' by naive_solver; done].
      unfold ledger in Hl'. rewrite Ek in Hl'. simpl in Hl'. destruct (decide (k' = k)) as [->|Hk].
      * unfold as_count. destruct (Z.eqb_spec (refs_by (Ledger ch) k (pin_log A) - 1) 0), (Z.eqb_spec (refs_by (Ledger ch) k (l1 ++ l2)) 0); try lia.
        -- by rewrite lookup_delete_eq.
        -- rewrite lookup_insert_eq. f_equal. lia.
      * rewrite decide_False, Z.add_0_r in Hl' by naive_solver. destruct (_ =? 0); [by rewrite lookup_delete_ne|by rewrite lookup_insert_ne].
  - done.
  - intros t' Ht. rewrite <- (set_cache_id A) at 1. apply own_same_loose.
    by rewrite El, !owned_app, !owned_cons, !decide_False by (simpl; naive_solver).
Qed.

(** A map of counts lists each key as often as it counts it. *)
Definition listed (m : gmap Z Z) : list Z := concat (List.map (λ kn, replicate (Z.to_nat kn.2) kn.1) (map_to_list m)).

Lemma listed_insert m k n : m !! k = None → listed (<[k := n]> m) ≡ₚ replicate (Z.to_nat n) k ++ listed m.
Proof.
  intros Hk. unfold listed. rewrite <- !flat_map_concat_map.
  by rewrite (Permutation_flat_map _ (map_to_list_insert m k n Hk)).
Qed.

Lemma listed_counts (l : list Z) m : (∀ k, m !! k = as_count (number (λ x, x = k) l)) → listed m ≡ₚ l.
Proof.
  revert m. induction l as [|x l IH]; intros m Hm.
  { assert (m = ∅) as ->; [|done]. apply map_eq. intros k. by rewrite Hm, lookup_empty. }
  pose proof (number_nonneg (λ y, y = x) l) as Hn. set (n := number (λ y, y = x) l) in *.
  assert (∃ m0, m0 !! x = None ∧ m = <[x := 1 + n]> m0) as (m0 & H0 & ->).
  { exists (delete x m). split; [apply lookup_delete_eq|]. apply map_eq. intros k. destruct (decide (k = x)) as [->|Hk].
    - rewrite lookup_insert_eq, Hm, number_cons, decide_True by done. fold n. unfold as_count. destruct (Z.eqb_spec (1 + n) 0); [lia|done].
    - by rewrite lookup_insert_ne, lookup_delete_ne. }
  rewrite (listed_insert m0 x (1 + n) H0).
  assert (listed (if n =? 0 then m0 else <[x := n]> m0) ≡ₚ l) as Hl.
  { apply IH. intros k. specialize (Hm k). rewrite number_cons in Hm. destruct (decide (k = x)) as [->|Hk].
    - fold n. unfold as_count. destruct (n =? 0); [done|by rewrite lookup_insert_eq].
    - rewrite lookup_insert_ne, decide_False in Hm by done. simpl in Hm. destruct (n =? 0); [done|by rewrite lookup_insert_ne]. }
  replace (Z.to_nat (1 + n)) with (S (Z.to_nat n)) by lia. simpl. f_equiv. rewrite <- Hl.
  destruct (Z.eqb_spec n 0) as [->|]; [done|]. by rewrite (listed_insert m0 x n H0).
Qed.

(** The references of the ledger of [ch] go over to [t]. *)
Definition hand_over (ch : nat) (t : Thread) (l : list (PinOwner * Z)) : list (PinOwner * Z) :=
  (λ x : PinOwner * Z, (if decide (x.1 = Ledger ch) then Loose t else x.1, x.2)) <$> l.

Lemma hand_over_refs k ch t l : refs_to k (hand_over ch t l) = refs_to k l.
Proof. induction l as [|[w k'] l IH]; [done|]. unfold refs_to in *. simpl. rewrite !number_cons. simpl. by rewrite IH. Qed.

Lemma hand_over_loose ch t l : owned (Loose t) (hand_over ch t l) ≡ₚ owned (Ledger ch) l ++ owned (Loose t) l.
Proof.
  induction l as [|[w k] l IH]; [done|]. cbn [hand_over fmap list_fmap]. fold (hand_over ch t l). rewrite !owned_cons. simpl.
  destruct (decide (w = Ledger ch)) as [->|Hw].
  - rewrite decide_True, decide_False by naive_solver. simpl. by rewrite IH.
  - destruct (decide (w = Loose t)); [by rewrite IH, <- Permutation_middle|done].
Qed.

Lemma hand_over_other ch t l w : w ≠ Loose t → w ≠ Ledger ch → owned w (hand_over ch t l) = owned w l.
Proof.
  intros H1 H2. induction l as [|[w' k] l IH]; [done|]. cbn [hand_over fmap list_fmap]. fold (hand_over ch t l). rewrite !owned_cons. simpl.
  destruct (decide (w' = Ledger ch)) as [->|]; [by rewrite !decide_False by naive_solver|]. by rewrite IH.
Qed.

Lemma hand_over_gone ch t l : owned (Ledger ch) (hand_over ch t l) = [].
Proof.
  induction l as [|[w' k] l IH]; [done|]. cbn [hand_over fmap list_fmap]. fold (hand_over ch t l). rewrite !owned_cons. simpl.
  by destruct (decide (w' = Ledger ch)) as [->|]; rewrite decide_False by naive_solver.
Qed.

Lemma sim_take_all a t A T ch :
  inv0 A T → need size_of alloc_len t (asked A !! t) (own A t) (TakeAllPins ch) → simulated a t A T (TakeAllPins ch).
Proof.
  intros I Hn. simpl in Hn. subst t. destruct (i_pins _ _ I) as [Hp Hl].
  assert (listed (default ∅ (by_channel (pins T) !! ch)) ≡ₚ owned (Ledger ch) (pin_log A)) as Hls.
  { apply listed_counts. intros k. rewrite <- refs_by_owned. apply Hl. }
  eexists _, _. split; [done|]. exists (set_pin_log A (hand_over ch (Some ch) (pin_log A))). split; [split; [exact Hls|done]|]. split_and!.
  - exists (owned (Loose (Some ch)) (hand_over ch (Some ch) (pin_log A))). split; [|by rewrite <- (set_cache_id A) at 1].
    simpl. rewrite hand_over_loose. by rewrite Hls.
  - apply inv0_ledger; [done|]. split.
    + intros k. by rewrite hand_over_refs.
    + intros ch' k. rewrite refs_by_owned. unfold ledger. simpl. destruct (decide (ch' = ch)) as [->|Hc].
      * rewrite hand_over_gone, lookup_delete_eq. done.
      * rewrite hand_over_other, <- refs_by_owned, lookup_delete_ne by naive_solver. apply Hl.
  - done.
  - intros t' Ht. rewrite <- (set_cache_id A) at 1. apply own_same_loose. apply hand_over_other; naive_solver.
Qed.

(** ** Mappings *)

Lemma opens_of_cons h x l : opens_of h (x :: l) = (if decide (x.2.1 = h) then 1 else 0) + opens_of h l.
Proof. unfold opens_of. by rewrite number_cons. Qed.

Lemma opens_of_middle h l1 x l2 : opens_of h (l1 ++ x :: l2) = opens_of h (l1 ++ l2) + if decide (x.2.1 = h) then 1 else 0.
Proof. unfold opens_of. rewrite !number_app, number_cons. lia. Qed.

Lemma opens_of_none c l h : ipc_ok c l → ipc_map c !! h = None → opens_of h l = 0.
Proof.
  intros I Hn. pose proof (number_nonneg (λ x, x.2.1 = h) l). unfold opens_of. destruct (decide (number (λ x, x.2.1 = h) l = 0)); [done|].
  destruct (number_elem (λ x, x.2.1 = h) l) as ([t [h' base]] & Hin & Hh); [lia|]. simpl in Hh. subst h'.
  destruct (ip_open _ _ I _ _ _ Hin) as (e & He & _). congruence.
Qed.

(** A change of the count of one entry. *)
Lemma ipc_ok_entry c l h e n grace l' :
  ipc_ok c l → ipc_map c !! h = Some e → n = opens_of h l' → (n = 0 → is_Some grace) → (∀ h', h' ≠ h → opens_of h' l' = opens_of h' l) →
  (∀ t h' base, (t, (h', base)) ∈ l' → (t, (h', base)) ∈ l ∨ h' = h ∧ base = dev_ptr e) →
  ipc_ok (mkIpc (<[h := mkEntry (dev_ptr e) (gpu_device_id e) n grace]> (ipc_map c)) (mapped c)) l'.
Proof.
  intros I He Hn Hg Ho Hin. assert (∀ h' e', <[h := mkEntry (dev_ptr e) (gpu_device_id e) n grace]> (ipc_map c) !! h' = Some e' →
    ∃ e0, ipc_map c !! h' = Some e0 ∧ dev_ptr e' = dev_ptr e0) as Hback.
  { intros h' e'. destruct (decide (h' = h)) as [->|]; [rewrite lookup_insert_eq; intros [= <-]; by exists e|rewrite lookup_insert_ne by done; by exists e']. }
  split; simpl.
  - intros h' e'. destruct (decide (h' = h)) as [->|Hh].
    + rewrite lookup_insert_eq. intros [= <-]. destruct (ip_entry _ _ I _ _ He) as [[Hm Hp _] _]. by split.
    + rewrite lookup_insert_ne by done. intros He'. destruct (ip_entry _ _ I _ _ He') as [[Hm Hp Hgr] Hr]. rewrite Ho by done. by split.
  - intros t h' base Hx. apply Hin in Hx as [Hx|[-> ->]]; [|rewrite lookup_insert_eq; by eexists].
    destruct (ip_open _ _ I _ _ _ Hx) as (e' & He' & Hb). destruct (decide (h' = h)) as [->|]; [rewrite lookup_insert_eq|rewrite lookup_insert_ne by done; eauto].
    eexists. split; [done|]. simpl. congruence.
  - intros h1 h2 e1 e2 H1 H2 Hd. apply Hback in H1 as (? & H1 & E1). apply Hback in H2 as (? & H2 & E2). apply (ip_inj _ _ I _ _ _ _ H1 H2). congruence.
  - intros ptr len Hm. destruct (ip_mapped _ _ I _ _ Hm) as (h' & e' & He' & Hd). exists h'. destruct (decide (h' = h)) as [->|].
    + rewrite lookup_insert_eq. eexists. split; [done|]. simpl. congruence.
    + rewrite lookup_insert_ne by done. by exists e'.
Qed.

Lemma ipc_ok_new c l t h device ptr :
  ipc_ok c l → ipc_map c !! h = None → mapped c !! ptr = None → 0 < ptr → ptr + alloc_len h < 2 ^ 64 →
  ipc_ok (mkIpc (<[h := mkEntry ptr device 1 None]> (ipc_map c)) (<[ptr := alloc_len h]> (mapped c))) ((t, (h, ptr)) :: l).
Proof.
  intros I Hn Hm Hp Hlt.
  assert (∀ h' e', ipc_map c !! h' = Some e' → dev_ptr e' ≠ ptr ∧ h' ≠ h) as Hne.
  { intros h' e' He'. destruct (ip_entry _ _ I _ _ He') as [[Hm' _ _] _]. split; [intros Hd; by rewrite Hd, Hm in Hm'|by intros ->; rewrite Hn in He']. }
  split; simpl.
  - intros h' e'. rewrite opens_of_cons. simpl. destruct (decide (h' = h)) as [->|Hh].
    + rewrite lookup_insert_eq. intros [= <-]. rewrite decide_True, (opens_of_none c l) by done. split; [|done]. split; simpl; [by rewrite lookup_insert_eq|done|done].
    + rewrite lookup_insert_ne, decide_False by done. intros He'. destruct (ip_entry _ _ I _ _ He') as [[Hm' Hp' Hg] Hr]. split; [|lia].
      split; [|done|done]. simpl. rewrite lookup_insert_ne; [done|]. intros E. by destruct (Hne _ _ He') as [? _].
  - intros t' h' base Hin. apply elem_of_cons in Hin as [[= -> -> ->]|Hin]; [rewrite lookup_insert_eq; by eexists|].
    destruct (ip_open _ _ I _ _ _ Hin) as (e & He & Hb). exists e. split; [|done]. rewrite lookup_insert_ne; [done|]. intros <-. by destruct (Hne _ _ He) as [_ ?].
  - intros h1 h2 e1 e2. destruct (decide (h1 = h)) as [->|], (decide (h2 = h)) as [->|]; rewrite ?lookup_insert_eq, ?lookup_insert_ne by done; [done| | |apply I].
    + intros [= <-] H2 Hd. simpl in Hd. by destruct (Hne _ _ H2) as [? _].
    + intros H1 [= <-] Hd. simpl in Hd. by destruct (Hne _ _ H1) as [? _].
  - intros p len. destruct (decide (p = ptr)) as [->|Hpp]; [intros _; exists h; rewrite lookup_insert_eq; by eexists|].
    rewrite lookup_insert_ne by done. intros Hmp. destruct (ip_mapped _ _ I _ _ Hmp) as (h' & e' & He' & Hd). exists h', e'.
    split; [|done]. rewrite lookup_insert_ne; [done|]. intros <-. by destruct (Hne _ _ He') as [_ ?].
Qed.

Lemma inv0_ipc A T c l : inv0 A T → ipc_ok c l → inv0 (set_open_log A l) (set_ipc T c).
Proof. intros [Io [? ? ? ?] Ip _] Ii. by split. Qed.

Lemma own_open_ne A t t' x : t' ≠ t → own (set_open_log A ((t, x) :: open_log A)) t' = own A t'.
Proof. intros Ht. unfold own. simpl. by rewrite decide_False. Qed.

Lemma sim_open a t A T h device : inv0 A T → fair alloc_len A T a (IpcOpen h device) → simulated a t A T (IpcOpen h device).
Proof.
  intros I [Hlen Hf]. pose proof (i_ipc _ _ I) as Ii. simpl in Hf.
  assert (∀ base c, ipc_cache_open a (ipc_cache T) h device = Ret (Some base, c) → 0 < base → base + alloc_len h < 2 ^ 64 →
    ipc_ok c ((t, (h, base)) :: open_log A) → simulated a t A T (IpcOpen h device)) as Hdone.
  { intros base c Ec H0 Hlt Ii'. eexists _, _. split; [simpl; by rewrite Ec|]. eexists. split; [done|]. split_and!; [| |done|].
    - split; [done|]. split; [done|]. unfold own, set_opens. simpl. by rewrite decide_True.
    - by apply inv0_ipc.
    - intros t' Ht. by apply own_open_ne. }
  assert (ipc_cache_open a (ipc_cache T) h device = Ret (None, ipc_cache T) → simulated a t A T (IpcOpen h device)) as Hfail.
  { intros Ec. eapply (simulated_same _ _ _ _ (IpcOpen h device) None); [simpl; by rewrite Ec|done|done|].
    destruct I. by split. }
  unfold ipc_cache_open in *. destruct (ipc_map (ipc_cache T) !! h) as [e|] eqn:He.
  - destruct (ip_entry _ _ Ii _ _ He) as [[Hm [Hp Hlt] Hg] Hr]. pose proof (number_length (λ x, x.2.1 = h) (open_log A)) as Hnl.
    pose proof (number_nonneg (λ x, x.2.1 = h) (open_log A)). unfold opens_of in Hr.
    rewrite add_w_Ret, bind_Ret_l in Hdone by lia. eapply Hdone; [done|done|done|].
    apply (ipc_ok_entry (ipc_cache T) (open_log A)); [done|done| | | |].
    + rewrite opens_of_cons, decide_True by done. unfold opens_of. lia.
    + lia.
    + intros h' Hh. rewrite opens_of_cons, decide_False by (simpl; naive_solver). done.
    + intros t' h' base Hin. apply elem_of_cons in Hin as [[= -> -> ->]|Hin]; auto.
  - destruct ((0 <=? device) && negb (Api.set_device a)); [by apply Hfail|]. destruct (Api.opened a) as [[ptr len]|] eqn:Eo; [|by apply Hfail].
    destruct (Z.eqb_spec ptr 0) as [|Hne]; [by apply Hfail|]. destruct (Hf ptr len eq_refl eq_refl) as (-> & H0 & Hlt & Hm).
    eapply Hdone; [done|lia|done|]. by apply ipc_ok_new; [| | |lia|].
Qed.

Lemma sim_ipc_release a t A T h :
  inv0 A T → need size_of alloc_len t (asked A !! t) (own A t) (IpcRelease h) → simulated a t A T (IpcRelease h).
Proof.
  intros I [base Hn]. apply opens_own, list_elem_of_split in Hn as (l1 & l2 & El). pose proof (i_ipc _ _ I) as Ii.
  destruct (ip_open _ _ Ii t h base) as (e & He & Hb); [rewrite El; set_solver|]. destruct (ip_entry _ _ Ii _ _ He) as [[Hm Hp Hg] Hr].
  rewrite El, opens_of_middle, decide_True in Hr by done. pose proof (number_nonneg (λ x, x.2.1 = h) (l1 ++ l2)). unfold opens_of in Hr.
  eexists _, _. split; [simpl; unfold ipc_release; rewrite He, sub_w_Ret, bind_Ret_l by lia; done|].
  eexists. split; [by exists base, l1, l2|]. split_and!; [| |done|].
  - set (f := λ x : Thread * (list Z * Z), if decide (x.1 = t) then Some x.2 else None). exists base, (omap f l1), (omap f l2).
    unfold own, set_opens. simpl. fold f. rewrite El, !omap_app. simpl. unfold f at 2. simpl. by rewrite decide_True.
  - apply inv0_ipc; [done|]. apply (ipc_ok_entry (ipc_cache T) (open_log A)); [done|done| | | |].
    + unfold opens_of. lia.
    + intros ->. by eexists.
    + intros h' Hh. rewrite El, opens_of_middle, decide_False by (simpl; naive_solver). lia.
    + intros t' h' b Hin. left. rewrite El. set_solver.
  - intros t' Ht. unfold own. simpl. f_equal. rewrite El, !omap_app. simpl. by rewrite decide_False.
Qed.

(** Closing mappings that nobody uses. *)
Lemma close_mappings_ok hs c n l :
  ipc_ok c l → (∀ h e, h ∈ hs → ipc_map c !! h = Some e → refcount e = 0) → ipc_ok (close_mappings hs c n).2 l.
Proof.
  revert c n. induction hs as [|h hs IH]; intros c n I Hz; simpl; [done|].
  destruct (ipc_map c !! h) as [e|] eqn:He; [|apply IH; [done|intros h' e' Hh; apply Hz; set_solver]].
  pose proof (Hz h e ltac:(set_solver) He) as He0. apply IH; [|intros h' e' Hh Hd; simpl in Hd; apply lookup_delete_Some in Hd as [_ Hd]; apply (Hz h'); [set_solver|done]].
  split; simpl.
  - intros h' e' Hd. apply lookup_delete_Some in Hd as [Hh Hd]. destruct (ip_entry _ _ I _ _ Hd) as [[Hm Hp Hg] Hr]. split; [|done].
    split; [|done|done]. simpl. rewrite lookup_delete_ne; [done|]. intros E. by apply Hh, (ip_inj _ _ I _ _ _ _ He Hd).
  - intros t h' base Hin. destruct (ip_open _ _ I _ _ _ Hin) as (e' & He' & Hb). exists e'. split; [|done]. rewrite lookup_delete_ne; [done|]. intros <-.
    rewrite He in He'. injection He' as <-. destruct (ip_entry _ _ I _ _ He) as [_ Hr].
    pose proof (number_pos (λ x, x.2.1 = h) l _ Hin eq_refl) as Hpos. unfold opens_of in Hr. lia.
  - intros h1 h2 e1 e2 H1 H2. apply lookup_delete_Some in H1 as [_ H1]. apply lookup_delete_Some in H2 as [_ H2]. by apply (ip_inj _ _ I).
  - intros ptr len Hm. apply lookup_delete_Some in Hm as [Hne Hm]. destruct (ip_mapped _ _ I _ _ Hm) as (h' & e' & He' & Hd). exists h', e'.
    split; [|done]. rewrite lookup_delete_ne; [done|]. intros <-. rewrite He in He'. injection He' as <-. congruence.
Qed.

Lemma sim_reap a t A T : inv0 A T → simulated a t A T IpcReap.
Proof.
  intros I. destruct (ipc_cache_reap_expired (Api.now a) (ipc_cache T)) as [n c] eqn:Ec.
  eapply (simulated_same _ _ _ _ IpcReap n); [simpl; by rewrite Ec|done|done|]. destruct I as [Io Ic Ip Ii]. split; try done. simpl.
  replace c with (ipc_cache_reap_expired (Api.now a) (ipc_cache T)).2 by (by rewrite Ec). apply close_mappings_ok; [done|].
  intros h e Hin He. apply list_elem_of_fmap in Hin as ([h' e'] & -> & Hin). apply list_elem_of_filter in Hin as [Hx Hin].
  apply elem_of_map_to_list in Hin. simpl in *. rewrite He in Hin. injection Hin as <-. unfold expired in Hx.
  apply andb_prop_elim in Hx as [Hx _]. by apply Is_true_true, Z.eqb_eq in Hx.
Qed.

(** Every call. *)
Lemma call_simulated a t A T c :
  (∀ k, 0 < size_of k) → inv0 A T → need size_of alloc_len t (asked A !! t) (own A t) c → fair alloc_len A T a c → simulated a t A T c.
Proof.
  intros Hz I Hn Hf. destruct c; try (by apply sim_read); try (by apply sim_record).
  - by apply sim_reserve.
  - by apply sim_copy.
  - by apply sim_completed.
  - by apply sim_release.
  - by apply sim_pin.
  - by apply sim_unpin.
  - by apply sim_remove.
  - by apply sim_populate.
  - by apply sim_open.
  - by apply sim_ipc_release.
  - by apply sim_reap.
  - by apply sim_stale.
  - by apply sim_record_pin.
  - by apply sim_take_pin.
  - by apply sim_take_all.
Qed.

(** * Steps of the server *)

Lemma lookup_bank A k c : bank A !! k = Some c ↔ holders A !! k = Some (Bank, c).
Proof. unfold bank. rewrite lookup_omap. destruct (holders A !! k) as [[hd c']|]; simpl; [|done]. case_decide; naive_solver. Qed.

(** Every key a request works on is in the bank. *)
Lemma works_on_bank A r k : keeps_contract size_of alloc_len (bank A) r → k ∈ works_on r → ∃ c, holders A !! k = Some (Bank, c).
Proof.
  intros Hk Hin. destruct r; simpl in *; try (by apply elem_of_nil in Hin).
  - destruct Hk as [_ Hk]. destruct (Hk k Hin) as (c & Hc & _). exists c. by apply lookup_bank.
  - destruct (Hk k Hin) as (_ & b & Hc). eexists. by apply lookup_bank.
  - destruct (Hk k Hin) as (c & Hc & _). exists c. by apply lookup_bank.
Qed.

Lemma contract_claims m m' r :
  keeps_contract size_of alloc_len m r → (∀ k, k ∈ works_on r → m' !! k = m !! k) → keeps_contract size_of alloc_len m' r.
Proof.
  intros Hk Hm. destruct r; simpl in *; try done.
  - destruct Hk as [Hb Hk]. split; [done|]. intros k Hin. rewrite Hm by done. by apply Hk.
  - intros k Hin. rewrite Hm by done. by apply Hk.
  - intros k Hin. rewrite Hm by done. by apply Hk.
Qed.

Lemma take_over_stale A ch r : take_over A ch r = mkAbs (cache A) (holders (take_stale A (Some ch) (works_on r))) (pin_log A) (open_log A) (<[Some ch := r]> (asked A)).
Proof. done. Qed.

Lemma own_holders A A' t : holders A' = holders A → pin_log A' = pin_log A → open_log A' = open_log A → own A' t = own A t.
Proof. unfold own. by intros -> -> ->. Qed.

(** A request starts with the reservations it works on. *)
Lemma take_over_starts A ch r :
  (∀ k c, holders A !! k = Some (Bank, c) → banked c) → own A (Some ch) = nothing → keeps_contract size_of alloc_len (bank A) r → well_formed r →
  starts size_of alloc_len r (own (take_over A ch r) (Some ch)).
Proof.
  intros Hb Hn Hk Hf. pose proof (λ k, works_on_bank A r k Hk) as Hw.
  assert (∀ k, claims (own (take_over A ch r) (Some ch)) !! k = if decide (k ∈ works_on r) then bank A !! k else None) as Hc.
  { intros k. pose proof (claims_stale A (Some ch) (works_on r) k Hw) as Hs.
    assert (claims (own A (Some ch)) !! k = None) as E by (by rewrite Hn). rewrite E in Hs. etransitivity; [exact Hs|]. case_decide as Hin; [|done].
    destruct (Hw k Hin) as (c & Hc). rewrite Hc. symmetry. by apply lookup_bank. }
  split.
  - split.
    + by injection Hn as _ ? _.
    + by injection Hn as _ _ ?.
    + intros k c. rewrite Hc. case_decide; [|done]. intros Hbk. apply lookup_bank in Hbk. by eapply Hb.
  - eapply contract_claims; [exact Hk|]. intros k Hin. rewrite Hc. by rewrite decide_True.
  - done.
  - intros k. rewrite Hc. case_decide; [done|]. by intros [? ?].
Qed.

Lemma request_step (bp : Z) A s ch opcode payload :
  (∀ k, 0 < size_of k ≤ 2 ^ 30) → inv A s → running s !! Some ch = None → Forall (is_u 8) payload →
  (∀ r, parse opcode payload = Ret (Ok r) → keeps_contract size_of alloc_len (bank A) r) →
  inv match parse opcode payload with Ret (Ok r) => take_over A ch r | _ => A end
    (mkServer (tr s) (<[Some ch := dispatch bp ch opcode payload]> (running s))).
Proof.
  intros Hz [I0 Ir Ii] Hn Hp Hk. destruct (Ii _ Hn) as [Ho Ha]. destruct (parse_spec opcode payload Hp) as (x & Ex & Hx).
  unfold dispatch. rewrite Ex. destruct x as [r|e]; simpl.
  - specialize (Hk r Ex). pose proof (take_over_starts A ch r (cl_bank _ _ _ (i_claims _ _ I0)) Ho Hk (Hx r eq_refl)) as St.
    assert (∀ t, t ≠ Some ch → own (take_over A ch r) t = own A t) as Hoth.
    { intros t Ht. etransitivity; [|apply (own_stale_ne A (Some ch) t (works_on r) Ht); intros k; by apply works_on_bank]. done. }
    split; simpl.
    + destruct (inv0_stale A (tr s) (Some ch) (works_on r) I0) as [? [? ? ? ?] ? ?]. by split.
    + intros t p. destruct (decide (t = Some ch)) as [->|Ht].
      * rewrite !lookup_insert_eq. intros [= <-]. by apply wp_request.
      * rewrite !lookup_insert_ne, Hoth by done. apply Ir.
    + intros t. destruct (decide (t = Some ch)) as [->|Ht]; [by rewrite lookup_insert_eq|]. rewrite !lookup_insert_ne, Hoth by done. apply Ii.
  - split; simpl; [done| |].
    + intros t p. destruct (decide (t = Some ch)) as [->|Ht]; [|rewrite lookup_insert_ne by done; apply Ir].
      rewrite lookup_insert_eq. intros [= <-]. split; [|by rewrite Ha]. rewrite Ho. split; simpl; try done.
    + intros t. destruct (decide (t = Some ch)) as [->|Ht]; [by rewrite lookup_insert_eq|]. rewrite lookup_insert_ne by done. apply Ii.
Qed.

(** A request that is done leaves its reservations to the next. *)
Lemma holders_back A t k : holders (give_back A t) !! k = (λ hc, (if decide (hc.1 = Held t) then Bank else hc.1, hc.2)) <$> holders A !! k.
Proof. apply lookup_fmap. Qed.

Lemma reply_step A s t x :
  inv A s → running s !! t = Some (Done x) → inv (give_back A t) (mkServer (tr s) (delete t (running s))).
Proof.
  intros [I0 Ir Ii] Hr. destruct (Ir _ _ Hr) as [[Hl Hop Hc] _].
  assert (∀ t', own (give_back A t) t' = if decide (t' = t) then nothing else own A t') as Ho.
  { intros t'. case_decide as Ht; [subst t'|].
    - unfold own, nothing. simpl in *. f_equal; [|done|done]. apply map_empty. intros k. rewrite lookup_omap. change (_ <$> holders A) with (holders (give_back A t)).
      rewrite holders_back. destruct (holders A !! k) as [[hd c]|]; simpl; [|done]. unfold mine. simpl. repeat case_decide; naive_solver.
    - unfold own. simpl. f_equal. apply map_eq. intros k. rewrite !lookup_omap, lookup_fmap. destruct (holders A !! k) as [[hd c]|]; simpl; [|done].
      unfold mine. simpl. repeat case_decide; naive_solver. }
  split; simpl.
  - destruct I0 as [Io [Hre Hp Hfr Hb] Ip Ii0]. split; [done| |done|done]. split; [| |done|].
    + intros k. rewrite Hre, holders_back. by destruct (holders A !! k).
    + intros k. rewrite Hp. unfold recorded. rewrite holders_back. by destruct (holders A !! k).
    + intros k c. rewrite holders_back. destruct (holders A !! k) as [[hd c']|] eqn:E; simpl; [|done]. case_decide as Hd; simpl.
      * intros [= <-]. subst hd. apply (Hc k). by apply claims_own.
      * intros [= -> <-]. by apply (Hb k).
  - intros t' p Hp. apply lookup_delete_Some in Hp as [Ht Hp]. rewrite Ho, decide_False, lookup_delete_ne by congruence. by apply Ir.
  - intros t'. rewrite Ho. case_decide as Ht; [subst t'; by rewrite !lookup_delete_eq|]. rewrite !lookup_delete_ne by congruence. apply Ii.
Qed.

Lemma call_step_inv a A s t c k :
  (∀ k, 0 < size_of k) → inv A s → running s !! t = Some (Step c k) → fair alloc_len A (tr s) a c →
  ∃ r T' A', exec a (tr s) c = Ret (r, T') ∧ call_step size_of a t A c r A' ∧ inv A' (mkServer T' (<[t := k r]> (running s))).
Proof.
  intros Hz [I0 Ir Ii] Hr Hf. destruct (Ir _ _ Hr) as [Hn Hk]. destruct (call_simulated a t A (tr s) c Hz I0 Hn Hf) as (r & T' & He & A' & Hc & Hg & I' & Ha & Ho).
  exists r, T', A'. split; [done|]. split; [done|]. split; simpl; [done| |].
  - intros t' p. rewrite Ha. destruct (decide (t' = t)) as [->|Ht].
    + rewrite lookup_insert_eq. intros [= <-]. by apply Hk.
    + rewrite lookup_insert_ne, Ho by done. apply Ir.
  - intros t'. rewrite Ha. destruct (decide (t' = t)) as [->|Ht]; [by rewrite lookup_insert_eq|]. rewrite lookup_insert_ne, Ho by done. apply Ii.
Qed.

Lemma step_simulated cfg A s ev :
  (∀ k, 0 < size_of k ≤ 2 ^ 30) → inv A s → legal size_of alloc_len A s ev →
  ∃ l s' A', step cfg s ev = Ret (l, s') ∧ abs_step size_of A ev l A' ∧ inv A' s'.
Proof.
  intros Hz I Hl. pose proof I as [I0 Ir Ii]. destruct ev as [ch opcode payload| |t a|k|key reason|]; simpl in *; [| | | | |done].
  - destruct Hl as (Hn & Hp & Hk). rewrite Hn. eexists _, _, _. split; [done|]. split; [done|]. by apply request_step.
  - rewrite Hl. eexists _, _, A. split; [done|]. split; [done|]. destruct (Ii _ Hl) as [Ho Ha]. split; simpl; [done| |].
    + intros t p. destruct (decide (t = None)) as [->|Ht]; [|rewrite lookup_insert_ne by done; apply Ir]. rewrite lookup_insert_eq. intros [= <-].
      rewrite Ho, Ha. by apply wp_sweep.
    + intros t. destruct (decide (t = None)) as [->|Ht]; [by rewrite lookup_insert_eq|]. rewrite lookup_insert_ne by done. apply Ii.
  - unfold run. destruct (running s !! t) as [[x| |c k]|] eqn:Hr.
    + eexists _, _, (give_back A t). split; [done|]. split; [|by eapply reply_step]. split; [done|]. split; [done|]. destruct (Ir _ _ Hr) as [_ Hx].
      intros r Ha. by rewrite Ha in Hx.
    + by destruct (Ir _ _ Hr).
    + destruct (call_step_inv a A s t c k) as (r & T' & A' & He & Hc & I'); [apply Hz|done..|]. exists (LCall t c r), (mkServer T' (<[t := k r]> (running s))), A'.
      by rewrite He, bind_Ret_l.
    + by eexists _, s, A.
  - destruct (Api.tick_law k (cache A) (dispatcher (tr s)) (i_ok _ _ I0)) as (d & sp' & -> & Io & Hsp). rewrite bind_Ret_l.
    destruct Hsp as [->|(key & -> & Hp & Hs & ->)].
    + eexists _, _, A. split; [done|]. split; [by left|]. split; [by apply inv0_dispatcher|done|done].
    + eexists _, _, (set_cache A (forget (cache A) key)). split; [done|]. split; [right; by exists key|]. split; [by apply inv0_forget|done|done].
  - eexists _, _, A. split; [done|]. split; [done|]. split; [|done|done]. simpl. unfold emit. destruct I0. by destruct (_ <? _)%nat.
Qed.

(** ** What a step shows *)

Lemma pinned_stored A T w k : inv0 A T → (w, k) ∈ pin_log A → 0 < pinned_by (cache A) k ∧ is_Some (stored (cache A) !! k).
Proof.
  intros I Hin. assert (0 < pinned_by (cache A) k) as Hp.
  { rewrite (pi_refs _ _ _ (i_pins _ _ I)). by apply (number_pos (λ x, x.2 = k) _ (w, k)). }
  split; [done|]. by apply (Api.held_law (cache A) (dispatcher T) k (i_ok _ _ I)).
Qed.

Lemma call_keeps a t A c r A' k :
  call_step size_of a t A c r A' → 0 < pinned_by (cache A) k → is_Some (stored (cache A) !! k) → stored (cache A') !! k = stored (cache A) !! k.
Proof.
  intros Hc Hp [b Hs]. destruct c; simpl in *; try (by destruct_and?; subst); try (by destruct r; destruct_and?; subst).
  - destruct Hc as (p & rec & _ & Hc). destruct r; [by subst|by destruct Hc; subst].
  - destruct Hc as (_ & b' & _ & Hn & ->). simpl. rewrite lookup_insert_ne; [done|]. intros ->. congruence.
  - by destruct Hc as (_ & c & _ & ->).
  - by destruct Hc as (_ & l1 & l2 & _ & ->).
  - destruct r as [u|e]; [|by destruct Hc as [_ ->]]. destruct Hc as (_ & H0 & ->). simpl. rewrite lookup_delete_ne; [done|]. intros ->. lia.
  - destruct Hc as (sp' & (_ & Hsub & _) & ->). simpl. rewrite Hs. by eapply lookup_weaken.
  - by destruct Hc as (base & l1 & l2 & _ & ->).
  - by destruct Hc as (c & _ & ->).
  - by destruct Hc as (c & _ & ->).
  - by destruct Hc as (l1 & l2 & _ & ->).
  - destruct r; [by destruct Hc as (l1 & l2 & _ & ->)|by destruct Hc as [_ ->]].
Qed.

Lemma step_keeps A T ev l A' w k :
  inv0 A T → abs_step size_of A ev l A' → (w, k) ∈ pin_log A → is_Some (stored (cache A) !! k) ∧ stored (cache A') !! k = stored (cache A) !! k.
Proof.
  intros I Ha Hin. destruct (pinned_stored A T w k I Hin) as [Hp Hs]. split; [done|].
  destruct ev, l; simpl in Ha; try done; try (by subst).
  - subst A'. by destruct (parse opcode payload) as [[r|e]|].
  - destruct Ha as [_ Ha]. by eapply call_keeps.
  - by destruct Ha as (_ & -> & _).
  - destruct Ha as [->|(key & _ & H0 & _ & ->)]; [done|]. simpl. rewrite lookup_delete_ne; [done|]. intros ->. lia.
Qed.

Lemma exec_writes a t T c r T' : exec a T c = Ret (r, T') → gpu_writes T' = gpu_writes T ++ writes_of (LCall t c r).
Proof.
  unfold exec, faulting, on_dispatcher. destruct c; simpl; rewrite ?app_nil_r; intros He;
    repeat match goal with
      | H : context [if ?b then _ else Panic] |- _ => destruct b; [|done]
      | H : (_ ≫= _) = Ret _ |- _ => apply bind_Ret in H as (? & ? & ?)
      | H : (let '(_, _) := ?p in _) = Ret _ |- _ => destruct p
      | p : prod _ _ |- _ => destruct p
      | H : Ret _ = Ret _ |- _ => injection H as ? ?; subst
      end; simpl; try done.
Qed.

(** A lookup writes into mappings its thread has open. *)
Lemma lookup_mapped a t A T batch r A' addr bytes :
  inv0 A T → need size_of alloc_len t (asked A !! t) (own A t) (BatchLookup batch) → call_step size_of a t A (BatchLookup batch) r A' →
  (addr, bytes) ∈ delivered batch r →
  ∃ base len, mapped (ipc_cache T) !! base = Some len ∧ base ≤ addr ∧ addr + Z.of_nat (length bytes) ≤ base + len.
Proof.
  intros I [_ Hn] (_ & _ & Hr) Hin. unfold delivered in Hin. apply list_elem_of_In, in_concat in Hin as (ws & Hws & Hin). apply list_elem_of_In in Hin, Hws.
  apply list_elem_of_lookup in Hws as [i Hi]. apply lookup_zip_with_Some in Hi as ([k regions] & [s x] & -> & Hb & Hx). simpl in Hin.
  destruct x as [ps|e]; [|by apply elem_of_nil in Hin]. destruct (Hr i k regions s (Ok ps) Hb Hx) as (Hd & _). destruct (Hd ps eq_refl) as [_ Hcut].
  apply list_elem_of_lookup in Hin as [j Hj]. apply lookup_zip_with_Some in Hj as (addr' & p & [= -> ->] & Ha & Hp).
  apply list_lookup_fmap_Some in Ha as (h & Ha & Hh). specialize (Hcut j p Hp). rewrite list_lookup_fmap, Hh in Hcut. injection Hcut as Hcut.
  rewrite Forall_lookup in Hn. destruct (Hn i _ Hb) as [_ Ho]. simpl in Ho. rewrite Forall_lookup in Ho. destruct (Ho j h Hh) as (hd & base & Hop & Hlo & Hhi).
  apply opens_own in Hop. destruct (ip_open _ _ (i_ipc _ _ I) _ _ _ Hop) as (e & He & <-). exists (dev_ptr e), (alloc_len hd).
  destruct (ip_entry _ _ (i_ipc _ _ I) _ _ He) as [[Hm _ _] _]. split; [done|]. subst addr'. lia.
Qed.

Lemma step_behaves cfg A s ev l s' A' :
  inv A s → step cfg s ev = Ret (l, s') → abs_step size_of A ev l A' → behaves size_of s A ev l s' A'.
Proof.
  intros [I0 Ir Ii] Hs Ha. split; [done|intros w k; by eapply step_keeps| |].
  - destruct ev as [ch opcode payload| |t a|k|key reason|]; simpl in Hs; try (by destruct (running s !! _); simplify_eq; simpl; rewrite app_nil_r);
      [| |simplify_eq; simpl; rewrite app_nil_r; unfold emit; by destruct (_ <? _)%nat|simplify_eq; simpl; by rewrite app_nil_r].
    + unfold run in Hs. destruct (running s !! t) as [[x| |c k]|]; simplify_eq; [simpl; by rewrite app_nil_r| |simpl; by rewrite app_nil_r].
      apply bind_Ret in Hs as ([r T'] & He & Hs). simplify_eq. by eapply exec_writes.
    + apply bind_Ret in Hs as (d & _ & Hs). simplify_eq. simpl. by rewrite app_nil_r.
  - intros addr bytes Hin. destruct l as [|t c r|]; try (by apply elem_of_nil in Hin). destruct c; try (by apply elem_of_nil in Hin). simpl in Hin.
    destruct ev as [| |t' a| | |]; try done. destruct Ha as [<- Ha]. simpl in Hs. unfold run in Hs.
    destruct (running s !! t) as [[x| |c k]|] eqn:Hr; simplify_eq. apply bind_Ret in Hs as ([r' T'] & He & Hs).
    assert (Some c = Some (BatchLookup batch)) as [= ->].
    { apply (f_equal (λ x, match x with Ret (LCall _ c _, _) => Some c | _ => None end) Hs). }
    destruct (Ir _ _ Hr) as [Hn _]. by eapply lookup_mapped.
Qed.

Lemma inv_serves cfg evs A s : (∀ k, 0 < size_of k ≤ 2 ^ 30) → inv A s → serves size_of alloc_len cfg s A evs.
Proof.
  intros Hz. revert A s. induction evs as [|ev evs IH]; intros A s I; constructor; try by apply inv_consistent.
  intros Hl. destruct (step_simulated cfg A s ev Hz I Hl) as (l & s' & A' & Hs & Ha & I'). exists l, s', A'. split; [done|].
  split; [by eapply step_behaves|by apply IH].
Qed.

Lemma inv_new d : Api.ok empty_spec d → inv empty_abs (mkServer (new d) ∅).
Proof.
  intros Io. split; simpl; [|done|].
  - split; [done| | |].
    + split; simpl; try done.
    + split; simpl; [done|]. done.
    + split; simpl; try done. intros t h base Hin. by apply elem_of_nil in Hin.
  - intros t _. split; [|done]. done.
Qed.

End invariant.

(** * Mappings that are no longer used *)

Lemma close_mappings_all hs c n :
  (∀ h e, ipc_map c !! h = Some e → h ∈ hs) → (∀ ptr len, mapped c !! ptr = Some len → ∃ h e, ipc_map c !! h = Some e ∧ dev_ptr e = ptr) →
  (close_mappings hs c n).2 = mkIpc ∅ ∅.
Proof.
  revert c n. induction hs as [|h hs IH]; intros [m mp] n Hk Hm; simpl in *.
  - assert (m = ∅) as ->.
    { apply map_empty. intros h. destruct (m !! h) as [e|] eqn:E; [|done]. by apply Hk, elem_of_nil in E. }
    f_equal. apply map_empty. intros ptr. destruct (mp !! ptr) as [len|] eqn:E; [|done]. destruct (Hm _ _ E) as (h & e & He & _). by rewrite lookup_empty in He.
  - destruct (m !! h) as [e|] eqn:He; apply IH; simpl; try done.
    + intros h' e' Hd. apply lookup_delete_Some in Hd as [Hne Hd]. apply Hk in Hd. set_solver.
    + intros ptr len Hd. apply lookup_delete_Some in Hd as [Hne Hd]. destruct (Hm _ _ Hd) as (h' & e' & He' & Hp). exists h', e'. split; [|done].
      rewrite lookup_delete_ne; [done|]. intros <-. rewrite He in He'. injection He' as <-. done.
    + intros h' e' Hd. pose proof (Hk _ _ Hd). assert (h' ≠ h) by congruence. set_solver.
Qed.

(** C25. GPU memory of clients that have gone is released. In every state of the
    server in which no request has a mapping open, a sweep after the grace periods
    leaves no mapping, in the cache and in the driver. *)
Theorem idle_mappings_closed {W} size_of alloc_len A (s : Server W) now :
  consistent size_of alloc_len A s → open_log A = [] →
  (∀ h e t, ipc_map (ipc_cache (tr s)) !! h = Some e → grace_until e = Some t → t ≤ now) →
  (ipc_cache_reap_expired now (ipc_cache (tr s))).2 = mkIpc ∅ ∅.
Proof.
  intros C Ho Hn. apply close_mappings_all; [|apply C]. intros h e He. apply list_elem_of_fmap. exists (h, e). split; [done|].
  apply list_elem_of_filter. split; [|by apply elem_of_map_to_list]. simpl. destruct (s_unused _ _ _ _ C h e He) as [H0 [t Ht]].
  { rewrite Ho. intros t base Hin. by apply elem_of_nil in Hin. }
  unfold expired. rewrite H0, Ht. apply Is_true_true. simpl. apply Z.leb_le. by eapply Hn.
Qed.

Lemma idle_mappings_closed_witness :
  (ipc_cache_reap_expired 9 (mkIpc {[ [1] := mkEntry 4096 0 0 (Some 7) ]} {[ 4096 := 64 ]})).2 = mkIpc ∅ ∅.
Proof.
  apply (idle_mappings_closed (λ _, 4) (λ _, 64) empty_abs
    (mkServer (mkTranslator () (mkIpc {[ [1] := mkEntry 4096 0 0 (Some 7) ]} {[ 4096 := 64 ]}) ∅ [] 0 (mkPins ∅ 0 0) [] []) ∅) 9).
  - split; simpl; try done.
    + intros t h base Hin. by apply elem_of_nil in Hin.
    + intros ptr len Hm. apply lookup_singleton_Some in Hm as [<- _]. exists [1]. eexists. split; [apply lookup_singleton_eq|done].
    + intros h e He _. apply lookup_singleton_Some in He as [_ <-]. by split; [|eexists].
  - done.
  - intros h e t He Ht. simpl in He. apply lookup_singleton_Some in He as [_ <-]. injection Ht as <-. lia.
Defined.

(** * Eviction events *)

Inductive event_op := OEmit (key : Z) (reason : EvictionReason) | OTake (max : Z).

Definition emitted (ops : list event_op) : list (Z * EvictionReason) :=
  omap (λ op, match op with OEmit k r => Some (k, r) | OTake _ => None end) ops.

Section events.
Context {W : Type} `{Api.IDispatcher W}.

(** The events taken, the drops reported, and the state, after the operations. *)
Fixpoint run_events (capacity : nat) (a : Answers) (s : Translator W) (ops : list event_op) :
    outcome (list (Z * EvictionReason) * Z * Translator W) :=
  match ops with
  | [] => Ret ([], 0, s)
  | OEmit key reason :: ops => run_events capacity a (emit capacity s key reason) ops
  | OTake max :: ops =>
      '(evs, s) ← exec a s (Drain max);
      '(dropped, s) ← exec a s SwapDropped;
      '(taken, reported, s) ← run_events capacity a s ops;
      Ret (evs ++ taken, dropped + reported, s)
  end.

(** No eviction event is lost silently: what the clients have taken and what
    is queued are events that were emitted, in their order, and all others have
    been reported, or will be, as dropped. *)
Theorem events_accounted capacity a (s : Translator W) ops :
  0 ≤ eviction_dropped s → eviction_dropped s + Z.of_nat (length ops) < 2 ^ 64 →
  ∃ taken reported s', run_events capacity a s ops = Ret (taken, reported, s') ∧
    (∃ l, l `sublist_of` emitted ops ∧ eviction_rx s ++ l = taken ++ eviction_rx s' ∧
      Z.of_nat (length (emitted ops)) = Z.of_nat (length l) + (reported + eviction_dropped s' - eviction_dropped s)).
Proof.
  revert s. induction ops as [|op ops IH]; intros s H0 Hlt; simpl in *.
  - exists [], 0, s. split; [done|]. exists []. rewrite app_nil_r. simpl. split_and!; [done|done|lia].
  - destruct op as [key reason|max].
    + unfold emit at 1. destruct (Nat.ltb_spec (length (eviction_rx s)) capacity).
      * match goal with |- context [run_events _ _ ?x _] => destruct (IH x) as (taken & rep & s' & -> & l & Hs & Hl & Hn) end; [simpl; lia..|].
        eexists _, _, _. split; [done|]. exists ((key, reason) :: l). simpl in *. rewrite <- app_assoc in Hl. split_and!; [by apply sublist_skip|done|lia].
      * match goal with |- context [run_events _ _ ?x _] => destruct (IH x) as (taken & rep & s' & -> & l & Hs & Hl & Hn) end;
          simpl in *; rewrite ?Z.mod_small by lia; [lia..|]. rewrite Z.mod_small in Hn by lia.
        eexists _, _, _. split; [done|]. exists l. split_and!; [by apply sublist_cons|done|lia].
    + destruct (drain max (eviction_rx s)) as [evs rx] eqn:Ed. rewrite !bind_Ret_l. simpl.
      assert (eviction_rx s = evs ++ rx) as Hrx by (unfold drain in Ed; destruct (0 <? max); injection Ed as <- <-; by rewrite ?take_drop, ?app_nil_r).
      match goal with |- context [run_events _ _ ?x _] => destruct (IH x) as (taken & rep & s' & -> & l & Hs & Hl & Hn) end; [simpl; lia..|].
      rewrite bind_Ret_l. eexists _, _, _. split; [done|]. exists l. simpl in *. split_and!; [done| |lia]. by rewrite Hrx, <- !app_assoc, Hl.
Qed.

End events.

End ServerSystem.
