(* ===== verification/ServerRuns.v ===== *)
(** The server of [Translator] over the dispatcher of [StorePath]: the refinement
    theorem of [ServerSystem] for it, a run, and runs outside its contract. *)

From S2P Require Import Prelude Bytes LruList EvictionPolicy FreeList MemoryTier Slab Buddy Region Checkpoint Recovery ExtentManager DispatchMap Dispatcher Pins ExtentStore StorePath StoreInvariant StoreCalls StoreBatch BatchCalls CacheSpec WriteThrough CacheSystem CacheBatch CacheService Wire Translator ServerLogic ServerSystem.

Module ServerRuns.
Import Policy ExtentStore CacheSystem CacheService Wire Translator ServerLogic ServerSystem.
Local Open Scope Z_scope.

Section theorem.
Context {S1 S2 E : Type} `{P1 : IEvictionPolicy S1, L1 : !EvictionPolicyLaws S1,
  P2 : IEvictionPolicy S2, L2 : !EvictionPolicyLaws S2,
  X : IExtentManager E, XL : !ExtentManagerLaws E}.
Context (size_of : Z → Z) (sizes : ∀ k, 0 < size_of k ≤ 2 ^ 30) (alloc_len : list Z → Z).

(** C3. The server is safe and coherent under any interleaving. From a fresh
    cache, with any number of requests in flight on different channels, each
    interrupted between any two of its calls by the others, by the reaper and by
    the threads of the dispatcher, every step returns: no panic, no underflow of a
    reference or mapping count, no access to GPU memory that is not mapped. Each
    call answers as the abstract server allows: a lookup writes exactly the stored
    bytes, into mappings its own request has open; an entry with a reference in
    the ledger of some channel stays, with its bytes; the commit of a reservation
    that was copied in full succeeds, and so does its abort; a key answers PENDING
    exactly while its reservation is recorded; every response has one byte per key
    of its request, and the lookups reported to the observer add up to the entries
    requested. This holds while clients and machine keep to [legal] and [fair]: sizes
    and regions belong to the keys and allocations named, a key is reserved only while
    it is not cached, one request at a time works on a reservation, the reaper finds
    stale only reservations nobody works on, no copy fails in the DMA engine, every
    channel can be checked out, CUDA maps an allocation at a fresh address, and no
    worker exits ([failed_copy_abort_corrupts], [reaper_frees_committed] and
    [exit_unmaps_requests_in_flight] are what happens otherwise). *)
Theorem server_refines cfg (w : StorePath.World S1 S2 E) evs :
  initial w → ServerSystem.serves size_of alloc_len cfg (mkServer (new w) ∅) empty_abs evs.
Proof.
  intros N. apply (inv_serves size_of (L := StoreDispatcherLaws size_of sizes)); [done|]. apply inv_new.
  by apply (initial_holds size_of).
Qed.

End theorem.

(** * A run *)

Definition cfg0 : Config := mkConfig 0 100 8.

(** One allocation of 64 bytes, which CUDA maps at 4096; byte [i] of it holds [i]. *)
Definition alloc64 (_ : list Z) : Z := 64.

Definition calm : Answers :=
  Api.mkAnswers 0 1 0 StorePath.DmaDone [] 0 good_env (StoreBatch.mkStoreEnv (λ _, StorePath.DmaDone) (λ _, []) true (λ _, 0%nat))
    (λ _, true) (λ _, true) (λ _, []) (λ _, true) (λ x, x - 4096) true (Some (4096, 64)) [].

Definition keys_payload (ks : list Z) : list Z := to_le_bytes 4 (Z.of_nat (length ks)) ++ concat (List.map (to_le_bytes 8) ks).

Definition reserve_payload (k size : Z) : list Z := to_le_bytes 4 1 ++ to_le_bytes 8 k ++ to_le_bytes 4 size ++ to_le_bytes 8 0.

(** One handle, one key, one region. *)
Definition batch_payload (k off size : Z) : list Z :=
  to_le_bytes 4 1 ++ replicate 64 7 ++ to_le_bytes 4 0 ++
  to_le_bytes 4 1 ++ to_le_bytes 8 k ++ to_le_bytes 2 1 ++ to_le_bytes 4 0 ++ to_le_bytes 8 off ++ to_le_bytes 4 size.

Abbreviation CacheServer := (Server Cache).
Definition server0 : CacheServer := mkServer (new cache0) ∅.

(** The responses and what was written to the GPU. *)
Fixpoint run_server (s : CacheServer) (evs : list event) : outcome (list (Thread * response) * CacheServer) :=
  match evs with
  | [] => Ret ([], s)
  | ev :: evs =>
      '(l, s) ← Translator.step cfg0 s ev;
      '(xs, s) ← run_server s evs;
      Ret (match l with LReply t x => (t, x) :: xs | _ => xs end, s)
  end.

Definition shown (x : outcome (list (Thread * response) * CacheServer)) : outcome (list (Thread * response) * list (Z * list Z)) :=
  '(xs, s) ← x; Ret (xs, gpu_writes (tr s)).

(** [n] steps of thread [t]. *)
Definition steps (t : Thread) (n : nat) : list event := replicate n (ERun t calm).

Definition whole (ch : nat) (opcode : Z) (payload : list Z) : list event := ERequest ch opcode payload :: steps (Some ch) 12.

Definition story : list event :=
  whole 0 3 (reserve_payload 5 4) ++ whole 1 1 (keys_payload [5; 6]) ++ whole 1 4 (batch_payload 5 8 4) ++ whole 0 5 (keys_payload [5]) ++
  [ERequest 0 7 (0 :: keys_payload [5]); ERequest 1 9 (batch_payload 5 32 4)] ++ steps (Some 0%nat) 2 ++ steps (Some 1%nat) 3 ++ steps (Some 0%nat) 4 ++ steps (Some 1%nat) 9 ++
  whole 2 12 (keys_payload [5]) ++ whole 0 8 (to_le_bytes 4 UNPIN_ALL) ++ whole 2 12 (keys_payload [5]).

Definition told : list (Thread * response) :=
  let ok ch w := (Some ch, Ok w) in
  [ok 0%nat [1]; ok 1%nat [PENDING; MISS]; ok 1%nat [1]; ok 0%nat [1]; ok 0%nat [1]; ok 1%nat [1]; ok 2%nat [0];
   ok 0%nat (to_le_bytes 8 1); ok 2%nat [1]].

(** Key 5 is reserved on channel 0 and PENDING for channel 1, which copies it; it
    is committed, and pinned on channel 0 while channel 1 looks it up: the bytes 8
    to 11 arrive at offset 32. A remove is refused until channel 0 gives up its
    references. *)
Lemma server_refines_witness :
  ServerSystem.serves four alloc64 cfg0 server0 empty_abs story ∧
  shown (run_server server0 story) = Ret (told, [(4128, [8; 9; 10; 11])]).
Proof. split; [exact (server_refines four four_sizes alloc64 cfg0 cache0 story cache0_initial)|vm_compute; reflexivity]. Defined.

(** The reservation of the story keeps the contract: the request, and its calls. *)
Definition server1 : CacheServer := mkServer (new cache0) {[ Some 0%nat := dispatch 0 0 3 (reserve_payload 5 4) ]}.
Definition reserving : program := _ ← each (reserve_one 0) [(5, 4, 0)]; mret (Ok [1]).

Lemma story_legal :
  ServerSystem.legal four alloc64 empty_abs server0 (ERequest 0 3 (reserve_payload 5 4)) ∧
  ServerSystem.legal four alloc64 (take_over empty_abs 0 (RReserve [(5, 4, 0)])) server1 (ERun (Some 0%nat) calm) ∧
  ServerSystem.legal four alloc64 (take_over empty_abs 0 (RReserve [(5, 4, 0)]))
    (mkServer (new cache0) {[ Some 0%nat := reserving ]}) (ERun (Some 0%nat) calm).
Proof.
  split; [|split].
  - split; [done|]. split; [vm_compute; repeat constructor; done|].
    intros r Hr. vm_compute in Hr. injection Hr as <-. simpl. repeat constructor.
  - done.
  - split; [done|]. intros hc Hh. vm_compute in Hh. done.
Qed.

(** * Outside the contract *)

Definition put_key (ch : nat) (k off : Z) : list event :=
  whole ch 3 (reserve_payload k 4) ++ whole ch 4 (batch_payload k off 4) ++ whole ch 5 (keys_payload [k]).

Definition ok_of (ch : nat) : Thread * response := (Some ch, Ok [1]).

(** The machine later, or with a DMA engine that fails. *)
Definition later (now : Z) (dma : StorePath.Dma) : Answers :=
  Api.mkAnswers now 1 0 dma [] 0 good_env (StoreBatch.mkStoreEnv (λ _, StorePath.DmaDone) (λ _, []) true (λ _, 0%nat))
    (λ _, true) (λ _, true) (λ _, []) (λ _, true) (λ x, x - 4096) true (Some (4096, 64)) [].

(** An abort frees what another client has stored. Channel 0 reserves key 5 and
    its copy fails, which frees the slot and leaves the record; channel 1 reserves
    key 5, copies and commits it; channel 0 aborts its store, as a client does after
    a failed copy, is told 1, and has freed the slot of the committed entry. Key 6
    is stored into the same memory, and a lookup of key 5 is a hit that delivers
    the bytes of key 6 (16 to 19). *)
Theorem failed_copy_abort_corrupts :
  shown (run_server server0
    (whole 0 3 (reserve_payload 5 4) ++
     ERequest 0 4 (batch_payload 5 8 4) :: replicate 12 (ERun (Some 0%nat) (later 0 StorePath.DmaFailed)) ++
     put_key 1 5 8 ++ whole 0 6 (keys_payload [5]) ++ put_key 1 6 16 ++ whole 1 9 (batch_payload 5 32 4)))
  = Ret ([ok_of 0; (Some 0%nat, Ok [0]); ok_of 1; ok_of 1; ok_of 1; ok_of 0; ok_of 1; ok_of 1; ok_of 1; ok_of 1],
         [(4128, [16; 17; 18; 19])]).
Proof. vm_compute. reflexivity. Qed.

(** The reaper frees what was committed meanwhile. It lists the stale
    reservations, then releases them one by one without looking again: key 5 is
    committed in between and answered 1, its slot is freed all the same, and after
    a store of key 6 a lookup of key 5 delivers the bytes of key 6. *)
Theorem reaper_frees_committed :
  shown (run_server server0
    (whole 0 3 (reserve_payload 5 4) ++ whole 0 4 (batch_payload 5 8 4) ++ [ESweep; ERun None (later 200 StorePath.DmaDone)] ++
     whole 0 5 (keys_payload [5]) ++ steps None 5 ++ put_key 1 6 16 ++ whole 1 9 (batch_payload 5 32 4)))
  = Ret ([ok_of 0; ok_of 0; ok_of 0; (None, Ok []); ok_of 1; ok_of 1; ok_of 1; ok_of 1], [(4128, [16; 17; 18; 19])]).
Proof. vm_compute. reflexivity. Qed.

(** A thread that ends unmaps the memory of requests in flight. Every worker
    and the reaper own a clone of the translator, and dropping any of them closes
    every mapping, whatever its count: a request on channel 1 has resolved its
    handle when another worker leaves, and then accesses memory that is not mapped.
    Without the worker's exit it is served. *)
Theorem exit_unmaps_requests_in_flight :
  shown (run_server server0 (put_key 0 5 8 ++ [ERequest 1 9 (batch_payload 5 32 4)] ++ steps (Some 1%nat) 1 ++ [EWorkerExit] ++ steps (Some 1%nat) 9)) = Panic ∧
  shown (run_server server0 (put_key 0 5 8 ++ [ERequest 1 9 (batch_payload 5 32 4)] ++ steps (Some 1%nat) 10))
  = Ret ([ok_of 0; ok_of 0; ok_of 0; ok_of 1], [(4128, [8; 9; 10; 11])]).
Proof. split; vm_compute; reflexivity. Qed.

(** An offset near 2^64 takes the server down: [base as usize + offset as usize]
    is not checked, and a worker that panics aborts the process. *)
Theorem region_offset_overflows :
  shown (run_server server0 (put_key 0 5 8 ++ whole 1 9 (batch_payload 5 (2 ^ 64 - 4096) 4))) = Panic.
Proof. vm_compute. reflexivity. Qed.

End ServerRuns.
