(* ===== verification/Fetch.v ===== *)
(** Fetches from peers ([lib/shmq-dispatcher/src/fetch.rs]): runs of keys that land
    in the memory tier in a window of bytes, as a step system. A thread is the stack
    of what it still has to do, one entry per critical section or outside call of
    [issue] and [complete], so that the sections of different threads interleave.
    The dispatcher and the transfer endpoint answer as they like; the endpoint
    completes an accepted fetch at most once, at any time. *)

From S2P Require Import Prelude StoreBatch.

Module Fetch.
Import StoreBatch.
Local Open Scope Z_scope.

(** * State *)

Record FetchLimits := mkLimits {
  window_bytes : Z;
  inflight_limit : Z;
  max_keys : Z;
  mark_ttl : Z
}.

Record FetchCounters := mkCounters {
  requests : Z;
  keys_requested : Z;
  keys_started : Z;
  not_started : Z;
  hits : Z;
  bytes : Z;
  misses : Z;
  failed : Z;
  truncated : Z;
  window_waits : Z;
  lookup_hits_fetched : Z;
  fetched_unused : Z
}.

Record LocalSlot := mkSlot { addr : Z; slot_length : Z }.

Inductive EntryOutcome := HitMemoryTier | HitBlockTier | OMiss | OFailed.

Definition outcome_is_hit (o : EntryOutcome) : bool :=
  match o with HitMemoryTier | HitBlockTier => true | OMiss | OFailed => false end.

Abbreviation slots_t := (list (Z * LocalSlot)).

Record Run := mkRun {
  peer : list Z;
  queued : list (Z * Z);
  run_bytes : Z;
  run_inflight : Z;
  cut : bool
}.

Record State := mkState {
  runs : gmap Z Run;
  next_run : Z;
  keys : gmap Z Z;
  inflight_bytes : Z;
  waiting : list Z;
  marks : gmap Z (list Z * Z);
  counters : FetchCounters
}.

Definition default_state : State := mkState ∅ 0 ∅ 0 [] ∅ (mkCounters 0 0 0 0 0 0 0 0 0 0 0 0).

Definition set_counters (s : State) (c : FetchCounters) : State :=
  mkState (runs s) (next_run s) (keys s) (inflight_bytes s) (waiting s) (marks s) c.
Definition set_marks (s : State) (m : gmap Z (list Z * Z)) : State :=
  mkState (runs s) (next_run s) (keys s) (inflight_bytes s) (waiting s) m (counters s).
Definition set_runs (s : State) (rs : gmap Z Run) : State :=
  mkState rs (next_run s) (keys s) (inflight_bytes s) (waiting s) (marks s) (counters s).

Definition count_start (n started : Z) (c : FetchCounters) : FetchCounters :=
  mkCounters (requests c + 1) (keys_requested c + n) (keys_started c + started) (not_started c + (n - started))
    (hits c) (bytes c) (misses c) (failed c) (truncated c) (window_waits c) (lookup_hits_fetched c) (fetched_unused c).
Definition count_hit (len : Z) (c : FetchCounters) : FetchCounters :=
  mkCounters (requests c) (keys_requested c) (keys_started c) (not_started c) (hits c + 1) (bytes c + len)
    (misses c) (failed c) (truncated c) (window_waits c) (lookup_hits_fetched c) (fetched_unused c).
Definition count_no_hit (o : EntryOutcome) (c : FetchCounters) : FetchCounters :=
  let '(m, f) := match o with OMiss => (1, 0) | _ => (0, 1) end in
  mkCounters (requests c) (keys_requested c) (keys_started c) (not_started c) (hits c) (bytes c)
    (misses c + m) (failed c + f) (truncated c) (window_waits c) (lookup_hits_fetched c) (fetched_unused c).
Definition count_truncated (n : Z) (c : FetchCounters) : FetchCounters :=
  mkCounters (requests c) (keys_requested c) (keys_started c) (not_started c) (hits c) (bytes c) (misses c) (failed c)
    (truncated c + n) (window_waits c) (lookup_hits_fetched c) (fetched_unused c).
Definition count_waits (n : Z) (c : FetchCounters) : FetchCounters :=
  mkCounters (requests c) (keys_requested c) (keys_started c) (not_started c) (hits c) (bytes c) (misses c) (failed c)
    (truncated c) (window_waits c + n) (lookup_hits_fetched c) (fetched_unused c).
Definition count_marks (served unused : Z) (c : FetchCounters) : FetchCounters :=
  mkCounters (requests c) (keys_requested c) (keys_started c) (not_started c) (hits c) (bytes c) (misses c) (failed c)
    (truncated c) (window_waits c) (lookup_hits_fetched c + served) (fetched_unused c + unused).

(** * Starting a run *)

(** The keys before the first that a store has in flight or that is resident;
    [check] is the answer of the dispatcher. *)
Fixpoint candidates (pending : gset Z) (check : Z → bool) (ks : list (Z * Z)) : list (Z * Z) :=
  match ks with
  | [] => []
  | (key, size) :: ks =>
      if decide (key ∈ pending) then [] else if check key then [] else (key, size) :: candidates pending check ks
  end.

(** The candidates before the first that another run fetches become keys of run
    [id]. *)
Fixpoint claim_keys (id : Z) (ks : list (Z * Z)) (m : gmap Z Z) : list (Z * Z) * gmap Z Z :=
  match ks with
  | [] => ([], m)
  | (key, size) :: ks =>
      match m !! key with
      | Some _ => ([], m)
      | None => let '(q, m) := claim_keys id ks (<[key := id]> m) in ((key, size) :: q, m)
      end
  end.

(** The flags of the answer, and the new run if any key started. *)
Definition start (lim : FetchLimits) (p : list Z) (ks : list (Z * Z)) (pending : gset Z) (check : Z → bool) (s : State) :
    outcome (option (list bool * option Z) * State) :=
  let n := Z.of_nat (length ks) in
  if max_keys lim <? n then Ret (None, s) else
  let cs := candidates pending check ks in
  let id := next_run s in
  let '(q, m) := claim_keys id cs (keys s) in
  let started := replicate (length q) true ++ replicate (length ks - length q) false in
  let c := count_start n (Z.of_nat (length q)) (counters s) in
  match q with
  | [] => Ret (Some (started, None), mkState (runs s) id m (inflight_bytes s) (waiting s) (marks s) c)
  | _ =>
      id' ← add_w 64 id 1;
      Ret (Some (started, Some id),
        mkState (<[id := mkRun p q 0 0 false]> (runs s)) id' m (inflight_bytes s) (waiting s) (marks s) c)
  end.

(** * The request *)

(** [s.parse::<u16>()]: an optional sign and digits. *)
Fixpoint parse_digits (acc : Z) (bs : list Z) : option Z :=
  match bs with
  | [] => Some acc
  | b :: bs =>
      if (48 <=? b) && (b <=? 57) then
        let x := 10 * acc + (b - 48) in
        if x <? 2 ^ 16 then parse_digits x bs else None
      else None
  end.

Definition parse_u16 (bs : list Z) : option Z :=
  match bs with
  | [] | [43] | [45] => None
  | 43 :: bs => parse_digits 0 bs
  | _ => parse_digits 0 bs
  end.

(** [peer.rsplit_once(':')]. *)
Fixpoint rsplit_colon (bs : list Z) : option (list Z * list Z) :=
  match bs with
  | [] => None
  | b :: bs' =>
      match rsplit_colon bs' with
      | Some (host, port) => Some (b :: host, port)
      | None => if b =? 58 then Some ([], bs') else None
      end
  end.

Definition valid_peer (p : list Z) : bool :=
  match rsplit_colon p with
  | Some (host, port) =>
      negb (bool_decide (host = [])) && match parse_u16 port with Some x => negb (x =? 0) | None => false end
  | None => false
  end.

Definition OK : Z := 0.
Definition BAD_PEER : Z := 2.
Definition TOO_MANY : Z := 3.

(** FETCH with a fetcher, decoded: the response, and the run it started. *)
Definition op_fetch (lim : FetchLimits) (p : list Z) (ks : list (Z * Z)) (stores : gset Z) (check : Z → bool) (s : State) :
    outcome (list Z * option Z * State) :=
  if negb (valid_peer p) then Ret ([BAD_PEER], None, s) else
  '(x, s) ← start lim p ks stores check s;
  Ret match x with
      | Some (started, id) => (OK :: map Z.b2z started, id, s)
      | None => ([TOO_MANY], None, s)
      end.

(** * The window of a run *)

(** What the loop of [issue] changes: the run, the bytes of all runs, the runs that
    wait, and the count of waits. *)
Record Window := mkWindow { w_run : Run; w_total : Z; w_waiting : list Z; w_waits : Z }.

Definition set_queued (r : Run) (q : list (Z * Z)) : Run := mkRun (peer r) q (run_bytes r) (run_inflight r) (cut r).
Definition set_cut (r : Run) : Run := mkRun (peer r) (queued r) (run_bytes r) (run_inflight r) true.

(** [reserve] is the answer of the dispatcher, the address of a slot. *)
Fixpoint fill (lim : FetchLimits) (reserve : Z → option Z) (id : Z) (q : list (Z * Z)) (w : Window) : outcome (Window * slots_t) :=
  let r := w_run w in
  match q with
  | [] => Ret (w, [])
  | (key, size) :: q =>
      if cut r then Ret (w, []) else
      fits ← (if run_inflight r =? 0 then Ret true else x ← add_w 64 (run_bytes r) size; Ret (x <=? window_bytes lim));
      if negb fits then Ret (w, []) else
      full ← (if 0 <? w_total w then x ← add_w 64 (w_total w) size; Ret (inflight_limit lim <? x) else Ret false);
      if full : bool then
        if (run_inflight r =? 0) && negb (bool_decide (id ∈ w_waiting w))
        then Ret (mkWindow r (w_total w) (w_waiting w ++ [id]) (w_waits w + 1), [])
        else Ret (w, [])
      else
        match reserve key with
        | None => Ret (mkWindow (set_cut r) (w_total w) (w_waiting w) (w_waits w), [])
        | Some ptr =>
            b ← add_w 64 (run_bytes r) size;
            t ← add_w 64 (w_total w) size;
            '(w, slots) ← fill lim reserve id q (mkWindow (mkRun (peer r) q b (run_inflight r + 1) (cut r)) t (w_waiting w) (w_waits w));
            Ret (w, (key, mkSlot ptr size) :: slots)
        end
  end.

Definition remove_keys (ks : list Z) (m : gmap Z Z) : gmap Z Z := foldl (λ m k, delete k m) m ks.

(** The queued keys of a cut run are given up. *)
Definition drop_queued (m : gmap Z Z) (r : Run) (c : FetchCounters) : gmap Z Z * Run * FetchCounters :=
  (remove_keys (queued r).*1 m, set_queued r [], count_truncated (Z.of_nat (length (queued r))) c).

(** The critical section of [issue]: the peer and the slots to fetch, unless the
    run has gone. *)
Definition issue (lim : FetchLimits) (reserve : Z → option Z) (id : Z) (s : State) : outcome (option (list Z * slots_t) * State) :=
  match runs s !! id with
  | None => Ret (None, s)
  | Some r =>
      '(w, slots) ← fill lim reserve id (queued r) (mkWindow r (inflight_bytes s) (waiting s) 0);
      let c := count_waits (w_waits w) (counters s) in
      let '(m, r', c) := if cut (w_run w) && negb (bool_decide (queued (w_run w) = []))
                         then drop_queued (keys s) (w_run w) c else (keys s, w_run w, c) in
      Ret (Some (peer r', slots), mkState (<[id := r']> (runs s)) (next_run s) m (w_total w) (w_waiting w) (marks s) c)
  end.

Definition finish_if_done (id : Z) (s : State) : State :=
  match runs s !! id with
  | Some r => if (run_inflight r =? 0) && (bool_decide (queued r = []) || cut r) then set_runs s (delete id (runs s)) else s
  | None => s
  end.

(** * A completion *)

(** What passes between the fetcher, the dispatcher and the endpoint: the
    reservations that succeed, fetches and their completions, and what becomes of
    the slots. *)
Inductive act :=
| AReserve (key size ptr : Z)
| AFetch (p : list Z) (slots : slots_t) (ok : bool)
| ALanded (slots : slots_t)
| APublish (key size : Z) (ok : bool)
| ARelease (key : Z).

(** The outcomes of a fetch: of a failed one, or of an answer of the wrong length,
    nothing counts as landed. *)
Definition outcomes_of (slots : slots_t) (result : option (list EntryOutcome)) : list EntryOutcome :=
  match result with
  | Some o => if decide (length o = length slots) then o else replicate (length slots) OFailed
  | None => replicate (length slots) OFailed
  end.

(** One turn of the loop over the slots: a hit is published, the rest is released;
    [publish] is the answer of the dispatcher. The result says whether the slot was
    published. *)
Definition settle (publish : Z → bool) (key : Z) (slot : LocalSlot) (o : EntryOutcome) (c : FetchCounters) :
    list act * bool * FetchCounters :=
  if outcome_is_hit o && publish key then ([APublish key (slot_length slot) true], true, count_hit (slot_length slot) c)
  else ((if outcome_is_hit o then [APublish key (slot_length slot) false] else []) ++ [ARelease key], false, count_no_hit o c).

Definition sum_lengths (slots : slots_t) : Z := foldr Z.add 0 (slot_length ∘ snd <$> slots).

(** The critical section of [complete], with the runs to issue next. *)
Definition advance (now : Z) (id : Z) (slots : slots_t) (published : list Z) (cutting : bool) (s : State) : outcome (list Z * State) :=
  let b := sum_lengths slots in
  total ← sub_w (inflight_bytes s) b;
  let m := remove_keys slots.*1 (keys s) in
  let next := id :: waiting s in
  match runs s !! id with
  | None => Ret (next, mkState (runs s) (next_run s) m total [] (marks s) (counters s))
  | Some r =>
      n ← sub_w (run_inflight r) (Z.of_nat (length slots));
      rb ← sub_w (run_bytes r) b;
      let r := mkRun (peer r) (queued r) rb n (cut r) in
      let ms := foldl (λ ms k, <[k := (peer r, now)]> ms) (marks s) published in
      let '(m, r, c) := if cutting && negb (cut r) then drop_queued m (set_cut r) (counters s) else (m, r, counters s) in
      Ret (next, mkState (<[id := r]> (runs s)) (next_run s) m total [] ms c)
  end.

(** * Pending keys and marks *)

Definition pending (ks : list Z) (s : State) : gset Z := list_to_set (filter (λ k, is_Some (keys s !! k)) ks).

Definition fresh (lim : FetchLimits) (now at_ : Z) : bool := Z.max 0 (now - at_) <? mark_ttl lim.

Definition attribute (lim : FetchLimits) (now key : Z) (by_ : ServedBy) (s : State) : ServedBy * State :=
  if decide (by_ = Dram) then
    match marks s !! key with
    | Some (_, at_) =>
        let s := set_marks s (delete key (marks s)) in
        if fresh lim now at_ then (Fetched, set_counters s (count_marks 1 0 (counters s)))
        else (by_, set_counters s (count_marks 0 1 (counters s)))
    | None => (by_, s)
    end
  else (by_, s).

Definition evicted (key : Z) (s : State) : State :=
  match marks s !! key with
  | Some _ => set_counters (set_marks s (delete key (marks s))) (count_marks 0 1 (counters s))
  | None => s
  end.

Definition clear_marks (s : State) : Z * State :=
  let n := Z.of_nat (size (marks s)) in
  (n, set_counters (set_marks s ∅) (count_marks 0 n (counters s))).

Definition expire_marks (lim : FetchLimits) (now : Z) (s : State) : Z * State :=
  let ms := filter (λ kv, fresh lim now kv.2.2 = true) (marks s) in
  let n := Z.of_nat (size (marks s)) - Z.of_nat (size ms) in
  (n, set_counters (set_marks s ms) (count_marks 0 n (counters s))).

(** * The threads *)

(** What a thread has still to do, a critical section or an outside call each; the
    loop of [complete] takes a step per slot. *)
Inductive task :=
| TIssue (id : Z)
| TFetch (id : Z) (p : list Z) (slots : slots_t)
| TFinish (id : Z)
| TSettle (id : Z) (slots : slots_t) (todo : list (Z * LocalSlot * EntryOutcome)) (published : list Z) (cutting : bool)
| TAdvance (id : Z) (slots : slots_t) (published : list Z) (cutting : bool).

Definition complete (id : Z) (slots : slots_t) (result : option (list EntryOutcome)) : task :=
  TSettle id slots (zip slots (outcomes_of slots result)) [] false.

(** What the outside answers while a task runs. *)
Record Answers := mkAnswers {
  reserve : Z → option Z;
  accepts : bool;
  publish : Z → bool;
  now : Z
}.

Definition reserved_acts (slots : slots_t) : list act := (λ ks, AReserve ks.1 (slot_length ks.2) (addr ks.2)) <$> slots.

(** A task: the calls it makes, the tasks in its place, and the fetches that the
    endpoint has accepted. *)
Definition perform (lim : FetchLimits) (a : Answers) (t : task) (s : State) :
    outcome (list act * list task * list (Z * slots_t) * State) :=
  match t with
  | TIssue id =>
      '(x, s) ← issue lim (reserve a) id s;
      Ret match x with
          | None => ([], [], [], s)
          | Some (p, []) => ([], [TFinish id], [], s)
          | Some (p, slots) => (reserved_acts slots, [TFetch id p slots; TFinish id], [], s)
          end
  | TFetch id p slots =>
      Ret (if accepts a then ([AFetch p slots true], [], [(id, slots)], s)
           else ([AFetch p slots false], [complete id slots None], [], s))
  | TFinish id => Ret ([], [], [], finish_if_done id s)
  | TSettle id slots [] published cutting => Ret ([], [TAdvance id slots published cutting], [], s)
  | TSettle id slots ((key, slot, o) :: todo) published cutting =>
      let '(acts, ok, c) := settle (publish a) key slot o (counters s) in
      Ret (acts, [TSettle id slots todo (if ok then published ++ [key] else published) (cutting || negb ok)], [], set_counters s c)
  | TAdvance id slots published cutting =>
      '(next, s) ← advance (now a) id slots published cutting s;
      Ret ([], map TIssue next, [], s)
  end.

Record System := mkSystem {
  state : State;
  threads : list (list task);
  outstanding : list (Z * slots_t)
}.

Definition new : System := mkSystem default_state [] [].

(** [EStart] is a FETCH request, which goes on as a thread; [ERun] is the next step
    of a thread; [ECallback] is the completion of an accepted fetch, a thread of its
    own. The other events are the calls that concern marks. *)
Inductive event :=
| EStart (p : list Z) (ks : list (Z * Z)) (stores : gset Z) (check : Z → bool)
| ERun (t : nat) (a : Answers)
| ECallback (i : nat) (result : option (list EntryOutcome))
| EAttribute (key : Z) (by_ : ServedBy) (t : Z)
| EEvicted (key : Z)
| EClearMarks
| EExpireMarks (t : Z).

Inductive label :=
| LResponse (bs : list Z)
| LCalls (acts : list act)
| LServed (by_ : ServedBy)
| LCount (n : Z)
| LSilent.

(** A thread that has ended, or a fetch that is not outstanding, makes no step. *)
Definition step (lim : FetchLimits) (y : System) (e : event) : outcome (label * System) :=
  let s := state y in
  match e with
  | EStart p ks stores check =>
      '(resp, x, s) ← op_fetch lim p ks stores check s;
      Ret (LResponse resp, mkSystem s (threads y ++ match x with Some id => [[TIssue id]] | None => [] end) (outstanding y))
  | ERun i a =>
      match threads y !! i with
      | Some (t :: ts) =>
          '(acts, new, os, s) ← perform lim a t s;
          Ret (LCalls acts, mkSystem s (<[i := new ++ ts]> (threads y)) (outstanding y ++ os))
      | _ => Ret (LSilent, y)
      end
  | ECallback i result =>
      match outstanding y !! i with
      | Some (id, slots) =>
          Ret (LCalls [ALanded slots], mkSystem s (threads y ++ [[complete id slots result]]) (delete i (outstanding y)))
      | None => Ret (LSilent, y)
      end
  | EAttribute key by_ t => let '(x, s) := attribute lim t key by_ s in Ret (LServed x, mkSystem s (threads y) (outstanding y))
  | EEvicted key => Ret (LSilent, mkSystem (evicted key s) (threads y) (outstanding y))
  | EClearMarks => let '(n, s) := clear_marks s in Ret (LCount n, mkSystem s (threads y) (outstanding y))
  | EExpireMarks t => let '(n, s) := expire_marks lim t s in Ret (LCount n, mkSystem s (threads y) (outstanding y))
  end.

Fixpoint steps (lim : FetchLimits) (y : System) (es : list event) : outcome (list label * System) :=
  match es with
  | [] => Ret ([], y)
  | e :: es => '(l, y) ← step lim y e; '(ls, y) ← steps lim y es; Ret (l :: ls, y)
  end.

Definition acts_of (l : label) : list act := match l with LCalls acts => acts | _ => [] end.

(** * What the fetcher owes the dispatcher

    A slot is reserved, then the peer may write it, then it has landed; only then
    it is published or released, once. *)

Inductive phase := Reserved | Landing | Landed.

#[global] Instance phase_eq_dec : EqDecision phase.
Proof. solve_decision. Defined.

(** All [slots] are in phase [x] and go to phase [x']. *)
Definition move (x x' : phase) (slots : slots_t) (m : gmap Z phase) : option (gmap Z phase) :=
  if decide (Forall (λ k, m !! k = Some x) slots.*1) then Some (foldl (λ m k, <[k := x']> m) m slots.*1) else None.

Definition obey (m : gmap Z phase) (x : act) : option (gmap Z phase) :=
  match x with
  | AReserve k _ _ => if decide (m !! k = None) then Some (<[k := Reserved]> m) else None
  | AFetch _ slots true => move Reserved Landing slots m
  | AFetch _ slots false => move Reserved Landed slots m
  | ALanded slots => move Landing Landed slots m
  | APublish k _ ok =>
      if decide (m !! k = Some Landed) then Some (if ok : bool then delete k m else m) else None
  | ARelease k => if decide (m !! k = Some Landed) then Some (delete k m) else None
  end.

Fixpoint obeys (m : gmap Z phase) (acts : list act) : option (gmap Z phase) :=
  match acts with
  | [] => Some m
  | x :: acts => m ← obey m x; obeys m acts
  end.

(** * The invariant

    It is about the tasks of all threads [T] and the outstanding fetches [O], in any
    order: the slots in flight come in groups, one per fetch. *)

Definition task_groups (t : task) : list (Z * slots_t) :=
  match t with
  | TFetch id _ slots | TSettle id slots _ _ _ | TAdvance id slots _ _ => [(id, slots)]
  | TIssue _ | TFinish _ => []
  end.

Definition groups (T : list task) (O : list (Z * slots_t)) : list (Z * slots_t) := (T ≫= task_groups) ++ O.

Definition sum_groups (f : Z * slots_t → Z) (G : list (Z * slots_t)) : Z := foldr (λ g n, f g + n) 0 G.

Definition count_in (id : Z) (g : Z * slots_t) : Z := if g.1 =? id then Z.of_nat (length g.2) else 0.
Definition bytes_in (id : Z) (g : Z * slots_t) : Z := if g.1 =? id then sum_lengths g.2 else 0.
Definition bytes_of (g : Z * slots_t) : Z := sum_lengths g.2.

Definition own {A B} (x : B) (l : list (Z * A)) : list (Z * B) := (λ ks, (ks.1, x)) <$> l.
Definition queued_keys (rs : gmap Z Run) : list (Z * Z) := map_to_list rs ≫= λ ir, own ir.1 (queued ir.2).
Definition group_keys (G : list (Z * slots_t)) : list (Z * Z) := G ≫= λ g, own g.1 g.2.

(** The slots of a task that are settled and still held. *)
Definition advancing (t : task) : Z :=
  match t with
  | TSettle _ slots todo _ _ => Z.of_nat (length slots) - Z.of_nat (length todo)
  | TAdvance _ slots _ _ => Z.of_nat (length slots)
  | _ => 0
  end.
Definition sum_advancing (T : list task) : Z := foldr (λ t n, advancing t + n) 0 T.

(** What is left of the loop of [complete] is the end of its slots. *)
Definition todo_ok (t : task) : Prop := match t with TSettle _ slots todo _ _ => todo.*1 `suffix_of` slots | _ => True end.

(** All bytes in flight are those of one slot. *)
Definition lone_slot (total : Z) (G : list (Z * slots_t)) : Prop := ∃ g ks, g ∈ G ∧ ks ∈ g.2 ∧ slot_length ks.2 = total.

Record run_ok (lim : FetchLimits) (next : Z) (G : list (Z * slots_t)) (id : Z) (r : Run) : Prop := {
  r_inflight : run_inflight r = sum_groups (count_in id) G;
  r_bytes : run_bytes r = sum_groups (bytes_in id) G;
  r_bound : run_bytes r ≤ Z.max (window_bytes lim) u32_max;
  r_window : run_bytes r ≤ window_bytes lim ∨ run_inflight r = 1;
  r_cut : cut r = true → queued r = [];
  r_sizes : Forall (λ ks, is_u 32 ks.2) (queued r);
  r_id : id < next
}.

Definition live (T : list task) (s : State) (id : Z) (r : Run) : Prop :=
  0 < run_inflight r ∨ TIssue id ∈ T ∨ (queued r = [] ∧ TFinish id ∈ T) ∨ id ∈ waiting s.

Definition settled (c : FetchCounters) : Z := hits c + misses c + failed c + truncated c.

Record inv (lim : FetchLimits) (s : State) (T : list task) (O : list (Z * slots_t)) : Prop := {
  i_run id r : runs s !! id = Some r → run_ok lim (next_run s) (groups T O) id r;
  i_live id r : runs s !! id = Some r → live T s id r;
  i_group id slots : (id, slots) ∈ groups T O → is_Some (runs s !! id) ∧ slots ≠ [] ∧ Forall (λ ks, is_u 32 (slot_length ks.2)) slots;
  i_total : inflight_bytes s = sum_groups bytes_of (groups T O);
  i_bound : inflight_bytes s ≤ Z.max (inflight_limit lim) u32_max;
  i_cap : inflight_bytes s ≤ inflight_limit lim ∨ lone_slot (inflight_bytes s) (groups T O);
  i_waiting : waiting s ≠ [] → 0 < inflight_bytes s;
  i_keys : map_to_list (keys s) ≡ₚ queued_keys (runs s) ++ group_keys (groups T O);
  i_count : keys_started (counters s) = settled (counters s) + Z.of_nat (size (keys s)) - sum_advancing T;
  i_todo : Forall todo_ok T
}.

(** * Sums and lists of keys *)

#[global] Arguments sum_lengths : simpl never.

Lemma sum_lengths_cons k x slots : sum_lengths ((k, x) :: slots) = slot_length x + sum_lengths slots.
Proof. done. Qed.

Lemma sum_groups_app f G G' : sum_groups f (G ++ G') = sum_groups f G + sum_groups f G'.
Proof. unfold sum_groups. induction G as [|g G IH]; simpl; [done|]. rewrite IH. lia. Qed.

#[global] Instance sum_groups_perm f : Proper ((≡ₚ) ==> eq) (sum_groups f).
Proof. unfold sum_groups. induction 1; simpl; lia. Qed.

Lemma sum_groups_nonneg f G : (∀ g, g ∈ G → 0 ≤ f g) → 0 ≤ sum_groups f G.
Proof.
  induction G as [|g G IH]; simpl; [done|]. intros H. pose proof (H g ltac:(set_solver)).
  assert (0 ≤ sum_groups f G) by (apply IH; set_solver). lia.
Qed.

Lemma sum_groups_elem f g G : (∀ g, g ∈ G → 0 ≤ f g) → g ∈ G → f g ≤ sum_groups f G.
Proof.
  intros Hf (G1 & G2 & ->)%list_elem_of_split. rewrite sum_groups_app. simpl.
  assert (0 ≤ sum_groups f G1) by (apply sum_groups_nonneg; set_solver).
  assert (0 ≤ sum_groups f G2) by (apply sum_groups_nonneg; set_solver). lia.
Qed.

Lemma sum_advancing_app T T' : sum_advancing (T ++ T') = sum_advancing T + sum_advancing T'.
Proof. unfold sum_advancing. induction T as [|t T IH]; simpl; [done|]. rewrite IH. lia. Qed.

#[global] Instance sum_advancing_perm : Proper ((≡ₚ) ==> eq) sum_advancing.
Proof. unfold sum_advancing. induction 1; simpl; lia. Qed.

#[global] Instance groups_perm : Proper ((≡ₚ) ==> (≡ₚ) ==> (≡ₚ)) groups.
Proof. intros T T' HT O O' HO. unfold groups. by rewrite HT, HO. Qed.

#[global] Instance group_keys_perm : Proper ((≡ₚ) ==> (≡ₚ)) group_keys.
Proof. intros G G' H. unfold group_keys. by rewrite H. Qed.

#[global] Instance lone_slot_perm total : Proper ((≡ₚ) ==> iff) (lone_slot total).
Proof. intros G G' H. unfold lone_slot. by setoid_rewrite H. Qed.

Lemma lone_slot_mono total G G' : G ⊆ G' → lone_slot total G → lone_slot total G'.
Proof. intros H (g & ks & Hg & Hks & Ht). exists g, ks. auto. Qed.

Lemma inv_perm lim s T T' O O' : T ≡ₚ T' → O ≡ₚ O' → inv lim s T O → inv lim s T' O'.
Proof.
  intros HT HO I. pose proof (groups_perm _ _ HT _ _ HO) as HG. split; try apply I.
  - intros id r E. destruct (i_run _ _ _ _ I id r E). split; try done; by rewrite <- HG.
  - intros id r E. pose proof (i_live _ _ _ _ I id r E) as L. unfold live in *. by rewrite <- HT.
  - intros id sl. rewrite <- HG. apply I.
  - rewrite <- HG. apply I.
  - rewrite <- HG. apply I.
  - rewrite <- HG. apply I.
  - rewrite <- HT. apply I.
  - rewrite <- HT. apply I.
Qed.

Lemma queued_keys_lookup rs id r : rs !! id = Some r → queued_keys rs ≡ₚ own id (queued r) ++ queued_keys (delete id rs).
Proof. intros E. unfold queued_keys. by rewrite <- (map_to_list_delete _ _ _ E). Qed.

Lemma queued_keys_fresh rs id r : rs !! id = None → queued_keys (<[id := r]> rs) ≡ₚ own id (queued r) ++ queued_keys rs.
Proof. intros E. unfold queued_keys. by rewrite (map_to_list_insert _ _ _ E). Qed.

Lemma queued_keys_update rs id r : queued_keys (<[id := r]> rs) ≡ₚ own id (queued r) ++ queued_keys (delete id rs).
Proof. rewrite <- insert_delete_eq. apply queued_keys_fresh. apply lookup_delete_eq. Qed.

Lemma remove_keys_perm {V} (l : list (Z * V)) (m : gmap Z V) rest :
  map_to_list m ≡ₚ l ++ rest → map_to_list (foldl (λ m k, delete k m) m l.*1) ≡ₚ rest.
Proof.
  revert m. induction l as [|[k v] l IH]; simpl; intros m H; [done|]. apply IH.
  assert (m !! k = Some v) as E by (apply elem_of_map_to_list; rewrite H; set_solver).
  rewrite <- (map_to_list_delete _ _ _ E) in H. by apply Permutation_cons_inv in H.
Qed.

Lemma own_fst {A B} (id : B) (l : list (Z * A)) : (own id l).*1 = l.*1.
Proof. unfold own. rewrite <- list_fmap_compose. done. Qed.

Lemma length_own {A B} (id : B) (l : list (Z * A)) : length (own id l) = length l.
Proof. apply length_fmap. Qed.

Lemma size_perm {V} (m : gmap Z V) l : map_to_list m ≡ₚ l → size m = length l.
Proof. intros H. by rewrite <- length_map_to_list, H. Qed.

Lemma claim_keys_spec id ks m q m' : claim_keys id ks m = (q, m') →
  map_to_list m' ≡ₚ own id q ++ map_to_list m ∧ ∃ ks', ks = q ++ ks'.
Proof.
  revert m q m'. induction ks as [|[k z] ks IH]; simpl; intros m q m' H; [simplify_eq/=; eauto|].
  destruct (m !! k) eqn:E; [simplify_eq/=; eauto|].
  destruct (claim_keys id ks _) as [q1 m1] eqn:E1. simplify_eq. destruct (IH _ _ _ E1) as (Hp & ks' & ->).
  split; [|by exists ks']. rewrite Hp, (map_to_list_insert _ _ _ E). simpl. by rewrite Permutation_middle.
Qed.

Lemma candidates_prefix stores check ks : ∃ ks', ks = candidates stores check ks ++ ks'.
Proof.
  induction ks as [|[k z] ks [ks' IH]]; simpl; [by exists []|]. case_decide; [eauto|]. destruct (check k); [eauto|].
  exists ks'. simpl. by rewrite <- IH.
Qed.

(** * The window *)

Definition limits_ok (lim : FetchLimits) : Prop := 0 ≤ window_bytes lim < 2 ^ 63 ∧ 0 ≤ inflight_limit lim < 2 ^ 63.

Definition asked (slots : slots_t) : list (Z * Z) := (λ ks, (ks.1, slot_length ks.2)) <$> slots.

Record filled (lim : FetchLimits) (id : Z) (w w' : Window) (slots : slots_t) : Prop := {
  f_peer : peer (w_run w') = peer (w_run w);
  f_queue : queued (w_run w) = asked slots ++ queued (w_run w');
  f_inflight : run_inflight (w_run w') = run_inflight (w_run w) + Z.of_nat (length slots);
  f_bytes : run_bytes (w_run w') = run_bytes (w_run w) + sum_lengths slots;
  f_total : w_total w' = w_total w + sum_lengths slots;
  f_bound : run_bytes (w_run w') ≤ Z.max (window_bytes lim) u32_max;
  f_window : run_bytes (w_run w') ≤ window_bytes lim ∨ run_inflight (w_run w') = 1;
  f_limit : w_total w' ≤ Z.max (inflight_limit lim) u32_max;
  f_cap : w_total w' = w_total w ∨ w_total w' ≤ inflight_limit lim ∨ ∃ ks, ks ∈ slots ∧ slot_length ks.2 = w_total w';
  f_more : cut (w_run w') = true ∨ queued (w_run w') = [] ∨ 0 < run_inflight (w_run w') ∨ id ∈ w_waiting w';
  f_wait : w_waiting w' = w_waiting w ∨ (w_waiting w' = w_waiting w ++ [id] ∧ 0 < w_total w')
}.

Lemma filled_stop lim id w : run_bytes (w_run w) ≤ Z.max (window_bytes lim) u32_max →
  run_bytes (w_run w) ≤ window_bytes lim ∨ run_inflight (w_run w) = 1 →
  w_total w ≤ Z.max (inflight_limit lim) u32_max →
  (cut (w_run w) = true ∨ queued (w_run w) = [] ∨ 0 < run_inflight (w_run w) ∨ id ∈ w_waiting w) → filled lim id w w [].
Proof. intros H1 H1' H2 H3. split; unfold sum_lengths; simpl; try done; try lia; by left. Qed.

Section with_limits.
Context (lim : FetchLimits) (HL : limits_ok lim).

Lemma filled_step id w w' k ptr z q slots : queued (w_run w) = (k, z) :: q →
  w_total w + z ≤ inflight_limit lim ∨ w_total w = 0 →
  filled lim id (mkWindow (mkRun (peer (w_run w)) q (run_bytes (w_run w) + z) (run_inflight (w_run w) + 1) (cut (w_run w)))
    (w_total w + z) (w_waiting w) (w_waits w)) w' slots → filled lim id w w' ((k, mkSlot ptr z) :: slots).
Proof.
  intros Hq Hc F. destruct F as [F1 F2 F3 F4 F5 F6 F7 F8 F9 F10 F11]. simpl in *. split; try done; rewrite ?sum_lengths_cons; simpl; try lia.
  - by rewrite Hq, F2.
  - right. destruct F9 as [F9|[F9|(ks & Hks & F9)]]; [|by left|right; exists ks; split; [by right|done]].
    destruct Hc as [Hc|Hc]; [left; lia|]. right. eexists. split; [by left|]. simpl. lia.
Qed.

Lemma fill_reserve res id k z q w :
  (∀ w, queued (w_run w) = q → Forall (λ ks, is_u 32 ks.2) q →
    0 < run_inflight (w_run w) → 0 ≤ run_bytes (w_run w) → 0 ≤ w_total w →
    run_bytes (w_run w) ≤ Z.max (window_bytes lim) u32_max → run_bytes (w_run w) ≤ window_bytes lim ∨ run_inflight (w_run w) = 1 →
    w_total w ≤ Z.max (inflight_limit lim) u32_max → ∃ w' slots, fill lim res id q w = Ret (w', slots) ∧ filled lim id w w' slots) →
  queued (w_run w) = (k, z) :: q → Forall (λ ks, is_u 32 ks.2) ((k, z) :: q) →
  0 ≤ run_inflight (w_run w) → 0 ≤ run_bytes (w_run w) → 0 ≤ w_total w →
  run_bytes (w_run w) + z ≤ window_bytes lim ∨ run_inflight (w_run w) = 0 ∧ run_bytes (w_run w) = 0 →
  w_total w + z ≤ inflight_limit lim ∨ w_total w = 0 →
  run_bytes (w_run w) ≤ window_bytes lim ∨ run_inflight (w_run w) = 1 → w_total w ≤ Z.max (inflight_limit lim) u32_max →
  ∃ w' slots, match res k with
    | None => Ret (mkWindow (set_cut (w_run w)) (w_total w) (w_waiting w) (w_waits w), [])
    | Some ptr =>
        b ← add_w 64 (run_bytes (w_run w)) z;
        t ← add_w 64 (w_total w) z;
        '(w, slots) ← fill lim res id q (mkWindow (mkRun (peer (w_run w)) q b (run_inflight (w_run w) + 1) (cut (w_run w))) t (w_waiting w) (w_waits w));
        Ret (w, (k, mkSlot ptr z) :: slots)
    end = Ret (w', slots) ∧ filled lim id w w' slots.
Proof.
  intros IH Hq Hz Hi Hb Ht Hw Hc Hs Hm. destruct HL as [L1 L2]. assert (u32_max = 2 ^ 32 - 1) as U by done.
  apply Forall_cons in Hz as [Hz Hzs]. unfold is_u in Hz. simpl in Hz. destruct (res k) as [ptr|].
  - rewrite !add_w_Ret by lia. simpl.
    destruct (IH (mkWindow (mkRun (peer (w_run w)) q (run_bytes (w_run w) + z) (run_inflight (w_run w) + 1) (cut (w_run w)))
      (w_total w + z) (w_waiting w) (w_waits w))) as (w' & slots & -> & F); simpl; try done; try lia.
    simpl. eexists _, _. split; [done|]. by eapply filled_step.
  - eexists _, _. split; [done|]. split; simpl; unfold sum_lengths; simpl; try done; try lia; by left.
Qed.

Lemma fill_spec res id q w : queued (w_run w) = q → Forall (λ ks, is_u 32 ks.2) q →
  0 ≤ run_inflight (w_run w) → 0 ≤ run_bytes (w_run w) → 0 ≤ w_total w → (run_inflight (w_run w) = 0 → run_bytes (w_run w) = 0) →
  run_bytes (w_run w) ≤ Z.max (window_bytes lim) u32_max → run_bytes (w_run w) ≤ window_bytes lim ∨ run_inflight (w_run w) = 1 →
  w_total w ≤ Z.max (inflight_limit lim) u32_max → ∃ w' slots, fill lim res id q w = Ret (w', slots) ∧ filled lim id w w' slots.
Proof.
  assert (u32_max = 2 ^ 32 - 1) as U by done. pose proof HL as [L1 L2].
  revert w. induction q as [|[k z] q IH]; intros w Hq Hzs Hi Hb Ht H0 Hw Hs Hc; simpl.
  { eexists _, _. split; [done|]. apply filled_stop; [done..|]. by right; left. }
  pose proof (Forall_inv Hzs) as Hz. unfold is_u in Hz. simpl in Hz.
  destruct (cut (w_run w)) eqn:Ec. { eexists _, _. split; [done|]. apply filled_stop; [done..|]. by left. }
  assert (∃ b, (if run_inflight (w_run w) =? 0 then Ret true else x ← add_w 64 (run_bytes (w_run w)) z; Ret (x <=? window_bytes lim)) = Ret b ∧
    (b = false → 0 < run_inflight (w_run w)) ∧ (b = true → run_bytes (w_run w) + z ≤ window_bytes lim ∨ run_inflight (w_run w) = 0 ∧ run_bytes (w_run w) = 0)) as (b & -> & B1 & B2).
  { destruct (Z.eqb_spec (run_inflight (w_run w)) 0) as [E0|E0]; [exists true; split_and!; [done..|auto]|].
    rewrite add_w_Ret by lia. eexists. split; [done|]. split; [lia|]. intros Hle%Z.leb_le. lia. }
  simpl. destruct b; simpl; [|eexists _, _; split; [done|]; apply filled_stop; [done..|]; right; right; left; by apply B1].
  assert (∃ b, (if 0 <? w_total w then x ← add_w 64 (w_total w) z; Ret (inflight_limit lim <? x) else Ret false) = Ret b ∧
    (b = true → 0 < w_total w) ∧ (b = false → w_total w + z ≤ inflight_limit lim ∨ w_total w = 0)) as (b & -> & C1 & C2).
  { destruct (Z.ltb_spec 0 (w_total w)) as [E0|E0]; [|exists false; split_and!; [done..|lia]].
    rewrite add_w_Ret by lia. eexists. split; [done|]. split; [done|]. intros Hle%Z.ltb_ge. lia. }
  simpl. destruct b.
  - specialize (C1 eq_refl). case_bool_decide as Hin; simpl.
    + rewrite andb_false_r. eexists _, _. split; [done|]. apply filled_stop; [done..|]. by right; right; right.
    + rewrite andb_true_r. destruct (Z.eqb_spec (run_inflight (w_run w)) 0).
      * eexists _, _. split; [done|]. split; simpl; unfold sum_lengths; simpl; try done; try lia; [|by right].
        right; right; right. set_solver.
      * eexists _, _. split; [done|]. apply filled_stop; [done..|]. right; right; left. lia.
  - rewrite <- Ec. apply fill_reserve; try done; [|by apply B2|by apply C2].
    intros w1 Q1 Z1 I1 Y1 T1 W1 S1 K1. apply IH; try done; lia.
Qed.

(** * Every task keeps the invariant *)

Lemma count_nonneg id G : 0 ≤ sum_groups (count_in id) G.
Proof. apply sum_groups_nonneg. intros [i sl] _. unfold count_in. simpl. destruct (i =? id); lia. Qed.

Lemma sum_lengths_nonneg slots : Forall (λ ks, is_u 32 (slot_length ks.2)) slots → 0 ≤ sum_lengths slots.
Proof.
  induction 1 as [|[k x] slots Hx _ IH]; [done|]. rewrite sum_lengths_cons. unfold is_u in Hx. simpl in Hx. lia.
Qed.

Lemma sum_lengths_elem slots ks : Forall (λ ks, is_u 32 (slot_length ks.2)) slots → ks ∈ slots → slot_length ks.2 ≤ sum_lengths slots.
Proof.
  induction 1 as [|[k x] slots Hx Hs IH]; [by intros ?%elem_of_nil|]. rewrite sum_lengths_cons. unfold is_u in Hx. simpl in Hx.
  pose proof (sum_lengths_nonneg _ Hs). intros [->|Hin]%elem_of_cons; simpl; [lia|]. specialize (IH Hin). lia.
Qed.

Lemma bytes_nonneg s T O f : inv lim s T O → (∀ g, f g = 0 ∨ f g = bytes_of g) → 0 ≤ sum_groups f (groups T O).
Proof.
  intros I Hf. apply sum_groups_nonneg. intros [i sl] Hin. destruct (Hf (i, sl)) as [->| ->]; [lia|].
  apply sum_lengths_nonneg. by apply (i_group _ _ _ _ I) in Hin as (_ & _ & ?).
Qed.

Lemma bytes_in_cases id g : bytes_in id g = 0 ∨ bytes_in id g = bytes_of g.
Proof. unfold bytes_in. destruct (_ =? _); auto. Qed.

Lemma count_zero_bytes id G : (∀ g, g ∈ G → g.2 ≠ []) → sum_groups (count_in id) G = 0 → sum_groups (bytes_in id) G = 0.
Proof.
  induction G as [|[i sl] G IH]; simpl; intros Hg H; [done|]. pose proof (count_nonneg id G).
  assert (sl ≠ []) by (apply (Hg (i, sl)); set_solver). unfold count_in, bytes_in in *. simpl in *.
  destruct (i =? id); [destruct sl; simpl in *; [done|lia]|]. rewrite IH; [lia|set_solver|lia].
Qed.

Record run_facts (s : State) (r : Run) : Prop := {
  n_inflight : 0 ≤ run_inflight r;
  n_bytes : 0 ≤ run_bytes r;
  n_total : 0 ≤ inflight_bytes s;
  n_zero : run_inflight r = 0 → run_bytes r = 0
}.

Lemma inv_run_facts s T O id r : inv lim s T O → runs s !! id = Some r → run_facts s r.
Proof.
  intros I E. pose proof (i_run _ _ _ _ I id r E) as R. split.
  - rewrite (r_inflight _ _ _ _ _ R). apply count_nonneg.
  - rewrite (r_bytes _ _ _ _ _ R). eapply bytes_nonneg; [done|]. apply bytes_in_cases.
  - rewrite (i_total _ _ _ _ I). eapply bytes_nonneg; [done|]. auto.
  - rewrite (r_inflight _ _ _ _ _ R), (r_bytes _ _ _ _ _ R). apply count_zero_bytes.
    intros [i sl] Hin. by apply (i_group _ _ _ _ I) in Hin as (_ & ? & _).
Qed.

(** What [issue] does to run [id], found as [r]. *)
Record issued (id : Z) (s : State) (r : Run) (slots : slots_t) (s' : State) (r' : Run) : Prop := {
  u_runs : runs s' = <[id := r']> (runs s);
  u_next : next_run s' = next_run s;
  u_marks : marks s' = marks s;
  u_inflight : run_inflight r' = run_inflight r + Z.of_nat (length slots);
  u_bytes : run_bytes r' = run_bytes r + sum_lengths slots;
  u_total : inflight_bytes s' = inflight_bytes s + sum_lengths slots;
  u_bound : run_bytes r' ≤ Z.max (window_bytes lim) u32_max;
  u_window : run_bytes r' ≤ window_bytes lim ∨ run_inflight r' = 1;
  u_limit : inflight_bytes s' ≤ Z.max (inflight_limit lim) u32_max;
  u_cap : inflight_bytes s' = inflight_bytes s ∨ inflight_bytes s' ≤ inflight_limit lim ∨ lone_slot (inflight_bytes s') [(id, slots)];
  u_queue : queued r = asked slots ++ queued r' ∨ queued r' = [] ∧ ∃ q, queued r = asked slots ++ q;
  u_cut : cut r' = true → queued r' = [];
  u_more : queued r' = [] ∨ 0 < run_inflight r' ∨ id ∈ waiting s';
  u_wait : waiting s' = waiting s ∨ (waiting s' = waiting s ++ [id] ∧ 0 < inflight_bytes s');
  u_keys rest : map_to_list (keys s) ≡ₚ own id (queued r) ++ rest → map_to_list (keys s') ≡ₚ own id (queued r') ++ own id slots ++ rest;
  u_started : keys_started (counters s') = keys_started (counters s);
  u_settled : settled (counters s') = settled (counters s) + Z.of_nat (length (queued r)) - Z.of_nat (length slots) - Z.of_nat (length (queued r'))
}.

Lemma own_asked (id : Z) slots : own id (asked slots) = own id slots.
Proof. unfold own, asked. rewrite <- list_fmap_compose. done. Qed.

Lemma issue_spec s T O res id r : inv lim s T O → runs s !! id = Some r →
  ∃ slots s' r', issue lim res id s = Ret (Some (peer r, slots), s') ∧ issued id s r slots s' r'.
Proof.
  intros I E. pose proof (i_run _ _ _ _ I id r E) as R. destruct (inv_run_facts _ _ _ _ _ I E) as [N1 N2 N3 N4].
  unfold issue. rewrite E. destruct (fill_spec res id (queued r) (mkWindow r (inflight_bytes s) (waiting s) 0)) as (w & slots & -> & F);
    simpl; try done; try apply R; try apply I.
  destruct F as [F1 F2 F3 F4 F5 F6 F7 F8 F9 F10 F11]. simpl in *.
  assert (w_total w = inflight_bytes s ∨ w_total w ≤ inflight_limit lim ∨ lone_slot (w_total w) [(id, slots)]) as F9'.
  { destruct F9 as [?|[?|(ks & ? & ?)]]; [by left|by right; left|]. right; right. exists (id, slots), ks. split; [by left|done]. }
  assert (length (queued r) = length slots + length (queued (w_run w)))%nat as HQ.
  { rewrite F2, length_app. unfold asked. by rewrite length_fmap. }
  destruct (cut (w_run w) && negb (bool_decide (queued (w_run w) = []))) eqn:Ec; simpl.
  - apply andb_true_iff in Ec as [Ec Eq]. exists slots. eexists _, _. split; [by rewrite F1|]. split; simpl; try done.
    + right. eauto.
    + by left.
    + intros rest Hp. unfold remove_keys. rewrite <- (own_fst id). apply remove_keys_perm.
      rewrite Hp, F2. unfold own at 1. rewrite fmap_app. fold (own id (asked slots)) (own id (queued (w_run w))).
      rewrite own_asked. by rewrite (Permutation_app_comm (own id slots)), <- app_assoc.
    + unfold settled. simpl. lia.
  - exists slots. eexists _, _. split; [by rewrite F1|]. split; simpl; try done; try (unfold settled; simpl; lia).
    + by left.
    + intros Ec'. rewrite Ec' in Ec. simpl in Ec. case_bool_decide; done.
    + destruct F10 as [F10|F10]; [|done]. left. rewrite F10 in Ec. simpl in Ec. case_bool_decide; done.
    + intros rest Hp. rewrite Hp, F2. unfold own at 1. rewrite fmap_app. fold (own id (asked slots)) (own id (queued (w_run w))).
      rewrite own_asked. by rewrite (Permutation_app_comm (own id slots)), <- app_assoc.
Qed.

Lemma inv_regroup s T T' O O' ms c : groups T O ≡ₚ groups T' O' →
  (∀ id, TIssue id ∈ T → TIssue id ∈ T') → (∀ id, TFinish id ∈ T → TFinish id ∈ T') →
  keys_started c = keys_started (counters s) → settled c - sum_advancing T' = settled (counters s) - sum_advancing T →
  (Forall todo_ok T → Forall todo_ok T') → inv lim s T O → inv lim (mkState (runs s) (next_run s) (keys s) (inflight_bytes s) (waiting s) ms c) T' O'.
Proof.
  intros HG HI HF Hk Hs Ht I. split; simpl; try apply I.
  - intros id r E. destruct (i_run _ _ _ _ I id r E). split; try done; by rewrite <- HG.
  - intros id r E. destruct (i_live _ _ _ _ I id r E) as [L|[L|[[L1 L2]|L]]]; unfold live; eauto 6.
  - intros id sl. rewrite <- HG. apply I.
  - rewrite <- HG. apply I.
  - rewrite <- HG. apply I.
  - rewrite <- HG. apply I.
  - rewrite Hk, (i_count _ _ _ _ I). lia.
  - apply Ht, I.
Qed.

(** A run takes a group of slots, or one without slots takes none. *)
Definition with_group (id : Z) (slots : slots_t) (G : list (Z * slots_t)) : list (Z * slots_t) :=
  match slots with [] => G | _ => (id, slots) :: G end.

Lemma sum_with_group f id slots G : f (id, []) = 0 → sum_groups f (with_group id slots G) = f (id, slots) + sum_groups f G.
Proof. intros H. destruct slots; simpl; lia. Qed.

Lemma group_keys_with id slots G : group_keys (with_group id slots G) = own id slots ++ group_keys G.
Proof. by destruct slots. Qed.

Lemma in_same f id id' slots : (f = count_in ∨ f = bytes_in) → id ≠ id' → f id' (id, slots) = 0.
Proof. intros [->| ->] Hne; unfold count_in, bytes_in; simpl; by rewrite (proj2 (Z.eqb_neq _ _)). Qed.

Lemma run_ok_other n G id id' slots r : id' ≠ id → run_ok lim n G id r → run_ok lim n ((id', slots) :: G) id r.
Proof.
  intros Hne R. destruct R as [R1 R2 R3 R3' R4 R5 R6]. split; try done; simpl.
  - rewrite (in_same count_in) by auto. lia.
  - rewrite (in_same bytes_in) by auto. lia.
Qed.

Lemma run_ok_with n G id id' slots r : id' ≠ id → run_ok lim n G id r → run_ok lim n (with_group id' slots G) id r.
Proof. intros Hne R. destruct slots; [done|]. by apply run_ok_other. Qed.

Lemma asked_sizes slots : Forall (λ ks, is_u 32 ks.2) (asked slots) ↔ Forall (λ ks, is_u 32 (slot_length ks.2)) slots.
Proof. unfold asked. by rewrite Forall_fmap. Qed.

Lemma issued_sizes id s r slots s' r' : issued id s r slots s' r' → Forall (λ ks, is_u 32 ks.2) (queued r) →
  Forall (λ ks, is_u 32 (slot_length ks.2)) slots ∧ Forall (λ ks, is_u 32 ks.2) (queued r').
Proof.
  intros U Z. destruct (u_queue _ _ _ _ _ _ U) as [E|[-> [q E]]]; rewrite E, Forall_app, asked_sizes in Z; destruct Z; by split.
Qed.

Lemma issue_inv s T T' O id r slots s' r' : inv lim s (TIssue id :: T) O → runs s !! id = Some r → issued id s r slots s' r' →
  groups T' O = with_group id slots (groups T O) → (∀ id, TIssue id ∈ T → TIssue id ∈ T') → (∀ id, TFinish id ∈ T → TFinish id ∈ T') →
  TFinish id ∈ T' → sum_advancing T' = sum_advancing T → (Forall todo_ok T → Forall todo_ok T') → inv lim s' T' O.
Proof.
  intros I E U HG HI HF Hf Ha Ht. pose proof (i_run _ _ _ _ I id r E) as R. pose proof (inv_run_facts _ _ _ _ _ I E) as N.
  destruct (issued_sizes _ _ _ _ _ _ U (r_sizes _ _ _ _ _ R)) as [Z1 Z2].
  change (groups (TIssue id :: T) O) with (groups T O) in *. destruct U as [U1 U2 U3 U4 U5 U6 U7 U7' U8 U8' U9 U10 U11 U12 U13 U14 U15].
  split; rewrite ?HG.
  - intros i x. rewrite U1, U2. intros [[<- <-]|[Hne E']]%lookup_insert_Some.
    + split; try done; [| |apply R].
      * rewrite sum_with_group by (unfold count_in; simpl; by destruct (_ =? _)).
        unfold count_in at 1. simpl. rewrite Z.eqb_refl, U4, (r_inflight _ _ _ _ _ R). change (groups (TIssue id :: T) O) with (groups T O). lia.
      * rewrite sum_with_group by (unfold bytes_in; simpl; by destruct (_ =? _)).
        unfold bytes_in at 1. simpl. rewrite Z.eqb_refl, U5, (r_bytes _ _ _ _ _ R). change (groups (TIssue id :: T) O) with (groups T O). lia.
    + apply run_ok_with; [done|]. by apply (i_run _ _ _ _ I).
  - intros i x. rewrite U1. intros [[<- <-]|[Hne E']]%lookup_insert_Some; unfold live.
    + destruct U11 as [?|[?|?]]; auto.
    + destruct (i_live _ _ _ _ I i x E') as [L|[L|[[L1 L2]|L]]]; [by left|..].
      * apply elem_of_cons in L as [[=]|L]; [done|]. auto.
      * apply elem_of_cons in L2 as [[=]|L2]. auto 6.
      * destruct U12 as [->|[-> _]]; set_solver.
  - intros i sl Hin. assert ((i, sl) = (id, slots) ∧ slots ≠ [] ∨ (i, sl) ∈ groups T O) as [[[= -> ->] Hsl]|Hin'].
    { destruct slots; [by right|]. simpl in Hin. apply elem_of_cons in Hin as [?|?]; auto. }
    + rewrite U1, lookup_insert_eq. by split_and!.
    + destruct (i_group _ _ _ _ I i sl Hin') as (Hr & ? & ?). split_and!; try done. rewrite U1. by apply lookup_insert_is_Some'; right.
  - rewrite sum_with_group by done. rewrite U6, (i_total _ _ _ _ I). unfold bytes_of at 2. simpl.
    change (groups (TIssue id :: T) O) with (groups T O). lia.
  - done.
  - assert (groups T O ⊆ with_group id slots (groups T O)) as Hsub by (destruct slots; set_solver).
    destruct U8' as [U8'|[U8'|Hl]]; [rewrite U8'|by left|right].
    + destruct (i_cap _ _ _ _ I) as [?|Hl]; [by left|right]. by eapply lone_slot_mono.
    + eapply lone_slot_mono; [|done]. destruct Hl as (g & ks & ->%list_elem_of_singleton & Hks & _). destruct slots; [by apply elem_of_nil in Hks|set_solver].
  - destruct U12 as [->|[-> ?]]; [|done]. intros Hw%(i_waiting _ _ _ _ I). pose proof (sum_lengths_nonneg _ Z1). lia.
  - rewrite group_keys_with, U1, queued_keys_update, <- app_assoc. rewrite (Permutation_app_comm (queued_keys _)), <- app_assoc.
    apply U13. rewrite (i_keys _ _ _ _ I), (queued_keys_lookup _ _ _ E), <- app_assoc.
    by rewrite (Permutation_app_comm (queued_keys _)).
  - rewrite U14, U15, (i_count _ _ _ _ I), Ha. pose proof (i_keys _ _ _ _ I) as K. rewrite (queued_keys_lookup _ _ _ E), <- app_assoc in K.
    rewrite (size_perm _ _ K), (size_perm _ _ (U13 _ K)), !length_app, !length_own. simpl. lia.
  - apply Ht. by apply (Forall_inv_tail (i_todo _ _ _ _ I)).
Qed.


Lemma count_elem id slots G : (id, slots) ∈ G → Z.of_nat (length slots) ≤ sum_groups (count_in id) G.
Proof.
  intros H. replace (Z.of_nat (length slots)) with (count_in id (id, slots)) by (unfold count_in; simpl; by rewrite Z.eqb_refl).
  apply sum_groups_elem; [|done]. intros [i sl] _. unfold count_in. simpl. destruct (i =? id); lia.
Qed.

Lemma finish_inv s T O id : inv lim s (TFinish id :: T) O → inv lim (finish_if_done id s) T O.
Proof.
  intros I. assert ((run_inflight <$> runs s !! id) ≠ Some 0 ∨ (queued <$> runs s !! id) ≠ Some [] → inv lim s T O) as Hkeep.
  { intros Hn. split; try apply I; [|by apply (Forall_inv_tail (i_todo _ _ _ _ I))]. intros i x E. destruct (i_live _ _ _ _ I i x E) as [L|[L|[[L1 L2]|L]]]; unfold live; [auto|..|auto].
    - apply elem_of_cons in L as [[=]|L]. auto.
    - apply elem_of_cons in L2 as [[= ->]|L2]; [|auto 6]. left. rewrite E in Hn. simpl in Hn. pose proof (inv_run_facts _ _ _ _ _ I E) as [].
      destruct Hn as [Hn|Hn]; [|by rewrite L1 in Hn]. destruct (decide (run_inflight x = 0)); [congruence|lia]. }
  unfold finish_if_done. destruct (runs s !! id) as [r|] eqn:E; [|apply Hkeep; by left]. simpl in Hkeep.
  pose proof (i_run _ _ _ _ I id r E) as R. destruct (Z.eqb_spec (run_inflight r) 0) as [E0|E0]; simpl; [|apply Hkeep; left; congruence].
  destruct (decide (queued r = [])) as [Eq|Eq].
  2: { rewrite bool_decide_false by done. simpl. destruct (cut r) eqn:Ec; [by destruct Eq; apply R|]. apply Hkeep. right. congruence. }
  rewrite bool_decide_true by done. simpl. pose proof (i_keys _ _ _ _ I) as K. rewrite (queued_keys_lookup _ _ _ E), Eq in K. simpl in K.
  split; simpl; try apply I; try done.
  - intros i x [Hne E']%lookup_delete_Some. by apply I.
  - intros i x [Hne E']%lookup_delete_Some. destruct (i_live _ _ _ _ I i x E') as [L|[L|[[L1 L2]|L]]]; unfold live; [auto|..|auto].
    + apply elem_of_cons in L as [[=]|L]. auto.
    + apply elem_of_cons in L2 as [[= ->]|L2]; [done|auto 6].
  - intros i sl Hin. destruct (i_group _ _ _ _ I i sl Hin) as (Hr & Hsl & ?). split_and!; [|done..].
    rewrite lookup_delete_ne; [done|]. intros <-. apply count_elem in Hin. pose proof (r_inflight _ _ _ _ _ R) as R1.
    change (groups (TFinish id :: T) O) with (groups T O) in *. destruct sl; [done|]. simpl in Hin. lia.
  - by apply (Forall_inv_tail (i_todo _ _ _ _ I)).
Qed.

(** What [advance] does to run [id], found as [r]. *)
Record advanced (id : Z) (s : State) (r : Run) (slots : slots_t) (s' : State) (r' : Run) : Prop := {
  v_runs : runs s' = <[id := r']> (runs s);
  v_next : next_run s' = next_run s;
  v_inflight : run_inflight r' = run_inflight r - Z.of_nat (length slots);
  v_bytes : run_bytes r' = run_bytes r - sum_lengths slots;
  v_total : inflight_bytes s' = inflight_bytes s - sum_lengths slots;
  v_queue : queued r' = queued r ∧ cut r' = cut r ∨ queued r' = [];
  v_wait : waiting s' = [];
  v_keys rest : map_to_list (keys s) ≡ₚ own id (queued r) ++ own id slots ++ rest → map_to_list (keys s') ≡ₚ own id (queued r') ++ rest;
  v_started : keys_started (counters s') = keys_started (counters s);
  v_settled : settled (counters s') = settled (counters s) + Z.of_nat (length (queued r)) - Z.of_nat (length (queued r'))
}.

Lemma advance_spec s t id slots published cutting r : runs s !! id = Some r → sum_lengths slots ≤ inflight_bytes s →
  sum_lengths slots ≤ run_bytes r → Z.of_nat (length slots) ≤ run_inflight r →
  ∃ s' r', advance t id slots published cutting s = Ret (id :: waiting s, s') ∧ advanced id s r slots s' r'.
Proof.
  intros E H1 H2 H3. unfold advance. rewrite sub_w_Ret by done. simpl. rewrite E, !sub_w_Ret by done. simpl.
  assert (∀ (q : list (Z * Z)) rest, map_to_list (keys s) ≡ₚ own id q ++ own id slots ++ rest →
    map_to_list (remove_keys slots.*1 (keys s)) ≡ₚ own id q ++ rest) as HK.
  { intros q rest Hp. unfold remove_keys. rewrite <- (own_fst id). apply remove_keys_perm. rewrite Hp, !app_assoc.
    by rewrite (Permutation_app_comm (own id q)). }
  destruct (cutting && negb (cut r)) eqn:Ec; simpl.
  - eexists _, _. split; [done|]. split; simpl; try done; [by right|..].
    + intros rest Hp%HK%remove_keys_perm. by rewrite own_fst in Hp.
    + unfold settled. simpl. lia.
  - eexists _, _. split; [done|]. split; simpl; try done; [by left|by apply HK|unfold settled; simpl; lia].
Qed.

Lemma advance_keys s T O id slots published cutting r : inv lim s (TAdvance id slots published cutting :: T) O → runs s !! id = Some r →
  map_to_list (keys s) ≡ₚ own id (queued r) ++ own id slots ++ queued_keys (delete id (runs s)) ++ group_keys (groups T O).
Proof.
  intros I E. rewrite (i_keys _ _ _ _ I), (queued_keys_lookup _ _ _ E), <- app_assoc. apply Permutation_app_head. simpl.
  rewrite !app_assoc. by rewrite (Permutation_app_comm (own id slots)).
Qed.

(** Without the slots of a group the rest is within the limit, or still one slot. *)
Lemma group_gone s T O id slots G : inv lim s T O → groups T O = (id, slots) :: G →
  inflight_bytes s - sum_lengths slots ≤ inflight_limit lim ∨ lone_slot (inflight_bytes s - sum_lengths slots) G.
Proof.
  intros I HG. pose proof (i_total _ _ _ _ I) as It. rewrite HG in It. destruct HL as [_ L2].
  change (inflight_bytes s = sum_lengths slots + sum_groups bytes_of G) in It.
  assert (∀ g, g ∈ groups T O → Forall (λ ks, is_u 32 (slot_length ks.2)) g.2) as Hz.
  { intros [i sl] Hin. by apply (i_group _ _ _ _ I) in Hin as (_ & _ & ?). }
  pose proof (sum_lengths_nonneg slots (Hz (id, slots) ltac:(rewrite HG; by left))).
  destruct (i_cap _ _ _ _ I) as [?|(g & ks & Hg & Hks & Ht)]; [left; lia|]. pose proof (sum_lengths_elem _ _ (Hz g Hg) Hks).
  rewrite HG in Hg. apply elem_of_cons in Hg as [->|Hg]; [simpl in *; left; lia|]. right. exists g, ks. split_and!; [done..|].
  assert (bytes_of g ≤ sum_groups bytes_of G); [|unfold bytes_of in *; lia]. apply sum_groups_elem; [|done].
  intros g' Hg'. apply sum_lengths_nonneg, Hz. rewrite HG. by right.
Qed.

Lemma advance_inv s T O id slots published cutting r s' r' : inv lim s (TAdvance id slots published cutting :: T) O →
  runs s !! id = Some r → advanced id s r slots s' r' → inv lim s' (map TIssue (id :: waiting s) ++ T) O.
Proof.
  intros I E V. pose proof (i_run _ _ _ _ I id r E) as R. destruct V as [V1 V2 V3 V4 V5 V6 V7 V8 V9 V10].
  assert (groups (map TIssue (id :: waiting s) ++ T) O = groups T O) as HG.
  { unfold groups. rewrite bind_app. assert (map TIssue (id :: waiting s) ≫= task_groups = []) as ->; [|done].
    simpl. by induction (waiting s). }
  assert (∀ i, i ∈ id :: waiting s → TIssue i ∈ map TIssue (id :: waiting s) ++ T) as HI.
  { intros i Hi. apply elem_of_app. left. by apply (list_elem_of_fmap_2 TIssue). }
  destruct (i_group _ _ _ _ I id slots) as (_ & Hsl & Hz); [by left|]. pose proof (sum_lengths_nonneg _ Hz).
  pose proof (advance_keys _ _ _ _ _ _ _ _ I E) as HK.
  pose proof (group_gone s _ O id slots (groups T O) I ltac:(done)) as HC.
  change (groups (TAdvance id slots published cutting :: T) O) with ((id, slots) :: groups T O) in *.
  split; rewrite ?HG.
  - intros i x. rewrite V1, V2. intros [[<- <-]|[Hne E']]%lookup_insert_Some.
    + destruct R as [R1 R2 R3 R3' R4 R5 R6]. simpl in R1, R2. unfold count_in at 1 in R1. unfold bytes_in at 1 in R2.
      simpl in R1, R2. rewrite Z.eqb_refl in R1, R2. split; try lia.
      * destruct R3' as [?|R3']; [left; lia|]. left. assert (sum_groups (bytes_in id) (groups T O) = 0); [|destruct HL; lia].
        destruct slots; [done|]. simpl in R1. apply count_zero_bytes; [|pose proof (count_nonneg id (groups T O)); lia].
        intros [i sl] Hin. by destruct (i_group _ _ _ _ I i sl) as (_ & ? & _); [right|].
      * destruct V6 as [[-> ->]|?]; done.
      * destruct V6 as [[-> ?]| ->]; done.
    + destruct (i_run _ _ _ _ I i x E') as [R1 R2 R3 R3' R4 R5 R6]. simpl in R1, R2.
      rewrite (in_same count_in) in R1 by auto. rewrite (in_same bytes_in) in R2 by auto. by split.
  - intros i x. rewrite V1. intros [[<- <-]|[Hne E']]%lookup_insert_Some; unfold live; [right; left; apply HI; by left|].
    destruct (i_live _ _ _ _ I i x E') as [L|[L|[[L1 L2]|L]]]; [by left|..].
    + apply elem_of_cons in L as [[=]|L]. right; left. apply elem_of_app. by right.
    + apply elem_of_cons in L2 as [[=]|L2]. right; right; left. split; [done|]. apply elem_of_app. by right.
    + right; left. apply HI. by right.
  - intros i sl Hin. destruct (i_group _ _ _ _ I i sl) as (? & ? & ?); [by right|]. split_and!; try done.
    rewrite V1. by apply lookup_insert_is_Some'; right.
  - pose proof (i_total _ _ _ _ I) as It. change (inflight_bytes s = sum_lengths slots + sum_groups bytes_of (groups T O)) in It. lia.
  - rewrite V5. pose proof (i_bound _ _ _ _ I). lia.
  - by rewrite V5.
  - by rewrite V7.
  - rewrite V1, queued_keys_update, <- app_assoc. by apply V8.
  - pose proof (size_perm _ _ HK) as S1. pose proof (size_perm _ _ (V8 _ HK)) as S2. rewrite !length_app, (length_own id (queued r)), (length_own id slots) in S1.
    rewrite !length_app, length_own in S2.
    assert (∀ l, sum_advancing (map TIssue l) = 0) as HA by (intros l; by induction l). rewrite sum_advancing_app, HA.
    pose proof (i_count _ _ _ _ I) as Ic. change (sum_advancing (_ :: T)) with (Z.of_nat (length slots) + sum_advancing T) in Ic. lia.
  - apply Forall_app. split; [by apply Forall_fmap, Forall_true|]. by apply (Forall_inv_tail (i_todo _ _ _ _ I)).
Qed.


(** * The protocol of slots *)

Definition task_phases (t : task) : list (Z * phase) :=
  match t with
  | TFetch _ _ slots => own Reserved slots
  | TSettle _ _ todo _ _ => own Landed todo.*1
  | TAdvance _ _ _ _ | TIssue _ | TFinish _ => []
  end.

(** The phases of all slots that are neither published nor released. *)
Definition ledger (L : gmap Z phase) (T : list task) (O : list (Z * slots_t)) : Prop :=
  map_to_list L ≡ₚ (T ≫= task_phases) ++ (O ≫= λ g, own Landing g.2).

Lemma obeys_app L acts acts' : obeys L (acts ++ acts') = obeys L acts ≫= λ L, obeys L acts'.
Proof. revert L. induction acts as [|x acts IH]; intros L; simpl; [done|]. destruct (obey L x); simpl; [apply IH|done]. Qed.

Lemma perm_lookup {V} (m : gmap Z V) k v l : map_to_list m ≡ₚ (k, v) :: l → m !! k = Some v.
Proof. intros H. apply elem_of_map_to_list. rewrite H. by left. Qed.

Lemma perm_delete {V} (m : gmap Z V) k v l : map_to_list m ≡ₚ (k, v) :: l → map_to_list (delete k m) ≡ₚ l.
Proof. apply (remove_keys_perm [(k, v)]). Qed.

Lemma move_perm x x' slots L rest : map_to_list L ≡ₚ own x slots ++ rest →
  ∃ L', move x x' slots L = Some L' ∧ map_to_list L' ≡ₚ own x' slots ++ rest.
Proof.
  intros H. unfold move. rewrite decide_True.
  2: { apply Forall_fmap, Forall_forall. intros [k z] Hin. apply elem_of_map_to_list. rewrite H. apply elem_of_app. left.
       by apply (list_elem_of_fmap_2 (λ ks, (ks.1, x)) slots (k, z)). }
  eexists. split; [done|]. revert L rest H. induction slots as [|[k z] slots IH]; intros L rest H; simpl in *; [done|].
  rewrite <- (insert_delete_eq L). rewrite Permutation_middle. apply IH. rewrite map_to_list_insert by apply lookup_delete_eq.
  rewrite (perm_delete _ _ _ _ H). by rewrite Permutation_middle.
Qed.

Lemma obeys_reserved slots L : NoDup slots.*1 → (∀ k, k ∈ slots.*1 → L !! k = None) →
  ∃ L', obeys L (reserved_acts slots) = Some L' ∧ map_to_list L' ≡ₚ own Reserved slots ++ map_to_list L.
Proof.
  revert L. induction slots as [|[k z] slots IH]; intros L Nd H; simpl; [by eexists|]. apply NoDup_cons in Nd as [Hk Nd].
  rewrite decide_True by (apply H; by left). simpl. destruct (IH (<[k := Reserved]> L) Nd) as (L' & -> & HL').
  { intros k' Hk'. rewrite lookup_insert_ne by (intros ->; done). apply H. by right. }
  eexists. split; [done|]. rewrite HL', map_to_list_insert by (apply H; by left). by rewrite Permutation_middle.
Qed.

Lemma settle_spec pub k z o c L rest acts ok c' : map_to_list L ≡ₚ (k, Landed) :: rest → settle pub k z o c = (acts, ok, c') →
  (∃ L', obeys L acts = Some L' ∧ map_to_list L' ≡ₚ rest) ∧ keys_started c' = keys_started c ∧ settled c' = settled c + 1.
Proof.
  intros HP H. pose proof (perm_lookup _ _ _ _ HP) as Ek. pose proof (perm_delete _ _ _ _ HP) as Hd. unfold settle in H.
  destruct (outcome_is_hit o && pub k); simplify_eq.
  - split; [exists (delete k L); simpl; by rewrite decide_True|]. split; [done|]. unfold settled. simpl. lia.
  - split; [exists (delete k L); split; [|done]|destruct o; (split; [done|]); unfold settled; simpl; lia].
    destruct (outcome_is_hit o); simpl; [rewrite decide_True by done; simpl|]; by rewrite decide_True.
Qed.

Lemma length_outcomes slots x : length (outcomes_of slots x) = length slots.
Proof. unfold outcomes_of. destruct x as [o|]; [case_decide; [done|]|]; by rewrite length_replicate. Qed.

Lemma complete_slots slots x : (zip slots (outcomes_of slots x)).*1 = slots.
Proof. apply fst_zip. by rewrite length_outcomes. Qed.

Lemma complete_phases id slots x : task_phases (complete id slots x) = own Landed slots.
Proof. simpl. by rewrite complete_slots. Qed.

Lemma complete_advancing id slots x : advancing (complete id slots x) = 0.
Proof. simpl. rewrite length_zip_with, length_outcomes. lia. Qed.

Lemma complete_ok id slots x : todo_ok (complete id slots x).
Proof. simpl. by rewrite complete_slots. Qed.


Lemma inv_group_le s T O id slots r : inv lim s T O → (id, slots) ∈ groups T O → runs s !! id = Some r →
  sum_lengths slots ≤ inflight_bytes s ∧ sum_lengths slots ≤ run_bytes r ∧ Z.of_nat (length slots) ≤ run_inflight r.
Proof.
  intros I Hin E. destruct (i_run _ _ _ _ I id r E) as [R1 R2 _ _ _ _ _]. rewrite (i_total _ _ _ _ I), R1, R2.
  assert (∀ g, g ∈ groups T O → 0 ≤ bytes_of g) as Hb.
  { intros [i sl] H. apply sum_lengths_nonneg. by apply (i_group _ _ _ _ I) in H as (_ & _ & ?). }
  split_and!; [by apply (sum_groups_elem bytes_of (id, slots))| |by apply count_elem].
  replace (sum_lengths slots) with (bytes_in id (id, slots)) by (unfold bytes_in; simpl; by rewrite Z.eqb_refl).
  apply sum_groups_elem; [|done]. intros g Hg. destruct (bytes_in_cases id g) as [->| ->]; [done|by apply Hb].
Qed.

Lemma ledger_keys L T O k : Forall todo_ok T → ledger L T O → is_Some (L !! k) → k ∈ (group_keys (groups T O)).*1.
Proof.
  clear HL. intros Ht' Ld [x E]. apply elem_of_map_to_list in E. rewrite Ld in E. unfold group_keys, groups. rewrite bind_app, fmap_app, elem_of_app.
  apply elem_of_app in E as [E|E]; [left|right].
  - apply list_elem_of_bind in E as (t & E & Ht). apply list_elem_of_fmap.
    assert (∃ id sl, task_groups t = [(id, sl)] ∧ k ∈ sl.*1) as (id & sl & Eg & Hk).
    { destruct t; simpl in *; try by apply elem_of_nil in E. all: apply list_elem_of_fmap in E as ([k' l'] & [= -> ->] & E).
      all: eexists _, _; split; [done|]; apply list_elem_of_fmap; exists (k', l'); split; try done.
      destruct (proj1 (Forall_forall _ _) Ht' _ Ht) as [pre ->]. apply elem_of_app. by right. }
    exists (k, id). split; [done|]. apply list_elem_of_bind. exists (id, sl). split; [|apply list_elem_of_bind; exists t; rewrite Eg; set_solver].
    simpl. apply list_elem_of_fmap in Hk as ([k' l'] & -> & Hk). apply list_elem_of_fmap. by exists (k', l').
  - apply list_elem_of_bind in E as ([id sl] & E & Ht). apply list_elem_of_fmap in E as ([k' l'] & [= -> ->] & E).
    apply list_elem_of_fmap. exists (k', id). split; [done|]. apply list_elem_of_bind. exists (id, sl). split; [|done].
    simpl. apply list_elem_of_fmap. by exists (k', l').
Qed.

Lemma issued_fresh s T O L id r slots s' r' : inv lim s T O → ledger L T O → runs s !! id = Some r → issued id s r slots s' r' →
  NoDup slots.*1 ∧ ∀ k, k ∈ slots.*1 → L !! k = None.
Proof.
  intros I HLd E U. pose proof (NoDup_fst_map_to_list (keys s)) as Nd.
  rewrite (i_keys _ _ _ _ I), (queued_keys_lookup _ _ _ E), !fmap_app, own_fst, <- app_assoc in Nd.
  apply NoDup_app in Nd as (Nq & Nd & _).
  assert (∃ q, queued r = asked slots ++ q) as [q Eq] by (destruct (u_queue _ _ _ _ _ _ U) as [?|[_ ?]]; eauto).
  assert ((asked slots).*1 = slots.*1) as Ea by (unfold asked; by rewrite <- list_fmap_compose).
  rewrite Eq, fmap_app, Ea in Nq, Nd. split; [by apply NoDup_app in Nq as (? & _)|].
  intros k Hk. destruct (L !! k) eqn:El; [|done]. destruct (Nd k); [set_solver|]. apply elem_of_app. right. by eapply ledger_keys; [apply I|..].
Qed.

Lemma perform_issue a id s T O L : inv lim s (TIssue id :: T) O → ledger L (TIssue id :: T) O →
  ∃ acts new os s' L', perform lim a (TIssue id) s = Ret (acts, new, os, s') ∧ inv lim s' (new ++ T) (O ++ os) ∧
    obeys L acts = Some L' ∧ ledger L' (new ++ T) (O ++ os).
Proof.
  intros I HLd. simpl. destruct (runs s !! id) as [r|] eqn:E.
  2: { unfold issue. rewrite E. simpl. eexists _, _, _, _, L. split; [done|]. rewrite app_nil_r. split_and!; try done.
       split; try apply I; [|by apply (Forall_inv_tail (i_todo _ _ _ _ I))]. intros i x E'. destruct (i_live _ _ _ _ I i x E') as [L1|[L1|[[L1 L2]|L1]]]; unfold live; [auto|..|auto].
       - apply elem_of_cons in L1 as [[= ->]|L1]; [congruence|auto].
       - apply elem_of_cons in L2 as [[=]|L2]. auto 6. }
  destruct (issue_spec _ _ _ (reserve a) _ _ I E) as (slots & s' & r' & -> & U). simpl.
  destruct (issued_fresh _ _ _ _ _ _ _ _ _ I HLd E U) as [Nd Fr]. destruct (obeys_reserved slots L Nd Fr) as (L' & HL1 & HL2).
  destruct slots as [|x slots].
  - eexists _, _, _, _, L. split; [done|]. rewrite app_nil_r. split_and!; [|done..].
    eapply (issue_inv s T _ O id r [] s' r' I E U); [done|set_solver..|done|by repeat constructor].
  - eexists _, _, _, _, L'. split; [done|]. rewrite app_nil_r. split_and!; [|done|].
    + eapply (issue_inv s T _ O id r (x :: slots) s' r' I E U); [done|set_solver..|done|by repeat constructor].
    + unfold ledger in *. rewrite HL2, HLd. simpl. by rewrite app_assoc.
Qed.

Lemma perform_spec a t s T O L : inv lim s (t :: T) O → ledger L (t :: T) O →
  ∃ acts new os s' L', perform lim a t s = Ret (acts, new, os, s') ∧ inv lim s' (new ++ T) (O ++ os) ∧
    obeys L acts = Some L' ∧ ledger L' (new ++ T) (O ++ os).
Proof.
  intros I HLd. destruct t as [id|id p slots|id|id slots todo published cutting|id slots published cutting]; [by apply perform_issue|..]; simpl.
  - destruct (accepts a); simpl; eexists _, _, _, _.
    + destruct (move_perm Reserved Landing slots L ((T ≫= task_phases) ++ (O ≫= λ g, own Landing g.2))) as (L' & E & HP).
      { unfold ledger in HLd. rewrite HLd. simpl. by rewrite app_assoc. }
      exists L'. split; [done|]. simpl. rewrite E. simpl. split_and!; [|done|].
      * eapply (inv_regroup s _ _ _ _ (marks s) (counters s)) in I; [by destruct s| |set_solver..|done|done|by intros ?%Forall_inv_tail].
        unfold groups. simpl. by rewrite app_assoc, <- Permutation_cons_append.
      * unfold ledger. rewrite HP, bind_app. simpl. by rewrite app_nil_r, Permutation_app_comm, <- app_assoc.
    + destruct (move_perm Reserved Landed slots L ((T ≫= task_phases) ++ (O ≫= λ g, own Landing g.2))) as (L' & E & HP).
      { unfold ledger in HLd. rewrite HLd. simpl. by rewrite app_assoc. }
      exists L'. split; [done|]. simpl. rewrite E, app_nil_r. simpl. split_and!; [|done|].
      * eapply (inv_regroup s _ (complete id slots None :: T) _ _ (marks s) (counters s)) in I; [by destruct s|done|set_solver..|done| |].
        -- change (sum_advancing (?t :: T)) with (advancing t + sum_advancing T). by rewrite complete_advancing.
        -- intros H%Forall_inv_tail. constructor; [apply complete_ok|done].
      * unfold ledger. rewrite HP. change ([?t] ++ T) with (t :: T). by rewrite bind_cons, complete_phases, app_assoc.
  - eexists _, _, _, _, L. split; [done|]. rewrite app_nil_r. split_and!; [by apply finish_inv|done..].
  - pose proof (i_todo _ _ _ _ I) as Ht. apply Forall_cons in Ht as [Ht HT]. destruct todo as [|[[k z] o] todo].
    + eexists _, _, _, _, L. split; [done|]. rewrite app_nil_r. split_and!; [|done..].
      eapply (inv_regroup s _ _ _ _ (marks s) (counters s)) in I; [by destruct s|done|set_solver..|done|simpl; lia|by repeat constructor].
    + destruct (settle _ _ _ _ _) as [[acts ok] c] eqn:Es.
      eapply settle_spec in Es as ((L' & E & HP) & S1 & S2); [|unfold ledger in HLd; rewrite HLd; simpl; reflexivity].
      eexists _, _, _, _, L'. split; [done|]. rewrite app_nil_r. split_and!; [|done|by unfold ledger; rewrite HP].
      eapply (inv_regroup s _ _ _ _ (marks s) c) in I; [done|done|set_solver..|done|rewrite S2; simpl; lia|].
      intros _. constructor; [|done]. simpl in *. by eapply suffix_cons_l.
  - destruct (i_group _ _ _ _ I id slots) as ((r & E) & Hsl & Hz); [by left|].
    destruct (inv_group_le _ _ _ id slots r I) as (? & ? & ?); [by left|done|].
    destruct (advance_spec s (now a) id slots published cutting r E) as (s' & r' & -> & V); [done..|].
    simpl. eexists _, _, _, _, L. split; [done|]. rewrite app_nil_r. split_and!; [by eapply advance_inv|done|].
    unfold ledger in *. rewrite HLd. simpl. by induction (waiting s).
Qed.

(** * Every event keeps the invariant *)

Lemma no_run_no_group s T O id f : inv lim s T O → runs s !! id = None → (f = count_in ∨ f = bytes_in) → sum_groups (f id) (groups T O) = 0.
Proof.
  intros I E Hf. assert (∀ i sl, (i, sl) ∈ groups T O → i ≠ id) as Hne.
  { intros i sl Hin ->. destruct (i_group _ _ _ _ I id sl Hin) as ([r Hr] & _). congruence. }
  induction (groups T O) as [|[i sl] G IH]; simpl; [done|].
  rewrite (in_same f) by (done || eapply Hne; by left). rewrite IH; [done|]. intros ???. eapply Hne. by right.
Qed.

Lemma start_inv s T O id p q m ms c : inv lim s T O → id = next_run s → q ≠ [] → Forall (λ ks, is_u 32 ks.2) q →
  map_to_list m ≡ₚ own id q ++ map_to_list (keys s) → keys_started c = keys_started (counters s) + Z.of_nat (length q) →
  settled c = settled (counters s) →
  inv lim (mkState (<[id := mkRun p q 0 0 false]> (runs s)) (id + 1) m (inflight_bytes s) (waiting s) ms c) (TIssue id :: T) O.
Proof.
  intros I Hid Hq Hz Hm Hk Hc. assert (runs s !! id = None) as E.
  { destruct (runs s !! id) as [r|] eqn:E; [|done]. apply (i_run _ _ _ _ I), r_id in E. lia. }
  assert (u32_max = 2 ^ 32 - 1) as Eu by done. pose proof HL as [HL1 HL2]. split; simpl; try apply I.
  - intros i x [[<- <-]|[Hne E']]%lookup_insert_Some.
    + split; simpl; try done; try lia; symmetry; eapply (no_run_no_group s T O id); auto.
    + destruct (i_run _ _ _ _ I i x E'). split; try done. lia.
  - intros i x [[<- <-]|[Hne E']]%lookup_insert_Some; unfold live; [right; left; by left|].
    destruct (i_live _ _ _ _ I i x E') as [L|[L|[[L1 L2]|L]]]; [by left|right; left; by right|right; right; left; split; [done|by right]|auto].
  - intros i sl Hin. destruct (i_group _ _ _ _ I i sl Hin) as (? & ? & ?). split_and!; try done. by apply lookup_insert_is_Some'; right.
  - rewrite queued_keys_fresh by done. rewrite Hm, (i_keys _ _ _ _ I). simpl. by rewrite app_assoc.
  - rewrite Hk, Hc, (i_count _ _ _ _ I), (size_perm _ _ Hm), length_app, length_own, length_map_to_list.
    change (sum_advancing (TIssue id :: T)) with (sum_advancing T). lia.
  - constructor; [done|apply I].
Qed.

Definition started_task (x : option Z) : list task := match x with Some id => [TIssue id] | None => [] end.

Lemma op_fetch_spec s T O p ks stores check : inv lim s T O → next_run s + 1 < 2 ^ 64 → Forall (λ ks, is_u 32 ks.2) ks →
  ∃ resp x s', op_fetch lim p ks stores check s = Ret (resp, x, s') ∧ inv lim s' (started_task x ++ T) O ∧ next_run s' ≤ next_run s + 1.
Proof.
  intros I Hn Hz. unfold op_fetch, start. destruct (valid_peer p); simpl; [|eexists _, _, _; split; [done|]; by split; [|lia]].
  destruct (_ <? _); simpl; [eexists _, _, _; split; [done|]; by split; [|lia]|].
  destruct (claim_keys _ _ _) as [q m] eqn:E. apply claim_keys_spec in E as [Hm [k1 E1]].
  destruct (candidates_prefix stores check ks) as [k2 E2].
  assert (Forall (λ ks, is_u 32 ks.2) q) as Hq by (rewrite E2, E1, !Forall_app in Hz; tauto).
  destruct q as [|kz q].
  - eexists _, _, _. split; [done|]. simpl. split; [|lia]. simpl in Hm. apply map_to_list_inj in Hm as ->.
    eapply (inv_regroup s T T O O (marks s)); try done; unfold settled; simpl; lia.
  - rewrite add_w_Ret by lia. simpl. eexists _, _, _. split; [done|]. simpl. split; [|lia].
    apply start_inv; try done.
Qed.


Definition system_inv (y : System) (L : gmap Z phase) : Prop :=
  inv lim (state y) (concat (threads y)) (outstanding y) ∧ ledger L (concat (threads y)) (outstanding y).

Lemma system_inv_perm s T ths O O' L : T ≡ₚ concat ths → O ≡ₚ O' → inv lim s T O → ledger L T O → system_inv (mkSystem s ths O') L.
Proof. intros HT HO I HLd. split; simpl; [by eapply inv_perm|]. unfold ledger. by rewrite <- HT, <- HO. Qed.

Lemma concat_insert (ths : list (list task)) i x : ths !! i = Some x →
  ∃ rest, concat ths ≡ₚ x ++ rest ∧ ∀ x', concat (<[i := x']> ths) ≡ₚ x' ++ rest.
Proof.
  intros E. exists (concat (take i ths) ++ concat (drop (S i) ths)). split.
  - rewrite <- (take_drop_middle _ _ _ E) at 1. rewrite concat_app. simpl. by rewrite Permutation_app_swap_app.
  - intros x'. rewrite insert_take_drop by (by eapply lookup_lt_Some). rewrite concat_app. simpl. by rewrite Permutation_app_swap_app.
Qed.

Definition typed (e : event) : Prop := match e with EStart _ ks _ _ => Forall (λ ks, is_u 32 ks.2) ks | _ => True end.

Lemma concat_snoc (ths : list (list task)) x : concat (ths ++ [x]) = concat ths ++ x.
Proof. rewrite concat_app. simpl. by rewrite app_nil_r. Qed.

Lemma marks_inv y L ms c : system_inv y L → keys_started c = keys_started (counters (state y)) → settled c = settled (counters (state y)) →
  system_inv (mkSystem (set_counters (set_marks (state y) ms) c) (threads y) (outstanding y)) L.
Proof.
  intros [I HLd] Hk Hs. split; [|done]. by eapply (inv_regroup (state y) _ _ _ _ ms c) in I; [|done..|by rewrite Hs|].
Qed.

Lemma perform_next a t s acts nw os s' : perform lim a t s = Ret (acts, nw, os, s') → next_run s' = next_run s.
Proof.
  destruct t; simpl; intros H.
  - apply bind_Ret in H as ([x s1] & H1 & H). assert (next_run s1 = next_run s) as <-.
    { unfold issue in H1. destruct (runs s !! id); [|by simplify_eq]. apply bind_Ret in H1 as ([w sl] & _ & H1).
      destruct (cut _ && _); simpl in H1; by simplify_eq. }
    destruct x as [[p [|]]|]; by simplify_eq.
  - destruct (accepts a); by simplify_eq.
  - simplify_eq. unfold finish_if_done. destruct (runs s !! id) as [r|]; [|done]. by destruct (_ && _).
  - destruct todo as [|[[??]?] ?]; [by simplify_eq|]. destruct (settle _ _ _ _ _) as [[??]?]. by simplify_eq.
  - apply bind_Ret in H as ([x s1] & H1 & H). simplify_eq. unfold advance in H1. apply bind_Ret in H1 as (? & _ & H1).
    destruct (runs s !! id); [|by simplify_eq]. apply bind_Ret in H1 as (? & _ & H1). apply bind_Ret in H1 as (? & _ & H1).
    destruct (_ && _); simpl in H1; by simplify_eq.
Qed.

Ltac stay L := eexists _, _, L; split; [done|]; split_and!; [done..|simpl; lia].

Lemma step_spec y L e : system_inv y L → typed e → next_run (state y) + 1 < 2 ^ 64 →
  ∃ l y' L', step lim y e = Ret (l, y') ∧ system_inv y' L' ∧ obeys L (acts_of l) = Some L' ∧ next_run (state y') ≤ next_run (state y) + 1.
Proof.
  intros Y Ht Hn. pose proof Y as [I HLd]. destruct e as [p ks stores check|i a|i x|k b t|k| |t]; simpl.
  - destruct (op_fetch_spec _ _ _ p ks stores check I Hn Ht) as (resp & x & s' & -> & I' & Hn'). simpl. eexists _, _, L. split; [done|].
    split_and!; [|done|done]. apply (system_inv_perm _ (started_task x ++ concat (threads y)) _ (outstanding y)); [|done|done|by destruct x].
    destruct x as [id|]; simpl; rewrite ?concat_snoc, ?app_nil_r; [by rewrite <- Permutation_cons_append|done].
  - destruct (threads y !! i) as [[|t ts]|] eqn:E; [stay L| |stay L].
    destruct (concat_insert _ _ _ E) as (rest & P1 & P2).
    destruct (perform_spec a t (state y) (ts ++ rest) (outstanding y) L) as (acts & nw & os & s' & L' & Hp & I' & HO & HLd').
    { by eapply inv_perm; [exact P1|done|]. }
    { unfold ledger in *. by rewrite <- P1. }
    rewrite Hp. simpl. eexists _, _, L'. split; [done|]. split_and!; [|done|simpl; rewrite (perform_next _ _ _ _ _ _ _ Hp); lia].
    apply (system_inv_perm _ (nw ++ ts ++ rest) _ (outstanding y ++ os)); [|done..]. by rewrite P2, app_assoc.
  - destruct (outstanding y !! i) as [[id slots]|] eqn:E; [|stay L].
    apply delete_Permutation in E as P. destruct (move_perm Landing Landed slots L
      ((concat (threads y) ≫= task_phases) ++ (delete i (outstanding y) ≫= λ g, own Landing g.2))) as (L' & HM & HP).
    { unfold ledger in HLd. rewrite HLd, P at 1. simpl. by rewrite Permutation_app_swap_app. }
    eexists _, _, L'. split; [done|]. simpl. rewrite HM. split_and!; [|done|lia].
    apply (system_inv_perm _ (complete id slots x :: concat (threads y)) _ (delete i (outstanding y))); [|done|..].
    + by rewrite concat_snoc, <- Permutation_cons_append.
    + eapply (inv_regroup (state y) _ (complete id slots x :: _) _ _ (marks (state y)) (counters (state y))) in I; [by destruct (state y)| |set_solver..|done| |].
      * unfold groups. rewrite P at 1. simpl. by rewrite <- Permutation_middle.
      * change (sum_advancing (?t :: ?T)) with (advancing t + sum_advancing T). by rewrite complete_advancing.
      * intros H. constructor; [apply complete_ok|done].
    + unfold ledger. by rewrite HP, bind_cons, complete_phases, app_assoc.
  - destruct (attribute lim t k b (state y)) as [x s'] eqn:E. eexists _, _, L. split; [done|]. unfold attribute in E.
    case_decide; [destruct (marks (state y) !! k) as [[? at_]|]; [destruct (fresh lim t at_)|]|]; simplify_eq; simpl;
      (split_and!; [|done|lia]); first [by apply marks_inv | by destruct y].
  - eexists _, _, L. split; [done|]. unfold evicted. destruct (marks (state y) !! k); (split_and!; [|done|simpl; lia]);
      first [by apply marks_inv | by destruct y].
  - eexists _, _, L. split; [done|]. split_and!; [by apply marks_inv|done|simpl; lia].
  - eexists _, _, L. split; [done|]. split_and!; [by apply marks_inv|done|simpl; lia].
Qed.

Lemma steps_spec es y L : system_inv y L → Forall typed es → next_run (state y) + Z.of_nat (length es) < 2 ^ 64 →
  ∃ ls y' L', steps lim y es = Ret (ls, y') ∧ system_inv y' L' ∧ obeys L (ls ≫= acts_of) = Some L' ∧
    next_run (state y') ≤ next_run (state y) + Z.of_nat (length es).
Proof.
  revert y L. induction es as [|e es IH]; intros y L Y Ht Hn; simpl; [stay L|]. apply Forall_cons in Ht as [He Hes].
  simpl in Hn. destruct (step_spec _ _ _ Y He) as (l & y1 & L1 & -> & Y1 & O1 & N1); [lia|]. simpl.
  destruct (IH _ _ Y1 Hes) as (ls & y' & L' & -> & Y' & O' & N'); [lia|]. eexists _, _, L'. split; [done|].
  split_and!; [done| |lia]. by rewrite bind_cons, obeys_app, O1.
Qed.

Lemma new_inv : system_inv new ∅.
Proof.
  split; [|unfold ledger; by rewrite map_to_list_empty]. destruct HL as [L1 L2]. split; simpl; try done.
  - intros id slots. by rewrite elem_of_nil.
  - assert (u32_max = 2 ^ 32 - 1) by done. lia.
  - by left; lia.
Qed.

(** * All fetches end *)

(** A thread goes on, or the endpoint completes a fetch. *)
Inductive works (y y' : System) : Prop :=
| works_run i a t ts l : threads y !! i = Some (t :: ts) → step lim y (ERun i a) = Ret (l, y') → works y y'
| works_callback i x g l : outstanding y !! i = Some g → step lim y (ECallback i x) = Ret (l, y') → works y y'.

Definition task_weight (t : task) : nat :=
  match t with
  | TIssue _ => 6
  | TFetch _ _ slots => 4 + length slots
  | TSettle _ _ todo _ _ => 2 + length todo
  | TAdvance _ _ _ _ | TFinish _ => 1
  end.
Definition weight (T : list task) (O : list (Z * slots_t)) : nat :=
  sum_list (task_weight <$> T) + sum_list ((λ g, 3 + length g.2)%nat <$> O).

Lemma complete_weight id slots x : task_weight (complete id slots x) = (2 + length slots)%nat.
Proof. simpl. rewrite length_zip_with, length_outcomes. lia. Qed.

#[global] Instance weight_perm : Proper ((≡ₚ) ==> (≡ₚ) ==> eq) weight.
Proof. intros T T' HT O O' HO. unfold weight. by rewrite HT, HO. Qed.

Lemma perform_less a t s T O acts nw os s' : inv lim s (t :: T) O → perform lim a t s = Ret (acts, nw, os, s') →
  (size (keys s') < size (keys s))%nat ∨
  (size (keys s') ≤ size (keys s) ∧
   weight nw os + length (queued_keys (runs s')) < task_weight t + length (queued_keys (runs s)))%nat.
Proof.
  intros I H. destruct t as [id|id p slots|id|id slots todo published cutting|id slots published cutting]; simpl in H.
  - right. destruct (runs s !! id) as [r|] eqn:E; [|unfold issue in H; rewrite E in H; simplify_eq/=; unfold weight; simpl; lia].
    destruct (issue_spec _ _ _ (reserve a) _ _ I E) as (slots & s1 & r' & Hi & U). rewrite Hi in H. simpl in H.
    assert (s' = s1 ∧ (weight nw os < 6 + length slots)%nat) as [-> Hw] by (destruct slots; simplify_eq/=; (split; [done|]); unfold weight; simpl; lia).
    pose proof (i_keys _ _ _ _ I) as K. rewrite (queued_keys_lookup _ _ _ E), <- app_assoc in K.
    pose proof (size_perm _ _ K) as S1. pose proof (size_perm _ _ (u_keys _ _ _ _ _ _ U _ K)) as S2.
    rewrite !length_app, (length_own id (queued r)) in S1. rewrite !length_app, (length_own id (queued r')), (length_own id slots) in S2.
    assert (length (queued r) ≥ length slots + length (queued r'))%nat.
    { destruct (u_queue _ _ _ _ _ _ U) as [->|[-> [q ->]]]; rewrite length_app; unfold asked; rewrite length_fmap; simpl; lia. }
    split; [lia|]. rewrite (u_runs _ _ _ _ _ _ U), (queued_keys_update _ id r'), (queued_keys_lookup _ _ _ E), !length_app.
    rewrite (length_own id (queued r)), (length_own id (queued r')). simpl. lia.
  - right. destruct (accepts a); simplify_eq; (split; [done|]); unfold weight; cbn [fmap list_fmap sum_list app]; rewrite ?complete_weight; simpl; lia.
  - right. simplify_eq. unfold weight, finish_if_done. simpl. destruct (runs s !! id) as [r|] eqn:E; [destruct (_ && _)|]; simpl; [|lia..].
    split; [done|]. rewrite (queued_keys_lookup _ _ _ E), length_app. lia.
  - right. destruct todo as [|[[??]?] ?]; [|destruct (settle _ _ _ _ _) as [[??]?]]; simplify_eq; unfold weight; simpl; lia.
  - left. destruct (i_group _ _ _ _ I id slots) as ((r & E) & Hsl & Hz); [by left|].
    destruct (inv_group_le _ _ _ id slots r I) as (? & ? & ?); [by left|done|].
    destruct (advance_spec s (now a) id slots published cutting r E) as (s1 & r' & Ha & V); [done..|]. rewrite Ha in H. simpl in H.
    assert (s' = s1) as -> by congruence. pose proof (advance_keys _ _ _ _ _ _ _ _ I E) as K.
    pose proof (size_perm _ _ K) as S1. pose proof (size_perm _ _ (v_keys _ _ _ _ _ _ V _ K)) as S2.
    rewrite !length_app, (length_own id (queued r)), (length_own id slots) in S1. rewrite !length_app, (length_own id (queued r')) in S2.
    assert (length (queued r') ≤ length (queued r))%nat by (destruct (v_queue _ _ _ _ _ _ V) as [[-> _]| ->]; simpl; lia).
    destruct slots; [done|]. simpl in S1. lia.
Qed.

Definition measure (y : System) : nat := weight (concat (threads y)) (outstanding y) + length (queued_keys (runs (state y))).

Definition less (y' y : System) : Prop :=
  (size (keys (state y')) < size (keys (state y)))%nat ∨
  (size (keys (state y')) ≤ size (keys (state y)) ∧ measure y' < measure y)%nat.

Lemma sum_list_app (l l' : list nat) : sum_list (l ++ l') = (sum_list l + sum_list l')%nat.
Proof. induction l; simpl; lia. Qed.

Lemma weight_app T T' O O' : weight (T ++ T') (O ++ O') = (weight T O + weight T' O')%nat.
Proof.
  unfold weight. rewrite !fmap_app, !sum_list_app. lia.
Qed.

Lemma works_less y y' L : system_inv y L → works y y' → less y' y ∧ next_run (state y') = next_run (state y).
Proof.
  intros [I _] [i a t ts l E H|i x g l E H]; simpl in H; rewrite E in H.
  - apply bind_Ret in H as ([[[acts nw] os] s'] & Hp & H). simplify_eq/=. destruct (concat_insert _ _ _ E) as (rest & P1 & P2).
    eapply (inv_perm _ _ _ ((t :: ts) ++ rest)) in I; [|done..]. simpl in I. split; [|by eapply perform_next].
    destruct (perform_less _ _ _ _ _ _ _ _ _ I Hp) as [?|[? Hw]]; [by left|right; split; [done|]]. unfold measure. simpl.
    rewrite P2, P1, <- app_assoc. rewrite (Permutation_app_comm (outstanding y)), weight_app.
    change ((t :: ts) ++ rest) with ([t] ++ (ts ++ rest)). change (outstanding y) with ([] ++ outstanding y) at 2. rewrite (weight_app [t]).
    unfold weight at 3. simpl. lia.
  - destruct g as [id slots]. simplify_eq/=. apply delete_Permutation in E as P. split; [|done]. right. split; [done|]. unfold measure. simpl.
    rewrite P at 2. rewrite concat_snoc. unfold weight. rewrite fmap_app, sum_list_app. cbn [fmap list_fmap sum_list]. rewrite complete_weight. simpl. lia.
Qed.

Lemma works_acc n m y L : system_inv y L → (size (keys (state y)) < n)%nat → (measure y < m)%nat →
  next_run (state y) + 1 < 2 ^ 64 → Acc (λ y' y, works y y') y.
Proof.
  revert m y L. induction n as [|n IHn]; [lia|]. intros m. induction m as [|m IHm]; [lia|]. intros y L Y Hn Hm Hr.
  constructor. intros y' W. destruct (works_less _ _ _ Y W) as [Hless Hx].
  assert (∃ L', system_inv y' L') as [L' Y'].
  { destruct W as [i a t ts l E H|i x g l E H]; [destruct (step_spec y L (ERun i a) Y) as (?&?&L'&E'&?&_)|
      destruct (step_spec y L (ECallback i x) Y) as (?&?&L'&E'&?&_)]; try done; rewrite H in E'; simplify_eq; eauto. }
  rewrite <- Hx in Hr. destruct Hless as [?|[? ?]]; [|eapply IHm; try done; lia].
  eapply (IHn (S (measure y'))); try done; lia.
Qed.

Lemma idle_tasks y : (∀ y', ¬ works y y') → ∀ L, system_inv y L → next_run (state y) + 1 < 2 ^ 64 → concat (threads y) = [] ∧ outstanding y = [].
Proof.
  intros Hw L Y Hn. split.
  - destruct (concat (threads y)) as [|t T] eqn:E; [done|]. assert (t ∈ concat (threads y)) as Hin by (rewrite E; by left).
    apply list_elem_of_In, in_concat in Hin as (ts & Hts & Ht). apply list_elem_of_In, list_elem_of_lookup in Hts as [i Hi].
    destruct ts as [|t' ts]; [done|]. destruct (step_spec y L (ERun i (mkAnswers (λ _, None) false (λ _, false) 0)) Y) as (l & y' & _ & H & _); [done..|].
    destruct (Hw y'). by eapply works_run.
  - destruct (outstanding y) as [|g O] eqn:E; [done|].
    destruct (step_spec y L (ECallback 0 None) Y) as (l & y' & _ & H & _); [done..|].
    destruct (Hw y'). eapply (works_callback _ _ 0); [|done]. by rewrite E.
Qed.

Lemma idle_empty s L : inv lim s [] [] → ledger L [] [] →
  runs s = ∅ ∧ keys s = ∅ ∧ inflight_bytes s = 0 ∧ L = ∅ ∧ keys_started (counters s) = settled (counters s).
Proof.
  intros I HLd. pose proof (i_total _ _ _ _ I) as It. simpl in It. assert (runs s = ∅) as Er.
  { apply map_empty. intros id. destruct (runs s !! id) as [r|] eqn:E; [|done]. pose proof (i_run _ _ _ _ I id r E) as R.
    destruct (i_live _ _ _ _ I id r E) as [L1|[L1|[[_ L1]|L1]]]; [|by apply elem_of_nil in L1..|].
    - rewrite (r_inflight _ _ _ _ _ R) in L1. simpl in L1. lia.
    - assert (waiting s ≠ []) as Hw by (by destruct (waiting s); [apply elem_of_nil in L1|]). apply (i_waiting _ _ _ _ I) in Hw. lia. }
  assert (keys s = ∅) as Ek.
  { apply map_to_list_empty_iff. pose proof (i_keys _ _ _ _ I) as K. rewrite Er in K. unfold queued_keys in K. rewrite map_to_list_empty in K.
    by apply Permutation_nil_r in K. }
  split_and!; try done.
  - apply map_to_list_empty_iff. by apply Permutation_nil_r in HLd.
  - rewrite (i_count _ _ _ _ I), Ek, map_size_empty. simpl. lia.
Qed.
End with_limits.

(** What every state of the fetcher shows; [L] is where the slots are that it has
    reserved and neither published nor released. *)
Record consistent (lim : FetchLimits) (y : System) (L : gmap Z phase) : Prop := {
  y_pending k : is_Some (L !! k) → is_Some (keys (state y) !! k);
  y_landing id slots k : (id, slots) ∈ outstanding y → k ∈ slots.*1 → L !! k = Some Landing;
  y_window id r : runs (state y) !! id = Some r → 0 ≤ run_bytes r ∧ (run_bytes r ≤ window_bytes lim ∨ run_inflight r = 1);
  y_cap : 0 ≤ inflight_bytes (state y) ∧
    (inflight_bytes (state y) ≤ inflight_limit lim ∨ lone_slot (inflight_bytes (state y)) (groups (concat (threads y)) (outstanding y)));
  y_inflight id r : runs (state y) !! id = Some r →
    run_inflight r = sum_groups (count_in id) (groups (concat (threads y)) (outstanding y)) ∧
    run_bytes r = sum_groups (bytes_in id) (groups (concat (threads y)) (outstanding y));
  y_total : inflight_bytes (state y) = sum_groups bytes_of (groups (concat (threads y)) (outstanding y));
  y_count : keys_started (counters (state y)) ≤ settled (counters (state y)) + Z.of_nat (size (keys (state y)))
}.

Lemma sum_advancing_nonneg T : Forall todo_ok T → 0 ≤ sum_advancing T.
Proof.
  induction 1 as [|t T Ht _ IH]; unfold sum_advancing in *; simpl; [lia|]. destruct t; simpl in *; try lia.
  apply suffix_length in Ht. rewrite length_fmap in Ht. lia.
Qed.

Lemma system_consistent lim y L : limits_ok lim → system_inv lim y L → consistent lim y L.
Proof.
  intros HL [I HLd]. split.
  - intros k Hk%(ledger_keys _ _ _ _ (i_todo _ _ _ _ I) HLd). apply list_elem_of_fmap in Hk as ([k' id] & -> & Hk). exists id.
    apply elem_of_map_to_list. rewrite (i_keys _ _ _ _ I). apply elem_of_app. by right.
  - intros id slots k Hin Hk. apply elem_of_map_to_list. unfold ledger in HLd. rewrite HLd. apply elem_of_app. right. apply list_elem_of_bind.
    exists (id, slots). split; [|done]. apply list_elem_of_fmap in Hk as ([k' z] & -> & Hk). apply list_elem_of_fmap. by exists (k', z).
  - intros id r E. split; [by eapply n_bytes, inv_run_facts|]. by apply (i_run _ _ _ _ I id r E).
  - split; [|apply I]. rewrite (i_total _ _ _ _ I). eapply bytes_nonneg; [done|]. auto.
  - intros id r E. by split; apply (i_run _ _ _ _ I id r E).
  - apply I.
  - rewrite (i_count _ _ _ _ I). pose proof (sum_advancing_nonneg _ (i_todo _ _ _ _ I)). lia.
Qed.

(** C21. Slots of a fetch. Whatever the peers, the endpoint and the dispatcher answer,
    and however requests, completions and threads interleave, the fetcher does not
    panic and does with a slot what it may: it hands it to the endpoint once it is
    reserved, and publishes or releases it once, after the endpoint has completed or
    refused the fetch. A key with a slot reads as pending; the counts and bytes of
    every run, and the bytes of all runs, are those of the slots in flight; the bytes
    of a run stay within its window unless a single slot of it is in flight, and the
    bytes of all runs within their limit unless they are those of a single slot. *)
Theorem fetch_protocol lim es : limits_ok lim → Forall typed es → Z.of_nat (length es) < 2 ^ 64 →
  ∃ ls y L, steps lim new es = Ret (ls, y) ∧ obeys ∅ (ls ≫= acts_of) = Some L ∧ consistent lim y L.
Proof.
  intros HL Ht Hn. destruct (steps_spec lim HL es new ∅ (new_inv lim HL) Ht) as (ls & y & L & E & Y & O & _); [done|].
  exists ls, y, L. split_and!; [done..|]. by apply system_consistent.
Qed.

(** C22. Every fetch ends. From any state the fetcher reaches, its threads and the
    completions of the endpoint make only finitely many steps, in any order; when
    none is left every key has been fetched, missed, failed or cut off, no key reads as
    pending, no run waits and no slot is held. *)
Theorem fetch_settles lim es ls y : limits_ok lim → Forall typed es → Z.of_nat (length es) + 1 < 2 ^ 64 → steps lim new es = Ret (ls, y) →
  Acc (λ y' y, works lim y y') y ∧
  ((∀ y', ¬ works lim y y') →
    runs (state y) = ∅ ∧ keys (state y) = ∅ ∧ inflight_bytes (state y) = 0 ∧ obeys ∅ (ls ≫= acts_of) = Some ∅ ∧
    keys_started (counters (state y)) = settled (counters (state y))).
Proof.
  intros HL Ht Hn E. destruct (steps_spec lim HL es new ∅ (new_inv lim HL) Ht) as (ls' & y' & L & E' & Y & O & N); [simpl; lia|].
  rewrite E in E'. injection E' as <- <-. simpl in N. split.
  { apply (works_acc lim HL (S (size (keys (state y)))) (S (measure y)) y L); [done|lia..]. }
  intros Hw.
  destruct (idle_tasks lim HL y Hw L Y) as [E1 E2]; [lia|]. destruct Y as [I HLd]. rewrite E1, E2 in I, HLd.
  destruct (idle_empty lim _ L I HLd) as (? & ? & ? & -> & ?). done.
Qed.

(** * Runs *)

Definition small_limits : FetchLimits := mkLimits 128 256 4 1000.

Lemma small_limits_ok : limits_ok small_limits.
Proof. done. Defined.

(** Every reservation and publication succeeds, the endpoint accepts. *)
Definition willing (t : Z) : Answers := mkAnswers (λ k, Some (4096 * k)) true (λ _, true) t.

(** Three blocks of 64 bytes, two of which fit the window; the second is a miss. *)
Definition cut_run : list event :=
  [EStart [97; 58; 49] [(1, 64); (2, 64); (3, 64)] ∅ (λ _, false); ERun 0 (willing 0); ERun 0 (willing 0); ERun 0 (willing 0);
   ECallback 0 (Some [HitMemoryTier; OMiss]); ERun 1 (willing 5); ERun 1 (willing 5); ERun 1 (willing 5); ERun 1 (willing 5);
   ERun 1 (willing 5); ERun 1 (willing 5)].

Lemma cut_run_typed : Forall typed cut_run.
Proof. repeat constructor; simpl; lia. Defined.

Lemma fetch_protocol_witness :
  ∃ ls y L, steps small_limits new cut_run = Ret (ls, y) ∧ obeys ∅ (ls ≫= acts_of) = Some L ∧ consistent small_limits y L.
Proof. apply (fetch_protocol small_limits cut_run); [apply small_limits_ok|apply cut_run_typed|simpl; lia]. Defined.

Lemma fetch_settles_witness :
  ∃ ls y, steps small_limits new cut_run = Ret (ls, y) ∧ Acc (λ y' y, works small_limits y y') y ∧
    hits (counters (state y)) = 1 ∧ misses (counters (state y)) = 1 ∧ truncated (counters (state y)) = 1.
Proof.
  destruct (steps small_limits new cut_run) as [[ls y]|] eqn:E; [|vm_compute in E; discriminate E]. exists ls, y. split; [reflexivity|]. split.
  - apply (fetch_settles small_limits cut_run ls y); [apply small_limits_ok|apply cut_run_typed|simpl; lia|exact E].
  - assert ((λ x, match x with Ret (_, y) => (hits (counters (state y)), misses (counters (state y)), truncated (counters (state y))) | Panic => (0, 0, 0) end)
      (steps small_limits new cut_run) = (1, 1, 1)) as H by (vm_compute; reflexivity).
    rewrite E in H. clear E. by simplify_eq.
Defined.

(** One block is fetched and published; before the completion marks it, the cache
    evicts it and tells so. *)
Definition early_eviction : list event :=
  [EStart [97; 58; 49] [(1, 64)] ∅ (λ _, false); ERun 0 (willing 0); ERun 0 (willing 0); ERun 0 (willing 0);
   ECallback 0 (Some [HitMemoryTier]); ERun 1 (willing 5); EEvicted 1; ERun 1 (willing 5); ERun 1 (willing 5); ERun 1 (willing 5);
   EAttribute 1 Dram 10].

(** A block can be marked as fetched after it has left the cache: the completion
    publishes it before it sets the mark, and the notice of an eviction in between
    finds no mark to drop. The next block stored under the key, on the spot, is then
    attributed to the fetch. *)
Theorem mark_outlives_block : ∃ ls y, steps small_limits new early_eviction = Ret (ls, y) ∧
  last ls = Some (LServed Fetched) ∧ fetched_unused (counters (state y)) = 0.
Proof.
  destruct (steps small_limits new early_eviction) as [[ls y]|] eqn:E; [|vm_compute in E; discriminate E]. exists ls, y. split; [reflexivity|].
  assert ((λ x, match x with Ret (ls, y) => (last ls, fetched_unused (counters (state y))) | Panic => (None, 1) end)
    (steps small_limits new early_eviction) = (Some (LServed Fetched), 0)) as H by (vm_compute; reflexivity).
  rewrite E in H. clear E. by simplify_eq.
Qed.

(** A block is fetched, removed from the cache, and fetched again. *)
Definition refetch : list event :=
  let once i := [EStart [97; 58; 49] [(1, 64)] ∅ (λ _, false); ERun i (willing 0); ERun i (willing 0); ERun i (willing 0);
    ECallback 0 (Some [HitMemoryTier]); ERun (S i) (willing 5); ERun (S i) (willing 5); ERun (S i) (willing 5); ERun (S i) (willing 5)] in
  once 0%nat ++ once 2%nat.

(** Of two fetches of one block only one is ever served, wasted or marked: a removal
    does not touch the mark, and the second fetch overwrites it. *)
Theorem refetch_unaccounted : ∃ ls y, steps small_limits new refetch = Ret (ls, y) ∧ hits (counters (state y)) = 2 ∧
  lookup_hits_fetched (counters (state y)) + fetched_unused (counters (state y)) + Z.of_nat (size (marks (state y))) = 1.
Proof.
  destruct (steps small_limits new refetch) as [[ls y]|] eqn:E; [|vm_compute in E; discriminate E]. exists ls, y. split; [reflexivity|].
  assert ((λ x, match x with Ret (ls, y) => (hits (counters (state y)),
      lookup_hits_fetched (counters (state y)) + fetched_unused (counters (state y)) + Z.of_nat (size (marks (state y)))) | Panic => (0, 0) end)
    (steps small_limits new refetch) = (2, 1)) as H by (vm_compute; reflexivity).
  rewrite E in H. clear E. by simplify_eq.
Qed.

End Fetch.
