(* ===== verification/MetaFormat.v ===== *)
(** The on-disk format of the extended metadata store
    ([components/extended-metadata-store/src/on_disk.rs]): the superblock, the
    header of a region and the sector-aligned records of its entries, with the
    proof that reading a region gives back the entries that were written. *)

From S2P Require Import Prelude Bytes.
Local Open Scope Z_scope.

Module MetaFormat.

(** * Helpers of the format *)

(** [size.div_ceil(sector_size) * sector_size]; a sector size of zero panics. *)
Definition pad_to_sector (size sector_size : nat) : outcome nat :=
  match size with
  | O => Ret O
  | _ => match sector_size with
         | O => Panic
         | _ => Ret (((size + sector_size - 1) / sector_size) * sector_size)%nat
         end
  end.

Definition bytes_to_sectors (bytes sector_size : nat) : outcome nat :=
  p ← pad_to_sector bytes sector_size;
  match sector_size with O => Panic | _ => Ret (p / sector_size)%nat end.

(** One of the eight rounds per byte. *)
Definition crc_bit (crc : Z) : Z :=
  if Z.eqb (Z.land crc 1) 0 then Z.shiftr crc 1 else Z.lxor (Z.shiftr crc 1) 0xEDB88320.

Definition crc_byte (crc byte : Z) : Z := Nat.iter 8 crc_bit (Z.lxor crc byte).

Definition crc32_of (data : list Z) : Z :=
  Z.lxor (foldl crc_byte 0xFFFFFFFF data) 0xFFFFFFFF.

(** [String::from_utf8]: the well-formed byte sequences. *)
Definition cont (b : Z) : bool := (0x80 <=? b) && (b <=? 0xBF).

Fixpoint utf8 (bs : list Z) : bool :=
  match bs with
  | [] => true
  | b0 :: r0 =>
      if b0 <? 0x80 then utf8 r0
      else match r0 with
      | [] => false
      | b1 :: r1 =>
          if (0xC2 <=? b0) && (b0 <=? 0xDF) then cont b1 && utf8 r1
          else match r1 with
          | [] => false
          | b2 :: r2 =>
              if (0xE0 <=? b0) && (b0 <=? 0xEF) then
                cont b1 && cont b2 &&
                (if b0 =? 0xE0 then 0xA0 <=? b1 else if b0 =? 0xED then b1 <=? 0x9F else true) &&
                utf8 r2
              else match r2 with
              | [] => false
              | b3 :: r3 =>
                  (0xF0 <=? b0) && (b0 <=? 0xF4) && cont b1 && cont b2 && cont b3 &&
                  (if b0 =? 0xF0 then 0x90 <=? b1 else if b0 =? 0xF4 then b1 <=? 0x8F else true) &&
                  utf8 r3
              end
          end
      end
  end.

(** * The superblock *)

Definition SUPERBLOCK_MAGIC : Z := 0x434552544D455441.
Definition FORMAT_VERSION : Z := 1.

(** The field [crc32], which nothing reads, is left out. *)
Record Superblock := mkSb {
  sb_magic : Z;
  sb_version : Z;
  sb_sector_size : Z;
  partition_sectors : Z;
  region_a_offset : Z;
  region_a_size : Z;
  region_b_offset : Z;
  region_b_size : Z;
  active_region : Z;
  flush_seq : Z;
  entry_count : Z
}.

Definition new (sector_size partition_sectors : Z) : Superblock :=
  let '(region, a, b) :=
    if 1 <? partition_sectors then
      let region := (partition_sectors - 1) / 2 in (region, 1, 1 + region)
    else (0, 0, 0) in
  mkSb SUPERBLOCK_MAGIC FORMAT_VERSION sector_size partition_sectors a region b region 0 0 0.

(** The 80 bytes in front of the checksum. *)
Definition fields (s : Superblock) : list Z :=
  to_le_bytes 8 (sb_magic s) ++ to_le_bytes 4 (sb_version s) ++ to_le_bytes 4 (sb_sector_size s) ++
  to_le_bytes 8 (partition_sectors s) ++ to_le_bytes 8 (region_a_offset s) ++
  to_le_bytes 8 (region_a_size s) ++ to_le_bytes 8 (region_b_offset s) ++
  to_le_bytes 8 (region_b_size s) ++ to_le_bytes 8 (active_region s) ++
  to_le_bytes 8 (flush_seq s) ++ to_le_bytes 8 (entry_count s).

(** A buffer of one sector; writing past its end panics. *)
Definition serialize (s : Superblock) (sector_size : nat) : outcome (list Z) :=
  if (sector_size <? 84)%nat then Panic
  else Ret (fields s ++ to_le_bytes 4 (crc32_of (fields s)) ++ replicate (sector_size - 84) 0).

Definition deserialize (data : list Z) : option Superblock :=
  if (length data <? 84)%nat then None
  else if negb (rd 8 0 data =? SUPERBLOCK_MAGIC) then None
  else if negb (rd 4 8 data =? FORMAT_VERSION) then None
  else if negb (crc32_of (take 80 data) =? rd 4 80 data) then None
  else Some (mkSb (rd 8 0 data) (rd 4 8 data) (rd 4 12 data) (rd 8 16 data) (rd 8 24 data)
               (rd 8 32 data) (rd 8 40 data) (rd 8 48 data) (rd 8 56 data) (rd 8 64 data)
               (rd 8 72 data)).

Definition inactive_region_offset (s : Superblock) : Z :=
  if active_region s =? 0 then region_b_offset s else region_a_offset s.

Definition active_region_offset (s : Superblock) : Z :=
  if active_region s =? 0 then region_a_offset s else region_b_offset s.

(** * Regions *)

Record RegionHeader := mkHeader { h_flush_seq : Z; h_entry_count : Z; h_total_data_bytes : Z }.

Definition header_fields (h : RegionHeader) : list Z :=
  to_le_bytes 8 (h_flush_seq h) ++ to_le_bytes 4 (h_entry_count h) ++
  to_le_bytes 4 (h_total_data_bytes h).

Definition header_serialize (h : RegionHeader) (sector_size : nat) : outcome (list Z) :=
  if (sector_size <? 20)%nat then Panic
  else Ret (header_fields h ++ to_le_bytes 4 (crc32_of (header_fields h)) ++
            replicate (sector_size - 20) 0).

Definition header_deserialize (data : list Z) : option RegionHeader :=
  if (length data <? 20)%nat then None
  else if negb (crc32_of (take 16 data) =? rd 4 16 data) then None
  else Some (mkHeader (rd 8 0 data) (rd 4 8 data) (rd 4 12 data)).

(** Entries are pairs of the bytes of a key and a value. *)
Abbreviation KvEntry := (list Z * list Z)%type.

Definition HEADER_SIZE : nat := 12.

(** [key_bytes.len() as u16], [value.len() as u32] and the flags, always zero. *)
Definition record_head (e : KvEntry) : list Z :=
  to_le_bytes 2 (Z.of_nat (length e.1) mod 2 ^ 16) ++
  to_le_bytes 4 (Z.of_nat (length e.2) mod 2 ^ 32) ++ to_le_bytes 2 0.

Definition record_serialize (e : KvEntry) (sector_size : nat) : outcome (list Z) :=
  let raw := (HEADER_SIZE + length e.1 + length e.2)%nat in
  total ← pad_to_sector raw sector_size;
  Ret (record_head e ++ to_le_bytes 4 (crc32_of (record_head e ++ e.1 ++ e.2)) ++
       e.1 ++ e.2 ++ replicate (total - raw) 0).

(** The entry at the start of [data], and its size without padding. *)
Definition record_deserialize (data : list Z) : option (KvEntry * nat) :=
  if (length data <? HEADER_SIZE)%nat then None
  else
    let key_len := Z.to_nat (rd 2 0 data) in
    let value_len := Z.to_nat (rd 4 2 data) in
    let needed := (HEADER_SIZE + key_len + value_len)%nat in
    if (length data <? needed)%nat then None
    else
      let key_bytes := take key_len (drop HEADER_SIZE data) in
      let value_bytes := take value_len (drop (HEADER_SIZE + key_len) data) in
      if negb (crc32_of (take 8 data ++ take (key_len + value_len) (drop HEADER_SIZE data)) =?
               rd 4 8 data) then None
      else if utf8 key_bytes then Some ((key_bytes, value_bytes), needed) else None.

Fixpoint serialize_entries (es : list KvEntry) (sector_size : nat) : outcome (list Z) :=
  match es with
  | [] => Ret []
  | e :: es =>
      r ← record_serialize e sector_size;
      rest ← serialize_entries es sector_size;
      Ret (r ++ rest)
  end.

Definition serialize_region (es : list KvEntry) (seq : Z) (sector_size : nat) : outcome (list Z) :=
  entry_data ← serialize_entries es sector_size;
  header ← header_serialize
    (mkHeader seq (Z.of_nat (length es) mod 2 ^ 32) (Z.of_nat (length entry_data) mod 2 ^ 32))
    sector_size;
  Ret (header ++ entry_data).

(** [for _ in 0..header.entry_count], with [n] rounds left. A record that does
    not parse is skipped one sector at a time. *)
Fixpoint entries_loop (n : nat) (data : list Z) (sector_size offset : nat) (acc : list KvEntry) :
    outcome (list KvEntry) :=
  match n with
  | O => Ret acc
  | S n =>
      if (length data <=? offset)%nat then Ret acc
      else match record_deserialize (drop offset data) with
           | Some (e, raw_size) =>
               padded ← pad_to_sector raw_size sector_size;
               entries_loop n data sector_size (offset + padded) (acc ++ [e])
           | None => entries_loop n data sector_size (offset + sector_size) acc
           end
  end.

Definition deserialize_region (data : list Z) (sector_size : nat) :
    outcome (option (RegionHeader * list KvEntry)) :=
  if (length data <? sector_size)%nat then Ret None
  else match header_deserialize (take sector_size data) with
       | None => Ret None
       | Some h =>
           es ← entries_loop (Z.to_nat (h_entry_count h)) data sector_size sector_size [];
           Ret (Some (h, es))
       end.

(** * Round trips *)

Record sb_ok (s : Superblock) : Prop := {
  ok_magic : sb_magic s = SUPERBLOCK_MAGIC;
  ok_version : sb_version s = FORMAT_VERSION;
  ok_sector : is_u 32 (sb_sector_size s);
  ok_partition : is_u 64 (partition_sectors s);
  ok_a : is_u 64 (region_a_offset s) ∧ is_u 64 (region_a_size s);
  ok_b : is_u 64 (region_b_offset s) ∧ is_u 64 (region_b_size s);
  ok_active : is_u 64 (active_region s);
  ok_seq : is_u 64 (flush_seq s);
  ok_count : is_u 64 (entry_count s)
}.

(** What [put] lets in, and the format can hold: a key of less than 2^16 bytes. *)
Record entry_ok (e : KvEntry) : Prop := {
  key_bytes : Forall (is_u 8) e.1;
  value_bytes : Forall (is_u 8) e.2;
  key_fits : Z.of_nat (length e.1) < 2 ^ 16;
  value_fits : Z.of_nat (length e.2) < 2 ^ 32;
  key_utf8 : utf8 e.1 = true
}.

Lemma lxor_u w a b : 0 ≤ w → is_u w a → is_u w b → is_u w (Z.lxor a b).
Proof.
  intros Hw [A0 A1] [B0 B1]. assert (0 ≤ Z.lxor a b) as H0 by (apply Z.lxor_nonneg; lia).
  split; [done|]. destruct (decide (Z.lxor a b = 0)) as [->|]; [by apply Z.pow_pos_nonneg|].
  apply Z.log2_lt_pow2; [lia|]. eapply Z.le_lt_trans; [by apply Z.log2_lxor|].
  assert (∀ x, 0 ≤ x → x < 2 ^ w → Z.log2 x < w ∨ x = 0) as Hl.
  { intros x Hx Hx'. destruct (decide (x = 0)); [by right|]. left. apply Z.log2_lt_pow2; lia. }
  destruct (decide (w = 0)) as [->|].
  { assert (a = 0 ∧ b = 0) as [-> ->] by lia. done. }
  destruct (Hl a A0 A1) as [?| ->], (Hl b B0 B1) as [?| ->]; simpl; lia.
Qed.

Lemma crc_bit_u c : is_u 32 c → is_u 32 (crc_bit c).
Proof.
  intros [C0 C1]. assert (is_u 32 (Z.shiftr c 1)) as H.
  { rewrite Z.shiftr_div_pow2 by lia. split; [apply Z.div_pos; lia|].
    apply Z.div_lt_upper_bound; lia. }
  unfold crc_bit. destruct (_ =? _); [done|]. by apply lxor_u.
Qed.

Lemma crc_byte_u c b : is_u 32 c → is_u 8 b → is_u 32 (crc_byte c b).
Proof.
  intros Hc Hb. unfold crc_byte. assert (is_u 32 (Z.lxor c b)) as H.
  { apply lxor_u; [done..|]. unfold is_u in *. lia. }
  revert H. generalize (Z.lxor c b). intros x Hx.
  apply Nat.iter_ind; [done|]. intros y. apply crc_bit_u.
Qed.

Lemma crc32_u l : Forall (is_u 8) l → is_u 32 (crc32_of l).
Proof.
  intros Hl. unfold crc32_of. apply lxor_u; [done| |done].
  assert (is_u 32 0xFFFFFFFF) as H by done. revert H. generalize 0xFFFFFFFF.
  induction Hl as [|b l Hb Hl IH]; intros c Hc; [done|]. simpl. apply IH. by apply crc_byte_u.
Qed.

Lemma le_bytes_u n x : 0 ≤ n → Forall (is_u 8) (to_le_bytes n x).
Proof. intros Hn. by apply Z_to_little_endian_bound. Qed.

Lemma length_sb_fields s : length (fields s) = 80%nat.
Proof. unfold fields. rewrite !length_app, !length_to_le_bytes by lia. done. Qed.

Lemma fields_u s : Forall (is_u 8) (fields s).
Proof. unfold fields. rewrite !Forall_app. split_and!; by apply le_bytes_u. Qed.

Lemma read_fields s T (b := fields s ++ T) :
  sb_ok s →
  rd 8 0 b = sb_magic s ∧ rd 4 8 b = sb_version s ∧ rd 4 12 b = sb_sector_size s ∧
  rd 8 16 b = partition_sectors s ∧ rd 8 24 b = region_a_offset s ∧ rd 8 32 b = region_a_size s ∧
  rd 8 40 b = region_b_offset s ∧ rd 8 48 b = region_b_size s ∧ rd 8 56 b = active_region s ∧
  rd 8 64 b = flush_seq s ∧ rd 8 72 b = entry_count s.
Proof.
  intros [Hm Hv U1 U2 [U3 U4] [U5 U6] U7 U8 U9].
  assert (is_u (8 * 8) (sb_magic s)) as Vm by (rewrite Hm; done).
  assert (is_u (4 * 8) (sb_version s)) as Vv by (rewrite Hv; done).
  unfold b, fields. rewrite <- !app_assoc. split_and!; read_field.
Qed.

Lemma superblock_codec s ss :
  sb_ok s → (84 ≤ ss)%nat →
  ∃ buf, serialize s ss = Ret buf ∧ length buf = ss ∧ deserialize buf = Some s.
Proof.
  intros O Hss. unfold serialize. rewrite (proj2 (Nat.ltb_ge _ _)) by done.
  eexists; split; [done|]. set (crc := crc32_of (fields s)).
  assert (is_u 32 crc) as Uc by apply crc32_u, fields_u.
  assert (length (fields s ++ to_le_bytes 4 crc ++ replicate (ss - 84) 0) = ss) as HL.
  { rewrite !length_app, length_sb_fields, length_to_le_bytes, length_replicate by lia. lia. }
  split; [done|]. unfold deserialize. rewrite HL, (proj2 (Nat.ltb_ge _ _)) by done.
  rewrite take_app_length' by (symmetry; apply length_sb_fields). fold crc.
  rewrite (rd_app_skip 4 80 (fields s)) by apply length_sb_fields.
  rewrite (rd_le 4 4 crc) by done. rewrite Z.eqb_refl.
  destruct (read_fields s (to_le_bytes 4 crc ++ replicate (ss - 84) 0) O)
    as (-> & -> & -> & -> & -> & -> & -> & -> & -> & -> & ->).
  rewrite (ok_magic _ O), (ok_version _ O), !Z.eqb_refl. simpl. f_equal.
  rewrite <- (ok_magic _ O), <- (ok_version _ O). by destruct s.
Qed.

Lemma header_codec h ss rest :
  is_u 64 (h_flush_seq h) → is_u 32 (h_entry_count h) → is_u 32 (h_total_data_bytes h) →
  (20 ≤ ss)%nat →
  ∃ buf, header_serialize h ss = Ret buf ∧ length buf = ss ∧
         header_deserialize (take ss (buf ++ rest)) = Some h.
Proof.
  intros U1 U2 U3 Hss. unfold header_serialize. rewrite (proj2 (Nat.ltb_ge _ _)) by done.
  eexists; split; [done|]. set (crc := crc32_of (header_fields h)).
  assert (length (header_fields h) = 16%nat) as Hf.
  { unfold header_fields. rewrite !length_app, !length_to_le_bytes by lia. done. }
  assert (is_u 32 crc) as Uc.
  { apply crc32_u. unfold header_fields. rewrite !Forall_app. split_and!; by apply le_bytes_u. }
  assert (length (header_fields h ++ to_le_bytes 4 crc ++ replicate (ss - 20) 0) = ss) as HL.
  { rewrite !length_app, Hf, length_to_le_bytes, length_replicate by lia. lia. }
  split; [done|]. rewrite take_app_length' by done.
  unfold header_deserialize. rewrite HL, (proj2 (Nat.ltb_ge _ _)) by done.
  rewrite take_app_length' by done. fold crc. rewrite (rd_app_skip 4 16 (header_fields h)) by done.
  rewrite (rd_le 4 4 crc) by done. rewrite Z.eqb_refl.
  assert (∀ T, rd 8 0 (header_fields h ++ T) = h_flush_seq h ∧
    rd 4 8 (header_fields h ++ T) = h_entry_count h ∧
    rd 4 12 (header_fields h ++ T) = h_total_data_bytes h) as Hrd.
  { intros T. unfold header_fields. rewrite <- !app_assoc. split_and!; read_field. }
  destruct (Hrd (to_le_bytes 4 crc ++ replicate (ss - 20) 0)) as (-> & -> & ->). by destruct h.
Qed.

Lemma pad_to_sector_spec size ss :
  (0 < size)%nat → (0 < ss)%nat →
  pad_to_sector size ss = Ret ((size + ss - 1) / ss * ss)%nat ∧
  (size ≤ (size + ss - 1) / ss * ss < size + ss)%nat.
Proof.
  intros Hs Hss. unfold pad_to_sector. destruct size as [|n]; [lia|]. destruct ss as [|m]; [lia|].
  split; [done|].
  pose proof (Nat.div_mod_eq (S n + S m - 1) (S m)).
  pose proof (Nat.mod_upper_bound (S n + S m - 1) (S m)). lia.
Qed.

(** The sectors one record takes, and a region with its header. *)
Definition record_sectors (ss : nat) (e : KvEntry) : nat :=
  ((HEADER_SIZE + length e.1 + length e.2 + ss - 1) / ss)%nat.
Definition region_sectors (es : list KvEntry) (ss : nat) : nat :=
  S (sum_list (record_sectors ss <$> es)).

Lemma length_record_head e : length (record_head e) = 8%nat.
Proof. unfold record_head. rewrite !length_app, !length_to_le_bytes by lia. done. Qed.

Lemma record_codec e ss :
  entry_ok e → (0 < ss)%nat →
  ∃ buf, record_serialize e ss = Ret buf ∧ length buf = (record_sectors ss e * ss)%nat ∧
    (0 < record_sectors ss e)%nat ∧
    pad_to_sector (HEADER_SIZE + length e.1 + length e.2) ss = Ret (record_sectors ss e * ss)%nat ∧
    ∀ rest, record_deserialize (buf ++ rest) = Some (e, (HEADER_SIZE + length e.1 + length e.2)%nat).
Proof.
  intros [Kb Vb Hk Hv Hu] Hss. set (raw := (HEADER_SIZE + length e.1 + length e.2)%nat).
  destruct (pad_to_sector_spec raw ss) as (Ep & Hp); [unfold raw, HEADER_SIZE; lia|done|].
  unfold record_sectors. fold raw. set (k := ((raw + ss - 1) / ss)%nat) in *. clearbody k.
  unfold record_serialize. fold raw. rewrite Ep. simpl.
  set (crc := crc32_of (record_head e ++ e.1 ++ e.2)).
  assert (is_u 32 crc) as Uc.
  { apply crc32_u. unfold record_head. rewrite !Forall_app. split_and!; try done; by apply le_bytes_u. }
  exists (record_head e ++ to_le_bytes 4 crc ++ e.1 ++ e.2 ++ replicate (k * ss - raw) 0).
  split; [done|]. pose proof (length_record_head e) as Hh. split.
  { rewrite !length_app, Hh, length_to_le_bytes, length_replicate by lia. unfold raw, HEADER_SIZE in *.
    lia. }
  split; [unfold raw, HEADER_SIZE in *; nia|]. split; [done|]. intros rest. rewrite <- !app_assoc.
  set (T := replicate (k * ss - raw) 0 ++ rest). clearbody T.
  set (D := record_head e ++ to_le_bytes 4 crc ++ e.1 ++ e.2 ++ T).
  assert (length D = (12 + length e.1 + length e.2 + length T)%nat) as HL.
  { unfold D. rewrite !length_app, Hh, length_to_le_bytes by lia. lia. }
  assert (rd 2 0 D = Z.of_nat (length e.1) ∧ rd 4 2 D = Z.of_nat (length e.2) ∧ rd 4 8 D = crc)
    as (E1 & E2 & E3).
  { rewrite <- (Z.mod_small (Z.of_nat (length e.1)) (2 ^ 16)), <- (Z.mod_small (Z.of_nat (length e.2)) (2 ^ 32))
      by lia. unfold D, record_head. rewrite <- !app_assoc.
    split_and!; read_field; apply Z.mod_pos_bound; lia. }
  assert (take 8 D = record_head e) as E4 by (unfold D; by rewrite take_app_length').
  assert (drop 12 D = e.1 ++ e.2 ++ T) as E5.
  { unfold D. rewrite app_assoc. apply drop_app_length'.
    rewrite length_app, Hh, length_to_le_bytes by lia. done. }
  unfold record_deserialize, HEADER_SIZE. rewrite HL, (proj2 (Nat.ltb_ge _ _)) by lia.
  rewrite E1, E2, E3, !Nat2Z.id, E4, (proj2 (Nat.ltb_ge _ _)) by lia.
  assert (take (length e.1 + length e.2) (e.1 ++ e.2 ++ T) = e.1 ++ e.2) as E6.
  { rewrite app_assoc. apply take_app_length'. by rewrite length_app. }
  rewrite <- drop_drop, E5, E6, drop_app_length, !take_app_length. fold crc.
  rewrite Z.eqb_refl, Hu. simpl. by destruct e.
Qed.

Lemma entries_codec es ss :
  Forall entry_ok es → (0 < ss)%nat →
  ∃ buf, serialize_entries es ss = Ret buf ∧
    length buf = (sum_list (record_sectors ss <$> es) * ss)%nat ∧
    ∀ data offset acc rest, drop offset data = buf ++ rest →
      entries_loop (length es) data ss offset acc = Ret (acc ++ es).
Proof.
  intros HF Hss. induction HF as [|e es He HF (buf & E & HL & IH)].
  { exists []. split_and!; [done..|]. intros. simpl. by rewrite app_nil_r. }
  destruct (record_codec e ss He Hss) as (r & Er & Hr & Hk & Ep & Hd).
  exists (r ++ buf). simpl. rewrite Er. simpl. rewrite E. simpl.
  split_and!; [done|rewrite length_app, Hr, HL; symmetry; apply Nat.mul_add_distr_r|].
  intros data offset acc rest Hdrop.
  rewrite <- app_assoc in Hdrop.
  assert (offset < length data)%nat as Hlt.
  { apply (f_equal length) in Hdrop. rewrite length_drop, !length_app in Hdrop. nia. }
  rewrite (proj2 (Nat.leb_gt _ _)) by done. rewrite Hdrop, Hd, Ep. simpl.
  rewrite (IH _ _ _ rest); [by rewrite <- app_assoc|].
  by rewrite <- drop_drop, Hdrop, drop_app_length'.
Qed.

Lemma region_codec es seq ss :
  Forall entry_ok es → is_u 64 seq → Z.of_nat (length es) < 2 ^ 32 → (20 ≤ ss)%nat →
  ∃ buf, serialize_region es seq ss = Ret buf ∧ length buf = (region_sectors es ss * ss)%nat ∧
    ∃ h, h_flush_seq h = seq ∧ h_entry_count h = Z.of_nat (length es) ∧
      ∀ rest, deserialize_region (buf ++ rest) ss = Ret (Some (h, es)).
Proof.
  intros HF Hs Hn Hss. destruct (entries_codec es ss HF) as (buf & E & HL & Hloop); [lia|].
  unfold serialize_region. rewrite E. simpl. rewrite Z.mod_small by lia.
  set (h := mkHeader seq (Z.of_nat (length es)) (Z.of_nat (length buf) mod 2 ^ 32)).
  assert (is_u 32 (h_total_data_bytes h)) as Ut by (apply Z.mod_pos_bound; lia).
  assert (is_u 32 (h_entry_count h)) as Ue by (unfold is_u; simpl; lia).
  destruct (header_codec h ss [] Hs Ue Ut Hss) as (hb & Eh & Hh & _). rewrite Eh. simpl.
  exists (hb ++ buf). split_and!; [done|rewrite length_app, Hh, HL; done|].
  exists h. split_and!; [done..|]. intros rest. unfold deserialize_region.
  rewrite (proj2 (Nat.ltb_ge _ _)) by (rewrite !length_app; lia).
  destruct (header_codec h ss (buf ++ rest) Hs Ue Ut Hss) as (hb' & Eh' & _ & Hd).
  rewrite Eh in Eh'. injection Eh' as <-. rewrite <- app_assoc, Hd. simpl.
  rewrite Nat2Z.id, (Hloop _ _ [] rest); [done|]. by rewrite drop_app_length'.
Qed.

(** Reading never panics. *)
Lemma entries_loop_total n data ss offset acc :
  (0 < ss)%nat → ∃ es, entries_loop n data ss offset acc = Ret es.
Proof.
  intros Hss. revert offset acc. induction n as [|n IH]; intros offset acc; simpl; [eauto|].
  destruct (_ <=? _)%nat; [eauto|]. destruct (record_deserialize _) as [[e raw]|]; [|apply IH].
  destruct raw as [|raw]; simpl; [apply IH|]. destruct ss as [|ss]; [lia|]. apply IH.
Qed.

Lemma deserialize_region_total data ss :
  (0 < ss)%nat → ∃ r, deserialize_region data ss = Ret r.
Proof.
  intros Hss. unfold deserialize_region. destruct (_ <? _)%nat; [eauto|].
  destruct (header_deserialize _) as [h|]; [|eauto].
  destruct (entries_loop_total (Z.to_nat (h_entry_count h)) data ss ss [] Hss) as [es ->]. eauto.
Qed.

(** A key that is read back has less than 2^16 bytes, whatever the sectors hold. *)
Lemma rd_bound n pos data : Forall (is_u 8) data → 0 ≤ rd n pos data < 2 ^ (8 * Z.of_nat n).
Proof.
  intros HF. unfold rd, from_le_bytes. set (l := take n (drop pos data)).
  assert (Forall (is_u 8) l) as Hl by (by apply Forall_take, Forall_drop).
  assert (length l ≤ n)%nat as Hn by (unfold l; rewrite length_take; lia).
  pose proof (little_endian_to_Z_bound 8 l ltac:(lia) Hl) as [H0 H1]. split; [done|].
  eapply Z.lt_le_trans; [done|]. apply Z.pow_le_mono_r; lia.
Qed.

Lemma record_key_short data e raw :
  Forall (is_u 8) data → record_deserialize data = Some (e, raw) → Z.of_nat (length e.1) < 2 ^ 16.
Proof.
  intros HF. unfold record_deserialize. repeat case_match; intros [= <- _]; try done. simpl.
  pose proof (rd_bound 2 0 data HF) as Hb. rewrite length_take. lia.
Qed.

Lemma entries_loop_keys n data ss offset acc es :
  Forall (is_u 8) data → Forall (λ e : KvEntry, Z.of_nat (length e.1) < 2 ^ 16) acc →
  entries_loop n data ss offset acc = Ret es → Forall (λ e : KvEntry, Z.of_nat (length e.1) < 2 ^ 16) es.
Proof.
  intros HF. revert offset acc. induction n as [|n IH]; intros offset acc Ha; simpl; [by intros [= <-]|].
  destruct (_ <=? _)%nat; [by intros [= <-]|].
  destruct (record_deserialize _) as [[e raw]|] eqn:E; [|by apply IH].
  destruct (pad_to_sector raw ss) as [p|]; [simpl|done]. apply IH. apply Forall_app. split; [done|].
  apply Forall_singleton. eapply record_key_short; [|done]. by apply Forall_drop.
Qed.

Lemma deserialize_region_keys data ss h es :
  Forall (is_u 8) data → deserialize_region data ss = Ret (Some (h, es)) →
  Forall (λ e : KvEntry, Z.of_nat (length e.1) < 2 ^ 16) es.
Proof.
  intros HF. unfold deserialize_region. destruct (_ <? _)%nat; [done|].
  destruct (header_deserialize _) as [h'|]; [|done].
  destruct (entries_loop _ _ _ _ _) as [es'|] eqn:E; [|done]. intros [= -> ->].
  by eapply entries_loop_keys in E.
Qed.

(** Any entries can be written and read, whether or not the format can hold them. *)
Definition bytes_ok (e : KvEntry) : Prop := Forall (is_u 8) e.1 ∧ Forall (is_u 8) e.2.

Lemma record_total e ss :
  bytes_ok e → (0 < ss)%nat → ∃ buf, record_serialize e ss = Ret buf ∧ Forall (is_u 8) buf.
Proof.
  intros [Hk Hv] Hss. unfold record_serialize.
  destruct (pad_to_sector_spec (HEADER_SIZE + length e.1 + length e.2) ss) as [-> _];
    [unfold HEADER_SIZE; lia|done|].
  rewrite bind_Ret_l. eexists. split; [done|]. unfold record_head. rewrite !Forall_app.
  split_and!; try done; try by apply le_bytes_u. by apply Forall_replicate.
Qed.

Lemma entries_total es ss :
  Forall bytes_ok es → (0 < ss)%nat →
  ∃ buf, serialize_entries es ss = Ret buf ∧ Forall (is_u 8) buf.
Proof.
  intros HF Hss. induction HF as [|e es He HF (buf & E & Hb)]; simpl; [eauto|].
  destruct (record_total e ss He Hss) as (r & -> & Hr). simpl. rewrite E. simpl.
  eexists. split; [done|]. by apply Forall_app.
Qed.

Lemma region_total es seq ss :
  Forall bytes_ok es → is_u 64 seq → (20 ≤ ss)%nat →
  ∃ buf h es', serialize_region es seq ss = Ret buf ∧ Forall (is_u 8) buf ∧
    deserialize_region buf ss = Ret (Some (h, es')).
Proof.
  intros HF Hs Hss. destruct (entries_total es ss HF) as (buf & E & Hb); [lia|].
  unfold serialize_region. rewrite E. simpl.
  set (h := mkHeader seq (Z.of_nat (length es) mod 2 ^ 32) (Z.of_nat (length buf) mod 2 ^ 32)).
  destruct (header_codec h ss buf Hs) as (hb & Eh & Hh & Hd);
    [apply Z.mod_pos_bound; lia|apply Z.mod_pos_bound; lia|done|]. rewrite Eh. simpl.
  destruct (entries_loop_total (Z.to_nat (h_entry_count h)) (hb ++ buf) ss ss []) as [es' El]; [lia|].
  exists (hb ++ buf), h, es'. split_and!; [done| |].
  - apply Forall_app. split; [|done]. unfold header_serialize in Eh.
    rewrite (proj2 (Nat.ltb_ge _ _)) in Eh by done.
    assert (hb = header_fields h ++ to_le_bytes 4 (crc32_of (header_fields h)) ++ replicate (ss - 20) 0)
      as -> by congruence. unfold header_fields. rewrite !Forall_app. split_and!; try by apply le_bytes_u. by apply Forall_replicate.
  - unfold deserialize_region. rewrite (proj2 (Nat.ltb_ge _ _)) by (rewrite length_app; lia).
    rewrite Hd. by rewrite El.
Qed.

(** * Properties *)

(** A region is read back as it was written: for entries the format can
    hold, [serialize_region] returns the whole number of sectors
    [region_sectors] counts, and reading them,
    whatever follows them in the region, returns the flush number and exactly
    these entries in this order; likewise the superblock. *)
Theorem metadata_format_round_trip es seq s ss :
  Forall entry_ok es → is_u 64 seq → Z.of_nat (length es) < 2 ^ 32 → sb_ok s → (84 ≤ ss)%nat →
  (∃ buf, serialize_region es seq ss = Ret buf ∧ length buf = (region_sectors es ss * ss)%nat ∧
     ∀ rest, ∃ h, deserialize_region (buf ++ rest) ss = Ret (Some (h, es)) ∧ h_flush_seq h = seq) ∧
  ∃ buf, serialize s ss = Ret buf ∧ length buf = ss ∧ deserialize buf = Some s.
Proof.
  intros HF Hs Hn O Hss. split; [|by apply superblock_codec].
  destruct (region_codec es seq ss HF Hs Hn) as (buf & E & HL & h & Eh & _ & Hd); [lia|].
  exists buf. split_and!; [done..|]. intros rest. exists h. done.
Qed.

Definition entry_a : KvEntry := ([97], replicate 40 0).
Definition entry_b : KvEntry := ([98], [1]).
Definition entry_c : KvEntry := ([99], [2]).

Lemma metadata_format_round_trip_witness :
  Forall entry_ok [entry_a; entry_b] ∧ sb_ok (new 96 101) ∧
  (∃ buf, serialize_region [entry_a; entry_b] 5 96 = Ret buf ∧
     length buf = (region_sectors [entry_a; entry_b] 96 * 96)%nat ∧
     ∀ rest, ∃ h, deserialize_region (buf ++ rest) 96 = Ret (Some (h, [entry_a; entry_b])) ∧
                  h_flush_seq h = 5) ∧
  ∃ buf, serialize (new 96 101) 96 = Ret buf ∧ length buf = 96%nat ∧
         deserialize buf = Some (new 96 101).
Proof.
  assert (Forall entry_ok [entry_a; entry_b]) as HF.
  { repeat apply Forall_cons_2; [..|apply Forall_nil_2]; split;
      try done; repeat apply Forall_cons_2; try apply Forall_nil_2; by vm_compute. }
  assert (sb_ok (new 96 101)) as O by (split; by vm_compute).
  split; [exact HF|]. split; [exact O|].
  apply (metadata_format_round_trip [entry_a; entry_b] 5 (new 96 101) 96);
    [exact HF|by vm_compute|by vm_compute|exact O|by vm_compute; lia].
Defined.

(** One corrupt record can hide intact ones: the loop over [entry_count]
    records spends one of its rounds on every sector of a record it cannot read,
    so that after a single flipped byte in a record of two sectors the last
    record of the region, itself intact, is not returned. *)
Theorem corrupt_record_hides_entries :
  ∃ buf h, serialize_region [entry_a; entry_b; entry_c] 1 32 = Ret buf ∧
    deserialize_region buf 32 = Ret (Some (h, [entry_a; entry_b; entry_c])) ∧
    record_deserialize (drop 128 (<[45%nat := 1]> buf)) = Some (entry_c, 14%nat) ∧
    deserialize_region (<[45%nat := 1]> buf) 32 = Ret (Some (h, [entry_b])).
Proof.
  eexists _, (mkHeader 1 3 128). split; [vm_compute; reflexivity|].
  split; [vm_compute; reflexivity|]. split; vm_compute; reflexivity.
Qed.

End MetaFormat.
