(* ===== verification/MetaStore.v ===== *)
(** The extended metadata store (components/extended-metadata-store/src): the
    key-value map with its dirty counters ([lib.rs]), sector I/O ([block_io.rs]),
    the two-region flush ([flush.rs], [flush_to_disk]) and recovery
    ([recovery.rs]), with the proof that a flush cut off after any number of
    sector writes leaves the old or the new entries, and the cases in which
    entries are lost. *)

From S2P Require Import Prelude Bytes Checkpoint MetaFormat.
Local Open Scope Z_scope.

Module MetaStore.
Import Device MetaFormat.

(** * Sector I/O

    The write loop of [block_io.rs] is the one of the extent manager: one sector
    per command, the last one zero-padded, and a budget of writes the device
    still completes. *)

Inductive StoreError := IoError | RegionFull | ValueTooLarge | NotFound.

Definition write_sectors (c : client) (budget : nat) (d : Disk) (lba : Z) (data : list Z) :
    result unit StoreError * Disk * nat :=
  match write_blocks c budget d lba data with
  | (Ok _, d, b) => (Ok (), d, b)
  | (Err _, d, b) => (Err IoError, d, b)
  end.

(** [for i in 0..count]; sector [i] onwards, [m] sectors left. *)
Fixpoint read_loop (c : client) (d : Disk) (lba : Z) (i m : nat) : result (list Z) StoreError :=
  match m with
  | O => Ok []
  | S m =>
      match d (base_lba c + lba + Z.of_nat i) with
      | None => Err IoError
      | Some s =>
          match read_loop c d lba (S i) m with
          | Ok rest => Ok (take (sector_size c) s ++ rest)
          | Err e => Err e
          end
      end
  end.

Definition read_sectors (c : client) (d : Disk) (lba : Z) (count : nat) : result (list Z) StoreError :=
  read_loop c d lba 0 count.

Definition read_superblock (c : client) (d : Disk) : result (option Superblock) StoreError :=
  match read_sectors c d 0 1 with
  | Ok data => Ok (deserialize data)
  | Err e => Err e
  end.

(** * Flush *)

Definition activate (sb : Superblock) (seq count : Z) : Superblock :=
  mkSb (sb_magic sb) (sb_version sb) (sb_sector_size sb) (partition_sectors sb)
    (region_a_offset sb) (region_a_size sb) (region_b_offset sb) (region_b_size sb)
    (if active_region sb =? 0 then 1 else 0) seq count.

(** The in-memory superblock is changed before it is written. *)
Definition flush_to_disk (c : client) (budget : nat) (d : Disk) (sb : Superblock) (es : list KvEntry) :
    outcome (result unit StoreError * Superblock * Disk * nat) :=
  new_seq ← add_w 64 (flush_seq sb) 1;
  region_data ← serialize_region es new_seq (sector_size c);
  region_sectors ← bytes_to_sectors (length region_data) (sector_size c);
  if region_a_size sb <? Z.of_nat region_sectors then Ret (Err RegionFull, sb, d, budget)
  else
    match write_sectors c budget d (inactive_region_offset sb) region_data with
    | (Err e, d, b) => Ret (Err e, sb, d, b)
    | (Ok _, d, b) =>
        let sb := activate sb new_seq (Z.of_nat (length es)) in
        buf ← serialize sb (sector_size c);
        let '(r, d, b) := write_sectors c b d 0 buf in
        Ret (r, sb, d, b)
    end.

(** * Recovery *)

Inductive Warning := SeqMismatch | ActiveCorrupt | FromInactive | FreshFormat | FormattedFresh.

Record RecoveryResult := mkRecovery {
  r_superblock : Superblock;
  r_entries : list KvEntry;
  r_warnings : list Warning
}.

Definition try_read_region (c : client) (d : Disk) (offset max_sectors : Z) :
    outcome (option (RegionHeader * list KvEntry)) :=
  match read_sectors c d offset (Z.to_nat max_sectors) with
  | Err _ => Ret None
  | Ok data => deserialize_region data (sector_size c)
  end.

Definition format_fresh (c : client) : RecoveryResult :=
  mkRecovery (new (Z.of_nat (sector_size c)) 0) [] [FreshFormat].

Definition recover_from_disk (c : client) (d : Disk) : outcome (result RecoveryResult StoreError) :=
  match read_superblock c d with
  | Err e => Ret (Err e)
  | Ok None => Ret (Ok (format_fresh c))
  | Ok (Some sb) =>
      if flush_seq sb =? 0 then Ret (Ok (mkRecovery sb [] []))
      else
        active ← try_read_region c d (active_region_offset sb) (region_a_size sb);
        let fallback (w : Warning) :=
          inactive ← try_read_region c d (inactive_region_offset sb) (region_a_size sb);
          match inactive with
          | Some (_, es) => Ret (Ok (mkRecovery sb es [w; FromInactive]))
          | None => Ret (Ok (format_fresh c))
          end in
        match active with
        | Some (h, es) =>
            if h_flush_seq h =? flush_seq sb then Ret (Ok (mkRecovery sb es []))
            else fallback SeqMismatch
        | None => fallback ActiveCorrupt
        end
  end.

Definition format_partition (c : client) (budget : nat) (d : Disk) (total_sectors : Z) :
    outcome (result Superblock StoreError * Disk * nat) :=
  let sb := new (Z.of_nat (sector_size c)) total_sectors in
  buf ← serialize sb (sector_size c);
  match write_sectors c budget d 0 buf with
  | (Ok _, d, b) => Ret (Ok sb, d, b)
  | (Err e, d, b) => Ret (Err e, d, b)
  end.

(** * The component *)

Definition MAX_VALUE_SIZE : Z := 128 * 1024.

(** The counters are [u64]s that grow by one per mutation; they are not bounded here. *)
Record Store := mkStore {
  store : gmap (list Z) (list Z);
  dirty_count : Z;
  snapshot_dirty : Z;
  s_flush_seq : Z
}.

Definition new_store : Store := mkStore ∅ 0 0 0.

Definition put (st : Store) (key value : list Z) : result unit StoreError * Store :=
  if MAX_VALUE_SIZE <? Z.of_nat (length value) then (Err ValueTooLarge, st)
  else (Ok (), mkStore (<[key := value]> (store st)) (dirty_count st + 1) (snapshot_dirty st) (s_flush_seq st)).

Definition get (st : Store) (key : list Z) : result (list Z) StoreError :=
  match store st !! key with Some v => Ok v | None => Err NotFound end.

Definition delete_key (st : Store) (key : list Z) : result unit StoreError * Store :=
  (Ok (), mkStore (delete key (store st)) (dirty_count st + 1) (snapshot_dirty st) (s_flush_seq st)).

(** The entries in some order. *)
Definition iterate_all (st : Store) : list KvEntry := map_to_list (store st).

Definition load_entries (st : Store) (es : list KvEntry) : Store :=
  mkStore (foldl (λ m e, <[e.1 := e.2]> m) ∅ es) 0 0 (s_flush_seq st).

Definition snapshot_entries (st : Store) : list KvEntry * Store :=
  (map_to_list (store st), mkStore (store st) (dirty_count st) (dirty_count st) (s_flush_seq st)).

Definition mark_flushed (st : Store) (seq : Z) : Store :=
  mkStore (store st) (Z.max 0 (dirty_count st - snapshot_dirty st)) 0 seq.

Definition initialize_from_client (st : Store) (c : client) (budget : nat) (d : Disk) (total_sectors : Z) :
    outcome (result (Superblock * list Warning) StoreError * Store * Disk * nat) :=
  r ← recover_from_disk c d;
  match r with
  | Err e => Ret (Err e, st, d, budget)
  | Ok r =>
      let finish (sb : Superblock) (ws : list Warning) (d : Disk) (b : nat) :=
        let st := match r_entries r with [] => st | es => load_entries st es end in
        Ret (Ok (sb, ws), mkStore (store st) (dirty_count st) (snapshot_dirty st) (flush_seq sb), d, b) in
      if partition_sectors (r_superblock r) =? 0 then
        f ← format_partition c budget d total_sectors;
        match f with
        | (Ok sb, d, b) => finish sb (r_warnings r ++ [FormattedFresh]) d b
        | (Err e, d, b) => Ret (Err e, st, d, b)
        end
      else finish (r_superblock r) (r_warnings r) d budget
  end.

(** * What the disk records *)

Section durability.
Context (c : client) (Hss : (84 ≤ sector_size c)%nat).

(** The layout [Superblock::new] makes: two regions of one size behind the superblock. *)
Record geometry (sb : Superblock) : Prop := {
  geo_ok : sb_ok sb;
  geo_a : region_a_offset sb = 1;
  geo_size : 0 ≤ region_a_size sb;
  geo_b : region_b_offset sb = 1 + region_a_size sb;
  geo_active : active_region sb = 0 ∨ active_region sb = 1;
  geo_partition : 0 < partition_sectors sb
}.

(** Entries the format can hold. *)
Definition entries_ok (es : list KvEntry) : Prop :=
  Forall entry_ok es ∧ Z.of_nat (length es) < 2 ^ 32.

(** Every sector of the partition reads. *)
Definition readable (d : Disk) (sb : Superblock) : Prop :=
  ∀ l, 0 ≤ l < 1 + 2 * region_a_size sb →
    ∃ s, d (base_lba c + l) = Some s ∧ length s = sector_size c.

(** A region starts with the image of [es] under flush number [seq]. *)
Definition region_holds (d : Disk) (sb : Superblock) (off seq : Z) (es : list KvEntry) : Prop :=
  ∃ buf, serialize_region es seq (sector_size c) = Ret buf ∧
    length buf = (region_sectors es (sector_size c) * sector_size c)%nat ∧
    Z.of_nat (region_sectors es (sector_size c)) ≤ region_a_size sb ∧ holds_data c d off buf.

Record records (d : Disk) (sb : Superblock) (es : list KvEntry) : Prop := {
  rec_geometry : geometry sb;
  rec_entries : entries_ok es;
  rec_readable : readable d sb;
  rec_superblock : ∃ buf, serialize sb (sector_size c) = Ret buf ∧ d (base_lba c) = Some buf;
  rec_region : flush_seq sb = 0 ∧ es = [] ∨
    flush_seq sb ≠ 0 ∧ region_holds d sb (active_region_offset sb) (flush_seq sb) es
}.

Lemma active_bounds sb : geometry sb →
  1 ≤ active_region_offset sb ∧ active_region_offset sb + region_a_size sb ≤ 1 + 2 * region_a_size sb ∧
  1 ≤ inactive_region_offset sb ∧ inactive_region_offset sb + region_a_size sb ≤ 1 + 2 * region_a_size sb ∧
  (active_region_offset sb + region_a_size sb ≤ inactive_region_offset sb ∨
   inactive_region_offset sb + region_a_size sb ≤ active_region_offset sb).
Proof.
  intros [_ Ha Hs Hb Hact _]. unfold active_region_offset, inactive_region_offset.
  rewrite Ha, Hb. destruct Hact as [-> | ->]; simpl; lia.
Qed.

(** ** Reading *)

Lemma read_loop_readable d lba i m :
  (∀ j, (i ≤ j < i + m)%nat → ∃ s, d (base_lba c + lba + Z.of_nat j) = Some s ∧ length s = sector_size c) →
  ∃ r, read_loop c d lba i m = Ok r.
Proof.
  revert i. induction m as [|m IH]; intros i Hr; simpl; [eauto|].
  destruct (Hr i) as (s & -> & _); [lia|]. destruct (IH (S i)) as [r ->]; [|eauto].
  intros j Hj. apply Hr. lia.
Qed.

(** The image at the start of a region comes first in what is read. *)
Lemma read_loop_image d lba n i m buf r :
  length buf = (n * sector_size c)%nat →
  (∀ j, (j < n)%nat → d (base_lba c + lba + Z.of_nat (i + j)) =
     Some (take (sector_size c) (drop (j * sector_size c) buf))) →
  read_loop c d lba (i + n) m = Ok r → read_loop c d lba i (n + m) = Ok (buf ++ r).
Proof.
  revert i buf. induction n as [|n IH]; intros i buf HL Hd Hr; simpl in *.
  { rewrite Nat.add_0_r in Hr. by apply nil_length_inv in HL as ->. }
  pose proof (Hd 0%nat ltac:(lia)) as H0. simpl in H0. rewrite Nat.add_0_r, drop_0 in H0. rewrite H0.
  rewrite (IH (S i) (drop (sector_size c) buf)).
  - rewrite take_take, Nat.min_id, app_assoc, take_drop. done.
  - rewrite length_drop. lia.
  - intros j Hj. replace (S i + j)%nat with (i + S j)%nat by lia. rewrite Hd by lia.
    by rewrite drop_drop.
  - by replace (S i + n)%nat with (i + S n)%nat by lia.
Qed.

Lemma holds_image d lba n buf j :
  length buf = (n * sector_size c)%nat → holds_data c d lba buf → (j < n)%nat →
  d (base_lba c + lba + Z.of_nat j) = Some (take (sector_size c) (drop (j * sector_size c) buf)).
Proof.
  intros HL Hd Hj. assert (num_blocks c (length buf) = n) as Hn by (rewrite HL; apply num_blocks_mul; lia).
  rewrite Hd by (rewrite Hn; lia). unfold block, pad. rewrite Hn, HL, Nat.sub_diag, app_nil_r. done.
Qed.

Lemma try_read_image d sb off seq es :
  readable d sb → 1 ≤ off → off + region_a_size sb ≤ 1 + 2 * region_a_size sb → 0 ≤ region_a_size sb →
  entries_ok es → is_u 64 seq → region_holds d sb off seq es →
  ∃ h, try_read_region c d off (region_a_size sb) = Ret (Some (h, es)) ∧ h_flush_seq h = seq.
Proof.
  intros Hr H1 H2 H3 [HF Hn] Hs (buf & E & HL & Hsz & Hd).
  destruct (region_codec es seq (sector_size c) HF Hs Hn) as (buf' & E' & _ & h & Eh & _ & Hde); [lia|].
  set (n := region_sectors es (sector_size c)) in *. clearbody n.
  rewrite E in E'. injection E' as <-. exists h. split; [|done].
  unfold try_read_region, read_sectors.
  destruct (read_loop_readable d off n (Z.to_nat (region_a_size sb) - n)) as [r Er].
  { intros j Hj. destruct (Hr (off + Z.of_nat j)) as (s & Es & Hls); [lia|].
    exists s. by replace (base_lba c + off + Z.of_nat j) with (base_lba c + (off + Z.of_nat j)) by lia. }
  replace (Z.to_nat (region_a_size sb)) with (n + (Z.to_nat (region_a_size sb) - n))%nat by lia.
  rewrite (read_loop_image d off n 0 _ buf r); [apply Hde|done| |done].
  intros j Hj. by eapply holds_image.
Qed.

Lemma read_recorded d sb es : records d sb es → read_superblock c d = Ok (Some sb).
Proof.
  intros [G _ _ (buf & E & Hd) _]. unfold read_superblock, read_sectors. simpl.
  rewrite !Z.add_0_r, Hd. destruct (superblock_codec sb (sector_size c) (geo_ok _ G) Hss) as (buf' & E' & HL & Hde).
  rewrite E in E'. injection E' as <-. by rewrite app_nil_r, take_ge, Hde by lia.
Qed.

Lemma recover_recorded d sb es :
  records d sb es → recover_from_disk c d = Ret (Ok (mkRecovery sb es [])).
Proof.
  intros R. pose proof (active_bounds sb (rec_geometry _ _ _ R)) as (A1 & A2 & _).
  unfold recover_from_disk. rewrite (read_recorded _ _ _ R).
  destruct (rec_region _ _ _ R) as [[-> ->]|[Hne Hh]]; [done|].
  rewrite (proj2 (Z.eqb_neq _ _) Hne).
  destruct (try_read_image d sb (active_region_offset sb) (flush_seq sb) es) as (h & -> & Eh);
    [apply R|done|done|apply R|apply R| |done|].
  { apply (geo_ok _ (rec_geometry _ _ _ R)). }
  simpl. by rewrite Eh, Z.eqb_refl.
Qed.

(** ** Writing *)

(** Sectors a write does not reach keep their contents, and sectors that read
    before still read, however many sectors were written. *)
Lemma write_sectors_spec budget d lba n data :
  length data = (n * sector_size c)%nat →
  ∃ r d' b, write_sectors c budget d lba data = (r, d', b) ∧
    (∀ l, (l < base_lba c + lba ∨ base_lba c + lba + Z.of_nat n ≤ l) → d' l = d l) ∧
    (∀ l s, d l = Some s → length s = sector_size c → ∃ s', d' l = Some s' ∧ length s' = sector_size c) ∧
    (budget = 0%nat → d' = d) ∧
    if (n <=? budget)%nat then r = Ok () ∧ b = (budget - n)%nat ∧ holds_data c d' lba data
    else r = Err IoError.
Proof.
  intros HL. assert (0 < sector_size c)%nat as H0 by lia.
  assert (num_blocks c (length data) = n) as Hn by (rewrite HL; by apply num_blocks_mul).
  assert (pad c data = data) as Hp by (unfold pad; rewrite Hn, HL, Nat.sub_diag; apply app_nil_r).
  assert (∀ l s, d l = Some s → length s = sector_size c →
    ∃ s', (write_blocks c budget d lba data).1.2 l = Some s' ∧ length s' = sector_size c) as Hk.
  { intros l s Hl Hs. unfold write_blocks. rewrite Hn.
    destruct (decide (base_lba c + lba ≤ l < base_lba c + lba + Z.of_nat n)) as [Hin|Hout].
    - pose proof (write_loop_each c H0 budget d lba (pad c data) 0 n (Z.to_nat (l - base_lba c - lba)) ltac:(lia)) as He.
      replace (base_lba c + lba + Z.of_nat (Z.to_nat (l - base_lba c - lba))) with l in He by lia.
      destruct He as [->|[-> _]]; [|eauto]. eexists. split; [done|]. apply length_block; [done|].
      rewrite Hp, HL. nia.
    - rewrite (write_loop_other c H0) by lia. eauto. }
  assert (budget = 0%nat → (write_blocks c budget d lba data).1.2 = d) as Hz.
  { intros ->. unfold write_blocks. by destruct (num_blocks _ _). }
  unfold write_sectors. destruct (n <=? budget)%nat eqn:Eb.
  - apply Nat.leb_le in Eb. destruct (write_blocks_full c H0 budget d lba data) as (d' & E & Hh & Ho); [lia|].
    rewrite E in *. rewrite Hn in *. do 3 eexists. split; [done|]. split_and!; try done.
  - apply Nat.leb_gt in Eb. destruct (write_blocks_short c H0 budget d lba data) as (d' & b & E & Ho); [lia|].
    rewrite E in *. rewrite Hn in *. do 3 eexists. split; [done|]. split_and!; done.
Qed.

Lemma region_holds_frame d d' sb off seq es :
  (∀ l, base_lba c + off ≤ l < base_lba c + off + region_a_size sb → d' l = d l) →
  region_holds d sb off seq es → region_holds d' sb off seq es.
Proof.
  intros He (buf & E & HL & Hn & Hd). exists buf. split_and!; try done.
  eapply holds_data_frame; [lia| |done]. intros l Hl. apply He.
  rewrite HL, num_blocks_mul in Hl by lia. lia.
Qed.

(** The record survives changes of the inactive region. *)
Lemma records_frame d d' sb es :
  records d sb es → readable d' sb →
  (∀ l, l < base_lba c + inactive_region_offset sb ∨
        base_lba c + inactive_region_offset sb + region_a_size sb ≤ l → d' l = d l) →
  records d' sb es.
Proof.
  intros R Hr He. pose proof (active_bounds sb (rec_geometry _ _ _ R)) as (A1 & A2 & A3 & A4 & A5).
  split; try apply R; [done|..].
  - destruct (rec_superblock _ _ _ R) as (buf & E & Hd). exists buf. split; [done|].
    rewrite He; [done|]. lia.
  - destruct (rec_region _ _ _ R) as [?|[Hne Hh]]; [by left|]. right. split; [done|].
    eapply region_holds_frame; [|done]. intros l Hl. apply He. lia.
Qed.

Lemma image_sectors es seq :
  entries_ok es → is_u 64 seq →
  ∃ buf, serialize_region es seq (sector_size c) = Ret buf ∧
    length buf = (region_sectors es (sector_size c) * sector_size c)%nat ∧
    bytes_to_sectors (length buf) (sector_size c) = Ret (region_sectors es (sector_size c)).
Proof.
  intros [HF Hn] Hs. destruct (region_codec es seq (sector_size c) HF Hs Hn) as (buf & E & HL & _); [lia|].
  exists buf. split_and!; [done..|]. unfold bytes_to_sectors.
  assert (0 < region_sectors es (sector_size c))%nat as Hpos by (unfold region_sectors; lia).
  destruct (pad_to_sector_spec (length buf) (sector_size c)) as [-> Hk]; [nia|lia|].
  set (k := ((length buf + sector_size c - 1) / sector_size c)%nat) in *. clearbody k.
  assert (k = region_sectors es (sector_size c)) as -> by nia. rewrite bind_Ret_l.
  destruct (sector_size c) eqn:E0; [lia|]. f_equal. by apply Nat.div_mul.
Qed.

Lemma store_activate_geometry sb seq n :
  geometry sb → is_u 64 seq → is_u 64 n → geometry (activate sb seq n) ∧
  active_region_offset (activate sb seq n) = inactive_region_offset sb.
Proof.
  intros [[] ? ? ? Ha ?] Hs Hn. split.
  - split; [split|..]; simpl; try done; destruct Ha as [-> | ->]; simpl; auto; done.
  - unfold active_region_offset, inactive_region_offset. simpl. by destruct Ha as [-> | ->].
Qed.

(** Writing the superblock makes the new region the recorded one. *)
Lemma records_switch d d' sb es seq buf :
  let sb' := activate sb seq (Z.of_nat (length es)) in
  geometry sb → entries_ok es → is_u 64 seq → seq ≠ 0 → readable d' sb →
  serialize sb' (sector_size c) = Ret buf → holds_data c d' 0 buf →
  (∀ l, l < base_lba c ∨ base_lba c + 1 ≤ l → d' l = d l) →
  region_holds d sb (inactive_region_offset sb) seq es →
  records d' sb' es.
Proof.
  intros sb' G He Hs Hne Hr E Hd Ho Hh. destruct He as [HF Hn] eqn:EHe.
  destruct (store_activate_geometry sb seq (Z.of_nat (length es)) G Hs) as [G' Ea]; [unfold is_u; lia|].
  pose proof (active_bounds sb G) as (_ & _ & A3 & _).
  destruct (superblock_codec sb' (sector_size c) (geo_ok _ G') Hss) as (buf' & E' & HL & _).
  rewrite E in E'. injection E' as <-.
  split; [done|done|done| |].
  - exists buf. split; [done|]. pose proof (holds_image d' 0 1 buf 0) as Hi.
    rewrite !Z.add_0_r, Nat.mul_0_l, drop_0, take_ge in Hi by lia. apply Hi; [lia|done|lia].
  - right. split; [done|]. unfold sb'. rewrite Ea.
    eapply region_holds_frame; [|exact Hh]. intros l Hl. apply Ho. lia.
Qed.

Lemma store_flush_spec budget d sb es es' (n := region_sectors es' (sector_size c)) :
  records d sb es → entries_ok es' → flush_seq sb + 1 < 2 ^ 64 →
  ∃ r sb' d' b, flush_to_disk c budget d sb es' = Ret (r, sb', d', b) ∧
    if region_a_size sb <? Z.of_nat n then r = Err RegionFull ∧ sb' = sb ∧ d' = d
    else if (n <? budget)%nat then
      r = Ok () ∧ sb' = activate sb (flush_seq sb + 1) (Z.of_nat (length es')) ∧ records d' sb' es'
    else r = Err IoError ∧ records d' sb es.
Proof.
  intros R He Hs. pose proof (rec_geometry _ _ _ R) as G.
  pose proof (ok_seq _ (geo_ok _ G)) as U. assert (is_u 64 (flush_seq sb + 1)) as U' by (unfold is_u in *; lia).
  destruct (image_sectors es' _ He U') as (buf & E & HL & En). fold n in HL, En.
  unfold flush_to_disk. rewrite add_w_Ret by (unfold is_u in *; lia). simpl. rewrite E. simpl. rewrite En. simpl.
  destruct (_ <? _) eqn:Ef; [by do 4 eexists|]. apply Z.ltb_ge in Ef.
  destruct (write_sectors_spec budget d (inactive_region_offset sb) n buf HL) as (r & d1 & b1 & -> & Ho & Hk & _ & Hr).
  assert (readable d1 sb) as Hr1.
  { intros l Hl. destruct (rec_readable _ _ _ R l Hl) as (s & Hd & Hsz). by eapply Hk. }
  assert (records d1 sb es) as R1 by (eapply records_frame; [done..|]; intros l Hl; apply Ho; lia).
  destruct (n <=? budget)%nat eqn:Eb.
  2:{ subst r. do 4 eexists. split; [done|]. apply Nat.leb_gt in Eb.
      by rewrite (proj2 (Nat.ltb_ge _ _)) by lia. }
  destruct Hr as (-> & -> & Hh). apply Nat.leb_le in Eb.
  set (sb' := activate sb (flush_seq sb + 1) (Z.of_nat (length es'))).
  destruct (store_activate_geometry sb (flush_seq sb + 1) (Z.of_nat (length es')) G U') as [G' _].
  { destruct He. unfold is_u. lia. }
  destruct (superblock_codec sb' (sector_size c) (geo_ok _ G') Hss) as (sbuf & Es & HLs & _). rewrite Es. simpl.
  destruct (write_sectors_spec (budget - n) d1 0 1 sbuf) as (r2 & d2 & b2 & -> & Ho2 & Hk2 & Hz2 & Hr2); [lia|].
  do 4 eexists. split; [done|]. destruct (1 <=? budget - n)%nat eqn:E1.
  - apply Nat.leb_le in E1. rewrite (proj2 (Nat.ltb_lt _ _)) by lia. destruct Hr2 as (-> & _ & Hh2).
    split_and!; [done..|]. eapply (records_switch d1); try done.
    + unfold is_u in *. lia.
    + intros l Hl. destruct (Hr1 l Hl) as (s & Hd & Hsz). by eapply Hk2.
    + intros l Hl. apply Ho2. lia.
    + by exists buf.
  - apply Nat.leb_gt in E1. rewrite (proj2 (Nat.ltb_ge _ _)) by lia. subst r2. split; [done|].
    by rewrite Hz2 by lia.
Qed.

Lemma format_spec budget d total :
  1 < total < 2 ^ 64 → Z.of_nat (sector_size c) < 2 ^ 32 → (0 < budget)%nat →
  (∀ l, 0 ≤ l < total → ∃ s, d (base_lba c + l) = Some s ∧ length s = sector_size c) →
  ∃ sb d' b, format_partition c budget d total = Ret (Ok sb, d', b) ∧
    sb = new (Z.of_nat (sector_size c)) total ∧ records d' sb [].
Proof.
  intros Ht Hs Hb Hr. set (sb := new (Z.of_nat (sector_size c)) total).
  assert (region_a_size sb = (total - 1) / 2 ∧ region_a_offset sb = 1 ∧
    region_b_offset sb = 1 + (total - 1) / 2 ∧ region_b_size sb = (total - 1) / 2 ∧
    partition_sectors sb = total ∧ active_region sb = 0 ∧ flush_seq sb = 0 ∧
    entry_count sb = 0 ∧ sb_sector_size sb = Z.of_nat (sector_size c) ∧
    sb_magic sb = SUPERBLOCK_MAGIC ∧ sb_version sb = FORMAT_VERSION)
    as (E1 & E2 & E3 & E4 & E5 & E6 & E7 & E8 & E9 & E10 & E11).
  { unfold sb, new. by rewrite (proj2 (Z.ltb_lt _ _)) by lia. }
  assert (0 ≤ (total - 1) / 2 ∧ 2 * ((total - 1) / 2) ≤ total - 1) as [D1 D2].
  { split; [apply Z.div_pos; lia|]. apply Z.mul_div_le. lia. }
  assert (geometry sb) as G.
  { split; rewrite ?E1, ?E2, ?E3, ?E4, ?E5, ?E6; try done; [|by left|lia].
    split; rewrite ?E1, ?E2, ?E3, ?E4, ?E5, ?E6, ?E7, ?E8, ?E9; try done; unfold is_u; lia. }
  unfold format_partition. fold sb.
  destruct (superblock_codec sb (sector_size c) (geo_ok _ G) Hss) as (buf & E & HL & _). rewrite E. simpl.
  destruct (write_sectors_spec budget d 0 1 buf) as (r & d' & b & -> & Ho & Hk & _ & Hw); [lia|].
  rewrite (proj2 (Nat.leb_le _ _)) in Hw by lia. destruct Hw as (-> & _ & Hh).
  do 3 eexists. split; [done|]. split; [done|]. split; [done| | | |by left].
  - split; [by apply Forall_nil_2|done].
  - intros l Hl. destruct (Hr l) as (s & Hd & Hsz); [lia|]. by eapply Hk.
  - exists buf. split; [done|]. pose proof (holds_image d' 0 1 buf 0) as Hi.
    rewrite !Z.add_0_r, Nat.mul_0_l, drop_0, take_ge in Hi by lia. apply Hi; [lia|done|lia].
Qed.

(** ** The store across a restart *)

(** The keys and values a client can have put, apart from keys that are too
    long for the format. *)
Definition store_ok (st : Store) : Prop := entries_ok (map_to_list (store st)).

Lemma foldl_insert_lookup (es : list KvEntry) (m : gmap (list Z) (list Z)) k :
  NoDup (es.*1) →
  foldl (λ m e, <[e.1 := e.2]> m) m es !! k =
  match (list_to_map es : gmap (list Z) (list Z)) !! k with Some v => Some v | None => m !! k end.
Proof.
  revert m. induction es as [|[k' v'] es IH]; intros m; simpl; [done|].
  intros [Hk N]%NoDup_cons. rewrite IH by done. destruct (decide (k' = k)) as [->|Hne].
  - rewrite not_elem_of_list_to_map_1 by done. by rewrite !lookup_insert_eq.
  - by rewrite !lookup_insert_ne.
Qed.

Lemma load_snapshot st0 st :
  store (load_entries st0 (map_to_list (store st))) = store st.
Proof.
  apply map_eq. intros k. unfold load_entries. simpl.
  rewrite foldl_insert_lookup by apply NoDup_fst_map_to_list.
  rewrite list_to_map_to_list. by destruct (store st !! k).
Qed.

(** A fresh component started on what the disk records. *)
Lemma initialize_recorded budget d sb es total :
  records d sb es →
  ∃ st, initialize_from_client new_store c budget d total = Ret (Ok (sb, []), st, d, budget) ∧
    store st = store (load_entries new_store es) ∧ dirty_count st = 0 ∧ s_flush_seq st = flush_seq sb.
Proof.
  intros R. unfold initialize_from_client. rewrite (recover_recorded _ _ _ R). simpl.
  rewrite (proj2 (Z.eqb_neq _ _)).
  - eexists. split; [done|]. by destruct es.
  - pose proof (geo_partition _ (rec_geometry _ _ _ R)). lia.
Qed.

End durability.

(** * Properties *)

(** C26. A flush is atomic across a crash and a restart. From a disk that records
    some entries, flushing a snapshot of the store with a device that completes
    any number of sector writes and then fails, or loses power, ends in one of two
    ways: it reports success, and a component started on the disk holds exactly
    the store that was flushed; or it reports an error, and a component started on
    the disk holds exactly the entries recorded before. With room in the region
    and a device that completes the writes it succeeds. *)
Theorem metadata_flush_crash_safe c budget total d sb es st (snap := (snapshot_entries st).1) :
  (84 ≤ sector_size c)%nat → records c d sb es → store_ok st → flush_seq sb + 1 < 2 ^ 64 →
  ∃ r sb' d' b sbr st', flush_to_disk c budget d sb snap = Ret (r, sb', d', b) ∧
    initialize_from_client new_store c 0 d' total = Ret (Ok (sbr, []), st', d', 0%nat) ∧
    match r with
    | Ok _ => store st' = store st ∧ sbr = sb' ∧ records c d' sb' snap
    | Err _ => store st' = store (load_entries new_store es) ∧ sbr = sb ∧ records c d' sb es
    end ∧
    (Z.of_nat (region_sectors snap (sector_size c)) ≤ region_a_size sb →
     (region_sectors snap (sector_size c) < budget)%nat → r = Ok ()).
Proof.
  intros Hss R Hst Hs.
  destruct (store_flush_spec c Hss budget d sb es snap R Hst Hs) as (r & sb' & d' & b & E & H).
  exists r, sb', d', b. destruct (_ <? _) eqn:E1; [|destruct (_ <? budget)%nat eqn:E2].
  - destruct H as (-> & -> & ->). apply Z.ltb_lt in E1.
    destruct (initialize_recorded c Hss 0 d sb es total R) as (st' & E' & H' & _).
    exists sb, st'. split_and!; [done..|lia].
  - destruct H as (-> & -> & R').
    destruct (initialize_recorded c Hss 0 d' _ snap total R') as (st' & E' & H' & _).
    eexists _, st'. split; [done|]. split; [exact E'|]. split_and!; try done.
    rewrite H'. apply load_snapshot.
  - destruct H as [-> R']. apply Nat.ltb_ge in E2.
    destruct (initialize_recorded c Hss 0 d' sb es total R') as (st' & E' & H' & _).
    exists sb, st'. split_and!; [done..|lia].
Qed.

Definition client0 : client := mkClient 96 0.
Definition blank : Disk := λ _, Some (replicate 96 0).
Definition sb0 : Superblock := new 96 21.
Definition disk0 : Disk :=
  match format_partition client0 1 blank 21 with Ret (_, d, _) => d | Panic => blank end.

Lemma disk0_records : records client0 disk0 sb0 [].
Proof.
  destruct (format_spec client0 ltac:(simpl; lia) 1 blank 21) as (sb & d & b & E & -> & R).
  - lia.
  - simpl. lia.
  - lia.
  - intros l _. by eexists.
  - unfold disk0. rewrite E. exact R.
Qed.

Definition store1 : Store := (put (put new_store [97] [1]).2 [98] [2]).2.

Lemma store1_ok : store_ok store1.
Proof.
  split; [|by vm_compute]. change (map_to_list (store store1)) with
    (map_to_list (<[[98] := [2]]> (<[[97] := [1]]> (∅ : gmap (list Z) (list Z))))).
  vm_compute map_to_list.
  repeat apply Forall_cons_2; [..|apply Forall_nil_2]; split;
    try done; repeat apply Forall_cons_2; try apply Forall_nil_2; by vm_compute.
Qed.

Lemma metadata_flush_crash_safe_witness :
  records client0 disk0 sb0 [] ∧ store_ok store1 ∧
  ∃ r sb' d' b sbr st', flush_to_disk client0 2 disk0 sb0 (snapshot_entries store1).1 = Ret (r, sb', d', b) ∧
    initialize_from_client new_store client0 0 d' 21 = Ret (Ok (sbr, []), st', d', 0%nat) ∧
    match r with
    | Ok _ => store st' = store store1
    | Err _ => store st' = ∅
    end.
Proof.
  split; [exact disk0_records|]. split; [exact store1_ok|].
  destruct (metadata_flush_crash_safe client0 2 21 disk0 sb0 [] store1)
    as (r & sb' & d' & b & sbr & st' & E1 & E2 & E3 & _);
    [simpl; lia|exact disk0_records|exact store1_ok|by vm_compute|].
  exists r, sb', d', b, sbr, st'. split; [exact E1|]. split; [exact E2|].
  destruct r; destruct E3 as [E3 _]; exact E3.
Defined.

(** [put] accepts keys the format cannot hold: a key of 2^16 bytes or more is
    stored in memory and written with the other entries, but its length is cut to
    16 bits on disk, so that after the flush succeeded and the component was
    started again the key is gone. *)
Theorem long_key_not_durable st key value seq ss :
  Forall bytes_ok (snapshot_entries (put st key value).2).1 → is_u 64 seq → (20 ≤ ss)%nat →
  Z.of_nat (length value) ≤ MAX_VALUE_SIZE → 2 ^ 16 ≤ Z.of_nat (length key) →
  get (put st key value).2 key = Ok value ∧
  ∃ buf h es, serialize_region (snapshot_entries (put st key value).2).1 seq ss = Ret buf ∧
    deserialize_region buf ss = Ret (Some (h, es)) ∧
    get (load_entries new_store es) key = Err NotFound.
Proof.
  intros HF Hs Hss Hv Hk. split.
  { unfold put, get. rewrite (proj2 (Z.ltb_ge _ _)) by done. simpl. by rewrite lookup_insert_eq. }
  destruct (region_total _ seq ss HF Hs Hss) as (buf & h & es & E & Hb & Hd).
  exists buf, h, es. split_and!; [done..|].
  pose proof (deserialize_region_keys _ _ _ _ Hb Hd) as Hsh. unfold get. simpl.
  assert (∀ m : gmap (list Z) (list Z), m !! key = None →
    foldl (λ m e, <[e.1 := e.2]> m) m es !! key = None) as Hl; [|by rewrite Hl].
  clear -Hsh Hk. induction Hsh as [|e es He Hsh IH]; intros m Hm; [done|]. simpl. apply IH.
  rewrite lookup_insert_ne; [done|]. intros <-. lia.
Qed.

Lemma single_bytes n :
  Forall bytes_ok (snapshot_entries (put new_store (replicate n 97) [1]).2).1.
Proof.
  unfold put, snapshot_entries. simpl. rewrite insert_empty, map_to_list_singleton.
  apply Forall_cons_2; [|apply Forall_nil_2].
  split; [by apply Forall_replicate|]. by apply Forall_cons_2; [|apply Forall_nil_2].
Qed.

Lemma long_key_not_durable_witness :
  let key := replicate (Z.to_nat 65536) 97 in
  get (put new_store key [1]).2 key = Ok [1] ∧
  ∃ buf h es, serialize_region (snapshot_entries (put new_store key [1]).2).1 1 96 = Ret buf ∧
    deserialize_region buf 96 = Ret (Some (h, es)) ∧
    get (load_entries new_store es) key = Err NotFound.
Proof.
  apply (long_key_not_durable new_store (replicate (Z.to_nat 65536) 97) [1] 1 96).
  - apply single_bytes.
  - done.
  - lia.
  - by vm_compute.
  - rewrite length_replicate. lia.
Defined.

Definition flushed (b : nat) (s : Disk * Superblock) (es : list KvEntry) : Disk * Superblock :=
  match flush_to_disk client0 b s.1 s.2 es with Ret (_, sb, d, _) => (d, sb) | Panic => s end.

Definition es1 : list KvEntry := [([97], [1]); ([98], [1])].
Definition es2 : list KvEntry := [([97], [2]); ([98], [2])].
Definition es3 : list KvEntry := [([97], [3]); ([98], [3])].

Definition after1 : Disk * Superblock := flushed 10 (disk0, sb0) es1.
Definition after2 : Disk * Superblock := flushed 3 after1 es2.
Definition after3 : Disk * Superblock := flushed 1 after2 es2.

Definition recovered (d : Disk) : option RecoveryResult :=
  match recover_from_disk client0 d with Ret (Ok r) => Some r | _ => None end.

Definition restarted : Disk * Superblock :=
  (after3.1, match recovered after3.1 with Some r => r_superblock r | None => sb0 end).

(** The fallback of recovery is not protected. Entries are flushed (first
    flush), the superblock write of the second flush fails, and the retry stops
    after one sector: recovery correctly falls back to the other region and
    returns the entries of the second flush. But the superblock still names the
    broken region as active, so that the next flush overwrites the only good
    copy in place; stopped after two sectors, it leaves a region from which
    recovery returns a mixture of old and new entries, with a warning, but no
    error. *)
Theorem fallback_flush_mixes :
  r_entries <$> recovered after1.1 = Some es1 ∧ r_entries <$> recovered after2.1 = Some es1 ∧
  r_entries <$> recovered after3.1 = Some es2 ∧
  r_entries <$> recovered (flushed 2 restarted es3).1 = Some [([97], [3]); ([98], [2])].
Proof. split_and!; vm_compute; reflexivity. Qed.

End MetaStore.
