(* ===== verification/MetaFlush.v ===== *)
(** The background flush of the extended metadata store
    ([components/extended-metadata-store/src/flush.rs], [FlushManager]) as a step
    system: any number of clients that mutate the store and call [trigger_flush],
    and the flush worker, interleaved at every lock and atomic operation. The
    theorems show that a [trigger_flush] that returns success is backed by a flush
    whose snapshot contains every mutation completed before the call, and that
    the worker answers every call. *)

From S2P Require Import Prelude.

Module MetaFlush.

(** [FlushTickets]. *)
Record FlushTickets := mkTickets { requested : nat; completed : nat; durable : nat }.

(** Where the worker is: waiting for the signal; awake, with the signal it saw;
    with the tickets it serves; inside [do_flush] before the snapshot, with the
    snapshot, after the region and superblock writes, and before the tickets are
    marked (with the outcome); or gone. [last] tells the final flush. *)
Inductive phase :=
| Asleep
| Awake (signaled : bool)
| Serving (signaled : bool) (s : nat)
| Flushing (s : nat) (last : bool)
| Snapped (s : nat) (last : bool)
| Written (s : nat) (last : bool)
| Ending (s : nat) (ok last : bool)
| Exited.

(** Mutations are numbered in the order in which they reach the map; a mutation
    is counted when its caller has incremented [dirty_count], which it does
    after releasing the map. [snap_log] is the length of the history the last
    snapshot contains and [disk_log] the length of the history in the snapshot
    that [flush_to_disk] last wrote in full. For the proofs, [snap_counted],
    [flushed_counted] and [taken] record which mutations were counted at the last
    snapshot, at the snapshot of the last flush that was marked, and when each
    ticket was taken; [waiting] the tickets whose holder has sent the signal. *)
Record sys := mkSys {
  log : nat;
  counted : gset nat;
  dirty_count : Z;
  snapshot_dirty : Z;
  tickets : FlushTickets;
  signaled : bool;
  shutdown : bool;
  ph : phase;
  snap_log : nat;
  disk_log : nat;
  snap_counted : gset nat;
  flushed_counted : gset nat;
  taken : gmap nat (gset nat);
  waiting : gset nat
}.

Definition init : sys :=
  mkSys 0 ∅ 0 0 (mkTickets 0 0 0) false false Asleep 0 0 ∅ ∅ ∅ ∅.

Inductive event :=
| EMutate                  (* put or delete changes the map, under its write lock *)
| ECount (i : nat)         (* the caller of mutation [i] increments dirty_count *)
| ETicket                  (* trigger_flush takes a ticket *)
| ESignal (t : nat)        (* the holder of ticket [t] wakes the worker *)
| EDrop                    (* the manager is dropped *)
| EWork (dev : bool).      (* the worker's next step; [dev] is the outcome of a device write *)

Definition set_ph (x : sys) (p : phase) : sys :=
  mkSys (log x) (counted x) (dirty_count x) (snapshot_dirty x) (tickets x) (signaled x) (shutdown x) p
    (snap_log x) (disk_log x) (snap_counted x) (flushed_counted x) (taken x) (waiting x).

Definition set_tickets (x : sys) (t : FlushTickets) : sys :=
  mkSys (log x) (counted x) (dirty_count x) (snapshot_dirty x) t (signaled x) (shutdown x) (ph x)
    (snap_log x) (disk_log x) (snap_counted x) (flushed_counted x) (taken x) (waiting x).

(** [tickets.completed = tickets.completed.max(serving)], and [durable] likewise
    when the pass left everything on disk. *)
Definition mark_served (t : FlushTickets) (s : nat) (ok : bool) : FlushTickets :=
  mkTickets (requested t) (Nat.max (completed t) s) (if ok then Nat.max (durable t) s else durable t).

(** [worker_loop]: from waking up to the decision to flush. *)
Definition worker_loop (x : sys) : sys :=
  match ph x with
  | Asleep =>
      mkSys (log x) (counted x) (dirty_count x) (snapshot_dirty x) (tickets x) false (shutdown x)
        (Awake (signaled x)) (snap_log x) (disk_log x) (snap_counted x) (flushed_counted x) (taken x) (waiting x)
  | Awake ws => set_ph x (Serving ws (requested (tickets x)))
  | Serving ws s =>
      if shutdown x then set_ph x (Flushing s true)
      else if (dirty_count x =? 0)%Z then
        set_ph (if ws then set_tickets x (mark_served (tickets x) s true) else x) Asleep
      else set_ph x (Flushing s false)
  | _ => x
  end.

(** [do_flush]: snapshot, [flush_to_disk], [mark_flushed], tickets. *)
Definition do_flush (x : sys) (dev : bool) : sys :=
  match ph x with
  | Flushing s last =>
      mkSys (log x) (counted x) (dirty_count x) (dirty_count x) (tickets x) (signaled x) (shutdown x)
        (Snapped s last) (log x) (disk_log x) (counted x) (flushed_counted x) (taken x) (waiting x)
  | Snapped s last =>
      if dev then
        mkSys (log x) (counted x) (dirty_count x) (snapshot_dirty x) (tickets x) (signaled x) (shutdown x)
          (Written s last) (snap_log x) (snap_log x) (snap_counted x) (flushed_counted x) (taken x) (waiting x)
      else set_ph x (Ending s false last)
  | Written s last =>
      mkSys (log x) (counted x) (Z.max 0 (dirty_count x - snapshot_dirty x)) 0 (tickets x) (signaled x)
        (shutdown x) (Ending s true last) (snap_log x) (disk_log x) (snap_counted x) (snap_counted x) (taken x) (waiting x)
  | Ending s ok last =>
      set_ph (set_tickets x (mark_served (tickets x) s ok)) (if last then Exited else Asleep)
  | _ => x
  end.

Definition worker (x : sys) (dev : bool) : option sys :=
  match ph x with
  | Asleep | Awake _ | Serving _ _ => Some (worker_loop x)
  | Exited => None
  | _ => Some (do_flush x dev)
  end.

Definition step (x : sys) (e : event) : option sys :=
  match e with
  | EMutate =>
      Some (mkSys (S (log x)) (counted x) (dirty_count x) (snapshot_dirty x) (tickets x) (signaled x)
              (shutdown x) (ph x) (snap_log x) (disk_log x) (snap_counted x) (flushed_counted x) (taken x) (waiting x))
  | ECount i =>
      if (i <? log x) && negb (bool_decide (i ∈ counted x)) then
        Some (mkSys (log x) ({[i]} ∪ counted x) (dirty_count x + 1) (snapshot_dirty x) (tickets x) (signaled x)
                (shutdown x) (ph x) (snap_log x) (disk_log x) (snap_counted x) (flushed_counted x) (taken x) (waiting x))
      else None
  | ETicket =>
      let t := S (requested (tickets x)) in
      Some (mkSys (log x) (counted x) (dirty_count x) (snapshot_dirty x)
              (mkTickets t (completed (tickets x)) (durable (tickets x))) (signaled x) (shutdown x) (ph x)
              (snap_log x) (disk_log x) (snap_counted x) (flushed_counted x) (<[t := counted x]> (taken x)) (waiting x))
  | ESignal t =>
      if (t <=? requested (tickets x)) then
      Some (mkSys (log x) (counted x) (dirty_count x) (snapshot_dirty x) (tickets x) true (shutdown x) (ph x)
              (snap_log x) (disk_log x) (snap_counted x) (flushed_counted x) (taken x) ({[t]} ∪ waiting x))
      else None
  | EDrop =>
      Some (mkSys (log x) (counted x) (dirty_count x) (snapshot_dirty x) (tickets x) true true (ph x)
              (snap_log x) (disk_log x) (snap_counted x) (flushed_counted x) (taken x) (waiting x))
  | EWork dev => worker x dev
  end.

(** The condition [trigger_flush] waits for, and what it then returns. *)
Definition trigger_returns (x : sys) (t : nat) : option bool :=
  if (t <=? completed (tickets x)) then Some (t <=? durable (tickets x)) else None.

Inductive reach : sys → Prop :=
| reach_init : reach init
| reach_step x e x' : reach x → step x e = Some x' → reach x'.

(** * The invariant *)

Definition below (n : nat) (s : gset nat) : Prop := ∀ i, i ∈ s → i < n.

(** The tickets up to [s] were taken when only mutations of [c] were counted. *)
Definition covers (x : sys) (s : nat) (c : gset nat) : Prop :=
  ∀ t n, taken x !! t = Some n → t ≤ s → n ⊆ c.

(** What the worker knows in its current phase. *)
Definition phase_ok (x : sys) : Prop :=
  match ph x with
  | Asleep | Awake _ | Exited => True
  | Serving _ s | Flushing s _ => s ≤ requested (tickets x)
  | Snapped s _ =>
      s ≤ requested (tickets x) ∧ covers x s (snap_counted x) ∧ below (snap_log x) (snap_counted x) ∧
      disk_log x ≤ snap_log x ≤ log x ∧ snap_counted x ⊆ counted x ∧ flushed_counted x ⊆ snap_counted x ∧
      snapshot_dirty x = (Z.of_nat (size (snap_counted x)) - Z.of_nat (size (flushed_counted x)))%Z
  | Written s _ =>
      s ≤ requested (tickets x) ∧ covers x s (snap_counted x) ∧ below (disk_log x) (snap_counted x) ∧
      snap_counted x ⊆ counted x ∧ flushed_counted x ⊆ snap_counted x ∧
      snapshot_dirty x = (Z.of_nat (size (snap_counted x)) - Z.of_nat (size (flushed_counted x)))%Z
  | Ending s ok _ =>
      s ≤ requested (tickets x) ∧ (ok = true → covers x s (flushed_counted x))
  end.

Record inv (x : sys) : Prop := {
  i_counted : below (log x) (counted x);
  i_dirty : dirty_count x = (Z.of_nat (size (counted x)) - Z.of_nat (size (flushed_counted x)))%Z;
  i_flushed : flushed_counted x ⊆ counted x;
  i_disk : below (disk_log x) (flushed_counted x) ∧ disk_log x ≤ log x;
  i_taken : ∀ t n, taken x !! t = Some n → n ⊆ counted x ∧ t ≤ requested (tickets x);
  i_durable : covers x (durable (tickets x)) (flushed_counted x);
  i_order : durable (tickets x) ≤ completed (tickets x) ≤ requested (tickets x);
  i_phase : phase_ok x
}.

Lemma covers_mono x s s' c c' : covers x s c → s' ≤ s → c ⊆ c' → covers x s' c'.
Proof. intros H Hs Hc t n Ht Hle. etrans; [|done]. apply (H t n Ht). lia. Qed.

Lemma below_mono n n' c : below n c → n ≤ n' → below n' c.
Proof. intros H Hn i Hi. specialize (H i Hi). lia. Qed.

(** A counter of zero: everything counted was in a flush that was marked. *)
Lemma clean_covers x s : inv x → dirty_count x = 0%Z → covers x s (flushed_counted x).
Proof.
  intros I Hd t n Ht _. rewrite (i_dirty _ I) in Hd.
  rewrite (set_subseteq_size_eq (flushed_counted x) (counted x) (i_flushed _ I)) by lia.
  by apply (i_taken _ I) in Ht as [? _].
Qed.

(** Every ticket was taken before now. *)
Lemma all_covered x s : inv x → covers x s (counted x).
Proof. intros I t n Ht _. by apply (i_taken _ I) in Ht as [? _]. Qed.

Lemma mutate_inv x x' : inv x → step x EMutate = Some x' → inv x'.
Proof.
  intros [I1 I2 I3 [I4 I4'] I5 I6 I6' I7] [= <-]. split; try done; simpl.
  - eapply below_mono; [done|lia].
  - split; [done|lia].
  - unfold phase_ok in *. simpl. destruct (ph x); naive_solver lia.
Qed.

Lemma count_inv x i x' : inv x → step x (ECount i) = Some x' → inv x'.
Proof.
  intros [I1 I2 I3 I4 I5 I6 I6' I7]. simpl. destruct (_ && _) eqn:E; [|done]. intros [= <-].
  apply andb_true_iff in E as [Hi Hn]. apply Nat.ltb_lt in Hi.
  apply negb_true_iff, bool_decide_eq_false in Hn. split; try done; simpl.
  - intros j [->%elem_of_singleton|Hj]%elem_of_union; [done|by apply I1].
  - rewrite size_union, size_singleton by set_solver. lia.
  - set_solver.
  - intros t n Ht. destruct (I5 t n Ht). split; [set_solver|done].
  - unfold phase_ok in *. simpl. destruct (ph x); destruct_and?; split_and?; try done; set_solver.
Qed.

Lemma ticket_inv x x' : inv x → step x ETicket = Some x' → inv x'.
Proof.
  intros [I1 I2 I3 I4 I5 I6 I6' I7] [= <-].
  assert (∀ s c, s ≤ requested (tickets x) → covers x s c →
    ∀ t n, <[S (requested (tickets x)) := counted x]> (taken x) !! t = Some n → t ≤ s → n ⊆ c) as Hcov.
  { intros s c Hs Hc t n. rewrite lookup_insert_Some. intros [[<- _]|[_ Ht]] Hle; [lia|]. by apply (Hc t n). }
  split; try done; simpl.
  - intros t n. rewrite lookup_insert_Some. intros [[<- <-]|[_ Ht]]; [done|].
    destruct (I5 t n Ht). split; [done|lia].
  - refine (Hcov _ _ _ _); [lia|done].
  - lia.
  - unfold phase_ok in *. simpl. destruct (ph x) as [| | | |s ?|s ?|s ? ?|]; try lia; try done;
      destruct_and?; split_and!; try done; try lia.
    + refine (Hcov _ _ _ _); done.
    + refine (Hcov _ _ _ _); done.
    + intros Hok. refine (Hcov _ _ _ _); auto.
Qed.

(** Marking tickets the worker serves. *)
Lemma ending_inv x s ok p :
  inv x → s ≤ requested (tickets x) → (ok = true → covers x s (flushed_counted x)) →
  match p with Asleep | Exited => True | _ => False end →
  inv (set_ph (set_tickets x (mark_served (tickets x) s ok)) p).
Proof.
  intros [I1 I2 I3 I4 I5 I6 I6' I7] Hs Hc Hp. split; try done; simpl.
  - destruct ok; [|done]. intros t n Ht Hle.
    destruct (decide (t ≤ durable (tickets x))); [by apply (I6 t n)|].
    apply (Hc eq_refl t n Ht). lia.
  - destruct ok; lia.
  - unfold phase_ok. simpl. by destruct p.
Qed.

Lemma worker_inv x dev x' : inv x → worker x dev = Some x' → inv x'.
Proof.
  intros I. pose proof I as [I1 I2 I3 [I4 I4'] I5 I6 I6' I7]. unfold worker, phase_ok in *.
  destruct (ph x) as [|ws|ws s|s last|s last|s last|s ok last|] eqn:Ep; intros [= <-];
    unfold worker_loop, do_flush; rewrite Ep.
  - by split.
  - split; try done; unfold phase_ok; simpl. done.
  - destruct (shutdown x); [by split|]. destruct (Z.eqb_spec (dirty_count x) 0) as [Hd|]; [|by split].
    destruct ws; [|by split]. apply ending_inv; [done..| |done]. intros _. by apply clean_covers.
  - split; try done. unfold phase_ok. simpl. split_and!; try done. exact (all_covered x s I).
  - destruct I7 as (J1 & J2 & J3 & J4 & J5 & J6 & J7). destruct dev; [|by split].
    split; try done; simpl. split; [|lia]. eapply below_mono; [done|lia].
  - destruct I7 as (J1 & J2 & J3 & J4 & J5 & J6). pose proof (subseteq_size _ _ J4).
    split; try done; simpl; [lia|exact (covers_mono x _ _ _ _ I6 (le_n _) J5)].
  - destruct I7 as [Hs Hc]. apply ending_inv; [done..|]. by destruct last.
Qed.

Lemma flush_reach_inv x : reach x → inv x.
Proof.
  induction 1 as [|x e x' _ I Hs].
  - split; try done; try set_solver.
  - destruct e as [|i| |t| |dev].
    + by eapply mutate_inv.
    + by eapply count_inv.
    + by eapply ticket_inv.
    + simpl in Hs. destruct (_ <=? _); [|done]. injection Hs as <-. destruct I. by split.
    + injection Hs as <-. destruct I. by split.
    + by eapply worker_inv.
Qed.

(** ** Durability is not lost again *)

Fixpoint run (x : sys) (es : list event) : option sys :=
  match es with
  | [] => Some x
  | e :: es => step x e ≫= λ x, run x es
  end.

Lemma step_disk x e x' :
  inv x → step x e = Some x' →
  disk_log x ≤ disk_log x' ∧ completed (tickets x) ≤ completed (tickets x') ∧
  durable (tickets x) ≤ durable (tickets x').
Proof.
  intros [_ _ _ _ _ _ _ I]. destruct e as [|i| |t| |dev]; simpl; try (by intros [= <-]).
  - destruct (_ && _); [|done]. by intros [= <-].
  - destruct (_ <=? _); [|done]. by intros [= <-].
  - unfold worker, worker_loop, do_flush, phase_ok in *.
    destruct (ph x) as [|ws|ws s|s last|s last|s last|s ok last|]; intros [= <-]; simpl; try lia.
    + destruct (shutdown x); [simpl; lia|]. destruct (_ =? _)%Z; [|simpl; lia]. destruct ws; simpl; lia.
    + destruct dev; simpl; lia.
    + destruct ok; lia.
Qed.

Lemma run_disk es x x' :
  reach x → run x es = Some x' →
  reach x' ∧ disk_log x ≤ disk_log x' ∧ completed (tickets x) ≤ completed (tickets x').
Proof.
  revert x. induction es as [|e es IH]; intros x R; simpl; [by intros [= <-]|].
  intros (y & Hs & Hr)%bind_Some. pose proof (step_disk _ _ _ (flush_reach_inv _ R) Hs) as (? & ? & _).
  destruct (IH y) as (? & ? & ?); [by eapply reach_step|done|]. split_and!; [done|lia..].
Qed.

(** ** The worker serves every call *)

(** The worker is in a pass that serves ticket [t]. *)
Definition serves (p : phase) (t : nat) : bool :=
  match p with
  | Awake ws => ws
  | Serving ws s => ws && (t <=? s)
  | Flushing s _ | Snapped s _ | Written s _ | Ending s _ _ => t <=? s
  | Asleep | Exited => false
  end.

(** Only a dropped manager's worker exits. *)
Definition exits (p : phase) : bool :=
  match p with
  | Flushing _ last | Snapped _ last | Written _ last | Ending _ _ last => last
  | Exited => true
  | _ => false
  end.

Definition attended (x : sys) (t : nat) : Prop :=
  t ≤ completed (tickets x) ∨ signaled x = true ∨ serves (ph x) t = true.

Record live (x : sys) : Prop := {
  l_exits : shutdown x = false → exits (ph x) = false;
  l_waiting : ∀ t, t ∈ waiting x → t ≤ requested (tickets x) ∧ (shutdown x = false → attended x t)
}.

Lemma live_keep x x' :
  live x → waiting x' = waiting x → shutdown x' = shutdown x →
  requested (tickets x) ≤ requested (tickets x') →
  (shutdown x = false → exits (ph x) = false → exits (ph x') = false) →
  (∀ t, t ≤ requested (tickets x) → shutdown x = false → attended x t → attended x' t) → live x'.
Proof.
  intros [L1 L2] Hw Hd Hr He Ha. split; rewrite ?Hw, ?Hd; [auto|].
  intros t Ht. destruct (L2 t Ht). split; [lia|auto].
Qed.

Lemma worker_live x dev x' : live x → worker x dev = Some x' → live x'.
Proof.
  intros L. unfold worker, worker_loop, do_flush.
  destruct (ph x) as [|ws|ws s|s last|s last|s last|s ok last|] eqn:Ep; intros [= <-];
    apply (live_keep x); repeat case_match; try done; unfold attended; rewrite ?Ep; simpl; try done;
    try (by intros ? ->); intros t; rewrite ?andb_true_iff, ?Nat.leb_le;
    intuition (simplify_eq; auto; lia).
Qed.

Lemma reach_live x : reach x → live x.
Proof.
  induction 1 as [|x e x' R L Hs]; [by split|].
  destruct e as [|i| |t| |dev]; simpl in Hs; [..|by eapply worker_live].
  - injection Hs as <-. by apply (live_keep x).
  - destruct (_ && _); [|done]. injection Hs as <-. by apply (live_keep x).
  - injection Hs as <-. apply (live_keep x); simpl; auto.
  - destruct (Nat.leb_spec t (requested (tickets x))); [|done]. injection Hs as <-.
    destruct L as [L1 L2]. split; [done|]. simpl. intros t'. rewrite elem_of_union, elem_of_singleton.
    intros [->|Ht]; (split; [|intros _; right; by left]); [done|by apply L2].
  - injection Hs as <-. destruct L as [L1 L2]. split; [done|]. simpl. intros t Ht.
    by destruct (L2 t Ht).
Qed.

(** How many worker steps a waiting ticket is still from being served. *)
Definition rank (x : sys) (t : nat) : nat :=
  if serves (ph x) t then
    match ph x with
    | Awake _ => 6 | Serving _ _ => 5 | Flushing _ _ => 4 | Snapped _ _ => 3 | Written _ _ => 2 | _ => 1
    end
  else
    match ph x with
    | Asleep => 7 | Ending _ _ _ => 8 | Written _ _ => 9 | Snapped _ _ => 10 | Flushing _ _ => 11
    | Serving _ _ => 12 | _ => 13
    end.

Lemma worker_rank x t dev :
  live x → t ∈ waiting x → shutdown x = false → completed (tickets x) < t →
  ∃ x', step x (EWork dev) = Some x' ∧ t ∈ waiting x' ∧ shutdown x' = false ∧
        (t ≤ completed (tickets x') ∨ rank x' t < rank x t).
Proof.
  intros [L1 L2] Ht Hd Hc. destruct (L2 t Ht) as [Hr Ha]. specialize (Ha Hd). specialize (L1 Hd).
  unfold attended, rank, worker, worker_loop, do_flush in *. simpl. unfold worker, worker_loop, do_flush.
  destruct (ph x) as [|ws|ws s|s last|s last|s last|s ok last|] eqn:Ep; simpl in L1; try done;
    rewrite ?Hd; simpl in *; eexists; (split; [done|]);
    repeat case_match; simpl in *; rewrite ?andb_true_iff, ?andb_false_iff, ?Nat.leb_le, ?Nat.leb_gt in *;
    simplify_eq;
    split_and!; try done; intuition (congruence || lia).
Qed.

Lemma run_rank devs x t :
  reach x → t ∈ waiting x → shutdown x = false →
  t ≤ completed (tickets x) ∨ rank x t ≤ length devs →
  ∃ x', run x (EWork <$> devs) = Some x' ∧ t ≤ completed (tickets x').
Proof.
  revert x. induction devs as [|dev devs IH]; intros x R Ht Hd Hk; simpl in *.
  - exists x. split; [done|]. destruct Hk as [?|Hk]; [done|]. unfold rank in Hk. repeat case_match; lia.
  - destruct (decide (t ≤ completed (tickets x))) as [Hc|Hc].
    + pose proof (reach_live _ R) as [L1 _]. specialize (L1 Hd).
      destruct (worker x dev) as [x'|] eqn:Hw.
      2: { unfold worker in Hw. by destruct (ph x). }
      pose proof (step_disk x (EWork dev) x' (flush_reach_inv _ R) Hw) as (_ & ? & _). simpl.
      apply IH; [by apply (reach_step x (EWork dev))|..|left; lia];
        revert Hw; unfold worker, worker_loop, do_flush; clear -Ht Hd;
        destruct (ph x); intros [= <-]; repeat case_match; done.
    + destruct (worker_rank x t dev) as (x' & Hs & ? & ? & Hk'); [by apply reach_live|done|done|lia|].
      simpl in Hs. rewrite Hs. simpl. apply IH; [by apply (reach_step x (EWork dev))|done|done|].
      destruct Hk as [?|Hk]; [lia|]. destruct Hk'; [by left|right; lia].
Qed.

Lemma rank_bound x t : rank x t ≤ 13.
Proof. unfold rank. repeat case_match; lia. Qed.

(** ** Properties *)

(** C29. When [trigger_flush] returns [Ok] for a ticket, every mutation that had
    been counted as dirty when the ticket was taken is in the snapshot that
    [flush_to_disk] last wrote in full, whatever was put, counted, requested or
    refused by the device in between; and so it is for every snapshot written
    in full during any further run of the callers and the worker. *)
Theorem flush_ticket_durable x t n es x' :
  reach x → taken x !! t = Some n → trigger_returns x t = Some true →
  run x es = Some x' → ∀ i, i ∈ n → i < disk_log x'.
Proof.
  intros R Ht Hr Hrun i Hi. pose proof (run_disk es x x' R Hrun) as (_ & Hd & _).
  pose proof (flush_reach_inv _ R) as I. unfold trigger_returns in Hr.
  destruct (Nat.leb_spec t (completed (tickets x))); [|done].
  injection Hr as Hr. apply Nat.leb_le in Hr. destruct (i_disk _ I) as [Hf _].
  enough (i < disk_log x) by lia. apply Hf. exact (i_durable _ I t n Ht Hr i Hi).
Qed.

(** Two puts, a flush that the device refuses for the first ticket, one that
    succeeds for the second, and a put afterwards. *)
Definition sample_run : list event :=
  [EMutate; ECount 0; ETicket; ESignal 1; EWork true; EWork true; EWork true; EWork true; EWork false;
   EMutate; ECount 1; ETicket; ESignal 2; EWork true; EWork true; EWork true; EWork true; EWork true;
   EWork true; EWork true; EWork true].

Lemma flush_run_reach es x x' : reach x → run x es = Some x' → reach x'.
Proof. intros R H. by destruct (run_disk es x x' R H). Qed.

Lemma flush_ticket_durable_witness :
  ∃ x x', run init sample_run = Some x ∧ trigger_returns x 1 = Some true ∧ trigger_returns x 2 = Some true ∧
    run x [EMutate; EWork true] = Some x' ∧ 1 < disk_log x'.
Proof.
  destruct (run init sample_run) as [x|] eqn:E; [|by vm_compute in E]. exists x.
  assert (reach x) as R by (eapply flush_run_reach; [exact reach_init|exact E]).
  vm_compute in E. injection E as <-. eexists. split; [done|].
  split; [vm_compute; reflexivity|]. split; [vm_compute; reflexivity|]. split; [vm_compute; reflexivity|].
  apply (flush_ticket_durable _ 2 {[0; 1]} [EMutate; EWork true] _ R); [vm_compute; reflexivity..|].
  by vm_compute.
Defined.

(** [trigger_flush] does not wait forever: as long as the manager is not
    dropped, thirteen steps of the worker after the caller's signal its ticket
    is completed, wherever in its loop the worker was and whether the device
    accepts or refuses each flush. *)
Theorem flush_answers x t devs :
  reach x → t ∈ waiting x → shutdown x = false → 13 ≤ length devs →
  ∃ x', run x (EWork <$> devs) = Some x' ∧ is_Some (trigger_returns x' t).
Proof.
  intros R Ht Hd Hl. destruct (run_rank devs x t) as (x' & Hr & Hc); [done..| |].
  { right. pose proof (rank_bound x t). lia. }
  exists x'. split; [done|]. unfold trigger_returns. by rewrite (proj2 (Nat.leb_le _ _) Hc).
Qed.

Lemma flush_answers_witness :
  ∃ x x', run init [EMutate; ECount 0; EWork true; EWork true; EWork true; EWork true; ETicket; ESignal 1] = Some x ∧
    ph x = Snapped 0 false ∧ run x (EWork <$> replicate 13 false) = Some x' ∧ is_Some (trigger_returns x' 1).
Proof.
  destruct (run init [EMutate; ECount 0; EWork true; EWork true; EWork true; EWork true; ETicket; ESignal 1])
    as [x|] eqn:E; [|by vm_compute in E].
  assert (reach x) as R by (eapply flush_run_reach; [exact reach_init|exact E]).
  destruct (flush_answers x 1 (replicate 13 false)) as (x' & Hr & Hc);
    [done|vm_compute in E; injection E as <-; by vm_compute..|by vm_compute|].
  exists x, x'. split; [done|]. split; [|done]. vm_compute in E. by injection E as <-.
Defined.

End MetaFlush.
