(* ===== verification/Gpt.v ===== *)
(** The partition table of a drive ([disk-partition-manager/src/gpt.rs], [lib.rs]):
    layout of the partitions, the GUID partition table with its primary and its
    backup copy, and the choice between reading and formatting. The device is the
    sector device of [Checkpoint]; [crc32fast] is the parameter [crc], and the random
    bytes of [/dev/urandom] are [random]. *)

From S2P Require Import Prelude Bytes Checkpoint MetaFormat.

Module Gpt.
Import Device.
Local Open Scope Z_scope.

(** * Data *)

Definition GPT_SIGNATURE : Z := 0x5452415020494645.
Definition GPT_REVISION_1_0 : Z := 0x00010000.
Definition GPT_HEADER_SIZE : Z := 92.
Definition GPT_ENTRY_SIZE : Z := 128.
Definition GPT_MAX_ENTRIES : Z := 128.

Record GptHeader := mkHeader {
  signature : Z;
  revision : Z;
  header_size : Z;
  header_crc32 : Z;
  my_lba : Z;
  alternate_lba : Z;
  first_usable_lba : Z;
  last_usable_lba : Z;
  disk_guid : list Z;
  partition_entry_lba : Z;
  num_partition_entries : Z;
  partition_entry_size : Z;
  partition_entry_crc32 : Z
}.

Record GptEntry := mkEntry {
  type_guid : list Z;
  unique_guid : list Z;
  starting_lba : Z;
  ending_lba : Z;
  attributes : Z;
  entry_name : list Z
}.

(** A [String] is the list of its characters. *)
Record PartitionInfo := mkInfo {
  index : Z;
  start_lba : Z;
  info_sectors : Z;
  info_type : list Z;
  info_unique : list Z;
  info_name : list Z
}.

Record PartitionTable := mkTable { partitions : list PartitionInfo; table_sector_size : Z }.

Record PartitionSpec := mkSpec { spec_type : list Z; size_bytes : Z; spec_name : list Z }.

Record PartitionConfig := mkConfig {
  config_sector_size : Z;
  total_sectors : Z;
  config_ns_id : Z;
  specs : list PartitionSpec
}.

Inductive PartitionTableError := NoPartitionTable | CorruptTable | InvalidPartition | IoError | LayoutError | NotInitialized.

Record GptManager := mkManager { sector_size : Z; num_sectors : Z; ns_id : Z }.

Abbreviation res A := (result A PartitionTableError).

Definition zeros (n : nat) : list Z := replicate n 0.

(** * Names *)

Definition is_scalar (c : Z) : Prop := 0 ≤ c < 0xD800 ∨ 0xE000 ≤ c < 0x110000.

(** [str::encode_utf16]. *)
Definition utf16_units (c : Z) : list Z :=
  if c <? 0x10000 then [c]
  else let c := c - 0x10000 in [0xD800 + Z.shiftr c 10; 0xDC00 + Z.land c 0x3FF].

Definition encode_utf16 (name : list Z) : list Z := name ≫= utf16_units.

(** [String::from_utf16_lossy]: an unpaired surrogate reads as U+FFFD. *)
Fixpoint from_utf16_lossy (us : list Z) : list Z :=
  match us with
  | [] => []
  | u :: us =>
      if (u <? 0xD800) || (0xDFFF <? u) then u :: from_utf16_lossy us
      else if 0xDC00 <=? u then 0xFFFD :: from_utf16_lossy us
      else match us with
           | [] => [0xFFFD]
           | u2 :: us' =>
               if (u2 <? 0xDC00) || (0xDFFF <? u2) then 0xFFFD :: from_utf16_lossy us
               else 0x10000 + Z.shiftl (u - 0xD800) 10 + (u2 - 0xDC00) :: from_utf16_lossy us'
           end
  end.

Definition encode_utf16le_name (name : list Z) : list Z :=
  let us := take 36 (encode_utf16 name) in
  (us ≫= to_le_bytes 2) ++ zeros (72 - 2 * length us).

(** The 16-bit units of a name field. *)
Fixpoint units_of (n : nat) (data : list Z) : list Z :=
  match n with O => [] | S n => rd 2 0 data :: units_of n (drop 2 data) end.

Fixpoint take_while_nonzero (us : list Z) : list Z :=
  match us with [] => [] | u :: us => if u =? 0 then [] else u :: take_while_nonzero us end.

Definition decode_utf16le_name (data : list Z) : list Z := from_utf16_lossy (take_while_nonzero (units_of 36 data)).

(** * Layout *)

(** Version 4, variant 1 bits on 16 random bytes. *)
Definition generate_guid (bytes : list Z) : list Z :=
  <[8%nat := Z.lor (Z.land (nth 8 bytes 0) 0x3F) 0x80]> (<[6%nat := Z.lor (Z.land (nth 6 bytes 0) 0x0F) 0x40]> bytes).

Definition entry_sectors (g : GptManager) : outcome Z :=
  if sector_size g =? 0 then Panic else Ret ((GPT_MAX_ENTRIES * GPT_ENTRY_SIZE + sector_size g - 1) / sector_size g).

Definition sectors_of (g : GptManager) (size : Z) : outcome Z :=
  if sector_size g =? 0 then Panic else Ret ((size + sector_size g - 1) / sector_size g).

(** The sectors of the partitions that ask for a size. *)
Fixpoint fixed_sectors (g : GptManager) (ps : list PartitionSpec) : outcome Z :=
  match ps with
  | [] => Ret 0
  | p :: ps =>
      rest ← fixed_sectors g ps;
      if size_bytes p =? 0 then Ret rest else n ← sectors_of g (size_bytes p); add_w 64 n rest
  end.

(** The loop over the partitions; [i] counts the identifiers drawn. *)
Fixpoint place (g : GptManager) (random : nat → list Z) (rest_sectors : Z) (i : nat) (ps : list PartitionSpec) (current remaining : Z) :
    outcome (res (list GptEntry)) :=
  match ps with
  | [] => Ret (Ok [])
  | p :: ps =>
      n ← (if size_bytes p =? 0 then Ret rest_sectors else sectors_of g (size_bytes p));
      if remaining <? n then Ret (Err LayoutError) else
      x ← add_w 64 current n;
      ending ← sub_w x 1;
      current' ← add_w 64 ending 1;
      remaining' ← sub_w remaining n;
      x ← place g random rest_sectors (S i) ps current' remaining';
      Ret match x with
          | Err e => Err e
          | Ok es => Ok (mkEntry (spec_type p) (generate_guid (random i)) current ending 0 (encode_utf16le_name (spec_name p)) :: es)
          end
  end.

Definition empty_entry : GptEntry := mkEntry (zeros 16) (zeros 16) 0 0 0 (zeros 72).

Definition compute_partition_layout (g : GptManager) (random : nat → list Z) (ps : list PartitionSpec) (first last : Z) :
    outcome (res (list GptEntry)) :=
  d ← sub_w last first; total ← add_w 64 d 1;
  if decide (1 < length (filter (λ p, size_bytes p = 0%Z) ps))%nat then Ret (Err LayoutError) else
  fixed ← fixed_sectors g ps;
  if total <? fixed then Ret (Err LayoutError) else
  rest ← sub_w total fixed;
  x ← place g random rest 0 ps first total;
  Ret match x with
      | Err e => Err e
      | Ok es => Ok (es ++ replicate (Z.to_nat GPT_MAX_ENTRIES - length es) empty_entry)
      end.

(** * Bytes *)

Definition entry_bytes (e : GptEntry) : list Z :=
  type_guid e ++ unique_guid e ++ to_le_bytes 8 (starting_lba e) ++ to_le_bytes 8 (ending_lba e) ++
  to_le_bytes 8 (attributes e) ++ entry_name e.

(** An entry past the 128th is outside the buffer. *)
Definition serialize_entries (es : list GptEntry) : outcome (list Z) :=
  let total := Z.to_nat (GPT_MAX_ENTRIES * GPT_ENTRY_SIZE) in
  if decide (length es ≤ Z.to_nat GPT_MAX_ENTRIES)%nat
  then Ret ((es ≫= entry_bytes) ++ zeros (total - Z.to_nat GPT_ENTRY_SIZE * length es))
  else Panic.

Definition parse_entry (data : list Z) : GptEntry :=
  mkEntry (take 16 data) (take 16 (drop 16 data)) (rd 8 32 data) (rd 8 40 data) (rd 8 48 data) (take 72 (drop 56 data)).

Fixpoint parse_entries (data : list Z) (count : nat) : list GptEntry :=
  match count with
  | O => []
  | S count =>
      if decide (length data < Z.to_nat GPT_ENTRY_SIZE)%nat then []
      else parse_entry data :: parse_entries (drop (Z.to_nat GPT_ENTRY_SIZE) data) count
  end.

(** The bytes of a header before and after its checksum. *)
Definition header_head (h : GptHeader) : list Z :=
  to_le_bytes 8 (signature h) ++ to_le_bytes 4 (revision h) ++ to_le_bytes 4 (header_size h).
Definition header_tail (h : GptHeader) : list Z :=
  zeros 4 ++ to_le_bytes 8 (my_lba h) ++ to_le_bytes 8 (alternate_lba h) ++ to_le_bytes 8 (first_usable_lba h) ++
  to_le_bytes 8 (last_usable_lba h) ++ disk_guid h ++ to_le_bytes 8 (partition_entry_lba h) ++
  to_le_bytes 4 (num_partition_entries h) ++ to_le_bytes 4 (partition_entry_size h) ++ to_le_bytes 4 (partition_entry_crc32 h).

Definition parse_header (data : list Z) : res GptHeader :=
  if decide (length data < Z.to_nat GPT_HEADER_SIZE)%nat then Err CorruptTable
  else if negb (rd 8 0 data =? GPT_SIGNATURE) then Err NoPartitionTable
  else Ok (mkHeader (rd 8 0 data) (rd 4 8 data) (rd 4 12 data) (rd 4 16 data) (rd 8 24 data) (rd 8 32 data) (rd 8 40 data)
    (rd 8 48 data) (take 16 (drop 56 data)) (rd 8 72 data) (rd 4 80 data) (rd 4 84 data) (rd 4 88 data)).

(** The partitions of an array of entries, from position [i]. *)
Fixpoint partition_infos (i : Z) (es : list GptEntry) : outcome (list PartitionInfo) :=
  match es with
  | [] => Ret []
  | e :: es =>
      if decide (type_guid e = zeros 16) then partition_infos (i + 1) es else
      d ← sub_w (ending_lba e) (starting_lba e);
      n ← add_w 64 d 1;
      rest ← partition_infos (i + 1) es;
      Ret (mkInfo i (starting_lba e) n (type_guid e) (unique_guid e) (decode_utf16le_name (entry_name e)) :: rest)
  end.

(** * The device *)

Definition client_of (g : GptManager) : client := mkClient (Z.to_nat (sector_size g)) 0.

Definition read_bytes (g : GptManager) (d : Disk) (lba num_bytes : Z) : res (list Z) :=
  match read_blocks (client_of g) d lba (Z.to_nat num_bytes) with Ok x => Ok x | Err _ => Err IoError end.

Definition read_sector (g : GptManager) (d : Disk) (lba : Z) : res (list Z) := read_bytes g d lba (sector_size g).

Definition write_bytes (g : GptManager) (budget : nat) (d : Disk) (lba : Z) (data : list Z) : res unit * Disk * nat :=
  match write_blocks (client_of g) budget d lba data with (Ok _, d, b) => (Ok (), d, b) | (Err _, d, b) => (Err IoError, d, b) end.

(** A buffer of the sector size with the record of the protective MBR. *)
Definition protective_mbr (g : GptManager) : outcome (list Z) :=
  n ← sub_w (num_sectors g) 1;
  if sector_size g <? 512 then Panic
  else Ret (zeros 446 ++ [0; 0; 2; 0; 0xEE; 0xFF; 0xFF; 0xFF] ++ to_le_bytes 4 1 ++ to_le_bytes 4 (Z.min n u32_max) ++
            zeros 48 ++ [0x55; 0xAA] ++ zeros (Z.to_nat (sector_size g) - 512)).

Section with_crc.
Context (crc : list Z → Z).

Definition serialize_header_with_crc (g : GptManager) (h : GptHeader) : outcome (list Z) :=
  if sector_size g <? GPT_HEADER_SIZE then Panic
  else Ret (header_head h ++ to_le_bytes 4 (crc (header_head h ++ zeros 4 ++ header_tail h)) ++ header_tail h ++
            zeros (Z.to_nat (sector_size g) - Z.to_nat GPT_HEADER_SIZE)).

Definition try_read_gpt_at (g : GptManager) (d : Disk) (header_lba entry_lba : Z) : outcome (res PartitionTable) :=
  match read_sector g d header_lba with
  | Err e => Ret (Err e)
  | Ok data =>
      match parse_header data with
      | Err e => Ret (Err e)
      | Ok h =>
          if negb (crc (take 16 data ++ zeros 4 ++ take 72 (drop 20 data)) =? header_crc32 h) then Ret (Err CorruptTable) else
          match read_bytes g d entry_lba (num_partition_entries h * partition_entry_size h) with
          | Err e => Ret (Err e)
          | Ok entries =>
              if negb (crc entries =? partition_entry_crc32 h) then Ret (Err CorruptTable) else
              ps ← partition_infos 0 (parse_entries entries (Z.to_nat (num_partition_entries h)));
              Ret (Ok (mkTable ps (sector_size g)))
          end
      end
  end.

Definition read_gpt (g : GptManager) (d : Disk) : outcome (res PartitionTable) :=
  x ← try_read_gpt_at g d 1 2;
  match x with
  | Ok t => Ret (Ok t)
  | Err CorruptTable | Err NoPartitionTable =>
      backup_lba ← sub_w (num_sectors g) 1;
      n ← entry_sectors g;
      backup_entry_lba ← sub_w backup_lba n;
      x ← try_read_gpt_at g d backup_lba backup_entry_lba;
      Ret match x with Ok t => Ok t | Err _ => Err NoPartitionTable end
  | Err e => Ret (Err e)
  end.

(** Writes in order, until one fails. *)
Fixpoint write_all (g : GptManager) (budget : nat) (d : Disk) (ws : list (Z * list Z)) : res unit * Disk * nat :=
  match ws with
  | [] => (Ok (), d, budget)
  | (lba, data) :: ws =>
      match write_bytes g budget d lba data with
      | (Ok _, d, budget) => write_all g budget d ws
      | (Err e, d, budget) => (Err e, d, budget)
      end
  end.

(** The headers of both copies. *)
Definition primary_header (g : GptManager) (guid : list Z) (first last entry_crc : Z) : GptHeader :=
  mkHeader GPT_SIGNATURE GPT_REVISION_1_0 GPT_HEADER_SIZE 0 1 (num_sectors g - 1) first last guid 2 GPT_MAX_ENTRIES GPT_ENTRY_SIZE entry_crc.
Definition backup_header (g : GptManager) (guid : list Z) (first last entry_crc : Z) : GptHeader :=
  mkHeader GPT_SIGNATURE GPT_REVISION_1_0 GPT_HEADER_SIZE 0 (num_sectors g - 1) 1 first last guid (last + 1) GPT_MAX_ENTRIES GPT_ENTRY_SIZE entry_crc.

Definition write_gpt (g : GptManager) (random : nat → list Z) (budget : nat) (d : Disk) (cfg : PartitionConfig) :
    outcome (res PartitionTable * Disk * nat) :=
  n ← entry_sectors g;
  let first := 2 + n in
  x ← sub_w (num_sectors g) 1; x ← sub_w x n; last ← sub_w x 1;
  if last <=? first then Ret (Err LayoutError, d, budget) else
  x ← compute_partition_layout g random (specs cfg) first last;
  match x with
  | Err e => Ret (Err e, d, budget)
  | Ok es =>
      data ← serialize_entries es;
      let guid := generate_guid (random (length (specs cfg))) in
      primary ← serialize_header_with_crc g (primary_header g guid first last (crc data));
      backup ← serialize_header_with_crc g (backup_header g guid first last (crc data));
      mbr ← protective_mbr g;
      match write_all g budget d [(0, mbr); (1, primary); (2, data); (last + 1, data); (num_sectors g - 1, backup)] with
      | (Err e, d, budget) => Ret (Err e, d, budget)
      | (Ok _, d, budget) => ps ← partition_infos 0 es; Ret (Ok (mkTable ps (sector_size g)), d, budget)
      end
  end.

(** * The component *)

Record DiskPartitionManager := mkDpm { table : option PartitionTable; dpm_ns_id : option Z }.

Definition set_ns_id (m : DiskPartitionManager) (ns : Z) : DiskPartitionManager := mkDpm (table m) (Some ns).

Definition get_ns_id (m : DiskPartitionManager) : Z := default 1 (dpm_ns_id m).

(** The connected device: its geometry per namespace, if it answers. *)
Record BlockDevice := mkDevice { dev_sector_size : Z → option Z; dev_num_sectors : Z → option Z }.

Definition initialize (bd : option BlockDevice) (d : Disk) (m : DiskPartitionManager) : outcome (res PartitionTable * DiskPartitionManager) :=
  match bd with
  | None => Ret (Err NotInitialized, m)
  | Some bd =>
      match dev_sector_size bd (get_ns_id m), dev_num_sectors bd (get_ns_id m) with
      | Some ss, Some n =>
          x ← read_gpt (mkManager ss n (get_ns_id m)) d;
          Ret match x with Ok t => (Ok t, mkDpm (Some t) (dpm_ns_id m)) | Err e => (Err e, m) end
      | _, _ => Ret (Err IoError, m)
      end
  end.

Definition format (bd : option BlockDevice) (random : nat → list Z) (budget : nat) (d : Disk) (cfg : PartitionConfig) (m : DiskPartitionManager) :
    outcome (res PartitionTable * DiskPartitionManager * Disk * nat) :=
  match bd with
  | None => Ret (Err NotInitialized, m, d, budget)
  | Some _ =>
      '(x, d, budget) ← write_gpt (mkManager (config_sector_size cfg) (total_sectors cfg) (config_ns_id cfg)) random budget d cfg;
      Ret match x with Ok t => (Ok t, mkDpm (Some t) (dpm_ns_id m), d, budget) | Err e => (Err e, m, d, budget) end
  end.

Definition initialize_or_format (bd : option BlockDevice) (random : nat → list Z) (budget : nat) (d : Disk) (force_format : bool)
    (cfg : PartitionConfig) (m : DiskPartitionManager) : outcome (res (PartitionTable * bool) * DiskPartitionManager * Disk * nat) :=
  let reformat :=
    '(x, m, d, budget) ← format bd random budget d cfg m;
    Ret (match x with Ok t => Ok (t, true) | Err e => Err e end, m, d, budget) in
  if force_format then reformat else
  '(x, m') ← initialize bd d m;
  match x with
  | Ok t => Ret (Ok (t, false), m', d, budget)
  | Err NoPartitionTable | Err CorruptTable => reformat
  | Err e => Ret (Err e, m', d, budget)
  end.

Definition partition_info (m : DiskPartitionManager) (i : Z) : res PartitionInfo :=
  match table m with
  | None => Err NotInitialized
  | Some t => match partitions t !! Z.to_nat i with Some p => Ok p | None => Err InvalidPartition end
  end.

Definition num_partitions (m : DiskPartitionManager) : res Z :=
  match table m with None => Err NotInitialized | Some t => Ok (Z.of_nat (length (partitions t))) end.
End with_crc.

(** * Bytes and back *)

Lemma length_concat_units us : length (us ≫= to_le_bytes 2) = (2 * length us)%nat.
Proof. induction us as [|u us IH]; [done|]. rewrite bind_cons, length_app, IH, length_to_le_bytes by lia. simpl. lia. Qed.

Lemma length_name name : length (encode_utf16le_name name) = 72%nat.
Proof.
  unfold encode_utf16le_name. rewrite length_app, length_concat_units. unfold zeros. rewrite length_replicate, length_take. lia.
Qed.

Lemma units_of_zeros k : units_of k (zeros (2 * k)) = replicate k 0.
Proof.
  induction k as [|k IH]; [done|]. replace (2 * S k)%nat with (S (S (2 * k))) by lia. cbn [units_of replicate]. f_equal. exact IH.
Qed.

Lemma units_of_bytes us k : Forall (is_u 16) us → units_of (length us + k) ((us ≫= to_le_bytes 2) ++ zeros (2 * k)) = us ++ replicate k 0.
Proof.
  induction 1 as [|u us Hu _ IH]; [apply units_of_zeros|]. rewrite bind_cons, <- app_assoc. cbn [length Nat.add units_of app]. f_equal; [by apply (rd_le 2 2)|].
  rewrite drop_app_length' by (by rewrite length_to_le_bytes). apply IH.
Qed.

Lemma take_while_nonzero_zeros us k : Forall (λ u, u ≠ 0) us → take_while_nonzero (us ++ replicate k 0) = us.
Proof.
  induction 1 as [|u us Hu _ IH]; simpl; [by destruct k|]. rewrite (proj2 (Z.eqb_neq _ _)) by done. by rewrite IH.
Qed.

(** A character outside the basic plane is a pair of surrogates. *)
Lemma surrogates c : 0x10000 ≤ c < 0x110000 → ∃ h l, utf16_units c = [h; l] ∧ 0xD800 ≤ h < 0xDC00 ∧ 0xDC00 ≤ l < 0xE000 ∧
  0x10000 + Z.shiftl (h - 0xD800) 10 + (l - 0xDC00) = c.
Proof.
  intros Hc. unfold utf16_units. rewrite (proj2 (Z.ltb_ge _ _)) by lia. eexists _, _. split; [done|].
  change 0x3FF with (Z.ones 10). rewrite Z.land_ones, Z.shiftr_div_pow2 by lia. change (2 ^ 10) with 1024.
  pose proof (Z.mod_pos_bound (c - 65536) 1024 ltac:(lia)). pose proof (Z.div_mod (c - 65536) 1024 ltac:(lia)) as E.
  rewrite Z.shiftl_mul_pow2 by lia. change (2 ^ 10) with 1024. lia.
Qed.

Lemma from_encode_utf16 name : Forall is_scalar name → from_utf16_lossy (encode_utf16 name) = name ∧ Forall (is_u 16) (encode_utf16 name).
Proof.
  induction 1 as [|c name Hc _ [IH1 IH2]]; [done|]. unfold encode_utf16 in *. rewrite bind_cons.
  set (us := name ≫= utf16_units) in *. clearbody us.
  destruct (decide (c < 0x10000)) as [Hs|Hs].
  - unfold utf16_units. rewrite (proj2 (Z.ltb_lt _ _)) by done. cbn [app from_utf16_lossy]. rewrite IH1. split.
    + destruct Hc as [Hc|Hc]; [by rewrite (proj2 (Z.ltb_lt c 0xD800)) by lia|].
      rewrite (proj2 (Z.ltb_lt 0xDFFF c)) by lia. by rewrite orb_true_r.
    + constructor; [unfold is_u; destruct Hc; lia|done].
  - destruct (surrogates c) as (h & l & -> & Hh & Hl & E); [destruct Hc; lia|]. cbn [app from_utf16_lossy]. split.
    + rewrite (proj2 (Z.ltb_ge h 0xD800)), (proj2 (Z.ltb_ge 0xDFFF h)), (proj2 (Z.leb_gt 0xDC00 h)) by lia. cbn [orb].
      rewrite (proj2 (Z.ltb_ge l 0xDC00)), (proj2 (Z.ltb_ge 0xDFFF l)) by lia. cbn [orb]. by rewrite E, IH1.
    + repeat (constructor; [unfold is_u; lia|]). done.
Qed.

(** A name of at most 36 units without the null character is read back. *)
Lemma name_round_trip name : Forall is_scalar name → (length (encode_utf16 name) ≤ 36)%nat → Forall (λ u, u ≠ 0) (encode_utf16 name) →
  decode_utf16le_name (encode_utf16le_name name) = name.
Proof.
  intros Hn Hl H0. destruct (from_encode_utf16 name Hn) as [E Hu]. unfold decode_utf16le_name, encode_utf16le_name.
  rewrite take_ge by lia. replace 36%nat with (length (encode_utf16 name) + (36 - length (encode_utf16 name)))%nat at 1 by lia.
  replace (72 - 2 * length (encode_utf16 name))%nat with (2 * (36 - length (encode_utf16 name)))%nat by lia.
  rewrite units_of_bytes, take_while_nonzero_zeros by done. done.
Qed.

Record entry_ok (e : GptEntry) : Prop := {
  e_type : length (type_guid e) = 16%nat;
  e_unique : length (unique_guid e) = 16%nat;
  e_start : is_u 64 (starting_lba e);
  e_end : is_u 64 (ending_lba e);
  e_attributes : is_u 64 (attributes e);
  e_name : length (entry_name e) = 72%nat
}.

Lemma length_entry_bytes e : entry_ok e → length (entry_bytes e) = 128%nat.
Proof.
  intros []. unfold entry_bytes. rewrite !length_app, !length_to_le_bytes by lia. lia.
Qed.

Lemma parse_entry_bytes e b : entry_ok e → parse_entry (entry_bytes e ++ b) = e.
Proof.
  intros E. pose proof E as [E1 E2 E3 E4 E5 E6]. unfold parse_entry. destruct e as [ty un st en at_ na]. unfold entry_bytes.
  cbn [type_guid unique_guid starting_lba ending_lba attributes entry_name] in *.
  rewrite <- !app_assoc. assert (∀ n pos l, (32 ≤ pos)%nat → rd n pos (ty ++ un ++ l) = rd n (pos - 32) l) as Hrd.
  { intros n pos l Hp. rewrite !rd_skip_list by lia. f_equal. lia. }
  assert (∀ n l, drop (n + 32) (ty ++ un ++ l) = drop n l) as Hdrop.
  { intros n l. rewrite !drop_app_ge by lia. f_equal. lia. }
  f_equal.
  - by rewrite take_app_length' by done.
  - rewrite drop_app_length' by done. by rewrite take_app_length' by done.
  - rewrite Hrd by lia. by apply (rd_le 8 8 st).
  - rewrite Hrd by lia. rewrite rd_skip_le by lia. by apply (rd_le 8 8 en).
  - rewrite Hrd by lia. rewrite !rd_skip_le by lia. by apply (rd_le 8 8 at_).
  - rewrite (Hdrop 24%nat), !drop_app_ge by (rewrite !length_to_le_bytes by lia; lia). rewrite !length_to_le_bytes by lia.
    change (take 72 (na ++ b) = na). by rewrite take_app_length' by done.
Qed.

Lemma parse_serialized es b : Forall entry_ok es → parse_entries ((es ≫= entry_bytes) ++ b) (length es) = es.
Proof.
  induction es as [|e es IH]; intros H; [done|]. apply Forall_cons in H as [He Hes]. rewrite bind_cons, <- app_assoc.
  pose proof (length_entry_bytes e He) as Hl. cbn [parse_entries length]. rewrite decide_False.
  - rewrite parse_entry_bytes by done. rewrite drop_app_length' by (by rewrite Hl). by rewrite IH.
  - rewrite length_app, Hl. change (Z.to_nat GPT_ENTRY_SIZE) with 128%nat. lia.
Qed.

Lemma length_entries es : Forall entry_ok es → length (es ≫= entry_bytes) = (128 * length es)%nat.
Proof.
  induction 1 as [|e es He _ IH]; [done|]. rewrite bind_cons, length_app, IH, length_entry_bytes by done. simpl. lia.
Qed.

(** A full array of entries, as bytes and back. *)
Lemma serialize_entries_full es : Forall entry_ok es → length es = 128%nat →
  serialize_entries es = Ret (es ≫= entry_bytes) ∧ length (es ≫= entry_bytes) = 16384%nat ∧ parse_entries (es ≫= entry_bytes) 128 = es.
Proof.
  intros He Hl. unfold serialize_entries. change (Z.to_nat GPT_MAX_ENTRIES) with 128%nat. rewrite decide_True by lia.
  change (Z.to_nat (GPT_MAX_ENTRIES * GPT_ENTRY_SIZE) - Z.to_nat GPT_ENTRY_SIZE * length es)%nat with (16384 - 128 * length es)%nat.
  rewrite Hl. change (zeros (16384 - 128 * 128)) with (@nil Z). rewrite app_nil_r. split_and!; [done|by rewrite length_entries, Hl|].
  pose proof (parse_serialized es [] He) as H. by rewrite app_nil_r, Hl in H.
Qed.

Record header_ok (h : GptHeader) : Prop := {
  h_signature : signature h = GPT_SIGNATURE;
  h_revision : is_u 32 (revision h);
  h_size : is_u 32 (header_size h);
  h_my : is_u 64 (my_lba h);
  h_alternate : is_u 64 (alternate_lba h);
  h_first : is_u 64 (first_usable_lba h);
  h_last : is_u 64 (last_usable_lba h);
  h_guid : length (disk_guid h) = 16%nat;
  h_entry_lba : is_u 64 (partition_entry_lba h);
  h_num : is_u 32 (num_partition_entries h);
  h_entry_size : is_u 32 (partition_entry_size h);
  h_crc : is_u 32 (partition_entry_crc32 h)
}.

Lemma length_header_head h : length (header_head h) = 16%nat.
Proof. unfold header_head. by rewrite !length_app, !length_to_le_bytes. Qed.

Lemma length_header_tail h : header_ok h → length (header_tail h) = 72%nat.
Proof. intros H. unfold header_tail. by rewrite !length_app, !length_to_le_bytes, (h_guid _ H). Qed.

(** A header and what is read of it. *)
Lemma parse_header_bytes h c b : header_ok h → is_u 32 c →
  let data := header_head h ++ to_le_bytes 4 c ++ header_tail h ++ b in
  ∃ h', parse_header data = Ok h' ∧ header_crc32 h' = c ∧ num_partition_entries h' = num_partition_entries h ∧
    partition_entry_size h' = partition_entry_size h ∧ partition_entry_crc32 h' = partition_entry_crc32 h.
Proof.
  intros H Hc data. assert (rd 8 0 data = GPT_SIGNATURE) as E0.
  { unfold data, header_head. rewrite <- !app_assoc, (h_signature _ H). by apply (rd_le 8 8). }
  assert (∀ n pos, (20 ≤ pos)%nat → rd n pos data = rd n (pos - 20) (header_tail h ++ b)) as Et.
  { intros n pos Hp. unfold data. rewrite rd_skip_list by (rewrite length_header_head; lia). rewrite rd_skip_le by (rewrite ?length_header_head; lia).
    rewrite length_header_head. f_equal. lia. }
  assert (∀ n pos, (56 ≤ pos)%nat → rd n pos (header_tail h ++ b) = rd n (pos - 52) (to_le_bytes 8 (partition_entry_lba h) ++
    to_le_bytes 4 (num_partition_entries h) ++ to_le_bytes 4 (partition_entry_size h) ++ to_le_bytes 4 (partition_entry_crc32 h) ++ b)) as Ee.
  { intros n pos Hp. unfold header_tail. rewrite <- !app_assoc. rewrite (rd_skip_list _ _ (zeros 4)) by (simpl; lia). rewrite !rd_skip_le by (simpl; lia).
    rewrite rd_skip_list by (rewrite (h_guid _ H); simpl; lia). rewrite (h_guid _ H). f_equal. simpl. lia. }
  unfold parse_header. rewrite decide_False.
  2: { unfold data. rewrite !length_app, length_header_head, length_header_tail, length_to_le_bytes by (done || lia).
       change (Z.to_nat GPT_HEADER_SIZE) with 92%nat. lia. }
  rewrite E0, Z.eqb_refl. simpl. eexists. split; [done|]. cbn [header_crc32 num_partition_entries partition_entry_size partition_entry_crc32].
  split_and!.
  - unfold data. rewrite rd_app_skip by apply length_header_head. by apply (rd_le 4 4).
  - rewrite Et, Ee by lia. rewrite rd_skip_le by (simpl; lia). apply (rd_le 4 4); [done..|apply H].
  - rewrite Et, Ee by lia. rewrite !rd_skip_le by (simpl; lia). apply (rd_le 4 4); [done..|apply H].
  - rewrite Et, Ee by lia. rewrite !rd_skip_le by (simpl; lia). apply (rd_le 4 4); [done..|apply H].
Qed.

(** * Reading a copy *)

Record geometry (g : GptManager) (n : Z) : Prop := {
  g_sectors : sector_size g = 512 ∧ n = 32 ∨ sector_size g = 4096 ∧ n = 4;
  g_room : 2 * n + 4 < num_sectors g < 2 ^ 64
}.

Lemma entry_sectors_ok g n : geometry g n → entry_sectors g = Ret n.
Proof. intros [[[E ->]|[E ->]] _]; unfold entry_sectors; by rewrite E. Qed.

Lemma array_blocks g n (l : list Z) : geometry g n → length l = 16384%nat → num_blocks (client_of g) (length l) = Z.to_nat n.
Proof. intros [[[E ->]|[E ->]] _] ->; unfold num_blocks, client_of; by rewrite E. Qed.

Lemma header_blocks g n (l : list Z) : geometry g n → length l = Z.to_nat (sector_size g) → num_blocks (client_of g) (length l) = 1%nat.
Proof. intros [[[E ->]|[E ->]] _] ->; unfold num_blocks, client_of; by rewrite E. Qed.

Lemma client_pos g n : geometry g n → (0 < Device.sector_size (client_of g))%nat.
Proof. intros [[[E ->]|[E ->]] _]; unfold client_of; rewrite E; simpl; lia. Qed.

Section reading.
Context (crc : list Z → Z) (crc_u32 : ∀ l, is_u 32 (crc l)).

Lemma serialize_header_ok g n h : geometry g n → header_ok h →
  ∃ hb, serialize_header_with_crc crc g h = Ret hb ∧ length hb = Z.to_nat (sector_size g) ∧
    hb = header_head h ++ to_le_bytes 4 (crc (header_head h ++ zeros 4 ++ header_tail h)) ++ header_tail h ++
      zeros (Z.to_nat (sector_size g) - Z.to_nat GPT_HEADER_SIZE).
Proof.
  intros G H. unfold serialize_header_with_crc. eexists. rewrite (proj2 (Z.ltb_ge _ _)).
  2: { destruct G as [[[-> _]|[-> _]] _]; done. }
  split; [done|]. split; [|done]. rewrite !length_app, length_header_head, length_header_tail, length_to_le_bytes by (done || lia).
  unfold zeros. rewrite length_replicate. change (Z.to_nat GPT_HEADER_SIZE) with 92%nat. destruct G as [[[-> _]|[-> _]] _]; simpl; lia.
Qed.

(** The header is [h], the array of entries is [mix]. *)
Lemma copy_reads g n d h hb hl el mix : geometry g n → header_ok h → num_partition_entries h = 128 → partition_entry_size h = 128 →
  serialize_header_with_crc crc g h = Ret hb → holds_data (client_of g) d hl hb → holds_data (client_of g) d el mix → length mix = 16384%nat →
  try_read_gpt_at crc g d hl el =
    if crc mix =? partition_entry_crc32 h
    then ps ← partition_infos 0 (parse_entries mix 128); Ret (Ok (mkTable ps (sector_size g)))
    else Ret (Err CorruptTable).
Proof.
  intros G H Hn He Es Dh De Hm. pose proof (client_pos _ _ G) as Hc.
  destruct (serialize_header_ok g n h G H) as (hb' & Es' & Hl & Ehb). rewrite Es in Es'. injection Es' as <-.
  unfold try_read_gpt_at, read_sector, read_bytes. rewrite (read_blocks_spec _ Hc d hl hb _ Dh) by lia.
  rewrite take_ge by lia. set (c := crc (header_head h ++ zeros 4 ++ header_tail h)) in *.
  destruct (parse_header_bytes h c (zeros (Z.to_nat (sector_size g) - Z.to_nat GPT_HEADER_SIZE)) H) as (h' & Eh & H1 & H2 & H3 & H4); [apply crc_u32|].
  rewrite <- Ehb in Eh. rewrite Eh, H1, H2, H3, H4, Hn, He.
  assert (take 16 hb ++ zeros 4 ++ take 72 (drop 20 hb) = header_head h ++ zeros 4 ++ header_tail h) as ->.
  { rewrite Ehb. rewrite take_app_length' by (by rewrite length_header_head). do 2 f_equal.
    rewrite drop_app_ge by (rewrite length_header_head; lia). rewrite length_header_head.
    rewrite drop_app_length' by (by rewrite length_to_le_bytes). by rewrite take_app_length' by (by rewrite length_header_tail). }
  unfold c. rewrite Z.eqb_refl. simpl negb. cbv iota. change (Z.to_nat (128 * 128)) with 16384%nat.
  rewrite (read_blocks_spec _ Hc d el mix _ De) by lia. rewrite take_ge by lia. by destruct (crc mix =? partition_entry_crc32 h).
Qed.

Lemma read_loop_frame c d d' lba n buf i m : (∀ j, (i ≤ j < i + m)%nat → d' (base_lba c + lba + Z.of_nat j) = d (base_lba c + lba + Z.of_nat j)) →
  read_loop c d' lba n buf i m = read_loop c d lba n buf i m.
Proof.
  revert i buf. induction m as [|m IH]; intros i buf H; simpl; [done|]. rewrite H by lia. destruct (d _); [|done].
  apply IH. intros j Hj. apply H. lia.
Qed.

(** Reading looks at the header and at sectors from the array on. *)
Lemma try_read_frame g n d d' hl el : geometry g n → d' hl = d hl → (∀ l, el ≤ l → d' l = d l) →
  try_read_gpt_at crc g d' hl el = try_read_gpt_at crc g d hl el.
Proof.
  intros G Hh He. assert (∀ k, read_bytes g d' el k = read_bytes g d el k) as Hr.
  { intros k. unfold read_bytes, read_blocks. rewrite (read_loop_frame _ d d'); [done|]. intros j _. apply He. simpl. lia. }
  assert (read_sector g d' hl = read_sector g d hl) as Hs.
  { unfold read_sector, read_bytes, read_blocks. rewrite (read_loop_frame _ d d'); [done|]. intros j Hj.
    assert (j = 0%nat) as ->; [|simpl; by rewrite Z.add_0_r].
    pose proof (header_blocks g n (replicate (Z.to_nat (sector_size g)) 0) G) as Hb. rewrite length_replicate in Hb. rewrite Hb in Hj by done. lia. }
  unfold try_read_gpt_at. rewrite Hs. destruct (read_sector g d hl) as [data|]; [|done]. destruct (parse_header data) as [h|]; [|done].
  by rewrite Hr.
Qed.
End reading.

(** * Layout *)

Definition spec_ok (p : PartitionSpec) : Prop := length (spec_type p) = 16%nat ∧ is_u 64 (size_bytes p).

(** The sectors of a partition of the given size. *)
Definition ceil_sectors (g : GptManager) (size : Z) : Z := (size + sector_size g - 1) / sector_size g.

Definition sectors_for (g : GptManager) (rest : Z) (p : PartitionSpec) : Z :=
  if size_bytes p =? 0 then rest else ceil_sectors g (size_bytes p).

Definition sum_sectors (g : GptManager) (rest : Z) (ps : list PartitionSpec) : Z := foldr (λ p n, sectors_for g rest p + n) 0 ps.

(** The entries of [ps] one after the other, from [current] up to [fin]. *)
Fixpoint laid_out (g : GptManager) (rest current : Z) (ps : list PartitionSpec) (es : list GptEntry) (fin : Z) : Prop :=
  match ps, es with
  | [], [] => current = fin
  | p :: ps, e :: es =>
      type_guid e = spec_type p ∧ starting_lba e = current ∧ ending_lba e = current + sectors_for g rest p - 1 ∧
      entry_name e = encode_utf16le_name (spec_name p) ∧ laid_out g rest (current + sectors_for g rest p) ps es fin
  | _, _ => False
  end.

Lemma ceil_sectors_bounds g n size : geometry g n → is_u 64 size → 0 ≤ ceil_sectors g size < 2 ^ 56 ∧
  size ≤ ceil_sectors g size * sector_size g < size + sector_size g.
Proof.
  intros [G _] [H1 H2]. unfold ceil_sectors. assert (512 ≤ sector_size g) as Hs by (destruct G as [[-> _]|[-> _]]; done).
  pose proof (Z.div_mod (size + sector_size g - 1) (sector_size g) ltac:(lia)) as E.
  pose proof (Z.mod_pos_bound (size + sector_size g - 1) (sector_size g) ltac:(lia)) as M. split; [|nia].
  split; [apply Z.div_pos; lia|]. apply Z.div_lt_upper_bound; [lia|]. nia.
Qed.

Lemma sectors_of_ok g n size : geometry g n → sectors_of g size = Ret (ceil_sectors g size).
Proof. intros [[[E _]|[E _]] _]; unfold sectors_of, ceil_sectors; by rewrite E. Qed.

Lemma fixed_sectors_ok g n ps : geometry g n → Forall spec_ok ps → (length ps ≤ 128)%nat →
  fixed_sectors g ps = Ret (sum_sectors g 0 ps) ∧ 0 ≤ sum_sectors g 0 ps ≤ Z.of_nat (length ps) * 2 ^ 56.
Proof.
  intros G Hs. induction Hs as [|p ps [Ht Hz] Hs IH]; intros Hl; simpl; [done|]. simpl in Hl. destruct IH as [-> IH]; [lia|]. simpl.
  unfold sectors_for. destruct (Z.eqb_spec (size_bytes p) 0) as [E0|E0]; [split; [done|lia]|].
  rewrite (sectors_of_ok _ n) by done. simpl. destruct (ceil_sectors_bounds g n _ G Hz) as [B _].
  rewrite add_w_Ret by lia. split; [done|lia].
Qed.

Lemma length_guid bytes : length (generate_guid bytes) = length bytes.
Proof. unfold generate_guid. by rewrite !length_insert. Qed.

Lemma sectors_for_nonneg g n rest p : geometry g n → 0 ≤ rest → spec_ok p → 0 ≤ sectors_for g rest p.
Proof. intros G Hr [_ Hz]. unfold sectors_for. destruct (_ =? _); [done|]. by apply (ceil_sectors_bounds g n). Qed.

Lemma sum_sectors_nonneg g n rest ps : geometry g n → 0 ≤ rest → Forall spec_ok ps → 0 ≤ sum_sectors g rest ps.
Proof. intros G Hr. induction 1 as [|p ps Hp _ IH]; simpl; [done|]. pose proof (sectors_for_nonneg g n rest p G Hr Hp). lia. Qed.

Lemma place_ok g n random rest ps i current remaining : geometry g n → (∀ i, length (random i) = 16%nat) → Forall spec_ok ps → 0 ≤ rest →
  1 ≤ current → current + remaining < 2 ^ 64 → sum_sectors g rest ps ≤ remaining →
  ∃ es, place g random rest i ps current remaining = Ret (Ok es) ∧ Forall entry_ok es ∧
    laid_out g rest current ps es (current + sum_sectors g rest ps).
Proof.
  intros G Hr Hs H0. revert i current remaining. induction Hs as [|p ps [Ht Hz] Hs IH]; intros i current remaining H1 H2 H3.
  { eexists. split; [done|]. split; [done|]. simpl. lia. }
  cbn [place]. simpl in H3. pose proof (sum_sectors_nonneg g n rest ps G H0 Hs) as N1. pose proof (sectors_for_nonneg g n rest p G H0 (conj Ht Hz)) as N2.
  assert ((if size_bytes p =? 0 then Ret rest else sectors_of g (size_bytes p)) = Ret (sectors_for g rest p)) as ->.
  { unfold sectors_for. destruct (_ =? _); [done|]. by eapply sectors_of_ok. }
  rewrite bind_Ret_l. rewrite (proj2 (Z.ltb_ge _ _)) by lia. rewrite add_w_Ret by lia. rewrite bind_Ret_l. rewrite (sub_w_Ret _ 1) by lia.
  rewrite bind_Ret_l. rewrite add_w_Ret by lia. rewrite bind_Ret_l. rewrite sub_w_Ret by lia. rewrite bind_Ret_l.
  destruct (IH (S i) (current + sectors_for g rest p - 1 + 1) (remaining - sectors_for g rest p)) as (es & -> & He & Hl); [lia..|]. simpl.
  eexists. split; [done|]. split.
  - constructor; [|done]. split; simpl; [done|by rewrite length_guid|unfold is_u; lia..|apply length_name].
  - simpl. split_and!; try done. replace (current + sectors_for g rest p) with (current + sectors_for g rest p - 1 + 1) by lia.
    by replace (current + (sectors_for g rest p + _)) with (current + sectors_for g rest p - 1 + 1 + sum_sectors g rest ps) by lia.
Qed.

Lemma sum_sectors_rest g rest ps :
  sum_sectors g rest ps = sum_sectors g 0 ps + rest * Z.of_nat (length (filter (λ p, size_bytes p = 0) ps)).
Proof.
  induction ps as [|p ps IH]; [simpl; lia|]. rewrite filter_cons. simpl. rewrite IH. unfold sectors_for.
  destruct (Z.eqb_spec (size_bytes p) 0); case_decide; try done; simpl; lia.
Qed.

Lemma laid_out_length g rest current ps es fin : laid_out g rest current ps es fin → length es = length ps.
Proof. revert current es. induction ps as [|p ps IH]; intros current [|e es]; simpl; try done. intros (_ & _ & _ & _ & H). by rewrite (IH _ _ H). Qed.

(** Partitions one after the other are apart and within their bounds. *)
Lemma laid_out_apart g n rest current ps es fin : geometry g n → 0 ≤ rest → Forall spec_ok ps → laid_out g rest current ps es fin →
  current ≤ fin ∧ (∀ i a, es !! i = Some a → current ≤ starting_lba a ∧ ending_lba a < fin) ∧
  ∀ i j a b, (i < j)%nat → es !! i = Some a → es !! j = Some b → ending_lba a < starting_lba b.
Proof.
  intros G Hr Hs. revert current es. induction Hs as [|p ps Hp Hs IH]; intros current [|e es]; simpl; try done.
  { intros <-. split_and!; [done|intros i a; by rewrite lookup_nil|intros i j a b _; by rewrite lookup_nil]. }
  intros (_ & E1 & E2 & _ & H). destruct (IH _ _ H) as (I1 & I2 & I3). pose proof (sectors_for_nonneg g n rest p G Hr Hp) as N.
  split_and!; [lia|..].
  - intros [|i] a Ha; simpl in Ha; [simplify_eq; lia|]. apply I2 in Ha. lia.
  - intros [|i] [|j] a b Hij Ha Hb; simpl in *; try lia; [|by apply (I3 i j); [lia|..]].
    simplify_eq. apply I2 in Hb. lia.
Qed.

Record fits (g : GptManager) (ps : list PartitionSpec) (total : Z) : Prop := {
  t_rest : (length (filter (λ p, size_bytes p = 0%Z) ps) ≤ 1)%nat;
  t_room : sum_sectors g 0 ps ≤ total
}.

Lemma compute_layout_ok g n random ps first last : geometry g n → (∀ i, length (random i) = 16%nat) → Forall spec_ok ps → (length ps ≤ 128)%nat →
  1 ≤ first ≤ last → last < 2 ^ 64 - 1 → fits g ps (last - first + 1) →
  ∃ es, compute_partition_layout g random ps first last = Ret (Ok (es ++ replicate (128 - length ps) empty_entry)) ∧ Forall entry_ok es ∧
    laid_out g (last - first + 1 - sum_sectors g 0 ps) first ps es
      (first + sum_sectors g (last - first + 1 - sum_sectors g 0 ps) ps).
Proof.
  intros G Hr Hs Hl H1 H2 [F1 F2]. destruct (fixed_sectors_ok g n ps G Hs Hl) as [Ef B]. unfold compute_partition_layout.
  rewrite (sub_w_Ret _ first) by lia. rewrite bind_Ret_l. rewrite add_w_Ret by lia. rewrite bind_Ret_l. rewrite decide_False by lia.
  rewrite Ef, bind_Ret_l. rewrite (proj2 (Z.ltb_ge _ _)) by lia. rewrite sub_w_Ret by lia. rewrite bind_Ret_l.
  destruct (place_ok g n random (last - first + 1 - sum_sectors g 0 ps) ps 0 first (last - first + 1)) as (es & -> & He & Hlay); try done; try lia.
  { rewrite sum_sectors_rest. nia. }
  exists es. split; [|done]. rewrite bind_Ret_l. by rewrite (laid_out_length _ _ _ _ _ _ Hlay).
Qed.

(** * Torn writes *)

(** The first [k] sectors are from [data], the others from [old]. *)
Definition torn (ss k : nat) (data old : list Z) : list Z := take (k * ss) data ++ drop (k * ss) old.

Lemma length_torn ss k data old : length data = length old → length (torn ss k data old) = length old.
Proof. intros H. unfold torn. rewrite length_app, length_take, length_drop. lia. Qed.

Lemma block_torn c k data old i : length data = length old → (Device.sector_size c * k ≤ length old)%nat →
  block c (torn (Device.sector_size c) k data old) i = if decide (i < k)%nat then block c data i else block c old i.
Proof.
  intros Hl Hk. unfold block, torn. set (ss := Device.sector_size c) in *. case_decide as Hi.
  - rewrite !take_drop_commute. f_equal. rewrite take_app_le by (rewrite length_take; nia). rewrite take_take. f_equal. nia.
  - rewrite drop_app_ge by (rewrite length_take; nia). rewrite drop_drop, length_take. f_equal. f_equal. nia.
Qed.

Lemma pad_full c l m : (0 < Device.sector_size c)%nat → length l = (m * Device.sector_size c)%nat → pad c l = l.
Proof. intros Hc Hl. unfold pad. rewrite Hl, num_blocks_mul by done. by rewrite Nat.sub_diag, app_nil_r. Qed.

Lemma write_loop_prefix c budget d lba buf i m j : (0 < Device.sector_size c)%nat → (i ≤ j < i + m)%nat →
  (write_loop c budget d lba buf i m).1.2 (base_lba c + lba + Z.of_nat j) =
    if decide (j < i + budget)%nat then Some (block c buf j) else d (base_lba c + lba + Z.of_nat j).
Proof.
  intros Hc. revert budget d i. induction m as [|m IH]; intros budget d i Hj; [lia|]. simpl. destruct budget as [|budget]; simpl.
  { case_decide; [lia|done]. }
  destruct (decide (j = i)) as [->|Hne].
  - rewrite (write_loop_other c Hc) by (intros ? ?; lia). unfold disk_set. rewrite decide_True by done. case_decide; [done|lia].
  - rewrite IH by lia. unfold disk_set. repeat case_decide; done || lia.
Qed.

Lemma write_bytes_full g n budget d lba data : geometry g n → (num_blocks (client_of g) (length data) ≤ budget)%nat →
  ∃ d', write_bytes g budget d lba data = (Ok (), d', budget - num_blocks (client_of g) (length data))%nat ∧
    holds_data (client_of g) d' lba data ∧
    ∀ l, l < lba ∨ lba + Z.of_nat (num_blocks (client_of g) (length data)) ≤ l → d' l = d l.
Proof.
  intros G Hb. unfold write_bytes. destruct (write_blocks_full (client_of g) (client_pos _ _ G) budget d lba data Hb) as (d' & -> & Hh & Hf).
  exists d'. split_and!; [done..|]. intros l Hl. apply Hf. simpl. lia.
Qed.

Lemma write_bytes_short g n budget d lba data : geometry g n → (budget < num_blocks (client_of g) (length data))%nat →
  ∃ d' b, write_bytes g budget d lba data = (Err IoError, d', b) ∧
    (∀ l, l < lba ∨ lba + Z.of_nat (num_blocks (client_of g) (length data)) ≤ l → d' l = d l) ∧
    ∀ j, (j < num_blocks (client_of g) (length data))%nat → d' (lba + Z.of_nat j) =
      if decide (j < budget)%nat then Some (block (client_of g) (pad (client_of g) data) j) else d (lba + Z.of_nat j).
Proof.
  intros G Hb. pose proof (client_pos _ _ G) as Hc. unfold write_bytes.
  pose proof (λ j, write_loop_prefix (client_of g) budget d lba (pad (client_of g) data) 0 (num_blocks (client_of g) (length data)) j Hc) as Hp.
  destruct (write_blocks_short (client_of g) Hc budget d lba data Hb) as (d' & b & E & Hf). unfold write_blocks in *. rewrite E in *. simpl in *.
  exists d', b. split_and!; [done|intros l Hl; apply Hf; lia|]. intros j Hj. apply Hp. lia.
Qed.

(** Sectors of [old] with the first [k] overwritten by those of [data]. *)
Lemma holds_torn g n d d' lba data old k : geometry g n → length data = 16384%nat → length old = 16384%nat → (k ≤ Z.to_nat n)%nat →
  holds_data (client_of g) d lba old →
  (∀ j, (j < Z.to_nat n)%nat → d' (lba + Z.of_nat j) =
    if decide (j < k)%nat then Some (block (client_of g) (pad (client_of g) data) j) else d (lba + Z.of_nat j)) →
  holds_data (client_of g) d' lba (torn (Device.sector_size (client_of g)) k data old).
Proof.
  intros G Hd Ho Hk Hold Hnew. pose proof (client_pos _ _ G) as Hc. set (c := client_of g) in *.
  assert (16384 = Z.to_nat n * Device.sector_size c)%nat as En.
  { destruct G as [[[E ->]|[E ->]] _]; unfold c, client_of; rewrite E; done. }
  assert (length (torn (Device.sector_size c) k data old) = 16384%nat) as Ht by (rewrite length_torn; lia).
  intros i Hi. rewrite (array_blocks g n) in Hi by done. rewrite (pad_full c _ (Z.to_nat n)) by (done || lia).
  rewrite block_torn by (lia || nia). simpl. rewrite Hnew by done. rewrite (pad_full c data (Z.to_nat n)) by (done || lia). case_decide; [done|].
  rewrite <- (pad_full c old (Z.to_nat n)) by (done || lia). apply Hold. rewrite (array_blocks g n) by done. done.
Qed.

(** * Writing the table *)

(** How far the writes of a table have come. *)
Inductive progress (g : GptManager) (n : Z) (d : Disk) (h1 data h2 : list Z) : res unit → Disk → Prop :=
| p_before d' : (∀ l, 1 ≤ l → d' l = d l) → progress g n d h1 data h2 (Err IoError) d'
| p_primary d' k : (k < Z.to_nat n)%nat → holds_data (client_of g) d' 1 h1 →
    (∀ j, (j < Z.to_nat n)%nat → d' (2 + Z.of_nat j) =
      if decide (j < k)%nat then Some (block (client_of g) (pad (client_of g) data) j) else d (2 + Z.of_nat j)) →
    (∀ l, 2 + n ≤ l → d' l = d l) → progress g n d h1 data h2 (Err IoError) d'
| p_backup d' : holds_data (client_of g) d' 1 h1 → holds_data (client_of g) d' 2 data → progress g n d h1 data h2 (Err IoError) d'
| p_done d' : holds_data (client_of g) d' 1 h1 → holds_data (client_of g) d' 2 data →
    holds_data (client_of g) d' (num_sectors g - 1 - n) data → holds_data (client_of g) d' (num_sectors g - 1) h2 →
    progress g n d h1 data h2 (Ok ()) d'.

Section writing.
Context (g : GptManager) (n : Z) (G : geometry g n).
Let c := client_of g.
Let ss := Z.to_nat (sector_size g).

Lemma n_pos : 4 ≤ n.
Proof. destruct G as [[[_ ->]|[_ ->]] _]; lia. Qed.

(** A sector that is written, or not. *)
Lemma write_sector_cases budget d lba data : length data = ss →
  ∃ d' b, (∀ l, l ≠ lba → d' l = d l) ∧
   ((1 ≤ budget)%nat ∧ b = (budget - 1)%nat ∧ write_bytes g budget d lba data = (Ok (), d', b) ∧ holds_data c d' lba data ∨
    budget = 0%nat ∧ write_bytes g budget d lba data = (Err IoError, d', b) ∧ d' lba = d lba).
Proof.
  intros Hl. pose proof (header_blocks g n data G Hl) as Hb. destruct (decide (1 ≤ budget)%nat) as [H|H].
  - destruct (write_bytes_full g n budget d lba data G) as (d' & E & Hh & Hf); [lia|]. rewrite Hb in *.
    exists d', (budget - 1)%nat. split; [intros l Hne; apply Hf; lia|]. left. by split_and!.
  - destruct (write_bytes_short g n budget d lba data G) as (d' & b & E & Hf & Hp); [lia|]. rewrite Hb in *.
    exists d', b. split; [intros l Hne; apply Hf; lia|]. right. split_and!; [lia|done|].
    specialize (Hp 0%nat ltac:(lia)). rewrite decide_False in Hp by lia. by rewrite Z.add_0_r in Hp.
Qed.

Lemma write_array_cases budget d lba data : length data = 16384%nat →
  ∃ d' b, (∀ l, l < lba ∨ lba + n ≤ l → d' l = d l) ∧
   ((Z.to_nat n ≤ budget)%nat ∧ b = (budget - Z.to_nat n)%nat ∧ write_bytes g budget d lba data = (Ok (), d', b) ∧ holds_data c d' lba data ∨
    (budget < Z.to_nat n)%nat ∧ write_bytes g budget d lba data = (Err IoError, d', b) ∧
      ∀ j, (j < Z.to_nat n)%nat → d' (lba + Z.of_nat j) = if decide (j < budget)%nat then Some (block c (pad c data) j) else d (lba + Z.of_nat j)).
Proof.
  intros Hl. pose proof (array_blocks g n data G Hl) as Hb. pose proof n_pos as Hn. destruct (decide (Z.to_nat n ≤ budget)%nat) as [H|H].
  - destruct (write_bytes_full g n budget d lba data G) as (d' & E & Hh & Hf); [lia|]. rewrite Hb in *.
    exists d', (budget - Z.to_nat n)%nat. split; [intros l Hne; apply Hf; lia|]. left. by split_and!.
  - destruct (write_bytes_short g n budget d lba data G) as (d' & b & E & Hf & Hp); [lia|]. rewrite Hb in *.
    exists d', b. split; [intros l Hne; apply Hf; lia|]. right. split_and!; [lia|done..].
Qed.

Lemma holds_keep d d' lba data (m : nat) : num_blocks c (length data) = m → (∀ l, lba ≤ l < lba + Z.of_nat m → d' l = d l) →
  holds_data c d lba data → holds_data c d' lba data.
Proof. intros <- Hf. apply holds_data_frame; [by apply (client_pos _ n)|]. intros l Hl. apply Hf. simpl in Hl. lia. Qed.

Lemma write_all_spec budget d mbr h1 data h2 : length mbr = ss → length h1 = ss → length h2 = ss → length data = 16384%nat →
  ∃ x d' b, write_all g budget d [(0, mbr); (1, h1); (2, data); (num_sectors g - 1 - n, data); (num_sectors g - 1, h2)] = (x, d', b) ∧
    progress g n d h1 data h2 x d' ∧ ((2 * Z.to_nat n + 3 ≤ budget)%nat → x = Ok ()).
Proof.
  intros Lm L1 L2 Ld. pose proof n_pos as Hn. destruct G as [_ [R1 R2]].
  pose proof (header_blocks g n h1 G L1) as B1. pose proof (array_blocks g n data G Ld) as Bd. cbn [write_all].
  destruct (write_sector_cases budget d 0 mbr Lm) as (d0 & b0 & F0 & [(? & -> & -> & _)|(? & -> & E0)]).
  2: { eexists _, _, _. split; [done|]. split; [|lia]. apply p_before. intros l Hl. apply F0. lia. }
  destruct (write_sector_cases (budget - 1) d0 1 h1 L1) as (d1 & b1 & F1 & [(? & -> & -> & A1)|(? & -> & E1)]).
  2: { eexists _, _, _. split; [done|]. split; [|lia]. apply p_before. intros l Hl.
       destruct (decide (l = 1)) as [->|]; [rewrite E1|rewrite F1 by done]; apply F0; lia. }
  destruct (write_array_cases (budget - 1 - 1) d1 2 data Ld) as (d2 & b2 & F2 & [(? & -> & -> & A2)|(? & -> & P2)]).
  2: { eexists _, _, _. split; [done|]. split; [|lia]. apply (p_primary _ _ _ _ _ _ _ (budget - 1 - 1)); [done|..].
       - eapply holds_keep; [exact B1| |exact A1]. intros l Hl. apply F2. lia.
       - intros j Hj. rewrite P2 by done. case_decide; [done|]. rewrite F1, F0 by lia. done.
       - intros l Hl. rewrite F2, F1, F0 by lia. done. }
  assert (holds_data c d2 1 h1) as A1' by (eapply holds_keep; [exact B1| |exact A1]; intros l Hl; apply F2; lia).
  destruct (write_array_cases (budget - 1 - 1 - Z.to_nat n) d2 (num_sectors g - 1 - n) data Ld) as (d3 & b3 & F3 & C3).
  assert (holds_data c d3 1 h1) as K1 by (eapply holds_keep; [exact B1| |exact A1']; intros l Hl; apply F3; lia).
  assert (holds_data c d3 2 data) as K2 by (eapply holds_keep; [exact Bd| |exact A2]; intros l Hl; apply F3; lia).
  destruct C3 as [(? & -> & -> & A3)|(? & -> & _)]; [|eexists _, _, _; split; [done|]; split; [by apply p_backup|lia]].
  destruct (write_sector_cases (budget - 1 - 1 - Z.to_nat n - Z.to_nat n) d3 (num_sectors g - 1) h2 L2) as (d4 & b4 & F4 & C4).
  assert (holds_data c d4 1 h1) as J1 by (eapply holds_keep; [exact B1| |exact K1]; intros l Hl; apply F4; lia).
  assert (holds_data c d4 2 data) as J2 by (eapply holds_keep; [exact Bd| |exact K2]; intros l Hl; apply F4; lia).
  destruct C4 as [(? & -> & -> & A4)|(? & -> & _)]; (eexists _, _, _; split; [done|]; split; [|lia || done]); [|by apply p_backup].
  apply p_done; try done. eapply holds_keep; [exact Bd| |exact A3]. intros l Hl. apply F4. lia.
Qed.
End writing.

(** * Formatting *)

Definition spans (e : GptEntry) : Prop := type_guid e = zeros 16 ∨ (starting_lba e ≤ ending_lba e ∧ ending_lba e - starting_lba e + 1 < 2 ^ 64).

Lemma partition_infos_ok i es : Forall spans es → ∃ ps, partition_infos i es = Ret ps.
Proof.
  intros H. revert i. induction H as [|e es He _ IH]; intros i; [by exists []|]. cbn [partition_infos].
  destruct (IH (i + 1)) as [ps E]. case_decide; [by exists ps|]. destruct He as [He|[H1 H2]]; [done|].
  rewrite sub_w_Ret by done. rewrite bind_Ret_l, add_w_Ret, bind_Ret_l, E by done. by eexists.
Qed.

Lemma laid_out_spans g n rest current ps es fin : geometry g n → Forall spec_ok ps → 0 ≤ rest →
  Forall (λ p, size_bytes p = 0 → 1 ≤ rest) ps → laid_out g rest current ps es fin → 0 ≤ current → fin < 2 ^ 64 → Forall spans es.
Proof.
  intros G Hs Hr H0. revert current es. induction Hs as [|p ps Hp Hs IH]; intros current [|e es]; simpl; try done.
  intros (_ & E1 & E2 & _ & H) Hc Hf. apply Forall_cons in H0 as [Hp0 Hps]. destruct (laid_out_apart _ _ _ _ _ _ _ G Hr Hs H) as (I1 & _).
  assert (1 ≤ sectors_for g rest p) as N.
  { unfold sectors_for. destruct (Z.eqb_spec (size_bytes p) 0) as [E|E]; [by apply Hp0|]. destruct Hp as [_ Hz].
    destruct (ceil_sectors_bounds g n _ G Hz) as [B1 B2]. unfold is_u in Hz.
    assert (0 < sector_size g) by (destruct G as [[[-> _]|[-> _]] _]; done). nia. }
  constructor; [right; lia|]. eapply IH; try done. lia.
Qed.

Lemma empty_entry_ok : entry_ok empty_entry.
Proof. by split. Qed.

Section crash.
Context (crc : list Z → Z) (crc_u32 : ∀ l, is_u 32 (crc l)).
Context (g : GptManager) (n : Z) (G : geometry g n) (random : nat → list Z) (Hrandom : ∀ i, length (random i) = 16%nat).

(** Both copies of the table are [t]. *)
Definition holds_table (d : Disk) (t : PartitionTable) : Prop :=
  try_read_gpt_at crc g d 1 2 = Ret (Ok t) ∧
  try_read_gpt_at crc g d (num_sectors g - 1) (num_sectors g - 1 - n) = Ret (Ok t).

Lemma read_gpt_primary d t : try_read_gpt_at crc g d 1 2 = Ret (Ok t) → read_gpt crc g d = Ret (Ok t).
Proof. intros H. unfold read_gpt. by rewrite H. Qed.

Lemma read_gpt_backup d t : try_read_gpt_at crc g d 1 2 = Ret (Err CorruptTable) →
  try_read_gpt_at crc g d (num_sectors g - 1) (num_sectors g - 1 - n) = Ret (Ok t) → read_gpt crc g d = Ret (Ok t).
Proof.
  intros H1 H2. unfold read_gpt. rewrite H1, bind_Ret_l. pose proof G as [_ [R1 R2]]. pose proof (n_pos g n G).
  rewrite sub_w_Ret by lia. rewrite bind_Ret_l, (entry_sectors_ok _ _ G), bind_Ret_l. rewrite sub_w_Ret by lia. by rewrite bind_Ret_l, H2.
Qed.

Lemma primary_header_ok guid first last data : length guid = 16%nat → is_u 64 first → is_u 64 last → header_ok (primary_header g guid first last (crc data)).
Proof.
  intros Hg Hf Hl. pose proof G as [_ [R1 R2]]. pose proof (n_pos g n G).
  split; cbn -[Z.pow]; try assumption; try apply crc_u32; try reflexivity; unfold is_u, GPT_REVISION_1_0, GPT_HEADER_SIZE, GPT_MAX_ENTRIES, GPT_ENTRY_SIZE; lia.
Qed.

Lemma backup_header_ok guid first last data : length guid = 16%nat → is_u 64 first → is_u 64 last → last + 1 < 2 ^ 64 →
  header_ok (backup_header g guid first last (crc data)).
Proof.
  intros Hg Hf Hl Hb. pose proof G as [_ [R1 R2]]. pose proof (n_pos g n G). unfold is_u in Hf, Hl.
  split; cbn -[Z.pow]; try assumption; try apply crc_u32; try reflexivity; unfold is_u, GPT_REVISION_1_0, GPT_HEADER_SIZE, GPT_MAX_ENTRIES, GPT_ENTRY_SIZE; lia.
Qed.

(** What is read after the writes have come as far as [progress] says. *)
Lemma progress_reads d h1 h2 hb1 hb2 data old t ps x d' :
  header_ok h1 → header_ok h2 → num_partition_entries h1 = 128 → partition_entry_size h1 = 128 → partition_entry_crc32 h1 = crc data →
  num_partition_entries h2 = 128 → partition_entry_size h2 = 128 → partition_entry_crc32 h2 = crc data →
  serialize_header_with_crc crc g h1 = Ret hb1 → serialize_header_with_crc crc g h2 = Ret hb2 →
  length data = 16384%nat → length old = 16384%nat → partition_infos 0 (parse_entries data 128) = Ret ps →
  (∀ k, crc (torn (Z.to_nat (sector_size g)) k data old) = crc data → torn (Z.to_nat (sector_size g)) k data old = data) →
  holds_table d t → holds_data (client_of g) d 2 old → progress g n d hb1 data hb2 x d' →
  match x with
  | Ok _ => holds_table d' (mkTable ps (sector_size g))
  | Err e => e = IoError ∧ (read_gpt crc g d' = Ret (Ok t) ∨ read_gpt crc g d' = Ret (Ok (mkTable ps (sector_size g))))
  end.
Proof.
  intros O1 O2 N1 S1 C1 N2 S2 C2 E1 E2 Ld Lo Eps Hcol [T1 T2] Hold P. pose proof G as [_ [R1 R2]]. pose proof (n_pos g n G) as Hn.
  assert (∀ d', holds_data (client_of g) d' 1 hb1 → holds_data (client_of g) d' 2 data → try_read_gpt_at crc g d' 1 2 = Ret (Ok (mkTable ps (sector_size g)))) as Hnew.
  { intros d1 D1 D2. rewrite (copy_reads crc crc_u32 g n d1 h1 hb1 1 2 data) by done. by rewrite C1, Z.eqb_refl, Eps. }
  destruct P as [d' Hf|d' k Hk D1 Hp Hf|d' D1 D2|d' D1 D2 D3 D4].
  - split; [done|]. left. apply read_gpt_primary. rewrite <- T1. apply (try_read_frame crc g n); [done|apply Hf; lia|intros l Hl; apply Hf; lia].
  - split; [done|]. pose proof (holds_torn g n d d' 2 data old k G Ld Lo ltac:(lia) Hold Hp) as Hm. simpl in Hm.
    pose proof (copy_reads crc crc_u32 g n d' h1 hb1 1 2 _ G O1 N1 S1 E1 D1 Hm) as Hr. rewrite length_torn, C1 in Hr by lia. specialize (Hr Lo).
    destruct (Z.eqb_spec (crc (torn (Z.to_nat (sector_size g)) k data old)) (crc data)) as [Ec|Ec].
    + right. apply read_gpt_primary. rewrite Hr. by rewrite (Hcol k Ec), Eps.
    + left. apply read_gpt_backup; [done|]. rewrite <- T2. apply (try_read_frame crc g n); [done|apply Hf; lia|intros l Hl; apply Hf; lia].
  - split; [done|]. right. by apply read_gpt_primary, Hnew.
  - split; [by apply Hnew|]. rewrite (copy_reads crc crc_u32 g n d' h2 hb2 _ _ data) by done. by rewrite C2, Z.eqb_refl, Eps.
Qed.

Lemma protective_mbr_ok : ∃ mbr, protective_mbr g = Ret mbr ∧ length mbr = Z.to_nat (sector_size g).
Proof.
  pose proof G as [Gs [R1 R2]]. pose proof (n_pos g n G). unfold protective_mbr. rewrite sub_w_Ret by lia. rewrite bind_Ret_l.
  rewrite (proj2 (Z.ltb_ge _ _)) by (destruct Gs as [[-> _]|[-> _]]; lia). eexists. split; [done|].
  unfold zeros. rewrite !length_app, !length_replicate, !length_to_le_bytes by lia. destruct Gs as [[-> _]|[-> _]]; done.
Qed.

Definition first_lba : Z := 2 + n.
Definition last_lba : Z := num_sectors g - 2 - n.

(** What a request must be to be formatted: it fits, and a partition that takes the
    rest of the disk gets at least a sector. *)
Record config_ok (ps : list PartitionSpec) : Prop := {
  q_specs : Forall spec_ok ps;
  q_count : (length ps ≤ 128)%nat;
  q_fits : fits g ps (last_lba - first_lba + 1);
  q_rest : Forall (λ p, size_bytes p = 0 → sum_sectors g 0 ps < last_lba - first_lba + 1) ps
}.

Lemma layout_image ps : config_ok ps →
  ∃ es data infos, compute_partition_layout g random ps first_lba last_lba = Ret (Ok es) ∧ serialize_entries es = Ret data ∧
    length data = 16384%nat ∧ parse_entries data 128 = es ∧ partition_infos 0 es = Ret infos.
Proof.
  intros [Hs Hc Hf Hr]. pose proof G as [_ [R1 R2]]. pose proof (n_pos g n G) as Hn. unfold first_lba, last_lba in *.
  destruct (compute_layout_ok g n random ps (2 + n) (num_sectors g - 2 - n)) as (es & Ec & He & Hl); try done; try lia.
  set (rest := num_sectors g - 2 - n - (2 + n) + 1 - sum_sectors g 0 ps) in *.
  assert (0 ≤ rest) as H0 by (destruct Hf; unfold rest; lia).
  set (all := es ++ replicate (128 - length ps) empty_entry) in *.
  assert (Forall entry_ok all) as Ha by (apply Forall_app; split; [done|apply Forall_replicate, empty_entry_ok]).
  assert (length all = 128%nat) as La by (unfold all; rewrite length_app, length_replicate, (laid_out_length _ _ _ _ _ _ Hl); lia).
  destruct (serialize_entries_full all Ha La) as (Es & Ld & Ep).
  destruct (partition_infos_ok 0 all) as [infos Ei].
  { apply Forall_app. split; [|apply Forall_replicate; by left].
    eapply (laid_out_spans g n rest); try done; try lia.
    - eapply Forall_impl; [exact Hr|]. simpl. intros p Hp Hz. specialize (Hp Hz). unfold rest. lia.
    - rewrite sum_sectors_rest. destruct Hf. unfold rest. nia. }
  by exists all, (all ≫= entry_bytes), infos.
Qed.

Lemma write_gpt_unfold budget d cfg es data : compute_partition_layout g random (specs cfg) first_lba last_lba = Ret (Ok es) → serialize_entries es = Ret data →
  ∃ hb1 hb2 mbr (guid := generate_guid (random (length (specs cfg)))),
    serialize_header_with_crc crc g (primary_header g guid first_lba last_lba (crc data)) = Ret hb1 ∧ length hb1 = Z.to_nat (sector_size g) ∧
    serialize_header_with_crc crc g (backup_header g guid first_lba last_lba (crc data)) = Ret hb2 ∧ length hb2 = Z.to_nat (sector_size g) ∧
    length mbr = Z.to_nat (sector_size g) ∧
    header_ok (primary_header g guid first_lba last_lba (crc data)) ∧ header_ok (backup_header g guid first_lba last_lba (crc data)) ∧
    write_gpt crc g random budget d cfg =
      match write_all g budget d [(0, mbr); (1, hb1); (2, data); (num_sectors g - 1 - n, data); (num_sectors g - 1, hb2)] with
      | (Err e, d, budget) => Ret (Err e, d, budget)
      | (Ok _, d, budget) => ps ← partition_infos 0 es; Ret (Ok (mkTable ps (sector_size g)), d, budget)
      end.
Proof.
  intros Ec Es. pose proof G as [_ [R1 R2]]. pose proof (n_pos g n G) as Hn. set (guid := generate_guid (random (length (specs cfg)))).
  assert (length guid = 16%nat) as Hg by (unfold guid; by rewrite length_guid).
  assert (is_u 64 first_lba) as Uf by (unfold is_u, first_lba; lia). assert (is_u 64 last_lba) as Ul by (unfold is_u, last_lba; lia).
  pose proof (primary_header_ok guid first_lba last_lba data Hg Uf Ul) as O1.
  pose proof (backup_header_ok guid first_lba last_lba data Hg Uf Ul ltac:(unfold last_lba; lia)) as O2.
  destruct (serialize_header_ok crc g n _ G O1) as (hb1 & E1 & L1 & _). destruct (serialize_header_ok crc g n _ G O2) as (hb2 & E2 & L2 & _).
  destruct protective_mbr_ok as (mbr & Em & Lm). exists hb1, hb2, mbr. cbv zeta. split_and!; try done.
  unfold write_gpt. rewrite (entry_sectors_ok _ _ G), bind_Ret_l. rewrite (sub_w_Ret _ 1) by lia. rewrite bind_Ret_l.
  rewrite (sub_w_Ret _ n) by lia. rewrite bind_Ret_l. rewrite sub_w_Ret by lia. rewrite bind_Ret_l. rewrite (proj2 (Z.leb_gt _ _)) by lia.
  replace (num_sectors g - 1 - n - 1) with last_lba by (unfold last_lba; lia). fold first_lba guid. rewrite Ec, bind_Ret_l, Es, bind_Ret_l.
  rewrite E1, bind_Ret_l, E2, bind_Ret_l, Em, bind_Ret_l. by replace (last_lba + 1) with (num_sectors g - 1 - n) by (unfold last_lba; lia).
Qed.
End crash.

(** * Properties *)

(** C24. The layout of a disk. A request that fits is laid out: every partition gets the
    sectors of its size, rounded up, and one that asks for the rest gets what is
    left; the partitions follow each other within the usable sectors, none overlaps
    another, and with a partition for the rest no sector is left over. A request
    that does not fit, or that asks for the rest twice, is refused; none panics. *)
Theorem partition_layout g n random ps (first := 2 + n) (last := num_sectors g - 2 - n) (rest := last - first + 1 - sum_sectors g 0 ps) :
  geometry g n → (∀ i, length (random i) = 16%nat) → Forall spec_ok ps → (length ps ≤ 128)%nat →
  (¬ fits g ps (last - first + 1) → compute_partition_layout g random ps first last = Ret (Err LayoutError)) ∧
  (fits g ps (last - first + 1) → ∃ es fin,
    compute_partition_layout g random ps first last = Ret (Ok (es ++ replicate (128 - length ps) empty_entry)) ∧
    laid_out g rest first ps es fin ∧ fin ≤ last + 1 ∧ (Exists (λ p, size_bytes p = 0) ps → fin = last + 1) ∧
    (∀ i a, es !! i = Some a → first ≤ starting_lba a ∧ ending_lba a ≤ last) ∧
    ∀ i j a b, (i < j)%nat → es !! i = Some a → es !! j = Some b → ending_lba a < starting_lba b).
Proof.
  intros G Hr Hs Hl. pose proof (n_pos g n G) as Hn. pose proof G as [_ [R1 R2]]. split; intros F.
  - unfold compute_partition_layout. rewrite (sub_w_Ret _ first) by lia. rewrite bind_Ret_l. rewrite add_w_Ret by lia. rewrite bind_Ret_l.
    case_decide as Hd; [done|]. destruct (fixed_sectors_ok g n ps G Hs Hl) as [Ef B]. rewrite Ef, bind_Ret_l.
    destruct (Z.ltb_spec (last - first + 1) (sum_sectors g 0 ps)); [done|]. destruct F. split; lia.
  - destruct (compute_layout_ok g n random ps first last G Hr Hs Hl) as (es & E & _ & Hlay); [lia|lia|exact F|]. fold rest in Hlay. pose proof F as [F1 F2].
    destruct (laid_out_apart g n rest first ps es _ G ltac:(lia) Hs Hlay) as (_ & A1 & A2).
    assert (first + sum_sectors g rest ps ≤ last + 1) as Hfin by (rewrite sum_sectors_rest; nia).
    exists es, (first + sum_sectors g rest ps). split_and!; try done.
    + intros Hx. rewrite sum_sectors_rest. assert (length (filter (λ p, size_bytes p = 0) ps) = 1%nat) as ->; [|lia].
      apply Exists_exists in Hx as (p & Hp & Hz). assert (p ∈ filter (λ p, size_bytes p = 0) ps) as Hin by (by apply list_elem_of_filter).
      destruct (filter (λ p, size_bytes p = 0) ps) as [|? [|??]]; [by apply elem_of_nil in Hin|done|simpl in F1; lia].
    + intros i a Ha. apply A1 in Ha. lia.
Qed.

(** C23. Formatting is atomic. A disk with a table is formatted again, the device
    completes any number of sector writes and then fails or loses power. If all are
    completed the call returns the new table and both copies hold it; if not, the
    disk reads as the table before or as the new one, whole. A checksum that does
    not tell a half-written array from the new one is excluded. *)
Theorem format_crash_safe crc g n random budget d cfg t old (first := 2 + n) (last := num_sectors g - 2 - n) :
  (∀ l, is_u 32 (crc l)) → geometry g n → (∀ i, length (random i) = 16%nat) → config_ok g n (specs cfg) →
  holds_table crc g n d t → holds_data (client_of g) d 2 old → length old = 16384%nat →
  (∀ es data k, compute_partition_layout g random (specs cfg) first last = Ret (Ok es) → serialize_entries es = Ret data →
    crc (torn (Z.to_nat (sector_size g)) k data old) = crc data → torn (Z.to_nat (sector_size g)) k data old = data) →
  ∃ es infos x d' b, compute_partition_layout g random (specs cfg) first last = Ret (Ok es) ∧ partition_infos 0 es = Ret infos ∧
    write_gpt crc g random budget d cfg = Ret (x, d', b) ∧ (let t' := mkTable infos (sector_size g) in
    match x with
    | Ok t1 => t1 = t' ∧ holds_table crc g n d' t' ∧ read_gpt crc g d' = Ret (Ok t')
    | Err e => e = IoError ∧ (read_gpt crc g d' = Ret (Ok t) ∨ read_gpt crc g d' = Ret (Ok t'))
    end ∧ ((2 * Z.to_nat n + 3 ≤ budget)%nat → x = Ok t')).
Proof.
  intros Hcrc G Hr Hq Ht Hold Lo Hcol. destruct (layout_image g n G random Hr _ Hq) as (es & data & infos & Ec & Es & Ld & Ep & Ei).
  destruct (write_gpt_unfold crc Hcrc g n G random Hr budget d cfg es data Ec Es) as (hb1 & hb2 & mbr & E1 & L1 & E2 & L2 & Lm & O1 & O2 & ->).
  destruct (write_all_spec g n G budget d mbr hb1 data hb2 Lm L1 L2 Ld) as (x & d' & b & -> & P & Hb).
  pose proof (progress_reads crc Hcrc g n G d _ _ hb1 hb2 data old t infos x d' O1 O2 eq_refl eq_refl eq_refl eq_refl eq_refl eq_refl E1 E2 Ld Lo) as R.
  rewrite Ep in R. specialize (R Ei (λ k, Hcol es data k Ec Es) Ht Hold P).
  exists es, infos. destruct x as [[]|e].
  - rewrite Ei, bind_Ret_l. eexists _, d', b. split_and!; try done. cbv zeta. split; [|done]. split_and!; [done..|]. by apply read_gpt_primary, R.
  - eexists _, d', b. split_and!; try done. cbv zeta. split; [apply R|]. intros H. by specialize (Hb H).
Qed.

(** C37. A drive that cannot read its backup is formatted. When the primary copy is
    damaged and the device fails to read the backup, [initialize] reports that there is
    no table, and [initialize_or_format] does what it does when told to format: the
    partitions are laid out anew over a table that may be intact. *)
Theorem unreadable_backup_formats crc g n bd random budget d cfg m e :
  geometry g n → dev_sector_size bd (get_ns_id m) = Some (sector_size g) → dev_num_sectors bd (get_ns_id m) = Some (num_sectors g) → ns_id g = get_ns_id m →
  e = CorruptTable ∨ e = NoPartitionTable → try_read_gpt_at crc g d 1 2 = Ret (Err e) →
  try_read_gpt_at crc g d (num_sectors g - 1) (num_sectors g - 1 - n) = Ret (Err IoError) →
  initialize crc (Some bd) d m = Ret (Err NoPartitionTable, m) ∧
  initialize_or_format crc (Some bd) random budget d false cfg m = initialize_or_format crc (Some bd) random budget d true cfg m.
Proof.
  intros G Hs Hn Hi He H1 H2. pose proof G as [_ [R1 R2]]. pose proof (n_pos g n G).
  assert (read_gpt crc g d = Ret (Err NoPartitionTable)) as Hr.
  { unfold read_gpt. rewrite H1, bind_Ret_l.
    destruct He as [->| ->]; (rewrite sub_w_Ret by lia; rewrite bind_Ret_l, (entry_sectors_ok _ _ G), bind_Ret_l; rewrite sub_w_Ret by lia; by rewrite bind_Ret_l, H2). }
  assert (initialize crc (Some bd) d m = Ret (Err NoPartitionTable, m)) as E.
  { unfold initialize. rewrite Hs, Hn, <- Hi. replace (mkManager (sector_size g) (num_sectors g) (ns_id g)) with g by (by destruct g). by rewrite Hr. }
  split; [done|]. unfold initialize_or_format. by rewrite E.
Qed.

(** * A drive of twenty sectors *)

Definition small : GptManager := mkManager 4096 20 1.
Definition some_crc (l : list Z) : Z := MetaFormat.crc32_of l `mod` 2 ^ 32.
Definition some_random (i : nat) : list Z := replicate 16 (Z.of_nat i + 1).
Definition some_type : list Z := replicate 16 7.
Definition whole : PartitionConfig := mkConfig 4096 20 1 [mkSpec some_type 0 [97]].
Definition halves : PartitionConfig := mkConfig 4096 20 1 [mkSpec some_type 16384 [98]; mkSpec some_type 0 [99]].
Definition blank : Disk := λ l, if (0 <=? l) && (l <? 20) then Some (zeros 4096) else None.

Lemma small_geometry : geometry small 4.
Proof. split; simpl; [by right|lia]. Defined.

Lemma some_crc_u32 l : is_u 32 (some_crc l).
Proof. unfold some_crc, is_u. apply Z.mod_pos_bound. lia. Qed.

Lemma partition_layout_witness : ∃ es fin,
  compute_partition_layout small some_random (specs halves) 6 14 = Ret (Ok (es ++ replicate 126 empty_entry)) ∧
  laid_out small 5 6 (specs halves) es fin ∧ fin = 15.
Proof.
  destruct (proj2 (partition_layout small 4 some_random (specs halves) small_geometry (λ i, length_replicate 16 _)
    ltac:(repeat constructor; vm_compute; done) ltac:(simpl; lia))) as (es & fin & E & L & _ & F & _).
  { split; vm_compute; lia || done. }
  exists es, fin. split_and!; [exact E|exact L|]. apply F. right. left. done.
Defined.

(** The drive with one partition. *)
Definition formatted : Disk := match write_gpt some_crc small some_random 11 blank whole with Ret (_, d, _) => d | Panic => blank end.
Definition whole_table : PartitionTable := mkTable [mkInfo 0 6 9 some_type (generate_guid (some_random 0)) [97]] 4096.
Definition entries_of (cfg : PartitionConfig) : list Z :=
  match compute_partition_layout small some_random (specs cfg) 6 14 with
  | Ret (Ok es) => match serialize_entries es with Ret data => data | Panic => [] end
  | _ => []
  end.

Lemma formatted_reads : holds_table some_crc small 4 formatted whole_table.
Proof. split; vm_compute; reflexivity. Qed.

Lemma formatted_holds : holds_data (client_of small) formatted 2 (entries_of whole).
Proof.
  intros i Hi. assert (i < 4)%nat as H4 by (by vm_compute in Hi). do 4 (destruct i as [|i]; [vm_compute; reflexivity|]). lia.
Qed.

Lemma halves_collision k : some_crc (torn 4096 k (entries_of halves) (entries_of whole)) = some_crc (entries_of halves) →
  torn 4096 k (entries_of halves) (entries_of whole) = entries_of halves.
Proof.
  destruct k as [|[|[|[|k]]]]; [intros H; vm_compute in H; discriminate H|intros _; vm_compute; reflexivity..|]. intros _.
  assert (length (entries_of halves) = 4 * 4096)%nat as L1 by (vm_compute; reflexivity).
  assert (length (entries_of whole) = 4 * 4096)%nat as L2 by (vm_compute; reflexivity).
  unfold torn. rewrite take_ge, drop_ge by lia. apply app_nil_r.
Qed.

Lemma halves_ok : config_ok small 4 (specs halves).
Proof.
  split; [repeat constructor; vm_compute; done|simpl; lia|split; vm_compute; lia || done|].
  repeat constructor; vm_compute; done.
Qed.

(** Power is lost when the new primary header is on the disk. *)
Lemma format_crash_safe_witness : ∃ es infos x d' b,
  compute_partition_layout small some_random (specs halves) 6 14 = Ret (Ok es) ∧ partition_infos 0 es = Ret infos ∧
  write_gpt some_crc small some_random 2 formatted halves = Ret (x, d', b) ∧
  match x with
  | Ok _ => False
  | Err _ => read_gpt some_crc small d' = Ret (Ok whole_table) ∨ read_gpt some_crc small d' = Ret (Ok (mkTable infos 4096))
  end.
Proof.
  destruct (format_crash_safe some_crc small 4 some_random 2 formatted halves whole_table (entries_of whole))
    as (es & infos & x & d' & b & E1 & E2 & E3 & [H _]).
  - apply some_crc_u32.
  - apply small_geometry.
  - intros i. apply length_replicate.
  - apply halves_ok.
  - apply formatted_reads.
  - apply formatted_holds.
  - vm_compute. reflexivity.
  - intros es data k Ec Es. change (compute_partition_layout small some_random (specs halves) 6 14 = Ret (Ok es)) in Ec.
    assert (data = entries_of halves) as -> by (unfold entries_of; by rewrite Ec, Es). apply halves_collision.
  - exists es, infos, x, d', b. split; [exact E1|]. split; [exact E2|]. split; [exact E3|]. destruct x as [t|e]; [|apply H].
    assert ((λ r, match r with Ret (Ok _, _, _) => true | _ => false end) (write_gpt some_crc small some_random 2 formatted halves) = false) as Hx
      by (vm_compute; reflexivity).
    rewrite E3 in Hx. discriminate Hx.
Defined.

Lemma unreadable_backup_formats_witness :
  initialize some_crc (Some (mkDevice (λ _, Some 4096) (λ _, Some 20))) (λ l, if l =? 19 then None else blank l) (mkDpm None None) =
    Ret (Err NoPartitionTable, mkDpm None None) ∧
  initialize_or_format some_crc (Some (mkDevice (λ _, Some 4096) (λ _, Some 20))) some_random 11 (λ l, if l =? 19 then None else blank l) false whole (mkDpm None None) =
  initialize_or_format some_crc (Some (mkDevice (λ _, Some 4096) (λ _, Some 20))) some_random 11 (λ l, if l =? 19 then None else blank l) true whole (mkDpm None None).
Proof.
  apply (unreadable_backup_formats some_crc small 4) with NoPartitionTable.
  - apply small_geometry.
  - reflexivity.
  - reflexivity.
  - reflexivity.
  - by right.
  - vm_compute. reflexivity.
  - vm_compute. reflexivity.
Defined.

(** The first partition leaves nothing for the second. *)
Definition no_rest : PartitionConfig := mkConfig 4096 20 1 [mkSpec some_type 36864 [98]; mkSpec some_type 0 [99]].

(** The drive with the primary copy of a table written. *)
Definition primary_of (cfg : PartitionConfig) : Disk :=
  let data := entries_of cfg in
  match serialize_header_with_crc some_crc small
    (primary_header small (generate_guid (some_random (length (specs cfg)))) 6 14 (some_crc data)) with
  | Ret hb => (write_all small 11 blank [(1, hb); (2, data)]).1.2
  | Panic => blank
  end.

(** A partition for the rest of the disk is accepted when nothing is left: its last
    sector is the one before its first, which is written to the disk; the call then
    panics on the size of the partition, and so does every later [initialize]. *)
Theorem rest_without_room_panics : write_gpt some_crc small some_random 11 blank no_rest = Panic ∧
  read_gpt some_crc small (primary_of no_rest) = Panic.
Proof. split; vm_compute; reflexivity. Qed.

(** A device that is too small for a table makes the call panic; it is meant to be
    refused. *)
Theorem tiny_device_panics : write_gpt some_crc (mkManager 4096 5 1) some_random 11 blank whole = Panic.
Proof. vm_compute. reflexivity. Qed.

End Gpt.
